(* ===== verification/_CoqProject ===== *)
-Q . S2P
Prelude.v
Cbor.v
Push.v
Frame.v
Crypto.v
Negentropy.v
Reconcile.v
Access.v
Genesis.v
AccessChain.v
Envelope.v
Accept.v
Handshake.v
Budgets.v
Deadline.v
Queue.v
Calls.v
Hub.v
Sync.v
Session.v
Connection.v
Revocation.v
Admission.v
HandshakeDelivery.v
KeyPackages.v
RecoveryWraps.v
InviteCode.v
InviteRecord.v
InviteWire.v
Invites.v
InviteHandlers.v
MediaWire.v
MediaStore.v
Retention.v
Storage.v
MediaGc.v
Media.v
LifecycleWire.v
Lifecycle.v
WakeQueue.v
WakeStore.v
Config.v
AgentCbor.v
AgentLifecycle.v
AgentCard.v
AgentInvoke.v
MlsBoundary.v
Recovery.v
CallFrames.v
Handoff.v
Janitor.v
GenesisMint.v
Health.v
Scrub.v
Archive.v
Restore.v
Migrate.v
