(* ===== verification/Prelude.v ===== *)
(** * Weald Relay: a verification development

    The relay ([src/backend/wealdrelay]) stores and forwards end-to-end
    encrypted envelopes for groups of devices. It cannot read what it carries;
    what it must get right is who may connect, what is stored, in which order,
    who is sent it, and that nothing is silently lost or unbounded. This
    library translates that logic into executable Rocq definitions, one file per
    component, and proves the properties each component is relied on for.

    ** The program's parts and the files that model them

    A connection's bytes are frames of deterministic CBOR ([cbor.rs],
    [frame.rs]). The session ([session.rs]) moves through its states, charges
    budgets and defers work; the socket loop ([ws.rs]) performs it: an access
    set goes to [access], an envelope to [accept.rs] and then to [hub.rs] for
    fanout, a commit to [handshake], a reconciliation message to [negentropy], a
    key package to [keys], a recovery wrap to [recovery], a redemption to
    [invite], a call frame to [calls], a blob request to [media], a compaction
    to [lifecycle], a wake registration to [push]. Everything a connection is sent goes
    through its bounded outbound queue ([ws.rs]), which the hub and the call
    registry share. A process starts from its configuration ([config.rs]), founds
    its workspace once ([invite/genesis.rs]) and takes connections into a bounded
    table ([health.rs]). The clients' library ([src/backend/weald-mls]) signs the
    records agents exchange through the relay, keeps the recovery tags, and is
    called across a C boundary.

    - [Prelude]: results, machine integers, bytes, ordered byte sets, the
      parser monad's generic lemmas and the lists lemmas every file shares.
    - [Cbor]: [cbor.rs]. The encoder, the [Reader] cursor and its typed reads.
    - [Push]: the pure rules of [push/mod.rs] the codec uses.
    - [Frame]: [frame.rs]. Error taxonomy, tags, all frames, [encode],
      [decode], queue cost.
    - [Crypto]: BLAKE3 and Ed25519 as parameters ([Blake3], [Ed25519]) with the
      digest width as the only law. Theorems that need injectivity conclude "or
      here is a collision"; collision freedom is never assumed.
    - [Negentropy], [Reconcile]: [negentropy/mod.rs], [negentropy/reconcile.rs].
      Range messages, their strict decoder, and the two roles' rounds.
    - [Access]: [access/mod.rs]. Access sets, their digest and signatures, and
      [judge], which decides a transition.
    - [Genesis]: [consume_in_tx] of [invite/genesis.rs].
    - [AccessChain]: [access/store.rs]. The tables as a record of finite maps,
      the reads, the publishing transaction, [admits], and the interleaving of
      concurrent publications as a step relation over their pending reads.
    - [Envelope], [Accept]: [envelope/mod.rs], [accept.rs], [log_budget.rs].
    - [Handshake]: [handshake/mod.rs], [handshake/store.rs]. The commit log and
      its appending transaction, on the same group rows and byte counter as
      [Accept]; the two logs move as one [Ledger].
    - [Budgets]: [send_budget.rs], [group_ingress.rs] and the [FrameBudget] of
      [session.rs], against one interface, [WindowMeter].
    - [Deadline]: [deadline.rs].
    - [Queue]: [OutboundSender], [OutboundReceiver] and [try_queue] of [ws.rs];
      tokio's channel and semaphore are the classes [Mpsc] and [Semaphore] with
      their documented laws, and a list and a counter satisfy them. Senders are
      handles into a shared heap of channels, because clones alias.
    - [Calls]: [calls/mod.rs]. The media budget and the call registry.
    - [Hub]: [hub.rs]. Subscriptions, fanout, downgrades, eviction; every
      critical section is a step, so the invariants hold under any interleaving.
    - [Session], [Connection]: [session.rs] and the connection half of [ws.rs].
      The session's frame table, its states and budgets; and the loop that
      reads messages, defers work and answers, with the abstract gate it
      refines. What the stores answer is the environment of a run.
    - [Revocation]: [take_entry], grants and evictions of [ws.rs] and
      [access/store.rs], interleaved with [AUTH]'s two reads.
    - [Admission]: the multi-workspace half of [access/store.rs], [admit] and
      [authorize_group] of [ws.rs].
    - [HandshakeDelivery]: [replay_handshakes] and [subscribe] of [sync.rs],
      [queue_all_awaiting] and [publish_handshake] of [ws.rs].
    - [KeyPackages]: [keys/mod.rs], [keys/store.rs], [key_packages] of [ws.rs].
    - [RecoveryWraps]: [recovery/mod.rs], [recovery/store.rs], [publish_wrap] of
      [ws.rs].
    - [InviteCode], [InviteRecord], [InviteWire], [Invites], [InviteHandlers]:
      [invite/code.rs], [invite/mod.rs], [invite/redeem.rs] and
      [invite/admin.rs], [invite/reserve.rs] and [invite/store.rs], and the two
      handlers of [ws.rs]. Argon2id is a parameter of [InviteCode].
    - [Sync]: [log.rs], [sync.rs]. The reads of the envelope log, the
      reconciliation round cut to the queue, the subscription backfill.
    - [MediaWire]: [media/wire.rs]. The media requests, answers and signed
      retention records.
    - [MediaStore]: [media/store.rs]. Quota rows, reservations, claims,
      multipart sessions.
    - [Retention]: [media/retention.rs]. Controls, manifests, the freeze, the
      threshold, policies and destructions, with reads that may be overtaken.
    - [Storage]: [storage.rs], [media/http.rs]. Object keys, the store as the
      class [BlobStore] with its laws, the filesystem backend as an instance
      with the disk's refusals as a field, and the signed local routes.
    - [MediaGc]: [media/gc.rs], [media/restore.rs] and the media half of
      [janitor.rs]. The collectors, the restore marker, the pass.
    - [Media]: [media/mod.rs]. The rate limiter and every handler, over any
      [BlobStore].
    - [LifecycleWire], [Lifecycle]: [lifecycle/wire.rs], [lifecycle/mod.rs] and
      [lifecycle/store.rs]. The signed compaction instruction, its checks, each
      with a view of the database of its own, and the transaction that anchors a
      checkpoint and deletes below it, on the tables of [Accept] and [Retention].
    - [WakeQueue]: [push/queue.rs], [push/worker.rs], the state of [push/mod.rs]
      and the answers of [push/ringer.rs]. The coalescing queue and the worker's
      loop as a step relation.
    - [WakeStore]: [push/store.rs], [push/dispatch.rs] and [wake_answer] of
      [ws.rs]. The registrations, their ceiling, and who is rung.
    - [CallFrames]: [calls/socket.rs]. Signalling and media frames over [Calls]
      and [Hub], with the group check.
    - [Config]: [config.rs], [profile.rs]. The keys, the two sources, the parsers
      and the rules between settings; the TOML and URL crates are the classes
      [TomlLib] and [UrlPaths].
    - [Handoff]: [invite/handoff.rs]. The base64, the sealing over the class
      [HandoffCrypto] with its laws [HandoffLaws], and the row.
    - [GenesisMint]: the rest of [invite/genesis.rs]. [ensure] and the processes
      that race in it as a step relation, and the transparency log.
    - [Janitor]: [janitor.rs]. The collector's whole pass, over the tables of the
      components it sweeps.
    - [Health]: [health.rs], [retention_notice.rs]. Connection slots, the client's
      address behind proxies, the operator's routes, readiness, the retention
      notice.
    - [Scrub]: [logging.rs]. The four passes over a log line, the replacement of
      ranges, the writer, and what may be logged at a level.
    - [Migrate]: [db.rs]. The fingerprint, the ledger, and [migrate] in processes
      that start together, as a step relation.
    - [Archive], [Restore]: [backup.rs], [restore.rs]. The artifact with its
      manifest, the capture, the strict reader and the load plan; the replacing
      transaction and both commands. A table is the text Postgres copies out of
      it; the crates, Postgres and the object store are the classes [ArchiveLib],
      [Postgres] and [ObjectStore] with their laws, the last kept by the
      filesystem backend of [Storage].
    - [AgentCbor], [AgentLifecycle], [AgentCard], [AgentInvoke]: the agent
      records of [weald-mls] ([agent_cbor.rs], [agent_lifecycle.rs],
      [agent_card.rs], [agent_invoke.rs]). The strict CBOR subset with its schema
      maps, each record with its codec, signing input and verification against
      the class [AgentEd25519], and the admission checks.
    - [MlsBoundary]: [status.rs], [boundary.rs], [buffer.rs], [handle.rs] and
      [handshake_record.rs] of [weald-mls], buffers and handles over an explicit
      heap.
    - [Recovery]: [recovery.rs] of [weald-mls]. The tag directory, wraps and
      their sealing; HPKE and JSON are the class [RecoveryLib] with its laws
      [RecoveryLaws], and an MLS session is a record of what it answers.

    ** What the theorems show

    - Codecs: each decoder accepts exactly the canonical encodings of
      well-formed values ([frame_decode_canonical], [frame_roundtrip],
      [access_decode_exact], [envelope_decode_exact], [recon_decode_exact],
      [invite_decode_exact], [redeem_wire_exact], [wrap_decode_exact]), and a
      failed read leaves the cursor alone ([failed_reads_restore]).
    - The connection: every run refines an abstract gate
      ([connection_refines_gate]): work needs a proof of possession of this
      connection's challenge by a key the access set carries ([content_needs_proof], [proof_binds_connection]),
      is paced ([connection_paced]) and leaves a well-formed session
      ([served_session_ok]); a quiesced instance refuses writes
      ([quiesced_writes_refused]).
    - Authority: what [judge] accepts is a signed successor of the head
      ([judge_accepts_next]); a recovery key can only rotate
      ([rotation_is_narrow]); probation contains a new device
      ([probation_contains]); a quorum is a quorum ([quorum_confirms_sound]);
      digests bind ([digest_binds_transition]); concurrent publications
      serialize ([publications_serialize]); admission follows the head
      ([admits_after_publish]) and cannot be squatted ([members_not_squatted]);
      a revoked device loses its sockets ([revocation_reaches_socket]); the
      genesis key dies once ([genesis_consumed_once]). [phrase_takes_over] is
      the counterexample the rules admit: the quorum a rotation carries is
      unconstrained.
    - The logs: [accept_stores_or_changes_nothing],
      [retry_returns_original], [refusals_leave_no_gap],
      [content_address_binds] for envelopes; [handshake_log_dense],
      [append_stores_or_changes_nothing] and [handshake_resend] for commits;
      [both_logs_stay_consistent] for both under one budget.
    - Reconciliation: messages are decodable and truthful, an exchange that ends
      has converged or exhibits a collision ([reconciliation_converges]), and a
      split makes progress.
    - Delivery: [push_never_lost], [debt_discharged_by_notice],
      [handshake_or_gone], [release_in_order], [evict_total], [queue_bounded];
      a subscription replays the whole commit log ([replay_is_the_log],
      [replay_finishes]) and joins it to the live ones without a gap
      ([subscription_has_no_gap]) when commits are fanned out in log order.
      [overtaken_commit_lost] shows what happens when they are not.
    - Key packages: given out once ([package_given_once]), published under the
      cap ([publish_all_or_nothing]), fetched oldest first
      ([fetch_takes_oldest]), restored when an answer is refused
      ([undelivered_fetch_restored]), in one workspace ([keys_stay_home]).
    - Recovery wraps: a slot only moves forward ([captured_wrap_refused]), its
      predecessor stays thirty days ([prior_kept_thirty_days]), a tag names one
      group ([tag_names_one_group]), removal is exact ([forget_exact]).
    - Invites: seats, guesses, finality, the pinned bundle and the answers of
      the unauthenticated path ([seats_never_oversold], [guesses_bounded],
      [reserve_outcome], [terminated_is_final], [issued_bundle_pinned],
      [redeem_uninformative]), and administration in one workspace
      ([administration_stays_home]).
    - The log read back: [stored_envelope_served], [floor_reads_suffice],
      [omitted_ranges_stay_open], [backfill_honest], [recon_answer_fits].
    - Media: the figures are the rows ([quota_is_the_rows]), a new reservation
      is within the plan ([fresh_reservation_within_plan]) and a part keeps its
      length ([part_length_immutable]); requests are exact and signatures bind
      ([blob_wire_exact], [signed_bytes_bind_media_record]); the retention chain
      is one chain that is never rewritten ([retention_chain_linked],
      [settled_records_stay]), a manifest claims all or nothing
      ([manifest_all_or_nothing]), the threshold is exact ([threshold_exact])
      and windows only grow ([policy_windows_never_shorten]); an object is whole
      or absent ([object_whole_or_absent]) and a token opens one
      ([token_opens_one_object]); a deletion has both authorities
      ([deletion_needs_both_authorities]), what the latest manifest names
      survives a pass ([live_object_survives_pass]) and a restore marker covers
      its passes ([marker_covers_its_passes]); a request stays in its workspace
      ([media_request_confined]) and a read-only one changes nothing
      ([read_only_media_changes_nothing]).
    - Compaction: nothing is deleted without the newest epoch's signature and a
      due record the group's workspace agreed to, and what goes is exact ([compaction_needs_consent],
      [drop_wire_exact], [drop_signature_binds]); checkpoints and their anchors
      stay, and the byte counter is right, while no instruction of a group
      overtakes another ([checkpoints_kept_forever]); a permitted instruction
      runs in full ([permitted_drop_runs]) and the reports are exact
      ([lifecycle_reports_exact]). [concurrent_drops_lose_snapshot],
      [drop_overtakes_freeze] and [one_off_authorizes_again] show what the checks
      do not hold.
    - Push: the queue is bounded and paced ([wakes_bounded_and_paced]), rings
      come first ([rings_outrank_messages]), a due wake is not slept through but for
      a pause of at most sixty seconds ([due_wake_is_rung]); a handle rings one device
      ([handle_rings_one_device]), a frame changes its own registration
      ([wake_frame_confined]) at most five times an hour
      ([registrations_per_hour]), and exactly the absent members of a group are
      rung ([absent_members_are_rung], [unknown_handle_forgotten]).
    - Limits: the send, ingress, frame and media budgets over any sequence of
      requests, the call table in every reachable state, the deadlines; the
      connection table counts exactly its sockets ([connection_slots_exact]).
    - Calls: media stays among participants authorized for the call's group
      ([call_media_confined]); what a signalling frame does ([call_frame_outcome]).
    - Founding: one bootstrap invite however many processes start
      ([one_founding_per_workspace], [genesis_minted_once]), delivered sealed
      ([handoff_delivers], [base64_round_trip]), logged under a chain
      ([transparency_log_binding]).
    - Operation: a relay starts only in a posture it can honour
      ([resolved_posture], [resolution_closed]); a client whose last
      line decodes cannot choose the address it is charged to
      ([client_source_not_spoofed]); the operator's routes, the sweep included,
      do no more than they say ([operator_routes_confined],
      [readyz_discloses], [overdue_counts]); a secret does not survive the log
      writer ([planted_secret_dropped], [named_secrets_dropped]).
    - Migrations: each runs once, in order ([migrations_run_once_in_order]), all
      that can ([migrate_finishes]), and an edited one is noticed
      ([edited_migration_refused]).
    - Backup: a capture is what its manifest says ([capture_fixed_by_manifest]), a
      restore replaces the rows whole or not at all
      ([restore_rows_all_or_nothing]), and a backup restores ([backup_restores]).
    - Agent records: the decoders accept exactly the canonical encodings
      ([raw_value_exactly_bounded_items], [agent_map_canonical],
      [lifecycle_codec_exact], [card_codec_exact], [invoke_codec_exact]); a
      content address and a signature name one record ([card_hash_identity],
      [verified_records_bound]) of one kind ([agent_signing_inputs_disjoint]);
      admission is exact ([admission_exact]).
    - The client's boundary and recovery: [boundary_statuses],
      [buffer_freed_once], [handle_thread_confined], [handshake_record_exact];
      [directory_handoff], [recovery_round_trip].

    ** Representation

    A machine integer is a [Z] with its range and its saturating or wrapping
    operation written out. Bytes are [Byte.byte]. A [HashMap] is a [gmap]; where
    the order a map is walked in can be observed, the order is an argument. A
    database transaction is a function from tables to tables that answers the
    old tables on a rollback; a statement that would fail a constraint is an
    error value. A database that does not answer is an argument of the media,
    compaction and push handlers and is left out elsewhere. Where a handler
    runs several transactions, each is a step, and the theorems quantify over
    what other tasks do between them. Loops recurse on their input. Two are
    bounded otherwise. The split loop of [Reconcile] has as fuel the number of
    items left to cut: every turn cuts at least one, and the theorems on its
    output (complete cover, progress) hold for that fuel. The replay loop of
    [HandshakeDelivery] is given one element per turn, the tables that turn
    reads, and [replay_finishes] says how many turns are enough.

    ** Not modelled

    The HTTP client of the ringer and the S3 client of the object store; process
    startup, the HTTP server and metrics; and of [weald-mls] the MLS session over
    OpenMLS with its storage and C entry points: calls into packages whose code is
    not here. *)

From Stdlib Require Import ZArith Lia.
From Stdlib Require Import Strings.Byte.
From stdpp Require Import base tactics numbers list countable gmap sets sorting.


Declare Scope relay_scope.
Delimit Scope relay_scope with relay.
Open Scope relay_scope.

(** ** Results

    Rust's [Result<A, E>]: a value or an error, never both. *)
Inductive result (E A : Type) : Type :=
| Ok (a : A)
| Err (e : E).
Arguments Ok {E A} a.
Arguments Err {E A} e.

Definition result_bind {E A B} (m : result E A) (k : A → result E B) : result E B :=
  match m with Ok a => k a | Err e => Err e end.

Definition map_err {E F A} (f : E → F) (m : result E A) : result F A :=
  match m with Ok a => Ok a | Err e => Err (f e) end.

Definition is_ok {E A} (m : result E A) : bool :=
  match m with Ok _ => true | Err _ => false end.

Notation "'let?' x ':=' m 'in' k" := (result_bind m (fun x => k))
  (at level 10, x pattern, m at level 100, k at level 200) : relay_scope.
Notation "'check!' b 'else' e 'in' k" := (if b then k else Err e)
  (at level 10, b at level 100, e at level 100, k at level 200) : relay_scope.

Lemma result_bind_ok {E A B} (m : result E A) (k : A → result E B) b :
  result_bind m k = Ok b → ∃ a, m = Ok a ∧ k a = Ok b.
Proof. destruct m as [a|e]; simpl; [eauto | discriminate]. Qed.

Lemma map_err_ok {E F A} (f : E → F) (m : result E A) a :
  map_err f m = Ok a ↔ m = Ok a.
Proof. destruct m; simpl; split; congruence. Qed.

(** ** Machine integers

    A [u8], [u16], [u32] or [u64] is a [Z] in range; the saturating
    operations are written out. *)
Definition U8_MAX : Z := 255.
Definition U16_MAX : Z := 65535.
Definition U32_MAX : Z := 4294967295.
Definition U64_MAX : Z := 18446744073709551615.
Definition I64_MAX : Z := 9223372036854775807.
Definition I64_MIN : Z := -9223372036854775808.

Definition is_u8 (z : Z) : Prop := (0 ≤ z ≤ U8_MAX)%Z.
Definition is_u16 (z : Z) : Prop := (0 ≤ z ≤ U16_MAX)%Z.
Definition is_u32 (z : Z) : Prop := (0 ≤ z ≤ U32_MAX)%Z.
Definition is_u64 (z : Z) : Prop := (0 ≤ z ≤ U64_MAX)%Z.

Definition u64_saturating_add (a b : Z) : Z := Z.min U64_MAX (a + b).
Definition u64_saturating_sub (a b : Z) : Z := Z.max 0 (a - b).
Definition i64_saturating (z : Z) : Z := Z.max I64_MIN (Z.min I64_MAX z).

Ltac unfold_ints :=
  unfold is_u8, is_u16, is_u32, is_u64, u64_saturating_add, u64_saturating_sub,
    i64_saturating, U8_MAX, U16_MAX, U32_MAX, U64_MAX, I64_MAX, I64_MIN in *.
Ltac int_solve := unfold_ints; lia.

(** ** Bytes *)
Abbreviation byte := Byte.byte.

Definition byte_to_Z (b : byte) : Z := Z.of_N (Byte.to_N b).
Definition byte_of_Z (z : Z) : byte :=
  match Byte.of_N (Z.to_N (z mod 256)) with Some b => b | None => Byte.x00 end.

Lemma byte_to_Z_range b : (0 ≤ byte_to_Z b < 256)%Z.
Proof.
  unfold byte_to_Z. pose proof (Byte.to_N_bounded b). lia.
Qed.

Lemma byte_to_Z_of_Z z : byte_to_Z (byte_of_Z z) = (z mod 256)%Z.
Proof.
  unfold byte_to_Z, byte_of_Z.
  pose proof (Z.mod_pos_bound z 256 ltac:(lia)) as Hr.
  destruct (Byte.of_N (Z.to_N (z mod 256))) as [b|] eqn:E.
  - apply Byte.to_of_N in E. rewrite E. lia.
  - apply Byte.of_N_None_iff in E. lia.
Qed.

Lemma byte_to_Z_of_Z_small z : (0 ≤ z < 256)%Z → byte_to_Z (byte_of_Z z) = z.
Proof. intros. rewrite byte_to_Z_of_Z. by apply Z.mod_small. Qed.

Lemma byte_to_Z_inj a b : byte_to_Z a = byte_to_Z b → a = b.
Proof.
  unfold byte_to_Z. intros H%N2Z.inj.
  pose proof (Byte.of_to_N a) as Ha. pose proof (Byte.of_to_N b) as Hb.
  rewrite H in Ha. congruence.
Qed.

Lemma byte_of_Z_to_Z b : byte_of_Z (byte_to_Z b) = b.
Proof.
  apply byte_to_Z_inj. apply byte_to_Z_of_Z_small, byte_to_Z_range.
Qed.

#[global] Instance byte_eq_dec : EqDecision byte.
Proof. intros a b. destruct (Byte.byte_eq_dec a b); [left|right]; assumption. Defined.

#[global] Instance byte_countable : Countable byte :=
  inj_countable Byte.to_N Byte.of_N Byte.of_to_N.

(** Big-endian bytes: [to_be_bytes] at a width, and the fold a reader uses. *)
Fixpoint be_bytes (n : nat) (z : Z) : list byte :=
  match n with
  | O => []
  | S n' => byte_of_Z (Z.shiftr z (8 * Z.of_nat n')) :: be_bytes n' z
  end.

Definition be_step (v : Z) (b : byte) : Z := Z.lor (Z.shiftl v 8) (byte_to_Z b).
Definition be_value (bs : list byte) : Z := fold_left be_step bs 0%Z.

Lemma high_bits k n m : (0 ≤ k < 2 ^ n)%Z → (0 ≤ n ≤ m)%Z → Z.testbit k m = false.
Proof.
  intros Hk Hn. destruct (decide (k = 0)%Z) as [->|]; [apply Z.bits_0|].
  apply Z.bits_above_log2; [lia|]. apply Z.log2_lt_pow2; [lia|].
  apply Z.lt_le_trans with (2 ^ n)%Z; [lia|]. apply Z.pow_le_mono_r; lia.
Qed.

(** [(v << n) | k] is addition when [k] fits below the shift. *)
Lemma lor_shiftl_add v k n :
  (0 ≤ n)%Z → (0 ≤ k < 2 ^ n)%Z → Z.lor (Z.shiftl v n) k = (v * 2 ^ n + k)%Z.
Proof.
  intros Hn Hk.
  assert (Hor : Z.lor (Z.shiftl v n) k = Z.lxor (Z.shiftl v n) k).
  { apply Z.bits_inj'. intros m Hm. rewrite Z.lxor_spec, Z.lor_spec.
    destruct (decide (m < n)%Z); [by rewrite Z.shiftl_spec_low|].
    rewrite (high_bits k n) by lia. by rewrite orb_false_r, xorb_false_r. }
  rewrite Hor, <- Z.add_nocarry_lxor; [rewrite Z.shiftl_mul_pow2 by lia; lia|].
  apply Z.bits_inj'. intros m Hm. rewrite Z.land_spec, Z.bits_0.
  destruct (decide (m < n)%Z); [by rewrite Z.shiftl_spec_low|].
  rewrite (high_bits k n) by lia. by rewrite andb_false_r.
Qed.

Lemma be_step_arith v b : be_step v b = (v * 256 + byte_to_Z b)%Z.
Proof.
  unfold be_step. rewrite lor_shiftl_add; [done|lia|].
  pose proof (byte_to_Z_range b). lia.
Qed.

Lemma length_be_bytes n z : length (be_bytes n z) = n.
Proof. induction n; simpl; congruence. Qed.

Lemma pow256_succ n : (256 ^ Z.of_nat (S n) = 256 * 256 ^ Z.of_nat n)%Z.
Proof. rewrite Nat2Z.inj_succ, Z.pow_succ_r by lia. done. Qed.

Lemma shiftr_8n z n : (Z.shiftr z (8 * Z.of_nat n) = z / 256 ^ Z.of_nat n)%Z.
Proof.
  rewrite Z.shiftr_div_pow2 by lia. f_equal.
  rewrite Z.pow_mul_r by lia. done.
Qed.

Lemma be_value_acc bs v :
  fold_left be_step bs v = (v * 256 ^ Z.of_nat (length bs) + be_value bs)%Z.
Proof.
  revert v. unfold be_value. induction bs as [|b bs IH]; intros v.
  { cbn [fold_left length]. change (256 ^ Z.of_nat 0)%Z with 1%Z. lia. }
  cbn [fold_left length]. rewrite IH, (IH (be_step 0 b)), !be_step_arith, pow256_succ. ring.
Qed.

Lemma be_value_cons b bs :
  be_value (b :: bs) = (byte_to_Z b * 256 ^ Z.of_nat (length bs) + be_value bs)%Z.
Proof.
  unfold be_value at 1. cbn [fold_left]. rewrite be_value_acc, be_step_arith. ring.
Qed.

Lemma be_value_bound bs : (0 ≤ be_value bs < 256 ^ Z.of_nat (length bs))%Z.
Proof.
  induction bs as [|b bs IH]; [by vm_compute|].
  rewrite be_value_cons. cbn [length]. rewrite pow256_succ.
  pose proof (byte_to_Z_range b). nia.
Qed.

Lemma be_value_bytes n z :
  (0 ≤ z)%Z → be_value (be_bytes n z) = (z mod 256 ^ Z.of_nat n)%Z.
Proof.
  intros Hz. induction n as [|n IH]; [by rewrite Z.mod_1_r|].
  cbn [be_bytes]. rewrite be_value_cons, length_be_bytes, IH, byte_to_Z_of_Z, shiftr_8n, pow256_succ.
  rewrite (Z.mul_comm 256), Z.rem_mul_r by lia. lia.
Qed.

Lemma be_value_bytes_small n z :
  (0 ≤ z < 256 ^ Z.of_nat n)%Z → be_value (be_bytes n z) = z.
Proof. intros. rewrite be_value_bytes by lia. by apply Z.mod_small. Qed.

Lemma be_bytes_value_app bs k :
  be_bytes (length bs) (k * 256 ^ Z.of_nat (length bs) + be_value bs) = bs.
Proof.
  revert k. induction bs as [|b bs IH]; intros k; [done|].
  cbn [length be_bytes]. rewrite be_value_cons, pow256_succ.
  pose proof (be_value_bound bs) as Hb. f_equal.
  - apply byte_to_Z_inj. rewrite byte_to_Z_of_Z, shiftr_8n.
    replace (k * (256 * 256 ^ Z.of_nat (length bs))
             + (byte_to_Z b * 256 ^ Z.of_nat (length bs) + be_value bs))%Z
      with ((k * 256 + byte_to_Z b) * 256 ^ Z.of_nat (length bs) + be_value bs)%Z by ring.
    rewrite Z.div_add_l, (Z.div_small (be_value bs)), Z.add_0_r by lia.
    rewrite Z.add_comm, Z.mod_add by lia. apply Z.mod_small, byte_to_Z_range.
  - replace (k * (256 * 256 ^ Z.of_nat (length bs))
             + (byte_to_Z b * 256 ^ Z.of_nat (length bs) + be_value bs))%Z
      with ((k * 256 + byte_to_Z b) * 256 ^ Z.of_nat (length bs) + be_value bs)%Z by ring.
    apply IH.
Qed.

Lemma be_bytes_value bs : be_bytes (length bs) (be_value bs) = bs.
Proof. pose proof (be_bytes_value_app bs 0). by rewrite Z.mul_0_l, Z.add_0_l in H. Qed.

(** ** The byte-string order

    [Ord] on [Vec<u8>] and [[u8; N]]: lexicographic, a prefix first. *)
Fixpoint bytes_compare (a b : list byte) : comparison :=
  match a, b with
  | [], [] => Eq
  | [], _ :: _ => Lt
  | _ :: _, [] => Gt
  | x :: a', y :: b' =>
      match Z.compare (byte_to_Z x) (byte_to_Z y) with
      | Eq => bytes_compare a' b'
      | c => c
      end
  end.

Definition bytes_ltb (a b : list byte) : bool :=
  match bytes_compare a b with Lt => true | _ => false end.
Definition bytes_lt (a b : list byte) : Prop := bytes_ltb a b = true.

Lemma bytes_compare_refl a : bytes_compare a a = Eq.
Proof. induction a as [|x a IH]; simpl; [done|]. by rewrite Z.compare_refl. Qed.

Lemma bytes_compare_eq a b : bytes_compare a b = Eq → a = b.
Proof.
  revert b. induction a as [|x a IH]; intros [|y b]; simpl; try done.
  destruct (Z.compare_spec (byte_to_Z x) (byte_to_Z y)) as [E| |]; try done.
  intros H%IH. apply byte_to_Z_inj in E. congruence.
Qed.

Lemma bytes_compare_antisym a b : bytes_compare b a = CompOpp (bytes_compare a b).
Proof.
  revert b. induction a as [|x a IH]; intros [|y b]; simpl; try done.
  rewrite (Z.compare_antisym (byte_to_Z x)).
  destruct (Z.compare (byte_to_Z x) (byte_to_Z y)); simpl; auto.
Qed.

#[global] Instance bytes_lt_trans : Transitive bytes_lt.
Proof.
  intros a b c. unfold bytes_lt, bytes_ltb. revert b c.
  induction a as [|x a IH]; intros [|y b] [|z c]; simpl; try done.
  destruct (Z.compare_spec (byte_to_Z x) (byte_to_Z y));
    destruct (Z.compare_spec (byte_to_Z y) (byte_to_Z z));
    destruct (Z.compare_spec (byte_to_Z x) (byte_to_Z z)); try done; try lia.
  apply IH.
Qed.

#[global] Instance bytes_lt_irrefl : Irreflexive bytes_lt.
Proof. intros a H. unfold bytes_lt, bytes_ltb in H. by rewrite bytes_compare_refl in H. Qed.

Lemma bytes_lt_total a b : bytes_lt a b ∨ a = b ∨ bytes_lt b a.
Proof.
  unfold bytes_lt, bytes_ltb. rewrite (bytes_compare_antisym a b).
  destruct (bytes_compare a b) eqn:E; simpl; auto.
  apply bytes_compare_eq in E. auto.
Qed.

Lemma bytes_ltb_false a b : bytes_ltb a b = false ↔ a = b ∨ bytes_lt b a.
Proof.
  split.
  - intros H. destruct (bytes_lt_total a b) as [H'|]; [|done].
    unfold bytes_lt in H'. congruence.
  - intros [->|H].
    + unfold bytes_ltb. by rewrite bytes_compare_refl.
    + destruct (bytes_ltb a b) eqn:E; [|done].
      exfalso. apply (bytes_lt_irrefl a). by transitivity b.
Qed.

(** The [windows(2)] test [pair[0] >= pair[1]] negated over a whole list. *)
Fixpoint strictly_ascending (l : list (list byte)) : bool :=
  match l with
  | x :: (y :: _) as t => bytes_ltb x y && strictly_ascending t
  | _ => true
  end.

Lemma strictly_ascending_spec l :
  strictly_ascending l = true ↔ StronglySorted bytes_lt l.
Proof.
  induction l as [|x l IH]; [split; [constructor|done]|].
  destruct l as [|y l].
  { split; [repeat constructor | done]. }
  cbn [strictly_ascending]. rewrite andb_true_iff, IH. split.
  - intros [Hxy Hs]. constructor; [done|]. constructor; [done|].
    apply StronglySorted_inv in Hs as [_ Hf].
    eapply Forall_impl; [exact Hf|]. intros z Hz. by transitivity y.
  - intros [Hs Hf]%StronglySorted_inv. split; [|done].
    by apply Forall_cons in Hf as [? _].
Qed.

Lemma strictly_sorted_NoDup l : StronglySorted bytes_lt l → NoDup l.
Proof.
  induction 1 as [|x l Hs IH Hf]; constructor; [|done].
  intros Hin. rewrite Forall_forall in Hf. apply (bytes_lt_irrefl x). by apply Hf.
Qed.

(** A strictly ascending list is determined by its elements. *)
Lemma strictly_sorted_ext l1 l2 :
  StronglySorted bytes_lt l1 → StronglySorted bytes_lt l2 →
  (∀ x, x ∈ l1 ↔ x ∈ l2) → l1 = l2.
Proof.
  intros Hs1. revert l2. induction Hs1 as [|x l1 Hs1 IH Hf1]; intros l2 Hs2 Heq.
  { destruct l2 as [|y l2]; [done|]. exfalso.
    apply (not_elem_of_nil y), Heq. set_solver. }
  destruct Hs2 as [|y l2 Hs2 Hf2].
  { exfalso. apply (not_elem_of_nil x), Heq. set_solver. }
  rewrite Forall_forall in Hf1, Hf2.
  assert (x = y) as <-.
  { assert (x ∈ y :: l2) as Hx by (apply Heq; set_solver).
    assert (y ∈ x :: l1) as Hy by (apply Heq; set_solver).
    apply elem_of_cons in Hx as [|Hx]; [done|].
    apply elem_of_cons in Hy as [|Hy]; [done|].
    exfalso. apply (bytes_lt_irrefl x). transitivity y; auto. }
  f_equal. apply IH; [done|]. intros z. split; intros Hz.
  - assert (z ∈ x :: l2) as Hz' by (apply Heq; set_solver).
    apply elem_of_cons in Hz' as [->|]; [|done].
    exfalso. apply (bytes_lt_irrefl x). auto.
  - assert (z ∈ x :: l1) as Hz' by (apply Heq; set_solver).
    apply elem_of_cons in Hz' as [->|]; [|done].
    exfalso. apply (bytes_lt_irrefl x). auto.
Qed.

(** [sort_unstable] on byte strings (the order is total, so the result is the
    one sorted permutation) and [dedup], which drops consecutive repeats. *)
Fixpoint bytes_insert (x : list byte) (l : list (list byte)) : list (list byte) :=
  match l with
  | [] => [x]
  | y :: l' => if bytes_ltb y x then y :: bytes_insert x l' else x :: l
  end.
Definition bytes_sort (l : list (list byte)) : list (list byte) := foldr bytes_insert [] l.

Fixpoint bytes_dedup (l : list (list byte)) : list (list byte) :=
  match l with
  | x :: (y :: _) as t => if decide (x = y) then bytes_dedup t else x :: bytes_dedup t
  | _ => l
  end.

Definition bytes_le (a b : list byte) : Prop := a = b ∨ bytes_lt a b.

Lemma elem_of_bytes_insert x y l : y ∈ bytes_insert x l ↔ y = x ∨ y ∈ l.
Proof.
  induction l as [|z l IH]; simpl; [set_solver|].
  destruct (bytes_ltb z x); rewrite ?elem_of_cons, ?IH; set_solver.
Qed.

Lemma elem_of_bytes_sort y l : y ∈ bytes_sort l ↔ y ∈ l.
Proof.
  induction l as [|x l IH]; [done|].
  simpl. rewrite elem_of_bytes_insert, IH. set_solver.
Qed.

Lemma length_bytes_sort l : length (bytes_sort l) = length l.
Proof.
  assert (∀ x l', length (bytes_insert x l') = S (length l')) as Hi.
  { intros x l'. induction l' as [|y l' IH]; simpl; [done|].
    destruct (bytes_ltb y x); simpl; congruence. }
  induction l as [|x l IH]; [done|]. simpl. by rewrite Hi, IH.
Qed.

Lemma bytes_insert_sorted x l :
  StronglySorted bytes_le l → StronglySorted bytes_le (bytes_insert x l).
Proof.
  induction 1 as [|y l Hs IH Hf]; simpl; [repeat constructor|].
  destruct (bytes_ltb y x) eqn:E.
  - constructor; [done|]. rewrite Forall_forall in *. intros z Hz.
    apply elem_of_bytes_insert in Hz as [->|Hz]; [by right | auto].
  - apply bytes_ltb_false in E. constructor; [by constructor|].
    assert (bytes_le x y) as Hxy by (destruct E; [left|right]; done).
    constructor; [done|]. rewrite Forall_forall in *. intros z Hz.
    destruct Hxy as [->|Hxy]; [auto|]. destruct (Hf z Hz) as [<-|Hyz]; [by right|].
    right. by transitivity y.
Qed.

Lemma bytes_sort_sorted l : StronglySorted bytes_le (bytes_sort l).
Proof. induction l; simpl; [constructor | by apply bytes_insert_sorted]. Qed.

Lemma bytes_dedup_cons x y l :
  bytes_dedup (x :: y :: l) =
  if decide (x = y) then bytes_dedup (y :: l) else x :: bytes_dedup (y :: l).
Proof. done. Qed.

Lemma elem_of_bytes_dedup y l : y ∈ bytes_dedup l ↔ y ∈ l.
Proof.
  induction l as [|x l IH]; [done|]. destruct l as [|z l]; [done|].
  rewrite bytes_dedup_cons. case_decide as E.
  - rewrite IH. subst. set_solver.
  - rewrite elem_of_cons, IH. set_solver.
Qed.

Lemma length_bytes_dedup l : length (bytes_dedup l) ≤ length l.
Proof.
  induction l as [|x l IH]; [done|]. destruct l as [|z l]; [done|].
  rewrite bytes_dedup_cons. case_decide; cbn [length] in *; lia.
Qed.

Lemma bytes_dedup_sorted l :
  StronglySorted bytes_le l → StronglySorted bytes_lt (bytes_dedup l).
Proof.
  induction 1 as [|x l Hs IH Hf]; [constructor|].
  destruct l as [|z l]; [repeat constructor|].
  rewrite bytes_dedup_cons. case_decide as E; [done|].
  constructor; [done|]. rewrite Forall_forall in *. intros y Hy.
  rewrite elem_of_bytes_dedup in Hy.
  apply StronglySorted_inv in Hs as [_ Hz]. rewrite Forall_forall in Hz.
  assert (bytes_lt x z) as Hxz by (destruct (Hf z ltac:(set_solver)); done).
  apply elem_of_cons in Hy as [->|Hy]; [done|].
  destruct (Hz y Hy) as [<-|]; [done|]. by transitivity z.
Qed.

Lemma bytes_sort_dedup_sorted l : StronglySorted bytes_lt (bytes_dedup (bytes_sort l)).
Proof. apply bytes_dedup_sorted, bytes_sort_sorted. Qed.

Lemma elem_of_bytes_sort_dedup y l : y ∈ bytes_dedup (bytes_sort l) ↔ y ∈ l.
Proof. by rewrite elem_of_bytes_dedup, elem_of_bytes_sort. Qed.

(** A [BTreeSet<[u8; N]>] drained in order. *)
Definition btree_to_list (s : gset (list byte)) : list (list byte) := bytes_sort (elements s).

Lemma elem_of_btree_to_list x s : x ∈ btree_to_list s ↔ x ∈ s.
Proof. unfold btree_to_list. by rewrite elem_of_bytes_sort, elem_of_elements. Qed.

Lemma bytes_insert_perm x l : bytes_insert x l ≡ₚ x :: l.
Proof.
  induction l as [|y l IH]; simpl; [done|]. destruct (bytes_ltb y x); [|done].
  rewrite IH. apply Permutation_swap.
Qed.
Lemma bytes_sort_perm l : bytes_sort l ≡ₚ l.
Proof. induction l as [|x l IH]; simpl; [done|]. by rewrite bytes_insert_perm, IH. Qed.

Lemma btree_to_list_sorted s : StronglySorted bytes_lt (btree_to_list s).
Proof.
  unfold btree_to_list.
  assert (NoDup (bytes_sort (elements s))) as Hnd by (rewrite bytes_sort_perm; apply NoDup_elements).
  induction (bytes_sort_sorted (elements s)) as [|x l Hs IH Hf]; [constructor|].
  apply NoDup_cons in Hnd as [Hx Hnd]. constructor; [by apply IH|].
  rewrite Forall_forall in *. intros y Hy. by destruct (Hf y Hy) as [<-|].
Qed.

(** ** Shared list facts and automation *)
Lemma length_concat_map_ge {A} (f : A → list byte) (l : list A) :
  (∀ x, x ∈ l → 1 ≤ length (f x)) → length l ≤ length (concat (map f l)).
Proof.
  induction l as [|x l IH]; intros H; [done|].
  simpl. rewrite length_app. specialize (H x ltac:(set_solver)) as Hx.
  assert (length l ≤ length (concat (map f l))) by (apply IH; set_solver). lia.
Qed.

Lemma existsb_eqb_elem_of `{EqDecision A} (x : A) l :
  existsb (λ y, bool_decide (y = x)) l = true ↔ x ∈ l.
Proof.
  rewrite existsb_exists. split.
  - intros (y & Hin & E). apply bool_decide_eq_true in E as <-. by apply list_elem_of_In.
  - intros Hin. exists x. split; [by apply list_elem_of_In | by apply bool_decide_eq_true].
Qed.

(** [Vec::contains]. *)
Definition contains `{EqDecision A} (l : list A) (x : A) : bool := bool_decide (x ∈ l).

Lemma contains_true `{EqDecision A} (l : list A) x : contains l x = true ↔ x ∈ l.
Proof. apply bool_decide_eq_true. Qed.
Lemma contains_false `{EqDecision A} (l : list A) x : contains l x = false ↔ x ∉ l.
Proof. apply bool_decide_eq_false. Qed.

Lemma filter_ext_on {A} (P Q : A → Prop) `{∀ x, Decision (P x), ∀ x, Decision (Q x)} l :
  Forall (λ x, P x ↔ Q x) l → filter P l = filter Q l.
Proof.
  induction 1 as [|x l Hx Hf IH]; [done|]. rewrite !filter_cons, IH.
  by apply decide_ext.
Qed.
Lemma filter_all {A} (P : A → Prop) `{∀ x, Decision (P x)} l : Forall P l → filter P l = l.
Proof.
  induction 1 as [|x l Hx Hf IH]; [done|]. by rewrite filter_cons, decide_True, IH.
Qed.
Lemma filter_none {A} (P : A → Prop) `{∀ x, Decision (P x)} l :
  Forall (λ x, ¬ P x) l → filter P l = [].
Proof.
  induction 1 as [|x l Hx Hf IH]; [done|]. by rewrite filter_cons, decide_False, IH.
Qed.

Lemma Forall_filter_keep {A} (Q P : A → Prop) `{∀ x, Decision (P x)} l :
  Forall Q l → Forall Q (filter P l).
Proof.
  rewrite !Forall_forall. intros Hf x Hx. apply list_elem_of_filter in Hx as [_ Hx]. auto.
Qed.
Lemma StronglySorted_filter {A} (R : relation A) (P : A → Prop) `{∀ x, Decision (P x)} l :
  StronglySorted R l → StronglySorted R (filter P l).
Proof.
  induction 1 as [|x l Hs IH Hf]; [constructor|]. rewrite filter_cons.
  case_decide; [|done]. constructor; [done | by apply Forall_filter_keep].
Qed.

Create HintDb relay discriminated.
#[export] Hint Resolve byte_to_Z_range be_value_bound : relay.

(** Split every [if] and [match] of the hypothesis or the goal, keeping only
    the branches that can produce it. *)
Ltac branch_in H :=
  repeat (first
    [ progress simplify_eq/=
    | match type of H with
      | context [match ?x with _ => _ end] => destruct x eqn:?
      end ]).

(** Filtering a mapped list by a predicate that reads through the map. *)
Lemma filter_fmap_iff {A B} (f : A → B) (P : B → Prop) (Q : A → Prop)
    `{∀ x, Decision (P x), ∀ x, Decision (Q x)} (l : list A) :
  Forall (λ x, P (f x) ↔ Q x) l → filter P (f <$> l) = f <$> filter Q l.
Proof.
  induction 1 as [|x l HPQ _ IH]; [done|]. rewrite fmap_cons, !filter_cons, IH.
  destruct (decide (Q x)) as [Hq|Hq]; [rewrite decide_True by (by apply HPQ)|rewrite decide_False by (by rewrite HPQ)]; done.
Qed.

Lemma NoDup_fmap_filter {A B} (f : A → B) (P : A → Prop) `{∀ x, Decision (P x)} (l : list A) :
  NoDup (f <$> l) → NoDup (f <$> filter P l).
Proof.
  induction l as [|x l IH]; [done|]. rewrite fmap_cons, NoDup_cons. intros [Hx Hn].
  destruct (decide (P x)) as [Hp|Hp].
  - rewrite filter_cons_True, fmap_cons by done. apply NoDup_cons. split; [|by apply IH].
    intros (y & Hy & Hin)%list_elem_of_fmap. apply Hx. apply list_elem_of_fmap. exists y.
    apply list_elem_of_filter in Hin. by destruct Hin.
  - rewrite filter_cons_False by done. by apply IH.
Qed.

Lemma NoDup_fmap_unique {A B} (f : A → B) (l : list A) x y :
  NoDup (f <$> l) → x ∈ l → y ∈ l → f x = f y → x = y.
Proof.
  intros Hn (i & Hi)%list_elem_of_lookup (j & Hj)%list_elem_of_lookup Hf.
  assert (i = j) as ->; [|congruence].
  apply (NoDup_lookup _ _ _ (f x) Hn); rewrite list_lookup_fmap; [by rewrite Hi | by rewrite Hj, Hf].
Qed.

(** ** Sums over lists and maps *)
Section sums.
Local Open Scope Z_scope.

Definition zsum {A} (f : A → Z) (l : list A) : Z := foldr (λ x acc, f x + acc) 0 l.

Lemma zsum_cons {A} (f : A → Z) x l : zsum f (x :: l) = f x + zsum f l.
Proof. done. Qed.
Lemma zsum_perm {A} (f : A → Z) l l' : l ≡ₚ l' → zsum f l = zsum f l'.
Proof. induction 1; simpl; lia. Qed.
Lemma zsum_ext {A} (f g : A → Z) l : Forall (λ x, f x = g x) l → zsum f l = zsum g l.
Proof. induction 1; simpl; lia. Qed.
Lemma zsum_nonneg {A} (f : A → Z) l : (∀ x, 0 ≤ f x) → 0 ≤ zsum f l.
Proof. intros Hf. induction l as [|x l IH]; simpl; [lia|]. specialize (Hf x). lia. Qed.
Lemma zsum_add {A} (f g : A → Z) l : zsum (λ x, f x + g x) l = zsum f l + zsum g l.
Proof. induction l; simpl; lia. Qed.
Lemma zsum_fmap {A B} (f : B → Z) (g : A → B) l : zsum f (g <$> l) = zsum (λ x, f (g x)) l.
Proof. induction l as [|x l IH]; [done|]. rewrite fmap_cons, !zsum_cons, IH. done. Qed.

Context `{Countable K} {A : Type}.
Implicit Types (f g : K → A → Z) (m : gmap K A).

Definition msum f m : Z := zsum (λ e, f e.1 e.2) (map_to_list m).

Lemma msum_empty f : msum f ∅ = 0.
Proof. unfold msum. by rewrite map_to_list_empty. Qed.

Lemma msum_insert_None f m k x : m !! k = None → msum f (<[k := x]> m) = f k x + msum f m.
Proof. intros Hk. unfold msum. rewrite (zsum_perm _ _ _ (map_to_list_insert m k x Hk)). done. Qed.

Lemma msum_delete f m k x : m !! k = Some x → msum f m = f k x + msum f (delete k m).
Proof.
  intros Hk. rewrite <- (insert_delete_id m k x Hk) at 1. apply msum_insert_None. apply lookup_delete_eq.
Qed.

Lemma msum_insert_Some f m k x y :
  m !! k = Some y → msum f (<[k := x]> m) = msum f m - f k y + f k x.
Proof.
  intros Hk. rewrite <- insert_delete_eq, msum_insert_None by apply lookup_delete_eq.
  rewrite (msum_delete f m k y Hk). lia.
Qed.

Lemma msum_ext f g m : (∀ k x, m !! k = Some x → f k x = g k x) → msum f m = msum g m.
Proof.
  intros Hfg. unfold msum. apply zsum_ext. apply Forall_forall. intros [k x] Hin.
  apply elem_of_map_to_list in Hin. by apply Hfg.
Qed.

Lemma msum_add f g m : msum (λ k x, f k x + g k x) m = msum f m + msum g m.
Proof. unfold msum. apply zsum_add. Qed.

Lemma msum_nonneg f m : (∀ k x, 0 ≤ f k x) → 0 ≤ msum f m.
Proof. intros Hf. apply zsum_nonneg. intros [k x]. apply Hf. Qed.

Lemma msum_partition f m (P : K * A → Prop) `{!∀ e, Decision (P e)} :
  msum f m = msum f (filter P m) + msum f (filter (λ e, ¬ P e) m).
Proof.
  induction m as [|k x m Hk IH] using map_ind; [by rewrite !map_filter_empty, !msum_empty|].
  rewrite (msum_insert_None _ _ _ _ Hk), IH. destruct (decide (P (k, x))) as [HP|HP].
  - rewrite map_filter_insert_True by done. rewrite (map_filter_insert_False (λ e, ¬ P e)) by tauto.
    rewrite (delete_id m) by done. rewrite msum_insert_None; [lia|]. apply map_lookup_filter_None. by left.
  - rewrite map_filter_insert_False by done. rewrite (map_filter_insert_True (λ e, ¬ P e)) by done.
    rewrite (delete_id m) by done. rewrite msum_insert_None; [lia|]. apply map_lookup_filter_None. by left.
Qed.

Lemma msum_zero f m : (∀ k x, m !! k = Some x → f k x = 0) → msum f m = 0.
Proof.
  intros Hf. rewrite (msum_ext f (λ _ _, 0) m) by done. unfold msum. induction (map_to_list m); simpl; lia.
Qed.

(** Rewriting every value in place. *)
Lemma msum_imap f (h : K → A → A) m : msum f (map_imap (λ k x, Some (h k x)) m) = msum (λ k x, f k (h k x)) m.
Proof.
  induction m as [|k x m Hk IH] using map_ind.
  { rewrite map_imap_empty. by rewrite !msum_empty. }
  rewrite map_imap_insert_Some with (y := h k x) by done.
  rewrite !msum_insert_None, IH; [done | done |].
  rewrite map_lookup_imap, Hk. done.
Qed.
End sums.
