(* ===== verification/Cbor.v ===== *)
(** * Deterministic CBOR

    Models [backend/wealdrelay/src/cbor.rs]: the encoder of the relay's CBOR
    subset, and the [Reader] cursor whose failures leave the cursor observable.
    The reader is a state-passing monad over [Reader]: a read returns a result
    and the cursor it leaves behind, on success and on failure.

    The class [WireCodec] is the interface the frame, envelope, reconciliation
    and access-set codecs are proved against: an encoder and a reader that are
    inverse in both directions. *)

From Stdlib Require Import ZArith Lia.
From stdpp Require Import base tactics numbers list.
From S2P Require Import Prelude.

Open Scope Z_scope.

Definition MAJOR_UINT : Z := 0.
Definition MAJOR_BYTES : Z := 2.
Definition MAJOR_TEXT : Z := 3.
Definition MAJOR_ARRAY : Z := 4.
Definition MAJOR_SIMPLE : Z := 7.

(** ** Encoding *)
Definition NULL : list byte := [byte_of_Z 246].
Definition FALSE_ : list byte := [byte_of_Z 244].
Definition TRUE_ : list byte := [byte_of_Z 245].

Definition head (major value : Z) : list byte :=
  let tag := Z.shiftl major 5 in
  if value <? 24 then [byte_of_Z (Z.lor tag value)]
  else if value <=? U8_MAX then byte_of_Z (Z.lor tag 24) :: be_bytes 1 value
  else if value <=? U16_MAX then byte_of_Z (Z.lor tag 25) :: be_bytes 2 value
  else if value <=? U32_MAX then byte_of_Z (Z.lor tag 26) :: be_bytes 4 value
  else byte_of_Z (Z.lor tag 27) :: be_bytes 8 value.

Definition len (bs : list byte) : Z := Z.of_nat (length bs).

Definition uint (value : Z) : list byte := head MAJOR_UINT value.
Definition bytes (value : list byte) : list byte := head MAJOR_BYTES (len value) ++ value.
Definition boolean (value : bool) : list byte := if value then TRUE_ else FALSE_.
Definition text (value : list byte) : list byte := head MAJOR_TEXT (len value) ++ value.
Definition array (items : list (list byte)) : list byte :=
  head MAJOR_ARRAY (Z.of_nat (length items)) ++ concat items.
Definition optional_bytes (value : option (list byte)) : list byte :=
  match value with Some v => bytes v | None => NULL end.

(** ** Errors *)
Inductive Expected : Type :=
| ExpUint | ExpBytes | ExpBoolean | ExpText | ExpArray | ExpNull.

Inductive CborError : Type :=
| Truncated
| UnsupportedMajor (major : Z)
| NonCanonicalInteger
| ReservedAdditionalInfo (info : Z)
| UnsupportedSimple (value : Z)
| TypeMismatch (expected : Expected)
| WrongLength (expected got : nat)
| WrongArrayCount (expected got : nat)
| OutOfRange (value : Z)
| TrailingBytes (count : nat)
| InvalidUtf8.

#[global] Instance CborError_eq_dec : EqDecision CborError.
Proof. unfold EqDecision, Decision. repeat decide equality. Defined.

(** ** The cursor *)
Record Reader : Type := mkReader { rd_data : list byte; rd_offset : nat }.

Definition rd_new (data : list byte) : Reader := mkReader data 0.
Definition is_at_end (r : Reader) : bool := (rd_offset r =? length (rd_data r))%nat.
Definition remaining (r : Reader) : nat := (length (rd_data r) - rd_offset r)%nat.
Definition advance_by (r : Reader) (n : nat) : Reader :=
  mkReader (rd_data r) (rd_offset r + n)%nat.

(** A read: [&mut self] in, a result and the cursor it leaves out. *)
Definition rd (E A : Type) : Type := Reader → result E A * Reader.

Definition rd_ret {E A} (a : A) : rd E A := λ r, (Ok a, r).
Definition rd_fail {E A} (e : E) : rd E A := λ r, (Err e, r).
Definition rd_bind {E A B} (m : rd E A) (k : A → rd E B) : rd E B :=
  λ r, match m r with
       | (Ok a, r') => k a r'
       | (Err e, r') => (Err e, r')
       end.
Definition rd_map_err {E F A} (f : E → F) (m : rd E A) : rd F A :=
  λ r, let '(res, r') := m r in (map_err f res, r').

Notation "x <- m ;; k" := (rd_bind m (fun x => k))
  (at level 100, m at next level, right associativity) : relay_scope.
Notation "m ;;; k" := (rd_bind m (fun _ => k))
  (at level 100, right associativity) : relay_scope.
Open Scope relay_scope.

Definition finish : rd CborError unit := λ r,
  if is_at_end r then (Ok tt, r) else (Err (TrailingBytes (remaining r)), r).

Definition byte_at (r : Reader) (index : nat) : result CborError Z :=
  match rd_data r !! index with
  | Some b => Ok (byte_to_Z b)
  | None => Err Truncated
  end.

(** The argument loop of [read_head]: [value = (value << 8) | byte]. *)
Fixpoint read_argument (r : Reader) (index : nat) (width : nat) (value : Z)
    : result CborError Z :=
  match width with
  | O => Ok value
  | S w => let? b := byte_at r index in
           read_argument r (S index) w (Z.lor (Z.shiftl value 8) b)
  end.

Definition head_minimum (width : nat) : Z :=
  if (width =? 1)%nat then 24
  else if (width =? 2)%nat then U8_MAX + 1
  else if (width =? 4)%nat then U16_MAX + 1
  else U32_MAX + 1.

Definition read_head : rd CborError (Z * Z) := λ r,
  match byte_at r (rd_offset r) with
  | Err e => (Err e, r)
  | Ok initial =>
      let major := Z.shiftr initial 5 in
      let info := Z.land initial 31 in
      if info <? 24 then (Ok (major, info), advance_by r 1)
      else if 28 <=? info then (Err (ReservedAdditionalInfo info), r)
      else
        let width := Z.to_nat (Z.shiftl 1 (info - 24)) in
        match read_argument r (rd_offset r + 1) width 0 with
        | Err e => (Err e, r)
        | Ok value =>
            if value <? head_minimum width then (Err NonCanonicalInteger, r)
            else (Ok (major, value), advance_by r (1 + width))
        end
  end.

Definition mismatch (major : Z) (expected : Expected) : CborError :=
  if (major =? MAJOR_UINT) || (major =? MAJOR_BYTES) || (major =? MAJOR_ARRAY)
     || (major =? MAJOR_SIMPLE)
  then TypeMismatch expected
  else UnsupportedMajor major.

(** Every typed read restores the cursor when the head has the wrong major. *)
Definition rd_uint : rd CborError Z := λ r,
  match read_head r with
  | (Err e, r') => (Err e, r')
  | (Ok (major, argument), r') =>
      if negb (major =? MAJOR_UINT) then (Err (mismatch major ExpUint), r)
      else (Ok argument, r')
  end.

(** [u8::try_from(value)] and its wider siblings after [uint]. *)
Definition rd_narrow (max : Z) : rd CborError Z := λ r,
  match rd_uint r with
  | (Err e, r') => (Err e, r')
  | (Ok value, r') => if value <=? max then (Ok value, r') else (Err (OutOfRange value), r')
  end.
Definition rd_u8 : rd CborError Z := rd_narrow U8_MAX.
Definition rd_u16 : rd CborError Z := rd_narrow U16_MAX.
Definition rd_u32 : rd CborError Z := rd_narrow U32_MAX.

(** [data[offset .. offset + length]]. *)
Definition slice (r : Reader) (n : nat) : list byte := take n (drop (rd_offset r) (rd_data r)).

(** The shared shape of [bytes] and [text]: a head, then that many bytes,
    checked against what remains; [convert] is the final validation. *)
Definition rd_string (wanted : Z) (expected : Expected)
    (convert : list byte → result CborError (list byte)) : rd CborError (list byte) := λ r,
  match read_head r with
  | (Err e, r') => (Err e, r')
  | (Ok (major, argument), r') =>
      if negb (major =? wanted) then (Err (mismatch major expected), r)
      else if Z.of_nat (remaining r') <? argument then (Err Truncated, r)
      else
        let length := Z.to_nat argument in
        match convert (slice r' length) with
        | Ok v => (Ok v, advance_by r' length)
        | Err e => (Err e, r)
        end
  end.

Definition rd_bytes : rd CborError (list byte) := rd_string MAJOR_BYTES ExpBytes Ok.

Definition rd_bytes_of (count : nat) : rd CborError (list byte) := λ r,
  match rd_bytes r with
  | (Err e, r') => (Err e, r')
  | (Ok value, r') =>
      if (length value =? count)%nat then (Ok value, r')
      else (Err (WrongLength count (length value)), r)
  end.

Definition rd_boolean : rd CborError bool := λ r,
  match read_head r with
  | (Err e, r') => (Err e, r')
  | (Ok (major, argument), r') =>
      if negb (major =? MAJOR_SIMPLE) then (Err (mismatch major ExpBoolean), r)
      else if argument =? 20 then (Ok false, r')
      else if argument =? 21 then (Ok true, r')
      else (Err (UnsupportedSimple (if argument <=? U8_MAX then argument else U8_MAX)), r)
  end.

(** [std::str::from_utf8]: the well-formed byte sequences of the Unicode
    standard, table 3-7. *)
Definition in_range (lo hi : Z) (b : byte) : bool := (lo <=? byte_to_Z b) && (byte_to_Z b <=? hi).
Definition continuation : byte → bool := in_range 128 191.

Fixpoint utf8_valid (bs : list byte) : bool :=
  match bs with
  | [] => true
  | b0 :: t0 =>
      if in_range 0 127 b0 then utf8_valid t0 else
      match t0 with
      | [] => false
      | b1 :: t1 =>
          if in_range 194 223 b0 then continuation b1 && utf8_valid t1 else
          match t1 with
          | [] => false
          | b2 :: t2 =>
              if (in_range 224 224 b0 && in_range 160 191 b1)
                 || (in_range 225 236 b0 && continuation b1)
                 || (in_range 237 237 b0 && in_range 128 159 b1)
                 || (in_range 238 239 b0 && continuation b1)
              then continuation b2 && utf8_valid t2
              else
              match t2 with
              | [] => false
              | b3 :: t3 =>
                  if (in_range 240 240 b0 && in_range 144 191 b1)
                     || (in_range 241 243 b0 && continuation b1)
                     || (in_range 244 244 b0 && in_range 128 143 b1)
                  then continuation b2 && continuation b3 && utf8_valid t3
                  else false
              end
          end
      end
  end.

Definition rd_text : rd CborError (list byte) :=
  rd_string MAJOR_TEXT ExpText (λ v, if utf8_valid v then Ok v else Err InvalidUtf8).

(** [optional_is_null] and the [null] arm of [optional_bytes]. *)
Definition rd_optional_is_null : rd CborError bool := λ r,
  match byte_at r (rd_offset r) with
  | Err e => (Err e, r)
  | Ok initial =>
      if negb (Z.shiftr initial 5 =? MAJOR_SIMPLE) then (Ok false, r)
      else match read_head r with
           | (Err e, r') => (Err e, r')
           | (Ok (_, argument), r') =>
               if negb (argument =? 22)
               then (Err (UnsupportedSimple (if argument <=? U8_MAX then argument else U8_MAX)), r)
               else (Ok true, r')
           end
  end.

Definition rd_optional_bytes : rd CborError (option (list byte)) := λ r,
  match byte_at r (rd_offset r) with
  | Err e => (Err e, r)
  | Ok initial =>
      if negb (Z.shiftr initial 5 =? MAJOR_SIMPLE)
      then let '(res, r') := rd_bytes r in
           (match res with Ok v => Ok (Some v) | Err e => Err e end, r')
      else match read_head r with
           | (Err e, r') => (Err e, r')
           | (Ok (_, argument), r') =>
               if negb (argument =? 22)
               then (Err (UnsupportedSimple (if argument <=? U8_MAX then argument else U8_MAX)), r)
               else (Ok None, r')
           end
  end.

Definition rd_array_header : rd CborError nat := λ r,
  match read_head r with
  | (Err e, r') => (Err e, r')
  | (Ok (major, argument), r') =>
      if negb (major =? MAJOR_ARRAY) then (Err (mismatch major ExpArray), r)
      else if Z.of_nat (remaining r') <? argument then (Err Truncated, r)
      else (Ok (Z.to_nat argument), r')
  end.

Definition rd_array (count : nat) : rd CborError unit := λ r,
  match rd_array_header r with
  | (Err e, r') => (Err e, r')
  | (Ok got, r') =>
      if (got =? count)%nat then (Ok tt, r') else (Err (WrongArrayCount count got), r)
  end.

(** [for _ in 0..count { out.push(item(reader)?) }]. *)
Fixpoint rd_times {E A} (count : nat) (item : rd E A) : rd E (list A) :=
  match count with
  | O => rd_ret []
  | S n => x <- item ;; xs <- rd_times n item ;; rd_ret (x :: xs)
  end.

(** ** The codec interface

    [accepts m p bs x]: wherever [bs] starts in the data, with at least [m]
    bytes behind it, [p] returns [x] and leaves the cursor exactly past [bs].
    [consumed r r' bs]: between the cursors [r] and [r'] lie exactly [bs]. *)
Definition accepts {E A} (m : nat) (p : rd E A) (bs : list byte) (x : A) : Prop :=
  ∀ pre suf, (m ≤ length suf)%nat →
    p (mkReader (pre ++ bs ++ suf) (length pre))
    = (Ok x, mkReader (pre ++ bs ++ suf) (length pre + length bs)).

Definition rest (r : Reader) : list byte := drop (rd_offset r) (rd_data r).

Definition consumed (r r' : Reader) (bs : list byte) : Prop :=
  r' = advance_by r (length bs) ∧ rest r = bs ++ rest r'.

Class WireCodec {E A} (wf : A → Prop) (enc : A → list byte) (dec : rd E A) : Prop := {
  codec_accepts : ∀ x, wf x → accepts 0 dec (enc x) x;
  codec_sound : ∀ r x r', dec r = (Ok x, r') → wf x ∧ consumed r r' (enc x)
}.

Lemma accepts_weaken {E A} m m' (p : rd E A) bs x :
  accepts m p bs x → (m ≤ m')%nat → accepts m' p bs x.
Proof. intros H Hm pre suf Hs. apply H. lia. Qed.

Lemma accepts_ret {E A} (x : A) : accepts (E := E) 0 (rd_ret x) [] x.
Proof. intros pre suf _. unfold rd_ret. simpl. by rewrite Nat.add_0_r. Qed.

Lemma accepts_bind {E A B} m1 m2 (p : rd E A) (k : A → rd E B) bs1 bs2 x y :
  accepts m1 p bs1 x → accepts m2 (k x) bs2 y → (m1 ≤ length bs2 + m2)%nat →
  accepts m2 (rd_bind p k) (bs1 ++ bs2) y.
Proof.
  intros H1 H2 Hm pre suf Hs. unfold rd_bind. rewrite <- app_assoc.
  rewrite H1 by (rewrite length_app; lia).
  specialize (H2 (pre ++ bs1) suf Hs). rewrite length_app, <- app_assoc in H2.
  rewrite H2, length_app. f_equal. f_equal. lia.
Qed.

Lemma accepts_map_err {E F A} m (f : E → F) (p : rd E A) bs x :
  accepts m p bs x → accepts m (rd_map_err f p) bs x.
Proof. intros H pre suf Hs. unfold rd_map_err. by rewrite H. Qed.

Lemma rd_bind_ok {E A B} (p : rd E A) (k : A → rd E B) r y r' :
  rd_bind p k r = (Ok y, r') → ∃ x r1, p r = (Ok x, r1) ∧ k x r1 = (Ok y, r').
Proof. unfold rd_bind. destruct (p r) as [[x|e] r1]; naive_solver. Qed.

Lemma rd_map_err_ok {E F A} (f : E → F) (p : rd E A) r x r' :
  rd_map_err f p r = (Ok x, r') ↔ p r = (Ok x, r').
Proof. unfold rd_map_err. destruct (p r) as [[?|?] ?]; simpl; naive_solver. Qed.

Lemma consumed_refl r : consumed r r [].
Proof. unfold consumed, advance_by. destruct r; simpl. by rewrite Nat.add_0_r. Qed.

Lemma consumed_trans r1 r2 r3 bs1 bs2 :
  consumed r1 r2 bs1 → consumed r2 r3 bs2 → consumed r1 r3 (bs1 ++ bs2).
Proof.
  intros [-> H1] [-> H2]. split.
  - unfold advance_by. simpl. rewrite length_app. f_equal. lia.
  - rewrite H1, H2. by rewrite <- app_assoc.
Qed.

#[global] Instance codec_map_err {E F A} (f : E → F) (wf : A → Prop) enc (p : rd E A) :
  WireCodec wf enc p → WireCodec wf enc (rd_map_err f p).
Proof.
  intros C. split.
  - intros x Hx. by apply accepts_map_err, codec_accepts.
  - intros r x r' H%rd_map_err_ok. by apply codec_sound.
Qed.

(** A whole message: decode, then nothing may remain. *)
Definition parse {E A} (f : CborError → E) (p : rd E A) (bs : list byte) : result E A :=
  fst ((x <- p ;; rd_map_err f finish ;;; rd_ret x) (rd_new bs)).

Lemma parse_accepts {E A} (f : CborError → E) (p : rd E A) bs x : accepts 0 p bs x → parse f p bs = Ok x.
Proof.
  intros Ha. specialize (Ha [] [] ltac:(cbn; lia)). rewrite app_nil_l, app_nil_r in Ha. cbn [length Nat.add] in Ha.
  unfold parse, rd_bind, rd_new. rewrite Ha. unfold rd_map_err, finish, is_at_end. cbn [rd_data rd_offset].
  by rewrite Nat.eqb_refl.
Qed.

Section whole_message.
Context {E A : Type} (f : CborError → E) (wf : A → Prop) (enc : A → list byte) (p : rd E A).
Context `{!WireCodec wf enc p}.

Lemma parse_encode x : wf x → parse f p (enc x) = Ok x.
Proof. intros Hx. by apply parse_accepts, codec_accepts. Qed.

Lemma parse_canonical bs x : parse f p bs = Ok x → wf x ∧ enc x = bs.
Proof.
  unfold parse.
  destruct ((x0 <- p ;; rd_map_err f finish ;;; rd_ret x0) (rd_new bs)) as [res r'] eqn:H.
  simpl. intros ->.
  apply rd_bind_ok in H as (x1 & r1 & H1 & H).
  apply rd_bind_ok in H as ([] & r2 & H2 & H). injection H as -> ->.
  apply codec_sound in H1 as [Hwf [-> Hrest]]. split; [done|].
  apply rd_map_err_ok in H2. unfold finish, is_at_end in H2.
  destruct (Nat.eqb_spec (rd_offset (advance_by (rd_new bs) (length (enc x))))
    (length (rd_data (advance_by (rd_new bs) (length (enc x))))))
    as [Hend|]; [|discriminate].
  unfold rest in Hrest. simpl in *. rewrite Hend, drop_all, app_nil_r in Hrest. done.
Qed.
End whole_message.

(** ** Heads *)
Lemma byte_at_lookup r i :
  byte_at r i = match rd_data r !! i with Some b => Ok (byte_to_Z b) | None => Err Truncated end.
Proof. done. Qed.

Lemma read_argument_accepts data i w v bs suf :
  drop i data = bs ++ suf → length bs = w →
  ∀ off, read_argument (mkReader data off) i w v = Ok (fold_left be_step bs v).
Proof.
  revert i v bs. induction w as [|w IH]; intros i v bs Hd Hl off.
  { destruct bs; [done|discriminate]. }
  destruct bs as [|b bs]; [discriminate|]. simpl in Hd, Hl.
  assert (data !! i = Some b) as Hb.
  { rewrite <- (Nat.add_0_r i), <- lookup_drop, Hd. done. }
  simpl. unfold byte_at. simpl. rewrite Hb. simpl.
  apply IH; [|lia]. rewrite <- (Nat.add_1_r i), <- drop_drop, Hd. done.
Qed.

Lemma read_argument_sound r i w v value :
  read_argument r i w v = Ok value →
  ∃ bs, length bs = w ∧ drop i (rd_data r) = bs ++ drop (i + w) (rd_data r)
        ∧ value = fold_left be_step bs v.
Proof.
  revert i v. induction w as [|w IH]; intros i v; simpl.
  { intros [= ->]. exists []. rewrite Nat.add_0_r. done. }
  unfold byte_at. destruct (rd_data r !! i) as [b|] eqn:Hb; [|discriminate]. simpl.
  intros (bs & Hl & Hd & Hv)%IH. exists (b :: bs). simpl. split; [lia|]. split; [|done].
  rewrite (drop_S _ b) by done. f_equal. rewrite Hd. f_equal. f_equal. lia.
Qed.

(** Width and additional-info code of the head that encodes a value. *)
Definition head_code (v : Z) : Z :=
  if v <=? U8_MAX then 24 else if v <=? U16_MAX then 25 else if v <=? U32_MAX then 26 else 27.
Definition head_width (v : Z) : nat :=
  if v <=? U8_MAX then 1 else if v <=? U16_MAX then 2 else if v <=? U32_MAX then 4 else 8.

Lemma head_long major v :
  24 ≤ v → head major v = byte_of_Z (Z.lor (Z.shiftl major 5) (head_code v)) :: be_bytes (head_width v) v.
Proof.
  intros Hv. unfold head, head_code, head_width.
  rewrite (proj2 (Z.ltb_ge v 24)) by lia. by repeat case_match.
Qed.

Lemma head_short major v : v < 24 → head major v = [byte_of_Z (Z.lor (Z.shiftl major 5) v)].
Proof. intros Hv. unfold head. by rewrite (proj2 (Z.ltb_lt v 24)). Qed.

Lemma head_byte major k :
  0 ≤ major < 8 → 0 ≤ k < 32 →
  byte_to_Z (byte_of_Z (Z.lor (Z.shiftl major 5) k)) = major * 32 + k.
Proof.
  intros Hm Hk. rewrite lor_shiftl_add by lia. apply byte_to_Z_of_Z_small. lia.
Qed.

Lemma initial_split b : Z.shiftr b 5 = b / 32 ∧ Z.land b 31 = b mod 32.
Proof.
  split; [by rewrite Z.shiftr_div_pow2 by lia|].
  change 31 with (Z.ones 5). by rewrite Z.land_ones by lia.
Qed.

Lemma length_head_pos major v : (1 ≤ length (head major v))%nat.
Proof. unfold head. repeat case_match; simpl; lia. Qed.

Lemma code_width k :
  24 ≤ k → k < 28 →
  ∃ w, Z.to_nat (Z.shiftl 1 (k - 24)) = w ∧ 256 ^ Z.of_nat w - 1 ≤ U64_MAX
    ∧ ∀ v, head_minimum w ≤ v → v < 256 ^ Z.of_nat w →
           24 ≤ v ∧ head_code v = k ∧ head_width v = w.
Proof.
  intros H1 H2.
  assert (k = 24 ∨ k = 25 ∨ k = 26 ∨ k = 27) as Hk by lia.
  unfold head_code, head_width, head_minimum, U8_MAX, U16_MAX, U32_MAX, U64_MAX.
  destruct Hk as [-> | [-> | [-> | ->]]];
    [exists 1%nat | exists 2%nat | exists 4%nat | exists 8%nat].
  all: (split; [done|]); (split; [simpl; lia|]); intros v Hmin Hmax; simpl in Hmin, Hmax.
  all: repeat case_match; repeat split; lia.
Qed.

Lemma accepts_head major v :
  0 ≤ major < 8 → is_u64 v → accepts 0 read_head (head major v) (major, v).
Proof.
  intros Hm Hv pre suf _. unfold read_head. rewrite byte_at_lookup. cbn [rd_data rd_offset].
  destruct (decide (v < 24)) as [Hs|Hl].
  - rewrite (head_short _ _ Hs). rewrite lookup_app_r, Nat.sub_diag by lia. simpl.
    unfold is_u64 in Hv.
    rewrite head_byte by lia. destruct (initial_split (major * 32 + v)) as [-> ->].
    rewrite Z.div_add_l, Z.div_small, Z.add_comm, Z.mod_add, Z.mod_small by lia.
    rewrite (proj2 (Z.ltb_lt v 24)) by lia. unfold advance_by. simpl. by rewrite Z.add_0_r.
  - rewrite (head_long major v) by lia. rewrite lookup_app_r, Nat.sub_diag by lia.
    cbn [app lookup list_lookup].
    assert (24 ≤ head_code v < 28 ∧ head_width v = Z.to_nat (Z.shiftl 1 (head_code v - 24))
      ∧ head_minimum (head_width v) ≤ v ∧ v < 256 ^ Z.of_nat (head_width v)) as (Hc & Hw & Hmin & Hmax).
    { unfold head_code, head_width, head_minimum. unfold_ints.
      repeat case_match; simpl; repeat split; try lia; done. }
    rewrite head_byte by lia. destruct (initial_split (major * 32 + head_code v)) as [-> ->].
    rewrite Z.div_add_l, Z.div_small, Z.add_0_r, Z.add_comm, Z.mod_add, Z.mod_small by lia.
    rewrite (proj2 (Z.ltb_ge (head_code v) 24)), (proj2 (Z.leb_gt 28 (head_code v))) by lia.
    rewrite <- Hw.
    rewrite (read_argument_accepts _ _ _ _ (be_bytes (head_width v) v) suf).
    + fold (be_value (be_bytes (head_width v) v)).
      rewrite be_value_bytes_small by (unfold is_u64 in Hv; lia).
      rewrite (proj2 (Z.ltb_ge _ _)) by lia.
      unfold advance_by. cbn [rd_data rd_offset length]. rewrite length_be_bytes. done.
    + rewrite <- drop_drop, drop_app_length. done.
    + apply length_be_bytes.
Qed.

Lemma read_head_sound r major v r' :
  read_head r = (Ok (major, v), r') → 0 ≤ major < 8 ∧ is_u64 v ∧ consumed r r' (head major v).
Proof.
  unfold read_head. rewrite byte_at_lookup.
  destruct (rd_data r !! rd_offset r) as [b|] eqn:Hb; [|discriminate].
  destruct (initial_split (byte_to_Z b)) as [-> ->].
  pose proof (byte_to_Z_range b) as Hrange.
  pose proof (Z.div_mod (byte_to_Z b) 32 ltac:(lia)) as Hdm.
  pose proof (Z.mod_pos_bound (byte_to_Z b) 32 ltac:(lia)) as Hmod.
  assert (0 ≤ byte_to_Z b / 32 < 8) as Hmaj by (split; [apply Z.div_pos; lia | apply Z.div_lt_upper_bound; lia]).
  assert (rest r = b :: drop (S (rd_offset r)) (rd_data r)) as Hrest.
  { unfold rest. by rewrite (drop_S _ b). }
  destruct (Z.ltb_spec (byte_to_Z b mod 32) 24) as [Hshort|Hlong].
  - intros [= <- <- <-]. split; [done|]. split; [unfold_ints; lia|].
    rewrite head_short by lia. split; [done|]. rewrite Hrest. simpl. f_equal.
    + apply byte_to_Z_inj. rewrite head_byte by lia. lia.
    + unfold rest. simpl. f_equal. lia.
  - destruct (Z.leb_spec 28 (byte_to_Z b mod 32)); [discriminate|].
    destruct (read_argument _ _ _ _) as [value|] eqn:Harg; [|discriminate].
    apply read_argument_sound in Harg as (bs & Hlen & Hd & ->).
    destruct (code_width (byte_to_Z b mod 32) ltac:(lia) ltac:(lia)) as (w & Hweq & Hbound & Hcode).
    rewrite Hweq in *.
    fold (be_value bs). pose proof (be_value_bound bs) as Hbv. rewrite Hlen in Hbv.
    destruct (Z.ltb_spec (be_value bs) (head_minimum w)) as [|Hmin]; [discriminate|].
    intros [= <- <- <-]. split; [done|].
    destruct (Hcode _ Hmin ltac:(lia)) as (H24 & Hc & Hw).
    split; [unfold is_u64; lia|].
    rewrite head_long by done. rewrite Hw, Hc, <- Hlen, be_bytes_value. split.
    + cbn [length]. done.
    + rewrite Hrest. cbn [app]. f_equal.
      * apply byte_to_Z_inj. rewrite head_byte by lia. lia.
      * unfold rest. cbn [advance_by rd_data rd_offset]. rewrite <- Nat.add_1_r, Hd, Hlen.
        f_equal. f_equal. lia.
Qed.

(** ** The typed reads as codecs *)
Definition vec_ok (v : list byte) : Prop := len v ≤ U64_MAX.

Lemma accepts_step {E A B} (p : rd E A) (q : rd E B) bs x bs2 y :
  accepts 0 p bs x →
  (∀ pre suf, p (mkReader (pre ++ (bs ++ bs2) ++ suf) (length pre))
     = (Ok x, mkReader ((pre ++ bs) ++ bs2 ++ suf) (length (pre ++ bs))) →
     q (mkReader (pre ++ (bs ++ bs2) ++ suf) (length pre))
     = (Ok y, mkReader ((pre ++ bs) ++ bs2 ++ suf) (length (pre ++ bs) + length bs2))) →
  accepts 0 q (bs ++ bs2) y.
Proof.
  intros Hp Hq pre suf _. rewrite Hq.
  - f_equal. rewrite !length_app, <- !app_assoc. f_equal. lia.
  - rewrite <- (app_assoc bs), Hp by lia. by rewrite length_app, <- app_assoc.
Qed.

#[global] Instance uint_codec : WireCodec is_u64 uint rd_uint.
Proof.
  split.
  - intros v Hv pre suf Hs. unfold rd_uint, uint.
    rewrite (accepts_head MAJOR_UINT v) by (done || lia). done.
  - intros r x r'. unfold rd_uint, uint.
    destruct (read_head r) as [[[major argument]|e] r1] eqn:H; [|discriminate].
    apply read_head_sound in H as (Hm & Hv & Hc).
    destruct (Z.eqb_spec major MAJOR_UINT) as [->|]; simpl; [|discriminate].
    intros [= <- <-]. done.
Qed.

Lemma narrow_codec max :
  0 ≤ max ≤ U64_MAX → WireCodec (λ v, 0 ≤ v ≤ max) uint (rd_narrow max).
Proof.
  intros Hmax. split.
  - intros v Hv pre suf Hs. unfold rd_narrow.
    rewrite (codec_accepts (dec := rd_uint) v) by (done || (unfold is_u64; lia)).
    by rewrite (proj2 (Z.leb_le v max)) by lia.
  - intros r x r'. unfold rd_narrow.
    destruct (rd_uint r) as [[v|e] r1] eqn:H; [|discriminate].
    apply codec_sound in H as [Hv Hc].
    destruct (Z.leb_spec v max); [|discriminate]. intros [= <- <-].
    split; [unfold is_u64 in Hv; lia | done].
Qed.
#[global] Instance u8_codec : WireCodec is_u8 uint rd_u8.
Proof. apply narrow_codec. by vm_compute. Qed.
#[global] Instance u16_codec : WireCodec is_u16 uint rd_u16.
Proof. apply narrow_codec. by vm_compute. Qed.
#[global] Instance u32_codec : WireCodec is_u32 uint rd_u32.
Proof. apply narrow_codec. by vm_compute. Qed.

Section strings.
Context (major : Z) (expected : Expected) (convert : list byte → result CborError (list byte)).
Context (good : list byte → Prop).
Context (major_ok : 0 ≤ major < 8).
Context (convert_good : ∀ v, good v → convert v = Ok v).
Context (convert_inv : ∀ v w, convert v = Ok w → w = v ∧ good v).

Lemma string_codec :
  WireCodec (λ v, vec_ok v ∧ good v) (λ v, head major (len v) ++ v) (rd_string major expected convert).
Proof using major_ok convert_good convert_inv.
  split.
  - intros v [Hlen Hgood]. eapply accepts_step.
    { apply (accepts_head major (len v)); [done|].
      unfold vec_ok, len in *. unfold is_u64. lia. }
    intros pre suf H. unfold rd_string. rewrite H, Z.eqb_refl. cbn [negb].
    unfold remaining, slice, advance_by. cbn [rd_data rd_offset].
    assert (Z.of_nat (length ((pre ++ head major (len v)) ++ v ++ suf)
      - length (pre ++ head major (len v))) <? len v = false) as ->.
    { apply Z.ltb_ge. unfold len. rewrite !length_app. lia. }
    unfold len. rewrite Nat2Z.id, drop_app_length, take_app_length, convert_good by done. done.
  - intros r x r'. unfold rd_string.
    destruct (read_head r) as [[[m argument]|e] r1] eqn:H; [|discriminate].
    apply read_head_sound in H as (Hm & Hv & Hc).
    destruct (Z.eqb_spec m major) as [->|]; simpl; [|discriminate].
    destruct (Z.ltb_spec (Z.of_nat (remaining r1)) argument) as [|Hle]; [discriminate|].
    destruct (convert (slice r1 (Z.to_nat argument))) as [w|] eqn:Hconv; [|discriminate].
    intros [= <- <-]. apply convert_inv in Hconv as [-> Hgood].
    assert (len (slice r1 (Z.to_nat argument)) = argument) as Hl.
    { unfold len, slice. rewrite length_take, length_drop.
      unfold remaining in Hle. unfold is_u64 in Hv. lia. }
    split; [split; [unfold vec_ok; rewrite Hl; apply Hv | done]|].
    rewrite Hl. eapply consumed_trans; [done|]. split.
    + f_equal. unfold len in Hl. lia.
    + unfold slice, rest. cbn [advance_by rd_data rd_offset].
      rewrite <- drop_drop. by rewrite take_drop.
Qed.
End strings.

#[global] Instance bytes_codec : WireCodec vec_ok bytes rd_bytes.
Proof.
  destruct (string_codec MAJOR_BYTES ExpBytes Ok (λ _, True) ltac:(by vm_compute)
    ltac:(done) ltac:(naive_solver)) as [Ha Hs].
  split; [naive_solver|]. intros r x r' H. apply Hs in H. naive_solver.
Qed.

Definition text_ok (v : list byte) : Prop := vec_ok v ∧ utf8_valid v = true.
#[global] Instance text_codec : WireCodec text_ok text rd_text.
Proof.
  apply string_codec; [by vm_compute | by intros v -> |].
  intros v w. destruct (utf8_valid v) eqn:E; naive_solver.
Qed.

Lemma bytes_of_codec n :
  Z.of_nat n ≤ U64_MAX → WireCodec (λ v, length v = n) bytes (rd_bytes_of n).
Proof.
  intros Hn. split.
  - intros v Hv pre suf Hs. unfold rd_bytes_of.
    rewrite (codec_accepts (dec := rd_bytes) v) by (done || (unfold vec_ok, len; lia)).
    by rewrite Hv, Nat.eqb_refl.
  - intros r x r'. unfold rd_bytes_of.
    destruct (rd_bytes r) as [[v|e] r1] eqn:H; [|discriminate].
    apply codec_sound in H as [Hv Hc].
    destruct (Nat.eqb_spec (length v) n); [|discriminate]. intros [= <- <-]. done.
Qed.
#[global] Instance bytes_of_32 : WireCodec (λ v, length v = 32%nat) bytes (rd_bytes_of 32).
Proof. by apply bytes_of_codec. Qed.
#[global] Instance bytes_of_64 : WireCodec (λ v, length v = 64%nat) bytes (rd_bytes_of 64).
Proof. by apply bytes_of_codec. Qed.
#[global] Instance bytes_of_16 : WireCodec (λ v, length v = 16%nat) bytes (rd_bytes_of 16).
Proof. by apply bytes_of_codec. Qed.
#[global] Instance bytes_of_4 : WireCodec (λ v, length v = 4%nat) bytes (rd_bytes_of 4).
Proof. by apply bytes_of_codec. Qed.

(** The simple values are heads of major 7. *)
Lemma simple_heads :
  FALSE_ = head MAJOR_SIMPLE 20 ∧ TRUE_ = head MAJOR_SIMPLE 21 ∧ NULL = head MAJOR_SIMPLE 22.
Proof. by vm_compute. Qed.

Lemma simple_major r major argument r' b :
  rd_data r !! rd_offset r = Some b → read_head r = (Ok (major, argument), r') →
  major = Z.shiftr (byte_to_Z b) 5.
Proof.
  intros Hb. unfold read_head. rewrite byte_at_lookup, Hb.
  repeat case_match; naive_solver.
Qed.

#[global] Instance boolean_codec : WireCodec (λ _, True) boolean rd_boolean.
Proof.
  destruct simple_heads as (Hf & Ht & _). split.
  - intros [] _ pre suf Hs; unfold rd_boolean, boolean; rewrite ?Hf, ?Ht;
      rewrite accepts_head; [done | by vm_compute | by vm_compute | lia
                            | done | by vm_compute | by vm_compute | lia].
  - intros r x r'. unfold rd_boolean.
    destruct (read_head r) as [[[m argument]|e] r1] eqn:H; [|discriminate].
    apply read_head_sound in H as (Hm & Hv & Hc).
    destruct (Z.eqb_spec m MAJOR_SIMPLE) as [->|]; simpl; [|discriminate].
    destruct (Z.eqb_spec argument 20) as [->|]; [intros [= <- <-]; simpl; by rewrite Hf|].
    destruct (Z.eqb_spec argument 21) as [->|]; [intros [= <- <-]; simpl; by rewrite Ht|].
    discriminate.
Qed.

Lemma lookup_at_head pre major v tl suf :
  0 ≤ major < 8 → is_u64 v →
  ∃ b, (pre ++ (head major v ++ tl) ++ suf) !! length pre = Some b
       ∧ Z.shiftr (byte_to_Z b) 5 = major.
Proof.
  intros Hm Hv. unfold is_u64 in Hv.
  assert (∃ k t, 0 ≤ k < 32 ∧ head major v = byte_of_Z (Z.lor (Z.shiftl major 5) k) :: t)
    as (k & t & Hk & ->).
  { destruct (decide (v < 24)) as [Hs|Hl].
    - exists v, []. rewrite head_short by done. split; [lia|done].
    - exists (head_code v), (be_bytes (head_width v) v). rewrite head_long by lia.
      split; [|done]. unfold head_code. repeat case_match; lia. }
  exists (byte_of_Z (Z.lor (Z.shiftl major 5) k)). rewrite lookup_app_r, Nat.sub_diag by lia.
  split; [done|]. rewrite head_byte by lia. destruct (initial_split (major * 32 + k)) as [-> _].
  rewrite Z.div_add_l, Z.div_small by lia. lia.
Qed.

Definition opt_ok (o : option (list byte)) : Prop :=
  match o with Some v => vec_ok v | None => True end.

#[global] Instance optional_bytes_codec : WireCodec opt_ok optional_bytes rd_optional_bytes.
Proof.
  destruct simple_heads as (_ & _ & Hn). split.
  - intros [v|] Hv pre suf Hs; unfold rd_optional_bytes, optional_bytes; rewrite byte_at_lookup;
      cbn [rd_data rd_offset].
    + destruct (lookup_at_head pre MAJOR_BYTES (len v) v suf) as (b & Hb & Hmaj);
        [by vm_compute | simpl in Hv; unfold vec_ok, len in *; unfold is_u64; lia |].
      unfold bytes. rewrite Hb, Hmaj. simpl negb. cbv iota.
      change (head MAJOR_BYTES (len v) ++ v) with (bytes v).
      by rewrite (codec_accepts (dec := rd_bytes) v).
    + rewrite Hn.
      destruct (lookup_at_head pre MAJOR_SIMPLE 22 [] suf) as (b & Hb & Hmaj);
        [by vm_compute | by vm_compute |].
      rewrite app_nil_r in Hb. rewrite Hb, Hmaj. simpl negb. cbv iota.
      rewrite accepts_head; [done | by vm_compute | by vm_compute | lia].
  - intros r x r'. unfold rd_optional_bytes. rewrite byte_at_lookup.
    destruct (rd_data r !! rd_offset r) as [b|] eqn:Hb; [|discriminate].
    destruct (Z.eqb_spec (Z.shiftr (byte_to_Z b) 5) MAJOR_SIMPLE) as [Hmaj|]; simpl.
    + destruct (read_head r) as [[[m argument]|e] r1] eqn:H; [|discriminate].
      pose proof (simple_major _ _ _ _ _ Hb H) as ->.
      apply read_head_sound in H as (_ & Hv & Hc).
      destruct (Z.eqb_spec argument 22) as [->|]; simpl; [|discriminate].
      intros [= <- <-]. rewrite Hmaj, <- Hn in Hc. done.
    + destruct (rd_bytes r) as [[v|e] r1] eqn:H; intros [= <- <-].
      apply codec_sound in H. done.
Qed.

(** [optional_is_null] consumes a [null] and nothing else. *)
Lemma accepts_null : accepts 0 rd_optional_is_null NULL true.
Proof.
  destruct simple_heads as (_ & _ & Hn). intros pre suf Hs. rewrite Hn.
  unfold rd_optional_is_null. rewrite byte_at_lookup. cbn [rd_data rd_offset].
  destruct (lookup_at_head pre MAJOR_SIMPLE 22 [] suf) as (b & Hb & Hmaj);
    [by vm_compute | by vm_compute |].
  rewrite app_nil_r in Hb. rewrite Hb, Hmaj. simpl negb. cbv iota.
  rewrite accepts_head; [done | by vm_compute | by vm_compute | lia].
Qed.

Lemma not_null_array pre n tl suf :
  is_u64 n →
  rd_optional_is_null (mkReader (pre ++ (head MAJOR_ARRAY n ++ tl) ++ suf) (length pre))
  = (Ok false, mkReader (pre ++ (head MAJOR_ARRAY n ++ tl) ++ suf) (length pre)).
Proof.
  intros Hn. unfold rd_optional_is_null. rewrite byte_at_lookup. cbn [rd_data rd_offset].
  destruct (lookup_at_head pre MAJOR_ARRAY n tl suf) as (b & -> & ->);
    [by vm_compute | done |]. done.
Qed.

Lemma optional_is_null_sound r x r' :
  rd_optional_is_null r = (Ok x, r') → if x then consumed r r' NULL else r' = r.
Proof.
  destruct simple_heads as (_ & _ & Hn).
  unfold rd_optional_is_null. rewrite byte_at_lookup.
  destruct (rd_data r !! rd_offset r) as [b|] eqn:Hb; [|discriminate].
  destruct (Z.eqb_spec (Z.shiftr (byte_to_Z b) 5) MAJOR_SIMPLE) as [Hmaj|]; simpl;
    [|naive_solver].
  destruct (read_head r) as [[[m argument]|e] r1] eqn:H; [|discriminate].
  pose proof (simple_major _ _ _ _ _ Hb H) as ->.
  apply read_head_sound in H as (_ & Hv & Hc).
  destruct (Z.eqb_spec argument 22) as [->|]; simpl; [|discriminate].
  intros [= <- <-]. by rewrite Hmaj, <- Hn in Hc.
Qed.

(** ** Arrays

    A header promises items the data must be long enough to hold, so its
    acceptance needs that many bytes behind it. *)
Definition array_head (n : nat) : list byte := head MAJOR_ARRAY (Z.of_nat n).

Lemma array_unfold items : array items = array_head (length items) ++ concat items.
Proof. done. Qed.

Lemma accepts_array_header n :
  Z.of_nat n ≤ U64_MAX → accepts n rd_array_header (array_head n) n.
Proof.
  intros Hn pre suf Hs. unfold rd_array_header, array_head.
  rewrite accepts_head; [| by vm_compute | unfold is_u64; lia | lia].
  cbn [negb]. unfold remaining. cbn [rd_data rd_offset].
  rewrite (proj2 (Z.ltb_ge _ _)); [by rewrite Nat2Z.id|].
  rewrite !length_app. lia.
Qed.

Lemma accepts_array n : Z.of_nat n ≤ U64_MAX → accepts n (rd_array n) (array_head n) tt.
Proof.
  intros Hn pre suf Hs. unfold rd_array. rewrite accepts_array_header by done.
  by rewrite Nat.eqb_refl.
Qed.

Lemma array_header_sound r n r' :
  rd_array_header r = (Ok n, r') → Z.of_nat n ≤ U64_MAX ∧ consumed r r' (array_head n).
Proof.
  unfold rd_array_header.
  destruct (read_head r) as [[[m argument]|e] r1] eqn:H; [|discriminate].
  apply read_head_sound in H as (_ & Hv & Hc).
  destruct (Z.eqb_spec m MAJOR_ARRAY) as [->|]; simpl; [|discriminate].
  destruct (Z.ltb_spec (Z.of_nat (remaining r1)) argument); [discriminate|].
  intros [= <- <-]. unfold is_u64 in Hv. unfold array_head. rewrite Z2Nat.id by lia.
  split; [lia|done].
Qed.

Lemma array_sound n r x r' : rd_array n r = (Ok x, r') → consumed r r' (array_head n).
Proof.
  unfold rd_array. destruct (rd_array_header r) as [[got|e] r1] eqn:H; [|discriminate].
  apply array_header_sound in H as [_ Hc].
  destruct (Nat.eqb_spec got n) as [->|]; [|discriminate]. naive_solver.
Qed.

Section lists.
Context {E A : Type} (wf : A → Prop) (enc : A → list byte) (dec : rd E A).
Context `{!WireCodec wf enc dec}.

Lemma accepts_times xs :
  Forall wf xs → accepts 0 (rd_times (length xs) dec) (concat (map enc xs)) xs.
Proof using Type*.
  induction 1 as [|x xs Hx Hxs IH]; [apply accepts_ret|]. simpl.
  eapply (accepts_bind 0 0); [by apply codec_accepts| |lia].
  rewrite <- (app_nil_r (concat _)).
  eapply (accepts_bind 0 0); [exact IH| apply accepts_ret | lia].
Qed.

Lemma times_sound n r xs r' :
  rd_times n dec r = (Ok xs, r') →
  length xs = n ∧ Forall wf xs ∧ consumed r r' (concat (map enc xs)).
Proof using Type*.
  revert r xs. induction n as [|n IH]; intros r xs; simpl.
  { intros [= <- <-]. split; [done|]. split; [done|]. apply consumed_refl. }
  intros (x & r1 & Hx & H)%rd_bind_ok. apply rd_bind_ok in H as (ys & r2 & Hys & H).
  injection H as <- <-. apply codec_sound in Hx as [Hwf Hc1].
  apply IH in Hys as (<- & Hf & Hc2). split; [done|]. split; [by constructor|].
  by eapply consumed_trans.
Qed.
End lists.

Lemma length_bytes_pos v : (1 ≤ length (bytes v))%nat.
Proof. unfold bytes. rewrite length_app. pose proof (length_head_pos MAJOR_BYTES (len v)). lia. Qed.
Lemma length_uint_pos v : (1 ≤ length (uint v))%nat.
Proof. apply length_head_pos. Qed.
Lemma length_array_pos items : (1 ≤ length (array items))%nat.
Proof. unfold array. rewrite length_app. pose proof (length_head_pos MAJOR_ARRAY (Z.of_nat (length items))). lia. Qed.

(** A counted list: [array_header], then that many items. *)
Section list_codec.
Context {A : Type} (wf : A → Prop) (enc : A → list byte) (dec : rd CborError A).
Context `{!WireCodec wf enc dec} (enc_pos : ∀ x, (1 ≤ length (enc x))%nat).

Definition list_ok (xs : list A) : Prop := Forall wf xs ∧ Z.of_nat (length xs) ≤ U64_MAX.

Lemma list_codec :
  WireCodec list_ok (λ xs, array (map enc xs)) (n <- rd_array_header ;; rd_times n dec).
Proof using Type*.
  split.
  - intros xs [Hf Hn]. rewrite array_unfold, length_map.
    eapply (accepts_bind (length xs) 0).
    + by apply accepts_array_header.
    + by apply (accepts_times wf enc dec).
    + pose proof (length_concat_map_ge enc xs ltac:(auto)). lia.
  - intros r xs r' H. apply rd_bind_ok in H as (n & r1 & Hh & Ht).
    apply array_header_sound in Hh as [Hn Hc1].
    apply (times_sound wf enc dec) in Ht as (<- & Hf & Hc2).
    split; [by split|]. rewrite array_unfold, length_map. by eapply consumed_trans.
Qed.
End list_codec.

(** The same with a cap on the count, checked before any item is read. *)
Lemma capped_codec {E A} (f : CborError → E) (cap : nat) (err : nat → E) (wf : A → Prop) (enc : A → list byte)
    (dec : rd E A) :
  Z.of_nat cap ≤ U64_MAX → WireCodec wf enc dec → (∀ x, (1 ≤ length (enc x))%nat) →
  WireCodec (λ l, Forall wf l ∧ (length l ≤ cap)%nat) (λ l, array (map enc l))
    (count <- rd_map_err f rd_array_header ;;
     if (cap <? count)%nat then rd_fail (err count) else rd_times count dec).
Proof.
  intros Hcap Hcodec Hpos. split.
  - intros l [Hf Hn]. rewrite array_unfold, length_map. eapply (accepts_bind (length l) 0).
    + apply accepts_map_err, accepts_array_header. lia.
    + rewrite (proj2 (Nat.ltb_ge _ _) Hn). by apply (accepts_times wf enc dec).
    + pose proof (length_concat_map_ge enc l ltac:(auto)). lia.
  - intros r l r' Hd. apply rd_bind_ok in Hd as (count & r1 & Hh & Hd).
    apply rd_map_err_ok, array_header_sound in Hh as [_ Hh].
    destruct (Nat.ltb_spec cap count); [discriminate|].
    apply (times_sound wf enc dec) in Hd as (<- & Hf & Hc). split; [done|].
    rewrite array_unfold, length_map. by eapply consumed_trans.
Qed.

Definition rd_list {A} (dec : rd CborError A) : rd CborError (list A) :=
  n <- rd_array_header ;; rd_times n dec.

#[global] Instance bytes_list_codec :
  WireCodec (list_ok vec_ok) (λ xs, array (map bytes xs)) (rd_list rd_bytes).
Proof. apply list_codec; [apply _ | apply length_bytes_pos]. Qed.
#[global] Instance bytes32_list_codec :
  WireCodec (list_ok (λ v, length v = 32%nat)) (λ xs, array (map bytes xs)) (rd_list (rd_bytes_of 32)).
Proof. apply list_codec; [apply _ | apply length_bytes_pos]. Qed.

(** ** Automation for records

    [accept_record] walks a reader of the form [array n ;;; x1 <- f1 ;; ...]
    along the encoding of a record; [sound_record] inverts a successful one. *)
Lemma accepts_array_items {E A} (f : CborError → E) n items (k : unit → rd E A) x :
  length items = n → Z.of_nat n ≤ U64_MAX → (n ≤ length (concat items))%nat →
  accepts 0 (k tt) (concat items) x →
  accepts 0 (rd_bind (rd_map_err f (rd_array n)) k) (array items) x.
Proof.
  intros Hl Hn Hc Hk. rewrite array_unfold, Hl.
  eapply (accepts_bind n 0); [by apply accepts_map_err, accepts_array | done | lia].
Qed.

Lemma accepts_field {E A B} (p : rd E A) (k : A → rd E B) bs1 bs2 x y :
  accepts 0 p bs1 x → accepts 0 (k x) bs2 y → accepts 0 (rd_bind p k) (bs1 ++ bs2) y.
Proof. intros H1 H2. eapply (accepts_bind 0 0); eauto. lia. Qed.

Lemma accepts_last {E A B} (p : rd E A) (k : A → B) bs x :
  accepts 0 p bs x → accepts 0 (y <- p ;; rd_ret (k y)) bs (k x) (E := E).
Proof.
  intros H. rewrite <- (app_nil_r bs). eapply accepts_field; [done|]. apply accepts_ret.
Qed.

Ltac length_items :=
  cbn [concat]; rewrite ?length_app; cbn [length];
  repeat match goal with
  | |- context [length (bytes ?v)] =>
      lazymatch goal with
      | _ : (1 ≤ length (bytes v))%nat |- _ => fail
      | _ => pose proof (length_bytes_pos v)
      end
  | |- context [length (uint ?v)] =>
      lazymatch goal with
      | _ : (1 ≤ length (uint v))%nat |- _ => fail
      | _ => pose proof (length_uint_pos v)
      end
  | |- context [length (array ?v)] =>
      lazymatch goal with
      | _ : (1 ≤ length (array v))%nat |- _ => fail
      | _ => pose proof (length_array_pos v)
      end
  end; try lia.

Ltac accept_field :=
  first
    [ eapply accepts_field; [apply codec_accepts; first [assumption | done | idtac] | cbv beta]
    | apply accepts_ret ].
Ltac accept_record :=
  apply accepts_array_items; [done | by vm_compute | length_items | cbn [concat]];
  repeat accept_field.

Ltac sound_step H :=
  lazymatch type of H with
  | rd_bind _ _ _ = (Ok _, _) =>
      let Hp := fresh "Hp" in
      apply rd_bind_ok in H as (? & ? & Hp & H); cbv beta in H;
      try apply rd_map_err_ok in Hp;
      first [ apply array_sound in Hp
            | let Hw := fresh "Hw" in apply codec_sound in Hp as [Hw Hp]
            | idtac ]
  end.
Ltac sound_chain :=
  repeat match goal with
    | |- context [array (?x :: ?l)] => rewrite (array_unfold (x :: l))
    | |- context [array []] => rewrite (array_unfold [])
    end;
  cbn [length concat]; rewrite <- ?app_assoc, ?app_nil_r;
  repeat first
    [ eassumption
    | apply consumed_refl
    | eapply consumed_trans; [eassumption|] ].

(** ** Failed reads and the cursor *)
Definition restores {E A} (p : rd E A) : Prop :=
  ∀ r e r', p r = (Err e, r') → r' = r.

Lemma read_head_restores : restores read_head.
Proof. intros r e r'. unfold read_head. repeat case_match; naive_solver. Qed.

Lemma read_argument_err r i w v e : read_argument r i w v = Err e → e = Truncated.
Proof.
  revert i v. induction w as [|w IH]; intros i v; simpl; [discriminate|].
  unfold byte_at. destruct (rd_data r !! i); simpl; [apply IH | naive_solver].
Qed.

Lemma read_head_in_range r v r' : read_head r ≠ (Err (OutOfRange v), r').
Proof.
  unfold read_head, byte_at. destruct (rd_data r !! rd_offset r); simpl; [|naive_solver].
  repeat (case_match; try naive_solver).
  intros [= -> ->]. by apply read_argument_err in H1.
Qed.

Ltac solve_restores :=
  let H := fresh in
  intros r e r'; repeat case_match; intros H; simplify_eq; try done; try eauto using read_head_restores;
  by eapply read_head_restores.

(** Every read of the cursor but the narrowing integer reads leaves the
    cursor where it was when it fails: [uint], [bytes], [bytes_of], [boolean],
    [text], [optional_bytes], [optional_is_null], [array_header] and [array]. *)
Theorem failed_reads_restore :
  restores rd_uint ∧ restores rd_bytes ∧ (∀ n, restores (rd_bytes_of n)) ∧ restores rd_boolean
  ∧ restores rd_text ∧ restores rd_optional_bytes ∧ restores rd_optional_is_null
  ∧ restores rd_array_header ∧ (∀ n, restores (rd_array n)).
Proof.
  assert (∀ m x c, restores (rd_string m x c)) as Hstring by (intros; unfold rd_string; solve_restores).
  assert (restores rd_array_header) as Hhead by (unfold rd_array_header; solve_restores).
  repeat split; try apply Hstring; try done.
  - unfold rd_uint; solve_restores.
  - intros n r e r'. unfold rd_bytes_of. repeat case_match; intros; simplify_eq; [done|].
    by eapply Hstring.
  - unfold rd_boolean; solve_restores.
  - intros r e r'. unfold rd_optional_bytes. repeat case_match; intros; simplify_eq; try done.
    all: first [by eapply read_head_restores | by eapply Hstring].
  - unfold rd_optional_is_null; solve_restores.
  - intros n r e r'. unfold rd_array. repeat case_match; intros; simplify_eq; [done|]. by eapply Hhead.
Qed.

(** The narrowing reads do not: [u8], [u16] and [u32] that refuse a value
    as out of range have already moved the cursor past the integer. *)
Theorem out_of_range_moves_cursor max r v r' :
  rd_narrow max r = (Err (OutOfRange v), r') → r' ≠ r.
Proof.
  unfold rd_narrow. destruct (rd_uint r) as [[x|e] r1] eqn:H.
  - destruct (x <=? max); intros [= -> ->]. apply codec_sound in H as [_ [-> _]].
    pose proof (length_uint_pos v). destruct r as [d o]. unfold advance_by. simpl. intros [= ?]. lia.
  - intros [= -> ->]. exfalso. unfold rd_uint, mismatch in H.
    destruct (read_head r) as [[[]|e] r2] eqn:Hh.
    + repeat case_match; naive_solver.
    + simplify_eq. by eapply read_head_in_range.
Qed.
