(* ===== verification/Push.v ===== *)
(** * Push wake rules

    Models the pure rules of [backend/wealdrelay/src/push/mod.rs] that the wire
    codec and the session table consult: the category bitmask, the expiry
    window and the ringer-url rule. The [url] crate is a parameter. *)

From Stdlib Require Import ZArith Lia.
From Stdlib Require Import String.
From stdpp Require Import base tactics numbers list.
From S2P Require Import Prelude.

Open Scope Z_scope.

Definition HANDLE_BYTES : nat := 16.
Definition MAX_REGISTER_URL_BYTES : nat := 512.
Definition MAX_EXPIRY_AHEAD_MS : Z := 30 * 24 * 60 * 60 * 1000.

Definition expiry_in_bounds (expires_at_ms now_ms : Z) : bool :=
  (now_ms <? expires_at_ms)
  && (expires_at_ms <=? u64_saturating_add now_ms MAX_EXPIRY_AHEAD_MS).

Inductive Category : Type := CatMessage | CatCall | CatHandshake.

Definition category_bit (c : Category) : Z :=
  match c with CatMessage => 1 | CatCall => 2 | CatHandshake => 4 end.

Definition admitted_by (c : Category) (mask : Z) : bool :=
  negb (Z.land mask (category_bit c) =? 0).

Definition is_urgent (c : Category) : bool :=
  match c with CatCall => true | _ => false end.

Definition ALL_CATEGORIES : Z := 7.

(** [mask != 0 && mask & !ALL_CATEGORIES == 0], the complement at eight bits. *)
Definition is_valid_mask (mask : Z) : bool :=
  negb (mask =? 0) && (Z.land mask (Z.lxor ALL_CATEGORIES 255) =? 0).

(** The [url] crate: a parse gives a scheme and an optional host. *)
Class UrlLib : Type :=
  url_parse : list byte → option (list byte * option (list byte)).

Definition ascii_bytes (s : string) : list byte := list_byte_of_string s.

Definition is_acceptable_register_url `{UrlLib} (value : list byte) : bool :=
  match value with
  | [] => true
  | _ =>
      match url_parse value with
      | None => false
      | Some (scheme, host) =>
          if bool_decide (scheme = ascii_bytes "https") then true
          else if bool_decide (scheme = ascii_bytes "http") then
            match host with
            | Some h => contains (map ascii_bytes ["127.0.0.1"; "localhost"; "::1"; "[::1]"]%string) h
            | None => false
            end
          else false
      end
  end.

(** A valid mask is exactly a nonempty set of the defined categories. *)
Lemma valid_mask_range mask :
  is_u8 mask → is_valid_mask mask = true ↔ 1 ≤ mask ≤ 7.
Proof.
  intros Hu. unfold is_valid_mask, ALL_CATEGORIES. change (Z.lxor 7 255) with 248.
  rewrite andb_true_iff, negb_true_iff, Z.eqb_neq, Z.eqb_eq.
  assert (Z.land mask 248 = mask - mask mod 8) as ->.
  { unfold is_u8, U8_MAX in Hu. change 248 with (Z.shiftl 31 3).
    rewrite <- (Z.mod_small mask (2 ^ 8)) at 1 by lia.
    rewrite <- Z.land_ones by lia. rewrite <- Z.land_assoc.
    replace (Z.land (Z.ones 8) (Z.shiftl 31 3)) with (Z.ldiff (Z.ones 8) (Z.ones 3)) by done.
    replace (Z.land mask (Z.ldiff (Z.ones 8) (Z.ones 3)))
      with (Z.ldiff (Z.land mask (Z.ones 8)) (Z.ones 3)).
    2:{ apply Z.bits_inj'. intros n Hn. rewrite !Z.ldiff_spec, !Z.land_spec, Z.ldiff_spec.
        by rewrite andb_assoc. }
    rewrite Z.land_ones, Z.mod_small, Z.ldiff_ones_r by lia.
    rewrite Z.shiftl_mul_pow2, Z.shiftr_div_pow2 by lia.
    pose proof (Z.div_mod mask 8 ltac:(lia)). change (2 ^ 3) with 8. lia. }
  pose proof (Z.mod_pos_bound mask 8 ltac:(lia)).
  pose proof (Z.div_mod mask 8 ltac:(lia)). unfold is_u8, U8_MAX in Hu.
  split; intros; [|split; [lia|]]; [lia|].
  rewrite Z.mod_small by lia. lia.
Qed.
