(* ===== verification/Frame.v ===== *)
(** * The frame set and the error taxonomy

    Models [backend/wealdrelay/src/frame.rs]: the six error classes, the closed
    registry of codes, the twenty-five frame tags, every frame with its fields,
    [Frame::encode], [Frame::decode] and the queue-cost estimate. *)

From Stdlib Require Import ZArith Lia.
From Stdlib Require Import String.
From stdpp Require Import base tactics numbers list strings.
From S2P Require Import Prelude Cbor Push.

Open Scope Z_scope.

Definition PROTOCOL_VERSION : Z := 4.
Definition MIN_PROTOCOL_VERSION : Z := 1.
Definition CALL_ID_BYTES : nat := 16.
Definition STREAM_BYTES : nat := 4.
Definition MAX_FRAME_BYTES : Z := Z.shiftl 1 20 + 4096.
Definition MAX_WAKE_BYTES : Z := 1024.

(** ** Errors *)
Inductive ErrorClass : Type := Retry | Reject | Denied | Quota | Version | Limit.

Definition class_as_str (c : ErrorClass) : string :=
  match c with
  | Retry => "retry" | Reject => "reject" | Denied => "denied"
  | Quota => "quota" | Version => "version" | Limit => "limit"
  end.

Definition is_retryable (c : ErrorClass) : bool :=
  match c with Retry | Quota | Limit => true | _ => false end.

Inductive ErrorCode : Type :=
| Backpressure | LockTimeout | Failover | PushBackpressure
| MalformedHeader | NoncanonicalCbor | HashMismatch | EnvelopeTooLarge
| UnknownRequiredField | PushHandleMalformed
| PlaintextRefused | WriterNotInAccessSet | GroupUnknown | ServiceReadOnly | GroupFrozen
| PushNotConfigured | WrapNotNewer
| StorageExhausted | LogBudgetExhausted | RateLimited | SeatsExhausted | GroupIngressLimited
| PushRegistrationRate
| ProtocolUnsupported | BelowClientFloor.

#[global] Instance ErrorCode_eq_dec : EqDecision ErrorCode.
Proof. solve_decision. Defined.

Definition code_class (c : ErrorCode) : ErrorClass :=
  match c with
  | Backpressure | LockTimeout | Failover | PushBackpressure => Retry
  | MalformedHeader | NoncanonicalCbor | HashMismatch | EnvelopeTooLarge
  | UnknownRequiredField | PushHandleMalformed => Reject
  | PlaintextRefused | WriterNotInAccessSet | GroupUnknown | ServiceReadOnly | GroupFrozen
  | WrapNotNewer | PushNotConfigured => Denied
  | StorageExhausted | LogBudgetExhausted | RateLimited | SeatsExhausted
  | GroupIngressLimited => Quota
  | PushRegistrationRate => Limit
  | ProtocolUnsupported | BelowClientFloor => Version
  end.

Definition code_as_str (c : ErrorCode) : string :=
  match c with
  | Backpressure => "backpressure"
  | LockTimeout => "lock_timeout"
  | Failover => "failover"
  | PushBackpressure => "push_backpressure"
  | MalformedHeader => "malformed_header"
  | NoncanonicalCbor => "noncanonical_cbor"
  | HashMismatch => "hash_mismatch"
  | EnvelopeTooLarge => "envelope_too_large"
  | UnknownRequiredField => "unknown_required_field"
  | PushHandleMalformed => "push_handle_malformed"
  | PlaintextRefused => "plaintext_refused"
  | WriterNotInAccessSet => "writer_not_in_access_set"
  | GroupUnknown => "group_unknown"
  | ServiceReadOnly => "service_read_only"
  | GroupFrozen => "group_frozen"
  | PushNotConfigured => "push_not_configured"
  | WrapNotNewer => "wrap_not_newer"
  | StorageExhausted => "storage_exhausted"
  | LogBudgetExhausted => "log_budget_exhausted"
  | RateLimited => "rate_limited"
  | SeatsExhausted => "seats_exhausted"
  | GroupIngressLimited => "group_ingress_limited"
  | PushRegistrationRate => "push_registration_rate"
  | ProtocolUnsupported => "protocol_unsupported"
  | BelowClientFloor => "below_client_floor"
  end.

Definition code_qualified (c : ErrorCode) : string :=
  (class_as_str (code_class c) ++ "/" ++ code_as_str c)%string.

Definition ErrorCode_ALL : list ErrorCode :=
  [Backpressure; LockTimeout; Failover; PushBackpressure; MalformedHeader; NoncanonicalCbor;
   HashMismatch; EnvelopeTooLarge; UnknownRequiredField; PushHandleMalformed; PlaintextRefused;
   WriterNotInAccessSet; GroupUnknown; ServiceReadOnly; GroupFrozen; PushNotConfigured;
   WrapNotNewer; StorageExhausted; LogBudgetExhausted; RateLimited; SeatsExhausted;
   GroupIngressLimited; PushRegistrationRate; ProtocolUnsupported; BelowClientFloor].

Record FrameError : Type := mkFrameError {
  fe_code : ErrorCode;
  fe_retry_after : option Z;
  fe_detail : option (list byte)
}.

Definition FrameError_new (code : ErrorCode) : FrameError := mkFrameError code None None.
Definition with_retry_after (e : FrameError) (seconds : Z) : FrameError :=
  mkFrameError (fe_code e) (Some seconds) (fe_detail e).
Definition with_detail (e : FrameError) (detail : list byte) : FrameError :=
  mkFrameError (fe_code e) (fe_retry_after e) (Some detail).

(** ** Tags *)
Inductive FrameTag : Type :=
| TagConnect | TagConnectAck | TagAuthChallenge | TagAuth | TagAuthAck | TagAccess | TagSub
| TagSubAck | TagRecon | TagPush | TagSend | TagSendAck | TagBlob | TagBye | TagError | TagWrap
| TagHandshake | TagJoin | TagDrop | TagInvite | TagLive | TagKeys | TagCall | TagMedia | TagWake.

Definition tag_number (t : FrameTag) : Z :=
  match t with
  | TagConnect => 1 | TagConnectAck => 2 | TagAuthChallenge => 3 | TagAuth => 4 | TagAuthAck => 5
  | TagAccess => 6 | TagSub => 7 | TagSubAck => 8 | TagRecon => 9 | TagPush => 10 | TagSend => 11
  | TagSendAck => 12 | TagBlob => 13 | TagBye => 14 | TagError => 15 | TagWrap => 16
  | TagHandshake => 17 | TagJoin => 18 | TagDrop => 19 | TagInvite => 20 | TagLive => 21
  | TagKeys => 22 | TagCall => 23 | TagMedia => 24 | TagWake => 25
  end.

Definition tag_from_u16 (value : Z) : option FrameTag :=
  match value with
  | 1 => Some TagConnect | 2 => Some TagConnectAck | 3 => Some TagAuthChallenge
  | 4 => Some TagAuth | 5 => Some TagAuthAck | 6 => Some TagAccess | 7 => Some TagSub
  | 8 => Some TagSubAck | 9 => Some TagRecon | 10 => Some TagPush | 11 => Some TagSend
  | 12 => Some TagSendAck | 13 => Some TagBlob | 14 => Some TagBye | 15 => Some TagError
  | 16 => Some TagWrap | 17 => Some TagHandshake | 18 => Some TagJoin | 19 => Some TagDrop
  | 20 => Some TagInvite | 21 => Some TagLive | 22 => Some TagKeys | 23 => Some TagCall
  | 24 => Some TagMedia | 25 => Some TagWake
  | _ => None
  end.

(** ** Frames *)
Inductive WakeBody : Type :=
| Register (handle : list byte) (categories : Z) (expires_at : Z)
| Registered (expires_at : Z)
| Clear
| Cleared
| Query
| Capability (enabled : bool) (register_url : list byte).

Definition wake_form (b : WakeBody) : Z :=
  match b with
  | Register _ _ _ => 1 | Registered _ => 2 | Clear => 3 | Cleared => 4 | Query => 5
  | Capability _ _ => 6
  end.

Inductive KeysBody : Type :=
| Publish (packages : list (list byte))
| Published (remaining : Z)
| Fetch (device : list byte) (count : Z)
| Bundles (packages : list (list byte))
| KeysNone.

Definition keys_form (b : KeysBody) : Z :=
  match b with
  | Publish _ => 1 | Published _ => 2 | Fetch _ _ => 3 | Bundles _ => 4 | KeysNone => 5
  end.

Inductive Frame : Type :=
| Connect (version : Z) (groups : list (list byte)) (sent_at : Z)
| ConnectAck (version server_time min_enc : Z)
| AuthChallenge (challenge : list byte)
| Auth (device_key signature : list byte)
| AuthAck (key_packages_remaining write_mode : Z) (build_digest : list byte) (access_set min_enc : Z)
| Access (body : list byte)
| Sub (group : list byte) (from_seq : Z)
| SubAck (group : list byte) (head_seq : Z)
| Recon (group payload : list byte)
| Push (envelope : list byte)
| Send (envelope : list byte)
| SendAck (hash : list byte) (seq : Z)
| Blob (payload : list byte)
| Drop (payload : list byte)
| Bye (reason : list byte)
| Error (error : FrameError)
| Wrap (body : list byte)
| Handshake (group : list byte) (seq : Z) (message : list byte)
| Join (body : list byte)
| Invite (body : list byte)
| Live (group : list byte) (epoch : Z) (ct : list byte)
| Keys (body : KeysBody)
| Call (call_id group : list byte) (epoch kind : Z) (body : list byte)
| Media (call_id stream : list byte) (seq : Z) (ct : list byte)
| Wake (body : WakeBody).

Definition frame_tag (f : Frame) : FrameTag :=
  match f with
  | Connect _ _ _ => TagConnect
  | ConnectAck _ _ _ => TagConnectAck
  | AuthChallenge _ => TagAuthChallenge
  | Auth _ _ => TagAuth
  | AuthAck _ _ _ _ _ => TagAuthAck
  | Access _ => TagAccess
  | Wrap _ => TagWrap
  | Handshake _ _ _ => TagHandshake
  | Join _ => TagJoin
  | Invite _ => TagInvite
  | Sub _ _ => TagSub
  | SubAck _ _ => TagSubAck
  | Recon _ _ => TagRecon
  | Push _ => TagPush
  | Send _ => TagSend
  | SendAck _ _ => TagSendAck
  | Blob _ => TagBlob
  | Drop _ => TagDrop
  | Bye _ => TagBye
  | Live _ _ _ => TagLive
  | Keys _ => TagKeys
  | Call _ _ _ _ _ => TagCall
  | Media _ _ _ _ => TagMedia
  | Wake _ => TagWake
  | Error _ => TagError
  end.

(** ** What holding a frame in a send queue costs *)
Definition sum_lengths (vs : list (list byte)) : Z := foldr (λ v n, len v + n) 0 vs.

Definition keys_queued_bytes (b : KeysBody) : Z :=
  match b with
  | Publish packages | Bundles packages => sum_lengths packages
  | Published _ | Fetch _ _ | KeysNone => 0
  end.

Definition wake_queued_bytes (b : WakeBody) : Z :=
  match b with
  | Register handle _ _ => len handle
  | Capability _ register_url => len register_url
  | Registered _ | Clear | Cleared | Query => 0
  end.

Definition OVERHEAD : Z := 256.

Definition queued_bytes (f : Frame) : Z :=
  let payload :=
    match f with
    | Push envelope => len envelope
    | Send envelope => len envelope
    | Handshake _ _ message => len message
    | Recon _ payload => len payload
    | Access body | Wrap body | Join body | Invite body => len body
    | Blob payload => len payload
    | Connect _ groups _ => sum_lengths groups
    | Live _ _ ct => len ct
    | Call _ _ _ _ body => len body
    | Media _ _ _ ct => len ct
    | Keys body => keys_queued_bytes body
    | Wake body => wake_queued_bytes body
    | _ => 0
    end in
  payload + OVERHEAD.

(** ** Encoding: [[tag, [fields...]]] *)
Definition bytes_array (vs : list (list byte)) : list byte := array (map bytes vs).

Definition encode_keys (b : KeysBody) : list byte :=
  let fields :=
    match b with
    | Publish packages | Bundles packages => bytes_array packages
    | Published remaining => array [uint remaining]
    | Fetch device count => array [bytes device; uint count]
    | KeysNone => array []
    end in
  array [uint (keys_form b); fields].

Definition encode_wake (b : WakeBody) : list byte :=
  let fields :=
    match b with
    | Register handle categories expires_at =>
        array [bytes handle; uint categories; uint expires_at]
    | Registered expires_at => array [uint expires_at]
    | Clear | Cleared | Query => array []
    | Capability enabled register_url => array [boolean enabled; text register_url]
    end in
  array [uint (wake_form b); fields].

Definition encode_error (e : FrameError) : list byte :=
  array [bytes (ascii_bytes (class_as_str (code_class (fe_code e))));
         bytes (ascii_bytes (code_as_str (fe_code e)));
         uint (default 0 (fe_retry_after e));
         bytes (default [] (fe_detail e))].

Definition encode_body (f : Frame) : list byte :=
  match f with
  | Connect version groups sent_at => array [uint version; bytes_array groups; uint sent_at]
  | ConnectAck version server_time min_enc => array [uint version; uint server_time; uint min_enc]
  | AuthChallenge challenge => array [bytes challenge]
  | Auth device_key signature => array [bytes device_key; bytes signature]
  | AuthAck key_packages_remaining write_mode build_digest access_set min_enc =>
      array [uint key_packages_remaining; uint write_mode; bytes build_digest;
             uint access_set; uint min_enc]
  | Access body => array [bytes body]
  | Wrap body => array [bytes body]
  | Handshake group seq message => array [bytes group; uint seq; bytes message]
  | Join body => array [bytes body]
  | Invite body => array [bytes body]
  | Sub group from_seq => array [bytes group; uint from_seq]
  | SubAck group head_seq => array [bytes group; uint head_seq]
  | Recon group payload => array [bytes group; bytes payload]
  | Push envelope => array [bytes envelope]
  | Send envelope => array [bytes envelope]
  | SendAck hash seq => array [bytes hash; uint seq]
  | Blob payload => array [bytes payload]
  | Drop payload => array [bytes payload]
  | Bye reason => array [bytes reason]
  | Live group epoch ct => array [bytes group; uint epoch; bytes ct]
  | Call call_id group epoch kind body =>
      array [bytes call_id; bytes group; uint epoch; uint kind; bytes body]
  | Media call_id stream seq ct => array [bytes call_id; bytes stream; uint seq; bytes ct]
  | Keys body => encode_keys body
  | Wake body => encode_wake body
  | Error error => encode_error error
  end.

Definition frame_encode (f : Frame) : list byte :=
  array [uint (tag_number (frame_tag f)); encode_body f].

(** ** Decoding *)
Inductive FrameDecodeError : Type :=
| TooLarge (size : nat)
| FrameCbor (error : CborError)
| UnknownTag (tag : Z)
| FrameUnsupportedVersion (version : Z)
| BadField (field : string)
| BadWakeField (field : string)
| TooLargeWake (size : nat).

Definition decode_error_code (e : FrameDecodeError) : ErrorCode :=
  match e with
  | TooLarge _ => EnvelopeTooLarge
  | FrameCbor _ => NoncanonicalCbor
  | UnknownTag _ | BadField _ => MalformedHeader
  | BadWakeField _ => PushHandleMalformed
  | TooLargeWake _ => EnvelopeTooLarge
  | FrameUnsupportedVersion _ => ProtocolUnsupported
  end.

Definition wake_shape (field : string) (error : CborError) : FrameDecodeError :=
  match error with
  | NonCanonicalInteger | ReservedAdditionalInfo _ | TrailingBytes _ => FrameCbor error
  | _ => BadField field
  end.

Abbreviation lift := (rd_map_err FrameCbor).

Section decode.
Context `{UrlLib}.

Definition decode_connect : rd FrameDecodeError Frame :=
  lift (rd_array 3) ;;;
  version <- lift rd_u16 ;;
  if version <? MIN_PROTOCOL_VERSION then rd_fail (FrameUnsupportedVersion version) else
  groups <- lift (rd_list (rd_bytes_of 32)) ;;
  sent_at <- lift rd_uint ;;
  rd_ret (Connect version groups sent_at).

Definition decode_connect_ack : rd FrameDecodeError Frame :=
  lift (rd_array 3) ;;;
  version <- lift rd_u16 ;;
  if negb ((MIN_PROTOCOL_VERSION <=? version) && (version <=? PROTOCOL_VERSION))
  then rd_fail (FrameUnsupportedVersion version) else
  server_time <- lift rd_uint ;;
  min_enc <- lift rd_u8 ;;
  rd_ret (ConnectAck version server_time min_enc).

(** The one-field frames whose field is an opaque byte string. *)
Definition decode_opaque (k : list byte → Frame) : rd FrameDecodeError Frame :=
  lift (rd_array 1) ;;; v <- lift rd_bytes ;; rd_ret (k v).

Definition decode_keys : rd FrameDecodeError Frame :=
  lift (rd_array 2) ;;;
  form <- lift rd_u8 ;;
  match form with
  | 1 => packages <- lift (rd_list rd_bytes) ;; rd_ret (Keys (Publish packages))
  | 4 => packages <- lift (rd_list rd_bytes) ;; rd_ret (Keys (Bundles packages))
  | 2 => lift (rd_array 1) ;;; remaining <- lift rd_u32 ;; rd_ret (Keys (Published remaining))
  | 3 => lift (rd_array 2) ;;; device <- lift (rd_bytes_of 32) ;; count <- lift rd_u8 ;;
         rd_ret (Keys (Fetch device count))
  | 5 => lift (rd_array 0) ;;; rd_ret (Keys KeysNone)
  | _ => rd_fail (BadField "form")
  end.

Abbreviation shaped field := (rd_map_err (wake_shape field)).

Definition decode_wake (total : nat) : rd FrameDecodeError Frame :=
  if MAX_WAKE_BYTES <? Z.of_nat total then rd_fail (TooLargeWake total) else
  shaped "wake" (rd_array 2) ;;;
  form <- shaped "form" rd_u8 ;;
  match form with
  | 1 =>
      shaped "register" (rd_array 3) ;;;
      handle <- shaped "handle" rd_bytes ;;
      if negb (length handle =? HANDLE_BYTES)%nat then rd_fail (BadWakeField "handle") else
      categories <- shaped "categories" rd_u8 ;;
      if negb (is_valid_mask categories) then rd_fail (BadWakeField "categories") else
      expires_at <- shaped "expires_at" rd_uint ;;
      rd_ret (Wake (Register handle categories expires_at))
  | 2 =>
      shaped "registered" (rd_array 1) ;;;
      expires_at <- shaped "expires_at" rd_uint ;;
      rd_ret (Wake (Registered expires_at))
  | 3 => shaped "fields" (rd_array 0) ;;; rd_ret (Wake Clear)
  | 4 => shaped "fields" (rd_array 0) ;;; rd_ret (Wake Cleared)
  | 5 => shaped "fields" (rd_array 0) ;;; rd_ret (Wake Query)
  | 6 =>
      shaped "capability" (rd_array 2) ;;;
      enabled <- shaped "enabled" rd_boolean ;;
      register_url <- shaped "register_url" rd_text ;;
      if (MAX_REGISTER_URL_BYTES <? length register_url)%nat
         || negb (is_acceptable_register_url register_url)
      then rd_fail (BadWakeField "register_url") else
      rd_ret (Wake (Capability enabled register_url))
  | _ => rd_fail (BadField "form")
  end.

Definition find_code (class code : list byte) : option ErrorCode :=
  find (λ c, bool_decide (ascii_bytes (code_as_str c) = code)
             && bool_decide (ascii_bytes (class_as_str (code_class c)) = class)) ErrorCode_ALL.

Definition decode_error : rd FrameDecodeError Frame :=
  lift (rd_array 4) ;;;
  class <- lift rd_bytes ;;
  code <- lift rd_bytes ;;
  retry_after <- lift rd_u32 ;;
  detail <- lift rd_bytes ;;
  match find_code class code with
  | None => rd_fail (BadField "code")
  | Some c =>
      rd_ret (Error (mkFrameError c
        (if 0 <? retry_after then Some retry_after else None)
        (match detail with [] => None | _ => Some detail end)))
  end.

Definition decode_body (total : nat) (tag : FrameTag) : rd FrameDecodeError Frame :=
  match tag with
  | TagConnect => decode_connect
  | TagConnectAck => decode_connect_ack
  | TagAuthChallenge => decode_opaque AuthChallenge
  | TagAuth =>
      lift (rd_array 2) ;;; device_key <- lift (rd_bytes_of 32) ;;
      signature <- lift (rd_bytes_of 64) ;; rd_ret (Auth device_key signature)
  | TagAuthAck =>
      lift (rd_array 5) ;;; k <- lift rd_u32 ;; w <- lift rd_u8 ;; d <- lift rd_bytes ;;
      a <- lift rd_u8 ;; m <- lift rd_u8 ;; rd_ret (AuthAck k w d a m)
  | TagAccess => decode_opaque Access
  | TagWrap => decode_opaque Wrap
  | TagJoin => decode_opaque Join
  | TagInvite => decode_opaque Invite
  | TagHandshake =>
      lift (rd_array 3) ;;; group <- lift (rd_bytes_of 32) ;; seq <- lift rd_uint ;;
      message <- lift rd_bytes ;; rd_ret (Handshake group seq message)
  | TagSub =>
      lift (rd_array 2) ;;; group <- lift (rd_bytes_of 32) ;; seq <- lift rd_uint ;;
      rd_ret (Sub group seq)
  | TagSubAck =>
      lift (rd_array 2) ;;; group <- lift (rd_bytes_of 32) ;; seq <- lift rd_uint ;;
      rd_ret (SubAck group seq)
  | TagRecon =>
      lift (rd_array 2) ;;; group <- lift (rd_bytes_of 32) ;; payload <- lift rd_bytes ;;
      rd_ret (Recon group payload)
  | TagPush => decode_opaque Push
  | TagSend => decode_opaque Send
  | TagSendAck =>
      lift (rd_array 2) ;;; hash <- lift (rd_bytes_of 32) ;; seq <- lift rd_uint ;;
      rd_ret (SendAck hash seq)
  | TagBlob => decode_opaque Blob
  | TagDrop => decode_opaque Drop
  | TagBye => decode_opaque Bye
  | TagLive =>
      lift (rd_array 3) ;;; group <- lift (rd_bytes_of 32) ;; epoch <- lift rd_uint ;;
      ct <- lift rd_bytes ;; rd_ret (Live group epoch ct)
  | TagCall =>
      lift (rd_array 5) ;;; call_id <- lift (rd_bytes_of CALL_ID_BYTES) ;;
      group <- lift (rd_bytes_of 32) ;; epoch <- lift rd_uint ;; kind <- lift rd_u8 ;;
      body <- lift rd_bytes ;; rd_ret (Call call_id group epoch kind body)
  | TagMedia =>
      lift (rd_array 4) ;;; call_id <- lift (rd_bytes_of CALL_ID_BYTES) ;;
      stream <- lift (rd_bytes_of STREAM_BYTES) ;; seq <- lift rd_uint ;;
      ct <- lift rd_bytes ;; rd_ret (Media call_id stream seq ct)
  | TagKeys => decode_keys
  | TagWake => decode_wake total
  | TagError => decode_error
  end.

Definition decode_frame (total : nat) : rd FrameDecodeError Frame :=
  lift (rd_array 2) ;;;
  raw_tag <- lift rd_uint ;;
  match (if raw_tag <=? U16_MAX then tag_from_u16 raw_tag else None) with
  | None => rd_fail (UnknownTag (if raw_tag <=? U16_MAX then raw_tag else U16_MAX))
  | Some tag => decode_body total tag
  end.

Definition frame_decode (bs : list byte) : result FrameDecodeError Frame :=
  if MAX_FRAME_BYTES <? len bs then Err (TooLarge (length bs))
  else parse FrameCbor (decode_frame (length bs)) bs.
End decode.

(** ** Well-formed frames: the frames the wire can carry *)
Definition keys_wf (b : KeysBody) : Prop :=
  match b with
  | Publish packages | Bundles packages => list_ok vec_ok packages
  | Published remaining => is_u32 remaining
  | Fetch device count => length device = 32%nat ∧ is_u8 count
  | KeysNone => True
  end.

Definition wake_wf `{UrlLib} (b : WakeBody) : Prop :=
  match b with
  | Register handle categories expires_at =>
      length handle = HANDLE_BYTES ∧ is_u8 categories ∧ is_valid_mask categories = true
      ∧ is_u64 expires_at
  | Registered expires_at => is_u64 expires_at
  | Clear | Cleared | Query => True
  | Capability _ register_url =>
      text_ok register_url ∧ (length register_url ≤ MAX_REGISTER_URL_BYTES)%nat
      ∧ is_acceptable_register_url register_url = true
  end.

Definition error_wf (e : FrameError) : Prop :=
  match fe_retry_after e with None => True | Some s => 0 < s ≤ U32_MAX end
  ∧ match fe_detail e with None => True | Some d => d ≠ [] ∧ vec_ok d end.

Definition frame_wf `{UrlLib} (f : Frame) : Prop :=
  match f with
  | Connect version groups sent_at =>
      is_u16 version ∧ MIN_PROTOCOL_VERSION ≤ version
      ∧ list_ok (λ v, length v = 32%nat) groups ∧ is_u64 sent_at
  | ConnectAck version server_time min_enc =>
      MIN_PROTOCOL_VERSION ≤ version ≤ PROTOCOL_VERSION ∧ is_u64 server_time ∧ is_u8 min_enc
  | AuthChallenge v | Access v | Push v | Send v | Blob v | Drop v | Bye v | Wrap v | Join v
  | Invite v => vec_ok v
  | Auth device_key signature => length device_key = 32%nat ∧ length signature = 64%nat
  | AuthAck k w d a m => is_u32 k ∧ is_u8 w ∧ vec_ok d ∧ is_u8 a ∧ is_u8 m
  | Sub group seq | SubAck group seq => length group = 32%nat ∧ is_u64 seq
  | Recon group payload => length group = 32%nat ∧ vec_ok payload
  | SendAck hash seq => length hash = 32%nat ∧ is_u64 seq
  | Handshake group seq v | Live group seq v => length group = 32%nat ∧ is_u64 seq ∧ vec_ok v
  | Keys body => keys_wf body
  | Call call_id group epoch kind body =>
      length call_id = CALL_ID_BYTES ∧ length group = 32%nat ∧ is_u64 epoch ∧ is_u8 kind ∧ vec_ok body
  | Media call_id stream seq ct =>
      length call_id = CALL_ID_BYTES ∧ length stream = STREAM_BYTES ∧ is_u64 seq ∧ vec_ok ct
  | Wake body => wake_wf body
  | Error error => error_wf error
  end.

(** The [WAKE] ceiling is on the whole frame. *)
Definition wake_fits (total : nat) (f : Frame) : Prop :=
  match f with Wake _ => Z.of_nat total ≤ MAX_WAKE_BYTES | _ => True end.

(** ** The codec *)
Lemma find_code_complete c :
  find_code (ascii_bytes (class_as_str (code_class c))) (ascii_bytes (code_as_str c)) = Some c.
Proof. by destruct c. Qed.

Lemma find_code_sound class code c :
  find_code class code = Some c →
  class = ascii_bytes (class_as_str (code_class c)) ∧ code = ascii_bytes (code_as_str c).
Proof.
  unfold find_code. intros [_ H]%find_some.
  apply andb_true_iff in H as [H1%bool_decide_eq_true H2%bool_decide_eq_true]. done.
Qed.

Lemma ascii_code_ok c :
  vec_ok (ascii_bytes (class_as_str (code_class c))) ∧ vec_ok (ascii_bytes (code_as_str c)).
Proof. destruct c; by vm_compute. Qed.

Lemma tag_roundtrip t : tag_from_u16 (tag_number t) = Some t ∧ 0 ≤ tag_number t ≤ U16_MAX.
Proof. destruct t; by vm_compute. Qed.

Lemma tag_from_u16_sound v t : tag_from_u16 v = Some t → v = tag_number t.
Proof. unfold tag_from_u16. repeat case_match; intros; simplify_eq; done. Qed.

Section codec.
Context `{UrlLib}.

Lemma accepts_keys b : keys_wf b → accepts 0 decode_keys (encode_keys b) (Keys b).
Proof.
  intros Hwf. unfold decode_keys, encode_keys.
  apply accepts_array_items; [done | by vm_compute | destruct b; unfold bytes_array; length_items | cbn [concat]].
  eapply accepts_field; [apply codec_accepts; destruct b; by vm_compute|].
  rewrite app_nil_r. destruct b; simpl; simpl in Hwf.
  - by apply (accepts_last _ (λ p, Keys (Publish p))), codec_accepts.
  - accept_record.
  - destruct Hwf. accept_record.
  - by apply (accepts_last _ (λ p, Keys (Bundles p))), codec_accepts.
  - accept_record.
Qed.

Lemma accepts_wake total b :
  wake_wf b → Z.of_nat total ≤ MAX_WAKE_BYTES →
  accepts 0 (decode_wake total) (encode_wake b) (Wake b).
Proof.
  intros Hwf Ht. unfold decode_wake, encode_wake.
  rewrite (proj2 (Z.ltb_ge _ _) Ht).
  apply accepts_array_items; [done | by vm_compute | destruct b; length_items | cbn [concat]].
  eapply accepts_field; [apply codec_accepts; destruct b; by vm_compute|].
  rewrite app_nil_r. destruct b; simpl; simpl in Hwf.
  - destruct Hwf as (Hh & Hc & Hm & He).
    apply accepts_array_items; [done | by vm_compute | length_items | cbn [concat]].
    eapply accepts_field.
    { apply codec_accepts. unfold vec_ok, len. rewrite Hh. by vm_compute. }
    rewrite Hh. cbn -[is_valid_mask]. eapply accepts_field; [by apply codec_accepts|].
    rewrite Hm. simpl. repeat accept_field.
  - accept_record.
  - accept_record.
  - accept_record.
  - accept_record.
  - destruct Hwf as (Ht1 & Hl & Hu).
    apply accepts_array_items; [done | by vm_compute | | cbn [concat]].
    { simpl. rewrite !length_app. unfold text. rewrite length_app.
      pose proof (length_head_pos MAJOR_TEXT (len register_url)). destruct enabled; simpl; lia. }
    eapply accepts_field; [by apply codec_accepts|].
    eapply accepts_field; [by apply codec_accepts|].
    rewrite (proj2 (Nat.ltb_ge _ _) Hl), Hu. apply accepts_ret.
Qed.

Lemma accepts_error e : error_wf e → accepts 0 decode_error (encode_error e) (Error e).
Proof.
  destruct e as [code retry detail]. intros [Hr Hd]. unfold decode_error, encode_error. simpl in *.
  destruct (ascii_code_ok code) as [Hc1 Hc2].
  apply accepts_array_items; [done | by vm_compute | length_items | cbn [concat]].
  do 2 (eapply accepts_field; [by apply codec_accepts|]).
  eapply accepts_field.
  { apply codec_accepts. destruct retry; simpl; [unfold is_u32; lia | by vm_compute]. }
  eapply accepts_field.
  { apply codec_accepts. destruct detail; simpl; [naive_solver | by vm_compute]. }
  rewrite find_code_complete.
  assert ((if 0 <? default 0 retry then Some (default 0 retry) else None) = retry) as ->.
  { destruct retry; simpl; [|done]. by rewrite (proj2 (Z.ltb_lt _ _)) by lia. }
  assert (match default [] detail with [] => None | _ => Some (default [] detail) end = detail) as ->.
  { destruct detail as [[|]|]; simpl; naive_solver. }
  apply accepts_ret.
Qed.

Lemma accepts_body total f :
  frame_wf f → wake_fits total f →
  accepts 0 (decode_body total (frame_tag f)) (encode_body f) f.
Proof.
  intros Hwf Hfit. destruct f; cbn [frame_wf] in Hwf; unfold decode_body, encode_body, frame_tag;
    destruct_and?; try (unfold decode_opaque; accept_record; fail).
  - unfold decode_connect.
    apply accepts_array_items; [done | by vm_compute | unfold bytes_array; length_items | cbn [concat]].
    accept_field. rewrite (proj2 (Z.ltb_ge _ _)) by lia. repeat accept_field.
  - unfold decode_connect_ack.
    apply accepts_array_items; [done | by vm_compute | length_items | cbn [concat]].
    eapply accepts_field.
    { apply codec_accepts. unfold is_u16, PROTOCOL_VERSION, MIN_PROTOCOL_VERSION, U16_MAX in *. lia. }
    rewrite !(proj2 (Z.leb_le _ _)) by lia. simpl. repeat accept_field.
  - by apply accepts_error.
  - by apply accepts_keys.
  - by apply accepts_wake.
Qed.

Ltac done_record H :=
  injection H as <- <-; split; [done|]; split; [cbn [frame_wf]; repeat first [assumption | done | split] |];
  split; [done|]; sound_chain.

Lemma keys_sound r f r' :
  decode_keys r = (Ok f, r') →
  frame_tag f = TagKeys ∧ frame_wf f ∧ (∀ n, wake_fits n f) ∧ consumed r r' (encode_body f).
Proof.
  intros Hd. unfold decode_keys in Hd. do 2 sound_step Hd.
  repeat (case_match; [try discriminate|]); try discriminate.
  all: repeat (case_match; try discriminate).
  all: repeat sound_step Hd; injection Hd as <- <-; split; [done|]; (split; [done|]); (split; [done|]).
  all: unfold encode_body, encode_keys; cbn [keys_form]; unfold bytes_array; sound_chain.
Qed.

Lemma wake_sound total r f r' :
  decode_wake total r = (Ok f, r') →
  frame_tag f = TagWake ∧ frame_wf f ∧ wake_fits total f ∧ consumed r r' (encode_body f).
Proof.
  intros Hd. unfold decode_wake in Hd.
  destruct (Z.ltb_spec MAX_WAKE_BYTES (Z.of_nat total)) as [|Ht]; [discriminate|].
  do 2 sound_step Hd. repeat (case_match; try discriminate).
  all: repeat (sound_step Hd; repeat (case_match; try discriminate)).
  all: injection Hd as <- <-; split; [done|].
  all: (split; [|split; [done|]; unfold encode_body, encode_wake; cbn [wake_form]; sound_chain]).
  all: try done.
  - match goal with H : _ || _ = false |- _ =>
      apply orb_false_iff in H as [Hl%Nat.ltb_ge Hu%negb_false_iff] end. done.
  - rewrite negb_false_iff in *.
    match goal with H : (_ =? _)%nat = true |- _ => apply Nat.eqb_eq in H end. done.
Qed.

Lemma error_sound r f r' :
  decode_error r = (Ok f, r') →
  frame_tag f = TagError ∧ frame_wf f ∧ (∀ n, wake_fits n f) ∧ consumed r r' (encode_body f).
Proof.
  intros Hd. unfold decode_error in Hd. repeat sound_step Hd.
  destruct (find_code _ _) as [c|] eqn:Hc; [|discriminate].
  apply find_code_sound in Hc as [-> ->]. injection Hd as <- <-. split; [done|].
  match goal with H : is_u32 ?x |- _ => rename H into Hr; rename x into retry end.
  split; [|split; [done|]].
  - split; simpl.
    + destruct (Z.ltb_spec 0 retry); [unfold is_u32 in Hr; lia | done].
    + match goal with |- context [match ?d with [] => None | _ => _ end] => by destruct d end.
  - unfold encode_body, encode_error. cbn [fe_code fe_retry_after fe_detail].
    match goal with |- context [default 0 ?o] => replace (default 0 o) with retry end.
    2:{ destruct (Z.ltb_spec 0 retry); simpl; [done|]. unfold is_u32 in Hr. lia. }
    match goal with |- context [match ?d with [] => None | _ => _ end] =>
      replace (default [] (match d with [] => None | _ => Some d end)) with d by (by destruct d) end.
    sound_chain.
Qed.

Lemma body_sound total tag r f r' :
  decode_body total tag r = (Ok f, r') →
  frame_tag f = tag ∧ frame_wf f ∧ wake_fits total f ∧ consumed r r' (encode_body f).
Proof.
  intros Hd. destruct tag; unfold decode_body, decode_opaque in Hd;
    try (repeat sound_step Hd; done_record Hd; fail).
  - unfold decode_connect in Hd. do 2 sound_step Hd.
    destruct (Z.ltb_spec x1 MIN_PROTOCOL_VERSION); [discriminate|].
    repeat sound_step Hd. done_record Hd.
  - unfold decode_connect_ack in Hd. do 2 sound_step Hd.
    destruct (negb _) eqn:Hv; [discriminate|].
    apply negb_false_iff, andb_true_iff in Hv as [Hv1%Z.leb_le Hv2%Z.leb_le].
    repeat sound_step Hd. done_record Hd.
  - apply error_sound in Hd. naive_solver.
  - apply keys_sound in Hd. naive_solver.
  - by apply wake_sound.
Qed.

#[global] Instance frame_codec total :
  WireCodec (λ f, frame_wf f ∧ wake_fits total f) frame_encode (decode_frame total).
Proof.
  split.
  - intros f [Hwf Hfit]. unfold decode_frame, frame_encode.
    destruct (tag_roundtrip (frame_tag f)) as [Ht Hr].
    apply accepts_array_items; [done | by vm_compute | | cbn [concat]].
    { cbn [concat]. rewrite !length_app. cbn [length].
      pose proof (length_uint_pos (tag_number (frame_tag f))).
      assert (1 ≤ length (encode_body f))%nat; [|lia].
      destruct f; apply length_array_pos. }
    eapply accepts_field.
    { apply codec_accepts. unfold is_u64, U16_MAX, U64_MAX in *. lia. }
    rewrite (proj2 (Z.leb_le _ _)) by lia. rewrite Ht, app_nil_r. by apply accepts_body.
  - intros r f r' Hd. unfold decode_frame in Hd. do 2 sound_step Hd.
    case_match; [|discriminate]. case_match; [|discriminate].
    apply body_sound in Hd as (Htag & Hwf & Hfit & Hc). split; [done|].
    match goal with H : tag_from_u16 _ = _ |- _ => apply tag_from_u16_sound in H as -> end.
    unfold frame_encode. rewrite Htag. sound_chain.
Qed.
End codec.

(** ** Properties *)

(** C14. What the frame decoder accepts has exactly one encoding: bytes that
    decode to a frame are that frame's encoding, byte for byte, and the frame
    is well formed (widths, versions, masks and url rules hold). *)
Theorem frame_decode_canonical `{UrlLib} bs f :
  frame_decode bs = Ok f → frame_encode f = bs ∧ frame_wf f.
Proof.
  unfold frame_decode. destruct (MAX_FRAME_BYTES <? len bs); [discriminate|].
  intros Hp.
  destruct (parse_canonical FrameCbor (λ f, frame_wf f ∧ wake_fits (length bs) f)
              frame_encode _ bs f Hp) as [[Hwf _] He].
  done.
Qed.

(** Every well-formed frame that fits the size limits survives the wire. *)
Theorem frame_roundtrip `{UrlLib} f :
  frame_wf f → len (frame_encode f) ≤ MAX_FRAME_BYTES →
  wake_fits (length (frame_encode f)) f →
  frame_decode (frame_encode f) = Ok f.
Proof.
  intros Hwf Hlen Hfit. unfold frame_decode.
  rewrite (proj2 (Z.ltb_ge _ _) Hlen).
  exact (parse_encode FrameCbor (λ g, frame_wf g ∧ wake_fits (length (frame_encode f)) g)
           frame_encode _ f (conj Hwf Hfit)).
Qed.

#[local] Instance url_all_https : UrlLib := λ _, Some (ascii_bytes "https", None).

Definition sample_connect : Frame := Connect 7 [replicate 32 Byte.x01] 1000.

Lemma frame_decode_canonical_witness :
  frame_encode sample_connect = frame_encode sample_connect ∧ frame_wf sample_connect.
Proof. apply frame_decode_canonical. by vm_compute. Defined.

Definition sample_wake : Frame := Wake (Register (replicate 16 Byte.xff) 5 99).

Lemma frame_roundtrip_witness : frame_decode (frame_encode sample_wake) = Ok sample_wake.
Proof.
  apply frame_roundtrip.
  - repeat split; by vm_compute.
  - by vm_compute.
  - by vm_compute.
Defined.
