(* ===== verification/Crypto.v ===== *)
(** * Cryptographic primitives as parameters

    The [blake3] and [ed25519-dalek] crates are not part of the repository.
    [Blake3] is the hash as a function of the bytes fed to the hasher (a
    sequence of [update] calls hashes their concatenation), and [Ed25519] is
    [VerifyingKey::from_bytes] followed by [verify_strict], for inputs of the
    right width. Where the code relies on the width of a digest, the law
    [blake3_width] is a hypothesis; collision freedom is never assumed. *)

From stdpp Require Import base list numbers.
From S2P Require Import Prelude.

Class Blake3 : Type := blake3 : list byte → list byte.
Class Blake3Width `{Blake3} : Prop := blake3_width : ∀ bs, length (blake3 bs) = 32%nat.

Class Ed25519 : Type := verify_strict : list byte → list byte → list byte → bool.

(** Two different inputs with one digest. *)
Definition collision `{Blake3} (a b : list byte) : Prop := a ≠ b ∧ blake3 a = blake3 b.

(** A toy digest for closed examples: the first 32 bytes, zero padded. *)
Definition toy_digest (bs : list byte) : list byte := take 32 (bs ++ replicate 32 Byte.x00).

Lemma toy_digest_width bs : length (toy_digest bs) = 32%nat.
Proof. unfold toy_digest. rewrite length_take, length_app, length_replicate. lia. Qed.

(** A polynomial digest that reads every byte, and signatures made of the key
    and that digest, for closed examples that need more than one hash value. *)
Definition poly_digest (bs : list byte) : list byte :=
  be_bytes 32 (fold_left (λ v b, (v * 257 + byte_to_Z b + 1) mod 2305843009213693951)%Z bs 7%Z).

Lemma poly_digest_width bs : length (poly_digest bs) = 32%nat.
Proof. apply length_be_bytes. Qed.

Definition toy_sign (key message : list byte) : list byte := key ++ poly_digest message.
Definition toy_verify (key message sig : list byte) : bool :=
  bool_decide (sig = toy_sign key message).
