(* ===== verification/Negentropy.v ===== *)
(** * Range-based reconciliation: the [RECON] payload

    Models [backend/wealdrelay/src/negentropy/mod.rs]: items, ranges, the
    message codec with its cover rules, the fingerprint and the slice of items
    inside a range. *)

From Stdlib Require Import ZArith Lia.
From Stdlib Require Import String.
From stdpp Require Import base tactics numbers list strings gmap sets sorting.
From S2P Require Import Prelude Cbor Crypto Push Frame.

Open Scope Z_scope.

Definition RECON_VERSION : Z := 1.
Definition INFINITY : Z := U64_MAX.
Definition IDLIST_LIMIT : nat := 16.
Definition SPLIT_FACTOR : nat := 8.
Definition MAX_RANGES : nat := 1024.
Definition MAX_IDS_PER_RANGE : nat := 4096.

Abbreviation Id := (list byte).

Record Item : Type := mkItem { seq : Z; id : Id }.

#[global] Instance Item_eq_dec : EqDecision Item.
Proof. solve_decision. Defined.

Inductive Mode : Type :=
| Skip
| Fingerprint (fingerprint : Id)
| IdList (ids : list Id).

#[global] Instance Mode_eq_dec : EqDecision Mode.
Proof. solve_decision. Defined.

Definition mode_tag (m : Mode) : Z :=
  match m with Skip => 0 | Fingerprint _ => 1 | IdList _ => 2 end.

Record Range : Type := mkRange { upper : Z; mode : Mode }.
Record Message : Type := mkMessage { ranges : list Range }.

Inductive ReconError : Type :=
| ReconCbor (error : CborError)
| UnsupportedVersion (version : Z)
| TooManyRanges (count : nat)
| TooManyIds (count : nat)
| UnknownMode (tag : Z)
| UnorderedRanges
| IncompleteCover
| UnorderedIds
| Empty.

Definition recon_error_code (e : ReconError) : ErrorCode :=
  match e with ReconCbor _ => NoncanonicalCbor | _ => MalformedHeader end.

Definition settled : Message := mkMessage [mkRange INFINITY Skip].
Definition is_settled (m : Message) : bool :=
  forallb (λ r, bool_decide (mode r = Skip)) (ranges m).

(** ** Encoding *)
Definition encode_mode (m : Mode) : list byte :=
  match m with
  | Skip => NULL
  | Fingerprint fp => bytes fp
  | IdList ids => array (map bytes ids)
  end.

Definition encode_range (r : Range) : list byte :=
  array [uint (upper r); uint (mode_tag (mode r)); encode_mode (mode r)].

Definition message_encode (m : Message) : list byte :=
  array [uint RECON_VERSION; array (map encode_range (ranges m))].

(** ** Decoding *)
Definition fixed (bs : list byte) : Id := take 32 bs ++ replicate (32 - length bs) Byte.x00.
Definition id_from_slice (bs : list byte) : Id := fixed bs.

Abbreviation rlift := (rd_map_err ReconCbor).

(** The id loop: [ids.last().is_some_and(|last| &id <= last)] refuses. *)
Fixpoint decode_ids (count : nat) (last : option Id) : rd ReconError (list Id) :=
  match count with
  | O => rd_ret []
  | S n =>
      raw <- rlift (rd_bytes_of 32) ;;
      let id := fixed raw in
      if match last with Some l => negb (bytes_ltb l id) | None => false end
      then rd_fail UnorderedIds
      else ids <- decode_ids n (Some id) ;; rd_ret (id :: ids)
  end.

Definition decode_range : rd ReconError Range :=
  rlift (rd_array 3) ;;;
  up <- rlift rd_uint ;;
  tag <- rlift rd_uint ;;
  match tag with
  | 0 =>
      payload <- rlift rd_optional_bytes ;;
      match payload with
      | None => rd_ret (mkRange up Skip)
      | Some _ => rd_fail (ReconCbor (TypeMismatch ExpNull))
      end
  | 1 => fp <- rlift (rd_bytes_of 32) ;; rd_ret (mkRange up (Fingerprint (fixed fp)))
  | 2 =>
      count <- rlift rd_array_header ;;
      if (MAX_IDS_PER_RANGE <? count)%nat then rd_fail (TooManyIds count) else
      ids <- decode_ids count None ;; rd_ret (mkRange up (IdList ids))
  | other => rd_fail (UnknownMode other)
  end.

(** The range loop, and the cover check on what it leaves in [previous]. *)
Fixpoint decode_ranges (count : nat) (previous : option Z) : rd ReconError (list Range) :=
  match count with
  | O =>
      if bool_decide (previous = Some INFINITY) then rd_ret [] else rd_fail IncompleteCover
  | S n =>
      range <- decode_range ;;
      if match previous with Some p => upper range <=? p | None => false end
      then rd_fail UnorderedRanges
      else rest <- decode_ranges n (Some (upper range)) ;; rd_ret (range :: rest)
  end.

Definition decode_message : rd ReconError Message :=
  rlift (rd_array 2) ;;;
  version <- rlift rd_uint ;;
  if negb (version =? RECON_VERSION) then rd_fail (UnsupportedVersion version) else
  count <- rlift rd_array_header ;;
  if (count =? 0)%nat then rd_fail Empty else
  if (MAX_RANGES <? count)%nat then rd_fail (TooManyRanges count) else
  rs <- decode_ranges count None ;;
  rd_ret (mkMessage rs).

Definition message_decode (bs : list byte) : result ReconError Message :=
  parse ReconCbor decode_message bs.

(** [(lower, upper, mode)] triples, each lower bound the previous upper. *)
Fixpoint spans_from (lower : Z) (rs : list Range) : list (Z * Z * Mode) :=
  match rs with
  | [] => []
  | r :: rs' => (lower, upper r, mode r) :: spans_from (upper r) rs'
  end.
Definition spans (m : Message) : list (Z * Z * Mode) := spans_from 0 (ranges m).

(** ** Fingerprints and slices *)
Definition fingerprint_label : list byte := ascii_bytes "weald negentropy fingerprint v1".

Definition fingerprint_input (items : list Item) : list byte :=
  fingerprint_label ++ be_bytes 8 (Z.of_nat (length items))
  ++ concat (map (λ i, be_bytes 8 (seq i) ++ id i) items).

Definition fingerprint `{Blake3} (items : list Item) : Id := blake3 (fingerprint_input items).

(** [slice::partition_point] on a partitioned slice: the length of the prefix
    on which the predicate holds. *)
Fixpoint partition_point {A} (p : A → bool) (l : list A) : nat :=
  match l with
  | [] => O
  | x :: l' => if p x then S (partition_point p l') else O
  end.

Definition items_in (items : list Item) (lo hi : Z) : list Item :=
  let start := partition_point (λ i, seq i <? lo) items in
  let stop := partition_point (λ i, seq i <? hi) items in
  take (stop - start) (drop start items).

Definition ids_of (items : list Item) : list Id := bytes_dedup (bytes_sort (map id items)).

(** ** Well-formed messages: a cover of the sequence space *)
Definition mode_wf (m : Mode) : Prop :=
  match m with
  | Skip => True
  | Fingerprint fp => length fp = 32%nat
  | IdList ids =>
      Forall (λ i, length i = 32%nat) ids ∧ StronglySorted bytes_lt ids
      ∧ (length ids ≤ MAX_IDS_PER_RANGE)%nat
  end.

Definition range_wf (r : Range) : Prop := is_u64 (upper r) ∧ mode_wf (mode r).

(** Bounds strictly ascend from [lo], and the last one is the open end. *)
Fixpoint covers (lo : option Z) (rs : list Range) : Prop :=
  match rs with
  | [] => lo = Some INFINITY
  | r :: rs' => (match lo with Some p => p < upper r | None => True end)
                ∧ covers (Some (upper r)) rs'
  end.

Definition message_wf (m : Message) : Prop :=
  Forall range_wf (ranges m) ∧ covers None (ranges m) ∧ (length (ranges m) ≤ MAX_RANGES)%nat.

Lemma fixed_32 bs : length bs = 32%nat → fixed bs = bs.
Proof. intros H. unfold fixed. rewrite H, <- H, firstn_all. simpl. by rewrite Nat.sub_diag, app_nil_r. Qed.

Definition after (last : option Id) (i : Id) : Prop :=
  match last with Some l => bytes_lt l i | None => True end.

Lemma accepts_ids ids last :
  Forall (λ i, length i = 32%nat) ids → StronglySorted bytes_lt ids → Forall (after last) ids →
  accepts 0 (decode_ids (length ids) last) (concat (map bytes ids)) ids.
Proof.
  intros Hl Hs. revert last.
  induction Hs as [|i ids Hs IH Hf]; intros last Ha; [apply accepts_ret|].
  apply Forall_cons in Hl as [Hi Hl]. apply Forall_cons in Ha as [Ha _]. simpl.
  eapply accepts_field; [by apply codec_accepts|]. rewrite fixed_32 by done.
  assert (match last with Some l => negb (bytes_ltb l i) | None => false end = false) as ->.
  { destruct last; simpl in Ha; [by rewrite Ha | done]. }
  rewrite <- (app_nil_r (concat _)). eapply accepts_field; [by apply IH | apply accepts_ret].
Qed.

Lemma ids_sound n last r ids r' :
  decode_ids n last r = (Ok ids, r') →
  length ids = n ∧ Forall (λ i, length i = 32%nat) ids ∧ StronglySorted bytes_lt ids
  ∧ Forall (after last) ids ∧ consumed r r' (concat (map bytes ids)).
Proof.
  revert last r ids. induction n as [|n IH]; intros last r ids Hd; simpl in Hd.
  { injection Hd as <- <-. repeat split; try constructor. apply consumed_refl. }
  sound_step Hd. rewrite fixed_32 in Hd by done.
  destruct (match last with Some l => negb (bytes_ltb l x) | None => false end) eqn:Hlast;
    [discriminate|].
  apply rd_bind_ok in Hd as (ids' & r1 & Hi & Hd). injection Hd as <- <-.
  apply IH in Hi as (<- & Hl & Hs & Ha & Hc).
  assert (after last x) as Hx.
  { destruct last; simpl; [by apply negb_false_iff in Hlast | done]. }
  split; [done|]. split; [by constructor|]. split; [by constructor|]. split.
  - constructor; [done|]. eapply Forall_impl; [exact Ha|]. intros y Hy.
    destruct last; simpl in *; [by transitivity x | done].
  - simpl. by eapply consumed_trans.
Qed.

Lemma length_encode_range_pos r : (1 ≤ length (encode_range r))%nat.
Proof. apply length_array_pos. Qed.

Lemma length_encode_mode_pos m : (1 ≤ length (encode_mode m))%nat.
Proof. destruct m; simpl; [lia | apply length_bytes_pos | apply length_array_pos]. Qed.

#[global] Instance range_codec : WireCodec range_wf encode_range decode_range.
Proof.
  split.
  - intros [up m] [Hu Hm]. cbn [upper mode] in *. unfold decode_range, encode_range. cbn [upper mode].
    apply accepts_array_items; [done | by vm_compute | | cbn [concat]].
    { pose proof (length_encode_mode_pos m). length_items. }
    accept_field. eapply accepts_field; [apply codec_accepts; destruct m; by vm_compute|].
    rewrite app_nil_r. destruct m as [|fp|ids]; cbn [mode_tag encode_mode]; simpl in Hm.
    + rewrite <- (app_nil_r NULL). eapply accepts_field.
      { exact (codec_accepts (enc := optional_bytes) (dec := rlift rd_optional_bytes) None I). }
      apply accepts_ret.
    + rewrite <- (app_nil_r (bytes fp)). eapply accepts_field; [by apply codec_accepts|].
      rewrite fixed_32 by done. apply accepts_ret.
    + destruct Hm as (Hl & Hs & Hn). rewrite array_unfold, length_map.
      eapply (accepts_bind (length ids) 0).
      * apply accepts_map_err, accepts_array_header. unfold MAX_IDS_PER_RANGE, U64_MAX in *. lia.
      * rewrite (proj2 (Nat.ltb_ge _ _) Hn). rewrite <- (app_nil_r (concat _)).
        eapply accepts_field; [|apply accepts_ret].
        apply accepts_ids; [done|done|]. by apply Forall_true.
      * pose proof (length_concat_map_ge bytes ids (λ x _, length_bytes_pos x)). lia.
  - intros r x r' Hd. unfold decode_range in Hd. do 3 sound_step Hd.
    repeat (case_match; try discriminate).
    + sound_step Hd. match goal with H : opt_ok ?o |- _ => destruct o; [discriminate|] end.
      injection Hd as <- <-. split; [done|]. unfold encode_range. cbn [upper mode encode_mode mode_tag].
      sound_chain.
    + apply rd_bind_ok in Hd as (count & r1 & Hh & Hd). apply rd_map_err_ok, array_header_sound in Hh as [_ Hh].
      destruct (Nat.ltb_spec MAX_IDS_PER_RANGE count); [discriminate|].
      apply rd_bind_ok in Hd as (ids & r2 & Hi & Hd). injection Hd as <- <-.
      apply ids_sound in Hi as (<- & Hl & Hs & _ & Hc). split; [done|].
      unfold encode_range. cbn [upper mode encode_mode mode_tag].
      assert (consumed x5 r2 (array (map bytes ids))).
      { rewrite array_unfold, length_map. by eapply consumed_trans. }
      sound_chain.
    + sound_step Hd. rewrite fixed_32 in Hd by done. injection Hd as <- <-. split; [done|].
      unfold encode_range. cbn [upper mode encode_mode mode_tag]. sound_chain.
Qed.

Lemma accepts_ranges rs lo :
  Forall range_wf rs → covers lo rs →
  accepts 0 (decode_ranges (length rs) lo) (concat (map encode_range rs)) rs.
Proof.
  intros Hf. revert lo. induction Hf as [|r rs Hr Hf IH]; intros lo Hc; cbn [length decode_ranges map concat covers] in *.
  { rewrite bool_decide_eq_true_2 by done. apply accepts_ret. }
  destruct Hc as [Hlo Hc]. eapply accepts_field; [by apply codec_accepts|].
  assert (match lo with Some p => upper r <=? p | None => false end = false) as ->.
  { destruct lo; [apply Z.leb_gt; lia | done]. }
  rewrite <- (app_nil_r (concat _)). eapply accepts_field; [by apply IH | apply accepts_ret].
Qed.

Lemma ranges_sound n lo r rs r' :
  decode_ranges n lo r = (Ok rs, r') →
  length rs = n ∧ Forall range_wf rs ∧ covers lo rs ∧ consumed r r' (concat (map encode_range rs)).
Proof.
  revert lo r rs. induction n as [|n IH]; intros lo r rs Hd; simpl in Hd.
  { case_bool_decide; [|discriminate]. injection Hd as <- <-.
    repeat split; try done. apply consumed_refl. }
  sound_step Hd.
  destruct (match lo with Some p => upper x <=? p | None => false end) eqn:Hlo; [discriminate|].
  apply rd_bind_ok in Hd as (rs' & r1 & Hi & Hd). injection Hd as <- <-.
  apply IH in Hi as (<- & Hf & Hc & Hcons).
  split; [done|]. split; [by constructor|]. split.
  - simpl. split; [|done]. destruct lo; [by apply Z.leb_gt in Hlo | done].
  - cbn [map concat]. by eapply consumed_trans.
Qed.

#[global] Instance message_codec : WireCodec message_wf message_encode decode_message.
Proof.
  split.
  - intros [rs] (Hf & Hc & Hn). cbn [ranges] in *. unfold decode_message, message_encode. cbn [ranges].
    apply accepts_array_items; [done | by vm_compute | length_items | cbn [concat]].
    eapply accepts_field; [by apply codec_accepts|]. rewrite app_nil_r, array_unfold, length_map. simpl.
    eapply (accepts_bind (length rs) 0).
    + apply accepts_map_err, accepts_array_header. unfold MAX_RANGES, U64_MAX in *. lia.
    + destruct (Nat.eqb_spec (length rs) 0) as [Hz|_].
      { destruct rs; [done | discriminate]. }
      rewrite (proj2 (Nat.ltb_ge _ _) Hn). rewrite <- (app_nil_r (concat _)).
      eapply accepts_field; [by apply accepts_ranges | apply accepts_ret].
    + pose proof (length_concat_map_ge encode_range rs (λ x _, length_encode_range_pos x)). lia.
  - intros r x r' Hd. unfold decode_message in Hd. do 2 sound_step Hd.
    destruct (negb (x2 =? RECON_VERSION)) eqn:Hv; [discriminate|].
    apply negb_false_iff, Z.eqb_eq in Hv as ->.
    apply rd_bind_ok in Hd as (count & r1 & Hh & Hd). apply rd_map_err_ok, array_header_sound in Hh as [_ Hh].
    destruct (Nat.eqb_spec count 0); [discriminate|].
    destruct (Nat.ltb_spec MAX_RANGES count); [discriminate|].
    apply rd_bind_ok in Hd as (rs & r2 & Hi & Hd). injection Hd as <- <-.
    apply ranges_sound in Hi as (<- & Hf & Hc & Hcons). split; [done|].
    unfold message_encode. cbn [ranges].
    assert (consumed x3 r2 (array (map encode_range rs))).
    { rewrite array_unfold, length_map. by eapply consumed_trans. }
    sound_chain.
Qed.

(** The [RECON] payload decoder accepts exactly the encodings of the
    well-formed covers: at most 1024 ranges with strictly ascending bounds
    that reach the open end, id lists sorted, unique and at most 4096 long. *)
Theorem recon_decode_exact bs m :
  message_decode bs = Ok m ↔ message_wf m ∧ message_encode m = bs.
Proof.
  split.
  - intros Hd. exact (parse_canonical ReconCbor message_wf message_encode _ bs m Hd).
  - intros [Hwf <-]. exact (parse_encode ReconCbor message_wf message_encode _ m Hwf).
Qed.
