(* ===== verification/Reconcile.v ===== *)
(** * Range-based reconciliation: the two roles

    Models [backend/wealdrelay/src/negentropy/reconcile.rs]: the relay's
    [respond], the client's [initiate] and [advance], and the splitting of a
    differing range under the message budget. *)

From Stdlib Require Import ZArith Lia.
From stdpp Require Import base tactics numbers list gmap sets sorting.
From S2P Require Import Prelude Cbor Crypto Push Frame Negentropy.

Open Scope Z_scope.

(** ** Operations *)

Definition span_budget (built spans_remaining : nat) : nat :=
  let reserved := (spans_remaining - 1)%nat in
  Nat.max (MAX_RANGES - built - reserved) 1.

(** How far the widening loop runs: the items after the cut that share the
    sequence number of the item before it. *)
Fixpoint same_seq_prefix (s : Z) (l : list Item) : nat :=
  match l with
  | x :: l' => if seq x =? s then S (same_seq_prefix s l') else O
  | [] => O
  end.

(** The end of the chunk that starts at the head of [rest]. *)
Definition chunk_end (bucket : nat) (rest : list Item) : nat :=
  let stop := Nat.min bucket (length rest) in
  match rest !! (stop - 1)%nat with
  | Some last => (stop + same_seq_prefix (seq last) (drop stop rest))%nat
  | None => stop
  end.

Section roles.
Context `{Blake3}.

(** The bucket loop on the items still to be placed. Every pass consumes at
    least one, so [length rest] bounds the number of passes. *)
Fixpoint split_loop (fuel bucket : nat) (up : Z) (rest : list Item) : list Range :=
  match fuel, rest with
  | S f, _ :: _ =>
      let stop := chunk_end bucket rest in
      let chunk := take stop rest in
      let rest' := drop stop rest in
      let bound := match rest' with [] => up | next :: _ => seq next end in
      mkRange bound (Fingerprint (fingerprint chunk)) :: split_loop f bucket up rest'
  | _, _ => []
  end.

(** [usize::div_ceil] for a positive divisor. *)
Definition div_ceil (a b : nat) : nat := ((a + b - 1) / b)%nat.

Definition split_bounded (items : list Item) (up : Z) (budget : nat) : list Range :=
  let factor := Nat.min SPLIT_FACTOR (Nat.max budget 1) in
  if (factor =? 1)%nat then
    if (length items <=? MAX_IDS_PER_RANGE)%nat then [mkRange up (IdList (ids_of items))]
    else [mkRange up (Fingerprint (fingerprint items))]
  else
    let bucket := Nat.max (div_ceil (length items) factor) 1 in
    let rs := split_loop (length items) bucket up items in
    if ((length rs =? 1) && (IDLIST_LIMIT <? length items)
        && (length items <=? MAX_IDS_PER_RANGE))%nat
    then [mkRange up (IdList (ids_of items))]
    else rs.

Definition split (items : list Item) (up : Z) : list Range :=
  split_bounded items up SPLIT_FACTOR.

Definition initiate (items : list Item) : Message :=
  if (length items <=? IDLIST_LIMIT)%nat
  then mkMessage [mkRange INFINITY (IdList (ids_of items))]
  else mkMessage (split items INFINITY).

(** One pass over the spans of an incoming message. Both roles answer each
    span with some ranges, under the budget left by the ranges built so far
    and the spans still to come, and accumulate what they decided. *)
Fixpoint round {O} (step : nat → Z * Z * Mode → list Range * O) (merge : O → O → O)
    (ss : list (Z * Z * Mode)) (rs : list Range) (out : O) : list Range * O :=
  match ss with
  | [] => (rs, out)
  | s :: ss' =>
      let budget := span_budget (length rs) (length ss) in
      let '(new, o) := step budget s in
      round step merge ss' (rs ++ new) (merge out o)
  end.

Record Response : Type := mkResponse { reply : Message; push : list Id }.

Definition respond_span (local : list Item) (budget : nat) (s : Z * Z * Mode)
    : list Range * gset Id :=
  let '(lower, up, m) := s in
  let mine := items_in local lower up in
  match m with
  | Skip => ([mkRange up Skip], ∅)
  | Fingerprint theirs =>
      if bool_decide (fingerprint mine = theirs) then ([mkRange up Skip], ∅)
      else if (length mine <=? IDLIST_LIMIT)%nat
      then ([mkRange up (IdList (ids_of mine))], ∅)
      else (split_bounded mine up budget, ∅)
  | IdList theirs =>
      let theirs : gset Id := list_to_set theirs in
      let ours := ids_of mine in
      let push := list_to_set (filter (.∉ theirs) ours) in
      let ours_set : gset Id := list_to_set ours in
      if bool_decide (theirs ⊆ ours_set) then ([mkRange up Skip], push)
      else if (length mine <=? IDLIST_LIMIT)%nat then ([mkRange up (IdList ours)], push)
      else (split_bounded mine up budget, push)
  end.

Definition respond (local : list Item) (incoming : Message) : Response :=
  let '(rs, push) := round (respond_span local) (∪) (spans incoming) [] ∅ in
  mkResponse (mkMessage rs) (btree_to_list push).

Record ClientStep : Type :=
  mkClientStep { step_reply : option Message; want : list Id; send : list Id }.

Definition done (s : ClientStep) : bool :=
  match step_reply s with None => true | Some _ => false end.

(** [anything_to_say], [want] and [send]. *)
Record Heard : Type := mkHeard { anything_to_say : bool; wanted : gset Id; sent : gset Id }.

Definition heard_nothing : Heard := mkHeard false ∅ ∅.
Definition heard_merge (a b : Heard) : Heard :=
  mkHeard (anything_to_say a || anything_to_say b) (wanted a ∪ wanted b) (sent a ∪ sent b).

Definition advance_span (local : list Item) (budget : nat) (s : Z * Z * Mode)
    : list Range * Heard :=
  let '(lower, up, m) := s in
  let mine := items_in local lower up in
  match m with
  | Skip => ([mkRange up Skip], heard_nothing)
  | Fingerprint theirs =>
      if bool_decide (fingerprint mine = theirs) then ([mkRange up Skip], heard_nothing)
      else if (length mine <=? IDLIST_LIMIT)%nat
      then ([mkRange up (IdList (ids_of mine))], mkHeard true ∅ ∅)
      else (split_bounded mine up budget, mkHeard true ∅ ∅)
  | IdList theirs =>
      let ours := ids_of mine in
      let ours_set : gset Id := list_to_set ours in
      let want := list_to_set (filter (.∉ ours_set) theirs) in
      let theirs_set : gset Id := list_to_set theirs in
      let send := list_to_set (filter (.∉ theirs_set) ours) in
      if bool_decide (ours_set = theirs_set) then ([mkRange up Skip], mkHeard false want send)
      else if (length mine <=? IDLIST_LIMIT)%nat
      then ([mkRange up (IdList ours)], mkHeard true want send)
      else (split_bounded mine up budget, mkHeard true want send)
  end.

Definition advance (local : list Item) (incoming : Message) : ClientStep :=
  let '(rs, h) := round (advance_span local) heard_merge (spans incoming) [] heard_nothing in
  mkClientStep (if anything_to_say h then Some (mkMessage rs) else None)
    (btree_to_list (wanted h)) (btree_to_list (sent h)).

(** ** Sorted item slices *)

Definition seq_le (a b : Item) : Prop := seq a ≤ seq b.
Definition item_ok (i : Item) : Prop := is_u64 (seq i) ∧ length (id i) = 32%nat.

(** What both roles ask of the slice they are handed: sorted by [seq]. *)
Definition local_ok (local : list Item) : Prop :=
  StronglySorted seq_le local ∧ Forall item_ok local.

Lemma partition_point_prefix hi l :
  StronglySorted seq_le l →
  take (partition_point (λ i, seq i <? hi) l) l = filter (λ i, seq i < hi) l.
Proof.
  induction 1 as [|x l Hs IH Hf]; [done|]. simpl.
  destruct (Z.ltb_spec (seq x) hi) as [Hx|Hx].
  - rewrite filter_cons, decide_True by lia. simpl. by rewrite IH.
  - symmetry. apply filter_none. constructor; [lia|]. eapply Forall_impl; [exact Hf|].
    unfold seq_le. intros; lia.
Qed.

Lemma items_in_filter l lo hi :
  StronglySorted seq_le l → items_in l lo hi = filter (λ i, lo ≤ seq i < hi) l.
Proof.
  unfold items_in. intros Hs. pose proof (partition_point_prefix hi l Hs) as Hhi.
  induction Hs as [|x l Hs IH Hf]; [done|]. cbn [partition_point] in *.
  destruct (Z.ltb_spec (seq x) lo) as [Hlo|Hlo].
  - rewrite filter_cons, decide_False by lia. destruct (Z.ltb_spec (seq x) hi) as [Hx|Hx].
    + cbn [drop Nat.sub]. apply IH. by apply partition_point_prefix.
    + simpl. symmetry. apply filter_none. eapply Forall_impl; [exact Hf|].
      unfold seq_le. intros; lia.
  - rewrite Nat.sub_0_r. cbn [drop]. rewrite Hhi. apply filter_ext_on.
    constructor; [lia|]. eapply Forall_impl; [exact Hf|]. unfold seq_le. intros; lia.
Qed.

(** A slice of a slice, when the inner bounds lie inside. *)
Lemma items_in_nested l lo hi a b :
  StronglySorted seq_le l → lo ≤ a → b ≤ hi →
  items_in l a b = filter (λ i, a ≤ seq i < b) (items_in l lo hi).
Proof.
  intros Hs Ha Hb. rewrite !items_in_filter by done. rewrite list_filter_filter.
  apply list_filter_iff. intros; lia.
Qed.

Lemma items_in_sorted l lo hi : StronglySorted seq_le l → StronglySorted seq_le (items_in l lo hi).
Proof. intros Hs. rewrite items_in_filter by done. by apply StronglySorted_filter. Qed.

Lemma items_in_ok l lo hi : local_ok l → local_ok (items_in l lo hi).
Proof.
  intros [Hs Hf]. split; [by apply items_in_sorted|].
  rewrite items_in_filter by done. by apply Forall_filter_keep.
Qed.

Lemma items_in_bounds l lo hi :
  StronglySorted seq_le l → Forall (λ i, lo ≤ seq i < hi) (items_in l lo hi).
Proof.
  intros Hs. rewrite items_in_filter by done. apply Forall_forall. intros x Hx.
  by apply list_elem_of_filter in Hx as [].
Qed.

(** ** Chunks *)
Lemma same_seq_prefix_spec s l :
  (same_seq_prefix s l ≤ length l)%nat
  ∧ Forall (λ i, seq i = s) (take (same_seq_prefix s l) l)
  ∧ (∀ i t, drop (same_seq_prefix s l) l = i :: t → seq i ≠ s).
Proof.
  induction l as [|x l (IH1 & IH2 & IH3)]; simpl; [repeat split; [lia | constructor | done]|].
  destruct (Z.eqb_spec (seq x) s) as [E|E]; simpl.
  - repeat split; [lia | by constructor | done].
  - repeat split; [lia | constructor |]. intros i t [= <- _]. done.
Qed.

(** Each chunk takes at least one item and at least a whole bucket unless it
    is the last, and everything in it is strictly below everything after it. *)
Lemma chunk_end_spec bucket rest :
  StronglySorted seq_le rest → rest ≠ [] → (1 ≤ bucket)%nat →
  (Nat.min bucket (length rest) ≤ chunk_end bucket rest ≤ length rest)%nat
  ∧ Forall (λ i, ∀ j, j ∈ drop (chunk_end bucket rest) rest → seq i < seq j)
      (take (chunk_end bucket rest) rest).
Proof.
  intros Hs Hne Hb. unfold chunk_end.
  set (stop := Nat.min bucket (length rest)).
  assert (1 ≤ length rest)%nat by (destruct rest; simpl; [done | lia]).
  assert (stop - 1 < length rest)%nat as Hlt by (unfold stop; lia).
  destruct (rest !! (stop - 1)%nat) as [last|] eqn:Hl;
    [|apply lookup_ge_None in Hl; lia].
  destruct (same_seq_prefix_spec (seq last) (drop stop rest)) as (H1 & H2 & H3).
  set (k := same_seq_prefix (seq last) (drop stop rest)) in *.
  rewrite length_drop in H1. split; [lia|].
  pose proof (take_drop_middle rest (stop - 1) last Hl) as Hmid.
  replace (S (stop - 1)) with stop in Hmid by lia.
  assert (∀ i, i ∈ take (stop + k) rest → seq i ≤ seq last) as Hle.
  { intros i Hi. rewrite <- take_take_drop in Hi. apply elem_of_app in Hi as [Hi|Hi].
    - rewrite <- Hmid in Hs. replace stop with (S (stop - 1)) in Hi by lia.
      rewrite (take_S_r _ _ _ Hl) in Hi. apply elem_of_app in Hi as [Hi|Hi].
      + by eapply (StronglySorted_app_1_elem_of seq_le); [exact Hs | exact Hi | left].
      + apply list_elem_of_singleton in Hi as ->. lia.
    - rewrite Forall_forall in H2. rewrite H2 by done. lia. }
  rewrite <- drop_drop.
  destruct (drop k (drop stop rest)) as [|h t] eqn:Hd.
  { apply Forall_forall. intros i _ j Hj. by apply elem_of_nil in Hj. }
  assert (seq last < seq h) as Hh.
  { specialize (H3 h t eq_refl). rewrite <- Hmid in Hs.
    assert (seq last ≤ seq h); [|lia].
    apply StronglySorted_app_1_r in Hs. apply StronglySorted_inv in Hs as [_ Hs].
    rewrite Forall_forall in Hs. apply Hs.
    rewrite <- (take_drop k (drop stop rest)), Hd. set_solver. }
  assert (∀ j, j ∈ h :: t → seq h ≤ seq j) as Hge.
  { rewrite <- (take_drop (stop + k) rest), <- drop_drop, Hd in Hs.
    apply StronglySorted_app_1_r, StronglySorted_inv in Hs as [_ Hs].
    rewrite Forall_forall in Hs. intros j [->|Hj]%elem_of_cons; [lia | by apply Hs]. }
  apply Forall_forall. intros i Hi j Hj. specialize (Hle i Hi). specialize (Hge j Hj). lia.
Qed.

(** ** Splitting *)

(** Bounds strictly ascend from [lo] and end at [hi]. *)
Fixpoint climbs (lo : Z) (rs : list Range) (hi : Z) : Prop :=
  match rs with
  | [] => lo = hi
  | r :: rs' => lo < upper r ∧ climbs (upper r) rs' hi
  end.

Lemma climbs_upper lo rs hi : climbs lo rs hi → Forall (λ r, lo < upper r ≤ hi) rs ∧ lo ≤ hi.
Proof.
  revert lo. induction rs as [|r rs IH]; simpl; intros lo Hc; [split; [constructor | lia]|].
  destruct Hc as [Hlt Hc]. apply IH in Hc as [Hf Hle]. split; [|lia].
  constructor; [lia|]. eapply Forall_impl; [exact Hf|]. simpl. intros; lia.
Qed.

Lemma climbs_covers lo seg mid rest :
  climbs lo seg mid → covers (Some mid) rest → covers (Some lo) (seg ++ rest).
Proof.
  revert lo. induction seg as [|r seg IH]; simpl; intros lo Hc Hr; [by rewrite Hc|].
  destruct Hc as [Hlt Hc]. split; [done | by apply IH].
Qed.

Lemma spans_from_app lo seg mid rest :
  climbs lo seg mid → spans_from lo (seg ++ rest) = spans_from lo seg ++ spans_from mid rest.
Proof.
  revert lo. induction seg as [|r seg IH]; simpl; intros lo Hc; [by rewrite Hc|].
  f_equal. apply IH. apply Hc.
Qed.

(** A range of a split of [rest]: the fingerprint of exactly the items of
    [rest] between its bounds. *)
Definition chunk_span (lo up : Z) (rest : list Item) (s : Z * Z * Mode) : Prop :=
  let '(a, b, m) := s in
  lo ≤ a ∧ b ≤ up ∧ m = Fingerprint (fingerprint (filter (λ i, a ≤ seq i < b) rest)).

Lemma chunk_span_later lo bound up chunk rest s :
  lo ≤ bound → Forall (λ i, seq i < bound) chunk →
  chunk_span bound up rest s → chunk_span lo up (chunk ++ rest) s.
Proof.
  destruct s as [[a b] m]. intros Hlo Hf (Ha & Hb & ->). repeat split; [lia | done|].
  do 2 f_equal. rewrite filter_app, (filter_none _ chunk); [done|].
  eapply Forall_impl; [exact Hf|]. simpl. intros; lia.
Qed.

Lemma split_loop_ok bucket up fuel rest lo :
  (1 ≤ bucket)%nat → (length rest ≤ fuel)%nat → StronglySorted seq_le rest → rest ≠ [] →
  Forall (λ i, lo ≤ seq i < up) rest →
  let rs := split_loop fuel bucket up rest in
  climbs lo rs up ∧ Forall (chunk_span lo up rest) (spans_from lo rs)
  ∧ (length rs * bucket < length rest + bucket)%nat ∧ (1 ≤ length rs)%nat.
Proof.
  intros Hb. revert rest lo. induction fuel as [|f IH]; intros rest lo Hlen Hs Hne Hf.
  { destruct rest; simpl in Hlen; [done | lia]. }
  destruct (chunk_end_spec bucket rest Hs Hne Hb) as [Hend Hsep].
  destruct rest as [|x rest']; [done|]. cbn [split_loop].
  set (rest := x :: rest') in *. set (e := chunk_end bucket rest) in *.
  assert (1 ≤ length rest)%nat by (simpl; lia).
  assert (1 ≤ e)%nat by lia.
  assert (x ∈ take e rest) as Hx by (destruct e; [lia | left]).
  assert (lo ≤ seq x < up) as Hxb by (by apply Forall_cons in Hf as []).
  destruct (drop e rest) as [|y tail] eqn:Hd.
  - assert (take e rest = rest) as Hall.
    { rewrite <- (take_drop e rest) at 2. by rewrite Hd, app_nil_r. }
    rewrite Hall. destruct f; simpl; (split; [lia|]); (split; [|clear - Hend; lia]);
      (constructor; [|constructor]); (split; [lia | split; [lia|]]);
      do 2 f_equal; symmetry; by apply filter_all.
  - assert (length rest = e + length (y :: tail))%nat as Hlsum.
    { rewrite <- Hd, length_drop. lia. }
    assert (Forall (λ i, seq i < seq y) (take e rest)) as Hlow.
    { eapply Forall_impl; [exact Hsep|]. simpl. intros i Hi. apply Hi. left. }
    rewrite Forall_forall in Hlow. pose proof (Hlow x Hx).
    rewrite <- (take_drop e rest), Hd in Hs, Hf.
    apply Forall_app in Hf as [Hf1 Hf2].
    apply StronglySorted_app_1_r in Hs.
    assert (Forall (λ i, seq y ≤ seq i < up) (y :: tail)) as Hf3.
    { apply StronglySorted_inv in Hs as [_ Hy]. rewrite Forall_forall in *.
      intros i Hi. split; [|by apply Hf2]. apply elem_of_cons in Hi as [->|Hi]; [lia|].
      by apply Hy. }
    edestruct (IH (y :: tail) (seq y)) as (IH1 & IH2 & IH3 & IH4); [lia | done | done | done |].
    cbn [climbs spans_from length upper mode]. split; [split; [lia | done]|]. split; [|split; [|lia]].
    + constructor.
      * assert (seq y < up) by (apply Forall_cons in Hf3 as [? _]; lia).
        split; [lia|]. split; [lia|]. do 2 f_equal.
        rewrite <- (take_drop e rest) at 2. rewrite Hd, filter_app.
        rewrite filter_all, (filter_none _ (y :: tail)); [by rewrite app_nil_r| |].
        -- eapply Forall_impl; [exact Hf3|]. simpl; intros; lia.
        -- rewrite Forall_forall in *. intros i Hi. specialize (Hf1 i Hi). specialize (Hlow i Hi). simpl in *. lia.
      * eapply Forall_impl; [exact IH2|]. intros s Hsp.
        rewrite <- (take_drop e rest), Hd. eapply chunk_span_later; [|by apply Forall_forall|exact Hsp]. lia.
    + rewrite Nat.mul_succ_l, Hlsum. assert (bucket ≤ e)%nat by (cbn [length] in *; lia).
      cbn zeta in IH3. lia.
Qed.

(** ** Honest, well-formed answers *)

(** What a range says about the speaker's own items. *)
Definition honest (local : list Item) (s : Z * Z * Mode) : Prop :=
  let '(lo, up, m) := s in
  match m with
  | Skip => True
  | Fingerprint fp => fp = fingerprint (items_in local lo up)
  | IdList ids => ids = ids_of (items_in local lo up)
  end.
Definition truthful (local : list Item) (m : Message) : Prop := Forall (honest local) (spans m).

Record answer_ok (local : list Item) (lo up : Z) (budget : nat) (seg : list Range) : Prop := {
  answer_bounds : (seg ≠ [] ∧ climbs lo seg up) ∨ ∃ m, seg = [mkRange up m];
  answer_wf : Forall range_wf seg;
  answer_length : (length seg ≤ Nat.max 1 budget)%nat;
  answer_honest : Forall (honest local) (spans_from lo seg)
}.

Context `{!Blake3Width}.

Lemma elem_of_ids_of x items : x ∈ ids_of items ↔ ∃ i, i ∈ items ∧ id i = x.
Proof.
  unfold ids_of. rewrite elem_of_bytes_sort_dedup, list_elem_of_fmap. naive_solver.
Qed.

Lemma length_ids_of items : (length (ids_of items) ≤ length items)%nat.
Proof.
  unfold ids_of. etransitivity; [apply length_bytes_dedup|].
  by rewrite length_bytes_sort, length_map.
Qed.

Lemma ids_of_wf items :
  Forall item_ok items → (length items ≤ MAX_IDS_PER_RANGE)%nat → mode_wf (IdList (ids_of items)).
Proof.
  intros Hf Hn. split; [|split].
  - apply Forall_forall. intros x Hx. apply elem_of_ids_of in Hx as (i & Hi & <-).
    rewrite Forall_forall in Hf. by apply Hf.
  - apply bytes_sort_dedup_sorted.
  - pose proof (length_ids_of items). lia.
Qed.

Lemma single_answer_ok local lo up budget m :
  is_u64 up → mode_wf m → honest local (lo, up, m) →
  answer_ok local lo up budget [mkRange up m].
Proof.
  intros Hu Hm Hh. split; [right; by eexists | | simpl; lia|]; (constructor; [done | constructor]).
Qed.

(** A split has at most [factor] ranges: [factor] whole buckets hold all the
    items. *)
Lemma bucket_count n factor k :
  (1 ≤ factor)%nat →
  let bucket := Nat.max (div_ceil n factor) 1 in
  (k * bucket < n + bucket)%nat → (k ≤ factor)%nat.
Proof.
  intros Hf bucket Hk. destruct (Nat.le_gt_cases k factor) as [|Hgt]; [done|exfalso].
  assert (n ≤ factor * bucket)%nat as Hn.
  { unfold bucket, div_ceil. pose proof (Nat.div_mod_eq (n + factor - 1) factor).
    pose proof (Nat.mod_upper_bound (n + factor - 1) factor). nia. }
  nia.
Qed.

Lemma Forall_spans_from P lo rs :
  Forall P (spans_from lo rs) → Forall (λ r, ∃ a, P (a, upper r, mode r)) rs.
Proof.
  revert lo. induction rs as [|r rs IH]; intros lo Hf; [constructor|].
  apply Forall_cons in Hf as [Hr Hf]. constructor; [by eexists | by eapply IH].
Qed.

Lemma split_bounded_ok local lo up budget :
  local_ok local → 0 ≤ lo → is_u64 up → items_in local lo up ≠ [] →
  answer_ok local lo up budget (split_bounded (items_in local lo up) up budget).
Proof.
  intros [Hs Hf] Hlo Hu Hne. unfold split_bounded.
  pose proof (items_in_ok local lo up (conj Hs Hf)) as [Hms Hmf].
  pose proof (items_in_bounds local lo up Hs) as Hmb.
  set (mine := items_in local lo up) in *.
  destruct (Nat.eqb_spec (Nat.min SPLIT_FACTOR (Nat.max budget 1)) 1) as [|Hfac].
  { destruct (Nat.leb_spec (length mine) MAX_IDS_PER_RANGE);
      apply single_answer_ok; try done; [by apply ids_of_wf | apply blake3_width]. }
  set (factor := Nat.min SPLIT_FACTOR (Nat.max budget 1)) in *.
  set (bucket := Nat.max (div_ceil (length mine) factor) 1).
  edestruct (split_loop_ok bucket up (length mine) mine lo) as (H1 & H2 & H3 & H4);
    [lia | lia | done | done | done |]. cbn zeta in *.
  set (rs := split_loop (length mine) bucket up mine) in *.
  case_match eqn:Hone.
  { apply single_answer_ok; [done | | done].
    apply ids_of_wf; [done|]. apply andb_true_iff in Hone as [_ Hone]. by apply Nat.leb_le in Hone. }
  assert (length rs ≤ factor)%nat by (eapply bucket_count; [unfold factor, SPLIT_FACTOR; lia | done]).
  split.
  - left. split; [|done]. intros E. rewrite E in H4. simpl in H4. lia.
  - apply climbs_upper in H1 as [Hup _]. apply Forall_spans_from in H2.
    rewrite Forall_forall in *. intros r Hr. specialize (Hup r Hr).
    destruct (H2 r Hr) as (a & _ & _ & Hm). split; [unfold is_u64 in *; lia|].
    rewrite Hm. apply blake3_width.
  - unfold factor in *. lia.
  - eapply Forall_impl; [exact H2|]. intros [[a b] m] (Ha & Hb & ->).
    cbn [honest]. by rewrite (items_in_nested local lo up a b).
Qed.

Lemma own_answer_ok local lo up budget :
  local_ok local → 0 ≤ lo → is_u64 up →
  answer_ok local lo up budget
    (if (length (items_in local lo up) <=? IDLIST_LIMIT)%nat
     then [mkRange up (IdList (ids_of (items_in local lo up)))]
     else split_bounded (items_in local lo up) up budget).
Proof.
  intros Hl Hlo Hu. destruct (Nat.leb_spec (length (items_in local lo up)) IDLIST_LIMIT) as [Hn|Hn].
  - apply single_answer_ok; [done | | done].
    apply ids_of_wf; [by apply items_in_ok|]. unfold IDLIST_LIMIT, MAX_IDS_PER_RANGE in *. lia.
  - apply split_bounded_ok; [done | done | done|]. intros E. rewrite E in Hn. simpl in Hn. lia.
Qed.

Lemma skip_answer_ok local lo up budget :
  is_u64 up → answer_ok local lo up budget [mkRange up Skip].
Proof. intros Hu. by apply single_answer_ok. Qed.

Lemma respond_span_ok local budget lo up m :
  local_ok local → 0 ≤ lo → is_u64 up →
  answer_ok local lo up budget (fst (respond_span local budget (lo, up, m))).
Proof.
  intros Hl Hlo Hu. pose proof (own_answer_ok local lo up budget Hl Hlo Hu) as Hown.
  pose proof (skip_answer_ok local lo up budget Hu) as Hskip.
  destruct m; cbn [respond_span]; repeat case_match; done.
Qed.

Lemma advance_span_ok local budget lo up m :
  local_ok local → 0 ≤ lo → is_u64 up →
  answer_ok local lo up budget (fst (advance_span local budget (lo, up, m))).
Proof.
  intros Hl Hlo Hu. pose proof (own_answer_ok local lo up budget Hl Hlo Hu) as Hown.
  pose proof (skip_answer_ok local lo up budget Hu) as Hskip.
  destruct m; cbn [advance_span]; repeat case_match; done.
Qed.

Lemma answer_covers local prev lo up budget seg rest :
  answer_ok local lo up budget seg →
  match prev with Some p => p = lo ∧ p < up | None => True end →
  covers (Some up) rest →
  covers prev (seg ++ rest) ∧ spans_from lo (seg ++ rest) = spans_from lo seg ++ spans_from up rest.
Proof.
  intros [[[Hne Hc]|[m ->]] _ _ _] Hp Hr; [|by destruct prev; simpl in *; naive_solver].
  split; [|by apply spans_from_app].
  pose proof (climbs_covers lo seg up rest Hc Hr) as Hcov.
  destruct prev as [p|]; [by destruct Hp as [-> _]|].
  destruct seg; [done|]. simpl in *. naive_solver.
Qed.

(** What is true of every span of every answer is true of the whole reply. *)
Definition of_each_answer {O} (step : nat → Z * Z * Mode → list Range * O) (ss : list (Z * Z * Mode))
    (P : Z * Z * Mode → Prop) : Prop :=
  ∀ budget lo up m, (lo, up, m) ∈ ss → Forall P (spans_from lo (fst (step budget (lo, up, m)))).

(** The loop both roles run keeps the reply inside the message budget, covers
    the space the incoming message covers, and speaks the truth. *)
Lemma round_ok {O} (step : nat → Z * Z * Mode → list Range * O) merge local rs prev acc out :
  (∀ budget lo up m, 0 ≤ lo → is_u64 up →
     answer_ok local lo up budget (fst (step budget (lo, up, m)))) →
  Forall range_wf rs → covers prev rs → match prev with Some p => 0 ≤ p | None => True end →
  (length acc + length rs ≤ MAX_RANGES)%nat →
  ∃ new out', round step merge (spans_from (default 0 prev) rs) acc out = (acc ++ new, out')
    ∧ covers prev new ∧ Forall range_wf new ∧ (length (acc ++ new) ≤ MAX_RANGES)%nat
    ∧ Forall (honest local) (spans_from (default 0 prev) new)
    ∧ ∀ P, of_each_answer step (spans_from (default 0 prev) rs) P → Forall P (spans_from (default 0 prev) new).
Proof.
  intros Hstep Hf. revert prev acc out.
  induction Hf as [|r rs [Hu _] Hf IH]; intros prev acc out Hc Hp Hn.
  { exists [], out. simpl in *. rewrite app_nil_r in *. split_and!; first [done | lia | constructor]. }
  cbn [spans_from round]. destruct Hc as [Hlt Hc].
  set (budget := span_budget (length acc) _).
  assert (0 ≤ default 0 prev) as Hge by (by destruct prev; simpl).
  pose proof (Hstep budget _ _ (mode r) Hge Hu) as Hans.
  assert (∀ P, of_each_answer step ((default 0 prev, upper r, mode r) :: spans_from (upper r) rs) P →
    Forall P (spans_from (default 0 prev) (fst (step budget (default 0 prev, upper r, mode r))))) as Heach
    by (intros P HP; apply HP; left).
  destruct (step budget (default 0 prev, upper r, mode r)) as [seg o]. cbn [fst] in Hans, Heach.
  assert (length (acc ++ seg) + length rs ≤ MAX_RANGES)%nat as Hn'.
  { pose proof (answer_length _ _ _ _ _ Hans) as Hl. unfold budget, span_budget in Hl.
    cbn [length] in *. rewrite length_app.
    assert (length (spans_from (upper r) rs) = length rs) as Hls.
    { clear. generalize (upper r). induction rs; intros z; simpl; congruence. }
    rewrite Hls in Hl. lia. }
  destruct (IH (Some (upper r)) (acc ++ seg) (merge out o) Hc) as (new & out' & Hr & Hcov & Hwf & Hlen & Hh & HP);
    [by destruct Hu | done|].
  destruct (answer_covers local prev (default 0 prev) (upper r) budget seg new Hans) as [Hc1 Hc2];
    [by destruct prev | done |].
  exists (seg ++ new), out'. simpl in Hr. rewrite Hr, app_assoc.
  split_and!; [done | done | | done | |].
  - apply Forall_app. split; [by eapply answer_wf | done].
  - rewrite Hc2. apply Forall_app. split; [by eapply answer_honest | done].
  - intros P Hall. rewrite Hc2. apply Forall_app. split; [by apply Heach|]. apply HP.
    intros b lo up m Hin. apply Hall. by right.
Qed.

Lemma respond_ok local m :
  local_ok local → message_wf m →
  message_wf (reply (respond local m)) ∧ truthful local (reply (respond local m))
  ∧ ∀ P, of_each_answer (respond_span local) (spans m) P → Forall P (spans (reply (respond local m))).
Proof.
  intros Hl (Hf & Hc & Hn). unfold respond, spans.
  destruct (round_ok (respond_span local) (∪) local (ranges m) None [] ∅) as (new & out' & Hr & ?);
    [intros; by apply respond_span_ok | done | done | done | done|].
  simpl in Hr. rewrite Hr. by destruct_and!.
Qed.

Lemma advance_ok local m rep :
  local_ok local → message_wf m → step_reply (advance local m) = Some rep →
  message_wf rep ∧ truthful local rep
  ∧ ∀ P, of_each_answer (advance_span local) (spans m) P → Forall P (spans rep).
Proof.
  intros Hl (Hf & Hc & Hn). unfold advance, spans.
  destruct (round_ok (advance_span local) heard_merge local (ranges m) None [] heard_nothing)
    as (new & out' & Hr & ?);
    [intros; by apply advance_span_ok | done | done | done | done|].
  simpl in Hr. rewrite Hr. cbn [step_reply]. case_match; [|done]. intros [= <-]. by destruct_and!.
Qed.

Lemma initiate_ok local :
  local_ok local → Forall (λ i, seq i < INFINITY) local →
  message_wf (initiate local) ∧ truthful local (initiate local).
Proof.
  intros Hl Hlt. pose proof Hl as [Hs Hf].
  assert (items_in local 0 INFINITY = local) as Hall.
  { rewrite items_in_filter by done. apply filter_all. rewrite Forall_forall in *.
    intros i Hi. specialize (Hlt i Hi). destruct (Hf i Hi) as [[? _] _]. simpl in *. lia. }
  pose proof (own_answer_ok local 0 INFINITY SPLIT_FACTOR Hl) as Hans.
  rewrite Hall in Hans. destruct Hans as [Hb Hw Hlen Hh]; [done | by vm_compute|].
  assert (initiate local = mkMessage
    (if (length local <=? IDLIST_LIMIT)%nat then [mkRange INFINITY (IdList (ids_of local))]
     else split_bounded local INFINITY SPLIT_FACTOR)) as ->.
  { unfold initiate. by case_match. }
  set (rs := if (length local <=? IDLIST_LIMIT)%nat then _ else _) in *.
  split; [|done]. split; [done|]. split.
  - cbn [ranges]. destruct Hb as [[Hne Hc]|[md Hb]]; [|by rewrite Hb].
    pose proof (climbs_covers 0 rs INFINITY [] Hc eq_refl) as Hcov. rewrite app_nil_r in Hcov.
    destruct rs; [done|]. simpl in *. naive_solver.
  - cbn [ranges]. unfold SPLIT_FACTOR, MAX_RANGES in *. lia.
Qed.

(** ** What one pass accumulates *)

Lemma elem_of_round_ranges {O} (step : nat → Z * Z * Mode → list Range * O) merge ss acc out :
  ∃ outs : list (nat * (Z * Z * Mode)),
    map snd outs = ss
    ∧ round step merge ss acc out
      = (acc ++ concat (map (λ p, fst (step (fst p) (snd p))) outs),
         fold_left (λ o p, merge o (snd (step (fst p) (snd p)))) outs out).
Proof.
  revert acc out. induction ss as [|s ss IH]; intros acc out.
  { exists []. simpl. by rewrite app_nil_r. }
  cbn [round]. set (budget := span_budget _ _).
  destruct (step budget s) as [new o] eqn:Hst.
  destruct (IH (acc ++ new) (merge out o)) as (outs & <- & Hr).
  exists ((budget, s) :: outs). split; [done|]. simpl. by rewrite Hr, Hst, app_assoc.
Qed.

Lemma elem_of_push_fold (local : list Item) (outs : list (nat * (Z * Z * Mode))) (out : gset Id) x :
  x ∈ fold_left (λ (o : gset Id) p, o ∪ snd (respond_span local (fst p) (snd p))) outs out
  ↔ x ∈ out ∨ ∃ p, p ∈ outs ∧ x ∈ snd (respond_span local (fst p) (snd p)).
Proof.
  revert out. induction outs as [|p outs IH]; intros out; simpl; [set_solver|].
  rewrite IH, elem_of_union. setoid_rewrite elem_of_cons. naive_solver.
Qed.

Lemma elem_of_respond_span_push local budget lo up m x :
  x ∈ snd (respond_span local budget (lo, up, m))
  ↔ ∃ theirs, m = IdList theirs ∧ x ∈ ids_of (items_in local lo up) ∧ x ∉ theirs.
Proof.
  assert (∀ theirs, x ∈ (list_to_set (filter (.∉ (list_to_set theirs : gset Id))
      (ids_of (items_in local lo up))) : gset Id)
    ↔ ∃ theirs', IdList theirs = IdList theirs' ∧ x ∈ ids_of (items_in local lo up) ∧ x ∉ theirs').
  { intros theirs. rewrite elem_of_list_to_set, list_elem_of_filter, elem_of_list_to_set.
    naive_solver. }
  destruct m; cbn [respond_span]; repeat case_match; cbn [snd]; try done; set_solver.
Qed.

Lemma elem_of_push local m x :
  x ∈ push (respond local m)
  ↔ ∃ lo up theirs, (lo, up, IdList theirs) ∈ spans m
      ∧ x ∈ ids_of (items_in local lo up) ∧ x ∉ theirs.
Proof.
  unfold respond. destruct (elem_of_round_ranges (respond_span local) (∪) (spans m) [] ∅)
    as (outs & Hss & ->).
  cbn [push]. rewrite elem_of_btree_to_list, elem_of_push_fold, <- Hss. split.
  - intros [?|([budget [[lo up] md]] & Hp & Hx)]; [set_solver|].
    apply elem_of_respond_span_push in Hx as (theirs & -> & ? & ?).
    exists lo, up, theirs. split; [|done]. apply list_elem_of_fmap. by exists (budget, (lo, up, IdList theirs)).
  - intros (lo & up & theirs & Hin & Hx & Hn). right.
    apply list_elem_of_fmap in Hin as ([budget s] & Heq & Hp). simpl in Heq. subst s.
    eexists. split; [exact Hp|]. apply elem_of_respond_span_push. by exists theirs.
Qed.

(** ** Settled ranges *)

Lemma split_loop_never_skips fuel bucket up rest :
  Forall (λ r, mode r ≠ Skip) (split_loop fuel bucket up rest).
Proof.
  revert rest. induction fuel as [|f IH]; intros [|x rest]; simpl; by constructor.
Qed.

Lemma split_bounded_never_skips local lo up budget :
  local_ok local → items_in local lo up ≠ [] →
  ¬ Forall (λ r, mode r = Skip) (split_bounded (items_in local lo up) up budget).
Proof.
  intros [Hs _] Hne Hskip. unfold split_bounded in Hskip.
  assert (split_loop (length (items_in local lo up))
    (Nat.max (div_ceil (length (items_in local lo up)) (Nat.min SPLIT_FACTOR (Nat.max budget 1))) 1)
    up (items_in local lo up) ≠ []) as Hnil.
  { destruct (items_in local lo up); [done|]. done. }
  pose proof (split_loop_never_skips (length (items_in local lo up))
    (Nat.max (div_ceil (length (items_in local lo up)) (Nat.min SPLIT_FACTOR (Nat.max budget 1))) 1)
    up (items_in local lo up)) as Hnever.
  cbv zeta in Hskip. repeat case_match; try (by apply Forall_cons in Hskip as [? _]).
  destruct (split_loop _ _ _ _); [done|].
  apply Forall_cons in Hnever as [? _]. by apply Forall_cons in Hskip as [? _].
Qed.

Lemma own_answer_never_skips local lo up budget :
  local_ok local →
  ¬ Forall (λ r, mode r = Skip)
      (if (length (items_in local lo up) <=? IDLIST_LIMIT)%nat
       then [mkRange up (IdList (ids_of (items_in local lo up)))]
       else split_bounded (items_in local lo up) up budget).
Proof.
  intros Hl Hskip. destruct (Nat.leb_spec (length (items_in local lo up)) IDLIST_LIMIT) as [|Hn].
  - by apply Forall_cons in Hskip as [? _].
  - apply split_bounded_never_skips in Hskip; [done | done|].
    intros E. rewrite E in Hn. simpl in Hn. lia.
Qed.

(** What makes the relay answer a span with [Skip]. *)
Definition relay_agrees (local : list Item) (s : Z * Z * Mode) : Prop :=
  let '(lo, up, m) := s in
  match m with
  | Skip => True
  | Fingerprint theirs => theirs = fingerprint (items_in local lo up)
  | IdList theirs => ∀ x, x ∈ theirs → x ∈ ids_of (items_in local lo up)
  end.

(** What makes the client answer a span with [Skip]. *)
Definition client_agrees (local : list Item) (s : Z * Z * Mode) : Prop :=
  let '(lo, up, m) := s in
  match m with
  | Skip => True
  | Fingerprint theirs => theirs = fingerprint (items_in local lo up)
  | IdList theirs => ∀ x, x ∈ theirs ↔ x ∈ ids_of (items_in local lo up)
  end.

Lemma respond_span_settled local budget s :
  local_ok local →
  Forall (λ r, mode r = Skip) (fst (respond_span local budget s)) ↔ relay_agrees local s.
Proof.
  intros Hl. destruct s as [[lo up] m].
  pose proof (own_answer_never_skips local lo up budget Hl) as Hown.
  destruct m as [|fp|ids]; cbn [respond_span relay_agrees].
  - split; [done|]. intros _. by constructor.
  - case_bool_decide as E; cbn [fst].
    + split; [done|]. intros _. by constructor.
    + split; [|congruence]. intros Hf. exfalso. apply Hown. by case_match.
  - case_bool_decide as E; cbn [fst].
    + split; [|by constructor]. intros _ x Hx. assert (x ∈ (list_to_set ids : gset Id)) as Hx' by set_solver.
      apply E in Hx'. set_solver.
    + split; [|set_solver]. intros Hf. exfalso. apply Hown. by case_match.
Qed.

Lemma is_settled_iff rs : is_settled (mkMessage rs) = true ↔ Forall (λ r, mode r = Skip) rs.
Proof.
  unfold is_settled. cbn [ranges]. rewrite forallb_forall, Forall_forall.
  setoid_rewrite list_elem_of_In. setoid_rewrite bool_decide_eq_true. done.
Qed.

Lemma settled_respond local m :
  local_ok local →
  is_settled (reply (respond local m)) = true ↔ Forall (relay_agrees local) (spans m).
Proof.
  intros Hl. unfold respond.
  destruct (elem_of_round_ranges (respond_span local) (∪) (spans m) [] ∅) as (outs & Hss & ->).
  cbn [reply]. rewrite app_nil_l, is_settled_iff, Forall_concat, <- Hss, !Forall_map.
  apply Forall_iff. intros [budget s]. by apply respond_span_settled.
Qed.

(** What one span makes the client say, ask for and offer. *)
Lemma advance_span_heard local budget s :
  let h := snd (advance_span local budget s) in
  (anything_to_say h = false ↔ client_agrees local s)
  ∧ (client_agrees local s → wanted h = ∅ ∧ sent h = ∅).
Proof.
  destruct s as [[lo up] m]. destruct m as [|fp|ids]; cbn [advance_span client_agrees snd].
  - done.
  - case_bool_decide as E; [done|]. case_match; (split; [split; [done | congruence] | congruence]).
  - assert ((list_to_set (ids_of (items_in local lo up)) : gset Id) = list_to_set ids
      ↔ ∀ x, x ∈ ids ↔ x ∈ ids_of (items_in local lo up)) as Heq.
    { rewrite set_eq. setoid_rewrite elem_of_list_to_set. naive_solver. }
    assert ((∀ x, x ∈ ids ↔ x ∈ ids_of (items_in local lo up)) →
      (list_to_set (filter (.∉ (list_to_set (ids_of (items_in local lo up)) : gset Id)) ids) : gset Id) = ∅
      ∧ (list_to_set (filter (.∉ (list_to_set ids : gset Id)) (ids_of (items_in local lo up))) : gset Id) = ∅)
      as Hempty.
    { intros Hx. split; apply set_eq; intros x;
        rewrite elem_of_list_to_set, list_elem_of_filter, elem_of_list_to_set; set_solver. }
    case_bool_decide as E; [|case_match]; simpl; (split; [|exact Hempty]); rewrite <- Heq; naive_solver.
Qed.

Lemma heard_fold local (outs : list (nat * (Z * Z * Mode))) h :
  let h' := fold_left (λ o p, heard_merge o (snd (advance_span local (fst p) (snd p)))) outs h in
  (anything_to_say h' = false ↔
     anything_to_say h = false ∧ Forall (client_agrees local) (map snd outs))
  ∧ (Forall (client_agrees local) (map snd outs) → wanted h' = wanted h ∧ sent h' = sent h).
Proof.
  revert h. induction outs as [|p outs IH]; intros h; simpl.
  { split; [|done]. split; [by split; [|constructor] | naive_solver]. }
  destruct (advance_span_heard local (fst p) (snd p)) as [Hs Hw].
  destruct (IH (heard_merge h (snd (advance_span local (fst p) (snd p))))) as [IH1 IH2]. split.
  - rewrite IH1, Forall_cons, <- Hs. simpl. rewrite orb_false_iff. naive_solver.
  - intros [Hp Hf]%Forall_cons. destruct (IH2 Hf) as [-> ->]. destruct (Hw Hp) as [Hw1 Hw2].
    simpl. rewrite Hw1, Hw2. split; set_solver.
Qed.

Lemma advance_done local m :
  (done (advance local m) = true ↔ Forall (client_agrees local) (spans m))
  ∧ (done (advance local m) = true → want (advance local m) = [] ∧ send (advance local m) = []).
Proof.
  unfold advance, done.
  destruct (elem_of_round_ranges (advance_span local) heard_merge (spans m) [] heard_nothing)
    as (outs & Hss & ->).
  destruct (heard_fold local outs heard_nothing) as [H1 H2]. rewrite Hss in H1, H2.
  cbn [step_reply want send].
  destruct (anything_to_say (fold_left _ outs heard_nothing)) eqn:E.
  - split; [|done]. split; [done|]. intros Hf. destruct H1 as [_ H1]. specialize (H1 (conj eq_refl Hf)). congruence.
  - assert (Forall (client_agrees local) (spans m)) as Hf by (by apply H1).
    split; [done|]. intros _. destruct (H2 Hf) as [-> ->]. done.
Qed.

(** ** Agreement *)

Lemma item_bytes_inj i j :
  item_ok i → item_ok j → be_bytes 8 (seq i) ++ id i = be_bytes 8 (seq j) ++ id j → i = j.
Proof.
  intros [Hi _] [Hj _] Heq. apply app_inj_1 in Heq as [Hs Hid]; [|by rewrite !length_be_bytes].
  destruct i as [s x], j as [s' x']. cbn [seq id] in *. f_equal; [|done].
  rewrite <- (be_value_bytes_small 8 s), <- (be_value_bytes_small 8 s'), Hs; [done| |];
    unfold is_u64, U64_MAX in *; simpl; lia.
Qed.

Lemma length_item_bytes i : item_ok i → length (be_bytes 8 (seq i) ++ id i) = 40%nat.
Proof. intros [_ Hi]. by rewrite length_app, length_be_bytes, Hi. Qed.

(** The hashed bytes determine the items: every item is 40 bytes of them. *)
Lemma fingerprint_input_inj xs ys :
  Forall item_ok xs → Forall item_ok ys → fingerprint_input xs = fingerprint_input ys → xs = ys.
Proof.
  intros Hx Hy Heq. unfold fingerprint_input in Heq. apply app_inv_head in Heq.
  apply app_inj_1 in Heq as [_ Heq]; [|by rewrite !length_be_bytes].
  revert ys Hy Heq. induction Hx as [|i xs Hi Hx IH]; intros [|j ys] Hy Heq.
  - done.
  - apply Forall_cons in Hy as [Hj _]. apply (f_equal length) in Heq. cbn [map concat] in Heq.
    rewrite length_app, length_item_bytes in Heq by done. simpl in Heq. lia.
  - apply (f_equal length) in Heq. cbn [map concat] in Heq.
    rewrite length_app, length_item_bytes in Heq by done. simpl in Heq. lia.
  - apply Forall_cons in Hy as [Hj Hy]. cbn [map concat] in Heq.
    apply app_inj_1 in Heq as [Hij Heq]; [|by rewrite !length_item_bytes].
    f_equal; [by apply item_bytes_inj | by apply IH].
Qed.

Lemma covers_span rs prev z :
  covers prev rs → default 0 prev ≤ z < INFINITY →
  ∃ lo up m, (lo, up, m) ∈ spans_from (default 0 prev) rs ∧ lo ≤ z < up.
Proof.
  revert prev. induction rs as [|r rs IH]; intros prev Hc Hz.
  { simpl in Hc. subst. simpl in Hz. lia. }
  destruct Hc as [_ Hc]. cbn [spans_from]. destruct (Z.lt_ge_cases z (upper r)) as [Hlt|Hge].
  - exists (default 0 prev), (upper r), (mode r). split; [left | lia].
  - destruct (IH (Some (upper r)) Hc) as (lo & up & m & Hin & Hb); [simpl; lia|].
    exists lo, up, m. split; [by right | done].
Qed.

Lemma ids_of_items_in local lo up x :
  StronglySorted seq_le local →
  x ∈ ids_of (items_in local lo up) ↔ ∃ i, i ∈ local ∧ id i = x ∧ lo ≤ seq i < up.
Proof.
  intros Hs. rewrite elem_of_ids_of, items_in_filter by done.
  setoid_rewrite list_elem_of_filter. naive_solver.
Qed.

(** Two sides whose fingerprints of a range agree hold the same items there,
    unless the digest collides on the two inputs. *)
Lemma fingerprint_agrees client relay lo up :
  local_ok client → local_ok relay →
  fingerprint (items_in client lo up) = fingerprint (items_in relay lo up) →
  items_in client lo up = items_in relay lo up
  ∨ collision (fingerprint_input (items_in client lo up)) (fingerprint_input (items_in relay lo up)).
Proof.
  intros Hc Hr Heq.
  destruct (decide (fingerprint_input (items_in client lo up) = fingerprint_input (items_in relay lo up)))
    as [E|E]; [left | by right].
  apply fingerprint_input_inj; [by apply items_in_ok | by apply items_in_ok | done].
Qed.

(** The items of a side all lie below the open end. *)
Definition below_infinity (local : list Item) : Prop := Forall (λ i, seq i < INFINITY) local.

(** Whatever the ranges of an honest message, the ids of the two sides are
    the same as soon as they are the same inside every span. *)
Lemma span_ids_cover local m x :
  local_ok local → below_infinity local → message_wf m →
  x ∈ ids_of local ↔ ∃ lo up md, (lo, up, md) ∈ spans m ∧ x ∈ ids_of (items_in local lo up).
Proof.
  intros [Hs Hf] Hb (_ & Hc & _). rewrite elem_of_ids_of. split.
  - intros (i & Hi & <-). unfold below_infinity in Hb. rewrite Forall_forall in Hf, Hb.
    destruct (covers_span (ranges m) None (seq i) Hc) as (lo & up & md & Hin & Hz).
    { simpl. destruct (Hf i Hi) as [[? _] _]. specialize (Hb i Hi). simpl in Hb. lia. }
    exists lo, up, md. split; [done|]. apply ids_of_items_in; [done|]. by exists i.
  - intros (lo & up & md & _ & Hx). apply ids_of_items_in in Hx as (i & Hi & <- & _); [|done].
    by exists i.
Qed.

(** ** The exchange *)

(** The two sides hold the same ids between the bounds. *)
Definition agreed (client relay : list Item) (lo up : Z) : Prop :=
  ∀ x, x ∈ ids_of (items_in client lo up) ↔ x ∈ ids_of (items_in relay lo up).
(** A range nobody will speak of again is one they agree on. *)
Definition agreeing (client relay : list Item) (m : Message) : Prop :=
  Forall (λ '(lo, up, md), md = Skip → agreed client relay lo up) (spans m).

(** The client's items once it holds what the relay pushed. *)
Definition applied (relay : list Item) (pushed : list Id) (client client' : list Item) : Prop :=
  local_ok client' ∧ ∀ i, i ∈ client' ↔ i ∈ client ∨ i ∈ relay ∧ id i ∈ pushed.

(** The rounds of one reconciliation: the message the client sends next, and the
    items it has held, the latest first. The relay's items stay as they are. *)
Inductive exchange (relay : list Item) : list (list Item) → Message → Prop :=
| exchange_opened client :
    local_ok client → below_infinity client → exchange relay [client] (initiate client)
| exchange_round client earlier m client' rep :
    exchange relay (client :: earlier) m →
    applied relay (push (respond relay m)) client client' →
    step_reply (advance client' (reply (respond relay m))) = Some rep →
    exchange relay (client' :: client :: earlier) rep.

(** The digest took two different inputs of the exchange for one. *)
Definition collided (relay : list Item) (clients : list (list Item)) : Prop :=
  ∃ client lo up, client ∈ clients
    ∧ collision (fingerprint_input (items_in client lo up)) (fingerprint_input (items_in relay lo up)).

Lemma collided_more relay cs cs' : cs ⊆ cs' → collided relay cs → collided relay cs'.
Proof. intros Hs (c & lo & up & Hc & Hcol). exists c, lo, up. auto. Qed.

(** On the ranges of one message, equal fingerprints are equal items. *)
Lemma fingerprints_faithful client relay (ss : list (Z * Z * Mode)) :
  local_ok client → local_ok relay →
  collided relay [client]
  ∨ ∀ lo up md, (lo, up, md) ∈ ss →
      fingerprint (items_in client lo up) = fingerprint (items_in relay lo up) → agreed client relay lo up.
Proof.
  intros Hc Hr.
  set (bad := λ s : Z * Z * Mode, let '(lo, up, _) := s in
    fingerprint_input (items_in client lo up) ≠ fingerprint_input (items_in relay lo up)
    ∧ fingerprint (items_in client lo up) = fingerprint (items_in relay lo up)).
  assert (∀ s, Decision (bad s)) as Hdec by (intros [[lo up] md]; apply _).
  destruct (decide (Exists bad ss)) as [Hex|Hno].
  { left. apply Exists_exists in Hex as ([[lo up] md] & _ & Hbad). exists client, lo, up. split; [by left | done]. }
  right. intros lo up md Hin Heq. destruct (fingerprint_agrees client relay lo up Hc Hr Heq) as [E|Hcol].
  - intros x. by rewrite E.
  - destruct Hno. apply Exists_exists. by exists (lo, up, md).
Qed.

Lemma agreed_applied relay pushed client client' lo up :
  local_ok client → local_ok relay → applied relay pushed client client' →
  (∀ x, x ∈ ids_of (items_in client lo up) → x ∈ ids_of (items_in relay lo up)) →
  (∀ x, x ∈ ids_of (items_in relay lo up) → x ∈ ids_of (items_in client lo up) ∨ x ∈ pushed) →
  agreed client' relay lo up.
Proof.
  intros [Hc _] [Hr _] [[Hc' _] Hap] Hsub Hsup x. split.
  - intros (i & Hi & <- & Hb)%ids_of_items_in; [|done]. apply Hap in Hi as [Hi|[Hi _]].
    + apply Hsub, ids_of_items_in; [done|]. by exists i.
    + apply ids_of_items_in; [done|]. by exists i.
  - intros Hx. pose proof Hx as (i & Hi & <- & Hb)%ids_of_items_in; [|done]. apply ids_of_items_in; [done|].
    destruct (Hsup _ Hx) as [(j & Hj & Hid & Hbj)%ids_of_items_in|Hp]; [|done|].
    + exists j. split; [|done]. apply Hap. by left.
    + exists i. split; [|done]. apply Hap. by right.
Qed.

(** A range the relay settles is agreed once the pushes are applied. *)
Lemma relay_settles client relay m client' :
  local_ok client → local_ok relay → truthful client m → agreeing client relay m →
  applied relay (push (respond relay m)) client client' →
  collided relay [client]
  ∨ ∀ lo up md, (lo, up, md) ∈ spans m → relay_agrees relay (lo, up, md) → agreed client' relay lo up.
Proof.
  intros Hc Hr Ht Hag Hap. destruct (fingerprints_faithful client relay (spans m) Hc Hr) as [|Hfp]; [by left | right].
  unfold truthful, agreeing in *. rewrite Forall_forall in Ht, Hag.
  intros lo up md Hin Hra. specialize (Ht _ Hin). specialize (Hag _ Hin).
  assert (agreed client relay lo up → agreed client' relay lo up) as Hgrow.
  { intros Ha. apply (agreed_applied relay (push (respond relay m)) client); [done..| |]; intros x Hx; [by apply Ha | left; by apply Ha]. }
  destruct md as [|fp|ids]; cbn [honest relay_agrees] in *.
  - by apply Hgrow, Hag.
  - apply Hgrow, (Hfp lo up _ Hin). congruence.
  - apply (agreed_applied relay (push (respond relay m)) client); [done..| |]; [by rewrite <- Ht|]. intros x Hx.
    destruct (decide (x ∈ ids_of (items_in client lo up))) as [|Hn]; [by left | right].
    apply elem_of_push. exists lo, up, ids. rewrite <- Ht in Hn. done.
Qed.

(** A range the client settles is one it agrees with the relay on. *)
Lemma client_settles client relay m :
  local_ok client → local_ok relay → truthful relay m → agreeing client relay m →
  collided relay [client]
  ∨ ∀ lo up md, (lo, up, md) ∈ spans m → client_agrees client (lo, up, md) → agreed client relay lo up.
Proof.
  intros Hc Hr Ht Hag. destruct (fingerprints_faithful client relay (spans m) Hc Hr) as [|Hfp]; [by left | right].
  unfold truthful, agreeing in *. rewrite Forall_forall in Ht, Hag.
  intros lo up md Hin Hca. specialize (Ht _ Hin). specialize (Hag _ Hin).
  destruct md as [|fp|ids]; cbn [honest client_agrees] in *.
  - by apply Hag.
  - apply (Hfp lo up _ Hin). congruence.
  - intros x. by rewrite <- Ht, Hca.
Qed.

(** Neither role says [Skip] of a range but of one it was sent and agrees on. *)
Lemma own_answer_speaks items up budget :
  Forall (λ r, mode r ≠ Skip)
    (if (length items <=? IDLIST_LIMIT)%nat then [mkRange up (IdList (ids_of items))] else split_bounded items up budget).
Proof.
  case_match; [by repeat constructor|]. unfold split_bounded.
  repeat case_match; try by repeat constructor. apply split_loop_never_skips.
Qed.
Lemma Forall_spans_mode (P : Mode → Prop) lo rs :
  Forall (λ r, P (mode r)) rs → Forall (λ s, P (snd s)) (spans_from lo rs).
Proof.
  intros Hf. revert lo. induction Hf as [|r rs Hr Hf IH]; intros lo; by constructor.
Qed.
Lemma speaks_spans (Q : Z → Z → Prop) lo rs :
  Forall (λ r, mode r ≠ Skip) rs → Forall (λ '(a, b, md), md = Skip → Q a b) (spans_from lo rs).
Proof.
  intros Hf. eapply Forall_impl; [exact (Forall_spans_mode (λ md, md ≠ Skip) lo rs Hf)|].
  by intros [[a b] md].
Qed.
Lemma respond_span_skips local budget lo up m (Q : Z → Z → Prop) :
  (relay_agrees local (lo, up, m) → Q lo up) →
  Forall (λ '(a, b, md), md = Skip → Q a b) (spans_from lo (fst (respond_span local budget (lo, up, m)))).
Proof.
  intros HQ. pose proof (own_answer_speaks (items_in local lo up) up budget) as Hown.
  destruct m as [|fp|ids]; cbn [respond_span relay_agrees] in *.
  - apply Forall_singleton. intros _. by apply HQ.
  - case_bool_decide as E; cbn [fst]; [apply Forall_singleton; intros _; by apply HQ|].
    case_match; by apply speaks_spans.
  - case_bool_decide as E; cbn [fst]; [|case_match; by apply speaks_spans].
    apply Forall_singleton. intros _. apply HQ. intros x Hx. assert (x ∈ (list_to_set ids : gset Id)) as Hx' by set_solver.
    apply E in Hx'. set_solver.
Qed.
Lemma advance_span_skips local budget lo up m (Q : Z → Z → Prop) :
  (client_agrees local (lo, up, m) → Q lo up) →
  Forall (λ '(a, b, md), md = Skip → Q a b) (spans_from lo (fst (advance_span local budget (lo, up, m)))).
Proof.
  intros HQ. pose proof (own_answer_speaks (items_in local lo up) up budget) as Hown.
  destruct m as [|fp|ids]; cbn [advance_span client_agrees] in *.
  - apply Forall_singleton. intros _. by apply HQ.
  - case_bool_decide as E; cbn [fst]; [apply Forall_singleton; intros _; by apply HQ|].
    case_match; by apply speaks_spans.
  - case_bool_decide as E; cbn [fst]; [|case_match; by apply speaks_spans].
    apply Forall_singleton. intros _. apply HQ. intros x. rewrite set_eq in E. specialize (E x). rewrite !elem_of_list_to_set in E. done.
Qed.

Lemma initiate_speaks client : Forall (λ r, mode r ≠ Skip) (ranges (initiate client)).
Proof.
  pose proof (own_answer_speaks client INFINITY SPLIT_FACTOR) as Hs. unfold initiate, split. by case_match.
Qed.

Lemma applied_below relay pushed client client' :
  below_infinity relay → below_infinity client → applied relay pushed client client' → below_infinity client'.
Proof.
  unfold below_infinity. rewrite !Forall_forall. intros Hr Hc [_ Hap] i [Hi|[Hi _]]%Hap; auto.
Qed.

(** What a message in flight says, and that its settled ranges are agreed. *)
Record exchange_ok (relay : list Item) (clients : list (list Item)) (client : list Item) (m : Message) : Prop := mkExchangeOk {
  eo_local : local_ok client;
  eo_below : below_infinity client;
  eo_wf : message_wf m;
  eo_truth : truthful client m;
  eo_agreeing : collided relay clients ∨ agreeing client relay m
}.

Section exchange.
Context (relay : list Item) (Hr : local_ok relay) (Hbr : below_infinity relay).

Lemma respond_keeps clients client m client' :
  exchange_ok relay clients client m → client ∈ clients → applied relay (push (respond relay m)) client client' →
  collided relay clients ∨ agreeing client' relay (reply (respond relay m)).
Proof.
  intros [Hc Hb Hwf Ht Hag] Hin Hap. destruct Hag as [|Hag]; [by left|].
  destruct (relay_settles client relay m client' Hc Hr Ht Hag Hap) as [Hcol|Hs].
  { left. eapply collided_more; [|done]. set_solver. }
  right. apply (respond_ok relay m Hr Hwf). intros budget lo up md Hspan. apply respond_span_skips. by apply Hs.
Qed.

Lemma exchange_kept clients m :
  exchange relay clients m → ∃ client earlier, clients = client :: earlier ∧ exchange_ok relay clients client m.
Proof.
  induction 1 as [client Hc Hb|client earlier m client' rep Hex IH Hap Hrep].
  - exists client, []. split; [done|]. destruct (initiate_ok client Hc Hb) as [Hwf Ht]. split; try done. right.
    apply speaks_spans, initiate_speaks.
  - destruct IH as (c & es & [= <- <-] & Hok). exists client', (client :: earlier). split; [done|].
    pose proof Hok as [Hc Hb Hwf Ht _]. destruct (respond_ok relay m Hr Hwf) as (Hwf2 & Ht2 & _).
    pose proof (proj1 Hap) as Hc'. destruct (advance_ok client' _ rep Hc' Hwf2 Hrep) as (Hwf3 & Ht3 & Hall).
    assert (below_infinity client') as Hb' by exact (applied_below _ _ _ _ Hbr Hb Hap).
    split; [done..|].
    destruct (respond_keeps _ _ _ _ Hok ltac:(left) Hap) as [Hcol|Hag2].
    { left. eapply collided_more; [|done]. set_solver. }
    destruct (client_settles client' relay _ Hc' Hr Ht2 Hag2) as [Hcol|Hs].
    { left. eapply collided_more; [|done]. set_solver. }
    right. apply Hall. intros budget lo up md Hspan. apply advance_span_skips. by apply Hs.
Qed.
End exchange.

(** ** Division *)

(** A chunk that runs to the end although it started with less than everything
    is one run of a single sequence number past its first bucket. *)
Lemma chunk_end_all bucket rest :
  (1 ≤ bucket ≤ length rest)%nat → (length rest ≤ chunk_end bucket rest)%nat →
  ∃ s, Forall (λ i, seq i = s) (drop (bucket - 1) rest).
Proof.
  intros Hb Hall. unfold chunk_end in Hall. rewrite Nat.min_l in Hall by lia.
  destruct (rest !! (bucket - 1)%nat) as [last|] eqn:Hl; [|apply lookup_ge_None in Hl; lia].
  exists (seq last).
  destruct (same_seq_prefix_spec (seq last) (drop bucket rest)) as (H1 & H2 & _).
  rewrite take_ge in H2 by (rewrite length_drop; lia).
  rewrite (drop_S rest last (bucket - 1) Hl). replace (S (bucket - 1)) with bucket by lia.
  by constructor.
Qed.

Lemma split_loop_divides bucket up lo mine :
  (1 ≤ bucket)%nat → StronglySorted seq_le mine → mine ≠ [] →
  Forall (λ i, lo ≤ seq i < up) mine →
  (length mine ≤ chunk_end bucket mine)%nat
  ∧ length (split_loop (length mine) bucket up mine) = 1%nat
  ∨ (2 ≤ length (split_loop (length mine) bucket up mine))%nat
    ∧ Forall (λ '(a, b, _), (length (filter (λ i, (a ≤ seq i < b)%Z) mine) < length mine)%nat)
        (spans_from lo (split_loop (length mine) bucket up mine)).
Proof.
  intros Hb Hs Hne Hf. destruct (chunk_end_spec bucket mine Hs Hne Hb) as [Hend Hsep].
  destruct (chunk_end bucket mine) as [|e] eqn:He.
  { destruct mine; simpl in Hend; [done | lia]. }
  destruct mine as [|x mine']; [done|]. cbn [length split_loop]. rewrite He.
  destruct (drop (S e) (x :: mine')) as [|y tail] eqn:Hd.
  - left. assert (length (x :: mine') ≤ S e)%nat.
    { apply (f_equal length) in Hd. rewrite length_drop in Hd. cbn [length] in *. lia. }
    split; [done|]. by destruct (length mine').
  - right. cbn [take] in Hsep. apply Forall_cons in Hsep as [Hx _].
    pose proof (Hx y ltac:(left)) as Hxy.
    assert (y ∈ x :: mine') as Hy.
    { rewrite <- (take_drop (S e) (x :: mine')), Hd. set_solver. }
    pose proof Hs as Hst. pose proof Hf as Hft.
    rewrite <- (take_drop (S e) (x :: mine')), Hd in Hst, Hft.
    apply StronglySorted_app_1_r in Hst. apply Forall_app in Hft as [_ Hft].
    assert (Forall (λ i, seq y ≤ seq i < up) (y :: tail)) as Hft'.
    { apply StronglySorted_inv in Hst as [_ Hyt]. rewrite Forall_forall in *.
      intros i Hi. split; [|by apply Hft]. apply elem_of_cons in Hi as [->|Hi]; [lia|].
      by apply Hyt. }
    edestruct (split_loop_ok bucket up (length mine') (y :: tail) (seq y)) as (_ & Hsp & _ & Hlen);
      [done | | done | done | done |].
    { apply (f_equal length) in Hd. rewrite length_drop in Hd. cbn [length] in *. lia. }
    cbn zeta in *. split; [cbn [length]; lia|]. cbn [spans_from upper mode]. constructor.
    + apply (length_filter_lt _ (x :: mine') y); [done | lia].
    + eapply Forall_impl; [exact Hsp|]. intros [[a b] m] (Ha & _).
      apply (length_filter_lt _ (x :: mine') x); [by left | lia].
Qed.

(** ** Main theorems *)

(** Every message either role produces is one the peer's decoder accepts
    and reads back unchanged: the relay's reply, the client's reply and the
    client's opening. Splitting under the message budget never produces more
    than 1024 ranges, a repeated bound or an oversized id list, whatever legal
    message came in. *)
Theorem recon_messages_decodable local m :
  local_ok local → message_wf m →
  message_decode (message_encode (reply (respond local m))) = Ok (reply (respond local m))
  ∧ (∀ rep, step_reply (advance local m) = Some rep → message_decode (message_encode rep) = Ok rep)
  ∧ (below_infinity local →
     message_decode (message_encode (initiate local)) = Ok (initiate local)).
Proof.
  intros Hl Hm.
  assert (∀ x, message_wf x → message_decode (message_encode x) = Ok x) as Hdec.
  { intros x Hx. exact (parse_encode ReconCbor message_wf message_encode _ x Hx). }
  split; [|split].
  - by apply Hdec, respond_ok.
  - intros rep Hrep. by eapply Hdec, advance_ok.
  - intros Hb. by apply Hdec, initiate_ok.
Qed.

(** Both roles speak the truth about their own items: every fingerprint
    and every id list they send is that of exactly the items they hold between
    the range's bounds, split ranges included. *)
Theorem recon_messages_truthful local m :
  local_ok local → message_wf m →
  truthful local (reply (respond local m))
  ∧ (∀ rep, step_reply (advance local m) = Some rep → truthful local rep)
  ∧ (below_infinity local → truthful local (initiate local)).
Proof.
  intros Hl Hm. split; [|split].
  - by destruct (respond_ok local m Hl Hm) as (_ & ? & _).
  - intros rep Hrep. by destruct (advance_ok local m rep Hl Hm Hrep) as (_ & ? & _).
  - intros Hb. by apply initiate_ok.
Qed.

(** The relay pushes exactly the ids it holds inside an id-list range that
    the client did not name there, in ascending order and without repeats. *)
Theorem respond_push_exact local m :
  StronglySorted bytes_lt (push (respond local m))
  ∧ ∀ x, x ∈ push (respond local m)
      ↔ ∃ lo up theirs, (lo, up, IdList theirs) ∈ spans m
          ∧ x ∈ ids_of (items_in local lo up) ∧ x ∉ theirs.
Proof.
  split; [|apply elem_of_push]. unfold respond.
  destruct (round _ _ _ _ _) as [rs out]. apply btree_to_list_sorted.
Qed.

(** The client falls silent exactly when it agrees with every range it was
    sent, and a client that falls silent has nothing to ask for and nothing to
    send. *)
Theorem advance_done_iff_agrees local m :
  (done (advance local m) = true ↔ Forall (client_agrees local) (spans m))
  ∧ (done (advance local m) = true → want (advance local m) = [] ∧ send (advance local m) = []).
Proof. apply advance_done. Qed.

(** C38. A reconciliation that ends has converged. However many rounds the client and
    the relay exchange, from the client's opening on, over a relay log that does not
    change meanwhile and with the pushes applied before each answer: when the client
    has nothing left to say, it asks for nothing, offers nothing and holds exactly the
    relay's ids, or the digest collided on the two sides' items of some range. Ranges
    settled in an earlier round are covered, and a relay that settles every range ends
    the exchange: the client's answer is silence. *)
Theorem reconciliation_converges relay client earlier m client' :
  local_ok relay → below_infinity relay →
  exchange relay (client :: earlier) m → applied relay (push (respond relay m)) client client' →
  let step := advance client' (reply (respond relay m)) in
  (is_settled (reply (respond relay m)) = true → done step = true)
  ∧ (done step = true →
       want step = [] ∧ send step = []
       ∧ ((∀ x, x ∈ ids_of client' ↔ x ∈ ids_of relay) ∨ collided relay (client' :: client :: earlier))).
Proof.
  intros Hr Hbr Hex Hap step. destruct (exchange_kept relay Hr Hbr _ _ Hex) as (c & es & [= <- <-] & Hok).
  destruct (advance_done client' (reply (respond relay m))) as [Hdone Hsilent]. split.
  - intros Hset. apply Hdone. destruct (reply (respond relay m)) as [rs]. apply is_settled_iff in Hset.
    eapply Forall_impl; [exact (Forall_spans_mode (λ md, md = Skip) 0 rs Hset)|]. intros [[lo up] md] Hmd. cbn in Hmd. by subst.
  - intros Hd. destruct (Hsilent Hd) as [Hw Hs]. split_and!; [done | done |]. apply Hdone in Hd.
    pose proof Hok as [Hc Hb Hwf _ _]. destruct (respond_ok relay m Hr Hwf) as (Hwf2 & Ht2 & _). pose proof (proj1 Hap) as Hc'.
    destruct (respond_keeps relay Hr Hbr _ client m client' Hok ltac:(left) Hap) as [Hcol|Hag].
    { right. eapply collided_more; [|done]. set_solver. }
    destruct (client_settles client' relay _ Hc' Hr Ht2 Hag) as [Hcol|Hall].
    { right. eapply collided_more; [|done]. set_solver. }
    left. intros x. rewrite Forall_forall in Hd.
    assert (below_infinity client') as Hb' by exact (applied_below _ _ _ _ Hbr Hb Hap).
    rewrite (span_ids_cover client' _ x Hc' Hb' Hwf2), (span_ids_cover relay _ x Hr Hbr Hwf2).
    split; intros (lo & up & md & Hin & Hx); exists lo, up, md; (split; [done|]); by apply (Hall lo up md Hin (Hd _ Hin)).
Qed.

(** Termination measure: with room for two ranges, a range too wide for an
    id list comes back as id lists or as ranges that each hold strictly fewer
    of its items. The one exception has more than 4096 items that, from the
    last of the first bucket on, all share one sequence number. *)
Theorem split_makes_progress local lo up budget :
  let mine := items_in local lo up in
  let bucket := Nat.max (div_ceil (length mine) (Nat.min SPLIT_FACTOR (Nat.max budget 1))) 1 in
  local_ok local → (2 ≤ budget)%nat → (IDLIST_LIMIT < length mine)%nat →
  Forall (λ '(a, b, m), (∃ ids, m = IdList ids) ∨ (length (items_in local a b) < length mine)%nat)
    (spans_from lo (split_bounded mine up budget))
  ∨ (MAX_IDS_PER_RANGE < length mine)%nat
    ∧ ∃ s, Forall (λ i, seq i = s) (drop (bucket - 1) mine).
Proof.
  intros mine bucket [Hs Hf] Hbud Hlim. unfold split_bounded.
  destruct (Nat.eqb_spec (Nat.min SPLIT_FACTOR (Nat.max budget 1)) 1) as [E|E];
    [unfold SPLIT_FACTOR in E; lia|]. fold bucket.
  assert (mine ≠ []) as Hne by (intros Hz; rewrite Hz in Hlim; simpl in Hlim; lia).
  pose proof (items_in_bounds local lo up Hs) as Hb. fold mine in Hb.
  assert (1 ≤ bucket ≤ length mine)%nat as Hbk.
  { split; [lia|]. unfold bucket. apply Nat.max_lub; [|unfold IDLIST_LIMIT in *; lia].
    unfold div_ceil. apply Nat.Div0.div_le_upper_bound. unfold SPLIT_FACTOR, IDLIST_LIMIT in *. nia. }
  destruct (split_loop_divides bucket up lo mine) as [[Hend ->]|[Hlen Hsp]];
    [lia | by apply items_in_sorted | done | done | |].
  - rewrite Nat.eqb_refl, (proj2 (Nat.ltb_lt _ _) Hlim). cbn [andb].
    destruct (Nat.leb_spec (length mine) MAX_IDS_PER_RANGE) as [Hm|Hm].
    + left. constructor; [left; by eexists | constructor].
    + right. split; [done|]. by apply chunk_end_all.
  - left. rewrite (proj2 (Nat.eqb_neq _ _)) by lia. cbn [andb].
    destruct (split_loop_ok bucket up (length mine) mine lo) as (_ & Hch & _ & _);
      [lia | lia | by apply items_in_sorted | done | done|]. cbn zeta in Hch.
    rewrite Forall_forall in *. intros [[a b] md] Hin. right.
    destruct (Hch _ Hin) as (Ha & Hbu & _). specialize (Hsp _ Hin). simpl in Hsp.
    by rewrite (items_in_nested local lo up a b).
Qed.
End roles.

(** ** Concrete rounds *)

#[local] Instance toy_blake3 : Blake3 := toy_digest.
#[local] Instance toy_blake3_width : Blake3Width := toy_digest_width.

Definition id_n (n : Z) : Id := replicate 31 Byte.x00 ++ [byte_of_Z n].
Definition items_n (ns : list Z) : list Item := map (λ n, mkItem n (id_n n)) ns.
Definition wide : list Item := items_n [1;2;3;4;5;6;7;8;9;10;11;12;13;14;15;16;17;18;19;20].

Ltac solve_local := split;
  [ repeat (apply SSorted_cons || apply SSorted_nil || apply Forall_cons_2 || apply Forall_nil_2);
    by vm_compute
  | repeat (apply Forall_cons_2 || apply Forall_nil_2); (split; [split; by vm_compute | reflexivity]) ].

Lemma wide_ok : local_ok wide.
Proof. solve_local. Qed.
Lemma wide_below : below_infinity wide.
Proof. unfold below_infinity. repeat (apply Forall_cons_2 || apply Forall_nil_2); by vm_compute. Qed.
Lemma pair_ok : local_ok (items_n [3; 7]).
Proof. solve_local. Qed.
Lemma pair_below : below_infinity (items_n [3; 7]).
Proof. unfold below_infinity. repeat (apply Forall_cons_2 || apply Forall_nil_2); by vm_compute. Qed.

Lemma recon_messages_decodable_witness :
  message_decode (message_encode (reply (respond wide (initiate (items_n [3; 7])))))
  = Ok (reply (respond wide (initiate (items_n [3; 7])))).
Proof.
  refine (proj1 (recon_messages_decodable wide (initiate (items_n [3; 7])) wide_ok _)).
  apply initiate_ok; [apply pair_ok | apply pair_below].
Defined.

Lemma recon_messages_truthful_witness :
  truthful wide (reply (respond wide (initiate (items_n [3; 7])))).
Proof.
  refine (proj1 (recon_messages_truthful wide (initiate (items_n [3; 7])) wide_ok _)).
  apply initiate_ok; [apply pair_ok | apply pair_below].
Defined.

(** The relay holds twenty items and the client two of them: one round, eighteen
    pushes, and the client is done. *)
Definition pushed_n : list Id := push (respond wide (initiate (items_n [3; 7]))).
Definition caught_up : list Item := filter (λ i, id i ∈ ids_of (items_n [3; 7]) ∨ id i ∈ pushed_n) wide.
Lemma caught_up_wide : caught_up = wide.
Proof. by vm_compute. Qed.
Lemma wide_applied : applied wide (push (respond wide (initiate (items_n [3; 7])))) (items_n [3; 7]) caught_up.
Proof.
  fold pushed_n.
  split; [rewrite caught_up_wide; apply wide_ok|].
  assert (Forall (λ i, i ∈ items_n [3; 7] ∨ id i ∈ pushed_n) wide) as Hw.
  { apply (bool_decide_unpack _). by vm_compute. }
  assert (Forall (λ i, i ∈ wide) (items_n [3; 7])) as Hp by (apply (bool_decide_unpack _); by vm_compute).
  rewrite caught_up_wide. rewrite Forall_forall in Hw, Hp. intros i. split; [|naive_solver].
  intros Hi. destruct (Hw i Hi); auto.
Qed.
Lemma reconciliation_converges_witness :
  length pushed_n = 18%nat
  ∧ ((∀ x, x ∈ ids_of caught_up ↔ x ∈ ids_of wide) ∨ collided wide [caught_up; items_n [3; 7]]).
Proof.
  split; [by vm_compute|].
  refine (proj2 (proj2 (proj2 (reconciliation_converges wide (items_n [3; 7]) [] (initiate (items_n [3; 7])) caught_up
    wide_ok wide_below (exchange_opened wide _ pair_ok pair_below) wide_applied) _))).
  by vm_compute.
Defined.

Lemma respond_push_exact_witness :
  length (push (respond wide (initiate (items_n [3; 7])))) = 18%nat
  ∧ StronglySorted bytes_lt (push (respond wide (initiate (items_n [3; 7])))).
Proof. split; [by vm_compute|]. exact (proj1 (respond_push_exact wide (initiate (items_n [3; 7])))). Defined.

Lemma advance_done_witness :
  want (advance wide settled) = [] ∧ send (advance wide settled) = [].
Proof. refine (proj2 (advance_done_iff_agrees wide settled) _). by vm_compute. Defined.

Lemma split_makes_progress_witness :
  let mine := items_in wide 0 INFINITY in
  length mine = 20%nat
  ∧ (Forall (λ '(a, b, m), (∃ ids, m = IdList ids) ∨ (length (items_in wide a b) < length mine)%nat)
       (spans_from 0 (split_bounded mine INFINITY 8))
     ∨ (MAX_IDS_PER_RANGE < length mine)%nat
       ∧ ∃ s, Forall (λ i, seq i = s)
           (drop (Nat.max (div_ceil (length mine) (Nat.min SPLIT_FACTOR (Nat.max 8 1))) 1 - 1) mine)).
Proof.
  assert (length (items_in wide 0 INFINITY) = 20%nat) as Hlen by (by vm_compute).
  split; [exact Hlen|].
  refine (split_makes_progress wide 0 INFINITY 8 wide_ok _ _); [lia|].
  rewrite Hlen. unfold IDLIST_LIMIT. lia.
Defined.

(** Items that do not all share a sequence number can still come back as one
    range: one item at 1 and sixteen at 2 are cut after the third item, and the
    cut then runs to the end. *)
Theorem undivided_without_single_seq :
  split_bounded (items_n [1] ++ map (λ n, mkItem 2 (id_n n)) [2;3;4;5;6;7;8;9;10;11;12;13;14;15;16;17]) INFINITY 8
  = [mkRange INFINITY (IdList (map id_n [1;2;3;4;5;6;7;8;9;10;11;12;13;14;15;16;17]))].
Proof. by vm_compute. Qed.
