(* ===== verification/Access.v ===== *)
(** * The access set: codec, quorum and transition rules

    Models [backend/wealdrelay/src/access/mod.rs]: the published set and its
    canonical encoding, the digest its signer and the recovery quorum sign,
    the shape checks, and [judge] with its ordinary and rotation branches. *)

From Stdlib Require Import ZArith Lia.
From Stdlib Require Import String.
From stdpp Require Import base tactics numbers list strings gmap sets sorting.
From S2P Require Import Prelude Cbor Crypto Push Frame.

Open Scope Z_scope.

Definition KEY_BYTES : nat := 32.
Definition HASH_BYTES : nat := 32.
Definition SIG_BYTES : nat := 64.
Definition QUORUM_CONFIRM_LABEL : list byte := ascii_bytes "weald recovery-confirm v1".
Definition MAX_ENTRIES : nat := 4096.

Inductive SignedAs : Type := Authorizer | Recovery.
#[global] Instance SignedAs_eq_dec : EqDecision SignedAs.
Proof. solve_decision. Defined.

Definition signed_as_label (s : SignedAs) : string :=
  match s with Authorizer => "authorizer" | Recovery => "recovery" end.

Record QuorumSignature : Type := mkQuorumSignature { qs_key : list byte; qs_sig : list byte }.
Record RecoveryQuorum : Type := mkRecoveryQuorum {
  threshold : Z;
  keys : list (list byte);
  sigs : list QuorumSignature
}.

Record AccessSet : Type := mkAccessSet {
  set_workspace : list byte;
  set_version : Z;
  set_prev_hash : list byte;
  set_issued_at : Z;
  set_entries : list (list byte);
  set_authorizers : list (list byte);
  set_recovery : list (list byte);
  set_quorum : option RecoveryQuorum;
  set_pending : list (list byte);
  set_signer : list byte;
  set_sig : list byte
}.

Inductive AccessError : Type :=
| Encoding (error : CborError)
| EmptyList (name : string)
| TooManyEntries (name : string)
| Unsorted (name : string)
| VersionNotNext (expected got : Z)
| PrevHashMismatch
| SignerNotPermitted
| BadSignature
| PrincipalNotAnEntry
| WouldStrandAuthority (what : string)
| RotationShape (rule : string)
| RotationRateLimited
| ProbationExceeded
| Quorum (what : string)
| WorkspaceMismatch.

Definition access_error_code (e : AccessError) : ErrorCode :=
  match e with
  | Encoding _ | EmptyList _ | TooManyEntries _ | Unsorted _ | Quorum _ => MalformedHeader
  | BadSignature => NoncanonicalCbor
  | _ => WriterNotInAccessSet
  end.

(** ** Encoding *)
Definition encode_list (items : list (list byte)) : list byte := array (map bytes items).

Definition encode_signature (s : QuorumSignature) : list byte :=
  array [bytes (qs_key s); bytes (qs_sig s)].

Definition encode_quorum (q : RecoveryQuorum) (with_signatures : bool) : list byte :=
  let signatures := if with_signatures then array (map encode_signature (sigs q)) else array [] in
  array [uint (threshold q); encode_list (keys q); signatures].

Definition encode_optional_quorum (q : option RecoveryQuorum) (with_signatures : bool) : list byte :=
  match q with Some q => encode_quorum q with_signatures | None => optional_bytes None end.

(** The bytes an authorizer signs: [sig] and the quorum signatures omitted. *)
Definition digest_input (s : AccessSet) : list byte :=
  array [bytes (set_workspace s); uint (set_version s); bytes (set_prev_hash s);
         uint (set_issued_at s); encode_list (set_entries s); encode_list (set_authorizers s);
         encode_list (set_recovery s); encode_optional_quorum (set_quorum s) false;
         encode_list (set_pending s); bytes (set_signer s)].

Definition access_encode (s : AccessSet) : list byte :=
  array [bytes (set_workspace s); uint (set_version s); bytes (set_prev_hash s);
         uint (set_issued_at s); encode_list (set_entries s); encode_list (set_authorizers s);
         encode_list (set_recovery s); encode_optional_quorum (set_quorum s) true;
         encode_list (set_pending s); bytes (set_signer s); bytes (set_sig s)].

(** ** Decoding *)
Abbreviation alift := (rd_map_err Encoding).

Definition read_list (width : nat) : rd AccessError (list (list byte)) :=
  count <- alift rd_array_header ;;
  if (MAX_ENTRIES <? count)%nat then rd_fail (TooManyEntries "list") else
  rd_times count (alift (rd_bytes_of width)).

Definition read_signature : rd AccessError QuorumSignature :=
  alift (rd_array 2) ;;;
  key <- alift (rd_bytes_of 32) ;;
  sig <- alift (rd_bytes_of 64) ;;
  rd_ret (mkQuorumSignature key sig).

(** The signature loop of [read_quorum]. *)
Definition read_signatures : rd AccessError (list QuorumSignature) :=
  count <- alift rd_array_header ;;
  if (MAX_ENTRIES <? count)%nat then rd_fail (TooManyEntries "quorum signatures") else
  rd_times count read_signature.

Definition read_quorum : rd AccessError (option RecoveryQuorum) :=
  null <- alift rd_optional_is_null ;;
  if (null : bool) then rd_ret None else
  alift (rd_array 3) ;;;
  threshold <- alift rd_u8 ;;
  keys <- read_list KEY_BYTES ;;
  sigs <- read_signatures ;;
  rd_ret (Some (mkRecoveryQuorum threshold keys sigs)).

Definition decode_set : rd AccessError AccessSet :=
  alift (rd_array 11) ;;;
  workspace <- alift (rd_bytes_of 32) ;;
  version <- alift rd_uint ;;
  prev_hash <- alift (rd_bytes_of 32) ;;
  issued_at <- alift rd_uint ;;
  entries <- read_list HASH_BYTES ;;
  authorizers <- read_list KEY_BYTES ;;
  recovery <- read_list KEY_BYTES ;;
  quorum <- read_quorum ;;
  pending <- read_list HASH_BYTES ;;
  signer <- alift (rd_bytes_of 32) ;;
  sig <- alift (rd_bytes_of 64) ;;
  rd_ret (mkAccessSet workspace version prev_hash issued_at entries authorizers recovery quorum
            pending signer sig).

Definition access_decode (bs : list byte) : result AccessError AccessSet :=
  parse Encoding decode_set bs.

(** ** Shape checks *)

(** Non-empty unless allowed, bounded, sorted and deduplicated. *)
Definition check_list (name : string) (items : list (list byte)) (may_be_empty : bool)
    : result AccessError unit :=
  if bool_decide (items = []) && negb may_be_empty then Err (EmptyList name)
  else if (MAX_ENTRIES <? length items)%nat then Err (TooManyEntries name)
  else if strictly_ascending items then Ok tt else Err (Unsorted name).

Definition check_quorum (q : option RecoveryQuorum) : result AccessError unit :=
  match q with
  | None => Ok tt
  | Some q =>
      let? _ := map_err (λ _, Quorum "keys must be unique, sorted and non-empty")
                  (check_list "quorum" (keys q) false) in
      if (threshold q =? 0) || (Z.of_nat (length (keys q)) <? threshold q)
      then Err (Quorum "threshold must be between 1 and the key count")
      else Ok tt
  end.

Definition check_shape (s : AccessSet) : result AccessError unit :=
  let? _ := check_list "entries" (set_entries s) false in
  let? _ := check_list "authorizers" (set_authorizers s) false in
  let? _ := check_list "recovery" (set_recovery s) false in
  let? _ := check_list "pending" (set_pending s) true in
  check_quorum (set_quorum s).

(** ** Digests and signatures *)
Section rules.
Context `{Blake3, Ed25519}.

Definition digest (s : AccessSet) : list byte := blake3 (digest_input s).

Definition entry_hash (pubkey salt : list byte) : list byte := blake3 (pubkey ++ salt).

Definition quorum_message (digest replacement_entry : list byte) : list byte :=
  blake3 (QUORUM_CONFIRM_LABEL ++ digest ++ replacement_entry).

(** Wrong-shaped inputs answer false. *)
Definition verify (pubkey message signature : list byte) : bool :=
  (length pubkey =? KEY_BYTES)%nat && (length signature =? SIG_BYTES)%nat
  && verify_strict pubkey message signature.

Definition principals_are_entries (s : AccessSet) (salt : list byte) : result AccessError unit :=
  if forallb (λ key, contains (set_entries s) (entry_hash key salt))
       (set_authorizers s ++ set_recovery s)
  then Ok tt else Err PrincipalNotAnEntry.

Definition signature_verifies (s : AccessSet) : bool :=
  verify (set_signer s) (digest_input s) (set_sig s).

(** The loop over the carried signatures; [seen] is the distinct configured
    keys that have signed so far. *)
Fixpoint quorum_seen (configured : RecoveryQuorum) (message : list byte)
    (carried : list QuorumSignature) (seen : list (list byte)) : list (list byte) :=
  match carried with
  | [] => seen
  | s :: rest =>
      if negb (contains (keys configured) (qs_key s)) then quorum_seen configured message rest seen
      else if contains seen (qs_key s) then quorum_seen configured message rest seen
      else if verify (qs_key s) message (qs_sig s)
      then quorum_seen configured message rest (seen ++ [qs_key s])
      else quorum_seen configured message rest seen
  end.

Definition quorum_confirms (s : AccessSet) (configured : RecoveryQuorum) (replacement : list byte)
    : bool :=
  match set_quorum s with
  | None => false
  | Some carried =>
      if bool_decide (length (sigs carried) = 0%nat) then false
      else
        let message := quorum_message (digest s) replacement in
        threshold configured <=? Z.of_nat (length (quorum_seen configured message (sigs carried) []))
  end.

(** ** The transition rules *)
Record Prior : Type := mkPrior {
  prior_workspace : list byte;
  prior_version : Z;
  prior_digest : list byte;
  prior_entries : list (list byte);
  prior_authorizers : list (list byte);
  prior_recovery : list (list byte);
  prior_quorum : option RecoveryQuorum
}.

Record Probation : Type := mkProbation {
  device : list byte;
  introduced_at : Z;
  probation_pending : list (list byte)
}.

Record Effects : Type := mkEffects {
  opens_probation : option Probation;
  clears_probation : list (list byte);
  removed : list (list byte)
}.
Definition default_effects : Effects := mkEffects None [] [].

(** [items.iter().filter(|item| !other.contains(item))]. *)
Definition absent_from (other items : list (list byte)) : list (list byte) :=
  filter (.∉ other) items.
(** [items.iter().all(|item| other.contains(item))]. *)
Definition all_in (other items : list (list byte)) : bool := forallb (contains other) items.
(** [items.iter().any(|item| other.contains(item))]. *)
Definition any_in (other items : list (list byte)) : bool := existsb (contains other) items.

Definition find_probation (probations : list Probation) (signer : list byte) : option Probation :=
  find (λ p, bool_decide (device p = signer)) probations.

(** Whether this publication clears one open probation. *)
Definition clears_one (candidate : AccessSet) (prior : Prior) (salt : list byte)
    (probations : list Probation) (p : Probation) : bool :=
  if bool_decide (device p = set_signer candidate) then false
  else
    let entry := entry_hash (device p) salt in
    if negb (contains (set_entries candidate) entry) then false
    else if negb (existsb (λ other, bool_decide (device other = set_signer candidate)) probations)
    then true
    else match prior_quorum prior with
         | Some configured => quorum_confirms candidate configured entry
         | None => false
         end.

Definition judge_ordinary (candidate : AccessSet) (prior : Prior) (salt : list byte)
    (probations : list Probation) (removed : list (list byte))
    : result AccessError (SignedAs * Effects) :=
  if negb (any_in (set_authorizers candidate) (prior_authorizers prior))
  then Err (WouldStrandAuthority "authorizer")
  else if negb (any_in (set_recovery candidate) (prior_recovery prior))
  then Err (WouldStrandAuthority "recovery principal")
  else if negb (bool_decide (set_pending candidate = []))
  then Err (RotationShape "name pending entries")
  else
    let? _ :=
      match find_probation probations (set_signer candidate) with
      | Some probation =>
          if negb (all_in (probation_pending probation) removed) then Err ProbationExceeded
          else if negb (all_in (set_authorizers candidate) (prior_authorizers prior))
          then Err ProbationExceeded
          else if negb (all_in (prior_authorizers prior) (set_authorizers candidate))
          then Err ProbationExceeded
          else Ok tt
      | None => Ok tt
      end in
    let clears :=
      map device (List.filter (clears_one candidate prior salt probations) probations) in
    Ok (Authorizer, mkEffects None clears removed).

(** The entries a rotation pins must be prior entries and no prior authorizer. *)
Fixpoint check_pins (prior : Prior) (salt : list byte) (pins : list (list byte))
    : result AccessError unit :=
  match pins with
  | [] => Ok tt
  | entry :: rest =>
      if negb (contains (prior_entries prior) entry)
      then Err (RotationShape "pin only entries the prior set carried")
      else if existsb (λ key, bool_decide (entry_hash key salt = entry)) (prior_authorizers prior)
      then Err (RotationShape "pin no prior authorizer")
      else check_pins prior salt rest
  end.

Definition judge_rotation (candidate : AccessSet) (prior : Prior) (salt : list byte)
    (removed : list (list byte)) (rotated_recently : bool)
    : result AccessError (SignedAs * Effects) :=
  if rotated_recently then Err RotationRateLimited
  else if contains (set_recovery candidate) (set_signer candidate)
  then Err (RotationShape "rotate the signer's own recovery key")
  else
  match absent_from (prior_recovery prior) (set_recovery candidate) with
  | [successor] =>
    if negb (bool_decide (absent_from (set_recovery candidate) (prior_recovery prior)
                          = [set_signer candidate]))
    then Err (RotationShape "replace its own recovery key and no other")
    else
    let added := absent_from (prior_entries prior) (set_entries candidate) in
    let signer_entry := entry_hash (set_signer candidate) salt in
    if negb (forallb (λ entry, bool_decide (entry = signer_entry)) removed)
    then Err (RotationShape "remove nothing but its own entry")
    else
    match absent_from (prior_authorizers prior) (set_authorizers candidate) with
    | [replacement] =>
      let permitted :=
        bytes_dedup (bytes_sort [entry_hash successor salt; entry_hash replacement salt]) in
      let added_sorted := bytes_dedup (bytes_sort added) in
      if negb (bool_decide (added_sorted = permitted))
      then Err (RotationShape "add exactly the replacement device and the successor recovery key")
      else if negb (all_in (set_authorizers candidate) (prior_authorizers prior))
      then Err (RotationShape "remove no authorizer")
      else
      let? _ := check_pins prior salt (set_pending candidate) in
      Ok (Recovery,
          mkEffects (Some (mkProbation replacement (set_version candidate) (set_pending candidate)))
            [] removed)
    | _ => Err (RotationShape "add exactly the replacement device as an authorizer")
    end
  | _ => Err (RotationShape "replace its own recovery key with exactly one successor")
  end.

Definition judge_genesis (candidate : AccessSet) : result AccessError (SignedAs * Effects) :=
  if negb (set_version candidate =? 0) then Err (VersionNotNext 0 (set_version candidate))
  else if negb (bool_decide (set_prev_hash candidate = replicate HASH_BYTES Byte.x00))
  then Err PrevHashMismatch
  else if negb (contains (set_authorizers candidate) (set_signer candidate))
  then Err SignerNotPermitted
  else if negb (signature_verifies candidate) then Err BadSignature
  else if negb (bool_decide (set_pending candidate = []))
  then Err (RotationShape "name pending entries")
  else Ok (Authorizer, default_effects).

Definition judge (candidate : AccessSet) (prior : option Prior) (salt : list byte)
    (probations : list Probation) (recovery_rotated_recently : bool)
    : result AccessError (SignedAs * Effects) :=
  let? _ := check_shape candidate in
  let? _ := principals_are_entries candidate salt in
  match prior with
  | None => judge_genesis candidate
  | Some prior =>
      if negb (set_version candidate =? prior_version prior + 1)
      then Err (VersionNotNext (prior_version prior + 1) (set_version candidate))
      else if negb (bool_decide (set_prev_hash candidate = prior_digest prior))
      then Err PrevHashMismatch
      else if negb (bool_decide (set_workspace candidate = prior_workspace prior))
      then Err WorkspaceMismatch
      else
        let as_authorizer := contains (prior_authorizers prior) (set_signer candidate) in
        let as_recovery := contains (prior_recovery prior) (set_signer candidate) in
        if negb as_authorizer && negb as_recovery then Err SignerNotPermitted
        else if negb (signature_verifies candidate) then Err BadSignature
        else
          let removed := absent_from (set_entries candidate) (prior_entries prior) in
          if as_authorizer then judge_ordinary candidate prior salt probations removed
          else judge_rotation candidate prior salt removed recovery_rotated_recently
  end.
End rules.

(** ** The codec is exact *)
Definition list_wf (width : nat) (l : list (list byte)) : Prop :=
  Forall (λ v, length v = width) l ∧ (length l ≤ MAX_ENTRIES)%nat.
Definition signature_wf (s : QuorumSignature) : Prop :=
  length (qs_key s) = 32%nat ∧ length (qs_sig s) = 64%nat.
Definition quorum_wf (q : RecoveryQuorum) : Prop :=
  is_u8 (threshold q) ∧ list_wf 32 (keys q)
  ∧ Forall signature_wf (sigs q) ∧ (length (sigs q) ≤ MAX_ENTRIES)%nat.
Definition optional_quorum_wf (q : option RecoveryQuorum) : Prop :=
  match q with Some q => quorum_wf q | None => True end.
Definition access_wf (s : AccessSet) : Prop :=
  length (set_workspace s) = 32%nat ∧ is_u64 (set_version s) ∧ length (set_prev_hash s) = 32%nat
  ∧ is_u64 (set_issued_at s) ∧ list_wf 32 (set_entries s) ∧ list_wf 32 (set_authorizers s)
  ∧ list_wf 32 (set_recovery s) ∧ optional_quorum_wf (set_quorum s) ∧ list_wf 32 (set_pending s)
  ∧ length (set_signer s) = 32%nat ∧ length (set_sig s) = 64%nat.

#[global] Instance read_list_codec : WireCodec (list_wf 32) encode_list (read_list 32).
Proof. apply (capped_codec Encoding MAX_ENTRIES (λ _, TooManyEntries _)); [by vm_compute | apply _ | apply length_bytes_pos]. Qed.

#[global] Instance signature_codec : WireCodec signature_wf encode_signature read_signature.
Proof.
  split.
  - intros [k s] [Hk Hs]. unfold read_signature, encode_signature. cbn [qs_key qs_sig] in *.
    accept_record.
  - intros r x r' Hd. unfold read_signature in Hd. do 3 sound_step Hd. injection Hd as <- <-.
    split; [done|]. unfold encode_signature. cbn [qs_key qs_sig]. sound_chain.
Qed.

Lemma length_encode_quorum_pos q b : (1 ≤ length (encode_optional_quorum q b))%nat.
Proof. destruct q; [apply length_array_pos | by vm_compute; lia]. Qed.

Lemma accepts_quorum (read : rd AccessError (option RecoveryQuorum)) body q :
  read = (null <- alift rd_optional_is_null ;; if (null : bool) then rd_ret None else body) →
  accepts 0 body (encode_quorum q true) (Some q) →
  accepts 0 read (encode_quorum q true) (Some q).
Proof.
  intros -> Hbody pre suf Hs. unfold rd_bind, rd_map_err. unfold encode_quorum at 1 2 3. cbv zeta.
  rewrite array_unfold. unfold array_head. rewrite not_null_array by (by vm_compute).
  by apply Hbody.
Qed.

#[global] Instance signatures_codec :
  WireCodec (λ l, Forall signature_wf l ∧ (length l ≤ MAX_ENTRIES)%nat)
    (λ l, array (map encode_signature l)) read_signatures.
Proof. apply (capped_codec Encoding MAX_ENTRIES (λ _, TooManyEntries _)); [by vm_compute | apply _ | intros; apply length_array_pos]. Qed.

#[global] Instance quorum_codec :
  WireCodec optional_quorum_wf (λ q, encode_optional_quorum q true) read_quorum.
Proof.
  split.
  - intros [q|] Hq; cbn [encode_optional_quorum].
    + eapply accepts_quorum; [reflexivity|]. destruct q as [t ks ss]. destruct Hq as (Ht & Hk & Hs & Hn).
      cbn [threshold keys sigs] in *. unfold encode_quorum. cbn [threshold keys sigs].
      apply accepts_array_items; [done | by vm_compute | unfold encode_list; length_items | cbn [concat]].
      do 2 accept_field.
      eapply accepts_field; [|apply accepts_ret].
      exact (codec_accepts (enc := λ l, array (map encode_signature l)) ss (conj Hs Hn)).
    + unfold read_quorum. rewrite <- (app_nil_r (optional_bytes None)).
      eapply accepts_field; [apply accepts_map_err, accepts_null | apply accepts_ret].
  - intros r q r' Hd. unfold read_quorum in Hd.
    apply rd_bind_ok in Hd as (null & r1 & Hn & Hd). apply rd_map_err_ok, optional_is_null_sound in Hn.
    destruct null; [by injection Hd as <- <-|]. subst r1. do 4 sound_step Hd. injection Hd as <- <-.
    destruct Hw1 as [Hf Hn]. split; [done|].
    cbn [encode_optional_quorum]. unfold encode_quorum. cbn [threshold keys sigs]. sound_chain.
Qed.

#[global] Instance access_codec : WireCodec access_wf access_encode decode_set.
Proof.
  split.
  - intros s. destruct s. intros Hwf. unfold access_wf in Hwf. cbn in Hwf. destruct_and! Hwf.
    unfold decode_set, access_encode. cbn -[array encode_list bytes uint encode_optional_quorum rd_array].
    apply accepts_array_items; [done | by vm_compute | |].
    { pose proof (length_encode_quorum_pos set_quorum0 true). unfold encode_list. length_items. }
    cbn [concat]. do 7 accept_field.
    eapply accepts_field.
    { by apply (codec_accepts (enc := λ q, encode_optional_quorum q true) (dec := read_quorum)). }
    repeat accept_field.
  - intros r s r' Hd. unfold decode_set in Hd. do 12 sound_step Hd. injection Hd as <- <-.
    split; [unfold access_wf; cbn; by split_and!|].
    unfold access_encode. cbn -[array encode_list bytes uint encode_optional_quorum]. sound_chain.
Qed.

(** ** What a signature covers *)
Definition strip_quorum (q : RecoveryQuorum) : RecoveryQuorum :=
  mkRecoveryQuorum (threshold q) (keys q) [].

(** The set with its signature and the quorum signatures blanked. *)
Definition unsigned (s : AccessSet) : AccessSet :=
  mkAccessSet (set_workspace s) (set_version s) (set_prev_hash s) (set_issued_at s)
    (set_entries s) (set_authorizers s) (set_recovery s) (strip_quorum <$> set_quorum s)
    (set_pending s) (set_signer s) [].

(** A reader of the signed bytes, used only to show that they determine
    [unsigned]. *)
Definition read_signed : rd AccessError AccessSet :=
  alift (rd_array 10) ;;;
  workspace <- alift (rd_bytes_of 32) ;;
  version <- alift rd_uint ;;
  prev_hash <- alift (rd_bytes_of 32) ;;
  issued_at <- alift rd_uint ;;
  entries <- read_list HASH_BYTES ;;
  authorizers <- read_list KEY_BYTES ;;
  recovery <- read_list KEY_BYTES ;;
  quorum <- read_quorum ;;
  pending <- read_list HASH_BYTES ;;
  signer <- alift (rd_bytes_of 32) ;;
  rd_ret (mkAccessSet workspace version prev_hash issued_at entries authorizers recovery quorum
            pending signer []).

Lemma accepts_signed s : access_wf s → accepts 0 read_signed (digest_input s) (unsigned s).
Proof.
  intros Hwf. unfold access_wf in Hwf. destruct_and! Hwf.
  assert (encode_optional_quorum (set_quorum s) false
          = encode_optional_quorum (strip_quorum <$> set_quorum s) true) as Hq
    by (by destruct (set_quorum s)).
  assert (optional_quorum_wf (strip_quorum <$> set_quorum s)) as Hqw.
  { destruct (set_quorum s) as [q|]; [|done].
    match goal with H : optional_quorum_wf (Some q) |- _ => destruct H as (? & ? & ? & ?) end.
    split; [done|]. split; [done|]. split; [constructor | simpl; lia]. }
  unfold read_signed, digest_input. rewrite Hq.
  apply accepts_array_items; [done | by vm_compute | |].
  { pose proof (length_encode_quorum_pos (strip_quorum <$> set_quorum s) true).
    unfold encode_list. length_items. }
  cbn [concat]. do 7 accept_field. eapply accepts_field.
  { by apply (codec_accepts (enc := λ q, encode_optional_quorum q true) (dec := read_quorum)). }
  repeat accept_field.
Qed.

Lemma digest_input_inj s s' :
  access_wf s → access_wf s' → digest_input s = digest_input s' → unsigned s = unsigned s'.
Proof.
  intros Hs Hs' Heq. pose proof (accepts_signed s Hs [] [] ltac:(simpl; lia)) as H1.
  pose proof (accepts_signed s' Hs' [] [] ltac:(simpl; lia)) as H2. rewrite Heq, H2 in H1.
  generalize dependent (unsigned s). generalize (unsigned s'). intros u u' Hu. congruence.
Qed.

Section theorems.
Context `{Blake3, Ed25519}.

(** The access-set decoder accepts exactly the canonical encodings of
    sets whose fields have the wire's widths and whose lists have at most 4096
    members. *)
Theorem access_decode_exact bs s :
  access_decode bs = Ok s ↔ access_wf s ∧ access_encode s = bs.
Proof.
  split.
  - intros Hd. exact (parse_canonical Encoding access_wf access_encode _ bs s Hd).
  - intros [Hwf <-]. exact (parse_encode Encoding access_wf access_encode _ s Hwf).
Qed.

(** One digest names one transition: two sets with the same digest agree
    on everything but the signature and the quorum signatures, or their signed
    bytes collide. *)
Theorem digest_binds_transition s s' :
  access_wf s → access_wf s' → digest s = digest s' →
  unsigned s = unsigned s' ∨ collision (digest_input s) (digest_input s').
Proof.
  intros Hs Hs' Heq. destruct (decide (digest_input s = digest_input s')) as [E|E].
  - left. by apply digest_input_inj.
  - by right.
Qed.

(** ** Inversion of an accepted transition *)
Lemma check_list_ok name l b :
  check_list name l b = Ok tt →
  (b = false → l ≠ []) ∧ (length l ≤ MAX_ENTRIES)%nat ∧ StronglySorted bytes_lt l.
Proof.
  unfold check_list. destruct (bool_decide (l = []) && negb b) eqn:He; [discriminate|].
  destruct (Nat.ltb_spec MAX_ENTRIES (length l)); [discriminate|].
  destruct (strictly_ascending l) eqn:Ha; [|discriminate]. intros _. split; [|split; [done|]].
  - intros -> ->. done.
  - by apply strictly_ascending_spec.
Qed.

Definition shape_ok (s : AccessSet) : Prop :=
  StronglySorted bytes_lt (set_entries s) ∧ StronglySorted bytes_lt (set_authorizers s)
  ∧ StronglySorted bytes_lt (set_recovery s) ∧ StronglySorted bytes_lt (set_pending s)
  ∧ set_authorizers s ≠ [] ∧ set_recovery s ≠ []
  ∧ match set_quorum s with
    | Some q => StronglySorted bytes_lt (keys q) ∧ 1 ≤ threshold q ≤ Z.of_nat (length (keys q))
    | None => True
    end.

Lemma check_shape_ok s :
  match set_quorum s with Some q => 0 ≤ threshold q | None => True end →
  check_shape s = Ok tt → shape_ok s.
Proof.
  unfold check_shape, check_quorum, shape_ok. intros Ht Hc. repeat (apply result_bind_ok in Hc as ([] & ? & Hc)).
  repeat match goal with H : check_list _ _ _ = Ok tt |- _ => apply check_list_ok in H; destruct_and! H end.
  split_and!; try naive_solver.
  destruct (set_quorum s) as [q|]; [|done].
  apply result_bind_ok in Hc as ([] & Hk & Hc). apply map_err_ok, check_list_ok in Hk as (_ & _ & Hk).
  split; [done|]. destruct (Z.eqb_spec (threshold q) 0); [discriminate|]. simpl in Hc.
  destruct (Z.ltb_spec (Z.of_nat (length (keys q))) (threshold q)); [discriminate|]. lia.
Qed.

Lemma principals_are_entries_ok s salt :
  principals_are_entries s salt = Ok tt →
  ∀ key, key ∈ set_authorizers s ∨ key ∈ set_recovery s → entry_hash key salt ∈ set_entries s.
Proof.
  unfold principals_are_entries. case_match eqn:E; [|discriminate]. intros _ key Hk.
  rewrite forallb_forall in E. apply contains_true, E, list_elem_of_In. set_solver.
Qed.

Lemma judge_inv c p salt pr rr sa ef :
  judge c (Some p) salt pr rr = Ok (sa, ef) →
  check_shape c = Ok tt ∧ principals_are_entries c salt = Ok tt
  ∧ set_version c = prior_version p + 1 ∧ set_prev_hash c = prior_digest p
  ∧ set_workspace c = prior_workspace p ∧ signature_verifies c = true
  ∧ (set_signer c ∈ prior_authorizers p
       ∧ judge_ordinary c p salt pr (absent_from (set_entries c) (prior_entries p)) = Ok (sa, ef)
     ∨ set_signer c ∉ prior_authorizers p ∧ set_signer c ∈ prior_recovery p
       ∧ judge_rotation c p salt (absent_from (set_entries c) (prior_entries p)) rr = Ok (sa, ef)).
Proof.
  unfold judge. intros Hj. apply result_bind_ok in Hj as ([] & Hs & Hj).
  apply result_bind_ok in Hj as ([] & Hp & Hj).
  destruct (Z.eqb_spec (set_version c) (prior_version p + 1)); [|discriminate]. cbn [negb] in Hj.
  case_bool_decide; [|discriminate]. cbn [negb] in Hj.
  case_bool_decide; [|discriminate]. cbn [negb] in Hj.
  destruct (signature_verifies c); [|by repeat case_match].
  split_and!; try done. cbn [negb] in Hj.
  destruct (contains (prior_authorizers p) (set_signer c)) eqn:Ha; cbn [negb andb] in Hj.
  - left. split; [by apply contains_true | done].
  - right. destruct (contains (prior_recovery p) (set_signer c)) eqn:Hr; [|discriminate].
    split_and!; [by apply contains_false | by apply contains_true | done].
Qed.

Lemma absent_from_spec other items x : x ∈ absent_from other items ↔ x ∈ items ∧ x ∉ other.
Proof. unfold absent_from. rewrite list_elem_of_filter. naive_solver. Qed.
Lemma all_in_spec other items : all_in other items = true ↔ ∀ x, x ∈ items → x ∈ other.
Proof.
  unfold all_in. rewrite forallb_forall. setoid_rewrite <- list_elem_of_In.
  by setoid_rewrite contains_true.
Qed.
Lemma any_in_spec other items : any_in other items = true ↔ ∃ x, x ∈ items ∧ x ∈ other.
Proof.
  unfold any_in. rewrite existsb_exists. setoid_rewrite <- list_elem_of_In.
  by setoid_rewrite contains_true.
Qed.

(** What a probationary signer's publication must satisfy. *)
Definition contained (c : AccessSet) (p : Prior) (probation : Probation) : Prop :=
  (∀ e, e ∈ prior_entries p → e ∈ set_entries c ∨ e ∈ probation_pending probation)
  ∧ (∀ k, k ∈ set_authorizers c ↔ k ∈ prior_authorizers p).

Lemma judge_ordinary_inv c p salt pr sa ef :
  judge_ordinary c p salt pr (absent_from (set_entries c) (prior_entries p)) = Ok (sa, ef) →
  sa = Authorizer
  ∧ ef = mkEffects None (map device (List.filter (clears_one c p salt pr) pr))
           (absent_from (set_entries c) (prior_entries p))
  ∧ (∃ k, k ∈ prior_authorizers p ∧ k ∈ set_authorizers c)
  ∧ (∃ k, k ∈ prior_recovery p ∧ k ∈ set_recovery c)
  ∧ set_pending c = []
  ∧ (∀ probation, find_probation pr (set_signer c) = Some probation → contained c p probation).
Proof.
  unfold judge_ordinary.
  destruct (any_in (set_authorizers c) (prior_authorizers p)) eqn:Ha; [|discriminate].
  destruct (any_in (set_recovery c) (prior_recovery p)) eqn:Hr; [|discriminate].
  apply any_in_spec in Ha. apply any_in_spec in Hr.
  case_bool_decide; [|discriminate]. cbn [negb]. intros Hj.
  apply result_bind_ok in Hj as ([] & Hp & Hj). injection Hj as <- <-. split_and!; try done.
  intros probation Hf. rewrite Hf in Hp.
  destruct (all_in (probation_pending probation) _) eqn:E1; [|discriminate].
  destruct (all_in (set_authorizers c) (prior_authorizers p)) eqn:E2; [|discriminate].
  destruct (all_in (prior_authorizers p) (set_authorizers c)) eqn:E3; [|discriminate].
  rewrite all_in_spec in E1, E2, E3. split; [|naive_solver].
  intros e He. destruct (decide (e ∈ set_entries c)); [by left | right].
  apply E1, absent_from_spec. done.
Qed.

(** What a recovery rotation may change. *)
Record rotates (c : AccessSet) (p : Prior) (salt replacement successor : list byte) : Prop := {
  rotates_new_device : replacement ∉ prior_authorizers p;
  rotates_authorizers : ∀ k, k ∈ set_authorizers c ↔ k ∈ prior_authorizers p ∨ k = replacement;
  rotates_recovery :
    ∀ k, k ∈ set_recovery c ↔ (k ∈ prior_recovery p ∧ k ≠ set_signer c) ∨ k = successor;
  rotates_adds : ∀ e, e ∈ set_entries c → e ∈ prior_entries p
    ∨ e = entry_hash replacement salt ∨ e = entry_hash successor salt;
  rotates_removes : ∀ e, e ∈ prior_entries p → e ∈ set_entries c ∨ e = entry_hash (set_signer c) salt;
  rotates_pins : ∀ e, e ∈ set_pending c →
    e ∈ prior_entries p ∧ ∀ k, k ∈ prior_authorizers p → entry_hash k salt ≠ e
}.

Lemma check_pins_ok p salt pins :
  check_pins p salt pins = Ok tt →
  ∀ e, e ∈ pins → e ∈ prior_entries p ∧ ∀ k, k ∈ prior_authorizers p → entry_hash k salt ≠ e.
Proof.
  induction pins as [|x pins IH]; simpl; intros Hc e He; [by apply elem_of_nil in He|].
  destruct (contains (prior_entries p) x) eqn:Hx; [|discriminate]. cbn [negb] in Hc.
  destruct (existsb _ _) eqn:Hex; [discriminate|].
  apply elem_of_cons in He as [->|He]; [|by apply IH].
  split; [by apply contains_true|]. intros k Hk Heq.
  assert (existsb (λ key, bool_decide (entry_hash key salt = x)) (prior_authorizers p) = true);
    [|congruence].
  apply existsb_exists. exists k. split; [by apply list_elem_of_In | by apply bool_decide_eq_true].
Qed.

Lemma absent_singleton other items x :
  absent_from other items = [x] → x ∈ items ∧ x ∉ other ∧ ∀ y, y ∈ items → y ∈ other ∨ y = x.
Proof.
  intros Ha. assert (x ∈ absent_from other items) as Hx by (rewrite Ha; by left).
  apply absent_from_spec in Hx as [? ?]. split_and!; [done..|]. intros y Hy.
  destruct (decide (y ∈ other)); [by left | right].
  assert (y ∈ absent_from other items) as Hy' by (by apply absent_from_spec).
  rewrite Ha in Hy'. by apply list_elem_of_singleton in Hy'.
Qed.

Lemma judge_rotation_inv c p salt rr sa ef :
  judge_rotation c p salt (absent_from (set_entries c) (prior_entries p)) rr = Ok (sa, ef) →
  rr = false ∧ sa = Recovery ∧ ∃ replacement successor,
    rotates c p salt replacement successor
    ∧ ef = mkEffects (Some (mkProbation replacement (set_version c) (set_pending c))) []
             (absent_from (set_entries c) (prior_entries p)).
Proof.
  unfold judge_rotation. destruct rr; [discriminate|].
  destruct (contains (set_recovery c) (set_signer c)) eqn:Hown; [discriminate|].
  apply contains_false in Hown.
  destruct (absent_from (prior_recovery p) (set_recovery c)) as [|successor []] eqn:Hsucc; [done| |done].
  case_bool_decide as Hdrop; [|discriminate]. cbn [negb].
  destruct (forallb _ _) eqn:Hrem; [|discriminate]. cbn [negb].
  destruct (absent_from (prior_authorizers p) (set_authorizers c)) as [|replacement []] eqn:Hrep;
    [done| |done].
  case_bool_decide as Hadd; [|discriminate]. cbn [negb].
  destruct (all_in (set_authorizers c) (prior_authorizers p)) eqn:Hkeep; [|discriminate]. cbn [negb].
  intros Hj. apply result_bind_ok in Hj as ([] & Hpins & Hj). injection Hj as <- <-.
  split_and!; [done..|]. exists replacement, successor. split; [|done].
  apply absent_singleton in Hsucc as (Hs1 & Hs2 & Hs3).
  apply absent_singleton in Hdrop as (Hd1 & _ & Hd3).
  apply absent_singleton in Hrep as (Hr1 & Hr2 & Hr3).
  rewrite all_in_spec in Hkeep. rewrite forallb_forall in Hrem. split.
  - done.
  - intros k. split; [by apply Hr3|]. intros [Hk| ->]; [by apply Hkeep | done].
  - intros k. split.
    + intros Hk. destruct (Hs3 k Hk) as [| ->]; [left | by right]. split; [done | by intros ->].
    + intros [[Hk Hne]| ->]; [|done]. by destruct (Hd3 k Hk).
  - intros e He. destruct (decide (e ∈ prior_entries p)) as [|Hn]; [by left | right].
    assert (e ∈ bytes_dedup (bytes_sort [entry_hash successor salt; entry_hash replacement salt])) as Hin.
    { rewrite <- Hadd. by apply elem_of_bytes_sort_dedup, absent_from_spec. }
    rewrite elem_of_bytes_sort_dedup in Hin. set_solver.
  - intros e He. destruct (decide (e ∈ set_entries c)) as [|Hn]; [by left | right].
    specialize (Hrem e). rewrite bool_decide_eq_true in Hrem.
    apply Hrem, list_elem_of_In, absent_from_spec. done.
  - by apply check_pins_ok.
Qed.

(** An accepted publication continues the chain: it is the next version,
    names the prior digest and the prior workspace, verifies under its signer,
    and that signer held the authority it is recorded under. Every principal
    it names is one of its entries, its lists are canonical, an authorizer of
    the prior set keeps its authority and a recovery principal remains. *)
Theorem judge_accepts_next c p salt pr rr sa ef :
  access_wf c → prior_authorizers p ≠ [] → judge c (Some p) salt pr rr = Ok (sa, ef) →
  set_version c = prior_version p + 1 ∧ set_prev_hash c = prior_digest p
  ∧ set_workspace c = prior_workspace p
  ∧ verify (set_signer c) (digest_input c) (set_sig c) = true
  ∧ match sa with
    | Authorizer => set_signer c ∈ prior_authorizers p
    | Recovery => set_signer c ∈ prior_recovery p ∧ set_signer c ∉ prior_authorizers p
    end
  ∧ shape_ok c
  ∧ (∀ k, k ∈ set_authorizers c ∨ k ∈ set_recovery c → entry_hash k salt ∈ set_entries c)
  ∧ (∃ k, k ∈ prior_authorizers p ∧ k ∈ set_authorizers c)
  ∧ ∃ k, k ∈ set_recovery c.
Proof.
  intros Hwf Hne Hj. apply judge_inv in Hj as (Hs & Hp & Hv & Hh & Hw & Hsig & Hbranch).
  assert (shape_ok c) as Hshape.
  { apply check_shape_ok; [|done]. unfold access_wf in Hwf. destruct_and! Hwf.
    destruct (set_quorum c) as [q|]; [|done]. simpl in *.
    match goal with H : quorum_wf q |- _ => destruct H as [[? _] _] end. done. }
  assert (∃ k, k ∈ set_recovery c) as Hrec.
  { destruct Hshape as (_ & _ & _ & _ & _ & Hr & _). destruct (set_recovery c) as [|k l]; [done|].
    exists k. by left. }
  pose proof (principals_are_entries_ok c salt Hp) as Hpe.
  destruct Hbranch as [[Hin Ho]|(Hnin & Hin & Hr)].
  - apply judge_ordinary_inv in Ho as (-> & -> & Hk & _). by split_and!.
  - apply judge_rotation_inv in Hr as (_ & -> & rep & suc & Hrot & _). split_and!; try done.
    destruct (prior_authorizers p) as [|k l] eqn:Hpa; [done|]. exists k. split; [by left|].
    apply (rotates_authorizers _ _ _ _ _ Hrot). rewrite Hpa. left. by left.
Qed.

(** C16. A recovery rotation changes exactly one thing: it adds one new
    authorizer, on probation from this version with the pinned removals, and
    replaces the signer's own recovery key. No authorizer and no other
    recovery principal leaves, no entry leaves but the signer's, none arrives
    but the device's and the successor's, and no prior authorizer is pinned. *)
Theorem rotation_is_narrow c p salt pr rr ef :
  judge c (Some p) salt pr rr = Ok (Recovery, ef) →
  rr = false ∧ set_signer c ∈ prior_recovery p ∧ ∃ replacement successor,
    rotates c p salt replacement successor
    ∧ opens_probation ef = Some (mkProbation replacement (set_version c) (set_pending c))
    ∧ clears_probation ef = []
    ∧ (∀ e, e ∈ removed ef → e = entry_hash (set_signer c) salt).
Proof.
  intros Hj. apply judge_inv in Hj as (_ & _ & _ & _ & _ & _ & [[_ Ho]|(_ & Hin & Hr)]).
  { apply judge_ordinary_inv in Ho as (? & _). done. }
  apply judge_rotation_inv in Hr as (-> & _ & rep & suc & Hrot & ->).
  split_and!; try done. exists rep, suc. split_and!; try done.
  intros e He. cbn [removed] in He. apply absent_from_spec in He as [He Hn].
  by destruct (rotates_removes _ _ _ _ _ Hrot e He).
Qed.

(** C15. Probation contains its device: a publication signed by a probationary
    authorizer leaves the authorizers exactly as they were, removes only the
    entries its rotation pinned, and does not clear its own probation; any
    other probation it clears is confirmed by the quorum of the prior set. *)
Theorem probation_contains c p salt pr rr sa ef probation :
  find_probation pr (set_signer c) = Some probation → set_signer c ∈ prior_authorizers p →
  judge c (Some p) salt pr rr = Ok (sa, ef) →
  (∀ k, k ∈ set_authorizers c ↔ k ∈ prior_authorizers p)
  ∧ (∀ e, e ∈ removed ef → e ∈ probation_pending probation)
  ∧ opens_probation ef = None
  ∧ set_signer c ∉ clears_probation ef
  ∧ (∀ d, d ∈ clears_probation ef → ∃ q,
       prior_quorum p = Some q ∧ quorum_confirms c q (entry_hash d salt) = true).
Proof.
  intros Hf Hin Hj. apply judge_inv in Hj as (_ & _ & _ & _ & _ & _ & [[_ Ho]|(Hn & _)]); [|done].
  apply judge_ordinary_inv in Ho as (_ & -> & _ & _ & _ & Hc). specialize (Hc _ Hf) as [Hrem Hauth].
  assert (∀ d, d ∈ map device (List.filter (clears_one c p salt pr) pr) →
    d ≠ set_signer c ∧ ∃ q, prior_quorum p = Some q ∧ quorum_confirms c q (entry_hash d salt) = true)
    as Hclears.
  { intros d Hd. apply list_elem_of_fmap in Hd as (pb & -> & Hd).
    apply list_elem_of_In, filter_In in Hd as [_ Hone]. unfold clears_one in Hone.
    case_bool_decide as Hs; [done|]. split; [done|].
    destruct (negb (contains _ _)); [done|].
    assert (existsb (λ other, bool_decide (device other = set_signer c)) pr = true) as Hex.
    { apply find_some in Hf as [Hpr Hdev]. apply existsb_exists. eauto. }
    rewrite Hex in Hone. cbn [negb] in Hone. destruct (prior_quorum p) as [q|]; [|done]. by exists q. }
  cbn [opens_probation clears_probation removed]. split_and!; [done| |done| |].
  - intros e He. apply absent_from_spec in He as [He Hn]. by destruct (Hrem e He).
  - intros Hs. by destruct (Hclears _ Hs).
  - intros d Hd. by apply Hclears.
Qed.

Lemma quorum_seen_inv configured message carried seen :
  NoDup seen → (∀ k, k ∈ seen → k ∈ keys configured) →
  NoDup (quorum_seen configured message carried seen)
  ∧ ∀ k, k ∈ quorum_seen configured message carried seen →
      k ∈ seen ∨ k ∈ keys configured
        ∧ ∃ s, s ∈ carried ∧ qs_key s = k ∧ verify k message (qs_sig s) = true.
Proof.
  revert seen. induction carried as [|s carried IH]; intros seen Hnd Hsub; simpl; [auto|].
  assert (NoDup (quorum_seen configured message carried seen)
    ∧ ∀ k, k ∈ quorum_seen configured message carried seen →
      k ∈ seen ∨ k ∈ keys configured
        ∧ ∃ s', s' ∈ s :: carried ∧ qs_key s' = k ∧ verify k message (qs_sig s') = true) as Hskip.
  { destruct (IH seen Hnd Hsub) as [? Hk]. split; [done|]. intros k Hin.
    destruct (Hk k Hin) as [|(? & s' & ? & ?)]; [by left|]. right. split; [done|].
    exists s'. split; [by right | done]. }
  destruct (contains (keys configured) (qs_key s)) eqn:Hc; [|done]. cbn [negb].
  destruct (contains seen (qs_key s)) eqn:Hs; [done|].
  destruct (verify (qs_key s) message (qs_sig s)) eqn:Hv; [|done].
  apply contains_true in Hc. apply contains_false in Hs.
  destruct (IH (seen ++ [qs_key s])) as [Hnd' Hk].
  - apply NoDup_app. split_and!; [done | set_solver | apply NoDup_singleton].
  - set_solver.
  - split; [done|]. intros k Hin. destruct (Hk k Hin) as [Hin'|(? & s' & ? & ?)].
    + apply elem_of_app in Hin' as [|Hin']; [by left|]. apply list_elem_of_singleton in Hin' as ->.
      right. split; [done|]. exists s. split; [by left | done].
    + right. split; [done|]. exists s'. split; [by right | done].
Qed.

(** A quorum confirmation is what it says: at least [threshold] distinct
    configured keys each signed the message that binds this set's digest to
    the device's entry. Repeating one signature does not count twice. *)
Theorem quorum_confirms_sound c q entry :
  quorum_confirms c q entry = true →
  ∃ carried signers, set_quorum c = Some carried ∧ NoDup signers
    ∧ threshold q ≤ Z.of_nat (length signers)
    ∧ ∀ k, k ∈ signers → k ∈ keys q ∧ ∃ s, s ∈ sigs carried ∧ qs_key s = k
        ∧ verify k (quorum_message (digest c) entry) (qs_sig s) = true.
Proof.
  unfold quorum_confirms. destruct (set_quorum c) as [carried|]; [|discriminate].
  case_bool_decide; [discriminate|]. intros Hle.
  destruct (quorum_seen_inv q (quorum_message (digest c) entry) (sigs carried) []) as [Hnd Hk];
    [constructor | set_solver |].
  exists carried, (quorum_seen q (quorum_message (digest c) entry) (sigs carried) []).
  split_and!; [done | done | by apply Z.leb_le|]. intros k Hin.
  destruct (Hk k Hin) as [Hn|]; [by apply elem_of_nil in Hn | done].
Qed.
End theorems.
