(* ===== verification/Genesis.v ===== *)
(** * Consuming the genesis key

    Models [consume_in_tx] of [backend/wealdrelay/src/invite/genesis.rs], the
    part of an access-set publication that retires the bootstrap invite, its
    reservation, its sealed handoff and the genesis private key, and writes
    entry zero of the transparency log. The tables are those of migrations
    [0003_invites.sql] and [0011_bootstrap_handoff.sql], for one workspace. *)

From Stdlib Require Import ZArith Lia.
From stdpp Require Import base tactics numbers strings gmap fin_maps list.
From S2P Require Import Prelude Cbor Push Frame Crypto Access.

Open Scope Z_scope.

Inductive InviteState : Type := LiveInvite | RevokedInvite | SpentInvite.
#[global] Instance InviteState_eq_dec : EqDecision InviteState.
Proof. solve_decision. Defined.

Record InviteRow : Type := mkInviteRow { inv_state : InviteState; inv_uses : Z; inv_remaining : Z }.
Record ReservationRow : Type := mkReservationRow {
  rsv_device_hash : list byte; rsv_consumed_at : option Z; rsv_released_at : option Z
}.
Record GenesisRow : Type := mkGenesisRow {
  gen_public : list byte; gen_secret : option (list byte); gen_token : list byte; gen_redeemed_at : option Z
}.
Record LogEntry : Type := mkLogEntry {
  log_kind : string; log_body : list byte; log_prev_hash : list byte; log_entry_hash : list byte
}.

(** One workspace's bootstrap tables. [row_order] is which of several matching
    rows the database returns first: the query orders nothing. *)
Record Bootstrap : Type := mkBootstrap {
  genesis_row : option GenesisRow;
  reservations : gmap (list byte * list byte) ReservationRow;
  invites : gmap (list byte) InviteRow;
  handoff : option (list byte);
  transparency : gmap Z LogEntry;
  row_order : nat
}.

Definition GENESIS_KIND : string := "genesis".
Definition no_bootstrap : Bootstrap := mkBootstrap None ∅ ∅ None ∅ 0.

Section genesis.
Context `{Blake3}.

Definition genesis_fingerprint (public_key : list byte) : list byte :=
  blake3 (ascii_bytes "weald genesis v1" ++ public_key).
Definition log_chain (prev_hash body : list byte) : list byte := blake3 (prev_hash ++ body).
Definition entry_zero_body (genesis_public trust_root device_hash : list byte) : list byte :=
  array [bytes genesis_public; bytes (genesis_fingerprint genesis_public); bytes trust_root; bytes device_hash].

(** The reservations of one token that still hold their seat. *)
Definition seats (b : Bootstrap) (token : list byte) : list (list byte * ReservationRow) :=
  omap (λ e : (list byte * list byte) * ReservationRow,
    match rsv_consumed_at e.2, rsv_released_at e.2 with
    | None, None => if bool_decide (e.1.1 = token) then Some (e.1.2, e.2) else None
    | _, _ => None
    end) (map_to_list (reservations b)).

(** The joined row [fetch_optional] answers with: some seat when there is one. *)
Definition joined_row (b : Bootstrap) : option (GenesisRow * (list byte * ReservationRow)) :=
  match genesis_row b with
  | None => None
  | Some g =>
      match gen_secret g with
      | None => None
      | Some _ =>
          match seats b (gen_token g) with
          | [] => None
          | first :: rest => Some (g, default first ((first :: rest) !! row_order b))
          end
      end
  end.

(** [None] is a database error, which fails the whole publication: the insert
    of entry zero has no [on conflict] arm. *)
Definition consume_in_tx (b : Bootstrap) (now : Z) (candidate : AccessSet) (salt : list byte) :
    option (bool * Bootstrap) :=
  if negb (set_version candidate =? 0) then Some (false, b)
  else
    match set_authorizers candidate with
    | [root] =>
        match joined_row b with
        | None => Some (false, b)
        | Some (g, (nonce, r)) =>
            if negb (bool_decide (entry_hash root salt = rsv_device_hash r)) then Some (false, b)
            else
              let body := entry_zero_body (gen_public g) root (rsv_device_hash r) in
              let prev_hash := replicate 32 Byte.x00 in
              match transparency b !! 0 with
              | Some _ => None
              | None =>
                  Some (true, mkBootstrap
                    (Some (mkGenesisRow (gen_public g) None (gen_token g) (Some now)))
                    (alter (λ r, mkReservationRow (rsv_device_hash r) (Some now) (rsv_released_at r))
                       (gen_token g, nonce) (reservations b))
                    (alter (λ i, mkInviteRow SpentInvite (inv_uses i) 0) (gen_token g) (invites b))
                    None
                    (<[0 := mkLogEntry GENESIS_KIND body prev_hash (log_chain prev_hash body)]> (transparency b))
                    (row_order b))
              end
        end
    | _ => Some (false, b)
    end.

Lemma joined_row_seat b g nonce r :
  joined_row b = Some (g, (nonce, r)) →
  genesis_row b = Some g ∧ is_Some (gen_secret g)
  ∧ reservations b !! (gen_token g, nonce) = Some r ∧ rsv_consumed_at r = None ∧ rsv_released_at r = None.
Proof.
  unfold joined_row. destruct (genesis_row b) as [g'|]; [|done]. destruct (gen_secret g') eqn:Hs; [|done].
  destruct (seats b (gen_token g')) as [|x rest] eqn:Hseats; [done|]. intros [= <- Hd].
  assert ((nonce, r) ∈ seats b (gen_token g')) as Hin.
  { rewrite Hseats, <- Hd. destruct ((x :: rest) !! row_order b) as [y|] eqn:Hy; cbn; [|by left].
    by eapply list_elem_of_lookup_2. }
  unfold seats in Hin. apply list_elem_of_omap in Hin as ([[t n] r'] & Hin & Hm). apply elem_of_map_to_list in Hin.
  cbn in Hm. destruct (rsv_consumed_at r') eqn:Hc; [done|]. destruct (rsv_released_at r') eqn:Hr; [done|].
  case_bool_decide as Ht; [|done]. injection Hm as <- <-. subst t. by split_and!.
Qed.

(** The genesis key has one death. When a publication consumes it, the set
    is the first one and its sole authorizer is the device the seat was held
    for; the reservation, the invite, the sealed handoff and the secret key all
    end in the same transaction, and entry zero of the log names that device and
    chains from the zero hash. No later publication consumes it again. *)
Theorem genesis_consumed_once b now candidate salt b' :
  consume_in_tx b now candidate salt = Some (true, b') →
  (∃ g root nonce r,
     genesis_row b = Some g ∧ is_Some (gen_secret g)
     ∧ set_version candidate = 0 ∧ set_authorizers candidate = [root]
     ∧ reservations b !! (gen_token g, nonce) = Some r ∧ rsv_consumed_at r = None
     ∧ entry_hash root salt = rsv_device_hash r
     ∧ reservations b' !! (gen_token g, nonce) = Some (mkReservationRow (rsv_device_hash r) (Some now) None)
     ∧ (∀ i, invites b !! gen_token g = Some i → invites b' !! gen_token g = Some (mkInviteRow SpentInvite (inv_uses i) 0))
     ∧ transparency b' !! 0 = Some (let body := entry_zero_body (gen_public g) root (rsv_device_hash r) in
         mkLogEntry GENESIS_KIND body (replicate 32 Byte.x00) (log_chain (replicate 32 Byte.x00) body)))
  ∧ (∃ g', genesis_row b' = Some g' ∧ gen_secret g' = None) ∧ handoff b' = None
  ∧ ∀ now' candidate' salt', consume_in_tx b' now' candidate' salt' = Some (false, b').
Proof.
  unfold consume_in_tx at 1. destruct (Z.eqb_spec (set_version candidate) 0) as [Hv|]; [|done]. cbn [negb].
  destruct (set_authorizers candidate) as [|root [|? ?]] eqn:Ha; [done| |done].
  destruct (joined_row b) as [[g [nonce r]]|] eqn:Hj; [|done].
  apply joined_row_seat in Hj as (Hg & Hs & Hr & Hc & Hrel). case_bool_decide as He; [|done]. cbn [negb].
  destruct (transparency b !! 0); [done|]. intros [= <-]. cbn [reservations invites transparency genesis_row handoff].
  split_and!.
  - exists g, root, nonce, r. split_and!; try done.
    + by rewrite lookup_alter_eq, Hr, <- Hrel.
    + intros i Hi. by rewrite lookup_alter_eq, Hi.
    + by rewrite lookup_insert_eq.
  - by eexists.
  - done.
  - intros now' c' s'. unfold consume_in_tx, joined_row. cbn [genesis_row gen_secret].
    destruct (negb _); [done|]. by destruct (set_authorizers c') as [|? [|? ?]].
Qed.
End genesis.

(** ** A concrete founding *)
Section founding.
#[local] Instance founding_blake3 : Blake3 := poly_digest.

Definition founder : list byte := replicate 32 Byte.x01.
Definition founding_salt : list byte := replicate 32 Byte.x07.
Definition bootstrap_token : list byte := replicate 16 Byte.x02.
Definition founding_set : AccessSet :=
  mkAccessSet (replicate 32 Byte.x09) 0 (replicate 32 Byte.x00) 0 [] [founder] [] None [] founder [].
Definition reserved : Bootstrap :=
  mkBootstrap (Some (mkGenesisRow (replicate 32 Byte.x03) (Some (replicate 32 Byte.x04)) bootstrap_token None))
    {[ (bootstrap_token, replicate 16 Byte.x05) := mkReservationRow (entry_hash founder founding_salt) None None ]}
    {[ bootstrap_token := mkInviteRow LiveInvite 1 0 ]} (Some [Byte.x06]) ∅ 0.
Definition consumed_bootstrap : Bootstrap :=
  match consume_in_tx reserved 5 founding_set founding_salt with Some (_, b) => b | None => reserved end.

Lemma genesis_consumed_witness :
  handoff consumed_bootstrap = None
  ∧ consume_in_tx consumed_bootstrap 6 founding_set founding_salt = Some (false, consumed_bootstrap).
Proof.
  assert (consume_in_tx reserved 5 founding_set founding_salt = Some (true, consumed_bootstrap)) as Hc.
  { unfold consumed_bootstrap.
    assert (match consume_in_tx reserved 5 founding_set founding_salt with Some (t, _) => t | None => false end = true) as Ht
      by by vm_compute.
    destruct (consume_in_tx reserved 5 founding_set founding_salt) as [[[] b]|]; done. }
  split.
  - exact (proj1 (proj2 (proj2 (genesis_consumed_once reserved 5 founding_set founding_salt consumed_bootstrap Hc)))).
  - exact (proj2 (proj2 (proj2 (genesis_consumed_once reserved 5 founding_set founding_salt consumed_bootstrap Hc))) 6
      founding_set founding_salt).
Defined.
End founding.
