(* ===== verification/AccessChain.v ===== *)
(** * The access-set chain: the tables, publication and admission

    Models the transaction half of [backend/wealdrelay/src/access/store.rs]
    for one workspace: the tables of migration [0002_access_set.sql], the reads
    a publication is judged against, the transaction that applies it, the
    admission question [AUTH] asks, and the interleaving of concurrent
    publications. The database itself is modelled by its tables; its failures
    (an unreachable server) are not. *)

From Stdlib Require Import ZArith Lia.
From stdpp Require Import base tactics numbers list gmap sets sorting.
From S2P Require Import Prelude Cbor Crypto Push Frame Access Genesis.

Open Scope Z_scope.

Definition ROTATION_WINDOW_HOURS : Z := 24.

Inductive StoreError : Type :=
| Database
| Refused (error : AccessError).

Record SetRow : Type := mkSetRow {
  row_digest : list byte;
  row_prev_hash : list byte;
  row_issued_at : Z;
  row_signer : list byte;
  row_signed_as : SignedAs;
  row_body : list byte
}.

Record ProbationRow : Type := mkProbationRow {
  row_introduced_at : Z;
  row_pending : list (list byte);
  row_cleared : option Z
}.

Record Grant : Type := mkGrant { expires_at : Z; seen_version : option Z; voided : bool }.

(** One workspace's rows. Times are in milliseconds. *)
Record Db : Type := mkDb {
  db_salt : list byte;
  set_rows : gmap Z SetRow;
  entry_rows : gset (Z * list byte);
  authorizer_rows : gset (Z * list byte);
  recovery_rows : gset (Z * list byte);
  quorum_key_rows : gset (Z * list byte);
  quorum_rows : gmap Z Z;
  rotation_rows : list (list byte * Z);
  probation_rows : gmap (list byte) ProbationRow;
  grant_rows : gmap (list byte) Grant;
  push_rows : gmap (list byte) (list byte);
  bootstrap : Bootstrap
}.

(** ** Reads *)

(** [order by version desc limit 1]. *)
Definition head_version (db : Db) : option Z :=
  foldr (λ v acc, Some (match acc with Some w => Z.max v w | None => v end)) None
    (elements (dom (set_rows db))).

(** The values of one version, in [bytea] order. *)
Definition rows_at (v : Z) (rows : gset (Z * list byte)) : gset (list byte) :=
  set_map snd (filter (λ r, fst r = v) rows).
Definition sorted_at (v : Z) (rows : gset (Z * list byte)) : list (list byte) :=
  btree_to_list (rows_at v rows).

Definition read_prior (db : Db) : result StoreError (option Prior) :=
  match head_version db with
  | None => Ok None
  | Some v =>
      match set_rows db !! v with
      | None => Err Database
      | Some row =>
          let? body := map_err (λ _, Database) (access_decode (row_body row)) in
          let quorum :=
            match quorum_rows db !! v with
            | Some t => Some (mkRecoveryQuorum t (sorted_at v (quorum_key_rows db)) [])
            | None => None
            end in
          Ok (Some (mkPrior (set_workspace body) v (row_digest row)
                (sorted_at v (entry_rows db)) (sorted_at v (authorizer_rows db))
                (sorted_at v (recovery_rows db)) quorum))
      end
  end.

(** Uncleared probations, ordered by device. *)
Definition read_probations (db : Db) : list Probation :=
  omap (λ d,
      match probation_rows db !! d with
      | Some row =>
          match row_cleared row with
          | None => Some (mkProbation d (row_introduced_at row) (row_pending row))
          | Some _ => None
          end
      | None => None
      end)
    (btree_to_list (dom (probation_rows db))).

Definition hours_ms (h : Z) : Z := h * 3600000.

Definition rotated_recently (db : Db) (now : Z) (recovery_key : list byte) : bool :=
  existsb (λ '(k, at_), bool_decide (k = recovery_key) && (now - hours_ms ROTATION_WINDOW_HOURS <? at_))
    (rotation_rows db).

(** ** The transaction *)
Record Accepted : Type := mkAccepted {
  acc_version : Z;
  acc_digest : list byte;
  acc_signed_as : SignedAs;
  disconnect : list (list byte);
  opened_probation : option (list byte);
  cleared_probation : list (list byte)
}.

Definition with_version (v : Z) (keys : list (list byte)) : gset (Z * list byte) :=
  list_to_set (map (λ k, (v, k)) keys).

(** The upsert of the probation a rotation opens. *)
Definition open_probation (p : option Probation) (rows : gmap (list byte) ProbationRow)
    : gmap (list byte) ProbationRow :=
  match p with
  | Some p => <[device p := mkProbationRow (introduced_at p) (probation_pending p) None]> rows
  | None => rows
  end.

Definition clear_probation (v : Z) (rows : gmap (list byte) ProbationRow) (d : list byte)
    : gmap (list byte) ProbationRow :=
  match rows !! d with
  | Some row =>
      match row_cleared row with
      | None => <[d := mkProbationRow (row_introduced_at row) (row_pending row) (Some v)]> rows
      | Some _ => rows
      end
  | None => rows
  end.

(** Both halves of the implicit rule, in their order: seen, then void. *)
Definition mark_seen (v : Z) (entries : list (list byte)) (hash : list byte) (g : Grant) : Grant :=
  if negb (voided g) && contains entries hash then mkGrant (expires_at g) (Some v) (voided g) else g.
Definition void_dropped (entries : list (list byte)) (hash : list byte) (g : Grant) : Grant :=
  match seen_version g with
  | Some _ =>
      if negb (voided g) && negb (contains entries hash)
      then mkGrant (expires_at g) (seen_version g) true else g
  | None => g
  end.

Section store.
Context `{Blake3, Ed25519}.

(** The insert that is the compare-and-swap conflicts on the version or on the
    unique digest. *)
Definition insert_conflicts (db : Db) (v : Z) (d : list byte) : bool :=
  bool_decide (is_Some (set_rows db !! v))
  || bool_decide (d ∈ map (λ r : Z * SetRow, row_digest (snd r)) (map_to_list (set_rows db))).

(** [version as i64] followed by the check constraint on the column. *)
Definition version_fits (v : Z) : bool := v <=? I64_MAX.

Definition commit (db : Db) (now : Z) (c : AccessSet) (body : list byte) (sa : SignedAs)
    (ef : Effects) : result StoreError (Db * Accepted) :=
  let v := set_version c in
  let d := digest c in
  if negb (version_fits v) then Err Database
  else if insert_conflicts db v d then Err (Refused (VersionNotNext v v))
  else
    match consume_in_tx (bootstrap db) now c (db_salt db) with
    | None => Err Database
    | Some (_, bootstrap') =>
    let db' := mkDb
      (db_salt db)
      (<[v := mkSetRow d (set_prev_hash c) (set_issued_at c) (set_signer c) sa body]> (set_rows db))
      (with_version v (set_entries c) ∪ entry_rows db)
      (with_version v (set_authorizers c) ∪ authorizer_rows db)
      (with_version v (set_recovery c) ∪ recovery_rows db)
      (match set_quorum c with
       | Some q => with_version v (keys q) ∪ quorum_key_rows db
       | None => quorum_key_rows db
       end)
      (match set_quorum c with
       | Some q => <[v := threshold q]> (quorum_rows db)
       | None => quorum_rows db
       end)
      (match sa with
       | Recovery => (set_signer c, now) :: rotation_rows db
       | Authorizer => rotation_rows db
       end)
      (fold_left (clear_probation v) (clears_probation ef)
         (open_probation (opens_probation ef) (probation_rows db)))
      (map_imap (λ h g, Some (void_dropped (set_entries c) h (mark_seen v (set_entries c) h g)))
         (grant_rows db))
      (filter (λ r, snd r ∉ removed ef) (push_rows db))
      bootstrap' in
    Ok (db', mkAccepted v d sa (removed ef) (device <$> opens_probation ef) (clears_probation ef))
    end.

(** What a publication is judged against. *)
Definition recently (db : Db) (now : Z) (prior : option Prior) (c : AccessSet) : bool :=
  match prior with
  | Some p => if contains (prior_recovery p) (set_signer c)
              then rotated_recently db now (set_signer c) else false
  | None => false
  end.

Definition publish (db : Db) (now : Z) (c : AccessSet) (body : list byte)
    : result StoreError (Db * Accepted) :=
  let? prior := read_prior db in
  let probations := read_probations db in
  let? judged := map_err Refused
    (judge c prior (db_salt db) probations (recently db now prior c)) in
  let (sa, ef) := judged in
  commit db now c body sa ef.

(** ** The question [AUTH] asks *)
Inductive Admission : Type := InSet | Provisional | AdmissionRefused.

Definition admits (db : Db) (now : Z) (device_key : list byte) : Admission :=
  let hash := entry_hash device_key (db_salt db) in
  let present :=
    match head_version db with
    | Some v => bool_decide ((v, hash) ∈ entry_rows db)
    | None => false
    end in
  if present then InSet
  else
    match grant_rows db !! hash with
    | Some g => if negb (voided g) && (now <? expires_at g) then Provisional else AdmissionRefused
    | None => AdmissionRefused
    end.
End store.

(** ** The chain invariant *)

(** Versions are contiguous from zero, each row names its predecessor's
    digest, and no row of another table names a version that was not
    accepted. *)
Record chain_ok (db : Db) : Prop := {
  chain_contiguous : ∀ v, is_Some (set_rows db !! v) →
    0 ≤ v ∧ ∀ w, 0 ≤ w ≤ v → is_Some (set_rows db !! w);
  chain_linked : ∀ v r, set_rows db !! (v + 1) = Some r → 0 ≤ v →
    ∃ r', set_rows db !! v = Some r' ∧ row_prev_hash r = row_digest r';
  chain_entries : ∀ v k, (v, k) ∈ entry_rows db → is_Some (set_rows db !! v);
  chain_authorizers : ∀ v k, (v, k) ∈ authorizer_rows db → is_Some (set_rows db !! v);
  chain_recovery : ∀ v k, (v, k) ∈ recovery_rows db → is_Some (set_rows db !! v);
  chain_quorum_keys : ∀ v k, (v, k) ∈ quorum_key_rows db → is_Some (set_rows db !! v);
  chain_quorum : ∀ v, is_Some (quorum_rows db !! v) → is_Some (set_rows db !! v)
}.

Lemma head_version_spec db :
  match head_version db with
  | Some v => is_Some (set_rows db !! v) ∧ ∀ w, is_Some (set_rows db !! w) → w ≤ v
  | None => set_rows db = ∅
  end.
Proof.
  assert (∀ l : list Z, match foldr (λ v acc, Some (match acc with Some w => Z.max v w | None => v end)) None l with
    | Some v => v ∈ l ∧ ∀ w, w ∈ l → w ≤ v | None => l = [] end) as Hfold.
  { induction l as [|x l IH]; simpl; [done|].
    destruct (foldr _ None l) as [w|]; [|subst l].
    - destruct IH as [Hin Hmax]. split.
      + destruct (Z.max_spec x w) as [[_ ->]|[_ ->]]; set_solver.
      + intros y [->|Hy]%elem_of_cons; [lia|]. specialize (Hmax y Hy). lia.
    - split; [by left|]. intros y Hy. apply list_elem_of_singleton in Hy. lia. }
  specialize (Hfold (elements (dom (set_rows db)))). unfold head_version.
  destruct (foldr _ None _) as [v|].
  - setoid_rewrite elem_of_elements in Hfold. setoid_rewrite elem_of_dom in Hfold. done.
  - apply elements_empty_inv in Hfold. apply leibniz_equiv in Hfold. by apply dom_empty_inv_L.
Qed.

Lemma elem_of_with_version v k w l : (w, k) ∈ with_version v l ↔ w = v ∧ k ∈ l.
Proof.
  unfold with_version. rewrite elem_of_list_to_set, list_elem_of_fmap. naive_solver.
Qed.

Lemma sorted_at_insert v l rows :
  StronglySorted bytes_lt l → (∀ k, (v, k) ∉ rows) →
  sorted_at v (with_version v l ∪ rows) = l.
Proof.
  intros Hs Hnone. apply strictly_sorted_ext; [apply btree_to_list_sorted | done|].
  intros k. unfold sorted_at. rewrite elem_of_btree_to_list. unfold rows_at.
  rewrite elem_of_map. split.
  - intros ([w k'] & -> & Hin). apply elem_of_filter in Hin as [Hw Hin]. simpl in *. subst w.
    apply elem_of_union in Hin as [Hin|Hin]; [|by destruct (Hnone k')].
    by apply elem_of_with_version in Hin as [_ ?].
  - intros Hk. exists (v, k). split; [done|]. apply elem_of_filter. split; [done|].
    apply elem_of_union_l, elem_of_with_version. done.
Qed.

(** The prior state a set becomes once accepted. *)
Section chain.
Context `{Blake3, Ed25519}.

Definition prior_of (c : AccessSet) : Prior :=
  mkPrior (set_workspace c) (set_version c) (digest c) (set_entries c) (set_authorizers c)
    (set_recovery c) (strip_quorum <$> set_quorum c).

Definition next_version (db : Db) : Z :=
  match head_version db with Some v => v + 1 | None => 0 end.

Lemma commit_inv db now c body sa ef db' a :
  commit db now c body sa ef = Ok (db', a) →
  set_version c ≤ I64_MAX ∧ set_rows db !! set_version c = None
  ∧ set_rows db' = <[set_version c := mkSetRow (digest c) (set_prev_hash c) (set_issued_at c)
                       (set_signer c) sa body]> (set_rows db)
  ∧ entry_rows db' = with_version (set_version c) (set_entries c) ∪ entry_rows db
  ∧ authorizer_rows db' = with_version (set_version c) (set_authorizers c) ∪ authorizer_rows db
  ∧ recovery_rows db' = with_version (set_version c) (set_recovery c) ∪ recovery_rows db
  ∧ quorum_key_rows db' = (match set_quorum c with
       | Some q => with_version (set_version c) (keys q) ∪ quorum_key_rows db
       | None => quorum_key_rows db end)
  ∧ quorum_rows db' = (match set_quorum c with
       | Some q => <[set_version c := threshold q]> (quorum_rows db)
       | None => quorum_rows db end)
  ∧ db_salt db' = db_salt db.
Proof.
  unfold commit. destruct (version_fits (set_version c)) eqn:Hf; [|discriminate]. cbn [negb].
  unfold insert_conflicts. case_bool_decide as Hc; [discriminate|]. cbn [orb].
  case_bool_decide; [discriminate|]. destruct (consume_in_tx _ _ _ _) as [[? ?]|]; [|discriminate].
  intros [= <- <-]. cbn. split_and!; try done.
  - by apply Z.leb_le in Hf.
  - by apply eq_None_not_Some.
Qed.

(** What the judgement of a publication says about its place in the chain. *)
Definition follows (db : Db) (c : AccessSet) : Prop :=
  set_version c = next_version db
  ∧ ∀ v, head_version db = Some v →
      ∃ r, set_rows db !! v = Some r ∧ set_prev_hash c = row_digest r.

Lemma read_prior_inv db p :
  read_prior db = Ok p →
  match p with
  | Some p => head_version db = Some (prior_version p)
      ∧ ∃ r, set_rows db !! prior_version p = Some r ∧ prior_digest p = row_digest r
  | None => head_version db = None
  end.
Proof.
  unfold read_prior. destruct (head_version db) as [v|]; [|by intros [= <-]].
  destruct (set_rows db !! v) as [row|] eqn:Hr; [|discriminate].
  intros Hb. apply result_bind_ok in Hb as (s & _ & [= <-]). cbn [prior_version prior_digest].
  split; [done|]. by exists row.
Qed.

Lemma judge_follows db c p pr rr sa ef :
  read_prior db = Ok p → judge c p (db_salt db) pr rr = Ok (sa, ef) → follows db c.
Proof.
  intros Hp Hj. apply read_prior_inv in Hp. unfold follows, next_version. destruct p as [p|].
  - destruct Hp as (-> & r & Hr & Hd).
    apply judge_inv in Hj as (_ & _ & -> & Hh & _). split; [done|]. intros v [= <-].
    exists r. split; [done|]. congruence.
  - rewrite Hp. split; [|done]. unfold judge in Hj. apply result_bind_ok in Hj as ([] & _ & Hj).
    apply result_bind_ok in Hj as ([] & _ & Hj). unfold judge_genesis in Hj.
    by destruct (Z.eqb_spec (set_version c) 0).
Qed.

Lemma next_version_spec db :
  chain_ok db → 0 ≤ next_version db ∧ set_rows db !! next_version db = None
  ∧ ∀ w, 0 ≤ w < next_version db ↔ is_Some (set_rows db !! w).
Proof.
  intros Hc. unfold next_version. pose proof (head_version_spec db) as Hh.
  destruct (head_version db) as [v|].
  - destruct Hh as [Hv Hmax]. destruct (chain_contiguous _ Hc v Hv) as [Hge0 Hall].
    split; [lia|]. split.
    + apply eq_None_not_Some. intros Hs. specialize (Hmax _ Hs). lia.
    + intros w. split; [intros Hw; apply Hall; lia|]. intros Hw. specialize (Hmax w Hw).
      destruct (chain_contiguous _ Hc w Hw). lia.
  - rewrite Hh. split; [lia|]. split; [done|]. intros w. rewrite lookup_empty. split; [lia|].
    intros Hs. by apply is_Some_None in Hs.
Qed.

Lemma is_Some_insert_or {A} (m : gmap Z A) v x w :
  is_Some (<[v := x]> m !! w) ↔ w = v ∨ is_Some (m !! w).
Proof.
  destruct (decide (w = v)) as [->|Hne].
  - rewrite lookup_insert_eq. naive_solver.
  - rewrite lookup_insert_ne by done. naive_solver.
Qed.

Lemma commit_head db now c body sa ef db' a :
  chain_ok db → set_version c = next_version db → commit db now c body sa ef = Ok (db', a) →
  head_version db' = Some (set_version c).
Proof.
  intros Hc Hv Hcm. apply commit_inv in Hcm as (_ & _ & Hrows & _).
  pose proof (head_version_spec db') as Hh. destruct (next_version_spec db Hc) as (Hge0 & _ & Hall).
  destruct (head_version db') as [v|]; rewrite Hrows in Hh.
  - setoid_rewrite is_Some_insert_or in Hh. destruct Hh as [Hin Hmax]. f_equal. pose proof (Hmax (set_version c) (or_introl eq_refl)) as Hge.
    destruct Hin as [|Hin]; [done|]. apply Hall in Hin. lia.
  - exfalso. apply (f_equal (.!! set_version c)) in Hh.
    by rewrite lookup_insert_eq, lookup_empty in Hh.
Qed.

Lemma commit_chain_ok db now c body sa ef db' a :
  chain_ok db → follows db c → commit db now c body sa ef = Ok (db', a) → chain_ok db'.
Proof.
  intros Hc [Hv Hlink] Hcm. destruct (next_version_spec db Hc) as (Hge0 & Hnone & Hall).
  apply commit_inv in Hcm as (_ & _ & Hrows & He & Ha & Hr & Hqk & Hq & _).
  destruct Hc as [Hcont Hlk Hce Hca Hcr Hcq Hct]. rewrite <- Hv in *.
  assert (∀ (rows : gset (Z * list byte)) l, (∀ v k, (v, k) ∈ rows → is_Some (set_rows db !! v)) →
    ∀ v k, (v, k) ∈ with_version (set_version c) l ∪ rows → is_Some (set_rows db' !! v)) as Hrow.
  { intros rows l Hrs v k Hin. rewrite Hrows. apply is_Some_insert_or.
    apply elem_of_union in Hin as [Hin|Hin]; [left | right; by eapply Hrs].
    by apply elem_of_with_version in Hin as [-> _]. }
  split.
  - intros v Hs. rewrite Hrows in *. apply is_Some_insert_or in Hs.
    assert (0 ≤ v ≤ set_version c) as Hb.
    { destruct Hs as [->|Hs]; [lia|]. apply Hall in Hs. lia. }
    split; [lia|]. intros w Hw. apply is_Some_insert_or.
    destruct (decide (w = set_version c)); [by left | right]. apply Hall. lia.
  - intros v r Hs Hpos. rewrite Hrows in *. destruct (decide (v + 1 = set_version c)) as [E|E].
    + rewrite E, lookup_insert_eq in Hs. injection Hs as <-. cbn [row_prev_hash].
      unfold next_version in Hv. destruct (head_version db) as [h|] eqn:Hh; [|lia].
      assert (h = v) as -> by lia. destruct (Hlink v eq_refl) as (r' & Hr' & Hd).
      exists r'. rewrite lookup_insert_ne by lia. done.
    + rewrite lookup_insert_ne in Hs by done. destruct (Hlk v r Hs Hpos) as (r' & Hr' & Hd).
      exists r'. destruct (decide (v = set_version c)) as [->|].
      * by rewrite Hnone in Hr'.
      * by rewrite lookup_insert_ne.
  - rewrite He. by apply Hrow.
  - rewrite Ha. by apply Hrow.
  - rewrite Hr. by apply Hrow.
  - rewrite Hqk. destruct (set_quorum c); [by apply Hrow|]. intros v k Hin.
    rewrite Hrows. apply is_Some_insert_or. right. by eapply Hcq.
  - intros v Hs. rewrite Hrows. apply is_Some_insert_or. rewrite Hq in Hs.
    destruct (set_quorum c); [|right; by apply Hct].
    apply is_Some_insert_or in Hs as [->|Hs]; [by left | right; by apply Hct].
Qed.

(** Writing a set and reading it back gives the set: what the next publication
    is judged against is what was accepted. *)
Lemma commit_read_prior db now c body sa ef db' a :
  chain_ok db → set_version c = next_version db → shape_ok c → access_decode body = Ok c →
  commit db now c body sa ef = Ok (db', a) → read_prior db' = Ok (Some (prior_of c)).
Proof.
  intros Hc Hv Hs Hb Hcm. unfold read_prior. rewrite (commit_head _ _ _ _ _ _ _ _ Hc Hv Hcm).
  destruct (next_version_spec db Hc) as (_ & Hnone & _). rewrite <- Hv in Hnone.
  apply commit_inv in Hcm as (_ & _ & -> & -> & -> & -> & -> & -> & _).
  rewrite lookup_insert_eq. cbn [row_body row_digest]. rewrite Hb. cbn [map_err result_bind].
  assert (∀ rows : gset (Z * list byte), (∀ v k, (v, k) ∈ rows → is_Some (set_rows db !! v)) →
    ∀ k, (set_version c, k) ∉ rows) as Hfresh.
  { intros rows Hrs k Hin. apply Hrs in Hin. rewrite Hnone in Hin. by apply is_Some_None in Hin. }
  destruct Hs as (S1 & S2 & S3 & _ & _ & _ & S4). destruct Hc as [_ _ Hce Hca Hcr Hcq Hct].
  rewrite !sorted_at_insert by (done || by apply Hfresh). unfold prior_of. do 3 f_equal.
  destruct (set_quorum c) as [q|]; cbn [fmap option_fmap option_map].
  - rewrite lookup_insert_eq. f_equal. unfold strip_quorum. f_equal.
    apply sorted_at_insert; [apply S4 | by apply Hfresh].
  - destruct (quorum_rows db !! set_version c) eqn:Hq; [|done].
    specialize (Hct (set_version c) ltac:(by eexists)). rewrite Hnone in Hct. by apply is_Some_None in Hct.
Qed.

(** ** Concurrent publications

    [publish] reads in three queries and then runs one transaction, and other
    publications run between them. A task is a publication in flight, with
    what it has read so far. *)
Inductive Task : Type :=
| Started (c : AccessSet) (body : list byte)
| ReadPrior (c : AccessSet) (body : list byte) (prior : option Prior)
| ReadProbations (c : AccessSet) (body : list byte) (prior : option Prior) (pr : list Probation)
| ReadAll (c : AccessSet) (body : list byte) (prior : option Prior) (pr : list Probation)
    (recent : bool).

Record World : Type := mkWorld { w_db : Db; w_tasks : gmap nat Task }.

Inductive step : World → World → Prop :=
| step_start w i c body :
    w_tasks w !! i = None → access_decode body = Ok c →
    step w (mkWorld (w_db w) (<[i := Started c body]> (w_tasks w)))
| step_prior w i c body prior :
    w_tasks w !! i = Some (Started c body) → read_prior (w_db w) = Ok prior →
    step w (mkWorld (w_db w) (<[i := ReadPrior c body prior]> (w_tasks w)))
| step_probations w i c body prior :
    w_tasks w !! i = Some (ReadPrior c body prior) →
    step w (mkWorld (w_db w)
              (<[i := ReadProbations c body prior (read_probations (w_db w))]> (w_tasks w)))
| step_recent w i c body prior pr now :
    w_tasks w !! i = Some (ReadProbations c body prior pr) →
    step w (mkWorld (w_db w)
              (<[i := ReadAll c body prior pr (recently (w_db w) now prior c)]> (w_tasks w)))
| step_commit w i c body prior pr recent sa ef now db' a :
    w_tasks w !! i = Some (ReadAll c body prior pr recent) →
    judge c prior (db_salt (w_db w)) pr recent = Ok (sa, ef) →
    commit (w_db w) now c body sa ef = Ok (db', a) →
    step w (mkWorld db' (delete i (w_tasks w)))
| step_end w i :
    step w (mkWorld (w_db w) (delete i (w_tasks w))).

Definition fresh_db (salt : list byte) : Db := mkDb salt ∅ ∅ ∅ ∅ ∅ ∅ [] ∅ ∅ ∅ no_bootstrap.

Inductive reachable (salt : list byte) : World → Prop :=
| reach_init : reachable salt (mkWorld (fresh_db salt) ∅)
| reach_step w w' : reachable salt w → step w w' → reachable salt w'.

(** The version a task will publish at, by what it read. *)
Definition task_next (prior : option Prior) : Z :=
  match prior with Some p => prior_version p + 1 | None => 0 end.

(** What was read stays what is there, as long as nobody else has published. *)
Definition prior_current (db : Db) (prior : option Prior) : Prop :=
  0 ≤ task_next prior ≤ next_version db
  ∧ (task_next prior = next_version db → read_prior db = Ok prior).

Definition task_ok (db : Db) (t : Task) : Prop :=
  match t with
  | Started c body => access_decode body = Ok c
  | ReadPrior c body prior => access_decode body = Ok c ∧ prior_current db prior
  | ReadProbations c body prior pr =>
      access_decode body = Ok c ∧ prior_current db prior
      ∧ (task_next prior = next_version db → pr = read_probations db)
  | ReadAll c body prior pr recent =>
      access_decode body = Ok c ∧ prior_current db prior
      ∧ (task_next prior = next_version db → pr = read_probations db)
      ∧ (task_next prior = next_version db → ∃ now, recent = recently db now prior c)
  end.

Definition world_ok (w : World) : Prop :=
  chain_ok (w_db w) ∧ map_Forall (λ _ t, task_ok (w_db w) t) (w_tasks w).

Lemma read_prior_next db prior :
  chain_ok db → read_prior db = Ok prior → task_next prior = next_version db ∧ 0 ≤ task_next prior.
Proof.
  intros Hc Hp. apply read_prior_inv in Hp. destruct (next_version_spec db Hc) as (Hge & _).
  unfold next_version in *. destruct prior as [p|]; [destruct Hp as [Hh _] | rename Hp into Hh];
    rewrite Hh in *; simpl in *; split; (done || lia).
Qed.

Lemma next_after_commit db now c body sa ef db' a :
  chain_ok db → set_version c = next_version db → commit db now c body sa ef = Ok (db', a) →
  next_version db' = next_version db + 1.
Proof.
  intros Hc Hv Hcm. unfold next_version at 1. rewrite (commit_head _ _ _ _ _ _ _ _ Hc Hv Hcm). lia.
Qed.

Lemma task_ok_stale db db' t :
  next_version db' = next_version db + 1 → task_ok db t → task_ok db' t.
Proof.
  intros Hn. unfold task_ok, prior_current.
  destruct t; intros; destruct_and?; split_and?; first [done | lia | intros; exfalso; lia].
Qed.

(** A task whose commit succeeds publishes the next version of the database it
    commits into: what it read is still current. *)
Lemma commit_is_current db now c body prior pr recent sa ef db' a :
  chain_ok db → task_ok db (ReadAll c body prior pr recent) →
  judge c prior (db_salt db) pr recent = Ok (sa, ef) →
  commit db now c body sa ef = Ok (db', a) →
  task_next prior = next_version db ∧ set_version c = next_version db.
Proof.
  intros Hc (_ & [Hb _] & _) Hj Hcm.
  assert (set_version c = task_next prior) as Hv.
  { destruct prior as [p|].
    - apply judge_inv in Hj as (_ & _ & -> & _). done.
    - unfold judge in Hj. apply result_bind_ok in Hj as ([] & _ & Hj).
      apply result_bind_ok in Hj as ([] & _ & Hj). unfold judge_genesis in Hj.
      by destruct (Z.eqb_spec (set_version c) 0). }
  apply commit_inv in Hcm as (_ & Hnone & _). destruct (next_version_spec db Hc) as (_ & _ & Hall).
  assert (¬ task_next prior < next_version db) as Hlt.
  { intros Hlt. assert (is_Some (set_rows db !! set_version c)) as Hs by (apply Hall; lia).
    rewrite Hnone in Hs. by apply is_Some_None in Hs. }
  lia.
Qed.

Lemma decoded_shape body c : access_decode body = Ok c → check_shape c = Ok tt → shape_ok c.
Proof.
  intros Hb Hs. apply check_shape_ok; [|done].
  apply (parse_canonical Encoding access_wf access_encode _) in Hb as [Hwf _].
  unfold access_wf in Hwf. destruct_and! Hwf. destruct (set_quorum c) as [q|]; [|done]. simpl in *.
  match goal with H : quorum_wf q |- _ => destruct H as [[? _] _] end. done.
Qed.

Lemma judge_shape c prior salt pr rr r : judge c prior salt pr rr = Ok r → check_shape c = Ok tt.
Proof. unfold judge. intros Hj. by apply result_bind_ok in Hj as ([] & Hs & _). Qed.

Lemma step_world_ok w w' : world_ok w → step w w' → world_ok w'.
Proof.
  intros [Hc Ht] Hs.
  assert (∀ i t, w_tasks w !! i = Some t → task_ok (w_db w) t) as Ht' by (intros i t; apply Ht).
  destruct Hs as [w i c body Hi Hb|w i c body prior Hi Hp|w i c body prior Hi|w i c body prior pr now Hi
                 |w i c body prior pr recent sa ef now db' a Hi Hj Hcm|w i]; cbn [w_db w_tasks] in *.
  - split; [done|]. by apply map_Forall_insert_2.
  - split; [done|]. apply map_Forall_insert_2; [|done]. apply Ht' in Hi. simpl in Hi.
    destruct (read_prior_next _ _ Hc Hp) as [Hn Hge]. split; [done|]. unfold prior_current. rewrite Hn in *. cbn [w_db]. split; [lia | done].
  - split; [done|]. apply map_Forall_insert_2; [|done]. apply Ht' in Hi as [? ?]. by split_and!.
  - split; [done|]. apply map_Forall_insert_2; [|done]. apply Ht' in Hi as (? & ? & ?).
    split_and!; try done. by eexists.
  - pose proof (Ht' _ _ Hi) as Hok. destruct (commit_is_current _ _ _ _ _ _ _ _ _ _ _ Hc Hok Hj Hcm) as [Hn Hv].
    destruct Hok as (Hb & [_ Hp] & _). specialize (Hp Hn).
    split.
    + eapply commit_chain_ok; [done | by eapply judge_follows | done].
    + apply map_Forall_delete. intros j t Hjt. eapply task_ok_stale; [|by apply (Ht' j)].
      by eapply next_after_commit.
  - split; [done|]. by apply map_Forall_delete.
Qed.

Lemma fresh_chain_ok salt : chain_ok (fresh_db salt).
Proof.
  split; cbn; intros *; try (rewrite lookup_empty; intros Hs; by apply is_Some_None in Hs);
    try (intros Hs; by apply elem_of_empty in Hs). by rewrite lookup_empty.
Qed.

Lemma reachable_world_ok salt w : reachable salt w → world_ok w.
Proof.
  induction 1 as [|w w' _ IH Hs]; [|by eapply step_world_ok].
  split; [apply fresh_chain_ok|]. apply map_Forall_empty.
Qed.

(** C1. Concurrent publications serialize. Whatever ran between a task's
    reads and its transaction, a commit that succeeds was judged against the
    state it is applied to; the versions stay contiguous with each set naming
    its predecessor's digest; and the next publication is judged against
    exactly the set just accepted. *)
Theorem publications_serialize salt w i c body prior pr recent sa ef now db' a :
  reachable salt w →
  w_tasks w !! i = Some (ReadAll c body prior pr recent) →
  judge c prior (db_salt (w_db w)) pr recent = Ok (sa, ef) →
  commit (w_db w) now c body sa ef = Ok (db', a) →
  read_prior (w_db w) = Ok prior ∧ pr = read_probations (w_db w)
  ∧ (∃ read_at, recent = recently (w_db w) read_at prior c)
  ∧ chain_ok db' ∧ read_prior db' = Ok (Some (prior_of c)).
Proof.
  intros Hr Hi Hj Hcm. apply reachable_world_ok in Hr as [Hc Ht].
  assert (task_ok (w_db w) (ReadAll c body prior pr recent)) as Hok by (by apply (Ht i)).
  destruct (commit_is_current _ _ _ _ _ _ _ _ _ _ _ Hc Hok Hj Hcm) as [Hn Hv].
  destruct Hok as (Hb & [_ Hp] & Hpr & Hrec). split_and!; auto.
  - eapply commit_chain_ok; [done | by eapply judge_follows; auto | done].
  - eapply commit_read_prior; [done | done | | done | done].
    eapply decoded_shape; [done|]. by eapply judge_shape.
Qed.

(** After an accepted publication, [AUTH] admits exactly the devices the
    set names, and besides them only holders of a live grant that no accepted
    set ever carried: a device the set drops loses its entry, its seen grant
    and its push registrations in the same transaction. *)
Theorem admits_after_publish db now c body db' a :
  chain_ok db → access_decode body = Ok c → publish db now c body = Ok (db', a) →
  (∀ later key, admits db' later key = InSet ↔ entry_hash key (db_salt db) ∈ set_entries c)
  ∧ (∀ later key, admits db' later key = Provisional →
       ∃ g, grant_rows db !! entry_hash key (db_salt db) = Some g
         ∧ voided g = false ∧ seen_version g = None ∧ later < expires_at g)
  ∧ (∀ handle e, push_rows db' !! handle = Some e → e ∉ disconnect a).
Proof.
  intros Hc Hb Hp. unfold publish in Hp. apply result_bind_ok in Hp as (prior & Hrp & Hp).
  apply result_bind_ok in Hp as ([sa ef] & Hj & Hcm). apply map_err_ok in Hj.
  destruct (judge_follows _ _ _ _ _ _ _ Hrp Hj) as [Hv _].
  pose proof (commit_head _ _ _ _ _ _ _ _ Hc Hv Hcm) as Hh.
  destruct (next_version_spec db Hc) as (_ & Hnone & _). rewrite <- Hv in Hnone.
  pose proof (commit_inv _ _ _ _ _ _ _ _ Hcm) as (_ & _ & _ & He & _ & _ & _ & _ & Hsalt).
  assert (∀ k, (set_version c, k) ∈ entry_rows db' ↔ k ∈ set_entries c) as Hent.
  { intros k. rewrite He, elem_of_union, elem_of_with_version. split; [|naive_solver].
    intros [[_ ?]|Hin]; [done|]. apply (chain_entries _ Hc) in Hin. rewrite Hnone in Hin.
    by apply is_Some_None in Hin. }
  assert (∀ later key, admits db' later key =
    if bool_decide (entry_hash key (db_salt db) ∈ set_entries c) then InSet
    else match grant_rows db' !! entry_hash key (db_salt db) with
         | Some g => if negb (voided g) && (later <? expires_at g) then Provisional else AdmissionRefused
         | None => AdmissionRefused end) as Hadm.
  { intros later key. unfold admits. rewrite Hh, Hsalt.
    by rewrite (bool_decide_ext _ _ (Hent (entry_hash key (db_salt db)))). }
  assert (grant_rows db' = map_imap (λ h g, Some (void_dropped (set_entries c) h
      (mark_seen (set_version c) (set_entries c) h g))) (grant_rows db)
    ∧ push_rows db' = filter (λ r, snd r ∉ removed ef) (push_rows db) ∧ disconnect a = removed ef)
    as (Hg & Hpush & Hd).
  { unfold commit in Hcm. destruct (version_fits _); [|discriminate]. cbn [negb] in Hcm.
    destruct (insert_conflicts _ _ _); [discriminate|].
    destruct (consume_in_tx _ _ _ _) as [[? ?]|]; [|discriminate]. by injection Hcm as <- <-. }
  split_and!.
  - intros later key. rewrite Hadm. case_bool_decide; [done|]. split; [|done]. by repeat case_match.
  - intros later key. rewrite Hadm, Hg, map_lookup_imap. case_bool_decide as Hin; [done|].
    destruct (grant_rows db !! _) as [g|]; cbn [mbind option_bind]; [|done].
    assert (mark_seen (set_version c) (set_entries c) (entry_hash key (db_salt db)) g = g) as ->.
    { unfold mark_seen. rewrite (proj2 (contains_false _ _) Hin). by rewrite andb_false_r. }
    unfold void_dropped. rewrite (proj2 (contains_false _ _) Hin). cbn [negb].
    destruct (seen_version g) eqn:Hsv.
    + destruct (voided g) eqn:Hvd; cbn [negb andb]; [by rewrite Hvd | done].
    + destruct (voided g) eqn:Hvd; [done|]. cbn [negb andb].
      destruct (Z.ltb_spec later (expires_at g)); [|done]. intros _. by exists g.
  - intros handle e. rewrite Hpush, Hd. intros Hf. apply map_lookup_filter_Some in Hf as [_ Hf]. done.
Qed.
End chain.

(** ** Concrete chains *)

#[local] Instance chain_blake3 : Blake3 := poly_digest.
#[local] Instance chain_ed25519 : Ed25519 := toy_verify.

Definition key_n (n : Z) : list byte := replicate 31 Byte.x00 ++ [byte_of_Z n].
Definition example_salt : list byte := replicate 32 Byte.x07.
Definition example_workspace : list byte := replicate 32 Byte.x09.
Definition hashed (keys : list (list byte)) : list (list byte) :=
  bytes_dedup (bytes_sort (map (λ k, entry_hash k example_salt) keys)).

(** A set with its entries derived from its principals, signed by [signer]. *)
Definition sign_set (s : AccessSet) : AccessSet :=
  mkAccessSet (set_workspace s) (set_version s) (set_prev_hash s) (set_issued_at s)
    (set_entries s) (set_authorizers s) (set_recovery s) (set_quorum s) (set_pending s)
    (set_signer s) (toy_sign (set_signer s) (digest_input s)).
Definition make_set (v : Z) (prev : list byte) (authorizers recovery : list (list byte))
    (quorum : option RecoveryQuorum) (signer : list byte) : AccessSet :=
  sign_set (mkAccessSet example_workspace v prev 0 (hashed (authorizers ++ recovery)) authorizers recovery
    quorum [] signer []).

Definition owner := key_n 1.
Definition phrase := key_n 2.
Definition thief := key_n 3.
Definition phrase2 := key_n 4.
Definition thief2 := key_n 5.
Definition phrase3 := key_n 6.
Definition thief_quorum_key := key_n 7.
Definition thief_quorum (sigs : list QuorumSignature) : option RecoveryQuorum :=
  Some (mkRecoveryQuorum 1 [thief_quorum_key] sigs).

Definition genesis : AccessSet := make_set 0 (replicate 32 Byte.x00) [owner] [phrase] None owner.

(** A rotation by the phrase that also installs a quorum of its own. *)
Definition rotation1 : AccessSet :=
  make_set 1 (digest genesis) [owner; thief] [phrase2] (thief_quorum []) phrase.
(** A second rotation, by the successor phrase. *)
Definition rotation2 : AccessSet :=
  make_set 2 (digest rotation1) [owner; thief; thief2] [phrase3] (thief_quorum []) phrase2.
(** The first probationary device publishes the same set, with the installed
    quorum confirming the second. *)
Definition confirm : AccessSet :=
  let s := make_set 3 (digest rotation2) [owner; thief; thief2] [phrase3] (thief_quorum []) thief in
  let sig := toy_sign thief_quorum_key (quorum_message (digest s) (entry_hash thief2 example_salt)) in
  make_set 3 (digest rotation2) [owner; thief; thief2] [phrase3]
    (thief_quorum [mkQuorumSignature thief_quorum_key sig]) thief.
(** The second device, no longer on probation, drops the owner. *)
Definition eviction : AccessSet :=
  make_set 4 (digest confirm) [thief; thief2] [phrase3] None thief2.

Fixpoint publish_all (db : Db) (now : Z) (sets : list AccessSet) : result StoreError Db :=
  match sets with
  | [] => Ok db
  | s :: rest =>
      let? r := publish db now s (access_encode s) in
      publish_all (fst r) now rest
  end.

Definition takeover : list AccessSet := [rotation1; rotation2; confirm; eviction].

(** The holder of one recovery phrase takes the workspace. Neither the
    rotation nor the probationary publication constrains the recovery quorum,
    so the phrase installs its own, uses it to clear the probation of the
    second device it introduces, and removes the owner: four publications at
    one instant, none of them signed by the owner. *)
Theorem phrase_takes_over :
  Forall (λ s, set_signer s ≠ owner) takeover
  ∧ match publish_all (fresh_db example_salt) 0 [genesis] with
    | Ok db =>
        admits db 0 owner = InSet
        ∧ match publish_all db 0 takeover with
          | Ok db' => admits db' 0 owner = AdmissionRefused
          | Err _ => False
          end
    | Err _ => False
    end.
Proof. split; [by repeat constructor | by vm_compute]. Qed.

(** ** Instances of the theorems on these chains *)
Definition effects_of (r : result AccessError (SignedAs * Effects)) : Effects :=
  match r with Ok (_, ef) => ef | Err _ => default_effects end.

Lemma decoded_wf s : access_decode (access_encode s) = Ok s → access_wf s.
Proof. intros Hd. by apply access_decode_exact in Hd as [Hwf _]. Qed.

Lemma genesis_wf : access_wf genesis.
Proof. apply decoded_wf. by vm_compute. Qed.
Lemma rotation1_wf : access_wf rotation1.
Proof. apply decoded_wf. by vm_compute. Qed.

Definition judged_rotation := judge rotation1 (Some (prior_of genesis)) example_salt [] false.
Definition judged_confirm :=
  judge confirm (Some (prior_of rotation2)) example_salt
    [mkProbation thief 1 []; mkProbation thief2 2 []] false.

Lemma digest_binds_witness :
  unsigned genesis = unsigned genesis ∨ collision (digest_input genesis) (digest_input genesis).
Proof. exact (digest_binds_transition genesis genesis genesis_wf genesis_wf eq_refl). Defined.

Lemma judge_accepts_next_witness : set_version rotation1 = prior_version (prior_of genesis) + 1.
Proof.
  refine (proj1 (judge_accepts_next rotation1 (prior_of genesis) example_salt [] false Recovery
    (effects_of judged_rotation) rotation1_wf _ _)); [by vm_compute | by vm_compute].
Defined.

Lemma rotation_is_narrow_witness : set_signer rotation1 ∈ prior_recovery (prior_of genesis).
Proof.
  refine (proj1 (proj2 (rotation_is_narrow rotation1 (prior_of genesis) example_salt [] false
    (effects_of judged_rotation) _))). by vm_compute.
Defined.

Lemma probation_contains_witness : set_signer confirm ∉ clears_probation (effects_of judged_confirm).
Proof.
  refine (proj1 (proj2 (proj2 (proj2 (probation_contains confirm (prior_of rotation2) example_salt
    [mkProbation thief 1 []; mkProbation thief2 2 []] false Authorizer (effects_of judged_confirm)
    (mkProbation thief 1 []) _ _ _))))); [by vm_compute | by repeat constructor | by vm_compute].
Defined.

Lemma quorum_confirms_witness :
  ∃ carried signers, set_quorum confirm = Some carried ∧ NoDup signers
    ∧ 1 ≤ Z.of_nat (length signers)
    ∧ ∀ k, k ∈ signers → k ∈ [thief_quorum_key] ∧ ∃ s, s ∈ sigs carried ∧ qs_key s = k
        ∧ verify k (quorum_message (digest confirm) (entry_hash thief2 example_salt)) (qs_sig s) = true.
Proof.
  refine (quorum_confirms_sound confirm (mkRecoveryQuorum 1 [thief_quorum_key] [])
    (entry_hash thief2 example_salt) _). by vm_compute.
Defined.

Definition genesis_body : list byte := access_encode genesis.
Definition empty_world : World := mkWorld (fresh_db example_salt) ∅.
Definition ready_world : World :=
  mkWorld (fresh_db example_salt) {[ 0%nat := ReadAll genesis genesis_body None [] false ]}.

Lemma genesis_decodes : access_decode genesis_body = Ok genesis.
Proof. by vm_compute. Qed.

Lemma ready_reachable : reachable example_salt ready_world.
Proof.
  pose proof (reach_init example_salt) as H0.
  eapply reach_step in H0; [|apply (step_start _ 0 genesis genesis_body); [done | apply genesis_decodes]].
  eapply reach_step in H0; [|by apply (step_prior _ 0 genesis genesis_body None)].
  eapply reach_step in H0; [|by apply (step_probations _ 0 genesis genesis_body None)].
  eapply reach_step in H0; [|by apply (step_recent _ 0 genesis genesis_body None [] 0)].
  exact H0.
Qed.

Definition genesis_commit := commit (fresh_db example_salt) 0 genesis genesis_body Authorizer default_effects.
Definition genesis_publish := publish (fresh_db example_salt) 0 genesis genesis_body.
Definition db_of (r : result StoreError (Db * Accepted)) : Db :=
  match r with Ok (db, _) => db | Err _ => fresh_db [] end.
Definition accepted_of (r : result StoreError (Db * Accepted)) : Accepted :=
  match r with Ok (_, a) => a | Err _ => mkAccepted 0 [] Authorizer [] None [] end.

Lemma ok_parts r : is_ok r = true → r = Ok (db_of r, accepted_of r).
Proof. by destruct r as [[]|]. Qed.

Lemma publications_serialize_witness :
  read_prior (db_of genesis_commit) = Ok (Some (prior_of genesis)).
Proof.
  refine (proj2 (proj2 (proj2 (proj2 (publications_serialize example_salt ready_world 0 genesis genesis_body
    None [] false Authorizer default_effects 0 (db_of genesis_commit) (accepted_of genesis_commit)
    ready_reachable eq_refl _ (ok_parts genesis_commit _)))))); by vm_compute.
Defined.

Lemma owner_named : entry_hash owner example_salt ∈ set_entries genesis.
Proof.
  assert (contains (set_entries genesis) (entry_hash owner example_salt) = true) as Hc by (by vm_compute).
  by apply contains_true in Hc.
Qed.

Lemma genesis_published :
  publish (fresh_db example_salt) 0 genesis genesis_body
  = Ok (db_of genesis_publish, accepted_of genesis_publish).
Proof. change (genesis_publish = Ok (db_of genesis_publish, accepted_of genesis_publish)). apply ok_parts. by vm_compute. Qed.

Lemma admits_after_publish_witness : admits (db_of genesis_publish) 0 owner = InSet.
Proof.
  destruct (admits_after_publish (fresh_db example_salt) 0 genesis genesis_body
    (db_of genesis_publish) (accepted_of genesis_publish) (fresh_chain_ok example_salt) genesis_decodes
    genesis_published) as [Hin _].
  apply Hin. exact owner_named.
Defined.
