(* ===== verification/Envelope.v ===== *)
(** * The envelope and the checks the relay makes on its bytes

    Models [backend/wealdrelay/src/envelope/mod.rs]: the eight-field envelope,
    its codec, the content address and [validate]. *)

From Stdlib Require Import ZArith Lia.
From stdpp Require Import base tactics numbers list.
From S2P Require Import Prelude Cbor Crypto Push Frame.

Open Scope Z_scope.

Definition VERSION : Z := 1.
Definition GROUP_BYTES : nat := 32.
Definition ENVELOPE_HASH_BYTES : nat := 32.
Definition MAX_CIPHERTEXT_BYTES : Z := Z.shiftl 1 20.

Inductive Encryption : Type := EncNone | EncMls.
#[global] Instance Encryption_eq_dec : EqDecision Encryption.
Proof. solve_decision. Defined.

Definition enc_number (e : Encryption) : Z := match e with EncNone => 0 | EncMls => 1 end.
Definition enc_from_u8 (value : Z) : option Encryption :=
  match value with 0 => Some EncNone | 1 => Some EncMls | _ => None end.

(** [WEALD_RELAY_MIN_ENC], from [config.rs]. *)
Inductive MinEncryption : Type := FloorNone | FloorMls.

Record Envelope : Type := mkEnvelope {
  env_v : Z;
  env_enc : Encryption;
  env_group : list byte;
  env_epoch : Z;
  env_seq : Z;
  env_ts : Z;
  env_hash : list byte;
  env_ct : list byte
}.

Inductive EnvelopeError : Type :=
| EnvelopeCbor (error : CborError)
| EnvelopeUnsupportedVersion (version : Z)
| UnknownEncryption (value : Z)
| EnvelopePlaintextRefused
| EnvelopeHashMismatch
| CiphertextTooLarge (bytes : Z).

Definition envelope_error_code (e : EnvelopeError) : ErrorCode :=
  match e with
  | EnvelopeCbor _ => NoncanonicalCbor
  | EnvelopeUnsupportedVersion _ => ProtocolUnsupported
  | UnknownEncryption _ => MalformedHeader
  | EnvelopePlaintextRefused => PlaintextRefused
  | EnvelopeHashMismatch => HashMismatch
  | CiphertextTooLarge _ => EnvelopeTooLarge
  end.

(** The bytes the content address covers, in the order they are hashed. *)
Definition content_input (v : Z) (enc : Encryption) (group : list byte) (epoch : Z) (ct : list byte)
    : list byte :=
  uint v ++ uint (enc_number enc) ++ bytes group ++ uint epoch ++ bytes ct.

Definition envelope_encode (e : Envelope) : list byte :=
  array [uint (env_v e); uint (enc_number (env_enc e)); bytes (env_group e); uint (env_epoch e);
         uint (env_seq e); uint (env_ts e); bytes (env_hash e); bytes (env_ct e)].

Abbreviation elift := (rd_map_err EnvelopeCbor).

Definition decode_envelope : rd EnvelopeError Envelope :=
  elift (rd_array 8) ;;;
  v <- elift rd_u8 ;;
  raw_enc <- elift rd_u8 ;;
  match enc_from_u8 raw_enc with
  | None => rd_fail (UnknownEncryption raw_enc)
  | Some enc =>
      group <- elift (rd_bytes_of 32) ;;
      epoch <- elift rd_uint ;;
      seq <- elift rd_uint ;;
      ts <- elift rd_uint ;;
      hash <- elift (rd_bytes_of 32) ;;
      ct <- elift rd_bytes ;;
      rd_ret (mkEnvelope v enc group epoch seq ts hash ct)
  end.

Definition envelope_decode (bs : list byte) : result EnvelopeError Envelope :=
  parse EnvelopeCbor decode_envelope bs.

Section hashed.
Context `{Blake3}.

Definition content_hash (v : Z) (enc : Encryption) (group : list byte) (epoch : Z) (ct : list byte)
    : list byte := blake3 (content_input v enc group epoch ct).

Definition computed_hash (e : Envelope) : list byte :=
  content_hash (env_v e) (env_enc e) (env_group e) (env_epoch e) (env_ct e).

Definition validate (e : Envelope) (floor : MinEncryption) : result EnvelopeError unit :=
  if negb (env_v e =? VERSION) then Err (EnvelopeUnsupportedVersion (env_v e))
  else if match floor, env_enc e with FloorMls, EncNone => true | _, _ => false end
  then Err EnvelopePlaintextRefused
  else if MAX_CIPHERTEXT_BYTES <? len (env_ct e) then Err (CiphertextTooLarge (len (env_ct e)))
  else if negb (bool_decide (computed_hash e = env_hash e)) then Err EnvelopeHashMismatch
  else Ok tt.
End hashed.

(** ** The codec is exact *)
Definition envelope_wf (e : Envelope) : Prop :=
  is_u8 (env_v e) ∧ length (env_group e) = 32%nat ∧ is_u64 (env_epoch e) ∧ is_u64 (env_seq e)
  ∧ is_u64 (env_ts e) ∧ length (env_hash e) = 32%nat ∧ vec_ok (env_ct e).

Lemma enc_from_number e : enc_from_u8 (enc_number e) = Some e.
Proof. by destruct e. Qed.
Lemma enc_from_u8_inv z e : enc_from_u8 z = Some e → enc_number e = z.
Proof. unfold enc_from_u8. repeat case_match; naive_solver. Qed.

#[global] Instance envelope_codec : WireCodec envelope_wf envelope_encode decode_envelope.
Proof.
  split.
  - intros [v e g ep s t h c] Hwf. unfold envelope_wf in Hwf. cbn in Hwf. destruct_and! Hwf.
    unfold decode_envelope, envelope_encode. cbn [env_v env_enc env_group env_epoch env_seq env_ts env_hash env_ct].
    apply accepts_array_items; [done | by vm_compute | length_items | cbn [concat]].
    accept_field. eapply accepts_field; [apply codec_accepts; by destruct e|].
    rewrite enc_from_number. repeat accept_field.
  - intros r x r' Hd. unfold decode_envelope in Hd. do 3 sound_step Hd.
    match type of Hd with context [enc_from_u8 ?z] => destruct (enc_from_u8 z) eqn:He; [|discriminate] end.
    do 6 sound_step Hd. injection Hd as <- <-. apply enc_from_u8_inv in He as <-.
    split; [unfold envelope_wf; cbn; by split_and!|].
    unfold envelope_encode. cbn [env_v env_enc env_group env_epoch env_seq env_ts env_hash env_ct].
    sound_chain.
Qed.

Lemma envelope_decode_inv bs e : envelope_decode bs = Ok e → envelope_wf e ∧ envelope_encode e = bs.
Proof. intros Hd. exact (parse_canonical EnvelopeCbor envelope_wf envelope_encode _ bs e Hd). Qed.

(** ** What the content address binds *)
Definition read_content : rd EnvelopeError (Z * Z * list byte * Z * list byte) :=
  v <- elift rd_u8 ;; enc <- elift rd_u8 ;; group <- elift (rd_bytes_of 32) ;;
  epoch <- elift rd_uint ;; ct <- elift rd_bytes ;; rd_ret (v, enc, group, epoch, ct).

Lemma accepts_content e :
  envelope_wf e →
  accepts 0 read_content
    (content_input (env_v e) (env_enc e) (env_group e) (env_epoch e) (env_ct e))
    (env_v e, enc_number (env_enc e), env_group e, env_epoch e, env_ct e).
Proof.
  intros Hwf. unfold envelope_wf in Hwf. destruct_and! Hwf. unfold read_content, content_input.
  accept_field. eapply accepts_field; [apply codec_accepts; by destruct (env_enc e)|].
  do 2 accept_field. rewrite <- (app_nil_r (bytes (env_ct e))). repeat accept_field.
Qed.

Lemma content_input_inj e e' :
  envelope_wf e → envelope_wf e' →
  content_input (env_v e) (env_enc e) (env_group e) (env_epoch e) (env_ct e)
  = content_input (env_v e') (env_enc e') (env_group e') (env_epoch e') (env_ct e') →
  env_v e = env_v e' ∧ env_enc e = env_enc e' ∧ env_group e = env_group e'
  ∧ env_epoch e = env_epoch e' ∧ env_ct e = env_ct e'.
Proof.
  intros Hw Hw' Heq. pose proof (accepts_content e Hw [] [] ltac:(simpl; lia)) as H1.
  pose proof (accepts_content e' Hw' [] [] ltac:(simpl; lia)) as H2. rewrite Heq, H2 in H1.
  injection H1 as -> He -> -> ->. split_and!; try done.
  destruct (env_enc e), (env_enc e'); done.
Qed.

Section theorems.
Context `{Blake3}.

Lemma validate_ok e floor :
  validate e floor = Ok tt →
  env_v e = VERSION ∧ (floor = FloorMls → env_enc e = EncMls)
  ∧ len (env_ct e) ≤ MAX_CIPHERTEXT_BYTES ∧ computed_hash e = env_hash e.
Proof.
  unfold validate. destruct (Z.eqb_spec (env_v e) VERSION); [|discriminate]. cbn [negb].
  intros Hv. destruct (match floor, env_enc e with FloorMls, EncNone => true | _, _ => false end) eqn:Hf;
    [discriminate|].
  destruct (Z.ltb_spec MAX_CIPHERTEXT_BYTES (len (env_ct e))); [discriminate|].
  case_bool_decide; [|discriminate]. split_and!; try done.
  intros ->. by destruct (env_enc e).
Qed.

(** The content address names the content: two envelopes that both pass
    [validate] with the same [hash] are the same version, protection, group,
    epoch and ciphertext, whatever sequence number and time they carry, or the
    digest collides on their hashed bytes. *)
Theorem content_address_binds e e' floor floor' :
  envelope_wf e → envelope_wf e' → validate e floor = Ok tt → validate e' floor' = Ok tt →
  env_hash e = env_hash e' →
  (env_v e = env_v e' ∧ env_enc e = env_enc e' ∧ env_group e = env_group e'
   ∧ env_epoch e = env_epoch e' ∧ env_ct e = env_ct e')
  ∨ collision (content_input (env_v e) (env_enc e) (env_group e) (env_epoch e) (env_ct e))
      (content_input (env_v e') (env_enc e') (env_group e') (env_epoch e') (env_ct e')).
Proof.
  intros Hw Hw' Hv Hv' Heq. apply validate_ok in Hv as (_ & _ & _ & Hh).
  apply validate_ok in Hv' as (_ & _ & _ & Hh').
  destruct (decide (content_input (env_v e) (env_enc e) (env_group e) (env_epoch e) (env_ct e)
    = content_input (env_v e') (env_enc e') (env_group e') (env_epoch e') (env_ct e'))) as [E|E].
  - left. by apply content_input_inj.
  - right. split; [done|]. unfold computed_hash, content_hash in *. congruence.
Qed.

(** The envelope decoder accepts exactly the canonical encodings of
    envelopes with the wire's field widths. *)
Theorem envelope_decode_exact bs e :
  envelope_decode bs = Ok e ↔ envelope_wf e ∧ envelope_encode e = bs.
Proof.
  split; [apply envelope_decode_inv|].
  intros [Hwf <-]. exact (parse_encode EnvelopeCbor envelope_wf envelope_encode _ e Hwf).
Qed.
End theorems.

(** ** A concrete envelope *)
#[local] Instance envelope_blake3 : Blake3 := poly_digest.

Definition example_envelope (ct : list byte) : Envelope :=
  let group := replicate 32 Byte.x01 in
  mkEnvelope 1 EncMls group 5 0 0 (content_hash 1 EncMls group 5 ct) ct.

Lemma example_envelope_wf : envelope_wf (example_envelope [Byte.x0a; Byte.x0b]).
Proof. apply (envelope_decode_inv (envelope_encode (example_envelope [Byte.x0a; Byte.x0b]))). by vm_compute. Qed.

Lemma content_address_binds_witness :
  let e := example_envelope [Byte.x0a; Byte.x0b] in
  validate e FloorMls = Ok tt
  ∧ ((env_v e = env_v e ∧ env_enc e = env_enc e ∧ env_group e = env_group e
      ∧ env_epoch e = env_epoch e ∧ env_ct e = env_ct e)
     ∨ collision (content_input (env_v e) (env_enc e) (env_group e) (env_epoch e) (env_ct e))
         (content_input (env_v e) (env_enc e) (env_group e) (env_epoch e) (env_ct e))).
Proof.
  assert (validate (example_envelope [Byte.x0a; Byte.x0b]) FloorMls = Ok tt) as Hv by (by vm_compute).
  split; [exact Hv|].
  exact (content_address_binds (example_envelope [Byte.x0a; Byte.x0b]) (example_envelope [Byte.x0a; Byte.x0b])
    FloorMls FloorMls example_envelope_wf example_envelope_wf Hv Hv eq_refl).
Defined.
