(* ===== verification/Accept.v ===== *)
(** * The accept path: what happens to one [SEND]

    Models [backend/wealdrelay/src/accept.rs] and [log_budget.rs] against the
    tables [relay_group], [relay_envelope] and [relay_log_budget]. A transaction
    is one step: the counter row it updates is locked until it ends. What other
    sockets do between the duplicate probe and the transaction is the step
    relation below. *)

From Stdlib Require Import ZArith Lia.
From stdpp Require Import base tactics numbers list gmap sets fin_maps relations.
From S2P Require Import Prelude Cbor Crypto Push Frame Envelope.

Open Scope Z_scope.

(** The settings the path reads, from [config.rs]. *)
Inductive WriteMode : Type := Full | ReadOnly.
Inductive Limit : Type := Unlimited | Of (n : Z).
Record Config : Type := mkConfig {
  write_mode : WriteMode;
  min_encryption : MinEncryption;
  max_log_gb : Limit
}.

(** ** The log budget *)
Definition BYTES_PER_GB : Z := 1000000000.

(** [u64 as i64]. *)
Definition u64_as_i64 (z : Z) : Z := if z <=? I64_MAX then z else z - 2 ^ 64.
Lemma u64_as_i64_small z : z ≤ I64_MAX → u64_as_i64 z = z.
Proof. intros Hz. unfold u64_as_i64. by rewrite (proj2 (Z.leb_le _ _)). Qed.

Definition limit_bytes (config : Config) : option Z :=
  match max_log_gb config with
  | Unlimited => None
  | Of gb => Some (i64_saturating (u64_as_i64 gb * BYTES_PER_GB))
  end.

Definition charge_of (ciphertext : list byte) : Z := len ciphertext.

Definition over_budget (used charge : Z) (limit : option Z) : bool :=
  match limit with
  | None => false
  | Some limit => limit <? i64_saturating (used + charge)
  end.

(** [i64::to_be_bytes]. *)
Definition limit_detail (limit : Z) : list byte := be_bytes 8 (limit mod 2 ^ 64).

(** ** The tables *)
Abbreviation GroupId := (list byte).
Abbreviation WorkspaceId := (list byte).

Record GroupRow : Type := mkGroupRow { g_workspace : WorkspaceId; next_seq : Z; frozen : bool }.
Record EnvelopeRow : Type := mkEnvelopeRow {
  r_v : Z; r_enc : Encryption; r_epoch : Z; r_seq : Z; r_ts : Z; r_ct : list byte
}.
Record Store : Type := mkStore {
  groups : gmap GroupId GroupRow;
  envelopes : gmap (GroupId * list byte) EnvelopeRow;
  log_used : gmap WorkspaceId Z
}.

Inductive Accepted : Type := Stored (seq : Z) | Duplicate (seq : Z).
Definition accepted_seq (a : Accepted) : Z := match a with Stored s | Duplicate s => s end.

Inductive AcceptError : Type :=
| AcceptEnvelope (error : EnvelopeError)
| AcceptGroupUnknown
| AcceptGroupFrozen
| AcceptReadOnly
| AcceptLogBudgetExhausted (limit : Z)
| AcceptBackpressure.

Definition accept_error_code (e : AcceptError) : ErrorCode :=
  match e with
  | AcceptEnvelope error => envelope_error_code error
  | AcceptGroupUnknown => GroupUnknown
  | AcceptGroupFrozen => GroupFrozen
  | AcceptReadOnly => ServiceReadOnly
  | AcceptLogBudgetExhausted _ => LogBudgetExhausted
  | AcceptBackpressure => Backpressure
  end.

Definition to_frame (e : AcceptError) : FrameError :=
  match e with
  | AcceptLogBudgetExhausted limit =>
      with_detail (FrameError_new (accept_error_code e)) (limit_detail limit)
  | _ => FrameError_new (accept_error_code e)
  end.

Definition existing_seq (s : Store) (group hash : list byte) : option Z :=
  r_seq <$> envelopes s !! (group, hash).

(** The insert's [on conflict do nothing]: the primary key, or the unique
    [(group_id, seq)] index. *)
Definition insert_conflicts (s : Store) (group hash : list byte) (seq : Z) : bool :=
  bool_decide (is_Some (envelopes s !! (group, hash)))
  || existsb (λ r : (GroupId * list byte) * EnvelopeRow,
        bool_decide (fst (fst r) = group) && (r_seq (snd r) =? seq)) (map_to_list (envelopes s)).

(** The insert trigger of [0010_envelope_budget.sql]. *)
Definition charge_used (used : gmap WorkspaceId Z) (w : WorkspaceId) (bytes : Z) : gmap WorkspaceId Z :=
  <[w := default 0 (used !! w) + bytes]> used.

Section accept.
Context `{Blake3} (config : Config).

(** The transaction. Every early return drops it, which rolls it back. *)
Definition accept_tx (s : Store) (e : Envelope) (now : Z) : result AcceptError Accepted * Store :=
  match groups s !! env_group e with
  | None => (Err AcceptGroupUnknown, s)
  | Some row =>
      if frozen row then (Err AcceptGroupFrozen, s)
      else
        let seq := next_seq row in
        if insert_conflicts s (env_group e) (env_hash e) seq
        then (Ok (Duplicate (default seq (existing_seq s (env_group e) (env_hash e)))), s)
        else
          let s' := mkStore
            (<[env_group e := mkGroupRow (g_workspace row) (next_seq row + 1) (frozen row)]> (groups s))
            (<[(env_group e, env_hash e) :=
                 mkEnvelopeRow (env_v e) (env_enc e) (u64_as_i64 (env_epoch e)) seq (u64_as_i64 now)
                   (env_ct e)]> (envelopes s))
            (charge_used (log_used s) (g_workspace row) (charge_of (env_ct e))) in
          match limit_bytes config with
          | Some limit =>
              let used := default 0 (log_used s' !! g_workspace row) in
              if over_budget used 0 (Some limit) then (Err (AcceptLogBudgetExhausted limit), s)
              else (Ok (Stored seq), s')
          | None => (Ok (Stored seq), s')
          end
  end.

(** Everything before the transaction: the checks on the bytes and the probe
    that answers a retry without a lock. *)
Definition accept (s : Store) (e : Envelope) (now : Z) : result AcceptError Accepted * Store :=
  match write_mode config with
  | ReadOnly => (Err AcceptReadOnly, s)
  | Full =>
      match validate e (min_encryption config) with
      | Err error => (Err (AcceptEnvelope error), s)
      | Ok _ =>
          match existing_seq s (env_group e) (env_hash e) with
          | Some seq => (Ok (Duplicate seq), s)
          | None => accept_tx s e now
          end
      end
  end.

(** [floor_byte], for the [CONNECT] acknowledgement. *)
Definition floor_byte (floor : MinEncryption) : Z :=
  match floor with FloorNone => 0 | FloorMls => 1 end.

(** ** What happens to the tables

    A transaction of any socket, whose probe may be stale; a group created for
    a workspace; a group frozen or thawed; one row dropped by compaction, with
    the delete trigger's credit. *)
Inductive envelope_step : Store → Store → Prop :=
| log_accept s e now :
    validate e (min_encryption config) = Ok tt → envelope_step s (snd (accept_tx s e now))
| log_create s g w :
    groups s !! g = None →
    envelope_step s (mkStore (<[g := mkGroupRow w 1 false]> (groups s)) (envelopes s) (log_used s))
| log_freeze s g row b :
    groups s !! g = Some row →
    envelope_step s (mkStore (<[g := mkGroupRow (g_workspace row) (next_seq row) b]> (groups s))
                  (envelopes s) (log_used s))
| log_drop s g h row r :
    groups s !! g = Some row → envelopes s !! (g, h) = Some r →
    envelope_step s (mkStore (groups s) (delete (g, h) (envelopes s))
      (<[g_workspace row := Z.max 0 (default 0 (log_used s !! g_workspace row) - charge_of (r_ct r))]>
         (log_used s))).

(** The handshake log charges the same counter of the group's workspace, under
    the same ceiling ([Handshake] has the transaction, and proves that each of
    its steps is this one on these tables). *)
Inductive log_step : Store → Store → Prop :=
| log_envelope s s' : envelope_step s s' → log_step s s'
| log_commit s g row bytes :
    groups s !! g = Some row → 0 ≤ bytes →
    over_budget (default 0 (log_used s !! g_workspace row) + bytes) 0 (limit_bytes config) = false →
    log_step s (mkStore (groups s) (envelopes s) (charge_used (log_used s) (g_workspace row) bytes)).

Definition empty_store : Store := mkStore ∅ ∅ ∅.
Definition reachable_log (s : Store) : Prop := rtc log_step empty_store s.
End accept.

(** ** Sums over the rows *)
(** What one row costs the workspace [w]. *)
Definition row_cost (gs : gmap GroupId GroupRow) (w : WorkspaceId)
    (kr : (GroupId * list byte) * EnvelopeRow) : Z :=
  if decide (g_workspace <$> gs !! fst (fst kr) = Some w) then charge_of (r_ct (snd kr)) else 0.

(** [summed_bytes]: the counter computed the expensive way. *)
Definition summed_bytes (s : Store) (w : WorkspaceId) : Z :=
  zsum (row_cost (groups s) w) (map_to_list (envelopes s)).
(** [used_bytes]: the counter. *)
Definition used_bytes (s : Store) (w : WorkspaceId) : Z := default 0 (log_used s !! w).

Lemma row_cost_nonneg gs w kr : 0 ≤ row_cost gs w kr.
Proof. unfold row_cost, charge_of, len. case_decide; lia. Qed.

(** ** The invariant

    The counter is shared with the handshake log: [others] is what that log has
    charged to each workspace. *)
Record store_ok (others : WorkspaceId → Z) (s : Store) : Prop := {
  ok_groups : ∀ g row, groups s !! g = Some row → 1 ≤ next_seq row;
  ok_rows : ∀ g h r, envelopes s !! (g, h) = Some r →
    ∃ row, groups s !! g = Some row ∧ 1 ≤ r_seq r < next_seq row;
  ok_unique : ∀ g h h' r r', envelopes s !! (g, h) = Some r → envelopes s !! (g, h') = Some r' →
    r_seq r = r_seq r' → h = h';
  ok_used : ∀ w, used_bytes s w = summed_bytes s w + others w
}.
Arguments ok_groups {others s} _.
Arguments ok_rows {others s} _.
Arguments ok_unique {others s} _.
Arguments ok_used {others s} _.

(** Nothing charged by another log. *)
Definition alone : WorkspaceId → Z := λ _, 0.

(** A log in order, whatever the handshake log has charged beside it. *)
Definition store_sound (s : Store) : Prop := ∃ others, (∀ w, 0 ≤ others w) ∧ store_ok others s.

Lemma fresh_seq_no_conflict others s g h row :
  store_ok others s → groups s !! g = Some row →
  insert_conflicts s g h (next_seq row) = bool_decide (is_Some (envelopes s !! (g, h))).
Proof.
  intros Hok Hg. unfold insert_conflicts. destruct (existsb _ _) eqn:He; [|by rewrite orb_false_r].
  exfalso. apply existsb_exists in He as ([[g' h'] r] & Hin & Hb).
  apply list_elem_of_In, elem_of_map_to_list in Hin.
  apply andb_true_iff in Hb as [Hb1 Hb2]. apply bool_decide_eq_true in Hb1. apply Z.eqb_eq in Hb2.
  simpl in *. subst g'. destruct (ok_rows Hok _ _ _ Hin) as (row' & Hg' & Hr). simplify_eq. lia.
Qed.

Section accept_proofs.
Context `{Blake3} (config : Config).

(** The cases of a transaction on a store in order. *)
Lemma accept_tx_cases others s e now :
  store_ok others s →
  (∃ err, accept_tx config s e now = (Err err, s))
  ∨ (∃ r, envelopes s !! (env_group e, env_hash e) = Some r
      ∧ accept_tx config s e now = (Ok (Duplicate (r_seq r)), s))
  ∨ ∃ row, groups s !! env_group e = Some row ∧ frozen row = false
      ∧ envelopes s !! (env_group e, env_hash e) = None
      ∧ (∀ limit, limit_bytes config = Some limit →
           over_budget (used_bytes s (g_workspace row) + charge_of (env_ct e)) 0 (Some limit) = false)
      ∧ accept_tx config s e now = (Ok (Stored (next_seq row)), mkStore
          (<[env_group e := mkGroupRow (g_workspace row) (next_seq row + 1) (frozen row)]> (groups s))
          (<[(env_group e, env_hash e) :=
               mkEnvelopeRow (env_v e) (env_enc e) (u64_as_i64 (env_epoch e)) (next_seq row)
                 (u64_as_i64 now) (env_ct e)]> (envelopes s))
          (charge_used (log_used s) (g_workspace row) (charge_of (env_ct e)))).
Proof.
  intros Hok. unfold accept_tx. destruct (groups s !! env_group e) as [row|] eqn:Hg; [|left; by eexists].
  destruct (frozen row) eqn:Hf; [left; by eexists|]. cbv zeta.
  rewrite (fresh_seq_no_conflict others s _ (env_hash e) row Hok Hg).
  destruct (envelopes s !! (env_group e, env_hash e)) as [r|] eqn:He.
  - right. left. exists r. split; [done|]. unfold existing_seq. by rewrite He.
  - rewrite bool_decide_eq_false_2 by (intros [? ?]; done). cbn [log_used].
    unfold charge_used. rewrite lookup_insert_eq. cbn [default]. fold (used_bytes s (g_workspace row)).
    destruct (limit_bytes config) as [limit|].
    + destruct (over_budget _ 0 (Some limit)) eqn:Ho; [left; by eexists|].
      right. right. exists row. split_and!; [done..| |].
      * by intros ? [= <-].
      * by rewrite Hf.
    + right. right. exists row. split_and!; [done..|]. by rewrite Hf.
Qed.

Lemma summed_bytes_insert s g h r row row' w :
  groups s !! g = Some row → g_workspace row' = g_workspace row → envelopes s !! (g, h) = None →
  zsum (row_cost (<[g := row']> (groups s)) w) (map_to_list (<[(g, h) := r]> (envelopes s)))
  = summed_bytes s w + (if decide (g_workspace row = w) then charge_of (r_ct r) else 0).
Proof.
  intros Hg Hw He. rewrite (zsum_perm _ _ _ (map_to_list_insert _ _ _ He)), zsum_cons.
  unfold row_cost at 1. cbn [fst snd]. rewrite lookup_insert_eq. cbn [fmap option_fmap option_map].
  rewrite Hw. unfold summed_bytes.
  assert (zsum (row_cost (<[g := row']> (groups s)) w) (map_to_list (envelopes s))
    = zsum (row_cost (groups s) w) (map_to_list (envelopes s))) as ->.
  { apply zsum_ext, Forall_forall. intros [[g' h'] r'] _. unfold row_cost. cbn [fst snd].
    destruct (decide (g' = g)) as [->|]; [|by rewrite lookup_insert_ne].
    rewrite lookup_insert_eq, Hg. cbn [fmap option_fmap option_map]. by rewrite Hw. }
  repeat case_decide; simplify_eq; lia.
Qed.

Lemma default_some {A} (d x : A) : default d (Some x) = x.
Proof. done. Qed.

Lemma accept_tx_ok others s e now : store_ok others s → store_ok others (snd (accept_tx config s e now)).
Proof.
  intros Hok. destruct (accept_tx_cases _ s e now Hok)
    as [[err ->]|[(r & _ & ->)|(row & Hg & Hf & He & _ & ->)]]; [done..|]. cbn [snd].
  destruct Hok as [Hgs Hrows Huniq Hused]. pose proof (Hgs _ _ Hg) as Hpos.
  assert (∀ h r, envelopes s !! (env_group e, h) = Some r → r_seq r < next_seq row) as Hbelow.
  { intros h r Hr. destruct (Hrows _ _ _ Hr) as (row' & Hg' & Hb). simplify_eq. lia. }
  split; cbn [groups envelopes log_used].
  - intros g row' Hr. destruct (decide (g = env_group e)) as [->|].
    + rewrite lookup_insert_eq in Hr. injection Hr as <-. simpl. lia.
    + rewrite lookup_insert_ne in Hr by done. by eapply Hgs.
  - intros g h r Hr. destruct (decide ((g, h) = (env_group e, env_hash e))) as [E|E].
    + rewrite E, lookup_insert_eq in Hr. injection Hr as <-. injection E as -> ->.
      rewrite lookup_insert_eq. eexists. split; [done|]. simpl. lia.
    + rewrite lookup_insert_ne in Hr by done. destruct (Hrows _ _ _ Hr) as (row' & Hg' & Hb).
      destruct (decide (g = env_group e)) as [->|].
      * rewrite lookup_insert_eq. eexists. split; [done|]. simplify_eq. simpl. lia.
      * rewrite lookup_insert_ne by done. by exists row'.
  - intros g h h' r r' Hr Hr' Heq.
    destruct (decide ((g, h) = (env_group e, env_hash e))) as [E|E],
      (decide ((g, h') = (env_group e, env_hash e))) as [E'|E'].
    + congruence.
    + rewrite E, lookup_insert_eq in Hr. rewrite lookup_insert_ne in Hr' by done.
      injection Hr as <-. injection E as -> ->. apply Hbelow in Hr'. simpl in Heq. lia.
    + rewrite E', lookup_insert_eq in Hr'. rewrite lookup_insert_ne in Hr by done.
      injection Hr' as <-. injection E' as -> ->. apply Hbelow in Hr. simpl in Heq. lia.
    + rewrite lookup_insert_ne in Hr, Hr' by done. by eapply Huniq.
  - intros w. unfold used_bytes, summed_bytes at 1. cbn [groups envelopes log_used].
    rewrite (summed_bytes_insert s (env_group e) (env_hash e) _ row
      (mkGroupRow (g_workspace row) (next_seq row + 1) (frozen row)) w Hg eq_refl He). cbn [r_ct].
    specialize (Hused w). unfold charge_used, used_bytes in *. destruct (decide (g_workspace row = w)) as [->|].
    + rewrite lookup_insert_eq, default_some. lia.
    + rewrite lookup_insert_ne by done. lia.
Qed.

Lemma summed_bytes_groups s gs' w :
  (∀ g h r, envelopes s !! (g, h) = Some r →
     g_workspace <$> gs' !! g = g_workspace <$> groups s !! g) →
  zsum (row_cost gs' w) (map_to_list (envelopes s)) = summed_bytes s w.
Proof.
  intros Hg. unfold summed_bytes. apply zsum_ext, Forall_forall. intros [[g h] r] Hin.
  apply elem_of_map_to_list in Hin. unfold row_cost. cbn [fst snd]. by rewrite (Hg _ _ _ Hin).
Qed.

Lemma log_create_ok others s g w :
  store_ok others s → groups s !! g = None →
  store_ok others (mkStore (<[g := mkGroupRow w 1 false]> (groups s)) (envelopes s) (log_used s)).
Proof.
  intros [Hgs Hrows Huniq Hused] Hg.
  assert (∀ g' h r, envelopes s !! (g', h) = Some r → g' ≠ g) as Hne.
  { intros g' h r Hr ->. destruct (Hrows _ _ _ Hr) as (? & Hg' & _). congruence. }
  split; cbn [groups envelopes log_used]; [| |done|].
  - intros g' row' Hr. destruct (decide (g' = g)) as [->|].
    + rewrite lookup_insert_eq in Hr. injection Hr as <-. simpl. lia.
    + rewrite lookup_insert_ne in Hr by done. by eapply Hgs.
  - intros g' h r Hr. rewrite lookup_insert_ne by (by apply not_eq_sym, (Hne _ _ _ Hr)). by eapply Hrows.
  - intros w'. unfold used_bytes, summed_bytes at 1. cbn [groups envelopes log_used].
    rewrite summed_bytes_groups; [apply Hused|]. intros g' h r Hr.
    by rewrite lookup_insert_ne by (by apply not_eq_sym, (Hne _ _ _ Hr)).
Qed.

Lemma log_freeze_ok others s g row b :
  store_ok others s → groups s !! g = Some row →
  store_ok others (mkStore (<[g := mkGroupRow (g_workspace row) (next_seq row) b]> (groups s))
    (envelopes s) (log_used s)).
Proof.
  intros [Hgs Hrows Huniq Hused] Hg. split; cbn [groups envelopes log_used]; [| |done|].
  - intros g' row' Hr. destruct (decide (g' = g)) as [->|].
    + rewrite lookup_insert_eq in Hr. injection Hr as <-. simpl. by eapply Hgs.
    + rewrite lookup_insert_ne in Hr by done. by eapply Hgs.
  - intros g' h r Hr. destruct (Hrows _ _ _ Hr) as (row' & Hg' & Hb).
    destruct (decide (g' = g)) as [->|].
    + rewrite lookup_insert_eq. eexists. split; [done|]. simplify_eq. done.
    + rewrite lookup_insert_ne by done. by exists row'.
  - intros w'. unfold used_bytes, summed_bytes at 1. cbn [groups envelopes log_used].
    rewrite summed_bytes_groups; [apply Hused|]. intros g' h r Hr.
    destruct (decide (g' = g)) as [->|]; [|by rewrite lookup_insert_ne].
    by rewrite lookup_insert_eq, Hg.
Qed.

Lemma log_drop_ok others s g h row r :
  (∀ w, 0 ≤ others w) → store_ok others s → groups s !! g = Some row → envelopes s !! (g, h) = Some r →
  store_ok others (mkStore (groups s) (delete (g, h) (envelopes s))
    (<[g_workspace row := Z.max 0 (default 0 (log_used s !! g_workspace row) - charge_of (r_ct r))]> (log_used s))).
Proof.
  intros Hoth [Hgs Hrows Huniq Hused] Hg He. split; cbn [groups envelopes log_used]; [done| | |].
  - intros g' h' r' Hr. apply lookup_delete_Some in Hr as [_ Hr]. by eapply Hrows.
  - intros g' h1 h2 r1 r2 Hr1 Hr2. apply lookup_delete_Some in Hr1 as [_ Hr1].
    apply lookup_delete_Some in Hr2 as [_ Hr2]. by eapply Huniq.
  - intros w'. unfold used_bytes at 1, summed_bytes. cbn [groups envelopes log_used].
    assert (summed_bytes s w' = row_cost (groups s) w' ((g, h), r)
      + zsum (row_cost (groups s) w') (map_to_list (delete (g, h) (envelopes s)))) as Hsum.
    { unfold summed_bytes. rewrite <- zsum_cons.
      apply zsum_perm. by rewrite (map_to_list_delete _ _ _ He). }
    pose proof (zsum_nonneg (row_cost (groups s) w')
      (map_to_list (delete (g, h) (envelopes s))) (row_cost_nonneg _ _)) as Hnn.
    set (rest := zsum (row_cost (groups s) w') (map_to_list (delete (g, h) (envelopes s)))) in *.
    unfold row_cost in Hsum. cbn [fst snd] in Hsum. rewrite Hg in Hsum.
    cbn [fmap option_fmap option_map] in Hsum. specialize (Hused w'). specialize (Hoth w').
    unfold used_bytes in Hused. unfold charge_of, len in *.
    destruct (decide (g_workspace row = w')) as [<-|Hne].
    + rewrite lookup_insert_eq, default_some. rewrite decide_True in Hsum by done. lia.
    + rewrite lookup_insert_ne by done. rewrite decide_False in Hsum by congruence. lia.
Qed.

Lemma envelope_step_ok others s s' :
  (∀ w, 0 ≤ others w) → store_ok others s → envelope_step config s s' → store_ok others s'.
Proof.
  intros Hoth Hok Hs. destruct Hs as [s e now _|s g w Hg|s g row b Hg|s g h row r Hg He].
  - by apply accept_tx_ok.
  - by apply log_create_ok.
  - by apply log_freeze_ok.
  - by apply log_drop_ok.
Qed.

Lemma log_commit_ok others s g row bytes :
  store_ok others s → groups s !! g = Some row →
  store_ok (λ w, others w + if decide (g_workspace row = w) then bytes else 0)
    (mkStore (groups s) (envelopes s) (charge_used (log_used s) (g_workspace row) bytes)).
Proof.
  intros [Hgs Hrows Huniq Hused] Hg. split; [done..|]. intros w. specialize (Hused w).
  unfold used_bytes, summed_bytes, charge_used in *. cbn [groups envelopes log_used] in *.
  destruct (decide (g_workspace row = w)) as [<-|].
  - rewrite lookup_insert_eq, default_some. lia.
  - rewrite lookup_insert_ne by done. lia.
Qed.

Lemma log_step_sound s s' : store_sound s → log_step config s s' → store_sound s'.
Proof.
  intros (others & Hnn & Hok) Hs. destruct Hs as [s s' Hs|s g row bytes Hg Hb _].
  - exists others. split; [done|]. by eapply envelope_step_ok.
  - eexists. split; [|by eapply log_commit_ok]. intros w. specialize (Hnn w). cbn. case_decide; lia.
Qed.

Lemma alone_nonneg w : 0 ≤ alone w.
Proof. done. Qed.

Lemma empty_store_ok : store_ok alone empty_store.
Proof. split; cbn; intros *; rewrite ?lookup_empty; done. Qed.

Lemma log_steps_sound s s' : rtc (log_step config) s s' → store_sound s → store_sound s'.
Proof. induction 1; eauto using log_step_sound. Qed.

Lemma reachable_store_sound s : reachable_log config s → store_sound s.
Proof. intros Hr. eapply log_steps_sound; [exact Hr|]. exists alone. split; [done|apply empty_store_ok]. Qed.

Definition within_budget (s : Store) : Prop :=
  ∀ limit w, limit_bytes config = Some limit → limit < I64_MAX → used_bytes s w ≤ Z.max 0 limit.

Lemma envelope_step_within_budget others s s' :
  store_ok others s → within_budget s → envelope_step config s s' → within_budget s'.
Proof.
  intros Hok Hb Hs limit w Hl Hlt. pose proof (λ w, Hb limit w Hl Hlt) as Hb'. clear Hb.
  destruct Hs as [s e now _|s g w' Hg|s g row b Hg|s g h row r Hg He]; [| apply Hb' | apply Hb' |].
  - destruct (accept_tx_cases _ s e now Hok)
      as [[err ->]|[(r & _ & ->)|(row & Hg & Hf & He & Hbud & ->)]]; [apply Hb'..|].
    specialize (Hbud limit Hl). unfold over_budget in Hbud. apply Z.ltb_ge in Hbud.
    unfold used_bytes at 1. cbn [snd log_used]. unfold charge_used.
    destruct (decide (g_workspace row = w)) as [<-|].
    + rewrite lookup_insert_eq, default_some. fold (used_bytes s (g_workspace row)).
      unfold i64_saturating, I64_MAX, I64_MIN in *. lia.
    + rewrite lookup_insert_ne by done. apply Hb'.
  - unfold used_bytes at 1. cbn [log_used]. destruct (decide (g_workspace row = w)) as [<-|].
    + rewrite lookup_insert_eq, default_some. specialize (Hb' (g_workspace row)). unfold used_bytes in Hb'.
      unfold charge_of, len. lia.
    + rewrite lookup_insert_ne by done. apply Hb'.
Qed.

(** One step of anybody that does not drop the row under [key]. *)
Definition keeps (key : GroupId * list byte) (s s' : Store) : Prop :=
  log_step config s s' ∧ is_Some (envelopes s' !! key).

Lemma keeps_row key s s' r :
  store_sound s → envelopes s !! key = Some r → keeps key s s' → envelopes s' !! key = Some r.
Proof.
  intros (others & _ & Hok) Hr [Hs Hsome]. destruct Hs as [s s' Hs|s g row bytes Hg _ _]; [|done]. destruct Hs as [s e now _|s g w Hg|s g row b Hg|s g h row r' Hg He];
    [|done|done|].
  - destruct (accept_tx_cases _ s e now Hok)
      as [[err ->]|[(r' & _ & ->)|(row & _ & _ & He & _ & ->)]]; [done..|].
    cbn [snd envelopes]. rewrite lookup_insert_ne; [done|]. congruence.
  - cbn [envelopes] in *. destruct (decide (key = (g, h))) as [->|].
    + rewrite lookup_delete_eq in Hsome. by apply is_Some_None in Hsome.
    + by rewrite lookup_delete_ne.
Qed.

Lemma keeps_rows key s s' r :
  store_sound s → rtc (keeps key) s s' → envelopes s !! key = Some r → envelopes s' !! key = Some r.
Proof.
  intros Hok Hs. induction Hs as [|x y z Hk _ IH]; [done|]. intros Hr. apply IH.
  - by eapply log_step_sound; [|apply Hk].
  - by eapply keeps_row.
Qed.

Lemma accept_sound s e now : store_sound s → store_sound (snd (accept config s e now)).
Proof.
  intros (others & Hnn & Hok). unfold accept. destruct (write_mode config); [|by exists others].
  destruct (validate e (min_encryption config)) as [[]|]; [|by exists others].
  destruct (existing_seq s (env_group e) (env_hash e)); [by exists others|].
  exists others. split; [done|]. by apply accept_tx_ok.
Qed.

(** A retry is always safe: once an envelope is accepted, sending it
    again, after anything else has happened to the log short of dropping that
    row, is answered with the original sequence number and changes nothing. *)
Theorem retry_returns_original s e now a s1 s2 later :
  reachable_log config s → accept config s e now = (Ok a, s1) →
  rtc (keeps (env_group e, env_hash e)) s1 s2 →
  accept config s2 e later = (Ok (Duplicate (accepted_seq a)), s2).
Proof.
  intros Hr Ha Hsteps. apply reachable_store_sound in Hr as Hsound.
  pose proof (accept_sound s e now Hsound) as Hsound1. rewrite Ha in Hsound1. cbn [snd] in Hsound1.
  destruct Hsound as (others & _ & Hok). unfold accept in *. destruct (write_mode config); [|discriminate].
  destruct (validate e (min_encryption config)) as [[]|] eqn:Hv; [|discriminate].
  assert (∃ r, envelopes s1 !! (env_group e, env_hash e) = Some r ∧ r_seq r = accepted_seq a) as (r & Hr1 & Hseq).
  { unfold existing_seq in Ha. destruct (envelopes s !! (env_group e, env_hash e)) as [r|] eqn:He.
    { simpl in Ha. injection Ha as <- <-. by exists r. }
    simpl in Ha. destruct (accept_tx_cases _ s e now Hok)
      as [[err Heq]|[(r & Hr1 & Heq)|(row & _ & _ & _ & _ & Heq)]]; rewrite Heq in Ha;
      [discriminate | congruence|]. injection Ha as <- <-.
    cbn [envelopes]. rewrite lookup_insert_eq. by eexists. }
  unfold existing_seq. rewrite (keeps_rows _ _ _ _ Hsound1 Hsteps Hr1). simpl. by rewrite Hseq.
Qed.

(** The row a [SEND] stores: the envelope's own bytes, with the epoch and the
    clock in signed 64-bit columns. *)
Definition stored_row (e : Envelope) (seq now : Z) : EnvelopeRow :=
  mkEnvelopeRow (env_v e) (env_enc e) (u64_as_i64 (env_epoch e)) seq (u64_as_i64 now) (env_ct e).


(** A step that drops no row. *)
Definition appends (s s' : Store) : Prop :=
  log_step config s s' ∧ ∀ key, is_Some (envelopes s !! key) → is_Some (envelopes s' !! key).

Definition dense (s : Store) : Prop :=
  ∀ g row n, groups s !! g = Some row → 1 ≤ n < next_seq row →
    ∃ h r, envelopes s !! (g, h) = Some r ∧ r_seq r = n.

Lemma appends_dense s s' : store_sound s → dense s → appends s s' → dense s'.
Proof.
  intros (others & _ & Hok) Hd [Hs Hkeep] g row n Hg Hn.
  destruct Hs as [s s' Hs|s g' row' bytes Hg' _ _]; [|by eapply Hd].
  destruct Hs as [s e now _|s g' w Hg'|s g' row' b Hg'|s g' h row' r Hg' He]; cbn [groups envelopes] in *.
  - destruct (accept_tx_cases _ s e now Hok)
      as [[err Heq]|[(r & _ & Heq)|(row' & Hg' & _ & He & _ & Heq)]]; rewrite Heq in *; cbn [snd groups envelopes] in *;
      [by eapply Hd..|].
    destruct (decide (g = env_group e)) as [->|Hne].
    + rewrite lookup_insert_eq in Hg. injection Hg as <-. cbn [next_seq] in Hn.
      destruct (decide (n = next_seq row')) as [->|].
      * exists (env_hash e). rewrite lookup_insert_eq. by eexists.
      * destruct (Hd _ row' n Hg' ltac:(lia)) as (h & r & Hr & Hseq). exists h, r. split; [|done].
        rewrite lookup_insert_ne by congruence. done.
    + rewrite lookup_insert_ne in Hg by done. destruct (Hd _ row n Hg Hn) as (h & r & Hr & Hseq).
      exists h, r. split; [|done]. rewrite lookup_insert_ne by congruence. done.
  - destruct (decide (g = g')) as [->|].
    + rewrite lookup_insert_eq in Hg. injection Hg as <-. simpl in Hn. lia.
    + rewrite lookup_insert_ne in Hg by done. by eapply Hd.
  - destruct (decide (g = g')) as [->|].
    + rewrite lookup_insert_eq in Hg. injection Hg as <-. simpl in Hn. by eapply Hd.
    + rewrite lookup_insert_ne in Hg by done. by eapply Hd.
  - specialize (Hkeep (g', h) ltac:(by eexists)). rewrite lookup_delete_eq in Hkeep.
    by apply is_Some_None in Hkeep.
Qed.

(** A refused or duplicate [SEND] spends no sequence number: as long as
    nothing is compacted away, the numbers of a group are exactly 1 up to its
    counter, whatever was refused in between. *)
Theorem refusals_leave_no_gap s g row n :
  rtc appends empty_store s → groups s !! g = Some row → 1 ≤ n < next_seq row →
  ∃ h r, envelopes s !! (g, h) = Some r ∧ r_seq r = n.
Proof.
  intros Hr. assert (∀ a b, rtc appends a b → store_sound a → dense a → dense b) as Hgen.
  { induction 1 as [|a b c Hs _ IH]; [done|]. intros Ha Hd. apply IH.
    - by eapply log_step_sound; [|apply Hs].
    - by eapply appends_dense. }
  apply (Hgen empty_store s Hr); [exists alone; split; [done|apply empty_store_ok]|].
  intros g' row' n'. cbn [empty_store groups]. by rewrite lookup_empty.
Qed.
End accept_proofs.

(** ** A concrete run *)
#[local] Instance accept_blake3 : Blake3 := poly_digest.

Definition example_config : Config := mkConfig Full FloorMls (Of 2).
Definition example_group : list byte := replicate 32 Byte.x01.
Definition example_ws : list byte := [Byte.x77].
Definition sent : Envelope := example_envelope [Byte.x0a; Byte.x0b].
Definition store0 : Store := mkStore {[ example_group := mkGroupRow example_ws 1 false ]} ∅ ∅.
Definition store1 : Store := snd (accept example_config store0 sent 9).

Lemma store0_step : envelope_step example_config empty_store store0.
Proof. by apply (log_create example_config empty_store example_group example_ws). Qed.
Lemma store1_step : envelope_step example_config store0 store1.
Proof. apply (log_accept example_config store0 sent 9). by vm_compute. Qed.
Lemma store0_reachable : reachable_log example_config store0.
Proof. apply rtc_once, log_envelope, store0_step. Qed.
Lemma store1_reachable : reachable_log example_config store1.
Proof. eapply rtc_r; [apply store0_reachable | apply log_envelope, store1_step]. Qed.

Lemma store1_ok : store_ok alone store1.
Proof.
  eapply (envelope_step_ok example_config); [done| |apply store1_step].
  eapply (envelope_step_ok example_config); [done| |apply store0_step]. apply empty_store_ok.
Qed.

Lemma sent_accepted : accept example_config store0 sent 9 = (Ok (Stored 1), store1).
Proof.
  unfold store1. assert (fst (accept example_config store0 sent 9) = Ok (Stored 1)) as Hf by (by vm_compute).
  destruct (accept example_config store0 sent 9) as [r s']. cbn [fst snd] in *. by rewrite Hf.
Qed.

Lemma retry_returns_original_witness :
  accept example_config store1 sent 44 = (Ok (Duplicate 1), store1).
Proof.
  exact (retry_returns_original example_config store0 sent 9 (Stored 1) store1 store1 44
    store0_reachable sent_accepted (rtc_refl _ _)).
Defined.


Lemma refusals_leave_no_gap_witness : ∃ h r, envelopes store1 !! (example_group, h) = Some r ∧ r_seq r = 1.
Proof.
  apply (refusals_leave_no_gap example_config store1 example_group (mkGroupRow example_ws 2 false) 1).
  - eapply rtc_l; [split; [apply log_envelope, store0_step|]|].
    { intros key Hs. cbn [empty_store envelopes] in Hs. rewrite lookup_empty in Hs. by apply is_Some_None in Hs. }
    apply rtc_once. split; [apply log_envelope, store1_step|].
    intros key Hs. exfalso. cbn [store0 envelopes] in Hs. rewrite lookup_empty in Hs. exact (is_Some_None Hs).
  - by vm_compute.
  - simpl. lia.
Defined.
