(* ===== verification/Handshake.v ===== *)
(** * The handshake log: [handshake/mod.rs] and [handshake/store.rs]

    MLS commits are applied in order or not at all, so the relay gives each
    group's handshake messages a dense sequence. [Ledger] is the tables the
    path touches: the envelope log of [Accept], whose group rows and byte
    counter it shares, and the rows of [relay_handshake]. [append_within] is
    the transaction under the group lock, with the charging trigger of
    [0017_handshake_log_budget.sql]; [page], [since] and [head] are the reads.

    The theorems: in every state the two logs reach together the sequence is
    dense and free of repeats, the shared counter is the sum of both logs and
    below the ceiling, and a resend gets its original number. *)

From stdpp Require Import base tactics numbers gmap sets fin_maps relations sorting list.
From S2P Require Import Prelude Cbor Crypto Push Frame Envelope Accept.

Open Scope Z_scope.

Definition GROUP_BYTES : nat := 32.
Definition HASH_BYTES : nat := 32.
Definition MAX_MESSAGE_BYTES : Z := 512 * 1024.

Record Handshake : Type := mkHandshake { hs_group : list byte; hs_message : list byte }.

Inductive HandshakeError : Type :=
| GroupWidth (n : nat)
| HandshakeEmpty
| HandshakeTooLarge (n : nat).

Definition handshake_error_code (e : HandshakeError) : ErrorCode :=
  match e with
  | HandshakeTooLarge _ => EnvelopeTooLarge
  | GroupWidth _ | HandshakeEmpty => MalformedHeader
  end.

Definition handshake_check (h : Handshake) : result HandshakeError unit :=
  if negb (length (hs_group h) =? GROUP_BYTES)%nat then Err (GroupWidth (length (hs_group h)))
  else match hs_message h with
  | [] => Err HandshakeEmpty
  | _ :: _ =>
      if MAX_MESSAGE_BYTES <? len (hs_message h) then Err (HandshakeTooLarge (length (hs_message h)))
      else Ok tt
  end.

(** ** The tables *)
Record HandshakeRow : Type := mkRow {
  hr_group : list byte; hr_seq : Z; hr_message : list byte; hr_hash : list byte
}.
Record Ledger : Type := mkLedger { log : Store; rows : list HandshakeRow }.

Inductive HandshakeStoreError : Type :=
| HandshakeDatabase
| HandshakeRefused (error : HandshakeError)
| HandshakeBudgetExhausted (limit : Z).

Record StoredMessage : Type := mkStored { sm_seq : Z; sm_message : list byte }.

Inductive Appended : Type := AppendedStored (seq : Z) | AppendedDuplicate (seq : Z).
Definition appended_seq (a : Appended) : Z :=
  match a with AppendedStored seq | AppendedDuplicate seq => seq end.

Definition group_rows (l : Ledger) (group : list byte) : list HandshakeRow :=
  filter (λ r, hr_group r = group) (rows l).

(** [max(seq)] over some rows; [None] is SQL's null. *)
Fixpoint max_seq (rs : list HandshakeRow) : option Z :=
  match rs with
  | [] => None
  | r :: rs => Some (from_option (Z.max (hr_seq r)) (hr_seq r) (max_seq rs))
  end.
(** [coalesce(max(seq) + 1, 0)]. *)
Definition next_of (rs : list HandshakeRow) : Z := default 0 ((λ m, m + 1) <$> max_seq rs).

Definition existing_of (rs : list HandshakeRow) (hash : list byte) : option Z :=
  hr_seq <$> hd_error (filter (λ r, hr_hash r = hash) rs).

(** The constraints an insert can fail: the key, the unique index and the checks. *)
Definition row_violates (l : Ledger) (r : HandshakeRow) : bool :=
  existsb (λ r', bool_decide (hr_group r' = hr_group r)
             && ((hr_seq r' =? hr_seq r) || bool_decide (hr_hash r' = hr_hash r))) (rows l)
  || negb (length (hr_group r) =? 32)%nat || (hr_seq r <? 0)
  || negb (length (hr_hash r) =? 32)%nat || (len (hr_message r) =? 0).

(** The trigger [relay_handshake_budget_charge]: one statement, one row. *)
Definition handshake_charge (s : Store) (r : HandshakeRow) : Store :=
  match groups s !! hr_group r with
  | Some g => mkStore (groups s) (envelopes s) (charge_used (log_used s) (g_workspace g) (len (hr_message r)))
  | None => s
  end.

Section append.
Context `{Blake3}.

Definition handshake_hash (h : Handshake) : list byte := blake3 (hs_group h ++ hs_message h).

(** The insert, with its trigger, in the open transaction. *)
Definition handshake_insert (l : Ledger) (r : HandshakeRow) : result HandshakeStoreError Ledger :=
  if row_violates l r then Err HandshakeDatabase
  else Ok (mkLedger (handshake_charge (log l) r) (rows l ++ [r])).

(** The ceiling, read after the insert. *)
Definition handshake_over (l : Ledger) (group : list byte) (limit : option Z) : option Z :=
  match limit with
  | None => None
  | Some limit =>
      match g_workspace <$> groups (log l) !! group with
      | None => None
      | Some workspace =>
          if over_budget (default 0 (log_used (log l) !! workspace)) 0 (Some limit) then Some limit else None
      end
  end.

Definition append_within (l : Ledger) (h : Handshake) (limit : option Z) :
    result HandshakeStoreError Appended * Ledger :=
  match handshake_check h with
  | Err e => (Err (HandshakeRefused e), l)
  | Ok _ =>
      match groups (log l) !! hs_group h with
      | None => (Err HandshakeDatabase, l)
      | Some _ =>
          let rs := group_rows l (hs_group h) in
          match existing_of rs (handshake_hash h) with
          | Some seq => (Ok (AppendedDuplicate seq), l)
          | None =>
              let next := next_of rs in
              match handshake_insert l (mkRow (hs_group h) next (hs_message h) (handshake_hash h)) with
              | Err e => (Err e, l)
              | Ok l' =>
                  match handshake_over l' (hs_group h) limit with
                  | Some limit => (Err (HandshakeBudgetExhausted limit), l)
                  | None => (Ok (AppendedStored next), l')
                  end
              end
          end
      end
  end.

Definition append (l : Ledger) (h : Handshake) : result HandshakeStoreError Appended * Ledger :=
  append_within l h None.
End append.

(** ** The reads *)
Definition seq_le (r r' : HandshakeRow) : Prop := hr_seq r ≤ hr_seq r'.
#[global] Instance seq_le_dec : RelDecision seq_le.
Proof. intros r r'. unfold seq_le. apply _. Defined.
#[global] Instance seq_le_total : Total seq_le.
Proof. intros r r'. unfold seq_le. lia. Qed.
#[global] Instance seq_le_trans : Transitive seq_le.
Proof. intros r r' r''. unfold seq_le. lia. Qed.

(** [i64::try_from(from_seq).unwrap_or(i64::MAX)]. *)
Definition i64_or_max (z : Z) : Z := if z <=? I64_MAX then z else I64_MAX.

Definition page (l : Ledger) (group : list byte) (from_seq : Z) (limit : option Z) : list StoredMessage :=
  let from := i64_or_max from_seq in
  let limit := default U32_MAX limit in
  (λ r, mkStored (hr_seq r) (hr_message r)) <$>
    take (Z.to_nat limit) (merge_sort seq_le (filter (λ r, from ≤ hr_seq r) (group_rows l group))).

Definition since (l : Ledger) (group : list byte) (from_seq : Z) : list StoredMessage :=
  page l group from_seq None.

Definition head (l : Ledger) (group : list byte) : Z := next_of (group_rows l group).

(** ** Both logs moving together *)
Section ledger.
Context `{Blake3} (config : Config).

Inductive ledger_step : Ledger → Ledger → Prop :=
| ledger_log l s : envelope_step config (log l) s → ledger_step l (mkLedger s (rows l))
| ledger_append l h : ledger_step l (snd (append_within l h (limit_bytes config))).

Definition empty_ledger : Ledger := mkLedger empty_store [].
Definition reachable_ledger (l : Ledger) : Prop := rtc ledger_step empty_ledger l.
End ledger.

(** ** Dense sequences *)
(** The rows numbered [m], [m + 1], and so on. *)
Definition run_from (m : Z) (rs : list HandshakeRow) : Prop := hr_seq <$> rs = seqZ m (Z.of_nat (length rs)).
Abbreviation dense_rows := (run_from 0).

Lemma run_cons m r rs : run_from m (r :: rs) → hr_seq r = m ∧ run_from (m + 1) rs.
Proof.
  unfold run_from. rewrite fmap_cons, seqZ_cons by (cbn [length]; lia). intros [= <- ->].
  split; [done|]. f_equal. cbn [length]. lia.
Qed.

Lemma run_lookup m rs i r : run_from m rs → rs !! i = Some r → hr_seq r = m + Z.of_nat i.
Proof.
  intros Hd Hi. assert ((hr_seq <$> rs) !! i = Some (hr_seq r)) as Hs by (by rewrite list_lookup_fmap, Hi).
  rewrite Hd in Hs. by apply lookup_seqZ in Hs as [-> _].
Qed.

Lemma run_bounds m rs r : run_from m rs → r ∈ rs → m ≤ hr_seq r < m + Z.of_nat (length rs).
Proof.
  intros Hd Hr. apply list_elem_of_lookup in Hr as [i Hi]. rewrite (run_lookup _ _ _ _ Hd Hi).
  apply lookup_lt_Some in Hi. lia.
Qed.

Lemma run_snoc m rs r : run_from m rs → hr_seq r = m + Z.of_nat (length rs) → run_from m (rs ++ [r]).
Proof.
  unfold run_from. intros Hd Hr. rewrite fmap_app, Hd, length_app, Nat2Z.inj_add, seqZ_app by (cbn [length]; lia).
  f_equal. by rewrite fmap_cons, Hr.
Qed.

Lemma max_seq_run rs m : run_from m rs → rs ≠ [] → max_seq rs = Some (m + Z.of_nat (length rs) - 1).
Proof.
  revert m. induction rs as [|r rs IH]; intros m Hs Hne; [done|].
  apply run_cons in Hs as [Hr Hs]. cbn [max_seq length] in *.
  destruct rs as [|r' rs]; [cbn in *; f_equal; lia|].
  rewrite (IH (m + 1)) by done. cbn [from_option length]. f_equal. lia.
Qed.

Lemma next_of_dense rs : dense_rows rs → next_of rs = Z.of_nat (length rs).
Proof.
  intros Hd. unfold next_of. destruct rs as [|r rs]; [done|].
  rewrite (max_seq_run _ 0 Hd ltac:(done)). cbn -[Z.of_nat length Z.add Z.sub]. lia.
Qed.

Lemma run_filter_from m rs n :
  run_from m rs → filter (λ r, n ≤ hr_seq r) rs = drop (Z.to_nat (n - m)) rs.
Proof.
  revert m. induction rs as [|r rs IH]; intros m Hs; [by rewrite drop_nil|].
  apply run_cons in Hs as [Hr Hs]. rewrite filter_cons, (IH _ Hs). case_decide.
  - replace (Z.to_nat (n - m)) with 0%nat by lia. by replace (Z.to_nat (n - (m + 1))) with 0%nat by lia.
  - by replace (Z.to_nat (n - m)) with (S (Z.to_nat (n - (m + 1)))) by lia.
Qed.

Lemma run_sorted m rs : run_from m rs → StronglySorted seq_le rs ∧ Forall (λ r, m ≤ hr_seq r) rs.
Proof.
  revert m. induction rs as [|r rs IH]; intros m Hs; [by repeat constructor|].
  apply run_cons in Hs as [Hr Hs]. destruct (IH _ Hs) as [Hss Hlow].
  split; constructor; [done| |lia|]; (eapply Forall_impl; [exact Hlow|]); intros r'; unfold seq_le; lia.
Qed.

Lemma run_order_by m rs : run_from m rs → merge_sort seq_le rs = rs.
Proof.
  intros Hd. apply (StronglySorted_unique_strong seq_le).
  - intros x1 x2 H1 H2. unfold seq_le. rewrite (merge_sort_Permutation seq_le) in H1.
    apply list_elem_of_lookup in H1 as [i Hi], H2 as [j Hj].
    rewrite (run_lookup _ _ _ _ Hd Hi), (run_lookup _ _ _ _ Hd Hj). intros. assert (i = j) as -> by lia. congruence.
  - apply StronglySorted_merge_sort; apply _.
  - by apply (run_sorted m).
  - apply merge_sort_Permutation.
Qed.

Lemma run_drop m rs n : run_from m rs → run_from (m + Z.of_nat n) (drop n rs).
Proof.
  revert m n. induction rs as [|r rs IH]; intros m n Hs; [by rewrite drop_nil|].
  destruct n as [|n]; [by rewrite Z.add_0_r|]. apply run_cons in Hs as [_ Hs]. cbn [drop].
  replace (m + Z.of_nat (S n)) with (m + 1 + Z.of_nat n) by lia. by apply IH.
Qed.

(** Under a dense sequence a page is a slice of the rows. *)
Definition stored_of (r : HandshakeRow) : StoredMessage := mkStored (hr_seq r) (hr_message r).

Lemma page_dense l group from limit :
  dense_rows (group_rows l group) → 0 ≤ from ≤ I64_MAX →
  page l group from limit
  = stored_of <$> take (Z.to_nat (default U32_MAX limit)) (drop (Z.to_nat from) (group_rows l group)).
Proof.
  intros Hd Hf. unfold page, i64_or_max. rewrite (proj2 (Z.leb_le _ _)) by lia.
  rewrite (run_filter_from _ _ _ Hd), Z.sub_0_r.
  by rewrite (run_order_by _ _ (run_drop _ _ (Z.to_nat from) Hd)).
Qed.

(** ** The invariant of the two logs *)
(** What the handshake rows have charged to a workspace. *)
Definition message_cost (gs : gmap GroupId GroupRow) (w : WorkspaceId) (r : HandshakeRow) : Z :=
  if decide (g_workspace <$> gs !! hr_group r = Some w) then len (hr_message r) else 0.
Definition handshake_bytes (l : Ledger) (w : WorkspaceId) : Z :=
  zsum (message_cost (groups (log l)) w) (rows l).

Lemma message_cost_nonneg gs w r : 0 ≤ message_cost gs w r.
Proof. unfold message_cost, len. case_decide; lia. Qed.

Lemma handshake_bytes_nonneg l w : 0 ≤ handshake_bytes l w.
Proof. apply zsum_nonneg, message_cost_nonneg. Qed.

Lemma store_ok_ext others others' s :
  (∀ w, others w = others' w) → store_ok others s → store_ok others' s.
Proof. intros He [Hg Hr Hu Hs]. split; [done..|]. intros w. by rewrite <- He. Qed.

Lemma zsum_snoc {A} (f : A → Z) l x : zsum f (l ++ [x]) = zsum f l + f x.
Proof. unfold zsum. induction l as [|y l IH]; cbn [foldr app]; lia. Qed.

Section ledger_proofs.
Context `{Blake3Width} (config : Config).

Definition row_ok (gs : gmap GroupId GroupRow) (r : HandshakeRow) : Prop :=
  is_Some (gs !! hr_group r) ∧ hr_hash r = blake3 (hr_group r ++ hr_message r)
  ∧ length (hr_group r) = GROUP_BYTES ∧ 0 < len (hr_message r) ≤ MAX_MESSAGE_BYTES.

Record ledger_ok (l : Ledger) : Prop := {
  lo_store : store_ok (handshake_bytes l) (log l);
  lo_dense : ∀ group, dense_rows (group_rows l group);
  lo_rows : Forall (row_ok (groups (log l))) (rows l);
  lo_unique : NoDup ((λ r, (hr_group r, hr_hash r)) <$> rows l)
}.

Lemma handshake_check_ok h :
  handshake_check h = Ok tt ↔ length (hs_group h) = GROUP_BYTES ∧ 0 < len (hs_message h) ≤ MAX_MESSAGE_BYTES.
Proof.
  unfold handshake_check. destruct (Nat.eqb_spec (length (hs_group h)) GROUP_BYTES) as [Hg|Hg]; simpl; [|naive_solver].
  destruct (hs_message h) as [|b bs] eqn:Hm; [unfold len; simpl; split; [done|lia]|].
  destruct (Z.ltb_spec MAX_MESSAGE_BYTES (len (b :: bs))); unfold len in *; simpl in *; split; try done; lia.
Qed.

Lemma existing_none l group hash :
  existing_of (group_rows l group) hash = None →
  ∀ r, r ∈ rows l → hr_group r = group → hr_hash r ≠ hash.
Proof.
  unfold existing_of. destruct (filter _ (group_rows l group)) as [|r0 rs] eqn:Hf; [|done]. intros _ r Hr Hg Hh.
  assert (r ∈ filter (λ r, hr_hash r = hash) (group_rows l group)) as Hin.
  { apply list_elem_of_filter. split; [done|]. by apply list_elem_of_filter. }
  rewrite Hf in Hin. by apply elem_of_nil in Hin.
Qed.

Lemma existing_some l group hash seq :
  existing_of (group_rows l group) hash = Some seq →
  ∃ r, r ∈ rows l ∧ hr_group r = group ∧ hr_hash r = hash ∧ hr_seq r = seq.
Proof.
  unfold existing_of. destruct (filter _ (group_rows l group)) as [|r rs] eqn:Hf; [done|]. intros [= <-].
  assert (r ∈ filter (λ r, hr_hash r = hash) (group_rows l group)) as Hin by (rewrite Hf; apply list_elem_of_here).
  apply list_elem_of_filter in Hin as [Hh Hin]. apply list_elem_of_filter in Hin as [Hg Hin]. by exists r.
Qed.

(** A new row under the group's next number breaks no constraint. *)
Lemma next_row_fits l h :
  ledger_ok l → handshake_check h = Ok tt →
  existing_of (group_rows l (hs_group h)) (handshake_hash h) = None →
  row_violates l (mkRow (hs_group h) (next_of (group_rows l (hs_group h))) (hs_message h) (handshake_hash h)) = false.
Proof.
  intros Hok Hc He. apply handshake_check_ok in Hc as [Hg [Hm _]].
  pose proof (lo_dense _ Hok (hs_group h)) as Hd. unfold row_violates. cbn [hr_group hr_seq hr_message hr_hash].
  rewrite (next_of_dense _ Hd). rewrite Hg, (blake3_width _ : length (handshake_hash h) = 32%nat). cbn [Nat.eqb negb GROUP_BYTES orb].
  rewrite (proj2 (Z.ltb_ge _ _)), (proj2 (Z.eqb_neq _ _)) by lia. rewrite !orb_false_r.
  apply not_true_is_false. intros Hx. apply existsb_exists in Hx as (r & Hr & Hb). apply list_elem_of_In in Hr.
  apply andb_true_iff in Hb as [Hrg Hb]. apply bool_decide_eq_true in Hrg.
  apply orb_true_iff in Hb as [Hs|Hh].
  - apply Z.eqb_eq in Hs. pose proof (run_bounds _ _ r Hd) as Hb. rewrite Hs in Hb.
    assert (r ∈ group_rows l (hs_group h)) as Hin by (by apply list_elem_of_filter). specialize (Hb Hin). lia.
  - apply bool_decide_eq_true in Hh. by apply (existing_none _ _ _ He r).
Qed.

(** The cases of an append on tables in order. *)
Definition appended_to (l : Ledger) (h : Handshake) (g : GroupRow) : Ledger :=
  mkLedger (mkStore (groups (log l)) (envelopes (log l))
      (charge_used (log_used (log l)) (g_workspace g) (len (hs_message h))))
    (rows l ++ [mkRow (hs_group h) (Z.of_nat (length (group_rows l (hs_group h)))) (hs_message h) (handshake_hash h)]).

Variant append_spec (l : Ledger) (h : Handshake) (limit : option Z) :
    result HandshakeStoreError Appended * Ledger → Prop :=
| append_bad_bytes e : handshake_check h = Err e → append_spec l h limit (Err (HandshakeRefused e), l)
| append_no_group :
    handshake_check h = Ok tt → groups (log l) !! hs_group h = None → append_spec l h limit (Err HandshakeDatabase, l)
| append_again r :
    handshake_check h = Ok tt → r ∈ rows l → hr_group r = hs_group h → hr_hash r = handshake_hash h →
    append_spec l h limit (Ok (AppendedDuplicate (hr_seq r)), l)
| append_full g ceiling :
    handshake_check h = Ok tt → groups (log l) !! hs_group h = Some g → limit = Some ceiling →
    (∀ r, r ∈ rows l → hr_group r = hs_group h → hr_hash r ≠ handshake_hash h) →
    over_budget (used_bytes (log l) (g_workspace g) + len (hs_message h)) 0 (Some ceiling) = true →
    append_spec l h limit (Err (HandshakeBudgetExhausted ceiling), l)
| append_new g :
    handshake_check h = Ok tt → groups (log l) !! hs_group h = Some g →
    (∀ r, r ∈ rows l → hr_group r = hs_group h → hr_hash r ≠ handshake_hash h) →
    over_budget (used_bytes (log l) (g_workspace g) + len (hs_message h)) 0 limit = false →
    append_spec l h limit (Ok (AppendedStored (Z.of_nat (length (group_rows l (hs_group h))))), appended_to l h g).

Lemma append_cases l h limit : ledger_ok l → append_spec l h limit (append_within l h limit).
Proof using Type*.
  intros Hok. unfold append_within. destruct (handshake_check h) as [[]|e] eqn:Hc; [|by constructor].
  destruct (groups (log l) !! hs_group h) as [g|] eqn:Hg; [|by constructor].
  destruct (existing_of _ _) as [seq|] eqn:He.
  { apply existing_some in He as (r & Hr & Hrg & Hh & <-). by constructor. }
  unfold handshake_insert. rewrite (next_row_fits l h Hok Hc He). unfold handshake_charge. cbn [hr_group hr_message].
  rewrite Hg, (next_of_dense _ (lo_dense _ Hok (hs_group h))). fold (appended_to l h g).
  assert (default 0 (log_used (log (appended_to l h g)) !! g_workspace g)
    = used_bytes (log l) (g_workspace g) + len (hs_message h)) as Hu.
  { unfold appended_to, charge_used. cbn [log log_used]. by rewrite lookup_insert_eq. }
  unfold handshake_over. replace (groups (log (appended_to l h g))) with (groups (log l)) by done.
  rewrite Hg. cbn [fmap option_fmap option_map]. rewrite Hu. pose proof (existing_none _ _ _ He) as Hne.
  destruct limit as [limit|]; [|by apply append_new].
  destruct (over_budget _ 0 (Some limit)) eqn:Ho; [by apply (append_full l h (Some limit) g)|by apply append_new].
Qed.

Lemma group_rows_snoc l s r group :
  group_rows (mkLedger s (rows l ++ [r])) group
  = group_rows l group ++ (if decide (hr_group r = group) then [r] else []).
Proof. unfold group_rows. cbn [rows]. rewrite filter_app, filter_cons. by case_decide. Qed.

Lemma append_new_ok l h g :
  ledger_ok l → handshake_check h = Ok tt → groups (log l) !! hs_group h = Some g →
  (∀ r, r ∈ rows l → hr_group r = hs_group h → hr_hash r ≠ handshake_hash h) →
  ledger_ok (appended_to l h g).
Proof using Type*.
  intros Hok Hc Hg Hne. apply handshake_check_ok in Hc as Hb. pose proof Hok as [Hs Hd Hr Hn].
  unfold appended_to. split.
  - destruct Hs as [Hgs Hrows Huniq Hused]. split; [done..|]. intros w. specialize (Hused w).
    unfold handshake_bytes, used_bytes, summed_bytes in *. cbn [log rows groups envelopes log_used] in *.
    rewrite zsum_snoc. unfold message_cost at 2. cbn [hr_group hr_message]. rewrite Hg.
    cbn [fmap option_fmap option_map]. unfold charge_used.
    destruct (decide (Some (g_workspace g) = Some w)) as [[= <-]|Hw].
    + rewrite lookup_insert_eq, default_some. lia.
    + rewrite lookup_insert_ne by congruence. lia.
  - intros group. rewrite group_rows_snoc. cbn [hr_group]. case_decide as Hcase.
    + subst group. by apply run_snoc.
    + by rewrite app_nil_r.
  - cbn [log rows groups]. apply Forall_app. split; [done|]. apply Forall_singleton. split_and!; cbn; try apply Hb.
    + by rewrite Hg.
    + done.
  - cbn [rows]. rewrite fmap_app, NoDup_app. split_and!; [done| |apply NoDup_singleton].
    intros x Hx ->%list_elem_of_singleton. apply list_elem_of_fmap in Hx as (r & [= Hg' Hh'] & Hin).
    by apply (Hne r).
Qed.

Lemma append_ok l h limit : ledger_ok l → ledger_ok (snd (append_within l h limit)).
Proof using Type*.
  intros Hok. destruct (append_cases l h limit Hok); try exact Hok. cbn [snd]. by apply append_new_ok.
Qed.

(** Groups are never dropped by the log, nor moved between workspaces. *)
Lemma envelope_step_groups others s s' g :
  store_ok others s → envelope_step config s s' → is_Some (groups s !! g) →
  g_workspace <$> groups s' !! g = g_workspace <$> groups s !! g.
Proof using Type*.
  intros Hok Hs [row0 Hg0]. destruct Hs as [s e now _|s g' w Hg|s g' row b Hg|s g' h row r Hg He]; cbn [groups]; [| | |done].
  - destruct (accept_tx_cases config _ s e now Hok) as [[err ->]|[(r & _ & ->)|(row & Hg & _ & _ & _ & ->)]]; [done..|].
    cbn [snd groups]. destruct (decide (g = env_group e)) as [->|]; [|by rewrite lookup_insert_ne].
    by rewrite lookup_insert_eq, Hg.
  - rewrite lookup_insert_ne by congruence. done.
  - destruct (decide (g = g')) as [->|]; [|by rewrite lookup_insert_ne]. by rewrite lookup_insert_eq, Hg.
Qed.

Lemma ledger_step_ok l l' : ledger_ok l → ledger_step config l l' → ledger_ok l'.
Proof using Type*.
  intros Hok Hstep. destruct Hstep as [l s Hs|l h]; [|by apply append_ok]. destruct Hok as [Hst Hd Hr Hn].
  pose proof (λ g, envelope_step_groups _ _ _ g Hst Hs) as Hgs.
  split; cbn [log rows]; [|apply Hd| |done].
  - eapply store_ok_ext; [|by eapply envelope_step_ok; [apply handshake_bytes_nonneg|..]].
    intros w. unfold handshake_bytes. cbn [log rows]. apply zsum_ext. eapply Forall_impl; [exact Hr|].
    intros r (Hg & _). unfold message_cost. by rewrite (Hgs _ Hg).
  - eapply Forall_impl; [exact Hr|]. intros r (Hg & Hrest). split; [|exact Hrest].
    specialize (Hgs _ Hg). destruct Hg as [row Hg]. rewrite Hg in Hgs.
    destruct (groups s !! hr_group r); [by eexists|done].
Qed.

Lemma empty_ledger_ok : ledger_ok empty_ledger.
Proof using Type*.
  split; [|done|by constructor|by constructor]. eapply store_ok_ext; [|apply empty_store_ok; done]. done.
Qed.

Lemma ledger_steps_ok l l' : rtc (ledger_step config) l l' → ledger_ok l → ledger_ok l'.
Proof using Type*. induction 1; [done|]. eauto using ledger_step_ok. Qed.

Lemma reachable_ledger_ok l : reachable_ledger config l → ledger_ok l.
Proof using Type*. intros Hr. eapply ledger_steps_ok; [exact Hr|apply empty_ledger_ok]. Qed.

(** The handshake log of a group is a dense sequence in every state the two
    logs reach: reading it from the start gives the messages numbered 0, 1, 2
    and so on with none missing and none twice, the next number is their count,
    and every message is the bytes its content address names. *)
Theorem handshake_log_dense l group :
  reachable_ledger config l → head l group ≤ U32_MAX →
  (sm_seq <$> since l group 0 = seqZ 0 (head l group))
  ∧ NoDup (sm_message <$> since l group 0)
  ∧ Forall (λ m, 0 < len (sm_message m) ≤ MAX_MESSAGE_BYTES) (since l group 0)
  ∧ ∀ r, r ∈ group_rows l group → hr_hash r = handshake_hash (mkHandshake group (hr_message r)).
Proof using Type*.
  intros Hr Hh. apply reachable_ledger_ok in Hr as [_ Hd Hrows Hn]. specialize (Hd group).
  unfold head in *. rewrite (next_of_dense _ Hd) in *. unfold since. rewrite page_dense by (done || lia).
  cbn [default]. rewrite drop_0, take_ge by (unfold U32_MAX in *; lia).
  assert (∀ r, r ∈ group_rows l group → hr_group r = group ∧ row_ok (groups (log l)) r) as Hin.
  { intros r [Hg Hi]%list_elem_of_filter. split; [done|]. by apply (proj1 (Forall_forall _ _) Hrows). }
  split_and!.
  - by rewrite <- list_fmap_compose.
  - rewrite <- list_fmap_compose. apply NoDup_fmap_2_strong.
    + intros r r' Hi Hi'. cbn. intros Hm. destruct (Hin _ Hi) as [Hg (_ & Hh1 & _)].
      destruct (Hin _ Hi') as [Hg' (_ & Hh2 & _)].
      eapply (NoDup_fmap_unique (λ r, (hr_group r, hr_hash r)) (rows l)); [done| | |].
      * by apply list_elem_of_filter in Hi as [_ ?].
      * by apply list_elem_of_filter in Hi' as [_ ?].
      * cbn. by rewrite Hh1, Hh2, Hg, Hg', Hm.
    + apply NoDup_filter. by apply NoDup_fmap_1 in Hn.
  - apply Forall_fmap, Forall_forall. intros r Hi. apply Hin in Hi as [_ (_ & _ & _ & Hb)]. exact Hb.
  - intros r Hi. destruct (Hin _ Hi) as [Hg (_ & Hh1 & _)]. unfold handshake_hash. cbn. by rewrite Hh1, Hg.
Qed.

(** A commit above the ceiling is refused whichever log it goes to. *)
Lemma ledger_step_within_budget l l' :
  ledger_ok l → within_budget config (log l) → ledger_step config l l' → within_budget config (log l').
Proof using Type*.
  intros Hok Hb Hstep. destruct Hstep as [l s Hs|l h].
  { cbn [log]. by eapply envelope_step_within_budget; [apply Hok|..]. }
  destruct (append_cases l h (limit_bytes config) Hok) as [| | | |g _ Hg _ Ho]; try exact Hb.
  intros limit w Hl Hlt. specialize (Hb limit w Hl Hlt). rewrite Hl in Ho. unfold over_budget in Ho.
  apply Z.ltb_ge in Ho. cbn [snd]. unfold appended_to, used_bytes, charge_used in *. cbn [log log_used] in *.
  destruct (decide (g_workspace g = w)) as [<-|].
  - rewrite lookup_insert_eq, default_some. unfold i64_saturating, I64_MAX, I64_MIN in *. lia.
  - rewrite lookup_insert_ne by done. exact Hb.
Qed.

(** Every step of the two logs is, on the envelope log's tables, the step
    [Accept] has for it. *)
Lemma ledger_step_log l l' :
  ledger_ok l → ledger_step config l l' → log l' = log l ∨ log_step config (log l) (log l').
Proof using Type*.
  intros Hok Hstep. destruct Hstep as [l s Hs|l h]; [right; by apply log_envelope|].
  destruct (append_cases l h (limit_bytes config) Hok) as [| | | |g _ Hg _ Ho]; try by left.
  right. apply (log_commit config (log l) (hs_group h) g); [done|unfold len; lia|exact Ho].
Qed.

Lemma reachable_within_budget l : reachable_ledger config l → within_budget config (log l).
Proof using Type*.
  intros Hr. assert (∀ a b, rtc (ledger_step config) a b → ledger_ok a → within_budget config (log a) →
    within_budget config (log b)) as Hgen.
  { induction 1 as [|a b c Hs _ IH]; [done|]. eauto using ledger_step_ok, ledger_step_within_budget. }
  apply (Hgen _ _ Hr empty_ledger_ok).
  intros ? w' _ _. unfold used_bytes. cbn [empty_ledger log empty_store log_used].
  rewrite lookup_empty. cbn [default]. lia.
Qed.

(** C3. Whatever [SEND]s, commits, group creations, freezes and compactions run
    in whatever order, the tables of the two logs stay consistent: no two
    envelopes of a group share a sequence number and each number is at least one
    and below the group's counter; the handshakes of a group are numbered from
    zero without a gap; a workspace's byte counter is the bytes of its stored
    ciphertexts plus the bytes of its stored handshakes; and where a limit below
    the largest signed 64-bit number is configured, both together stay within it
    (a limit at that number, where the sum saturates, refuses nothing). *)
Theorem both_logs_stay_consistent l :
  reachable_ledger config l →
  (∀ g h h' r r', envelopes (log l) !! (g, h) = Some r → envelopes (log l) !! (g, h') = Some r' →
     r_seq r = r_seq r' → h = h')
  ∧ (∀ g h r, envelopes (log l) !! (g, h) = Some r →
       ∃ row, groups (log l) !! g = Some row ∧ 1 ≤ r_seq r < next_seq row)
  ∧ (∀ g, hr_seq <$> group_rows l g = seqZ 0 (Z.of_nat (length (group_rows l g))))
  ∧ (∀ w, used_bytes (log l) w = summed_bytes (log l) w + handshake_bytes l w)
  ∧ (∀ limit w, limit_bytes config = Some limit → limit < I64_MAX →
       summed_bytes (log l) w + handshake_bytes l w ≤ Z.max 0 limit).
Proof using Type*.
  intros Hr. apply reachable_ledger_ok in Hr as Hok. split_and!; [apply (lo_store _ Hok)..|apply Hok|apply (lo_store _ Hok)|].
  intros limit w Hl Hlt. rewrite <- (ok_used (lo_store _ Hok)). by apply reachable_within_budget.
Qed.

Lemma ledger_step_prefix l l' : ledger_ok l → ledger_step config l l' → rows l `prefix_of` rows l'.
Proof using Type*.
  intros Hok Hs. destruct Hs as [l s Hs|l h]; [done|].
  destruct (append_cases l h (limit_bytes config) Hok); try done. by eexists.
Qed.

Lemma ledger_steps_prefix l l' : ledger_ok l → rtc (ledger_step config) l l' → rows l `prefix_of` rows l'.
Proof using Type*.
  intros Hok. induction 1 as [|a b c Hs _ IH]; [done|].
  etrans; [by apply ledger_step_prefix|]. apply IH. by eapply ledger_step_ok.
Qed.

(** A row with this address answers every later append of it. *)
Lemma append_held l h limit r :
  ledger_ok l → handshake_check h = Ok tt → r ∈ rows l → hr_group r = hs_group h →
  hr_hash r = handshake_hash h → append_within l h limit = (Ok (AppendedDuplicate (hr_seq r)), l).
Proof using Type*.
  intros Hok Hc Hr Hg Hh. pose proof (proj1 (Forall_forall _ _) (lo_rows _ Hok) r Hr) as [Hgr _].
  destruct (append_cases l h limit Hok) as [e He|_ Hn|r' _ Hr' Hg' Hh'|g c _ _ _ Hne _|g _ _ Hne _].
  - congruence.
  - rewrite Hg, Hn in Hgr. by destruct Hgr.
  - assert (r' = r) as ->; [|done].
    apply (NoDup_fmap_unique (λ r, (hr_group r, hr_hash r)) (rows l)); [apply Hok|done..|]. cbn. congruence.
  - by destruct (Hne r Hr Hg).
  - by destruct (Hne r Hr Hg).
Qed.

(** A committer that retries is always safe: once a handshake has its number,
    sending it again after anything else has happened to either log is answered
    with that number, and writes and charges nothing, ceiling or no ceiling. *)
Theorem handshake_resend l h limit a l1 l2 later :
  reachable_ledger config l → append_within l h limit = (Ok a, l1) →
  rtc (ledger_step config) l1 l2 →
  append_within l2 h later = (Ok (AppendedDuplicate (appended_seq a)), l2).
Proof using Type*.
  intros Hr Ha Hs. apply reachable_ledger_ok in Hr as Hok. pose proof (append_ok l h limit Hok) as Hok1.
  rewrite Ha in Hok1. cbn [snd] in Hok1.
  assert (∃ r, handshake_check h = Ok tt ∧ r ∈ rows l1 ∧ hr_group r = hs_group h
    ∧ hr_hash r = handshake_hash h ∧ hr_seq r = appended_seq a) as (r & Hc & Hin & Hg & Hh & <-).
  { pose proof (append_cases l h limit Hok) as Hsp. rewrite Ha in Hsp. inversion Hsp as [| |r|g c|g]; subst.
    - by exists r.
    - eexists. split_and!; [done|cbn [appended_to rows]; apply elem_of_app; right; apply list_elem_of_here|done..]. }
  apply append_held; try done.
  - by eapply ledger_steps_ok.
  - eapply elem_of_prefix; [exact Hin|]. by apply ledger_steps_prefix.
Qed.

(** What an append does, on every branch: a new message takes the group's
    next number, is what a read at that number returns, and moves no other
    group and no earlier row; a message already held answers its number; a
    refusal changes no table. Two different messages never share a number,
    short of a BLAKE3 collision. *)
Theorem append_stores_or_changes_nothing l h limit :
  reachable_ledger config l → head l (hs_group h) < U32_MAX →
  match append_within l h limit with
  | (Ok (AppendedStored seq), l') =>
      seq = head l (hs_group h) ∧ head l' (hs_group h) = seq + 1
      ∧ page l' (hs_group h) seq (Some 1) = [mkStored seq (hs_message h)]
      ∧ (∀ g from n, 0 ≤ from ≤ I64_MAX → g ≠ hs_group h → page l' g from n = page l g from n)
      ∧ since l' (hs_group h) 0 = since l (hs_group h) 0 ++ [mkStored seq (hs_message h)]
  | (Ok (AppendedDuplicate seq), l') =>
      l' = l ∧ ∃ r, r ∈ group_rows l (hs_group h) ∧ hr_seq r = seq
        ∧ (hr_message r = hs_message h ∨ collision (hs_group h ++ hr_message r) (hs_group h ++ hs_message h))
  | (Err _, l') => l' = l
  end.
Proof using Type*.
  intros Hr Hhead. apply reachable_ledger_ok in Hr as Hok. pose proof (append_ok l h limit Hok) as Hok1.
  pose proof (lo_dense _ Hok (hs_group h)) as Hd.
  destruct (append_cases l h limit Hok) as [| |r _ Hin Hg Hh| |g _ Hg _ _]; try done.
  - split; [done|]. exists r. split_and!; [by apply list_elem_of_filter|done|].
    pose proof (proj1 (Forall_forall _ _) (lo_rows _ Hok) r Hin) as (_ & Hh' & _).
    destruct (decide (hr_message r = hs_message h)) as [|Hne]; [by left|right].
    rewrite Hg in Hh'. split; [intros E; by apply app_inv_head in E|]. rewrite <- Hh'. exact Hh.
  - cbn [snd] in Hok1. set (l' := appended_to l h g) in *. unfold head in *. rewrite (next_of_dense _ Hd) in *.
    assert (group_rows l' (hs_group h) = group_rows l (hs_group h) ++
      [mkRow (hs_group h) (Z.of_nat (length (group_rows l (hs_group h)))) (hs_message h) (handshake_hash h)]) as Hrs.
    { unfold l', appended_to. rewrite group_rows_snoc. cbn [hr_group]. by rewrite decide_True. }
    pose proof (lo_dense _ Hok1 (hs_group h)) as Hd'. split_and!; [done| | | |].
    + rewrite (next_of_dense _ Hd'), Hrs, length_app. cbn [length]. lia.
    + rewrite page_dense by (done || unfold U32_MAX, I64_MAX in *; lia). rewrite Hrs, Nat2Z.id, drop_app_length. done.
    + intros g' from n Hf Hne. rewrite !page_dense by (done || apply Hok || apply Hok1). do 3 f_equal.
      unfold l', appended_to. rewrite group_rows_snoc. cbn [hr_group]. by rewrite decide_False, app_nil_r.
    + unfold since. rewrite !page_dense by (done || unfold I64_MAX; lia). cbn [default]. rewrite !drop_0, Hrs.
      rewrite !take_ge by (rewrite ?length_app; unfold U32_MAX in *; cbn [length]; lia). by rewrite fmap_app.
Qed.
End ledger_proofs.

(** ** A concrete run *)
Module HandshakeDemo.
#[local] Instance demo_blake3 : Blake3 := poly_digest.
#[local] Instance demo_width : Blake3Width := poly_digest_width.

Definition commit (b : Byte.byte) : Handshake := mkHandshake example_group [b; b].
Definition founded : Ledger := mkLedger store0 [].
Definition limit := limit_bytes example_config.
Definition one : Ledger := snd (append_within founded (commit Byte.x01) limit).
Definition two : Ledger := snd (append_within one (commit Byte.x02) limit).

Lemma ledger_founded_step : ledger_step example_config empty_ledger founded.
Proof. apply (ledger_log example_config empty_ledger), store0_step. Qed.
Lemma two_reachable : reachable_ledger example_config two.
Proof.
  eapply rtc_l; [apply ledger_founded_step|].
  eapply rtc_l; [apply (ledger_append example_config founded (commit Byte.x01))|].
  apply rtc_once. apply (ledger_append example_config one (commit Byte.x02)).
Qed.
Lemma ledger_founded_reachable : reachable_ledger example_config founded.
Proof. apply rtc_once, ledger_founded_step. Qed.
Lemma one_to_two : rtc (ledger_step example_config) one two.
Proof. apply rtc_once. apply (ledger_append example_config one (commit Byte.x02)). Qed.

Lemma handshake_log_dense_witness : head two example_group = 2 ∧ sm_seq <$> since two example_group 0 = [0; 1].
Proof.
  assert (head two example_group = 2) as Hh by (by vm_compute). split; [exact Hh|].
  assert (head two example_group ≤ U32_MAX) as Hle by (rewrite Hh; unfold U32_MAX; lia).
  destruct (handshake_log_dense example_config two example_group two_reachable Hle) as [Hs _].
  rewrite Hs, Hh. reflexivity.
Defined.

Lemma both_logs_stay_consistent_witness :
  used_bytes (log two) example_ws = summed_bytes (log two) example_ws + handshake_bytes two example_ws
  ∧ handshake_bytes two example_ws = 4 ∧ hr_seq <$> group_rows two example_group = [0; 1].
Proof.
  destruct (both_logs_stay_consistent example_config two two_reachable) as (_ & _ & Hseq & Hused & _).
  split; [apply Hused|]. split; [by vm_compute|]. by rewrite Hseq.
Defined.

Lemma first_appended : append_within founded (commit Byte.x01) limit = (Ok (AppendedStored 0), one).
Proof.
  unfold one. assert (fst (append_within founded (commit Byte.x01) limit) = Ok (AppendedStored 0)) as Hf by (by vm_compute).
  destruct (append_within founded (commit Byte.x01) limit) as [r s]. cbn [fst snd] in *. by rewrite Hf.
Qed.

Lemma handshake_resend_witness :
  append_within two (commit Byte.x01) (Some 0) = (Ok (AppendedDuplicate 0), two).
Proof.
  exact (handshake_resend example_config founded (commit Byte.x01) limit _ one two (Some 0)
    ledger_founded_reachable first_appended one_to_two).
Defined.

Lemma append_stores_or_changes_nothing_witness :
  match append_within two (commit Byte.x03) (Some 4) with
  | (Err _, l') => l' = two
  | _ => False
  end.
Proof.
  assert (head two (hs_group (commit Byte.x03)) < U32_MAX) as Hh by (by vm_compute).
  pose proof (append_stores_or_changes_nothing example_config two (commit Byte.x03) (Some 4) two_reachable Hh) as Ht.
  assert (fst (append_within two (commit Byte.x03) (Some 4)) = Err (HandshakeBudgetExhausted 4)) as Hf by (by vm_compute).
  destruct (append_within two (commit Byte.x03) (Some 4)) as [r l']. cbn [fst] in Hf. rewrite Hf in *. exact Ht.
Defined.
End HandshakeDemo.
