(* ===== verification/Budgets.v ===== *)
(** * Inbound budgets

    Models [send_budget.rs] (one device's [SEND]s per minute),
    [group_ingress.rs] (bytes per principal and group, and per workspace), and
    the per-connection [FrameBudget] of [session.rs]. The first two count in
    fixed wall-clock windows and satisfy one interface, [WindowMeter], against
    which the bound on what a window admits is proved once. *)

From Stdlib Require Import ZArith Lia.
From stdpp Require Import base tactics numbers list gmap sets fin_maps.
From S2P Require Import Prelude Cbor Push Frame.

Open Scope Z_scope.

(** ** Sums *)
Definition total {A} (f : A → Z) (l : list A) : Z := foldr (λ x acc, f x + acc) 0 l.

Lemma total_app {A} (f : A → Z) l l' : total f (l ++ l') = total f l + total f l'.
Proof. induction l as [|x l IH]; simpl; [done|]. rewrite IH. lia. Qed.

(** ** The per-device budget on [SEND] *)
Definition SEND_WINDOW_MS : Z := 60000.
Definition DEFAULT_SEND_FRAMES_PER_MINUTE : Z := 6000.
Definition DEFAULT_SEND_BYTES_PER_MINUTE : Z := 64 * 1024 * 1024.
Definition MAX_TRACKED_DEVICES : nat := 4096.

Inductive SendRefusal : Type := FrameRate | ByteRate.
Definition send_refusal_code (r : SendRefusal) : ErrorCode :=
  match r with FrameRate | ByteRate => RateLimited end.
Definition send_refusal_retry_after (r : SendRefusal) : Z := Z.max (SEND_WINDOW_MS / 1000) 1.

Record DeviceUsage : Type := mkDeviceUsage { du_window : Z; du_frames : Z; du_bytes : Z }.
Definition default_usage : DeviceUsage := mkDeviceUsage 0 0 0.

Record SendBudget : Type := mkSendBudget {
  devices : gmap (list byte) DeviceUsage;
  frames_per_window : Z;
  bytes_per_window : Z
}.
Definition send_budget_new (frames_per_window bytes_per_window : Z) : SendBudget :=
  mkSendBudget ∅ frames_per_window bytes_per_window.

Definition send_refusal_detail (r : SendRefusal) (b : SendBudget) : Z :=
  match r with FrameRate => frames_per_window b | ByteRate => bytes_per_window b end.
Definition send_refusal_frame (r : SendRefusal) (b : SendBudget) : FrameError :=
  with_detail (with_retry_after (FrameError_new (send_refusal_code r)) (send_refusal_retry_after r))
    (be_bytes 8 (send_refusal_detail r b)).

Definition sweep (ds : gmap (list byte) DeviceUsage) (window : Z) : gmap (list byte) DeviceUsage :=
  if (size ds <=? MAX_TRACKED_DEVICES)%nat then ds
  else filter (λ kv, du_window (snd kv) = window) ds.

(** The entry a charge works on: swept, created on first use, and reset when
    its window is not this one. *)
Definition current_usage (ds : gmap (list byte) DeviceUsage) (device : list byte) (window : Z)
    : DeviceUsage :=
  let usage := default default_usage (ds !! device) in
  if du_window usage =? window then usage else mkDeviceUsage window 0 0.

Definition send_charge (b : SendBudget) (device : list byte) (bytes now_ms : Z)
    : result SendRefusal unit * SendBudget :=
  let window := now_ms / SEND_WINDOW_MS in
  let ds := sweep (devices b) window in
  let usage := current_usage ds device window in
  let frames := u64_saturating_add (du_frames usage) 1 in
  let spent := u64_saturating_add (du_bytes usage) bytes in
  let put u := mkSendBudget (<[device := u]> ds) (frames_per_window b) (bytes_per_window b) in
  if frames_per_window b <? frames then (Err FrameRate, put usage)
  else if bytes_per_window b <? spent then (Err ByteRate, put usage)
  else (Ok tt, put (mkDeviceUsage window frames spent)).

Definition send_spent (b : SendBudget) (device : list byte) (now_ms : Z) : Z * Z :=
  let window := now_ms / SEND_WINDOW_MS in
  match devices b !! device with
  | Some usage => if du_window usage =? window then (du_frames usage, du_bytes usage) else (0, 0)
  | None => (0, 0)
  end.
Definition tracked (b : SendBudget) : nat := size (devices b).

(** ** The per-group and per-workspace budget on [SEND] *)
Definition GROUP_INGRESS_WINDOW_MS : Z := 60000.
Definition DEFAULT_PRINCIPAL_GROUP_BYTES_PER_MINUTE : Z := 8 * 1024 * 1024.
Definition DEFAULT_WORKSPACE_BYTES_PER_MINUTE : Z := 64 * 1024 * 1024.
Definition MAX_TRACKED_KEYS : nat := 16384.

Inductive IngressRefusal : Type := PrincipalGroup | WorkspaceIngress.

Record Usage : Type := mkUsage { u_window : Z; u_bytes : Z }.
Record GroupIngressBudget : Type := mkGroupIngressBudget {
  principal_group : gmap (list byte * list byte) Usage;
  workspace_use : gmap (list byte) Usage;
  refused : Z;
  principal_group_bytes : Z;
  workspace_bytes : Z
}.
Definition group_ingress_new (principal_group_bytes workspace_bytes : Z) : GroupIngressBudget :=
  mkGroupIngressBudget ∅ ∅ 0 principal_group_bytes workspace_bytes.

Definition ingress_refusal_frame (r : IngressRefusal) (b : GroupIngressBudget) : FrameError :=
  let limit := match r with
               | PrincipalGroup => principal_group_bytes b
               | WorkspaceIngress => workspace_bytes b end in
  with_detail (with_retry_after (FrameError_new GroupIngressLimited)
                 (Z.max (GROUP_INGRESS_WINDOW_MS / 1000) 1)) (be_bytes 8 limit).

(** [retain(|_, usage| usage.window == window)] above the bound. *)
Definition retain_window {K} `{Countable K} (m : gmap K Usage) (window : Z) : gmap K Usage :=
  if (MAX_TRACKED_KEYS <? size m)%nat then filter (λ kv, u_window (snd kv) = window) m else m.

(** [current] on [entry(key).or_default()]: the entry it leaves behind. *)
Definition usage_current (u : option Usage) (window : Z) : Usage :=
  let u := default (mkUsage 0 0) u in
  if u_window u =? window then u else mkUsage window 0.

(** [AtomicU64::fetch_add] wraps. *)
Definition fetch_add_u64 (n : Z) : Z := (n + 1) mod 2 ^ 64.

Definition ingress_charge (b : GroupIngressBudget) (principal group workspace : list byte)
    (bytes now_ms : Z) : result IngressRefusal unit * GroupIngressBudget :=
  let window := now_ms / GROUP_INGRESS_WINDOW_MS in
  let pg := retain_window (principal_group b) window in
  let ws := retain_window (workspace_use b) window in
  let key := (principal, group) in
  let pu := usage_current (pg !! key) window in
  let wu := usage_current (ws !! workspace) window in
  let pair := u64_saturating_add (u_bytes pu) bytes in
  let whole := u64_saturating_add (u_bytes wu) bytes in
  let put p w refused := mkGroupIngressBudget (<[key := p]> pg) (<[workspace := w]> ws) refused
    (principal_group_bytes b) (workspace_bytes b) in
  if principal_group_bytes b <? pair
  then (Err PrincipalGroup, put pu wu (fetch_add_u64 (refused b)))
  else if workspace_bytes b <? whole
  then (Err WorkspaceIngress, put pu wu (fetch_add_u64 (refused b)))
  else (Ok tt, put (mkUsage window pair) (mkUsage window whole) (refused b)).

(** ** The interface of a budget that counts in fixed windows

    [spent s k w] is what key [k] has been charged in window [w]. A request
    that is admitted is charged what it costs each key and stays inside every
    limit; a refused one charges nobody; and nothing is charged to a window
    that has not begun. *)
Class WindowMeter {S R K : Type} (charge : S → R → bool * S) (window : R → Z)
    (cost : R → K → Z) (spent : S → K → Z → Z) (limit : K → Z) (usable : S → Prop) : Prop := {
  meter_usable s r : usable s → usable (snd (charge s r));
  meter_admits s r s' k : usable s → charge s r = (true, s') →
    spent s' k (window r) = spent s k (window r) + cost r k ∧ spent s' k (window r) ≤ limit k;
  meter_refuses s r s' k : usable s → charge s r = (false, s') →
    spent s' k (window r) = spent s k (window r);
  meter_future s r k w : usable s →
    (∀ k' w', window r ≤ w' → w' ≠ window r → spent s k' w' = 0) → window r < w →
    spent (snd (charge s r)) k w = 0
}.

Section metered.
Context {S R K : Type} (charge : S → R → bool * S) (window : R → Z) (cost : R → K → Z)
  (spent : S → K → Z → Z) (limit : K → Z) (usable : S → Prop).
Context `{!WindowMeter charge window cost spent limit usable}.
Context (limit_nonneg : ∀ k, 0 ≤ limit k).

(** The requests a sequence of charges admits, in order. *)
Fixpoint admitted (s : S) (rs : list R) : list R :=
  match rs with
  | [] => []
  | r :: rest =>
      let '(ok, s') := charge s r in
      if ok then r :: admitted s' rest else admitted s' rest
  end.

(** What the requests of [l] that fall in window [w] cost [k]. *)
Definition window_cost (k : K) (w : Z) (l : list R) : Z :=
  total (λ r, if decide (window r = w) then cost r k else 0) l.

(** Requests arrive in the order of a clock that does not run backwards. *)
Fixpoint in_order (w0 : Z) (rs : list R) : Prop :=
  match rs with
  | [] => True
  | r :: rest => w0 ≤ window r ∧ in_order (window r) rest
  end.

Lemma admitted_within s rs w0 k w :
  usable s → in_order w0 rs → (∀ k' w', w0 < w' → spent s k' w' = 0) →
  spent s k w0 ≤ limit k →
  (w = w0 → spent s k w0 + window_cost k w (admitted s rs) ≤ limit k)
  ∧ (w0 < w → window_cost k w (admitted s rs) ≤ limit k)
  ∧ (w < w0 → window_cost k w (admitted s rs) = 0).
Proof using Type*.
  revert s w0. induction rs as [|r rs IH]; intros s w0 Hu Ho Hf Hsp; simpl.
  { unfold window_cost. simpl. specialize (limit_nonneg k). lia. }
  destruct Ho as [Hle Ho]. destruct (charge s r) as [ok s'] eqn:Hc.
  pose proof (meter_usable s r Hu) as Hu'. rewrite Hc in Hu'. cbn [snd] in Hu'.
  assert (∀ k' w', window r < w' → spent s' k' w' = 0) as Hf'.
  { intros k' w' Hw. pose proof (meter_future s r k' w' Hu) as Hm. rewrite Hc in Hm. apply Hm; [|done].
    intros k'' w'' Hge Hne. apply Hf. lia. }
  assert (window r ≠ w0 → spent s k (window r) = 0) as Hzero by (intros; apply Hf; lia).
  destruct ok.
  - destruct (meter_admits s r s' k Hu Hc) as [Hs' Hl'].
    destruct (IH s' (window r) Hu' Ho Hf' Hl') as (I1 & I2 & I3).
    unfold window_cost in *. cbn [total foldr]. fold (total (λ r, if decide (window r = w) then cost r k else 0) (admitted s' rs)).
    destruct (decide (window r = w)) as [Hw|Hw].
    + specialize (I1 (eq_sym Hw)). subst w. split_and!; intros.
      * replace w0 with (window r) by lia. lia.
      * rewrite Hzero in Hs' by lia. lia.
      * lia.
    + split_and!; intros.
      * assert (w < window r) by lia. rewrite I3 by done. lia.
      * destruct (Z.lt_ge_cases w (window r)); [rewrite I3 by done | rewrite Z.add_0_l; apply I2; lia].
        specialize (limit_nonneg k). lia.
      * rewrite I3 by lia. lia.
  - pose proof (meter_refuses s r s' k Hu Hc) as Hs'.
    assert (spent s' k (window r) ≤ limit k) as Hl'.
    { rewrite Hs'. destruct (decide (window r = w0)) as [->|Hne]; [done|].
      rewrite Hzero by done. apply limit_nonneg. }
    destruct (IH s' (window r) Hu' Ho Hf' Hl') as (I1 & I2 & I3).
    split_and!; intros.
    + destruct (decide (window r = w0)) as [E|E].
      * rewrite <- E, <- Hs'. apply I1. lia.
      * rewrite I3 by lia. lia.
    + destruct (Z.lt_trichotomy w (window r)) as [|[Hw|]].
      * rewrite I3 by done. apply limit_nonneg.
      * specialize (I1 Hw). rewrite Hs', Hzero in I1 by lia. lia.
      * by apply I2.
    + apply I3. lia.
Qed.

(** What any window admits is inside the limit, from a fresh meter. *)
Lemma fresh_within s rs k w :
  usable s → (∀ k' w', spent s k' w' = 0) → in_order 0 rs → 0 ≤ w →
  window_cost k w (admitted s rs) ≤ limit k.
Proof using Type*.
  intros Hu Hz Ho Hw.
  destruct (admitted_within s rs 0 k w Hu Ho) as (I1 & I2 & _); [auto | by rewrite Hz |].
  destruct (decide (w = 0)) as [->|]; [|apply I2; lia]. specialize (I1 eq_refl). rewrite Hz in I1. lia.
Qed.
End metered.

(** ** Both budgets are window meters *)
Record SendRequest : Type := mkSendRequest { rq_device : list byte; rq_bytes : Z; rq_now : Z }.
Definition send_window (r : SendRequest) : Z := rq_now r / SEND_WINDOW_MS.
Definition send_step (b : SendBudget) (r : SendRequest) : bool * SendBudget :=
  let '(res, b') := send_charge b (rq_device r) (rq_bytes r) (rq_now r) in (is_ok res, b').

Definition usage_at (b : SendBudget) (d : list byte) (w : Z) : Z * Z :=
  match devices b !! d with
  | Some u => if du_window u =? w then (du_frames u, du_bytes u) else (0, 0)
  | None => (0, 0)
  end.
Definition frame_cost (r : SendRequest) (d : list byte) : Z :=
  if decide (rq_device r = d) then 1 else 0.
Definition byte_cost (r : SendRequest) (d : list byte) : Z :=
  if decide (rq_device r = d) then rq_bytes r else 0.
Definition send_limits (f l : Z) (b : SendBudget) : Prop :=
  frames_per_window b = f ∧ bytes_per_window b = l.

Lemma sweep_current ds w d u :
  sweep ds w !! d = Some u → ds !! d = Some u.
Proof.
  unfold sweep. case_match; [done|]. intros Hf. by apply map_lookup_filter_Some in Hf as [? _].
Qed.
Lemma sweep_kept ds w d u :
  ds !! d = Some u → du_window u = w → sweep ds w !! d = Some u.
Proof.
  intros Hd Hw. unfold sweep. case_match; [done|]. by apply map_lookup_filter_Some.
Qed.

Lemma usage_swept b w d :
  usage_at (mkSendBudget (sweep (devices b) w) (frames_per_window b) (bytes_per_window b)) d w
  = usage_at b d w.
Proof.
  unfold usage_at. cbn [devices]. destruct (sweep (devices b) w !! d) as [u|] eqn:Hs.
  - by rewrite (sweep_current _ _ _ _ Hs).
  - destruct (devices b !! d) as [u|] eqn:Hd; [|done]. destruct (Z.eqb_spec (du_window u) w); [|done].
    by rewrite (sweep_kept _ _ _ _ Hd) in Hs.
Qed.

Lemma current_usage_at b d w :
  let u := current_usage (sweep (devices b) w) d w in
  du_window u = w ∧ (du_frames u, du_bytes u) = usage_at b d w.
Proof.
  rewrite <- usage_swept. unfold usage_at, current_usage. cbn [devices].
  destruct (sweep (devices b) w !! d) as [u|]; cbn [default from_option id].
  - destruct (Z.eqb_spec (du_window u) w) as [->|]; done.
  - cbn [default_usage du_window]. by destruct (Z.eqb_spec 0 w) as [<-|].
Qed.

(** One charge, seen through the counters of its own window. *)
Lemma send_step_usage f l b r :
  f < U64_MAX → l < U64_MAX → send_limits f l b →
  let w := send_window r in
  let '(ok, b') := send_step b r in
  send_limits f l b'
  ∧ (∀ d, usage_at b' d w = if ok
       then (fst (usage_at b d w) + frame_cost r d, snd (usage_at b d w) + byte_cost r d)
       else usage_at b d w)
  ∧ (ok = true → fst (usage_at b' (rq_device r) w) ≤ f ∧ snd (usage_at b' (rq_device r) w) ≤ l)
  ∧ (∀ d w', w' ≠ w → usage_at b' d w' = usage_at b d w' ∨ usage_at b' d w' = (0, 0)).
Proof.
  intros Hf Hl [<- <-]. cbv zeta. unfold send_step, send_charge. fold (send_window r).
  set (w := send_window r). set (d := rq_device r).
  destruct (current_usage_at b d w) as [Hw Hu]. set (u := current_usage (sweep (devices b) w) d w) in *.
  assert (∀ v : DeviceUsage, du_window v = w →
    let b' := mkSendBudget (<[d := v]> (sweep (devices b) w)) (frames_per_window b) (bytes_per_window b) in
    usage_at b' d w = (du_frames v, du_bytes v)
    ∧ (∀ d', d' ≠ d → usage_at b' d' w = usage_at b d' w)
    ∧ (∀ d' w', w' ≠ w → usage_at b' d' w' = usage_at b d' w' ∨ usage_at b' d' w' = (0, 0))) as Hput.
  { intros v Hv. cbv zeta. unfold usage_at at 1. cbn [devices]. rewrite lookup_insert_eq, Hv, Z.eqb_refl.
    split; [done|]. split.
    - intros d' Hne. rewrite <- (usage_swept b w d'). unfold usage_at. cbn [devices].
      by rewrite lookup_insert_ne.
    - intros d' w' Hw'. unfold usage_at in *. cbn [devices]. destruct (decide (d' = d)) as [->|].
      + rewrite lookup_insert_eq, Hv. destruct (Z.eqb_spec w w'); [by subst | by right].
      + rewrite lookup_insert_ne by done. destruct (sweep (devices b) w !! d') as [x|] eqn:Hs; [left|by right].
        by rewrite (sweep_current _ _ _ _ Hs). }
  assert (∀ (ok : bool) (v : DeviceUsage), du_window v = w →
    (du_frames v, du_bytes v) = (if ok then (du_frames u + 1, du_bytes u + rq_bytes r)
                                 else (du_frames u, du_bytes u)) →
    ∀ d', usage_at (mkSendBudget (<[d := v]> (sweep (devices b) w)) (frames_per_window b) (bytes_per_window b)) d' w
      = if ok then (fst (usage_at b d' w) + frame_cost r d', snd (usage_at b d' w) + byte_cost r d')
        else usage_at b d' w) as Hview.
  { intros ok v Hv Heq d'. destruct (Hput v Hv) as (P1 & P2 & _). unfold frame_cost, byte_cost. fold d.
    destruct (decide (d' = d)) as [->|Hne].
    - rewrite P1, Heq, <- Hu. destruct ok; [|done]. cbn [fst snd]. by rewrite !decide_True.
    - rewrite P2 by done. destruct ok; [|done]. rewrite !decide_False by done.
      rewrite !Z.add_0_r. by destruct (usage_at b d' w). }
  unfold u64_saturating_add. cbn zeta.
  destruct (Z.ltb_spec (frames_per_window b) (Z.min U64_MAX (du_frames u + 1))) as [|Hfr].
  { cbn [is_ok]. split; [done|]. split; [by apply (Hview false)|]. split; [done|]. apply (Hput u Hw). }
  destruct (Z.ltb_spec (bytes_per_window b) (Z.min U64_MAX (du_bytes u + rq_bytes r))) as [|Hby].
  { cbn [is_ok]. split; [done|]. split; [by apply (Hview false)|]. split; [done|]. apply (Hput u Hw). }
  rewrite !Z.min_r by lia. cbn [is_ok]. split; [done|].
  split; [by apply (Hview true)|]. split.
  - intros _. destruct (Hput (mkDeviceUsage w (du_frames u + 1) (du_bytes u + rq_bytes r)) eq_refl) as (P1 & _).
    rewrite P1. cbn [fst snd du_frames du_bytes]. lia.
  - by apply (Hput (mkDeviceUsage w (du_frames u + 1) (du_bytes u + rq_bytes r)) eq_refl).
Qed.

Definition send_usable (f l : Z) (b : SendBudget) : Prop :=
  send_limits f l b ∧ ∀ d w, fst (usage_at b d w) ≤ f ∧ snd (usage_at b d w) ≤ l.

Section send_meter.
Context (f l : Z) (f_ok : 0 ≤ f < U64_MAX) (l_ok : 0 ≤ l < U64_MAX).

Lemma send_step_usable b r : send_usable f l b → send_usable f l (snd (send_step b r)).
Proof using Type*.
  intros [Hl Hb]. pose proof (send_step_usage f l b r ltac:(lia) ltac:(lia) Hl) as Hs.
  cbv zeta in Hs. destruct (send_step b r) as [ok b'] eqn:Hst. destruct Hs as (Hl' & Hu & Ha & Hz).
  split; [done|]. cbn [snd]. intros d w.
  destruct (decide (w = send_window r)) as [->|Hw].
  - destruct ok; [|by rewrite Hu]. destruct (decide (rq_device r = d)) as [<-|Hne]; [by apply Ha|].
    rewrite Hu. unfold frame_cost, byte_cost. rewrite !decide_False by done. cbn [fst snd].
    rewrite !Z.add_0_r. apply Hb.
  - destruct (Hz d w Hw) as [->| ->]; [apply Hb | simpl; lia].
Qed.

#[local] Instance send_frame_meter :
  WindowMeter send_step send_window frame_cost (λ b d w, fst (usage_at b d w)) (λ _, f) (send_usable f l).
Proof using Type*.
  split.
  - intros. by apply send_step_usable.
  - intros s r s' k Hu Hst. pose proof (send_step_usable s r Hu) as Hu'.
    pose proof (send_step_usage f l s r ltac:(lia) ltac:(lia) (proj1 Hu)) as Hs.
    rewrite Hst in Hs, Hu'. cbn [snd] in Hu'. destruct Hs as (_ & Hv & _). split; [by rewrite Hv | apply Hu'].
  - intros s r s' k Hu Hst. pose proof (send_step_usage f l s r ltac:(lia) ltac:(lia) (proj1 Hu)) as Hs.
    rewrite Hst in Hs. destruct Hs as (_ & Hv & _). by rewrite Hv.
  - intros s r k w Hu Hz Hw. pose proof (send_step_usage f l s r ltac:(lia) ltac:(lia) (proj1 Hu)) as Hs.
    destruct (send_step s r) as [ok s'] eqn:Hst. destruct Hs as (_ & _ & _ & Hzz). cbn [snd].
    destruct (Hzz k w ltac:(lia)) as [->| ->]; [apply Hz; lia | done].
Qed.

#[local] Instance send_byte_meter :
  WindowMeter send_step send_window byte_cost (λ b d w, snd (usage_at b d w)) (λ _, l) (send_usable f l).
Proof using Type*.
  split.
  - intros. by apply send_step_usable.
  - intros s r s' k Hu Hst. pose proof (send_step_usable s r Hu) as Hu'.
    pose proof (send_step_usage f l s r ltac:(lia) ltac:(lia) (proj1 Hu)) as Hs.
    rewrite Hst in Hs, Hu'. cbn [snd] in Hu'. destruct Hs as (_ & Hv & _). split; [by rewrite Hv | apply Hu'].
  - intros s r s' k Hu Hst. pose proof (send_step_usage f l s r ltac:(lia) ltac:(lia) (proj1 Hu)) as Hs.
    rewrite Hst in Hs. destruct Hs as (_ & Hv & _). by rewrite Hv.
  - intros s r k w Hu Hz Hw. pose proof (send_step_usage f l s r ltac:(lia) ltac:(lia) (proj1 Hu)) as Hs.
    destruct (send_step s r) as [ok s'] eqn:Hst. destruct Hs as (_ & _ & _ & Hzz). cbn [snd].
    destruct (Hzz k w ltac:(lia)) as [->| ->]; [apply Hz; lia | done].
Qed.

Lemma send_new_usable : send_usable f l (send_budget_new f l).
Proof using Type*.
  split; [done|]. intros d w. unfold usage_at. cbn [send_budget_new devices]. rewrite lookup_empty. simpl. lia.
Qed.
End send_meter.

(** Whatever a device sends while the clock does not run backwards, what
    the relay admits from it in any one window is at most the configured number
    of frames and the configured number of bytes. Sweeping the table never
    forgets a live counter, and a refusal charges nothing. *)
Theorem send_budget_respected f l rs d w :
  0 ≤ f < U64_MAX → 0 ≤ l < U64_MAX → in_order send_window 0 rs → 0 ≤ w →
  let adm := admitted send_step (send_budget_new f l) rs in
  window_cost send_window frame_cost d w adm ≤ f ∧ window_cost send_window byte_cost d w adm ≤ l.
Proof.
  intros Hf Hl Ho Hw adm. pose proof (send_frame_meter f l Hf Hl). pose proof (send_byte_meter f l Hf Hl). split.
  - apply (fresh_within send_step send_window frame_cost (λ b d w, fst (usage_at b d w)) (λ _, f)
      (send_usable f l)); [lia | by apply send_new_usable | | done | done].
    intros k w'. unfold usage_at. cbn [send_budget_new devices]. by rewrite lookup_empty.
  - apply (fresh_within send_step send_window byte_cost (λ b d w, snd (usage_at b d w)) (λ _, l)
      (send_usable f l)); [lia | by apply send_new_usable | | done | done].
    intros k w'. unfold usage_at. cbn [send_budget_new devices]. by rewrite lookup_empty.
Qed.

(** *** The ingress budget: one meter over both kinds of key *)
Section usage_maps.
Context {K : Type} `{Countable K}.

Definition used_at (m : gmap K Usage) (k : K) (w : Z) : Z :=
  match m !! k with Some u => if u_window u =? w then u_bytes u else 0 | None => 0 end.

Lemma retain_used m k w : used_at (retain_window m w) k w = used_at m k w.
Proof.
  unfold used_at, retain_window. destruct (MAX_TRACKED_KEYS <? size m)%nat; [|done].
  destruct (filter _ m !! k) as [u|] eqn:Hf.
  - by apply map_lookup_filter_Some in Hf as [-> _].
  - destruct (m !! k) as [u|] eqn:Hm; [|done]. destruct (Z.eqb_spec (u_window u) w); [|done].
    apply map_lookup_filter_None in Hf as [Hf|Hf]; [congruence|]. exfalso. by eapply Hf.
Qed.

Lemma retain_other m k w w' :
  used_at (retain_window m w) k w' = used_at m k w' ∨ used_at (retain_window m w) k w' = 0.
Proof.
  unfold used_at, retain_window. destruct (MAX_TRACKED_KEYS <? size m)%nat; [|by left].
  destruct (filter _ m !! k) as [u|] eqn:Hf; [|by right].
  apply map_lookup_filter_Some in Hf as [-> _]. by left.
Qed.

Lemma usage_current_used m k w :
  let u := usage_current (retain_window m w !! k) w in u_window u = w ∧ u_bytes u = used_at m k w.
Proof.
  rewrite <- retain_used. unfold used_at, usage_current.
  destruct (retain_window m w !! k) as [u|]; cbn [default from_option id].
  - by destruct (Z.eqb_spec (u_window u) w) as [->|].
  - cbn [u_window u_bytes]. by destruct (Z.eqb_spec 0 w) as [<-|].
Qed.

Lemma put_used m k v w :
  u_window v = w →
  (∀ k', used_at (<[k := v]> (retain_window m w)) k' w
         = if decide (k' = k) then u_bytes v else used_at m k' w)
  ∧ (∀ k' w', w' ≠ w → used_at (<[k := v]> (retain_window m w)) k' w' = used_at m k' w'
                     ∨ used_at (<[k := v]> (retain_window m w)) k' w' = 0).
Proof.
  intros Hv. split.
  - intros k'. case_decide as Hk.
    + subst k'. unfold used_at. by rewrite lookup_insert_eq, Hv, Z.eqb_refl.
    + rewrite <- (retain_used m k' w). unfold used_at. by rewrite lookup_insert_ne.
  - intros k' w' Hw. destruct (decide (k' = k)) as [->|Hk].
    + right. unfold used_at. rewrite lookup_insert_eq, Hv. by destruct (Z.eqb_spec w w').
    + destruct (retain_other m k' w w') as [E|E]; [left | right]; rewrite <- E; unfold used_at;
        by rewrite lookup_insert_ne.
Qed.
End usage_maps.

Record IngressRequest : Type := mkIngressRequest {
  ir_principal : list byte; ir_group : list byte; ir_workspace : list byte; ir_bytes : Z; ir_now : Z
}.
Definition ingress_window (r : IngressRequest) : Z := ir_now r / GROUP_INGRESS_WINDOW_MS.
Definition ingress_step (b : GroupIngressBudget) (r : IngressRequest) : bool * GroupIngressBudget :=
  let '(res, b') := ingress_charge b (ir_principal r) (ir_group r) (ir_workspace r) (ir_bytes r) (ir_now r) in
  (is_ok res, b').

(** A key is a principal in a group, or a whole workspace. *)
Definition IngressKey : Type := (list byte * list byte) + list byte.
Definition ingress_spent (b : GroupIngressBudget) (k : IngressKey) (w : Z) : Z :=
  match k with
  | inl pg => used_at (principal_group b) pg w
  | inr ws => used_at (workspace_use b) ws w
  end.
Definition ingress_cost (r : IngressRequest) (k : IngressKey) : Z :=
  match k with
  | inl pg => if decide (pg = (ir_principal r, ir_group r)) then ir_bytes r else 0
  | inr ws => if decide (ws = ir_workspace r) then ir_bytes r else 0
  end.
Definition ingress_limit (pl wl : Z) (k : IngressKey) : Z :=
  match k with inl _ => pl | inr _ => wl end.
Definition ingress_usable (pl wl : Z) (b : GroupIngressBudget) : Prop :=
  principal_group_bytes b = pl ∧ workspace_bytes b = wl
  ∧ ∀ k w, ingress_spent b k w ≤ ingress_limit pl wl k.

Section ingress_meter.
Context (pl wl : Z) (pl_ok : 0 ≤ pl < U64_MAX) (wl_ok : 0 ≤ wl < U64_MAX).

Lemma ingress_limit_nonneg k : 0 ≤ ingress_limit pl wl k.
Proof using Type*. destruct k; simpl; lia. Qed.

Lemma ingress_step_spent b r :
  ingress_usable pl wl b →
  let w := ingress_window r in
  let '(ok, b') := ingress_step b r in
  principal_group_bytes b' = pl ∧ workspace_bytes b' = wl
  ∧ (∀ k, ingress_spent b' k w = ingress_spent b k w + (if ok then ingress_cost r k else 0))
  ∧ (ok = true → ∀ k, ingress_spent b' k w ≤ ingress_limit pl wl k)
  ∧ (∀ k w', w' ≠ w → ingress_spent b' k w' = ingress_spent b k w' ∨ ingress_spent b' k w' = 0).
Proof using Type*.
  intros (Hp & Hw & Hb). cbv zeta. unfold ingress_step, ingress_charge. fold (ingress_window r).
  set (w := ingress_window r). set (pk := (ir_principal r, ir_group r)). set (wk := ir_workspace r).
  destruct (usage_current_used (principal_group b) pk w) as [Hpw Hpu].
  destruct (usage_current_used (workspace_use b) wk w) as [Hww Hwu].
  set (pu := usage_current (retain_window (principal_group b) w !! pk) w) in *.
  set (wu := usage_current (retain_window (workspace_use b) w !! wk) w) in *.
  assert (∀ (ok : bool) pv wv ref, u_window pv = w → u_window wv = w →
    u_bytes pv = u_bytes pu + (if ok then ir_bytes r else 0) →
    u_bytes wv = u_bytes wu + (if ok then ir_bytes r else 0) →
    (ok = true → u_bytes pv ≤ pl ∧ u_bytes wv ≤ wl) →
    let b' := mkGroupIngressBudget (<[pk := pv]> (retain_window (principal_group b) w))
      (<[wk := wv]> (retain_window (workspace_use b) w)) ref (principal_group_bytes b) (workspace_bytes b) in
    principal_group_bytes b' = pl ∧ workspace_bytes b' = wl
    ∧ (∀ k, ingress_spent b' k w = ingress_spent b k w + (if ok then ingress_cost r k else 0))
    ∧ (ok = true → ∀ k, ingress_spent b' k w ≤ ingress_limit pl wl k)
    ∧ (∀ k w', w' ≠ w → ingress_spent b' k w' = ingress_spent b k w' ∨ ingress_spent b' k w' = 0)) as Hput.
  { intros ok pv wv ref Hpv Hwv Hpb Hwb Hok. cbv zeta. cbn [principal_group_bytes workspace_bytes].
    destruct (put_used (principal_group b) pk pv w Hpv) as [P1 P2].
    destruct (put_used (workspace_use b) wk wv w Hwv) as [W1 W2].
    assert (∀ k, ingress_spent (mkGroupIngressBudget (<[pk := pv]> (retain_window (principal_group b) w))
      (<[wk := wv]> (retain_window (workspace_use b) w)) ref (principal_group_bytes b) (workspace_bytes b)) k w
      = ingress_spent b k w + (if ok then ingress_cost r k else 0)) as Heq.
    { intros [k|k]; cbn [ingress_spent ingress_cost principal_group workspace_use]; fold pk wk.
      - rewrite P1. case_decide as E; [subst k; rewrite Hpb, Hpu; by destruct ok | destruct ok; lia].
      - rewrite W1. case_decide as E; [subst k; rewrite Hwb, Hwu; by destruct ok | destruct ok; lia]. }
    split_and!; [done | done | done | |].
    - intros Ht k. destruct (Hok Ht) as [Hpl Hwl].
      destruct k as [k|k]; cbn [ingress_spent ingress_limit principal_group workspace_use].
      + rewrite P1. case_decide; [done|]. apply (Hb (inl k)).
      + rewrite W1. case_decide; [done|]. apply (Hb (inr k)).
    - intros [k|k] w' Hw'; cbn [ingress_spent principal_group workspace_use]; [by apply P2 | by apply W2]. }
  unfold u64_saturating_add. cbv zeta.
  destruct (Z.ltb_spec (principal_group_bytes b) (Z.min U64_MAX (u_bytes pu + ir_bytes r))) as [|Hpl].
  { apply (Hput false pu wu); [done | done | lia | lia | done]. }
  destruct (Z.ltb_spec (workspace_bytes b) (Z.min U64_MAX (u_bytes wu + ir_bytes r))) as [|Hwl].
  { apply (Hput false pu wu); [done | done | lia | lia | done]. }
  rewrite !Z.min_r by lia.
  apply (Hput true (mkUsage w (u_bytes pu + ir_bytes r)) (mkUsage w (u_bytes wu + ir_bytes r))); simpl; lia.
Qed.

#[local] Instance ingress_window_meter :
  WindowMeter ingress_step ingress_window ingress_cost ingress_spent (ingress_limit pl wl)
    (ingress_usable pl wl).
Proof using Type*.
  split.
  - intros s r Hu. pose proof (ingress_step_spent s r Hu) as Hs. destruct (ingress_step s r) as [ok s'].
    destruct Hs as (? & ? & Heq & Hok & Hoth). split_and!; [done | done |]. cbn [snd]. intros k w.
    destruct Hu as (_ & _ & Hb). destruct (decide (w = ingress_window r)) as [->|Hne].
    + destruct ok; [by apply Hok|]. rewrite Heq, Z.add_0_r. apply Hb.
    + destruct (Hoth k w Hne) as [->| ->]; [apply Hb | apply ingress_limit_nonneg].
  - intros s r s' k Hu Hst. pose proof (ingress_step_spent s r Hu) as Hs. rewrite Hst in Hs.
    destruct Hs as (_ & _ & Heq & Hok & _). split; [apply Heq | by apply Hok].
  - intros s r s' k Hu Hst. pose proof (ingress_step_spent s r Hu) as Hs. rewrite Hst in Hs.
    destruct Hs as (_ & _ & Heq & _). rewrite Heq. lia.
  - intros s r k w Hu Hz Hw. pose proof (ingress_step_spent s r Hu) as Hs.
    destruct (ingress_step s r) as [ok s']. destruct Hs as (_ & _ & _ & _ & Hoth). cbn [snd].
    destruct (Hoth k w ltac:(lia)) as [->| ->]; [apply Hz; lia | done].
Qed.

Lemma ingress_new_usable : ingress_usable pl wl (group_ingress_new pl wl).
Proof using Type*.
  split_and!; [done | done |]. intros [k|k] w; cbn; unfold used_at; rewrite lookup_empty; lia.
Qed.
End ingress_meter.

(** What a workspace sends in any one window while the clock does not run
    backwards stays inside both admission-blind limits: each principal into
    each group, and the workspace across all of its principals. *)
Theorem ingress_budget_respected pl wl rs k w :
  0 ≤ pl < U64_MAX → 0 ≤ wl < U64_MAX → in_order ingress_window 0 rs → 0 ≤ w →
  window_cost ingress_window ingress_cost k w (admitted ingress_step (group_ingress_new pl wl) rs)
  ≤ match k with inl _ => pl | inr _ => wl end.
Proof.
  intros Hp Hw Ho Hge. pose proof (ingress_window_meter pl wl Hp Hw).
  apply (fresh_within ingress_step ingress_window ingress_cost ingress_spent (ingress_limit pl wl)
    (ingress_usable pl wl)); [by apply ingress_limit_nonneg | by apply ingress_new_usable | | done | done].
  intros [k'|k'] w'; cbn; unfold used_at; by rewrite lookup_empty.
Qed.

(** ** The per-connection frame budget of [session.rs]

    A window that starts with the first frame after the last one ran out, on a
    clock that may step backwards. *)
Definition FRAME_BUDGET_WINDOW_MS : Z := 60000.

Record FrameBudget : Type := mkFrameBudget { window_started_ms : Z; fb_spent : Z }.
Definition default_frame_budget : FrameBudget := mkFrameBudget 0 0.

Definition frame_charge (b : FrameBudget) (now_ms allowance : Z) : bool * FrameBudget :=
  let b := if (now_ms <? window_started_ms b)
              || (FRAME_BUDGET_WINDOW_MS <=? u64_saturating_sub now_ms (window_started_ms b))
           then mkFrameBudget now_ms 0 else b in
  if allowance <=? fb_spent b then (false, b)
  else (true, mkFrameBudget (window_started_ms b) (fb_spent b + 1)).

(** The frames of a run that are admitted before the window turns over. *)
Fixpoint frame_run (b : FrameBudget) (allowance : Z) (times : list Z) : Z * FrameBudget :=
  match times with
  | [] => (0, b)
  | now :: rest =>
      let '(ok, b') := frame_charge b now allowance in
      let '(n, b'') := frame_run b' allowance rest in
      ((if ok then 1 else 0) + n, b'')
  end.

Lemma frame_charge_in_window b now allowance :
  window_started_ms b ≤ now < window_started_ms b + FRAME_BUDGET_WINDOW_MS →
  frame_charge b now allowance =
    if allowance <=? fb_spent b then (false, b)
    else (true, mkFrameBudget (window_started_ms b) (fb_spent b + 1)).
Proof.
  intros Hn. unfold frame_charge, u64_saturating_sub.
  rewrite (proj2 (Z.ltb_ge now (window_started_ms b))) by lia.
  rewrite (proj2 (Z.leb_gt FRAME_BUDGET_WINDOW_MS (Z.max 0 (now - window_started_ms b)))); [done|].
  unfold FRAME_BUDGET_WINDOW_MS in *. lia.
Qed.

(** The frame budget admits at most its allowance in a window, and a
    clock that steps behind the start of the window, like one that runs past
    its end, opens a new one at once: the frame that sees it is admitted. *)
Theorem frame_budget_window b allowance :
  0 ≤ fb_spent b ≤ allowance →
  (∀ times, Forall (λ now, window_started_ms b ≤ now < window_started_ms b + FRAME_BUDGET_WINDOW_MS) times →
     fb_spent b + fst (frame_run b allowance times) ≤ allowance)
  ∧ (∀ now, 0 < allowance →
       now < window_started_ms b ∨ window_started_ms b + FRAME_BUDGET_WINDOW_MS ≤ now →
       frame_charge b now allowance = (true, mkFrameBudget now 1)).
Proof.
  intros Hs. split.
  - intros times Hf. revert b Hs Hf. induction times as [|now times IH]; intros b Hs Hf; simpl; [lia|].
    apply Forall_cons in Hf as [Hn Hf]. rewrite frame_charge_in_window by done.
    destruct (Z.leb_spec allowance (fb_spent b)).
    + specialize (IH b Hs Hf). destruct (frame_run b allowance times). simpl in *. lia.
    + specialize (IH (mkFrameBudget (window_started_ms b) (fb_spent b + 1))).
      destruct (frame_run (mkFrameBudget _ _) allowance times). simpl in *.
      assert (fb_spent b + 1 + z ≤ allowance); [apply IH; [lia | done] | lia].
  - intros now Ha Hw. unfold frame_charge, u64_saturating_sub.
    assert ((now <? window_started_ms b)
      || (FRAME_BUDGET_WINDOW_MS <=? Z.max 0 (now - window_started_ms b)) = true) as ->.
    { apply orb_true_iff. destruct Hw; [left; apply Z.ltb_lt | right; apply Z.leb_le]; lia. }
    cbn [fb_spent window_started_ms]. by rewrite (proj2 (Z.leb_gt _ _)).
Qed.

(** ** Concrete runs *)
Definition phone : list byte := [Byte.x01].
Definition burst : list SendRequest :=
  [mkSendRequest phone 10 100; mkSendRequest phone 10 200; mkSendRequest phone 10 300;
   mkSendRequest phone 10 70000].

Lemma send_budget_respected_witness :
  length (admitted send_step (send_budget_new 2 100) burst) = 3%nat
  ∧ window_cost send_window frame_cost phone 0 (admitted send_step (send_budget_new 2 100) burst) ≤ 2.
Proof.
  split; [by vm_compute|].
  refine (proj1 (send_budget_respected 2 100 burst phone 0 _ _ _ _)); by vm_compute.
Defined.

Definition ingress_burst : list IngressRequest :=
  [mkIngressRequest phone phone phone 30 100; mkIngressRequest phone phone phone 30 200].

Lemma ingress_budget_respected_witness :
  length (admitted ingress_step (group_ingress_new 50 100) ingress_burst) = 1%nat
  ∧ window_cost ingress_window ingress_cost (inl (phone, phone)) 0
      (admitted ingress_step (group_ingress_new 50 100) ingress_burst) ≤ 50.
Proof.
  split; [by vm_compute|].
  refine (ingress_budget_respected 50 100 ingress_burst (inl (phone, phone)) 0 _ _ _ _); by vm_compute.
Defined.

Lemma frame_budget_window_witness : frame_charge (mkFrameBudget 90000 3) 5 3 = (true, mkFrameBudget 5 1).
Proof.
  refine (proj2 (frame_budget_window (mkFrameBudget 90000 3) 3 _) 5 _ _); [simpl; lia | lia | left; simpl; lia].
Defined.
