(* ===== verification/Deadline.v ===== *)
(** * Connection deadlines

    Models [backend/wealdrelay/src/deadline.rs]. Durations and instants are
    the caller's monotonic milliseconds. *)

From Stdlib Require Import ZArith Lia.
From stdpp Require Import base tactics numbers list.
From S2P Require Import Prelude.

Open Scope Z_scope.

Definition LIVENESS_PROBE_WINDOW : Z := 10000.
Definition DEFAULT_HANDSHAKE_TIMEOUT_MS : Z := 10000.
Definition DEFAULT_IDLE_TIMEOUT_MS : Z := 300000.

Inductive Expiry : Type := HandshakeExpiry | IdleExpiry.
Inductive Next : Type :=
| Wait (left_ : Z)
| Probe (window : Z)
| Expired (why : Expiry).

Record Deadlines : Type := mkDeadlines {
  handshake : Z;
  idle : Z;
  probe : Z;
  opened_ms : Z;
  last_seen_ms : Z;
  probed_at_ms : option Z;
  is_authenticated : bool
}.

Definition from_parts (handshake idle now_ms : Z) : Deadlines :=
  mkDeadlines handshake idle (Z.min LIVENESS_PROBE_WINDOW idle) now_ms now_ms None false.

Definition authenticated (d : Deadlines) (now_ms : Z) : Deadlines :=
  if is_authenticated d then d
  else mkDeadlines (handshake d) (idle d) (probe d) (opened_ms d) now_ms None true.

Definition saw_message (d : Deadlines) (now_ms : Z) : Deadlines :=
  mkDeadlines (handshake d) (idle d) (probe d) (opened_ms d) now_ms None (is_authenticated d).

Definition probed (d : Deadlines) (now_ms : Z) : Deadlines :=
  mkDeadlines (handshake d) (idle d) (probe d) (opened_ms d) (last_seen_ms d) (Some now_ms)
    (is_authenticated d).

Definition probing (d : Deadlines) : bool := match probed_at_ms d with Some _ => true | None => false end.

(** [Duration::saturating_sub] on milliseconds. *)
Definition time_left (since_ms window now_ms : Z) : option Z :=
  let elapsed := u64_saturating_sub now_ms since_ms in
  let left_ := Z.max 0 (window - elapsed) in
  if left_ =? 0 then None else Some left_.

Definition next (d : Deadlines) (now_ms : Z) : Next :=
  if negb (is_authenticated d) then
    match time_left (opened_ms d) (handshake d) now_ms with
    | None => Expired HandshakeExpiry
    | Some left_ => Wait left_
    end
  else
    match probed_at_ms d with
    | Some probed_at =>
        match time_left probed_at (probe d) now_ms with
        | None => Expired IdleExpiry
        | Some left_ => Wait left_
        end
    | None =>
        match time_left (last_seen_ms d) (idle d) now_ms with
        | None => Probe (probe d)
        | Some left_ => Wait left_
        end
    end.

(** ** The connection loop's events, and what the peer was asked *)
Inductive Event : Type :=
| AuthAck (now : Z)
| Message (now : Z)
| Probed (now : Z).

Definition apply_event (d : Deadlines) (e : Event) : Deadlines :=
  match e with
  | AuthAck now => authenticated d now
  | Message now => saw_message d now
  | Probed now => probed d now
  end.

Lemma time_left_none since window now :
  time_left since window now = None ↔ window ≤ Z.max 0 (now - since).
Proof.
  unfold time_left, u64_saturating_sub. destruct (Z.eqb_spec (Z.max 0 (window - Z.max 0 (now - since))) 0).
  - split; [intros; lia | done].
  - split; [done | intros; lia].
Qed.
Lemma time_left_some since window now left_ :
  time_left since window now = Some left_ → 0 < left_ ∧ left_ = window - Z.max 0 (now - since).
Proof.
  unfold time_left, u64_saturating_sub. destruct (Z.eqb_spec (Z.max 0 (window - Z.max 0 (now - since))) 0);
    [done|]. intros [= <-]. lia.
Qed.

Definition run_events (d : Deadlines) (es : list Event) : Deadlines := fold_left apply_event es d.

(** The loop never spins and never judges an authenticated peer unasked:
    a wait is always for a positive time; an authenticated connection expires
    only as idle, only with a probe outstanding (anything heard withdraws it),
    and only once the whole probe window has passed since that probe; one that is
    not authenticated expires exactly when its handshake time is up. *)
Theorem deadlines_fair handshake idle opened es now :
  0 < handshake → 0 < idle →
  let d := run_events (from_parts handshake idle opened) es in
  (∀ left_, next d now = Wait left_ → 0 < left_)
  ∧ (∀ window, next d now = Probe window → is_authenticated d = true ∧ probing d = false
       ∧ 0 < window ∧ last_seen_ms d + idle ≤ now)
  ∧ (next d now = Expired IdleExpiry → is_authenticated d = true
       ∧ ∃ at_, probed_at_ms d = Some at_ ∧ at_ + Z.min LIVENESS_PROBE_WINDOW idle ≤ now)
  ∧ (is_authenticated d = false → (next d now = Expired HandshakeExpiry ↔ opened + handshake ≤ now)).
Proof.
  intros Hh Hi d.
  assert (Deadline.handshake d = handshake ∧ Deadline.idle d = idle
    ∧ probe d = Z.min LIVENESS_PROBE_WINDOW idle ∧ opened_ms d = opened) as (Eh & Ei & Ep & Eo).
  { assert (∀ d0, let d1 := run_events d0 es in Deadline.handshake d1 = Deadline.handshake d0
      ∧ Deadline.idle d1 = Deadline.idle d0 ∧ probe d1 = probe d0 ∧ opened_ms d1 = opened_ms d0) as Hkeep.
    { unfold run_events. induction es as [|e es' IH]; intros d0; simpl; [done|].
      specialize (IH (apply_event d0 e)). cbv zeta in IH. destruct IH as (-> & -> & -> & ->).
      destruct e; simpl; unfold authenticated; try done. by destruct (is_authenticated d0). }
    apply (Hkeep (from_parts handshake idle opened)). }
  unfold LIVENESS_PROBE_WINDOW in *. unfold next. rewrite Eh, Ei, Ep, Eo. split_and!.
  - intros left_ Hn. repeat case_match; simplify_eq;
      match goal with H : time_left _ _ _ = Some _ |- _ => apply time_left_some in H; lia end.
  - intros window Hn. unfold probing. repeat case_match; simplify_eq.
    match goal with H : time_left _ _ _ = None |- _ => apply time_left_none in H end.
    destruct (is_authenticated d); [|done]. split_and!; try done; lia.
  - intros Hn. repeat case_match; simplify_eq.
    match goal with H : time_left _ _ _ = None |- _ => apply time_left_none in H end.
    destruct (is_authenticated d); [|done]. split; [done|]. eexists. split; [done|]. lia.
  - intros ->. cbn [negb]. destruct (time_left opened handshake now) as [l|] eqn:Ht.
    + apply time_left_some in Ht. split; [done | lia].
    + apply time_left_none in Ht. split; [lia | done].
Qed.

(** A clock behind the recorded instant does not make a deadline due: the
    whole window is still to run. *)
Theorem backwards_clock_waits since window now :
  0 < window → now ≤ since → time_left since window now = Some window.
Proof.
  intros Hw Hn. unfold time_left, u64_saturating_sub.
  replace (Z.max 0 (window - Z.max 0 (now - since))) with window by lia. destruct (Z.eqb_spec window 0); [lia | done].
Qed.

(** [AUTH_ACK] is recorded once: what a connection that keeps sending
    frames can extend is its idle interval by being heard, never by the loop
    noticing again that it is authenticated. *)
Theorem authenticated_once d now now' :
  authenticated (authenticated d now) now' = authenticated d now.
Proof. unfold authenticated. by destruct (is_authenticated d) eqn:E; rewrite ?E. Qed.

Lemma deadlines_fair_witness :
  next (run_events (from_parts 10000 300000 0) [AuthAck 5; Probed 300005]) 310005 = Expired IdleExpiry
  ∧ ∃ at_, probed_at_ms (run_events (from_parts 10000 300000 0) [AuthAck 5; Probed 300005]) = Some at_
      ∧ at_ + Z.min LIVENESS_PROBE_WINDOW 300000 ≤ 310005.
Proof.
  split; [by vm_compute|].
  refine (proj2 (proj1 (proj2 (proj2 (deadlines_fair 10000 300000 0 [AuthAck 5; Probed 300005] 310005 _ _))) _));
    [lia | lia | by vm_compute].
Defined.

Lemma backwards_clock_waits_witness : time_left 500 10000 100 = Some 10000.
Proof. refine (backwards_clock_waits 500 10000 100 _ _); lia. Defined.
