(* ===== verification/Queue.v ===== *)
(** * A connection's outbound queue

    Models the bounded queue of [backend/wealdrelay/src/ws.rs]:
    [OutboundSender], [OutboundReceiver], [permits_for] and [try_queue]. The
    bounded channel and the semaphore are [tokio]'s, so they are parameters:
    [Mpsc] and [Semaphore] are the operations used, and [MpscLaws] and
    [SemaphoreLaws] state what the library documents of them. *)

From Stdlib Require Import ZArith Lia.
From stdpp Require Import base tactics numbers list gmap fin_maps functions.
From S2P Require Import Prelude Cbor Push Frame.

Open Scope Z_scope.

(** [hub::ConnectionId]: opaque and per process. *)
Definition ConnectionId : Type := N.

(** [session::SEND_QUEUE_BOUND]. *)
Definition SEND_QUEUE_BOUND : nat := 256.
Definition SEND_QUEUE_BYTE_BUDGET : Z := 8 * 1024 * 1024.

Inductive Outbound : Type := OutFrame (frame : Frame) | Ping | Close.
Inductive Queued : Type := QSent | QFull | QClosed.
#[global] Instance Queued_eq_dec : EqDecision Queued.
Proof. solve_decision. Defined.

Definition downgrade_frame (group : list byte) : Frame := SubAck group 0.

(** [try_from(cost).unwrap_or(u32::MAX)] is the identity below the budget. *)
Definition permits_for (f : Frame) : Z := Z.min U32_MAX (Z.min (queued_bytes f) SEND_QUEUE_BYTE_BUDGET).

(** ** The library's primitives *)
Inductive SendOutcome : Type := SendOk | SendFull | SendClosed.

Class Mpsc (C : Type) : Type := {
  mpsc_try_send : C → Outbound → SendOutcome * C;
  mpsc_try_recv : C → option Outbound * C;
  mpsc_queue : C → list Outbound;
  mpsc_is_closed : C → bool
}.

(** [tokio::sync::mpsc]: [try_send] appends while there is a free slot and a
    receiver, [try_recv] takes the oldest message. *)
Class MpscLaws (C : Type) `{Mpsc C} : Prop := {
  send_closed c x : mpsc_is_closed c = true → mpsc_try_send c x = (SendClosed, c);
  send_full c x : mpsc_is_closed c = false → (SEND_QUEUE_BOUND ≤ length (mpsc_queue c))%nat →
    mpsc_try_send c x = (SendFull, c);
  send_room c x : mpsc_is_closed c = false → (length (mpsc_queue c) < SEND_QUEUE_BOUND)%nat →
    ∃ c', mpsc_try_send c x = (SendOk, c') ∧ mpsc_queue c' = mpsc_queue c ++ [x]
      ∧ mpsc_is_closed c' = false;
  recv_empty c : mpsc_queue c = [] → mpsc_try_recv c = (None, c);
  recv_first c x q : mpsc_queue c = x :: q →
    ∃ c', mpsc_try_recv c = (Some x, c') ∧ mpsc_queue c' = q ∧ mpsc_is_closed c' = mpsc_is_closed c
}.

Class Semaphore (P : Type) : Type := {
  try_acquire_many : P → Z → option P;
  add_permits : P → Z → P;
  available_permits : P → Z
}.

(** [tokio::sync::Semaphore]: an acquisition takes its permits or nothing. *)
Class SemaphoreLaws (P : Type) `{Semaphore P} : Prop := {
  acquire_some p n : n ≤ available_permits p →
    ∃ p', try_acquire_many p n = Some p' ∧ available_permits p' = available_permits p - n;
  acquire_none p n : available_permits p < n → try_acquire_many p n = None;
  add_available p n : available_permits (add_permits p n) = available_permits p + n
}.

Section queue.
Context {C P : Type} `{MpscLaws C, SemaphoreLaws P}.

Record Channel : Type := mkChannel { inner : C; budget : P; evicted : bool }.

(** ** Operations *)
Definition channel_queued_bytes (ch : Channel) : Z :=
  SEND_QUEUE_BYTE_BUDGET - available_permits (budget ch).

Definition free_slots (ch : Channel) : nat := (SEND_QUEUE_BOUND - length (mpsc_queue (inner ch)))%nat.

Definition try_queue (ch : Channel) (f : Frame) : Queued * Channel :=
  let cost := permits_for f in
  match try_acquire_many (budget ch) cost with
  | None => (QFull, ch)
  | Some taken =>
      match mpsc_try_send (inner ch) (OutFrame f) with
      | (SendOk, c) => (QSent, mkChannel c taken (evicted ch))
      | (SendFull, c) => (QFull, mkChannel c (budget ch) (evicted ch))
      | (SendClosed, c) => (QClosed, mkChannel c (budget ch) (evicted ch))
      end
  end.

Definition channel_close (ch : Channel) : bool * Channel :=
  match mpsc_try_send (inner ch) Close with
  | (SendOk, c) => (true, mkChannel c (budget ch) (evicted ch))
  | (_, c) => (false, mkChannel c (budget ch) (evicted ch))
  end.

Definition try_ping (ch : Channel) : bool * Channel :=
  match mpsc_try_send (inner ch) Ping with
  | (SendOk, c) => (true, mkChannel c (budget ch) (evicted ch))
  | (_, c) => (false, mkChannel c (budget ch) (evicted ch))
  end.

Definition channel_evict (ch : Channel) : Channel := mkChannel (inner ch) (budget ch) true.

(** [OutboundReceiver::release]. *)
Definition release (p : P) (taken : option Outbound) : P :=
  match taken with
  | Some (OutFrame f) => add_permits p (permits_for f)
  | _ => p
  end.

Definition channel_recv (ch : Channel) : option Outbound * Channel :=
  let '(taken, c) := mpsc_try_recv (inner ch) in
  (taken, mkChannel c (release (budget ch) taken) (evicted ch)).

(** ** Invariant: the permits out are the bytes queued *)
Definition outbound_cost (o : Outbound) : Z := match o with OutFrame f => permits_for f | _ => 0 end.
Definition queue_cost (q : list Outbound) : Z := foldr (λ o n, outbound_cost o + n) 0 q.

Definition channel_ok (ch : Channel) : Prop :=
  available_permits (budget ch) + queue_cost (mpsc_queue (inner ch)) = SEND_QUEUE_BYTE_BUDGET
  ∧ 0 ≤ available_permits (budget ch) ∧ (length (mpsc_queue (inner ch)) ≤ SEND_QUEUE_BOUND)%nat.

Lemma queued_bytes_nonneg f : 0 ≤ queued_bytes f.
Proof.
  assert (∀ vs, 0 ≤ sum_lengths vs) as Hs.
  { induction vs as [|v vs IH]; simpl; unfold len in *; lia. }
  unfold queued_bytes, OVERHEAD. destruct f; unfold len; try lia.
  - specialize (Hs groups). lia.
  - destruct body; simpl; try specialize (Hs packages); lia.
  - destruct body; simpl; unfold len; lia.
Qed.

Lemma permits_for_bounds f : 0 ≤ permits_for f ≤ SEND_QUEUE_BYTE_BUDGET.
Proof. pose proof (queued_bytes_nonneg f). unfold permits_for, SEND_QUEUE_BYTE_BUDGET, U32_MAX. lia. Qed.

Lemma queue_cost_app q q' : queue_cost (q ++ q') = queue_cost q + queue_cost q'.
Proof. induction q as [|o q IH]; simpl; [done|]. rewrite IH. lia. Qed.

Lemma queue_cost_nonneg q : 0 ≤ queue_cost q.
Proof.
  induction q as [|o q IH]; simpl; [lia|].
  destruct o as [f| |]; simpl; try pose proof (permits_for_bounds f); lia.
Qed.

(** The three outcomes of [try_queue], and what each leaves behind. *)
Lemma try_queue_cases ch f :
  (∃ ch', try_queue ch f = (QSent, ch')
     ∧ mpsc_queue (inner ch') = mpsc_queue (inner ch) ++ [OutFrame f]
     ∧ available_permits (budget ch') = available_permits (budget ch) - permits_for f
     ∧ permits_for f ≤ available_permits (budget ch) ∧ mpsc_is_closed (inner ch) = false
     ∧ (length (mpsc_queue (inner ch)) < SEND_QUEUE_BOUND)%nat
     ∧ mpsc_is_closed (inner ch') = false ∧ evicted ch' = evicted ch)
  ∨ try_queue ch f = (QFull, ch)
  ∨ (try_queue ch f = (QClosed, ch) ∧ mpsc_is_closed (inner ch) = true).
Proof using Type*.
  unfold try_queue. destruct (Z.le_gt_cases (permits_for f) (available_permits (budget ch))) as [Hle|Hgt].
  - destruct (acquire_some _ _ Hle) as (p' & -> & Hp).
    destruct (mpsc_is_closed (inner ch)) eqn:Hc.
    + rewrite send_closed by done. right. right. by destruct ch.
    + destruct (Nat.le_gt_cases SEND_QUEUE_BOUND (length (mpsc_queue (inner ch)))) as [Hfull|Hroom].
      * rewrite send_full by done. right. left. by destruct ch.
      * destruct (send_room (inner ch) (OutFrame f) Hc Hroom) as (c' & -> & Hq & Hc').
        left. eexists. split; [done|]. cbn [inner budget evicted]. by split_and!.
  - rewrite acquire_none by lia. right. by left.
Qed.

Lemma try_queue_ok ch f : channel_ok ch → channel_ok (snd (try_queue ch f)).
Proof using Type*.
  intros (Hsum & Hnn & Hlen).
  destruct (try_queue_cases ch f) as [(ch' & -> & Hq & Hp & Hle & _ & Hroom & _)|[->|[-> _]]]; [|done..].
  cbn [snd]. unfold channel_ok. rewrite Hq, Hp, queue_cost_app, length_app. cbn [queue_cost foldr length outbound_cost].
  split_and!; lia.
Qed.

Lemma control_send_ok ch x :
  outbound_cost x = 0 → channel_ok ch →
  channel_ok (mkChannel (snd (mpsc_try_send (inner ch) x)) (budget ch) (evicted ch)).
Proof using Type*.
  intros Hx (Hsum & Hnn & Hlen). unfold channel_ok. cbn [inner budget].
  destruct (mpsc_is_closed (inner ch)) eqn:Hc; [by rewrite send_closed|].
  destruct (Nat.le_gt_cases SEND_QUEUE_BOUND (length (mpsc_queue (inner ch)))) as [Hfull|Hroom].
  - by rewrite send_full.
  - destruct (send_room (inner ch) x Hc Hroom) as (c' & -> & Hq & _). cbn [snd].
    rewrite Hq, queue_cost_app, length_app. cbn [queue_cost foldr length]. rewrite Hx. split_and!; lia.
Qed.

Lemma channel_recv_ok ch : channel_ok ch → channel_ok (snd (channel_recv ch)).
Proof using Type*.
  intros (Hsum & Hnn & Hlen). unfold channel_recv. destruct (mpsc_queue (inner ch)) as [|x q] eqn:Hq.
  - rewrite recv_empty by done. cbn [snd release]. unfold channel_ok. cbn [inner budget]. rewrite Hq. done.
  - destruct (recv_first _ _ _ Hq) as (c' & -> & Hq' & _). cbn [snd]. unfold channel_ok. cbn [inner budget].
    rewrite Hq'. cbn [queue_cost foldr length] in *. destruct x as [f| |]; cbn [release outbound_cost] in *;
      rewrite ?add_available; try pose proof (permits_for_bounds f); fold (queue_cost q) in *; split_and!; lia.
Qed.

Inductive QueueOp : Type := OpQueue (f : Frame) | OpClose | OpPing | OpEvict | OpRecv.
Definition queue_op (ch : Channel) (op : QueueOp) : Channel :=
  match op with
  | OpQueue f => snd (try_queue ch f)
  | OpClose => snd (channel_close ch)
  | OpPing => snd (try_ping ch)
  | OpEvict => channel_evict ch
  | OpRecv => snd (channel_recv ch)
  end.

Lemma queue_op_ok ch op : channel_ok ch → channel_ok (queue_op ch op).
Proof using Type*.
  intros Hok. destruct op; simpl.
  - by apply try_queue_ok.
  - pose proof (control_send_ok ch Close eq_refl Hok). unfold channel_close.
    by destruct (mpsc_try_send (inner ch) Close) as [[] c].
  - pose proof (control_send_ok ch Ping eq_refl Hok). unfold try_ping.
    by destruct (mpsc_try_send (inner ch) Ping) as [[] c].
  - done.
  - by apply channel_recv_ok.
Qed.

(** A connection's queue is bounded in both units whatever is queued,
    pinged, closed and drained: never more than 256 messages, never more than
    8 MiB reserved, and the bytes reserved are exactly the cost of what is
    queued, so draining everything returns the whole budget. *)
Theorem queue_bounded ch ops :
  channel_ok ch →
  let ch' := fold_left queue_op ops ch in
  (length (mpsc_queue (inner ch')) ≤ SEND_QUEUE_BOUND)%nat
  ∧ channel_queued_bytes ch' = queue_cost (mpsc_queue (inner ch'))
  ∧ 0 ≤ channel_queued_bytes ch' ≤ SEND_QUEUE_BYTE_BUDGET.
Proof using Type*.
  intros Hok ch'. assert (channel_ok ch') as (Hsum & Hnn & Hlen).
  { unfold ch'. clear ch'. revert ch Hok. induction ops as [|op ops IH]; intros ch Hok; [done|].
    simpl. by apply IH, queue_op_ok. }
  pose proof (queue_cost_nonneg (mpsc_queue (inner ch'))). unfold channel_queued_bytes. split_and!; lia.
Qed.

(** ** Senders as handles

    An [OutboundSender] is cloned into every table that addresses its
    connection, so the tables hold handles and the channels live in a heap the
    handles share. *)
Definition queued (h : N → Channel) (s : N) : list Outbound := mpsc_queue (inner (h s)).
Definition is_closed (h : N → Channel) (s : N) : bool := mpsc_is_closed (inner (h s)).
Definition is_evicted (h : N → Channel) (s : N) : bool := evicted (h s).

Definition queue_at (h : N → Channel) (s : N) (f : Frame) : Queued * (N → Channel) :=
  let '(q, ch) := try_queue (h s) f in (q, <[s := ch]> h).
Definition evict_at (h : N → Channel) (s : N) : N → Channel := <[s := channel_evict (h s)]> h.
Definition close_at (h : N → Channel) (s : N) : N → Channel := <[s := snd (channel_close (h s))]> h.

Definition heap_ok (h : N → Channel) : Prop := ∀ s, channel_ok (h s).

(** Whatever [queue_at] answers, it answers about one handle only. *)
Variant queue_at_spec (h : N → Channel) (s : N) (f : Frame) : Queued * (N → Channel) → Prop :=
| queue_at_sent h' :
    queued h' s = queued h s ++ [OutFrame f] → is_closed h' s = false → is_closed h s = false →
    is_evicted h' s = is_evicted h s → (∀ s', s' ≠ s → h' s' = h s') →
    queue_at_spec h s f (QSent, h')
| queue_at_full h' : (∀ s', h' s' = h s') → queue_at_spec h s f (QFull, h')
| queue_at_closed h' :
    is_closed h s = true → (∀ s', h' s' = h s') → queue_at_spec h s f (QClosed, h').

Lemma insert_same (h : N → Channel) s ch : ch = h s → ∀ s', <[s := ch]> h s' = h s'.
Proof.
  intros -> s'. destruct (decide (s' = s)) as [->|Hne]; [by rewrite fn_lookup_insert|].
  by rewrite fn_lookup_insert_ne.
Qed.

Lemma queue_at_cases h s f : queue_at_spec h s f (queue_at h s f).
Proof using Type*.
  unfold queue_at.
  destruct (try_queue_cases (h s) f)
    as [(ch' & -> & Hq & _ & _ & Hc & _ & Hc' & He)|[->|[-> Hc]]].
  - apply queue_at_sent; unfold queued, is_closed, is_evicted; rewrite ?fn_lookup_insert; try done.
    intros s' Hne. by apply fn_lookup_insert_ne.
  - by apply queue_at_full, insert_same.
  - apply queue_at_closed; [done|]. by apply insert_same.
Qed.

Lemma queue_at_ok h s f : heap_ok h → heap_ok (snd (queue_at h s f)).
Proof using Type*.
  intros Hok s'. unfold queue_at. pose proof (try_queue_ok (h s) f (Hok s)) as Hs.
  destruct (try_queue (h s) f) as [q ch]. cbn [snd] in *.
  destruct (decide (s' = s)) as [->|Hne]; [by rewrite fn_lookup_insert|].
  by rewrite fn_lookup_insert_ne.
Qed.

Lemma evict_at_ok h s : heap_ok h → heap_ok (evict_at h s).
Proof.
  intros Hok s'. unfold evict_at. destruct (decide (s' = s)) as [->|Hne].
  - rewrite fn_lookup_insert. exact (Hok s).
  - rewrite fn_lookup_insert_ne by done. apply Hok.
Qed.

Lemma evict_at_self h s : is_evicted (evict_at h s) s = true.
Proof. unfold is_evicted, evict_at. by rewrite fn_lookup_insert. Qed.

Lemma evict_at_ne h s s' : s' ≠ s → evict_at h s s' = h s'.
Proof. intros. unfold evict_at. by rewrite fn_lookup_insert_ne. Qed.

Lemma evict_at_queued h s s' : queued (evict_at h s) s' = queued h s'.
Proof.
  unfold queued, evict_at. destruct (decide (s' = s)) as [->|Hne].
  - by rewrite fn_lookup_insert.
  - by rewrite fn_lookup_insert_ne.
Qed.

Lemma evict_at_mono h s s' : is_evicted h s' = true → is_evicted (evict_at h s) s' = true.
Proof.
  unfold is_evicted, evict_at. destruct (decide (s' = s)) as [->|Hne].
  - by rewrite fn_lookup_insert.
  - by rewrite fn_lookup_insert_ne.
Qed.

Lemma close_at_evicted h s s' : is_evicted (close_at h s) s' = is_evicted h s'.
Proof.
  unfold is_evicted, close_at. destruct (decide (s' = s)) as [->|Hne].
  - rewrite fn_lookup_insert. unfold channel_close. by destruct (mpsc_try_send _ _) as [[] ?].
  - by rewrite fn_lookup_insert_ne.
Qed.
End queue.
Arguments Channel C P : clear implicits.

(** ** A list and a counter satisfy the laws *)
Module ListQueue.
#[global] Instance list_mpsc : Mpsc (list Outbound * bool) := {|
  mpsc_try_send (c : list Outbound * bool) (x : Outbound) :=
    if snd c then (SendClosed, c)
    else if (SEND_QUEUE_BOUND <=? length (fst c))%nat then (SendFull, c)
    else (SendOk, (fst c ++ [x], false));
  mpsc_try_recv (c : list Outbound * bool) := match fst c with [] => (None, c) | x :: q => (Some x, (q, snd c)) end;
  mpsc_queue (c : list Outbound * bool) := fst c;
  mpsc_is_closed (c : list Outbound * bool) := snd c
|}.

#[global] Instance list_mpsc_laws : MpscLaws (list Outbound * bool).
Proof.
  split; cbn -[SEND_QUEUE_BOUND Nat.leb].
  - intros [q b] x; cbn [fst snd]; by intros ->.
  - intros [q b] x; cbn -[SEND_QUEUE_BOUND Nat.leb]; intros -> Hf. by rewrite (proj2 (Nat.leb_le _ _) Hf).
  - intros [q b] x; cbn -[SEND_QUEUE_BOUND Nat.leb]; intros -> Hr. rewrite (proj2 (Nat.leb_gt _ _) Hr). by eexists.
  - by intros [q b]; cbn; intros ->.
  - intros [q b] x q'; cbn; intros ->. by eexists.
Qed.

#[global] Instance counter_semaphore : Semaphore Z := {|
  try_acquire_many (p n : Z) := if n <=? p then Some (p - n) else None;
  add_permits (p n : Z) := p + n;
  available_permits (p : Z) := p
|}.

#[global] Instance counter_semaphore_laws : SemaphoreLaws Z.
Proof.
  split; cbn.
  - intros p n Hle. rewrite (proj2 (Z.leb_le _ _) Hle). by eexists.
  - intros p n Hlt. by rewrite (proj2 (Z.leb_gt _ _) Hlt).
  - done.
Qed.

Definition empty_channel : Channel (list Outbound * bool) Z :=
  mkChannel ([], false) SEND_QUEUE_BYTE_BUDGET false.

Lemma empty_channel_ok : channel_ok empty_channel.
Proof. unfold channel_ok. cbn -[Nat.le SEND_QUEUE_BOUND]. split_and!; unfold SEND_QUEUE_BYTE_BUDGET; lia. Qed.
End ListQueue.

Lemma queue_bounded_witness :
  channel_queued_bytes (fold_left queue_op [OpQueue (Bye []); OpPing; OpQueue (Bye []); OpRecv]
    ListQueue.empty_channel) = 256
  ∧ (0 ≤ channel_queued_bytes (fold_left queue_op [OpQueue (Bye []); OpPing; OpQueue (Bye []); OpRecv]
      ListQueue.empty_channel) ≤ SEND_QUEUE_BYTE_BUDGET)%Z.
Proof.
  split; [by vm_compute|].
  exact (proj2 (proj2 (queue_bounded ListQueue.empty_channel
    [OpQueue (Bye []); OpPing; OpQueue (Bye []); OpRecv] ListQueue.empty_channel_ok))).
Defined.
