(* ===== verification/Calls.v ===== *)
(** * Voice calls

    Models [backend/wealdrelay/src/calls/mod.rs]: the [CALL] kinds, one
    connection's [MediaBudget], and the [CallRegistry] with its routing of
    media onto the participants' queues. The registry's map is locked for the
    whole of every operation, so each operation is one step. *)

From Stdlib Require Import ZArith Lia.
From stdpp Require Import base tactics numbers gmap fin_maps functions sorting list.
From S2P Require Import Prelude Cbor Push Frame Queue.

Open Scope Z_scope.

Definition MEDIA_FRAMES_PER_STREAM_PER_SECOND : Z := 60.
Definition MEDIA_STREAM_WINDOW_MS : Z := 1000.
Definition MEDIA_BYTES_PER_MINUTE : Z := 1024 * 1024.
Definition MAX_PARTICIPANTS_PER_CALL : nat := 5.
Definition MAX_TRACKED_STREAMS : nat := 32.
Definition CALL_IDLE_MS : Z := 2 * 60 * 1000.
Definition CALL_PROTOCOL_VERSION : Z := 3.

Inductive CallKind : Type := Offer | Answer | Decline | Hangup.
#[global] Instance CallKind_eq_dec : EqDecision CallKind.
Proof. solve_decision. Defined.

(** [CallKind::Bye] is [Hangup] here: [Bye] is already a frame. *)
Definition CallKind_from_u8 (value : Z) : option CallKind :=
  match value with 1 => Some Offer | 2 => Some Answer | 3 => Some Decline | 4 => Some Hangup | _ => None end.
Definition joins (k : CallKind) : bool :=
  match k with Offer | Answer => true | Decline | Hangup => false end.

(** ** One connection's media budget *)
Record StreamWindow : Type := mkStreamWindow {
  sw_call : list byte; sw_stream : list byte; sw_started : Z; sw_spent : Z
}.
#[global] Instance StreamWindow_eq_dec : EqDecision StreamWindow.
Proof. solve_decision. Defined.

Record MediaBudget : Type := mkMediaBudget {
  streams : list StreamWindow;
  bytes_window_started_ms : Z;
  bytes_spent : Z;
  last_reported_ms : option Z
}.
Definition media_budget_new : MediaBudget := mkMediaBudget [] 0 0 None.

Inductive MediaRefusal : Type := StreamRate | ByteRate | TooManyStreams.
Definition media_refusal_code (r : MediaRefusal) : ErrorCode :=
  match r with StreamRate | ByteRate | TooManyStreams => GroupIngressLimited end.
Definition media_refusal_retry_after (r : MediaRefusal) : Z :=
  match r with
  | StreamRate | TooManyStreams => Z.max (MEDIA_STREAM_WINDOW_MS / 1000) 1
  | ByteRate => 60
  end.
Definition media_refusal_detail (r : MediaRefusal) : Z :=
  match r with
  | StreamRate => MEDIA_FRAMES_PER_STREAM_PER_SECOND
  | ByteRate => MEDIA_BYTES_PER_MINUTE
  | TooManyStreams => Z.of_nat MAX_TRACKED_STREAMS
  end.

Definition stream_key (w : StreamWindow) : list byte * list byte := (sw_call w, sw_stream w).
Definition stream_live (now_ms : Z) (w : StreamWindow) : Prop :=
  sw_started w ≤ now_ms ∧ u64_saturating_sub now_ms (sw_started w) < MEDIA_STREAM_WINDOW_MS.
#[global] Instance stream_live_dec now_ms w : Decision (stream_live now_ms w).
Proof. unfold stream_live. apply _. Defined.

Definition bump (w : StreamWindow) : StreamWindow :=
  mkStreamWindow (sw_call w) (sw_stream w) (sw_started w) (sw_spent w + 1).

(** [MediaBudget::charge]. The byte window is renewed first, whether or not the
    frame is then accepted, and expired streams are dropped only past it. *)
Definition media_charge (b : MediaBudget) (now_ms : Z) (call_id stream : list byte) (bytes : Z) :
    result MediaRefusal () * MediaBudget :=
  let '(started, spent) :=
    if (now_ms <? bytes_window_started_ms b)
       || (60000 <=? u64_saturating_sub now_ms (bytes_window_started_ms b))
    then (now_ms, 0) else (bytes_window_started_ms b, bytes_spent b) in
  let next := u64_saturating_add spent bytes in
  if MEDIA_BYTES_PER_MINUTE <? next
  then (Err ByteRate, mkMediaBudget (streams b) started spent (last_reported_ms b))
  else
    let live := filter (stream_live now_ms) (streams b) in
    match list_find (λ w, stream_key w = (call_id, stream)) live with
    | Some (i, w) =>
        if MEDIA_FRAMES_PER_STREAM_PER_SECOND <=? sw_spent w
        then (Err StreamRate, mkMediaBudget live started spent (last_reported_ms b))
        else (Ok (), mkMediaBudget (<[i := bump w]> live) started next (last_reported_ms b))
    | None =>
        if (MAX_TRACKED_STREAMS <=? length live)%nat
        then (Err TooManyStreams, mkMediaBudget live started spent (last_reported_ms b))
        else (Ok (), mkMediaBudget (live ++ [mkStreamWindow call_id stream now_ms 1])
                       started next (last_reported_ms b))
    end.

Definition tracked_streams (b : MediaBudget) : nat := length (streams b).

Definition should_report (b : MediaBudget) (now_ms : Z) : bool * MediaBudget :=
  let fresh :=
    match last_reported_ms b with
    | None => true
    | Some last => (now_ms <? last) || (MEDIA_STREAM_WINDOW_MS <=? u64_saturating_sub now_ms last)
    end in
  (fresh, if fresh then mkMediaBudget (streams b) (bytes_window_started_ms b) (bytes_spent b) (Some now_ms)
          else b).

(** ** The registry *)
Record CallEntry : Type := mkCallEntry {
  ce_group : list byte;
  participants : list (ConnectionId * N);
  last_activity : Z
}.

Inductive JoinRefusal : Type := GroupMismatch | TooManyCalls | CallFull.
Definition join_refusal_code (r : JoinRefusal) : ErrorCode :=
  match r with GroupMismatch => WriterNotInAccessSet | TooManyCalls | CallFull => RateLimited end.
Definition join_refusal_retry_after (r : JoinRefusal) : option Z :=
  match r with GroupMismatch => None | TooManyCalls | CallFull => Some 5 end.
Definition join_refusal_detail (r : JoinRefusal) (max_calls : nat) : Z :=
  match r with
  | GroupMismatch => 0
  | TooManyCalls => Z.of_nat max_calls
  | CallFull => Z.of_nat MAX_PARTICIPANTS_PER_CALL
  end.

Record CallRegistry : Type := mkCallRegistry {
  calls : gmap (list byte) CallEntry;
  max_concurrent : nat;
  shed : Z;
  denied : Z;
  share_refused : Z
}.

Definition call_registry_new (max_concurrent : nat) : CallRegistry :=
  mkCallRegistry ∅ max_concurrent 0 0 0.
Definition share (r : CallRegistry) : nat := Nat.max (max_concurrent r / 4) 1.
(** [AtomicU64::fetch_add] wraps. *)
Definition fetch_add (n k : Z) : Z := (n + k) mod 2 ^ 64.

Definition with_calls (r : CallRegistry) (m : gmap (list byte) CallEntry) : CallRegistry :=
  mkCallRegistry m (max_concurrent r) (shed r) (denied r) (share_refused r).

Definition in_call (connection : ConnectionId) (call : CallEntry) : bool :=
  existsb (λ p, bool_decide (p.1 = connection)) (participants call).

(** [Instant::duration_since] saturates at zero. *)
Definition not_idle (now idle : Z) (e : list byte * CallEntry) : Prop :=
  Z.max 0 (now - last_activity e.2) < idle.
#[global] Instance not_idle_dec now idle e : Decision (not_idle now idle e).
Proof. unfold not_idle. apply _. Defined.

Definition drop_idle (m : gmap (list byte) CallEntry) (now idle : Z) : gmap (list byte) CallEntry :=
  filter (not_idle now idle) m.
Definition sweep_idle (r : CallRegistry) (now idle : Z) : nat * CallRegistry :=
  let m := drop_idle (calls r) now idle in ((size (calls r) - size m)%nat, with_calls r m).

(** The calls a connection is in. *)
Definition held (m : gmap (list byte) CallEntry) (connection : ConnectionId) : nat :=
  size (filter (λ e, in_call connection e.2 = true) m).

(** [CallRegistry::join]. [swept] is the clock [drop_idle] reads and [now] the
    one the admitted frame is stamped with. *)
Definition join (r : CallRegistry) (swept now : Z) (call_id group : list byte)
    (connection : ConnectionId) (sender : N) : result JoinRefusal () * CallRegistry :=
  let m := drop_idle (calls r) swept CALL_IDLE_MS in
  match m !! call_id with
  | Some call =>
      if negb (bool_decide (ce_group call = group)) then (Err GroupMismatch, with_calls r m)
      else if in_call connection call then (Ok (), with_calls r m)
      else if (MAX_PARTICIPANTS_PER_CALL <=? length (participants call))%nat
      then (Err CallFull, with_calls r m)
      else (Ok (), with_calls r (<[call_id := mkCallEntry (ce_group call)
                                   (participants call ++ [(connection, sender)]) now]> m))
  | None =>
      if (max_concurrent r <=? size m)%nat then (Err TooManyCalls, with_calls r m)
      else if (share r <=? held m connection)%nat
      then (Err TooManyCalls,
            mkCallRegistry m (max_concurrent r) (shed r) (denied r) (fetch_add (share_refused r) 1))
      else (Ok (), with_calls r (<[call_id := mkCallEntry group [(connection, sender)] now]> m))
  end.

Definition without (connection : ConnectionId) (call : CallEntry) : CallEntry :=
  mkCallEntry (ce_group call) (filter (λ p, p.1 ≠ connection) (participants call)) (last_activity call).

Definition leave (r : CallRegistry) (call_id : list byte) (connection : ConnectionId) : CallRegistry :=
  match calls r !! call_id with
  | None => r
  | Some call =>
      let call' := without connection call in
      match participants call' with
      | [] => with_calls r (delete call_id (calls r))
      | _ => with_calls r (<[call_id := call']> (calls r))
      end
  end.

Definition forget (r : CallRegistry) (connection : ConnectionId) : CallRegistry :=
  with_calls r (filter (λ e, participants e.2 ≠ []) (without connection <$> calls r)).

Definition group_of (r : CallRegistry) (call_id : list byte) : option (list byte) :=
  ce_group <$> (calls r !! call_id).
Definition holds (r : CallRegistry) (call_id : list byte) (connection : ConnectionId) : bool :=
  match calls r !! call_id with None => false | Some call => in_call connection call end.

Record Routed : Type := mkRouted { rt_sent : nat; rt_shed : nat; rt_gone : nat }.
Section routing.
Context {C P : Type} `{MpscLaws C, SemaphoreLaws P}.

(** One recipient of a media frame: the heap of queues, the counts so far, the
    relay's shed counter and the connections found closed. *)
Definition route_one (from : ConnectionId) (frame : Frame)
    (acc : (N → Channel C P) * Routed * Z * list ConnectionId) (p : ConnectionId * N) :
    (N → Channel C P) * Routed * Z * list ConnectionId :=
  let '(h, routed, shed, gone) := acc in
  let '(id, sender) := p in
  if bool_decide (id = from) then acc
  else
    match queue_at h sender frame with
    | (QSent, h) => (h, mkRouted (S (rt_sent routed)) (rt_shed routed) (rt_gone routed), shed, gone)
    | (QFull, h) =>
        (h, mkRouted (rt_sent routed) (S (rt_shed routed)) (rt_gone routed), fetch_add shed 1, gone)
    | (QClosed, h) =>
        (h, mkRouted (rt_sent routed) (rt_shed routed) (S (rt_gone routed)), shed, gone ++ [id])
    end.

(** [CallRegistry::route]. *)
Definition route (r : CallRegistry) (h : N → Channel C P) (now : Z) (call_id : list byte)
    (from : ConnectionId) (frame : Frame) :
    result ErrorCode Routed * CallRegistry * (N → Channel C P) :=
  let refused :=
    (Err WriterNotInAccessSet,
     mkCallRegistry (calls r) (max_concurrent r) (shed r) (fetch_add (denied r) 1) (share_refused r), h) in
  match calls r !! call_id with
  | None => refused
  | Some call =>
      if in_call from call then
        let '(h', routed, shed', gone) :=
          fold_left (route_one from frame) (participants call) (h, mkRouted 0 0 0, shed r, []) in
        let call' := mkCallEntry (ce_group call) (filter (λ p, p.1 ∉ gone) (participants call)) now in
        (Ok routed,
         mkCallRegistry (<[call_id := call']> (calls r)) (max_concurrent r) shed' (denied r) (share_refused r),
         h')
      else refused
  end.
End routing.
(** ** The media budget's bounds *)
Record MediaFrame : Type := mkMediaFrame { mf_at : Z; mf_call : list byte; mf_stream : list byte; mf_bytes : Z }.
Definition mf_key (f : MediaFrame) : list byte * list byte := (mf_call f, mf_stream f).
Definition media_step (b : MediaBudget) (f : MediaFrame) : result MediaRefusal () * MediaBudget :=
  media_charge b (mf_at f) (mf_call f) (mf_stream f) (mf_bytes f).

(** The frames a sequence of charges accepts, in order. *)
Fixpoint accepted_media (b : MediaBudget) (fs : list MediaFrame) : list MediaFrame :=
  match fs with
  | [] => []
  | f :: rest =>
      let '(res, b') := media_step b f in
      if is_ok res then f :: accepted_media b' rest else accepted_media b' rest
  end.

Definition stream_frames (k : list byte * list byte) (fs : list MediaFrame) : nat :=
  length (filter (λ f, mf_key f = k) fs).
Definition media_bytes (fs : list MediaFrame) : Z := foldr (λ f n, mf_bytes f + n) 0 fs.

Definition media_budget_ok (b : MediaBudget) : Prop :=
  NoDup (stream_key <$> streams b)
  ∧ Forall (λ w, 1 ≤ sw_spent w ≤ MEDIA_FRAMES_PER_STREAM_PER_SECOND) (streams b)
  ∧ (tracked_streams b ≤ MAX_TRACKED_STREAMS)%nat
  ∧ 0 ≤ bytes_spent b ≤ MEDIA_BYTES_PER_MINUTE.

Lemma bump_key w : stream_key (bump w) = stream_key w.
Proof. done. Qed.

(** What a charge does to the stream table, whatever the outcome. *)
Lemma media_step_streams b f :
  let live := filter (stream_live (mf_at f)) (streams b) in
  match media_step b f with
  | (Ok _, b') =>
      (∃ i w, live !! i = Some w ∧ stream_key w = mf_key f
         ∧ sw_spent w < MEDIA_FRAMES_PER_STREAM_PER_SECOND ∧ streams b' = <[i := bump w]> live)
      ∨ ((∀ w, w ∈ live → stream_key w ≠ mf_key f) ∧ (length live < MAX_TRACKED_STREAMS)%nat
         ∧ streams b' = live ++ [mkStreamWindow (mf_call f) (mf_stream f) (mf_at f) 1])
  | (Err _, b') => streams b' = streams b ∨ streams b' = live
  end.
Proof.
  intros live. unfold media_step, media_charge. fold live.
  destruct (if _ : bool then _ else _) as [started spent].
  destruct (MEDIA_BYTES_PER_MINUTE <? _); [by left|].
  change (mf_call f, mf_stream f) with (mf_key f).
  destruct (list_find _ live) as [[i w]|] eqn:Hfind.
  - apply list_find_Some in Hfind as (Hi & Hk & _). destruct (Z.leb_spec MEDIA_FRAMES_PER_STREAM_PER_SECOND (sw_spent w)).
    + by right.
    + left. by exists i, w.
  - rewrite list_find_None, Forall_forall in Hfind.
    destruct (Nat.leb_spec MAX_TRACKED_STREAMS (length live)); right; [done|]. split_and!; [|lia|done].
    intros w Hw. exact (Hfind w Hw).
Qed.

Lemma media_step_bytes b f :
  0 ≤ mf_bytes f → media_budget_ok b →
  let fresh := mf_at f < bytes_window_started_ms b ∨ bytes_window_started_ms b + 60000 ≤ mf_at f in
  let '(res, b') := media_step b f in
  let taken := if is_ok res then mf_bytes f else 0 in
  bytes_spent b' ≤ MEDIA_BYTES_PER_MINUTE
  ∧ ((fresh ∧ bytes_window_started_ms b' = mf_at f ∧ bytes_spent b' = taken)
     ∨ (¬ fresh ∧ bytes_window_started_ms b' = bytes_window_started_ms b ∧ bytes_spent b' = bytes_spent b + taken)).
Proof.
  intros Hb (_ & _ & _ & Hs) fresh. unfold media_step, media_charge, u64_saturating_sub, u64_saturating_add.
  unfold MEDIA_BYTES_PER_MINUTE in *.
  set (renew := (_ <? _) || (_ <=? _)).
  assert (renew = true ↔ fresh) as Hr.
  { unfold renew, fresh. rewrite orb_true_iff, Z.ltb_lt, Z.leb_le. lia. }
  assert (∀ started spent (res : result MediaRefusal ()) b',
    bytes_window_started_ms b' = started → bytes_spent b' = spent + (if is_ok res then mf_bytes f else 0) →
    bytes_spent b' ≤ 1024 * 1024 →
    (fresh ∧ started = mf_at f ∧ spent = 0)
      ∨ (¬ fresh ∧ started = bytes_window_started_ms b ∧ spent = bytes_spent b) →
    bytes_spent b' ≤ 1024 * 1024
    ∧ ((fresh ∧ bytes_window_started_ms b' = mf_at f ∧ bytes_spent b' = if is_ok res then mf_bytes f else 0)
       ∨ (¬ fresh ∧ bytes_window_started_ms b' = bytes_window_started_ms b
          ∧ bytes_spent b' = bytes_spent b + if is_ok res then mf_bytes f else 0))) as Hgoal.
  { intros started spent res b' -> -> Hle [(? & -> & ->)|(? & -> & ->)]; split; try done; [left|right];
      split_and!; (done || lia). }
  set (window := if renew then _ else _).
  assert ((fresh ∧ window.1 = mf_at f ∧ window.2 = 0)
    ∨ (¬ fresh ∧ window.1 = bytes_window_started_ms b ∧ window.2 = bytes_spent b)) as Hw.
  { unfold window. destruct renew; [left | right]; split_and!; try done; [by apply Hr|].
    intros Hf. by apply Hr in Hf. }
  assert (0 ≤ window.2 ≤ 1024 * 1024) as Hw2 by (destruct Hw as [(_ & _ & ->)|(_ & _ & ->)]; lia).
  clearbody window. destruct window as [started spent]. cbn [fst snd] in *.
  destruct (Z.ltb_spec (1024 * 1024) (Z.min U64_MAX (spent + mf_bytes f))) as [|Hin];
    [|unfold U64_MAX in *; destruct (list_find _ _) as [[i w]|];
      [destruct (_ <=? sw_spent w) | destruct (_ <=? _)%nat]]; apply (Hgoal started spent);
    cbn [is_ok bytes_spent bytes_window_started_ms]; (done || lia).
Qed.

Lemma live_length b now : (length (filter (stream_live now) (streams b)) ≤ tracked_streams b)%nat.
Proof. apply length_filter. Qed.

Lemma media_budget_new_ok : media_budget_ok media_budget_new.
Proof.
  split_and!; cbn [streams media_budget_new bytes_spent tracked_streams]; try constructor.
  - unfold tracked_streams, MAX_TRACKED_STREAMS. cbn. lia.
  - lia.
  - unfold MEDIA_BYTES_PER_MINUTE. lia.
Qed.

Lemma media_step_ok b f : 0 ≤ mf_bytes f → media_budget_ok b → media_budget_ok (snd (media_step b f)).
Proof.
  intros Hf Hok. pose proof (media_step_streams b f) as Hs. pose proof (media_step_bytes b f Hf Hok) as Hb.
  destruct Hok as (Hn & Hsp & Ht & Hbs). set (live := filter _ (streams b)) in Hs.
  assert (NoDup (stream_key <$> live)) as Hnl by by apply NoDup_fmap_filter.
  assert (Forall (λ w, 1 ≤ sw_spent w ≤ MEDIA_FRAMES_PER_STREAM_PER_SECOND) live) as Hspl
    by by apply Forall_filter_keep.
  assert ((length live ≤ tracked_streams b)%nat) as Hll by apply live_length.
  destruct (media_step b f) as [res b']. cbn [snd].
  assert (0 ≤ bytes_spent b' ≤ MEDIA_BYTES_PER_MINUTE) as Hbs'.
  { destruct Hb as [Hle [(_ & _ & Heq)|(_ & _ & Heq)]]; split; try done; rewrite Heq; case_match; lia. }
  assert (NoDup (stream_key <$> streams b')
    ∧ Forall (λ w, 1 ≤ sw_spent w ≤ MEDIA_FRAMES_PER_STREAM_PER_SECOND) (streams b')
    ∧ (length (streams b') ≤ MAX_TRACKED_STREAMS)%nat) as (? & ? & ?); [|by refine (conj _ (conj _ (conj _ Hbs')))].
  destruct res as [[]|e].
  - destruct Hs as [(i & w & Hi & Hk & Hlt & ->)|(Hnew & Hlt & ->)].
    + rewrite list_fmap_insert, bump_key, list_insert_id by (rewrite list_lookup_fmap, Hi; done).
      rewrite length_insert. split_and!; [done| |unfold tracked_streams in *; lia].
      apply Forall_insert; [done|]. cbn [bump sw_spent].
      pose proof (Forall_lookup_1 _ _ _ _ Hspl Hi) as Hw. cbn in Hw. lia.
    + rewrite fmap_app, length_app. cbn [fmap list_fmap length]. split_and!; [| |lia].
      * apply list.NoDup_app. split_and!; [done| |apply NoDup_singleton].
        intros k Hk ->%list_elem_of_singleton. apply list_elem_of_fmap in Hk as (w & Hk & Hw).
        by apply (Hnew w).
      * apply Forall_app. split; [done|]. constructor; [|done]. cbn. unfold MEDIA_FRAMES_PER_STREAM_PER_SECOND. lia.
  - destruct Hs as [-> | ->]; split_and!; unfold tracked_streams in *; (done || lia).
Qed.

Lemma media_step_keeps k b f w :
  w ∈ streams b → stream_key w = k → stream_live (mf_at f) w → media_budget_ok b →
  is_ok (fst (media_step b f)) = false ∨ mf_key f ≠ k → w ∈ streams (snd (media_step b f)).
Proof.
  intros Hw Hk Hl Hok Hf. pose proof (media_step_streams b f) as Hs. set (live := filter _ (streams b)) in Hs.
  assert (w ∈ live) as Hwl by (by apply list_elem_of_filter).
  destruct (media_step b f) as [[[]|e] b']; cbn [is_ok fst snd] in *.
  - destruct Hf as [?|Hf]; [done|].
    destruct Hs as [(i & w' & Hi & Hk' & Hlt & ->)|(_ & _ & ->)]; [|apply elem_of_app; by left].
    apply list_elem_of_lookup in Hwl as [j Hj]. apply (list_elem_of_lookup_2 _ j).
    rewrite list_lookup_insert_ne; [done|]. intros ->. congruence.
  - by destruct Hs as [-> | ->].
Qed.

Lemma media_step_adds_nothing k b f w :
  is_ok (fst (media_step b f)) = false ∨ mf_key f ≠ k →
  w ∈ streams (snd (media_step b f)) → stream_key w = k → w ∈ streams b.
Proof.
  intros Hf. pose proof (media_step_streams b f) as Hs. set (live := filter _ (streams b)) in Hs.
  assert (∀ w, w ∈ live → w ∈ streams b) as Hsub by (intros x [_ ?]%list_elem_of_filter; done).
  destruct (media_step b f) as [[[]|e] b']; cbn [is_ok fst snd] in *.
  - destruct Hf as [?|Hf]; [done|]. intros Hw Hk.
    destruct Hs as [(i & w' & Hi & Hk' & Hlt & Hs)|(_ & _ & Hs)]; rewrite Hs in Hw.
    + apply list_elem_of_lookup in Hw as [j Hj]. apply list_lookup_insert_Some in Hj as [(-> & <- & _)|(_ & Hj)].
      * rewrite bump_key in Hk. congruence.
      * by apply Hsub, (list_elem_of_lookup_2 _ j).
    + apply elem_of_app in Hw as [Hw|Hw%list_elem_of_singleton]; [by apply Hsub|]. subst w. by destruct Hf.
  - destruct Hs as [-> | ->]; auto.
Qed.

(** An accepted frame either spends from its stream's live window or opens one. *)
Lemma media_step_accepts b f :
  media_budget_ok b → is_ok (fst (media_step b f)) = true →
  (∃ w, w ∈ streams b ∧ stream_key w = mf_key f ∧ sw_spent w < MEDIA_FRAMES_PER_STREAM_PER_SECOND
     ∧ bump w ∈ streams (snd (media_step b f)))
  ∨ mkStreamWindow (mf_call f) (mf_stream f) (mf_at f) 1 ∈ streams (snd (media_step b f))
    ∧ ∀ w, w ∈ streams b → stream_key w = mf_key f → ¬ stream_live (mf_at f) w.
Proof.
  intros Hok Hf. pose proof (media_step_streams b f) as Hs. set (live := filter _ (streams b)) in Hs.
  destruct (media_step b f) as [[[]|e] b']; cbn [is_ok fst snd] in *; [|done].
  destruct Hs as [(i & w' & Hi & Hk' & Hlt & ->)|(Hnew & _ & ->)].
  - left. exists w'. split_and!; try done.
    + by apply list_elem_of_lookup_2, list_elem_of_filter in Hi as [_ ?].
    + apply (list_elem_of_lookup_2 _ i), list_lookup_insert_eq. by apply lookup_lt_Some in Hi.
  - right. split; [apply elem_of_app; right; by apply list_elem_of_singleton|].
    intros w Hw Hk Hl. by apply (Hnew w); [apply list_elem_of_filter|].
Qed.

Lemma stream_frames_cons k f fs :
  stream_frames k (f :: fs) = ((if decide (mf_key f = k) then 1 else 0) + stream_frames k fs)%nat.
Proof. unfold stream_frames. rewrite filter_cons. by case_decide. Qed.

Lemma spent_in_range b w : media_budget_ok b → w ∈ streams b → 1 ≤ sw_spent w ≤ MEDIA_FRAMES_PER_STREAM_PER_SECOND.
Proof. intros (_ & Hsp & _) Hw. exact (proj1 (list.Forall_forall _ _) Hsp w Hw). Qed.

(** One accepted charge seen through the accepted frames. *)
Lemma accepted_media_step k b f fs :
  stream_frames k (accepted_media b (f :: fs))
  = ((if is_ok (fst (media_step b f)) && bool_decide (mf_key f = k) then 1 else 0)
     + stream_frames k (accepted_media (snd (media_step b f)) fs))%nat.
Proof.
  cbn [accepted_media]. destruct (media_step b f) as [res b']. cbn [fst snd].
  destruct (is_ok res); [|done]. rewrite stream_frames_cons. cbn [andb].
  by destruct (decide (mf_key f = k)) as [Hk|Hk]; [rewrite bool_decide_eq_true_2 | rewrite bool_decide_eq_false_2].
Qed.

(** Once a stream's window is open, it admits what it has left and no more. *)
Lemma open_window_admits k u fs b w :
  media_budget_ok b → w ∈ streams b → stream_key w = k → sw_started w = u →
  Forall (λ f, 0 ≤ mf_bytes f ∧ u ≤ mf_at f < u + MEDIA_STREAM_WINDOW_MS) fs →
  Z.of_nat (stream_frames k (accepted_media b fs)) ≤ MEDIA_FRAMES_PER_STREAM_PER_SECOND - sw_spent w.
Proof.
  revert b w. induction fs as [|f fs IH]; intros b w Hok Hw Hk Hu Hfs.
  { pose proof (spent_in_range b w Hok Hw). cbn. lia. }
  apply Forall_cons in Hfs as [[Hf Ht] Hfs]. pose proof (media_step_ok b f Hf Hok) as Hok'.
  assert (stream_live (mf_at f) w) as Hl by (unfold stream_live, u64_saturating_sub; lia).
  rewrite accepted_media_step. destruct (is_ok (fst (media_step b f))) eqn:Hres; cbn [andb].
  - case_bool_decide as Hfk.
    + destruct (media_step_accepts b f Hok Hres) as [(w' & Hw' & Hk' & Hlt & Hb)|[_ Hno]].
      * assert (w' = w) as -> by (eapply (NoDup_fmap_unique stream_key); [apply Hok|done..|congruence]).
        specialize (IH _ (bump w) Hok' Hb Hk Hu Hfs). cbn [bump sw_spent] in IH. lia.
      * destruct (Hno w Hw); [congruence | done].
    + apply (IH _ w); try done. by apply (media_step_keeps k); auto.
  - apply (IH _ w); try done. by apply (media_step_keeps k); auto.
Qed.

(** A stream's frames accepted inside any one second: the rest of a window that
    was already open, and one that opened within it. *)
Lemma second_admits k t fs b :
  media_budget_ok b →
  Forall (λ f, 0 ≤ mf_bytes f ∧ t ≤ mf_at f < t + MEDIA_STREAM_WINDOW_MS) fs →
  StronglySorted (λ f g, mf_at f ≤ mf_at g) fs →
  (∀ w, w ∈ streams b → stream_key w = k →
     Z.of_nat (stream_frames k (accepted_media b fs)) ≤ 2 * MEDIA_FRAMES_PER_STREAM_PER_SECOND - sw_spent w)
  ∧ ((∀ w, w ∈ streams b → stream_key w ≠ k) →
     Z.of_nat (stream_frames k (accepted_media b fs)) ≤ MEDIA_FRAMES_PER_STREAM_PER_SECOND).
Proof.
  revert b. induction fs as [|f fs IH]; intros b Hok Hfs Hsort.
  { split; [intros w Hw _; pose proof (spent_in_range b w Hok Hw) | intros _]; cbn;
      unfold MEDIA_FRAMES_PER_STREAM_PER_SECOND in *; lia. }
  apply Forall_cons in Hfs as [[Hf Ht] Hfs]. apply StronglySorted_inv in Hsort as [Hsort Hle].
  pose proof (media_step_ok b f Hf Hok) as Hok'. destruct (IH _ Hok' Hfs Hsort) as [IH1 IH2]. clear IH.
  rewrite accepted_media_step. set (b' := snd (media_step b f)) in *.
  destruct (is_ok (fst (media_step b f)) && bool_decide (mf_key f = k)) eqn:Hres.
  - apply andb_true_iff in Hres as [Hres Hfk]. apply bool_decide_eq_true in Hfk.
    destruct (media_step_accepts b f Hok Hres) as [(w' & Hw' & Hk' & Hlt & Hb)|[Hb Hno]].
    + split; [|intros Hnone; by destruct (Hnone w' Hw'); congruence].
      intros w Hw Hk. assert (w' = w) as -> by (eapply (NoDup_fmap_unique stream_key); [apply Hok|done..|congruence]).
      specialize (IH1 _ Hb Hk). cbn [bump sw_spent] in IH1. lia.
    + assert (Z.of_nat (stream_frames k (accepted_media b' fs)) ≤ MEDIA_FRAMES_PER_STREAM_PER_SECOND - 1) as Hw1.
      { refine (open_window_admits k (mf_at f) fs b' _ Hok' Hb Hfk eq_refl _).
        rewrite list.Forall_forall in Hfs, Hle |- *. intros g Hg. specialize (Hfs g Hg). specialize (Hle g Hg).
        cbn in *. lia. }
      split; [intros w Hw _; pose proof (spent_in_range b w Hok Hw) | intros _]; lia.
  - assert (is_ok (fst (media_step b f)) = false ∨ mf_key f ≠ k) as Hother.
    { apply andb_false_iff in Hres as [?|Hfk]; [by left|]. right. by apply bool_decide_eq_false in Hfk. }
    pose proof (λ w, media_step_adds_nothing k b f w Hother) as Hsub. fold b' in Hsub. split.
    + intros w Hw Hk. pose proof (spent_in_range b w Hok Hw).
      destruct (decide (w ∈ streams b')) as [Hin|Hout]; [by apply IH1|].
      assert (∀ w', w' ∈ streams b' → stream_key w' ≠ k) as Hnone; [|specialize (IH2 Hnone); lia].
      intros w' Hw' Hk'. assert (w' = w) as ->; [|done].
      eapply (NoDup_fmap_unique stream_key); [apply Hok|by apply Hsub|done|congruence].
    + intros Hnone. apply IH2. intros w' Hw' Hk'. by apply (Hnone w'); [apply Hsub|].
Qed.

Definition media_after (b : MediaBudget) (fs : list MediaFrame) : MediaBudget :=
  fold_left (λ b f, snd (media_step b f)) fs b.

Lemma media_after_ok b fs :
  media_budget_ok b → Forall (λ f, 0 ≤ mf_bytes f) fs → media_budget_ok (media_after b fs).
Proof.
  revert b. induction fs as [|f fs IH]; intros b Hok Hfs; [done|]. apply Forall_cons in Hfs as [Hf Hfs].
  apply IH; [by apply media_step_ok | done].
Qed.

Lemma accepted_bytes_step b f fs :
  media_bytes (accepted_media b (f :: fs))
  = (if is_ok (fst (media_step b f)) then mf_bytes f else 0)
    + media_bytes (accepted_media (snd (media_step b f)) fs).
Proof. cbn [accepted_media]. destruct (media_step b f) as [[[]|e] b']; cbn [is_ok fst snd]; unfold media_bytes; simpl; lia. Qed.

(** The bytes accepted inside any one minute: the rest of the window that was
    open, and one that opened within it. *)
Lemma minute_admits t fs b :
  media_budget_ok b →
  Forall (λ f, 0 ≤ mf_bytes f ∧ t ≤ mf_at f < t + 60000) fs →
  StronglySorted (λ f g, mf_at f ≤ mf_at g) fs →
  media_bytes (accepted_media b fs) ≤ 2 * MEDIA_BYTES_PER_MINUTE - bytes_spent b
  ∧ (Forall (λ f, bytes_window_started_ms b ≤ mf_at f < bytes_window_started_ms b + 60000) fs →
     media_bytes (accepted_media b fs) ≤ MEDIA_BYTES_PER_MINUTE - bytes_spent b).
Proof.
  revert b. induction fs as [|f fs IH]; intros b Hok Hfs Hsort.
  { destruct Hok as (_ & _ & _ & Hs). cbn -[Z.mul]. unfold MEDIA_BYTES_PER_MINUTE in *. split; [|intros _]; lia. }
  apply Forall_cons in Hfs as [[Hf Ht] Hfs]. apply StronglySorted_inv in Hsort as [Hsort Hle].
  pose proof (media_step_ok b f Hf Hok) as Hok'. destruct (IH _ Hok' Hfs Hsort) as [IH1 IH2]. clear IH.
  rewrite accepted_bytes_step. pose proof (media_step_bytes b f Hf Hok) as Hb.
  destruct Hok as (_ & _ & _ & Hs).
  destruct (media_step b f) as [res b']. cbn [fst snd] in *.
  destruct Hb as [Hmax [(Hfresh & Hst & Hsp)|(Hfresh & Hst & Hsp)]].
  - assert (Forall (λ g, bytes_window_started_ms b' ≤ mf_at g < bytes_window_started_ms b' + 60000) fs) as Hin.
    { rewrite list.Forall_forall in Hfs, Hle |- *. intros g Hg. specialize (Hfs g Hg). specialize (Hle g Hg).
      cbn in *. lia. }
    specialize (IH2 Hin). split; [lia|]. intros [Hw _]%Forall_cons. lia.
  - split; [lia|]. intros [_ Hw]%Forall_cons. rewrite Hst in IH2. specialize (IH2 Hw). lia.
Qed.

(** What a connection gets through the media path is bounded whatever it
    sends and however it rotates stream ids: after any history, a stream has at
    most twice its per-second rate accepted inside any one second (the tail of
    one window and the head of the next), the connection has at most twice its
    per-minute bytes accepted inside any one minute, and the table of stream
    windows never exceeds its thirty-two entries. *)
Theorem media_budget_respected history fs t k :
  Forall (λ f, 0 ≤ mf_bytes f) (history ++ fs) →
  StronglySorted (λ f g, mf_at f ≤ mf_at g) fs →
  let b := media_after media_budget_new history in
  (Forall (λ f, t ≤ mf_at f < t + MEDIA_STREAM_WINDOW_MS) fs →
     Z.of_nat (stream_frames k (accepted_media b fs)) ≤ 2 * MEDIA_FRAMES_PER_STREAM_PER_SECOND)
  ∧ (Forall (λ f, t ≤ mf_at f < t + 60000) fs →
     media_bytes (accepted_media b fs) ≤ 2 * MEDIA_BYTES_PER_MINUTE)
  ∧ (tracked_streams (media_after b fs) ≤ MAX_TRACKED_STREAMS)%nat.
Proof.
  intros [Hh Hfs]%Forall_app Hsort b. assert (media_budget_ok b) as Hok by (by apply media_after_ok; [apply media_budget_new_ok|]).
  split_and!.
  - intros Ht. destruct (second_admits k t fs b Hok ltac:(by apply Forall_and) Hsort) as [H1 H2].
    destruct (list_find (λ w, stream_key w = k) (streams b)) as [[i w]|] eqn:Hf.
    + apply list_find_Some in Hf as (Hi & Hk & _). apply list_elem_of_lookup_2 in Hi.
      pose proof (spent_in_range b w Hok Hi). specialize (H1 w Hi Hk). lia.
    + apply list_find_None in Hf. rewrite list.Forall_forall in Hf. specialize (H2 Hf).
      unfold MEDIA_FRAMES_PER_STREAM_PER_SECOND in *. lia.
  - intros Ht. destruct (minute_admits t fs b Hok ltac:(by apply Forall_and) Hsort) as [H1 _].
    destruct Hok as (_ & _ & _ & Hs). lia.
  - pose proof (media_after_ok b fs Hok Hfs) as (_ & _ & Htr & _). done.
Qed.

Definition media_burst (n : nat) (at_ms : Z) : list MediaFrame :=
  replicate n (mkMediaFrame at_ms [Byte.x01] [Byte.x02] 100).

Lemma media_budget_respected_witness :
  stream_frames ([Byte.x01], [Byte.x02])
    (accepted_media (media_after media_budget_new (media_burst 1 0)) (media_burst 70 999 ++ media_burst 70 1001)) = 119%nat
  ∧ (tracked_streams (media_after (media_after media_budget_new (media_burst 1 0))
      (media_burst 70 999 ++ media_burst 70 1001)) ≤ MAX_TRACKED_STREAMS)%nat.
Proof.
  split; [by vm_compute|].
  refine (proj2 (proj2 (media_budget_respected (media_burst 1 0) (media_burst 70 999 ++ media_burst 70 1001)
    500 ([Byte.x01], [Byte.x02]) _ _))).
  - repeat constructor; cbn; lia.
  - repeat constructor; cbn; lia.
Defined.

(** ** The registry's invariant *)
Definition call_ok (c : CallEntry) : Prop :=
  participants c ≠ [] ∧ (length (participants c) ≤ MAX_PARTICIPANTS_PER_CALL)%nat
  ∧ NoDup (fst <$> participants c).
Definition table_ok (r : CallRegistry) : Prop :=
  (size (calls r) ≤ max_concurrent r)%nat ∧ map_Forall (λ _ c, call_ok c) (calls r).

Lemma in_call_elem connection c : in_call connection c = true ↔ connection ∈ fst <$> participants c.
Proof.
  unfold in_call. rewrite existsb_exists, list_elem_of_fmap. split.
  - intros (p & Hp & Heq%bool_decide_eq_true). exists p. split; [done|]. by apply list_elem_of_In.
  - intros (p & -> & Hp). exists p. split; [by apply list_elem_of_In|]. by apply bool_decide_eq_true.
Qed.

Lemma size_filter_le (m : gmap (list byte) CallEntry) (P : list byte * CallEntry → Prop) `{∀ x, Decision (P x)} :
  (size (filter P m) ≤ size m)%nat.
Proof. apply map_subseteq_size, map_filter_subseteq. Qed.

Lemma size_insert_over (m : gmap (list byte) CallEntry) k c c' :
  m !! k = Some c → size (<[k := c']> m) = size m.
Proof. intros Hk. by rewrite map_size_insert, Hk. Qed.

Lemma drop_idle_ok m now idle :
  map_Forall (λ _ c, call_ok c) m → map_Forall (λ _ c, call_ok c) (drop_idle m now idle).
Proof. intros Hm k c [Hk _]%map_lookup_filter_Some. by apply (Hm k). Qed.

(** A filtered participant list keeps its width and its distinctness. *)
Lemma call_ok_filter g ps t (Q : ConnectionId * N → Prop) `{∀ p, Decision (Q p)} :
  (length ps ≤ MAX_PARTICIPANTS_PER_CALL)%nat → NoDup (fst <$> ps) → filter Q ps ≠ [] →
  call_ok (mkCallEntry g (filter Q ps) t).
Proof.
  intros Hl Hn Hne. split_and!; cbn [participants]; [done| |by apply NoDup_fmap_filter].
  pose proof (length_filter Q ps). lia.
Qed.

Lemma join_table_ok r swept now call_id group connection sender :
  table_ok r → table_ok (snd (join r swept now call_id group connection sender)).
Proof.
  intros [Hsz Hm]. unfold join. set (m := drop_idle (calls r) swept CALL_IDLE_MS).
  assert ((size m ≤ max_concurrent r)%nat) as Hszm.
  { pose proof (size_filter_le (calls r) (not_idle swept CALL_IDLE_MS)). unfold m, drop_idle. lia. }
  assert (map_Forall (λ _ c, call_ok c) m) as Hmm by by apply drop_idle_ok.
  destruct (m !! call_id) as [call|] eqn:Hc.
  - destruct (negb _); [done|]. destruct (in_call connection call) eqn:Hin; [done|].
    destruct (Nat.leb_spec MAX_PARTICIPANTS_PER_CALL (length (participants call))); [done|]. cbn [snd].
    destruct (Hmm _ _ Hc) as (Hne & Hlen & Hnd).
    split; cbn [calls with_calls max_concurrent]; [by rewrite (size_insert_over _ _ _ _ Hc)|].
    apply map_Forall_insert_2; [|done]. split_and!; cbn [participants].
    + by destruct (participants call).
    + rewrite length_app. cbn. lia.
    + rewrite fmap_app. apply list.NoDup_app. split_and!; [done| |apply NoDup_singleton].
      intros c Hc' ->%list_elem_of_singleton. apply in_call_elem in Hc'. cbn in Hc'. congruence.
  - destruct (Nat.leb_spec (max_concurrent r) (size m)); [done|]. destruct (_ <=? _)%nat; [done|]. cbn [snd].
    split; cbn [calls with_calls max_concurrent]; [rewrite map_size_insert_None by done; lia|].
    apply map_Forall_insert_2; [|done]. split_and!; cbn; [done|unfold MAX_PARTICIPANTS_PER_CALL; lia|apply NoDup_singleton].
Qed.

Lemma leave_table_ok r call_id connection : table_ok r → table_ok (leave r call_id connection).
Proof.
  intros [Hsz Hm]. unfold leave. destruct (calls r !! call_id) as [call|] eqn:Hc; [|done].
  destruct (Hm _ _ Hc) as (Hne & Hlen & Hnd).
  destruct (participants (without connection call)) as [|p ps] eqn:Hp.
  - split; cbn [calls with_calls max_concurrent]; [|by apply map_Forall_delete].
    rewrite map_size_delete, Hc. lia.
  - split; cbn [calls with_calls max_concurrent]; [by rewrite (size_insert_over _ _ _ _ Hc)|].
    apply map_Forall_insert_2; [|done]. cbn [without participants] in Hp. unfold without.
    apply call_ok_filter; [done..|]. by rewrite Hp.
Qed.

Lemma forget_table_ok r connection : table_ok r → table_ok (forget r connection).
Proof.
  intros [Hsz Hm]. split; cbn [calls with_calls forget max_concurrent].
  - pose proof (size_filter_le (without connection <$> calls r) (λ e, participants e.2 ≠ [])) as Hle.
    rewrite map_size_fmap in Hle. lia.
  - intros k c [Hk Hne]%map_lookup_filter_Some. cbn in Hne. rewrite lookup_fmap in Hk.
    apply fmap_Some in Hk as (c0 & Hk & ->). destruct (Hm _ _ Hk) as (_ & Hlen & Hnd).
    by apply call_ok_filter.
Qed.

Lemma held_insert_new m call_id connection c :
  m !! call_id = None → in_call connection c = true →
  held (<[call_id := c]> m) connection = S (held m connection).
Proof.
  intros Hc Hin. unfold held. rewrite map_filter_insert_True by done.
  apply map_size_insert_None. rewrite map_lookup_filter_None. by left.
Qed.

(** What [join] decides. It is decided against the table less its idle
    calls. Admission leaves the connection in exactly the call it named, that
    call belongs to the group the frame named, no other call changes, nobody
    already in it is displaced, and a connection that opened the call holds no
    more than its share of the table. A refusal admits nobody: the table is the
    swept one, whichever limit refused. *)
Theorem join_admits r swept now call_id group connection sender :
  let live := drop_idle (calls r) swept CALL_IDLE_MS in
  match join r swept now call_id group connection sender with
  | (Ok _, r') =>
      (∃ c, calls r' !! call_id = Some c ∧ ce_group c = group ∧ in_call connection c = true
         ∧ (∀ c0, live !! call_id = Some c0 → ce_group c0 = group ∧ participants c0 ⊆ participants c))
      ∧ (∀ id, id ≠ call_id → calls r' !! id = live !! id)
      ∧ (live !! call_id = None → (held (calls r') connection ≤ share r)%nat)
      ∧ share_refused r' = share_refused r
  | (Err e, r') =>
      calls r' = live
      ∧ match e with
        | GroupMismatch => ∃ c, live !! call_id = Some c ∧ ce_group c ≠ group
        | CallFull => ∃ c, live !! call_id = Some c ∧ ce_group c = group
            ∧ (MAX_PARTICIPANTS_PER_CALL ≤ length (participants c))%nat
        | TooManyCalls => live !! call_id = None
            ∧ (max_concurrent r ≤ size live ∨ share r ≤ held live connection)%nat
        end
  end.
Proof.
  intros live. unfold join. fold live. destruct (live !! call_id) as [call|] eqn:Hc.
  - case_bool_decide as Hg; cbn [negb]; [|by split; [|eexists]].
    destruct (in_call connection call) eqn:Hin.
    + split_and!; [|done|done|done]. exists call. split_and!; [done..|]. intros c0 [= <-]. done.
    + destruct (Nat.leb_spec MAX_PARTICIPANTS_PER_CALL (length (participants call))); [by split; [|eexists]|].
      cbn [calls with_calls share_refused]. split_and!; [|by intros; rewrite lookup_insert_ne|done|done].
      eexists. rewrite lookup_insert_eq. split_and!; [done|done| |].
      * apply in_call_elem. cbn [participants]. rewrite fmap_app. apply elem_of_app. right. by apply list_elem_of_singleton.
      * intros c0 [= <-]. cbn [participants]. split; [done|]. intros p Hp. apply elem_of_app. by left.
  - destruct (Nat.leb_spec (max_concurrent r) (size live)); [by split; [|split; [|left]]|].
    destruct (Nat.leb_spec (share r) (held live connection)); [by split; [|split; [|right]]|].
    cbn [calls with_calls share_refused].
    assert (in_call connection (mkCallEntry group [(connection, sender)] now) = true) as Hin
      by (apply in_call_elem; by apply list_elem_of_singleton).
    split_and!; [|by intros; rewrite lookup_insert_ne| |done].
    + eexists. rewrite lookup_insert_eq. by split_and!.
    + intros _. rewrite held_insert_new by done. lia.
Qed.

Section route_proofs.
Context {C P : Type} `{MpscLaws C, SemaphoreLaws P}.
Implicit Types h : N → Channel C P.

Lemma queue_at_elsewhere h s f s' : s' ≠ s → snd (queue_at h s f) s' = h s'.
Proof. intros Hne. unfold queue_at. destruct (try_queue (h s) f). by apply fn_lookup_insert_ne. Qed.

Lemma queue_at_local h1 h2 s f :
  h1 s = h2 s →
  fst (queue_at h1 s f) = fst (queue_at h2 s f) ∧ snd (queue_at h1 s f) s = snd (queue_at h2 s f) s.
Proof.
  intros Heq. unfold queue_at. rewrite Heq. destruct (try_queue (h2 s) f). cbn [fst snd].
  by rewrite !fn_lookup_insert.
Qed.

(** The participants other than the sender that answer [q] in heap [h]. *)
Definition answering h (from : ConnectionId) (frame : Frame) (q : Queued) (ps : list (ConnectionId * N)) :
    list (ConnectionId * N) :=
  filter (λ p, p.1 ≠ from ∧ fst (queue_at h p.2 frame) = q) ps.

Lemma answering_ext h1 h2 from frame q ps :
  (∀ p, p ∈ ps → p.1 ≠ from → h1 p.2 = h2 p.2) → answering h1 from frame q ps = answering h2 from frame q ps.
Proof.
  intros Hext. apply filter_ext_on, list.Forall_forall. intros p Hp. split; intros [Hne Hq]; split; try done;
    specialize (Hext p Hp Hne); destruct (queue_at_local h1 h2 p.2 frame Hext) as [Heq _]; congruence.
Qed.

Lemma answering_cons h from frame q p ps :
  answering h from frame q (p :: ps)
  = if decide (p.1 ≠ from ∧ fst (queue_at h p.2 frame) = q)
    then p :: answering h from frame q ps else answering h from frame q ps.
Proof. unfold answering. by rewrite filter_cons. Qed.

(** The loop of [route], over participants with distinct queues. *)
Lemma route_fold from frame ps h routed shd gone :
  NoDup (snd <$> ps) →
  let '(h', routed', _, gone') := fold_left (route_one from frame) ps (h, routed, shd, gone) in
  (∀ p, p ∈ ps → p.1 ≠ from → h' p.2 = snd (queue_at h p.2 frame) p.2)
  ∧ (∀ s, (∀ p, p ∈ ps → p.1 ≠ from → p.2 ≠ s) → h' s = h s)
  ∧ rt_sent routed' = (rt_sent routed + length (answering h from frame QSent ps))%nat
  ∧ rt_shed routed' = (rt_shed routed + length (answering h from frame QFull ps))%nat
  ∧ rt_gone routed' = (rt_gone routed + length (answering h from frame QClosed ps))%nat
  ∧ gone' = gone ++ (fst <$> answering h from frame QClosed ps).
Proof using Type*.
  revert h routed shd gone. induction ps as [|[id s] ps IH]; intros h routed shd gone Hn.
  { cbn. rewrite !Nat.add_0_r, app_nil_r. split_and!; try done. intros p Hp. by apply not_elem_of_nil in Hp. }
  cbn [fmap list_fmap] in Hn. apply NoDup_cons in Hn as [Hs Hn]. cbn [fold_left route_one].
  case_bool_decide as Hid.
  { specialize (IH h routed shd gone Hn). destruct (fold_left _ ps _) as [[[h' routed'] shd'] gone'].
    destruct IH as (Hq & Hoth & Hse & Hsh & Hg & Hgone).
    rewrite !answering_cons. rewrite !decide_False by (cbn; naive_solver). split_and!; try done.
    - intros p [->|Hp]%elem_of_cons Hne; [done | by apply Hq].
    - intros s' Hs'. apply Hoth. intros p Hp. apply Hs'. apply elem_of_cons. by right. }
  assert (∀ p, p ∈ ps → p.1 ≠ from → snd (queue_at h s frame) p.2 = h p.2) as Hkeep.
  { intros p Hp _. apply queue_at_elsewhere. intros Heq. apply Hs. apply list_elem_of_fmap. exists p. by rewrite Heq. }
  assert (∀ h1 : N → Channel C P, h1 = snd (queue_at h s frame) →
    (∀ q, answering h1 from frame q ps = answering h from frame q ps)
    ∧ ∀ h' : N → Channel C P,
       (∀ p, p ∈ ps → p.1 ≠ from → h' p.2 = snd (queue_at h1 p.2 frame) p.2) →
       (∀ s', (∀ p, p ∈ ps → p.1 ≠ from → p.2 ≠ s') → h' s' = h1 s') →
       (∀ p, p ∈ (id, s) :: ps → p.1 ≠ from → h' p.2 = snd (queue_at h p.2 frame) p.2)
       ∧ (∀ s', (∀ p, p ∈ (id, s) :: ps → p.1 ≠ from → p.2 ≠ s') → h' s' = h s')) as Hlift.
  { intros h1 ->. split; [intros q; by apply answering_ext|]. intros h' Hq Hoth. split.
    - intros p [->|Hp]%elem_of_cons Hne.
      + cbn [snd]. rewrite Hoth; [done|]. intros p Hp _ Heq. apply Hs. apply list_elem_of_fmap. by exists p.
      + rewrite Hq by done. by apply queue_at_local, Hkeep.
    - intros s' Hs'. rewrite Hoth.
      + apply queue_at_elsewhere. intros ->. apply (Hs' (id, s)); [by left | done | done].
      + intros p Hp. apply Hs'. apply elem_of_cons. by right. }
  rewrite !answering_cons. cbn [fst snd].
  destruct (queue_at h s frame) as [[] h1] eqn:Hqa; cbn [fst snd] in *;
    destruct (Hlift h1 eq_refl) as [Hans Hl];
    match goal with |- context [fold_left _ ps (h1, ?r, ?sh, ?g)] => specialize (IH h1 r sh g Hn) end;
    destruct (fold_left _ ps _) as [[[h' routed'] shd'] gone'];
    destruct IH as (Hq & Hoth & Hse & Hsh & Hg & Hgone); destruct (Hl h' Hq Hoth) as [Hq' Hoth'];
    rewrite !Hans in *; cbn [rt_sent rt_shed rt_gone] in *;
    repeat ((rewrite decide_True by done) || (rewrite decide_False by (intros [_ ?]; done)));
    cbn [length fmap list_fmap]; split_and!; try done; try lia.
  by rewrite Hgone, <- app_assoc.
Qed.

(** Every participant but the sender answers exactly one way. *)
Lemma answering_partition h from frame ps :
  length (filter (λ p, p.1 ≠ from) ps)
  = (length (answering h from frame QSent ps) + length (answering h from frame QFull ps)
     + length (answering h from frame QClosed ps))%nat.
Proof.
  induction ps as [|p ps IH]; [done|]. rewrite filter_cons, !answering_cons.
  destruct (fst (queue_at h p.2 frame)) eqn:Hq; destruct (decide (p.1 ≠ from)) as [Hne|Heq];
    repeat ((rewrite decide_True by done) || (rewrite decide_False by (intros [??]; done))); cbn [length]; lia.
Qed.

Lemma others_length from c :
  call_ok c → in_call from c = true →
  S (length (filter (λ p, p.1 ≠ from) (participants c))) = length (participants c).
Proof.
  intros (_ & _ & Hn) Hin%in_call_elem. induction (participants c) as [|p ps IH]; [by apply not_elem_of_nil in Hin|].
  rewrite fmap_cons in *. apply NoDup_cons in Hn as [Hp Hn]. apply elem_of_cons in Hin as [Heq|Hin].
  - rewrite filter_cons_False by (intros Hne; by apply Hne). cbn [length]. f_equal. rewrite filter_all; [done|].
    apply list.Forall_forall. intros q Hq Hqf. apply Hp. rewrite <- Heq, <- Hqf. apply list_elem_of_fmap. by exists q.
  - rewrite filter_cons_True; [cbn [length]; by rewrite (IH Hn Hin)|]. intros Heq. by rewrite Heq in Hp.
Qed.

(** What [route] does. Media reaches a call only from a connection in it;
    otherwise nothing is queued anywhere and the table is untouched. From a
    participant, every other participant's queue is offered the frame exactly
    once: it gains that one frame, or it is full and keeps what it had, or it is
    closed and the participant is dropped; the sender's own queue and every
    queue outside the call are unchanged, the counts add up to the other
    participants, and the sender stays in the call, so a fanout never empties
    one. *)
Theorem route_exact r h now call_id from frame :
  table_ok r →
  (∀ c, calls r !! call_id = Some c → NoDup (snd <$> participants c)) →
  match route r h now call_id from frame with
  | (Err code, r', h') =>
      code = WriterNotInAccessSet ∧ holds r call_id from = false ∧ h' = h ∧ calls r' = calls r
  | (Ok routed, r', h') => ∃ c c',
      calls r !! call_id = Some c ∧ in_call from c = true ∧ calls r' = <[call_id := c']> (calls r)
      ∧ in_call from c' = true ∧ ce_group c' = ce_group c
      ∧ S (rt_sent routed + rt_shed routed + rt_gone routed) = length (participants c)
      ∧ (∀ p, p ∈ participants c → p.1 ≠ from →
           (queued h' p.2 = queued h p.2 ++ [OutFrame frame] ∧ p ∈ participants c')
           ∨ (queued h' p.2 = queued h p.2 ∧ p ∈ participants c')
           ∨ (is_closed h p.2 = true ∧ queued h' p.2 = queued h p.2 ∧ p.1 ∉ fst <$> participants c'))
      ∧ (∀ s, (∀ p, p ∈ participants c → p.1 ≠ from → p.2 ≠ s) → h' s = h s)
  end.
Proof using Type*.
  intros [_ Hm] Hsnd. unfold route, holds. destruct (calls r !! call_id) as [c|] eqn:Hc; [|done].
  destruct (in_call from c) eqn:Hin; [|done].
  pose proof (Hm _ _ Hc) as Hok. pose proof (route_fold from frame (participants c) h (mkRouted 0 0 0) (shed r) [] (Hsnd c eq_refl)) as Hfold.
  destruct (fold_left _ _ _) as [[[h' routed] shd'] gone]. cbn [rt_sent rt_shed rt_gone] in Hfold.
  destruct Hfold as (Hq & Hoth & -> & -> & -> & ->). rewrite app_nil_l.
  set (gone := fst <$> answering h from frame QClosed (participants c)).
  set (c' := mkCallEntry _ _ _).
  assert (∀ p, p ∈ participants c → p.1 ∈ gone → p.1 ≠ from ∧ fst (queue_at h p.2 frame) = QClosed) as Hgone.
  { intros p Hp (q & Heq & [Hans Hqc]%list_elem_of_filter)%list_elem_of_fmap.
    assert (p = q) as ->; [|done]. by apply (NoDup_fmap_unique fst (participants c)); [apply Hok|..]. }
  assert (∀ p, p ∈ participants c → p.1 ≠ from → fst (queue_at h p.2 frame) ≠ QClosed → p ∈ participants c') as Hstay.
  { intros p Hp Hne Hnc. apply list_elem_of_filter. split; [|done]. intros Hg. by destruct (Hgone p Hp Hg). }
  exists c, c'. cbn [calls]. split_and!; try done.
  - apply in_call_elem in Hin. apply in_call_elem. apply list_elem_of_fmap in Hin as (p & -> & Hp).
    apply list_elem_of_fmap. exists p. split; [done|]. apply list_elem_of_filter. split; [|done].
    intros Hg. by destruct (Hgone p Hp Hg).
  - rewrite <- (others_length from c Hok Hin), (answering_partition h from frame). lia.
  - intros p Hp Hne. specialize (Hq p Hp Hne). specialize (Hstay p Hp Hne). unfold queued. rewrite Hq.
    assert (fst (queue_at h p.2 frame) = QClosed → p.1 ∈ gone) as Hcg.
    { intros Hcl. apply list_elem_of_fmap. exists p. split; [done|]. by apply list_elem_of_filter. }
    destruct (queue_at_cases h p.2 frame) as [h1 Hs|h1 Hs|h1 Hcl Hs]; cbn [fst snd] in *.
    + left. split; [done | by apply Hstay].
    + right. left. rewrite Hs. split; [done | by apply Hstay].
    + right. right. rewrite Hs. split_and!; [done..|]. intros (q & Heq & [Hng _]%list_elem_of_filter)%list_elem_of_fmap.
      apply Hng. rewrite <- Heq. by apply Hcg.
Qed.

(** ** Every reachable table *)
Inductive call_step : CallRegistry * (N → Channel C P) → CallRegistry * (N → Channel C P) → Prop :=
| step_join r h swept now call_id group connection sender :
    call_step (r, h) (snd (join r swept now call_id group connection sender), h)
| step_leave r h call_id connection : call_step (r, h) (leave r call_id connection, h)
| step_forget r h connection : call_step (r, h) (forget r connection, h)
| step_sweep r h now idle : call_step (r, h) (snd (sweep_idle r now idle), h)
| step_route r h now call_id from frame :
    call_step (r, h) (snd (fst (route r h now call_id from frame)), snd (route r h now call_id from frame))
| step_queues r h h' : call_step (r, h) (r, h').

Lemma route_table_ok r h now call_id from frame :
  table_ok r → table_ok (snd (fst (route r h now call_id from frame))).
Proof using Type*.
  intros [Hsz Hm]. unfold route. destruct (calls r !! call_id) as [c|] eqn:Hc; [|done].
  destruct (in_call from c) eqn:Hin; [|done]. destruct (Hm _ _ Hc) as (Hne & Hlen & Hnd).
  destruct (fold_left _ _ _) as [[[h' routed] shd'] gone] eqn:Hf.
  assert (from ∉ gone) as Hfg.
  { assert (∀ ps a, from ∉ a.2 → from ∉ (fold_left (route_one from frame) ps a).2) as Hgen.
    { induction ps as [|[id s] ps IH]; intros [[[h1 r1] s1] g1] Ha; [done|]. cbn [fold_left route_one]. apply IH.
      case_bool_decide as Hid; [done|]. destruct (queue_at h1 s frame) as [[] ?]; [done..|]. cbn [snd] in *.
      rewrite elem_of_app, list_elem_of_singleton. naive_solver. }
    specialize (Hgen (participants c) (h, mkRouted 0 0 0, shed r, []) (not_elem_of_nil _)). by rewrite Hf in Hgen. }
  cbn [fst snd]. split; cbn [calls max_concurrent]; [by rewrite (size_insert_over _ _ _ _ Hc)|].
  apply map_Forall_insert_2; [|done]. apply call_ok_filter; [done..|].
  apply in_call_elem, list_elem_of_fmap in Hin as (p & -> & Hp). intros Hnil.
  assert (p ∈ filter (λ q, q.1 ∉ gone) (participants c)) as Hin by (by apply list_elem_of_filter).
  rewrite Hnil in Hin. by apply not_elem_of_nil in Hin.
Qed.

(** The call table stays inside every limit the operator was promised,
    under any interleaving of joins, leaves, disconnects, sweeps and media: at
    most the configured number of calls, each with between one and five
    distinct participants, so no empty call ever holds a slot. *)
Theorem call_table_bounded max_concurrent_calls h r h' :
  rtc call_step (call_registry_new max_concurrent_calls, h) (r, h') →
  max_concurrent r = max_concurrent_calls
  ∧ (size (calls r) ≤ max_concurrent_calls)%nat
  ∧ ∀ call_id c, calls r !! call_id = Some c →
      (1 ≤ length (participants c) ≤ MAX_PARTICIPANTS_PER_CALL)%nat ∧ NoDup (fst <$> participants c).
Proof using Type*.
  intros Hr. assert (max_concurrent r = max_concurrent_calls ∧ table_ok r) as [Hmax [Hsz Hm]].
  { remember (r, h') as dst eqn:Hd. remember (call_registry_new max_concurrent_calls, h) as src eqn:Hs.
    assert (max_concurrent dst.1 = max_concurrent_calls ∧ table_ok dst.1); [|by subst].
    assert (max_concurrent src.1 = max_concurrent_calls ∧ table_ok src.1) as Hi.
    { subst. split; [done|]. split; cbn; [rewrite map_size_empty; lia | apply map_Forall_empty]. }
    clear Hs Hd. induction Hr as [x|x y z Hst _ IH]; [done|]. apply IH. destruct Hi as [Hi Hok].
    destruct Hst; cbn [fst snd] in *.
    - split; [|by apply join_table_ok]. unfold join. repeat case_match; done.
    - split; [|by apply leave_table_ok]. unfold leave. repeat case_match; done.
    - split; [done | by apply forget_table_ok].
    - split; [done|]. destruct Hok as [Hsz Hm]. split; [|by apply drop_idle_ok].
      pose proof (size_filter_le (calls r0) (not_idle now idle)). cbn. unfold drop_idle. lia.
    - split; [|by apply route_table_ok]. unfold route. destruct (calls r0 !! call_id); [|done].
      destruct (in_call _ _); [|done]. by destruct (fold_left _ _ _) as [[[? ?] ?] ?].
    - done. }
  rewrite Hmax in Hsz. split_and!; try done. intros call_id c Hc. destruct (Hm _ _ Hc) as (Hne & Hlen & Hnd).
  split_and!; try done. destruct (participants c); [done | cbn; lia].
Qed.
End route_proofs.

(** ** Concrete calls *)
Definition idle_heap : N → Channel (list Outbound * bool) Z := λ _, ListQueue.empty_channel.
Definition room : list byte := [Byte.x0a].
Definition call_one : list byte := [Byte.x01].
Definition two_party : CallRegistry :=
  snd (join (snd (join (call_registry_new 8) 0 0 call_one room 1%N 1%N)) 5 5 call_one room 2%N 2%N).
Definition a_packet : Frame := Media call_one [Byte.x07] 0 [].

Lemma two_party_reachable :
  rtc (call_step (C := list Outbound * bool) (P := Z)) (call_registry_new 8, idle_heap) (two_party, idle_heap).
Proof. eapply rtc_l; [apply step_join|]. eapply rtc_l; [apply step_join|]. apply rtc_refl. Qed.

Lemma two_party_ok : table_ok two_party.
Proof.
  do 2 apply join_table_ok. split; cbn; [rewrite map_size_empty; lia | apply map_Forall_empty].
Qed.

Lemma two_party_queues c : calls two_party !! call_one = Some c → NoDup (snd <$> participants c).
Proof.
  assert (snd <$> default [] (participants <$> (calls two_party !! call_one)) = [1%N; 2%N]) as Hs by by vm_compute.
  intros Hc. rewrite Hc in Hs. cbn in Hs. unfold id in Hs. rewrite Hs. repeat constructor; set_solver.
Qed.

Lemma route_exact_witness :
  match route two_party idle_heap 10 call_one 1%N a_packet with
  | (Err code, r', h') =>
      code = WriterNotInAccessSet ∧ holds two_party call_one 1%N = false ∧ h' = idle_heap
      ∧ calls r' = calls two_party
  | (Ok routed, r', h') => rt_sent routed = 1%nat
  end
  ∧ holds two_party call_one 1%N = true.
Proof.
  split; [|by vm_compute].
  pose proof (route_exact two_party idle_heap 10 call_one 1%N a_packet two_party_ok two_party_queues) as Hr.
  assert (match fst (fst (route two_party idle_heap 10 call_one 1%N a_packet)) with
          | Ok routed => rt_sent routed = 1%nat | Err _ => True end) as Hv by by vm_compute.
  destruct (route two_party idle_heap 10 call_one 1%N a_packet) as [[[routed|code] r'] h']; [exact Hv | exact Hr].
Defined.

Lemma call_table_bounded_witness : (size (calls two_party) ≤ 8)%nat ∧ holds two_party call_one 2%N = true.
Proof.
  split; [|by vm_compute].
  exact (proj1 (proj2 (call_table_bounded 8 idle_heap two_party idle_heap two_party_reachable))).
Defined.

(** A re-offer is a frame the call carried, and it does not keep the call: the
    participant's frame one millisecond before the idle deadline leaves
    [last_activity] where the opening offer put it, and the next [join] on any
    call forgets the call. *)
Theorem reoffer_does_not_refresh :
  let opened := snd (join (call_registry_new 8) 0 0 call_one room 1%N 1%N) in
  let reoffered := snd (join opened 119999 119999 call_one room 1%N 1%N) in
  let later := snd (join reoffered 120000 120000 [Byte.x02] room 3%N 3%N) in
  fst (join opened 119999 119999 call_one room 1%N 1%N) = Ok ()
  ∧ holds reoffered call_one 1%N = true ∧ holds later call_one 1%N = false.
Proof. by vm_compute. Qed.
