(* ===== verification/Hub.v ===== *)
(** * The live path

    Models [backend/wealdrelay/src/hub.rs]: the map from groups to the
    connections subscribed to them, the map from principals to their
    connections, and the fanout onto the subscribers' queues. Each of the two
    maps has its own lock; a definition named [_locked] is one critical section,
    and the operations that take several are their composition. The order in
    which a [HashMap] is walked is an argument. *)

From Stdlib Require Import ZArith Lia.
From stdpp Require Import base tactics numbers gmap fin_maps functions sorting list.
From S2P Require Import Prelude Cbor Push Frame Queue.

Open Scope Z_scope.

Definition MAX_HELD_HANDSHAKES : nat := 256.
Definition MIN_FANOUT_VERSION : Z := MIN_PROTOCOL_VERSION.

Inductive Delivery : Type := Sent | NotSpoken | Shed | Downgraded | Gone.
#[global] Instance Delivery_eq_dec : EqDecision Delivery.
Proof. solve_decision. Defined.

Record Subscriber : Type := mkSubscriber {
  sub_id : ConnectionId;
  sender : N;
  protocol_version : Z;
  downgrade_owed : bool;
  held_handshakes : option (list Frame)
}.

Record Hub : Type := mkHub {
  groups : gmap (list byte) (list Subscriber);
  next_id : Z;
  downgrades : Z;
  hub_shed : Z;
  principals : gmap (list byte) (list (ConnectionId * N))
}.

Definition hub_new : Hub := mkHub ∅ 0 0 0 ∅.
Definition set_groups (hub : Hub) (m : gmap (list byte) (list Subscriber)) : Hub :=
  mkHub m (next_id hub) (downgrades hub) (hub_shed hub) (principals hub).
Definition set_principals (hub : Hub) (m : gmap (list byte) (list (ConnectionId * N))) : Hub :=
  mkHub (groups hub) (next_id hub) (downgrades hub) (hub_shed hub) m.
Definition set_owed (s : Subscriber) (owed : bool) : Subscriber :=
  mkSubscriber (sub_id s) (sender s) (protocol_version s) owed (held_handshakes s).
Definition set_held (s : Subscriber) (held : option (list Frame)) : Subscriber :=
  mkSubscriber (sub_id s) (sender s) (protocol_version s) (downgrade_owed s) held.

(** [AtomicU64::fetch_add] wraps and answers what was there. *)
Definition connect (hub : Hub) : Z * Hub :=
  (next_id hub, mkHub (groups hub) ((next_id hub + 1) mod 2 ^ 64) (downgrades hub) (hub_shed hub) (principals hub)).

(** ** Subscriptions *)
Definition has_sub (id : ConnectionId) (subs : list Subscriber) : bool :=
  existsb (λ s, bool_decide (sub_id s = id)) subs.

Definition add_subscriber (hub : Hub) (group : list byte) (s : Subscriber) : Hub :=
  let subs := default [] (groups hub !! group) in
  if has_sub (sub_id s) subs then set_groups hub (<[group := subs]> (groups hub))
  else set_groups hub (<[group := subs ++ [s]]> (groups hub)).

Definition subscribe (hub : Hub) (group : list byte) (id : ConnectionId) (snd_ : N) (version : Z) : Hub :=
  add_subscriber hub group (mkSubscriber id snd_ version false None).
Definition subscribe_holding_handshakes (hub : Hub) (group : list byte) (id : ConnectionId) (snd_ : N)
    (version : Z) : Hub :=
  add_subscriber hub group (mkSubscriber id snd_ version false (Some [])).

Definition holds (hub : Hub) (group : list byte) (id : ConnectionId) : bool :=
  match groups hub !! group with None => false | Some subs => has_sub id subs end.
Definition subscribers (hub : Hub) (group : list byte) : nat := length (default [] (groups hub !! group)).
Definition connections_for (hub : Hub) (entry_hash : list byte) : nat :=
  length (default [] (principals hub !! entry_hash)).

Definition identify (hub : Hub) (entry_hash : list byte) (id : ConnectionId) (snd_ : N) : Hub :=
  let connections := default [] (principals hub !! entry_hash) in
  if existsb (λ p, bool_decide (p.1 = id)) connections
  then set_principals hub (<[entry_hash := connections]> (principals hub))
  else set_principals hub (<[entry_hash := connections ++ [(id, snd_)]]> (principals hub)).

Definition disconnect_groups_locked (hub : Hub) (id : ConnectionId) : Hub :=
  set_groups hub (filter (λ e, e.2 ≠ []) (filter (λ s, sub_id s ≠ id) <$> groups hub)).
Definition disconnect_principals_locked (hub : Hub) (id : ConnectionId) : Hub :=
  set_principals hub (filter (λ e, e.2 ≠ []) (filter (λ p : ConnectionId * N, p.1 ≠ id) <$> principals hub)).
Definition disconnect (hub : Hub) (id : ConnectionId) : Hub :=
  disconnect_principals_locked (disconnect_groups_locked hub id) id.

Definition downgrades_owed (hub : Hub) : nat :=
  length (filter (λ s, downgrade_owed s = true) (concat (snd <$> map_to_list (groups hub)))).

Definition ephemeral (f : Frame) : bool := match f with Live _ _ _ | Call _ _ _ _ _ => true | _ => false end.
Definition undowngradable (f : Frame) : bool := match f with Handshake _ _ _ => true | _ => false end.

Section fanout.
Context {C P : Type} `{MpscLaws C, SemaphoreLaws P}.
Implicit Types (h : N → Channel C P) (ch : Channel C P).

(** ** Releasing held handshakes *)
Fixpoint release_loop (ch : Channel C P) (next : Z) (held : list Frame) : bool * Channel C P :=
  match held with
  | [] => (false, ch)
  | f :: rest =>
      match f with
      | Handshake _ seq _ =>
          if seq <? next then release_loop ch next rest
          else
            match try_queue ch f with
            | (QSent, ch) => release_loop ch (u64_saturating_add seq 1) rest
            | (_, ch) => (true, channel_evict ch)
            end
      | _ => release_loop ch next rest
      end
  end.

Definition release_locked (hub : Hub) (h : N → Channel C P) (group : list byte) (id : ConnectionId)
    (replayed_to : Z) : bool * Hub * (N → Channel C P) :=
  match groups hub !! group with
  | None => (false, hub, h)
  | Some subs =>
      match list_find (λ s, sub_id s = id) subs with
      | None => (false, hub, h)
      | Some (i, s) =>
          match held_handshakes s with
          | None => (false, hub, h)
          | Some held =>
              let '(evicted, ch) := release_loop (h (sender s)) replayed_to held in
              (evicted, set_groups hub (<[group := <[i := set_held s None]> subs]> (groups hub)),
               <[sender s := ch]> h)
          end
      end
  end.

Definition release_handshakes (hub : Hub) (h : N → Channel C P) (group : list byte) (id : ConnectionId)
    (replayed_to : Z) : Hub * (N → Channel C P) :=
  let '(evicted, hub, h) := release_locked hub h group id replayed_to in
  (if evicted then disconnect hub id else hub, h).

(** ** Eviction *)
Definition evict_one (st : Hub * (N → Channel C P)) (p : ConnectionId * N) : Hub * (N → Channel C P) :=
  let '(hub, h) := st in (disconnect hub p.1, close_at (evict_at h p.2) p.2).

Definition evict (hub : Hub) (h : N → Channel C P) (entry_hash : list byte) : nat * Hub * (N → Channel C P) :=
  let taken := default [] (principals hub !! entry_hash) in
  let hub := set_principals hub (delete entry_hash (principals hub)) in
  let '(hub, h) := fold_left evict_one taken (hub, h) in
  (length taken, hub, h).

(** ** Settling downgrades *)
Definition settle_one (group : list byte) (ch : Channel C P) (s : Subscriber) : nat * Subscriber * Channel C P :=
  if downgrade_owed s then
    match try_queue ch (downgrade_frame group) with
    | (QSent, ch) => (1%nat, set_owed s false, ch)
    | (_, ch) => (0%nat, s, ch)
    end
  else (0%nat, s, ch).

Fixpoint settle_group (group : list byte) (h : N → Channel C P) (subs : list Subscriber) :
    nat * list Subscriber * (N → Channel C P) :=
  match subs with
  | [] => (0%nat, [], h)
  | s :: rest =>
      let '(n, s, ch) := settle_one group (h (sender s)) s in
      let '(m, rest, h) := settle_group group (<[sender s := ch]> h) rest in
      ((n + m)%nat, s :: rest, h)
  end.

(** [order] is the order the map yields its keys in. *)
Fixpoint settle_downgrades (order : list (list byte)) (hub : Hub) (h : N → Channel C P) :
    nat * Hub * (N → Channel C P) :=
  match order with
  | [] => (0%nat, hub, h)
  | group :: order =>
      match groups hub !! group with
      | None => settle_downgrades order hub h
      | Some subs =>
          let '(n, subs, h) := settle_group group h subs in
          let '(m, hub, h) := settle_downgrades order (set_groups hub (<[group := subs]> (groups hub))) h in
          ((n + m)%nat, hub, h)
      end
  end.

(** ** Fanout

    What one subscriber is sent. [v_counted] is the branch that sets
    [downgrade_owed] and moves the downgrade counter. *)
Record Verdict : Type := mkVerdict {
  v_delivery : option Delivery;
  v_sub : Subscriber;
  v_gone : bool;
  v_counted : bool
}.

Definition offer (frame : Frame) (s : Subscriber) (ch : Channel C P) : Verdict * Channel C P :=
  if ephemeral frame then
    match try_queue ch frame with
    | (QSent, ch) => (mkVerdict (Some Sent) s false false, ch)
    | (QFull, ch) => (mkVerdict (Some Shed) s false false, ch)
    | (QClosed, ch) => (mkVerdict (Some Gone) s true false, ch)
    end
  else
    match try_queue ch frame with
    | (QSent, ch) => (mkVerdict (Some Sent) s false false, ch)
    | (QFull, ch) =>
        if undowngradable frame then (mkVerdict (Some Gone) s true false, channel_evict ch)
        else (mkVerdict (Some Downgraded) (set_owed s true) false true, ch)
    | (QClosed, ch) => (mkVerdict (Some Gone) s true false, ch)
    end.

Definition pay_then_offer (group : list byte) (frame : Frame) (s : Subscriber) (ch : Channel C P) :
    Verdict * Channel C P :=
  if downgrade_owed s then
    match try_queue ch (downgrade_frame group) with
    | (QSent, ch) => offer frame (set_owed s false) ch
    | (QFull, ch) =>
        if undowngradable frame then (mkVerdict (Some Gone) s true false, channel_evict ch)
        else (mkVerdict (Some Downgraded) s false false, ch)
    | (QClosed, ch) => (mkVerdict (Some Gone) s true false, ch)
    end
  else offer frame s ch.

Definition deliver (group : list byte) (frame : Frame) (except : ConnectionId) (minimum_version : Z)
    (s : Subscriber) (ch : Channel C P) : Verdict * Channel C P :=
  if bool_decide (sub_id s = except) then (mkVerdict None s false false, ch)
  else if protocol_version s <? minimum_version then (mkVerdict (Some NotSpoken) s false false, ch)
  else if undowngradable frame then
    match held_handshakes s with
    | Some held =>
        if (length held <? MAX_HELD_HANDSHAKES)%nat
        then (mkVerdict (Some Sent) (set_held s (Some (held ++ [frame]))) false false, ch)
        else (mkVerdict (Some Gone) s true false, channel_evict ch)
    | None => pay_then_offer group frame s ch
    end
  else pay_then_offer group frame s ch.

Fixpoint fanout_loop (group : list byte) (frame : Frame) (except : ConnectionId) (minimum_version : Z)
    (h : N → Channel C P) (subs : list Subscriber) : list Verdict * (N → Channel C P) :=
  match subs with
  | [] => ([], h)
  | s :: rest =>
      let '(v, ch) := deliver group frame except minimum_version s (h (sender s)) in
      let '(vs, h) := fanout_loop group frame except minimum_version (<[sender s := ch]> h) rest in
      (v :: vs, h)
  end.

Definition outcomes_of (vs : list Verdict) : list (ConnectionId * Delivery) :=
  omap (λ v, (λ d, (sub_id (v_sub v), d)) <$> v_delivery v) vs.
Definition gone_of (vs : list Verdict) : list ConnectionId :=
  sub_id ∘ v_sub <$> filter (λ v, v_gone v = true) vs.
Definition shed_of (vs : list Verdict) : Z := Z.of_nat (length (filter (λ v, v_delivery v = Some Shed) vs)).
Definition counted_of (vs : list Verdict) : Z := Z.of_nat (length (filter (λ v, v_counted v = true) vs)).

Definition fanout_locked (hub : Hub) (h : N → Channel C P) (group : list byte) (frame : Frame)
    (except : ConnectionId) (minimum_version : Z) :
    list (ConnectionId * Delivery) * list ConnectionId * Hub * (N → Channel C P) :=
  match groups hub !! group with
  | None => ([], [], hub, h)
  | Some subs =>
      let '(vs, h) := fanout_loop group frame except minimum_version h subs in
      (outcomes_of vs, gone_of vs,
       mkHub (<[group := v_sub <$> vs]> (groups hub)) (next_id hub)
         ((downgrades hub + counted_of vs) mod 2 ^ 64) ((hub_shed hub + shed_of vs) mod 2 ^ 64) (principals hub),
       h)
  end.

Definition fanout_frame (hub : Hub) (h : N → Channel C P) (group : list byte) (frame : Frame)
    (except : ConnectionId) (minimum_version : Z) :
    list (ConnectionId * Delivery) * Hub * (N → Channel C P) :=
  let '(outcomes, gone, hub, h) := fanout_locked hub h group frame except minimum_version in
  (outcomes, fold_left disconnect gone hub, h).

Definition fanout (hub : Hub) (h : N → Channel C P) (group envelope : list byte) (except : ConnectionId) :
    list (ConnectionId * Delivery) * Hub * (N → Channel C P) :=
  fanout_frame hub h group (Push envelope) except MIN_FANOUT_VERSION.
End fanout.

(** ** Who is subscribed *)
Definition subscribed (hub : Hub) (group : list byte) (s : Subscriber) : Prop :=
  ∃ subs, groups hub !! group = Some subs ∧ s ∈ subs.
Definition identified (hub : Hub) (entry_hash : list byte) (p : ConnectionId * N) : Prop :=
  ∃ ps, principals hub !! entry_hash = Some ps ∧ p ∈ ps.

(** Filtering every list of a map and dropping the emptied keys. *)
Lemma prune_lookup {A} (Q : A → Prop) `{∀ x, Decision (Q x)} (m : gmap (list byte) (list A)) k x :
  (∃ l, filter (λ e : list byte * list A, e.2 ≠ []) (filter Q <$> m) !! k = Some l ∧ x ∈ l)
  ↔ (∃ l, m !! k = Some l ∧ x ∈ l) ∧ Q x.
Proof.
  split.
  - intros (l & [Hl _]%map_lookup_filter_Some & Hx). rewrite lookup_fmap in Hl.
    apply fmap_Some in Hl as (l0 & Hl0 & ->). apply list_elem_of_filter in Hx as [Hq Hx]. eauto.
  - intros [(l & Hl & Hx) Hq]. exists (filter Q l).
    assert (x ∈ filter Q l) as Hin by by apply list_elem_of_filter.
    split; [|done]. apply map_lookup_filter_Some. split; [by rewrite lookup_fmap, Hl|]. cbn.
    intros Hnil. rewrite Hnil in Hin. by apply not_elem_of_nil in Hin.
Qed.

Lemma disconnect_subscribed hub id group s :
  subscribed (disconnect hub id) group s ↔ subscribed hub group s ∧ sub_id s ≠ id.
Proof. unfold subscribed. cbn [disconnect disconnect_principals_locked disconnect_groups_locked set_principals set_groups groups].
  apply (prune_lookup (λ s, sub_id s ≠ id)). Qed.

Lemma disconnect_identified hub id entry_hash p :
  identified (disconnect hub id) entry_hash p ↔ identified hub entry_hash p ∧ p.1 ≠ id.
Proof. unfold identified. cbn [disconnect disconnect_principals_locked disconnect_groups_locked set_principals set_groups principals].
  apply (prune_lookup (λ p : ConnectionId * N, p.1 ≠ id)). Qed.

Lemma disconnect_all_subscribed gone hub group s :
  subscribed (fold_left disconnect gone hub) group s ↔ subscribed hub group s ∧ sub_id s ∉ gone.
Proof.
  revert hub. induction gone as [|id gone IH]; intros hub; cbn [fold_left].
  - split; [intros ?; split; [done | apply not_elem_of_nil] | by intros [? _]].
  - rewrite IH, disconnect_subscribed, not_elem_of_cons. tauto.
Qed.

Section fanout_proofs.
Context {C P : Type} `{MpscLaws C, SemaphoreLaws P}.
Implicit Types (h : N → Channel C P) (ch : Channel C P).

Definition cq ch : list Outbound := mpsc_queue (inner ch).
Definition closed ch : bool := mpsc_is_closed (inner ch).

Variant try_queue_spec ch (f : Frame) : Queued * Channel C P → Prop :=
| tq_sent ch' : cq ch' = cq ch ++ [OutFrame f] → closed ch = false → closed ch' = false →
    evicted ch' = evicted ch → try_queue_spec ch f (QSent, ch')
| tq_full : try_queue_spec ch f (QFull, ch)
| tq_closed : closed ch = true → try_queue_spec ch f (QClosed, ch).

Lemma try_queue_by_cases ch f : try_queue_spec ch f (try_queue ch f).
Proof using Type*.
  destruct (try_queue_cases ch f) as [(ch' & -> & Hq & _ & _ & Hc & _ & Hc' & He)|[->|[-> Hc]]];
    by constructor.
Qed.

(** The notice a subscriber is owed, as it appears in its queue. *)
Definition owed_notice (group : list byte) (s : Subscriber) : list Outbound :=
  if downgrade_owed s then [OutFrame (downgrade_frame group)] else [].

Definition addressed (except : ConnectionId) (minimum_version : Z) (s : Subscriber) : Prop :=
  sub_id s ≠ except ∧ minimum_version ≤ protocol_version s.

Lemma deliver_addressed group frame except minv s ch :
  addressed except minv s →
  deliver group frame except minv s ch
  = if undowngradable frame then
      match held_handshakes s with
      | Some held =>
          if (length held <? MAX_HELD_HANDSHAKES)%nat
          then (mkVerdict (Some Sent) (set_held s (Some (held ++ [frame]))) false false, ch)
          else (mkVerdict (Some Gone) s true false, channel_evict ch)
      | None => pay_then_offer group frame s ch
      end
    else pay_then_offer group frame s ch.
Proof.
  intros [Hne Hv]. unfold deliver. rewrite bool_decide_eq_false_2 by done.
  by rewrite (proj2 (Z.ltb_ge _ _) Hv).
Qed.

(** A durable frame is queued behind the notice owed, or leaves the subscriber
    owing one, or found a closed queue. *)
Variant durable_verdict group (frame : Frame) s ch : Verdict * Channel C P → Prop :=
| durable_sent counted ch' :
    cq ch' = cq ch ++ owed_notice group s ++ [OutFrame frame] →
    durable_verdict group frame s ch (mkVerdict (Some Sent) (set_owed s false) false counted, ch')
| durable_owed counted ch' :
    cq ch' = cq ch ∨ cq ch' = cq ch ++ owed_notice group s →
    durable_verdict group frame s ch (mkVerdict (Some Downgraded) (set_owed s true) false counted, ch')
| durable_closed ch' :
    closed ch = true → cq ch' = cq ch →
    durable_verdict group frame s ch (mkVerdict (Some Gone) s true false, ch').

Lemma set_owed_same s b : downgrade_owed s = b → set_owed s b = s.
Proof. intros <-. by destruct s. Qed.

Lemma deliver_durable group frame except minv s ch :
  addressed except minv s → ephemeral frame = false → undowngradable frame = false →
  durable_verdict group frame s ch (deliver group frame except minv s ch).
Proof using Type*.
  intros Ha He Hu. rewrite deliver_addressed, Hu by done. unfold pay_then_offer, offer. rewrite He, Hu.
  destruct (downgrade_owed s) eqn:Ho.
  - destruct (try_queue_by_cases ch (downgrade_frame group)) as [ch1 Hq1 Hc1 Hc1' He1| |Hc1].
    + destruct (try_queue_by_cases ch1 frame) as [ch2 Hq2 Hc2 Hc2' He2| |Hc2].
      * apply durable_sent. unfold owed_notice. rewrite Ho, Hq2, Hq1. by rewrite <- app_assoc.
      * refine (durable_owed group frame s ch true ch1 _). right. unfold owed_notice. by rewrite Ho.
      * congruence.
    + pose proof (durable_owed group frame s ch false ch (or_introl eq_refl)) as Hd.
      by rewrite (set_owed_same s true Ho) in Hd.
    + by apply durable_closed.
  - destruct (try_queue_by_cases ch frame) as [ch1 Hq1 Hc1 Hc1' He1| |Hc1].
    + pose proof (durable_sent group frame s ch false ch1) as Hd. rewrite (set_owed_same s false Ho) in Hd.
      apply Hd. unfold owed_notice. by rewrite Ho.
    + apply (durable_owed _ _ _ _ true). by left.
    + by apply durable_closed.
Qed.

(** A handshake is held, queued, or ends the connection. *)
Variant handshake_verdict group (frame : Frame) s ch : Verdict * Channel C P → Prop :=
| handshake_held held :
    held_handshakes s = Some held → (length held < MAX_HELD_HANDSHAKES)%nat →
    handshake_verdict group frame s ch (mkVerdict (Some Sent) (set_held s (Some (held ++ [frame]))) false false, ch)
| handshake_sent ch' :
    held_handshakes s = None → cq ch' = cq ch ++ owed_notice group s ++ [OutFrame frame] →
    handshake_verdict group frame s ch (mkVerdict (Some Sent) (set_owed s false) false false, ch')
| handshake_ended s' ch' :
    sub_id s' = sub_id s → evicted ch' = true ∨ closed ch = true → OutFrame frame ∉ drop (length (cq ch)) (cq ch') →
    handshake_verdict group frame s ch (mkVerdict (Some Gone) s' true false, ch').

Lemma drop_self (l : list Outbound) : drop (length l) l = [].
Proof. by rewrite drop_all. Qed.

Lemma deliver_handshake group frame except minv s ch :
  addressed except minv s → undowngradable frame = true →
  handshake_verdict group frame s ch (deliver group frame except minv s ch).
Proof using Type*.
  intros Ha Hu. assert (ephemeral frame = false) as He by (by destruct frame).
  assert (frame ≠ downgrade_frame group) as Hnf by (intros ->; done).
  assert (∀ x : Outbound, x ∉ drop (length (cq ch)) (cq ch)) as Hdrop
    by (intros x; rewrite drop_self; apply not_elem_of_nil).
  rewrite deliver_addressed, Hu by done. unfold pay_then_offer, offer. rewrite He, Hu.
  destruct (held_handshakes s) as [held|] eqn:Hh.
  { destruct (Nat.ltb_spec (length held) MAX_HELD_HANDSHAKES); [by apply handshake_held|].
    apply handshake_ended; [done | by left | apply Hdrop]. }
  destruct (downgrade_owed s) eqn:Ho.
  - destruct (try_queue_by_cases ch (downgrade_frame group)) as [ch1 Hq1 Hc1 Hc1' He1| |Hc1].
    + destruct (try_queue_by_cases ch1 frame) as [ch2 Hq2 Hc2 Hc2' He2| |Hc2].
      * apply handshake_sent; [done|]. unfold owed_notice. rewrite Ho, Hq2, Hq1. by rewrite <- app_assoc.
      * apply handshake_ended; [done | by left |]. change (cq (channel_evict ch1)) with (cq ch1).
        rewrite Hq1, drop_app_length, list_elem_of_singleton. congruence.
      * congruence.
    + apply handshake_ended; [done | by left | apply Hdrop].
    + apply handshake_ended; [done | by right | apply Hdrop].
  - destruct (try_queue_by_cases ch frame) as [ch1 Hq1 Hc1 Hc1' He1| |Hc1].
    + pose proof (handshake_sent group frame s ch ch1 Hh) as Hd. rewrite (set_owed_same s false Ho) in Hd.
      apply Hd. unfold owed_notice. by rewrite Ho.
    + apply handshake_ended; [done | by left | apply Hdrop].
    + apply handshake_ended; [done | by right | apply Hdrop].
Qed.

Lemma deliver_keeps group frame except minv s ch :
  sub_id (v_sub (fst (deliver group frame except minv s ch))) = sub_id s
  ∧ sender (v_sub (fst (deliver group frame except minv s ch))) = sender s.
Proof.
  unfold deliver, pay_then_offer, offer. repeat case_match; cbn; done.
Qed.

(** The loop, subscriber by subscriber, over distinct queues. *)
Lemma fanout_loop_each group frame except minv subs h :
  NoDup (sender <$> subs) →
  let '(vs, h') := fanout_loop group frame except minv h subs in
  length vs = length subs
  ∧ (∀ s', s' ∉ sender <$> subs → h' s' = h s')
  ∧ (∀ i s, subs !! i = Some s → ∃ v, vs !! i = Some v
       ∧ (v, h' (sender s)) = deliver group frame except minv s (h (sender s))).
Proof.
  revert h. induction subs as [|s subs IH]; intros h Hn; [by split_and!|].
  rewrite fmap_cons in Hn. apply NoDup_cons in Hn as [Hs Hn]. cbn [fanout_loop].
  destruct (deliver group frame except minv s (h (sender s))) as [v ch] eqn:Hd.
  specialize (IH (<[sender s := ch]> h) Hn). destruct (fanout_loop _ _ _ _ _ subs) as [vs h'].
  destruct IH as (Hlen & Hoth & Heach). split_and!; [cbn; lia| |].
  - intros s' [Hne Hs']%not_elem_of_cons. rewrite Hoth by done. by apply fn_lookup_insert_ne.
  - intros [|i] s1 Hi; cbn in Hi |- *.
    + injection Hi as <-. exists v. split; [done|]. by rewrite Hoth, fn_lookup_insert.
    + destruct (Heach i s1 Hi) as (v1 & Hv1 & Heq). exists v1. split; [done|]. rewrite Heq. f_equal.
      apply fn_lookup_insert_ne. intros He. apply Hs. rewrite He. apply list_elem_of_fmap. exists s1.
      split; [done|]. by eapply list_elem_of_lookup_2.
Qed.

(** The registry's well-formedness: every list is non-empty, holds distinct
    connections, and every handle is its connection's own. *)
Definition group_ok (subs : list Subscriber) : Prop :=
  subs ≠ [] ∧ NoDup (sub_id <$> subs) ∧ Forall (λ s, sender s = sub_id s) subs
  ∧ Forall (λ s, from_option (λ held, (length held ≤ MAX_HELD_HANDSHAKES)%nat
      ∧ Forall (λ f, undowngradable f = true) held) True (held_handshakes s)) subs.
Definition hub_ok (hub : Hub) : Prop := map_Forall (λ _ subs, group_ok subs) (groups hub).

Lemma group_ok_senders subs : group_ok subs → NoDup (sender <$> subs).
Proof.
  intros (_ & Hn & Hs & _). rewrite (list_fmap_ext sender sub_id subs); [done|].
  intros i s Hi. by apply (Forall_lookup_1 _ _ _ _ Hs Hi).
Qed.

(** What a fanout leaves of one subscriber it addressed. *)
Lemma fanout_frame_each hub h group frame except minv subs s :
  hub_ok hub → groups hub !! group = Some subs → s ∈ subs →
  ∃ v, (v, snd (fanout_frame hub h group frame except minv) (sender s))
         = deliver group frame except minv s (h (sender s))
    ∧ (∀ d, v_delivery v = Some d → (sub_id s, d) ∈ fst (fst (fanout_frame hub h group frame except minv)))
    ∧ (if v_gone v
       then ∀ g s', subscribed (snd (fst (fanout_frame hub h group frame except minv))) g s' → sub_id s' ≠ sub_id s
       else subscribed (snd (fst (fanout_frame hub h group frame except minv))) group (v_sub v)).
Proof using Type*.
  intros Hok Hg Hs. pose proof (Hok _ _ Hg) as Hgok. pose proof (group_ok_senders subs Hgok) as Hsn.
  unfold fanout_frame, fanout_locked. rewrite Hg.
  pose proof (fanout_loop_each group frame except minv subs h Hsn) as Hloop.
  destruct (fanout_loop _ _ _ _ h subs) as [vs h']. destruct Hloop as (Hlen & Hoth & Heach).
  apply list_elem_of_lookup in Hs as [i Hi]. destruct (Heach i s Hi) as (v & Hv & Heq).
  pose proof (deliver_keeps group frame except minv s (h (sender s))) as [Hid _]. rewrite <- Heq in Hid.
  cbn [fst snd] in *. exists v. split_and!; [done| |].
  - intros d Hd. apply list_elem_of_omap. exists v. split; [by eapply list_elem_of_lookup_2|]. by rewrite Hd, <- Hid.
  - assert (v ∈ vs) as Hvin by by eapply list_elem_of_lookup_2.
    destruct (v_gone v) eqn:Hgone.
    + intros g s' [_ Hn]%disconnect_all_subscribed He. apply Hn. rewrite He, <- Hid. unfold gone_of.
      apply list_elem_of_fmap. exists v. split; [done|]. by apply list_elem_of_filter.
    + apply disconnect_all_subscribed. split.
      * exists (v_sub <$> vs). cbn [groups]. rewrite lookup_insert_eq. split; [done|].
        apply list_elem_of_fmap. by exists v.
      * intros (v' & Hv' & [Hg' Hin']%list_elem_of_filter)%list_elem_of_fmap. cbn in Hv'.
        apply list_elem_of_lookup in Hin' as [j Hj].
        assert (is_Some (subs !! j)) as [sj Hsj]
          by (apply lookup_lt_is_Some; rewrite <- Hlen; by eapply lookup_lt_Some).
        destruct (Heach j sj Hsj) as (v'' & Hv'' & Heq''). assert (v'' = v') as -> by congruence.
        pose proof (deliver_keeps group frame except minv sj (h (sender sj))) as [Hid' _].
        rewrite <- Heq'' in Hid'. cbn in Hid'.
        assert (sj = s) as -> by (apply (NoDup_fmap_unique sub_id subs);
          [apply Hgok | by eapply list_elem_of_lookup_2 | by eapply list_elem_of_lookup_2 | congruence]).
        congruence.
Qed.

(** C8. No envelope is silently lost to a subscriber. A fanned-out envelope
    leaves each subscriber it addresses in one of three states: the envelope is
    queued, directly behind the notice the subscriber was owed; or it is not
    queued and the subscriber, still subscribed, owes a notice that it must
    reconcile; or its queue was closed and the connection is out of every group.
    The outcome reported says which, and the writer's own queue is untouched. *)
Theorem push_never_lost hub h group envelope except subs :
  hub_ok hub → groups hub !! group = Some subs →
  let '(outcomes, hub', h') := fanout hub h group envelope except in
  ∀ s, s ∈ subs →
    (sub_id s = except → h' (sender s) = h (sender s))
    ∧ (addressed except MIN_FANOUT_VERSION s →
        ((sub_id s, Sent) ∈ outcomes ∧ subscribed hub' group (set_owed s false)
           ∧ queued h' (sender s) = queued h (sender s) ++ owed_notice group s ++ [OutFrame (Push envelope)])
        ∨ ((sub_id s, Downgraded) ∈ outcomes ∧ subscribed hub' group (set_owed s true)
           ∧ (queued h' (sender s) = queued h (sender s)
              ∨ queued h' (sender s) = queued h (sender s) ++ owed_notice group s))
        ∨ ((sub_id s, Gone) ∈ outcomes ∧ is_closed h (sender s) = true
           ∧ ∀ g s', subscribed hub' g s' → sub_id s' ≠ sub_id s)).
Proof using Type*.
  intros Hok Hg. unfold fanout.
  pose proof (fanout_frame_each hub h group (Push envelope) except MIN_FANOUT_VERSION subs) as Heach.
  destruct (fanout_frame hub h group (Push envelope) except MIN_FANOUT_VERSION) as [[outcomes hub'] h'].
  cbn [fst snd] in Heach. intros s Hs. destruct (Heach s Hok Hg Hs) as (v & Hd & Hout & Hgone). split.
  - intros He. unfold deliver in Hd. rewrite bool_decide_eq_true_2 in Hd by done. by injection Hd.
  - intros Ha. pose proof (deliver_durable group (Push envelope) except MIN_FANOUT_VERSION s (h (sender s)) Ha
      eq_refl eq_refl) as Hv. rewrite <- Hd in Hv. unfold queued, is_closed.
    inversion Hv as [c ch Hq Hve|c ch Hq Hve|ch Hc Hq Hve]; subst; cbn [v_delivery v_gone v_sub] in *.
    + left. by split_and!; [apply Hout|..].
    + right. left. by split_and!; [apply Hout|..].
    + right. right. by split_and!; [apply Hout|..].
Qed.

(** A handshake is never traded for a downgrade, because reconciliation
    cannot repair a missed commit. Each subscriber a handshake addresses has it
    queued behind any notice owed, or held behind the replay in progress, or is
    ended: out of every group, its socket evicted or already closed. *)
Theorem handshake_or_gone hub h group seq message except minv subs :
  hub_ok hub → groups hub !! group = Some subs →
  let frame := Handshake group seq message in
  let '(outcomes, hub', h') := fanout_frame hub h group frame except minv in
  ∀ s, s ∈ subs → addressed except minv s →
    (∃ held, held_handshakes s = Some held ∧ (sub_id s, Sent) ∈ outcomes
       ∧ subscribed hub' group (set_held s (Some (held ++ [frame]))) ∧ h' (sender s) = h (sender s))
    ∨ ((sub_id s, Sent) ∈ outcomes ∧ subscribed hub' group (set_owed s false)
       ∧ queued h' (sender s) = queued h (sender s) ++ owed_notice group s ++ [OutFrame frame])
    ∨ ((sub_id s, Gone) ∈ outcomes ∧ (is_evicted h' (sender s) = true ∨ is_closed h (sender s) = true)
       ∧ ∀ g s', subscribed hub' g s' → sub_id s' ≠ sub_id s).
Proof using Type*.
  intros Hok Hg frame. pose proof (fanout_frame_each hub h group frame except minv subs) as Heach.
  destruct (fanout_frame hub h group frame except minv) as [[outcomes hub'] h'].
  cbn [fst snd] in Heach. intros s Hs Ha. destruct (Heach s Hok Hg Hs) as (v & Hd & Hout & Hgone).
  pose proof (deliver_handshake group frame except minv s (h (sender s)) Ha eq_refl) as Hv. rewrite <- Hd in Hv.
  unfold queued, is_closed, is_evicted.
  inversion Hv as [held Hh Hl Hve|ch Hh Hq Hve|s' ch Hid Hc Hq Hve]; subst; cbn [v_delivery v_gone v_sub] in *.
  - left. exists held. by split_and!; [|apply Hout|..].
  - right. left. by split_and!; [apply Hout|..].
  - right. right. by split_and!; [apply Hout|..].
Qed.

(** ** Releasing what was held *)
(** The handshakes a release has left to queue: those the replay has not passed,
    each above the one before it. *)
Fixpoint due (next : Z) (held : list Frame) : list Frame :=
  match held with
  | [] => []
  | f :: rest =>
      match f with
      | Handshake _ seq _ => if seq <? next then due next rest else f :: due (u64_saturating_add seq 1) rest
      | _ => due next rest
      end
  end.

Lemma release_loop_spec held ch next :
  let '(ended, ch') := release_loop ch next held in
  ∃ sent rest, due next held = sent ++ rest ∧ cq ch' = cq ch ++ (OutFrame <$> sent)
    ∧ (if ended then evicted ch' = true else rest = []).
Proof using Type*.
  revert ch next. induction held as [|f held IH]; intros ch next.
  { exists [], []. cbn. by rewrite app_nil_r. }
  destruct f; cbn [release_loop due]; try apply IH.
  destruct (seq <? next); [apply IH|].
  destruct (try_queue_by_cases ch (Handshake group seq message)) as [ch1 Hq1 Hc1 Hc1' He1| |Hc1].
  - specialize (IH ch1 (u64_saturating_add seq 1)). destruct (release_loop ch1 _ held) as [ended ch'].
    destruct IH as (sent & rest & Hd & Hq & He). exists (Handshake group seq message :: sent), rest.
    rewrite Hd, Hq, Hq1, <- app_assoc. by split_and!.
  - exists [], (Handshake group seq message :: due (u64_saturating_add seq 1) held). cbn [fmap list_fmap app].
    rewrite app_nil_r. by split_and!.
  - exists [], (Handshake group seq message :: due (u64_saturating_add seq 1) held). cbn [fmap list_fmap app].
    rewrite app_nil_r. by split_and!.
Qed.

Definition frame_seq (f : Frame) : Z := match f with Handshake _ seq _ => seq | _ => 0 end.

Lemma due_ascending next held :
  Forall (λ f, frame_seq f < U64_MAX) held →
  StronglySorted (λ f g, frame_seq f < frame_seq g) (due next held)
  ∧ Forall (λ f, next ≤ frame_seq f) (due next held).
Proof.
  revert next. induction held as [|f held IH]; intros next Hf; [by split; constructor|].
  apply Forall_cons in Hf as [Hf Hh]. destruct f; cbn [due]; try by apply IH.
  cbn [frame_seq] in Hf. destruct (Z.ltb_spec seq next); [by apply IH|].
  destruct (IH (u64_saturating_add seq 1) Hh) as [Hs Hle]. unfold u64_saturating_add in *.
  rewrite Z.min_r in * by lia. split.
  - constructor; [done|]. eapply Forall_impl; [exact Hle|]. cbn. lia.
  - constructor; [done|]. eapply Forall_impl; [exact Hle|]. cbn. lia.
Qed.

(** A held sequence already in order is due from where the replay stopped. *)
Lemma due_complete next held :
  Forall (λ f, undowngradable f = true ∧ frame_seq f < U64_MAX) held →
  StronglySorted (λ f g, frame_seq f < frame_seq g) held →
  due next held = filter (λ f, next ≤ frame_seq f) held.
Proof.
  revert next. induction held as [|f held IH]; intros next Hf Hs; [done|].
  apply Forall_cons in Hf as [[Hu Hf] Hh]. apply StronglySorted_inv in Hs as [Hs Hlt].
  destruct f; try done. cbn [due frame_seq] in *. rewrite filter_cons. cbn [frame_seq].
  destruct (Z.ltb_spec seq next); [rewrite decide_False by lia; by apply IH|]. rewrite decide_True by lia.
  f_equal. rewrite IH by done. unfold u64_saturating_add. rewrite Z.min_r by lia.
  rewrite (filter_all (λ f, seq + 1 ≤ frame_seq f)), (filter_all (λ f, next ≤ frame_seq f)); [done|..];
    (eapply Forall_impl; [exact Hlt|]; cbn; lia).
Qed.

Lemma find_by_id subs i s :
  NoDup (sub_id <$> subs) → subs !! i = Some s → list_find (λ x, sub_id x = sub_id s) subs = Some (i, s).
Proof.
  intros Hn Hi. apply list_find_Some. split_and!; [done..|]. intros j y Hj Hlt Heq.
  assert (j = i); [|lia]. apply (NoDup_lookup _ _ _ (sub_id s) Hn); rewrite list_lookup_fmap;
    [rewrite Hj; cbn; by rewrite Heq | by rewrite Hi].
Qed.

(** What is due from where the next number stands after [held]. *)
Fixpoint next_after (next : Z) (held : list Frame) : Z :=
  match held with
  | [] => next
  | f :: rest =>
      match f with
      | Handshake _ seq _ => next_after (if seq <? next then next else u64_saturating_add seq 1) rest
      | _ => next_after next rest
      end
  end.
Lemma due_app next held more : due next (held ++ more) = due next held ++ due (next_after next held) more.
Proof.
  revert next. induction held as [|f held IH]; intros next; [done|].
  destruct f; cbn [due next_after app]; try apply IH. destruct (seq <? next); [apply IH|]. cbn [app]. by rewrite IH.
Qed.
Lemma next_after_app next held more : next_after next (held ++ more) = next_after (next_after next held) more.
Proof. revert next. induction held as [|f held IH]; intros next; [done|]. destruct f; cbn [next_after app]; apply IH. Qed.

(** A release queues what is due, as far as there is room. *)
Lemma release_due hub h group replayed_to subs s held :
  hub_ok hub → groups hub !! group = Some subs → s ∈ subs → held_handshakes s = Some held →
  let '(hub', h') := release_handshakes hub h group (sub_id s) replayed_to in
  ∃ sent rest, due replayed_to held = sent ++ rest
    ∧ queued h' (sender s) = queued h (sender s) ++ (OutFrame <$> sent)
    ∧ ((rest = [] ∧ subscribed hub' group (set_held s None))
       ∨ (is_evicted h' (sender s) = true ∧ ∀ g s', subscribed hub' g s' → sub_id s' ≠ sub_id s)).
Proof using Type*.
  intros Hok Hg Hs Hh. pose proof (Hok _ _ Hg) as (_ & Hn & _ & _).
  apply list_elem_of_lookup in Hs as [i Hi]. unfold release_handshakes, release_locked.
  rewrite Hg, (find_by_id subs i s Hn Hi), Hh.
  pose proof (release_loop_spec held (h (sender s)) replayed_to) as Hr.
  destruct (release_loop (h (sender s)) replayed_to held) as [ended ch]. destruct Hr as (sent & rest & Hd & Hq & He).
  exists sent, rest. unfold queued, is_evicted. rewrite !fn_lookup_insert. split_and!; [done..|]. destruct ended.
  - right. split; [done|]. intros g s' [_ Hne]%disconnect_subscribed. done.
  - left. split; [done|]. eexists. cbn [groups set_groups]. rewrite lookup_insert_eq. split; [done|].
    apply (list_elem_of_lookup_2 _ i). apply list_lookup_insert_eq. by eapply lookup_lt_Some.
Qed.

(** Ending a hold delivers every handshake that arrived during the replay,
    in order and once: exactly the held handshakes the replay had not already
    passed are queued, in ascending sequence behind what was there, and the
    subscriber goes live; or one of them found no room, and the connection is
    evicted and out of every group. *)
Theorem release_in_order hub h group replayed_to subs s held :
  hub_ok hub → groups hub !! group = Some subs → s ∈ subs → held_handshakes s = Some held →
  StronglySorted (λ f g, frame_seq f < frame_seq g) held → Forall (λ f, frame_seq f < U64_MAX) held →
  let '(hub', h') := release_handshakes hub h group (sub_id s) replayed_to in
  ∃ sent rest,
    filter (λ f, replayed_to ≤ frame_seq f) held = sent ++ rest
    ∧ queued h' (sender s) = queued h (sender s) ++ (OutFrame <$> sent)
    ∧ ((rest = [] ∧ subscribed hub' group (set_held s None))
       ∨ (is_evicted h' (sender s) = true ∧ ∀ g s', subscribed hub' g s' → sub_id s' ≠ sub_id s)).
Proof using Type*.
  intros Hok Hg Hs Hh Hsort Hseq. pose proof (Hok _ _ Hg) as (_ & _ & _ & Hheld).
  pose proof (proj1 (list.Forall_forall _ _) Hheld s Hs) as Hhs. cbn in Hhs. rewrite Hh in Hhs. destruct Hhs as [_ Hund].
  rewrite <- due_complete by (done || by apply Forall_and). by apply (release_due hub h group replayed_to subs).
Qed.

(** ** Eviction *)
Lemma evict_fold taken hub h :
  let '(hub', h') := fold_left evict_one taken (hub, h) in
  (∀ g s, subscribed hub' g s ↔ subscribed hub g s ∧ sub_id s ∉ fst <$> taken)
  ∧ (∀ e p, identified hub' e p ↔ identified hub e p ∧ p.1 ∉ fst <$> taken)
  ∧ (∀ s, is_evicted h s = true ∨ s ∈ snd <$> taken → is_evicted h' s = true)
  ∧ (∀ s, s ∉ snd <$> taken → h' s = h s).
Proof using Type*.
  revert hub h. induction taken as [|[id sn] taken IH]; intros hub h.
  { cbn. split_and!; intros; rewrite ?not_elem_of_nil in *; naive_solver (rewrite ?elem_of_nil in *; done). }
  cbn [fold_left evict_one fst snd]. specialize (IH (disconnect hub id) (close_at (evict_at h sn) sn)).
  destruct (fold_left evict_one taken _) as [hub' h']. destruct IH as (Hsub & Hid & Hev & Hoth).
  split_and!.
  - intros g s. rewrite Hsub, disconnect_subscribed, fmap_cons, not_elem_of_cons. cbn [fst]. tauto.
  - intros e p. rewrite Hid, disconnect_identified, fmap_cons, not_elem_of_cons. cbn [fst]. tauto.
  - intros s. rewrite fmap_cons, elem_of_cons. cbn [snd]. intros [He|[->|Hin]]; apply Hev; [left|left|by right];
      rewrite close_at_evicted; [by apply evict_at_mono | apply evict_at_self].
  - intros s. rewrite fmap_cons, not_elem_of_cons. cbn [snd]. intros [Hne Hin]. rewrite Hoth by done.
    unfold close_at. rewrite fn_lookup_insert_ne by done. by apply evict_at_ne.
Qed.

(** Revocation reaches the socket. Evicting a principal ends every
    connection it holds: each is signalled to stop, is out of every group and
    out of every principal's list; the principal holds no connection after it;
    the count is of the connections ended; and nobody else's subscription or
    queue changes. *)
Theorem evict_total hub h entry_hash :
  let taken := default [] (principals hub !! entry_hash) in
  let '(count, hub', h') := evict hub h entry_hash in
  count = length taken ∧ connections_for hub' entry_hash = 0%nat
  ∧ (∀ id sn, (id, sn) ∈ taken →
       is_evicted h' sn = true ∧ (∀ g s, subscribed hub' g s → sub_id s ≠ id)
       ∧ (∀ e p, identified hub' e p → p.1 ≠ id))
  ∧ (∀ g s, sub_id s ∉ fst <$> taken → subscribed hub' g s ↔ subscribed hub g s)
  ∧ (∀ sn, sn ∉ snd <$> taken → h' sn = h sn).
Proof using Type*.
  intros taken. unfold evict. fold taken.
  set (hub0 := set_principals hub (delete entry_hash (principals hub))).
  pose proof (evict_fold taken hub0 h) as Hf. destruct (fold_left evict_one taken (hub0, h)) as [hub' h'].
  destruct Hf as (Hsub & Hid & Hev & Hoth). split_and!; try done.
  - unfold connections_for. destruct (principals hub' !! entry_hash) as [ps|] eqn:Hp; [|done]. cbn.
    destruct ps as [|p ps]; [done|]. exfalso.
    assert (identified hub' entry_hash p) as Hi by (exists (p :: ps); split; [done | by left]).
    apply Hid in Hi as [(ps0 & Hp0 & _) _]. cbn in Hp0. by rewrite lookup_delete_eq in Hp0.
  - intros id sn Hin. assert (id ∈ fst <$> taken) as Hid' by (apply list_elem_of_fmap; by exists (id, sn)).
    split_and!.
    + apply Hev. right. apply list_elem_of_fmap. by exists (id, sn).
    + intros g s [_ Hne]%Hsub Heq. by rewrite Heq in Hne.
    + intros e p [_ Hne]%Hid Heq. by rewrite Heq in Hne.
  - intros g s Hs. rewrite Hsub. naive_solver.
Qed.

(** ** Every critical section as a step

    Connections are registered with their own queue, as [ws.rs] does, and the
    queues change between steps as their receivers drain them. *)
Inductive hub_step : Hub * (N → Channel C P) → Hub * (N → Channel C P) → Prop :=
| hub_connect hub h : hub_step (hub, h) (snd (connect hub), h)
| hub_subscribe hub h group id version : hub_step (hub, h) (subscribe hub group id id version, h)
| hub_subscribe_holding hub h group id version :
    hub_step (hub, h) (subscribe_holding_handshakes hub group id id version, h)
| hub_release hub h group id replayed_to :
    hub_step (hub, h) (snd (fst (release_locked hub h group id replayed_to)),
                       snd (release_locked hub h group id replayed_to))
| hub_identify hub h entry_hash id : hub_step (hub, h) (identify hub entry_hash id id, h)
| hub_disconnect_groups hub h id : hub_step (hub, h) (disconnect_groups_locked hub id, h)
| hub_disconnect_principals hub h id : hub_step (hub, h) (disconnect_principals_locked hub id, h)
| hub_evict hub h entry_hash :
    hub_step (hub, h) (snd (fst (evict hub h entry_hash)), snd (evict hub h entry_hash))
| hub_settle hub h order :
    hub_step (hub, h) (snd (fst (settle_downgrades order hub h)), snd (settle_downgrades order hub h))
| hub_fanout hub h group frame except minv :
    hub_step (hub, h) (snd (fst (fanout_locked hub h group frame except minv)),
                       snd (fanout_locked hub h group frame except minv))
| hub_queues hub h h' : hub_step (hub, h) (hub, h').

(** ** Well-formedness is preserved *)
Definition held_ok (s : Subscriber) : Prop :=
  from_option (λ held, (length held ≤ MAX_HELD_HANDSHAKES)%nat ∧ Forall (λ f, undowngradable f = true) held)
    True (held_handshakes s).

(** Rewriting every subscriber in place, keeping who it is. *)
Lemma group_ok_update subs subs' :
  group_ok subs → Forall2 (λ s s', sub_id s' = sub_id s ∧ sender s' = sender s ∧ (held_ok s → held_ok s')) subs subs' →
  group_ok subs'.
Proof.
  intros (Hne & Hn & Hs & Hh) Hf.
  assert (sub_id <$> subs' = sub_id <$> subs) as Hids
    by (clear - Hf; induction Hf as [|s s' l l' (Hi & _) _ IH]; [done|]; by rewrite !fmap_cons, IH, Hi).
  split_and!.
  - intros ->. by destruct subs; [|inversion Hf].
  - by rewrite Hids.
  - clear - Hf Hs. induction Hf as [|s s' l l' (Hi & Hse & _) _ IH]; [done|].
    apply Forall_cons in Hs as [Hs Hl]. constructor; [congruence | by apply IH].
  - change (Forall held_ok subs'). change (Forall held_ok subs) in Hh. clear - Hf Hh.
    induction Hf as [|s s' l l' (_ & _ & Hk) _ IH]; [done|]. apply Forall_cons in Hh as [Hs Hl]. constructor; auto.
Qed.

Lemma add_subscriber_ok hub group s :
  hub_ok hub → sender s = sub_id s → held_ok s → hub_ok (add_subscriber hub group s).
Proof.
  intros Hok Hse Hh. unfold add_subscriber. destruct (groups hub !! group) as [subs|] eqn:Hg; cbn [default].
  - pose proof (Hok _ _ Hg) as (Hne & Hn & Hs & Hhs). destruct (has_sub _ _) eqn:Hin.
    + apply map_Forall_insert_2; [|done]. by apply (Hok _ _ Hg).
    + apply map_Forall_insert_2; [|done]. unfold id. split_and!.
      * by destruct subs.
      * rewrite fmap_app. apply list.NoDup_app. split_and!; [done| |apply NoDup_singleton].
        intros i Hi ->%list_elem_of_singleton. apply list_elem_of_fmap in Hi as (s' & Heq & Hs').
        assert (has_sub (sub_id s) subs = true); [|unfold id in Hin; congruence].
        apply existsb_exists. exists s'. split; [by apply list_elem_of_In|]. by apply bool_decide_eq_true.
      * apply Forall_app. by split; [|constructor].
      * apply Forall_app. by split; [|constructor].
  - cbn. apply map_Forall_insert_2; [|done]. split_and!; [done|apply NoDup_singleton|by constructor|by constructor].
Qed.

Lemma disconnect_groups_ok hub id : hub_ok hub → hub_ok (disconnect_groups_locked hub id).
Proof.
  intros Hok g l [Hl Hne]%map_lookup_filter_Some. rewrite lookup_fmap in Hl. apply fmap_Some in Hl as (subs & Hg & ->).
  pose proof (Hok _ _ Hg) as (_ & Hn & Hs & Hh).
  split_and!; [done | by apply NoDup_fmap_filter | by apply Forall_filter_keep | by apply Forall_filter_keep].
Qed.

Lemma evict_fold_ok taken hub h : hub_ok hub → hub_ok (fst (fold_left evict_one taken (hub, h))).
Proof.
  revert hub h. induction taken as [|p taken IH]; intros hub h Hok; [done|]. cbn [fold_left evict_one].
  apply IH. exact (disconnect_groups_ok hub p.1 Hok).
Qed.

Lemma settle_group_same group subs h :
  Forall2 (λ s s', sub_id s' = sub_id s ∧ sender s' = sender s ∧ held_handshakes s' = held_handshakes s)
    subs (snd (fst (settle_group group h subs))).
Proof.
  revert h. induction subs as [|s subs IH]; intros h; [constructor|]. cbn [settle_group].
  destruct (settle_one group (h (sender s)) s) as [[n s'] ch] eqn:Hone.
  specialize (IH (<[sender s' := ch]> h)). destruct (settle_group group _ subs) as [[m subs'] h'].
  constructor; [|done]. unfold settle_one in Hone. repeat case_match; by simplify_eq.
Qed.

Lemma settle_ok order hub h : hub_ok hub → hub_ok (snd (fst (settle_downgrades order hub h))).
Proof.
  revert hub h. induction order as [|g order IH]; intros hub h Hok; [done|]. cbn [settle_downgrades].
  destruct (groups hub !! g) as [subs|] eqn:Hg; [|by apply IH].
  pose proof (settle_group_same g subs h) as Hs. destruct (settle_group g h subs) as [[n subs'] h1].
  specialize (IH (set_groups hub (<[g := subs']> (groups hub))) h1).
  destruct (settle_downgrades order _ h1) as [[m hub'] h']. apply IH. apply map_Forall_insert_2; [|done].
  apply (group_ok_update subs); [by apply (Hok _ _ Hg)|]. eapply Forall2_impl; [exact Hs|].
  intros s s' (? & ? & He). unfold held_ok. by rewrite He.
Qed.

Lemma deliver_held_ok group frame except minv s ch :
  held_ok s → held_ok (v_sub (fst (deliver group frame except minv s ch))).
Proof.
  intros Hh. assert (held_ok (v_sub (fst (pay_then_offer group frame s ch)))) as Hpay
    by (unfold pay_then_offer, offer; repeat case_match; done).
  unfold deliver. destruct (bool_decide _); [done|]. destruct (_ <? minv); [done|].
  destruct (undowngradable frame) eqn:Hu; [|done]. destruct (held_handshakes s) as [held|] eqn:Hs; [|done].
  destruct (Nat.ltb_spec (length held) MAX_HELD_HANDSHAKES) as [Hlt|]; [|done].
  unfold held_ok in *. rewrite Hs in Hh. cbn [from_option] in Hh. cbn [fst v_sub set_held held_handshakes from_option].
  rewrite length_app. split; [cbn [length]; lia|]. apply Forall_app. by split; [apply Hh | constructor].
Qed.

Lemma fanout_loop_ok group frame except minv subs h :
  Forall2 (λ s v, sub_id (v_sub v) = sub_id s ∧ sender (v_sub v) = sender s ∧ (held_ok s → held_ok (v_sub v)))
    subs (fst (fanout_loop group frame except minv h subs)).
Proof.
  revert h. induction subs as [|s subs IH]; intros h; [constructor|]. cbn [fanout_loop].
  pose proof (deliver_keeps group frame except minv s (h (sender s))) as [Hi Hse].
  pose proof (deliver_held_ok group frame except minv s (h (sender s))) as Hh.
  destruct (deliver group frame except minv s (h (sender s))) as [v ch]. specialize (IH (<[sender s := ch]> h)).
  destruct (fanout_loop _ _ _ _ _ subs) as [vs h']. by constructor.
Qed.

Lemma hub_step_ok x y : hub_step x y → hub_ok x.1 → hub_ok y.1.
Proof using Type*.
  intros Hst Hok. destruct Hst; cbn [fst snd] in *; try done.
  - by apply add_subscriber_ok.
  - apply add_subscriber_ok; [done..|]. unfold held_ok. cbn. split; [lia | constructor].
  - unfold release_locked. destruct (groups hub !! group) as [subs|] eqn:Hg; [|done].
    destruct (list_find _ subs) as [[i s]|] eqn:Hf; [|done]. destruct (held_handshakes s) as [held|]; [|done].
    destruct (release_loop _ _ _) as [ended ch]. cbn [fst snd]. apply map_Forall_insert_2; [|done].
    apply (group_ok_update subs); [by apply (Hok _ _ Hg)|]. apply list_find_Some in Hf as (Hi & _ & _).
    apply Forall2_same_length_lookup_2; [by rewrite length_insert|]. intros j s1 s2 Hj1 Hj2.
    apply list_lookup_insert_Some in Hj2 as [(<- & <- & _)|(_ & Hj2)]; [|by simplify_eq].
    assert (s1 = s) as -> by congruence. done.
  - unfold identify. by destruct (existsb _ _).
  - by apply disconnect_groups_ok.
  - unfold evict. set (hub0 := set_principals hub (delete entry_hash (principals hub))).
    assert (hub_ok hub0) as Hok0 by exact Hok.
    pose proof (evict_fold_ok (default [] (principals hub !! entry_hash)) hub0 h Hok0) as Hf.
    by destruct (fold_left evict_one _ (hub0, h)).
  - by apply settle_ok.
  - unfold fanout_locked. destruct (groups hub !! group) as [subs|] eqn:Hg; [|done].
    pose proof (fanout_loop_ok group frame except minv subs h) as Hf.
    destruct (fanout_loop _ _ _ _ h subs) as [vs h']. cbn [fst snd]. apply map_Forall_insert_2; [|done].
    apply (group_ok_update subs); [by apply (Hok _ _ Hg)|]. by apply Forall2_fmap_r.
Qed.

Lemma settle_group_held group subs h :
  Forall2 (λ s s', sub_id s' = sub_id s ∧ held_handshakes s' = held_handshakes s ∧ protocol_version s' = protocol_version s)
    subs (snd (fst (settle_group group h subs))).
Proof.
  revert h. induction subs as [|s subs IH]; intros h; [constructor|]. cbn [settle_group].
  destruct (settle_one group (h (sender s)) s) as [[n s'] ch] eqn:Hone.
  specialize (IH (<[sender s' := ch]> h)). destruct (settle_group group _ subs) as [[m subs'] h'].
  constructor; [|done]. unfold settle_one in Hone. repeat case_match; by simplify_eq.
Qed.

Lemma settle_one_sender group s ch : sender (snd (fst (settle_one group ch s))) = sender s
  ∧ sub_id (snd (fst (settle_one group ch s))) = sub_id s.
Proof. unfold settle_one. by repeat case_match. Qed.

(** ** One entry under everybody else's steps *)
Definition stays_evicted (h h' : N → Channel C P) : Prop := ∀ n, is_evicted h n = true → is_evicted h' n = true.

(** The critical sections of other connections, and of this one's own end: all
    of [hub_step] but a handshake fanned out to [group] and the end of the hold
    of [id] there. An eviction is never taken back. *)
Inductive elsewhere (group : list byte) (id : ConnectionId) : Hub * (N → Channel C P) → Hub * (N → Channel C P) → Prop :=
| el_connect hub h : elsewhere group id (hub, h) (snd (connect hub), h)
| el_subscribe hub h g i version : i ≠ id → elsewhere group id (hub, h) (subscribe hub g i i version, h)
| el_subscribe_holding hub h g i version :
    i ≠ id → elsewhere group id (hub, h) (subscribe_holding_handshakes hub g i i version, h)
| el_release hub h g i replayed_to :
    i ≠ id → elsewhere group id (hub, h) (snd (fst (release_locked hub h g i replayed_to)),
                                          snd (release_locked hub h g i replayed_to))
| el_identify hub h entry_hash i : elsewhere group id (hub, h) (identify hub entry_hash i i, h)
| el_disconnect_groups hub h i : elsewhere group id (hub, h) (disconnect_groups_locked hub i, h)
| el_disconnect_principals hub h i : elsewhere group id (hub, h) (disconnect_principals_locked hub i, h)
| el_evict hub h entry_hash :
    elsewhere group id (hub, h) (snd (fst (evict hub h entry_hash)), snd (evict hub h entry_hash))
| el_settle hub h order :
    elsewhere group id (hub, h) (snd (fst (settle_downgrades order hub h)), snd (settle_downgrades order hub h))
| el_fanout hub h g frame except minv :
    g ≠ group ∨ undowngradable frame = false →
    elsewhere group id (hub, h) (snd (fst (fanout_locked hub h g frame except minv)),
                                 snd (fanout_locked hub h g frame except minv))
| el_queues hub h h' : stays_evicted h h' → elsewhere group id (hub, h) (hub, h').

Lemma elsewhere_step group id x y : elsewhere group id x y → hub_step x y.
Proof. destruct 1; constructor. Qed.

(** The entry of a connection keeps its hold, or is gone. *)
Definition entry_kept (group : list byte) (id : ConnectionId) (hub hub' : Hub) : Prop :=
  ∀ s', subscribed hub' group s' → sub_id s' = id →
    ∃ s, subscribed hub group s ∧ sub_id s = id ∧ held_handshakes s' = held_handshakes s
      ∧ protocol_version s' = protocol_version s.

Lemma entry_kept_incl group id hub hub' :
  (∀ s, subscribed hub' group s → sub_id s = id → subscribed hub group s) → entry_kept group id hub hub'.
Proof. intros Hs s' Hs' Hi. exists s'. split_and!; auto. Qed.

Lemma added_subscriber hub g s s' :
  subscribed (add_subscriber hub g s) g s' → subscribed hub g s' ∨ s' = s.
Proof.
  unfold add_subscriber, subscribed. cbv zeta. intros (subs & Hg & Hin).
  assert (s' ∈ default [] (groups hub !! g) ∨ s' = s) as [Hin'|]; [|left|by right].
  - destruct (has_sub _ _); cbn [set_groups groups] in Hg; rewrite lookup_insert_eq in Hg; injection Hg as <-; [by left|].
    apply elem_of_app in Hin as [|Hin]; [by left|]. right. by apply list_elem_of_singleton in Hin.
  - destruct (groups hub !! g) as [l|]; [by exists l|]. by apply elem_of_nil in Hin'.
Qed.

Lemma add_subscriber_kept hub g s group id : sub_id s ≠ id → entry_kept group id hub (add_subscriber hub g s).
Proof.
  intros Hne. apply entry_kept_incl. intros s' Hs' Hid. destruct (decide (g = group)) as [->|Hgg].
  - apply added_subscriber in Hs' as [Hs'| ->]; done.
  - destruct Hs' as (subs & Hg & Hin). exists subs. split; [|done]. unfold add_subscriber in Hg. cbv zeta in Hg.
    destruct (has_sub _ _); cbn [set_groups groups] in Hg; by rewrite lookup_insert_ne in Hg.
Qed.

(** A list rewritten in place. *)
Lemma rewritten_kept hub hub' g group id subs subs' :
  groups hub !! g = Some subs → groups hub' = <[g := subs']> (groups hub) →
  Forall2 (λ s s', sub_id s' = sub_id s
    ∧ (g = group → sub_id s = id → held_handshakes s' = held_handshakes s ∧ protocol_version s' = protocol_version s)) subs subs' →
  entry_kept group id hub hub'.
Proof.
  intros Hg Hg' Hf s' (l & Hl & Hin) Hid. rewrite Hg' in Hl. destruct (decide (group = g)) as [->|Hne].
  - rewrite lookup_insert_eq in Hl. injection Hl as <-. apply list_elem_of_lookup in Hin as [j Hj].
    destruct (Forall2_lookup_r _ _ _ _ _ Hf Hj) as (s & Hs & Hi & Hk). rewrite Hid in Hi.
    destruct (Hk eq_refl (eq_sym Hi)) as [Hh Hv]. exists s. split_and!; [|done..]. exists subs. split; [done|]. by eapply list_elem_of_lookup_2.
  - rewrite lookup_insert_ne in Hl by done. exists s'. split_and!; [by exists l|done..].
Qed.

Lemma try_queue_evicted ch f : evicted ch = true → evicted (snd (try_queue ch f)) = true.
Proof using Type*. intros He. destruct (try_queue_by_cases ch f) as [ch' _ _ _ He'| |]; cbn; congruence. Qed.

Lemma deliver_evicted group frame except minv s ch :
  evicted ch = true → evicted (snd (deliver group frame except minv s ch)) = true.
Proof using Type*.
  intros He. assert (∀ s ch, evicted ch = true → evicted (snd (offer frame s ch)) = true) as Hof.
  { intros s0 ch0 He0. unfold offer. pose proof (try_queue_evicted ch0 frame He0) as Ht.
    destruct (try_queue ch0 frame) as [[] ch1]; repeat case_match; done. }
  unfold deliver, pay_then_offer. pose proof (try_queue_evicted ch (downgrade_frame group) He) as Ht.
  destruct (try_queue ch (downgrade_frame group)) as [[] ch1]; cbn [snd] in Ht; repeat case_match; try done; by apply Hof.
Qed.

Lemma stays_evicted_insert h n ch :
  (evicted (h n) = true → evicted ch = true) → stays_evicted h (<[n := ch]> h).
Proof.
  intros Hc m. unfold is_evicted. destruct (decide (m = n)) as [->|]; [by rewrite fn_lookup_insert|by rewrite fn_lookup_insert_ne].
Qed.

Lemma fanout_loop_evicted group frame except minv subs h :
  stays_evicted h (snd (fanout_loop group frame except minv h subs)).
Proof using Type*.
  revert h. induction subs as [|s subs IH]; intros h; cbn [fanout_loop]; [by intros n|].
  pose proof (deliver_evicted group frame except minv s (h (sender s))) as Hd.
  destruct (deliver group frame except minv s (h (sender s))) as [v ch]. cbn [snd] in Hd.
  specialize (IH (<[sender s := ch]> h)). destruct (fanout_loop _ _ _ _ _ subs) as [vs h']. cbn [snd] in *.
  intros n Hn. apply IH. by apply stays_evicted_insert.
Qed.

Lemma fanout_locked_evicted hub h group frame except minv :
  stays_evicted h (snd (fanout_locked hub h group frame except minv)).
Proof using Type*.
  unfold fanout_locked. destruct (groups hub !! group) as [subs|]; [|by intros n].
  pose proof (fanout_loop_evicted group frame except minv subs h) as Hf. by destruct (fanout_loop _ _ _ _ h subs).
Qed.

Lemma settle_group_evicted group subs h : stays_evicted h (snd (settle_group group h subs)).
Proof using Type*.
  revert h. induction subs as [|s subs IH]; intros h; cbn [settle_group]; [by intros n|].
  assert (evicted (h (sender s)) = true → evicted (snd (settle_one group (h (sender s)) s)) = true
    ∧ sender (snd (fst (settle_one group (h (sender s)) s))) = sender s) as Hone.
  { intros He. unfold settle_one. destruct (downgrade_owed s); [|done].
    pose proof (try_queue_evicted _ (downgrade_frame group) He) as Ht. by destruct (try_queue _ _) as [[] ch]. }
  pose proof (settle_one_sender group s (h (sender s))) as [Hse _].
  destruct (settle_one group (h (sender s)) s) as [[n s'] ch]. cbn [fst snd] in *. rewrite Hse.
  specialize (IH (<[sender s := ch]> h)). destruct (settle_group group _ subs) as [[m subs'] h']. cbn [snd] in *.
  intros k Hk. apply IH. apply stays_evicted_insert; [|done]. intros He. by apply Hone.
Qed.

Lemma release_loop_evicted held ch next :
  evicted ch = true → evicted (snd (release_loop ch next held)) = true.
Proof using Type*.
  revert ch next. induction held as [|f held IH]; intros ch next He; [done|].
  destruct f; cbn [release_loop]; try by apply IH. destruct (seq <? next); [by apply IH|].
  pose proof (try_queue_evicted ch (Handshake group seq message) He) as Ht.
  destruct (try_queue ch (Handshake group seq message)) as [[] ch']; [by apply IH|done..].
Qed.

Lemma settle_kept order hub h group id :
  entry_kept group id hub (snd (fst (settle_downgrades order hub h))) ∧ stays_evicted h (snd (settle_downgrades order hub h)).
Proof using Type*.
  revert hub h. induction order as [|g order IH]; intros hub h; cbn [settle_downgrades].
  { split; [by apply entry_kept_incl|by intros n]. }
  destruct (groups hub !! g) as [subs|] eqn:Hg; [|by apply IH].
  pose proof (settle_group_held g subs h) as Hs. pose proof (settle_group_evicted g subs h) as He.
  destruct (settle_group g h subs) as [[n subs'] h1]. cbn [fst snd] in *.
  destruct (IH (set_groups hub (<[g := subs']> (groups hub))) h1) as [Hk Hev].
  destruct (settle_downgrades order _ h1) as [[m hub'] h']. cbn [fst snd] in *. split.
  - intros s' Hs' Hid. destruct (Hk s' Hs' Hid) as (s1 & Hs1 & Hid1 & Hh1 & Hv1).
    destruct (rewritten_kept hub (set_groups hub (<[g := subs']> (groups hub))) g group id subs subs' Hg eq_refl) with (s' := s1)
      as (s & Hsub & Hid0 & Hh & Hv); [|done..|].
    + eapply Forall2_impl; [exact Hs|]. intros x y (? & ? & ?). done.
    + exists s. split_and!; [done..|congruence|congruence].
  - intros k Hk'. by apply Hev, He.
Qed.

Lemma deliver_quiet g frame except minv s ch :
  undowngradable frame = false →
  held_handshakes (v_sub (fst (deliver g frame except minv s ch))) = held_handshakes s
  ∧ protocol_version (v_sub (fst (deliver g frame except minv s ch))) = protocol_version s.
Proof. intros Hu. unfold deliver, pay_then_offer, offer. rewrite Hu. repeat case_match; done. Qed.

Lemma fanout_quiet g frame except minv subs h :
  undowngradable frame = false →
  Forall2 (λ s v, sub_id (v_sub v) = sub_id s ∧ held_handshakes (v_sub v) = held_handshakes s
    ∧ protocol_version (v_sub v) = protocol_version s) subs (fst (fanout_loop g frame except minv h subs)).
Proof.
  intros Hu. revert h. induction subs as [|s subs IH]; intros h; [constructor|]. cbn [fanout_loop].
  pose proof (deliver_keeps g frame except minv s (h (sender s))) as [Hi _].
  pose proof (deliver_quiet g frame except minv s (h (sender s)) Hu) as Hh.
  destruct (deliver g frame except minv s (h (sender s))) as [v ch]. specialize (IH (<[sender s := ch]> h)).
  destruct (fanout_loop _ _ _ _ _ subs) as [vs h']. by constructor.
Qed.

Lemma elsewhere_kept group id x y : elsewhere group id x y → entry_kept group id x.1 y.1 ∧ stays_evicted x.2 y.2.
Proof using Type*.
  assert (∀ hub, entry_kept group id hub hub) as Hrefl by (intros hub; by apply entry_kept_incl).
  destruct 1 as [hub h|hub h g i version Hne|hub h g i version Hne|hub h g i r Hne|hub h e i|hub h i|hub h i|hub h e|hub h order
    |hub h g frame except minv Hq|hub h h' Hev]; cbn [fst snd].
  - split; [by apply entry_kept_incl|by intros n].
  - split; [by apply add_subscriber_kept|by intros n].
  - split; [by apply add_subscriber_kept|by intros n].
  - unfold release_locked. destruct (groups hub !! g) as [subs|] eqn:Hg; [|split; [apply Hrefl|by intros n]].
    destruct (list_find _ subs) as [[j s]|] eqn:Hf; [|split; [apply Hrefl|by intros n]].
    destruct (held_handshakes s) as [held|]; [|split; [apply Hrefl|by intros n]].
    pose proof (release_loop_evicted held (h (sender s)) r) as Hr. destruct (release_loop _ _ _) as [ended ch]. cbn [fst snd] in *.
    split; [|by apply stays_evicted_insert]. apply list_find_Some in Hf as (Hj & Hid & _).
    eapply (rewritten_kept _ _ g group id subs); [done|done|].
    apply Forall2_same_length_lookup_2; [by rewrite length_insert|]. intros k s1 s2 Hk1 Hk2.
    apply list_lookup_insert_Some in Hk2 as [(<- & <- & _)|(_ & Hk2)]; [|by simplify_eq].
    assert (s1 = s) as -> by congruence. split; [done|]. congruence.
  - split; [|by intros n]. apply entry_kept_incl. unfold identify. by destruct (existsb _ _).
  - split; [|by intros n]. apply entry_kept_incl. intros s Hs _. by apply (prune_lookup (λ s, sub_id s ≠ i)) in Hs as [? _].
  - split; [by apply entry_kept_incl|by intros n].
  - unfold evict. set (hub0 := set_principals hub (delete e (principals hub))).
    pose proof (evict_fold (default [] (principals hub !! e)) hub0 h) as Hf. destruct (fold_left evict_one _ (hub0, h)) as [hub' h'].
    destruct Hf as (Hs & _ & Hev & _). cbn [fst snd]. split; [|intros n Hn; apply Hev; by left].
    apply entry_kept_incl. intros s [Hs' _]%Hs _. exact Hs'.
  - apply settle_kept.
  - split; [|apply fanout_locked_evicted]. unfold fanout_locked. destruct (groups hub !! g) as [subs|] eqn:Hg; [|apply Hrefl].
    pose proof (fanout_loop_ok g frame except minv subs h) as Hall.
    pose proof (fanout_quiet g frame except minv subs h) as Hquiet.
    destruct (fanout_loop _ _ _ _ h subs) as [vs h']. cbn [fst snd] in *.
    eapply (rewritten_kept _ _ g group id subs); [done|done|]. apply Forall2_fmap_r. destruct Hq as [Hne|Hu].
    + eapply Forall2_impl; [exact Hall|]. intros s v (Hi & _). by split.
    + eapply Forall2_impl; [by apply Hquiet|]. intros s v (Hi & Hh & Hv). by split.
  - by split.
Qed.

(** ** Debts *)
Definition still_owes (hub : Hub) (group : list byte) (s : Subscriber) : Prop :=
  ∃ s', subscribed hub group s' ∧ sub_id s' = sub_id s ∧ sender s' = sender s ∧ downgrade_owed s' = true.
Definition told (group : list byte) (before after : list Outbound) : Prop :=
  ∃ added, after = before ++ added ∧ OutFrame (downgrade_frame group) ∈ added.

Lemma told_extend group before after after' : told group before after → after `prefix_of` after' → told group before after'.
Proof.
  intros (added & -> & Hin) [more ->]. exists (added ++ more). rewrite app_assoc. split; [done|].
  apply elem_of_app. by left.
Qed.

Lemma told_later group before before' after :
  before `prefix_of` before' → told group before' after → told group before after.
Proof.
  intros [more ->] (added & -> & Hin). exists (more ++ added). rewrite app_assoc. split; [done|].
  apply elem_of_app. by right.
Qed.

Lemma deliver_debt group frame except minv s ch :
  downgrade_owed s = true →
  downgrade_owed (v_sub (fst (deliver group frame except minv s ch))) = true
  ∨ told group (cq ch) (cq (snd (deliver group frame except minv s ch))).
Proof using Type*.
  intros Ho. assert (∀ ch1 f, cq ch `prefix_of` cq ch1 → told group (cq ch) (cq ch1) →
    told group (cq ch) (cq (snd (offer f (set_owed s false) ch1)))) as Hoffer.
  { intros ch1 f _ Ht. unfold offer. destruct (ephemeral f), (undowngradable f);
      destruct (try_queue_by_cases ch1 f) as [ch2 Hq2 _ _ _| |]; cbn [snd]; try done;
      (eapply told_extend; [exact Ht|]; rewrite Hq2; by eexists). }
  assert (downgrade_owed (v_sub (fst (pay_then_offer group frame s ch))) = true
    ∨ told group (cq ch) (cq (snd (pay_then_offer group frame s ch)))) as Hpay.
  { unfold pay_then_offer. rewrite Ho.
    destruct (try_queue_by_cases ch (downgrade_frame group)) as [ch1 Hq1 _ _ _| |]; [right|left|left].
    - apply Hoffer; rewrite Hq1; [by eexists|]. eexists. split; [done|]. by apply list_elem_of_singleton.
    - by destruct (undowngradable frame).
    - done. }
  unfold deliver. repeat case_match; try by left. all: exact Hpay.
Qed.

Lemma settle_one_debt group s ch :
  downgrade_owed s = true →
  downgrade_owed (snd (fst (settle_one group ch s))) = true
  ∨ told group (cq ch) (cq (snd (settle_one group ch s))).
Proof using Type*.
  intros Ho. unfold settle_one. rewrite Ho.
  destruct (try_queue_by_cases ch (downgrade_frame group)) as [ch1 Hq1 _ _ _| |]; [right|by left..].
  exists [OutFrame (downgrade_frame group)]. split; [done|]. by apply list_elem_of_singleton.
Qed.

Lemma settle_one_grows group s ch : cq ch `prefix_of` cq (snd (settle_one group ch s)).
Proof using Type*.
  unfold settle_one. destruct (downgrade_owed s); [|done].
  destruct (try_queue_by_cases ch (downgrade_frame group)) as [ch1 Hq1 _ _ _| |]; cbn [snd]; try done.
  rewrite Hq1. by eexists.
Qed.

Lemma settle_group_grows group subs h sn :
  queued h sn `prefix_of` queued (snd (settle_group group h subs)) sn.
Proof using Type*.
  revert h. induction subs as [|s subs IH]; intros h; [done|]. cbn [settle_group].
  pose proof (settle_one_grows group s (h (sender s))) as Hone. pose proof (settle_one_sender group s (h (sender s))) as [Hse _].
  destruct (settle_one group (h (sender s)) s) as [[n s'] ch]. cbn [fst snd] in *.
  specialize (IH (<[sender s' := ch]> h)). destruct (settle_group group _ subs) as [[m subs'] h']. cbn [snd] in *.
  etrans; [|exact IH]. unfold queued. rewrite Hse. destruct (decide (sn = sender s)) as [->|Hne].
  - by rewrite fn_lookup_insert.
  - by rewrite fn_lookup_insert_ne.
Qed.

Lemma settle_group_debt group subs h s :
  s ∈ subs → downgrade_owed s = true →
  (∃ s', s' ∈ snd (fst (settle_group group h subs)) ∧ sub_id s' = sub_id s ∧ sender s' = sender s ∧ downgrade_owed s' = true)
  ∨ told group (queued h (sender s)) (queued (snd (settle_group group h subs)) (sender s)).
Proof using Type*.
  revert h. induction subs as [|s1 subs IH]; intros h Hs Ho; [by apply not_elem_of_nil in Hs|]. cbn [settle_group].
  pose proof (settle_one_debt group s1 (h (sender s1))) as Hdebt. pose proof (settle_one_sender group s1 (h (sender s1))) as [Hse Hid].
  pose proof (settle_one_grows group s1 (h (sender s1))) as Hone.
  destruct (settle_one group (h (sender s1)) s1) as [[n s1'] ch]. cbn [fst snd] in *.
  pose proof (settle_group_grows group subs (<[sender s1' := ch]> h) (sender s)) as Hgrow.
  specialize (IH (<[sender s1' := ch]> h)).
  destruct (settle_group group _ subs) as [[m subs'] h']. cbn [fst snd] in *.
  assert (queued h (sender s) `prefix_of` queued (<[sender s1' := ch]> h) (sender s)) as Hstep.
  { unfold queued. rewrite Hse. destruct (decide (sender s = sender s1)) as [->|Hne].
    - by rewrite fn_lookup_insert.
    - by rewrite fn_lookup_insert_ne. }
  apply elem_of_cons in Hs as [->|Hs].
  - destruct (Hdebt Ho) as [Hk|Ht]; [left; exists s1'; split_and!; try done; by left|].
    right. apply (told_extend _ _ (queued (<[sender s1' := ch]> h) (sender s1))); [|done].
    unfold queued. by rewrite Hse, fn_lookup_insert.
  - destruct (IH Hs Ho) as [(s' & Hs' & ? & ? & ?)|Ht].
    + left. exists s'. split_and!; try done. by right.
    + right. by eapply told_later.
Qed.

Lemma settle_grows order hub h sn : queued h sn `prefix_of` queued (snd (settle_downgrades order hub h)) sn.
Proof using Type*.
  revert hub h. induction order as [|g order IH]; intros hub h; [done|]. cbn [settle_downgrades].
  destruct (groups hub !! g) as [subs|]; [|apply IH]. pose proof (settle_group_grows g subs h sn) as Hg.
  destruct (settle_group g h subs) as [[n subs'] h1]. specialize (IH (set_groups hub (<[g := subs']> (groups hub))) h1).
  destruct (settle_downgrades order _ h1) as [[m hub'] h']. cbn [snd] in *. by etrans.
Qed.

Lemma settle_debt order hub h group s :
  subscribed hub group s → downgrade_owed s = true →
  still_owes (snd (fst (settle_downgrades order hub h))) group s
  ∨ told group (queued h (sender s)) (queued (snd (settle_downgrades order hub h)) (sender s)).
Proof using Type*.
  revert hub h s. induction order as [|g order IH]; intros hub h s Hs Ho; [left; by exists s|].
  cbn [settle_downgrades]. destruct (groups hub !! g) as [subs|] eqn:Hg; [|by apply IH].
  pose proof (λ s, settle_group_debt g subs h s) as Hdebt. pose proof (λ sn, settle_group_grows g subs h sn) as Hgrow.
  destruct (settle_group g h subs) as [[n subs'] h1]. cbn [fst snd] in *.
  set (hub1 := set_groups hub (<[g := subs']> (groups hub))). specialize (IH hub1 h1).
  pose proof (settle_grows order hub1 h1 (sender s)) as Hrest.
  assert (still_owes hub1 group s ∨ told group (queued h (sender s)) (queued h1 (sender s))) as [(s' & Hs' & Hid & Hse & Ho')|Ht].
  { destruct Hs as (l & Hl & Hin). destruct (decide (g = group)) as [->|Hne].
    - assert (l = subs) as -> by congruence. destruct (Hdebt s Hin Ho) as [(s' & Hs' & ?)|Ht]; [left|by right].
      exists s'. split; [|done]. exists subs'. cbn. by rewrite lookup_insert_eq.
    - left. exists s. split_and!; try done. exists l. cbn. by rewrite lookup_insert_ne. }
  - specialize (IH s' Hs' Ho'). destruct (settle_downgrades order hub1 h1) as [[m hub'] h']. cbn [fst snd] in *.
    destruct IH as [(s'' & ? & ? & ? & ?)|Ht].
    + left. exists s''. split_and!; try done; congruence.
    + right. rewrite Hse in Ht. eapply told_later; [apply Hgrow | exact Ht].
  - destruct (settle_downgrades order hub1 h1) as [[m hub'] h']. cbn [fst snd] in *. right. by eapply told_extend.
Qed.

Lemma fanout_debt hub h group frame except minv g s :
  hub_ok hub → subscribed hub g s → downgrade_owed s = true →
  still_owes (snd (fst (fanout_locked hub h group frame except minv))) g s
  ∨ told g (queued h (sender s)) (queued (snd (fanout_locked hub h group frame except minv)) (sender s)).
Proof using Type*.
  intros Hok (subs & Hg & Hs) Ho. unfold fanout_locked. destruct (decide (group = g)) as [->|Hne].
  - rewrite Hg. pose proof (group_ok_senders subs (Hok _ _ Hg)) as Hsn.
    pose proof (fanout_loop_each g frame except minv subs h Hsn) as Hloop.
    destruct (fanout_loop _ _ _ _ h subs) as [vs h']. destruct Hloop as (_ & _ & Heach). cbn [fst snd].
    apply list_elem_of_lookup in Hs as [i Hi]. destruct (Heach i s Hi) as (v & Hv & Heq).
    pose proof (deliver_debt g frame except minv s (h (sender s)) Ho) as Hd.
    pose proof (deliver_keeps g frame except minv s (h (sender s))) as [Hid Hse].
    rewrite <- Heq in Hd, Hid, Hse. cbn [fst snd] in *. destruct Hd as [Hk|Ht]; [left|by right].
    exists (v_sub v). split_and!; try done. exists (v_sub <$> vs). cbn [groups]. rewrite lookup_insert_eq.
    split; [done|]. apply list_elem_of_fmap. exists v. split; [done|]. by eapply list_elem_of_lookup_2.
  - left. exists s. split_and!; try done. exists subs. destruct (groups hub !! group); [|done].
    destruct (fanout_loop _ _ _ _ h _) as [vs h']. cbn [fst snd groups]. by rewrite lookup_insert_ne.
Qed.

Lemma owes_same hub hub' group s :
  groups hub' = groups hub → subscribed hub group s → downgrade_owed s = true → still_owes hub' group s.
Proof. intros Heq (l & Hl & Hs) Ho. exists s. split_and!; try done. exists l. by rewrite Heq. Qed.

Lemma owes_subscribe hub g' s' group s :
  subscribed hub group s → downgrade_owed s = true → still_owes (add_subscriber hub g' s') group s.
Proof.
  intros (l & Hl & Hs) Ho. exists s. split_and!; try done. unfold add_subscriber, subscribed.
  destruct (decide (g' = group)) as [->|Hne].
  - rewrite Hl. cbn [default]. unfold id. destruct (has_sub _ _); cbn [groups set_groups]; rewrite lookup_insert_eq; eexists; (split; [done|]); [done|].
    apply elem_of_app. by left.
  - exists l. destruct (has_sub _ _); cbn [groups set_groups]; by rewrite lookup_insert_ne.
Qed.

Lemma owes_release hub h g id replayed_to group s :
  subscribed hub group s → downgrade_owed s = true →
  still_owes (snd (fst (release_locked hub h g id replayed_to))) group s.
Proof.
  intros (l & Hl & Hs) Ho. unfold release_locked.
  destruct (groups hub !! g) as [subs|] eqn:Hg; [|by apply (owes_same hub); [|exists l|]].
  destruct (list_find _ subs) as [[i x]|] eqn:Hf; [|by apply (owes_same hub); [|exists l|]].
  destruct (held_handshakes x) as [held|]; [|by apply (owes_same hub); [|exists l|]].
  destruct (release_loop _ _ _) as [ended ch]. cbn [fst snd]. unfold still_owes, subscribed. cbn [groups set_groups].
  destruct (decide (g = group)) as [->|Hne].
  - assert (l = subs) as -> by congruence. rewrite lookup_insert_eq. apply list_elem_of_lookup in Hs as [j Hj].
    apply list_find_Some in Hf as (Hi & _ & _). destruct (decide (i = j)) as [->|Hij].
    + assert (x = s) as -> by congruence. exists (set_held s None). split_and!; try done. eexists. split; [done|].
      apply (list_elem_of_lookup_2 _ j), list_lookup_insert_eq. by eapply lookup_lt_Some.
    + exists s. split_and!; try done. eexists. split; [done|]. apply (list_elem_of_lookup_2 _ j).
      by rewrite list_lookup_insert_ne.
  - exists s. split_and!; try done. exists l. by rewrite lookup_insert_ne.
Qed.

(** A debt is discharged only by paying it. From any reachable registry,
    whatever happens next (another fanout to any group, a settling pass, a new
    subscription, a release, an eviction), a subscriber that owes the notice for
    a group still owes it, or has just had that notice queued, or is no longer
    subscribed to the group. *)
Theorem debt_discharged_by_notice h0 hub h hub' h' group s :
  rtc hub_step (hub_new, h0) (hub, h) → hub_step (hub, h) (hub', h') →
  subscribed hub group s → downgrade_owed s = true →
  still_owes hub' group s
  ∨ told group (queued h (sender s)) (queued h' (sender s))
  ∨ (∀ s', subscribed hub' group s' → sub_id s' ≠ sub_id s).
Proof using Type*.
  intros Hr Hst Hs Ho. assert (hub_ok hub) as Hok.
  { assert (∀ x y, rtc hub_step x y → hub_ok x.1 → hub_ok y.1) as Hpres
      by (induction 1; [done|]; eauto using hub_step_ok).
    apply (Hpres _ _ Hr). apply map_Forall_empty. }
  inversion Hst; subst.
  - left. by apply (owes_same hub).
  - left. by apply owes_subscribe.
  - left. by apply owes_subscribe.
  - left. by apply owes_release.
  - left. apply (owes_same hub); [|done..]. unfold identify. by destruct (existsb _ _).
  - destruct (decide (sub_id s = id)) as [Heq|Hne].
    + right. right. intros s' Hs'. apply (prune_lookup (λ x, sub_id x ≠ id)) in Hs' as [_ ?]. congruence.
    + left. exists s. split_and!; try done. by apply (prune_lookup (λ x, sub_id x ≠ id)).
  - left. by apply (owes_same hub).
  - unfold evict in *. set (hub0 := set_principals hub (delete entry_hash (principals hub))) in *.
    set (taken := default [] _) in *. pose proof (evict_fold taken hub0 h) as Hf.
    destruct (fold_left evict_one taken (hub0, h)) as [hub1 h1]. cbn [fst snd] in *.
    destruct Hf as (Hsub & _). destruct (decide (sub_id s ∈ fst <$> taken)) as [Hin|Hout].
    + right. right. intros s' [_ Hn]%Hsub Heq. by rewrite Heq in Hn.
    + left. exists s. split_and!; try done. by apply Hsub.
  - destruct (settle_debt order hub h group s Hs Ho); auto.
  - destruct (fanout_debt hub h group0 frame except minv group s Hok Hs Ho); auto.
  - left. by apply (owes_same hub').
Qed.
End fanout_proofs.

(** ** Concrete rooms *)
Definition drained : N → Channel (list Outbound * bool) Z := λ _, ListQueue.empty_channel.
Definition jammed : N → Channel (list Outbound * bool) Z := λ _, mkChannel ([], false) 0 false.
Definition lobby : list byte := [Byte.x0a].
Definition listener : Subscriber := mkSubscriber 1%N 1%N 3 false None.
Definition replaying : Subscriber := mkSubscriber 1%N 1%N 3 false (Some []).
Definition lobby_hub : Hub := subscribe hub_new lobby 1%N 1%N 3.
Definition replay_hub : Hub := subscribe_holding_handshakes hub_new lobby 1%N 1%N 3.
Definition commit (seq : Z) : Frame := Handshake lobby seq [].

Lemma hub_new_ok : hub_ok hub_new.
Proof. apply map_Forall_empty. Qed.
Lemma lobby_hub_ok : hub_ok lobby_hub.
Proof. by apply add_subscriber_ok; [apply hub_new_ok|..]. Qed.
Lemma replay_hub_ok : hub_ok replay_hub.
Proof. apply add_subscriber_ok; [apply hub_new_ok | done |]. cbn. split; [lia | constructor]. Qed.

Lemma push_never_lost_witness :
  let '(outcomes, hub', h') := fanout lobby_hub jammed lobby [Byte.x05] 7%N in
  (1%N, Downgraded) ∈ outcomes ∧ ∀ s, s ∈ [listener] → sub_id s = 7%N → h' (sender s) = jammed (sender s).
Proof.
  pose proof (push_never_lost lobby_hub jammed lobby [Byte.x05] 7%N [listener] lobby_hub_ok eq_refl) as Hp.
  assert (fst (fst (fanout lobby_hub jammed lobby [Byte.x05] 7%N)) = [(1%N, Downgraded)]) as Hout by by vm_compute.
  destruct (fanout lobby_hub jammed lobby [Byte.x05] 7%N) as [[outcomes hub'] h']. cbn [fst] in Hout.
  split; [rewrite Hout; by left|]. intros s Hs. exact (proj1 (Hp s Hs)).
Defined.

Lemma handshake_or_gone_witness :
  let '(outcomes, hub', h') := fanout_frame lobby_hub jammed lobby (commit 4) 7%N 1 in
  outcomes = [(1%N, Gone)] ∧ ∀ s', ¬ subscribed hub' lobby s'.
Proof.
  pose proof (handshake_or_gone lobby_hub jammed lobby 4 [] 7%N 1 [listener] lobby_hub_ok eq_refl) as Hp.
  cbv zeta in Hp. fold (commit 4) in Hp.
  assert (fst (fst (fanout_frame lobby_hub jammed lobby (commit 4) 7%N 1)) = [(1%N, Gone)]) as Hout by by vm_compute.
  assert (groups (snd (fst (fanout_frame lobby_hub jammed lobby (commit 4) 7%N 1))) !! lobby = None) as Hgone
    by by vm_compute.
  destruct (fanout_frame lobby_hub jammed lobby (commit 4) 7%N 1) as [[outcomes hub'] h']. cbn [fst snd] in *.
  assert (addressed 7%N 1 listener) as Ha by (split; [done | cbn; lia]).
  destruct (Hp listener ltac:(by left) Ha) as [(held & Hh & _)|[(Hin & _)|_]].
  - done.
  - rewrite Hout in Hin. by apply list_elem_of_singleton in Hin.
  - split; [done|]. intros s' (l & Hl & _). congruence.
Defined.

Definition two_held : Hub :=
  snd (fst (fanout_frame (snd (fst (fanout_frame replay_hub drained lobby (commit 3) 7%N 1))) drained lobby (commit 5) 7%N 1)).

Lemma two_held_ok : hub_ok two_held.
Proof.
  assert (groups two_held = {[ lobby := [mkSubscriber 1%N 1%N 3 false (Some [commit 3; commit 5])] ]}) as Hg by by vm_compute.
  unfold hub_ok. rewrite Hg. apply map_Forall_singleton. split_and!; [done|apply NoDup_singleton|by constructor|].
  constructor; [|done]. cbn. unfold MAX_HELD_HANDSHAKES. split; [lia | by repeat constructor].
Qed.

Lemma release_in_order_witness :
  queued (snd (release_handshakes two_held drained lobby 1%N 4)) 1%N = [OutFrame (commit 5)]
  ∧ let '(hub', h') := release_handshakes two_held drained lobby 1%N 4 in
    ∃ sent rest, filter (λ f, 4 ≤ frame_seq f) [commit 3; commit 5] = sent ++ rest
      ∧ queued h' 1%N = queued drained 1%N ++ (OutFrame <$> sent)
      ∧ ((rest = [] ∧ subscribed hub' lobby (mkSubscriber 1%N 1%N 3 false None))
         ∨ (is_evicted h' 1%N = true ∧ ∀ g s', subscribed hub' g s' → sub_id s' ≠ 1%N)).
Proof.
  split; [by vm_compute|].
  refine (release_in_order two_held drained lobby 4 [mkSubscriber 1%N 1%N 3 false (Some [commit 3; commit 5])]
    (mkSubscriber 1%N 1%N 3 false (Some [commit 3; commit 5])) [commit 3; commit 5] two_held_ok _ _ _ _ _).
  - by vm_compute.
  - by left.
  - done.
  - repeat constructor.
  - repeat constructor.
Defined.

Definition owing_hub : Hub := snd (fst (fanout_locked lobby_hub jammed lobby (Push [Byte.x05]) 7%N 1)).

Lemma owing_reachable :
  rtc (hub_step (C := list Outbound * bool) (P := Z)) (hub_new, jammed)
    (owing_hub, snd (fanout_locked lobby_hub jammed lobby (Push [Byte.x05]) 7%N 1)).
Proof. eapply rtc_l; [apply hub_subscribe|]. eapply rtc_l; [apply hub_fanout|]. apply rtc_refl. Qed.

Lemma debt_discharged_witness :
  still_owes owing_hub lobby (set_owed listener true)
  ∨ told lobby (queued (snd (fanout_locked lobby_hub jammed lobby (Push [Byte.x05]) 7%N 1)) 1%N) (queued drained 1%N)
  ∨ (∀ s', subscribed owing_hub lobby s' → sub_id s' ≠ 1%N).
Proof.
  refine (debt_discharged_by_notice jammed owing_hub (snd (fanout_locked lobby_hub jammed lobby (Push [Byte.x05]) 7%N 1))
    owing_hub drained lobby (set_owed listener true) owing_reachable (hub_queues _ _ _) _ eq_refl).
  exists [set_owed listener true]. split; [by vm_compute | by left].
Defined.

(** A release does not look at the debt: a subscriber that owes the notice for
    an envelope it missed during its replay is given the held handshake first,
    and still owes the notice afterwards. *)
Theorem release_skips_owed_notice :
  let missed := snd (fst (fanout_frame replay_hub jammed lobby (Push [Byte.x05]) 7%N 1)) in
  let held := snd (fst (fanout_frame missed jammed lobby (commit 3) 7%N 1)) in
  let after := release_handshakes held drained lobby 1%N 0 in
  queued (snd after) 1%N = [OutFrame (commit 3)] ∧ downgrades_owed (fst after) = 1%nat.
Proof. by vm_compute. Qed.

Definition known_hub : Hub := identify lobby_hub [Byte.x0e] 1%N 1%N.

Lemma evict_total_witness :
  let '(count, hub', h') := evict known_hub drained [Byte.x0e] in
  count = 1%nat ∧ connections_for hub' [Byte.x0e] = 0%nat.
Proof.
  pose proof (evict_total known_hub drained [Byte.x0e]) as Ht. cbv zeta in Ht.
  assert (length (default [] (principals known_hub !! [Byte.x0e])) = 1%nat) as Hl by by vm_compute.
  destruct (evict known_hub drained [Byte.x0e]) as [[count hub'] h'].
  destruct Ht as (Hc & Hz & _). rewrite Hl in Hc. split; assumption.
Defined.
