(* ===== verification/Sync.v ===== *)
(** * Reading the log back: [log.rs] and [sync.rs]

    The reads of the envelope log ([items], [envelope_bytes], [envelopes_for],
    [since]) over the tables of [Accept], [head_seq] of [ws.rs], and the two
    operations that answer from them: [reconcile], which composes the reads with
    [Reconcile.respond] and cuts the answer to what the connection's queue will
    take, and [backfill], the part of [subscribe] after the handshake replay.
    [deliver] is the live push of an accepted envelope.

    A handler reads the tables twice and measures the queue twice, with other
    tasks running between, so each read and each measurement is an argument of
    its own.

    The theorems: what [SEND] stored is what every reader gets, live or later,
    and it still verifies; the answer to a [RECON] fits the queue it was
    measured against and leaves a range open for every id it omits; reading from
    the unsettled floor answers as reading everything would. *)

From stdpp Require Import base tactics numbers gmap sets fin_maps functions relations sorting list.
From S2P Require Import Prelude Cbor Crypto Push Frame Envelope Accept Handshake Negentropy Reconcile Queue Hub.

Open Scope Z_scope.

Definition MAX_ITEMS_PER_RECONCILE : Z := 100000.
Definition MAX_BACKFILL : Z := 4096.
Definition SYNC_PUSH_LIMIT : nat := (SEND_QUEUE_BOUND - 1)%nat.
Definition SYNC_PUSH_BYTES : Z := SEND_QUEUE_BYTE_BUDGET - MAX_FRAME_BYTES.

(** ** The reads *)
Abbreviation LogRow := (list byte * EnvelopeRow)%type.

Definition row_le (a b : LogRow) : Prop := r_seq a.2 ≤ r_seq b.2.
#[global] Instance row_le_dec : RelDecision row_le.
Proof. intros a b. unfold row_le. apply _. Defined.
#[global] Instance row_le_total : Total row_le.
Proof. intros a b. unfold row_le. lia. Qed.
#[global] Instance row_le_trans : Transitive row_le.
Proof. intros a b c. unfold row_le. lia. Qed.

(** [where group_id = $1 and seq >= $2 order by seq asc]: the hash and the row. *)
Definition group_log (s : Store) (group : list byte) : list LogRow :=
  omap (λ e : (GroupId * list byte) * EnvelopeRow, if decide (e.1.1 = group) then Some (e.1.2, e.2) else None)
    (map_to_list (envelopes s)).
Definition rows_from (s : Store) (group : list byte) (from_seq : Z) : list LogRow :=
  merge_sort row_le (filter (λ e : LogRow, i64_or_max from_seq ≤ r_seq e.2) (group_log s group)).

(** [u64::try_from(z).unwrap_or_default()] of an [i64]. *)
Definition u64_or_default (z : Z) : Z := if 0 <=? z then z else 0.

Definition row_to_item (e : LogRow) : Item := mkItem (u64_or_default (r_seq e.2)) (id_from_slice e.1).

Definition items (s : Store) (group : list byte) (from_seq : Z) : list Item :=
  row_to_item <$> take (Z.to_nat MAX_ITEMS_PER_RECONCILE) (rows_from s group from_seq).

(** [u8::try_from(v).unwrap_or(VERSION)]; the encryption column holds 0 or 1. *)
Definition encode_row (group : list byte) (hash : list byte) (r : EnvelopeRow) : list byte :=
  envelope_encode (mkEnvelope (if (0 <=? r_v r) && (r_v r <=? 255) then r_v r else VERSION) (r_enc r) group
    (u64_or_default (r_epoch r)) (u64_or_default (r_seq r)) (u64_or_default (r_ts r)) hash (r_ct r)).

Definition envelope_bytes (s : Store) (group hash : list byte) : option (list byte) :=
  encode_row group hash <$> envelopes s !! (group, hash).

(** Each id once, in the order asked for; [found] is the map the rows build. *)
Fixpoint take_found (found : gmap Id (list byte)) (ids : list Id) : list (Id * list byte) :=
  match ids with
  | [] => []
  | i :: ids =>
      match found !! i with
      | Some envelope => (i, envelope) :: take_found (delete i found) ids
      | None => take_found found ids
      end
  end.
Definition envelopes_for (s : Store) (group : list byte) (ids : list Id) : list (Id * list byte) :=
  take_found
    (foldr (λ (e : LogRow) m, if decide (e.1 ∈ ids) then <[id_from_slice e.1 := encode_row group e.1 e.2]> m else m)
       ∅ (group_log s group)) ids.

(** The stream, stopped once the allowance is passed. *)
Fixpoint until_spent (max_bytes spent : Z) (encoded : list (list byte)) : list (list byte) :=
  match encoded with
  | [] => []
  | bs :: rest =>
      let spent := spent + len bs in
      bs :: (if max_bytes <? spent then [] else until_spent max_bytes spent rest)
  end.
Definition since (s : Store) (group : list byte) (from_seq : Z) (max_rows : nat) (max_bytes : Z) : list (list byte) :=
  let limit := Z.min (Z.of_nat max_rows) MAX_BACKFILL in
  if limit =? 0 then []
  else until_spent max_bytes 0
    ((λ e : LogRow, encode_row group e.1 e.2) <$> take (Z.to_nat limit) (rows_from s group from_seq)).

(** What a handler's query finds: no database configured, a read that failed,
    or the tables as they stood. *)
Inductive Database :=
  | NoDatabase
  | Unreadable
  | Tables (s : Store).

(** [head_seq] of [ws.rs]; [None] is a head that could not be read. *)
Definition head_seq (db : Database) (group : list byte) : option Z :=
  match db with
  | NoDatabase => Some 0
  | Unreadable => None
  | Tables s => Some (u64_or_default (foldr (λ (e : LogRow) m, Z.max (r_seq e.2) m) 0 (group_log s group)))
  end.

(** ** Cutting an answer to the queue *)
Fixpoint fits_loop {A} (cost : A → Z) (allowance spent : Z) (taken : nat) (l : list A) : nat :=
  match l with
  | [] => taken
  | x :: l =>
      let next := spent + cost x in
      if (0 <? taken)%nat && (allowance <? next) then taken else fits_loop cost allowance next (S taken) l
  end.
Definition fits_in_budget {A} (l : list A) (allowance : Z) (cost : A → Z) : nat :=
  if allowance =? 0 then 0%nat else fits_loop cost allowance 0 0 l.

Definition push_cost (envelope : list byte) : Z := queued_bytes (Frame.Push []) + len envelope.

Section allowance.
Context {C P : Type} `{MpscLaws C, SemaphoreLaws P}.
Implicit Types ch : Channel C P.

Definition push_frame_allowance ch : nat := Nat.min (free_slots ch - 1) SYNC_PUSH_LIMIT.
Definition push_byte_allowance ch : Z :=
  Z.min (Z.max 0 (Z.max 0 (SEND_QUEUE_BYTE_BUDGET - channel_queued_bytes ch) - MAX_FRAME_BYTES)) SYNC_PUSH_BYTES.

(** [queue_all]. *)
Fixpoint queue_all ch (frames : list Frame) : bool * Channel C P :=
  match frames with
  | [] => (true, ch)
  | f :: frames =>
      match try_queue ch f with
      | (QSent, ch) => queue_all ch frames
      | (_, ch) => (false, ch)
      end
  end.
End allowance.

(** ** One round of reconciliation *)
Definition reopen_range `{Blake3} (local : list Item) (omitted : gset Id) (m : Message) (s : Z * Z * Mode) : Message :=
  let '(lower, up, _) := s in
  let mine := items_in local lower up in
  if existsb (λ i, bool_decide (id i ∈ omitted)) mine
  then mkMessage ((λ r, if upper r =? up then mkRange up (Fingerprint (fingerprint mine)) else r) <$> ranges m)
  else m.
Definition reopen_omitted `{Blake3} (rep incoming : Message) (local : list Item) (omitted : list Id) : Message :=
  match omitted with
  | [] => rep
  | _ :: _ => fold_left (reopen_range local (list_to_set omitted)) (spans incoming) rep
  end.

Fixpoint floor_from (lower : Z) (rs : list Range) : Z :=
  match rs with
  | [] => lower
  | r :: rs => match mode r with Skip => floor_from (upper r) rs | _ => lower end
  end.
Definition unsettled_floor (incoming : Message) : Z := floor_from 0 (ranges incoming).

Section sync.
Context {C P : Type} `{MpscLaws C, SemaphoreLaws P} `{Blake3}.
Implicit Types ch : Channel C P.

(** The frames of an answer: the queue as first measured, what the second read
    returned, and the queue as measured again. *)
Definition recon_frames ch1 ch2 (local : list Item) (fetched : list Id → list (Id * list byte))
    (group : list byte) (incoming : Message) : list Frame :=
  let response := respond local incoming in
  let asked := take (push_frame_allowance ch1) (push response) in
  let omitted := drop (push_frame_allowance ch1) (push response) in
  let found := fetched asked in
  let sendable := Nat.min (fits_in_budget found (push_byte_allowance ch2) (λ e, push_cost e.2))
                    (push_frame_allowance ch2) in
  let omitted := omitted ++ (fst <$> drop sendable found) in
  ((λ e, Frame.Push e.2) <$> take sendable found)
    ++ [Frame.Recon group (message_encode (reopen_omitted (reply response) incoming local omitted))].

(** [reconcile]: the database as its two reads find it. *)
Definition reconcile ch1 ch2 (db1 db2 : Database) (group payload : list byte) : bool * Channel C P :=
  match message_decode payload with
  | Err e => queue_all ch1 [Frame.Error (FrameError_new (recon_error_code e))]
  | Ok incoming =>
      match db1, db2 with
      | Tables s1, Tables s2 =>
          queue_all ch2 (recon_frames ch1 ch2 (items s1 group (unsettled_floor incoming))
                           (envelopes_for s2 group) group incoming)
      | Tables _, _ => queue_all ch2 [Frame.Error (FrameError_new Backpressure)]
      | _, _ => queue_all ch1 [Frame.Error (FrameError_new Backpressure)]
      end
  end.

(** [subscribe], up to registration: the acknowledgement, or the refusal to
    name a head that was not read. *)
Definition sub_ack (db : Database) (group : list byte) (from_seq : Z) : Frame :=
  match head_seq db group with
  | Some head => SubAck group (Z.max head from_seq)
  | None => Frame.Error (FrameError_new Backpressure)
  end.

(** [subscribe], after the handshake replay: the envelopes from the cursor. *)
Definition backfill ch1 ch2 (db : Database) (group : list byte) (from_seq : Z) : bool * Channel C P :=
  match db with
  | NoDatabase => (true, ch1)
  | Unreadable => queue_all ch2 [Frame.Error (FrameError_new Backpressure)]
  | Tables s =>
      let envelopes := take (push_frame_allowance ch1)
        (since s group from_seq (push_frame_allowance ch1) (push_byte_allowance ch1)) in
      let sendable := Nat.min (fits_in_budget envelopes (push_byte_allowance ch2) push_cost) (push_frame_allowance ch2) in
      queue_all ch2 (Frame.Push <$> take sendable envelopes)
  end.

(** [deliver]: the live push of an accepted envelope. *)
Definition delivered (e : Envelope) (seq now_ms : Z) : Envelope :=
  mkEnvelope (env_v e) (env_enc e) (env_group e) (env_epoch e) seq now_ms (env_hash e) (env_ct e).
Definition deliver (hub : Hub) (h : N → Channel C P) (e : Envelope) (seq now_ms : Z) (from : ConnectionId) :
    list (ConnectionId * Delivery) * Hub * (N → Channel C P) :=
  fanout hub h (env_group e) (envelope_encode (delivered e seq now_ms)) from.
End sync.

(** ** What was sent is what is read *)
Section stored.
Context `{Blake3Width} (config : Config).

Lemma u64_or_default_id z : 0 ≤ z → u64_or_default z = z.
Proof. intros Hz. unfold u64_or_default. by rewrite (proj2 (Z.leb_le _ _)). Qed.

(** The row an accepted envelope becomes. *)
Definition row_for (e : Envelope) (q now : Z) : EnvelopeRow :=
  mkEnvelopeRow (env_v e) (env_enc e) (u64_as_i64 (env_epoch e)) q (u64_as_i64 now) (env_ct e).

Lemma encode_row_for e q now :
  envelope_wf e → env_epoch e ≤ I64_MAX → 0 ≤ q → 0 ≤ now ≤ I64_MAX →
  encode_row (env_group e) (env_hash e) (row_for e q now) = envelope_encode (delivered e q now).
Proof.
  intros (Hv & _ & He & _) Hi Hq Hn. unfold encode_row, row_for, delivered.
  cbn [r_v r_enc r_epoch r_seq r_ts r_ct]. unfold is_u8 in Hv. rewrite (proj2 (Z.leb_le 0 _)), (proj2 (Z.leb_le _ 255)) by (unfold U8_MAX in *; lia).
  cbn [andb]. rewrite (u64_as_i64_small (env_epoch e)), (u64_as_i64_small now) by lia.
  rewrite !u64_or_default_id by (unfold is_u64 in *; lia). reflexivity.
Qed.

Lemma accepted_row s e now q s1 :
  store_sound s → accept config s e now = (Ok (Accept.Stored q), s1) →
  envelopes s1 !! (env_group e, env_hash e) = Some (row_for e q now)
  ∧ validate e (min_encryption config) = Ok tt ∧ 1 ≤ q.
Proof.
  intros (others & _ & Hok) Ha. unfold accept in Ha. destruct (write_mode config); [|done].
  destruct (validate e (min_encryption config)) as [[]|] eqn:Hv; [|done].
  destruct (existing_seq s _ _); [done|].
  destruct (accept_tx_cases config _ s e now Hok)
    as [[err Heq]|[(r & _ & Heq)|(row & Hg & _ & _ & _ & Heq)]]; rewrite Heq in Ha; [done..|].
  injection Ha as <- <-. cbn [envelopes]. rewrite lookup_insert_eq. split_and!; [done..|]. by apply (ok_groups Hok _ _ Hg).
Qed.

(** C37. What a member sends is what every other member gets, live or later.
    Where the envelope's epoch, the clock and the number it got fit a signed
    64-bit column, the bytes pushed at the moment of acceptance are the bytes
    every later read of the log returns until the row is compacted away, commits
    to the handshake log included; they decode to the envelope sent, with the
    relay's number and clock, and it still verifies against its own content
    address. (An epoch past that width is stored as a negative number and read
    back as zero: [far_epoch_served_broken].) *)
Theorem stored_envelope_served s e now q s1 s2 :
  reachable_log config s → envelope_wf e → accept config s e now = (Ok (Accept.Stored q), s1) →
  rtc (keeps config (env_group e, env_hash e)) s1 s2 →
  env_epoch e ≤ I64_MAX → 0 ≤ now ≤ I64_MAX → q ≤ I64_MAX →
  envelope_bytes s2 (env_group e) (env_hash e) = Some (envelope_encode (delivered e q now))
  ∧ envelope_decode (envelope_encode (delivered e q now)) = Ok (delivered e q now)
  ∧ validate (delivered e q now) (min_encryption config) = Ok tt.
Proof using Type*.
  intros Hr Hwf Ha Hs He Hn Hq. apply reachable_store_sound in Hr as Hok.
  destruct (accepted_row s e now q s1 Hok Ha) as (Hrow & Hv & Hpos).
  pose proof (accept_sound config s e now Hok) as Hok1. rewrite Ha in Hok1. cbn [snd] in Hok1.
  pose proof (keeps_rows config _ _ _ _ Hok1 Hs Hrow) as Hrow2. unfold envelope_bytes. rewrite Hrow2. cbn [fmap option_fmap option_map].
  rewrite encode_row_for by (done || lia). split_and!; [done| |exact Hv].
  apply (parse_encode EnvelopeCbor envelope_wf envelope_encode _ (delivered e q now)).
  destruct Hwf as (Hw1 & Hw2 & Hw3 & _ & _ & Hw6 & Hw7). unfold envelope_wf, delivered.
  cbn [env_v env_enc env_group env_epoch env_seq env_ts env_hash env_ct].
  split_and!; try done; try apply Hw1; try apply Hw3; unfold is_u64, U64_MAX, I64_MAX in *; lia.
Qed.
End stored.

(** ** The answer fits the queue *)
Lemma fits_loop_spec {A} (cost : A → Z) allowance l spent taken :
  (∀ x, 0 ≤ cost x) →
  let k := (fits_loop cost allowance spent taken l - taken)%nat in
  (taken ≤ fits_loop cost allowance spent taken l ≤ taken + length l)%nat
  ∧ (spent + zsum cost (take k l) ≤ allowance ∨ (taken + k ≤ 1)%nat ∨ k = 0%nat).
Proof.
  intros Hc. revert spent taken. induction l as [|x l IH]; intros spent taken; cbn [fits_loop]; [cbn; lia|].
  destruct ((0 <? taken)%nat && (allowance <? spent + cost x)) eqn:Hstop; [cbn [length]; lia|].
  specialize (IH (spent + cost x) (S taken)). cbv zeta in IH. destruct IH as [Hb Hk].
  set (f := fits_loop cost allowance (spent + cost x) (S taken) l) in *. split; [cbn [length]; lia|].
  replace (f - taken)%nat with (S (f - S taken)) by lia. cbn [take]. rewrite zsum_cons.
  destruct Hk as [Hk|[Hk|Hk]]; [left; lia|lia|].
  rewrite Hk. cbn [take zsum foldr]. destruct taken as [|taken]; [right; left; lia|]. 
  apply andb_false_iff in Hstop as [Hstop|Hstop]; [done|]. apply Z.ltb_ge in Hstop. left. rewrite take_0. unfold zsum. cbn [foldr]. lia.
Qed.

Lemma zsum_take_le {A} (cost : A → Z) (l : list A) j k :
  (∀ x, 0 ≤ cost x) → (j ≤ k)%nat → zsum cost (take j l) ≤ zsum cost (take k l).
Proof.
  intros Hc. revert j k. induction l as [|x l IH]; intros [|j] [|k] Hjk; try (cbn; lia).
  - cbn [take]. apply zsum_nonneg. done.
  - cbn [take]. rewrite !zsum_cons. specialize (IH j k ltac:(lia)). lia.
Qed.

(** No prefix the cut allows passes the allowance, if no single item does. *)
Lemma fits_in_budget_sum {A} (cost : A → Z) allowance l j :
  (∀ x, 0 ≤ cost x) → 0 ≤ allowance → Forall (λ x, cost x ≤ allowance) l →
  (j ≤ fits_in_budget l allowance cost)%nat → zsum cost (take j l) ≤ allowance.
Proof.
  intros Hc Ha Hall Hj. unfold fits_in_budget in Hj. destruct (Z.eqb_spec allowance 0) as [->|Hne].
  { assert (j = 0%nat) as -> by lia. by rewrite take_0. }
  pose proof (fits_loop_spec cost allowance l 0 0 Hc) as [Hb Hk]. rewrite Nat.sub_0_r in Hk.
  set (f := fits_loop cost allowance 0 0 l) in *. pose proof (zsum_take_le cost l j f Hc Hj).
  destruct Hk as [Hk|Hk]; [lia|]. assert (f ≤ 1)%nat as Hf by lia.
  destruct l as [|x l]; [by rewrite take_nil|]. apply Forall_cons in Hall as [Hx _].
  assert (zsum cost (take f (x :: l)) ≤ zsum cost (take 1 (x :: l))) by (apply zsum_take_le; [done|lia]).
  assert (zsum cost (take 1 (x :: l)) = cost x) by (cbn [take]; rewrite take_0, zsum_cons; unfold zsum; cbn [foldr]; lia). lia.
Qed.

Section fit.
Context {C P : Type} `{MpscLaws C, SemaphoreLaws P}.
Implicit Types ch : Channel C P.

Lemma queue_all_room frames ch :
  mpsc_is_closed (inner ch) = false → (length frames ≤ free_slots ch)%nat →
  zsum permits_for frames ≤ available_permits (budget ch) →
  ∃ ch', queue_all ch frames = (true, ch')
    ∧ mpsc_queue (inner ch') = mpsc_queue (inner ch) ++ (OutFrame <$> frames).
Proof using Type*.
  revert ch. induction frames as [|f frames IH]; intros ch Hc Hn Hs; cbn [queue_all].
  { exists ch. by rewrite app_nil_r. }
  rewrite zsum_cons in Hs. pose proof (zsum_nonneg permits_for frames (λ f, proj1 (permits_for_bounds f))).
  unfold free_slots in *. cbn [length] in Hn. unfold try_queue.
  assert (permits_for f ≤ available_permits (budget ch)) as Hle by lia.
  assert (length (mpsc_queue (inner ch)) < SEND_QUEUE_BOUND)%nat as Hlt by lia.
  destruct (acquire_some _ _ Hle) as (p' & -> & Hp).
  destruct (send_room (inner ch) (OutFrame f) Hc Hlt) as (c' & -> & Hq & Hc').
  destruct (IH (mkChannel c' p' (evicted ch))) as (ch' & -> & Hq'); cbn [inner budget]; try done; try lia.
  { rewrite Hq, length_app. cbn [length]. lia. }
  exists ch'. split; [done|]. rewrite Hq'. cbn [inner]. rewrite Hq, <- app_assoc. done.
Qed.

Lemma push_byte_allowance_nonneg ch : 0 ≤ push_byte_allowance ch.
Proof. unfold push_byte_allowance. assert (0 ≤ SYNC_PUSH_BYTES) by (by vm_compute). lia. Qed.

Lemma permits_for_push envelope : permits_for (Frame.Push envelope) ≤ push_cost envelope.
Proof. unfold permits_for, push_cost, queued_bytes, OVERHEAD, len. cbn. lia. Qed.

Lemma push_cost_nonneg envelope : 0 ≤ push_cost envelope.
Proof. unfold push_cost, queued_bytes, OVERHEAD, len. cbn. lia. Qed.

Lemma zsum_permits_push (l : list (list byte)) : zsum permits_for (Frame.Push <$> l) ≤ zsum push_cost l.
Proof.
  induction l as [|x l IH]; [done|]. rewrite fmap_cons, !zsum_cons. pose proof (permits_for_push x). lia.
Qed.

Lemma zsum_app {A} (f : A → Z) l k : zsum f (l ++ k) = zsum f l + zsum f k.
Proof. induction l as [|x l IH]; [done|]. rewrite <- app_comm_cons, !zsum_cons. lia. Qed.
Context `{Blake3}.

(** An answer never closes the socket of a client that reads: measured
    against a queue with a slot free and a frame's bytes in reserve, with no
    single envelope over what is left, every push of the answer and the [RECON]
    that closes it are queued, in order, behind what was there. *)
Theorem recon_answer_fits ch1 ch2 local fetched group incoming :
  mpsc_is_closed (inner ch2) = false → (1 ≤ free_slots ch2)%nat →
  channel_queued_bytes ch2 + MAX_FRAME_BYTES ≤ SEND_QUEUE_BYTE_BUDGET → 0 ≤ channel_queued_bytes ch2 →
  Forall (λ e, push_cost e.2 ≤ push_byte_allowance ch2)
    (fetched (take (push_frame_allowance ch1) (push (respond local incoming)))) →
  Forall (λ f, match f with Frame.Recon _ _ => permits_for f ≤ MAX_FRAME_BYTES | _ => True end)
    (recon_frames ch1 ch2 local fetched group incoming) →
  ∃ ch', queue_all ch2 (recon_frames ch1 ch2 local fetched group incoming) = (true, ch')
    ∧ mpsc_queue (inner ch') = mpsc_queue (inner ch2) ++ (OutFrame <$> recon_frames ch1 ch2 local fetched group incoming).
Proof using Type*.
  intros Hc Hslot Hroom Hnn Hall Hrecon. unfold recon_frames in *.
  set (found := fetched (take (push_frame_allowance ch1) (push (respond local incoming)))) in *.
  set (sendable := Nat.min (fits_in_budget found (push_byte_allowance ch2) (λ e, push_cost e.2)) (push_frame_allowance ch2)) in *.
  apply Forall_app in Hrecon as [_ Hrecon]. rewrite Forall_singleton in Hrecon.
  set (closing := Frame.Recon _ _) in *. apply queue_all_room; [done| |].
  - rewrite length_app, length_fmap, length_take. cbn [length]. unfold sendable, push_frame_allowance. lia.
  - rewrite zsum_app. pose proof (fits_in_budget_sum (λ e : Id * list byte, push_cost e.2) (push_byte_allowance ch2) found sendable
      (λ e, push_cost_nonneg e.2) (push_byte_allowance_nonneg ch2)
      Hall (Nat.le_min_l _ _)) as Hsum.
    pose proof (zsum_permits_push (snd <$> take sendable found)) as Hp. rewrite !zsum_fmap in Hp.
    assert (zsum permits_for [closing] = permits_for closing) as -> by (unfold zsum; cbn; lia).
    unfold push_byte_allowance in Hsum.
    assert (available_permits (budget ch2) = SEND_QUEUE_BYTE_BUDGET - channel_queued_bytes ch2) as ->
      by (unfold channel_queued_bytes; lia).
    assert (permits_for closing ≤ MAX_FRAME_BYTES) as Hcl by exact Hrecon.
    assert (0 ≤ MAX_FRAME_BYTES) by (by vm_compute). rewrite zsum_fmap. lia.
Qed.
End fit.

(** ** What an answer leaves open *)
Section open_ranges.
Context `{Blake3Width}.

Lemma spans_from_bounds lo rs s :
  0 ≤ lo → Forall range_wf rs → s ∈ spans_from lo rs → 0 ≤ s.1.1 ∧ is_u64 s.1.2.
Proof.
  revert lo. induction rs as [|r rs IH]; intros lo Hlo Hwf Hs; [by apply elem_of_nil in Hs|].
  apply Forall_cons in Hwf as [[Hu _] Hwf]. cbn [spans_from] in Hs. apply elem_of_cons in Hs as [->|Hs].
  - by split.
  - by apply (IH (upper r)); [apply Hu| |].
Qed.

Lemma spans_from_uppers lo rs : (λ s : Z * Z * Mode, s.1.2) <$> spans_from lo rs = upper <$> rs.
Proof. revert lo. induction rs as [|r rs IH]; intros lo; [done|]. cbn [spans_from]. by rewrite !fmap_cons, IH. Qed.

Lemma covers_uppers lo rs : covers lo rs → NoDup (upper <$> rs) ∧ Forall (λ r, from_option (λ p, p < upper r) True lo) rs.
Proof.
  revert lo. induction rs as [|r rs IH]; intros lo Hc; [by repeat constructor|]. destruct Hc as [Hlt Hc].
  destruct (IH _ Hc) as [Hn Hf]. cbn [from_option] in Hf. rewrite fmap_cons. split.
  - constructor; [|done]. intros (r' & Heq & Hr')%list_elem_of_fmap. rewrite Forall_forall in Hf.
    specialize (Hf r' Hr'). cbn in Hf. lia.
  - constructor; [by destruct lo|]. eapply Forall_impl; [exact Hf|]. cbn. destruct lo; cbn in *; [lia|done].
Qed.

Lemma answer_reaches_upper local lo up budget seg :
  answer_ok local lo up budget seg → ∃ r, r ∈ seg ∧ upper r = up.
Proof.
  intros [Hb _ _ _]. destruct Hb as [[Hne Hc]|[m ->]]; [|by exists (mkRange up m); split; [apply list_elem_of_here|]].
  revert lo Hc. induction seg as [|r seg IH]; intros lo Hc; [done|]. destruct Hc as [_ Hc].
  destruct seg as [|r' seg].
  - exists r. split; [apply list_elem_of_here|done].
  - destruct (IH ltac:(done) _ Hc) as (r0 & Hr0 & Hu). exists r0. split; [by apply list_elem_of_further|done].
Qed.

Lemma reply_reaches_upper local incoming lo up m :
  local_ok local → message_wf incoming → (lo, up, m) ∈ spans incoming →
  ∃ r, r ∈ ranges (reply (respond local incoming)) ∧ upper r = up.
Proof using Type*.
  intros Hl (Hwf & _) Hs. destruct (spans_from_bounds 0 (ranges incoming) (lo, up, m) ltac:(lia) Hwf Hs) as [Hlo Hup].
  unfold respond. destruct (elem_of_round_ranges (respond_span local) (∪) (spans incoming) [] ∅) as (outs & Hss & ->).
  cbn [reply ranges]. rewrite app_nil_l. rewrite <- Hss in Hs. apply list_elem_of_fmap in Hs as ([b s] & Heq & Hin).
  cbn in Heq. subst s. destruct (answer_reaches_upper _ _ _ _ _ (respond_span_ok local b lo up m Hl Hlo Hup)) as (r & Hr & Hu).
  exists r. split; [|done]. apply list_elem_of_In, in_concat. eexists. split; [|by apply list_elem_of_In].
  apply in_map_iff. exists (b, (lo, up, m)). split; [done|]. by apply list_elem_of_In.
Qed.

(** Reopening one span leaves the ranges of every other one alone. *)
Lemma reopen_range_other local omitted m s r :
  upper r ≠ s.1.2 → r ∈ ranges m → r ∈ ranges (reopen_range local omitted m s).
Proof.
  destruct s as [[lo up] md]. cbn [fst snd reopen_range]. intros Hne Hr. destruct (existsb _ _); [|done].
  cbn [ranges]. apply list_elem_of_fmap. exists r. by rewrite (proj2 (Z.eqb_neq _ _)).
Qed.

Lemma reopen_fold_other local omitted ss m r :
  Forall (λ s : Z * Z * Mode, s.1.2 ≠ upper r) ss → r ∈ ranges m →
  r ∈ ranges (fold_left (reopen_range local omitted) ss m).
Proof.
  revert m. induction ss as [|s ss IH]; intros m Hss Hr; [done|]. apply Forall_cons in Hss as [Hs Hss].
  apply IH; [done|]. by apply reopen_range_other; [apply not_eq_sym|].
Qed.

Lemma reopen_range_uppers local omitted m s :
  upper <$> ranges (reopen_range local omitted m s) = upper <$> ranges m.
Proof.
  destruct s as [[lo up] md]. cbn [reopen_range]. destruct (existsb _ _); [|done]. cbn [ranges].
  rewrite <- list_fmap_compose. apply list_fmap_ext. intros i r _. cbn. by destruct (Z.eqb_spec (upper r) up).
Qed.

Lemma reopen_fold_uppers local omitted ss m :
  upper <$> ranges (fold_left (reopen_range local omitted) ss m) = upper <$> ranges m.
Proof. revert m. induction ss as [|s ss IH]; intros m; [done|]. cbn [fold_left]. by rewrite IH, reopen_range_uppers. Qed.

Lemma reopen_fold_opens local omitted ss m lo up md :
  NoDup ((λ s : Z * Z * Mode, s.1.2) <$> ss) → (lo, up, md) ∈ ss →
  (∃ i, i ∈ items_in local lo up ∧ id i ∈ omitted) → (∃ r, r ∈ ranges m ∧ upper r = up) →
  mkRange up (Fingerprint (fingerprint (items_in local lo up)))
    ∈ ranges (fold_left (reopen_range local omitted) ss m).
Proof.
  revert m. induction ss as [|s ss IH]; intros m Hn Hs Hi Hr; [by apply elem_of_nil in Hs|].
  rewrite fmap_cons in Hn. apply NoDup_cons in Hn as [Hnot Hn]. cbn [fold_left]. apply elem_of_cons in Hs as [<-|Hs].
  - apply reopen_fold_other.
    + apply Forall_forall. intros s' Hs' Heq. apply Hnot. apply list_elem_of_fmap. exists s'. by split.
    + destruct Hr as (r & Hr & Hu). cbn [reopen_range].
      assert (existsb (λ i, bool_decide (id i ∈ omitted)) (items_in local lo up) = true) as ->.
      { apply existsb_exists. destruct Hi as (i & Hi & Ho). exists i. split; [by apply list_elem_of_In|by apply bool_decide_eq_true]. }
      cbn [ranges]. apply list_elem_of_fmap. exists r. by rewrite Hu, Z.eqb_refl.
  - apply IH; try done. destruct Hr as (r & Hr & Hu).
    assert (up ∈ upper <$> ranges (reopen_range local omitted m s)) as Hup.
    { rewrite reopen_range_uppers. apply list_elem_of_fmap. by exists r. }
    apply list_elem_of_fmap in Hup as (r' & -> & Hr'). by exists r'.
Qed.

(** Nothing the relay could not send is taken for settled: whatever ids an
    answer leaves out for want of slots or bytes, the range of the span each of
    them lies in comes back as a fingerprint, so the answer is not settled and
    the client asks again; the bounds of the answer's ranges are unchanged. *)
Theorem omitted_ranges_stay_open local incoming omitted x :
  local_ok local → message_wf incoming → x ∈ omitted → x ∈ push (respond local incoming) →
  let m := reopen_omitted (reply (respond local incoming)) incoming local omitted in
  is_settled m = false ∧ upper <$> ranges m = upper <$> ranges (reply (respond local incoming))
  ∧ ∃ lo up ids, (lo, up, IdList ids) ∈ spans incoming ∧ x ∈ ids_of (items_in local lo up)
      ∧ mkRange up (Fingerprint (fingerprint (items_in local lo up))) ∈ ranges m.
Proof using Type*.
  intros Hl Hwf Hx Hpush m. apply elem_of_push in Hpush as (lo & up & ids & Hs & Hin & Hnot).
  assert (m = fold_left (reopen_range local (list_to_set omitted)) (spans incoming) (reply (respond local incoming))) as Hm.
  { unfold m, reopen_omitted. destruct omitted; [by apply elem_of_nil in Hx|done]. }
  assert (mkRange up (Fingerprint (fingerprint (items_in local lo up))) ∈ ranges m) as Hopen.
  { rewrite Hm. apply (reopen_fold_opens _ _ _ _ _ _ (IdList ids)).
    - unfold spans. rewrite spans_from_uppers. destruct Hwf as (_ & Hc & _). by destruct (covers_uppers None _ Hc).
    - done.
    - apply elem_of_ids_of in Hin as (i & Hi & <-). exists i. split; [done|]. by apply elem_of_list_to_set.
    - by eapply reply_reaches_upper. }
  split_and!.
  - apply not_true_is_false. destruct m as [rs]. rewrite is_settled_iff, Forall_forall. intros Hall.
    by specialize (Hall _ Hopen).
  - rewrite Hm. apply reopen_fold_uppers.
  - by exists lo, up, ids.
Qed.
End open_ranges.

(** ** Reading from the floor *)
Section floor.
Context `{Blake3Width}.

Lemma floor_spans p rs s :
  covers (Some p) rs → s ∈ spans_from p rs → p ≤ s.1.1 ∧ (s.2 = Skip ∨ floor_from p rs ≤ s.1.1).
Proof.
  revert p. induction rs as [|r rs IH]; intros p Hc Hs; [by apply elem_of_nil in Hs|].
  destruct Hc as [Hlt Hc]. cbn [spans_from floor_from] in *. apply elem_of_cons in Hs as [->|Hs].
  - cbn. split; [lia|]. destruct (mode r); [by left|right; lia..].
  - destruct (IH _ Hc Hs) as [Hlo Hor]. split; [lia|]. destruct (mode r); [done|right; lia..].
Qed.

Lemma unsettled_floor_spans m s :
  message_wf m → s ∈ spans m → s.2 = Skip ∨ unsettled_floor m ≤ s.1.1.
Proof.
  intros (Hwf & Hc & _) Hs. unfold unsettled_floor, spans in *. destruct (ranges m) as [|r rs]; [by apply elem_of_nil in Hs|].
  apply Forall_cons in Hwf as [[[Hu _] _] _]. destruct Hc as [_ Hc]. cbn [spans_from floor_from] in *.
  apply elem_of_cons in Hs as [->|Hs].
  - cbn. destruct (mode r); [by left|right; lia..].
  - destruct (floor_spans _ _ _ Hc Hs) as [Hlo Hor]. destruct (mode r); [done|right; lia..].
Qed.

Lemma round_ext {O} (f g : nat → Z * Z * Mode → list Range * O) merge ss rs out :
  Forall (λ s, ∀ b, f b s = g b s) ss → round f merge ss rs out = round g merge ss rs out.
Proof.
  intros Hfg. revert rs out. induction Hfg as [|s ss Hs _ IH]; intros rs out; [done|]. cbn [round].
  rewrite Hs. destruct (g _ s) as [new o]. apply IH.
Qed.

Lemma respond_floor local m :
  StronglySorted seq_le local → message_wf m →
  respond (filter (λ i, unsettled_floor m ≤ seq i) local) m = respond local m.
Proof.
  intros Hs Hwf. unfold respond. rewrite (round_ext _ (respond_span local)); [done|]. apply Forall_forall.
  intros [[lo up] md] Hin b. destruct (unsettled_floor_spans m _ Hwf Hin) as [Hskip|Hlo]; cbn in *; [by subst|].
  assert (items_in (filter (λ i, unsettled_floor m ≤ seq i) local) lo up = items_in local lo up) as ->; [|done].
  rewrite !items_in_filter by (done || by apply StronglySorted_filter).
  rewrite list_filter_filter. apply list_filter_iff. intros i. lia.
Qed.

(** The constraints the schema puts on a group's rows. *)
Definition columns_ok (s : Store) (group : list byte) : Prop :=
  Forall (λ e : LogRow, length e.1 = 32%nat ∧ r_seq e.2 ≤ I64_MAX) (group_log s group).

Lemma elem_of_group_log s group e : e ∈ group_log s group ↔ envelopes s !! (group, e.1) = Some e.2.
Proof.
  unfold group_log. rewrite list_elem_of_omap. split.
  - intros ([[g h] r] & Hin & Hf). cbn in Hf. case_decide; [|done]. injection Hf as <-. subst g.
    by apply elem_of_map_to_list in Hin.
  - intros He. exists ((group, e.1), e.2). split; [by apply elem_of_map_to_list|]. cbn. rewrite decide_True by done. by destruct e.
Qed.

Lemma group_log_seq_inj others s group a b :
  store_ok others s → a ∈ group_log s group → b ∈ group_log s group → r_seq a.2 = r_seq b.2 → a = b.
Proof.
  intros Hok Ha%elem_of_group_log Hb%elem_of_group_log Hs. pose proof (ok_unique Hok _ _ _ _ _ Ha Hb Hs) as Hh.
  destruct a as [h r], b as [h' r']. cbn in *. congruence.
Qed.

Lemma rows_from_filter others s group from :
  store_ok others s →
  rows_from s group from = filter (λ e : LogRow, i64_or_max from ≤ r_seq e.2) (rows_from s group 0).
Proof.
  intros Hok. unfold rows_from. apply (StronglySorted_unique_strong row_le).
  - intros a b Ha Hb Hab Hba. rewrite (merge_sort_Permutation row_le) in Ha.
    apply list_elem_of_filter in Ha as [_ Ha], Hb as [_ Hb]. rewrite (merge_sort_Permutation row_le) in Hb.
    apply list_elem_of_filter in Hb as [_ Hb]. eapply group_log_seq_inj; [done..|]. unfold row_le in *. lia.
  - apply StronglySorted_merge_sort; apply _.
  - apply StronglySorted_filter, StronglySorted_merge_sort; apply _.
  - rewrite merge_sort_Permutation, (merge_sort_Permutation row_le (filter _ _)).
    rewrite list_filter_filter. apply reflexive_eq, filter_ext_on, Forall_forall. intros e He%elem_of_group_log.
    destruct (ok_rows Hok _ _ _ He) as (? & ? & Hpos). unfold i64_or_max. cbn. lia.
Qed.

Lemma rows_from_elem s group from e : e ∈ rows_from s group from → e ∈ group_log s group.
Proof. unfold rows_from. rewrite merge_sort_Permutation. by intros [_ ?]%list_elem_of_filter. Qed.

Lemma rows_from_length s group from : (length (rows_from s group from) ≤ length (group_log s group))%nat.
Proof. unfold rows_from. rewrite merge_sort_Permutation. apply length_filter. Qed.

Lemma sorted_take {A} (R : A → A → Prop) (l : list A) n : StronglySorted R l → StronglySorted R (take n l).
Proof. intros Hs. rewrite <- (take_drop n l) in Hs. by apply StronglySorted_app_1_l in Hs. Qed.

Lemma items_ok others s group from :
  store_ok others s → columns_ok s group → local_ok (items s group from).
Proof.
  intros Hok Hcol. unfold items.
  assert (Forall (λ e, 1 ≤ r_seq e.2 ≤ I64_MAX ∧ length e.1 = 32%nat) (take (Z.to_nat MAX_ITEMS_PER_RECONCILE) (rows_from s group from))) as Hall.
  { apply Forall_take, Forall_forall. intros e He%rows_from_elem. unfold columns_ok in Hcol. rewrite Forall_forall in Hcol.
    destruct (Hcol e He). apply elem_of_group_log in He. destruct (ok_rows Hok _ _ _ He) as (? & ? & Hpos). split; [lia|done]. }
  assert (StronglySorted row_le (take (Z.to_nat MAX_ITEMS_PER_RECONCILE) (rows_from s group from))) as Hs.
  { apply sorted_take. unfold rows_from. apply StronglySorted_merge_sort; apply _. }
  split.
  - induction Hs as [|e l _ IH Hf]; [constructor|]. apply Forall_cons in Hall as [He Hall]. rewrite fmap_cons.
    constructor; [by apply IH|]. apply Forall_fmap. apply Forall_forall. intros e' He'.
    rewrite Forall_forall in Hf, Hall. specialize (Hf _ He'). specialize (Hall _ He').
    unfold seq_le, row_to_item, row_le in *. cbn. rewrite !u64_or_default_id by lia. lia.
  - apply Forall_fmap. eapply Forall_impl; [exact Hall|]. intros e [He Hlen]. unfold item_ok, row_to_item. cbn.
    rewrite u64_or_default_id by lia. unfold is_u64, U64_MAX, I64_MAX in *. split; [lia|].
    unfold id_from_slice. by rewrite fixed_32.
Qed.

(** Reading a group's log from the lowest number the client has not settled
    answers exactly as reading all of it would, whatever message the client
    sent, for every group that fits one read. *)
Theorem floor_reads_suffice others s group m :
  store_ok others s → columns_ok s group → message_wf m → unsettled_floor m ≤ I64_MAX →
  Z.of_nat (length (group_log s group)) ≤ MAX_ITEMS_PER_RECONCILE →
  respond (items s group (unsettled_floor m)) m = respond (items s group 0) m.
Proof using Type*.
  intros Hok Hcol Hwf Hfl Hn. pose proof (items_ok others s group 0 Hok Hcol) as [Hs _].
  rewrite <- (respond_floor (items s group 0) m Hs Hwf). f_equal. unfold items.
  pose proof (rows_from_length s group 0). pose proof (rows_from_length s group (unsettled_floor m)).
  rewrite !take_ge by lia. rewrite (rows_from_filter others s group (unsettled_floor m) Hok).
  symmetry. apply filter_fmap_iff, Forall_forall. intros e He%rows_from_elem%elem_of_group_log.
  destruct (ok_rows Hok _ _ _ He) as (? & ? & Hpos). unfold row_to_item. cbn [seq].
  rewrite u64_or_default_id by lia. unfold i64_or_max. by rewrite (proj2 (Z.leb_le _ _)).
Qed.

(** ** The edge of the window *)
(** A group with more rows than one read returns, and a client that holds
    exactly the rows of that read and opens a reconciliation: the relay calls
    every range settled and pushes nothing, and the rest is never mentioned. *)
Theorem window_settles_early others s group :
  store_ok others s → columns_ok s group →
  MAX_ITEMS_PER_RECONCILE < Z.of_nat (length (group_log s group)) →
  let held := items s group 0 in
  is_settled (reply (respond held (initiate held))) = true ∧ push (respond held (initiate held)) = []
  ∧ (length held < length (group_log s group))%nat.
Proof using Type*.
  intros Hok Hcol Hn held. pose proof (items_ok others s group 0 Hok Hcol) as Hl. fold held in Hl.
  assert (Forall (λ i, seq i < INFINITY) held) as Hinf.
  { unfold held, items. apply Forall_fmap, Forall_take, Forall_forall. intros e He%rows_from_elem.
    unfold columns_ok in Hcol. rewrite Forall_forall in Hcol. destruct (Hcol e He) as [_ Hle].
    apply elem_of_group_log in He. destruct (ok_rows Hok _ _ _ He) as (? & ? & Hpos). unfold row_to_item. cbn [seq compose].
    rewrite u64_or_default_id by lia. unfold INFINITY, U64_MAX, I64_MAX in *. lia. }
  destruct (initiate_ok held Hl Hinf) as [Hwf Ht]. split_and!.
  - apply settled_respond; [done|]. eapply Forall_impl; [exact Ht|]. intros [[lo up] [|fp|ids]]; cbn; [done|done|].
    by intros ->.
  - apply list.elem_of_nil_inv. intros x (lo & up & ids & Hs & Hx & Hnot)%elem_of_push.
    unfold truthful in Ht. rewrite Forall_forall in Ht. specialize (Ht _ Hs). cbn in Ht. by subst ids.
  - unfold held, items. rewrite length_fmap, length_take. unfold MAX_ITEMS_PER_RECONCILE in *. lia.
Qed.
End floor.

(** ** A truncated backfill says so *)
Section honest.
Context {C P : Type} `{MpscLaws C, SemaphoreLaws P}.
Implicit Types ch : Channel C P.

Lemma queue_all_prefix frames ch b ch' :
  queue_all ch frames = (b, ch') →
  ∃ n, mpsc_queue (inner ch') = mpsc_queue (inner ch) ++ (OutFrame <$> take n frames)
    ∧ (b = true → (length frames ≤ n)%nat).
Proof using Type*.
  revert ch. induction frames as [|f frames IH]; intros ch; cbn [queue_all].
  { intros [= <- <-]. exists 0%nat. by rewrite app_nil_r. }
  destruct (try_queue_cases ch f) as [(ch1 & -> & Hq & _)|[->|[-> _]]].
  - intros (n & Hn & Hb)%IH. exists (S n). cbn [take fmap list_fmap length]. rewrite Hn, Hq, <- app_assoc. split; [done|].
    intros Ht. specialize (Hb Ht). lia.
  - intros [= <- <-]. exists 0%nat. by rewrite app_nil_r.
  - intros [= <- <-]. exists 0%nat. by rewrite app_nil_r.
Qed.

Lemma until_spent_prefix max_bytes spent l : ∃ n, until_spent max_bytes spent l = take n l.
Proof.
  revert spent. induction l as [|x l IH]; intros spent; [by exists 0%nat|]. cbn [until_spent].
  case_match; [by exists 1%nat|]. destruct (IH (spent + len x)) as [n ->]. by exists (S n).
Qed.

Lemma since_prefix s group from rows bytes :
  ∃ n, since s group from rows bytes = (λ e : LogRow, encode_row group e.1 e.2) <$> take n (rows_from s group from).
Proof.
  unfold since. case_match; [by exists 0%nat|].
  destruct (until_spent_prefix bytes 0
    ((λ e : LogRow, encode_row group e.1 e.2) <$> take (Z.to_nat (Z.min (Z.of_nat rows) MAX_BACKFILL)) (rows_from s group from)))
    as [n ->].
  rewrite <- fmap_take, take_take. by eexists.
Qed.

Lemma head_seq_covers s group e head :
  e ∈ group_log s group → head_seq (Tables s) group = Some head → r_seq e.2 ≤ head.
Proof.
  intros He [= <-]. assert (r_seq e.2 ≤ foldr (λ (e : LogRow) m, Z.max (r_seq e.2) m) 0 (group_log s group)) as Hle.
  { induction (group_log s group) as [|x l IH]; [by apply elem_of_nil in He|]. cbn [foldr].
    apply elem_of_cons in He as [->|He]; [lia|]. specialize (IH He). lia. }
  unfold u64_or_default. case_match; lia.
Qed.

Lemma NoDup_omap {A B} (f : A → option B) l :
  (∀ a b y, f a = Some y → f b = Some y → a = b) → NoDup l → NoDup (omap f l).
Proof.
  intros Hf Hl. induction Hl as [|a l Ha _ IH]; [constructor|]. cbn. destruct (f a) as [y|] eqn:Hy; [|done].
  constructor; [|done]. intros (b & Hb & Hby)%list_elem_of_omap. by rewrite (Hf a b y Hy Hby) in Ha.
Qed.

(** What the cut leaves out lies above what it keeps. *)
Lemma rows_from_cut others s group from n e e' :
  store_ok others s → e ∈ take n (rows_from s group from) → e' ∈ drop n (rows_from s group from) →
  r_seq e.2 < r_seq e'.2.
Proof.
  intros Hok He He'. assert (StronglySorted row_le (rows_from s group from)) as Hs.
  { unfold rows_from. apply StronglySorted_merge_sort; apply _. }
  assert (row_le e e') as Hle.
  { rewrite <- (take_drop n (rows_from s group from)) in Hs.
    eapply (StronglySorted_app_1_elem_of row_le); [exact Hs|done..]. }
  unfold row_le in Hle. destruct (Z.eq_dec (r_seq e.2) (r_seq e'.2)) as [Heq|]; [|lia]. exfalso.
  assert (e = e') as ->.
  { eapply group_log_seq_inj; [exact Hok|..|exact Heq].
    - apply (rows_from_elem s group from). rewrite <- (take_drop n (rows_from s group from)). apply elem_of_app. by left.
    - apply (rows_from_elem s group from). rewrite <- (take_drop n (rows_from s group from)). apply elem_of_app. by right. }
  assert (NoDup (rows_from s group from)) as Hnd.
  { unfold rows_from. rewrite merge_sort_Permutation. apply NoDup_filter. unfold group_log. apply NoDup_omap.
    - intros [[g1 h1] r1] [[g2 h2] r2] y E1 E2. cbn in E1, E2. repeat case_decide; [|done..]. subst. by simplify_eq.
    - apply NoDup_map_to_list. }
  rewrite <- (take_drop n (rows_from s group from)) in Hnd. apply NoDup_app in Hnd as (_ & Hd & _). by apply (Hd e').
Qed.

(** A backfill cut short says so. What a [SUB] queues is the group's log
    from the cursor, oldest first, with nothing skipped in the middle; every
    row the cut leaves out is numbered above everything it queued, and if the
    relay held it when it acknowledged, at most the head the acknowledgement
    named, so the client knows there is more to come back for. *)
Theorem backfill_honest others sa s group from head ch1 ch2 b ch' :
  store_ok others s → sub_ack (Tables sa) group from = SubAck group head →
  backfill ch1 ch2 (Tables s) group from = (b, ch') →
  ∃ n, mpsc_queue (inner ch')
        = mpsc_queue (inner ch2)
          ++ ((λ e : LogRow, OutFrame (Frame.Push (encode_row group e.1 e.2))) <$> take n (rows_from s group from))
    ∧ ∀ e', e' ∈ drop n (rows_from s group from) →
        (∀ e, e ∈ take n (rows_from s group from) → r_seq e.2 < r_seq e'.2)
        ∧ (e' ∈ group_log sa group → r_seq e'.2 ≤ head).
Proof using Type*.
  intros Hok Hack Hb. unfold backfill in Hb. apply queue_all_prefix in Hb as (n & Hq & _).
  destruct (since_prefix s group from (push_frame_allowance ch1) (push_byte_allowance ch1)) as [k Hk].
  rewrite Hk in Hq. rewrite <- ?fmap_take in Hq. rewrite <- ?list_fmap_compose in Hq. rewrite ?take_take in Hq. eexists. split; [exact Hq|].
  intros e' He'. split.
  - intros e He. by eapply rows_from_cut.
  - intros Hin. unfold sub_ack in Hack. destruct (head_seq (Tables sa) group) as [hd|] eqn:Hh; [|done].
    pose proof (head_seq_covers _ _ _ _ Hin Hh). injection Hack as <-. lia.
Qed.
End honest.

(** ** Concrete runs *)
Module SyncDemo.
#[local] Instance sync_blake3 : Blake3 := poly_digest.
#[local] Instance sync_width : Blake3Width := poly_digest_width.

Lemma stored_envelope_served_witness :
  envelope_bytes store1 example_group (env_hash Accept.sent) = Some (envelope_encode (delivered Accept.sent 1 9))
  ∧ envelope_decode (envelope_encode (delivered Accept.sent 1 9)) = Ok (delivered Accept.sent 1 9)
  ∧ validate (delivered Accept.sent 1 9) FloorMls = Ok tt.
Proof.
  apply (stored_envelope_served example_config store0 Accept.sent 9 1 store1 store1 store0_reachable
    example_envelope_wf sent_accepted (rtc_refl _ _)); by vm_compute.
Defined.

(** An envelope whose epoch does not fit the signed column is accepted, and
    every later read of it carries epoch 0 and fails its own content address. *)
Definition far : Envelope :=
  mkEnvelope 1 EncMls example_group (2 ^ 63) 0 0 (content_hash 1 EncMls example_group (2 ^ 63) [Byte.x01]) [Byte.x01].
Theorem far_epoch_served_broken :
  let s := snd (accept example_config store0 far 9) in
  fst (accept example_config store0 far 9) = Ok (Accept.Stored 1)
  ∧ match envelope_bytes s example_group (env_hash far) with
    | Some bs => match envelope_decode bs with
                 | Ok e => env_epoch e = 0 ∧ validate e FloorMls = Err EnvelopeHashMismatch
                 | Err _ => False
                 end
    | None => False
    end.
Proof. by vm_compute. Qed.

Definition quiet_channel : Channel (list Outbound * bool) Z := ListQueue.empty_channel.
Definition asks_all : Message := mkMessage [mkRange INFINITY (IdList [])].
Lemma asks_all_wf : message_wf asks_all.
Proof. split_and!; [repeat constructor; by vm_compute|done|cbn; unfold MAX_RANGES; lia]. Qed.
Definition one_byte (ids : list Id) : list (Id * list byte) := (λ i, (i, [Byte.x01])) <$> ids.

Lemma recon_answer_fits_witness :
  ∃ ch', queue_all quiet_channel (recon_frames quiet_channel quiet_channel (items_n [3; 7]) one_byte [Byte.x0a] asks_all) = (true, ch')
    ∧ mpsc_queue (inner ch') = mpsc_queue (inner quiet_channel)
        ++ (OutFrame <$> recon_frames quiet_channel quiet_channel (items_n [3; 7]) one_byte [Byte.x0a] asks_all).
Proof.
  apply (recon_answer_fits quiet_channel quiet_channel (items_n [3; 7]) one_byte [Byte.x0a] asks_all).
  - done.
  - by vm_compute; lia.
  - by vm_compute.
  - by vm_compute.
  - repeat constructor; by vm_compute.
  - repeat constructor; by vm_compute.
Defined.

Lemma omitted_ranges_stay_open_witness :
  is_settled (reopen_omitted (reply (respond (items_n [3; 7]) asks_all)) asks_all (items_n [3; 7]) [id_n 7]) = false.
Proof.
  apply (omitted_ranges_stay_open (items_n [3; 7]) asks_all [id_n 7] (id_n 7)).
  - exact pair_ok.
  - exact asks_all_wf.
  - apply list_elem_of_here.
  - apply (bool_decide_unpack _). by vm_compute.
Defined.

Lemma floor_reads_suffice_witness :
  respond (items store1 example_group (unsettled_floor asks_all)) asks_all = respond (items store1 example_group 0) asks_all.
Proof.
  apply (floor_reads_suffice alone store1 example_group asks_all).
  - exact store1_ok.
  - unfold columns_ok. apply (bool_decide_unpack _). by vm_compute.
  - exact asks_all_wf.
  - by vm_compute.
  - by vm_compute.
Defined.

(** The one envelope that is always taken can eat the bytes held back for the
    frame that closes the round: with one byte to spare over the reserve, a
    full-sized envelope leaves under four kilobytes for the [RECON]. *)
Theorem first_push_eats_reserve envelope :
  len envelope = MAX_CIPHERTEXT_BYTES →
  fits_in_budget [envelope] 1 push_cost = 1%nat ∧ MAX_FRAME_BYTES + 1 - push_cost envelope < 4096.
Proof.
  intros Hl. split; [done|]. unfold push_cost. rewrite Hl. by vm_compute.
Qed.

(** A reopened range carries the fingerprint of its whole span. Where the
    answer had split the span, the range covers the last piece only, so the
    message no longer says what the relay holds there. *)
Theorem reopened_range_overstates :
  let asks := mkMessage [mkRange INFINITY (IdList [id_n 99])] in
  let m := reopen_omitted (reply (respond wide asks)) asks wide [id_n 1] in
  match last (spans m) with
  | Some (lo, up, Fingerprint fp) => 0 < lo ∧ up = INFINITY ∧ fp = fingerprint wide ∧ fp ≠ fingerprint (items_in wide lo up)
  | _ => False
  end.
Proof. by vm_compute. Qed.

Lemma backfill_honest_witness :
  ∃ n, mpsc_queue (inner (snd (backfill quiet_channel quiet_channel (Tables store1) example_group 0)))
        = mpsc_queue (inner quiet_channel)
          ++ ((λ e : LogRow, OutFrame (Frame.Push (encode_row example_group e.1 e.2))) <$> take n (rows_from store1 example_group 0))
    ∧ ∀ e', e' ∈ drop n (rows_from store1 example_group 0) →
        (∀ e, e ∈ take n (rows_from store1 example_group 0) → r_seq e.2 < r_seq e'.2)
        ∧ (e' ∈ group_log store1 example_group → r_seq e'.2 ≤ 1).
Proof.
  apply (backfill_honest alone store1 store1 example_group 0 1 quiet_channel quiet_channel
    (fst (backfill quiet_channel quiet_channel (Tables store1) example_group 0))).
  - exact store1_ok.
  - by vm_compute.
  - apply surjective_pairing.
Defined.
End SyncDemo.
