(* ===== verification/Session.v ===== *)
(** * One connection's protocol state

    Models [backend/wealdrelay/src/session.rs]: the states, the frame table
    [Session::handle] with one definition per arm, the work it defers with its
    declared policy, the challenge a connection issues, and the transitions
    [AUTH] ends in. The per-minute budgets are [Budgets.FrameBudget], one per
    [BudgetKind] (the source has one field each); the media budget is
    [Calls.MediaBudget]. The counter [NEXT_CONNECTION_NONCE] and the secret
    [CHALLENGE_SECRET] are the two fields of [Process]. *)

From Stdlib Require Import ZArith Lia String.
From stdpp Require Import base tactics numbers functions relations list.
From S2P Require Import Prelude Cbor Push Frame Crypto Envelope Accept Budgets Calls.

Open Scope Z_scope.

Definition CLOCK_SKEW_LIMIT_MS : Z := 5 * 60 * 1000.
Definition MAX_GROUPS_PER_CONNECTION : nat := 256.
Definition MAX_LIVE_BYTES : Z := 4096.
Definition LIVE_FRAMES_PER_MINUTE : Z := 900.
Definition KEYS_FRAMES_PER_MINUTE : Z := 30.
Definition WAKE_FRAMES_PER_MINUTE : Z := 30.
Definition JOIN_FRAMES_PER_MINUTE : Z := 20.
Definition MAX_SCOPES : Z := 256.
Definition JOIN_FRAMES_PER_MINUTE_RESERVED : Z := JOIN_FRAMES_PER_MINUTE + 2 * MAX_SCOPES + 2.
Definition HANDSHAKE_FRAMES_PER_MINUTE : Z := 120.
Definition ACCESS_FRAMES_PER_MINUTE : Z := 30.
Definition WRAP_FRAMES_PER_MINUTE : Z := 30.
Definition INVITE_FRAMES_PER_MINUTE : Z := 30.
Definition SUB_FRAMES_PER_MINUTE : Z := 300.
Definition RECON_FRAMES_PER_MINUTE : Z := 600.
Definition BLOB_FRAMES_PER_MINUTE : Z := 120.
Definition DROP_FRAMES_PER_MINUTE : Z := 30.
Definition MAX_KEY_PACKAGE_FETCH : Z := 8.
Definition CALL_FRAMES_PER_MINUTE : Z := 120.
Definition MAX_CALL_BODY_BYTES : Z := 4096.
Definition MAX_MEDIA_CT_BYTES : Z := 1500.

(** The settings a session copies out of the configuration. *)
Inductive AccessSetMode : Type := Enforce | AccessSetOff.
Inductive LiveMode : Type := LiveOn | LiveOff.
Inductive CallMode : Type := CallsOn | CallsOff.

Record SessionConfig : Type := mkSessionConfig {
  cfg_base : Config;
  cfg_access_set : AccessSetMode;
  cfg_live : LiveMode;
  cfg_calls : CallMode
}.

Inductive State : Type := Fresh | Challenged | Ready | Bootstrapping | Closed.
#[global] Instance State_eq_dec : EqDecision State.
Proof. solve_decision. Defined.

Inductive Work : Type :=
| Authenticate (device_key signature challenge : list byte)
| AcceptEnvelope (envelope : list byte)
| Subscribe (group : list byte) (from_seq : Z)
| Reconcile (group payload : list byte)
| RotateAccessSet (body : list byte)
| BlobTicket (payload : list byte)
| DropBefore (payload : list byte)
| PublishWrap (body : list byte)
| Redeem (body : list byte)
| AdministerInvite (body : list byte)
| PublishHandshake (group message : list byte)
| PublishLive (group : list byte) (epoch : Z) (ct : list byte)
| KeyPackages (body : KeysBody)
| WakeRegistration (body : WakeBody)
| PublishCall (call_id group : list byte) (epoch : Z) (kind : CallKind) (body : list byte)
| PublishMedia (call_id stream : list byte) (seq : Z) (ct : list byte).

Inductive Reaction : Type :=
| Reply (frames : list Frame)
| ReplyAndClose (frames : list Frame)
| Defer (work : Work).

(** ** What a work item costs *)
Inductive Durability : Type := Ephemeral | Read | Write.
Inductive WriteRefusal : Type := NotAWrite | FrameTable | Handler | ServedWhileQuiesced.
Record WorkPolicy : Type := mkWorkPolicy {
  durability : Durability;
  frames_per_minute : option Z;
  write_refusal : WriteRefusal
}.

Definition policy (w : Work) : WorkPolicy :=
  match w with
  | Authenticate _ _ _ => mkWorkPolicy Read None NotAWrite
  | AcceptEnvelope _ => mkWorkPolicy Write None FrameTable
  | Subscribe _ _ => mkWorkPolicy Read (Some SUB_FRAMES_PER_MINUTE) NotAWrite
  | Reconcile _ _ => mkWorkPolicy Read (Some RECON_FRAMES_PER_MINUTE) NotAWrite
  | RotateAccessSet _ => mkWorkPolicy Write (Some ACCESS_FRAMES_PER_MINUTE) FrameTable
  | BlobTicket _ => mkWorkPolicy Write (Some BLOB_FRAMES_PER_MINUTE) Handler
  | DropBefore _ => mkWorkPolicy Write (Some DROP_FRAMES_PER_MINUTE) FrameTable
  | PublishWrap _ => mkWorkPolicy Write (Some WRAP_FRAMES_PER_MINUTE) FrameTable
  | Redeem _ => mkWorkPolicy Write (Some JOIN_FRAMES_PER_MINUTE) ServedWhileQuiesced
  | AdministerInvite _ => mkWorkPolicy Write (Some INVITE_FRAMES_PER_MINUTE) FrameTable
  | PublishHandshake _ _ => mkWorkPolicy Write (Some HANDSHAKE_FRAMES_PER_MINUTE) FrameTable
  | PublishLive _ _ _ => mkWorkPolicy Ephemeral (Some LIVE_FRAMES_PER_MINUTE) NotAWrite
  | KeyPackages (Publish _) => mkWorkPolicy Write (Some KEYS_FRAMES_PER_MINUTE) FrameTable
  | KeyPackages _ => mkWorkPolicy Read (Some KEYS_FRAMES_PER_MINUTE) NotAWrite
  | WakeRegistration (Register _ _ _) | WakeRegistration Clear =>
      mkWorkPolicy Write (Some WAKE_FRAMES_PER_MINUTE) FrameTable
  | WakeRegistration _ => mkWorkPolicy Read (Some WAKE_FRAMES_PER_MINUTE) NotAWrite
  | PublishCall _ _ _ _ _ => mkWorkPolicy Ephemeral (Some CALL_FRAMES_PER_MINUTE) NotAWrite
  | PublishMedia _ _ _ _ => mkWorkPolicy Ephemeral None NotAWrite
  end.

(** ** The session *)
Inductive BudgetKind : Type :=
| KLive | KKeys | KWake | KHandshake | KAccess | KWrap | KInvite | KSub | KRecon | KBlob | KDrop
| KJoin | KCall.
#[global] Instance BudgetKind_eq_dec : EqDecision BudgetKind.
Proof. solve_decision. Defined.

Record Session : Type := mkSession {
  s_state : State;
  connection_nonce : Z;
  s_challenge : list byte;
  requested : list (list byte);
  authorized_workspace : option (list byte);
  subscribed : list (list byte);
  skew_ms : option Z;
  s_min_enc : Z;
  source : option (list byte);
  s_device_key : option (list byte);
  s_write_mode : WriteMode;
  build_digest : list byte;
  access_set_enforced : bool;
  refuses_plaintext : bool;
  negotiated_version : Z;
  s_live : LiveMode;
  budget_of : BudgetKind → FrameBudget;
  join_reserved : bool;
  s_calls : CallMode;
  media_budget : MediaBudget
}.

Record Process : Type := mkProcess { next_connection_nonce : Z; challenge_secret : list byte }.

(** [Session::new]: the counter is read and advanced by one atomic step. *)
Definition session_new (config : SessionConfig) (digest : list byte) (p : Process) : Session * Process :=
  ( {| s_state := Fresh;
       connection_nonce := next_connection_nonce p;
       s_challenge := [];
       requested := [];
       authorized_workspace := None;
       subscribed := [];
       skew_ms := None;
       s_min_enc := floor_byte (min_encryption (cfg_base config));
       source := None;
       s_device_key := None;
       s_write_mode := write_mode (cfg_base config);
       build_digest := digest;
       access_set_enforced := match cfg_access_set config with Enforce => true | AccessSetOff => false end;
       refuses_plaintext := match min_encryption (cfg_base config) with FloorMls => true | FloorNone => false end;
       negotiated_version := MIN_PROTOCOL_VERSION;
       s_live := cfg_live config;
       budget_of := λ _, default_frame_budget;
       join_reserved := false;
       s_calls := cfg_calls config;
       media_budget := media_budget_new |},
    mkProcess (fetch_add (next_connection_nonce p) 1) (challenge_secret p) ).

(** ** Field updates *)
Definition with_state (s : Session) (v : State) : Session :=
  mkSession v (connection_nonce s) (s_challenge s) (requested s) (authorized_workspace s)
    (subscribed s) (skew_ms s) (s_min_enc s) (source s) (s_device_key s) (s_write_mode s)
    (build_digest s) (access_set_enforced s) (refuses_plaintext s) (negotiated_version s)
    (s_live s) (budget_of s) (join_reserved s) (s_calls s) (media_budget s).
Definition with_challenge (s : Session) (v : list byte) : Session :=
  mkSession (s_state s) (connection_nonce s) v (requested s) (authorized_workspace s)
    (subscribed s) (skew_ms s) (s_min_enc s) (source s) (s_device_key s) (s_write_mode s)
    (build_digest s) (access_set_enforced s) (refuses_plaintext s) (negotiated_version s)
    (s_live s) (budget_of s) (join_reserved s) (s_calls s) (media_budget s).
Definition with_requested (s : Session) (v : list (list byte)) : Session :=
  mkSession (s_state s) (connection_nonce s) (s_challenge s) v (authorized_workspace s)
    (subscribed s) (skew_ms s) (s_min_enc s) (source s) (s_device_key s) (s_write_mode s)
    (build_digest s) (access_set_enforced s) (refuses_plaintext s) (negotiated_version s)
    (s_live s) (budget_of s) (join_reserved s) (s_calls s) (media_budget s).
Definition with_workspace (s : Session) (v : option (list byte)) : Session :=
  mkSession (s_state s) (connection_nonce s) (s_challenge s) (requested s) v (subscribed s)
    (skew_ms s) (s_min_enc s) (source s) (s_device_key s) (s_write_mode s) (build_digest s)
    (access_set_enforced s) (refuses_plaintext s) (negotiated_version s) (s_live s)
    (budget_of s) (join_reserved s) (s_calls s) (media_budget s).
Definition with_subscribed (s : Session) (v : list (list byte)) : Session :=
  mkSession (s_state s) (connection_nonce s) (s_challenge s) (requested s)
    (authorized_workspace s) v (skew_ms s) (s_min_enc s) (source s) (s_device_key s)
    (s_write_mode s) (build_digest s) (access_set_enforced s) (refuses_plaintext s)
    (negotiated_version s) (s_live s) (budget_of s) (join_reserved s) (s_calls s)
    (media_budget s).
Definition with_skew (s : Session) (v : option Z) : Session :=
  mkSession (s_state s) (connection_nonce s) (s_challenge s) (requested s)
    (authorized_workspace s) (subscribed s) v (s_min_enc s) (source s) (s_device_key s)
    (s_write_mode s) (build_digest s) (access_set_enforced s) (refuses_plaintext s)
    (negotiated_version s) (s_live s) (budget_of s) (join_reserved s) (s_calls s)
    (media_budget s).
Definition with_source (s : Session) (v : option (list byte)) : Session :=
  mkSession (s_state s) (connection_nonce s) (s_challenge s) (requested s)
    (authorized_workspace s) (subscribed s) (skew_ms s) (s_min_enc s) v (s_device_key s)
    (s_write_mode s) (build_digest s) (access_set_enforced s) (refuses_plaintext s)
    (negotiated_version s) (s_live s) (budget_of s) (join_reserved s) (s_calls s)
    (media_budget s).
Definition with_device (s : Session) (v : option (list byte)) : Session :=
  mkSession (s_state s) (connection_nonce s) (s_challenge s) (requested s)
    (authorized_workspace s) (subscribed s) (skew_ms s) (s_min_enc s) (source s) v
    (s_write_mode s) (build_digest s) (access_set_enforced s) (refuses_plaintext s)
    (negotiated_version s) (s_live s) (budget_of s) (join_reserved s) (s_calls s)
    (media_budget s).
Definition with_version (s : Session) (v : Z) : Session :=
  mkSession (s_state s) (connection_nonce s) (s_challenge s) (requested s)
    (authorized_workspace s) (subscribed s) (skew_ms s) (s_min_enc s) (source s)
    (s_device_key s) (s_write_mode s) (build_digest s) (access_set_enforced s)
    (refuses_plaintext s) v (s_live s) (budget_of s) (join_reserved s) (s_calls s)
    (media_budget s).
Definition with_budgets (s : Session) (v : BudgetKind → FrameBudget) : Session :=
  mkSession (s_state s) (connection_nonce s) (s_challenge s) (requested s)
    (authorized_workspace s) (subscribed s) (skew_ms s) (s_min_enc s) (source s)
    (s_device_key s) (s_write_mode s) (build_digest s) (access_set_enforced s)
    (refuses_plaintext s) (negotiated_version s) (s_live s) v (join_reserved s) (s_calls s)
    (media_budget s).
Definition with_join_reserved (s : Session) (v : bool) : Session :=
  mkSession (s_state s) (connection_nonce s) (s_challenge s) (requested s)
    (authorized_workspace s) (subscribed s) (skew_ms s) (s_min_enc s) (source s)
    (s_device_key s) (s_write_mode s) (build_digest s) (access_set_enforced s)
    (refuses_plaintext s) (negotiated_version s) (s_live s) (budget_of s) v (s_calls s)
    (media_budget s).
Definition with_media (s : Session) (v : MediaBudget) : Session :=
  mkSession (s_state s) (connection_nonce s) (s_challenge s) (requested s)
    (authorized_workspace s) (subscribed s) (skew_ms s) (s_min_enc s) (source s)
    (s_device_key s) (s_write_mode s) (build_digest s) (access_set_enforced s)
    (refuses_plaintext s) (negotiated_version s) (s_live s) (budget_of s) (join_reserved s)
    (s_calls s) v.

(** ** The clock and the challenge *)
Definition i64_of_u64 (v : Z) : Z := if v <=? I64_MAX then v else I64_MAX.

Definition skew (client_ms relay_ms : Z) : option Z :=
  let difference := i64_saturating (i64_of_u64 client_ms - i64_of_u64 relay_ms) in
  if CLOCK_SKEW_LIMIT_MS <? Z.abs difference then Some difference else None.

Definition challenge_label : list byte := ascii_bytes "weald relay challenge v1"%string.

Definition challenge_input (secret : list byte) (now_ms : Z) (groups : list (list byte)) (nonce : Z) : list byte :=
  challenge_label ++ secret ++ be_bytes 8 nonce ++ be_bytes 8 now_ms ++ concat groups.

Definition challenge_bytes `{Blake3} (secret : list byte) (now_ms : Z) (groups : list (list byte))
    (nonce : Z) : list byte :=
  blake3 (challenge_input secret now_ms groups nonce).

(** ** Answers the arms share *)
Definition answer (e : FrameError) : Reaction := Reply [Error e].
Definition answer_and_close (e : FrameError) : Reaction := ReplyAndClose [Error e].
Definition rate_limited (allowance : Z) : FrameError :=
  with_detail (with_retry_after (FrameError_new RateLimited) 60) (be_bytes 8 allowance).
Definition too_large (limit : Z) : FrameError :=
  with_detail (FrameError_new EnvelopeTooLarge) (be_bytes 8 limit).
Definition groups_exhausted : FrameError :=
  with_detail (FrameError_new RateLimited) (be_bytes 8 (Z.of_nat MAX_GROUPS_PER_CONNECTION)).

Definition refuses_writes (s : Session) : bool :=
  match s_write_mode s with ReadOnly => true | Full => false end.

Definition read_only_refusal (s : Session) : option Reaction :=
  if refuses_writes s then Some (answer (FrameError_new ServiceReadOnly)) else None.

Definition calls_unavailable (s : Session) : option Reaction :=
  match s_calls s with
  | CallsOff => Some (answer (FrameError_new ProtocolUnsupported))
  | CallsOn => None
  end.

Definition join_allowance (s : Session) : Z :=
  if join_reserved s then JOIN_FRAMES_PER_MINUTE_RESERVED else JOIN_FRAMES_PER_MINUTE.

(** The tail of every budgeted arm: charge the frame, refuse it or defer. *)
Definition charged (k : BudgetKind) (allowance : Z) (w : Work) (s : Session) (now_ms : Z) : Reaction * Session :=
  let '(ok, b) := frame_charge (budget_of s k) now_ms allowance in
  let s := with_budgets s (<[k := b]> (budget_of s)) in
  if ok then (Defer w, s) else (answer (rate_limited allowance), s).

Definition refused_or (refusal : option Reaction) (s : Session) (go : Reaction * Session) : Reaction * Session :=
  match refusal with Some r => (r, s) | None => go end.

(** ** The arms of the frame table *)
Definition handle_connect `{Blake3} (secret : list byte) (s : Session) (version : Z)
    (groups : list (list byte)) (sent_at now_ms : Z) : Reaction * Session :=
  if version <? MIN_PROTOCOL_VERSION then
    (answer_and_close (with_detail (FrameError_new ProtocolUnsupported) (be_bytes 2 PROTOCOL_VERSION)),
     with_state s Closed)
  else
    let s := with_version s (Z.min version PROTOCOL_VERSION) in
    if (MAX_GROUPS_PER_CONNECTION <? length groups)%nat then
      (answer_and_close groups_exhausted, with_state s Closed)
    else
      let s := with_skew (with_requested s groups) (skew sent_at now_ms) in
      let challenge := challenge_bytes secret now_ms (requested s) (connection_nonce s) in
      let s := with_state (with_challenge s challenge) Challenged in
      (Reply [ConnectAck (negotiated_version s) now_ms (s_min_enc s); AuthChallenge challenge], s).

Definition handle_auth (s : Session) (device_key signature : list byte) : Reaction * Session :=
  (Defer (Authenticate device_key signature (s_challenge s)), with_challenge s []).

Definition handle_send (s : Session) (envelope : list byte) : Reaction * Session :=
  if refuses_writes s then (answer (FrameError_new ServiceReadOnly), s)
  else (Defer (AcceptEnvelope envelope), s).

Definition handle_sub (s : Session) (group : list byte) (from_seq now_ms : Z) : Reaction * Session :=
  if (MAX_GROUPS_PER_CONNECTION <=? length (subscribed s))%nat && negb (contains (subscribed s) group)
  then (answer groups_exhausted, s)
  else
    let '(ok, b) := frame_charge (budget_of s KSub) now_ms SUB_FRAMES_PER_MINUTE in
    let s := with_budgets s (<[KSub := b]> (budget_of s)) in
    if negb ok then (answer (rate_limited SUB_FRAMES_PER_MINUTE), s)
    else
      let s := if contains (subscribed s) group then s else with_subscribed s (subscribed s ++ [group]) in
      (Defer (Subscribe group from_seq), s).

Definition handle_recon (s : Session) (group payload : list byte) (now_ms : Z) : Reaction * Session :=
  charged KRecon RECON_FRAMES_PER_MINUTE (Reconcile group payload) s now_ms.

Definition handle_access (s : Session) (body : list byte) (now_ms : Z) : Reaction * Session :=
  refused_or (read_only_refusal s) s
    (charged KAccess ACCESS_FRAMES_PER_MINUTE (RotateAccessSet body) s now_ms).

Definition handle_wrap (s : Session) (body : list byte) (now_ms : Z) : Reaction * Session :=
  refused_or (read_only_refusal s) s
    (charged KWrap WRAP_FRAMES_PER_MINUTE (PublishWrap body) s now_ms).

Definition handle_join (s : Session) (body : list byte) (now_ms : Z) : Reaction * Session :=
  charged KJoin (join_allowance s) (Redeem body) s now_ms.

Definition handle_invite (s : Session) (body : list byte) (now_ms : Z) : Reaction * Session :=
  refused_or (read_only_refusal s) s
    (charged KInvite INVITE_FRAMES_PER_MINUTE (AdministerInvite body) s now_ms).

Definition handle_handshake (s : Session) (group message : list byte) (now_ms : Z) : Reaction * Session :=
  refused_or (read_only_refusal s) s
    (charged KHandshake HANDSHAKE_FRAMES_PER_MINUTE (PublishHandshake group message) s now_ms).

Definition handle_live (s : Session) (group : list byte) (epoch : Z) (ct : list byte) (now_ms : Z) :
    Reaction * Session :=
  match s_live s with
  | LiveOff => (answer (FrameError_new ProtocolUnsupported), s)
  | LiveOn =>
      if MAX_LIVE_BYTES <? len ct then (answer (too_large MAX_LIVE_BYTES), s)
      else charged KLive LIVE_FRAMES_PER_MINUTE (PublishLive group epoch ct) s now_ms
  end.

Definition handle_keys (s : Session) (body : KeysBody) (now_ms : Z) : Reaction * Session :=
  let tail := charged KKeys KEYS_FRAMES_PER_MINUTE (KeyPackages body) s now_ms in
  match body with
  | Publish _ => refused_or (read_only_refusal s) s tail
  | Fetch _ count =>
      if (count =? 0) || (MAX_KEY_PACKAGE_FETCH <? count)
      then (answer (too_large MAX_KEY_PACKAGE_FETCH), s) else tail
  | _ => (answer_and_close (FrameError_new MalformedHeader), with_state s Closed)
  end.

Definition handle_wake (s : Session) (body : WakeBody) (now_ms : Z) : Reaction * Session :=
  let tail := charged KWake WAKE_FRAMES_PER_MINUTE (WakeRegistration body) s now_ms in
  match body with
  | Register _ _ expires_at =>
      refused_or (read_only_refusal s) s
        (if negb (expiry_in_bounds expires_at now_ms)
         then (answer (FrameError_new PushHandleMalformed), s) else tail)
  | Clear => refused_or (read_only_refusal s) s tail
  | Query => tail
  | _ => (answer_and_close (FrameError_new MalformedHeader), with_state s Closed)
  end.

Definition handle_call (s : Session) (call_id group : list byte) (epoch kind : Z) (body : list byte)
    (now_ms : Z) : Reaction * Session :=
  refused_or (calls_unavailable s) s
    match CallKind_from_u8 kind with
    | None => (answer (FrameError_new MalformedHeader), s)
    | Some kind =>
        if negb (length call_id =? CALL_ID_BYTES)%nat then (answer (FrameError_new MalformedHeader), s)
        else if MAX_CALL_BODY_BYTES <? len body then (answer (too_large MAX_CALL_BODY_BYTES), s)
        else charged KCall CALL_FRAMES_PER_MINUTE (PublishCall call_id group epoch kind body) s now_ms
    end.

Definition handle_media (s : Session) (call_id stream : list byte) (seq : Z) (ct : list byte) (now_ms : Z) :
    Reaction * Session :=
  refused_or (calls_unavailable s) s
    (if MAX_MEDIA_CT_BYTES <? len ct then (answer (too_large MAX_MEDIA_CT_BYTES), s)
     else if negb ((length call_id =? CALL_ID_BYTES)%nat && (length stream =? STREAM_BYTES)%nat)
     then (answer (FrameError_new MalformedHeader), s)
     else
       match media_charge (media_budget s) now_ms call_id stream (len ct) with
       | (Err refusal, b) =>
           let '(report, b) := should_report b now_ms in
           (Reply (if report then
                     [Error (with_detail
                        (with_retry_after (FrameError_new (media_refusal_code refusal))
                           (media_refusal_retry_after refusal))
                        (be_bytes 8 (media_refusal_detail refusal)))]
                   else []),
            with_media s b)
       | (Ok _, b) => (Defer (PublishMedia call_id stream seq ct), with_media s b)
       end).

Definition handle_blob (s : Session) (payload : list byte) (now_ms : Z) : Reaction * Session :=
  charged KBlob BLOB_FRAMES_PER_MINUTE (BlobTicket payload) s now_ms.

Definition handle_drop (s : Session) (payload : list byte) (now_ms : Z) : Reaction * Session :=
  refused_or (read_only_refusal s) s
    (charged KDrop DROP_FRAMES_PER_MINUTE (DropBefore payload) s now_ms).

Definition handle_bye (s : Session) : Reaction * Session := (ReplyAndClose [Bye []], with_state s Closed).

Definition handle_other (s : Session) : Reaction * Session :=
  (answer_and_close (FrameError_new MalformedHeader), with_state s Closed).

(** [Session::handle]: one table over the state and the frame. *)
Definition handle `{Blake3} (secret : list byte) (s : Session) (frame : Frame) (now_ms : Z) :
    Reaction * Session :=
  match s_state s, frame with
  | Fresh, Connect version groups sent_at => handle_connect secret s version groups sent_at now_ms
  | Challenged, Auth device_key signature => handle_auth s device_key signature
  | Ready, Send envelope => handle_send s envelope
  | Ready, Sub group from_seq => handle_sub s group from_seq now_ms
  | Ready, Recon group payload => handle_recon s group payload now_ms
  | (Ready | Bootstrapping), Access body => handle_access s body now_ms
  | Ready, Wrap body => handle_wrap s body now_ms
  | (Fresh | Challenged | Ready | Bootstrapping), Join body => handle_join s body now_ms
  | Ready, Invite body => handle_invite s body now_ms
  | Ready, Handshake group _ message => handle_handshake s group message now_ms
  | Ready, Live group epoch ct => handle_live s group epoch ct now_ms
  | Ready, Keys body => handle_keys s body now_ms
  | Ready, Wake body => handle_wake s body now_ms
  | Ready, Call call_id group epoch kind body => handle_call s call_id group epoch kind body now_ms
  | Ready, Media call_id stream seq ct => handle_media s call_id stream seq ct now_ms
  | Ready, Blob payload => handle_blob s payload now_ms
  | Ready, Drop payload => handle_drop s payload now_ms
  | (Fresh | Challenged | Ready | Bootstrapping), Bye _ => handle_bye s
  | _, _ => handle_other s
  end.

(** ** Operations the socket layer calls *)
Definition auth_ack (s : Session) (key_packages_remaining : Z) : Frame :=
  AuthAck key_packages_remaining
    (match s_write_mode s with Full => 0 | ReadOnly => 1 end)
    (build_digest s)
    (if access_set_enforced s then 1 else 0)
    (if refuses_plaintext s then 1 else 0).

Definition authenticated (s : Session) (key_packages_remaining : Z) : Frame * Session :=
  let s := with_challenge (with_state s Ready) [] in
  (auth_ack s key_packages_remaining, s).

Definition bootstrapping (s : Session) (key_packages_remaining : Z) : Frame * Session :=
  let s := with_challenge (with_state s Bootstrapping) [] in
  (auth_ack s key_packages_remaining, s).

Definition rejected (s : Session) (code : ErrorCode) : list Frame * Session :=
  ([Error (FrameError_new code)], with_state s Closed).

Definition challenge_held (s : Session) : option (list byte) :=
  match s_challenge s with [] => None | c => Some c end.

Definition forget_subscription (s : Session) (group : list byte) : Session :=
  with_subscribed s (filter (λ held, held ≠ group) (subscribed s)).

Definition note_join_reserved (s : Session) : Session := with_join_reserved s true.
Definition set_source (s : Session) (v : option (list byte)) : Session := with_source s v.
Definition bind_device (s : Session) (key : list byte) : Session := with_device s (Some key).
Definition bind_workspace (s : Session) (workspace : list byte) : Session := with_workspace s (Some workspace).

(** ** What one frame can do to a session *)
(** The budget a work item is charged to, and the allowance the session gives it. *)
Definition charge_kind (w : Work) : option BudgetKind :=
  match w with
  | Authenticate _ _ _ | AcceptEnvelope _ | PublishMedia _ _ _ _ => None
  | Subscribe _ _ => Some KSub
  | Reconcile _ _ => Some KRecon
  | RotateAccessSet _ => Some KAccess
  | BlobTicket _ => Some KBlob
  | DropBefore _ => Some KDrop
  | PublishWrap _ => Some KWrap
  | Redeem _ => Some KJoin
  | AdministerInvite _ => Some KInvite
  | PublishHandshake _ _ => Some KHandshake
  | PublishLive _ _ _ => Some KLive
  | KeyPackages _ => Some KKeys
  | WakeRegistration _ => Some KWake
  | PublishCall _ _ _ _ _ => Some KCall
  end.

Definition allowance (s : Session) (k : BudgetKind) : Z :=
  match k with
  | KLive => LIVE_FRAMES_PER_MINUTE | KKeys => KEYS_FRAMES_PER_MINUTE | KWake => WAKE_FRAMES_PER_MINUTE
  | KHandshake => HANDSHAKE_FRAMES_PER_MINUTE | KAccess => ACCESS_FRAMES_PER_MINUTE
  | KWrap => WRAP_FRAMES_PER_MINUTE | KInvite => INVITE_FRAMES_PER_MINUTE | KSub => SUB_FRAMES_PER_MINUTE
  | KRecon => RECON_FRAMES_PER_MINUTE | KBlob => BLOB_FRAMES_PER_MINUTE | KDrop => DROP_FRAMES_PER_MINUTE
  | KJoin => join_allowance s | KCall => CALL_FRAMES_PER_MINUTE
  end.

(** The states a work item is served in. *)
Definition served_in (st : State) (w : Work) : Prop :=
  match w with
  | Authenticate _ _ _ => st = Challenged
  | Redeem _ => st ≠ Closed
  | RotateAccessSet _ => st = Ready ∨ st = Bootstrapping
  | _ => st = Ready
  end.

(** The fields no content frame touches. *)
Definition same_identity (s s' : Session) : Prop :=
  s_state s' = s_state s ∧ s_challenge s' = s_challenge s ∧ connection_nonce s' = connection_nonce s
  ∧ s_device_key s' = s_device_key s ∧ authorized_workspace s' = authorized_workspace s
  ∧ requested s' = requested s ∧ s_write_mode s' = s_write_mode s ∧ join_reserved s' = join_reserved s
  ∧ negotiated_version s' = negotiated_version s.

Definition is_error (f : Frame) : Prop := match f with Error _ => True | _ => False end.

Inductive handle_spec `{Blake3} (secret : list byte) (s : Session) (now_ms : Z) : Reaction * Session → Prop :=
| handled_connect s' c :
    s_state s = Fresh → s_state s' = Challenged → s_challenge s' = c →
    c = challenge_bytes secret now_ms (requested s') (connection_nonce s) →
    connection_nonce s' = connection_nonce s → s_device_key s' = s_device_key s →
    authorized_workspace s' = authorized_workspace s →
    s_write_mode s' = s_write_mode s → join_reserved s' = join_reserved s →
    (length (requested s') ≤ MAX_GROUPS_PER_CONNECTION)%nat →
    MIN_PROTOCOL_VERSION ≤ negotiated_version s' ≤ PROTOCOL_VERSION →
    subscribed s' = subscribed s → budget_of s' = budget_of s → media_budget s' = media_budget s →
    handle_spec secret s now_ms
      (Reply [ConnectAck (negotiated_version s') now_ms (s_min_enc s'); AuthChallenge c], s')
| handled_auth k sg :
    s_state s = Challenged →
    handle_spec secret s now_ms (Defer (Authenticate k sg (s_challenge s)), with_challenge s [])
| handled_defer w s' :
    served_in (s_state s) w → (∀ k sg c, w ≠ Authenticate k sg c) → same_identity s s' →
    (refuses_writes s = true → write_refusal (policy w) ≠ FrameTable) →
    subscribed s' = subscribed s
      ∨ (∃ g from, w = Subscribe g from ∧ g ∉ subscribed s ∧ subscribed s' = subscribed s ++ [g]
         ∧ (length (subscribed s) < MAX_GROUPS_PER_CONNECTION)%nat) →
    (match charge_kind w with
     | Some k => ∃ b, frame_charge (budget_of s k) now_ms (allowance s k) = (true, b)
                      ∧ budget_of s' = <[k := b]> (budget_of s)
     | None => budget_of s' = budget_of s
     end) →
    (match w with
     | PublishMedia call stream _ ct =>
         media_charge (media_budget s) now_ms call stream (len ct) = (Ok tt, media_budget s')
     | _ => media_budget s' = media_budget s
     end) →
    handle_spec secret s now_ms (Defer w, s')
| handled_refuse frames s' :
    s_state s ≠ Closed → same_identity s s' → subscribed s' = subscribed s → Forall is_error frames →
    budget_of s' = budget_of s
      ∨ (∃ k b, frame_charge (budget_of s k) now_ms (allowance s k) = (false, b)
                ∧ budget_of s' = <[k := b]> (budget_of s)) →
    media_budget s' = media_budget s
      ∨ (∃ call stream bytes e b, media_charge (media_budget s) now_ms call stream bytes = (Err e, b)
         ∧ media_budget s' = snd (should_report b now_ms) ∧ 0 ≤ bytes) →
    handle_spec secret s now_ms (Reply frames, s')
| handled_close frames s' :
    s' = with_state s Closed ∨ (∃ v, s' = with_state (with_version s v) Closed
                                ∧ MIN_PROTOCOL_VERSION ≤ v ≤ PROTOCOL_VERSION) →
    handle_spec secret s now_ms (ReplyAndClose frames, s').

Section handle.
Context `{Blake3}.
Variable secret : list byte.

Lemma charged_spec k w s now :
  served_in (s_state s) w → (∀ k sg c, w ≠ Authenticate k sg c) → charge_kind w = Some k →
  (∀ c st sq ct, w ≠ PublishMedia c st sq ct) →
  s_state s ≠ Closed → (refuses_writes s = true → write_refusal (policy w) ≠ FrameTable) →
  handle_spec secret s now (charged k (allowance s k) w s now).
Proof.
  intros Hst Ha Hk Hm Hc Hro. unfold charged.
  destruct (frame_charge (budget_of s k) now (allowance s k)) as [[] b] eqn:Hb.
  - apply handled_defer; [done | done | by repeat split | done | by left | | by destruct w; try done; edestruct Hm].
    rewrite Hk. by exists b.
  - apply handled_refuse; [done | by repeat split | done | by repeat constructor | | by left].
    right. by exists k, b.
Qed.

Lemma refused_spec r s now go :
  s_state s ≠ Closed → (∀ x, r = Some x → ∃ e, x = answer e) →
  (r = None → handle_spec secret s now go) → handle_spec secret s now (refused_or r s go).
Proof.
  intros Hc Hr Hgo. unfold refused_or. destruct r as [x|]; [|by apply Hgo].
  destruct (Hr x eq_refl) as [e ->].
  apply handled_refuse; [done | by repeat split | done | by repeat constructor | by left | by left].
Qed.

Lemma answer_spec s now e : s_state s ≠ Closed → handle_spec secret s now (answer e, s).
Proof.
  intros Hc. apply handled_refuse; [done | by repeat split | done | by repeat constructor | by left | by left].
Qed.

Lemma read_only_answers s x : read_only_refusal s = Some x → ∃ e, x = answer e.
Proof. unfold read_only_refusal. destruct (refuses_writes s); [intros [= <-]; by eexists | done]. Qed.
Lemma calls_off_answers s x : calls_unavailable s = Some x → ∃ e, x = answer e.
Proof. unfold calls_unavailable. destruct (s_calls s); [done | intros [= <-]; by eexists]. Qed.
Lemma writes_open s : read_only_refusal s = None → refuses_writes s = false.
Proof. unfold read_only_refusal. by destruct (refuses_writes s). Qed.

(** The arms that charge a budget, by state, refusal and charge. *)
Ltac arm :=
  repeat first
    [ apply refused_spec; [congruence | by eauto using read_only_answers, calls_off_answers |]; intros
    | progress (repeat case_match)
    | by apply answer_spec; congruence
    | apply handled_close; by left ].

Ltac charge_arm :=
  apply charged_spec;
    [ simpl; intuition congruence | done | done | done | congruence
    | simpl; try done; intros Hro; by rewrite (writes_open _ ltac:(eassumption)) in Hro ].

Lemma connect_spec s version groups sent_at now :
  s_state s = Fresh →
  handle_spec secret s now (handle_connect secret s version groups sent_at now).
Proof.
  intros Hs. unfold handle_connect.
  destruct (Z.ltb_spec version MIN_PROTOCOL_VERSION); [apply handled_close; by left|].
  assert (MIN_PROTOCOL_VERSION ≤ Z.min version PROTOCOL_VERSION ≤ PROTOCOL_VERSION)
    by (unfold MIN_PROTOCOL_VERSION, PROTOCOL_VERSION in *; lia).
  destruct (Nat.ltb_spec MAX_GROUPS_PER_CONNECTION (length groups)).
  - apply handled_close. right. by exists (Z.min version PROTOCOL_VERSION).
  - cbv zeta. match goal with |- handle_spec _ _ _ (_, ?s') => apply (handled_connect secret s now s') end; done.
Qed.

Lemma sub_spec s group from_seq now :
  s_state s = Ready → handle_spec secret s now (handle_sub s group from_seq now).
Proof.
  intros Hs. unfold handle_sub.
  destruct ((MAX_GROUPS_PER_CONNECTION <=? length (subscribed s))%nat && negb (contains (subscribed s) group)) eqn:Hfull;
    [apply answer_spec; congruence|].
  destruct (frame_charge (budget_of s KSub) now SUB_FRAMES_PER_MINUTE) as [[] b] eqn:Hb; simpl.
  - apply handled_defer; [done | done | | done | | | ].
    + by case_match; repeat split.
    + destruct (contains (subscribed s) group) eqn:Hin; [by left|]. right.
      exists group, from_seq. repeat split; [by apply contains_false|].
      rewrite andb_true_r in Hfull. by apply Nat.leb_gt in Hfull.
    + exists b. split; [done | by case_match].
    + by case_match.
  - apply handled_refuse; [congruence | by repeat split | done | by repeat constructor | | by left].
    right. by exists KSub, b.
Qed.

Lemma media_spec s call stream seq ct now :
  s_state s = Ready → handle_spec secret s now (handle_media s call stream seq ct now).
Proof.
  intros Hs. unfold handle_media.
  apply refused_spec; [congruence | by eauto using calls_off_answers |]. intros _.
  destruct (MAX_MEDIA_CT_BYTES <? len ct); [apply answer_spec; congruence|].
  destruct (negb _); [apply answer_spec; congruence|].
  destruct (media_charge (media_budget s) now call stream (len ct)) as [[[]|e] b] eqn:Hb.
  - by apply handled_defer; [done | done | by repeat split | done | left | |].
  - destruct (should_report b now) as [report b'] eqn:Hr.
    apply handled_refuse; [congruence | by repeat split | done | by destruct report; repeat constructor | by left |].
    right. exists call, stream, (len ct), e, b. rewrite Hr. repeat split; [done|]. unfold len. lia.
Qed.

(** The frame table, case by case: what is deferred is served in that state and
    paid for, what is refused changes nothing but the budget it failed. *)
Lemma handleP s frame now : handle_spec secret s now (handle secret s frame now).
Proof.
  unfold handle.
  destruct (s_state s) eqn:Hs, frame; try (apply handled_close; by left).
  all: try by apply connect_spec.
  all: try by apply sub_spec.
  all: try by apply media_spec.
  all: unfold handle_join, handle_recon, handle_access, handle_wrap, handle_invite, handle_handshake,
    handle_live, handle_keys, handle_wake, handle_call, handle_blob, handle_drop.
  all: arm.
  all: try charge_arm.
  - by apply handled_auth.
  - unfold handle_send. destruct (refuses_writes s) eqn:Hro; [apply answer_spec; congruence|].
    apply handled_defer; [done | done | by repeat split | congruence | by left | done | done].
Qed.

(** A session is closed by exactly the reactions that end the connection. *)
Lemma closes_iff_closed s frame now :
  s_state s ≠ Closed →
  (s_state (snd (handle secret s frame now)) = Closed ↔
   ∃ frames, fst (handle secret s frame now) = ReplyAndClose frames).
Proof.
  intros Hc. destruct (handleP s frame now) as [| |? ? ? ? (?&?)|? ? ? (?&?)|frames s' Hs']; simpl.
  1-4: split; [congruence | by intros [? [=]]].
  split; [by exists frames|]. by destruct Hs' as [-> | (v & -> & _)].
Qed.

Lemma closed_is_final s frame now :
  s_state s = Closed → handle secret s frame now = handle_other s.
Proof. intros Hs. unfold handle. rewrite Hs. by destruct frame. Qed.

(** ** A well-formed session *)
Record session_ok (s : Session) : Prop := {
  ok_subscribed : NoDup (subscribed s) ∧ (length (subscribed s) ≤ MAX_GROUPS_PER_CONNECTION)%nat;
  ok_requested : (length (requested s) ≤ MAX_GROUPS_PER_CONNECTION)%nat;
  ok_version : MIN_PROTOCOL_VERSION ≤ negotiated_version s ≤ PROTOCOL_VERSION;
  ok_budgets k : 0 ≤ fb_spent (budget_of s k) ≤ allowance s k;
  ok_media : media_budget_ok (media_budget s);
  ok_challenge : s_challenge s ≠ [] → s_state s = Challenged ∨ s_state s = Closed
}.

Lemma allowance_pos s k : 0 < allowance s k.
Proof. destruct k; simpl; try done. unfold join_allowance. by destruct (join_reserved s). Qed.

Lemma frame_charge_spent b now a :
  0 ≤ fb_spent b ≤ a → 0 < a → 0 ≤ fb_spent (snd (frame_charge b now a)) ≤ a.
Proof. intros. unfold frame_charge. repeat case_match; simpl in *; try lia. Qed.

Lemma allowance_same s s' k : join_reserved s' = join_reserved s → allowance s' k = allowance s k.
Proof. intros Hj. destruct k; try done. simpl. unfold join_allowance. by rewrite Hj. Qed.

Lemma charge_budgets_ok s s' k now b r :
  (∀ k, 0 ≤ fb_spent (budget_of s k) ≤ allowance s k) → join_reserved s' = join_reserved s →
  frame_charge (budget_of s k) now (allowance s k) = (r, b) → budget_of s' = <[k := b]> (budget_of s) →
  ∀ k', 0 ≤ fb_spent (budget_of s' k') ≤ allowance s' k'.
Proof.
  intros Hok Hj Hb Hs' k'. rewrite Hs', (allowance_same s s' k') by done.
  destruct (decide (k' = k)) as [->|Hne].
  - rewrite fn_lookup_insert. replace b with (snd (frame_charge (budget_of s k) now (allowance s k)))
      by by rewrite Hb. by apply frame_charge_spent, allowance_pos.
  - by rewrite fn_lookup_insert_ne.
Qed.

Lemma media_charge_ok b now call stream bytes :
  0 ≤ bytes → media_budget_ok b → media_budget_ok (snd (media_charge b now call stream bytes)).
Proof. intros. exact (media_step_ok b (mkMediaFrame now call stream bytes) ltac:(done) ltac:(done)). Qed.

Lemma should_report_ok b now : media_budget_ok b → media_budget_ok (snd (should_report b now)).
Proof. unfold should_report. simpl. by case_match. Qed.

Lemma session_new_ok config digest p : session_ok (fst (session_new config digest p)).
Proof.
  split; simpl; [by split; [constructor | lia] | lia | done | | apply media_budget_new_ok | done].
  intros k. split; [done|]. apply Z.lt_le_incl, (allowance_pos (fst (session_new config digest p)) k).
Qed.

(** Every frame keeps the session well formed, whatever it is answered. *)
Lemma handle_ok s frame now : session_ok s → session_ok (snd (handle secret s frame now)).
Proof.
  intros [Hsub Hreq Hver Hbud Hmed Hch].
  destruct (handleP s frame now)
    as [s' c Hs Hs' Hc ? ? ? ? ? Hj ? ? Hs1 Hs2 Hs3 | k sg Hs
       | w s' Hw Ha (Hst&Hc&?&?&?&Hrq&?&Hj&Hv) ? Hsb Hb Hm
       | frames s' Hs (Hst&Hc&?&?&?&Hrq&?&Hj&Hv) Hsb _ Hb Hm | frames s' Hs']; simpl.
  - split; [by rewrite Hs1 | done | done | | by rewrite Hs3 | by left].
    intros k. rewrite Hs2, (allowance_same s s') by done. done.
  - split; simpl; [done | done | done | | done | done]. intros k'. by rewrite (allowance_same s).
  - split; [| by rewrite Hrq | by rewrite Hv | | | by rewrite Hst, Hc].
    + destruct Hsb as [-> | (g & from & _ & Hg & -> & Hlt)]; [done|]. destruct Hsub as [Hnd Hlen].
      rewrite length_app. simpl. split; [|lia].
      apply list.NoDup_app. split; [done|]. split; [|by apply NoDup_singleton].
      intros x Hx Hx'. apply list_elem_of_singleton in Hx' as ->. done.
    + destruct (charge_kind w) as [k|].
      * destruct Hb as (b & Hb & Hb'). by eapply charge_budgets_ok.
      * intros k. by rewrite Hb, (allowance_same s s').
    + destruct w; try by rewrite Hm. replace (media_budget s')
        with (snd (media_charge (media_budget s) now call_id stream (len ct))) by by rewrite Hm.
      apply media_charge_ok; [unfold len; lia | done].
  - split; [by rewrite Hsb | by rewrite Hrq | by rewrite Hv | | | by rewrite Hst, Hc].
    + destruct Hb as [Hb | (k & b & Hb & Hb')]; [intros k; by rewrite Hb, (allowance_same s s')|].
      by eapply charge_budgets_ok.
    + destruct Hm as [-> | (call & st & n & e & b & Hm & -> & Hn)]; [done|]. apply should_report_ok.
      pose proof (media_charge_ok (media_budget s) now call st n Hn Hmed) as Hx. by rewrite Hm in Hx.
  - destruct Hs' as [-> | (v & -> & Hv)]; split; simpl; try done; try (intros; by right);
      intros k; by rewrite (allowance_same s).
Qed.

(** ** Writes while the instance is quiesced *)
(** The same session on an instance that takes writes. *)
Definition unquiesced (s : Session) : Session :=
  mkSession (s_state s) (connection_nonce s) (s_challenge s) (requested s) (authorized_workspace s)
    (subscribed s) (skew_ms s) (s_min_enc s) (source s) (s_device_key s) Full (build_digest s)
    (access_set_enforced s) (refuses_plaintext s) (negotiated_version s) (s_live s) (budget_of s)
    (join_reserved s) (s_calls s) (media_budget s).

Lemma charged_quiesced k a w s now :
  fst (charged k a w (unquiesced s) now) = fst (charged k a w s now).
Proof. unfold charged. simpl. by destruct (frame_charge (budget_of s k) now a) as [[] ?]. Qed.

Lemma charged_work k a w0 w s now : fst (charged k a w0 s now) = Defer w → w = w0.
Proof. unfold charged. destruct (frame_charge _ _ _) as [[] ?]; [by intros [= <-] | done]. Qed.

(** Follow the deferral through the arm to the work item it names. *)
Ltac deferral Hd :=
  repeat match type of Hd with context [match ?x with _ => _ end] => destruct x eqn:?; simpl in Hd end;
  rewrite ?charged_quiesced in Hd;
  try done;
  try (pose proof (charged_work _ _ _ _ _ _ Hd) as ->); simplify_eq/=; eauto 6; try by split.

(** On a quiesced instance the frame table refuses exactly the writes declared
    as its own: a frame whose work it would defer as a [FrameTable] write on an
    instance taking writes is answered [service_read_only] and changes nothing
    of the session, its budgets included; every other work item is still
    deferred, and the only durable writes among those are the media request,
    which its handler refuses, and an invite redemption. *)
Theorem quiesced_writes_refused s frame now w :
  refuses_writes s = true →
  fst (handle secret (unquiesced s) frame now) = Defer w →
  match write_refusal (policy w) with
  | FrameTable => handle secret s frame now = (answer (FrameError_new ServiceReadOnly), s)
  | _ => fst (handle secret s frame now) = Defer w
         ∧ (durability (policy w) = Write → (∃ p, w = BlobTicket p) ∨ (∃ b, w = Redeem b))
  end.
Proof.
  intros Hro. unfold handle. cbn [s_state unquiesced].
  assert (read_only_refusal s = Some (answer (FrameError_new ServiceReadOnly))) as Hr
    by (unfold read_only_refusal; by rewrite Hro).
  assert (read_only_refusal (unquiesced s) = None) as Hu by done.
  destruct (s_state s), frame; try done.
  all: unfold handle_join, handle_recon, handle_access, handle_wrap, handle_invite, handle_handshake,
    handle_live, handle_keys, handle_wake, handle_call, handle_blob, handle_drop, handle_send, handle_sub,
    handle_media; rewrite ?Hr, ?Hu, ?Hro; simpl; intros Hd.
  all: unfold calls_unavailable in *; simpl in *.
  all: try deferral Hd.
  unfold handle_connect in Hd. by repeat case_match; simplify_eq/=.
Qed.
End handle.

(** ** Challenges *)
(** The counter hands out one nonce per connection. *)
Fixpoint open_sessions (config : SessionConfig) (digest : list byte) (n : nat) (p : Process) : list Session :=
  match n with
  | O => []
  | S n => let '(s, p) := session_new config digest p in s :: open_sessions config digest n p
  end.

Lemma open_sessions_nonce config digest n p i s :
  is_u64 (next_connection_nonce p) →
  open_sessions config digest n p !! i = Some s →
  connection_nonce s = (next_connection_nonce p + Z.of_nat i) mod 2 ^ 64.
Proof.
  revert p i. induction n as [|n IH]; intros p i Hp Hi; [done|]. simpl in Hi.
  destruct i as [|i]; simpl in Hi.
  - injection Hi as <-. simpl. rewrite Z.add_0_r, Z.mod_small; [done|].
    unfold is_u64, U64_MAX in Hp. lia.
  - erewrite (IH _ i); [..|exact Hi]; cbn [next_connection_nonce]; unfold fetch_add.
    + rewrite Zplus_mod_idemp_l. f_equal. lia.
    + unfold is_u64, U64_MAX. pose proof (Z.mod_pos_bound (next_connection_nonce p + 1) (2 ^ 64)). lia.
Qed.

(** Distinct connections of one process, fewer than [2^64] apart, hold distinct nonces. *)
Lemma nonces_distinct config digest n p i j s s' :
  is_u64 (next_connection_nonce p) → Z.of_nat n ≤ 2 ^ 64 →
  open_sessions config digest n p !! i = Some s → open_sessions config digest n p !! j = Some s' →
  connection_nonce s = connection_nonce s' → i = j.
Proof.
  intros Hp Hn Hi Hj Heq.
  assert (∀ k x, open_sessions config digest n p !! k = Some x → Z.of_nat k < 2 ^ 64) as Hlt.
  { intros k x Hk. apply lookup_lt_Some in Hk.
    assert (length (open_sessions config digest n p) = n) as Hl
      by (clear; revert p; induction n; intros p; simpl; [done | by f_equal]). lia. }
  rewrite (open_sessions_nonce _ _ _ _ _ _ Hp Hi), (open_sessions_nonce _ _ _ _ _ _ Hp Hj) in Heq.
  pose proof (Hlt _ _ Hi). pose proof (Hlt _ _ Hj).
  set (a := next_connection_nonce p) in *.
  pose proof (Z.div_mod (a + Z.of_nat i) (2 ^ 64)). pose proof (Z.div_mod (a + Z.of_nat j) (2 ^ 64)).
  nia.
Qed.

Lemma be_bytes_inj n a b : 0 ≤ a < 256 ^ Z.of_nat n → 0 ≤ b < 256 ^ Z.of_nat n →
  be_bytes n a = be_bytes n b → a = b.
Proof. intros Ha Hb Heq. rewrite <- (be_value_bytes_small n a), <- (be_value_bytes_small n b) by done. by rewrite Heq. Qed.

(** Two connections whose challenges agree have broken the hash. *)
Lemma challenge_collision `{Blake3} secret now now' groups groups' nonce nonce' :
  is_u64 nonce → is_u64 nonce' → nonce ≠ nonce' →
  challenge_bytes secret now groups nonce = challenge_bytes secret now' groups' nonce' →
  collision (challenge_input secret now groups nonce) (challenge_input secret now' groups' nonce').
Proof.
  intros Hn Hn' Hne Heq. split; [|done]. intros Hin. apply Hne.
  unfold challenge_input in Hin. apply app_inv_head, app_inv_head in Hin.
  apply app_inj_1 in Hin as [Hin _]; [|by rewrite !length_be_bytes].
  unfold is_u64, U64_MAX in *. by apply (be_bytes_inj 8) in Hin; [| lia ..].
Qed.

(** ** Clock skew *)
Lemma skew_reports client relay :
  0 ≤ client ≤ I64_MAX → 0 ≤ relay ≤ I64_MAX →
  skew client relay =
    if CLOCK_SKEW_LIMIT_MS <? Z.abs (client - relay) then Some (client - relay) else None.
Proof.
  intros Hc Hr. unfold skew, i64_of_u64.
  rewrite (proj2 (Z.leb_le client _)), (proj2 (Z.leb_le relay _)) by lia.
  unfold i64_saturating. replace (Z.max I64_MIN (Z.min I64_MAX (client - relay))) with (client - relay); [done|].
  unfold I64_MIN, I64_MAX in *. lia.
Qed.

(** ** A quiesced instance at work *)
Definition quiesced_config : SessionConfig := mkSessionConfig (mkConfig ReadOnly FloorMls Unlimited) Enforce LiveOn CallsOn.
Definition quiesced_session : Session :=
  bind_device (snd (authenticated (fst (session_new quiesced_config [] (mkProcess 7 []))) 0)) [Byte.x01].

#[local] Instance session_digest : Blake3 := toy_digest.

Lemma quiesced_writes_refused_witness :
  handle [] quiesced_session (Wake (Register [] 1 50)) 40
    = (answer (FrameError_new ServiceReadOnly), quiesced_session)
  ∧ fst (handle [] quiesced_session (Wake Query) 40) = Defer (WakeRegistration Query).
Proof.
  split.
  - exact (quiesced_writes_refused [] quiesced_session (Wake (Register [] 1 50)) 40
             (WakeRegistration (Register [] 1 50)) eq_refl ltac:(by vm_compute)).
  - exact (proj1 (quiesced_writes_refused [] quiesced_session (Wake Query) 40
             (WakeRegistration Query) eq_refl ltac:(by vm_compute))).
Defined.

(** A reserved connection is charged the reserved allowance, not the ceiling its
    work item declares. *)
Lemma reserved_join_exceeds_declared s b :
  join_reserved s = true →
  frames_per_minute (policy (Redeem b)) = Some 20 ∧ allowance s KJoin = 534.
Proof. intros Hj. split; [done|]. simpl. unfold join_allowance. by rewrite Hj. Qed.
