(* ===== verification/Connection.v ===== *)
(** * Serving one connection

    Models the reader's half of [backend/wealdrelay/src/ws.rs]:
    [handle_message], the parts of [perform] that change the session (the
    whole [AUTH] arm, the refused [SUB], the reservation a [JOIN] makes), and
    the loop that hands one message after another to them. What the access
    set, the hub, the invite store and the outbound queue answer is an [Env]
    per message, so a theorem over all environments covers whatever they do;
    [Revocation] puts the access-set chain and the hub in their place.

    The second half is the contract of the frame table as a small machine,
    [gate_step], and the proof that a served connection refines it. *)

From Stdlib Require Import ZArith Lia.
From stdpp Require Import base tactics numbers functions relations sorting list.
From S2P Require Import Prelude Cbor Push Frame Crypto Access Envelope Accept Budgets Calls Session.

Open Scope Z_scope.

Inductive Message : Type := Binary (bytes : list byte) | Text | TransportPing | TransportClose.

(** [Admitted]: what the access set said about a connecting device. *)
Inductive AdmitOutcome : Type :=
| InSet (entry : list byte) (workspace : option (list byte))
| Bootstrap (workspace : list byte)
| AdmitRefused (code : ErrorCode).

(** What the rest of the relay answers while one message is handled. *)
Record Env : Type := mkEnv {
  env_revoked : bool;            (** [sender.is_evicted()] in the loop, before the message *)
  env_evicted : bool;            (** [sender.is_evicted()] in [perform] *)
  env_admit : list byte → AdmitOutcome;    (** the first [admit], by device key *)
  env_confirm : list byte → AdmitOutcome;  (** the second [admit], after [hub.identify] *)
  env_remaining : Z;             (** [key_packages_remaining] *)
  env_authorized : bool;         (** [authorize_group] *)
  env_holds : bool;              (** [hub.holds] *)
  env_reserved : bool;           (** [reserve::reserve] answered [Reserved] *)
  env_continue : bool            (** the answers fitted the queue *)
}.

(** What one message makes the relay do. *)
Inductive Action : Type :=
| Issued (challenge : list byte)
| Proved (device_key signature challenge : list byte) (founding : bool)
| Performed (w : Work)
| Answered (frames : list Frame)
| Ended.

Section connection.
Context `{UrlLib, Blake3, Ed25519}.

(** The [AUTH] arm of [perform]. *)
Definition perform_authenticate (env : Env) (s : Session) (device_key signature challenge : list byte) :
    bool * list Action * Session :=
  if negb (verify device_key challenge signature) then
    let '(frames, s) := rejected s WriterNotInAccessSet in (false, [Answered frames], s)
  else
    match env_admit env device_key with
    | InSet entry workspace =>
        let confirmed :=
          match env_confirm env device_key with InSet confirmed _ => bool_decide (confirmed = entry) | _ => false end in
        if negb confirmed then
          let '(frames, s) := rejected s WriterNotInAccessSet in (false, [Answered frames], s)
        else
          let '(ack, s) := authenticated s (env_remaining env) in
          let s := match workspace with Some w => bind_workspace s w | None => s end in
          let s := bind_device s device_key in
          (env_continue env, [Proved device_key signature challenge false; Answered [ack]], s)
    | Bootstrap workspace =>
        let '(ack, s) := bootstrapping s (env_remaining env) in
        let s := bind_device (bind_workspace s workspace) device_key in
        (env_continue env, [Proved device_key signature challenge true; Answered [ack]], s)
    | AdmitRefused code =>
        let '(frames, s) := rejected s code in (false, [Answered frames], s)
    end.

Definition perform (env : Env) (s : Session) (w : Work) : bool * list Action * Session :=
  if env_evicted env && match w with AcceptEnvelope _ | Subscribe _ _ => true | _ => false end
  then (false, [Answered [Error (FrameError_new WriterNotInAccessSet)]], s)
  else
    match w with
    | Authenticate device_key signature challenge => perform_authenticate env s device_key signature challenge
    | Subscribe group _ =>
        if env_authorized env then (env_continue env, [Performed w], s)
        else (env_continue env, [Performed w],
              if env_holds env then s else forget_subscription s group)
    | Redeem _ => (env_continue env, [Performed w], if env_reserved env then note_join_reserved s else s)
    | _ => (env_continue env, [Performed w], s)
    end.

(** The challenge a [CONNECT] answer carries is its [Issued] action. *)
Definition issued_in (frames : list Frame) : list Action :=
  flat_map (λ f, match f with AuthChallenge c => [Issued c] | _ => [] end) frames.

Definition handle_message (secret : list byte) (env : Env) (s : Session) (m : Message) (now_ms : Z) :
    bool * list Action * Session :=
  match m with
  | Text => (false, [Answered [Error (FrameError_new MalformedHeader)]], s)
  | TransportPing | TransportClose => (true, [], s)
  | Binary bytes =>
      if MAX_FRAME_BYTES <? len bytes then
        (false, [Answered [Error (FrameError_new EnvelopeTooLarge)]], s)
      else
        match frame_decode bytes with
        | Err error =>
            (match error with FrameUnsupportedVersion _ => false | _ => true end,
             [Answered [Error (FrameError_new (decode_error_code error))]], s)
        | Ok frame =>
            let '(reaction, s) := handle secret s frame now_ms in
            match reaction with
            | Reply frames => (env_continue env, issued_in frames ++ [Answered frames], s)
            | ReplyAndClose frames => (false, [Answered frames], s)
            | Defer w => perform env s w
            end
        end
  end.

Record Input : Type := mkInput { in_message : Message; in_now : Z; in_env : Env }.

(** The reader's loop: one message at a time, until one ends the connection. *)
Fixpoint serve (secret : list byte) (s : Session) (inputs : list Input) : list Action * Session :=
  match inputs with
  | [] => ([], s)
  | i :: rest =>
      if env_revoked (in_env i) then ([Ended], s)
      else
        let '(continue, actions, s) := handle_message secret (in_env i) s (in_message i) (in_now i) in
        if continue then
          let '(more, s) := serve secret s rest in (actions ++ more, s)
        else (actions ++ [Ended], s)
  end.

(** The loop's actions, each beside what the rest of the relay answered while
    the message that caused it was handled. *)
Fixpoint serve_log (secret : list byte) (s : Session) (inputs : list Input) : list (Env * Action) :=
  match inputs with
  | [] => []
  | i :: rest =>
      if env_revoked (in_env i) then [(in_env i, Ended)]
      else
        let '(continue, actions, s) := handle_message secret (in_env i) s (in_message i) (in_now i) in
        (pair (in_env i) <$> actions) ++ (if continue then serve_log secret s rest else [(in_env i, Ended)])
  end.

(** ** The contract: what a connection may do, and when *)
Inductive Gate : Type :=
| Unasked
| Asked (challenge : list byte)
| Member (device_key : list byte)
| Founder (device_key : list byte)
| Gone.

(** Both reads of the access set carried the key, under one entry. *)
Definition in_set (env : Env) (k : list byte) : Prop :=
  ∃ entry first second, env_admit env k = InSet entry first ∧ env_confirm env k = InSet entry second.

Inductive gate_step : Gate → Env * Action → Gate → Prop :=
| gate_issue env c : gate_step Unasked (env, Issued c) (Asked c)
| gate_member env k sg c :
    verify k c sg = true → in_set env k → gate_step (Asked c) (env, Proved k sg c false) (Member k)
| gate_founder env k sg c workspace :
    verify k c sg = true → env_admit env k = Bootstrap workspace →
    gate_step (Asked c) (env, Proved k sg c true) (Founder k)
| gate_redeem env g b : g ≠ Gone → gate_step g (env, Performed (Redeem b)) g
| gate_publish env k b : gate_step (Founder k) (env, Performed (RotateAccessSet b)) (Founder k)
| gate_content env k w :
    (∀ k sg c, w ≠ Authenticate k sg c) →
    (∀ e, w = AcceptEnvelope e → env_evicted env = false) →
    (∀ g b, w = Subscribe g b → env_evicted env = false) →
    gate_step (Member k) (env, Performed w) (Member k)
| gate_answer env g fs : g ≠ Gone → gate_step g (env, Answered fs) g
| gate_end env g : g ≠ Gone → gate_step g (env, Ended) Gone.

Inductive gate_run : Gate → list (Env * Action) → Gate → Prop :=
| gate_stop g : gate_run g [] g
| gate_cons g1 a g2 l g3 : gate_step g1 a g2 → gate_run g2 l g3 → gate_run g1 (a :: l) g3.

(** The session a gate stands for, while the connection is open. *)
Definition at_gate (s : Session) (g : Gate) : Prop :=
  match g with
  | Unasked => s_state s = Fresh
  | Asked c => s_state s = Challenged ∧ s_challenge s = c
  | Member k => s_state s = Ready ∧ s_device_key s = Some k
  | Founder k => s_state s = Bootstrapping ∧ s_device_key s = Some k
  | Gone => False
  end.
End connection.

(** ** The refinement *)
Section refinement.
Context `{UrlLib, Blake3, Ed25519}.
Variable secret : list byte.

Lemma gate_run_app g1 l1 g2 l2 g3 : gate_run g1 l1 g2 → gate_run g2 l2 g3 → gate_run g1 (l1 ++ l2) g3.
Proof. induction 1; simpl; [done | intros; econstructor; eauto]. Qed.

Lemma gate_run_one g1 a g2 : gate_step g1 a g2 → gate_run g1 [a] g2.
Proof. intros. econstructor; [done | constructor]. Qed.

(** What handling one message owes the contract: its actions are a run of the
    gate, and where the connection goes on the session is at the gate reached. *)
Definition step_refines (env : Env) (g : Gate) (res : bool * list Action * Session) : Prop :=
  ∃ g', gate_run g (pair env <$> snd (fst res)) g' ∧ g' ≠ Gone ∧ (fst (fst res) = true → at_gate (snd res) g').

Lemma answered_refines env g continue frames s :
  g ≠ Gone → (continue = true → at_gate s g) → step_refines env g (continue, [Answered frames], s).
Proof. intros Hg Hc. exists g. split; [by apply gate_run_one, gate_answer | by split]. Qed.

Lemma performed_refines env g continue w s :
  gate_step g (env, Performed w) g → g ≠ Gone → at_gate s g → step_refines env g (continue, [Performed w], s).
Proof. intros Hg Hn Hc. exists g. split; [by apply gate_run_one | by split]. Qed.

Lemma at_gate_open s g : at_gate s g → g ≠ Gone.
Proof. by destruct g. Qed.

Lemma at_gate_same s s' g : at_gate s g → same_identity s s' → at_gate s' g.
Proof. intros Hg (Hst & Hc & _ & Hd & _). destruct g; simpl in *; rewrite ?Hst, ?Hc, ?Hd; done. Qed.

Lemma authenticate_refines env s k sg c :
  at_gate (with_challenge s c) (Asked c) →
  step_refines env (Asked c) (perform_authenticate env s k sg c).
Proof.
  intros [Hs _]. unfold perform_authenticate.
  destruct (verify k c sg) eqn:Hv; simpl; [|by apply answered_refines].
  destruct (env_admit env k) as [entry ws | ws | code] eqn:Hadmit; simpl; [| |by apply answered_refines].
  - destruct (env_confirm env k) as [again ws' | |] eqn:Hconfirm; simpl; try by apply answered_refines.
    case_bool_decide as Hagain; simpl; [subst again|by apply answered_refines].
    exists (Member k). split.
    { econstructor; [apply gate_member; [done | by exists entry, ws, ws']|]. by apply gate_run_one, gate_answer. }
    split; [done|]. intros _. by destruct ws.
  - exists (Founder k). split.
    { econstructor; [by eapply gate_founder|]. by apply gate_run_one, gate_answer. }
    by split.
Qed.

(** The work a state serves is the work its gate lets through. *)
Lemma served_gate env s g w :
  at_gate s g → served_in (s_state s) w → (∀ k sg c, w ≠ Authenticate k sg c) →
  (∀ e, w = AcceptEnvelope e → env_evicted env = false) →
  (∀ g' b, w = Subscribe g' b → env_evicted env = false) →
  gate_step g (env, Performed w) g.
Proof.
  intros Hg Hw Ha. destruct g; simpl in Hg; [| | | |done].
  - destruct w; simpl in Hw; try (rewrite Hg in Hw; intuition discriminate). by intros; apply gate_redeem.
  - destruct Hg as [Hg _]. destruct w; simpl in Hw; try (rewrite Hg in Hw; intuition discriminate).
    + by edestruct Ha.
    + by intros; apply gate_redeem.
  - by apply gate_content.
  - destruct Hg as [Hg _]. destruct w; simpl in Hw; try (rewrite Hg in Hw; intuition discriminate).
    + intros; apply gate_publish.
    + by intros; apply gate_redeem.
Qed.

Lemma perform_refines env s g w :
  at_gate s g → served_in (s_state s) w → (∀ k sg c, w ≠ Authenticate k sg c) →
  step_refines env g (perform env s w).
Proof.
  intros Hg Hw Ha. pose proof (served_gate env s g w Hg Hw Ha) as Hstep. pose proof (at_gate_open s g Hg) as Ho.
  unfold perform. destruct (env_evicted env) eqn:Hev.
  - destruct w; simpl; try (by apply answered_refines);
      try (apply performed_refines; [by apply Hstep | done | done]).
    + by edestruct Ha.
    + apply performed_refines; [by apply Hstep | done |]. destruct (env_reserved env); [|done]. by destruct g.
  - assert (gate_step g (env, Performed w) g) as Hgate by by apply Hstep. clear Hstep. simpl.
    destruct w; try by apply performed_refines.
    + by edestruct Ha.
    + destruct (env_authorized env); [by apply performed_refines|].
      apply performed_refines; [done..|]. destruct (env_holds env); [done|]. by destruct g.
    + apply performed_refines; [done..|]. destruct (env_reserved env); [|done]. by destruct g.
Qed.

Lemma errors_issue_nothing frames : Forall is_error frames → issued_in frames = [].
Proof. induction 1 as [|f fs Hf _ IH]; [done|]. simpl. rewrite IH. by destruct f. Qed.

Lemma handle_message_refines env s g m now :
  at_gate s g → step_refines env g (handle_message secret env s m now).
Proof.
  intros Hg. pose proof (at_gate_open s g Hg) as Ho.
  destruct m as [bytes | | |]; simpl; [| by apply answered_refines | by (exists g; split; [apply gate_stop | by split]) ..].
  destruct (MAX_FRAME_BYTES <? len bytes); [by apply answered_refines|].
  destruct (frame_decode bytes) as [f|e]; [|by apply answered_refines].
  destruct (handleP secret s f now)
    as [s' c Hs Hs' Hc ? ? Hd | k sg Hs | w s' Hw Ha Hid | frames s' Hs Hid Hsb Herr | frames s' Hs']; simpl.
  - destruct g; simpl in Hg; try (congruence || (destruct Hg; congruence)).
    exists (Asked c). split; [|by repeat split].
    econstructor; [apply gate_issue | by apply gate_run_one, gate_answer].
  - destruct g; simpl in Hg; try (congruence || (destruct Hg; congruence)). destruct Hg as [_ <-].
    unfold perform. rewrite andb_false_r. apply authenticate_refines. by split.
  - assert (s_state s' = s_state s) as Heq by apply Hid.
    apply perform_refines; [by eapply at_gate_same | by rewrite Heq | done].
  - rewrite errors_issue_nothing by done. apply answered_refines; [done|]. intros _. by eapply at_gate_same.
  - by apply answered_refines.
Qed.

Lemma serve_log_actions s inputs : fst (serve secret s inputs) = snd <$> serve_log secret s inputs.
Proof.
  revert s. induction inputs as [|i inputs IH]; intros s; simpl; [done|].
  destruct (env_revoked (in_env i)); [done|].
  destruct (handle_message secret (in_env i) s (in_message i) (in_now i)) as [[continue actions] s'].
  rewrite fmap_app, <- list_fmap_compose. rewrite (list_fmap_ext _ id actions), list_fmap_id by done.
  destruct continue; [|done]. specialize (IH s'). destruct (serve secret s' inputs). simpl in *. by rewrite IH.
Qed.

Lemma serve_refines s inputs :
  s_state s = Fresh → ∃ g, gate_run Unasked (serve_log secret s inputs) g.
Proof.
  intros Hs. assert (at_gate s Unasked) as Hg by done. revert Hg. generalize Unasked. clear Hs.
  revert s. induction inputs as [|i inputs IH]; intros s g Hg; simpl; [exists g; constructor|].
  destruct (env_revoked (in_env i)).
  { exists Gone. by apply gate_run_one, gate_end, (at_gate_open s). }
  destruct (handle_message_refines (in_env i) s g (in_message i) (in_now i) Hg) as (g' & Hrun & Ho & Hat).
  destruct (handle_message secret (in_env i) s (in_message i) (in_now i)) as [[continue actions] s']; simpl in *.
  destruct continue.
  - destruct (IH s' g' (Hat eq_refl)) as [g'' Hrest]. exists g''. by eapply gate_run_app.
  - exists Gone. eapply gate_run_app; [done|]. by apply gate_run_one, gate_end.
Qed.

(** C2. A served connection refines its contract: from a fresh session, whatever
    messages arrive and whatever the rest of the relay answers, what it does,
    beside what it was answered, is a run of the gate. There is one challenge,
    then at most one proof: a signature of that very challenge that verifies, by
    a key that both reads of the access set carried under one entry (a member)
    or that the access set answered is founding its workspace (a founder). Work
    other than an invite redemption comes only after the proof; a member's
    envelope or subscription only while it is not evicted, a founder's only
    work is the access-set publication; nothing follows the end. *)
Theorem connection_refines_gate s inputs :
  s_state s = Fresh →
  fst (serve secret s inputs) = snd <$> serve_log secret s inputs
  ∧ ∃ g, gate_run Unasked (serve_log secret s inputs) g.
Proof. split; [apply serve_log_actions | by apply serve_refines]. Qed.

(** ** What the contract gives *)
Lemma gate_run_split g1 l1 l2 g3 :
  gate_run g1 (l1 ++ l2) g3 → ∃ g2, gate_run g1 l1 g2 ∧ gate_run g2 l2 g3.
Proof.
  revert g1. induction l1 as [|a l1 IH]; intros g1 Hr; [by exists g1; split; [constructor|]|].
  inversion Hr as [|? ? g2 ? ? Hs Hr']; subst. destruct (IH _ Hr') as (g & H3 & H4).
  exists g. by split; [econstructor|].
Qed.

(** [l] issued [c] and then proved [k] over it, the access set answering as
    the kind of proof needs. *)
Definition proved_in (l : list (Env * Action)) (k sg c : list byte) (founding : bool) : Prop :=
  verify k c sg = true ∧ ∃ env l1 env' l2 l3,
    l = l1 ++ (env', Issued c) :: l2 ++ (env, Proved k sg c founding) :: l3
    ∧ if founding then ∃ workspace, env_admit env k = Bootstrap workspace else in_set env k.

Definition history (l : list (Env * Action)) (g : Gate) : Prop :=
  match g with
  | Asked c => ∃ l1 env l2, l = l1 ++ (env, Issued c) :: l2
  | Member k => ∃ sg c, proved_in l k sg c false
  | Founder k => ∃ sg c, proved_in l k sg c true
  | Unasked | Gone => True
  end.

Lemma proved_in_app l k sg c f a : proved_in l k sg c f → proved_in (l ++ [a]) k sg c f.
Proof.
  intros (Hv & env & l1 & env' & l2 & l3 & -> & Ha). split; [done|].
  exists env, l1, env', l2, (l3 ++ [a]). split; [|done]. by rewrite <- app_assoc; simpl; rewrite <- app_assoc.
Qed.

Lemma history_app l g a : history l g → history (l ++ [a]) g.
Proof.
  destruct g; simpl; try done.
  - intros (l1 & env & l2 & ->). exists l1, env, (l2 ++ [a]). by rewrite <- app_assoc.
  - intros (sg & c & Hp). exists sg, c. by apply proved_in_app.
  - intros (sg & c & Hp). exists sg, c. by apply proved_in_app.
Qed.

Lemma gate_history l g : gate_run Unasked l g → history l g.
Proof.
  revert g. induction l as [|a l IH] using rev_ind; intros g Hr; [by inversion Hr|].
  apply gate_run_split in Hr as (g' & Hr & Hs).
  inversion Hs as [|? ? ? ? ? Hstep Hnil]; subst. inversion Hnil; subst. specialize (IH _ Hr).
  inversion Hstep; subst; try (by apply history_app); simpl.
  - by eexists l, _, [].
  - destruct IH as (l1 & env' & l2 & ->). exists sg, c. split; [done|]. exists env, l1, env', l2, [].
    by rewrite <- app_assoc.
  - destruct IH as (l1 & env' & l2 & ->). exists sg, c. split; [done|]. exists env, l1, env', l2, [].
    rewrite <- app_assoc. split; [done|]. by eexists.
Qed.

(** No content before proof: whatever a connection is sent, any work it hands
    on other than an invite redemption comes after it issued a challenge and
    after a signature of that challenge, by a key the access set answered for,
    verified; a founding proof lets through the access-set publication only. *)
Theorem content_needs_proof s inputs l1 env w l2 :
  s_state s = Fresh → serve_log secret s inputs = l1 ++ (env, Performed w) :: l2 →
  (∃ b, w = Redeem b)
  ∨ (∃ k sg c, proved_in l1 k sg c false)
  ∨ (∃ k sg c b, proved_in l1 k sg c true ∧ w = RotateAccessSet b).
Proof.
  intros Hs Heq. destruct (serve_refines s inputs Hs) as [g Hr].
  rewrite Heq in Hr. apply gate_run_split in Hr as (g1 & Hr & Hs1).
  inversion Hs1 as [|? ? g2 ? ? Hstep _]; subst. apply gate_history in Hr.
  inversion Hstep; subst; simpl in Hr; naive_solver.
Qed.

(** ** The challenge is this connection's *)
Definition mine (s : Session) (c : list byte) : Prop :=
  ∃ now groups, c = challenge_bytes secret now groups (connection_nonce s).

Lemma perform_nonce env s w :
  connection_nonce (snd (perform env s w)) = connection_nonce s
  ∧ ∀ c, Issued c ∉ snd (fst (perform env s w)).
Proof.
  unfold perform, perform_authenticate, rejected, authenticated, bootstrapping.
  destruct w; repeat case_match; simpl in *; simplify_eq; simpl;
    (split; [done|]); intros c0; set_solver.
Qed.

Lemma handle_message_mine env s m now :
  let res := handle_message secret env s m now in
  connection_nonce (snd res) = connection_nonce s ∧ ∀ c, Issued c ∈ snd (fst res) → mine s c.
Proof.
  destruct m as [bytes | | |]; simpl; try (split; [done|]; set_solver).
  destruct (MAX_FRAME_BYTES <? len bytes); [simpl; split; [done|]; set_solver|].
  destruct (frame_decode bytes) as [f|e]; [|simpl; split; [done|]; set_solver].
  destruct (handleP secret s f now)
    as [s' c Hs Hs' Hc Hcb Hn | k sg Hs | w s' Hw Ha (_&_&Hn&_) | frames s' Hs (_&_&Hn&_) _ Herr | frames s' Hs'];
    simpl.
  - split; [done|]. intros c' Hin.
    assert (c' = c) as -> by set_solver. by exists now, (requested s').
  - destruct (perform_nonce env (with_challenge s []) (Authenticate k sg (s_challenge s))) as [Hn Hno].
    split; [done|]. intros c Hin. by destruct (Hno c).
  - destruct (perform_nonce env s' w) as [Hn' Hno]. split; [congruence|]. intros c Hin. by destruct (Hno c).
  - rewrite errors_issue_nothing by done. split; [done|]. set_solver.
  - split; [|set_solver]. by destruct Hs' as [-> | (v & -> & _)].
Qed.

Lemma serve_issues_mine s inputs c : Issued c ∈ fst (serve secret s inputs) → mine s c.
Proof.
  revert s. induction inputs as [|i inputs IH]; intros s; simpl; [set_solver|].
  destruct (env_revoked (in_env i)); [set_solver|].
  destruct (handle_message_mine (in_env i) s (in_message i) (in_now i)) as [Hn Hi].
  destruct (handle_message secret (in_env i) s (in_message i) (in_now i)) as [[continue actions] s']; simpl in *.
  specialize (IH s'). unfold mine in *. rewrite Hn in IH. destruct continue.
  - destruct (serve secret s' inputs) as [more s'']; simpl in *. rewrite elem_of_app. intuition.
  - simpl. rewrite elem_of_app. intros [Hin|Hin]; [by apply Hi | set_solver].
Qed.

Lemma gate_proof_issued l g k sg c f :
  gate_run Unasked l g → Proved k sg c f ∈ (snd <$> l) → Issued c ∈ (snd <$> l) ∧ verify k c sg = true.
Proof.
  intros Hr ([env a] & Ha & Hin)%list_elem_of_fmap. simpl in Ha. subst a.
  apply list_elem_of_split in Hin as (l1 & l2 & ->).
  apply gate_run_split in Hr as (g1 & Hr & Hs). inversion Hs as [|? ? g2 ? ? Hstep _]; subst.
  apply gate_history in Hr.
  inversion Hstep; subst; simpl in Hr; destruct Hr as (l3 & env' & l4 & ->); (split; [|done]);
    rewrite !fmap_app; simpl; set_solver.
Qed.

(** A proof is good on one connection only: where two connections of one relay
    process, with different nonces, each accepted a proof over the same challenge,
    two different hash inputs have collided. A signature captured on one socket
    authenticates no other. *)
Theorem proof_binds_connection s1 inputs1 s2 inputs2 k1 sg1 k2 sg2 c f1 f2 :
  s_state s1 = Fresh → s_state s2 = Fresh →
  is_u64 (connection_nonce s1) → is_u64 (connection_nonce s2) → connection_nonce s1 ≠ connection_nonce s2 →
  Proved k1 sg1 c f1 ∈ fst (serve secret s1 inputs1) →
  Proved k2 sg2 c f2 ∈ fst (serve secret s2 inputs2) →
  ∃ a b, collision a b.
Proof.
  intros Hs1 Hs2 Hn1 Hn2 Hne Hp1 Hp2. rewrite serve_log_actions in Hp1, Hp2.
  destruct (serve_refines s1 inputs1 Hs1) as [g1 Hr1]. destruct (serve_refines s2 inputs2 Hs2) as [g2 Hr2].
  destruct (gate_proof_issued _ _ _ _ _ _ Hr1 Hp1) as [Hi1 _].
  destruct (gate_proof_issued _ _ _ _ _ _ Hr2 Hp2) as [Hi2 _].
  rewrite <- serve_log_actions in Hi1, Hi2.
  destruct (serve_issues_mine _ _ _ Hi1) as (now1 & gs1 & ->).
  destruct (serve_issues_mine _ _ _ Hi2) as (now2 & gs2 & Heq).
  eexists _, _. exact (challenge_collision secret now1 now2 gs1 gs2 _ _ Hn1 Hn2 Hne Heq).
Qed.

(** ** The session stays well formed *)
(** A session that may work has a device key bound to it. *)
Definition bound (s : Session) : Prop :=
  s_state s = Ready ∨ s_state s = Bootstrapping → s_device_key s ≠ None.

Lemma session_ok_perform env s w :
  session_ok s → (∀ k sg c, w = Authenticate k sg c → s_challenge s = []) → bound s →
  session_ok (snd (perform env s w)) ∧ bound (snd (perform env s w)).
Proof.
  intros Hok Hch Hb. unfold perform. destruct (env_evicted env && _); [done|].
  destruct w; try done; simpl.
  - destruct Hok as [Hsub Hreq Hver Hbud Hmed _]. specialize (Hch _ _ _ eq_refl).
    unfold perform_authenticate, rejected, authenticated, bootstrapping.
    repeat case_match; simplify_eq/=; (split; [split; simpl; done || congruence |]); unfold bound; simpl; naive_solver.
  - destruct (env_authorized env); [done|]. destruct (env_holds env); [done|].
    destruct Hok as [[Hnd Hlen] Hreq Hver Hbud Hmed Hc]. simpl. split; [split; simpl; try done | done].
    split; [by apply NoDup_filter|]. etrans; [apply length_filter | done].
  - destruct (env_reserved env); [|done]. destruct Hok as [Hsub Hreq Hver Hbud Hmed Hc].
    split; [split; simpl; try done | done]. intros k. specialize (Hbud k).
    destruct k; try done. simpl in *. unfold join_allowance, note_join_reserved in *. simpl in *. destruct (join_reserved s); [done|].
    unfold JOIN_FRAMES_PER_MINUTE_RESERVED, JOIN_FRAMES_PER_MINUTE, MAX_SCOPES in *. lia.
Qed.

Lemma handle_message_ok env s m now :
  session_ok s → bound s →
  session_ok (snd (handle_message secret env s m now)) ∧ bound (snd (handle_message secret env s m now)).
Proof.
  intros Hok Hb. destruct m as [bytes | | |]; simpl; try done.
  destruct (MAX_FRAME_BYTES <? len bytes); [done|]. destruct (frame_decode bytes) as [f|e]; [|done].
  pose proof (handle_ok secret s f now Hok) as Hok'.
  assert (bound (snd (handle secret s f now))) as Hb'.
  { destruct (handleP secret s f now) as [| |? ? ? ? (Hst&_&_&Hd&_)|? ? ? (Hst&_&_&Hd&_)|? ? Hs'];
      unfold bound in *; simpl in *; try rewrite Hst, Hd; try done; naive_solver congruence. }
  assert (∀ k sg c, fst (handle secret s f now) = Defer (Authenticate k sg c) →
            s_challenge (snd (handle secret s f now)) = []) as Hch.
  { destruct (handleP secret s f now) as [| |w ? ? Ha|? ? ? ?|? ? ?]; simpl; try done.
    intros k sg c [= ->]. by edestruct Ha. }
  destruct (handle secret s f now) as [[frames|frames|w] s']; simpl in *; try done.
  apply session_ok_perform; [done | | done]. intros k sg c ->. by eapply Hch.
Qed.

(** C39. Every session the relay serves is well formed at every point: distinct
    subscriptions, at most 256 of them, a negotiated version this build speaks,
    every budget within its allowance, no challenge left once one was answered,
    and no session that may work without the device key that proved itself. *)
Theorem served_session_ok config digest p inputs :
  session_ok (snd (serve secret (fst (session_new config digest p)) inputs))
  ∧ bound (snd (serve secret (fst (session_new config digest p)) inputs)).
Proof.
  assert (∀ s, session_ok s → bound s →
    session_ok (snd (serve secret s inputs)) ∧ bound (snd (serve secret s inputs))) as Hgen.
  { induction inputs as [|i inputs IH]; intros s Hok Hb; simpl; [done|].
    destruct (env_revoked (in_env i)); [done|].
    destruct (handle_message_ok (in_env i) s (in_message i) (in_now i) Hok Hb) as [Hok' Hb'].
    destruct (handle_message secret (in_env i) s (in_message i) (in_now i)) as [[continue actions] s']; simpl in *.
    destruct continue; [|done]. specialize (IH s' Hok' Hb'). by destruct (serve secret s' inputs). }
  apply Hgen; [apply session_new_ok|]. by intros [?|?].
Qed.

(** ** The pace of a connection *)
Definition charged_to (k : BudgetKind) (a : Action) : bool :=
  match a with Performed w => bool_decide (charge_kind w = Some k) | _ => false end.
Definition charges (k : BudgetKind) (l : list Action) : Z := foldr (λ a n, (if charged_to k a then 1 else 0) + n) 0 l.

(** The allowance of a kind, by whether a reservation has been made. *)
Definition ceiling (reserved : bool) (k : BudgetKind) : Z :=
  match k with
  | KJoin => if reserved then JOIN_FRAMES_PER_MINUTE_RESERVED else JOIN_FRAMES_PER_MINUTE
  | KLive => LIVE_FRAMES_PER_MINUTE | KKeys => KEYS_FRAMES_PER_MINUTE | KWake => WAKE_FRAMES_PER_MINUTE
  | KHandshake => HANDSHAKE_FRAMES_PER_MINUTE | KAccess => ACCESS_FRAMES_PER_MINUTE
  | KWrap => WRAP_FRAMES_PER_MINUTE | KInvite => INVITE_FRAMES_PER_MINUTE | KSub => SUB_FRAMES_PER_MINUTE
  | KRecon => RECON_FRAMES_PER_MINUTE | KBlob => BLOB_FRAMES_PER_MINUTE | KDrop => DROP_FRAMES_PER_MINUTE
  | KCall => CALL_FRAMES_PER_MINUTE
  end.

Lemma charges_app k l l' : charges k (l ++ l') = charges k l + charges k l'.
Proof. unfold charges. induction l as [|a l IH]; simpl; [done|]. rewrite IH. lia. Qed.

Lemma perform_charges env s w k :
  budget_of (snd (perform env s w)) = budget_of s
  ∧ (join_reserved (snd (perform env s w)) = join_reserved s ∨ env_reserved env = true)
  ∧ charges k (snd (fst (perform env s w))) ≤ (if bool_decide (charge_kind w = Some k) then 1 else 0).
Proof.
  unfold perform, perform_authenticate, rejected, authenticated, bootstrapping, charges.
  destruct (env_evicted env && _); simpl; [repeat split; [by left|]; case_match; lia|].
  destruct w; simpl; try (repeat split; [by left | case_match; lia]);
    repeat case_match; simplify_eq/=; repeat split; eauto; repeat case_bool_decide; (lia || congruence).
Qed.

(** One message charges a budget at most once, through [FrameBudget::charge]. *)
Lemma message_charges env s m now k :
  let res := handle_message secret env s m now in
  (join_reserved (snd res) = join_reserved s ∨ env_reserved env = true)
  ∧ ((budget_of (snd res) k = budget_of s k ∧ charges k (snd (fst res)) ≤ 0)
     ∨ ∃ ok, frame_charge (budget_of s k) now (allowance s k) = (ok, budget_of (snd res) k)
             ∧ charges k (snd (fst res)) ≤ (if ok then 1 else 0)).
Proof.
  destruct m as [bytes | | |]; simpl; try (split; [by left|]; left; split; [done|]; unfold charges; simpl; lia).
  destruct (MAX_FRAME_BYTES <? len bytes); [split; [by left|]; left; split; [done|]; unfold charges; simpl; lia|].
  destruct (frame_decode bytes) as [f|e]; [|split; [by left|]; left; split; [done|]; unfold charges; simpl; lia].
  destruct (handleP secret s f now)
    as [s' c Hs Hs' Hc ? ? ? ? ? Hj ? ? Hs1 Hs2 Hs3 | k' sg Hs
       | w s' Hw Ha (_&_&_&_&_&_&_&Hj&_) ? Hsb Hb Hm
       | frames s' Hs (_&_&_&_&_&_&_&Hj&_) Hsb Herr Hb Hm | frames s' Hs']; simpl.
  - split; [by left|]. left. rewrite Hs2. split; [done|]. unfold charges. simpl. lia.
  - destruct (perform_charges env (with_challenge s []) (Authenticate k' sg (s_challenge s)) k) as (Hb & Hj & Hn).
    split; [done|]. left. rewrite Hb. split; [done|]. by rewrite bool_decide_eq_false_2 in Hn.
  - destruct (perform_charges env s' w k) as (Hb' & Hj' & Hn). split; [naive_solver congruence|]. rewrite Hb'.
    destruct (charge_kind w) as [k'|]; [|left; by rewrite Hb].
    destruct Hb as (b & Hb & ->). destruct (decide (k' = k)) as [->|Hne].
    + right. exists true. rewrite fn_lookup_insert. rewrite bool_decide_eq_true_2 in Hn by done. done.
    + left. rewrite fn_lookup_insert_ne by done. rewrite bool_decide_eq_false_2 in Hn by congruence. done.
  - split; [by left|]. rewrite errors_issue_nothing by done. simpl.
    destruct Hb as [-> | (k' & b & Hb & ->)]; [by left|]. destruct (decide (k' = k)) as [->|Hne].
    + right. exists false. by rewrite fn_lookup_insert.
    + left. by rewrite fn_lookup_insert_ne.
  - split; [left; by destruct Hs' as [-> | (v & -> & _)]|]. left. split; [|done].
    by destruct Hs' as [-> | (v & -> & _)].
Qed.

(** What a budget still admits between [lo] and the end of a span of one window
    that starts at [t]: a window opened inside the span cannot turn over in it. *)
Definition slack (t lo cap : Z) (b : FrameBudget) : Z :=
  cap - fb_spent b + (if (t <=? window_started_ms b) && (window_started_ms b <=? lo) then 0 else cap).

Lemma slack_mono t lo lo' cap b : 0 ≤ cap → lo ≤ lo' → slack t lo' cap b ≤ slack t lo cap b.
Proof.
  intros. unfold slack. destruct (Z.leb_spec t (window_started_ms b)); simpl; [|done].
  destruct (Z.leb_spec (window_started_ms b) lo), (Z.leb_spec (window_started_ms b) lo'); lia.
Qed.

Lemma slack_charge t lo now cap a b ok b' :
  lo ≤ now → t ≤ now < t + FRAME_BUDGET_WINDOW_MS → 0 ≤ fb_spent b ≤ a → 0 < a ≤ cap →
  frame_charge b now a = (ok, b') → (if ok then 1 else 0) + slack t now cap b' ≤ slack t lo cap b.
Proof.
  intros Hlo Hnow Hsp Ha. unfold frame_charge, u64_saturating_sub, FRAME_BUDGET_WINDOW_MS in *.
  destruct (Z.ltb_spec now (window_started_ms b)); simpl.
  - rewrite (proj2 (Z.leb_gt _ _)) by lia. intros [= <- <-]. unfold slack. simpl.
    rewrite (proj2 (Z.leb_le t now)), (proj2 (Z.leb_le now now)) by lia. simpl.
    rewrite (proj2 (Z.leb_gt (window_started_ms b) lo)) by lia. rewrite andb_false_r. lia.
  - destruct (Z.leb_spec 60000 (Z.max 0 (now - window_started_ms b))).
    + simpl. rewrite (proj2 (Z.leb_gt _ _)) by lia. intros [= <- <-]. unfold slack. simpl.
      rewrite (proj2 (Z.leb_le t now)), (proj2 (Z.leb_le now now)) by lia. simpl.
      rewrite (proj2 (Z.leb_gt t (window_started_ms b))) by lia. simpl. lia.
    + pose proof (slack_mono t lo now cap b ltac:(lia) Hlo).
      destruct (Z.leb_spec a (fb_spent b)); intros [= <- <-]; [lia|].
      unfold slack in *. simpl in *. lia.
Qed.

Lemma ceiling_allowance s k reserved :
  (join_reserved s = true → reserved = true) → allowance s k ≤ ceiling reserved k.
Proof.
  intros Hr. destruct k; simpl; try lia. unfold join_allowance.
  destruct (join_reserved s); [by rewrite Hr|].
  destruct reserved; unfold JOIN_FRAMES_PER_MINUTE_RESERVED, JOIN_FRAMES_PER_MINUTE, MAX_SCOPES; lia.
Qed.

Lemma serve_paced s inputs k reserved t lo :
  session_ok s → bound s →
  Forall (λ i, t ≤ in_now i < t + FRAME_BUDGET_WINDOW_MS) inputs →
  StronglySorted Z.le (lo :: (in_now <$> inputs)) →
  (join_reserved s = true → reserved = true) →
  Forall (λ i, env_reserved (in_env i) = true → reserved = true) inputs →
  charges k (fst (serve secret s inputs)) ≤ slack t lo (ceiling reserved k) (budget_of s k).
Proof.
  revert s lo. induction inputs as [|i inputs IH]; intros s lo Hok Hb Ht Hsort Hr Hrs.
  - simpl. pose proof (ceiling_allowance s k reserved Hr). pose proof (ok_budgets s Hok k). unfold slack.
    case_match; lia.
  - apply Forall_cons in Ht as [Hti Ht]. apply Forall_cons in Hrs as [Hri Hrs].
    apply StronglySorted_inv in Hsort as [Hsort Hlo]. apply Forall_cons in Hlo as [Hlo _].
    destruct (handle_message_ok (in_env i) s (in_message i) (in_now i) Hok Hb) as [Hok' Hb'].
    destruct (message_charges (in_env i) s (in_message i) (in_now i) k) as [Hj Hc]. simpl.
    pose proof (ceiling_allowance s k reserved Hr) as Hceil. pose proof (ok_budgets s Hok k) as Hsp.
    pose proof (allowance_pos s k) as Hpos.
    destruct (env_revoked (in_env i)); [simpl; unfold slack; case_match; unfold charges; simpl; lia|].
    destruct (handle_message secret (in_env i) s (in_message i) (in_now i)) as [[continue actions] s']; simpl in *.
    assert (charges k actions + slack t (in_now i) (ceiling reserved k) (budget_of s' k)
            ≤ slack t lo (ceiling reserved k) (budget_of s k)) as Hstep.
    { destruct Hc as [[-> Hn] | (ok & Hc & Hn)].
      - pose proof (slack_mono t lo (in_now i) (ceiling reserved k) (budget_of s k) ltac:(lia) Hlo). lia.
      - pose proof (slack_charge t lo (in_now i) (ceiling reserved k) _ _ _ _ Hlo Hti Hsp ltac:(lia) Hc). lia. }
    assert (join_reserved s' = true → reserved = true) as Hr' by (destruct Hj as [->|]; auto).
    specialize (IH s' (in_now i) Hok' Hb' Ht Hsort Hr' Hrs).
    destruct continue.
    + destruct (serve secret s' inputs) as [more s'']. simpl in *. rewrite charges_app. lia.
    + simpl. rewrite charges_app.
      assert (0 ≤ slack t (in_now i) (ceiling reserved k) (budget_of s' k)).
      { pose proof (ceiling_allowance s' k reserved Hr'). pose proof (ok_budgets s' Hok' k). unfold slack. case_match; lia. }
      unfold charges at 2. simpl. lia.
Qed.

(** The pace of a connection: within any minute of a clock that does not step
    back, a connection hands on at most twice the allowance of each kind of
    budgeted work (the window is fixed, so a burst at the end of one and another
    at the start of the next is the worst case); the raised [JOIN] allowance
    counts only if the connection held or won a reservation. *)
Theorem connection_paced s inputs k reserved t :
  session_ok s → bound s →
  Forall (λ i, t ≤ in_now i < t + FRAME_BUDGET_WINDOW_MS) inputs →
  StronglySorted Z.le (in_now <$> inputs) →
  (join_reserved s = true → reserved = true) →
  Forall (λ i, env_reserved (in_env i) = true → reserved = true) inputs →
  charges k (fst (serve secret s inputs)) ≤ 2 * ceiling reserved k.
Proof.
  intros Hok Hb Ht Hs Hr Hrs.
  pose proof (serve_paced s inputs k reserved t (t - 1) Hok Hb Ht) as Hp.
  pose proof (ok_budgets s Hok k). pose proof (ceiling_allowance s k reserved Hr).
  etrans; [apply Hp; [|done..]|unfold slack; case_match; lia].
  constructor; [done|]. apply Forall_fmap. eapply Forall_impl; [exact Ht|]. simpl. intros i Hi. simpl. lia.
Qed.
End refinement.

(** ** A connection at work *)
Module Demo.
#[export] Instance url : UrlLib := λ _, None.
#[export] Instance digest : Blake3 := poly_digest.
#[export] Instance signatures : Ed25519 := toy_verify.

Definition key : list byte := replicate 32 Byte.x0b.
Definition group : list byte := replicate 32 Byte.x0c.
Definition config : SessionConfig := mkSessionConfig (mkConfig Full FloorMls Unlimited) Enforce LiveOn CallsOn.
Definition opened (nonce : Z) : Session := fst (session_new config [] (mkProcess nonce [])).
Definition admitting : Env := mkEnv false false (λ _, InSet [] None) (λ _, InSet [] None) 0 true false false true.
Definition send (f : Frame) (now : Z) : Input := mkInput (Binary (frame_encode f)) now admitting.
Definition session_of (challenge : list byte) : list Input :=
  [send (Connect 4 [] 1000) 1000; send (Auth key (toy_sign key challenge)) 1001;
   send (Recon group []) 1002; send (Recon group []) 1003].
Definition challenge : list byte := challenge_bytes [] 1000 [] 7.
Definition trace : list Action := fst (serve [] (opened 7) (session_of challenge)).
Definition work : Work := Reconcile group [].
End Demo.

Section demo.
Import Demo.

Lemma connection_refines_gate_witness :
  (∃ g, gate_run Unasked (serve_log [] (opened 7) (session_of challenge)) g) ∧ charges KRecon trace = 2.
Proof.
  split; [exact (proj2 (connection_refines_gate [] (opened 7) (session_of challenge) eq_refl)) | by vm_compute].
Defined.

Lemma content_needs_proof_witness :
  ∃ k sg c, proved_in (take 5 (serve_log [] (opened 7) (session_of challenge))) k sg c false.
Proof.
  destruct (content_needs_proof [] (opened 7) (session_of challenge) (take 5 (serve_log [] (opened 7) (session_of challenge))) admitting work [] eq_refl
    ltac:(by vm_compute)) as [(b & [=]) | [Hp | (k & sg & c & b & _ & [=])]].
  exact Hp.
Defined.

Lemma connection_paced_witness : charges KRecon trace ≤ 2 * RECON_FRAMES_PER_MINUTE.
Proof.
  refine (connection_paced [] (opened 7) (session_of challenge) KRecon false 1000 _ _ _ _ _ _).
  - apply session_new_ok.
  - by intros [?|?].
  - repeat constructor; simpl; lia.
  - repeat constructor; simpl; lia.
  - done.
  - repeat constructor; done.
Defined.
End demo.

(** With a hash that collides everywhere, one signature does pass on two connections. *)
Lemma proof_binds_connection_witness :
  let _ : Blake3 := λ _, replicate 32 Byte.x00 in ∃ a b, collision a b.
Proof.
  intros flat.
  assert (∀ n, ∃ k sg, @Proved k sg (replicate 32 Byte.x00) false
    ∈ fst (@serve Demo.url flat toy_verify [] (Demo.opened n) (Demo.session_of (replicate 32 Byte.x00)))) as Hp.
  { intros n. eexists _, _. vm_compute. right. right. left. }
  destruct (Hp 7) as (k1 & sg1 & H1). destruct (Hp 8) as (k2 & sg2 & H2).
  exact (@proof_binds_connection Demo.url flat toy_verify [] (Demo.opened 7) _ (Demo.opened 8) _
    k1 sg1 k2 sg2 _ false false eq_refl eq_refl ltac:(done) ltac:(done) ltac:(done) H1 H2).
Defined.
