(* ===== verification/Revocation.v ===== *)
(** * Revocation against the sockets

    Composes the access-set chain ([AccessChain]) with the hub ([Hub]) the way
    [backend/wealdrelay/src/ws.rs] does: the [AUTH] arm of [perform] reads the
    access set, registers the connection with the hub and reads the set again;
    [rotate_access_set] commits a set and then evicts, one by one, the entries
    it dropped; [administer_invite] voids a grant and evicts its device. The
    parts of each are separate steps, and any interleaving of them, of other
    publications and of the connections' own ends is a run of [rstep]. The
    grant writes of [access/store.rs] are modelled here too. *)

From Stdlib Require Import ZArith Lia.
From stdpp Require Import base tactics numbers gmap fin_maps functions relations sorting list.
From S2P Require Import Prelude Cbor Push Frame Crypto Access Genesis AccessChain Queue Hub.

Open Scope Z_scope.

(** ** Grants: [grant], [grant_is_voided] and [revoke_grant_in] *)
Definition with_grants (db : Db) (m : gmap (list byte) Grant) : Db :=
  mkDb (db_salt db) (set_rows db) (entry_rows db) (authorizer_rows db) (recovery_rows db)
    (quorum_key_rows db) (quorum_rows db) (rotation_rows db) (probation_rows db) m (push_rows db)
    (bootstrap db).

(** The upsert: a voided row is left alone and answers [false]. *)
Definition grant (db : Db) (device_hash : list byte) (expires_at_ms : Z) : bool * Db :=
  match grant_rows db !! device_hash with
  | Some g => if voided g then (false, db)
              else (true, with_grants db (<[device_hash := mkGrant expires_at_ms None false]> (grant_rows db)))
  | None => (true, with_grants db (<[device_hash := mkGrant expires_at_ms None false]> (grant_rows db)))
  end.

Definition grant_is_voided (db : Db) (device_hash : list byte) : bool :=
  match grant_rows db !! device_hash with Some g => voided g | None => false end.

Definition revoke_grant (db : Db) (device_hash : list byte) : bool * Db :=
  match grant_rows db !! device_hash with
  | Some g => if voided g then (false, db)
              else (true, with_grants db (<[device_hash := mkGrant (expires_at g) (seen_version g) true]> (grant_rows db)))
  | None => (false, db)
  end.

(** ** The world *)
(** Where a connection is in its [AUTH]. *)
Inductive Auth : Type :=
| Verified (key : list byte)                           (** signature checked, set not yet read *)
| Read1 (key entry : list byte)                        (** the first read admitted it *)
| Registered (key entry : list byte)                   (** [hub.identify] done *)
| Authorized (key entry : list byte) (member : bool)   (** the second read admitted it *)
| Over.

(** What an evicting task still has to do, in order: [hub.evict] takes an
    entry's connections off the table, then ends them one by one. *)
Inductive Chore : Type := ToEvict (entry : list byte) | ToEnd (p : ConnectionId * N).

Section world.
Context `{Blake3, Ed25519}.
Context {C P : Type} `{MpscLaws C, SemaphoreLaws P}.

Record RWorld : Type := mkRWorld {
  r_chain : World;
  r_hub : Hub;
  r_heap : N → Channel C P;
  r_auth : gmap ConnectionId Auth;
  r_agenda : gmap nat (list Chore)
}.

Definition set_chain (w : RWorld) (c : World) : RWorld := mkRWorld c (r_hub w) (r_heap w) (r_auth w) (r_agenda w).
Definition set_auth (w : RWorld) (id : ConnectionId) (a : Auth) : RWorld :=
  mkRWorld (r_chain w) (r_hub w) (r_heap w) (<[id := a]> (r_auth w)) (r_agenda w).
Definition set_hub (w : RWorld) (hub : Hub) : RWorld :=
  mkRWorld (r_chain w) hub (r_heap w) (r_auth w) (r_agenda w).
Definition set_heap (w : RWorld) (h : N → Channel C P) : RWorld :=
  mkRWorld (r_chain w) (r_hub w) h (r_auth w) (r_agenda w).
Definition set_agenda (w : RWorld) (i : nat) (l : list Chore) : RWorld :=
  mkRWorld (r_chain w) (r_hub w) (r_heap w) (r_auth w) (<[i := l]> (r_agenda w)).

Definition take_entry (hub : Hub) (entry : list byte) : list (ConnectionId * N) * Hub :=
  (default [] (principals hub !! entry), set_principals hub (delete entry (principals hub))).

Definition rdb (w : RWorld) : Db := w_db (r_chain w).

(** The receiver of a queue that has gone stays gone, and a signalled queue
    stays signalled, whatever else happens to the queues. *)
Definition queues_move (h h' : N → Channel C P) : Prop :=
  ∀ s, (is_evicted h s = true → is_evicted h' s = true) ∧ (is_closed h s = true → is_closed h' s = true).

Inductive rstep : RWorld → RWorld → Prop :=
| r_open w id key :
    r_auth w !! id = None → rstep w (set_auth w id (Verified key))
| r_read1 w id key now :
    r_auth w !! id = Some (Verified key) → admits (rdb w) now key ≠ AdmissionRefused →
    rstep w (set_auth w id (Read1 key (entry_hash key (db_salt (rdb w)))))
| r_identify w id key entry :
    r_auth w !! id = Some (Read1 key entry) →
    rstep w (set_auth (set_hub w (identify (r_hub w) entry id id)) id (Registered key entry))
| r_read2 w id key entry now :
    r_auth w !! id = Some (Registered key entry) → admits (rdb w) now key ≠ AdmissionRefused →
    entry_hash key (db_salt (rdb w)) = entry →
    rstep w (set_auth w id (Authorized key entry (match admits (rdb w) now key with InSet => true | _ => false end)))
| r_over w id :
    rstep w (set_auth (set_hub w (Hub.disconnect (r_hub w) id)) id Over)
| r_dropped w id :
    is_closed (r_heap w) id = true ∨ is_evicted (r_heap w) id = true →
    rstep w (set_hub w (Hub.disconnect (r_hub w) id))
| r_queues w h : queues_move (r_heap w) h → rstep w (set_heap w h)
| r_publishing w chain :
    AccessChain.step (r_chain w) chain → w_db chain = rdb w → rstep w (set_chain w chain)
| r_commit w i j c body prior pr recent sa ef now db' a :
    w_tasks (r_chain w) !! i = Some (ReadAll c body prior pr recent) →
    judge c prior (db_salt (rdb w)) pr recent = Ok (sa, ef) →
    AccessChain.commit (rdb w) now c body sa ef = Ok (db', a) →
    r_agenda w !! j = None →
    rstep w (set_agenda (set_chain w (mkWorld db' (delete i (w_tasks (r_chain w))))) j
               (ToEvict <$> AccessChain.disconnect a))
| r_take w j entry rest :
    r_agenda w !! j = Some (ToEvict entry :: rest) →
    rstep w (set_agenda (set_hub w (snd (take_entry (r_hub w) entry))) j
               ((ToEnd <$> fst (take_entry (r_hub w) entry)) ++ rest))
| r_end w j p rest :
    r_agenda w !! j = Some (ToEnd p :: rest) →
    rstep w (set_agenda (set_heap (set_hub w (fst (evict_one (r_hub w, r_heap w) p)))
                           (snd (evict_one (r_hub w, r_heap w) p))) j rest)
| r_grant w hash until :
    rstep w (set_chain w (mkWorld (snd (grant (rdb w) hash until)) (w_tasks (r_chain w))))
| r_revoke w j hash :
    r_agenda w !! j = None →
    rstep w (set_agenda (set_chain w (mkWorld (snd (revoke_grant (rdb w) hash)) (w_tasks (r_chain w)))) j
               [ToEvict hash]).

Definition start (salt : list byte) (h : N → Channel C P) : RWorld :=
  mkRWorld (mkWorld (fresh_db salt) ∅) hub_new h ∅ ∅.

Definition rreachable (salt : list byte) (h : N → Channel C P) : RWorld → Prop := rtc rstep (start salt h).

(** ** What is claimed *)
(** The entries of the set in force. *)
Definition in_force (db : Db) (entry : list byte) : Prop :=
  ∃ v, head_version db = Some v ∧ (v, entry) ∈ entry_rows db.

Definition owed (w : RWorld) (x : Chore) : Prop := ∃ j l, r_agenda w !! j = Some l ∧ x ∈ l.

(** The socket has been told to stop, or its writer has gone. *)
Definition stopped (w : RWorld) (id : ConnectionId) : Prop :=
  is_evicted (r_heap w) id = true ∨ is_closed (r_heap w) id = true ∨ owed w (ToEnd (id, id)).

(** The hub can reach the socket by its entry. *)
Definition reached (w : RWorld) (id : ConnectionId) (entry : list byte) : Prop :=
  identified (r_hub w) entry (id, id) ∨ stopped w id.

Record revocable (w : RWorld) : Prop := {
  rv_chain : world_ok (r_chain w);
  rv_own entry p : identified (r_hub w) entry p → p.2 = p.1;
  rv_ends p : owed w (ToEnd p) → p.2 = p.1;
  rv_registered id key entry : r_auth w !! id = Some (Registered key entry) → reached w id entry;
  rv_authorized id key entry member :
    r_auth w !! id = Some (Authorized key entry member) → reached w id entry;
  rv_member id key entry :
    r_auth w !! id = Some (Authorized key entry true) →
    in_force (rdb w) entry ∨ owed w (ToEvict entry) ∨ stopped w id
}.
End world.

(** ** Lemmas on the parts *)
Section parts.
Context `{Blake3, Ed25519}.
Context {C P : Type} `{MpscLaws C, SemaphoreLaws P}.

Lemma judge_removed c p salt pr recent sa ef :
  judge c (Some p) salt pr recent = Ok (sa, ef) →
  ∀ e, e ∈ prior_entries p → e ∈ set_entries c ∨ e ∈ removed ef.
Proof.
  intros Hj e He.
  assert (removed ef = absent_from (set_entries c) (prior_entries p)) as ->.
  { unfold judge, judge_ordinary, judge_rotation in Hj. cbv zeta in Hj.
    repeat match type of Hj with
      | result_bind _ _ = Ok _ => apply result_bind_ok in Hj as (? & _ & Hj)
      | (if ?b then _ else _) = Ok _ => destruct b
      | match ?x with _ => _ end = Ok _ => destruct x
      end; try discriminate; by simplify_eq/=. }
  destruct (decide (e ∈ set_entries c)); [by left|]. right. by apply absent_from_spec.
Qed.

Lemma identified_identify hub entry id e p :
  (∀ e p, identified hub e p → p.2 = p.1) →
  (identified hub e p → identified (identify hub entry id id) e p)
  ∧ identified (identify hub entry id id) entry (id, id)
  ∧ (identified (identify hub entry id id) e p → identified hub e p ∨ p = (id, id)).
Proof.
  intros Hown. unfold identify, identified.
  destruct (existsb _ _) eqn:Hex; cbn [principals set_principals].
  - apply existsb_exists in Hex as ([id' sn] & Hin & Hid). apply bool_decide_eq_true in Hid. simpl in Hid. subst id'.
    apply list_elem_of_In in Hin.
    destruct (principals hub !! entry) as [ps|] eqn:Hps; simpl in *; [|by apply not_elem_of_nil in Hin].
    assert (sn = id) as -> by (apply (Hown entry (id, sn)); by exists ps).
    rewrite insert_id by done. split; [done|]. split; [by exists ps | by left].
  - split; [|split].
    + intros (ps & Hps & Hp). destruct (decide (e = entry)) as [->|Hne].
      * eexists. split; [apply lookup_insert_eq|]. rewrite Hps. apply elem_of_app. by left.
      * exists ps. by rewrite lookup_insert_ne.
    + eexists. split; [apply lookup_insert_eq|]. apply elem_of_app. right. by left.
    + intros (ps & Hps & Hp). destruct (decide (e = entry)) as [->|Hne].
      * rewrite lookup_insert_eq in Hps. injection Hps as <-. apply elem_of_app in Hp as [Hp|Hp].
        { left. destruct (principals hub !! entry) as [ps|]; [by exists ps | by apply not_elem_of_nil in Hp]. }
        right. by apply list_elem_of_singleton in Hp.
      * rewrite lookup_insert_ne in Hps by done. left. by exists ps.
Qed.

Lemma identified_take hub entry e p :
  (identified (snd (take_entry hub entry)) e p ↔ identified hub e p ∧ e ≠ entry)
  ∧ (identified hub entry p ↔ p ∈ fst (take_entry hub entry)).
Proof.
  unfold take_entry, identified. cbn [fst snd principals set_principals]. split.
  - destruct (decide (e = entry)) as [->|Hne].
    + rewrite lookup_delete_eq. naive_solver.
    + rewrite lookup_delete_ne by done. naive_solver.
  - destruct (principals hub !! entry) as [ps|]; simpl; split.
    + by intros (? & [= <-] & ?).
    + intros Hp. by exists ps.
    + by intros (? & ? & _).
    + intros Hp. by apply not_elem_of_nil in Hp.
Qed.

Lemma close_keeps_closed (h : N → Channel C P) s s' :
  is_closed h s' = true → is_closed (close_at (evict_at h s) s) s' = true.
Proof using Type*.
  unfold is_closed, close_at, evict_at. intros Hc.
  destruct (decide (s' = s)) as [->|Hne]; [|by rewrite !fn_lookup_insert_ne].
  rewrite !fn_lookup_insert. unfold channel_close, channel_evict. simpl.
  rewrite send_closed by done. done.
Qed.

Lemma evict_one_moves (hub : Hub) (h : N → Channel C P) p :
  queues_move h (snd (evict_one (hub, h) p)) ∧ is_evicted (snd (evict_one (hub, h) p)) p.2 = true.
Proof using Type*.
  simpl. split.
  - intros s. split; [|by apply close_keeps_closed].
    intros He. rewrite close_at_evicted. by apply evict_at_mono.
  - rewrite close_at_evicted. apply evict_at_self.
Qed.

Lemma with_grants_world_ok db m tasks : world_ok (mkWorld db tasks) → world_ok (mkWorld (with_grants db m) tasks).
Proof. intros [[] Ht]. split; [by split|]. exact Ht. Qed.

Lemma grants_only db hash until :
  (∃ m, snd (grant db hash until) = with_grants db m) ∧ (∃ m, snd (revoke_grant db hash) = with_grants db m).
Proof.
  assert (db = with_grants db (grant_rows db)) as Heq by by destruct db.
  unfold grant, revoke_grant. split; repeat case_match; simpl; eauto.
Qed.

(** An entry in force is in the next set or among those its publication drops. *)
Lemma commit_drops db now c body prior pr recent sa ef db' a entry :
  chain_ok db → task_ok db (ReadAll c body prior pr recent) →
  judge c prior (db_salt db) pr recent = Ok (sa, ef) →
  AccessChain.commit db now c body sa ef = Ok (db', a) →
  in_force db entry → in_force db' entry ∨ entry ∈ AccessChain.disconnect a.
Proof.
  intros Hc Hok Hj Hcm (v & Hv & Hin).
  destruct (commit_is_current _ _ _ _ _ _ _ _ _ _ _ Hc Hok Hj Hcm) as [Hn Hver].
  destruct Hok as (_ & [_ Hp] & _). specialize (Hp Hn).
  pose proof (commit_head _ _ _ _ _ _ _ _ Hc Hver Hcm) as Hh.
  pose proof (commit_inv _ _ _ _ _ _ _ _ Hcm) as (_ & _ & _ & He & _).
  assert (AccessChain.disconnect a = removed ef) as ->.
  { unfold AccessChain.commit in Hcm. repeat case_match; by simplify_eq/=. }
  destruct prior as [p|]; [|apply read_prior_inv in Hp; congruence].
  assert (entry ∈ prior_entries p) as Hpe.
  { unfold read_prior in Hp. rewrite Hv in Hp. destruct (set_rows db !! v) as [row|]; [|discriminate].
    apply result_bind_ok in Hp as (s0 & _ & [= <-]). cbn [prior_entries].
    unfold sorted_at. rewrite elem_of_btree_to_list. unfold rows_at. rewrite elem_of_map.
    exists (v, entry). split; [done|]. by apply elem_of_filter. }
  destruct (judge_removed _ _ _ _ _ _ _ Hj _ Hpe) as [Hs|Hr]; [left | by right].
  exists (set_version c). split; [done|]. rewrite He. apply elem_of_union_l, elem_of_with_version. done.
Qed.
End parts.

(** ** The invariant *)
Section invariant.
Context `{Blake3, Ed25519}.
Context {C P : Type} `{MpscLaws C, SemaphoreLaws P}.
Implicit Types w : RWorld (C := C) (P := P).

(** What a step may not lose: the signals sent, and the way to a connection. *)
Definition keeps_reach w w' : Prop :=
  (∀ id, stopped w id → stopped w' id)
  ∧ (∀ id e, identified (r_hub w) e (id, id) → reached w' id e).

Lemma keeps_reached w w' id e : keeps_reach w w' → reached w id e → reached w' id e.
Proof. intros [Hs Hi] [Hr|Hr]; [by apply Hi | right; by apply Hs]. Qed.

(** A step that leaves [AUTH] alone preserves the invariant when it keeps the
    reach and pays for what it takes out of force or off the agenda. *)
Lemma revocable_quiet w w' :
  revocable w → r_auth w' = r_auth w → keeps_reach w w' → world_ok (r_chain w') →
  (∀ e p, identified (r_hub w') e p → p.2 = p.1) → (∀ p, owed w' (ToEnd p) → p.2 = p.1) →
  (∀ id key e, r_auth w !! id = Some (Authorized key e true) → reached w id e →
     in_force (rdb w) e ∨ owed w (ToEvict e) → in_force (rdb w') e ∨ owed w' (ToEvict e) ∨ stopped w' id) →
  revocable w'.
Proof.
  intros [Hc Ho He Hr Ha Hm] Hauth Hk Hc' Hid Howed Hforce. split; rewrite ?Hauth; [done | done | done | | |].
  - intros id key e Hi. eapply keeps_reached; [done | by eapply Hr].
  - intros id key e m Hi. eapply keeps_reached; [done | by eapply Ha].
  - intros id key e Hi. destruct (Hm id key e Hi) as [Hf|[Hf|Hst]]; [| | right; right; by apply Hk].
    + eapply Hforce; [done | by eapply Ha | by left].
    + eapply Hforce; [done | by eapply Ha | by right].
Qed.

(** Agendas that only grow keep what they owe. *)
Lemma owed_insert w j l x : r_agenda w !! j = None → owed w x → owed (set_agenda w j l) x.
Proof.
  intros Hj (j' & l' & Hl & Hx). exists j', l'. split; [|done]. simpl. rewrite lookup_insert_ne; [done|].
  intros ->. congruence.
Qed.
Lemma owed_new w j l x : x ∈ l → owed (set_agenda w j l) x.
Proof. intros Hx. exists j, l. simpl. by rewrite lookup_insert_eq. Qed.
Lemma owed_inv w j l x : owed (set_agenda w j l) x → x ∈ l ∨ owed w x.
Proof.
  intros (j' & l' & Hl & Hx). simpl in Hl. destruct (decide (j' = j)) as [->|Hne].
  - rewrite lookup_insert_eq in Hl. injection Hl as <-. by left.
  - rewrite lookup_insert_ne in Hl by done. right. by exists j', l'.
Qed.
Lemma owed_pop w j y l l' x :
  r_agenda w !! j = Some (y :: l) → (∀ z, z ∈ l → z ∈ l') → owed w x → x = y ∨ owed (set_agenda w j l') x.
Proof.
  intros Hj Hsub (j' & l0 & Hl & Hx). destruct (decide (j' = j)) as [->|Hne].
  - rewrite Hj in Hl. injection Hl as <-. apply elem_of_cons in Hx as [->|Hx]; [by left|].
    right. apply owed_new. by apply Hsub.
  - right. exists j', l0. split; [|done]. simpl. by rewrite lookup_insert_ne.
Qed.

Lemma owed_same w w' x : r_agenda w' = r_agenda w → owed w' x ↔ owed w x.
Proof. intros Heq. unfold owed. by rewrite Heq. Qed.
Lemma stopped_mono w w' id :
  queues_move (r_heap w) (r_heap w') → (owed w (ToEnd (id, id)) → stopped w' id) →
  stopped w id → stopped w' id.
Proof.
  intros Hq Ho [He|[Hc|Hw]]; [left; by apply Hq | right; left; by apply Hq | by apply Ho].
Qed.
Lemma queues_move_refl (h : N → Channel C P) : queues_move h h.
Proof. by intros s. Qed.

(** One connection moves on; everything else stays. *)
Lemma revocable_auth w id a :
  revocable w →
  (∀ key e, a = Registered key e → reached w id e) →
  (∀ key e m, a = Authorized key e m → reached w id e ∧ (m = true → in_force (rdb w) e)) →
  revocable (set_auth w id a).
Proof.
  intros [Hc Ho He Hr Ha Hm] Hreg Hauth. split; try done; simpl; intros id'; intros *;
    (destruct (decide (id' = id)) as [->|Hne]; [rewrite lookup_insert_eq; intros [= ->] | rewrite lookup_insert_ne by done]).
  - by eapply Hreg.
  - apply Hr.
  - by eapply Hauth.
  - apply Ha.
  - left. by eapply Hauth.
  - apply Hm.
Qed.

(** [hub.identify] only adds a way to the connection it registers. *)
Lemma revocable_identify w id key e :
  revocable w → r_auth w !! id = Some (Read1 key e) →
  revocable (set_auth (set_hub w (identify (r_hub w) e id id)) id (Registered key e)).
Proof.
  intros Hrv Hi. pose proof (rv_own w Hrv) as Hown. apply revocable_auth.
  - eapply revocable_quiet; [done | done | | exact (rv_chain w Hrv) | | exact (rv_ends w Hrv) | naive_solver].
    + split; [done|]. intros id' e' Hid. left. simpl. by apply identified_identify.
    + intros e' p Hid. simpl in Hid. apply (identified_identify _ _ _ _ _ Hown) in Hid as [Hid| ->]; [by eapply Hown | done].
  - intros key' e' [= <- <-]. left. simpl. by apply identified_identify.
  - done.
Qed.

(** [hub.disconnect] takes the way to one connection; that one must be over or stopped. *)
Lemma keeps_reach_disconnect w w' id :
  r_hub w' = Hub.disconnect (r_hub w) id → r_heap w' = r_heap w → r_agenda w' = r_agenda w →
  (∀ x, stopped w x → stopped w' x)
  ∧ (∀ x e, x ≠ id → identified (r_hub w) e (x, x) → reached w' x e).
Proof.
  intros Hh Hq Hag. split.
  - intros x. apply stopped_mono; [rewrite Hq; by intros s|]. intros Ho. right. right. by rewrite owed_same.
  - intros x e Hne Hid. left. rewrite Hh. by apply disconnect_identified.
Qed.

Lemma revocable_over w id :
  revocable w → revocable (set_auth (set_hub w (Hub.disconnect (r_hub w) id)) id Over).
Proof.
  intros [Hc Ho He Hr Ha Hm].
  destruct (keeps_reach_disconnect w (set_auth (set_hub w (Hub.disconnect (r_hub w) id)) id Over) id
    eq_refl eq_refl eq_refl) as [Hst Hid].
  assert (∀ x e, x ≠ id → reached w x e →
    reached (set_auth (set_hub w (Hub.disconnect (r_hub w) id)) id Over) x e) as Hreach.
  { intros x e Hne [Hi|Hi]; [by apply Hid | right; by apply Hst]. }
  split; try done; simpl.
  - intros e p Hp. apply disconnect_identified in Hp as [Hp _]. by eapply Ho.
  - intros x key e Hx. apply lookup_insert_Some in Hx as [[_ [=]]|[Hne Hx]]. apply Hreach; [done | by eapply Hr].
  - intros x key e m Hx. apply lookup_insert_Some in Hx as [[_ [=]]|[Hne Hx]]. apply Hreach; [done | by eapply Ha].
  - intros x key e Hx. apply lookup_insert_Some in Hx as [[_ [=]]|[Hne Hx]].
    destruct (Hm x key e Hx) as [|[|Hs]]; [by left | by right; left | right; right; by apply Hst].
Qed.

Lemma revocable_dropped w id :
  revocable w → is_closed (r_heap w) id = true ∨ is_evicted (r_heap w) id = true →
  revocable (set_hub w (Hub.disconnect (r_hub w) id)).
Proof.
  intros Hrv Hs. destruct (keeps_reach_disconnect w (set_hub w (Hub.disconnect (r_hub w) id)) id
    eq_refl eq_refl eq_refl) as [Hst Hid].
  eapply revocable_quiet; [done | done | | exact (rv_chain w Hrv) | | exact (rv_ends w Hrv) | naive_solver].
  - split; [done|]. intros x e Hx. destruct (decide (x = id)) as [->|Hne]; [|by apply Hid].
    right. apply Hst. unfold stopped. naive_solver.
  - intros e p Hp. apply disconnect_identified in Hp as [Hp _]. by eapply (rv_own w Hrv).
Qed.

Lemma revocable_queues w h : revocable w → queues_move (r_heap w) h → revocable (set_heap w h).
Proof.
  intros Hrv Hq. eapply revocable_quiet; [done | done | | exact (rv_chain w Hrv) | exact (rv_own w Hrv) | exact (rv_ends w Hrv) | naive_solver].
  split; [|intros; by left]. intros id. apply stopped_mono; [done|]. intros Ho. right. by right.
Qed.

Lemma revocable_publishing w chain :
  revocable w → AccessChain.step (r_chain w) chain → w_db chain = rdb w → revocable (set_chain w chain).
Proof.
  intros Hrv Hs Hdb. eapply revocable_quiet;
    [done | done | by split; [|by left] | eapply step_world_ok; [exact (rv_chain w Hrv) | done]
    | exact (rv_own w Hrv) | exact (rv_ends w Hrv) |].
  intros id key e _ _ [Hf|Hf]; [|by right; left]. left. unfold rdb. cbn [set_chain r_chain]. by rewrite Hdb.
Qed.

Lemma revocable_grants w m :
  revocable w → revocable (set_chain w (mkWorld (with_grants (rdb w) m) (w_tasks (r_chain w)))).
Proof.
  intros Hrv. eapply revocable_quiet; [done | done | by split; [|by left] | | exact (rv_own w Hrv) | exact (rv_ends w Hrv) |].
  - apply with_grants_world_ok. pose proof (rv_chain w Hrv) as Hc. unfold rdb. by destruct (r_chain w).
  - intros id key e _ _ [Hf|Hf]; [by left | by right; left].
Qed.

Lemma revocable_agenda w j l :
  revocable w → r_agenda w !! j = None → (∀ p, ToEnd p ∉ l) → revocable (set_agenda w j l).
Proof.
  intros Hrv Hj Hl. eapply revocable_quiet; [done | done | | exact (rv_chain w Hrv) | exact (rv_own w Hrv) | |].
  - split; [|by left]. intros id. apply stopped_mono; [apply queues_move_refl|]. intros Ho. right. right.
    by apply owed_insert.
  - intros p Hp. apply owed_inv in Hp as [Hp|Hp]; [by destruct (Hl p) | by eapply (rv_ends w Hrv)].
  - intros id key e _ _ [Hf|Hf]; [by left | right; left; by apply owed_insert].
Qed.

(** A publication owes an eviction for every entry it takes out of force. *)
Lemma revocable_commit w i j c body prior pr recent sa ef now db' a :
  revocable w →
  w_tasks (r_chain w) !! i = Some (ReadAll c body prior pr recent) →
  judge c prior (db_salt (rdb w)) pr recent = Ok (sa, ef) →
  AccessChain.commit (rdb w) now c body sa ef = Ok (db', a) →
  r_agenda w !! j = None →
  revocable (set_agenda (set_chain w (mkWorld db' (delete i (w_tasks (r_chain w))))) j
               (ToEvict <$> AccessChain.disconnect a)).
Proof.
  intros Hrv Hi Hj Hcm Hnone. pose proof (rv_chain w Hrv) as [Hc Ht].
  eapply revocable_quiet; [done | done | | | exact (rv_own w Hrv) | |].
  - split; [|by left]. intros id. apply stopped_mono; [apply queues_move_refl|]. intros Ho. right. right.
    by apply owed_insert.
  - eapply step_world_ok; [exact (rv_chain w Hrv)|]. by eapply step_commit.
  - intros p Hp. apply owed_inv in Hp as [Hp|Hp]; [|by eapply (rv_ends w Hrv)].
    by apply list_elem_of_fmap in Hp as (? & [=] & _).
  - intros id key e _ _ [Hf|Hf]; [|right; left; by apply owed_insert].
    assert (task_ok (rdb w) (ReadAll c body prior pr recent)) as Hok by by apply (Ht i).
    destruct (commit_drops _ _ _ _ _ _ _ _ _ _ _ _ Hc Hok Hj Hcm Hf) as [|Hd]; [by left|].
    right. left. apply owed_new. apply list_elem_of_fmap. by exists e.
Qed.

(** Taking an entry's connections off the table leaves each of them owed an end. *)
Lemma revocable_take w j entry rest :
  revocable w → r_agenda w !! j = Some (ToEvict entry :: rest) →
  revocable (set_agenda (set_hub w (snd (take_entry (r_hub w) entry))) j
               ((ToEnd <$> fst (take_entry (r_hub w) entry)) ++ rest)).
Proof.
  intros Hrv Hj.
  set (w' := set_agenda (set_hub w (snd (take_entry (r_hub w) entry))) j
               ((ToEnd <$> fst (take_entry (r_hub w) entry)) ++ rest)).
  assert (∀ x, owed w x → x = ToEvict entry ∨ owed w' x) as Howed.
  { intros x Hx. apply (owed_pop (set_hub w (snd (take_entry (r_hub w) entry))) j (ToEvict entry) rest); try done.
    intros z Hz. apply elem_of_app. by right. }
  assert (∀ id, identified (r_hub w) entry (id, id) → stopped w' id) as Htaken.
  { intros id Hid. right. right. apply owed_new, elem_of_app. left. apply list_elem_of_fmap.
    exists (id, id). split; [done|]. by apply (identified_take (r_hub w) entry entry (id, id)). }
  assert (∀ id, stopped w id → stopped w' id) as Hst.
  { intros id. apply stopped_mono; [apply queues_move_refl|]. intros Ho.
    right. right. by destruct (Howed _ Ho) as [[=]|]. }
  eapply revocable_quiet; [done | done | | exact (rv_chain w Hrv) | | |].
  - split; [done|]. intros id e Hid. destruct (decide (e = entry)) as [->|Hne]; [right; by apply Htaken|].
    left. by apply (identified_take (r_hub w) entry e (id, id)).
  - intros e p Hp. apply (identified_take (r_hub w) entry e p) in Hp as [Hp _]. by eapply (rv_own w Hrv).
  - intros p Hp. apply owed_inv in Hp as [Hp|Hp]; [|by eapply (rv_ends w Hrv)].
    apply elem_of_app in Hp as [Hp|Hp].
    + apply list_elem_of_fmap in Hp as (? & [= ->] & Hp).
      apply (identified_take (r_hub w) entry entry) in Hp. by eapply (rv_own w Hrv).
    + eapply (rv_ends w Hrv). exists j, (ToEvict entry :: rest). split; [done | by right].
  - intros id key e Hi Hr [Hf|Hf]; [by left|].
    destruct (Howed _ Hf) as [[= ->]|Hf']; [|by right; left]. right. right.
    destruct Hr as [Hid|Hs]; [by apply Htaken | by apply Hst].
Qed.

(** Ending one connection signals it. *)
Lemma revocable_end w j p rest :
  revocable w → r_agenda w !! j = Some (ToEnd p :: rest) →
  revocable (set_agenda (set_heap (set_hub w (fst (evict_one (r_hub w, r_heap w) p)))
                           (snd (evict_one (r_hub w, r_heap w) p))) j rest).
Proof using Type*.
  intros Hrv Hj. destruct (evict_one_moves (r_hub w) (r_heap w) p) as [Hq He].
  assert (p.2 = p.1) as Hown.
  { eapply (rv_ends w Hrv). exists j, (ToEnd p :: rest). split; [done | by left]. }
  set (w1 := set_heap (set_hub w (fst (evict_one (r_hub w, r_heap w) p))) (snd (evict_one (r_hub w, r_heap w) p))).
  assert (∀ x, owed w x → x = ToEnd p ∨ owed (set_agenda w1 j rest) x) as Howed.
  { intros x Hx. by apply (owed_pop w1 j (ToEnd p) rest). }
  assert (stopped (set_agenda w1 j rest) p.1) as Hp by (left; by rewrite <- Hown).
  assert (∀ id, stopped w id → stopped (set_agenda w1 j rest) id) as Hst.
  { intros id. apply stopped_mono; [exact Hq|]. intros Ho.
    destruct (Howed _ Ho) as [[= <-]|Ho']; [exact Hp | by right; right]. }
  eapply revocable_quiet; [done | done | | exact (rv_chain w Hrv) | | |].
  - split; [done|]. intros id e Hid. destruct (decide (id = p.1)) as [->|Hne]; [by right|].
    left. simpl. by apply disconnect_identified.
  - intros e q Hid. simpl in Hid. apply disconnect_identified in Hid as [Hid _]. by eapply (rv_own w Hrv).
  - intros q Ho. apply owed_inv in Ho as [Ho|Ho]; [|by eapply (rv_ends w Hrv)].
    eapply (rv_ends w Hrv). exists j, (ToEnd p :: rest). split; [done | by right].
  - intros id key e _ _ [Hf|Hf]; [by left|]. destruct (Howed _ Hf) as [[=]|]. by right; left.
Qed.

Lemma revocable_step w w' : revocable w → rstep w w' → revocable w'.
Proof using Type*.
  intros Hrv Hs. destruct Hs.
  - by apply revocable_auth.
  - by apply revocable_auth.
  - by apply revocable_identify.
  - apply revocable_auth; [done | done |]. intros key' e m [= <- <- <-].
    split; [by eapply (rv_registered w Hrv)|]. unfold in_force, admits in *.
    destruct (head_version (rdb w)) as [v|]; [|by repeat case_match].
    case_bool_decide as Hin; [|by repeat case_match]. intros _. exists v. by subst.
  - by apply revocable_over.
  - by apply revocable_dropped.
  - by apply revocable_queues.
  - by apply revocable_publishing.
  - by eapply revocable_commit.
  - by apply revocable_take.
  - by apply revocable_end.
  - destruct (grants_only (rdb w) hash until) as [[m ->] _]. by apply revocable_grants.
  - destruct (grants_only (rdb w) hash 0) as [_ [m ->]]. apply revocable_agenda; [by apply revocable_grants | done|].
    intros p Hp. by apply list_elem_of_singleton in Hp.
Qed.

Lemma start_revocable salt (h : N → Channel C P) : revocable (start salt h).
Proof.
  split; simpl; try done.
  - split; [apply fresh_chain_ok | apply map_Forall_empty].
  - intros e p (ps & Hps & _). done.
  - by intros p (j & l & Hl & _).
Qed.

Lemma reachable_revocable salt (h : N → Channel C P) w : rreachable salt h w → revocable w.
Proof using Type*.
  intros Hr. unfold rreachable in Hr. remember (start salt h) as w0 eqn:Hw0.
  assert (revocable w0) as Hok by (subst; apply start_revocable). clear Hw0.
  induction Hr as [|w0 w1 w2 Hs _ IH]; [done|]. apply IH. by eapply revocable_step.
Qed.

(** C12. No admitted socket survives the set that dropped its device. In any
    interleaving of authentications, publications, evictions, grants and ends,
    a connection whose second read found its entry in the set is, at every later
    moment, still carried by the set in force, or owed an eviction by the
    publication that dropped it, or stopped; and once no eviction is outstanding
    every such connection is carried by the set in force or signalled to stop (or
    has lost its writer). *)
Theorem revocation_reaches_socket salt (h : N → Channel C P) w id key entry :
  rreachable salt h w → r_auth w !! id = Some (Authorized key entry true) →
  (in_force (rdb w) entry ∨ owed w (ToEvict entry) ∨ stopped w id)
  ∧ (map_Forall (λ _ l, l = []) (r_agenda w) →
     in_force (rdb w) entry ∨ is_evicted (r_heap w) id = true ∨ is_closed (r_heap w) id = true).
Proof using Type*.
  intros Hr Hi. pose proof (reachable_revocable salt h w Hr) as Hrv.
  pose proof (rv_member w Hrv id key entry Hi) as Hm. split; [done|]. intros Hq.
  assert (∀ x, ¬ owed w x) as Hno.
  { intros x (j & l & Hl & Hx). rewrite (Hq j l Hl) in Hx. by apply not_elem_of_nil in Hx. }
  destruct Hm as [Hf|[Hf|[Hf|[Hf|Hf]]]]; [by left | by edestruct Hno | by right; left | by right; right | by edestruct Hno].
Qed.
End invariant.

(** ** A founder connects *)
#[local] Instance revocation_blake3 : Blake3 := poly_digest.
#[local] Instance revocation_ed25519 : Ed25519 := toy_verify.

Definition quiet_heap : N → Channel (list Outbound * bool) Z := λ _, ListQueue.empty_channel.
Definition owner_entry : list byte := entry_hash owner example_salt.
Definition founded : RWorld (C := list Outbound * bool) (P := Z) :=
  set_agenda (set_chain (start example_salt quiet_heap) (mkWorld (db_of genesis_commit) ∅)) 0 [].
Definition verified := set_auth founded 5%N (Verified owner).
Definition read_once := set_auth verified 5%N (Read1 owner owner_entry).
Definition registered :=
  set_auth (set_hub read_once (identify (r_hub read_once) owner_entry 5%N 5%N)) 5%N (Registered owner owner_entry).
Definition joined := set_auth registered 5%N (Authorized owner owner_entry true).

Lemma owner_admitted : admits (db_of genesis_commit) 0 owner = InSet.
Proof. by vm_compute. Qed.

Lemma founded_reachable : rreachable example_salt quiet_heap founded.
Proof.
  unfold rreachable.
  eapply rtc_l; [eapply r_publishing; [apply (step_start _ 0 genesis genesis_body); [done | apply genesis_decodes] | done]|].
  eapply rtc_l; [eapply r_publishing; [by apply (step_prior _ 0 genesis genesis_body None) | done]|].
  eapply rtc_l; [eapply r_publishing; [by apply (step_probations _ 0 genesis genesis_body None) | done]|].
  eapply rtc_l; [eapply r_publishing; [by apply (step_recent _ 0 genesis genesis_body None [] 0) | done]|].
  apply rtc_once.
  assert (judge genesis None example_salt [] false = Ok (Authorizer, default_effects)) as Hj by (by vm_compute).
  pose proof (r_commit (set_chain (start example_salt quiet_heap) ready_world) 0 0 genesis genesis_body None [] false
    Authorizer default_effects 0 (db_of genesis_commit) (accepted_of genesis_commit) eq_refl Hj
    (ok_parts genesis_commit ltac:(by vm_compute)) eq_refl) as Hs.
  assert (AccessChain.disconnect (accepted_of genesis_commit) = []) as Hd by (by vm_compute).
  rewrite Hd in Hs. exact Hs.
Qed.

Lemma joined_reachable : rreachable example_salt quiet_heap joined.
Proof.
  pose proof founded_reachable as Hr. unfold rreachable in *.
  assert (rdb verified = db_of genesis_commit) as Hd1 by done.
  assert (rdb registered = db_of genesis_commit) as Hd2 by done.
  pose proof (r_read1 verified 5%N owner 0 eq_refl) as Hs1. rewrite Hd1, owner_admitted in Hs1.
  pose proof (r_read2 registered 5%N owner owner_entry 0 eq_refl) as Hs2. rewrite Hd2, owner_admitted in Hs2.
  assert (db_salt (db_of genesis_commit) = example_salt) as Hsalt by (by vm_compute). rewrite Hsalt in *.
  etrans; [exact Hr|].
  eapply (rtc_l _ _ verified); [by apply r_open|].
  eapply (rtc_l _ _ read_once); [by apply Hs1|].
  eapply (rtc_l _ _ registered); [by apply r_identify|].
  apply rtc_once. by apply Hs2.
Qed.

Lemma revocation_reaches_socket_witness :
  in_force (rdb joined) owner_entry ∨ is_evicted (r_heap joined) 5%N = true ∨ is_closed (r_heap joined) 5%N = true.
Proof.
  refine (proj2 (revocation_reaches_socket example_salt quiet_heap joined 5%N owner owner_entry joined_reachable eq_refl) _).
  intros j l Hl. simpl in Hl. apply lookup_insert_Some in Hl as [[_ <-]|[_ Hl]]; [done | by rewrite lookup_empty in Hl].
Defined.
