(* ===== verification/Admission.v ===== *)
(** * Which workspace a connection belongs to

    Models the multi-workspace half of [backend/wealdrelay/src/access/store.rs]:
    [workspace_of], [ensure_groups] with its ceiling, [admission], [publish_for]
    and [publish_founding]; [founding_workspace] of [invite/genesis.rs]; and
    [admit] and [authorize_group] of [ws.rs]. Each workspace's own tables are
    one [AccessChain.Db]; [seat_rows] are the rows [founding_workspace]'s join
    selects at the moment it runs, in the order it returns them. *)

From Stdlib Require Import ZArith Lia.
From stdpp Require Import base tactics numbers gmap fin_maps functions relations sorting list.
From S2P Require Import Prelude Cbor Push Frame Crypto Access Genesis AccessChain Session Connection.

Open Scope Z_scope.

Definition GROUP_ID_BYTES : nat := 32.
Definition MAX_GROUPS_PER_WORKSPACE : nat := 8192.

(** One live, unconsumed reservation of a bootstrap invite, with its workspace's salt. *)
Record Seat : Type := mkSeat { seat_workspace : list byte; seat_salt : list byte; seat_device : list byte }.

Record Tables : Type := mkTables {
  workspaces : gmap (list byte) Db;
  group_rows : gmap (list byte) (list byte);
  seat_rows : list Seat
}.

Definition with_group_rows (t : Tables) (m : gmap (list byte) (list byte)) : Tables :=
  mkTables (workspaces t) m (seat_rows t).
Definition with_workspaces (t : Tables) (m : gmap (list byte) Db) : Tables :=
  mkTables m (group_rows t) (seat_rows t).

(** ** Groups *)
Definition workspace_of (t : Tables) (group : list byte) : option (list byte) := group_rows t !! group.

Definition group_count (t : Tables) (workspace : list byte) : nat :=
  size (filter (λ e : list byte * list byte, e.2 = workspace) (group_rows t)).

(** One guarded insert: the count is read inside the statement and a row that
    exists, whoever owns it, is left alone. *)
Definition insert_group (workspace : list byte) (st : nat * Tables) (group : list byte) : nat * Tables :=
  let '(created, t) := st in
  if (group_count t workspace <? MAX_GROUPS_PER_WORKSPACE)%nat && negb (bool_decide (is_Some (group_rows t !! group)))
  then (S created, with_group_rows t (<[group := workspace]> (group_rows t)))
  else (created, t).

Definition ensure_groups (t : Tables) (workspace : list byte) (groups : list (list byte)) : nat * Tables :=
  if (MAX_GROUPS_PER_WORKSPACE <=? group_count t workspace)%nat then (0%nat, t)
  else fold_left (insert_group workspace) (filter (λ g, length g = GROUP_ID_BYTES) groups) (0%nat, t).

Inductive Verdict : Type :=
| UnknownGroup
| VerdictBootstrap (workspace : list byte)
| VerdictAdmitted (entry workspace : list byte)
| VerdictRefused.

Section admission.
Context `{Blake3, Ed25519}.
(** The salt a workspace row is created with, where a read finds none. *)
Variable fresh : list byte → list byte.

(** [salt]: ensure the workspace row, then read it. *)
Definition workspace_db (t : Tables) (workspace : list byte) : Db :=
  default (fresh_db (fresh workspace)) (workspaces t !! workspace).
Definition ensure_workspace (t : Tables) (workspace : list byte) : Tables :=
  with_workspaces t (<[workspace := workspace_db t workspace]> (workspaces t)).

Fixpoint founding_in (rows : list Seat) (authorizer : list byte) : option (list byte) :=
  match rows with
  | [] => None
  | row :: rest =>
      if bool_decide (entry_hash authorizer (seat_salt row) = seat_device row)
      then Some (seat_workspace row) else founding_in rest authorizer
  end.
Definition founding_workspace (t : Tables) (authorizer : list byte) : option (list byte) :=
  founding_in (seat_rows t) authorizer.

(** The workspaces the named groups point at, in the order named, once each. *)
Fixpoint candidates_from (t : Tables) (known : list (list byte)) (groups : list (list byte)) : list (list byte) :=
  match groups with
  | [] => known
  | group :: rest =>
      match workspace_of t group with
      | Some found => candidates_from t (if contains known found then known else known ++ [found]) rest
      | None => candidates_from t known rest
      end
  end.
Definition candidates (t : Tables) (groups : list (list byte)) : list (list byte) := candidates_from t [] groups.

Fixpoint first_admitting (t : Tables) (now : Z) (device_key : list byte) (cs : list (list byte)) :
    option (list byte) * Tables :=
  match cs with
  | [] => (None, t)
  | c :: rest =>
      let t := ensure_workspace t c in
      match admits (workspace_db t c) now device_key with
      | AdmissionRefused => first_admitting t now device_key rest
      | _ => (Some c, t)
      end
  end.

Definition admission (t : Tables) (now : Z) (groups : list (list byte)) (device_key : list byte) :
    result StoreError Verdict * Tables :=
  let cs := candidates t groups in
  let '(workspace, t) := first_admitting t now device_key cs in
  let workspace := match workspace with Some w => Some w | None => hd_error cs end in
  let workspace := match workspace with Some w => Some w | None => founding_workspace t device_key end in
  match workspace with
  | None => (Ok UnknownGroup, t)
  | Some workspace =>
      let t := ensure_workspace t workspace in
      let db := workspace_db t workspace in
      let entry := entry_hash device_key (db_salt db) in
      match admits db now device_key with
      | AccessChain.InSet => (Ok (VerdictAdmitted entry workspace), snd (ensure_groups t workspace groups))
      | Provisional => (Ok (VerdictAdmitted entry workspace), t)
      | AdmissionRefused =>
          match read_prior db with
          | Err e => (Err e, t)
          | Ok (Some _) => (Ok VerdictRefused, t)
          | Ok None =>
              (Ok (if bool_decide (founding_workspace t device_key = Some workspace)
                   then VerdictBootstrap workspace else VerdictRefused), t)
          end
      end
  end.

(** [admit] of [ws.rs]; [None] is a relay with no database. *)
Definition admit_device (mode : AccessSetMode) (tables : option Tables) (now : Z) (requested : list (list byte))
    (device_key : list byte) : AdmitOutcome * option Tables :=
  match mode with
  | AccessSetOff => (InSet (entry_hash device_key []) None, tables)
  | Enforce =>
      match tables with
      | None => (AdmitRefused Backpressure, None)
      | Some t =>
          let '(verdict, t) := admission t now requested device_key in
          (match verdict with
           | Ok (VerdictAdmitted entry workspace) => InSet entry (Some workspace)
           | Ok (VerdictBootstrap workspace) => Connection.Bootstrap workspace
           | Ok UnknownGroup => AdmitRefused GroupUnknown
           | Ok VerdictRefused => AdmitRefused WriterNotInAccessSet
           | Err _ => AdmitRefused Backpressure
           end, Some t)
      end
  end.

(** [authorize_group]: the group must belong to the workspace that admitted the session. *)
Definition authorize_group (tables : option Tables) (s : Session) (group : list byte) : result ErrorCode Tables :=
  match tables with
  | None => Err Backpressure
  | Some t =>
      match authorized_workspace s with
      | None => Err WriterNotInAccessSet
      | Some workspace =>
          match workspace_of t group with
          | Some found => if bool_decide (found = workspace) then Ok t else Err WriterNotInAccessSet
          | None => Err GroupUnknown
          end
      end
  end.

(** ** Publishing into the right workspace *)
Inductive Published : Type := PublishedUnknownGroup | PublishedAccepted (a : Accepted).

Definition publish_in (t : Tables) (now : Z) (workspace : list byte) (c : AccessSet) (body : list byte) :
    result StoreError (Tables * Accepted) :=
  let? r := publish (workspace_db t workspace) now c body in
  Ok (with_workspaces t (<[workspace := fst r]> (workspaces t)), snd r).

Definition publish_founding (t : Tables) (now : Z) (workspace : list byte) (c : AccessSet) (body : list byte)
    (groups : list (list byte)) : result StoreError (Tables * Accepted) :=
  let? r := publish_in t now workspace c body in
  Ok (snd (ensure_groups (fst r) workspace groups), snd r).

Fixpoint first_known (t : Tables) (groups : list (list byte)) : option (list byte) :=
  match groups with
  | [] => None
  | group :: rest => match workspace_of t group with Some w => Some w | None => first_known t rest end
  end.

Definition publish_for (t : Tables) (now : Z) (groups : list (list byte)) (c : AccessSet) (body : list byte) :
    result StoreError (Tables * Published) :=
  match first_known t groups with
  | Some workspace =>
      let? r := publish_in t now workspace c body in Ok (fst r, PublishedAccepted (snd r))
  | None =>
      match set_authorizers c with
      | [authorizer] =>
          match founding_workspace t authorizer with
          | Some workspace =>
              let? r := publish_founding t now workspace c body groups in Ok (fst r, PublishedAccepted (snd r))
          | None => Ok (t, PublishedUnknownGroup)
          end
      | _ => Ok (t, PublishedUnknownGroup)
      end
  end.

(** Which of the three [rotate_access_set] runs. *)
Definition publish_from (t : Tables) (now : Z) (s : Session) (c : AccessSet) (body : list byte) :
    result StoreError (Tables * Published) :=
  match authorized_workspace s with
  | Some workspace =>
      if set_version c =? 0 then
        let? r := publish_founding t now workspace c body (requested s) in Ok (fst r, PublishedAccepted (snd r))
      else
        let? r := publish_in t now workspace c body in Ok (fst r, PublishedAccepted (snd r))
  | None => publish_for t now (requested s) c body
  end.
End admission.

(** ** Group rows *)
Lemma group_count_insert t workspace group other :
  group_rows t !! group = None →
  group_count (with_group_rows t (<[group := workspace]> (group_rows t))) other
  = if bool_decide (workspace = other) then S (group_count t other) else group_count t other.
Proof.
  intros Hn. unfold group_count. cbn [group_rows with_group_rows]. case_bool_decide as Heq.
  - rewrite map_filter_insert_True by done. rewrite map_size_insert_None; [done|].
    apply map_lookup_filter_None. left. done.
  - rewrite map_filter_insert_False by done. by rewrite delete_id.
Qed.

(** What running the guarded inserts leaves: old rows untouched, new rows only
    for this workspace and only for the groups named, below the ceiling. *)
Record groups_grown (workspace : list byte) (named : list (list byte)) (created : nat) (t t' : Tables) : Prop := {
  grown_keeps g w : group_rows t !! g = Some w → group_rows t' !! g = Some w;
  grown_new g w : group_rows t' !! g = Some w → group_rows t !! g = None → w = workspace ∧ g ∈ named;
  grown_count : group_count t' workspace = (group_count t workspace + created)%nat;
  grown_others other : other ≠ workspace → group_count t' other = group_count t other;
  grown_ceiling : (group_count t workspace ≤ MAX_GROUPS_PER_WORKSPACE →
                   group_count t' workspace ≤ MAX_GROUPS_PER_WORKSPACE)%nat;
  grown_full g : g ∈ named → group_rows t' !! g = None →
                 (MAX_GROUPS_PER_WORKSPACE ≤ group_count t' workspace)%nat;
  grown_rest : workspaces t' = workspaces t ∧ seat_rows t' = seat_rows t
}.

Lemma insert_groups_grown workspace groups t :
  groups_grown workspace groups (fst (fold_left (insert_group workspace) groups (0%nat, t))) t
    (snd (fold_left (insert_group workspace) groups (0%nat, t))).
Proof.
  induction groups as [|g groups IH] using rev_ind.
  { split; simpl; try done; try lia; [naive_solver congruence | by intros g ?%not_elem_of_nil]. }
  rewrite fold_left_app. simpl.
  destruct (fold_left (insert_group workspace) groups (0%nat, t)) as [created t']. simpl in *.
  destruct IH as [Hk Hn Hc Ho Hm Hf Hr].
  destruct (Nat.ltb_spec (group_count t' workspace) MAX_GROUPS_PER_WORKSPACE) as [Hlt|Hge]; simpl.
  - destruct (bool_decide_reflect (is_Some (group_rows t' !! g))) as [Hs|Hs]; simpl.
    + split; try done.
      * intros g' w Hg' Hold. destruct (Hn g' w Hg' Hold). split; [done|]. apply elem_of_app. by left.
      * intros g' [Hin|Hin%list_elem_of_singleton]%elem_of_app; [by apply Hf|]. subst g'. intros Hnone.
        rewrite Hnone in Hs. by apply is_Some_None in Hs.
    + apply eq_None_not_Some in Hs. split; simpl; try done.
      * intros g' w Hg'. rewrite lookup_insert_ne; [by apply Hk|]. intros ->. apply Hk in Hg'. congruence.
      * intros g' w Hg' Hold. destruct (decide (g' = g)) as [->|Hne].
        { rewrite lookup_insert_eq in Hg'. injection Hg' as <-. split; [done|]. apply elem_of_app. right. by left. }
        rewrite lookup_insert_ne in Hg' by done. destruct (Hn g' w Hg' Hold). split; [done|]. apply elem_of_app. by left.
      * rewrite group_count_insert, bool_decide_eq_true_2 by done. lia.
      * intros other Hne. rewrite group_count_insert, bool_decide_eq_false_2 by congruence. by apply Ho.
      * intros _. rewrite group_count_insert, bool_decide_eq_true_2 by done. lia.
      * intros g' Hin Hnone. destruct (decide (g' = g)) as [->|Hne]; [by rewrite lookup_insert_eq in Hnone|].
        rewrite lookup_insert_ne in Hnone by done.
        apply elem_of_app in Hin as [Hin|Hin%list_elem_of_singleton]; [|done].
        specialize (Hf g' Hin Hnone). lia.
  - split; try done.
    intros g' w Hg' Hold. destruct (Hn g' w Hg' Hold). split; [done|]. apply elem_of_app. by left.
Qed.

Lemma ensure_groups_spec t workspace groups :
  let named := filter (λ g, length g = GROUP_ID_BYTES) groups in
  let '(created, t') := ensure_groups t workspace groups in
  groups_grown workspace named created t t' ∧ ensure_groups t' workspace groups = (0%nat, t').
Proof.
  set (named := filter _ groups).
  assert (∀ t', (∀ g, g ∈ named → is_Some (group_rows t' !! g)) ∨ (MAX_GROUPS_PER_WORKSPACE ≤ group_count t' workspace)%nat →
    ensure_groups t' workspace groups = (0%nat, t')) as Hidle.
  { intros t' Hd. unfold ensure_groups. destruct (Nat.leb_spec MAX_GROUPS_PER_WORKSPACE (group_count t' workspace)); [done|].
    fold named. destruct Hd as [Hd|]; [|lia]. clear -Hd. induction named as [|g l IH]; [done|]. simpl.
    rewrite (bool_decide_eq_true_2 (is_Some (group_rows t' !! g))) by (apply Hd; by left).
    rewrite andb_false_r. apply IH. intros g' Hg'. apply Hd. by right. }
  unfold ensure_groups at 1.
  destruct (Nat.leb_spec MAX_GROUPS_PER_WORKSPACE (group_count t workspace)) as [Hle|Hlt].
  - split; [|apply Hidle; by right]. split; try done; try lia; naive_solver congruence.
  - fold named. pose proof (insert_groups_grown workspace named t) as Hg.
    destruct (fold_left (insert_group workspace) named (0%nat, t)) as [created t']. simpl in Hg.
    split; [done|]. apply Hidle.
    destruct (decide (MAX_GROUPS_PER_WORKSPACE ≤ group_count t' workspace)%nat) as [|Hn]; [by right|]. left.
    intros g Hin. destruct (group_rows t' !! g) eqn:Heq; [done|]. exfalso. apply Hn. by eapply grown_full.
Qed.

Lemma ensure_groups_grown t workspace groups :
  let '(created, t') := ensure_groups t workspace groups in
  groups_grown workspace (filter (λ g, length g = GROUP_ID_BYTES) groups) created t t'.
Proof. pose proof (ensure_groups_spec t workspace groups) as Hg. destruct (ensure_groups _ _ _). by destruct Hg. Qed.

(** [ensure_groups] can neither take a group from another workspace nor grow a
    workspace past its ceiling: existing rows keep their owner, new rows are this
    workspace's, have a 32-byte id and were named, the count of rows it made is
    the growth, no other workspace's count moves, and a named id is left without a
    row only when the ceiling is reached. Run again, it makes nothing. *)
Theorem ensure_groups_contained t workspace groups :
  let named := filter (λ g, length g = GROUP_ID_BYTES) groups in
  let '(created, t') := ensure_groups t workspace groups in
  groups_grown workspace named created t t' ∧ ensure_groups t' workspace groups = (0%nat, t').
Proof. apply ensure_groups_spec. Qed.

(** ** Resolving the workspace *)
Section resolution.
Context `{Blake3, Ed25519}.
Variable fresh : list byte → list byte.

Lemma candidates_spec t groups w :
  w ∈ candidates t groups ↔ ∃ g, g ∈ groups ∧ workspace_of t g = Some w.
Proof.
  unfold candidates. assert (∀ known, w ∈ candidates_from t known groups ↔
    w ∈ known ∨ ∃ g, g ∈ groups ∧ workspace_of t g = Some w) as Hgen.
  { induction groups as [|g groups IH]; intros known; simpl; [set_solver|].
    destruct (workspace_of t g) as [found|] eqn:Hg.
    - rewrite IH. destruct (contains known found) eqn:Hc.
      + apply contains_true in Hc. set_solver.
      + rewrite elem_of_app, list_elem_of_singleton. set_solver.
    - rewrite IH. set_solver. }
  rewrite Hgen. set_solver.
Qed.

(** Two tables that answer every question about workspaces alike. *)
Definition same_answers (t t' : Tables) : Prop :=
  (∀ w, workspace_db fresh t' w = workspace_db fresh t w)
  ∧ group_rows t' = group_rows t ∧ seat_rows t' = seat_rows t.

Lemma ensure_workspace_same t w : same_answers t (ensure_workspace fresh t w).
Proof.
  split; [|done]. intros w'. unfold workspace_db at 1, ensure_workspace. simpl.
  destruct (decide (w' = w)) as [->|Hne]; [by rewrite lookup_insert_eq | by rewrite lookup_insert_ne].
Qed.

Lemma same_answers_trans t1 t2 t3 : same_answers t1 t2 → same_answers t2 t3 → same_answers t1 t3.
Proof. intros (Ha & Hb & Hc) (Hd & He & Hf). split_and!; [|congruence..]. intros w. by rewrite Hd. Qed.

Lemma first_admitting_spec t now key cs :
  let '(found, t') := first_admitting fresh t now key cs in
  same_answers t t' ∧
  match found with
  | Some w => w ∈ cs ∧ admits (workspace_db fresh t w) now key ≠ AdmissionRefused
  | None => ∀ w, w ∈ cs → admits (workspace_db fresh t w) now key = AdmissionRefused
  end.
Proof.
  revert t. induction cs as [|c cs IH]; intros t; simpl; [by split; [|by intros w ?%not_elem_of_nil]|].
  pose proof (ensure_workspace_same t c) as Hsame. pose proof Hsame as (Hdb & _). rewrite Hdb.
  destruct (admits (workspace_db fresh t c) now key) eqn:Ha;
    [split; [done|]; split; [by left | congruence] .. |].
  specialize (IH (ensure_workspace fresh t c)). destruct (first_admitting _ _ _ _ cs) as [found t'].
  destruct IH as [Hs IH]. split; [by eapply same_answers_trans|]. destruct found as [w|].
  - rewrite Hdb in IH. destruct IH. split; [by right | done].
  - intros w [->|Hw]%elem_of_cons; [done|]. rewrite <- Hdb. by apply IH.
Qed.

Lemma admission_ask t now groups key found t1 :
  first_admitting fresh t now key (candidates t groups) = (found, t1) →
  admission fresh t now groups key =
    match (match (match found with Some w => Some w | None => hd_error (candidates t groups) end)
           with Some w => Some w | None => founding_workspace t1 key end) with
    | None => (Ok UnknownGroup, t1)
    | Some w =>
        let t2 := ensure_workspace fresh t1 w in
        match admits (workspace_db fresh t2 w) now key with
        | AccessChain.InSet =>
            (Ok (VerdictAdmitted (entry_hash key (db_salt (workspace_db fresh t2 w))) w), snd (ensure_groups t2 w groups))
        | Provisional => (Ok (VerdictAdmitted (entry_hash key (db_salt (workspace_db fresh t2 w))) w), t2)
        | AdmissionRefused =>
            match read_prior (workspace_db fresh t2 w) with
            | Err e => (Err e, t2)
            | Ok (Some _) => (Ok VerdictRefused, t2)
            | Ok None => (Ok (if bool_decide (founding_workspace t2 key = Some w)
                              then VerdictBootstrap w else VerdictRefused), t2)
            end
        end
    end.
Proof. intros Hf. unfold admission. by rewrite Hf. Qed.

(** Nobody can squat a member out of its workspace: when any group the
    connection names belongs to a workspace that admits the device, the device is
    admitted, into such a workspace, whatever other workspaces' groups the
    connection also names and in whatever order. *)
Theorem members_not_squatted t now groups key g w :
  g ∈ groups → workspace_of t g = Some w → admits (workspace_db fresh t w) now key ≠ AdmissionRefused →
  ∃ w', (∃ g', g' ∈ groups ∧ workspace_of t g' = Some w')
    ∧ admits (workspace_db fresh t w') now key ≠ AdmissionRefused
    ∧ fst (admission fresh t now groups key)
      = Ok (VerdictAdmitted (entry_hash key (db_salt (workspace_db fresh t w'))) w').
Proof.
  intros Hg Hw Ha. pose proof (first_admitting_spec t now key (candidates t groups)) as Hf.
  destruct (first_admitting fresh t now key (candidates t groups)) as [found t1] eqn:Heq.
  destruct Hf as [Hs Hf]. destruct found as [w'|].
  - exists w'. destruct Hf as [Hin Hadm]. split; [by apply candidates_spec|]. split; [done|].
    rewrite (admission_ask _ _ _ _ _ _ Heq). cbv zeta.
    destruct (same_answers_trans _ _ _ Hs (ensure_workspace_same t1 w')) as (Hdb & _). rewrite Hdb.
    by destruct (admits (workspace_db fresh t w') now key).
  - exfalso. apply Ha, Hf, candidates_spec. by exists g.
Qed.

Definition verdict_sound (t : Tables) (now : Z) (groups : list (list byte)) (key : list byte) (v : Verdict) : Prop :=
  match v with
  | VerdictAdmitted entry w =>
      admits (workspace_db fresh t w) now key ≠ AdmissionRefused
      ∧ entry = entry_hash key (db_salt (workspace_db fresh t w))
      ∧ ((∃ g, g ∈ groups ∧ workspace_of t g = Some w) ∨ founding_workspace t key = Some w)
  | VerdictBootstrap w =>
      read_prior (workspace_db fresh t w) = Ok None ∧ founding_workspace t key = Some w
  | UnknownGroup => (∀ g, g ∈ groups → workspace_of t g = None) ∧ founding_workspace t key = None
  | VerdictRefused => ∀ g w, g ∈ groups → workspace_of t g = Some w →
      admits (workspace_db fresh t w) now key = AdmissionRefused
  end.

Definition rows_by_members (t : Tables) (now : Z) (key : list byte) (v : Verdict) (t' : Tables) : Prop :=
  group_rows t' ≠ group_rows t →
  ∃ entry w, v = VerdictAdmitted entry w ∧ admits (workspace_db fresh t w) now key = AccessChain.InSet.

(** The answer once the workspace to ask is settled. *)
Lemma asked_sound t t1 now groups key w v t' :
  same_answers t t1 →
  (∃ g, g ∈ groups ∧ workspace_of t g = Some w) ∨ founding_workspace t key = Some w →
  (admits (workspace_db fresh t w) now key = AdmissionRefused →
   ∀ g w', g ∈ groups → workspace_of t g = Some w' → admits (workspace_db fresh t w') now key = AdmissionRefused) →
  (let t2 := ensure_workspace fresh t1 w in
   match admits (workspace_db fresh t2 w) now key with
   | AccessChain.InSet =>
       (Ok (VerdictAdmitted (entry_hash key (db_salt (workspace_db fresh t2 w))) w), snd (ensure_groups t2 w groups))
   | Provisional => (Ok (VerdictAdmitted (entry_hash key (db_salt (workspace_db fresh t2 w))) w), t2)
   | AdmissionRefused =>
       match read_prior (workspace_db fresh t2 w) with
       | Err e => (Err e, t2)
       | Ok (Some _) => (Ok VerdictRefused, t2)
       | Ok None => (Ok (if bool_decide (founding_workspace t2 key = Some w)
                         then VerdictBootstrap w else VerdictRefused), t2)
       end
   end) = (Ok v, t') →
  verdict_sound t now groups key v ∧ rows_by_members t now key v t'.
Proof.
  intros Hs Hres Hall. cbv zeta.
  destruct (same_answers_trans _ _ _ Hs (ensure_workspace_same t1 w)) as (Hdb & Hg & Hseats).
  rewrite Hdb. unfold rows_by_members, founding_workspace in *. rewrite Hseats.
  destruct (admits (workspace_db fresh t w) now key) eqn:Ha.
  - intros [= <- <-]. split; [simpl; rewrite Ha; naive_solver|]. intros _. by exists (entry_hash key (db_salt (workspace_db fresh t w))), w.
  - intros [= <- <-]. rewrite Hg. split; [simpl; rewrite Ha; naive_solver | done].
  - destruct (read_prior (workspace_db fresh t w)) as [[p|]|] eqn:Hp; [| |done].
    + intros [= <- <-]. rewrite Hg. split; [|done]. simpl. by apply Hall.
    + intros [= <- <-]. rewrite Hg. split; [|done]. case_bool_decide; simpl; [done | by apply Hall].
Qed.

(** What [AUTH] is told is true: an admitted device is in the set of, or holds
    a live grant in, the workspace it is told, under the hash it is told, and that
    workspace owns a group it named or is the one its bootstrap reservation founds;
    the founding answer is given only to the holder of a live reservation on a
    workspace with no set; and only a member's connection creates group rows. *)
Theorem admission_sound t now groups key v t' :
  admission fresh t now groups key = (Ok v, t') →
  verdict_sound t now groups key v ∧ rows_by_members t now key v t'.
Proof.
  pose proof (first_admitting_spec t now key (candidates t groups)) as Hf.
  destruct (first_admitting fresh t now key (candidates t groups)) as [found t1] eqn:Heq.
  rewrite (admission_ask _ _ _ _ _ _ Heq). destruct Hf as [Hs Hf].
  assert (founding_workspace t1 key = founding_workspace t key) as Hfound
    by (unfold founding_workspace; by rewrite (proj2 (proj2 Hs))). rewrite Hfound.
  assert (∀ w, (match found with Some w => Some w | None => hd_error (candidates t groups) end) = Some w →
            ∃ g, g ∈ groups ∧ workspace_of t g = Some w) as Hnamed.
  { intros w Hw. apply candidates_spec. destruct found as [w'|]; [injection Hw as <-; by destruct Hf|].
    destruct (candidates t groups) as [|c cs]; [done|]. injection Hw as <-. by left. }
  destruct (match found with Some w => Some w | None => hd_error (candidates t groups) end) as [w|] eqn:Hw.
  - eapply (asked_sound t t1); [done | by left; apply Hnamed |]. intros Hr.
    destruct found as [w'|]; [injection Hw as <-; by destruct Hf|].
    intros g w' Hg Hgw. apply Hf, candidates_spec. by exists g.
  - destruct found as [|]; [done|].
    assert (candidates t groups = []) as Hnil by by destruct (candidates t groups).
    assert (∀ g w, g ∈ groups → workspace_of t g ≠ Some w) as Hnone.
    { intros g w Hg Hgw. apply (not_elem_of_nil w). rewrite <- Hnil. apply candidates_spec. by exists g. }
    destruct (founding_workspace t key) as [w|] eqn:Hfw.
    + eapply (asked_sound t t1); [done | by right |]. intros _ g w' Hg Hgw. by edestruct Hnone.
    + intros [= <- <-]. split; [|unfold rows_by_members; by rewrite (proj1 (proj2 Hs))]. split; [|done]. intros g Hg.
      destruct (workspace_of t g) as [w|] eqn:Hgw; [by edestruct Hnone | done].
Qed.

(** ** Publications stay in the workspace that admitted the session *)
Lemma publish_in_home t now w c body t' a :
  publish_in fresh t now w c body = Ok (t', a) →
  (∀ w', w' ≠ w → workspaces t' !! w' = workspaces t !! w') ∧ group_rows t' = group_rows t.
Proof.
  unfold publish_in. intros Hp. apply result_bind_ok in Hp as ([db a'] & _ & [= <- <-]).
  split; [|done]. intros w' Hne. simpl. by rewrite lookup_insert_ne.
Qed.

Lemma publish_founding_home t now w c body groups t' a :
  publish_founding fresh t now w c body groups = Ok (t', a) →
  (∀ w', w' ≠ w → workspaces t' !! w' = workspaces t !! w')
  ∧ (∀ g owner, group_rows t !! g = Some owner → group_rows t' !! g = Some owner)
  ∧ (∀ g owner, group_rows t' !! g = Some owner → group_rows t !! g = None → owner = w ∧ g ∈ groups).
Proof.
  unfold publish_founding. intros Hp. apply result_bind_ok in Hp as ([t1 a'] & Hp & [= <- <-]).
  apply publish_in_home in Hp as [Hw Hg]. simpl.
  pose proof (ensure_groups_grown t1 w groups) as Hgrown.
  destruct (ensure_groups t1 w groups) as [created t2]. destruct Hgrown as [Hk Hn _ _ _ _ [Hws _]]. simpl.
  rewrite Hg in Hk, Hn. split_and!.
  - intros w' Hne. rewrite Hws. by apply Hw.
  - exact Hk.
  - intros g owner Hnew Hold. destruct (Hn g owner Hnew Hold) as [-> Hin]. split; [done|].
    by apply list_elem_of_filter in Hin as [_ ?].
Qed.

(** A bound session publishes into its own workspace and nowhere else: no other
    workspace's chain changes, no group changes hands, and the group rows a
    founding publication adds are its own workspace's and were named in [CONNECT].
    The groups it names, squatted or not, do not choose the chain. *)
Theorem publication_stays_home t now s c body w t' p :
  authorized_workspace s = Some w → publish_from fresh t now s c body = Ok (t', p) →
  (∀ w', w' ≠ w → workspaces t' !! w' = workspaces t !! w')
  ∧ (∀ g owner, group_rows t !! g = Some owner → group_rows t' !! g = Some owner)
  ∧ (∀ g owner, group_rows t' !! g = Some owner → group_rows t !! g = None → owner = w ∧ g ∈ requested s).
Proof.
  intros Hw. unfold publish_from. rewrite Hw. destruct (set_version c =? 0); intros Hp;
    apply result_bind_ok in Hp as ([t1 a] & Hp & [= <- <-]); simpl.
  - by eapply publish_founding_home.
  - apply publish_in_home in Hp as [Hd ->]. split; [done|]. split; [done|]. congruence.
Qed.
End resolution.

(** ** A member named beside a squatter *)
#[local] Instance admission_blake3 : Blake3 := poly_digest.
#[local] Instance admission_ed25519 : Ed25519 := toy_verify.

Definition id32 (n : Z) : list byte := replicate 31 Byte.x00 ++ [byte_of_Z n].
Definition home : list byte := [Byte.x41].
Definition elsewhere : list byte := [Byte.x42].
Definition two_workspaces : Tables :=
  mkTables (<[home := db_of genesis_publish]> {[elsewhere := fresh_db [Byte.x01]]})
    (<[id32 1 := elsewhere]> {[id32 2 := home]}) [].

Lemma members_not_squatted_witness :
  fst (admission (λ _, []) two_workspaces 0 [id32 1; id32 2] owner)
  = Ok (VerdictAdmitted (entry_hash owner example_salt) home).
Proof.
  destruct (members_not_squatted (λ _, []) two_workspaces 0 [id32 1; id32 2] owner (id32 2) home
    ltac:(right; by left) ltac:(done) ltac:(by vm_compute)) as (w & (g & Hg & Hgw) & Ha & Heq).
  rewrite Heq. assert (w = home) as ->.
  { apply elem_of_cons in Hg as [->|Hg%list_elem_of_singleton]; [|subst g; by injection Hgw as <-].
    injection Hgw as <-. exfalso. apply Ha. by vm_compute. }
  by vm_compute.
Defined.

Definition asked := admission (λ _, []) two_workspaces 0 [id32 1; id32 3] owner.

Lemma asked_refused : fst asked = Ok VerdictRefused.
Proof. by vm_compute. Qed.

Lemma admission_sound_witness :
  verdict_sound (λ _, []) two_workspaces 0 [id32 1; id32 3] owner VerdictRefused.
Proof.
  refine (proj1 (admission_sound (λ _, []) two_workspaces 0 [id32 1; id32 3] owner VerdictRefused (snd asked) _)).
  rewrite <- asked_refused. apply surjective_pairing.
Defined.

Definition bound_home : Session := bind_workspace (fst (session_new Demo.config [] (mkProcess 1 []))) elsewhere.
Definition squatted : Tables := mkTables ∅ {[id32 2 := home]} [].
Definition founding_publication := publish_from (λ _, example_salt) squatted 0 bound_home genesis genesis_body.

Lemma founding_accepted :
  ∃ t p, publish_from (λ _, example_salt) squatted 0 bound_home genesis genesis_body = Ok (t, p).
Proof.
  fold founding_publication. assert (is_ok founding_publication = true) as Hok by (by vm_compute).
  destruct founding_publication as [[t p]|]; [by exists t, p | done].
Qed.

Lemma publication_stays_home_witness :
  ∃ t p, founding_publication = Ok (t, p) ∧ workspaces t !! home = None.
Proof.
  destruct founding_accepted as (t & p & Hp). exists t, p. split; [exact Hp|].
  destruct (publication_stays_home (λ _, example_salt) squatted 0 bound_home genesis genesis_body
    elsewhere t p eq_refl Hp) as [Hw _].
  rewrite (Hw home); [apply lookup_empty | discriminate].
Defined.
