(* ===== verification/HandshakeDelivery.v ===== *)
(** * Handshakes to the members: [sync.rs] and [ws.rs]

    [replay_handshakes] is the loop of [sync.rs] a [SUB] runs, a page at a
    time over tables that other sockets keep appending to: each turn is given
    the tables as that turn's query finds them, and whether each frame finds
    room in the connection's queue before the drain timeout.
    [publish_handshake] is the handler of [ws.rs] that authorizes, appends,
    fans out and acknowledges one commit.

    The theorems: a replay that finishes has queued the whole log as its last
    read saw it, in order and once; it finishes as soon as the log grows slower
    than a page a turn; and with the hub's release of what was held, a
    subscriber's handshakes have no gap as long as commits are fanned out in
    the order they were appended. [overtaken_commit_lost] shows the order
    matters: the handler fans out after its transaction has ended, so two
    commits can be fanned out the other way round, and the release drops one. *)

From stdpp Require Import base tactics numbers gmap sets fin_maps functions relations sorting list.
From S2P Require Import Prelude Cbor Crypto Push Frame Envelope Session Connection Admission.
From S2P Require Import Accept Handshake Queue Hub.

Open Scope Z_scope.

Definition HANDSHAKE_REPLAY_PAGE : Z := Z.of_nat SEND_QUEUE_BOUND.

(** ** The replay *)
(** What one turn of the loop meets: the tables its query reads, [None] when
    the query fails, and which frames find room in time. *)
Record Turn : Type := mkTurn { t_read : option Ledger; t_room : Frame → bool }.

(** The frames queued, and whether all of them were. *)
Fixpoint queue_all_awaiting (room : Frame → bool) (frames : list Frame) : bool * list Frame :=
  match frames with
  | [] => (true, [])
  | frame :: frames =>
      if room frame then let '(all, queued) := queue_all_awaiting room frames in (all, frame :: queued)
      else (false, [])
  end.

Definition handshake_frame (group : list byte) (m : StoredMessage) : Frame :=
  Frame.Handshake group (sm_seq m) (sm_message m).

(** One turn: go on from a cursor ([inl]), stop at the end of the log, or fail
    with the cursor reached and what [subscribe] returns. *)
Definition replay_turn (group : list byte) (cursor : Z) (t : Turn) :
    (Z + result (Z * bool) Z) * list Frame :=
  match t_read t with
  | None =>
      let '(open, queued) := queue_all_awaiting (t_room t) [Frame.Error (FrameError_new Backpressure)] in
      (inr (Err (cursor, open)), queued)
  | Some l =>
      let messages := page l group cursor (Some HANDSHAKE_REPLAY_PAGE) in
      match last messages with
      | None => (inr (Ok cursor), [])
      | Some stored =>
          let short := Z.of_nat (length messages) <? HANDSHAKE_REPLAY_PAGE in
          let cursor := u64_saturating_add (sm_seq stored) 1 in
          let '(all, queued) := queue_all_awaiting (t_room t) (handshake_frame group <$> messages) in
          (if all then (if short then inr (Ok cursor) else inl cursor) else inr (Err (cursor, false)), queued)
      end
  end.

(** The loop; [None] is a loop still running when the turns given run out. *)
Fixpoint replay_loop (group : list byte) (cursor : Z) (turns : list Turn) :
    option (result (Z * bool) Z) * list Frame :=
  match turns with
  | [] => (None, [])
  | t :: turns =>
      match replay_turn group cursor t with
      | (inr outcome, queued) => (Some outcome, queued)
      | (inl cursor, queued) =>
          let '(outcome, more) := replay_loop group cursor turns in (outcome, queued ++ more)
      end
  end.
Definition replay_handshakes (group : list byte) (turns : list Turn) : option (result (Z * bool) Z) * list Frame :=
  replay_loop group 0 turns.

(** ** Publishing *)
Section publish.
Context {C P : Type} `{MpscLaws C, SemaphoreLaws P} `{Blake3}.

(** [queue_all] of one frame: whether the connection goes on, and the heap. *)
Definition queue_one (h : N → Channel C P) (snd_ : N) (frame : Frame) : bool * (N → Channel C P) :=
  let '(q, h) := queue_at h snd_ frame in (match q with QSent => true | _ => false end, h).

Definition append_error_code (e : HandshakeStoreError) : ErrorCode :=
  match e with
  | HandshakeRefused error => handshake_error_code error
  | HandshakeDatabase => Backpressure
  | HandshakeBudgetExhausted _ => LogBudgetExhausted
  end.

(** Everything a publication touches; [woken] is the groups handed to push. *)
Record Relay : Type := mkRelay {
  r_ledger : Ledger; r_hub : Hub; r_heap : N → Channel C P; r_woken : list (list byte)
}.

Definition publish_handshake (config : Config) (tables : option Tables) (session : Session)
    (connection : ConnectionId) (snd_ : N) (group message : list byte) (r : Relay) : bool * Relay :=
  let refuse code :=
    let '(open, h) := queue_one (r_heap r) snd_ (Frame.Error (FrameError_new code)) in
    (open, mkRelay (r_ledger r) (r_hub r) h (r_woken r)) in
  match authorize_group tables session group with
  | Err code => refuse code
  | Ok _ =>
      match append_within (r_ledger r) (mkHandshake group message) (limit_bytes config) with
      | (Err e, _) => refuse (append_error_code e)
      | (Ok appended, l) =>
          let frame := Frame.Handshake group (appended_seq appended) message in
          let '(_, hub, h) := fanout_frame (r_hub r) (r_heap r) group frame connection MIN_FANOUT_VERSION in
          let '(open, h) := queue_one h snd_ frame in
          (open, mkRelay l hub h (r_woken r ++ [group]))
      end
  end.
End publish.
Arguments Relay C P : clear implicits.

(** ** The replay under concurrent appends *)
Section replay_proofs.
Context `{Blake3Width} (config : Config).

(** Each read sees the tables some steps after the read before it. *)
Fixpoint growing (l : Ledger) (turns : list Turn) : Prop :=
  match turns with
  | [] => True
  | t :: turns =>
      match t_read t with
      | None => growing l turns
      | Some l' => rtc (ledger_step config) l l' ∧ growing l' turns
      end
  end.

(** The log of a group, as the frames a member is sent. *)
Definition log_frames (l : Ledger) (group : list byte) : list Frame :=
  (λ r, Frame.Handshake group (hr_seq r) (hr_message r)) <$> group_rows l group.

Lemma prefix_of_log l l' group :
  ledger_ok l → rtc (ledger_step config) l l' → log_frames l group `prefix_of` log_frames l' group.
Proof using Type*.
  intros Hok Hs. destruct (ledger_steps_prefix config l l' Hok Hs) as [k Hk].
  unfold log_frames, group_rows. rewrite Hk, filter_app, fmap_app. by eexists.
Qed.

Lemma log_frames_take l l' group n :
  ledger_ok l → rtc (ledger_step config) l l' → (n ≤ length (log_frames l group))%nat →
  take n (log_frames l' group) = take n (log_frames l group).
Proof using Type*.
  intros Hok Hs Hn. destruct (prefix_of_log l l' group Hok Hs) as [k ->]. by rewrite take_app_le.
Qed.

Lemma queue_all_awaiting_cases room frames :
  let '(all, queued) := queue_all_awaiting room frames in
  queued `prefix_of` frames ∧ (all = true → queued = frames) ∧ (Forall (λ f, room f = true) frames → all = true).
Proof.
  induction frames as [|f frames IH]; cbn [queue_all_awaiting]; [done|].
  destruct (room f) eqn:Hr.
  - destruct (queue_all_awaiting room frames) as [all queued]. destruct IH as (Hp & Hall & Hroom).
    split_and!; [by apply prefix_cons|intros Ha; by rewrite (Hall Ha)|by inversion 1; auto].
  - split_and!; [apply prefix_nil|done|]. inversion 1; congruence.
Qed.

(** The slice a page is, as frames. *)
Lemma page_frames l group n :
  ledger_ok l → Z.of_nat n ≤ I64_MAX →
  handshake_frame group <$> page l group (Z.of_nat n) (Some HANDSHAKE_REPLAY_PAGE)
  = take SEND_QUEUE_BOUND (drop n (log_frames l group)).
Proof using Type*.
  intros Hok Hn. rewrite page_dense by (first [apply Hok | lia]). unfold HANDSHAKE_REPLAY_PAGE. cbn [from_option id].
  rewrite !Nat2Z.id, <- list_fmap_compose. unfold log_frames.
  by rewrite <- fmap_drop, <- fmap_take.
Qed.

Lemma page_last l group n m :
  ledger_ok l → Z.of_nat n ≤ I64_MAX →
  last (page l group (Z.of_nat n) (Some HANDSHAKE_REPLAY_PAGE)) = Some m →
  sm_seq m + 1 = Z.of_nat (n + length (take SEND_QUEUE_BOUND (drop n (log_frames l group)))).
Proof using Type*.
  intros Hok Hn. rewrite page_dense by (first [apply Hok | lia]). unfold HANDSHAKE_REPLAY_PAGE. cbn [from_option id].
  rewrite !Nat2Z.id. unfold log_frames. rewrite <- fmap_drop, <- fmap_take, length_fmap.
  set (slice := take SEND_QUEUE_BOUND (drop n (group_rows l group))). rewrite fmap_last.
  destruct (last slice) as [r|] eqn:Hl; [|done]. intros [= <-]. rewrite last_lookup in Hl.
  cbn [stored_of sm_seq]. assert (length slice ≠ 0%nat) as Hne by (intros E; rewrite E in Hl; destruct slice; done).
  unfold slice in Hl at 1. apply lookup_take_Some in Hl as [Hl _]. rewrite lookup_drop in Hl.
  rewrite (run_lookup _ _ _ _ (lo_dense _ Hok group) Hl). fold slice. lia.
Qed.

(** One turn from a cursor inside the log. *)
Variant turn_spec (l : Ledger) (group : list byte) (n : nat) : (Z + result (Z * bool) Z) * list Frame → Prop :=
| turn_failed q c : 
    (∃ k, q = take k (drop n (log_frames l group))) → turn_spec l group n (inr (Err c), q)
| turn_done :
    turn_spec l group n (inr (Ok (Z.of_nat (length (log_frames l group)))), drop n (log_frames l group))
| turn_more :
    (n + SEND_QUEUE_BOUND ≤ length (log_frames l group))%nat →
    turn_spec l group n (inl (Z.of_nat (n + SEND_QUEUE_BOUND)),
      take SEND_QUEUE_BOUND (drop n (log_frames l group))).

Lemma replay_turn_read l group n room :
  ledger_ok l → (n ≤ length (log_frames l group))%nat → Z.of_nat (length (log_frames l group)) < I64_MAX →
  turn_spec l group n (replay_turn group (Z.of_nat n) (mkTurn (Some l) room)).
Proof using Type*.
  intros Hok Hn Hlen. unfold replay_turn. cbn [t_read t_room].
  pose proof (page_frames l group n Hok ltac:(lia)) as Hp. pose proof (page_last l group n) as Hlast.
  set (messages := page l group (Z.of_nat n) (Some HANDSHAKE_REPLAY_PAGE)) in *.
  set (rest := drop n (log_frames l group)) in *.
  assert (length messages = Nat.min SEND_QUEUE_BOUND (length (log_frames l group) - n)) as Hml.
  { rewrite <- (length_fmap (handshake_frame group)), Hp, length_take. unfold rest. by rewrite length_drop. }
  destruct (last messages) as [m|] eqn:Hm.
  - specialize (Hlast m Hok ltac:(lia) eq_refl). rewrite length_take in Hlast. unfold rest in Hlast at 1.
    rewrite length_drop, <- Hml in Hlast.
    replace (u64_saturating_add (sm_seq m) 1) with (Z.of_nat (n + length messages))
      by (unfold u64_saturating_add, U64_MAX, I64_MAX in *; lia).
    rewrite Hp. pose proof (queue_all_awaiting_cases room (take SEND_QUEUE_BOUND rest)) as Hq.
    destruct (queue_all_awaiting room (take SEND_QUEUE_BOUND rest)) as [all queued].
    destruct Hq as (Hpre & Hall & _). destruct all.
    + rewrite (Hall eq_refl). unfold HANDSHAKE_REPLAY_PAGE. destruct (Z.ltb_spec (Z.of_nat (length messages)) (Z.of_nat SEND_QUEUE_BOUND)).
      * assert (n + length messages = length (log_frames l group))%nat as -> by lia.
        rewrite take_ge by (unfold rest; rewrite length_drop; lia). apply turn_done.
      * assert (length messages = SEND_QUEUE_BOUND) as -> by lia. apply turn_more. lia.
    + apply turn_failed. exists (length queued). destruct Hpre as [k Hk]. fold rest.
      rewrite <- (take_drop SEND_QUEUE_BOUND rest), Hk, <- app_assoc. by rewrite take_app_length.
  - apply last_None in Hm. rewrite Hm in Hml. cbn [length] in Hml. unfold SEND_QUEUE_BOUND in Hml.
    assert (length (log_frames l group) = n) as <- by lia.
    assert (rest = []) as Hr by (unfold rest; apply drop_ge; lia).
    pose proof (turn_done l group (length (log_frames l group))) as Hd. fold rest in Hd. by rewrite Hr in Hd.
Qed.

Lemma replay_turn_room l group cursor room c q :
  (∀ f, room f = true) → replay_turn group cursor (mkTurn (Some l) room) ≠ (inr (Err c), q).
Proof.
  intros Hroom. unfold replay_turn. cbn [t_read t_room]. destruct (last _); [|done].
  pose proof (queue_all_awaiting_cases room
    (handshake_frame group <$> page l group cursor (Some HANDSHAKE_REPLAY_PAGE))) as Hq.
  destruct (queue_all_awaiting room _) as [all queued]. destruct Hq as (_ & _ & ->); [by destruct (_ <? _)|].
  apply Forall_forall. auto.
Qed.

Lemma filter_handshakes l group k n :
  filter (λ f, undowngradable f = true) (take k (drop n (log_frames l group))) = take k (drop n (log_frames l group)).
Proof.
  apply filter_all. apply Forall_take, Forall_drop. unfold log_frames. apply Forall_fmap, Forall_forall. done.
Qed.

(** The longest log any turn reads. *)
Definition reads_below (group : list byte) (bound : Z) (turns : list Turn) : Prop :=
  Forall (λ t, from_option (λ l, Z.of_nat (length (log_frames l group)) < bound) True (t_read t)) turns.

(** What a run of the loop from a cursor has queued. *)
Lemma replay_loop_spec turns l group n :
  ledger_ok l → growing l turns → (n ≤ length (log_frames l group))%nat → reads_below group I64_MAX turns →
  let '(outcome, queued) := replay_loop group (Z.of_nat n) turns in
  ∃ l', rtc (ledger_step config) l l' ∧
    match outcome with
    | Some (Ok cursor) =>
        Some l' ∈ t_read <$> turns ∧ cursor = Z.of_nat (length (log_frames l' group))
        ∧ queued = drop n (log_frames l' group)
    | _ => filter (λ f, undowngradable f = true) queued `prefix_of` drop n (log_frames l' group)
    end.
Proof using Type*.
  revert l n. induction turns as [|t turns IH]; intros l n Hok Hgrow Hn Hb; cbn [replay_loop].
  { exists l. split; [done|apply prefix_nil]. }
  destruct t as [[l1|] room].
  - destruct Hgrow as [Hs Hgrow]. apply Forall_cons in Hb as [Hb1 Hb]. cbn [t_read from_option] in Hb1.
    pose proof (ledger_steps_ok config l l1 Hs Hok) as Hok1.
    pose proof (prefix_length _ _ (prefix_of_log l l1 group Hok Hs)) as Hle.
    destruct (replay_turn_read l1 group n room Hok1 ltac:(lia) Hb1) as [q c [k ->]| |Hmore].
    + exists l1. split; [done|]. rewrite filter_handshakes. apply prefix_take.
    + exists l1. split_and!; [done| |done..]. cbn. apply list_elem_of_here.
    + specialize (IH l1 (n + SEND_QUEUE_BOUND)%nat Hok1 Hgrow Hmore Hb).
      destruct (replay_loop group (Z.of_nat (n + SEND_QUEUE_BOUND)) turns) as [outcome more].
      destruct IH as (l' & Hs' & IH). exists l'. split; [by etrans|].
      assert (take SEND_QUEUE_BOUND (drop n (log_frames l1 group)) ++ drop (n + SEND_QUEUE_BOUND) (log_frames l' group)
        = drop n (log_frames l' group)) as Hjoin.
      { destruct (prefix_of_log l1 l' group Hok1 Hs') as [k ->]. rewrite !drop_app_le by lia.
        rewrite <- drop_drop. rewrite app_assoc. by rewrite take_drop. }
      destruct outcome as [[cursor|e]|].
      * destruct IH as (Hin & -> & ->). split_and!; [|done..]. rewrite fmap_cons. by apply list_elem_of_further.
      * rewrite filter_app, filter_handshakes, <- Hjoin. by apply prefix_app.
      * rewrite filter_app, filter_handshakes, <- Hjoin. by apply prefix_app.
  - unfold replay_turn. cbn [t_read t_room queue_all_awaiting].
    destruct (room _); (exists l; split; [done|apply prefix_nil]).
Qed.

(** A replay that finishes has sent the group's whole history: whatever other
    sockets appended while it ran, the frames it queued are exactly the log as
    one of its reads saw it, from number 0, in order, each once, and its cursor
    is that log's length. A replay cut short has queued an initial part of the
    log and no handshake out of place. *)
Theorem replay_is_the_log group turns l0 :
  reachable_ledger config l0 → growing l0 turns → reads_below group I64_MAX turns →
  match replay_handshakes group turns with
  | (Some (Ok cursor), queued) =>
      ∃ l, Some l ∈ t_read <$> turns ∧ cursor = head l group ∧ queued = log_frames l group
        ∧ (frame_seq <$> queued = seqZ 0 cursor)
  | (_, queued) =>
      ∃ l, rtc (ledger_step config) l0 l
        ∧ filter (λ f, undowngradable f = true) queued `prefix_of` log_frames l group
  end.
Proof using Type*.
  intros Hr Hg Hb. apply reachable_ledger_ok in Hr as Hok.
  pose proof (replay_loop_spec turns l0 group 0 Hok Hg (Nat.le_0_l _) Hb) as Hs. unfold replay_handshakes.
  change (Z.of_nat 0) with 0 in Hs. destruct (replay_loop group 0 turns) as [[[cursor|e]|] queued];
    destruct Hs as (l & Hl & Hs); exists l; [|by split..].
  destruct Hs as (Hin & -> & ->). rewrite drop_0.
  pose proof (lo_dense _ (ledger_steps_ok config l0 l Hl Hok) group) as Hd.
  unfold head. rewrite (next_of_dense _ Hd). unfold log_frames. rewrite length_fmap. split_and!; [done..|].
  rewrite <- list_fmap_compose. exact Hd.
Qed.

Lemma replay_loop_finishes turns l group n :
  ledger_ok l → growing l turns → (n ≤ length (log_frames l group))%nat →
  Forall (λ t, is_Some (t_read t) ∧ ∀ f, t_room t f = true) turns →
  reads_below group I64_MAX turns →
  reads_below group (Z.of_nat n + HANDSHAKE_REPLAY_PAGE * Z.of_nat (length turns)) turns → turns ≠ [] →
  ∃ cursor queued, replay_loop group (Z.of_nat n) turns = (Some (Ok cursor), queued).
Proof using Type*.
  revert l n. induction turns as [|t turns IH]; intros l n Hok Hgrow Hn Hall Hb Hfew Hne; [done|].
  apply Forall_cons in Hall as [[[l1 Ht] Hroom] Hall]. destruct t as [read room]. cbn [t_read t_room] in *. subst read.
  destruct Hgrow as [Hs Hgrow]. apply Forall_cons in Hb as [Hb1 Hb], Hfew as [Hf1 Hfew]. cbn [t_read from_option] in *.
  pose proof (ledger_steps_ok config l l1 Hs Hok) as Hok1.
  pose proof (prefix_length _ _ (prefix_of_log l l1 group Hok Hs)) as Hle.
  cbn [replay_loop]. pose proof (replay_turn_read l1 group n room Hok1 ltac:(lia) Hb1) as Hturn.
  pose proof (λ c q, replay_turn_room l1 group (Z.of_nat n) room c q Hroom) as Hno. unfold HANDSHAKE_REPLAY_PAGE in *.
  destruct Hturn as [q c _| |Hmore]; [by destruct (Hno c q)|by eexists _, _|].
  destruct turns as [|t2 turns]; [cbn [length] in Hf1; lia|].
  destruct (IH l1 (n + SEND_QUEUE_BOUND)%nat) as (cursor & more & ->); [done..| | |by eexists _, _]; [|done].
  eapply Forall_impl; [exact Hfew|]. intros [[l2|] room2]; cbn [t_read from_option length]; [|done]. unfold SEND_QUEUE_BOUND. lia.
Qed.

(** C26. A subscription's replay ends: with a client that keeps reading and a
    database that answers, the loop finishes as soon as the turns it has had
    outnumber the log's pages, however the log grows meanwhile. *)
Theorem replay_finishes group turns l0 :
  reachable_ledger config l0 → growing l0 turns →
  Forall (λ t, is_Some (t_read t) ∧ ∀ f, t_room t f = true) turns →
  reads_below group (Z.min I64_MAX (HANDSHAKE_REPLAY_PAGE * Z.of_nat (length turns))) turns → turns ≠ [] →
  ∃ cursor queued, replay_handshakes group turns = (Some (Ok cursor), queued).
Proof using Type*.
  intros Hr Hg Hall Hb Hne. apply reachable_ledger_ok in Hr as Hok. unfold replay_handshakes.
  change 0 with (Z.of_nat 0). eapply (replay_loop_finishes turns l0 group 0); try done; try lia.
  all: eapply Forall_impl; [exact Hb|]; intros [[l2|] room2]; cbn [t_read from_option]; [|done]; lia.
Qed.

(** ** The seam between the replay and the live commits *)
Section seam.
Context {C P : Type} `{MpscLaws C, SemaphoreLaws P}.

(** What a subscription runs beside: the tables, how many of the group's commits
    have been fanned out, the hub and the queues. *)
Record Seam : Type := mkSeam {
  sm_log : Ledger; sm_fanned : nat; sm_hub : Hub; sm_heap : N → Channel C P
}.
Definition on_heap (w : Seam) (h : N → Channel C P) : Seam := mkSeam (sm_log w) (sm_fanned w) (sm_hub w) h.

(** What everybody else does meanwhile. A commit is first fanned out after all
    those numbered below it; a resent one is fanned out again, whenever. The
    connection's own commits are not fanned out to it, and its handler serves
    nothing else while it subscribes. *)
Inductive seam_step (group : list byte) (id : ConnectionId) : Seam → Seam → Prop :=
| seam_log w l :
    ledger_step config (sm_log w) l → seam_step group id w (mkSeam l (sm_fanned w) (sm_hub w) (sm_heap w))
| seam_fan w f except :
    log_frames (sm_log w) group !! sm_fanned w = Some f → except ≠ id →
    seam_step group id w (mkSeam (sm_log w) (S (sm_fanned w))
      (snd (fst (fanout_locked (sm_hub w) (sm_heap w) group f except MIN_FANOUT_VERSION)))
      (snd (fanout_locked (sm_hub w) (sm_heap w) group f except MIN_FANOUT_VERSION)))
| seam_again w i f except :
    (i < sm_fanned w)%nat → log_frames (sm_log w) group !! i = Some f → except ≠ id →
    seam_step group id w (mkSeam (sm_log w) (sm_fanned w)
      (snd (fst (fanout_locked (sm_hub w) (sm_heap w) group f except MIN_FANOUT_VERSION)))
      (snd (fanout_locked (sm_hub w) (sm_heap w) group f except MIN_FANOUT_VERSION)))
| seam_other w hub h :
    elsewhere group id (sm_hub w, sm_heap w) (hub, h) →
    seam_step group id w (mkSeam (sm_log w) (sm_fanned w) hub h).

(** The reads of a replay, each where the steps between have got to. *)
Fixpoint reads_along (group : list byte) (id : ConnectionId) (w : Seam) (turns : list Turn) (w' : Seam) : Prop :=
  match turns with
  | [] => rtc (seam_step group id) w w'
  | t :: turns =>
      ∃ w1, rtc (seam_step group id) w w1 ∧ (t_read t = None ∨ t_read t = Some (sm_log w1)) ∧ reads_along group id w1 turns w'
  end.

Definition hold (w : Seam) (group : list byte) (id : ConnectionId) (version : Z) : Seam :=
  mkSeam (sm_log w) (sm_fanned w) (subscribe_holding_handshakes (sm_hub w) group id id version) (sm_heap w).
Definition release (w : Seam) (group : list byte) (id : ConnectionId) (replayed_to : Z) : Seam :=
  let '(hub, h) := release_handshakes (sm_hub w) (sm_heap w) group id replayed_to in
  mkSeam (sm_log w) (sm_fanned w) hub h.

Definition replayed_to (r : result (Z * bool) Z) : Z := match r with Ok cursor => cursor | Err (cursor, _) => cursor end.

Inductive SubEnd : Type := SubRefused (open : bool) | SubUnacked | SubUnread | SubReplayed (r : result (Z * bool) Z) (sent : list Frame).

(** [sync::subscribe] up to the envelopes it backfills: the head, the
    acknowledgement, the hold, the replay, the release; [w] is where the handler
    released. *)
Inductive subscribe_run (group : list byte) (id : ConnectionId) (version from_seq : Z) (head : option Z) (database : bool)
    (w0 : Seam) : SubEnd → Seam → Prop :=
| run_no_head open h :
    head = None → queue_one (sm_heap w0) id (Frame.Error (FrameError_new Backpressure)) = (open, h) →
    subscribe_run group id version from_seq head database w0 (SubRefused open) (on_heap w0 h)
| run_no_ack seq h :
    head = Some seq → queue_one (sm_heap w0) id (SubAck group (Z.max seq from_seq)) = (false, h) →
    subscribe_run group id version from_seq head database w0 SubUnacked (on_heap w0 h)
| run_no_database seq h w :
    head = Some seq → queue_one (sm_heap w0) id (SubAck group (Z.max seq from_seq)) = (true, h) → database = false →
    rtc (seam_step group id) (hold (on_heap w0 h) group id version) w →
    subscribe_run group id version from_seq head database w0 SubUnread (release w group id 0)
| run_replay seq h turns w r sent :
    head = Some seq → queue_one (sm_heap w0) id (SubAck group (Z.max seq from_seq)) = (true, h) → database = true →
    reads_along group id (hold (on_heap w0 h) group id version) turns w →
    replay_handshakes group turns = (Some r, sent) →
    subscribe_run group id version from_seq head database w0 (SubReplayed r sent) (release w group id (replayed_to r)).

(** What a hold has gathered once commits [k] to [n] were fanned out: each in its
    turn, and any of them again. *)
Inductive held_run (frames : list Frame) (k : nat) : nat → list Frame → Prop :=
| held_start : held_run frames k k []
| held_next n held f : held_run frames k n held → frames !! n = Some f → held_run frames k (S n) (held ++ [f])
| held_again n held i f : held_run frames k n held → (i < n)%nat → frames !! i = Some f → held_run frames k n (held ++ [f]).

Lemma held_run_mono frames frames' k n held :
  frames `prefix_of` frames' → held_run frames k n held → held_run frames' k n held.
Proof.
  intros [rest ->]. induction 1; [constructor| |]; [eapply held_next|eapply held_again]; eauto using lookup_app_l_Some.
Qed.

(** A release from a cursor at or past [k] queues what is left up to [n], each
    commit once and in order. *)
Lemma due_held_run frames k n held (c : nat) :
  (∀ i f, frames !! i = Some f → undowngradable f = true ∧ frame_seq f = Z.of_nat i) →
  Z.of_nat (length frames) < U64_MAX → (k ≤ c)%nat → held_run frames k n held →
  due (Z.of_nat c) held = take (n - c) (drop c frames) ∧ next_after (Z.of_nat c) held = Z.of_nat (c `max` n).
Proof.
  intros Hseq Hlen Hk. induction 1 as [|n held f _ IH Hf|n held i f _ IH Hi Hf].
  - replace (k - c)%nat with 0%nat by lia. split; [done|]. cbn. lia.
  - destruct IH as [Hd Hn]. destruct (Hseq n f Hf) as [Hu Hs]. pose proof (lookup_lt_Some _ _ _ Hf) as Hlt.
    rewrite due_app, next_after_app, Hd, Hn. destruct f; try done. cbn [due next_after frame_seq] in *. subst seq.
    destruct (Z.ltb_spec (Z.of_nat n) (Z.of_nat (c `max` n))).
    + replace (S n - c)%nat with 0%nat by lia. replace (n - c)%nat with 0%nat by lia. split; [done|lia].
    + unfold u64_saturating_add. rewrite Z.min_r by lia. split; [|lia].
      replace (S n - c)%nat with (S (n - c)) by lia. symmetry. apply take_S_r. rewrite lookup_drop.
      replace (c + (n - c))%nat with n by lia. done.
  - destruct IH as [Hd Hn]. destruct (Hseq i f Hf) as [Hu Hs]. rewrite due_app, next_after_app, Hd, Hn.
    destruct f; try done. cbn [due next_after frame_seq] in *. subst seq. rewrite (proj2 (Z.ltb_lt _ _)) by lia.
    by rewrite app_nil_r.
Qed.

Lemma log_frames_numbered l group i f :
  ledger_ok l → log_frames l group !! i = Some f → undowngradable f = true ∧ frame_seq f = Z.of_nat i.
Proof using Type*.
  intros Hok Hf. unfold log_frames in Hf. rewrite list_lookup_fmap in Hf. apply fmap_Some in Hf as (r & Hr & ->).
  split; [done|]. cbn. by rewrite (run_lookup _ _ _ _ (lo_dense _ Hok group) Hr).
Qed.

(** While the hold lasts, the entry is gone, its connection is ending, or it
    holds every commit fanned out since. *)
Record seam_ok (group : list byte) (id : ConnectionId) (version : Z) (k : nat) (w : Seam) : Prop := {
  so_log : ledger_ok (sm_log w);
  so_hub : hub_ok (sm_hub w);
  so_fanned : (k ≤ sm_fanned w ≤ length (log_frames (sm_log w) group))%nat;
  so_entry : ∀ s, subscribed (sm_hub w) group s → sub_id s = id →
    protocol_version s = version
    ∧ (is_evicted (sm_heap w) id = true
       ∨ ∃ held, held_handshakes s = Some held ∧ held_run (log_frames (sm_log w) group) k (sm_fanned w) held)
}.

(** One fan-out to the group, at the entry. *)
Lemma fanout_held hub h group f except id version held' s' :
  hub_ok hub → undowngradable f = true → except ≠ id → MIN_FANOUT_VERSION ≤ version →
  (∀ s, subscribed hub group s → sub_id s = id →
     protocol_version s = version
     ∧ (is_evicted h id = true ∨ ∃ held, held_handshakes s = Some held ∧ held' (held ++ [f]))) →
  subscribed (snd (fst (fanout_locked hub h group f except MIN_FANOUT_VERSION))) group s' → sub_id s' = id →
  protocol_version s' = version
  ∧ (is_evicted (snd (fanout_locked hub h group f except MIN_FANOUT_VERSION)) id = true
     ∨ ∃ held, held_handshakes s' = Some held ∧ held' held).
Proof using Type*.
  intros Hok Hu Hne Hv Hentry Hs' Hid. pose proof (fanout_locked_evicted hub h group f except MIN_FANOUT_VERSION) as Hev.
  unfold fanout_locked in *. destruct (groups hub !! group) as [subs|] eqn:Hg.
  2:{ cbn [fst snd] in Hs'. destruct Hs' as (l & Hl & _). congruence. }
  pose proof (Hok _ _ Hg) as Hgok. pose proof (fanout_loop_each group f except MIN_FANOUT_VERSION subs h (group_ok_senders _ Hgok)) as Hloop.
  destruct (fanout_loop _ _ _ _ h subs) as [vs h']. destruct Hloop as (Hlen & _ & Heach). cbn [fst snd] in *.
  destruct Hs' as (l & Hl & Hin). cbn [groups] in Hl. rewrite lookup_insert_eq in Hl. injection Hl as <-.
  apply list_elem_of_fmap in Hin as (v & -> & Hin). apply list_elem_of_lookup in Hin as [i Hi].
  assert (is_Some (subs !! i)) as [s Hs] by (apply lookup_lt_is_Some; rewrite <- Hlen; by eapply lookup_lt_Some).
  destruct (Heach i s Hs) as (v' & Hv' & Hd). assert (v' = v) as -> by congruence.
  pose proof (deliver_keeps group f except MIN_FANOUT_VERSION s (h (sender s))) as [Hi1 _]. rewrite <- Hd in Hi1. cbn [fst] in Hi1.
  assert (sender s = id) as Hsend.
  { destruct Hgok as (_ & _ & Hse & _). pose proof (Forall_lookup_1 _ _ _ _ Hse Hs) as E. cbn in E. congruence. }
  destruct (Hentry s) as [Hver Hheld]; [exists subs; split; [done|by eapply list_elem_of_lookup_2]|congruence|].
  unfold deliver in Hd. rewrite bool_decide_eq_false_2 in Hd by congruence. rewrite Hver, (proj2 (Z.ltb_ge _ _)), Hu in Hd by done.
  destruct Hheld as [He|(held & Hh & Hrun)].
  - split; [|left; by apply Hev]. revert Hd. unfold pay_then_offer, offer. repeat case_match; intros [= -> _]; done.
  - rewrite Hh in Hd. destruct (length held <? MAX_HELD_HANDSHAKES)%nat; injection Hd as -> Hch.
    + split; [done|]. right. by exists (held ++ [f]).
    + split; [done|]. left. unfold is_evicted. rewrite <- Hsend, Hch. done.
Qed.

Lemma seam_step_ok group id version k w w' :
  MIN_FANOUT_VERSION ≤ version → seam_ok group id version k w → seam_step group id w w' → seam_ok group id version k w'.
Proof using Type*.
  intros Hv [Hl Hh Hf He] Hstep.
  destruct Hstep as [w l Hs|w f except Hlk Hne|w i f except Hi Hlk Hne|w hub h Hs]; cbn [sm_log sm_fanned sm_hub sm_heap].
  - pose proof (prefix_of_log (sm_log w) l group Hl (rtc_once _ _ Hs)) as Hp. pose proof (prefix_length _ _ Hp).
    split; cbn [sm_log sm_fanned sm_hub sm_heap]; [by eapply ledger_step_ok|done|lia|].
    intros s Hs1 Hid. destruct (He s Hs1 Hid) as [? [?|(held & ? & ?)]]; split; try done; [by left|right].
    exists held. split; [done|]. by eapply held_run_mono.
  - destruct (log_frames_numbered _ _ _ _ Hl Hlk) as [Hu _]. pose proof (lookup_lt_Some _ _ _ Hlk).
    split; cbn [sm_log sm_fanned sm_hub sm_heap]; [done| |lia|].
    + by apply (hub_step_ok _ _ (hub_fanout (sm_hub w) (sm_heap w) group f except MIN_FANOUT_VERSION)).
    + intros s' Hs' Hid. eapply (fanout_held _ _ _ f except id version); try done.
      intros s Hs1 Hid1. destruct (He s Hs1 Hid1) as [? [?|(held & ? & ?)]]; split; try done; [by left|right].
      exists held. split; [done|]. by eapply held_next.
  - destruct (log_frames_numbered _ _ _ _ Hl Hlk) as [Hu _].
    split; cbn [sm_log sm_fanned sm_hub sm_heap]; [done| |lia|].
    + by apply (hub_step_ok _ _ (hub_fanout (sm_hub w) (sm_heap w) group f except MIN_FANOUT_VERSION)).
    + intros s' Hs' Hid. eapply (fanout_held _ _ _ f except id version); try done.
      intros s Hs1 Hid1. destruct (He s Hs1 Hid1) as [? [?|(held & ? & ?)]]; split; try done; [by left|right].
      exists held. split; [done|]. by eapply held_again.
  - pose proof (hub_step_ok _ _ (elsewhere_step _ _ _ _ Hs)) as Hok. apply elsewhere_kept in Hs as [Hk Hev]. cbn [fst snd] in *.
    split; cbn [sm_log sm_fanned sm_hub sm_heap]; [done|by apply Hok|done|].
    intros s' Hs' Hid. destruct (Hk s' Hs' Hid) as (s & Hs1 & Hid1 & Hheld & Hver).
    destruct (He s Hs1 Hid1) as [? [?|(held & ? & ?)]]; (split; [congruence|]); [left; by apply Hev|right].
    exists held. split; [congruence|done].
Qed.

Lemma seam_steps_ok group id version k w w' :
  MIN_FANOUT_VERSION ≤ version → rtc (seam_step group id) w w' → seam_ok group id version k w → seam_ok group id version k w'.
Proof using Type*. intros Hv. induction 1; eauto using seam_step_ok. Qed.

Lemma seam_steps_log group id w w' : rtc (seam_step group id) w w' → rtc (ledger_step config) (sm_log w) (sm_log w').
Proof using Type*. induction 1 as [|a b c [] _ IH]; [done|by eapply rtc_l|done..]. Qed.

Lemma growing_earlier l l' turns : rtc (ledger_step config) l l' → growing l' turns → growing l turns.
Proof using Type*.
  intros Hs. induction turns as [|t turns IH]; [done|]. cbn [growing]. destruct (t_read t); [|by apply IH].
  intros [? ?]. split; [by etrans|done].
Qed.

(** The reads of the replay are reads of the tables between the hold and the
    release. *)
Lemma reads_along_spec group id version k w turns w' :
  MIN_FANOUT_VERSION ≤ version → reads_along group id w turns w' → seam_ok group id version k w →
  seam_ok group id version k w' ∧ growing (sm_log w) turns
  ∧ (∀ l, Some l ∈ t_read <$> turns → rtc (ledger_step config) (sm_log w) l ∧ rtc (ledger_step config) l (sm_log w'))
  ∧ rtc (ledger_step config) (sm_log w) (sm_log w').
Proof using Type*.
  intros Hv. revert w. induction turns as [|t turns IH]; intros w; cbn [reads_along].
  { intros Hs Hok. split_and!; [by eapply seam_steps_ok|done| |by eapply seam_steps_log]. intros l Hl. by apply elem_of_nil in Hl. }
  intros (w1 & Hs & Ht & Hrest) Hok. pose proof (seam_steps_ok _ _ _ _ _ _ Hv Hs Hok) as Hok1.
  apply seam_steps_log in Hs. destruct (IH w1 Hrest Hok1) as (Hok' & Hg & Hr & Hs'). split_and!; [done| | |by etrans].
  - cbn [growing]. destruct Ht as [->| ->]; [by eapply growing_earlier|by split].
  - intros l. rewrite fmap_cons, elem_of_cons. intros [Hl|Hl].
    + destruct Ht as [Ht|Ht]; rewrite Ht in Hl; [done|]. injection Hl as ->. by split.
    + destruct (Hr l Hl) as [? ?]. split; [by etrans|done].
Qed.

(** The hold begins with nothing held. *)
Lemma hold_ok w group id version :
  ledger_ok (sm_log w) → hub_ok (sm_hub w) → (sm_fanned w ≤ length (log_frames (sm_log w) group))%nat →
  holds (sm_hub w) group id = false → seam_ok group id version (sm_fanned w) (hold w group id version).
Proof using Type*.
  intros Hl Hh Hf Hno. unfold hold. split; cbn [sm_log sm_fanned sm_hub sm_heap]; [done| |lia|].
  - by apply (hub_step_ok _ _ (hub_subscribe_holding (sm_hub w) (sm_heap w) group id version)).
  - intros s Hs Hid. destruct (added_subscriber (sm_hub w) group (mkSubscriber id id version false (Some [])) s Hs)
      as [(subs & Hg & Hin)| ->].
    + exfalso. unfold holds in Hno. rewrite Hg in Hno. apply not_true_iff_false in Hno. apply Hno, existsb_exists.
      exists s. split; [by apply list_elem_of_In|by apply bool_decide_eq_true].
    + split; [done|]. right. exists []. split; [done|constructor].
Qed.

(** C9. No commit is missed across a subscription. Let a connection that does not
    hold the group yet run [sync::subscribe] to the end of its replay, while
    anybody appends, sends, subscribes, leaves, is revoked or drains a queue, and
    commits are fanned out for the first time in the order they were appended
    (again at any time). Then where its hold is released its entry is already
    gone, or its connection is already ending, or what the replay sent, followed
    by what the release queues behind what is there, is an initial part of the
    group's log with no gap, no repeat and no reordering, reaching as far as the
    later of the replay and the last commit fanned out, and the subscription is
    live; or a held commit found no room and the connection is evicted. *)
Theorem subscription_has_no_gap group id version from_seq head database w0 cursor replayed w3 :
  reachable_ledger config (sm_log w0) → hub_ok (sm_hub w0) → holds (sm_hub w0) group id = false →
  (sm_fanned w0 ≤ length (log_frames (sm_log w0) group))%nat → MIN_FANOUT_VERSION ≤ version →
  subscribe_run group id version from_seq head database w0 (SubReplayed (Ok cursor) replayed) w3 →
  Z.of_nat (length (log_frames (sm_log w3) group)) < I64_MAX →
  ∃ w, w3 = release w group id cursor ∧ sm_log w3 = sm_log w
  ∧ ((∀ s, subscribed (sm_hub w) group s → sub_id s ≠ id)
     ∨ is_evicted (sm_heap w) id = true
     ∨ ∃ s sent rest, subscribed (sm_hub w) group s ∧ sub_id s = id
         ∧ queued (sm_heap w3) id = queued (sm_heap w) id ++ (OutFrame <$> sent)
         ∧ replayed ++ sent ++ rest = take (Nat.max (Z.to_nat cursor) (sm_fanned w)) (log_frames (sm_log w) group)
         ∧ ((rest = [] ∧ subscribed (sm_hub w3) group (set_held s None))
            ∨ (is_evicted (sm_heap w3) id = true ∧ ∀ g s', subscribed (sm_hub w3) g s' → sub_id s' ≠ id))).
Proof using Type*.
  intros Hr Hhub Hno Hf Hv Hrun Hlen. apply reachable_ledger_ok in Hr as Hok.
  inversion Hrun as [| | |seq h turns w r sent Hhead Hq Hdb Halong Hrep Hr0 Hw3]; subst r sent. exists w. cbn [replayed_to] in *.
  assert (sm_log w3 = sm_log w) as Hlog by (rewrite <- Hw3; unfold release; by destruct (release_handshakes _ _ _ _ _)).
  rewrite Hw3 in *. split_and!; [done..|]. rewrite Hlog in Hlen.
  pose proof (hold_ok (on_heap w0 h) group id version Hok Hhub Hf Hno) as Hstart.
  destruct (reads_along_spec _ _ _ _ _ _ _ Hv Halong Hstart) as (Hend & Hgrow & Hreads & Hall).
  change (sm_log (hold (on_heap w0 h) group id version)) with (sm_log w0) in *.
  assert (reads_below group I64_MAX turns) as Hb.
  { apply Forall_forall. intros t Ht. destruct (t_read t) as [l|] eqn:Hl; [|done]. cbn.
    destruct (Hreads l) as [Ha Hz]; [rewrite <- Hl; by apply list_elem_of_fmap_2|].
    pose proof (prefix_length _ _ (prefix_of_log l (sm_log w) group (ledger_steps_ok config _ _ Ha Hok) Hz)). lia. }
  pose proof (replay_loop_spec turns (sm_log w0) group 0 Hok Hgrow (Nat.le_0_l _) Hb) as Hspec.
  change (Z.of_nat 0) with 0 in Hspec. unfold replay_handshakes in Hrep. rewrite Hrep in Hspec.
  destruct Hspec as (l1 & Hl1 & Hin & -> & ->). rewrite drop_0.
  destruct (Hreads l1 Hin) as [_ Hz]. pose proof (ledger_steps_ok config _ _ Hl1 Hok) as Hok1.
  pose proof (prefix_length _ _ (prefix_of_log _ l1 group Hok Hl1)) as Hle.
  destruct (prefix_of_log l1 (sm_log w) group Hok1 Hz) as [more Hmore].
  destruct (holds (sm_hub w) group id) eqn:Hh.
  2:{ left. intros s (subs & Hg & Hs) Hid. apply not_true_iff_false in Hh. apply Hh. unfold holds. rewrite Hg.
      apply existsb_exists. exists s. split; [by apply list_elem_of_In|by apply bool_decide_eq_true]. }
  unfold holds in Hh. destruct (groups (sm_hub w) !! group) as [subs|] eqn:Hg; [|done].
  apply existsb_exists in Hh as (s & Hs & Hid%bool_decide_eq_true). apply list_elem_of_In in Hs.
  destruct (so_entry _ _ _ _ _ Hend s) as [_ [He|(held & Hheld & Hrunh)]]; [by exists subs|done|by right; left|]. right. right.
  pose proof (release_due (sm_hub w) (sm_heap w) group (Z.of_nat (length (log_frames l1 group))) subs s held (so_hub _ _ _ _ _ Hend) Hg Hs Hheld) as Hrel.
  unfold release in Hw3. rewrite Hid in Hrel. destruct (release_handshakes _ _ _ _ _) as [hub' h'].
  destruct Hrel as (sent & rest & Hdue & Hqd & Hfin). rewrite <- Hw3 in *. cbn [sm_hub sm_heap] in *.
  assert (sender s = id) as Hsend.
  { destruct (so_hub _ _ _ _ _ Hend _ _ Hg) as (_ & _ & Hse & _). pose proof (proj1 (Forall_forall _ _) Hse s Hs) as E. cbn in E. congruence. }
  rewrite Hsend in *. exists s, sent, rest. split_and!; [by exists subs|done|done| |done].
  rewrite <- Hdue. set (c := length (log_frames l1 group)) in *.
  destruct (due_held_run (log_frames (sm_log w) group) (sm_fanned w0) (sm_fanned w) held c) as [-> _].
  - intros i f Hi. apply (log_frames_numbered (sm_log w) group); [apply Hend|done].
  - unfold U64_MAX, I64_MAX in *. lia.
  - cbn in Hf. lia.
  - done.
  - rewrite Nat2Z.id, Hmore, drop_app_length', (take_app_ge _ _ (c `max` _)) by lia. fold c. f_equal. f_equal. lia.
Qed.
End seam.
End replay_proofs.

(** ** What a publisher is told *)
Section publish_proofs.
Context {C P : Type} `{MpscLaws C, SemaphoreLaws P} `{Blake3Width} (config : Config).

Lemma queue_one_sent (h : N → Channel C P) snd_ f h' :
  queue_one h snd_ f = (true, h') → last (queued h' snd_) = Some (OutFrame f).
Proof using Type*.
  unfold queue_one. destruct (queue_at_cases h snd_ f) as [h1 Hq| |]; [|done..]. intros [= <-].
  rewrite Hq. by rewrite last_snoc.
Qed.

Lemma authorize_group_ok tables session group t :
  authorize_group tables session group = Ok t →
  tables = Some t ∧ ∃ w, authorized_workspace session = Some w ∧ workspace_of t group = Some w.
Proof.
  unfold authorize_group. destruct tables as [t'|]; [|done]. destruct (authorized_workspace session) as [w|]; [|done].
  destruct (workspace_of t' group) as [w'|] eqn:Hw; [|done]. case_bool_decide; [|done]. intros [= ->]. subst.
  split; [done|]. by exists w.
Qed.

(** A committer is told the truth: when a publication leaves the connection
    open, its queue ends either with an error, and then neither log nor hub has
    changed and nobody is woken, or with the commit under the number the log
    holds it at, and then the session was admitted to the workspace that owns
    the group. Short of a BLAKE3 collision the row at that number is the
    publisher's message. *)
Theorem publish_acknowledges_stored tables session connection snd_ group message r r' :
  reachable_ledger config (r_ledger r) →
  publish_handshake config tables session connection snd_ group message r = (true, r') →
  (∃ code, last (queued (r_heap r') snd_) = Some (OutFrame (Frame.Error (FrameError_new code)))
     ∧ r_ledger r' = r_ledger r ∧ r_hub r' = r_hub r ∧ r_woken r' = r_woken r)
  ∨ ∃ t w row, tables = Some t ∧ authorized_workspace session = Some w ∧ workspace_of t group = Some w
      ∧ row ∈ group_rows (r_ledger r') group
      ∧ last (queued (r_heap r') snd_) = Some (OutFrame (Frame.Handshake group (hr_seq row) message))
      ∧ (hr_message row = message ∨ collision (group ++ hr_message row) (group ++ message))
      ∧ r_woken r' = r_woken r ++ [group].
Proof using Type*.
  intros Hr. apply reachable_ledger_ok in Hr as Hok. unfold publish_handshake.
  destruct (authorize_group tables session group) as [t|code] eqn:Ha.
  2:{ destruct (queue_one (r_heap r) snd_ _) as [open h] eqn:Hq. intros [= -> <-]. left. exists code.
      apply queue_one_sent in Hq. done. }
  apply authorize_group_ok in Ha as (-> & w & Hw & Hg).
  pose proof (append_cases (r_ledger r) (mkHandshake group message) (limit_bytes config) Hok) as Hc.
  pose proof (append_ok (r_ledger r) (mkHandshake group message) (limit_bytes config) Hok) as Hok'.
  destruct (append_within (r_ledger r) (mkHandshake group message) (limit_bytes config)) as [[a|e] l].
  2:{ destruct (queue_one (r_heap r) snd_ _) as [open h] eqn:Hq. intros [= -> <-]. left. exists (append_error_code e).
      apply queue_one_sent in Hq. done. }
  destruct (fanout_frame _ _ _ _ _ _) as [[outcomes hub] h].
  destruct (queue_one h snd_ _) as [open h'] eqn:Hq. intros [= -> <-]. right. apply queue_one_sent in Hq.
  cbn [r_ledger r_hub r_heap r_woken snd] in *.
  assert (∃ row, row ∈ rows l ∧ hr_group row = group ∧ hr_seq row = appended_seq a
    ∧ hr_hash row = handshake_hash (mkHandshake group message)) as (row & Hin & Hrg & Hseq & Hh).
  { inversion Hc as [| |row _ Hin Hrg Hh| |g _ Hgr _ _]; subst; [by exists row|].
    eexists. split_and!; [cbn [appended_to rows]; apply elem_of_app; right; apply list_elem_of_here|done..]. }
  exists t, w, row. pose proof (proj1 (Forall_forall _ _) (lo_rows _ Hok') row Hin) as (_ & Hh' & _).
  rewrite Hseq. split_and!; try done; [by apply list_elem_of_filter|].
  destruct (decide (hr_message row = message)) as [|Hne]; [by left|right].
  rewrite Hrg in Hh'. split; [intros E; by apply app_inv_head in E|]. rewrite <- Hh'. exact Hh.
Qed.
End publish_proofs.

(** ** A concrete run *)
Module DeliveryDemo.
Import ListQueue HandshakeDemo.
#[local] Instance delivery_blake3 : Blake3 := poly_digest.
#[local] Instance delivery_width : Blake3Width := poly_digest_width.

Definition patient : Frame → bool := λ _, true.
Definition turns : list Turn := [mkTurn (Some one) patient].

Lemma one_reachable : reachable_ledger example_config one.
Proof. eapply rtc_r; [apply ledger_founded_reachable|]. apply (ledger_append example_config founded (commit Byte.x01)). Qed.
Lemma turns_growing : growing example_config one turns.
Proof. split; done. Qed.
Lemma turns_short n : 1 < n → reads_below example_group n turns.
Proof.
  intros Hn. constructor; [|constructor]. cbn [t_read from_option].
  assert (length (log_frames one example_group) = 1%nat) as -> by (by vm_compute). lia.
Qed.

Lemma replay_is_the_log_witness :
  ∃ l, Some l ∈ t_read <$> turns ∧ 1 = head l example_group
    ∧ [Frame.Handshake example_group 0 [Byte.x01; Byte.x01]] = log_frames l example_group
    ∧ frame_seq <$> [Frame.Handshake example_group 0 [Byte.x01; Byte.x01]] = seqZ 0 1.
Proof.
  pose proof (replay_is_the_log example_config example_group turns one one_reachable turns_growing
    (turns_short I64_MAX eq_refl)) as Ht.
  assert (replay_handshakes example_group turns
    = (Some (Ok 1), [Frame.Handshake example_group 0 [Byte.x01; Byte.x01]])) as Hf by (by vm_compute).
  rewrite Hf in Ht. exact Ht.
Defined.

Lemma replay_finishes_witness :
  ∃ cursor queued, replay_handshakes example_group turns = (Some (Ok cursor), queued).
Proof.
  apply (replay_finishes example_config example_group turns one one_reachable turns_growing).
  - repeat constructor. by eexists.
  - apply turns_short. by vm_compute.
  - done.
Defined.

(** The second commit lands, and is fanned out, between the replay's read and the
    release. *)
Definition waiting_hub : Hub := subscribe_holding_handshakes hub_new example_group 1%N 1%N 3.
Definition held_commit : Frame := Frame.Handshake example_group 1 [Byte.x02; Byte.x02].
Definition before : Seam := mkSeam one 1 hub_new drained.
Definition acked : bool * (N → Channel (list Outbound * bool) Z) := queue_one drained 1%N (SubAck example_group 0).
Definition holding : Seam := hold (on_heap before (snd acked)) example_group 1%N 3.
Definition appended : Seam := mkSeam two 1 (sm_hub holding) (sm_heap holding).
Definition fanned : Seam :=
  let r := fanout_locked (sm_hub appended) (sm_heap appended) example_group held_commit 9%N MIN_FANOUT_VERSION in
  mkSeam two 2 (snd (fst r)) (snd r).

Lemma acked_room : acked = (true, snd acked).
Proof. by vm_compute. Qed.
Lemma fanned_run :
  subscribe_run example_config example_group 1%N 3 0 (Some 0) true before
    (SubReplayed (Ok 1) [Frame.Handshake example_group 0 [Byte.x01; Byte.x01]]) (release fanned example_group 1%N 1).
Proof.
  apply (run_replay example_config example_group 1%N 3 0 (Some 0) true before 0 (snd acked) turns fanned (Ok 1)); try done.
  exists holding. split_and!; [apply rtc_refl|by right|]. apply (rtc_l _ _ appended); [|apply rtc_once].
  - apply (seam_log example_config example_group 1%N holding), (ledger_append example_config one (commit Byte.x02)).
  - apply (seam_fan example_config example_group 1%N appended held_commit 9%N); by vm_compute.
Qed.

Lemma subscription_has_no_gap_witness :
  ∃ w, release fanned example_group 1%N 1 = release w example_group 1%N 1
    ∧ ((∀ s, subscribed (sm_hub w) example_group s → sub_id s ≠ 1%N)
       ∨ is_evicted (sm_heap w) 1%N = true
       ∨ ∃ s sent rest, subscribed (sm_hub w) example_group s ∧ sub_id s = 1%N
           ∧ queued (sm_heap (release fanned example_group 1%N 1)) 1%N = queued (sm_heap w) 1%N ++ (OutFrame <$> sent)
           ∧ [Frame.Handshake example_group 0 [Byte.x01; Byte.x01]] ++ sent ++ rest
             = take (Nat.max 1 (sm_fanned w)) (log_frames (sm_log w) example_group)).
Proof.
  destruct (subscription_has_no_gap example_config example_group 1%N 3 0 (Some 0) true before 1
    [Frame.Handshake example_group 0 [Byte.x01; Byte.x01]] (release fanned example_group 1%N 1) one_reachable
    hub_new_ok ltac:(done) ltac:(by vm_compute) ltac:(by vm_compute) fanned_run ltac:(by vm_compute))
    as (w & Hw & _ & [Hg|[He|(s & sent & rest & ? & ? & ? & ? & _)]]); exists w; (split; [exact Hw|]).
  - by left.
  - by right; left.
  - right. right. by exists s, sent, rest.
Defined.

Definition member : Session := with_workspace (fst (session_new Demo.config [] (mkProcess 1 []))) (Some example_ws).
Definition owned : Tables := mkTables ∅ {[example_group := example_ws]} [].
Definition published : bool * Relay (list Outbound * bool) Z :=
  publish_handshake example_config (Some owned) member 9%N 9%N example_group [Byte.x02; Byte.x02]
    (mkRelay one waiting_hub drained []).

Lemma publish_acknowledges_stored_witness :
  (∃ code, last (queued (r_heap (snd published)) 9%N) = Some (OutFrame (Frame.Error (FrameError_new code)))
     ∧ r_ledger (snd published) = one ∧ r_hub (snd published) = waiting_hub ∧ r_woken (snd published) = [])
  ∨ ∃ t w row, Some owned = Some t ∧ authorized_workspace member = Some w ∧ workspace_of t example_group = Some w
      ∧ row ∈ group_rows (r_ledger (snd published)) example_group
      ∧ last (queued (r_heap (snd published)) 9%N)
        = Some (OutFrame (Frame.Handshake example_group (hr_seq row) [Byte.x02; Byte.x02]))
      ∧ (hr_message row = [Byte.x02; Byte.x02]
         ∨ collision (example_group ++ hr_message row) (example_group ++ [Byte.x02; Byte.x02]))
      ∧ r_woken (snd published) = [] ++ [example_group].
Proof.
  assert (fst published = true) as Hf by (by vm_compute).
  apply (publish_acknowledges_stored example_config (Some owned) member 9%N 9%N example_group [Byte.x02; Byte.x02]
    (mkRelay one waiting_hub drained []) (snd published) one_reachable).
  rewrite <- Hf. apply surjective_pairing.
Defined.

(** The handler appends in one transaction and fans out after it, so two
    commits can be numbered 1 and 2 and fanned out as 2 and 1. A subscriber
    whose replay stopped at 1 is then sent commit 2 and never commit 1, and its
    connection stays up. *)
Theorem overtaken_commit_lost :
  let commit seq := Frame.Handshake lobby seq [] in
  let late := snd (fst (fanout_frame replay_hub drained lobby (commit 2) 7%N 1)) in
  let both := snd (fst (fanout_frame late drained lobby (commit 1) 8%N 1)) in
  let after := release_handshakes both drained lobby 1%N 1 in
  queued (snd after) 1%N = [OutFrame (commit 2)]
  ∧ is_evicted (snd after) 1%N = false ∧ holds (fst after) lobby 1%N = true.
Proof. by vm_compute. Qed.
End DeliveryDemo.
