(* ===== verification/KeyPackages.v ===== *)
(** * Key packages: [keys/mod.rs] and [keys/store.rs]

    The shelf of one-time MLS key packages. [Shelf] is [relay_key_package], its
    rows kept in the order of their [bigserial] ids. [publish] runs under the
    shelf's advisory lock, [fetch_served] deletes what it selects in one
    statement, [restore] puts back an answer the client's queue refused, and
    [key_packages] is the handler of [ws.rs] that ties the three together. Time
    is in microseconds, the resolution of a [timestamptz]; [AccessChain] counts
    in milliseconds.

    The theorems: no package is ever given out more often than it was
    published, in every interleaving of publications, fetches, deliveries,
    restorations and sweeps; a publication is all or nothing under the cap; a
    fetch takes the oldest live packages of that device alone; an undelivered
    fetch leaves the shelf stocked as it was. [restore_passes_cap] records that
    a restoration counts against no cap. *)

From stdpp Require Import base tactics numbers gmap sets fin_maps functions relations sorting list.
From S2P Require Import Prelude Cbor Crypto Push Frame Access AccessChain Session Connection Admission Queue.

Open Scope Z_scope.

Definition MAX_OUTSTANDING : Z := 100.
Definition LIFETIME_DAYS : Z := 90.
Definition MAX_PACKAGE_BYTES : Z := 128 * 1024.
Definition SECOND : Z := 1000000.
Definition DAY : Z := 86400 * SECOND.

Record PackageRow : Type := mkPackageRow {
  kp_id : Z; kp_workspace : list byte; kp_device : list byte; kp_package : list byte;
  kp_consumed : bool; kp_expires : Z
}.
Record Shelf : Type := mkShelf { kp_rows : list PackageRow; kp_next : Z }.

Inductive PackagesPublished : Type := PackagesStored (remaining : Z) | OverCap.
Record Served : Type := mkServed { sv_id : Z; sv_package : list byte; sv_device : list byte; sv_ttl : Z }.

(** The rows of one device's shelf that are live now. *)
Definition on_shelf (workspace hash : list byte) (now : Z) (r : PackageRow) : Prop :=
  kp_workspace r = workspace ∧ kp_device r = hash ∧ kp_consumed r = false ∧ now < kp_expires r.
#[global] Instance on_shelf_dec workspace hash now r : Decision (on_shelf workspace hash now r).
Proof. unfold on_shelf. apply _. Defined.

Definition outstanding (s : Shelf) (workspace hash : list byte) (now : Z) : Z :=
  Z.of_nat (length (filter (on_shelf workspace hash now) (kp_rows s))).

(** One insert, with the next id. *)
Definition shelve (workspace hash : list byte) (expires : Z) (s : Shelf) (package : list byte) : Shelf :=
  mkShelf (kp_rows s ++ [mkPackageRow (kp_next s) workspace hash package false expires]) (kp_next s + 1).

Section keys.
Context `{Blake3}.

Definition device_hash (device_key : list byte) : list byte := blake3 device_key.

(** [u32::try_from(remaining).unwrap_or(u32::MAX)]. *)
Definition u32_or_max (z : Z) : Z := if (0 <=? z) && (z <=? U32_MAX) then z else U32_MAX.

Definition publish (s : Shelf) (workspace device_key : list byte) (packages : list (list byte)) (now : Z) :
    PackagesPublished * Shelf :=
  let hash := device_hash device_key in
  if MAX_OUTSTANDING <? i64_saturating (outstanding s workspace hash now + Z.of_nat (length packages))
  then (OverCap, s)
  else
    let s := fold_left (shelve workspace hash (now + LIFETIME_DAYS * DAY)) packages s in
    (PackagesStored (u32_or_max (outstanding s workspace hash now)), s).

(** The delete's subselect: the first [count] live rows in id order that no
    other transaction has locked. *)
Definition chosen (s : Shelf) (workspace hash : list byte) (count now : Z) (locked : gset Z) : list PackageRow :=
  take (Z.to_nat count)
    (filter (λ r, on_shelf workspace hash now r ∧ kp_id r ∉ locked) (kp_rows s)).

Definition serve_row (now : Z) (r : PackageRow) : Served :=
  mkServed (kp_id r) (kp_package r) (kp_device r) (Z.max 0 ((kp_expires r - now) / SECOND)).

Definition fetch_served (s : Shelf) (workspace device_key : list byte) (count now : Z) (locked : gset Z) :
    list Served * Shelf :=
  let rows := chosen s workspace (device_hash device_key) count now locked in
  (serve_row now <$> rows,
   mkShelf (filter (λ r, kp_id r ∉ kp_id <$> rows) (kp_rows s)) (kp_next s)).

Definition fetch (s : Shelf) (workspace device_key : list byte) (count now : Z) (locked : gset Z) :
    list (list byte) * Shelf :=
  let '(served, s) := fetch_served s workspace device_key count now locked in (sv_package <$> served, s).

Definition restore_one (workspace : list byte) (now : Z) (s : Shelf) (row : Served) : Shelf :=
  if sv_ttl row <=? 0 then s
  else shelve workspace (sv_device row) (now + sv_ttl row * SECOND) s (sv_package row).
Definition restore (s : Shelf) (workspace : list byte) (served : list Served) (now : Z) : Shelf :=
  fold_left (restore_one workspace now) served s.

Definition sweep_expired (s : Shelf) (now : Z) : Z * Shelf :=
  let kept := filter (λ r, now < kp_expires r) (kp_rows s) in
  (Z.of_nat (length (kp_rows s) - length kept), mkShelf kept (kp_next s)).

(** [ws::key_packages_remaining]: the count [AUTH_ACK] carries, of every workspace. *)
Definition key_packages_remaining (s : option Shelf) (device_key : list byte) (now : Z) : Z :=
  match s with
  | None => 0
  | Some s =>
      u32_or_max (Z.of_nat (length (filter (λ r, kp_device r = device_hash device_key
        ∧ kp_consumed r = false ∧ now < kp_expires r) (kp_rows s))))
  end.

(** ** The handler *)
Record Answer : Type := mkAnswer { a_frame : Frame; a_restore : list Served; a_workspace : option (list byte) }.
Definition plain (frame : Frame) : Answer := mkAnswer frame [] None.
Definition refused (code : ErrorCode) : Answer := plain (Frame.Error (FrameError_new code)).
Definition refused_with (code : ErrorCode) (detail : Z) : Answer :=
  plain (Frame.Error (with_detail (FrameError_new code) (be_bytes 8 detail))).

Definition keys_handle `{Ed25519} (fresh : list byte → list byte) (tables : option Tables) (s : Shelf)
    (session : Session) (body : KeysBody) (now : Z) (locked : gset Z) : Answer * Shelf :=
  match tables with
  | None => (refused Backpressure, s)
  | Some t =>
      match authorized_workspace session, s_device_key session with
      | None, _ | _, None => (refused WriterNotInAccessSet, s)
      | Some workspace, Some device_key =>
          match body with
          | Publish packages =>
              if existsb (λ p, MAX_PACKAGE_BYTES <? len p) packages
              then (refused_with EnvelopeTooLarge MAX_PACKAGE_BYTES, s)
              else match publish s workspace device_key packages now with
              | (PackagesStored remaining, s) => (plain (Frame.Keys (Frame.Published remaining)), s)
              | (OverCap, s) => (refused_with SeatsExhausted MAX_OUTSTANDING, s)
              end
          | Fetch device count =>
              match admits (workspace_db fresh t workspace) (now / 1000) device with
              | AdmissionRefused => (refused WriterNotInAccessSet, s)
              | _ =>
                  match fetch_served s workspace device count now locked with
                  | ([], s) => (plain (Frame.Keys KeysNone), s)
                  | (served, s) =>
                      (mkAnswer (Frame.Keys (Bundles (sv_package <$> served))) served (Some workspace), s)
                  end
              end
          | Frame.Published _ | Bundles _ | KeysNone => (refused MalformedHeader, s)
          end
      end
  end.

(** [key_packages] of [ws.rs]; [queued] is whether the answer was queued. *)
Definition key_packages `{Ed25519} (fresh : list byte → list byte) (tables : option Tables) (s : Shelf)
    (session : Session) (body : KeysBody) (now : Z) (locked : gset Z) (queued : Frame → bool) (later : Z) :
    bool * Shelf :=
  let '(answer, s) := keys_handle fresh tables s session body now locked in
  if queued (a_frame answer) then (true, s)
  else match a_restore answer with
  | [] => (false, s)
  | served => (false, restore s (default [] (a_workspace answer)) served later)
  end.
End keys.

(** ** Where every package is

    The shelf, the answers taken off it and not yet queued, what has been given
    out and what was ever published. The last two are the history of the run. *)
Definition Slot : Type := list byte * list byte * list byte.
Definition slot_of (r : PackageRow) : Slot := (kp_workspace r, kp_device r, kp_package r).
Definition served_slot (workspace : list byte) (v : Served) : Slot := (workspace, sv_device v, sv_package v).

Record World : Type := mkWorld {
  w_shelf : Shelf; w_flight : list (list byte * list Served); w_given : list Slot; w_put : list Slot
}.

Definition batch_slots (b : list byte * list Served) : list Slot := served_slot (fst b) <$> snd b.

Section world.
Context `{Blake3}.

(** Every transaction and every answer, in any order; [step_lost] is an answer
    that was neither queued nor restored, as when the process stops. *)
Inductive shelf_step : World → World → Prop :=
| step_publish w workspace device packages now :
    shelf_step w (mkWorld (snd (publish (w_shelf w) workspace device packages now)) (w_flight w) (w_given w)
      (w_put w ++ match fst (publish (w_shelf w) workspace device packages now) with
                  | PackagesStored _ => (λ p, (workspace, device_hash device, p)) <$> packages
                  | OverCap => []
                  end))
| step_fetch w workspace device count now locked :
    shelf_step w (mkWorld (snd (fetch_served (w_shelf w) workspace device count now locked))
      (w_flight w ++ [(workspace, fst (fetch_served (w_shelf w) workspace device count now locked))])
      (w_given w) (w_put w))
| step_queued w before batch after :
    w_flight w = before ++ batch :: after →
    shelf_step w (mkWorld (w_shelf w) (before ++ after) (w_given w ++ batch_slots batch) (w_put w))
| step_restored w before batch after now :
    w_flight w = before ++ batch :: after →
    shelf_step w (mkWorld (restore (w_shelf w) (fst batch) (snd batch) now) (before ++ after) (w_given w) (w_put w))
| step_lost w before batch after :
    w_flight w = before ++ batch :: after →
    shelf_step w (mkWorld (w_shelf w) (before ++ after) (w_given w) (w_put w))
| step_sweep w now :
    shelf_step w (mkWorld (snd (sweep_expired (w_shelf w) now)) (w_flight w) (w_given w) (w_put w)).

Definition empty_world : World := mkWorld (mkShelf [] 1) [] [] [].
End world.

(** ** Counting *)
Definition copies {A} `{EqDecision A} (x : A) (l : list A) : Z := Z.of_nat (length (filter (x =.) l)).

Lemma copies_nil {A} `{EqDecision A} (x : A) : copies x [] = 0.
Proof. done. Qed.
Lemma copies_app {A} `{EqDecision A} (x : A) l k : copies x (l ++ k) = copies x l + copies x k.
Proof. unfold copies. rewrite filter_app, length_app. lia. Qed.
Lemma copies_cons {A} `{EqDecision A} (x y : A) l : copies x (y :: l) = copies x [y] + copies x l.
Proof. apply (copies_app x [y] l). Qed.
Lemma copies_nonneg {A} `{EqDecision A} (x : A) l : 0 ≤ copies x l.
Proof. unfold copies. lia. Qed.
Lemma copies_perm {A} `{EqDecision A} (x : A) l k : l ≡ₚ k → copies x l = copies x k.
Proof. unfold copies. by intros ->. Qed.
Lemma copies_elem {A} `{EqDecision A} (x : A) l : 0 < copies x l ↔ x ∈ l.
Proof.
  unfold copies. split.
  - destruct (filter _ _) as [|y k] eqn:Hf; [done|]. intros _.
    assert (y ∈ filter (x =.) l) as [-> ?]%list_elem_of_filter by (rewrite Hf; apply list_elem_of_here). done.
  - intros Hx. assert (x ∈ filter (x =.) l) as Hin by (by apply list_elem_of_filter).
    destruct (filter _ _); [by apply elem_of_nil in Hin|cbn; lia].
Qed.

(** A filter and its complement divide the copies. *)
Lemma copies_split {A B} `{EqDecision B} (f : A → B) (P : A → Prop) `{∀ x, Decision (P x)} (x : B) l :
  copies x (f <$> l) = copies x (f <$> filter P l) + copies x (f <$> filter (λ y, ¬ P y) l).
Proof.
  induction l as [|y l IH]; [done|]. rewrite fmap_cons, (copies_cons _ (f y)), IH, !filter_cons.
  destruct (decide (P y)) as [Hp|Hp].
  - rewrite (decide_False (P := ¬ P y)) by (intros Hn; by apply Hn).
    rewrite fmap_cons, (copies_cons _ (f y) (f <$> filter P l)). lia.
  - rewrite (decide_True (P := ¬ P y)) by done. rewrite fmap_cons, (copies_cons _ (f y) (f <$> filter _ l)). lia.
Qed.

Lemma copies_filter_le {A B} `{EqDecision B} (f : A → B) (P : A → Prop) `{∀ x, Decision (P x)} (x : B) l :
  copies x (f <$> filter P l) ≤ copies x (f <$> l).
Proof. rewrite (copies_split f P x l). pose proof (copies_nonneg x (f <$> filter (λ y, ¬ P y) l)). lia. Qed.

(** ** The shelf in id order *)
Abbreviation ascending := (StronglySorted (λ r r', kp_id r < kp_id r')).
Definition shelf_ok (s : Shelf) : Prop := ascending (kp_rows s) ∧ Forall (λ r, kp_id r < kp_next s) (kp_rows s).

Lemma ascending_sublist rs rs' : rs `sublist_of` rs' → ascending rs' → ascending rs.
Proof.
  induction 1 as [|r rs rs' Hsub IH|r rs rs' Hsub IH]; intros Hs; [constructor|..];
    apply StronglySorted_inv in Hs as [Hs Hf].
  - constructor; [auto|]. apply Forall_forall. intros r' Hr'. rewrite Forall_forall in Hf.
    by apply Hf, (elem_of_sublist rs).
  - auto.
Qed.

Lemma ascending_unique rs : ascending rs → NoDup (kp_id <$> rs).
Proof.
  induction rs as [|r rs IH]; intros Hs; [constructor|]. apply StronglySorted_inv in Hs as [Hs Hf].
  rewrite fmap_cons. constructor; [|auto]. intros (r' & Heq & Hin)%list_elem_of_fmap.
  rewrite Forall_forall in Hf. specialize (Hf _ Hin). cbn in Hf. lia.
Qed.

Lemma ascending_snoc rs r : ascending rs → Forall (λ r', kp_id r' < kp_id r) rs → ascending (rs ++ [r]).
Proof.
  intros Hs Hf. induction Hs as [|r' rs Hs IH Hall]; [by repeat constructor|].
  apply Forall_cons in Hf as [Hr Hf]. constructor; [auto|]. apply Forall_app. split; [done|by repeat constructor].
Qed.

Lemma shelve_ok ws hash e s p : shelf_ok s → shelf_ok (shelve ws hash e s p).
Proof.
  intros [Ha Hb]. split; cbn.
  - by apply ascending_snoc.
  - apply Forall_app. split; [|repeat constructor; cbn; lia]. eapply Forall_impl; [exact Hb|]. cbn. lia.
Qed.

Lemma shelf_ok_sublist s rows :
  shelf_ok s → rows `sublist_of` kp_rows s → shelf_ok (mkShelf rows (kp_next s)).
Proof.
  intros [Ha Hb] Hsub. split; [by eapply ascending_sublist|]. apply Forall_forall. intros r Hr.
  rewrite Forall_forall in Hb. by apply Hb, (elem_of_sublist rows).
Qed.

Lemma fold_shelve_ok ws hash e packages s : shelf_ok s → shelf_ok (fold_left (shelve ws hash e) packages s).
Proof. revert s. induction packages as [|p ps IH]; intros s Hs; [done|]. by apply IH, shelve_ok. Qed.

Lemma restore_ok s ws served now : shelf_ok s → shelf_ok (restore s ws served now).
Proof.
  unfold restore. revert s. induction served as [|v vs IH]; intros s Hs; [done|]. apply IH. unfold restore_one.
  destruct (_ <=? 0); [done|by apply shelve_ok].
Qed.

(** What the inserts put on the shelf. *)
Lemma fold_shelve_rows ws hash e packages s :
  slot_of <$> kp_rows (fold_left (shelve ws hash e) packages s)
  = (slot_of <$> kp_rows s) ++ ((λ p, (ws, hash, p)) <$> packages).
Proof.
  revert s. induction packages as [|p ps IH]; intros s; cbn [fold_left]; [by rewrite app_nil_r|].
  rewrite IH. cbn [shelve kp_rows]. rewrite fmap_app, <- app_assoc. done.
Qed.

Lemma restore_rows s ws served now x :
  copies x (slot_of <$> kp_rows (restore s ws served now))
  ≤ copies x (slot_of <$> kp_rows s) + copies x (served_slot ws <$> served).
Proof.
  unfold restore. revert s. induction served as [|v vs IH]; intros s; cbn [fold_left]; [cbn; unfold copies; cbn; lia|].
  rewrite fmap_cons, copies_cons. specialize (IH (restore_one ws now s v)).
  pose proof (copies_nonneg x [served_slot ws v]).
  assert (copies x (slot_of <$> kp_rows (restore_one ws now s v))
    ≤ copies x (slot_of <$> kp_rows s) + copies x [served_slot ws v]); [|lia].
  unfold restore_one. destruct (_ <=? 0); [lia|]. cbn [shelve kp_rows]. rewrite fmap_app, copies_app. done.
Qed.

Section shelf_proofs.
Context `{Blake3}.

Lemma publish_ok s ws dev packages now : shelf_ok s → shelf_ok (snd (publish s ws dev packages now)).
Proof. intros Hs. unfold publish. destruct (_ <? _); [done|]. by apply fold_shelve_ok. Qed.

Lemma chosen_sublist s ws hash count now locked : chosen s ws hash count now locked `sublist_of` kp_rows s.
Proof. unfold chosen. etrans; [apply sublist_take|apply sublist_filter]. Qed.

(** The delete takes the rows it chose and leaves the others. *)
Lemma fetch_divides s ws dev count now locked :
  shelf_ok s →
  kp_rows s ≡ₚ chosen s ws (device_hash dev) count now locked
    ++ kp_rows (snd (fetch_served s ws dev count now locked)).
Proof.
  intros [Ha _]. cbn [fetch_served snd kp_rows]. pose proof (chosen_sublist s ws (device_hash dev) count now locked) as Hsub.
  set (rows := chosen s ws (device_hash dev) count now locked) in *. apply ascending_unique in Ha as Hn.
  apply NoDup_Permutation.
  - by apply NoDup_fmap_1 in Hn.
  - apply NoDup_app. split_and!.
    + eapply sublist_NoDup; [|exact Hsub]. by apply NoDup_fmap_1 in Hn.
    + intros r Hr [Hnot _]%list_elem_of_filter. by apply Hnot, list_elem_of_fmap_2.
    + apply NoDup_filter. by apply NoDup_fmap_1 in Hn.
  - intros r. rewrite elem_of_app, list_elem_of_filter. split.
    + intros Hr. destruct (decide (kp_id r ∈ kp_id <$> rows)) as [(r' & Heq & Hin)%list_elem_of_fmap|]; [|by right].
      left. assert (r' = r) as ->; [|done]. apply (NoDup_fmap_unique kp_id (kp_rows s)); [done| |done|by symmetry].
      by eapply elem_of_sublist.
    + intros [Hr|[_ Hr]]; [by eapply elem_of_sublist|done].
Qed.

Lemma fetch_ok s ws dev count now locked :
  shelf_ok s → shelf_ok (snd (fetch_served s ws dev count now locked)).
Proof. intros Hs. cbn [fetch_served snd]. apply shelf_ok_sublist; [done|apply sublist_filter]. Qed.

Lemma fetch_slots s ws dev count now locked :
  served_slot ws <$> fst (fetch_served s ws dev count now locked)
  = slot_of <$> chosen s ws (device_hash dev) count now locked.
Proof.
  cbn [fetch_served fst]. rewrite <- list_fmap_compose. apply list_fmap_ext. intros i r Hi.
  assert (r ∈ chosen s ws (device_hash dev) count now locked) as Hr by (by eapply list_elem_of_lookup_2).
  unfold chosen in Hr. apply elem_of_take in Hr as (j & Hj & _). apply list_elem_of_lookup_2 in Hj.
  apply list_elem_of_filter in Hj as [[(Hw & _) _] _]. unfold served_slot, slot_of. cbn. by rewrite Hw.
Qed.
End shelf_proofs.

Section shelf_theorems.
Context `{Blake3}.

(** Copies of one package on the shelf and in answers not yet queued. *)
Definition held (x : Slot) (w : World) : Z :=
  copies x (slot_of <$> kp_rows (w_shelf w)) + copies x (w_flight w ≫= batch_slots).

Definition world_ok (w : World) : Prop :=
  shelf_ok (w_shelf w) ∧ ∀ x, copies x (w_given w) + held x w ≤ copies x (w_put w).

Lemma flight_take x before batch after :
  copies x ((before ++ batch :: after) ≫= batch_slots)
  = copies x (batch_slots batch) + copies x ((before ++ after) ≫= batch_slots).
Proof. rewrite !bind_app, bind_cons, !copies_app. lia. Qed.

Lemma shelf_step_ok w w' : world_ok w → shelf_step w w' → world_ok w'.
Proof.
  intros [Hs Hc] Hstep. destruct Hstep as [w ws dev ps now|w ws dev n now locked|w b1 b b2 Hf|w b1 b b2 now Hf|w b1 b b2 Hf|w now].
  - split; [by apply publish_ok|]. intros x. specialize (Hc x). unfold held in *. cbn [w_shelf w_flight w_given w_put].
    unfold publish. destruct (_ <? _); cbn [fst snd].
    + rewrite app_nil_r. lia.
    + rewrite fold_shelve_rows, !copies_app. lia.
  - split; [by apply fetch_ok|]. intros x. specialize (Hc x). unfold held in *. cbn [w_shelf w_flight w_given w_put].
    rewrite (copies_perm _ _ _ (fmap_Permutation slot_of _ _ (fetch_divides (w_shelf w) ws dev n now locked Hs))) in Hc.
    rewrite fmap_app, copies_app in Hc. rewrite bind_app, bind_cons, !copies_app. cbn [mbind list_bind].
    unfold batch_slots at 2. cbn [fst snd]. rewrite fetch_slots, copies_nil. lia.
  - split; [done|]. intros x. specialize (Hc x). unfold held in *. cbn [w_shelf w_flight w_given w_put].
    rewrite Hf, flight_take in Hc. rewrite copies_app. lia.
  - split; [by apply restore_ok|]. intros x. specialize (Hc x). unfold held in *. cbn [w_shelf w_flight w_given w_put].
    rewrite Hf, flight_take in Hc. pose proof (restore_rows (w_shelf w) (fst b) (snd b) now x).
    unfold batch_slots at 1 in Hc. lia.
  - split; [done|]. intros x. specialize (Hc x). unfold held in *. cbn [w_shelf w_flight w_given w_put].
    rewrite Hf, flight_take in Hc. pose proof (copies_nonneg x (batch_slots b)). lia.
  - split; [apply shelf_ok_sublist; [done|apply sublist_filter]|]. intros x. specialize (Hc x). unfold held in *.
    cbn [w_shelf w_flight w_given w_put snd sweep_expired kp_rows].
    pose proof (copies_filter_le slot_of (λ r, now < kp_expires r) x (kp_rows (w_shelf w))). lia.
Qed.

(** C7. A one-time package is given out once: in every interleaving of
    publications, fetches, queued answers, restored answers, lost answers and
    sweeps, the times a package was handed to somebody, plus the copies still
    on the shelf or in an answer not yet queued, never exceed the times its
    device published it. *)
Theorem package_given_once w x :
  rtc shelf_step empty_world w → copies x (w_given w) + held x w ≤ copies x (w_put w).
Proof.
  intros Hr. assert (world_ok empty_world) as H0.
  { split; [by repeat constructor|]. intros y. done. }
  assert (∀ a b, rtc shelf_step a b → world_ok a → world_ok b) as Hgen.
  { induction 1 as [|a b c Hs _ IH]; eauto using shelf_step_ok. }
  apply (Hgen _ _ Hr H0).
Qed.

(** ** Publishing under the cap *)
Lemma outstanding_app rows next ws hash now rows' :
  outstanding (mkShelf (rows ++ rows') next) ws hash now
  = outstanding (mkShelf rows next) ws hash now + Z.of_nat (length (filter (on_shelf ws hash now) rows')).
Proof. unfold outstanding. cbn [kp_rows]. rewrite filter_app, length_app. lia. Qed.

Lemma outstanding_fold_shelve ws hash e packages s ws' hash' now :
  now < e →
  outstanding (fold_left (shelve ws hash e) packages s) ws' hash' now
  = outstanding s ws' hash' now
    + (if decide (ws = ws' ∧ hash = hash') then Z.of_nat (length packages) else 0).
Proof.
  intros He. revert s. induction packages as [|p ps IH]; intros s; cbn [fold_left length]; [case_decide; lia|].
  rewrite IH. unfold shelve. rewrite outstanding_app. rewrite filter_cons, filter_nil.
  replace (outstanding (mkShelf (kp_rows s) _) ws' hash' now) with (outstanding s ws' hash' now) by done.
  unfold on_shelf. cbn [kp_workspace kp_device kp_consumed kp_expires].
  destruct (decide (ws = ws' ∧ hash = hash')) as [[-> ->]|Hne].
  - rewrite decide_True by done. cbn [length]. lia.
  - rewrite decide_False by naive_solver. cbn [length]. lia.
Qed.

(** A publication is all or nothing and honours the cap: either every
    package is on that device's shelf for ninety days, the count reported is
    the shelf's and at most a hundred, and no other shelf is touched; or the
    batch would pass a hundred, and nothing is stored. *)
Theorem publish_all_or_nothing s ws dev packages now :
  let hash := device_hash dev in
  let before := outstanding s ws hash now in
  match publish s ws dev packages now with
  | (PackagesStored remaining, s') =>
      remaining = before + Z.of_nat (length packages) ∧ remaining = outstanding s' ws hash now
      ∧ remaining ≤ MAX_OUTSTANDING
      ∧ slot_of <$> kp_rows s' = (slot_of <$> kp_rows s) ++ ((λ p, (ws, hash, p)) <$> packages)
      ∧ (∀ ws' hash' t, (ws', hash') ≠ (ws, hash) → t < now + LIFETIME_DAYS * DAY →
           outstanding s' ws' hash' t = outstanding s ws' hash' t)
  | (OverCap, s') => s' = s ∧ MAX_OUTSTANDING < before + Z.of_nat (length packages)
  end.
Proof.
  intros hash before. unfold publish. fold hash. fold before.
  assert (0 ≤ before) by (unfold before, outstanding; lia).
  destruct (Z.ltb_spec MAX_OUTSTANDING (i64_saturating (before + Z.of_nat (length packages)))) as [Ho|Ho].
  - split; [done|]. unfold i64_saturating, MAX_OUTSTANDING, I64_MAX, I64_MIN in *. lia.
  - assert (before + Z.of_nat (length packages) ≤ MAX_OUTSTANDING) as Hcap
      by (unfold i64_saturating, MAX_OUTSTANDING, I64_MAX, I64_MIN in *; lia).
    assert (now < now + LIFETIME_DAYS * DAY) as Hlife by (unfold LIFETIME_DAYS, DAY, SECOND; lia).
    pose proof (outstanding_fold_shelve ws hash (now + LIFETIME_DAYS * DAY) packages s ws hash now Hlife) as Hout.
    rewrite decide_True in Hout by done. fold before in Hout. unfold u32_or_max. rewrite Hout.
    rewrite (proj2 (Z.leb_le 0 _)), (proj2 (Z.leb_le _ U32_MAX)) by (unfold U32_MAX, MAX_OUTSTANDING in *; lia).
    cbn [andb]. split_and!; [done..|apply fold_shelve_rows|]. intros ws' hash' t Hne Ht.
    rewrite outstanding_fold_shelve by done. rewrite decide_False by (intros [-> ->]; done). lia.
Qed.

(** ** Fetching *)
Lemma chosen_spec s ws hash count now locked r :
  r ∈ chosen s ws hash count now locked → r ∈ kp_rows s ∧ on_shelf ws hash now r ∧ kp_id r ∉ locked.
Proof.
  intros Hr. split; [by eapply elem_of_sublist, chosen_sublist|]. unfold chosen in Hr.
  apply elem_of_take in Hr as (j & Hj & _). apply list_elem_of_lookup_2 in Hj.
  by apply list_elem_of_filter in Hj as [? _].
Qed.

Lemma sorted_take_drop {A} (R : A → A → Prop) (l : list A) n x y :
  StronglySorted R l → x ∈ take n l → y ∈ drop n l → R x y.
Proof.
  intros Hs Hx Hy. rewrite <- (take_drop n l) in Hs. revert Hs Hx. generalize (take n l) as front.
  induction front as [|z front IH]; intros Hs Hx; [by apply elem_of_nil in Hx|].
  cbn [app] in Hs. apply StronglySorted_inv in Hs as [Hs Hf]. apply elem_of_cons in Hx as [->|Hx]; [|auto].
  rewrite Forall_forall in Hf. apply Hf, elem_of_app. by right.
Qed.

(** A fetch takes the oldest live packages of the one device asked about, at
    most as many as asked, and exactly as many as there are when no other fetch
    holds any: nothing expired, nothing of another device or workspace, each
    older than every live package it leaves, and what it takes is off the shelf
    while everything else stays. *)
Theorem fetch_takes_oldest s ws dev count now locked :
  shelf_ok s → 0 ≤ count →
  let hash := device_hash dev in
  let '(served, s') := fetch_served s ws dev count now locked in
  (slot_of <$> kp_rows s) ≡ₚ (served_slot ws <$> served) ++ (slot_of <$> kp_rows s')
  ∧ Z.of_nat (length served) ≤ count
  ∧ (locked = ∅ → Z.of_nat (length served) = Z.min count (outstanding s ws hash now))
  ∧ Forall (λ v, sv_device v = hash) served
  ∧ (∀ v r, v ∈ served → r ∈ kp_rows s' → on_shelf ws hash now r → kp_id r ∉ locked → sv_id v < kp_id r).
Proof.
  intros Hs Hcount hash. pose proof (fetch_divides s ws dev count now locked Hs) as Hdiv.
  pose proof (fetch_slots s ws dev count now locked) as Hslots. fold hash in Hdiv, Hslots.
  destruct (fetch_served s ws dev count now locked) as [served s'] eqn:Hf. cbn [fst snd] in *.
  unfold fetch_served in Hf. fold hash in Hf. injection Hf as <- <-.
  split_and!.
  - rewrite Hslots, <- fmap_app. by apply fmap_Permutation.
  - rewrite length_fmap. unfold chosen. rewrite length_take. lia.
  - intros ->. rewrite length_fmap. unfold chosen, outstanding. rewrite length_take.
    rewrite (list_filter_iff _ (on_shelf ws hash now)); [lia|].
    intros r. split; [naive_solver|]. intros ?. split; [done|set_solver].
  - apply Forall_fmap, Forall_forall. intros r Hr. cbn. by apply chosen_spec in Hr as (_ & (_ & -> & _) & _).
  - intros v r (r0 & -> & Hr0)%list_elem_of_fmap Hr Hon Hl. cbn [kp_rows] in Hr.
    apply list_elem_of_filter in Hr as [Hnot Hr]. cbn [serve_row sv_id]. unfold chosen in Hr0, Hnot.
    match type of Hr0 with _ ∈ take _ ?l => set (live := l) in * end.
    apply (sorted_take_drop (λ r r', kp_id r < kp_id r') live (Z.to_nat count)); [|done|].
    + eapply ascending_sublist; [apply sublist_filter|apply Hs].
    + assert (r ∈ live) as Hin by (by apply list_elem_of_filter).
      rewrite <- (take_drop (Z.to_nat count) live) in Hin. apply elem_of_app in Hin as [Hin|]; [|done].
      by destruct Hnot; apply list_elem_of_fmap_2.
Qed.

(** ** The answer that was never queued *)
Lemma restore_rows_all s ws served now :
  Forall (λ v, 0 < sv_ttl v) served →
  slot_of <$> kp_rows (restore s ws served now) = (slot_of <$> kp_rows s) ++ (served_slot ws <$> served).
Proof.
  unfold restore. revert s. induction served as [|v vs IH]; intros s Hv; cbn [fold_left]; [by rewrite app_nil_r|].
  apply Forall_cons in Hv as [Hv Hvs]. rewrite (IH _ Hvs). unfold restore_one.
  rewrite (proj2 (Z.leb_gt _ _)) by done. cbn [shelve kp_rows]. rewrite fmap_app, <- app_assoc. done.
Qed.

Lemma restored_live s ws served now ws' hash' t :
  Forall (λ v, 0 < sv_ttl v) served → t < now + SECOND →
  outstanding (restore s ws served now) ws' hash' t
  = outstanding s ws' hash' t
    + Z.of_nat (length (filter (λ v, ws = ws' ∧ sv_device v = hash') served)).
Proof.
  intros Hv Ht. unfold restore. revert s. induction served as [|v vs IH]; intros s; cbn [fold_left]; [cbn; lia|].
  apply Forall_cons in Hv as [Hv Hvs]. rewrite (IH Hvs). unfold restore_one.
  rewrite (proj2 (Z.leb_gt _ _)) by done. unfold shelve. rewrite outstanding_app.
  replace (outstanding (mkShelf (kp_rows s) _) ws' hash' t) with (outstanding s ws' hash' t) by done.
  rewrite !filter_cons, filter_nil. unfold on_shelf. cbn [kp_workspace kp_device kp_consumed kp_expires].
  unfold SECOND in *. repeat case_decide; cbn [length]; try lia; naive_solver lia.
Qed.

(** A fetch whose answer the client's queue refused costs the shelf nothing:
    put back at once, every package that had a second left is on its shelf
    again, every device's count is what it was, and the shelf holds the same
    packages. *)
Theorem undelivered_fetch_restored s ws dev count now locked :
  shelf_ok s → Forall (λ r, now < kp_expires r → now + SECOND ≤ kp_expires r) (kp_rows s) →
  let '(served, s1) := fetch_served s ws dev count now locked in
  let s' := restore s1 ws served now in
  (slot_of <$> kp_rows s') ≡ₚ (slot_of <$> kp_rows s)
  ∧ (∀ ws' hash', outstanding s' ws' hash' now = outstanding s ws' hash' now).
Proof.
  intros Hs Hsec. pose proof (fetch_divides s ws dev count now locked Hs) as Hdiv.
  pose proof (fetch_slots s ws dev count now locked) as Hslots.
  set (rows := chosen s ws (device_hash dev) count now locked) in *.
  assert (fst (fetch_served s ws dev count now locked) = serve_row now <$> rows) as Hserved by done.
  destruct (fetch_served s ws dev count now locked) as [served s1]. cbn [fst snd] in *. subst served.
  assert (Forall (λ v, 0 < sv_ttl v) (serve_row now <$> rows)) as Httl.
  { apply Forall_fmap, Forall_forall. intros r (Hin & (_ & _ & _ & Hlive) & _)%chosen_spec. cbn.
    rewrite Forall_forall in Hsec. specialize (Hsec _ Hin Hlive).
    assert (1 ≤ (kp_expires r - now) / SECOND); [|lia]. apply Z.div_le_lower_bound; unfold SECOND in *; lia. }
  split.
  - rewrite restore_rows_all by done. rewrite Hslots, <- fmap_app. apply fmap_Permutation.
    rewrite Hdiv. apply Permutation_app_comm.
  - intros ws' hash'. rewrite restored_live by (done || unfold SECOND; lia).
    unfold outstanding. rewrite Hdiv at 1. rewrite filter_app, length_app.
    assert (length (filter (λ v, ws = ws' ∧ sv_device v = hash') (serve_row now <$> rows))
      = length (filter (on_shelf ws' hash' now) rows)) as ->; [|lia].
    rewrite (filter_fmap_iff _ _ (on_shelf ws' hash' now)), length_fmap; [done|]. apply Forall_forall.
    intros r (_ & (Hw & _ & Hc & Hlive) & _)%chosen_spec. unfold on_shelf. cbn. naive_solver.
Qed.
End shelf_theorems.

(** ** The handler stays in its workspace *)
Definition rows_of (ws : list byte) (s : Shelf) : list PackageRow := filter (λ r, kp_workspace r = ws) (kp_rows s).

Lemma rows_of_shelve ws ws' hash e s p : ws' ≠ ws → rows_of ws (shelve ws' hash e s p) = rows_of ws s.
Proof.
  intros Hne. unfold rows_of. cbn [shelve kp_rows]. rewrite filter_app, filter_cons_False by done. by rewrite app_nil_r.
Qed.

Lemma rows_of_fold_shelve ws ws' hash e packages s :
  ws' ≠ ws → rows_of ws (fold_left (shelve ws' hash e) packages s) = rows_of ws s.
Proof.
  intros Hne. revert s. induction packages as [|p ps IH]; intros s; [done|]. cbn [fold_left].
  by rewrite IH, rows_of_shelve.
Qed.

Lemma rows_of_restore ws ws' served now s : ws' ≠ ws → rows_of ws (restore s ws' served now) = rows_of ws s.
Proof.
  intros Hne. unfold restore. revert s. induction served as [|v vs IH]; intros s; [done|]. cbn [fold_left].
  rewrite IH. unfold restore_one. destruct (_ <=? 0); [done|by rewrite rows_of_shelve].
Qed.

Section handler.
Context `{Blake3, Ed25519}.

Lemma rows_of_fetch ws ws' dev count now locked s :
  shelf_ok s → ws' ≠ ws → rows_of ws (snd (fetch_served s ws' dev count now locked)) = rows_of ws s.
Proof.
  intros [Ha _] Hne. unfold rows_of. cbn [fetch_served snd kp_rows]. rewrite list_filter_filter.
  apply ascending_unique in Ha as Hn.
  assert (∀ r, r ∈ kp_rows s → kp_workspace r = ws →
    kp_id r ∉ kp_id <$> chosen s ws' (device_hash dev) count now locked) as Hout.
  { intros r Hr Hw (r' & Heq & (Hin & (Hw' & _) & _)%chosen_spec)%list_elem_of_fmap.
    assert (r' = r) as -> by (by apply (NoDup_fmap_unique kp_id (kp_rows s))). congruence. }
  revert Hout. generalize (kp_id <$> chosen s ws' (device_hash dev) count now locked) as taken.
  clear Ha Hn. induction (kp_rows s) as [|r rs IH]; intros taken Hout; [done|]. rewrite !filter_cons.
  rewrite (IH taken) by (intros; apply Hout; [by apply list_elem_of_further|done]).
  destruct (decide (kp_workspace r = ws)) as [Hw|Hw].
  - rewrite decide_True; [done|]. split; [done|]. apply Hout; [apply list_elem_of_here|done].
  - rewrite decide_False by (by intros [? _]). done.
Qed.

(** A [KEYS] frame reaches one workspace only, delivered or not: the rows of
    every workspace but the one the session was admitted to are the same before
    and after, and a session with no workspace changes nothing. Packages are
    handed out only for a device that workspace's access set admits. *)
Theorem keys_stay_home fresh tables s session body now locked queued later :
  shelf_ok s →
  (∀ ws, authorized_workspace session ≠ Some ws →
     rows_of ws (snd (key_packages fresh tables s session body now locked queued later)) = rows_of ws s)
  ∧ (∀ packages, a_frame (fst (keys_handle fresh tables s session body now locked)) = Frame.Keys (Bundles packages) →
       ∃ t ws device count, tables = Some t ∧ authorized_workspace session = Some ws ∧ body = Fetch device count
         ∧ admits (workspace_db fresh t ws) (now / 1000) device ≠ AdmissionRefused
         ∧ packages = sv_package <$> fst (fetch_served s ws device count now locked)).
Proof.
  intros Hs. split.
  - intros ws Hws. unfold key_packages, keys_handle. destruct tables as [t|]; [|by destruct (queued _)].
    destruct (authorized_workspace session) as [w|]; [|by destruct (queued _)].
    assert (w ≠ ws) as Hne by congruence.
    destruct (s_device_key session) as [key|]; [|by destruct (queued _)].
    destruct body as [packages|n|device count|packages|]; try (by destruct (queued _)).
    + destruct (existsb _ _); [by destruct (queued _)|]. unfold publish. destruct (_ <? _); [by destruct (queued _)|].
      destruct (queued _); cbn [snd plain a_restore]; by apply rows_of_fold_shelve.
    + pose proof (rows_of_fetch ws w device count now locked s Hs Hne) as Hf.
      destruct (admits _ _ _); [..|by destruct (queued _)];
        (destruct (fetch_served s w device count now locked) as [[|v vs] s1]; cbn [snd] in Hf;
         [by destruct (queued _)|]; cbn [a_frame a_restore a_workspace default]; destruct (queued _); cbn [snd];
         [done|by rewrite rows_of_restore]).
  - intros packages. unfold keys_handle. destruct tables as [t|]; [|done].
    destruct (authorized_workspace session) as [w|]; [|done]. destruct (s_device_key session) as [key|]; [|done].
    destruct body as [ps|n|device count|ps|]; try done.
    + destruct (existsb _ _); [done|]. destruct (publish _ _ _ _ _) as [[] ?]; done.
    + intros Hfr. exists t, w, device, count. revert Hfr.
      destruct (admits _ _ _) eqn:Ha; [..|done];
        (destruct (fetch_served s w device count now locked) as [[|v vs] s1]; [done|]; by intros [= <-]).
Qed.
End handler.

(** ** A concrete run *)
Module KeysDemo.
#[local] Instance keys_blake3 : Blake3 := poly_digest.
#[local] Instance keys_ed25519 : Ed25519 := toy_verify.

Definition ws : list byte := [Byte.x77].
Definition other : list byte := [Byte.x78].
Definition dev : list byte := replicate 32 Byte.x05.
Definition bare : Shelf := mkShelf [] 1.
Definition stocked : Shelf := snd (publish bare ws dev [[Byte.x01]; [Byte.x02]; [Byte.x03]] 0).

Lemma stocked_ok : shelf_ok stocked.
Proof. apply publish_ok. split; constructor. Qed.

Definition three : list (list byte) := [[Byte.x01]; [Byte.x02]; [Byte.x03]].
Definition put : World :=
  mkWorld (snd (publish (w_shelf empty_world) ws dev three 0)) (w_flight empty_world) (w_given empty_world)
    (w_put empty_world ++ match fst (publish (w_shelf empty_world) ws dev three 0) with
                          | PackagesStored _ => (λ p, (ws, device_hash dev, p)) <$> three
                          | OverCap => []
                          end).
Definition batch : list byte * list Served := (ws, fst (fetch_served (w_shelf put) ws dev 1 5 ∅)).
Definition taken : World :=
  mkWorld (snd (fetch_served (w_shelf put) ws dev 1 5 ∅)) (w_flight put ++ [batch]) (w_given put) (w_put put).
Definition run : World := mkWorld (w_shelf taken) ([] ++ []) (w_given taken ++ batch_slots batch) (w_put taken).

Lemma run_reachable : rtc shelf_step empty_world run.
Proof.
  eapply rtc_l; [exact (step_publish empty_world ws dev three 0)|].
  eapply rtc_l; [exact (step_fetch put ws dev 1 5 ∅)|].
  apply rtc_once. exact (step_queued taken [] batch [] eq_refl).
Qed.

Lemma package_given_once_witness :
  copies (ws, device_hash dev, [Byte.x01]) (w_given run) = 1
  ∧ copies (ws, device_hash dev, [Byte.x01]) (w_given run) + held (ws, device_hash dev, [Byte.x01]) run
    ≤ copies (ws, device_hash dev, [Byte.x01]) (w_put run).
Proof. split; [by vm_compute|apply (package_given_once run), run_reachable]. Defined.

Lemma fetch_takes_oldest_witness : sv_package <$> fst (fetch_served stocked ws dev 2 5 ∅) = [[Byte.x01]; [Byte.x02]]
  ∧ Z.of_nat (length (fst (fetch_served stocked ws dev 2 5 ∅))) = Z.min 2 (outstanding stocked ws (device_hash dev) 5).
Proof.
  split; [by vm_compute|].
  pose proof (fetch_takes_oldest stocked ws dev 2 5 ∅ stocked_ok ltac:(lia)) as Ht. cbv zeta in Ht.
  destruct (fetch_served stocked ws dev 2 5 ∅) as [served s']. apply Ht. reflexivity.
Defined.

Lemma undelivered_fetch_restored_witness :
  outstanding (restore (snd (fetch_served stocked ws dev 2 5 ∅)) ws (fst (fetch_served stocked ws dev 2 5 ∅)) 5)
    ws (device_hash dev) 5 = outstanding stocked ws (device_hash dev) 5.
Proof.
  assert (Forall (λ r, 5 < kp_expires r → 5 + SECOND ≤ kp_expires r) (kp_rows stocked)) as Hf.
  { repeat constructor; by vm_compute. }
  pose proof (undelivered_fetch_restored stocked ws dev 2 5 ∅ stocked_ok Hf) as Ht.
  destruct (fetch_served stocked ws dev 2 5 ∅) as [served s']. apply Ht.
Defined.

Definition visitor : Session := with_workspace (fst (session_new Demo.config [] (mkProcess 1 []))) (Some other).

Lemma keys_stay_home_witness :
  rows_of ws (snd (key_packages (λ _, []) None stocked visitor (Fetch dev 1) 5 ∅ (λ _, false) 6)) = rows_of ws stocked.
Proof. by apply (keys_stay_home (λ _, []) None stocked visitor (Fetch dev 1) 5 ∅ (λ _, false) 6 stocked_ok). Defined.

(** A restoration asks neither for the shelf's lock nor for its cap: a fetch of
    eight from a full shelf, a top-up of eight while the answer waits, and the
    answer refused by its queue leave a hundred and eight. *)
Theorem restore_passes_cap :
  let full := snd (publish bare ws dev (replicate 100 [Byte.x01]) 0) in
  let taken := fetch_served full ws dev 8 1 ∅ in
  let topped := publish (snd taken) ws dev (replicate 8 [Byte.x02]) 2 in
  fst topped = PackagesStored 100
  ∧ outstanding (restore (snd topped) ws (fst taken) 3) ws (device_hash dev) 3 = 108.
Proof. by vm_compute. Qed.

(** The count of [AUTH_ACK] is over every workspace, the shelf is one
    workspace's: a device stocked elsewhere is told three while a fetch where it
    has connected finds none. *)
Theorem remaining_counts_every_workspace :
  key_packages_remaining (Some stocked) dev 5 = 3 ∧ outstanding stocked other (device_hash dev) 5 = 0
  ∧ fst (fetch_served stocked other dev 1 5 ∅) = [].
Proof. by vm_compute. Qed.
End KeysDemo.
