(* ===== verification/RecoveryWraps.v ===== *)
(** * Recovery wraps: [recovery/mod.rs] and [recovery/store.rs]

    A recovery wrap is an opaque record in a blinded slot of a group. The relay
    can check its shape and that the slot moves forward, and nothing else. The
    record's codec and bounds, [check_replacement], and the two tables: the
    current slots and the superseded ones, each kept thirty days.

    [publish_found] is the publishing transaction after its locked read. The
    read locks a row that exists, so what it found is still so when the
    transaction goes on; an empty slot locks nothing, so a transaction that
    found it empty may meet a row another committer has put there since, and
    [wrap_step] has that race as a step of its own. [publish_wrap] is the
    handler of [ws.rs]. Time is in milliseconds.

    The theorems: the decoder accepts exactly the canonical encodings within
    bounds; a slot's epoch only rises and a captured wrap can never be put
    back, under any interleaving; a superseded wrap stays readable for thirty
    days if nothing replaces its successor; a tag names one group. *)

From stdpp Require Import base tactics numbers gmap sets fin_maps functions relations sorting list.
From S2P Require Import Prelude Cbor Crypto Push Frame Access AccessChain Session Connection Admission.

Open Scope Z_scope.

Definition WRAP_GROUP_BYTES : nat := 32.
Definition TAG_BYTES : nat := 32.
Definition MAX_WRAP_BYTES : Z := 256 * 1024.
Definition PRIOR_RETENTION_DAYS : Z := 30.
Definition DAY_MS : Z := 86400000.

Record RecoveryWrap : Type := mkWrap {
  rw_group : list byte; rw_epoch : Z; rw_tag : list byte; rw_ct : list byte
}.

Inductive WrapError : Type :=
| WrapMalformed (error : CborError)
| WrapGroupWidth (n : nat)
| TagWidth (n : nat)
| WrapEmpty
| WrapTooLarge (n : Z)
| NotNewer (stored offered : Z).

Definition wrap_error_code (e : WrapError) : ErrorCode :=
  match e with
  | NotNewer _ _ => WrapNotNewer
  | WrapTooLarge _ => EnvelopeTooLarge
  | WrapMalformed _ | WrapGroupWidth _ | TagWidth _ | WrapEmpty => MalformedHeader
  end.

Definition wrap_encode (w : RecoveryWrap) : list byte :=
  array [bytes (rw_group w); uint (rw_epoch w); bytes (rw_tag w); bytes (rw_ct w)].

Definition wrap_check (w : RecoveryWrap) : result WrapError unit :=
  if negb (length (rw_group w) =? WRAP_GROUP_BYTES)%nat then Err (WrapGroupWidth (length (rw_group w)))
  else if negb (length (rw_tag w) =? TAG_BYTES)%nat then Err (TagWidth (length (rw_tag w)))
  else match rw_ct w with
  | [] => Err WrapEmpty
  | _ :: _ => if MAX_WRAP_BYTES <? len (rw_ct w) then Err (WrapTooLarge (len (rw_ct w))) else Ok tt
  end.

Abbreviation wlift := (rd_map_err WrapMalformed).
Definition decode_wrap : rd WrapError RecoveryWrap :=
  wlift (rd_array 4) ;;;
  group <- wlift rd_bytes ;;
  epoch <- wlift rd_uint ;;
  tag <- wlift rd_bytes ;;
  ct <- wlift rd_bytes ;;
  rd_ret (mkWrap group epoch tag ct).

Definition wrap_decode (bs : list byte) : result WrapError RecoveryWrap :=
  let? wrap := parse WrapMalformed decode_wrap bs in
  let? _ := wrap_check wrap in
  Ok wrap.

Definition check_replacement (stored offered : Z) : result WrapError unit :=
  if stored <? offered then Ok tt else Err (NotNewer stored offered).

(** ** The tables *)
Abbreviation WrapSlot := (list byte * list byte)%type.
Record PriorRow : Type := mkPrior { pr_epoch : Z; pr_ct : list byte; pr_expires : Z }.
Record Wraps : Type := mkWraps {
  wr_groups : gset (list byte);
  wr_current : gmap WrapSlot (Z * list byte);
  wr_prior : gmap WrapSlot PriorRow
}.

Inductive WrapStoreError : Type := WrapDatabase | WrapRefused (error : WrapError).
Inductive WrapPublished : Type := Created | Replaced (superseded : Z).

Definition slot (w : RecoveryWrap) : WrapSlot := (rw_group w, rw_tag w).

(** The unique index on the tag alone. *)
Definition tag_elsewhere (t : Wraps) (s : WrapSlot) : bool :=
  existsb (λ e : WrapSlot * (Z * list byte), bool_decide (e.1.2 = s.2) && negb (bool_decide (e.1.1 = s.1)))
    (map_to_list (wr_current t)).

(** The transaction, given what its locked read found. *)
Definition publish_found (found : option (Z * list byte)) (t : Wraps) (w : RecoveryWrap) (now : Z) :
    result WrapStoreError WrapPublished * Wraps :=
  match found with
  | None =>
      match wr_current t !! slot w with
      | Some (current, _) => (Err (WrapRefused (NotNewer current (rw_epoch w))), t)
      | None =>
          if tag_elsewhere t (slot w) || negb (bool_decide (rw_group w ∈ wr_groups t)) then (Err WrapDatabase, t)
          else (Ok Created,
                mkWraps (wr_groups t) (<[slot w := (rw_epoch w, rw_ct w)]> (wr_current t)) (wr_prior t))
      end
  | Some (stored_epoch, stored_ct) =>
      match check_replacement stored_epoch (rw_epoch w) with
      | Err e => (Err (WrapRefused e), t)
      | Ok _ =>
          (Ok (Replaced stored_epoch),
           mkWraps (wr_groups t) (<[slot w := (rw_epoch w, rw_ct w)]> (wr_current t))
             (<[slot w := mkPrior stored_epoch stored_ct (now + PRIOR_RETENTION_DAYS * DAY_MS)]> (wr_prior t)))
      end
  end.

(** Everything before the read: the bounds and the width of the column. *)
Definition publishable (w : RecoveryWrap) : result WrapStoreError unit :=
  match wrap_check w with
  | Err e => Err (WrapRefused e)
  | Ok _ => if rw_epoch w <=? I64_MAX then Ok tt else Err WrapDatabase
  end.

Definition wrap_publish (t : Wraps) (w : RecoveryWrap) (now : Z) : result WrapStoreError WrapPublished * Wraps :=
  match publishable w with
  | Err e => (Err e, t)
  | Ok _ => publish_found (wr_current t !! slot w) t w now
  end.

(** ** The reads, the sweep and the removal *)
Definition wrap_current (t : Wraps) (group tag : list byte) : option RecoveryWrap :=
  (λ r, mkWrap group r.1 tag r.2) <$> wr_current t !! (group, tag).

Definition wrap_prior (t : Wraps) (group tag : list byte) (now : Z) : option RecoveryWrap :=
  match wr_prior t !! (group, tag) with
  | Some r => if now <? pr_expires r then Some (mkWrap group (pr_epoch r) tag (pr_ct r)) else None
  | None => None
  end.

Definition tag_le (w w' : RecoveryWrap) : Prop := bytes_le (rw_tag w) (rw_tag w').
#[global] Instance tag_le_dec : RelDecision tag_le.
Proof. intros w w'. unfold tag_le, bytes_le, bytes_lt. apply _. Defined.

Definition for_group (t : Wraps) (group : list byte) : list RecoveryWrap :=
  merge_sort tag_le
    ((λ e : WrapSlot * (Z * list byte), mkWrap group e.2.1 e.1.2 e.2.2) <$>
       filter (λ e : WrapSlot * (Z * list byte), e.1.1 = group) (map_to_list (wr_current t))).

Definition sweep_prior (t : Wraps) (now : Z) : Z * Wraps :=
  let kept := filter (λ e : WrapSlot * PriorRow, now < pr_expires e.2) (wr_prior t) in
  (Z.of_nat (size (wr_prior t) - size kept), mkWraps (wr_groups t) (wr_current t) kept).

(** One of the two deletes of [forget]. *)
Definition named (group : list byte) (tags : list (list byte)) (s : WrapSlot) : Prop := s.1 = group ∧ s.2 ∈ tags.
#[global] Instance named_dec group tags s : Decision (named group tags s).
Proof. unfold named. apply _. Defined.
Definition forget_in {A} (m : gmap WrapSlot A) (group : list byte) (tags : list (list byte)) : gmap WrapSlot A :=
  filter (λ e : WrapSlot * A, ¬ named group tags e.1) m.

(** Two statements with no transaction around them: other steps may come
    between, so [wrap_step] takes them one at a time. *)
Definition forget_current (t : Wraps) (group : list byte) (tags : list (list byte)) : Wraps :=
  mkWraps (wr_groups t) (forget_in (wr_current t) group tags) (wr_prior t).
Definition forget_prior (t : Wraps) (group : list byte) (tags : list (list byte)) : Wraps :=
  mkWraps (wr_groups t) (wr_current t) (forget_in (wr_prior t) group tags).
Definition forget (t : Wraps) (group : list byte) (tags : list (list byte)) : Z * Wraps :=
  match tags with
  | [] => (0, t)
  | _ :: _ =>
      let t1 := forget_current t group tags in
      let t2 := forget_prior t1 group tags in
      (Z.of_nat (size (wr_current t) - size (wr_current t1) + (size (wr_prior t1) - size (wr_prior t2))), t2)
  end.

(** ** The handler *)
Definition wrap_refusal (code : ErrorCode) : Frame := Frame.Error (FrameError_new code).

Definition publish_wrap (tables : option Tables) (session : Session) (t : Wraps) (body : list byte) (now : Z) :
    Frame * Wraps :=
  match wrap_decode body with
  | Err e => (wrap_refusal (wrap_error_code e), t)
  | Ok w =>
      match authorize_group tables session (rw_group w) with
      | Err code => (wrap_refusal code, t)
      | Ok _ =>
          match wrap_publish t w now with
          | (Ok _, t) => (Frame.Wrap (rw_tag w), t)
          | (Err (WrapRefused e), t) => (wrap_refusal (wrap_error_code e), t)
          | (Err WrapDatabase, t) => (wrap_refusal Backpressure, t)
          end
      end
  end.

(** ** What happens to the tables, from any socket in any order *)
Inductive wrap_step : Wraps → Wraps → Prop :=
| wrap_step_publish t w now : wrap_step t (snd (wrap_publish t w now))
| wrap_step_raced t w now :
    publishable w = Ok tt → wrap_step t (snd (publish_found None t w now))
| wrap_step_group t g : wrap_step t (mkWraps ({[g]} ∪ wr_groups t) (wr_current t) (wr_prior t))
| wrap_step_sweep t now : wrap_step t (snd (sweep_prior t now))
| wrap_step_forget_current t group tags : wrap_step t (forget_current t group tags)
| wrap_step_forget_prior t group tags : wrap_step t (forget_prior t group tags).
Definition no_wraps : Wraps := mkWraps ∅ ∅ ∅.

(** ** The codec is exact *)
Definition wrap_shape (w : RecoveryWrap) : Prop :=
  vec_ok (rw_group w) ∧ is_u64 (rw_epoch w) ∧ vec_ok (rw_tag w) ∧ vec_ok (rw_ct w).

#[global] Instance wrap_codec : WireCodec wrap_shape wrap_encode decode_wrap.
Proof.
  split.
  - intros [g e t c] Hwf. unfold wrap_shape in Hwf. cbn in Hwf. destruct_and! Hwf.
    unfold decode_wrap, wrap_encode. cbn [rw_group rw_epoch rw_tag rw_ct]. accept_record.
  - intros r x r' Hd. unfold decode_wrap in Hd. do 5 sound_step Hd. injection Hd as <- <-.
    split; [unfold wrap_shape; cbn; by split_and!|].
    unfold wrap_encode. cbn [rw_group rw_epoch rw_tag rw_ct]. sound_chain.
Qed.

Definition wrap_wf (w : RecoveryWrap) : Prop :=
  length (rw_group w) = WRAP_GROUP_BYTES ∧ length (rw_tag w) = TAG_BYTES ∧ is_u64 (rw_epoch w)
  ∧ 0 < len (rw_ct w) ≤ MAX_WRAP_BYTES.

Lemma wrap_check_ok w :
  wrap_check w = Ok tt ↔ length (rw_group w) = WRAP_GROUP_BYTES ∧ length (rw_tag w) = TAG_BYTES
    ∧ 0 < len (rw_ct w) ≤ MAX_WRAP_BYTES.
Proof.
  unfold wrap_check. destruct (Nat.eqb_spec (length (rw_group w)) WRAP_GROUP_BYTES); cbn; [|naive_solver].
  destruct (Nat.eqb_spec (length (rw_tag w)) TAG_BYTES); cbn; [|naive_solver].
  destruct (rw_ct w) as [|b bs] eqn:Hc; [unfold len; cbn; split; [done|lia]|].
  destruct (Z.ltb_spec MAX_WRAP_BYTES (len (b :: bs))); unfold len in *; cbn in *; split; try done; lia.
Qed.

(** The wrap decoder accepts exactly the canonical encodings of wraps with a
    32-byte group, a 32-byte tag and a ciphertext of 1 to 262144 bytes: anything
    else, however close, is refused before it can occupy a slot, and what it
    accepts encodes back to the same bytes. *)
Theorem wrap_decode_exact bs w : wrap_decode bs = Ok w ↔ wrap_wf w ∧ wrap_encode w = bs.
Proof.
  unfold wrap_decode, wrap_wf. split.
  - intros Hd. apply result_bind_ok in Hd as (w' & Hp & Hd). apply result_bind_ok in Hd as ([] & Hc & [= ->]).
    destruct (parse_canonical WrapMalformed wrap_shape wrap_encode _ _ _ Hp) as [Hs Henc].
    apply wrap_check_ok in Hc. unfold wrap_shape in Hs. naive_solver.
  - intros [(Hg & Ht & He & Hc) <-].
    assert (wrap_shape w) as Hs.
    { unfold wrap_shape, vec_ok, len, U64_MAX, MAX_WRAP_BYTES, WRAP_GROUP_BYTES, TAG_BYTES in *. split_and!; try done; lia. }
    rewrite (parse_encode WrapMalformed wrap_shape wrap_encode _ w Hs). cbn [result_bind].
    by rewrite (proj2 (wrap_check_ok w)).
Qed.

(** ** The slots *)
Record wraps_ok (t : Wraps) : Prop := {
  wo_row : ∀ s e ct, wr_current t !! s = Some (e, ct) →
    s.1 ∈ wr_groups t ∧ e ≤ I64_MAX ∧ length s.2 = TAG_BYTES ∧ 0 < len ct ≤ MAX_WRAP_BYTES;
  wo_tag : ∀ s s', is_Some (wr_current t !! s) → is_Some (wr_current t !! s') → s.2 = s'.2 → s = s'
}.

Lemma tag_elsewhere_false t s :
  tag_elsewhere t s = false → ∀ s', is_Some (wr_current t !! s') → s'.2 = s.2 → s'.1 = s.1.
Proof.
  unfold tag_elsewhere. intros Hf s' [r Hr] Ht. destruct (decide (s'.1 = s.1)) as [|Hne]; [done|].
  exfalso. apply not_true_iff_false in Hf. apply Hf, existsb_exists. exists (s', r). split.
  - by apply list_elem_of_In, elem_of_map_to_list.
  - cbn. by rewrite bool_decide_eq_true_2, bool_decide_eq_false_2.
Qed.

(** What one publication does to the tables, with or without the race. *)
Variant publish_spec (t : Wraps) (w : RecoveryWrap) (now : Z) :
    result WrapStoreError WrapPublished * Wraps → Prop :=
| publish_failed e : publish_spec t w now (Err e, t)
| publish_created :
    publishable w = Ok tt → wr_current t !! slot w = None → tag_elsewhere t (slot w) = false →
    rw_group w ∈ wr_groups t →
    publish_spec t w now
      (Ok Created, mkWraps (wr_groups t) (<[slot w := (rw_epoch w, rw_ct w)]> (wr_current t)) (wr_prior t))
| publish_replaced e ct :
    publishable w = Ok tt → wr_current t !! slot w = Some (e, ct) → e < rw_epoch w →
    publish_spec t w now
      (Ok (Replaced e), mkWraps (wr_groups t) (<[slot w := (rw_epoch w, rw_ct w)]> (wr_current t))
         (<[slot w := mkPrior e ct (now + PRIOR_RETENTION_DAYS * DAY_MS)]> (wr_prior t))).

Lemma publish_found_cases t w now found :
  publishable w = Ok tt → found = None ∨ found = wr_current t !! slot w →
  publish_spec t w now (publish_found found t w now).
Proof.
  intros Hp Hf. unfold publish_found. destruct found as [[e ct]|].
  - destruct Hf as [|Hf]; [done|]. unfold check_replacement. destruct (Z.ltb_spec e (rw_epoch w)).
    + by apply publish_replaced.
    + constructor.
  - destruct (wr_current t !! slot w) as [[e ct]|] eqn:Hc; [constructor|].
    destruct (tag_elsewhere t (slot w)) eqn:Ht; [constructor|].
    destruct (bool_decide (rw_group w ∈ wr_groups t)) eqn:Hg; [|constructor].
    apply bool_decide_eq_true in Hg. by apply publish_created.
Qed.

Lemma wrap_publish_cases t w now : publish_spec t w now (wrap_publish t w now).
Proof.
  unfold wrap_publish. destruct (publishable w) as [[]|e] eqn:Hp; [|constructor].
  apply publish_found_cases; [done|by right].
Qed.

Lemma publishable_bounds w :
  publishable w = Ok tt → rw_epoch w ≤ I64_MAX ∧ length (rw_tag w) = TAG_BYTES ∧ 0 < len (rw_ct w) ≤ MAX_WRAP_BYTES.
Proof.
  unfold publishable. destruct (wrap_check w) as [[]|e] eqn:Hc; [|done].
  destruct (Z.leb_spec (rw_epoch w) I64_MAX); [|done]. intros _. apply wrap_check_ok in Hc. by destruct_and! Hc.
Qed.

Lemma publish_spec_ok t w now r : wraps_ok t → publish_spec t w now r → wraps_ok (snd r).
Proof.
  intros [Hrow Htag] Hspec.
  assert (∀ prior, publishable w = Ok tt → rw_group w ∈ wr_groups t →
    (∀ s', s' ≠ slot w → is_Some (wr_current t !! s') → s'.2 ≠ rw_tag w) →
    wraps_ok (mkWraps (wr_groups t) (<[slot w := (rw_epoch w, rw_ct w)]> (wr_current t)) prior)) as Hput.
  { intros prior (He & Ht & Hc)%publishable_bounds Hg Hfree. split; cbn [wr_groups wr_current].
    - intros s e' ct'. destruct (decide (s = slot w)) as [->|]; [|rewrite lookup_insert_ne by done; apply Hrow].
      rewrite lookup_insert_eq. by intros [= <- <-].
    - intros s s'. destruct (decide (s = slot w)) as [->|Hs], (decide (s' = slot w)) as [->|Hs'];
        rewrite ?lookup_insert_eq, ?lookup_insert_ne by done; try done; [| |apply Htag].
      + intros _ Hs2 Heq. by destruct (Hfree s').
      + intros Hs2 _ Heq. by destruct (Hfree s). }
  destruct Hspec as [e|Hp Hc Ht Hg|e ct Hp Hc Hlt]; cbn [snd]; [done|..].
  - apply (Hput _ Hp Hg). intros s' Hne Hs' Heq. apply Hne.
    rewrite (surjective_pairing s'). unfold slot. by rewrite (tag_elsewhere_false _ _ Ht s' Hs' Heq), Heq.
  - apply (Hput _ Hp).
    + by apply (Hrow _ _ _ Hc).
    + intros s' Hne Hs' Heq. apply Hne. by apply Htag; [|eexists|].
Qed.

Lemma forget_in_lookup {A} (m : gmap WrapSlot A) group tags s :
  forget_in m group tags !! s = if decide (named group tags s) then None else m !! s.
Proof.
  unfold forget_in. case_decide as Hn.
  - apply map_lookup_filter_None. right. intros x _ Hx. by apply Hx.
  - destruct (m !! s) as [x|] eqn:Hs.
    + by apply map_lookup_filter_Some.
    + apply map_lookup_filter_None. by left.
Qed.

Lemma forget_in_some {A} (m : gmap WrapSlot A) group tags s x :
  forget_in m group tags !! s = Some x → m !! s = Some x.
Proof. rewrite forget_in_lookup. by case_decide. Qed.

Lemma wrap_step_ok t t' : wraps_ok t → wrap_step t t' → wraps_ok t'.
Proof.
  intros Hok Hs. destruct Hs as [t w now|t w now Hp|t g|t now|t group tags|t group tags].
  - eapply publish_spec_ok; [done|apply wrap_publish_cases].
  - eapply publish_spec_ok; [done|apply publish_found_cases; [done|by left]].
  - destruct Hok as [Hrow Htag]. split; [|done]. cbn. intros s e ct Hs. specialize (Hrow s e ct Hs). set_solver.
  - by destruct Hok.
  - destruct Hok as [Hrow Htag]. split; cbn.
    + intros s e ct Hs%forget_in_some. by apply Hrow.
    + intros s s' [r Hs%forget_in_some] [r' Hs'%forget_in_some]. by apply Htag.
  - by destruct Hok.
Qed.

(** In every state the tables reach, a tag names one group: no two slots of
    different groups share a tag, so the relay cannot join groups by tag, and
    every stored wrap is within bounds and belongs to a group the relay carries. *)
Theorem tag_names_one_group t :
  rtc wrap_step no_wraps t →
  (∀ s s', is_Some (wr_current t !! s) → is_Some (wr_current t !! s') → s.2 = s'.2 → s = s')
  ∧ (∀ s e ct, wr_current t !! s = Some (e, ct) →
       s.1 ∈ wr_groups t ∧ e ≤ I64_MAX ∧ length s.2 = TAG_BYTES ∧ 0 < len ct ≤ MAX_WRAP_BYTES).
Proof.
  intros Hr. assert (∀ a b, rtc wrap_step a b → wraps_ok a → wraps_ok b) as Hgen.
  { induction 1 as [|a b c Hs _ IH]; eauto using wrap_step_ok. }
  assert (wraps_ok no_wraps) as H0.
  { split; cbn; [intros s e ct|intros s s' [r Hs]]; rewrite ?lookup_empty in *; done. }
  destruct (Hgen _ _ Hr H0). done.
Qed.

(** ** A slot only moves forward *)
(** A step after which the slot is still held: anything but forgetting it. *)
Definition keeps_slot (s : WrapSlot) (t t' : Wraps) : Prop := wrap_step t t' ∧ is_Some (wr_current t' !! s).

Lemma publish_spec_advances t w now r s e ct :
  publish_spec t w now r → wr_current t !! s = Some (e, ct) →
  ∃ e' ct', wr_current (snd r) !! s = Some (e', ct') ∧ (e < e' ∨ (e' = e ∧ ct' = ct)).
Proof.
  intros Hspec Hs. destruct Hspec as [err|Hp Hc Ht Hg|e0 ct0 Hp Hc Hlt]; cbn [snd wr_current].
  - by exists e, ct; auto.
  - exists e, ct. rewrite lookup_insert_ne by congruence. auto.
  - destruct (decide (slot w = s)) as [<-|Hne].
    + rewrite lookup_insert_eq. eexists _, _. split; [done|]. left. congruence.
    + exists e, ct. rewrite lookup_insert_ne by done. auto.
Qed.

Lemma keeps_slot_advances s t t' e ct :
  keeps_slot s t t' → wr_current t !! s = Some (e, ct) →
  ∃ e' ct', wr_current t' !! s = Some (e', ct') ∧ (e < e' ∨ (e' = e ∧ ct' = ct)).
Proof.
  intros [Hs Hkeep] Hc. destruct Hs as [t w now|t w now Hp|t g|t now|t group tags|t group tags];
    [..|cbn; by eauto 6].
  - eapply publish_spec_advances; [apply wrap_publish_cases|done].
  - eapply publish_spec_advances; [apply publish_found_cases; [done|by left]|done].
  - by eauto 6.
  - by eauto 6.
  - destruct Hkeep as [[e' ct'] Hk]. apply forget_in_some in Hk as Hk'. exists e', ct'. split; [done|].
    rewrite Hc in Hk'. injection Hk' as -> ->. auto.
Qed.

(** A captured wrap can never be put back: once a wrap is stored, and until
    its slot is forgotten, every well-formed wrap for that slot at the same
    epoch or an older one is refused by name and changes nothing, whatever
    other committers, races, sweeps and removals happened in between. *)
Theorem captured_wrap_refused t w now p t1 t2 w' later :
  wrap_publish t w now = (Ok p, t1) → rtc (keeps_slot (slot w)) t1 t2 →
  slot w' = slot w → rw_epoch w' ≤ rw_epoch w → publishable w' = Ok tt →
  ∃ stored, rw_epoch w ≤ stored
    ∧ wrap_publish t2 w' later = (Err (WrapRefused (NotNewer stored (rw_epoch w'))), t2).
Proof.
  intros Hp Hs Hslot He Hp'.
  assert (wr_current t1 !! slot w = Some (rw_epoch w, rw_ct w)) as H1.
  { pose proof (wrap_publish_cases t w now) as Hc. rewrite Hp in Hc. inversion Hc; subst; apply lookup_insert_eq. }
  assert (∃ e ct, wr_current t2 !! slot w = Some (e, ct) ∧ rw_epoch w ≤ e) as (e & ct & H2 & Hle).
  { clear Hp. assert (∃ e ct, wr_current t1 !! slot w = Some (e, ct) ∧ rw_epoch w ≤ e) as Hstart by eauto with lia.
    clear H1. induction Hs as [|a b c Hk _ IH]; [done|]. apply IH. destruct Hstart as (e & ct & Ha & Hle).
    destruct (keeps_slot_advances _ _ _ _ _ Hk Ha) as (e' & ct' & Hb & Hor). exists e', ct'. split; [done|lia]. }
  exists e. split; [done|]. unfold wrap_publish, publish_found, check_replacement. rewrite Hp', Hslot, H2.
  by rewrite (proj2 (Z.ltb_ge _ _)) by lia.
Qed.

(** ** The superseded wrap *)
(** A step that leaves the prior row of [s] alone until [deadline]: a
    publication elsewhere or refused, a sweep before the deadline, and any
    forgetting of other slots. *)
Inductive quiet (s : WrapSlot) (deadline : Z) : Wraps → Wraps → Prop :=
| quiet_elsewhere t w now : slot w ≠ s → quiet s deadline t (snd (wrap_publish t w now))
| quiet_refused t w now e : fst (wrap_publish t w now) = Err e → quiet s deadline t (snd (wrap_publish t w now))
| quiet_raced t w now : publishable w = Ok tt → quiet s deadline t (snd (publish_found None t w now))
| quiet_group t g : quiet s deadline t (mkWraps ({[g]} ∪ wr_groups t) (wr_current t) (wr_prior t))
| quiet_sweep t now : now < deadline → quiet s deadline t (snd (sweep_prior t now))
| quiet_forget_current t group tags : quiet s deadline t (forget_current t group tags)
| quiet_forget_prior t group tags : ¬ named group tags s → quiet s deadline t (forget_prior t group tags).

Lemma quiet_keeps_prior s deadline t t' r :
  deadline ≤ pr_expires r → quiet s deadline t t' → wr_prior t !! s = Some r → wr_prior t' !! s = Some r.
Proof.
  intros Hd Hq Hr. destruct Hq as [t w now Hne|t w now e He|t w now Hp|t g|t now Hn|t group tags|t group tags Hn]; try done.
  - destruct (wrap_publish_cases t w now); cbn; try done. by rewrite lookup_insert_ne.
  - destruct (wrap_publish_cases t w now); done.
  - pose proof (publish_found_cases t w now None Hp (or_introl eq_refl)) as Hc.
    unfold publish_found in *. destruct (wr_current t !! slot w) as [[]|]; [done|]. by destruct (_ || _).
  - cbn. apply map_lookup_filter_Some. split; [done|]. cbn. lia.
  - cbn. rewrite forget_in_lookup. by rewrite decide_False.
Qed.

(** The wrap a replacement supersedes stays readable for thirty days: until
    its slot is replaced again or forgotten, every read before the deadline
    returns it, epoch and ciphertext as they were current, whatever else is
    published and however often the sweep runs; and no read after the deadline
    does, swept or not. *)
Theorem prior_kept_thirty_days t w now e t1 t2 at_ :
  wrap_publish t w now = (Ok (Replaced e), t1) →
  rtc (quiet (slot w) (now + PRIOR_RETENTION_DAYS * DAY_MS)) t1 t2 →
  ∃ ct, wrap_current t (rw_group w) (rw_tag w) = Some (mkWrap (rw_group w) e (rw_tag w) ct) ∧ e < rw_epoch w
    ∧ wrap_prior t2 (rw_group w) (rw_tag w) at_
      = if at_ <? now + PRIOR_RETENTION_DAYS * DAY_MS then Some (mkWrap (rw_group w) e (rw_tag w) ct) else None.
Proof.
  intros Hp Hq. pose proof (wrap_publish_cases t w now) as Hc. rewrite Hp in Hc.
  inversion Hc as [| |e0 ct Hpub Hcur Hlt]; subst. exists ct. unfold wrap_current, wrap_prior. fold (slot w).
  rewrite Hcur. split_and!; [done..|].
  set (row := mkPrior e ct (now + PRIOR_RETENTION_DAYS * DAY_MS)) in *.
  assert (wr_prior t2 !! slot w = Some row) as ->; [|done].
  match type of Hq with rtc _ ?a _ => assert (wr_prior a !! slot w = Some row) as H0 by (apply lookup_insert_eq) end.
  clear Hp Hc. induction Hq as [|a b c Hk _ IH]; [done|]. apply IH. by eapply quiet_keeps_prior.
Qed.

(** ** Forgetting *)
(** Forgetting a departed member's slots is complete and exact: no named slot
    of the group has a current or a prior wrap afterwards, every other slot has
    what it had, and with no tags named nothing changes. *)
Theorem forget_exact t group tags s :
  let t' := snd (forget t group tags) in
  (wr_current t' !! s = if decide (named group tags s) then None else wr_current t !! s)
  ∧ (wr_prior t' !! s = if decide (named group tags s) then None else wr_prior t !! s).
Proof.
  unfold forget. destruct tags as [|tag tags].
  - cbn [snd]. by rewrite !decide_False by (intros [_ Hin]; by apply elem_of_nil in Hin).
  - cbn [snd forget_prior forget_current wr_current wr_prior]. by rewrite !forget_in_lookup.
Qed.

(** ** The handler *)
(** A publisher is answered with its tag exactly when its wrap became
    current: then the session was admitted to the workspace that owns the
    group, the slot holds the wrap sent, and no other slot moved. Every other
    answer is an error and leaves both tables as they were. *)
Theorem publish_wrap_outcome tables session t body now :
  let '(frame, t') := publish_wrap tables session t body now in
  (∃ w ts ws, wrap_decode body = Ok w ∧ frame = Frame.Wrap (rw_tag w)
     ∧ tables = Some ts ∧ authorized_workspace session = Some ws ∧ workspace_of ts (rw_group w) = Some ws
     ∧ wrap_current t' (rw_group w) (rw_tag w) = Some w
     ∧ (∀ s, s ≠ slot w → wr_current t' !! s = wr_current t !! s ∧ wr_prior t' !! s = wr_prior t !! s))
  ∨ (∃ code, frame = Frame.Error (FrameError_new code) ∧ t' = t).
Proof.
  unfold publish_wrap. destruct (wrap_decode body) as [w|e]; [|right; by eexists].
  destruct (authorize_group tables session (rw_group w)) as [ts|code] eqn:Ha; [|right; by eexists].
  unfold authorize_group in Ha. destruct tables as [ts'|]; [|done].
  destruct (authorized_workspace session) as [ws|] eqn:Hws; [|done].
  destruct (workspace_of ts' (rw_group w)) as [ws'|] eqn:Hof; [|done].
  case_bool_decide; [|done]. injection Ha as ->. subst ws'.
  destruct (wrap_publish_cases t w now) as [[|e]|Hp Hc Ht Hg|e ct Hp Hc Hlt]; [right; by eexists..| |];
    (left; exists w, ts, ws; split_and!; try done;
     [unfold wrap_current; fold (slot w); cbn [wr_current]; rewrite lookup_insert_eq; by destruct w
     |intros s Hs; cbn [wr_current wr_prior]; by rewrite !lookup_insert_ne by done]).
Qed.

(** ** A concrete run *)
Module WrapDemo.
Definition group : list byte := replicate 32 Byte.x01.
Definition stranger : list byte := replicate 32 Byte.x02.
Definition tag : list byte := replicate 32 Byte.x0a.
Definition wrap (epoch : Z) (b : Byte.byte) : RecoveryWrap := mkWrap group epoch tag [b].
Definition carried : Wraps := mkWraps {[group; stranger]} ∅ ∅.
Definition first : Wraps := snd (wrap_publish carried (wrap 4 Byte.x04) 1000).
Definition second : Wraps := snd (wrap_publish first (wrap 7 Byte.x07) 2000).

Lemma first_published : wrap_publish carried (wrap 4 Byte.x04) 1000 = (Ok Created, first).
Proof.
  unfold first. assert (fst (wrap_publish carried (wrap 4 Byte.x04) 1000) = Ok Created) as Hf by (by vm_compute).
  destruct (wrap_publish carried (wrap 4 Byte.x04) 1000) as [r s]. cbn [fst snd] in *. by rewrite Hf.
Qed.
Lemma second_published : wrap_publish first (wrap 7 Byte.x07) 2000 = (Ok (Replaced 4), second).
Proof.
  unfold second. assert (fst (wrap_publish first (wrap 7 Byte.x07) 2000) = Ok (Replaced 4)) as Hf by (by vm_compute).
  destruct (wrap_publish first (wrap 7 Byte.x07) 2000) as [r s]. cbn [fst snd] in *. by rewrite Hf.
Qed.

Lemma second_reachable : rtc wrap_step no_wraps second.
Proof.
  eapply rtc_l; [apply (wrap_step_group no_wraps stranger)|].
  eapply rtc_l; [apply (wrap_step_group _ group)|]. cbn [wr_groups wr_current wr_prior no_wraps].
  assert (mkWraps ({[group]} ∪ ({[stranger]} ∪ ∅)) ∅ ∅ = carried) as -> by (unfold carried; f_equal; set_solver).
  eapply rtc_l; [apply (wrap_step_publish carried (wrap 4 Byte.x04) 1000)|].
  apply rtc_once. apply (wrap_step_publish first (wrap 7 Byte.x07) 2000).
Qed.

Lemma tag_names_one_group_witness :
  (group, tag).1 ∈ wr_groups second ∧ 7 ≤ I64_MAX ∧ length (group, tag).2 = TAG_BYTES ∧ 0 < len [Byte.x07] ≤ MAX_WRAP_BYTES.
Proof.
  destruct (tag_names_one_group second second_reachable) as [_ Ht]. apply (Ht (group, tag) 7 [Byte.x07]).
  unfold second. by vm_compute.
Defined.

Lemma captured_wrap_refused_witness :
  ∃ stored, 4 ≤ stored
    ∧ wrap_publish second (wrap 4 Byte.x04) 3000 = (Err (WrapRefused (NotNewer stored 4)), second).
Proof.
  apply (captured_wrap_refused carried (wrap 4 Byte.x04) 1000 Created first second (wrap 4 Byte.x04) 3000 first_published).
  - apply rtc_once. split; [apply (wrap_step_publish first (wrap 7 Byte.x07) 2000)|].
    exists (7, [Byte.x07]). unfold second. by vm_compute.
  - done.
  - done.
  - by vm_compute.
Defined.

Lemma prior_kept_thirty_days_witness :
  ∃ ct, wrap_current first group tag = Some (mkWrap group 4 tag ct) ∧ 4 < 7
    ∧ wrap_prior second group tag 5000
      = if 5000 <? 2000 + PRIOR_RETENTION_DAYS * DAY_MS then Some (mkWrap group 4 tag ct) else None.
Proof. exact (prior_kept_thirty_days first (wrap 7 Byte.x07) 2000 4 second second 5000 second_published (rtc_refl _ _)). Defined.

(** One wrap deep: a second replacement a moment later discards a wrap that had
    almost thirty days of retention left. *)
Theorem second_replacement_discards_prior :
  let third := snd (wrap_publish second (wrap 9 Byte.x09) 2001) in
  wrap_prior second group tag 2001 = Some (mkWrap group 4 tag [Byte.x04])
  ∧ wrap_prior third group tag 2001 = Some (mkWrap group 7 tag [Byte.x07]).
Proof. by vm_compute. Qed.

(** Two refusals that no retry can clear are answered as a busy relay: a tag
    another group holds, and an epoch past the column's range. *)
Theorem permanent_refusals_are_backpressure :
  fst (wrap_publish second (mkWrap stranger 1 tag [Byte.x01]) 3000) = Err WrapDatabase
  ∧ fst (wrap_publish second (mkWrap group (I64_MAX + 1) tag [Byte.x01]) 3000) = Err WrapDatabase.
Proof. by vm_compute. Qed.
End WrapDemo.
