(* ===== verification/InviteCode.v ===== *)
(** * One-time invite codes

    Models [backend/wealdrelay/src/invite/code.rs]: the 60-bit code, its twelve
    Crockford symbols, the grouped form an admin reads out, the parser for what
    a human types, and the comparison of a presented code with the stored hash.
    Text is a list of code points. Argon2id is a parameter: the [argon2] crate's
    [hash_password_into] at the fixed costs, [None] where it refuses. *)

From Stdlib Require Import ZArith Lia String.
From stdpp Require Import base tactics numbers list.
From S2P Require Import Prelude Push.

Open Scope Z_scope.

Definition ALPHABET : list Z := map byte_to_Z (ascii_bytes "0123456789ABCDEFGHJKMNPQRSTVWXYZ"%string).
Definition CODE_SYMBOLS : nat := 12.
Definition CODE_BITS : Z := 60.
Definition GROUP_SYMBOLS : nat := 4.
Definition MAX_FAILURES : Z := 5.
Definition MAX_TOKEN_FAILURES : Z := 25.
Definition COOLDOWN_SECONDS : Z := 15 * 60.
Definition CODE_HASH_BYTES : nat := 32.

Inductive CodeError : Type :=
| WrongLength (symbols : nat)
| NotASymbol (character : Z)
| HashError.

(** [Code], the 60-bit value. *)
Definition Code : Type := Z.

Definition from_bits (value : Z) : Code := Z.land value (Z.shiftl 1 CODE_BITS - 1).

Definition symbol_at (code : Code) (index : nat) : Z :=
  nth (Z.to_nat (Z.land (Z.shiftr code (5 * Z.of_nat index)) 31)) ALPHABET 0.

Definition symbols (code : Code) : list Z := map (symbol_at code) (rev (seq 0 CODE_SYMBOLS)).

Definition HYPHEN : Z := 45.
Definition SPACE : Z := 32.

(** [chunks(GROUP_SYMBOLS)] joined by hyphens. *)
Definition grouped (code : Code) : list Z :=
  let s := symbols code in
  take 4 s ++ HYPHEN :: take 4 (drop 4 s) ++ HYPHEN :: drop 8 s.

Definition to_ascii_uppercase (c : Z) : Z := if (97 <=? c) && (c <=? 122) then c - 32 else c.

Fixpoint position (x : Z) (l : list Z) : option Z :=
  match l with
  | [] => None
  | y :: rest => if y =? x then Some 0 else Z.succ <$> position x rest
  end.

(** [upper as u8] keeps the low eight bits of the code point. *)
Definition normalise (character : Z) : result CodeError Z :=
  let upper := to_ascii_uppercase character in
  let upper :=
    if (upper =? 73) || (upper =? 76) then 49      (* I, L are read as 1 *)
    else if upper =? 79 then 48                    (* O is read as 0 *)
    else upper in
  match position (upper mod 256) ALPHABET with
  | Some index => Ok index
  | None => Err (NotASymbol character)
  end.

Fixpoint parse_from (value : Z) (symbols : nat) (input : list Z) : result CodeError Code :=
  match input with
  | [] => if (symbols =? CODE_SYMBOLS)%nat then Ok value else Err (WrongLength symbols)
  | character :: rest =>
      if (character =? HYPHEN) || (character =? SPACE) then parse_from value symbols rest
      else
        let? symbol := normalise character in
        if (CODE_SYMBOLS <? S symbols)%nat then Err (WrongLength (S symbols))
        else parse_from (Z.lor ((Z.shiftl value 5) mod 2 ^ 64) symbol) (S symbols) rest
  end.

Definition parse_code (input : list Z) : result CodeError Code := parse_from 0 0 input.

(** Argon2id over the symbols, salted with the token. *)
Class Argon2 : Type := argon2id : list Z → list byte → option (list byte).

Section verify.
Context `{Argon2}.

Definition hash_code (code : Code) (token : list byte) : result CodeError (list byte) :=
  match argon2id (symbols code) token with Some h => Ok h | None => Err HashError end.

(** [zip] stops at the shorter list. *)
Fixpoint difference (l r : list byte) (acc : Z) : Z :=
  match l, r with
  | a :: l, b :: r => difference l r (Z.lor acc (Z.lxor (byte_to_Z a) (byte_to_Z b)))
  | _, _ => acc
  end.
Definition constant_time_eq (l r : list byte) : bool := difference l r 0 =? 0.

Definition verify_code (code : Code) (token stored : list byte) : bool :=
  match hash_code code token with
  | Err _ => false
  | Ok computed => (length stored =? CODE_HASH_BYTES)%nat && constant_time_eq computed stored
  end.
End verify.

(** ** The comparison *)
Lemma lor_zero a b : 0 ≤ a → 0 ≤ b → Z.lor a b = 0 ↔ a = 0 ∧ b = 0.
Proof. intros Ha Hb. split; [apply Z.lor_eq_0_iff | intros [-> ->]; done]. Qed.

Lemma difference_zero l r acc :
  0 ≤ acc → length l = length r → difference l r acc = 0 ↔ acc = 0 ∧ l = r.
Proof.
  revert r acc. induction l as [|a l IH]; intros [|b r] acc Hacc Hlen; simpl; try done; [naive_solver|].
  pose proof (byte_to_Z_range a). pose proof (byte_to_Z_range b).
  assert (0 ≤ Z.lxor (byte_to_Z a) (byte_to_Z b)) by (apply Z.lxor_nonneg; lia).
  rewrite IH; [|by apply Z.lor_nonneg | simpl in Hlen; lia].
  rewrite lor_zero, Z.lxor_eq_0_iff by lia. split.
  - intros [[-> Hab] ->]. by apply byte_to_Z_inj in Hab as ->.
  - by intros [-> [= -> ->]].
Qed.

(** The constant-time comparison is equality: a presented code is accepted
    exactly when Argon2id of its symbols under the token is the stored hash. *)
Theorem verify_code_is_equality `{Argon2} code token stored :
  (∀ h, argon2id (symbols code) token = Some h → length h = CODE_HASH_BYTES) →
  verify_code code token stored = bool_decide (argon2id (symbols code) token = Some stored).
Proof.
  intros Hw. unfold verify_code, hash_code. destruct (argon2id (symbols code) token) as [h|]; [|done].
  specialize (Hw h eq_refl). apply Bool.eq_iff_eq_true.
  rewrite andb_true_iff, Nat.eqb_eq, bool_decide_eq_true. unfold constant_time_eq.
  rewrite Z.eqb_eq. split.
  - intros [Hl Hd]. apply difference_zero in Hd as [_ ->]; [done | done | congruence].
  - intros [= ->]. split; [done|]. apply difference_zero; [done | done |]. done.
Qed.

(** ** Printing and parsing *)
Definition separator (c : Z) : bool := (c =? HYPHEN) || (c =? SPACE).

Lemma alphabet_normalises d : 0 ≤ d < 32 →
  normalise (nth (Z.to_nat d) ALPHABET 0) = Ok d ∧ separator (nth (Z.to_nat d) ALPHABET 0) = false.
Proof.
  intros Hd.
  assert (forallb (λ n, match normalise (nth n ALPHABET 0) with
                        | Ok d => (d =? Z.of_nat n) && negb (separator (nth n ALPHABET 0)) | Err _ => false end)
            (seq 0 32) = true) as Hall by (by vm_compute).
  rewrite forallb_forall in Hall. specialize (Hall (Z.to_nat d)).
  rewrite in_seq in Hall. specialize (Hall ltac:(lia)).
  destruct (normalise _) as [v|]; [|done]. apply andb_true_iff in Hall as [Hv Hs%negb_true_iff].
  apply Z.eqb_eq in Hv. split; [|done]. f_equal. lia.
Qed.

Lemma symbol_digit code i :
  normalise (symbol_at code i) = Ok (Z.land (Z.shiftr code (5 * Z.of_nat i)) 31) ∧ separator (symbol_at code i) = false.
Proof.
  apply alphabet_normalises. change 31 with (Z.ones 5). rewrite Z.land_ones by lia.
  apply Z.mod_pos_bound. lia.
Qed.

Lemma shift_in code k :
  0 ≤ code < 2 ^ 60 → 0 ≤ k ≤ 11 →
  Z.lor (Z.shiftl (Z.shiftr code (5 * (k + 1))) 5 mod 2 ^ 64) (Z.land (Z.shiftr code (5 * k)) 31) = Z.shiftr code (5 * k).
Proof.
  intros Hc Hk. change 31 with (Z.ones 5). rewrite Z.land_ones by lia.
  replace (Z.shiftr code (5 * (k + 1))) with (Z.shiftr (Z.shiftr code (5 * k)) 5)
    by (rewrite Z.shiftr_shiftr by lia; f_equal; lia).
  set (x := Z.shiftr code (5 * k)).
  assert (0 ≤ x < 2 ^ 60) as Hx.
  { unfold x. rewrite Z.shiftr_div_pow2 by lia. split; [apply Z.div_pos; [lia|apply Z.pow_pos_nonneg; lia]|].
    apply Z.div_lt_upper_bound; [apply Z.pow_pos_nonneg; lia|].
    pose proof (Z.pow_pos_nonneg 2 (5 * k) ltac:(lia) ltac:(lia)). nia. }
  rewrite (Z.shiftr_div_pow2 x 5), (Z.shiftl_mul_pow2 _ 5) by lia.
  pose proof (Z.div_mod x (2 ^ 5) ltac:(lia)). pose proof (Z.mod_pos_bound x (2 ^ 5) ltac:(lia)).
  rewrite Z.mod_small by lia. rewrite <- Z.shiftl_mul_pow2 by lia.
  rewrite lor_shiftl_add by lia. lia.
Qed.

(** The parser over the symbols from index [k] down. *)
Lemma parse_symbols_from code k :
  0 ≤ code < 2 ^ 60 → (k ≤ 12)%nat →
  parse_from (Z.shiftr code (5 * Z.of_nat k)) (12 - k) (map (symbol_at code) (rev (seq 0 k))) = Ok code.
Proof.
  intros Hc. induction k as [|k IH]; intros Hk.
  - simpl. by rewrite Z.shiftr_0_r.
  - rewrite seq_S, rev_app_distr. simpl map. cbn [parse_from].
    destruct (symbol_digit code k) as [Hn Hs]. unfold separator in Hs. rewrite Hs, Hn. cbn [result_bind].
    replace (S (12 - S k)) with (12 - k)%nat by lia.
    destruct (Nat.ltb_spec CODE_SYMBOLS (12 - k)); [unfold CODE_SYMBOLS in *; lia|].
    rewrite Nat2Z.inj_succ, <- Z.add_1_r, shift_in by lia. apply IH. lia.
Qed.

Lemma parse_skips value n input :
  parse_from value n input = parse_from value n (List.filter (λ c, negb (separator c)) input).
Proof.
  revert value n. induction input as [|c input IH]; intros value n; [done|]. simpl.
  fold (separator c). destruct (separator c) eqn:Hs; simpl; [apply IH|]. fold (separator c). rewrite Hs.
  destruct (normalise c); simpl; [|done]. case_match; [done | apply IH].
Qed.

Lemma symbols_no_separator code : List.filter (λ c, negb (separator c)) (symbols code) = symbols code.
Proof.
  unfold symbols. induction (rev (seq 0 CODE_SYMBOLS)) as [|i l IH]; [done|]. simpl.
  rewrite (proj2 (symbol_digit code i)). simpl. by rewrite IH.
Qed.

Lemma grouped_symbols code : List.filter (λ c, negb (separator c)) (grouped code) = symbols code.
Proof.
  transitivity (List.filter (λ c, negb (separator c)) (symbols code)); [|apply symbols_no_separator].
  unfold grouped. generalize (symbols code). intros s.
  rewrite List.filter_app. change (HYPHEN :: ?l) with ([HYPHEN] ++ l). simpl.
  rewrite List.filter_app. simpl. rewrite <- !List.filter_app. f_equal.
  change 8%nat with (4 + 4)%nat. rewrite <- drop_drop. by rewrite !take_drop.
Qed.

(** Every 60-bit code survives being read out and typed back, ungrouped or in
    the hyphenated form. *)
Theorem code_roundtrip code :
  0 ≤ code < 2 ^ CODE_BITS →
  parse_code (symbols code) = Ok code ∧ parse_code (grouped code) = Ok code.
Proof.
  unfold CODE_BITS. intros Hc. assert (parse_code (symbols code) = Ok code) as Hp.
  { pose proof (parse_symbols_from code 12 Hc ltac:(lia)) as Hp.
    assert (Z.shiftr code (5 * Z.of_nat 12) = 0) as Hz
      by (change (5 * Z.of_nat 12) with 60; rewrite Z.shiftr_div_pow2, Z.div_small by lia; done).
    rewrite Hz in Hp. exact Hp. }
  split; [done|]. unfold parse_code in *. by rewrite parse_skips, grouped_symbols.
Qed.

Lemma code_roundtrip_witness : parse_code (grouped 1152921504606846975) = Ok 1152921504606846975.
Proof. refine (proj2 (code_roundtrip 1152921504606846975 _)). unfold CODE_BITS. lia. Defined.

(** The parser takes a code point by its low byte: twelve capital I with a dot
    above (U+0130) are the code of twelve zeros. *)
Lemma non_ascii_spelling : parse_code (replicate 12 304) = parse_code (replicate 12 48).
Proof. by vm_compute. Qed.

#[local] Instance flat_argon2 : Argon2 := λ _ _, Some (replicate 32 Byte.x00).

Lemma verify_code_is_equality_witness : verify_code 5 [] (replicate 32 Byte.x00) = true.
Proof.
  rewrite verify_code_is_equality; [by apply bool_decide_eq_true|]. intros h Hh.
  change (Some (replicate 32 Byte.x00) = Some h) in Hh. by injection Hh as <-.
Defined.
