(* ===== verification/InviteRecord.v ===== *)
(** * The invite record

    Models [backend/wealdrelay/src/invite/mod.rs]: the record an admit-holding
    device signs, its canonical encoding, and [judge], the rules a record has
    to pass before the relay stores it. Nothing here opens a bundle. *)

From Stdlib Require Import ZArith Lia String.
From stdpp Require Import base tactics numbers sets sorting list.
From S2P Require Import Prelude Cbor Push Frame Crypto Access.

Open Scope Z_scope.

Definition TOKEN_BYTES : nat := 16.
Definition MAX_USES : Z := 64.
Definition MAX_SCOPES : nat := 256.
Definition MAX_CAPS : nat := 64.
Definition MAX_BUNDLE_BYTES : Z := 256 * 1024.

Definition CAPABILITIES : list (list byte) := map ascii_bytes
  ["chat.read"; "chat.write"; "ticket.read"; "ticket.write"; "ticket.create"; "git.patch.propose";
   "media.write"; "admit"; "roster.revoke"; "admin"]%string.
Definition TRANSITION_PREFIX : list byte := ascii_bytes "ticket.transition:"%string.
Definition ADMIN_CAP : list byte := ascii_bytes "admin"%string.

Record EncBundle : Type := mkEncBundle { eb_group : list byte; eb_epoch : Z; eb_ct : list byte }.

Record Invite : Type := mkInvite {
  iv_token : list byte;
  iv_workspace : list byte;
  iv_issuer : list byte;
  iv_issued_at : Z;
  iv_expires : Z;
  iv_uses : Z;
  iv_code_hash : list byte;
  iv_scopes : list (list byte);
  iv_caps : list (list byte);
  iv_update_pub : list byte;
  iv_bundles : list EncBundle;
  iv_sig : list byte
}.

Inductive InviteError : Type :=
| InviteEncoding (error : CborError)
| TooManyScopes | TooManyCaps | UnsortedScopes | UnsortedCaps
| UnknownCapability (name : list byte)
| UsesOutOfRange | ExpiryNotAfterIssue
| BundleMismatch | BundleTooLarge | BundleEmpty
| MissingWorkspaceRoot | ScopelessAndNotBootstrap | BootstrapCapsWrong
| InviteBadSignature | InviteExpired.

Definition invite_error_code (e : InviteError) : ErrorCode :=
  match e with
  | InviteEncoding _ | InviteBadSignature => NoncanonicalCbor
  | TooManyScopes | TooManyCaps | UnsortedScopes | UnsortedCaps | UnknownCapability _ | UsesOutOfRange
  | ExpiryNotAfterIssue | BundleMismatch | BundleTooLarge | BundleEmpty | BootstrapCapsWrong => MalformedHeader
  | MissingWorkspaceRoot | ScopelessAndNotBootstrap | InviteExpired => WriterNotInAccessSet
  end.

(** The one answer a joiner gets when a redemption does not proceed. *)
Definition UNAVAILABLE : ErrorCode := SeatsExhausted.

(** ** Encoding *)
Definition encode_bundle (b : EncBundle) : list byte :=
  array [bytes (eb_group b); uint (eb_epoch b); bytes (eb_ct b)].
Definition encode_bundles (bundles : list EncBundle) : list byte := array (map encode_bundle bundles).

(** The eleven signed fields. *)
Definition invite_items (i : Invite) : list (list byte) :=
  [bytes (iv_token i); bytes (iv_workspace i); bytes (iv_issuer i); uint (iv_issued_at i);
   uint (iv_expires i); uint (iv_uses i); bytes (iv_code_hash i); encode_list (iv_scopes i);
   encode_list (iv_caps i); bytes (iv_update_pub i); encode_bundles (iv_bundles i)].
Definition invite_digest_input (i : Invite) : list byte := array (invite_items i).
Definition invite_encode (i : Invite) : list byte := array (invite_items i ++ [bytes (iv_sig i)]).

(** ** Decoding *)
Abbreviation ilift := (rd_map_err InviteEncoding).

Definition read_group_list : rd InviteError (list (list byte)) :=
  count <- ilift rd_array_header ;;
  if (MAX_SCOPES <? count)%nat then rd_fail TooManyScopes else rd_times count (ilift (rd_bytes_of 32)).

Definition read_cap_list : rd InviteError (list (list byte)) :=
  count <- ilift rd_array_header ;;
  if (MAX_CAPS <? count)%nat then rd_fail TooManyCaps else rd_times count (ilift rd_bytes).

Definition read_bundle : rd InviteError EncBundle :=
  ilift (rd_array 3) ;;;
  group <- ilift (rd_bytes_of 32) ;;
  epoch <- ilift rd_uint ;;
  ct <- ilift rd_bytes ;;
  if MAX_BUNDLE_BYTES <? len ct then rd_fail BundleTooLarge else rd_ret (mkEncBundle group epoch ct).

Definition read_bundles : rd InviteError (list EncBundle) :=
  count <- ilift rd_array_header ;;
  if (MAX_SCOPES <? count)%nat then rd_fail TooManyScopes else rd_times count read_bundle.

Definition decode_invite : rd InviteError Invite :=
  ilift (rd_array 12) ;;;
  token <- ilift (rd_bytes_of 16) ;;
  workspace <- ilift (rd_bytes_of 32) ;;
  issuer <- ilift (rd_bytes_of 32) ;;
  issued_at <- ilift rd_uint ;;
  expires <- ilift rd_uint ;;
  uses <- ilift rd_u8 ;;
  code_hash <- ilift (rd_bytes_of 32) ;;
  scopes <- read_group_list ;;
  caps <- read_cap_list ;;
  update_pub <- ilift (rd_bytes_of 32) ;;
  bundles <- read_bundles ;;
  sig <- ilift (rd_bytes_of 64) ;;
  rd_ret (mkInvite token workspace issuer issued_at expires uses code_hash scopes caps update_pub bundles sig).

Definition invite_decode (bs : list byte) : result InviteError Invite := parse InviteEncoding decode_invite bs.

(** ** The rules *)

(** [str::strip_prefix] and [str::split_once("->")], on the bytes of the text. *)
Fixpoint strip_prefix (prefix text : list byte) : option (list byte) :=
  match prefix, text with
  | [], _ => Some text
  | p :: prefix, c :: text => if bool_decide (p = c) then strip_prefix prefix text else None
  | _ :: _, [] => None
  end.
Fixpoint split_arrow (text : list byte) : option (list byte * list byte) :=
  match text with
  | c :: rest =>
      match strip_prefix (ascii_bytes "->"%string) text with
      | Some after => Some ([], after)
      | None => match split_arrow rest with Some (before, after) => Some (c :: before, after) | None => None end
      end
  | [] => None
  end.

Definition hex_digit (n : Z) : byte := byte_of_Z (if n <? 10 then 48 + n else 87 + n).
Definition hex (bs : list byte) : list byte :=
  flat_map (λ b, [hex_digit (byte_to_Z b / 16); hex_digit (byte_to_Z b mod 16)]) bs.

Definition check_capability (cap : list byte) : result InviteError unit :=
  if negb (utf8_valid cap) then Err (UnknownCapability (hex cap))
  else if contains CAPABILITIES cap then Ok tt
  else
    match strip_prefix TRANSITION_PREFIX cap with
    | Some argument =>
        match split_arrow argument with
        | Some (from, to) =>
            if negb (bool_decide (from = [])) && negb (bool_decide (to = [])) then Ok tt
            else Err (UnknownCapability cap)
        | None => Err (UnknownCapability cap)
        end
    | None => Err (UnknownCapability cap)
    end.

Fixpoint check_capabilities (caps : list (list byte)) : result InviteError unit :=
  match caps with
  | [] => Ok tt
  | cap :: rest => let? _ := check_capability cap in check_capabilities rest
  end.

(** The loop of [check_bundles] over the zipped lists. *)
Fixpoint check_bundle_pairs (bundles : list EncBundle) (scopes : list (list byte)) : result InviteError unit :=
  match bundles, scopes with
  | b :: bundles, scope :: scopes =>
      if negb (bool_decide (eb_group b = scope)) then Err BundleMismatch
      else if bool_decide (eb_ct b = []) then Err BundleEmpty
      else if MAX_BUNDLE_BYTES <? len (eb_ct b) then Err BundleTooLarge
      else check_bundle_pairs bundles scopes
  | _, _ => Ok tt
  end.
Definition check_bundles (i : Invite) : result InviteError unit :=
  if negb (length (iv_bundles i) =? length (iv_scopes i))%nat then Err BundleMismatch
  else check_bundle_pairs (iv_bundles i) (iv_scopes i).

Definition invite_check_shape (i : Invite) : result InviteError unit :=
  if (MAX_SCOPES <? length (iv_scopes i))%nat then Err TooManyScopes
  else if (MAX_CAPS <? length (iv_caps i))%nat then Err TooManyCaps
  else if negb (strictly_ascending (iv_scopes i)) then Err UnsortedScopes
  else if negb (strictly_ascending (iv_caps i)) then Err UnsortedCaps
  else
    let? _ := check_capabilities (iv_caps i) in
    if (iv_uses i =? 0) || (MAX_USES <? iv_uses i) then Err UsesOutOfRange
    else if iv_expires i <=? iv_issued_at i then Err ExpiryNotAfterIssue
    else check_bundles i.

Definition check_mandatory_root (i : Invite) (bootstrap : bool) : result InviteError unit :=
  if bool_decide (iv_scopes i = []) then
    if negb bootstrap then Err ScopelessAndNotBootstrap
    else if negb (bool_decide (iv_caps i = [ADMIN_CAP])) then Err BootstrapCapsWrong
    else Ok tt
  else if negb (contains (iv_scopes i) (iv_workspace i)) then Err MissingWorkspaceRoot
  else Ok tt.

Section judge.
Context `{Blake3, Ed25519}.

Definition invite_digest (i : Invite) : list byte := blake3 (invite_digest_input i).

Definition invite_signature_verifies (i : Invite) : bool :=
  verify (iv_issuer i) (invite_digest_input i) (iv_sig i).

Definition invite_judge (i : Invite) (bootstrap : bool) (now_ms : Z) : result InviteError unit :=
  let? _ := invite_check_shape i in
  if negb (invite_signature_verifies i) then Err InviteBadSignature
  else
    let? _ := check_mandatory_root i bootstrap in
    if iv_expires i <=? now_ms then Err InviteExpired else Ok tt.
End judge.

(** ** The codec is exact *)
Definition bundle_wf (b : EncBundle) : Prop :=
  length (eb_group b) = 32%nat ∧ is_u64 (eb_epoch b) ∧ len (eb_ct b) ≤ MAX_BUNDLE_BYTES.
Definition invite_wf (i : Invite) : Prop :=
  length (iv_token i) = 16%nat ∧ length (iv_workspace i) = 32%nat ∧ length (iv_issuer i) = 32%nat
  ∧ is_u64 (iv_issued_at i) ∧ is_u64 (iv_expires i) ∧ is_u8 (iv_uses i) ∧ length (iv_code_hash i) = 32%nat
  ∧ (Forall (λ v, length v = 32%nat) (iv_scopes i) ∧ (length (iv_scopes i) ≤ MAX_SCOPES)%nat)
  ∧ (Forall vec_ok (iv_caps i) ∧ (length (iv_caps i) ≤ MAX_CAPS)%nat)
  ∧ length (iv_update_pub i) = 32%nat
  ∧ (Forall bundle_wf (iv_bundles i) ∧ (length (iv_bundles i) ≤ MAX_SCOPES)%nat)
  ∧ length (iv_sig i) = 64%nat.

#[global] Instance group_list_codec :
  WireCodec (λ l, Forall (λ v, length v = 32%nat) l ∧ (length l ≤ MAX_SCOPES)%nat) encode_list read_group_list.
Proof.
  apply (capped_codec InviteEncoding MAX_SCOPES (λ _, TooManyScopes)); [by vm_compute | apply _ | apply length_bytes_pos].
Qed.
#[global] Instance cap_list_codec :
  WireCodec (λ l, Forall vec_ok l ∧ (length l ≤ MAX_CAPS)%nat) encode_list read_cap_list.
Proof.
  apply (capped_codec InviteEncoding MAX_CAPS (λ _, TooManyCaps)); [by vm_compute | apply _ | apply length_bytes_pos].
Qed.

#[global] Instance bundle_codec : WireCodec bundle_wf encode_bundle read_bundle.
Proof.
  split.
  - intros [g e c] (Hg & He & Hc). cbn [eb_group eb_epoch eb_ct] in *. unfold read_bundle, encode_bundle.
    cbn [eb_group eb_epoch eb_ct].
    assert (vec_ok c) by (unfold vec_ok; etransitivity; [exact Hc | by vm_compute]).
    apply accepts_array_items; [done | by vm_compute | length_items | cbn [concat]]. do 3 accept_field.
    rewrite (proj2 (Z.ltb_ge _ _) Hc). apply accepts_ret.
  - intros r b r' Hd. unfold read_bundle in Hd. do 4 sound_step Hd.
    match type of Hd with context [len ?c] => destruct (Z.ltb_spec MAX_BUNDLE_BYTES (len c)) end; [discriminate|]. injection Hd as <- <-.
    split; [by split|]. unfold encode_bundle. cbn [eb_group eb_epoch eb_ct]. sound_chain.
Qed.

#[global] Instance bundles_codec :
  WireCodec (λ l, Forall bundle_wf l ∧ (length l ≤ MAX_SCOPES)%nat) encode_bundles read_bundles.
Proof.
  apply (capped_codec InviteEncoding MAX_SCOPES (λ _, TooManyScopes));
    [by vm_compute | apply _ | intros; apply length_array_pos].
Qed.

#[global] Instance invite_codec : WireCodec invite_wf invite_encode decode_invite.
Proof.
  split.
  - intros i. destruct i. intros Hwf. unfold invite_wf in Hwf. cbn in Hwf. destruct_and! Hwf.
    unfold decode_invite, invite_encode. cbn -[array encode_list bytes uint encode_bundles rd_array].
    apply accepts_array_items; [done | by vm_compute | unfold encode_list, encode_bundles; length_items |].
    cbn [concat]. do 12 (eapply accepts_field; [apply codec_accepts; first [done | by split]|cbv beta]). apply accepts_ret.
  - intros r i r' Hd. unfold decode_invite in Hd. do 13 sound_step Hd. injection Hd as <- <-.
    split; [unfold invite_wf; cbn; destruct_and!; by split_and!|].
    unfold invite_encode. cbn -[array encode_list bytes uint encode_bundles]. sound_chain.
Qed.

Lemma invite_decode_inv bs i : invite_decode bs = Ok i → invite_wf i ∧ invite_encode i = bs.
Proof. intros Hd. exact (parse_canonical InviteEncoding invite_wf invite_encode _ bs i Hd). Qed.

(** The invite codec is exact: the bytes accepted are the encodings of the
    well-formed records, each of exactly one, so the stored body re-encodes to
    the bytes its issuer signed. *)
Theorem invite_decode_exact bs i : invite_decode bs = Ok i ↔ invite_wf i ∧ invite_encode i = bs.
Proof.
  split.
  - apply invite_decode_inv.
  - intros [Hw <-]. exact (parse_encode InviteEncoding invite_wf invite_encode decode_invite i Hw).
Qed.

(** ** What a signature covers *)
Definition with_sig (i : Invite) (sig : list byte) : Invite :=
  mkInvite (iv_token i) (iv_workspace i) (iv_issuer i) (iv_issued_at i) (iv_expires i) (iv_uses i)
    (iv_code_hash i) (iv_scopes i) (iv_caps i) (iv_update_pub i) (iv_bundles i) sig.

(** The signed fields as a reader, used only to show that the signed bytes
    determine them. *)
Definition read_invite_signed : rd InviteError Invite :=
  ilift (rd_array 11) ;;;
  token <- ilift (rd_bytes_of 16) ;;
  workspace <- ilift (rd_bytes_of 32) ;;
  issuer <- ilift (rd_bytes_of 32) ;;
  issued_at <- ilift rd_uint ;;
  expires <- ilift rd_uint ;;
  uses <- ilift rd_u8 ;;
  code_hash <- ilift (rd_bytes_of 32) ;;
  scopes <- read_group_list ;;
  caps <- read_cap_list ;;
  update_pub <- ilift (rd_bytes_of 32) ;;
  bundles <- read_bundles ;;
  rd_ret (mkInvite token workspace issuer issued_at expires uses code_hash scopes caps update_pub bundles []).

Lemma accepts_invite_signed i :
  invite_wf i → accepts 0 read_invite_signed (invite_digest_input i) (with_sig i []).
Proof.
  destruct i. intros Hwf. unfold invite_wf in Hwf. cbn in Hwf. destruct_and! Hwf.
  unfold read_invite_signed, invite_digest_input, invite_items. cbn -[array encode_list bytes uint encode_bundles rd_array].
  apply accepts_array_items; [done | by vm_compute | unfold encode_list, encode_bundles; length_items |].
  cbn [concat]. do 11 (eapply accepts_field; [apply codec_accepts; first [done | by split]|cbv beta]).
  apply accepts_ret.
Qed.

Lemma invite_digest_input_inj i j :
  invite_wf i → invite_wf j → invite_digest_input i = invite_digest_input j → with_sig i [] = with_sig j [].
Proof.
  intros Hi Hj Heq. pose proof (accepts_invite_signed i Hi [] [] ltac:(simpl; lia)) as H1.
  pose proof (accepts_invite_signed j Hj [] [] ltac:(simpl; lia)) as H2.
  rewrite Heq in H1. revert H1 H2. generalize (with_sig i []) (with_sig j []). congruence.
Qed.

(** ** The rules, declaratively *)
Definition ARROW : list byte := ascii_bytes "->"%string.

(** One of the fixed names, or a transition whose two ends are non-empty, cut
    at the first arrow. *)
Definition capability (cap : list byte) : Prop :=
  utf8_valid cap = true
  ∧ (cap ∈ CAPABILITIES
     ∨ ∃ from to, cap = TRANSITION_PREFIX ++ from ++ ARROW ++ to ∧ from ≠ [] ∧ to ≠ []
         ∧ ∀ a b, from ≠ a ++ ARROW ++ b).

Definition sealed_for (b : EncBundle) (scope : list byte) : Prop :=
  eb_group b = scope ∧ eb_ct b ≠ [] ∧ len (eb_ct b) ≤ MAX_BUNDLE_BYTES.

Definition invite_shape (i : Invite) : Prop :=
  (length (iv_scopes i) ≤ MAX_SCOPES)%nat ∧ (length (iv_caps i) ≤ MAX_CAPS)%nat
  ∧ StronglySorted bytes_lt (iv_scopes i) ∧ StronglySorted bytes_lt (iv_caps i)
  ∧ Forall capability (iv_caps i) ∧ 1 ≤ iv_uses i ≤ MAX_USES ∧ iv_issued_at i < iv_expires i
  ∧ Forall2 sealed_for (iv_bundles i) (iv_scopes i).

Definition rooted (i : Invite) (bootstrap : bool) : Prop :=
  (iv_scopes i = [] ∧ bootstrap = true ∧ iv_caps i = [ADMIN_CAP]) ∨ iv_workspace i ∈ iv_scopes i.

Lemma strip_prefix_spec p t r : strip_prefix p t = Some r ↔ t = p ++ r.
Proof.
  revert t. induction p as [|x p IH]; intros [|y t]; simpl; try (split; congruence); [naive_solver..|].
  case_bool_decide as Hx; [subst; rewrite IH|]; naive_solver.
Qed.

Lemma split_arrow_spec t f s :
  split_arrow t = Some (f, s) ↔ t = f ++ ARROW ++ s ∧ ∀ a b, f ≠ a ++ ARROW ++ b.
Proof.
  revert f s. induction t as [|c t IH]; intros f s.
  { split; [done|]. intros [Hf _]. by destruct f. }
  cbn [split_arrow]. fold ARROW. destruct (strip_prefix ARROW (c :: t)) as [after|] eqn:Hp.
  - apply strip_prefix_spec in Hp. rewrite Hp. split.
    + intros [= <- <-]. split; [done|]. intros a b. by destruct a.
    + change ARROW with [Byte.x2d; Byte.x3e]. intros [Heq Hf].
      destruct f as [|x [|y f]]; simplify_eq/=; [done|]. by destruct (Hf [] f).
  - destruct (split_arrow t) as [[f' s']|] eqn:Ht.
    + pose proof (proj1 (IH f' s') eq_refl) as [-> Hf']. split.
      * intros [= <- <-]. split; [done|]. intros a b Hab. destruct a as [|x a].
        -- simpl in Hab. injection Hab as -> ->. by vm_compute in Hp.
        -- injection Hab as _ Hab. by apply (Hf' a b).
      * intros [Heq Hf]. destruct f as [|x f].
        -- apply (strip_prefix_spec ARROW _ s) in Heq. congruence.
        -- injection Heq as -> Heq. assert (Some (f', s') = Some (f, s)) as [= <- <-]; [|done].
           apply IH. split; [done|]. intros a b ->. by apply (Hf (x :: a) b).
    + split; [done|]. intros [Heq Hf]. destruct f as [|x f].
      * apply (strip_prefix_spec ARROW _ s) in Heq. congruence.
      * injection Heq as -> Heq. exfalso. assert (None = Some (f, s)); [|done].
        apply IH. split; [done|]. intros a b ->. by apply (Hf (x :: a) b).
Qed.

Lemma check_capability_spec cap : check_capability cap = Ok tt ↔ capability cap.
Proof.
  unfold check_capability, capability. destruct (utf8_valid cap); cbn [negb]; [|naive_solver].
  destruct (contains CAPABILITIES cap) eqn:Hc.
  { apply contains_true in Hc. naive_solver. }
  apply contains_false in Hc. split.
  - intros H. destruct (strip_prefix TRANSITION_PREFIX cap) as [arg|] eqn:Hs; [|done].
    apply strip_prefix_spec in Hs. destruct (split_arrow arg) as [[from to]|] eqn:Ha; [|done].
    apply split_arrow_spec in Ha as [-> Hf]. split; [done|]. right. exists from, to.
    repeat case_bool_decide; naive_solver.
  - intros [_ [?|(from & to & Hcap & Hfrom & Hto & Hf)]]; [done|].
    rewrite (proj2 (strip_prefix_spec _ _ _) Hcap).
    rewrite (proj2 (split_arrow_spec (from ++ ARROW ++ to) from to)) by done.
    by rewrite !bool_decide_eq_false_2.
Qed.

Lemma check_capabilities_spec caps : check_capabilities caps = Ok tt ↔ Forall capability caps.
Proof.
  induction caps as [|c caps IH]; simpl; [done|]. rewrite Forall_cons, <- IH, <- check_capability_spec.
  destruct (check_capability c) as [[]|]; simpl; naive_solver.
Qed.

Lemma check_bundle_pairs_spec bs ss :
  length bs = length ss → check_bundle_pairs bs ss = Ok tt ↔ Forall2 sealed_for bs ss.
Proof.
  revert ss. induction bs as [|b bs IH]; intros [|s ss] Hlen; try done. simpl.
  rewrite Forall2_cons, <- IH by (simpl in Hlen; lia). unfold sealed_for.
  destruct (Z.ltb_spec MAX_BUNDLE_BYTES (len (eb_ct b))); repeat case_bool_decide; simpl; split;
    try done; intros; destruct_and?; (done || lia).
Qed.

Lemma check_bundles_spec i : check_bundles i = Ok tt ↔ Forall2 sealed_for (iv_bundles i) (iv_scopes i).
Proof.
  unfold check_bundles. destruct (Nat.eqb_spec (length (iv_bundles i)) (length (iv_scopes i))) as [Hl|Hl]; cbn [negb].
  - by apply check_bundle_pairs_spec.
  - split; [done|]. by intros ?%Forall2_length.
Qed.

Lemma invite_check_shape_spec i : 0 ≤ iv_uses i → invite_check_shape i = Ok tt ↔ invite_shape i.
Proof.
  intros Hu. unfold invite_check_shape, invite_shape.
  rewrite <- check_bundles_spec, <- check_capabilities_spec, <- !strictly_ascending_spec.
  destruct (Nat.ltb_spec MAX_SCOPES (length (iv_scopes i))); [split; [done|lia]|].
  destruct (Nat.ltb_spec MAX_CAPS (length (iv_caps i))); [split; [done|lia]|].
  destruct (strictly_ascending (iv_scopes i)); cbn [negb]; [|naive_solver].
  destruct (strictly_ascending (iv_caps i)); cbn [negb]; [|naive_solver].
  destruct (check_capabilities (iv_caps i)) as [[]|]; cbn [result_bind]; [|naive_solver].
  destruct (Z.eqb_spec (iv_uses i) 0); cbn [orb]; [split; [done|lia]|].
  destruct (Z.ltb_spec MAX_USES (iv_uses i)); [split; [done|lia]|].
  destruct (Z.leb_spec (iv_expires i) (iv_issued_at i)); [split; [done|lia]|].
  split; [|naive_solver]. intros ->. split_and!; (done || lia).
Qed.

Lemma check_mandatory_root_spec i b : check_mandatory_root i b = Ok tt ↔ rooted i b.
Proof.
  unfold check_mandatory_root, rooted. case_bool_decide as Hs.
  - rewrite Hs. destruct b; cbn [negb]; [|set_solver]. case_bool_decide; cbn [negb]; set_solver.
  - destruct (contains (iv_scopes i) (iv_workspace i)) eqn:Hc; cbn [negb].
    + apply contains_true in Hc. naive_solver.
    + apply contains_false in Hc. naive_solver.
Qed.

Section theorems.
Context `{Blake3, Ed25519}.

(** The rules as one iff. *)
Lemma invite_judge_spec i b now :
  0 ≤ iv_uses i →
  invite_judge i b now = Ok tt
  ↔ invite_shape i ∧ invite_signature_verifies i = true ∧ rooted i b ∧ now < iv_expires i.
Proof.
  intros Hu. unfold invite_judge. rewrite <- invite_check_shape_spec, <- check_mandatory_root_spec by done.
  destruct (invite_check_shape i) as [[]|]; cbn [result_bind]; [|naive_solver].
  destruct (invite_signature_verifies i); cbn [negb]; [|naive_solver].
  destruct (check_mandatory_root i b) as [[]|]; cbn [result_bind]; [|naive_solver].
  destruct (Z.leb_spec (iv_expires i) now); split; try done; try lia; naive_solver lia.
Qed.

(** [judge] stores exactly the records the rules describe: bounded, sorted
    scopes and capabilities from the vocabulary, between one and sixty-four
    seats, one sealed bundle per scope in scope order, a signature of the issuer
    over the whole record, the workspace root among the scopes (or the relay's
    own scopeless admin-only bootstrap record), and an expiry after the relay's
    clock. *)
Theorem judge_exact i bootstrap now :
  is_u8 (iv_uses i) →
  invite_judge i bootstrap now = Ok tt
  ↔ invite_shape i ∧ invite_signature_verifies i = true ∧ rooted i bootstrap ∧ now < iv_expires i.
Proof. intros [Hu _]. by apply invite_judge_spec. Qed.

(** The issuer signs the whole record: two decoded records whose signed bytes
    are the same differ in the signature alone, so no seat count, scope, expiry,
    code hash or sealed bundle can be changed under a signature. *)
Theorem signed_bytes_bind_record bs bs' i j :
  invite_decode bs = Ok i → invite_decode bs' = Ok j →
  invite_digest_input i = invite_digest_input j → with_sig i (iv_sig j) = j.
Proof.
  intros [Hi _]%invite_decode_inv [Hj _]%invite_decode_inv Heq.
  pose proof (invite_digest_input_inj i j Hi Hj Heq) as Hs. destruct i, j. cbn in *. by injection Hs as <- <- <- <- <- <- <- <- <- <- <-.
Qed.
End theorems.

(** ** A concrete record *)
Module RecordDemo.
#[local] Instance demo_verify : Ed25519 := toy_verify.
Definition root : list byte := replicate 32 Byte.x01.
Definition key : list byte := replicate 32 Byte.x02.
Definition unsigned_invite : Invite :=
  mkInvite (replicate 16 Byte.x03) root key 1000 2000 2 (replicate 32 Byte.x04) [root] [ascii_bytes "chat.read"%string;
    ascii_bytes "ticket.transition:open->done"%string] (replicate 32 Byte.x05) [mkEncBundle root 7 [Byte.x09]] [].
Definition invite : Invite := with_sig unsigned_invite (toy_sign key (invite_digest_input unsigned_invite)).

Lemma judge_exact_witness :
  1 ≤ iv_uses invite ≤ MAX_USES ∧ iv_workspace invite ∈ iv_scopes invite.
Proof.
  assert (is_u8 (iv_uses invite)) as Hb by (by vm_compute).
  assert (invite_judge invite false 1500 = Ok tt) as Hj by (by vm_compute).
  destruct (proj1 (judge_exact invite false 1500 Hb) Hj) as ((_ & _ & _ & _ & _ & Hu & _) & _ & Hr & _).
  split; [exact Hu|]. destruct Hr as [(Hs & _)|Hr]; [discriminate Hs | exact Hr].
Defined.

Lemma signed_bytes_bind_record_witness :
  with_sig (with_sig invite (replicate 64 Byte.x00)) (iv_sig invite) = invite.
Proof.
  apply (signed_bytes_bind_record (invite_encode (with_sig invite (replicate 64 Byte.x00))) (invite_encode invite));
    by vm_compute.
Defined.
End RecordDemo.
