(* ===== verification/InviteWire.v ===== *)
(** * The invite conversations on the wire

    Models the messages of [backend/wealdrelay/src/invite/redeem.rs] (the joiner's
    steps and the relay's answers) and [invite/admin.rs] (the admin's requests,
    the answers and the listing). The joiner's code is text carried as UTF-8. *)

From Stdlib Require Import ZArith Lia String.
From stdpp Require Import base tactics numbers list.
From S2P Require Import Prelude Cbor Push Frame Crypto Access InviteRecord.

Open Scope Z_scope.

(** ** Tagged arrays: a count, a tag, and fields that depend on both *)
Section tagged.
Context {E A : Type} (f : CborError → E) (k : nat → Z → rd E A).

Definition rd_tagged : rd E A :=
  fields <- rd_map_err f rd_array_header ;; tag <- rd_map_err f rd_uint ;; k fields tag.

Lemma accepts_tagged n tag items x :
  length items = n → is_u64 tag → Z.of_nat (S n) ≤ U64_MAX → (n ≤ length (concat items))%nat →
  accepts 0 (k (S n) tag) (concat items) x → accepts 0 rd_tagged (array (uint tag :: items)) x.
Proof.
  intros Hl Ht Hn Hc Hk. rewrite array_unfold. cbn [length concat]. rewrite Hl.
  eapply (accepts_bind (S n) 0); [by apply accepts_map_err, accepts_array_header | | ].
  - eapply accepts_field; [apply codec_accepts; done | done].
  - rewrite length_app. pose proof (length_uint_pos tag). lia.
Qed.

Lemma tagged_sound r x r' :
  rd_tagged r = (Ok x, r') →
  ∃ n tag r1 r2, consumed r r1 (array_head n) ∧ consumed r1 r2 (uint tag) ∧ is_u64 tag ∧ k n tag r2 = (Ok x, r').
Proof.
  intros Hd. unfold rd_tagged in Hd. apply rd_bind_ok in Hd as (n & r1 & Hn & Hd).
  apply rd_map_err_ok, array_header_sound in Hn as [_ Hn].
  apply rd_bind_ok in Hd as (tag & r2 & Ht & Hd). apply codec_sound in Ht as [Hw Ht].
  exists n, tag, r1, r2. done.
Qed.
End tagged.

(** ** A joiner's step *)
Inductive RedeemRequest : Type :=
| RqReserve (token code nonce device : list byte)
| RqBundles (token group : list byte)
| RqRecord (token : list byte)
| RqCommit (token nonce device group : list byte).

Inductive RedeemResponse : Type :=
| RsReserved (expires_at_ms : Z)
| RsBundles (bundles : list EncBundle)
| RsCommitted (receipt : list byte)
| RsRecord (body : list byte).

Inductive RedeemError : Type :=
| RedeemCbor (error : CborError)
| CodeNotUtf8
| WrongFields (step : Z) (count : nat)
| ExpiryOutOfRange
| TooManyBundles (count : nat)
| UnknownStep (step : Z).

Definition redeem_error_code (e : RedeemError) : ErrorCode := UNAVAILABLE.

Definition redeem_encode (q : RedeemRequest) : list byte :=
  match q with
  | RqReserve token code nonce device => array [uint 0; bytes token; bytes code; bytes nonce; bytes device]
  | RqBundles token group => array [uint 1; bytes token; bytes group]
  | RqRecord token => array [uint 3; bytes token]
  | RqCommit token nonce device group => array [uint 2; bytes token; bytes nonce; bytes device; bytes group]
  end.

Abbreviation rlift := (rd_map_err RedeemCbor).

Definition redeem_fields (fields : nat) (step : Z) : rd RedeemError RedeemRequest :=
  if (step =? 0) && (fields =? 5)%nat then
    token <- rlift rd_bytes ;;
    code <- rlift rd_bytes ;;
    if negb (utf8_valid code) then rd_fail CodeNotUtf8 else
    nonce <- rlift rd_bytes ;; device <- rlift rd_bytes ;;
    rd_ret (RqReserve token code nonce device)
  else if (step =? 1) && (fields =? 3)%nat then
    token <- rlift rd_bytes ;; group <- rlift rd_bytes ;; rd_ret (RqBundles token group)
  else if (step =? 2) && (fields =? 5)%nat then
    token <- rlift rd_bytes ;; nonce <- rlift rd_bytes ;; device <- rlift rd_bytes ;; group <- rlift rd_bytes ;;
    rd_ret (RqCommit token nonce device group)
  else if (step =? 3) && (fields =? 2)%nat then
    token <- rlift rd_bytes ;; rd_ret (RqRecord token)
  else if step <=? 3 then rd_fail (WrongFields step fields)
  else rd_fail (UnknownStep step).

Definition redeem_decode (bs : list byte) : result RedeemError RedeemRequest :=
  parse RedeemCbor (rd_tagged RedeemCbor redeem_fields) bs.

(** [u64::try_from(expires_at_ms).unwrap_or_default()]. *)
Definition redeem_response_encode (a : RedeemResponse) : list byte :=
  match a with
  | RsReserved expires => array [uint 0; uint (if expires <? 0 then 0 else expires)]
  | RsBundles bundles => array [uint 1; encode_bundles bundles]
  | RsCommitted receipt => array [uint 2; bytes receipt]
  | RsRecord body => array [uint 3; bytes body]
  end.

Definition read_plain_bundle : rd RedeemError EncBundle :=
  rlift (rd_array 3) ;;; group <- rlift rd_bytes ;; epoch <- rlift rd_uint ;; ct <- rlift rd_bytes ;;
  rd_ret (mkEncBundle group epoch ct).

Definition read_plain_bundles : rd RedeemError (list EncBundle) :=
  count <- rlift rd_array_header ;;
  if (MAX_SCOPES <? count)%nat then rd_fail (TooManyBundles count) else rd_times count read_plain_bundle.

Definition redeem_response_fields (kind : Z) : rd RedeemError RedeemResponse :=
  if kind =? 0 then
    expires <- rlift rd_uint ;;
    if I64_MAX <? expires then rd_fail ExpiryOutOfRange else rd_ret (RsReserved expires)
  else if kind =? 1 then bundles <- read_plain_bundles ;; rd_ret (RsBundles bundles)
  else if kind =? 2 then receipt <- rlift rd_bytes ;; rd_ret (RsCommitted receipt)
  else if kind =? 3 then body <- rlift rd_bytes ;; rd_ret (RsRecord body)
  else rd_fail (UnknownStep kind).

Definition redeem_response_decode (bs : list byte) : result RedeemError RedeemResponse :=
  parse RedeemCbor (rlift (rd_array 2) ;;; kind <- rlift rd_uint ;; redeem_response_fields kind) bs.

(** ** An admin's request *)
Inductive AdminRequest : Type :=
| AqAuthority
| AqCreate (record : list byte)
| AqList
| AqRevoke (token : list byte)
| AqRefresh (token group : list byte) (epoch : Z) (ct : list byte)
| AqVoidGrants (hashes : list (list byte)).

Record Summary : Type := mkSummary {
  sm_token : list byte;
  sm_issued_at : Z;
  sm_expires : Z;
  sm_remaining : Z;
  sm_seats : Z;
  sm_scope_count : Z;
  sm_state : list byte
}.

Inductive AdminResponse : Type :=
| AsAuthority (may_issue : bool)
| AsCreated (token : list byte)
| AsLive (summaries : list Summary)
| AsRevoked (token : list byte)
| AsGrantsVoided (voided : Z) (hashes : list (list byte))
| AsRefreshed (accepted : bool).

(** [StateNotUtf8] is [Encoding(TypeMismatch { expected: [utf8 text] })]. *)
Inductive AdminWireError : Type :=
| AdminEncoding (error : CborError)
| StateNotUtf8
| UnknownRequest (kind : Z).

Definition admin_encode (q : AdminRequest) : list byte :=
  match q with
  | AqAuthority => array [uint 0]
  | AqCreate record => array [uint 1; bytes record]
  | AqList => array [uint 2]
  | AqRevoke token => array [uint 3; bytes token]
  | AqRefresh token group epoch ct => array [uint 4; bytes token; bytes group; uint epoch; bytes ct]
  | AqVoidGrants hashes => array [uint 5; array (map bytes hashes)]
  end.

Abbreviation dlift := (rd_map_err AdminEncoding).

Definition admin_fields (fields : nat) (kind : Z) : rd AdminWireError AdminRequest :=
  if (kind =? 0) && (fields =? 1)%nat then rd_ret AqAuthority
  else if (kind =? 1) && (fields =? 2)%nat then record <- dlift rd_bytes ;; rd_ret (AqCreate record)
  else if (kind =? 2) && (fields =? 1)%nat then rd_ret AqList
  else if (kind =? 3) && (fields =? 2)%nat then token <- dlift rd_bytes ;; rd_ret (AqRevoke token)
  else if (kind =? 4) && (fields =? 5)%nat then
    token <- dlift rd_bytes ;; group <- dlift rd_bytes ;; epoch <- dlift rd_uint ;; ct <- dlift rd_bytes ;;
    rd_ret (AqRefresh token group epoch ct)
  else if (kind =? 5) && (fields =? 2)%nat then
    hashes <- dlift (rd_list rd_bytes) ;; rd_ret (AqVoidGrants hashes)
  else rd_fail (UnknownRequest kind).

Definition admin_decode (bs : list byte) : result AdminWireError AdminRequest :=
  parse AdminEncoding (rd_tagged AdminEncoding admin_fields) bs.

Definition flag (b : bool) : Z := if b then 1 else 0.

Definition summary_encode (s : Summary) : list byte :=
  array [bytes (sm_token s); uint (sm_issued_at s); uint (sm_expires s); uint (sm_remaining s);
         uint (sm_seats s); uint (sm_scope_count s); bytes (sm_state s)].

Definition admin_response_encode (a : AdminResponse) : list byte :=
  match a with
  | AsAuthority may_issue => array [uint 0; uint (flag may_issue)]
  | AsCreated token => array [uint 1; bytes token]
  | AsLive summaries => array [uint 2; array (map summary_encode summaries)]
  | AsRevoked token => array [uint 3; bytes token]
  | AsRefreshed accepted => array [uint 4; uint (flag accepted)]
  | AsGrantsVoided voided _ => array [uint 5; uint voided]
  end.

(** A byte-wide count read as a [u64] and narrowed: [OutOfRange(0)] past it. *)
Definition read_narrowed : rd AdminWireError Z :=
  v <- dlift rd_uint ;; if U8_MAX <? v then rd_fail (AdminEncoding (OutOfRange 0)) else rd_ret v.

Definition summary_decode : rd AdminWireError Summary :=
  dlift (rd_array 7) ;;;
  token <- dlift rd_bytes ;; issued_at <- dlift rd_uint ;; expires <- dlift rd_uint ;;
  remaining <- read_narrowed ;; seats <- read_narrowed ;; scope_count <- dlift rd_uint ;;
  state <- dlift rd_bytes ;;
  if negb (utf8_valid state) then rd_fail StateNotUtf8
  else rd_ret (mkSummary token issued_at expires remaining seats scope_count state).

Definition read_summaries : rd AdminWireError (list Summary) :=
  count <- dlift rd_array_header ;; rd_times count summary_decode.

Definition admin_response_fields (fields : nat) (kind : Z) : rd AdminWireError AdminResponse :=
  if (kind =? 0) && (fields =? 2)%nat then v <- dlift rd_uint ;; rd_ret (AsAuthority (negb (v =? 0)))
  else if (kind =? 1) && (fields =? 2)%nat then token <- dlift rd_bytes ;; rd_ret (AsCreated token)
  else if (kind =? 2) && (fields =? 2)%nat then
    summaries <- read_summaries ;; rd_ret (AsLive summaries)
  else if (kind =? 3) && (fields =? 2)%nat then token <- dlift rd_bytes ;; rd_ret (AsRevoked token)
  else if (kind =? 4) && (fields =? 2)%nat then v <- dlift rd_uint ;; rd_ret (AsRefreshed (negb (v =? 0)))
  else if (kind =? 5) && (fields =? 2)%nat then voided <- dlift rd_uint ;; rd_ret (AsGrantsVoided voided [])
  else rd_fail (UnknownRequest kind).

Definition admin_response_decode (bs : list byte) : result AdminWireError AdminResponse :=
  parse AdminEncoding (rd_tagged AdminEncoding admin_response_fields) bs.

(** ** Round trips *)
Definition redeem_wf (q : RedeemRequest) : Prop :=
  match q with
  | RqReserve token code nonce device =>
      vec_ok token ∧ (vec_ok code ∧ utf8_valid code = true) ∧ vec_ok nonce ∧ vec_ok device
  | RqBundles token group => vec_ok token ∧ vec_ok group
  | RqRecord token => vec_ok token
  | RqCommit token nonce device group => vec_ok token ∧ vec_ok nonce ∧ vec_ok device ∧ vec_ok group
  end.

(** The fields of a tagged message, one codec read at a time. *)
Ltac accept_tagged :=
  eapply accepts_tagged; [reflexivity | by vm_compute | by vm_compute | unfold encode_bundles; length_items | cbn [concat]].
Ltac read_fields := repeat (eapply accepts_field; [by apply codec_accepts | cbv beta]); try apply accepts_ret.

(** Split on the tag and the count; what is left over is a refusal. *)
Ltac tag_cases Hd :=
  repeat match type of Hd with
    | (if (?t =? ?c) && (?n =? ?m)%nat then _ else _) _ = _ =>
        destruct (Z.eqb_spec t c) as [->|]; cbn [Z.eqb Pos.eqb andb] in Hd;
        [destruct (Nat.eqb_spec n m) as [->|]|]
    end;
  try (repeat case_match; discriminate).

#[global] Instance redeem_codec : WireCodec redeem_wf redeem_encode (rd_tagged RedeemCbor redeem_fields).
Proof.
  split.
  - intros [token code nonce device|token group|token|token nonce device group] Hwf; cbn in Hwf; destruct_and? Hwf;
      unfold redeem_encode; accept_tagged; cbn [redeem_fields andb Z.eqb Pos.eqb Nat.eqb]; try read_fields.
    assert (utf8_valid code = true) as -> by done. cbn [negb]. read_fields.
  - intros r q r' Hd. apply tagged_sound in Hd as (n & tag & r1 & r2 & Hn & Ht & _ & Hd).
    unfold redeem_fields in Hd. tag_cases Hd.
    + do 2 sound_step Hd. destruct (utf8_valid _) eqn:Hu; [|discriminate]. cbn [negb] in Hd.
      do 2 sound_step Hd. injection Hd as <- <-. split; [done|]. unfold redeem_encode. sound_chain.
    + do 2 sound_step Hd. injection Hd as <- <-. split; [done|]. unfold redeem_encode. sound_chain.
    + do 4 sound_step Hd. injection Hd as <- <-. split; [done|]. unfold redeem_encode. sound_chain.
    + do 1 sound_step Hd. injection Hd as <- <-. split; [done|]. unfold redeem_encode. sound_chain.
Qed.

Lemma redeem_decode_exact bs q : redeem_decode bs = Ok q ↔ redeem_wf q ∧ redeem_encode q = bs.
Proof.
  split.
  - intros Hd. exact (parse_canonical RedeemCbor redeem_wf redeem_encode _ bs q Hd).
  - intros [Hw <-]. exact (parse_encode RedeemCbor redeem_wf redeem_encode _ q Hw).
Qed.

Definition plain_bundle_wf (b : EncBundle) : Prop := vec_ok (eb_group b) ∧ is_u64 (eb_epoch b) ∧ vec_ok (eb_ct b).

#[global] Instance plain_bundle_codec : WireCodec plain_bundle_wf encode_bundle read_plain_bundle.
Proof.
  split.
  - intros [g e c] (Hg & He & Hc). cbn in *. unfold read_plain_bundle, encode_bundle. cbn. accept_record.
  - intros r b r' Hd. unfold read_plain_bundle in Hd. do 4 sound_step Hd. injection Hd as <- <-.
    split; [by split|]. unfold encode_bundle. cbn. sound_chain.
Qed.

#[global] Instance plain_bundles_codec :
  WireCodec (λ l, Forall plain_bundle_wf l ∧ (length l ≤ MAX_SCOPES)%nat) encode_bundles read_plain_bundles.
Proof.
  apply (capped_codec RedeemCbor MAX_SCOPES TooManyBundles); [by vm_compute | apply _ | intros; apply length_array_pos].
Qed.

(** The answers the relay gives: an expiry it computed, the bundles of one
    scope, a receipt, a record. *)
Definition redeem_response_wf (a : RedeemResponse) : Prop :=
  match a with
  | RsReserved expires => 0 ≤ expires ≤ I64_MAX
  | RsBundles bundles => Forall plain_bundle_wf bundles ∧ (length bundles ≤ MAX_SCOPES)%nat
  | RsCommitted receipt => vec_ok receipt
  | RsRecord body => vec_ok body
  end.

#[global] Instance redeem_response_codec :
  WireCodec redeem_response_wf redeem_response_encode
    (rlift (rd_array 2) ;;; kind <- rlift rd_uint ;; redeem_response_fields kind).
Proof.
  split.
  - intros [e|bundles|receipt|body] Hwf; cbn in Hwf; unfold redeem_response_encode;
      (apply accepts_array_items; [done | by vm_compute | unfold encode_bundles; length_items | cbn [concat]]);
      (eapply accepts_field; [by apply codec_accepts | cbn [redeem_response_fields Z.eqb Pos.eqb]]); try read_fields.
    rewrite (proj2 (Z.ltb_ge e 0)) by lia.
    eapply accepts_field; [apply codec_accepts; unfold is_u64, I64_MAX, U64_MAX in *; lia|].
    rewrite (proj2 (Z.ltb_ge _ _)) by lia. apply accepts_ret.
  - intros r a r' Hd. do 2 sound_step Hd. unfold redeem_response_fields in Hd.
    repeat match type of Hd with
      | (if ?t =? ?c then _ else _) _ = _ => destruct (Z.eqb_spec t c) as [->|] end; try discriminate.
    + sound_step Hd. match type of Hd with context [I64_MAX <? ?e] => destruct (Z.ltb_spec I64_MAX e) as [|He] end;
        [discriminate|]. injection Hd as <- <-. unfold is_u64 in *. split; [cbn; lia|].
      unfold redeem_response_encode. rewrite (proj2 (Z.ltb_ge _ _)) by lia. sound_chain.
    + sound_step Hd. injection Hd as <- <-. split; [done|]. unfold redeem_response_encode. sound_chain.
    + sound_step Hd. injection Hd as <- <-. split; [done|]. unfold redeem_response_encode. sound_chain.
    + sound_step Hd. injection Hd as <- <-. split; [done|]. unfold redeem_response_encode. sound_chain.
Qed.

(** The redemption conversation is exact in both directions: the relay
    accepts precisely the encodings of the four steps, and a joiner reads back
    every answer the relay can give. *)
Theorem redeem_wire_exact :
  (∀ bs q, redeem_decode bs = Ok q ↔ redeem_wf q ∧ redeem_encode q = bs)
  ∧ (∀ bs a, redeem_response_decode bs = Ok a ↔ redeem_response_wf a ∧ redeem_response_encode a = bs).
Proof.
  split; [apply redeem_decode_exact|]. intros bs a. split.
  - intros Hd. exact (parse_canonical RedeemCbor redeem_response_wf redeem_response_encode _ bs a Hd).
  - intros [Hw <-]. exact (parse_encode RedeemCbor redeem_response_wf redeem_response_encode _ a Hw).
Qed.

(** ** The admin's messages *)
Definition admin_wf (q : AdminRequest) : Prop :=
  match q with
  | AqAuthority | AqList => True
  | AqCreate record => vec_ok record
  | AqRevoke token => vec_ok token
  | AqRefresh token group epoch ct => vec_ok token ∧ vec_ok group ∧ is_u64 epoch ∧ vec_ok ct
  | AqVoidGrants hashes => list_ok vec_ok hashes
  end.

#[global] Instance admin_codec : WireCodec admin_wf admin_encode (rd_tagged AdminEncoding admin_fields).
Proof.
  split.
  - intros [|record| |token|token group epoch ct|hashes] Hwf; cbn in Hwf; destruct_and? Hwf;
      unfold admin_encode; accept_tagged; cbn [admin_fields andb Z.eqb Pos.eqb Nat.eqb]; try apply accepts_ret;
      try read_fields.
    eapply accepts_field; [|apply accepts_ret].
    by apply (codec_accepts (wf := list_ok vec_ok) (enc := λ xs, array (map bytes xs))).
  - intros r q r' Hd. apply tagged_sound in Hd as (n & tag & r1 & r2 & Hn & Ht & _ & Hd).
    unfold admin_fields in Hd. tag_cases Hd.
    + injection Hd as <- <-. split; [done|]. unfold admin_encode. sound_chain.
    + do 1 sound_step Hd. injection Hd as <- <-. split; [done|]. unfold admin_encode. sound_chain.
    + injection Hd as <- <-. split; [done|]. unfold admin_encode. sound_chain.
    + do 1 sound_step Hd. injection Hd as <- <-. split; [done|]. unfold admin_encode. sound_chain.
    + do 4 sound_step Hd. injection Hd as <- <-. split; [done|]. unfold admin_encode. sound_chain.
    + do 1 sound_step Hd. injection Hd as <- <-. split; [done|]. unfold admin_encode. sound_chain.
Qed.

Lemma admin_decode_exact bs q : admin_decode bs = Ok q ↔ admin_wf q ∧ admin_encode q = bs.
Proof.
  split.
  - intros Hd. exact (parse_canonical AdminEncoding admin_wf admin_encode _ bs q Hd).
  - intros [Hw <-]. exact (parse_encode AdminEncoding admin_wf admin_encode _ q Hw).
Qed.

Definition summary_wf (s : Summary) : Prop :=
  vec_ok (sm_token s) ∧ is_u64 (sm_issued_at s) ∧ is_u64 (sm_expires s) ∧ is_u8 (sm_remaining s)
  ∧ is_u8 (sm_seats s) ∧ is_u64 (sm_scope_count s) ∧ text_ok (sm_state s).

#[global] Instance narrowed_codec : WireCodec is_u8 uint read_narrowed.
Proof.
  split.
  - intros v Hv. unfold read_narrowed. rewrite <- (app_nil_r (uint v)).
    eapply accepts_field; [apply codec_accepts; unfold is_u8, is_u64, U8_MAX, U64_MAX in *; lia|].
    rewrite (proj2 (Z.ltb_ge _ _)) by apply Hv. apply accepts_ret.
  - intros r v r' Hd. unfold read_narrowed in Hd. sound_step Hd.
    match type of Hd with context [U8_MAX <? ?e] => destruct (Z.ltb_spec U8_MAX e) end; [discriminate|].
    injection Hd as <- <-. split; [|done]. unfold is_u64, is_u8 in *. lia.
Qed.

#[global] Instance summary_codec : WireCodec summary_wf summary_encode summary_decode.
Proof.
  split.
  - intros [t i e m n c st] Hwf. unfold summary_wf, text_ok in Hwf. cbn in Hwf. destruct_and! Hwf.
    unfold summary_decode, summary_encode. cbn -[array bytes uint rd_array].
    apply accepts_array_items; [done | by vm_compute | length_items | cbn [concat]].
    do 7 (eapply accepts_field; [by apply codec_accepts | cbv beta]).
    assert (utf8_valid st = true) as -> by done. apply accepts_ret.
  - intros r s r' Hd. unfold summary_decode in Hd. do 8 sound_step Hd.
    destruct (utf8_valid _) eqn:Hu; [|discriminate]. injection Hd as <- <-.
    split; [unfold summary_wf, text_ok; cbn; by split_and!|]. unfold summary_encode. cbn -[array bytes uint]. sound_chain.
Qed.

Definition admin_response_wf (a : AdminResponse) : Prop :=
  match a with
  | AsAuthority _ | AsRefreshed _ => True
  | AsCreated token | AsRevoked token => vec_ok token
  | AsLive summaries => Forall summary_wf summaries ∧ Z.of_nat (length summaries) ≤ U64_MAX
  | AsGrantsVoided voided _ => is_u64 voided
  end.

(** The hashes a void names never reach the wire. *)
Definition on_the_wire (a : AdminResponse) : AdminResponse :=
  match a with AsGrantsVoided voided _ => AsGrantsVoided voided [] | a => a end.

Lemma accepts_summaries l :
  Forall summary_wf l → Z.of_nat (length l) ≤ U64_MAX → accepts 0 read_summaries (array (map summary_encode l)) l.
Proof.
  intros Hf Hn. rewrite array_unfold, length_map. eapply (accepts_bind (length l) 0).
  - by apply accepts_map_err, accepts_array_header.
  - by apply (accepts_times summary_wf summary_encode summary_decode).
  - pose proof (length_concat_map_ge summary_encode l ltac:(intros; apply length_array_pos)). lia.
Qed.

Lemma accepts_admin_response a :
  admin_response_wf a →
  accepts 0 (rd_tagged AdminEncoding admin_response_fields) (admin_response_encode a) (on_the_wire a).
Proof.
  destruct a as [[]|token|l|token|voided hs|[]]; intros Hwf; cbn in Hwf; unfold admin_response_encode;
    accept_tagged; cbn [admin_response_fields andb Z.eqb Pos.eqb Nat.eqb flag on_the_wire];
    try (eapply accepts_field; [by apply codec_accepts | apply accepts_ret]).
  destruct Hwf as [Hf Hn]. eapply accepts_field; [by apply accepts_summaries | apply accepts_ret].
Qed.

(** The admin conversation round trips: the relay accepts precisely the
    encodings of the six requests, and a client reads back every answer, the
    listing included, short of the voided hashes that stay on the relay. *)
Theorem admin_wire_roundtrip :
  (∀ bs q, admin_decode bs = Ok q ↔ admin_wf q ∧ admin_encode q = bs)
  ∧ (∀ a, admin_response_wf a → admin_response_decode (admin_response_encode a) = Ok (on_the_wire a)).
Proof.
  split; [apply admin_decode_exact|]. intros a Hw.
  unfold admin_response_decode, parse, rd_bind at 1, rd_new.
  pose proof (accepts_admin_response a Hw [] [] ltac:(simpl; lia)) as H.
  cbn [app length] in H. rewrite app_nil_r in H. rewrite H.
  unfold rd_bind, rd_map_err, finish, is_at_end. cbn [rd_offset rd_data]. by rewrite Nat.add_0_l, Nat.eqb_refl.
Qed.
