(* ===== verification/Invites.v ===== *)
(** * Invites: seats, codes and revocation

    Models [backend/wealdrelay/src/invite/reserve.rs] and the life of an invite
    in [invite/store.rs], over the tables of migrations [0003_invites.sql] and
    [0012_invite_attempt_by_source.sql]. Each statement or transaction of the
    code is one function on the tables, so any interleaving of concurrent
    redemptions, releases, revocations and sweeps is a sequence of them
    ([invite_step]); [reserve] and [scope_commit] compose them in the order the
    code runs them. Times are milliseconds; the grants live in each workspace's
    own tables and are written by [Revocation.grant] and [revoke_grant]. *)

From Stdlib Require Import ZArith Lia String.
From stdpp Require Import base tactics numbers gmap fin_maps fin_sets functions relations sorting list.
From S2P Require Import Prelude Cbor Push Frame Crypto Access Genesis AccessChain Revocation InviteCode InviteRecord.

Open Scope Z_scope.

Definition RESERVATION_SECONDS : Z := 10 * 60.
Definition RETAINED_BUNDLES : nat := 3.

Inductive InviteStoreError : Type := DbError | InviteRefused (e : InviteError) | BadCode (e : CodeError).
Definition store_error_code (e : InviteStoreError) : ErrorCode :=
  match e with DbError => Backpressure | InviteRefused _ | BadCode _ => UNAVAILABLE end.

(** ** Tables *)
(** [store::Record]: the row with its decoded body. The [uses], [code_hash] and
    scope columns are copies of the record's fields; [expires_at] is its expiry
    as an [i64]. *)
Record Stored : Type := mkStored {
  i_workspace : list byte;
  i_invite : Invite;
  i_remaining : Z;
  i_state : InviteState;
  i_bootstrap : bool;
  i_created : Z
}.
Definition i_expires (i : Stored) : Z := Z.min (iv_expires (i_invite i)) I64_MAX.
Definition i_uses (i : Stored) : Z := iv_uses (i_invite i).
Definition i_scopes (i : Stored) : list (list byte) := iv_scopes (i_invite i).

Record Reservation : Type := mkReservation {
  v_device : list byte;
  v_expires : Z;
  v_extended : bool;
  v_consumed : bool;
  v_released : bool
}.
Record Attempt : Type := mkAttempt { a_failures : Z; a_window : Z; a_cooldown : option Z }.

Record Bundle : Type := mkBundle { b_ct : list byte; b_uploaded : Z; b_issued : bool }.

Record Tables : Type := mkTables {
  t_invites : gmap (list byte) Stored;
  t_reservations : gmap (list byte * list byte) Reservation;
  t_attempts : gmap (list byte * list byte) Attempt;
  t_commits : gset (list byte * list byte * list byte);
  t_tombstones : gmap (list byte) (list (list byte));
  t_bundles : gmap (list byte * list byte * Z) Bundle;
  t_dbs : gmap (list byte) Db
}.

Definition with_invites (t : Tables) (m : gmap (list byte) Stored) : Tables :=
  mkTables m (t_reservations t) (t_attempts t) (t_commits t) (t_tombstones t) (t_bundles t) (t_dbs t).
Definition with_reservations (t : Tables) (m : gmap (list byte * list byte) Reservation) : Tables :=
  mkTables (t_invites t) m (t_attempts t) (t_commits t) (t_tombstones t) (t_bundles t) (t_dbs t).
Definition with_attempts (t : Tables) (m : gmap (list byte * list byte) Attempt) : Tables :=
  mkTables (t_invites t) (t_reservations t) m (t_commits t) (t_tombstones t) (t_bundles t) (t_dbs t).
Definition with_dbs (t : Tables) (m : gmap (list byte) Db) : Tables :=
  mkTables (t_invites t) (t_reservations t) (t_attempts t) (t_commits t) (t_tombstones t) (t_bundles t) m.

Definition with_bundles (t : Tables) (m : gmap (list byte * list byte * Z) Bundle) : Tables :=
  mkTables (t_invites t) (t_reservations t) (t_attempts t) (t_commits t) (t_tombstones t) m (t_dbs t).

Definition set_remaining (i : Stored) (n : Z) : Stored :=
  mkStored (i_workspace i) (i_invite i) n (i_state i) (i_bootstrap i) (i_created i).
Definition set_invite_state (i : Stored) (s : InviteState) : Stored :=
  mkStored (i_workspace i) (i_invite i) (i_remaining i) s (i_bootstrap i) (i_created i).
Definition set_released (r : Reservation) : Reservation :=
  mkReservation (v_device r) (v_expires r) (v_extended r) (v_consumed r) true.
Definition set_consumed (r : Reservation) : Reservation :=
  mkReservation (v_device r) (v_expires r) (v_extended r) true (v_released r).

(** A reservation that still holds a seat it may lose. *)
Definition holding (r : Reservation) : bool := negb (v_consumed r) && negb (v_released r).

(** ** Grants, in the workspace's own tables *)
Definition db_at (t : Tables) (workspace : list byte) : Db := default (fresh_db []) (t_dbs t !! workspace).
Definition grant_at (t : Tables) (workspace device : list byte) (until : Z) : bool * Tables :=
  let '(ok, db) := grant (db_at t workspace) device until in
  (ok, with_dbs t (<[workspace := db]> (t_dbs t))).
Definition revoke_grant_at (workspace : list byte) (t : Tables) (device : list byte) : Tables :=
  with_dbs t (<[workspace := snd (revoke_grant (db_at t workspace) device)]> (t_dbs t)).

(** ** Attempts *)
Definition cooldown_ms : Z := COOLDOWN_SECONDS * 1000.

Definition cooling (a : Attempt) (now : Z) : bool :=
  match a_cooldown a with Some until => now <? until | None => false end.
(** A row that still informs the token-wide sum. *)
Definition recent (a : Attempt) (now : Z) : bool := (now - cooldown_ms <? a_window a) || cooling a now.

Definition token_sum (t : Tables) (token : list byte) (now : Z) (skip : option (list byte)) : Z :=
  msum (λ k a, if bool_decide (k.1 = token ∧ Some k.2 ≠ skip) && recent a now then a_failures a else 0)
    (t_attempts t).

Definition cooled_down (t : Tables) (token source : list byte) (now : Z) : bool :=
  (match t_attempts t !! (token, source) with Some a => cooling a now | None => false end)
  || (MAX_TOKEN_FAILURES <=? token_sum t token now None).

Definition sweep_attempts (t : Tables) (token : list byte) (now : Z) : Tables :=
  with_attempts t (filter (λ e : (list byte * list byte) * Attempt,
    ¬ (e.1.1 = token ∧ recent e.2 now = false)) (t_attempts t)).

(** The charge: one statement, the row's own count and the sum of the others. *)
Definition charge_attempt (t : Tables) (token source : list byte) (now : Z) : option (Z * Z) * Tables :=
  let others := token_sum t token now (Some source) in
  match t_attempts t !! (token, source) with
  | None =>
      (Some (1, 1 + others), with_attempts t (<[(token, source) := mkAttempt 1 now None]> (t_attempts t)))
  | Some a =>
      if cooling a now then (None, t)
      else
        let failures := a_failures a + 1 in
        let cooldown := if MAX_FAILURES <=? failures then Some (now + cooldown_ms) else a_cooldown a in
        (Some (failures, failures + others),
         with_attempts t (<[(token, source) := mkAttempt failures (a_window a) cooldown]> (t_attempts t)))
  end.

Definition claim_attempt (t : Tables) (token source : list byte) (now : Z) : bool * Tables :=
  let t := sweep_attempts t token now in
  match charge_attempt t token source now with
  | (None, t) => (false, t)
  | (Some (failures, total), t) => ((failures <=? MAX_FAILURES) && (total <=? MAX_TOKEN_FAILURES), t)
  end.

Definition refund_attempt (t : Tables) (token source : list byte) : Tables :=
  match t_attempts t !! (token, source) with
  | None => t
  | Some a =>
      let failures := Z.max (a_failures a - 1) 0 in
      with_attempts t (<[(token, source) :=
        mkAttempt failures (a_window a) (if MAX_FAILURES <=? failures then a_cooldown a else None)]> (t_attempts t))
  end.

Definition attempt_volume (t : Tables) (token : list byte) : Z * nat :=
  let rows := filter (λ e : (list byte * list byte) * Attempt, e.1.1 = token ∧ 0 < a_failures e.2)
    (map_to_list (t_attempts t)) in
  (foldr (λ e n, a_failures e.2 + n) 0 rows, length rows).

(** ** Seats *)
Inductive Verdict : Type := Reserved (expires_at_ms : Z) | Unavailable.

Definition live_reservation (t : Tables) (token nonce : list byte) (now : Z) : option Z :=
  match t_reservations t !! (token, nonce) with
  | Some r => if negb (v_released r) && (now <? v_expires r) then Some (v_expires r) else None
  | None => None
  end.

(** The transaction that takes a seat and writes the grant: [Ok false] is a
    rollback with nothing changed, [Err] the primary key of the reservation
    refusing a second row for the nonce. *)
Definition take_seat (t : Tables) (token nonce device : list byte) (expires_at_ms now : Z) :
    result InviteStoreError bool * Tables :=
  match t_invites t !! token with
  | Some i =>
      if bool_decide (i_state i = LiveInvite) && (0 <? i_remaining i) && (now <? i_expires i) then
        match t_reservations t !! (token, nonce) with
        | Some _ => (Err DbError, t)
        | None =>
            let t' := with_reservations
              (with_invites t (<[token := set_remaining i (i_remaining i - 1)]> (t_invites t)))
              (<[(token, nonce) := mkReservation device expires_at_ms false false false]> (t_reservations t)) in
            let '(granted, t') := grant_at t' (i_workspace i) device expires_at_ms in
            if granted then (Ok true, t') else (Ok false, t)
        end
      else (Ok false, t)
  | None => (Ok false, t)
  end.

Section reserve.
Context `{Argon2, Blake3}.

Definition reserve (t : Tables) (token : list byte) (typed_code : list Z) (nonce device source : list byte) (now : Z) :
    result InviteStoreError Verdict * Tables :=
  if cooled_down t token source now then (Ok Unavailable, t)
  else
    match t_invites t !! token with
    | None => (Ok Unavailable, t)
    | Some i =>
        if negb (bool_decide (i_state i = LiveInvite)) || (iv_expires (i_invite i) <=? Z.max now 0) then (Ok Unavailable, t)
        else
          let '(claimed, t) := claim_attempt t token source now in
          if negb claimed then (Ok Unavailable, t)
          else
            match parse_code typed_code with
            | Err _ => (Ok Unavailable, t)
            | Ok parsed =>
                if negb (verify_code parsed token (iv_code_hash (i_invite i))) then (Ok Unavailable, t)
                else
                  let t := refund_attempt t token source in
                  if grant_is_voided (db_at t (i_workspace i)) device then (Ok Unavailable, t)
                  else
                    match live_reservation t token nonce now with
                    | Some existing => (Ok (Reserved existing), t)
                    | None =>
                        let expires_at_ms := Z.min (now + RESERVATION_SECONDS * 1000) (i_expires i) in
                        match take_seat t token nonce device expires_at_ms now with
                        | (Err e, t) => (Err e, t)
                        | (Ok true, t) => (Ok (Reserved expires_at_ms), t)
                        | (Ok false, t) => (Ok Unavailable, t)
                        end
                    end
            end
    end.

(** Extend a parked join once, seat and credential together. *)
Definition extend (t : Tables) (token nonce : list byte) : bool * Tables :=
  match t_invites t !! token, t_reservations t !! (token, nonce) with
  | Some i, Some r =>
      if negb (v_extended r) && holding r && bool_decide (i_state i = LiveInvite) then
        let t := with_reservations t
          (<[(token, nonce) := mkReservation (v_device r) (i_expires i) true (v_consumed r) (v_released r)]>
             (t_reservations t)) in
        let db := db_at t (i_workspace i) in
        (true,
         match grant_rows db !! v_device r with
         | Some g =>
             if voided g then t
             else with_dbs t (<[i_workspace i := with_grants db
                    (<[v_device r := mkGrant (i_expires i) (seen_version g) false]> (grant_rows db))]> (t_dbs t))
         | None => t
         end)
      else (false, t)
  | _, _ => (false, t)
  end.

Definition delete_bundles (t : Tables) (token : list byte) : Tables :=
  with_bundles t (filter (λ e : (list byte * list byte * Z) * Bundle, e.1.1.1 ≠ token) (t_bundles t)).

(** [spend_in]: the end of an invite that is not a revocation. *)
Definition spend_in (t : Tables) (token : list byte) : bool * Tables :=
  match t_invites t !! token with
  | Some i =>
      if bool_decide (i_state i = LiveInvite) then
        (true, delete_bundles (with_invites t (<[token := set_invite_state i SpentInvite]> (t_invites t))) token)
      else (false, t)
  | None => (false, t)
  end.

Definition seats_held (t : Tables) (token : list byte) : Z :=
  msum (λ k r, if bool_decide (k.1 = token) && holding r then 1 else 0) (t_reservations t).

(** The last scope commit: spend the seat, promote the grant, end the invite
    that has nothing left to sell and nobody mid-join. *)
Definition consume (t : Tables) (token nonce device workspace : list byte) (invite_expires_ms : Z) : bool * Tables :=
  match t_reservations t !! (token, nonce) with
  | Some r =>
      if holding r then
        let t := with_reservations t (<[(token, nonce) := set_consumed r]> (t_reservations t)) in
        let t := snd (grant_at t workspace device invite_expires_ms) in
        (true,
         match t_invites t !! token with
         | Some i =>
             if bool_decide (i_state i = LiveInvite) && (i_remaining i =? 0) && (seats_held t token =? 0)
             then snd (spend_in t token) else t
         | None => t
         end)
      else (v_consumed r && negb (v_released r), t)
  | None => (false, t)
  end.

Definition receipt_for (token nonce group : list byte) : list byte :=
  blake3 (ascii_bytes "weald invite scope-commit v1"%string ++ token ++ nonce ++ group).

Definition record_commit (t : Tables) (token nonce group : list byte) : Tables :=
  mkTables (t_invites t) (t_reservations t) (t_attempts t) ({[(token, nonce, group)]} ∪ t_commits t)
    (t_tombstones t) (t_bundles t) (t_dbs t).

Definition commits_of (t : Tables) (token nonce : list byte) : nat :=
  size (filter (λ c : list byte * list byte * list byte, c.1.1 = token ∧ c.1.2 = nonce) (t_commits t)).

Definition scope_commit (t : Tables) (token nonce device group : list byte) (now : Z) :
    option (list byte) * Tables :=
  match t_reservations t !! (token, nonce), t_invites t !! token with
  | Some r, Some i =>
      if v_released r
         || negb (bool_decide (i_state i = LiveInvite) || (bool_decide (i_state i = SpentInvite) && v_consumed r))
      then (None, t)
      else if negb (bool_decide (v_device r = device)) then (None, t)
      else if bool_decide (is_Some (t_tombstones t !! token)) then (None, t)
      else if i_expires i <=? now then (None, t)
      else if negb (v_consumed r) && (v_expires r <=? now) then (None, t)
      else if negb (contains (i_scopes i) group) then (None, t)
      else
        let t := record_commit t token nonce group in
        if negb (v_consumed r) && (length (i_scopes i) <=? commits_of t token nonce)%nat then
          let '(ok, t) := consume t token nonce device (i_workspace i) (i_expires i) in
          if ok then (Some (receipt_for token nonce group), t) else (None, t)
        else (Some (receipt_for token nonce group), t)
  | _, _ => (None, t)
  end.
End reserve.

(** ** Releasing, ending and revoking *)
Definition expiring (now : Z) (r : Reservation) : bool := holding r && (v_expires r <=? now).

Definition freed (t : Tables) (now : Z) (token : list byte) : Z :=
  msum (λ k r, if bool_decide (k.1 = token) && expiring now r then 1 else 0) (t_reservations t).

Definition release_expired (t : Tables) (now : Z) : Tables :=
  with_reservations
    (with_invites t (map_imap (λ token i,
       Some (if freed t now token =? 0 then i
             else set_remaining i (Z.min (i_remaining i + freed t now token) (i_uses i)))) (t_invites t)))
    (map_imap (λ _ r, Some (if expiring now r then set_released r else r)) (t_reservations t)).

(** The snapshot of expired tokens, in order, then [spend_in] on each. *)
Definition expired_tokens (t : Tables) (now : Z) : list (list byte) :=
  bytes_sort ((filter (λ e : list byte * Stored, i_state e.2 = LiveInvite ∧ i_expires e.2 ≤ now)
    (map_to_list (t_invites t))).*1).
Definition sweep_expired (t : Tables) (now : Z) : nat * Tables :=
  fold_left (λ (acc : nat * Tables) token,
    let '(ok, t) := spend_in acc.2 token in ((if ok then S acc.1 else acc.1), t)) (expired_tokens t now) (0%nat, t).

(** The distinct device hashes of a token's reservations, released ones too. *)
Definition devices_of (t : Tables) (token : list byte) : list (list byte) :=
  remove_dups ((λ e : (list byte * list byte) * Reservation, v_device e.2) <$>
    filter (λ e : (list byte * list byte) * Reservation, e.1.1 = token) (map_to_list (t_reservations t))).

(** [terminate]: tombstone, state, reservations, ciphertext and grants in one
    transaction. *)
Definition terminate_rows (t : Tables) (token : list byte) (i : Stored) (terminal : InviteState) : Tables :=
  delete_bundles
    (mkTables (<[token := set_invite_state i terminal]> (t_invites t))
       (map_imap (λ k r, Some (if bool_decide (k.1 = token) && holding r then set_released r else r)) (t_reservations t))
       (t_attempts t) (t_commits t) (<[token := devices_of t token]> (t_tombstones t)) (t_bundles t) (t_dbs t))
    token.

Definition terminate (t : Tables) (token : list byte) (terminal : InviteState) : bool * Tables :=
  match t_invites t !! token with
  | None => (false, t)
  | Some i => (true, fold_left (revoke_grant_at (i_workspace i)) (devices_of t token) (terminate_rows t token i terminal))
  end.

Definition revoke (t : Tables) (token : list byte) : bool * Tables := terminate t token RevokedInvite.
Definition mark_spent (t : Tables) (token : list byte) : bool * Tables := terminate t token SpentInvite.

(** The bootstrap invite's consumption, inside the transaction that accepts the
    genesis set ([genesis.rs], modelled in [Genesis]). *)
Definition spend_bootstrap (t : Tables) (token nonce : list byte) : Tables :=
  match t_invites t !! token, t_reservations t !! (token, nonce) with
  | Some i, Some r =>
      if holding r then
        with_reservations
          (with_invites t (<[token := set_remaining (set_invite_state i SpentInvite) 0]> (t_invites t)))
          (<[(token, nonce) := set_consumed r]> (t_reservations t))
      else t
  | _, _ => t
  end.

(** ** Storing and serving *)
Definition tombstoned_hashes (t : Tables) (token : list byte) : option (list (list byte)) := t_tombstones t !! token.

Definition belongs_to (t : Tables) (token workspace_id : list byte) : bool :=
  match t_invites t !! token with Some i => bool_decide (i_workspace i = workspace_id) | None => false end.

(** A second row for one (token, group, epoch) is refused by the primary key. *)
Definition insert_bundle (uploaded : Z) (token : list byte) (m : gmap (list byte * list byte * Z) Bundle)
    (b : EncBundle) : option (gmap (list byte * list byte * Z) Bundle) :=
  let key := (token, eb_group b, Z.min (eb_epoch b) I64_MAX) in
  match m !! key with
  | Some _ => None
  | None => Some (<[key := mkBundle (eb_ct b) uploaded true]> m)
  end.
Fixpoint insert_bundles (uploaded : Z) (token : list byte) (m : gmap (list byte * list byte * Z) Bundle)
    (bundles : list EncBundle) : option (gmap (list byte * list byte * Z) Bundle) :=
  match bundles with
  | [] => Some m
  | b :: bundles' => m ← insert_bundle uploaded token m b; insert_bundles uploaded token m bundles'
  end.

Section insert.
Context `{Blake3, Ed25519}.

(** [insert_within]: the rules, then the rows, in the caller's transaction; the token
    is the primary key. *)
Definition insert_invite (t : Tables) (workspace_id : list byte) (invite : Invite) (bootstrap : bool)
    (now_ms uploaded : Z) : result InviteStoreError unit * Tables :=
  match invite_judge invite bootstrap (Z.max now_ms 0) with
  | Err e => (Err (InviteRefused e), t)
  | Ok _ =>
      match t_invites t !! iv_token invite with
      | Some _ => (Err DbError, t)
      | None =>
          match insert_bundles uploaded (iv_token invite) (t_bundles t) (iv_bundles invite) with
          | None => (Err DbError, t)
          | Some bundles =>
              (Ok tt,
               with_bundles
                 (with_invites t (<[iv_token invite := mkStored workspace_id invite (iv_uses invite) LiveInvite bootstrap uploaded]>
                                    (t_invites t)))
                 bundles)
          end
      end
  end.

Definition create (t : Tables) (workspace_id : list byte) (invite : Invite) (now_ms uploaded : Z) :
    result InviteStoreError unit * Tables := insert_invite t workspace_id invite false now_ms uploaded.
End insert.

(** The newest first: [order by uploaded_at desc, epoch desc]. *)
Definition newer (x y : (list byte * list byte * Z) * Bundle) : Prop :=
  b_uploaded y.2 < b_uploaded x.2 ∨ (b_uploaded y.2 = b_uploaded x.2 ∧ y.1.2 ≤ x.1.2).
#[global] Instance newer_dec : RelDecision newer.
Proof. intros x y. unfold newer. apply _. Defined.

Definition refreshed_rows (m : gmap (list byte * list byte * Z) Bundle) (token group : list byte) :
    list ((list byte * list byte * Z) * Bundle) :=
  filter (λ e, e.1.1 = (token, group) ∧ b_issued e.2 = false) (map_to_list m).

(** The prune: of the refreshed rows of the scope, the newest three stay. *)
Definition prune (m : gmap (list byte * list byte * Z) Bundle) (token group : list byte) :
    gmap (list byte * list byte * Z) Bundle :=
  let keep := take RETAINED_BUNDLES (merge_sort newer (refreshed_rows m token group)) in
  filter (λ e : (list byte * list byte * Z) * Bundle,
    ¬ (e.1.1 = (token, group) ∧ b_issued e.2 = false ∧ e.1 ∉ keep.*1)) m.

(** The upsert: a refreshed row is replaced, an issued one is left alone. *)
Definition upsert_bundle (m : gmap (list byte * list byte * Z) Bundle) (token : list byte) (b : EncBundle)
    (uploaded : Z) : gmap (list byte * list byte * Z) Bundle :=
  let k := (token, eb_group b, Z.min (eb_epoch b) I64_MAX) in
  match m !! k with
  | Some row => if b_issued row then m else <[k := mkBundle (eb_ct b) uploaded false]> m
  | None => <[k := mkBundle (eb_ct b) uploaded false]> m
  end.

Definition refresh_bundle (t : Tables) (token : list byte) (b : EncBundle) (uploaded : Z) : bool * Tables :=
  if bool_decide (eb_ct b = []) || (MAX_BUNDLE_BYTES <? len (eb_ct b)) then (false, t)
  else
    match t_invites t !! token with
    | Some i =>
        if contains (i_scopes i) (eb_group b) && bool_decide (i_state i = LiveInvite) then
          (true, with_bundles t (prune (upsert_bundle (t_bundles t) token b uploaded) token (eb_group b)))
        else (false, t)
    | None => (false, t)
    end.

Definition bundles_for (t : Tables) (token group : list byte) (now : Z) : list EncBundle :=
  match t_invites t !! token with
  | Some i =>
      if bool_decide (i_state i = LiveInvite) && (now <? i_expires i) then
        (λ e : (list byte * list byte * Z) * Bundle, mkEncBundle e.1.1.2 e.1.2 (b_ct e.2)) <$>
          merge_sort newer (filter (λ e : (list byte * list byte * Z) * Bundle, e.1.1 = (token, group))
                              (map_to_list (t_bundles t)))
      else []
  | None => []
  end.

(** ** Everything that happens to an invite *)
Inductive invite_step `{Blake3, Ed25519} : Tables → Tables → Prop :=
| s_insert t workspace invite bootstrap now up :
    is_u8 (iv_uses invite) → invite_step t (snd (insert_invite t workspace invite bootstrap now up))
| s_claim t token source now : invite_step t (snd (claim_attempt t token source now))
| s_refund t token source : invite_step t (refund_attempt t token source)
| s_seat t token nonce device expires now : invite_step t (snd (take_seat t token nonce device expires now))
| s_extend t token nonce : invite_step t (snd (extend t token nonce))
| s_commit t token nonce group : invite_step t (record_commit t token nonce group)
| s_consume t token nonce device workspace expires :
    invite_step t (snd (consume t token nonce device workspace expires))
| s_release t now : invite_step t (release_expired t now)
| s_spend t token : invite_step t (snd (spend_in t token))
| s_terminate t token terminal : terminal ≠ LiveInvite → invite_step t (snd (terminate t token terminal))
| s_bootstrap t token nonce : invite_step t (spend_bootstrap t token nonce)
| s_refresh t token b up : invite_step t (snd (refresh_bundle t token b up))
| s_elsewhere t dbs : invite_step t (with_dbs t dbs).

Definition no_invites (dbs : gmap (list byte) Db) : Tables := mkTables ∅ ∅ ∅ ∅ ∅ ∅ dbs.
Definition invites_reachable `{Blake3, Ed25519} (dbs : gmap (list byte) Db) : Tables → Prop :=
  rtc invite_step (no_invites dbs).

(** ** Seats *)
Section seats.
Implicit Types (I : gmap (list byte) Stored) (R : gmap (list byte * list byte) Reservation).

(** A reservation's seat, until it is given back. *)
Definition slot (token : list byte) (k : list byte * list byte) (r : Reservation) : Z :=
  if bool_decide (k.1 = token) && negb (v_released r) then 1 else 0.
Definition sold R (token : list byte) : Z := msum (slot token) R.

Definition seats_ok I R : Prop :=
  (∀ token i, I !! token = Some i →
     0 ≤ i_remaining i ∧ i_remaining i + sold R token ≤ i_uses i ≤ MAX_USES)
  ∧ (∀ k r, R !! k = Some r → is_Some (I !! k.1) ∧ ¬ (v_consumed r = true ∧ v_released r = true)).

Lemma msum_mono `{Countable K} {A} (f g : K → A → Z) (m : gmap K A) :
  (∀ k x, f k x ≤ g k x) → msum f m ≤ msum g m.
Proof.
  intros Hfg. rewrite (msum_ext g (λ k x, f k x + (g k x - f k x)) m) by (intros; lia). rewrite msum_add.
  pose proof (msum_nonneg (λ k x, g k x - f k x) m ltac:(intros k x; specialize (Hfg k x); lia)). lia.
Qed.

Lemma slot_range token k r : 0 ≤ slot token k r ≤ 1.
Proof. unfold slot. case_match; lia. Qed.
Lemma sold_nonneg R token : 0 ≤ sold R token.
Proof. apply msum_nonneg. intros; apply slot_range. Qed.

Lemma sold_none I R token : seats_ok I R → I !! token = None → sold R token = 0.
Proof.
  intros [_ HR] Hn. apply msum_zero. intros k r Hk. destruct (HR k r Hk) as [[i Hi] _].
  unfold slot. case_bool_decide as Heq; [|done]. congruence.
Qed.

(** One invite's row changes, and only downwards. *)
Lemma seats_invite I R token i i' :
  seats_ok I R → I !! token = Some i → i_uses i' = i_uses i → 0 ≤ i_remaining i' ≤ i_remaining i →
  seats_ok (<[token := i']> I) R.
Proof.
  intros [HI HR] Hi Hu Hr. split.
  - intros token' j. destruct (decide (token' = token)) as [->|Hne].
    + rewrite lookup_insert_eq. intros [= <-]. specialize (HI token i Hi). lia.
    + rewrite lookup_insert_ne by done. apply HI.
  - intros k r Hk. destruct (HR k r Hk) as [Hs Hf]. split; [|done].
    destruct (decide (k.1 = token)) as [->|]; [rewrite lookup_insert_eq; by eexists | by rewrite lookup_insert_ne].
Qed.

(** One reservation's row changes without taking a seat. *)
Lemma seats_reservation I R k r r' :
  seats_ok I R → R !! k = Some r → v_released r' = v_released r →
  ¬ (v_consumed r' = true ∧ v_released r' = true) → seats_ok I (<[k := r']> R).
Proof.
  intros [HI HR] Hk Hrel Hf. split.
  - intros token i Hi. specialize (HI token i Hi). unfold sold in *.
    rewrite (msum_insert_Some _ R k r' r Hk). unfold slot at 2 3. rewrite Hrel. lia.
  - intros k' x. destruct (decide (k' = k)) as [->|Hne].
    + rewrite lookup_insert_eq. intros [= <-]. split; [apply (HR k r Hk) | done].
    + rewrite lookup_insert_ne by done. apply HR.
Qed.

(** A seat is taken: one off the invite, one reservation more. *)
Lemma seats_take I R token nonce i r :
  seats_ok I R → I !! token = Some i → 0 < i_remaining i → R !! (token, nonce) = None →
  v_consumed r = false →
  seats_ok (<[token := set_remaining i (i_remaining i - 1)]> I) (<[(token, nonce) := r]> R).
Proof.
  intros [HI HR] Hi Hpos Hnone Hc. split.
  - intros token' j. pose proof (slot_range token' (token, nonce) r). unfold sold.
    rewrite (msum_insert_None _ R _ r Hnone). fold (sold R token').
    destruct (decide (token' = token)) as [->|Hne].
    + rewrite lookup_insert_eq. intros [= <-]. specialize (HI token i Hi). cbn. unfold i_uses in *. cbn in *. lia.
    + rewrite lookup_insert_ne by done. intros Hj. specialize (HI token' j Hj).
      unfold slot. rewrite bool_decide_eq_false_2 by (cbn; congruence). cbn. lia.
  - intros k x. destruct (decide (k = (token, nonce))) as [->|Hne].
    + rewrite lookup_insert_eq. intros [= <-]. cbn [fst]. rewrite lookup_insert_eq. rewrite Hc. split; [by eexists|]. by intros [??].
    + rewrite lookup_insert_ne by done. intros Hk. destruct (HR k x Hk) as [Hs Hf]. split; [|done].
      destruct (decide (k.1 = token)) as [->|]; [rewrite lookup_insert_eq; by eexists | by rewrite lookup_insert_ne].
Qed.

(** A fresh invite starts with all its seats. *)
Lemma seats_new I R token i :
  seats_ok I R → I !! token = None → 0 ≤ i_remaining i → i_remaining i = i_uses i → i_uses i ≤ MAX_USES →
  seats_ok (<[token := i]> I) R.
Proof.
  intros Hok Hn Hr Hu Hm. pose proof (sold_none I R token Hok Hn) as Hs. destruct Hok as [HI HR]. split.
  - intros token' j. destruct (decide (token' = token)) as [->|Hne].
    + rewrite lookup_insert_eq. intros [= <-]. lia.
    + rewrite lookup_insert_ne by done. apply HI.
  - intros k r Hk. destruct (HR k r Hk) as [Hs' Hf]. split; [|done].
    destruct (decide (k.1 = token)) as [->|]; [rewrite lookup_insert_eq; by eexists | by rewrite lookup_insert_ne].
Qed.

(** Reservations are released: the seats they held may go back, never more. *)
Lemma seats_release I R (h : list byte * list byte → Reservation → bool) (give : list byte → Stored → Stored) :
  seats_ok I R → (∀ k r, h k r = true → holding r = true) →
  (∀ token i, I !! token = Some i → i_uses (give token i) = i_uses i
     ∧ i_remaining i ≤ i_remaining (give token i)
       ≤ i_remaining i + msum (λ k r, if bool_decide (k.1 = token) && h k r then 1 else 0) R) →
  seats_ok (map_imap (λ token i, Some (give token i)) I)
    (map_imap (λ k r, Some (if h k r then set_released r else r)) R).
Proof.
  intros [HI HR] Hh Hgive. split.
  - intros token j. rewrite map_lookup_imap. destruct (I !! token) as [i|] eqn:Hi; [|done]. cbn. intros [= <-].
    specialize (HI token i Hi). destruct (Hgive token i Hi) as (-> & Hlo & Hhi). unfold sold.
    rewrite msum_imap. enough (msum (λ k r, slot token k (if h k r then set_released r else r)) R
      + msum (λ k r, if bool_decide (k.1 = token) && h k r then 1 else 0) R = sold R token) by lia.
    rewrite <- msum_add. apply msum_ext. intros k r Hk. unfold slot. specialize (Hh k r). unfold holding in Hh.
    case_bool_decide; cbn; [|done]. destruct (h k r); cbn; [|lia].
    specialize (Hh eq_refl). apply andb_true_iff in Hh as [_ ->]. done.
  - intros k x. rewrite map_lookup_imap. destruct (R !! k) as [r|] eqn:Hk; [|done]. cbn. intros [= <-].
    destruct (HR k r Hk) as [[i Hi] Hf]. split; [rewrite map_lookup_imap, Hi; by eexists|].
    specialize (Hh k r). destruct (h k r); [|done]. specialize (Hh eq_refl). unfold holding in Hh. cbn.
    apply andb_true_iff in Hh as [Hc%negb_true_iff _]. rewrite Hc. by intros [? _].
Qed.
End seats.

(** ** What each operation leaves alone *)
Definition same_seats (t t' : Tables) : Prop := t_invites t' = t_invites t ∧ t_reservations t' = t_reservations t.

#[global] Instance same_seats_preorder : PreOrder same_seats.
Proof. split; [done|]. intros a b c [? ?] [? ?]. split; congruence. Qed.

Lemma claim_same t token source now : same_seats t (snd (claim_attempt t token source now)).
Proof. unfold claim_attempt, charge_attempt. repeat case_match; simplify_eq/=; done. Qed.
Lemma refund_same t token source : same_seats t (refund_attempt t token source).
Proof. unfold refund_attempt. case_match; done. Qed.
Lemma grant_at_same t ws d u : same_seats t (snd (grant_at t ws d u)).
Proof. unfold grant_at. by destruct (grant _ _ _). Qed.
Lemma revoke_grants_same ws l t : same_seats t (fold_left (revoke_grant_at ws) l t).
Proof. revert t. induction l as [|d l IH]; intros t; simpl; [done|]. etransitivity; [|apply IH]. done. Qed.
#[global] Hint Resolve claim_same refund_same grant_at_same revoke_grants_same : relay.

(** ** Every step keeps the seats *)
Definition tables_ok (t : Tables) : Prop := seats_ok (t_invites t) (t_reservations t).

Lemma same_ok t t' : same_seats t t' → tables_ok t → tables_ok t'.
Proof. unfold tables_ok. by intros [-> ->]. Qed.

Lemma take_seat_ok t token nonce d e now : tables_ok t → tables_ok (snd (take_seat t token nonce d e now)).
Proof.
  intros Hok. unfold take_seat. destruct (t_invites t !! token) as [i|] eqn:Hi; [|done].
  case_bool_decide; cbn [andb]; [|done]. destruct (Z.ltb_spec 0 (i_remaining i)) as [Hpos|]; cbn [andb]; [|done].
  destruct (now <? i_expires i); [|done]. destruct (t_reservations t !! (token, nonce)) eqn:Hn; [done|].
  match goal with |- context [grant_at ?x ?ws ?d ?u] =>
    pose proof (grant_at_same x ws d u) as Hs; destruct (grant_at x ws d u) as [[] t'] end; [|done].
  cbn [snd] in *. eapply same_ok; [exact Hs|]. by apply seats_take.
Qed.

Lemma extend_ok t token nonce : tables_ok t → tables_ok (snd (extend t token nonce)).
Proof.
  intros Hok. unfold extend. destruct (t_invites t !! token) as [i|] eqn:Hi; [|done].
  destruct (t_reservations t !! (token, nonce)) as [r|] eqn:Hr; [|done].
  destruct (negb (v_extended r) && holding r && _) eqn:Hg; [|done].
  apply andb_true_iff in Hg as [[_ [Hc%negb_true_iff Hrel%negb_true_iff]%andb_true_iff]%andb_true_iff _].
  assert (tables_ok (with_reservations t (<[(token, nonce) :=
    mkReservation (v_device r) (i_expires i) true (v_consumed r) (v_released r)]> (t_reservations t)))) as Hok'.
  { apply (seats_reservation _ _ _ r); [done | done | done |]. cbn. rewrite Hc. by intros [? _]. }
  cbn [snd]. repeat case_match; done.
Qed.

Lemma spend_in_ok t token : tables_ok t → tables_ok (snd (spend_in t token)).
Proof.
  intros Hok. unfold spend_in. destruct (t_invites t !! token) as [i|] eqn:Hi; [|done].
  case_bool_decide; [|done]. destruct Hok as [HI HR]. apply (seats_invite _ _ token i); [done | done | done |].
  specialize (HI token i Hi). cbn. lia.
Qed.

Lemma consume_ok t token nonce d ws e : tables_ok t → tables_ok (snd (consume t token nonce d ws e)).
Proof.
  intros Hok. unfold consume. destruct (t_reservations t !! (token, nonce)) as [r|] eqn:Hr; [|done].
  destruct (holding r) eqn:Hh; [|done]. apply andb_true_iff in Hh as [_ Hrel%negb_true_iff]. cbn [snd].
  set (t1 := with_reservations t _). assert (tables_ok t1) as Hok1.
  { apply (seats_reservation _ _ _ r); [done | done | done |]. cbn. rewrite Hrel. by intros [_ ?]. }
  assert (tables_ok (snd (grant_at t1 ws d e))) as Hok2 by (eapply same_ok; [apply grant_at_same | done]).
  repeat case_match; [by apply spend_in_ok | done | done].
Qed.

Lemma freed_le t now token : 0 ≤ freed t now token.
Proof. apply msum_nonneg. intros. case_match; lia. Qed.

Lemma release_ok t now : tables_ok t → tables_ok (release_expired t now).
Proof.
  intros Hok. apply (seats_release _ _ (λ _ r, expiring now r)
    (λ token i, if freed t now token =? 0 then i
                else set_remaining i (Z.min (i_remaining i + freed t now token) (i_uses i)))); [done | |].
  - intros _ r [? _]%andb_true_iff. done.
  - intros token i Hi. fold (freed t now token). pose proof (freed_le t now token).
    destruct Hok as [HI _]. specialize (HI token i Hi). pose proof (sold_nonneg (t_reservations t) token).
    destruct (Z.eqb_spec (freed t now token) 0); [lia|]. unfold i_uses in *. cbn. lia.
Qed.

Lemma terminate_ok t token s : tables_ok t → tables_ok (snd (terminate t token s)).
Proof.
  intros Hok. unfold terminate. destruct (t_invites t !! token) as [i|] eqn:Hi; [|done]. cbn [snd].
  eapply same_ok; [apply revoke_grants_same|]. unfold terminate_rows, tables_ok. cbn.
  assert (seats_ok (map_imap (λ _ i, Some i) (t_invites t)) (map_imap (λ k r, Some (if bool_decide (k.1 = token) && holding r then set_released r else r)) (t_reservations t))) as Hr.
  { apply (seats_release _ _ (λ k r, bool_decide (k.1 = token) && holding r) (λ _ i, i)); [done | |].
    - intros k r [_ ?]%andb_true_iff. done.
    - intros token' j _. split; [done|].
      match goal with |- context [msum ?f ?m] => pose proof (msum_nonneg f m ltac:(intros; cbn; case_match; lia)) end. lia. }
  assert (map_imap (λ _ i, Some i) (t_invites t) = t_invites t) as Hid.
  { apply map_eq. intros k. rewrite map_lookup_imap. by destruct (t_invites t !! k). }
  rewrite Hid in Hr. destruct Hok as [HI _]. specialize (HI token i Hi).
  apply (seats_invite _ _ token i); [done | done | done |]. cbn. lia.
Qed.

Lemma spend_bootstrap_ok t token nonce : tables_ok t → tables_ok (spend_bootstrap t token nonce).
Proof.
  intros Hok. unfold spend_bootstrap. destruct (t_invites t !! token) as [i|] eqn:Hi; [|done].
  destruct (t_reservations t !! (token, nonce)) as [r|] eqn:Hr; [|done]. destruct (holding r) eqn:Hh; [|done].
  apply andb_true_iff in Hh as [_ Hrel%negb_true_iff]. unfold tables_ok. cbn.
  assert (seats_ok (t_invites t) (<[(token, nonce) := set_consumed r]> (t_reservations t))) as Hr'.
  { apply (seats_reservation _ _ _ r); [done | done | done |]. cbn. rewrite Hrel. by intros [_ ?]. }
  destruct Hok as [HI _]. specialize (HI token i Hi).
  apply (seats_invite _ _ token i); [done | done | done |]. cbn. lia.
Qed.

Section steps.
Context `{Blake3, Ed25519}.

Lemma insert_ok t ws invite b now up :
  is_u8 (iv_uses invite) → tables_ok t → tables_ok (snd (insert_invite t ws invite b now up)).
Proof using Type*.
  intros Hu Hok. unfold insert_invite. destruct (invite_judge _ _ _) as [[]|] eqn:Hj; [|done].
  destruct (t_invites t !! iv_token invite) eqn:Hn; [done|]. destruct (insert_bundles _ _ _ _); [|done].
  apply invite_judge_spec in Hj as ((_ & _ & _ & _ & _ & Huses & _) & _); [|by destruct Hu].
  apply seats_new; try done; unfold i_uses; cbn; lia.
Qed.

Lemma invite_step_ok t t' : invite_step t t' → tables_ok t → tables_ok t'.
Proof using Type*.
  intros Hs Hok. destruct Hs; eauto using insert_ok, take_seat_ok, extend_ok, consume_ok, release_ok, spend_in_ok,
    terminate_ok, spend_bootstrap_ok, same_ok, claim_same, refund_same.
  - eapply same_ok; [|done]. unfold refresh_bundle. repeat case_match; done.
Qed.

Lemma reachable_tables_ok dbs t : invites_reachable dbs t → tables_ok t.
Proof using Type*.
  intros Hr. unfold invites_reachable in Hr. remember (no_invites dbs) as t0 eqn:E.
  assert (tables_ok t0) as Hok0 by (rewrite E; split; intros ? ? Hx; cbn in Hx; by rewrite lookup_empty in Hx).
  clear E. induction Hr; eauto using invite_step_ok.
Qed.
End steps.

(** The devices an invite has admitted for good. *)
Definition admitted (t : Tables) (token : list byte) : Z :=
  msum (λ k r, if bool_decide (k.1 = token) && v_consumed r then 1 else 0) (t_reservations t).

Lemma sold_split t token : tables_ok t → sold (t_reservations t) token = admitted t token + seats_held t token.
Proof.
  intros [_ HR]. unfold sold, admitted, seats_held. rewrite <- msum_add. apply msum_ext. intros k r Hk.
  destruct (HR k r Hk) as [_ Hf]. unfold slot, holding. case_bool_decide; [|done].
  destruct (v_consumed r), (v_released r); cbn; (done || (exfalso; apply Hf; done)).
Qed.

(** C4. Seats are never oversold: under any interleaving of redemptions, parked
    joins, final commits, releases, expiry sweeps, revocations and the genesis
    consumption, the devices an invite has admitted, the seats being held and
    the seats left to sell never add up to more than the uses its issuer signed,
    which are at most sixty-four. *)
Theorem seats_never_oversold `{Blake3, Ed25519} dbs t token i :
  invites_reachable dbs t → t_invites t !! token = Some i →
  0 ≤ i_remaining i
  ∧ admitted t token + seats_held t token + i_remaining i ≤ iv_uses (i_invite i) ≤ MAX_USES.
Proof.
  intros Hr Hi. pose proof (reachable_tables_ok dbs t Hr) as Hok. rewrite Z.add_comm, <- sold_split by done.
  destruct Hok as [HI _]. specialize (HI token i Hi). unfold i_uses in HI. lia.
Qed.

(** ** Guesses *)
Inductive AttemptEvent : Type :=
| Claim (token source : list byte) (now : Z)
| Refund (token source : list byte).

Definition attempt_run (t : Tables) (e : AttemptEvent) : Tables :=
  match e with
  | Claim token source now => snd (claim_attempt t token source now)
  | Refund token source => refund_attempt t token source
  end.

(** Codes of one pair that reached the verifier and were not right. *)
Fixpoint guesses (p : list byte * list byte) (t : Tables) (events : list AttemptEvent) : Z :=
  match events with
  | [] => 0
  | e :: rest =>
      (match e with
       | Claim token source now => if bool_decide (p = (token, source)) && fst (claim_attempt t token source now) then 1 else 0
       | Refund token source => if bool_decide (p = (token, source)) then -1 else 0
       end) + guesses p (attempt_run t e) rest
  end.

(** The relay's clock does not run backwards. *)
Fixpoint clocked (clock : Z) (events : list AttemptEvent) : Prop :=
  match events with
  | [] => True
  | Claim _ _ now :: rest => clock ≤ now ∧ clocked now rest
  | Refund _ _ :: rest => clocked clock rest
  end.

Definition within (s : Z) (e : AttemptEvent) : Prop :=
  match e with Claim _ _ now => s ≤ now < s + cooldown_ms | Refund _ _ => True end.

Section guesses.
Implicit Types (A : gmap (list byte * list byte) Attempt).

Definition attempt_ok (clock : Z) (a : Attempt) : Prop :=
  0 ≤ a_failures a ≤ MAX_FAILURES ∧ a_window a ≤ clock
  ∧ (a_failures a = MAX_FAILURES → ∃ until, a_cooldown a = Some until ∧ a_window a + cooldown_ms ≤ until).
Definition attempts_ok (clock : Z) A : Prop := ∀ k a, A !! k = Some a → attempt_ok clock a.

Lemma attempts_ok_mono c c' A : c ≤ c' → attempts_ok c A → attempts_ok c' A.
Proof. intros Hc Hok k a Ha. destruct (Hok k a Ha) as (? & ? & ?). split; [done | split; [lia | done]]. Qed.

(** What one pair may still guess before its fifteen minutes are over. *)
Definition allowance (s : Z) A (p : list byte * list byte) : Z :=
  match A !! p with
  | None => MAX_FAILURES
  | Some a => MAX_FAILURES - a_failures a + (if a_window a <? s then MAX_FAILURES else 0)
  end.

Lemma allowance_range c s A p : attempts_ok c A → 0 ≤ allowance s A p ≤ 2 * MAX_FAILURES.
Proof.
  intros Hok. unfold allowance, MAX_FAILURES. destruct (A !! p) as [a|] eqn:Ha; [|lia].
  destruct (Hok p a Ha) as [Hf _]. unfold MAX_FAILURES in Hf. case_match; lia.
Qed.

Lemma sweep_lookup t token now k :
  t_attempts (sweep_attempts t token now) !! k
  = match t_attempts t !! k with
    | Some a => if bool_decide (k.1 = token) && negb (recent a now) then None else Some a
    | None => None
    end.
Proof.
  unfold sweep_attempts. cbn. destruct (t_attempts t !! k) as [a|] eqn:Ha.
  - case_bool_decide as Hk; cbn [andb].
    + destruct (recent a now) eqn:Hr; cbn [negb].
      * apply map_lookup_filter_Some. split; [done|]. cbn. intros [_ ?]. congruence.
      * apply map_lookup_filter_None. right. intros x Hx. cbn. rewrite Ha in Hx. injection Hx as <-. tauto.
    + apply map_lookup_filter_Some. split; [done|]. cbn. tauto.
  - apply map_lookup_filter_None. by left.
Qed.

Lemma recent_window a now : recent a now = false → a_window a ≤ now - cooldown_ms.
Proof. unfold recent. intros [?%Z.ltb_ge _]%orb_false_iff. lia. Qed.

(** A row that is not cooling down and was not swept has slots left. *)
Lemma charged_below clock a now :
  attempt_ok clock a → recent a now = true → cooling a now = false → a_failures a < MAX_FAILURES.
Proof.
  intros (Hf & _ & Hc) Hr Hcool. destruct (decide (a_failures a = MAX_FAILURES)) as [He|]; [|lia].
  destruct (Hc He) as (u & Hu & Hle). unfold recent in Hr. rewrite Hcool, orb_false_r in Hr.
  unfold cooling in Hcool. rewrite Hu in Hcool. apply Z.ltb_lt in Hr. apply Z.ltb_ge in Hcool. lia.
Qed.

Lemma sweep_ok clock now t token :
  clock ≤ now → attempts_ok clock (t_attempts t) → attempts_ok now (t_attempts (sweep_attempts t token now)).
Proof.
  intros Hc Hok. apply (attempts_ok_mono clock); [done|]. intros k a. rewrite sweep_lookup.
  destruct (t_attempts t !! k) as [a'|] eqn:Ha; [|done]. case_match; [done|]. intros [= <-]. by apply (Hok k).
Qed.

Lemma sweep_allowance s now t token p :
  s ≤ now < s + cooldown_ms → attempts_ok now (t_attempts (sweep_attempts t token now)) →
  (∀ a, t_attempts t !! p = Some a → a_failures a ≤ MAX_FAILURES) →
  allowance s (t_attempts (sweep_attempts t token now)) p ≤ allowance s (t_attempts t) p.
Proof.
  intros Hs Hok Hf. unfold allowance. rewrite sweep_lookup. destruct (t_attempts t !! p) as [a|] eqn:Ha; [|done].
  specialize (Hf a eq_refl). case_bool_decide; cbn [andb]; [|done].
  destruct (recent a now) eqn:Hr; cbn [negb]; [done|]. apply recent_window in Hr.
  rewrite (proj2 (Z.ltb_lt _ _)) by lia. lia.
Qed.

Lemma charge_step clock t token source now :
  clock ≤ now → attempts_ok clock (t_attempts t) →
  (∀ a, t_attempts t !! (token, source) = Some a → recent a now = true) →
  let '(r, t') := charge_attempt t token source now in
  attempts_ok now (t_attempts t')
  ∧ ∀ s p, s ≤ now → (if bool_decide (p = (token, source)) && match r with Some _ => true | None => false end then 1 else 0)
      + allowance s (t_attempts t') p ≤ allowance s (t_attempts t) p.
Proof.
  intros Hc Hok Hrec. unfold charge_attempt.
  destruct (t_attempts t !! (token, source)) as [a|] eqn:Ha.
  - destruct (cooling a now) eqn:Hcool.
    { split; [by apply (attempts_ok_mono clock)|]. intros s p _. rewrite andb_comm. cbn. lia. }
    pose proof (charged_below clock a now (Hok _ _ Ha) (Hrec a eq_refl) Hcool) as Hlt.
    destruct (Hok _ _ Ha) as (Hf & Hw & Hcd). cbn [t_attempts with_attempts]. split.
    + intros k x. destruct (decide (k = (token, source))) as [->|Hne].
      * rewrite lookup_insert_eq. intros [= <-]. split; [cbn; lia|]. split; [cbn; lia|]. cbn. intros He.
        rewrite (proj2 (Z.leb_le _ _)) by lia. eexists. split; [done|lia].
      * rewrite lookup_insert_ne by done. intros Hx. by apply (attempts_ok_mono clock now _ Hc Hok k).
    + intros s p Hs. unfold allowance. case_bool_decide as Hp; cbn [andb].
      * subst p. rewrite lookup_insert_eq, Ha. cbn. lia.
      * rewrite lookup_insert_ne by done. lia.
  - cbn [t_attempts with_attempts]. split.
    + intros k x. destruct (decide (k = (token, source))) as [->|Hne].
      * rewrite lookup_insert_eq. intros [= <-]. unfold attempt_ok, MAX_FAILURES. cbn. lia.
      * rewrite lookup_insert_ne by done. intros Hx. by apply (attempts_ok_mono clock now _ Hc Hok k).
    + intros s p Hs. unfold allowance. case_bool_decide as Hp; cbn [andb].
      * subst p. rewrite lookup_insert_eq, Ha. cbn. rewrite (proj2 (Z.ltb_ge _ _)) by lia. lia.
      * rewrite lookup_insert_ne by done. lia.
Qed.

Lemma claim_step clock t token source now :
  clock ≤ now → attempts_ok clock (t_attempts t) →
  attempts_ok now (t_attempts (snd (claim_attempt t token source now)))
  ∧ ∀ s p, s ≤ now < s + cooldown_ms →
      (if bool_decide (p = (token, source)) && fst (claim_attempt t token source now) then 1 else 0)
      + allowance s (t_attempts (snd (claim_attempt t token source now))) p ≤ allowance s (t_attempts t) p.
Proof.
  intros Hc Hok. pose proof (sweep_ok clock now t token Hc Hok) as Hsw. unfold claim_attempt.
  pose proof (charge_step now (sweep_attempts t token now) token source now ltac:(lia) Hsw) as Hch.
  destruct (charge_attempt _ _ _ _) as [r t'] eqn:E. destruct Hch as [Hok' Hall].
  { intros a. rewrite sweep_lookup. destruct (t_attempts t !! _) as [a'|]; [|done].
    rewrite bool_decide_eq_true_2 by done. cbn. destruct (recent a' now) eqn:Hr; cbn; [|done]. by intros [= <-]. }
  assert (∀ s p, s ≤ now < s + cooldown_ms →
    allowance s (t_attempts (sweep_attempts t token now)) p ≤ allowance s (t_attempts t) p) as Hswa.
  { intros s p Hs. apply sweep_allowance; [done | done |]. intros a Ha. by destruct (Hok p a Ha) as [[_ ?] _]. }
  split; [by repeat case_match; simplify_eq/=|]. intros s p Hs. specialize (Hall s p ltac:(lia)).
  specialize (Hswa s p Hs). destruct r as [[f total]|]; cbn [fst snd] in *.
  - rewrite andb_true_r in Hall.
    case_bool_decide; cbn [andb] in *; [case_match|]; lia.
  - rewrite andb_false_r in *. lia.
Qed.

Lemma refund_step clock t token source :
  attempts_ok clock (t_attempts t) →
  attempts_ok clock (t_attempts (refund_attempt t token source))
  ∧ ∀ s p, (if bool_decide (p = (token, source)) then -1 else 0)
      + allowance s (t_attempts (refund_attempt t token source)) p ≤ allowance s (t_attempts t) p.
Proof.
  intros Hok. unfold refund_attempt. destruct (t_attempts t !! (token, source)) as [a|] eqn:Ha.
  2: { split; [done|]. intros s p. case_match; lia. }
  destruct (Hok _ _ Ha) as (Hf & Hw & Hcd). cbn [t_attempts with_attempts]. split.
  - intros k x. destruct (decide (k = (token, source))) as [->|Hne].
    + rewrite lookup_insert_eq. intros [= <-]. unfold attempt_ok, MAX_FAILURES in *. cbn. split; [lia|]. split; [done|]. lia.
    + rewrite lookup_insert_ne by done. apply Hok.
  - intros s p. unfold allowance. case_bool_decide as Hp.
    + subst p. rewrite lookup_insert_eq, Ha. cbn. lia.
    + rewrite lookup_insert_ne by done. lia.
Qed.

Lemma guesses_allowance clock s p t events :
  attempts_ok clock (t_attempts t) → clocked clock events → Forall (within s) events →
  guesses p t events ≤ allowance s (t_attempts t) p.
Proof.
  revert clock t. induction events as [|e events IH]; intros clock t Hok Hclk Hin; cbn [guesses].
  { pose proof (allowance_range clock s _ p Hok). lia. }
  apply Forall_cons in Hin as [He Hin]. destruct e as [token source now|token source]; cbn in Hclk, He |- *.
  - destruct Hclk as [Hc Hclk]. destruct (claim_step clock t token source now Hc Hok) as [Hok' Hall].
    specialize (IH now _ Hok' Hclk Hin). specialize (Hall s p He). lia.
  - destruct (refund_step clock t token source Hok) as [Hok' Hall].
    specialize (IH clock _ Hok' Hclk Hin). specialize (Hall s p). lia.
Qed.

Lemma run_ok clock t before inside :
  attempts_ok clock (t_attempts t) → clocked clock (before ++ inside) →
  ∃ clock', attempts_ok clock' (t_attempts (fold_left attempt_run before t)) ∧ clocked clock' inside.
Proof.
  revert clock t. induction before as [|e before IH]; intros clock t Hok Hclk; [by exists clock|].
  cbn [app fold_left]. destruct e as [token source now|token source]; cbn in Hclk |- *.
  - destruct Hclk as [Hc Hclk]. apply (IH now); [|done]. by apply (claim_step clock).
  - apply (IH clock); [|done]. by apply refund_step.
Qed.
End guesses.

(** C34. Guesses at a code are bounded: over any fifteen minutes, after any history
    of attempts by anybody, at most ten codes typed from one source against one
    invite reach Argon2id without being right, whatever other sources do and
    however the attempts interleave. *)
Theorem guesses_bounded dbs before inside s p clock :
  clocked clock (before ++ inside) → Forall (within s) inside →
  guesses p (fold_left attempt_run before (no_invites dbs)) inside ≤ 2 * MAX_FAILURES.
Proof.
  intros Hclk Hin. destruct (run_ok clock (no_invites dbs) before inside) as (c & Hok & Hc); [|done|].
  { intros k a Ha. cbn in Ha. by rewrite lookup_empty in Ha. }
  pose proof (guesses_allowance c s p _ inside Hok Hc Hin).
  pose proof (allowance_range c s _ p Hok). lia.
Qed.

(** ** A redemption, branch by branch *)
Lemma claim_dbs t token source now : t_dbs (snd (claim_attempt t token source now)) = t_dbs t.
Proof. unfold claim_attempt, charge_attempt. repeat case_match; simplify_eq/=; done. Qed.
Lemma refund_dbs t token source : t_dbs (refund_attempt t token source) = t_dbs t.
Proof. unfold refund_attempt. case_match; done. Qed.

(** Nothing but the attempts table moved. *)
Definition costless (t t' : Tables) : Prop := same_seats t t' ∧ t_dbs t' = t_dbs t.

#[global] Instance costless_preorder : PreOrder costless.
Proof. split; [done|]. intros a b c [? ?] [? ?]. split; [by etransitivity | congruence]. Qed.

Definition grant_of (t : Tables) (workspace device : list byte) : option Grant := grant_rows (db_at t workspace) !! device.

Lemma take_seat_spec t token nonce device e now r t' :
  take_seat t token nonce device e now = (r, t') →
  match r with
  | Ok true => ∃ i, t_invites t !! token = Some i ∧ 0 < i_remaining i ∧ t_reservations t !! (token, nonce) = None
      ∧ t_invites t' = <[token := set_remaining i (i_remaining i - 1)]> (t_invites t)
      ∧ t_reservations t' = <[(token, nonce) := mkReservation device e false false false]> (t_reservations t)
      ∧ grant_of t' (i_workspace i) device = Some (mkGrant e None false)
  | _ => t' = t
  end.
Proof.
  unfold take_seat. destruct (t_invites t !! token) as [i|] eqn:Hi; [|by intros [= <- <-]].
  case_bool_decide; cbn [andb]; [|by intros [= <- <-]].
  destruct (Z.ltb_spec 0 (i_remaining i)); cbn [andb]; [|by intros [= <- <-]].
  destruct (now <? i_expires i); [|by intros [= <- <-]].
  destruct (t_reservations t !! (token, nonce)) eqn:Hn; [by intros [= <- <-]|].
  unfold grant_at. destruct (grant _ _ _) as [[] db] eqn:Hg; intros [= <- <-]; [|done].
  exists i. do 5 (split; [done|]). unfold grant_of, db_at. cbn. rewrite lookup_insert_eq. cbn.
  unfold grant in Hg. repeat case_match; simplify_eq/=; by rewrite lookup_insert_eq.
Qed.

Lemma take_seat_current t token nonce device e now t' :
  take_seat t token nonce device e now = (Ok true, t') →
  ∃ i, t_invites t !! token = Some i ∧ i_state i = LiveInvite ∧ now < i_expires i.
Proof.
  unfold take_seat. destruct (t_invites t !! token) as [i|] eqn:Hi; [|by intros [= <- <-]].
  case_bool_decide; cbn [andb]; [|by intros [= <- <-]].
  destruct (0 <? i_remaining i); cbn [andb]; [|by intros [= <- <-]].
  destruct (Z.ltb_spec now (i_expires i)); [|by intros [= <- <-]]. intros _. by exists i.
Qed.

Section redemption.
Context `{Argon2, Blake3}.

(** What a [Reserved] answer vouches for. *)
Definition reserved_for (t t' : Tables) (token : list byte) (code : list Z) (nonce device : list byte) (now e : Z) : Prop :=
  ∃ i parsed,
    t_invites t !! token = Some i ∧ i_state i = LiveInvite ∧ now < iv_expires (i_invite i)
    ∧ parse_code code = Ok parsed ∧ verify_code parsed token (iv_code_hash (i_invite i)) = true
    ∧ grant_is_voided (db_at t (i_workspace i)) device = false
    ∧ ((live_reservation t token nonce now = Some e ∧ costless t t')
       ∨ (0 < i_remaining i ∧ t_reservations t !! (token, nonce) = None
          ∧ t_invites t' = <[token := set_remaining i (i_remaining i - 1)]> (t_invites t)
          ∧ t_reservations t' = <[(token, nonce) := mkReservation device e false false false]> (t_reservations t)
          ∧ grant_of t' (i_workspace i) device = Some (mkGrant e None false)
          ∧ e = Z.min (now + RESERVATION_SECONDS * 1000) (i_expires i))).

(** One redemption, on every branch: a seat is answered only for a live,
    unexpired invite and the right code, to a device whose grant was not voided;
    it is either the nonce's own live reservation, at no cost, or one seat off
    the invite with its reservation and its connection grant written together.
    Every other answer leaves seats, reservations and grants as they were. *)
Theorem reserve_outcome t token code nonce device source now r t' :
  reserve t token code nonce device source now = (r, t') →
  match r with
  | Ok (Reserved e) => reserved_for t t' token code nonce device now e
  | Ok Unavailable | Err _ => costless t t'
  end.
Proof.
  unfold reserve. destruct (cooled_down t token source now); [by intros [= <- <-]|].
  destruct (t_invites t !! token) as [i|] eqn:Hi; [|by intros [= <- <-]].
  case_bool_decide as Hlive; cbn [negb orb]; [|by intros [= <- <-]].
  destruct (Z.leb_spec (iv_expires (i_invite i)) (Z.max now 0)); [by intros [= <- <-]|].
  assert (costless t (snd (claim_attempt t token source now))) as Hc by (split; [apply claim_same | apply claim_dbs]).
  destruct (claim_attempt t token source now) as [claimed t1]. cbn [snd] in Hc.
  destruct claimed; cbn [negb]; [|by intros [= <- <-]].
  destruct (parse_code code) as [parsed|] eqn:Hp; [|by intros [= <- <-]].
  destruct (verify_code parsed token _) eqn:Hv; cbn [negb]; [|by intros [= <- <-]].
  set (t2 := refund_attempt t1 token source).
  assert (costless t t2) as Hc2.
  { etransitivity; [exact Hc|]. split; [apply refund_same | apply refund_dbs]. }
  assert (db_at t2 (i_workspace i) = db_at t (i_workspace i)) as Hdb by (unfold db_at; by rewrite (proj2 Hc2)).
  destruct (grant_is_voided (db_at t2 (i_workspace i)) device) eqn:Hvoid; [by intros [= <- <-]|].
  rewrite Hdb in Hvoid. destruct Hc2 as [[Hinv Hres] Hdbs].
  assert (live_reservation t2 token nonce now = live_reservation t token nonce now) as Hlr
    by (unfold live_reservation; by rewrite Hres).
  rewrite Hlr. destruct (live_reservation t token nonce now) as [existing|] eqn:El.
  { intros [= <- <-]. exists i, parsed. do 6 (split; [done || lia|]). left. done. }
  destruct (take_seat _ _ _ _ _ _) as [r3 t3] eqn:Ht. apply take_seat_spec in Ht.
  destruct r3 as [[]|e]; intros [= <- <-]; [|by subst t3..].
  destruct Ht as (j & Hj & Hpos & Hnone & Hinv' & Hres' & Hg). rewrite Hinv in Hj. rewrite Hi in Hj. injection Hj as <-.
  exists i, parsed. rewrite <- Hinv, <- Hres. rewrite Hinv at 1. do 6 (split; [done || lia|]). right. done.
Qed.
End redemption.

(** ** The end of an invite is final *)
Definition ends_kept (I I' : gmap (list byte) Stored) : Prop :=
  ∀ token i, I !! token = Some i → ∃ i', I' !! token = Some i' ∧ (i_state i ≠ LiveInvite → i_state i' ≠ LiveInvite).

#[global] Instance ends_kept_preorder : PreOrder ends_kept.
Proof.
  split; [intros I token i Hi; by exists i|]. intros I J K HIJ HJK token i Hi.
  destruct (HIJ token i Hi) as (j & Hj & Hs). destruct (HJK token j Hj) as (k & Hk & Hs'). exists k. auto.
Qed.

Lemma ends_kept_insert I token i' :
  (∀ i, I !! token = Some i → i_state i ≠ LiveInvite → i_state i' ≠ LiveInvite) → ends_kept I (<[token := i']> I).
Proof.
  intros Hs token' i Hi. destruct (decide (token' = token)) as [->|Hne].
  - rewrite lookup_insert_eq. exists i'. eauto.
  - rewrite lookup_insert_ne by done. by exists i.
Qed.

Definition kept (t t' : Tables) : Prop :=
  ends_kept (t_invites t) (t_invites t') ∧ ∀ token, is_Some (t_tombstones t !! token) → is_Some (t_tombstones t' !! token).

#[global] Instance kept_preorder : PreOrder kept.
Proof. split; [done|]. intros a b c [H1 H2] [H3 H4]. split; [by etransitivity | auto]. Qed.

Lemma revoke_grants_kept ws l t : kept t (fold_left (revoke_grant_at ws) l t).
Proof. revert t. induction l as [|d l IH]; intros t; simpl; [done|]. etransitivity; [|apply IH]. done. Qed.

(** Rewriting one invite's row, everything else in the tables free. *)
Lemma kept_insert t t' token i i' :
  t_invites t !! token = Some i → t_invites t' = <[token := i']> (t_invites t) →
  (i_state i ≠ LiveInvite → i_state i' ≠ LiveInvite) → t_tombstones t' = t_tombstones t → kept t t'.
Proof.
  intros Hi HI Hs HT. split; [rewrite HI; apply ends_kept_insert; naive_solver | by rewrite HT].
Qed.

Lemma spend_in_kept t token : kept t (snd (spend_in t token)).
Proof.
  unfold spend_in. destruct (t_invites t !! token) as [i|] eqn:Hi; [|done]. case_bool_decide; [|done].
  by apply (kept_insert _ _ token i (set_invite_state i SpentInvite)).
Qed.

Lemma take_seat_kept t token nonce d e now : kept t (snd (take_seat t token nonce d e now)).
Proof.
  unfold take_seat, grant_at. repeat case_match; simplify_eq/=; try done.
  eapply kept_insert; [done | cbn; reflexivity | done | done].
Qed.

Lemma consume_kept t token nonce d ws e : kept t (snd (consume t token nonce d ws e)).
Proof.
  unfold consume. destruct (t_reservations t !! (token, nonce)) as [r|]; [|done]. destruct (holding r); [|done].
  cbn [snd]. set (t1 := with_reservations t _).
  assert (kept t (snd (grant_at t1 ws d e))) as Hk by (unfold grant_at; by destruct (grant _ _ _)).
  repeat case_match; [etransitivity; [exact Hk | apply spend_in_kept] | done | done].
Qed.

Lemma terminate_kept t token s : s ≠ LiveInvite → kept t (snd (terminate t token s)).
Proof.
  intros Hs. unfold terminate. destruct (t_invites t !! token) as [i|] eqn:Hi; [|done]. cbn [snd].
  etransitivity; [|apply revoke_grants_kept]. split; cbn.
  - apply ends_kept_insert. done.
  - intros token' Ht. destruct (decide (token' = token)) as [->|]; [rewrite lookup_insert_eq; by eexists | by rewrite lookup_insert_ne].
Qed.

Lemma release_kept t now : kept t (release_expired t now).
Proof.
  split; [|done]. intros token i Hi. cbn. rewrite map_lookup_imap, Hi. cbn. eexists. split; [done|].
  by case_match.
Qed.

Lemma invite_step_kept `{Blake3, Ed25519} t t' : invite_step t t' → kept t t'.
Proof.
  intros [ | | | | | | | | | | | | ]; try done; eauto using spend_in_kept, take_seat_kept, consume_kept, terminate_kept, release_kept.
  - unfold insert_invite. repeat case_match; try done. split; [|done]. cbn. apply ends_kept_insert. congruence.
  - unfold claim_attempt, charge_attempt. repeat case_match; simplify_eq/=; done.
  - unfold refund_attempt. case_match; done.
  - unfold extend. repeat case_match; done.
  - unfold spend_bootstrap. repeat case_match; try done.
    eapply kept_insert; [done | cbn; reflexivity | done | done].
  - unfold refresh_bundle. repeat case_match; done.
Qed.

Lemma invite_steps_kept `{Blake3, Ed25519} t t' : rtc invite_step t t' → kept t t'.
Proof. induction 1 as [|t u v Hs _ IH]; [done|]. etransitivity; [by apply invite_step_kept | done]. Qed.

Definition dead_grant (t : Tables) (ws device : list byte) : Prop :=
  ∀ g, grant_of t ws device = Some g → voided g = true.

Lemma revoke_grant_dead t ws d d' :
  d' = d ∨ dead_grant t ws d' → dead_grant (revoke_grant_at ws t d) ws d'.
Proof.
  intros Hd g. unfold grant_of, revoke_grant_at, db_at. cbn. rewrite lookup_insert_eq. cbn. fold (db_at t ws).
  unfold revoke_grant. destruct (grant_rows (db_at t ws) !! d) as [g0|] eqn:Hg.
  - destruct (voided g0) eqn:Hv; cbn.
    + destruct Hd as [->|Hd]; [congruence | apply Hd].
    + destruct (decide (d' = d)) as [->|Hne]; [rewrite lookup_insert_eq; by intros [= <-]|].
      rewrite lookup_insert_ne by done. destruct Hd as [?|Hd]; [done | apply Hd].
  - cbn. destruct Hd as [->|Hd]; [congruence | apply Hd].
Qed.

Lemma revoke_grants_dead ws l t d : d ∈ l ∨ dead_grant t ws d → dead_grant (fold_left (revoke_grant_at ws) l t) ws d.
Proof.
  revert t. induction l as [|x l IH]; intros t Hd; simpl; [set_solver|]. apply IH.
  destruct Hd as [[->|Hin]%elem_of_cons|Hd]; [right | by left | right]; apply revoke_grant_dead; [by left | by right].
Qed.

Lemma devices_of_elem t token nonce r :
  t_reservations t !! (token, nonce) = Some r → v_device r ∈ devices_of t token.
Proof.
  intros Hr. unfold devices_of. apply elem_of_remove_dups, list_elem_of_fmap. exists (token, nonce, r).
  split; [done|]. apply list_elem_of_filter. split; [done|]. by apply elem_of_map_to_list.
Qed.

Section final.
Context `{Argon2, Blake3, Ed25519}.

(** Ending an invite is final and complete: once an invite has been revoked,
    no later sequence of requests and sweeps reserves a seat on it, extends or
    commits a join begun on it, or serves its sealed bundles, and every grant a
    reservation on it had earned is void. *)
Theorem terminated_is_final t token terminal i t' :
  terminal ≠ LiveInvite → t_invites t !! token = Some i →
  rtc invite_step (snd (terminate t token terminal)) t' →
  (∀ code nonce device source now, fst (reserve t' token code nonce device source now) = Ok Unavailable)
  ∧ (∀ nonce device group now, fst (scope_commit t' token nonce device group now) = None)
  ∧ (∀ nonce, fst (extend t' token nonce) = false)
  ∧ (∀ group now, bundles_for t' token group now = [])
  ∧ (∀ nonce r, t_reservations t !! (token, nonce) = Some r →
       dead_grant (snd (terminate t token terminal)) (i_workspace i) (v_device r)).
Proof.
  intros Hne Hi Hsteps. apply invite_steps_kept in Hsteps as [Hinv Htomb].
  assert (t_invites (snd (terminate t token terminal)) !! token = Some (set_invite_state i terminal)
          ∧ t_tombstones (snd (terminate t token terminal)) !! token = Some (devices_of t token)) as [Hi1 Ht1].
  { unfold terminate. rewrite Hi. cbn [snd].
    set (rows := terminate_rows t token i terminal).
    assert (∀ l u, t_invites (fold_left (revoke_grant_at (i_workspace i)) l u) = t_invites u
                   ∧ t_tombstones (fold_left (revoke_grant_at (i_workspace i)) l u) = t_tombstones u) as Hf.
    { induction l as [|d l IH]; intros u; simpl; [done|]. destruct (IH (revoke_grant_at (i_workspace i) u d)). done. }
    destruct (Hf (devices_of t token) rows) as [-> ->]. cbn. by rewrite !lookup_insert_eq. }
  destruct (Hinv _ _ Hi1) as (i' & Hi' & Hst). specialize (Hst Hne).
  destruct (Htomb token ltac:(by eexists)) as [hs Hhs]. split_and!.
  - intros. unfold reserve. rewrite Hi'. case_match; [done|]. by rewrite bool_decide_eq_false_2.
  - intros. unfold scope_commit. rewrite Hi'. destruct (t_reservations t' !! _) as [r|]; [|done].
    rewrite (bool_decide_eq_true_2 (is_Some (t_tombstones t' !! token))) by (rewrite Hhs; by eexists).
    repeat case_match; done.
  - intros. unfold extend. rewrite Hi'. destruct (t_reservations t' !! _) as [r|]; [|done].
    rewrite (bool_decide_eq_false_2 (i_state i' = LiveInvite)) by done. by rewrite andb_false_r.
  - intros. unfold bundles_for. rewrite Hi'. by rewrite bool_decide_eq_false_2.
  - intros nonce r Hr. unfold terminate. rewrite Hi. cbn [snd]. apply revoke_grants_dead. left.
    by apply (devices_of_elem t token nonce).
Qed.
End final.

(** ** The issuer's bundle cannot be masked *)
Lemma prune_issued m token group k b : b_issued b = true → prune m token group !! k = Some b ↔ m !! k = Some b.
Proof.
  intros Hb. unfold prune. rewrite map_lookup_filter_Some. split; [naive_solver|]. intros Hk. split; [done|].
  cbn. intros (_ & Hi & _). congruence.
Qed.

Lemma prune_bound m token group : (length (refreshed_rows (prune m token group) token group) ≤ RETAINED_BUNDLES)%nat.
Proof.
  set (keep := take RETAINED_BUNDLES (merge_sort newer (refreshed_rows m token group))).
  transitivity (length (keep.*1)); [|unfold keep; rewrite length_fmap; apply firstn_le_length].
  rewrite <- (length_fmap fst). apply submseteq_length, NoDup_submseteq.
  - apply NoDup_fmap_filter. apply NoDup_fst_map_to_list.
  - intros k (e & -> & He)%list_elem_of_fmap. apply list_elem_of_filter in He as [[Hk Hi] He].
    destruct e as [k b]. apply elem_of_map_to_list in He. unfold prune in He.
    apply map_lookup_filter_Some in He as [_ Hn]. cbn in *.
    destruct (decide (k ∈ keep.*1)) as [|Hout]; [done|]. exfalso. apply Hn. done.
Qed.

(** A row of another token, or the end of this one. *)
Definition pinned (t t' : Tables) (token group : list byte) (epoch : Z) (b : Bundle) : Prop :=
  t_bundles t' !! (token, group, epoch) = Some b
  ∨ ∃ i', t_invites t' !! token = Some i' ∧ i_state i' ≠ LiveInvite.

Lemma insert_bundles_other token token' up l m m' group epoch :
  token' ≠ token → insert_bundles up token m l = Some m' → m' !! (token', group, epoch) = m !! (token', group, epoch).
Proof.
  intros Hne. revert m. induction l as [|b l IH]; intros m; cbn [insert_bundles]; [by intros [= <-]|].
  unfold insert_bundle. destruct (m !! _); [done|]. cbn [mbind option_bind]. intros Hm. rewrite (IH _ Hm).
  rewrite lookup_insert_ne by congruence. done.
Qed.

Lemma delete_bundles_other t token token' group epoch :
  token' ≠ token → t_bundles (delete_bundles t token) !! (token', group, epoch) = t_bundles t !! (token', group, epoch).
Proof.
  intros Hne. cbn. destruct (t_bundles t !! _) as [b|] eqn:Hb.
  - apply map_lookup_filter_Some. by split.
  - apply map_lookup_filter_None. by left.
Qed.

Lemma upsert_issued m token b up k row :
  m !! k = Some row → b_issued row = true → upsert_bundle m token b up !! k = Some row.
Proof.
  intros Hk Hi. unfold upsert_bundle. set (k' := (token, eb_group b, _)).
  destruct (decide (k' = k)) as [->|Hne]; [by rewrite Hk, Hi|].
  destruct (m !! k') as [row'|]; [destruct (b_issued row'); [done|]|]; by rewrite lookup_insert_ne.
Qed.

Lemma spend_in_pinned t token0 token group epoch b :
  t_bundles t !! (token, group, epoch) = Some b → pinned t (snd (spend_in t token0)) token group epoch b.
Proof.
  intros Hb. unfold spend_in. destruct (t_invites t !! token0) as [i|] eqn:Hi; [|by left].
  case_bool_decide; [|by left]. cbn [snd]. destruct (decide (token = token0)) as [->|Hne].
  - right. eexists. cbn. by rewrite lookup_insert_eq.
  - left. by rewrite delete_bundles_other.
Qed.

Lemma revoke_grants_tables ws l t :
  t_bundles (fold_left (revoke_grant_at ws) l t) = t_bundles t ∧ t_invites (fold_left (revoke_grant_at ws) l t) = t_invites t.
Proof. revert t. induction l as [|d l IH]; intros t; simpl; [done|]. destruct (IH (revoke_grant_at ws t d)). done. Qed.

Section pinned.
Context `{Blake3, Ed25519}.

Lemma step_pinned t t' token group epoch b i :
  invite_step t t' → t_invites t !! token = Some i →
  t_bundles t !! (token, group, epoch) = Some b → b_issued b = true → pinned t t' token group epoch b.
Proof using Type*.
  intros Hstep Hinv Hb Hissued. destruct Hstep; try (by left); try (by apply spend_in_pinned).
  - unfold insert_invite. repeat case_match; try (by left). left. cbn. erewrite insert_bundles_other; [done | | done]. congruence.
  - left. unfold claim_attempt, charge_attempt. repeat case_match; simplify_eq/=; done.
  - left. unfold refund_attempt. by case_match.
  - left. unfold take_seat, grant_at. repeat case_match; simplify_eq/=; done.
  - left. unfold extend. by repeat case_match.
  - unfold consume. destruct (t_reservations t !! _) as [r|]; [|by left]. destruct (holding r); [|by left]. cbn [snd].
    set (t1 := with_reservations t _).
    assert (t_bundles (snd (grant_at t1 workspace device expires)) !! (token, group, epoch) = Some b)
      by (unfold grant_at; by destruct (grant _ _ _)).
    repeat case_match; [by apply spend_in_pinned | by left | by left].
  - unfold terminate. destruct (t_invites t !! token0) as [j|] eqn:Hj; [|by left]. cbn [snd].
    unfold pinned. destruct (revoke_grants_tables (i_workspace j) (devices_of t token0) (terminate_rows t token0 j terminal))
      as [-> ->]. destruct (decide (token = token0)) as [->|Hne].
    + right. eexists. cbn. by rewrite lookup_insert_eq.
    + left. unfold terminate_rows. by rewrite delete_bundles_other.
  - left. unfold spend_bootstrap. by repeat case_match.
  - left. unfold refresh_bundle. repeat case_match; try done. cbn.
    apply prune_issued; [done|]. by apply upsert_issued.
Qed.

Lemma steps_pinned t t' token group epoch b i :
  rtc invite_step t t' → t_invites t !! token = Some i →
  t_bundles t !! (token, group, epoch) = Some b → b_issued b = true → pinned t t' token group epoch b.
Proof using Type*.
  intros Hsteps. revert i. induction Hsteps as [t|t u v Hstep Hsteps IH]; intros i Hinv Hb Hissued; [by left|].
  destruct (invite_step_kept t u Hstep) as [Hends _]. destruct (Hends _ _ Hinv) as (j & Hj & _).
  destruct (step_pinned _ _ _ _ _ _ _ Hstep Hinv Hb Hissued) as [Hb'|(j' & Hj' & Hend)]; [by eapply IH|].
  right. destruct (proj1 (invite_steps_kept u v Hsteps) token j' Hj') as (k & Hk & Hst). eauto.
Qed.

(** No flood of refreshes masks the issuer's own bundle: the sealed GroupInfo
    of the signed record stays served, byte for byte, through any sequence of
    operations, for as long as the invite is live, while an accepted refresh
    leaves at most three refreshed candidates for its scope. *)
Theorem issued_bundle_pinned t t' token group epoch b i :
  t_invites t !! token = Some i → t_bundles t !! (token, group, epoch) = Some b → b_issued b = true →
  rtc invite_step t t' →
  (t_bundles t' !! (token, group, epoch) = Some b
   ∨ ∃ i', t_invites t' !! token = Some i' ∧ i_state i' ≠ LiveInvite)
  ∧ ∀ fresh up, fst (refresh_bundle t' token fresh up) = true →
      (length (refreshed_rows (t_bundles (snd (refresh_bundle t' token fresh up))) token (eb_group fresh))
       ≤ RETAINED_BUNDLES)%nat.
Proof using Type*.
  intros Hi Hb Hissued Hsteps. split; [by eapply steps_pinned|]. intros fresh up. unfold refresh_bundle.
  repeat case_match; try done. intros _. apply prune_bound.
Qed.
End pinned.

(** ** A concrete invite *)
Module InviteDemo.
#[local] Instance demo_blake3 : Blake3 := poly_digest.
#[local] Instance demo_ed25519 : Ed25519 := toy_verify.
#[local] Instance demo_argon2 : Argon2 := λ _ _, Some (replicate 32 Byte.x04).
Import RecordDemo.

Definition workspace : list byte := [Byte.x77].
Definition token : list byte := iv_token invite.
Definition nonce : list byte := replicate 16 Byte.x0a.
Definition joiner : list byte := replicate 32 Byte.x0b.
Definition source : list byte := [Byte.x0c].

Definition issued : Tables := snd (insert_invite (no_invites ∅) workspace invite false 1500 1500).
Definition seated : Tables := snd (take_seat issued token nonce joiner 1900 1500).

Lemma uses_byte : is_u8 (iv_uses invite).
Proof. by vm_compute. Qed.

Lemma seated_reachable : invites_reachable ∅ seated.
Proof.
  apply (rtc_l _ _ issued); [unfold issued; apply s_insert, uses_byte|].
  apply rtc_once. unfold seated. apply s_seat.
Qed.

Lemma issued_row : t_invites issued !! token = Some (mkStored workspace invite 2 LiveInvite false 1500).
Proof. by vm_compute. Qed.
Lemma seated_row : t_invites seated !! token = Some (mkStored workspace invite 1 LiveInvite false 1500).
Proof. by vm_compute. Qed.

Lemma seats_never_oversold_witness : admitted seated token + seats_held seated token + 1 ≤ 2.
Proof.
  exact (proj1 (proj2 (seats_never_oversold ∅ seated token (mkStored workspace invite 1 LiveInvite false 1500)
    seated_reachable seated_row))).
Defined.

Definition burst : list AttemptEvent := replicate 7 (Claim token source 1500).
Lemma guesses_bounded_witness : guesses (token, source) (no_invites ∅) burst ≤ 2 * MAX_FAILURES.
Proof.
  refine (guesses_bounded ∅ [] burst 1000 (token, source) 1500 _ _).
  - cbn. lia.
  - unfold burst. apply Forall_replicate. unfold within, cooldown_ms, COOLDOWN_SECONDS. lia.
Defined.
(** Five reach the verifier; the sixth and the seventh do not. *)
Lemma burst_of_seven : guesses (token, source) (no_invites ∅) burst = 5.
Proof. by vm_compute. Qed.

Lemma reserve_outcome_witness :
  reserved_for issued (snd (reserve issued token (replicate 12 48) nonce joiner source 1500)) token (replicate 12 48) nonce
    joiner 1500 2000.
Proof.
  pose proof (reserve_outcome issued token (replicate 12 48) nonce joiner source 1500 _ _ (surjective_pairing _)) as Ho.
  assert (fst (reserve issued token (replicate 12 48) nonce joiner source 1500) = Ok (Reserved 2000)) as E
    by (by vm_compute).
  rewrite E in Ho. exact Ho.
Defined.

Lemma seated_reservation : t_reservations seated !! (token, nonce) = Some (mkReservation joiner 1900 false false false).
Proof. by vm_compute. Qed.

Lemma terminated_is_final_witness :
  bundles_for (snd (terminate seated token RevokedInvite)) token root 1500 = []
  ∧ dead_grant (snd (terminate seated token RevokedInvite)) workspace joiner.
Proof.
  destruct (terminated_is_final seated token RevokedInvite (mkStored workspace invite 1 LiveInvite false 1500)
    (snd (terminate seated token RevokedInvite)) ltac:(discriminate) seated_row ltac:(apply rtc_refl))
    as (_ & _ & _ & Hb & Hd).
  split; [exact (Hb root 1500)|]. exact (Hd nonce (mkReservation joiner 1900 false false false) seated_reservation).
Defined.

Lemma issued_bundle_row : t_bundles issued !! (token, root, 7) = Some (mkBundle [Byte.x09] 1500 true).
Proof. by vm_compute. Qed.

Definition flooded : Tables := snd (refresh_bundle issued token (mkEncBundle root 7 [Byte.x0d]) 1600).
Lemma issued_bundle_pinned_witness :
  t_bundles flooded !! (token, root, 7) = Some (mkBundle [Byte.x09] 1500 true)
  ∨ ∃ i', t_invites flooded !! token = Some i' ∧ i_state i' ≠ LiveInvite.
Proof.
  refine (proj1 (issued_bundle_pinned issued flooded token root 7 (mkBundle [Byte.x09] 1500 true)
    (mkStored workspace invite 2 LiveInvite false 1500) issued_row issued_bundle_row eq_refl _)).
  apply rtc_once. unfold flooded. apply s_refresh.
Defined.
End InviteDemo.
