(* ===== verification/InviteHandlers.v ===== *)
(** * The two invite handlers

    Models [redeem] and [record_step] of [backend/wealdrelay/src/ws.rs] over the
    invite tables ([Invites]) and the messages of [InviteWire], and the admin
    path: [handle], [may_issue] and [summaries] of [invite/admin.rs] with
    [administer_invite] of [ws.rs]. [owner] is the group table's
    [workspace_of]; the hashes a handler returns for eviction are the ones
    [hub.evict] is called with, in order. *)

From Stdlib Require Import ZArith Lia String.
From stdpp Require Import base tactics numbers gmap fin_maps functions relations sorting list.
From S2P Require Import Prelude Cbor Push Frame Crypto Access Genesis AccessChain Revocation InviteCode InviteRecord InviteWire Invites.

Open Scope Z_scope.

(** [str::chars] of a valid UTF-8 text. *)
Fixpoint utf8_chars (bs : list byte) : list Z :=
  match bs with
  | [] => []
  | b0 :: t0 =>
      let c0 := byte_to_Z b0 in
      if c0 <? 128 then c0 :: utf8_chars t0 else
      match t0 with
      | [] => []
      | b1 :: t1 =>
          let c1 := Z.land (byte_to_Z b1) 63 in
          if c0 <? 224 then Z.lor (Z.shiftl (Z.land c0 31) 6) c1 :: utf8_chars t1 else
          match t1 with
          | [] => []
          | b2 :: t2 =>
              let c2 := Z.land (byte_to_Z b2) 63 in
              if c0 <? 240 then Z.lor (Z.shiftl (Z.land c0 15) 12) (Z.lor (Z.shiftl c1 6) c2) :: utf8_chars t2 else
              match t2 with
              | [] => []
              | b3 :: t3 =>
                  Z.lor (Z.shiftl (Z.land c0 7) 18)
                    (Z.lor (Z.shiftl c1 12) (Z.lor (Z.shiftl c2 6) (Z.land (byte_to_Z b3) 63))) :: utf8_chars t3
              end
          end
      end
  end.

(** ** Redeeming *)
Definition refusal (code : ErrorCode) : Frame := Frame.Error (FrameError_new code).
Definition join_answer (a : RedeemResponse) : Frame := Frame.Join (redeem_response_encode a).

Definition request_token (q : RedeemRequest) : list byte :=
  match q with
  | RqReserve token _ _ _ | RqBundles token _ | RqRecord token | RqCommit token _ _ _ => token
  end.

(** The [Record] step: a live, unexpired invite's body, or the empty body. *)
Definition record_step (fetched : option Stored) (now : Z) : Frame :=
  join_answer (RsRecord
    match fetched with
    | Some i => if bool_decide (i_state i = LiveInvite) && (now <? iv_expires (i_invite i))
                then invite_encode (i_invite i) else []
    | None => []
    end).

Section handlers.
Context `{Argon2, Blake3, Ed25519}.

Definition source_hash (source salt : list byte) : list byte := blake3 (source ++ salt).

(** What the handler did: the one frame it queues, whether it raised the
    session's JOIN allowance, and the tables. *)
Record Redeemed : Type := mkRedeemed { rd_frame : Frame; rd_noted : bool; rd_tables : Tables }.

Definition redeem (t : Tables) (source : option (list byte)) (now : Z) (body : list byte) : Redeemed :=
  match redeem_decode body with
  | Err e => mkRedeemed (refusal (redeem_error_code e)) false t
  | Ok request =>
      let token := request_token request in
      let fetched := t_invites t !! token in
      match request with
      | RqRecord _ => mkRedeemed (record_step fetched now) false t
      | _ =>
          match fetched with
          | None => mkRedeemed (refusal UNAVAILABLE) false t
          | Some record =>
              let salt := db_salt (db_at t (i_workspace record)) in
              let source := source_hash (default (ascii_bytes "unknown"%string) source) salt in
              match request with
              | RqReserve _ code nonce device =>
                  match reserve t token (utf8_chars code) nonce (entry_hash device salt) source now with
                  | (Ok (Reserved expires_at_ms), t) => mkRedeemed (join_answer (RsReserved expires_at_ms)) true t
                  | (Ok Unavailable, t) => mkRedeemed (refusal UNAVAILABLE) false t
                  | (Err e, t) => mkRedeemed (refusal (store_error_code e)) false t
                  end
              | RqRecord _ => mkRedeemed (refusal UNAVAILABLE) false t
              | RqBundles _ group => mkRedeemed (join_answer (RsBundles (bundles_for t token group now))) false t
              | RqCommit _ nonce device group =>
                  match scope_commit t token nonce (entry_hash device salt) group now with
                  | (Some receipt, t) => mkRedeemed (join_answer (RsCommitted receipt)) false t
                  | (None, t) => mkRedeemed (refusal UNAVAILABLE) false t
                  end
              end
          end
      end
  end.

(** ** Administering *)
Inductive AdminError : Type :=
| AdmWire (e : AdminWireError)
| AdmRefused (e : InviteError)
| AdmStore (e : InviteStoreError)
| NotAnAdmin.

Definition admin_error_code (e : AdminError) : ErrorCode :=
  match e with
  | AdmWire (AdminEncoding _) | AdmWire StateNotUtf8 => NoncanonicalCbor
  | AdmWire (UnknownRequest _) => MalformedHeader
  | AdmRefused e => invite_error_code e
  | AdmStore e => store_error_code e
  | NotAnAdmin => WriterNotInAccessSet
  end.

Definition may_issue (t : Tables) (workspace_id device_key : list byte) : result AdminError bool :=
  match read_prior (db_at t workspace_id) with
  | Err _ => Err (AdmStore DbError)
  | Ok (Some prior) => Ok (contains (prior_authorizers prior) device_key)
  | Ok None => Ok false
  end.

(** Every group with an owner is this workspace's own. *)
Fixpoint groups_are_ours (owner : list byte → option (list byte)) (workspace_id : list byte) (groups : list (list byte)) :
    bool :=
  match groups with
  | [] => true
  | group :: rest =>
      match owner group with
      | Some found => if bool_decide (found = workspace_id) then groups_are_ours owner workspace_id rest else false
      | None => groups_are_ours owner workspace_id rest
      end
  end.

(** [clamp(0, 255) as u8] on both counts. *)
Definition clamp_u8 (n : Z) : Z := Z.max 0 (Z.min n 255).

Definition state_label (s : InviteState) : list byte :=
  ascii_bytes match s with LiveInvite => "live" | RevokedInvite => "revoked" | SpentInvite => "spent" end%string.

(** [order by created_at asc, token asc]. *)
Definition listed_before (x y : list byte * Stored) : Prop :=
  i_created x.2 < i_created y.2 ∨ (i_created x.2 = i_created y.2 ∧ bytes_ltb y.1 x.1 = false).
#[local] Instance listed_before_dec : RelDecision listed_before.
Proof. intros x y. unfold listed_before. apply _. Defined.

Definition summary_of (e : list byte * Stored) : Summary :=
  mkSummary e.1 (Z.max (i_created e.2) 0) (Z.max (i_expires e.2) 0) (clamp_u8 (i_remaining e.2)) (clamp_u8 (i_uses e.2))
    (Z.of_nat (length (i_scopes e.2))) (state_label (i_state e.2)).

Definition summaries (t : Tables) (workspace_id : list byte) : list Summary :=
  summary_of <$> merge_sort listed_before
    (filter (λ e : list byte * Stored, i_workspace e.2 = workspace_id ∧ i_bootstrap e.2 = false) (map_to_list (t_invites t))).

(** [VoidGrants]: the hashes whose live grant this voided. *)
Fixpoint void_grants (t : Tables) (workspace_id : list byte) (hashes : list (list byte)) : list (list byte) * Tables :=
  match hashes with
  | [] => ([], t)
  | hash :: rest =>
      let voided := fst (revoke_grant (db_at t workspace_id) hash) in
      let '(dead, t') := void_grants (revoke_grant_at workspace_id t hash) workspace_id rest in
      (if voided then hash :: dead else dead, t')
  end.

Definition admin_handle (t : Tables) (owner : list byte → option (list byte)) (workspace_id device_key : list byte)
    (request : AdminRequest) (now up : Z) : result AdminError AdminResponse * Tables :=
  match may_issue t workspace_id device_key with
  | Err e => (Err e, t)
  | Ok admin =>
      if negb (match request with AqAuthority => true | _ => false end) && negb admin then (Err NotAnAdmin, t)
      else
        match request with
        | AqAuthority => (Ok (AsAuthority admin), t)
        | AqCreate record =>
            match invite_decode record with
            | Err e => (Err (AdmRefused e), t)
            | Ok invite =>
                if negb (bool_decide (iv_issuer invite = device_key)) then (Err NotAnAdmin, t)
                else if negb (groups_are_ours owner workspace_id (iv_workspace invite :: iv_scopes invite))
                then (Err NotAnAdmin, t)
                else
                  match create t workspace_id invite now up with
                  | (Err e, t) => (Err (AdmStore e), t)
                  | (Ok _, t) => (Ok (AsCreated (iv_token invite)), t)
                  end
            end
        | AqList => (Ok (AsLive (summaries t workspace_id)), t)
        | AqRevoke token =>
            (Ok (AsRevoked token), if belongs_to t token workspace_id then snd (revoke t token) else t)
        | AqRefresh token group epoch ct =>
            if belongs_to t token workspace_id then
              let '(accepted, t) := refresh_bundle t token (mkEncBundle group epoch ct) up in
              (Ok (AsRefreshed accepted), t)
            else (Ok (AsRefreshed false), t)
        | AqVoidGrants hashes =>
            let '(dead, t) := void_grants t workspace_id hashes in
            (Ok (AsGrantsVoided (Z.of_nat (length dead)) dead), t)
        end
  end.

(** [administer_invite]: the frame, the tables, and what the hub evicts. *)
Definition administer_invite (t : Tables) (owner : list byte → option (list byte))
    (workspace device_key : option (list byte)) (body : list byte) (now up : Z) : Frame * Tables * list (list byte) :=
  match admin_decode body with
  | Err e => (refusal (admin_error_code (AdmWire e)), t, [])
  | Ok request =>
      match workspace, device_key with
      | Some workspace, Some device_key =>
          match admin_handle t owner workspace device_key request now up with
          | (Err e, t) => (refusal (admin_error_code e), t, [])
          | (Ok response, t) =>
              let evicted :=
                match response with
                | AsRevoked token => if belongs_to t token workspace then default [] (tombstoned_hashes t token) else []
                | AsGrantsVoided _ hashes => hashes
                | _ => []
                end in
              (Frame.Invite (admin_response_encode response), t, evicted)
          end
      | _, _ => (refusal WriterNotInAccessSet, t, [])
      end
  end.
End handlers.

(** ** What a prober learns *)
Section theorems.
Context `{Argon2, Blake3, Ed25519}.

(** The tables as if the token had never been issued. *)
Definition forgotten (t : Tables) (token : list byte) : Tables := with_invites t (delete token (t_invites t)).

Definition past (i : Stored) (now : Z) : Prop := i_state i ≠ LiveInvite ∨ iv_expires (i_invite i) ≤ now.

Lemma reserve_past t token code nonce device source now i :
  t_invites t !! token = Some i → past i now → fst (reserve t token code nonce device source now) = Ok Unavailable.
Proof.
  intros Hi Hp. unfold reserve. rewrite Hi. destruct (cooled_down _ _ _ _); [done|].
  assert (negb (bool_decide (i_state i = LiveInvite)) || (iv_expires (i_invite i) <=? Z.max now 0) = true) as ->; [|done].
  destruct Hp as [Hs|He]; [by rewrite bool_decide_eq_false_2|]. rewrite (proj2 (Z.leb_le _ _)) by lia. apply orb_true_r.
Qed.

(** Whether the request is the one step that takes no reservation and serves
    sealed bundles, or a commit on a join the caller did begin. *)
Definition probe (t : Tables) (q : RedeemRequest) : Prop :=
  match q with
  | RqReserve _ _ _ _ | RqRecord _ => True
  | RqCommit token nonce _ _ => t_reservations t !! (token, nonce) = None
  | RqBundles _ _ => False
  end.

(** C35. The redemption path does not say which tokens ever existed: reserving,
    fetching the record, or committing without a reservation answers the very
    same frame for a revoked, spent or expired invite as for a token that was
    never issued. *)
Theorem redeem_uninformative t source now body q i :
  redeem_decode body = Ok q → probe t q → t_invites t !! request_token q = Some i → past i now →
  rd_frame (redeem t source now body) = rd_frame (redeem (forgotten t (request_token q)) source now body).
Proof.
  intros Hq Hprobe Hi Hp. unfold redeem. rewrite Hq. cbv zeta.
  assert (t_invites (forgotten t (request_token q)) !! request_token q = None) as Hf by apply lookup_delete_eq.
  rewrite Hi, Hf. clear Hf. destruct q as [token code nonce device|token group|token|token nonce device group]; cbn [request_token probe] in *.
  - pose proof (reserve_past t token (utf8_chars code) nonce (entry_hash device (db_salt (db_at t (i_workspace i))))
      (source_hash (default (ascii_bytes "unknown"%string) source) (db_salt (db_at t (i_workspace i)))) now i Hi Hp) as Hr.
    destruct (reserve _ _ _ _ _ _ _) as [r t']. cbn in Hr. by subst r.
  - done.
  - cbn [rd_frame]. unfold record_step. destruct (bool_decide (i_state i = LiveInvite) && (now <? iv_expires (i_invite i))) eqn:Hl; [|done].
    apply andb_true_iff in Hl as [Hl%bool_decide_eq_true He%Z.ltb_lt]. destruct Hp; [done|lia].
  - unfold scope_commit. by rewrite Hprobe.
Qed.

(** ** Administration stays in the workspace *)
Lemma revoke_grant_at_db ws t d ws' : ws' ≠ ws → db_at (revoke_grant_at ws t d) ws' = db_at t ws'.
Proof. intros Hne. unfold db_at, revoke_grant_at. cbn. by rewrite lookup_insert_ne. Qed.

Lemma revoke_grants_db ws l t ws' : ws' ≠ ws → db_at (fold_left (revoke_grant_at ws) l t) ws' = db_at t ws'.
Proof. intros Hne. revert t. induction l as [|d l IH]; intros t; simpl; [done|]. by rewrite IH, revoke_grant_at_db. Qed.

(** What other workspaces can see of the tables. *)
Definition elsewhere_same (ws : list byte) (t t' : Tables) : Prop :=
  (∀ token i, t_invites t !! token = Some i → i_workspace i ≠ ws → t_invites t' !! token = Some i)
  ∧ (∀ ws', ws' ≠ ws → db_at t' ws' = db_at t ws').

Lemma revoke_elsewhere ws t token : belongs_to t token ws = true → elsewhere_same ws t (snd (revoke t token)).
Proof.
  unfold belongs_to, revoke, terminate. destruct (t_invites t !! token) as [i|] eqn:Hi; [|done].
  intros Hw%bool_decide_eq_true. rewrite Hw. cbn [snd]. split.
  - intros token' j Hj Hne. rewrite (proj2 (revoke_grants_tables _ _ _)). cbn.
    rewrite lookup_insert_ne; [done|]. congruence.
  - intros ws' Hne. by rewrite revoke_grants_db.
Qed.

Lemma void_grants_spec ws hashes t dead t' :
  void_grants t ws hashes = (dead, t') →
  elsewhere_same ws t t' ∧ ∀ h, h ∈ dead → ∃ g, grant_of t ws h = Some g ∧ voided g = false.
Proof.
  revert t dead t'. induction hashes as [|h hashes IH]; intros t dead t'; simpl.
  { intros [= <- <-]. split; [done|]. set_solver. }
  destruct (void_grants _ ws hashes) as [d u] eqn:E. apply IH in E as [[HI HD] Hd].
  assert (∀ x g, grant_of (revoke_grant_at ws t h) ws x = Some g → voided g = false →
    grant_of t ws x = Some g) as Hback.
  { intros x g. unfold grant_of, revoke_grant_at, db_at. cbn. rewrite lookup_insert_eq. cbn. fold (db_at t ws).
    unfold revoke_grant. destruct (grant_rows (db_at t ws) !! h) as [g0|] eqn:Hg; [|done].
    destruct (voided g0); [done|]. cbn. destruct (decide (x = h)) as [->|];
      [rewrite lookup_insert_eq; intros [= <-]; cbn; discriminate | by rewrite lookup_insert_ne]. }
  assert (elsewhere_same ws t u) as Hel.
  { split; [by intros; apply HI|]. intros ws' Hne. rewrite HD by done. by apply revoke_grant_at_db. }
  intros Heq. destruct (fst (revoke_grant (db_at t ws) h)) eqn:Hv; injection Heq as <- <-; (split; [exact Hel|]); intros x Hx.
  - apply elem_of_cons in Hx as [->|Hx].
    + unfold revoke_grant in Hv. unfold grant_of. destruct (grant_rows (db_at t ws) !! h) as [g0|]; [|done].
      exists g0. destruct (voided g0); done.
    + destruct (Hd x Hx) as (g & Hg & Hl). exists g. auto.
  - destruct (Hd x Hx) as (g & Hg & Hl). exists g. auto.
Qed.

Lemma create_elsewhere ws t invite now up : elsewhere_same ws t (snd (create t ws invite now up)).
Proof.
  unfold create, insert_invite. repeat case_match; try done. split; [|done]. cbn. intros token j Hj Hne.
  rewrite lookup_insert_ne; [done|]. congruence.
Qed.

Lemma refresh_elsewhere ws t token b up : elsewhere_same ws t (snd (refresh_bundle t token b up)).
Proof. unfold refresh_bundle. repeat case_match; done. Qed.

Lemma revoke_rows t token i :
  t_invites t !! token = Some i →
  t_tombstones (snd (revoke t token)) !! token = Some (devices_of t token)
  ∧ t_invites (snd (revoke t token)) !! token = Some (set_invite_state i RevokedInvite).
Proof.
  intros Hi. unfold revoke, terminate. rewrite Hi. cbn [snd].
  assert (∀ l u, t_tombstones (fold_left (revoke_grant_at (i_workspace i)) l u) = t_tombstones u) as Hf.
  { induction l as [|d l IH]; intros u; simpl; [done|]. by rewrite IH. }
  rewrite Hf, (proj2 (revoke_grants_tables _ _ _)). cbn. by rewrite !lookup_insert_eq.
Qed.

Lemma admin_handle_elsewhere t owner ws key q now up r t' :
  admin_handle t owner ws key q now up = (r, t') →
  elsewhere_same ws t t' ∧ (may_issue t ws key ≠ Ok true → t' = t).
Proof.
  unfold admin_handle. destruct (may_issue t ws key) as [admin|e]; [|by intros [= <- <-]].
  destruct admin; cbn [negb]; rewrite ?andb_false_r, ?andb_true_r.
  2: { destruct q; cbn [negb]; by intros [= <- <-]. }
  intros Heq. split; [|done]. destruct q as [|record| |token|token group epoch ct|hashes].
  - by injection Heq as <- <-.
  - destruct (invite_decode record) as [invite|]; [|by injection Heq as <- <-].
    destruct (negb _); [by injection Heq as <- <-|]. destruct (negb _); [by injection Heq as <- <-|].
    pose proof (create_elsewhere ws t invite now up) as He. destruct (create t ws invite now up) as [[]?];
      by injection Heq as <- <-.
  - by injection Heq as <- <-.
  - injection Heq as <- <-. destruct (belongs_to t token ws) eqn:Hb; [by apply revoke_elsewhere | done].
  - pose proof (refresh_elsewhere ws t token (mkEncBundle group epoch ct) up) as He.
    destruct (belongs_to t token ws); [|by injection Heq as <- <-].
    destruct (refresh_bundle _ _ _ _); by injection Heq as <- <-.
  - destruct (void_grants t ws hashes) as [dead u] eqn:Hv. injection Heq as <- <-. by apply void_grants_spec in Hv as [? _].
Qed.

(** Administering invites is scoped: a request from a device of one workspace
    changes nothing at all unless that device is a current authorizer; whatever
    it asks, no invite and no grant of another workspace moves; and the sockets
    it closes are those of devices that reserved on one of its own invites or
    held a live grant in its own workspace. *)
Theorem administration_stays_home t owner ws key body now up frame t' evicted :
  administer_invite t owner (Some ws) (Some key) body now up = (frame, t', evicted) →
  (may_issue t ws key ≠ Ok true → t' = t)
  ∧ (∀ token i, t_invites t !! token = Some i → i_workspace i ≠ ws → t_invites t' !! token = Some i)
  ∧ (∀ ws', ws' ≠ ws → db_at t' ws' = db_at t ws')
  ∧ ∀ h, h ∈ evicted →
      (∃ token nonce i r, t_invites t !! token = Some i ∧ i_workspace i = ws
         ∧ t_reservations t !! (token, nonce) = Some r ∧ v_device r = h)
      ∨ (∃ g, grant_of t ws h = Some g ∧ voided g = false).
Proof.
  unfold administer_invite. destruct (admin_decode body) as [q|e]; [|intros [= <- <- <-]; split_and!; try done; set_solver].
  destruct (admin_handle t owner ws key q now up) as [r u] eqn:Hh.
  destruct (admin_handle_elsewhere t owner ws key q now up r u Hh) as [[HI HD] Hadm].
  destruct r as [a|e]; intros [= <- <- <-]; (split_and!; [exact Hadm | exact HI | exact HD |]); [|set_solver].
  unfold admin_handle in Hh. destruct (may_issue t ws key) as [admin|]; [|done].
  destruct (negb _ && negb admin); [done|]. destruct q as [|record| |token|token group epoch ct|hashes].
  - injection Hh as <- <-. set_solver.
  - repeat (case_match; simplify_eq/=; try done); set_solver.
  - injection Hh as <- <-. set_solver.
  - injection Hh as <- <-. intros h. destruct (belongs_to t token ws) eqn:Hb.
    + unfold belongs_to in Hb. destruct (t_invites t !! token) as [i|] eqn:Hi; [|done].
      apply bool_decide_eq_true in Hb. destruct (revoke_rows t token i Hi) as [Ht Hi'].
      unfold belongs_to, tombstoned_hashes. rewrite Hi', Ht. cbn. rewrite bool_decide_eq_true_2 by done. intros Hin. left.
      unfold devices_of in Hin. apply elem_of_remove_dups, list_elem_of_fmap in Hin as ([[tk nonce] r] & -> & Hin).
      apply list_elem_of_filter in Hin as [Htk Hin%elem_of_map_to_list]. cbn in Htk. subst tk.
      by exists token, nonce, i, r.
    + rewrite Hb. set_solver.
  - repeat (case_match; simplify_eq/=; try done); set_solver.
  - destruct (void_grants t ws hashes) as [dead v] eqn:Hv. injection Hh as <- <-.
    apply void_grants_spec in Hv as [_ Hd]. intros h Hin. right. by apply Hd.
Qed.

(** What issuing writes: the record is stored only for the authorizer that
    signed it, only when it passes [judge] at the relay's clock and names no
    other workspace's group, under a token nobody had, live, with every signed
    seat left; and what is served later re-encodes to the bytes presented. *)
Theorem create_stores_signed_record t owner ws key record now up token t' :
  admin_handle t owner ws key (AqCreate record) now up = (Ok (AsCreated token), t') →
  ∃ invite, invite_decode record = Ok invite ∧ token = iv_token invite ∧ iv_issuer invite = key
    ∧ may_issue t ws key = Ok true ∧ invite_judge invite false (Z.max now 0) = Ok tt
    ∧ groups_are_ours owner ws (iv_workspace invite :: iv_scopes invite) = true
    ∧ t_invites t !! token = None
    ∧ t_invites t' = <[token := mkStored ws invite (iv_uses invite) LiveInvite false up]> (t_invites t)
    ∧ (now < iv_expires invite → record_step (t_invites t' !! token) now = join_answer (RsRecord record)).
Proof.
  unfold admin_handle. destruct (may_issue t ws key) as [admin|] eqn:Ha; [|done].
  cbn [negb andb]. destruct admin; cbn [negb]; [|done]. destruct (invite_decode record) as [invite|] eqn:Hd; [|done].
  case_bool_decide as Hk; cbn [negb]; [|done].
  destruct (groups_are_ours owner ws (iv_workspace invite :: iv_scopes invite)) eqn:Hg; cbn [negb]; [|done].
  unfold create, insert_invite. destruct (invite_judge invite false (Z.max now 0)) as [[]|] eqn:Hj; [|done].
  destruct (t_invites t !! iv_token invite) eqn:Hn; [done|]. destruct (insert_bundles _ _ _ _); [|done].
  intros [= <- <-]. exists invite. cbn.
  do 8 (split; [done|]). intros Hnow. rewrite lookup_insert_eq. unfold record_step. cbn.
  rewrite (proj2 (Z.ltb_lt _ _) Hnow). apply invite_decode_inv in Hd as [_ ->]. done.
Qed.
End theorems.

(** ** A concrete workspace *)
Module HandlerDemo.
#[local] Instance demo_blake3 : Blake3 := poly_digest.
#[local] Instance demo_ed25519 : Ed25519 := toy_verify.
#[local] Instance demo_argon2 : Argon2 := λ _ _, Some (replicate 32 Byte.x04).
Import RecordDemo InviteDemo.

Definition home : list byte := [Byte.x77].
Definition unowned : list byte → option (list byte) := λ _, None.

(** The workspace's genesis set names [owner] as its one authorizer. *)
Definition before : Tables := no_invites {[ home := db_of genesis_publish ]}.
Definition owned_invite : Invite :=
  let i := mkInvite (replicate 16 Byte.x03) root owner 1000 2000 2 (replicate 32 Byte.x04) [root] []
    (replicate 32 Byte.x05) [mkEncBundle root 7 [Byte.x09]] [] in
  with_sig i (toy_sign owner (invite_digest_input i)).

Lemma creation_ok :
  admin_handle before unowned home owner (AqCreate (invite_encode owned_invite)) 1500 1500
  = (Ok (AsCreated (iv_token owned_invite)), snd (admin_handle before unowned home owner (AqCreate (invite_encode owned_invite)) 1500 1500)).
Proof.
  rewrite (surjective_pairing (admin_handle _ _ _ _ _ _ _)) at 1. apply (f_equal2 pair); [by vm_compute | reflexivity].
Qed.

Lemma create_stores_signed_record_witness :
  ∃ invite, invite_decode (invite_encode owned_invite) = Ok invite ∧ iv_issuer invite = owner.
Proof.
  destruct (create_stores_signed_record _ _ _ _ _ _ _ _ _ creation_ok) as (invite & Hd & _ & Hk & _).
  exists invite. split; assumption.
Defined.

Lemma administration_stays_home_witness :
  snd (fst (administer_invite before unowned (Some home) (Some phrase) (admin_encode (AqRevoke [Byte.x01])) 1500 1500)) = before.
Proof.
  pose proof (administration_stays_home before unowned home phrase (admin_encode (AqRevoke [Byte.x01])) 1500 1500
    (fst (fst (administer_invite before unowned (Some home) (Some phrase) (admin_encode (AqRevoke [Byte.x01])) 1500 1500)))
    (snd (fst (administer_invite before unowned (Some home) (Some phrase) (admin_encode (AqRevoke [Byte.x01])) 1500 1500)))
    (snd (administer_invite before unowned (Some home) (Some phrase) (admin_encode (AqRevoke [Byte.x01])) 1500 1500))
    ltac:(rewrite <- !surjective_pairing; reflexivity)) as [Hadm _].
  apply Hadm. vm_compute. discriminate.
Defined.

Definition revoked : Tables := snd (revoke issued token).
Lemma revoked_row : t_invites revoked !! token = Some (mkStored workspace invite 2 RevokedInvite false 1500).
Proof. by vm_compute. Qed.

Lemma redeem_uninformative_witness :
  rd_frame (redeem revoked None 1500 (redeem_encode (RqRecord token)))
  = rd_frame (redeem (forgotten revoked token) None 1500 (redeem_encode (RqRecord token))).
Proof.
  apply (redeem_uninformative revoked None 1500 (redeem_encode (RqRecord token)) (RqRecord token)
    (mkStored workspace invite 2 RevokedInvite false 1500)).
  - by vm_compute.
  - exact I.
  - exact revoked_row.
  - left. discriminate.
Defined.

(** The [Bundles] step does tell them apart: an empty list of bundles for the
    revoked token, a refusal for the one that never existed. *)
Lemma bundles_reveal_token :
  rd_frame (redeem revoked None 1500 (redeem_encode (RqBundles token root))) = join_answer (RsBundles [])
  ∧ rd_frame (redeem (forgotten revoked token) None 1500 (redeem_encode (RqBundles token root))) = refusal UNAVAILABLE.
Proof. by vm_compute. Qed.

(** A record the rules refuse is answered with the joiner's generic code, not
    with the rule's own. *)
Definition expired_record : list byte := invite_encode owned_invite.
Lemma refused_record_code :
  fst (admin_handle before unowned home owner (AqCreate expired_record) 5000 5000) = Err (AdmStore (InviteRefused InviteExpired))
  ∧ admin_error_code (AdmStore (InviteRefused InviteExpired)) = SeatsExhausted
  ∧ invite_error_code InviteExpired = WriterNotInAccessSet.
Proof. by vm_compute. Qed.

(** A joiner that retries with the nonce of a reservation that ran out is told
    to come back, not that the invite is unavailable: the second row for the
    nonce is refused by the primary key. *)
Definition lapsed : Tables := release_expired seated 1950.
Lemma nonce_retry_is_backpressure :
  fst (reserve lapsed token (replicate 12 48) nonce joiner source 1960) = Err DbError.
Proof. by vm_compute. Qed.
End HandlerDemo.
