(* ===== verification/MediaWire.v ===== *)
(** * The media records and messages on the wire

    Models [backend/wealdrelay/src/media/wire.rs]: the retention records
    ([RetentionControl], [RetentionResolution], [RetentionManifest],
    [RetentionPolicy], [RetentionDestruction]) with the bytes each signature
    covers, and the [BLOB] requests and responses that carry them. Text is its
    UTF-8 bytes; a URL is read back with [from_utf8_lossy]. *)

From Stdlib Require Import ZArith Lia.
From stdpp Require Import base tactics numbers list.
From S2P Require Import Prelude Cbor Crypto Access.

Open Scope Z_scope.

Definition MAX_LIST : nat := 4096.

Inductive MediaWireError : Type :=
| MediaEncoding (error : CborError)
| TooManyEntries
| EmptyList
| UnknownTag (tag : Z).

Abbreviation mlift := (rd_map_err MediaEncoding).

(** A counted list, the count checked before any item is read. *)
Definition read_capped {A} (item : rd MediaWireError A) : rd MediaWireError (list A) :=
  count <- mlift rd_array_header ;;
  if (MAX_LIST <? count)%nat then rd_fail TooManyEntries else rd_times count item.

Definition media_read_list (width : nat) : rd MediaWireError (list (list byte)) :=
  read_capped (mlift (rd_bytes_of width)).
Definition encode_list (items : list (list byte)) : list byte := array (map bytes items).

Record Signature : Type := mkSignature { sg_key : list byte; sg_sig : list byte }.

Definition encode_signature (s : Signature) : list byte := array [bytes (sg_key s); bytes (sg_sig s)].
Definition encode_signatures (l : list Signature) : list byte := array (map encode_signature l).
Definition read_signature : rd MediaWireError Signature :=
  mlift (rd_array 2) ;;;
  key <- mlift (rd_bytes_of KEY_BYTES) ;; sig <- mlift (rd_bytes_of SIG_BYTES) ;;
  rd_ret (mkSignature key sig).
Definition read_signatures : rd MediaWireError (list Signature) := read_capped read_signature.

(** ** The retention records *)
Record RetentionControl : Type := mkControl {
  rc_group : list byte;
  rc_epoch : Z;
  rc_verifier : list byte;
  rc_prev : option (list byte);
  rc_sig : list byte
}.

Definition control_signing_bytes (c : RetentionControl) : list byte :=
  array [bytes (rc_group c); uint (rc_epoch c); bytes (rc_verifier c); optional_bytes (rc_prev c)].
Definition control_encode (c : RetentionControl) : list byte :=
  array [bytes (rc_group c); uint (rc_epoch c); bytes (rc_verifier c); optional_bytes (rc_prev c); bytes (rc_sig c)].
Definition read_control : rd MediaWireError RetentionControl :=
  mlift (rd_array 5) ;;;
  group <- mlift (rd_bytes_of HASH_BYTES) ;; epoch <- mlift rd_uint ;; verifier <- mlift (rd_bytes_of KEY_BYTES) ;;
  prev <- mlift rd_optional_bytes ;; sig <- mlift (rd_bytes_of SIG_BYTES) ;;
  rd_ret (mkControl group epoch verifier prev sig).
Definition control_decode (bs : list byte) : result MediaWireError RetentionControl :=
  parse MediaEncoding read_control bs.
Definition control_digest `{Blake3} (c : RetentionControl) : list byte := blake3 (control_encode c).

Record RetentionResolution : Type := mkResolution {
  rr_group : list byte;
  rr_epoch : Z;
  rr_verifier : list byte;
  rr_sig : list byte
}.

Definition resolution_signing_bytes (c : RetentionResolution) : list byte :=
  array [bytes (rr_group c); uint (rr_epoch c); bytes (rr_verifier c)].
Definition resolution_encode (c : RetentionResolution) : list byte :=
  array [bytes (rr_group c); uint (rr_epoch c); bytes (rr_verifier c); bytes (rr_sig c)].
Definition read_resolution : rd MediaWireError RetentionResolution :=
  mlift (rd_array 4) ;;;
  group <- mlift (rd_bytes_of HASH_BYTES) ;; epoch <- mlift rd_uint ;; verifier <- mlift (rd_bytes_of KEY_BYTES) ;;
  sig <- mlift (rd_bytes_of SIG_BYTES) ;;
  rd_ret (mkResolution group epoch verifier sig).
Definition resolution_decode (bs : list byte) : result MediaWireError RetentionResolution :=
  parse MediaEncoding read_resolution bs.

Record RetentionManifest : Type := mkManifest {
  rm_group : list byte;
  rm_epoch : Z;
  rm_sequence : Z;
  rm_prev : option (list byte);
  rm_blobs : list (list byte);
  rm_sig : list byte
}.

Definition manifest_signing_bytes (m : RetentionManifest) : list byte :=
  array [bytes (rm_group m); uint (rm_epoch m); uint (rm_sequence m); optional_bytes (rm_prev m);
         encode_list (rm_blobs m)].
Definition manifest_encode (m : RetentionManifest) : list byte :=
  array [bytes (rm_group m); uint (rm_epoch m); uint (rm_sequence m); optional_bytes (rm_prev m);
         encode_list (rm_blobs m); bytes (rm_sig m)].
Definition read_manifest : rd MediaWireError RetentionManifest :=
  mlift (rd_array 6) ;;;
  group <- mlift (rd_bytes_of HASH_BYTES) ;; epoch <- mlift rd_uint ;; sequence <- mlift rd_uint ;;
  prev <- mlift rd_optional_bytes ;; blobs <- media_read_list HASH_BYTES ;; sig <- mlift (rd_bytes_of SIG_BYTES) ;;
  rd_ret (mkManifest group epoch sequence prev blobs sig).
Definition manifest_decode (bs : list byte) : result MediaWireError RetentionManifest :=
  parse MediaEncoding read_manifest bs.
Definition manifest_digest `{Blake3} (m : RetentionManifest) : list byte := blake3 (manifest_encode m).

Record RetentionPolicy : Type := mkPolicy {
  rp_group : list byte;
  rp_version : Z;
  rp_media_after_days : Z;
  rp_text_after_days : Z;
  rp_not_before : Z;
  rp_authorizers : list (list byte);
  rp_signatures : list Signature
}.

Definition policy_signing_bytes (p : RetentionPolicy) : list byte :=
  array [bytes (rp_group p); uint (rp_version p); uint (rp_media_after_days p); uint (rp_text_after_days p);
         uint (rp_not_before p); encode_list (rp_authorizers p)].
Definition policy_encode (p : RetentionPolicy) : list byte :=
  array [bytes (rp_group p); uint (rp_version p); uint (rp_media_after_days p); uint (rp_text_after_days p);
         uint (rp_not_before p); encode_list (rp_authorizers p); encode_signatures (rp_signatures p)].

(** The refusal of an empty authorizer list, after every field was read. *)
Definition some_authorizer {A} (authorizers : list (list byte)) (record : A) : rd MediaWireError A :=
  match authorizers with [] => rd_fail EmptyList | _ => rd_ret record end.

Definition read_policy : rd MediaWireError RetentionPolicy :=
  mlift (rd_array 7) ;;;
  group <- mlift (rd_bytes_of HASH_BYTES) ;; version <- mlift rd_uint ;;
  media_after_days <- mlift rd_u32 ;; text_after_days <- mlift rd_u32 ;; not_before <- mlift rd_uint ;;
  authorizers <- media_read_list KEY_BYTES ;; signatures <- read_signatures ;;
  some_authorizer authorizers (mkPolicy group version media_after_days text_after_days not_before authorizers signatures).
Definition policy_decode (bs : list byte) : result MediaWireError RetentionPolicy :=
  parse MediaEncoding read_policy bs.

Record RetentionDestruction : Type := mkDestruction {
  rx_group : list byte;
  rx_kind : list byte;
  rx_target_digest : list byte;
  rx_policy_version : option Z;
  rx_not_before : Z;
  rx_authorizers : list (list byte);
  rx_signatures : list Signature
}.

Definition encode_version (v : option Z) : list byte :=
  match v with Some version => bytes (be_bytes 8 version) | None => NULL end.
Definition destruction_signing_bytes (x : RetentionDestruction) : list byte :=
  array [bytes (rx_group x); bytes (rx_kind x); bytes (rx_target_digest x); encode_version (rx_policy_version x);
         uint (rx_not_before x); encode_list (rx_authorizers x)].
Definition destruction_encode (x : RetentionDestruction) : list byte :=
  array [bytes (rx_group x); bytes (rx_kind x); bytes (rx_target_digest x); encode_version (rx_policy_version x);
         uint (rx_not_before x); encode_list (rx_authorizers x); encode_signatures (rx_signatures x)].
(** An optional [u64] carried as its eight bytes; [bad] is what any other width
    is reported as. *)
Definition read_version_with {E} (lift : CborError → E) (bad : E) : rd E (option Z) :=
  v <- rd_map_err lift rd_optional_bytes ;;
  match v with
  | None => rd_ret None
  | Some bs => if (length bs =? 8)%nat then rd_ret (Some (be_value bs)) else rd_fail bad
  end.
Definition read_version : rd MediaWireError (option Z) := read_version_with MediaEncoding TooManyEntries.
Definition read_destruction : rd MediaWireError RetentionDestruction :=
  mlift (rd_array 7) ;;;
  group <- mlift (rd_bytes_of HASH_BYTES) ;; kind <- mlift rd_bytes ;;
  target_digest <- mlift (rd_bytes_of HASH_BYTES) ;; policy_version <- read_version ;;
  not_before <- mlift rd_uint ;; authorizers <- media_read_list KEY_BYTES ;; signatures <- read_signatures ;;
  some_authorizer authorizers (mkDestruction group kind target_digest policy_version not_before authorizers signatures).
Definition destruction_decode (bs : list byte) : result MediaWireError RetentionDestruction :=
  parse MediaEncoding read_destruction bs.

(** ** The requests *)
Inductive BlobRequest : Type :=
| BqPut (workspace group hash : list byte) (ciphertext_len : Z)
| BqGet (workspace group hash : list byte)
| BqMultipartPart (session_id : list byte) (part_number expected_len : Z)
| BqMultipartComplete (session_id : list byte) (parts : list (Z * list byte))
| BqMultipartAbort (session_id : list byte)
| BqList (workspace group : list byte)
| BqControl (record : RetentionControl)
| BqManifest (record : RetentionManifest)
| BqPolicy (record : RetentionPolicy)
| BqDestruction (record : RetentionDestruction)
| BqResolution (record : RetentionResolution)
| BqPosition (group : list byte)
| BqQuota (group : list byte).

Definition is_write (q : BlobRequest) : bool :=
  match q with
  | BqGet _ _ _ | BqList _ _ | BqPosition _ | BqQuota _ => false
  | _ => true
  end.

Definition encode_part (p : Z * list byte) : list byte := array [uint p.1; bytes p.2].

Definition blob_request_tag (q : BlobRequest) : Z :=
  match q with
  | BqPut _ _ _ _ => 1
  | BqGet _ _ _ => 2
  | BqMultipartPart _ _ _ => 3
  | BqMultipartComplete _ _ => 4
  | BqMultipartAbort _ => 5
  | BqControl _ => 6
  | BqManifest _ => 7
  | BqPolicy _ => 8
  | BqDestruction _ => 9
  | BqList _ _ => 10
  | BqResolution _ => 11
  | BqPosition _ => 12
  | BqQuota _ => 13
  end.

Definition blob_request_body (q : BlobRequest) : list byte :=
  match q with
  | BqPut workspace group hash ciphertext_len => array [bytes workspace; bytes group; bytes hash; uint ciphertext_len]
  | BqGet workspace group hash => array [bytes workspace; bytes group; bytes hash]
  | BqMultipartPart session_id part_number expected_len => array [bytes session_id; uint part_number; uint expected_len]
  | BqMultipartComplete session_id parts => array [bytes session_id; array (map encode_part parts)]
  | BqMultipartAbort session_id => array [bytes session_id]
  | BqList workspace group => array [bytes workspace; bytes group]
  | BqControl record => control_encode record
  | BqManifest record => manifest_encode record
  | BqPolicy record => policy_encode record
  | BqDestruction record => destruction_encode record
  | BqResolution record => resolution_encode record
  | BqPosition group => array [bytes group]
  | BqQuota group => array [bytes group]
  end.

Definition blob_request_encode (q : BlobRequest) : list byte :=
  array [uint (blob_request_tag q); blob_request_body q].

Definition read_part : rd MediaWireError (Z * list byte) :=
  mlift (rd_array 2) ;;; number <- mlift rd_u32 ;; etag <- mlift rd_bytes ;; rd_ret (number, etag).

Definition read_put : rd MediaWireError BlobRequest :=
  mlift (rd_array 4) ;;; workspace <- mlift rd_bytes ;; group <- mlift (rd_bytes_of HASH_BYTES) ;;
  hash <- mlift (rd_bytes_of HASH_BYTES) ;; ciphertext_len <- mlift rd_uint ;;
  rd_ret (BqPut workspace group hash ciphertext_len).
Definition read_get : rd MediaWireError BlobRequest :=
  mlift (rd_array 3) ;;; workspace <- mlift rd_bytes ;; group <- mlift (rd_bytes_of HASH_BYTES) ;;
  hash <- mlift (rd_bytes_of HASH_BYTES) ;; rd_ret (BqGet workspace group hash).
Definition read_multipart_part : rd MediaWireError BlobRequest :=
  mlift (rd_array 3) ;;; session_id <- mlift rd_bytes ;; part_number <- mlift rd_u32 ;;
  expected_len <- mlift rd_uint ;; rd_ret (BqMultipartPart session_id part_number expected_len).
Definition read_multipart_complete : rd MediaWireError BlobRequest :=
  mlift (rd_array 2) ;;; session_id <- mlift rd_bytes ;; parts <- read_capped read_part ;;
  rd_ret (BqMultipartComplete session_id parts).
Definition read_multipart_abort : rd MediaWireError BlobRequest :=
  mlift (rd_array 1) ;;; session_id <- mlift rd_bytes ;; rd_ret (BqMultipartAbort session_id).
Definition read_blob_list : rd MediaWireError BlobRequest :=
  mlift (rd_array 2) ;;; workspace <- mlift rd_bytes ;; group <- mlift (rd_bytes_of HASH_BYTES) ;;
  rd_ret (BqList workspace group).
Definition read_one_group (make : list byte → BlobRequest) : rd MediaWireError BlobRequest :=
  mlift (rd_array 1) ;;; group <- mlift (rd_bytes_of HASH_BYTES) ;; rd_ret (make group).

Definition blob_request_fields (tag : Z) : rd MediaWireError BlobRequest :=
  if tag =? 1 then read_put
  else if tag =? 2 then read_get
  else if tag =? 3 then read_multipart_part
  else if tag =? 4 then read_multipart_complete
  else if tag =? 5 then read_multipart_abort
  else if tag =? 10 then read_blob_list
  else if tag =? 6 then record <- read_control ;; rd_ret (BqControl record)
  else if tag =? 7 then record <- read_manifest ;; rd_ret (BqManifest record)
  else if tag =? 8 then record <- read_policy ;; rd_ret (BqPolicy record)
  else if tag =? 9 then record <- read_destruction ;; rd_ret (BqDestruction record)
  else if tag =? 12 then read_one_group BqPosition
  else if tag =? 13 then read_one_group BqQuota
  else if tag =? 11 then record <- read_resolution ;; rd_ret (BqResolution record)
  else rd_fail (UnknownTag tag).

Definition read_blob_request : rd MediaWireError BlobRequest :=
  mlift (rd_array 2) ;;; tag <- mlift rd_uint ;; blob_request_fields tag.
Definition blob_request_decode (bs : list byte) : result MediaWireError BlobRequest :=
  parse MediaEncoding read_blob_request bs.

(** ** The responses *)
Inductive BlobResponse : Type :=
| BsUpload (url : list byte) (expires_in : Z)
| BsExists
| BsMultipart (session_id : list byte) (part_size expires_in : Z)
| BsDownload (url : list byte) (expires_in : Z)
| BsNotFound
| BsMultipartPartUpload (url : list byte) (expires_in : Z)
| BsMultipartCompleted
| BsMultipartAborted
| BsRetentionAck (digest : list byte)
| BsListing (entries : list (list byte * Z))
| BsRetentionResolved
| BsRetentionPosition (control_epoch : Z) (control_digest : option (list byte)) (next_sequence : Z)
    (prev_manifest_hash : option (list byte)) (blobs : list (list byte))
| BsQuota (stored_bytes reserved_bytes : Z) (limit_bytes : option Z).

Definition blob_response_tag (a : BlobResponse) : Z :=
  match a with
  | BsUpload _ _ => 1
  | BsExists => 2
  | BsMultipart _ _ _ => 3
  | BsDownload _ _ => 4
  | BsNotFound => 5
  | BsMultipartPartUpload _ _ => 6
  | BsMultipartCompleted => 7
  | BsMultipartAborted => 8
  | BsRetentionAck _ => 9
  | BsListing _ => 10
  | BsRetentionResolved => 11
  | BsRetentionPosition _ _ _ _ _ => 12
  | BsQuota _ _ _ => 13
  end.

Definition encode_entry (e : list byte * Z) : list byte := array [bytes e.1; uint e.2].

Definition blob_response_body (a : BlobResponse) : list byte :=
  match a with
  | BsUpload url expires_in | BsDownload url expires_in | BsMultipartPartUpload url expires_in =>
      array [bytes url; uint expires_in]
  | BsExists | BsNotFound | BsMultipartCompleted | BsMultipartAborted | BsRetentionResolved => array []
  | BsMultipart session_id part_size expires_in => array [bytes session_id; uint part_size; uint expires_in]
  | BsRetentionAck digest => array [bytes digest]
  | BsListing entries => array [array (map encode_entry entries)]
  | BsRetentionPosition control_epoch control_digest next_sequence prev_manifest_hash blobs =>
      array [uint control_epoch; optional_bytes control_digest; uint next_sequence;
             optional_bytes prev_manifest_hash; array (map bytes blobs)]
  | BsQuota stored_bytes reserved_bytes limit_bytes =>
      array [uint stored_bytes; uint reserved_bytes;
             match limit_bytes with Some limit => uint limit | None => NULL end]
  end.

Definition blob_response_encode (a : BlobResponse) : list byte :=
  array [uint (blob_response_tag a); blob_response_body a].

(** [String::from_utf8_lossy]: each maximal ill-formed piece becomes U+FFFD. *)
Definition REPLACEMENT : list byte := [Byte.xef; Byte.xbf; Byte.xbd].
Definition second_of_three (b0 b1 : byte) : bool :=
  (in_range 224 224 b0 && in_range 160 191 b1) || (in_range 225 236 b0 && continuation b1)
  || (in_range 237 237 b0 && in_range 128 159 b1) || (in_range 238 239 b0 && continuation b1).
Definition second_of_four (b0 b1 : byte) : bool :=
  (in_range 240 240 b0 && in_range 144 191 b1) || (in_range 241 243 b0 && continuation b1)
  || (in_range 244 244 b0 && in_range 128 143 b1).

Fixpoint from_utf8_lossy (bs : list byte) : list byte :=
  match bs with
  | [] => []
  | b0 :: t0 =>
      if in_range 0 127 b0 then b0 :: from_utf8_lossy t0 else
      match t0 with
      | [] => REPLACEMENT
      | b1 :: t1 =>
          if in_range 194 223 b0 then
            if continuation b1 then b0 :: b1 :: from_utf8_lossy t1 else REPLACEMENT ++ from_utf8_lossy t0
          else if second_of_three b0 b1 then
            match t1 with
            | [] => REPLACEMENT
            | b2 :: t2 =>
                if continuation b2 then b0 :: b1 :: b2 :: from_utf8_lossy t2 else REPLACEMENT ++ from_utf8_lossy t1
            end
          else if second_of_four b0 b1 then
            match t1 with
            | [] => REPLACEMENT
            | b2 :: t2 =>
                if continuation b2 then
                  match t2 with
                  | [] => REPLACEMENT
                  | b3 :: t3 =>
                      if continuation b3 then b0 :: b1 :: b2 :: b3 :: from_utf8_lossy t3
                      else REPLACEMENT ++ from_utf8_lossy t2
                  end
                else REPLACEMENT ++ from_utf8_lossy t1
            end
          else REPLACEMENT ++ from_utf8_lossy t0
      end
  end.

Definition read_url (make : list byte → Z → BlobResponse) : rd MediaWireError BlobResponse :=
  mlift (rd_array 2) ;;; url <- mlift rd_bytes ;; expires_in <- mlift rd_u32 ;;
  rd_ret (make (from_utf8_lossy url) expires_in).
Definition read_nothing (a : BlobResponse) : rd MediaWireError BlobResponse := mlift (rd_array 0) ;;; rd_ret a.
Definition read_entry : rd MediaWireError (list byte * Z) :=
  mlift (rd_array 2) ;;; hash <- mlift rd_bytes ;; len <- mlift rd_uint ;; rd_ret (hash, len).

Definition blob_response_fields (tag : Z) : rd MediaWireError BlobResponse :=
  if tag =? 1 then read_url BsUpload
  else if tag =? 2 then read_nothing BsExists
  else if tag =? 3 then
    mlift (rd_array 3) ;;; session_id <- mlift rd_bytes ;; part_size <- mlift rd_uint ;; expires_in <- mlift rd_u32 ;;
    rd_ret (BsMultipart session_id part_size expires_in)
  else if tag =? 4 then read_url BsDownload
  else if tag =? 5 then read_nothing BsNotFound
  else if tag =? 6 then read_url BsMultipartPartUpload
  else if tag =? 7 then read_nothing BsMultipartCompleted
  else if tag =? 8 then read_nothing BsMultipartAborted
  else if tag =? 9 then mlift (rd_array 1) ;;; digest <- mlift rd_bytes ;; rd_ret (BsRetentionAck digest)
  else if tag =? 10 then mlift (rd_array 1) ;;; entries <- read_capped read_entry ;; rd_ret (BsListing entries)
  else if tag =? 12 then
    mlift (rd_array 5) ;;; control_epoch <- mlift rd_uint ;; control_digest <- mlift rd_optional_bytes ;;
    next_sequence <- mlift rd_uint ;; prev_manifest_hash <- mlift rd_optional_bytes ;;
    blobs <- media_read_list HASH_BYTES ;;
    rd_ret (BsRetentionPosition control_epoch control_digest next_sequence prev_manifest_hash blobs)
  else if tag =? 11 then read_nothing BsRetentionResolved
  else if tag =? 13 then
    mlift (rd_array 3) ;;; stored_bytes <- mlift rd_uint ;; reserved_bytes <- mlift rd_uint ;;
    null <- mlift rd_optional_is_null ;;
    if null : bool then rd_ret (BsQuota stored_bytes reserved_bytes None)
    else limit <- mlift rd_uint ;; rd_ret (BsQuota stored_bytes reserved_bytes (Some limit))
  else rd_fail (UnknownTag tag).

Definition read_blob_response : rd MediaWireError BlobResponse :=
  mlift (rd_array 2) ;;; tag <- mlift rd_uint ;; blob_response_fields tag.
Definition blob_response_decode (bs : list byte) : result MediaWireError BlobResponse :=
  parse MediaEncoding read_blob_response bs.

(** ** What is well formed, and exact decoding *)
Definition is_hash (v : list byte) : Prop := length v = 32%nat.
Definition is_sig (v : list byte) : Prop := length v = 64%nat.

#[global] Instance capped_list_codec {A} (wf : A → Prop) enc (item : rd MediaWireError A) :
  WireCodec wf enc item → (∀ x, (1 ≤ length (enc x))%nat) →
  WireCodec (λ l, Forall wf l ∧ (length l ≤ MAX_LIST)%nat) (λ l, array (map enc l)) (read_capped item) | 10.
Proof.
  intros Hc Hp. apply (capped_codec MediaEncoding MAX_LIST (λ _, TooManyEntries)); [by vm_compute|done|done].
Qed.

#[global] Instance hash_list_codec :
  WireCodec (λ l, Forall is_hash l ∧ (length l ≤ MAX_LIST)%nat) encode_list (media_read_list HASH_BYTES).
Proof. apply (capped_list_codec is_hash bytes (mlift (rd_bytes_of 32))); [apply _|apply length_bytes_pos]. Qed.

Definition signature_wf (s : Signature) : Prop := is_hash (sg_key s) ∧ is_sig (sg_sig s).

#[global] Instance signature_codec : WireCodec signature_wf encode_signature read_signature.
Proof.
  split.
  - intros [k s] [Hk Hs]. unfold is_hash, is_sig in *. cbn in *. unfold read_signature, encode_signature. cbn. accept_record.
  - intros r s r' Hd. unfold read_signature in Hd. do 3 sound_step Hd. injection Hd as <- <-.
    split; [by split|]. unfold encode_signature. cbn. sound_chain.
Qed.

#[global] Instance signatures_codec :
  WireCodec (λ l, Forall signature_wf l ∧ (length l ≤ MAX_LIST)%nat) encode_signatures read_signatures.
Proof. apply (capped_list_codec signature_wf encode_signature read_signature); [apply _|intros; apply length_array_pos]. Qed.

Definition control_wf (c : RetentionControl) : Prop :=
  is_hash (rc_group c) ∧ is_u64 (rc_epoch c) ∧ is_hash (rc_verifier c) ∧ opt_ok (rc_prev c) ∧ is_sig (rc_sig c).

Lemma length_optional_bytes_pos v : (1 ≤ length (optional_bytes v))%nat.
Proof. destruct v; cbn; [apply length_bytes_pos|lia]. Qed.

#[global] Instance control_codec : WireCodec control_wf control_encode read_control.
Proof.
  split.
  - intros [g e v p s] (Hg & He & Hv & Hp & Hs). unfold is_hash, is_sig in *. cbn in *. unfold read_control, control_encode. cbn.
    pose proof (length_optional_bytes_pos p). accept_record.
  - intros r c r' Hd. unfold read_control in Hd. do 6 sound_step Hd. injection Hd as <- <-.
    split; [by split_and!|]. unfold control_encode. cbn. sound_chain.
Qed.

Definition resolution_wf (c : RetentionResolution) : Prop :=
  is_hash (rr_group c) ∧ is_u64 (rr_epoch c) ∧ is_hash (rr_verifier c) ∧ is_sig (rr_sig c).

#[global] Instance resolution_codec : WireCodec resolution_wf resolution_encode read_resolution.
Proof.
  split.
  - intros [g e v s] (Hg & He & Hv & Hs). unfold is_hash, is_sig in *. cbn in *. unfold read_resolution, resolution_encode. cbn.
    accept_record.
  - intros r c r' Hd. unfold read_resolution in Hd. do 5 sound_step Hd. injection Hd as <- <-.
    split; [by split_and!|]. unfold resolution_encode. cbn. sound_chain.
Qed.

Definition hashes_ok (l : list (list byte)) : Prop := Forall is_hash l ∧ (length l ≤ MAX_LIST)%nat.
Definition signatures_ok (l : list Signature) : Prop := Forall signature_wf l ∧ (length l ≤ MAX_LIST)%nat.

Lemma length_encode_list_pos l : (1 ≤ length (encode_list l))%nat.
Proof. apply length_array_pos. Qed.
Lemma length_encode_signatures_pos l : (1 ≤ length (encode_signatures l))%nat.
Proof. apply length_array_pos. Qed.

Definition manifest_wf (m : RetentionManifest) : Prop :=
  is_hash (rm_group m) ∧ is_u64 (rm_epoch m) ∧ is_u64 (rm_sequence m) ∧ opt_ok (rm_prev m)
  ∧ hashes_ok (rm_blobs m) ∧ is_sig (rm_sig m).

#[global] Instance manifest_codec : WireCodec manifest_wf manifest_encode read_manifest.
Proof.
  split.
  - intros [g e q p b s] (Hg & He & Hq & Hp & Hb & Hs). unfold is_hash, is_sig in *. cbn in *.
    unfold read_manifest, manifest_encode. cbn [rm_group rm_epoch rm_sequence rm_prev rm_blobs rm_sig].
    pose proof (length_optional_bytes_pos p). pose proof (length_encode_list_pos b). accept_record.
  - intros r c r' Hd. unfold read_manifest in Hd. do 7 sound_step Hd. injection Hd as <- <-.
    split; [by split_and!|]. unfold manifest_encode. cbn [rm_group rm_epoch rm_sequence rm_prev rm_blobs rm_sig].
    sound_chain.
Qed.

Definition policy_wf (p : RetentionPolicy) : Prop :=
  is_hash (rp_group p) ∧ is_u64 (rp_version p) ∧ is_u32 (rp_media_after_days p) ∧ is_u32 (rp_text_after_days p)
  ∧ is_u64 (rp_not_before p) ∧ hashes_ok (rp_authorizers p) ∧ rp_authorizers p ≠ [] ∧ signatures_ok (rp_signatures p).

(** The last step of the two threshold records. *)
Lemma accepts_some_authorizer {A} authorizers (x : A) :
  authorizers ≠ [] → accepts 0 (some_authorizer authorizers x) [] x.
Proof. intros Hne. destruct authorizers; [done|]. apply accepts_ret. Qed.
Lemma some_authorizer_ok {A} authorizers (x y : A) r r' :
  some_authorizer authorizers x r = (Ok y, r') → authorizers ≠ [] ∧ y = x ∧ r' = r.
Proof. destruct authorizers; [done|]. by intros [= <- <-]. Qed.

#[global] Instance policy_codec : WireCodec policy_wf policy_encode read_policy.
Proof.
  split.
  - intros [g v m t n a s] (Hg & Hv & Hm & Ht & Hn & Ha & Hne & Hs). unfold is_hash, is_sig in *. cbn in *.
    unfold read_policy, policy_encode.
    cbn [rp_group rp_version rp_media_after_days rp_text_after_days rp_not_before rp_authorizers rp_signatures].
    pose proof (length_encode_list_pos a). pose proof (length_encode_signatures_pos s). accept_record. by apply accepts_some_authorizer.
  - intros r c r' Hd. unfold read_policy in Hd. do 8 sound_step Hd. apply some_authorizer_ok in Hd as (Hne & -> & ->).
    split; [by split_and!|]. unfold policy_encode.
    cbn [rp_group rp_version rp_media_after_days rp_text_after_days rp_not_before rp_authorizers rp_signatures].
    sound_chain.
Qed.

Definition version_ok (v : option Z) : Prop := match v with Some z => is_u64 z | None => True end.

#[global] Instance version_codec {E} (lift : CborError → E) (bad : E) :
  WireCodec version_ok encode_version (read_version_with lift bad).
Proof.
  assert (∀ v, encode_version v = optional_bytes (be_bytes 8 <$> v)) as Henc by (by intros []).
  split.
  - intros v Hv. rewrite Henc. unfold read_version_with. rewrite <- (app_nil_r (optional_bytes _)).
    eapply accepts_field.
    + apply codec_accepts. destruct v as [z|]; [|done]. change (vec_ok (be_bytes 8 z)). unfold vec_ok, len. rewrite length_be_bytes. by vm_compute.
    + destruct v as [z|]; [|apply accepts_ret]. cbn [fmap option_fmap option_map]. rewrite length_be_bytes, Nat.eqb_refl.
      rewrite be_value_bytes_small; [apply accepts_ret|]. cbn in Hv. unfold is_u64, U64_MAX in Hv. cbn. lia.
  - intros r v r' Hd. unfold read_version_with in Hd. sound_step Hd. rewrite Henc. destruct x as [bs|].
    + destruct (Nat.eqb_spec (length bs) 8) as [Hl|]; [|discriminate]. injection Hd as <- <-. split.
      * cbn. pose proof (be_value_bound bs) as Hb. rewrite Hl in Hb. unfold is_u64, U64_MAX. cbn in Hb. lia.
      * cbn [fmap option_fmap option_map]. rewrite <- Hl, be_bytes_value. done.
    + injection Hd as <- <-. done.
Qed.

#[global] Instance media_version_codec : WireCodec version_ok encode_version read_version.
Proof. apply version_codec. Qed.

Definition destruction_wf (x : RetentionDestruction) : Prop :=
  is_hash (rx_group x) ∧ vec_ok (rx_kind x) ∧ is_hash (rx_target_digest x) ∧ version_ok (rx_policy_version x)
  ∧ is_u64 (rx_not_before x) ∧ hashes_ok (rx_authorizers x) ∧ rx_authorizers x ≠ [] ∧ signatures_ok (rx_signatures x).

Lemma length_encode_version_pos v : (1 ≤ length (encode_version v))%nat.
Proof. destruct v; [apply length_bytes_pos|cbn; lia]. Qed.

#[global] Instance destruction_codec : WireCodec destruction_wf destruction_encode read_destruction.
Proof.
  split.
  - intros [g k d v n a s] (Hg & Hk & Ht & Hv & Hn & Ha & Hne & Hs). unfold is_hash, is_sig in *. cbn in *.
    unfold read_destruction, destruction_encode.
    cbn [rx_group rx_kind rx_target_digest rx_policy_version rx_not_before rx_authorizers rx_signatures].
    pose proof (length_encode_list_pos a). pose proof (length_encode_signatures_pos s). pose proof (length_encode_version_pos v).
    accept_record. by apply accepts_some_authorizer.
  - intros r c r' Hd. unfold read_destruction in Hd. do 8 sound_step Hd. apply some_authorizer_ok in Hd as (Hne & -> & ->).
    split; [by split_and!|]. unfold destruction_encode.
    cbn [rx_group rx_kind rx_target_digest rx_policy_version rx_not_before rx_authorizers rx_signatures].
    sound_chain.
Qed.

(** ** Requests, exactly *)
Definition part_wf (p : Z * list byte) : Prop := is_u32 p.1 ∧ vec_ok p.2.

#[global] Instance part_codec : WireCodec part_wf encode_part read_part.
Proof.
  split.
  - intros [n e] [Hn He]. cbn in *. unfold read_part, encode_part. cbn. accept_record.
  - intros r p r' Hd. unfold read_part in Hd. do 3 sound_step Hd. injection Hd as <- <-.
    split; [by split|]. unfold encode_part. cbn. sound_chain.
Qed.

Definition parts_ok (l : list (Z * list byte)) : Prop := Forall part_wf l ∧ (length l ≤ MAX_LIST)%nat.

#[global] Instance parts_codec : WireCodec parts_ok (λ l, array (map encode_part l)) (read_capped read_part).
Proof. apply (capped_list_codec part_wf encode_part read_part); [apply _|intros; apply length_array_pos]. Qed.

Definition blob_request_wf (q : BlobRequest) : Prop :=
  match q with
  | BqPut w g h n => vec_ok w ∧ is_hash g ∧ is_hash h ∧ is_u64 n
  | BqGet w g h => vec_ok w ∧ is_hash g ∧ is_hash h
  | BqMultipartPart s n l => vec_ok s ∧ is_u32 n ∧ is_u64 l
  | BqMultipartComplete s parts => vec_ok s ∧ parts_ok parts
  | BqMultipartAbort s => vec_ok s
  | BqList w g => vec_ok w ∧ is_hash g
  | BqControl c => control_wf c
  | BqManifest m => manifest_wf m
  | BqPolicy p => policy_wf p
  | BqDestruction x => destruction_wf x
  | BqResolution c => resolution_wf c
  | BqPosition g | BqQuota g => is_hash g
  end.

Lemma blob_request_body_pos q : (1 ≤ length (blob_request_body q))%nat.
Proof. destruct q; apply length_array_pos. Qed.

Lemma accepts_parts l : parts_ok l → accepts 0 (read_capped read_part) (array (map encode_part l)) l.
Proof. apply (codec_accepts (wf := parts_ok) (enc := λ l, array (map encode_part l))). Qed.

(** The body of a request is read back by the arm its tag selects. *)
Lemma accepts_request_body q :
  blob_request_wf q → accepts 0 (blob_request_fields (blob_request_tag q)) (blob_request_body q) q.
Proof.
  destruct q as [w g h n|w g h|s n l|s parts|s|w g|c|m|p|x|c|g|g]; intros Hwf;
    cbn [blob_request_tag blob_request_fields Z.eqb Pos.eqb blob_request_wf] in *;
    unfold is_hash in *; destruct_and? Hwf; unfold blob_request_body;
    unfold read_put, read_get, read_multipart_part, read_multipart_complete, read_multipart_abort, read_blob_list,
      read_one_group; try accept_record;
    try (by apply (accepts_last _ _), codec_accepts).
  rewrite app_nil_r. apply accepts_last. by apply accepts_parts.
Qed.

Lemma request_body_sound tag r q r' :
  blob_request_fields tag r = (Ok q, r') →
  tag = blob_request_tag q ∧ blob_request_wf q ∧ consumed r r' (blob_request_body q).
Proof.
  intros Hd. unfold blob_request_fields in Hd.
  repeat match type of Hd with
    | (if ?t =? ?c then _ else _) _ = _ => destruct (Z.eqb_spec t c) as [->|] end; try discriminate;
    unfold read_put, read_get, read_multipart_part, read_multipart_complete, read_multipart_abort, read_blob_list,
      read_one_group in Hd;
    repeat sound_step Hd; injection Hd as <- <-; (split; [done|]); (split; [cbn; by split_and?|]);
    unfold blob_request_body; sound_chain.
Qed.

#[global] Instance blob_request_codec : WireCodec blob_request_wf blob_request_encode read_blob_request.
Proof.
  split.
  - intros q Hwf. unfold blob_request_encode, read_blob_request.
    pose proof (blob_request_body_pos q).
    apply accepts_array_items; [done|by vm_compute|length_items|cbn [concat]].
    eapply accepts_field; [apply codec_accepts; destruct q; by vm_compute|cbv beta]. rewrite app_nil_r.
    by apply accepts_request_body.
  - intros r q r' Hd. unfold read_blob_request in Hd. do 2 sound_step Hd.
    apply request_body_sound in Hd as (-> & Hwf & Hc). split; [done|]. unfold blob_request_encode. sound_chain.
Qed.

(** ** Responses, read back *)
Definition blob_response_wf (a : BlobResponse) : Prop :=
  match a with
  | BsUpload url n | BsDownload url n | BsMultipartPartUpload url n => text_ok url ∧ is_u32 n
  | BsMultipart s p n => vec_ok s ∧ is_u64 p ∧ is_u32 n
  | BsRetentionAck d => vec_ok d
  | BsListing es => Forall (λ e : list byte * Z, vec_ok e.1 ∧ is_u64 e.2) es ∧ (length es ≤ MAX_LIST)%nat
  | BsRetentionPosition e d n p b => is_u64 e ∧ opt_ok d ∧ is_u64 n ∧ opt_ok p ∧ hashes_ok b
  | BsQuota s r l => is_u64 s ∧ is_u64 r ∧ version_ok l
  | _ => True
  end.

Lemma from_utf8_lossy_valid bs : utf8_valid bs = true → from_utf8_lossy bs = bs.
Proof.
  induction bs as [bs IH] using (induction_ltof1 _ length). unfold ltof in IH.
  destruct bs as [|b0 t0]; [done|]. cbn [utf8_valid from_utf8_lossy].
  destruct (in_range 0 127 b0); [intros Hv; rewrite IH; cbn; [done|lia|done]|].
  destruct t0 as [|b1 t1]; [done|].
  destruct (in_range 194 223 b0).
  { intros [Hc Hv]%andb_true_iff. rewrite Hc, IH; cbn; [done|lia|done]. }
  fold (second_of_three b0 b1). destruct t1 as [|b2 t2]; [done|].
  destruct (second_of_three b0 b1).
  { intros [Hc Hv]%andb_true_iff. rewrite Hc, IH; cbn; [done|lia|done]. }
  destruct t2 as [|b3 t3]; [done|]. fold (second_of_four b0 b1).
  destruct (second_of_four b0 b1); [|done].
  intros [[Hc Hc']%andb_true_iff Hv]%andb_true_iff. rewrite Hc, Hc', IH; cbn; [done|lia|done].
Qed.

#[global] Instance entry_codec : WireCodec (λ e : list byte * Z, vec_ok e.1 ∧ is_u64 e.2) encode_entry read_entry.
Proof.
  split.
  - intros [h n] [Hh Hn]. cbn in *. unfold read_entry, encode_entry. cbn. accept_record.
  - intros r p r' Hd. unfold read_entry in Hd. do 3 sound_step Hd. injection Hd as <- <-.
    split; [by split|]. unfold encode_entry. cbn. sound_chain.
Qed.

Lemma accepts_entries l :
  Forall (λ e : list byte * Z, vec_ok e.1 ∧ is_u64 e.2) l → (length l ≤ MAX_LIST)%nat →
  accepts 0 (read_capped read_entry) (array (map encode_entry l)) l.
Proof.
  intros Hf Hl.
  by apply (codec_accepts (WireCodec := capped_list_codec _ encode_entry read_entry _ (λ x, length_array_pos _))).
Qed.

Lemma accepts_not_null {A} z (k : bool → rd MediaWireError A) x :
  is_u64 z → accepts 0 (k false) (uint z) x → accepts 0 (null <- mlift rd_optional_is_null ;; k null) (uint z) x.
Proof.
  intros Hz Hk pre suf Hs. unfold rd_bind, rd_map_err.
  assert (rd_optional_is_null (mkReader (pre ++ uint z ++ suf) (length pre)) = (Ok false, mkReader (pre ++ uint z ++ suf) (length pre))) as ->.
  { unfold rd_optional_is_null. rewrite byte_at_lookup. cbn [rd_data rd_offset].
    destruct (lookup_at_head pre MAJOR_UINT z [] suf) as (b & Hb & Hm); [by vm_compute|done|].
    rewrite app_nil_r in Hb. unfold uint. by rewrite Hb, Hm. }
  by apply Hk.
Qed.

Lemma accepts_response_body a :
  blob_response_wf a → accepts 0 (blob_response_fields (blob_response_tag a)) (blob_response_body a) a.
Proof.
  assert (∀ make url n, text_ok url ∧ is_u32 n → accepts 0 (read_url make) (array [bytes url; uint n]) (make url n)) as Hurl.
  { intros make url n [[Hv Hu] Hn]. unfold read_url. accept_record. rewrite (from_utf8_lossy_valid _ Hu). apply accepts_ret. }
  assert (∀ a, accepts 0 (read_nothing a) (array []) a) as Hnone.
  { intros a0. unfold read_nothing. apply accepts_array_items; [done|by vm_compute|cbn; lia|apply accepts_ret]. }
  destruct a as [url n| |s p n|url n| |url n| | |d|es| |e d n p b|s r l]; intros Hwf;
    cbn [blob_response_tag blob_response_fields Z.eqb Pos.eqb blob_response_wf blob_response_body] in *.
  - by apply Hurl.
  - apply Hnone.
  - destruct Hwf as (? & ? & ?). accept_record.
  - by apply Hurl.
  - apply Hnone.
  - by apply Hurl.
  - apply Hnone.
  - apply Hnone.
  - accept_record.
  - destruct Hwf as [Hf Hl]. apply accepts_array_items; [done|by vm_compute|length_items|cbn [concat]].
    rewrite app_nil_r. apply accepts_last. by apply accepts_entries.
  - apply Hnone.
  - destruct Hwf as (? & ? & ? & ? & ?). pose proof (length_optional_bytes_pos d). pose proof (length_optional_bytes_pos p).
    change (array (map bytes b)) with (encode_list b). pose proof (length_encode_list_pos b). accept_record.
  - destruct Hwf as (? & ? & ?). apply accepts_array_items; [done|by vm_compute| |cbn [concat]].
    + destruct l; length_items; unfold NULL; cbn [length]; lia.
    + do 2 (eapply accepts_field; [by apply codec_accepts|cbv beta]). rewrite app_nil_r. destruct l as [z|].
      * apply accepts_not_null; [done|]. rewrite <- (app_nil_r (uint z)).
        eapply accepts_field; [by apply codec_accepts|apply accepts_ret].
      * rewrite <- (app_nil_r NULL). eapply accepts_field; [apply accepts_map_err, accepts_null|apply accepts_ret].
Qed.

Lemma blob_response_body_pos a : (1 ≤ length (blob_response_body a))%nat.
Proof. destruct a; apply length_array_pos. Qed.

(** The media conversation is exact: the relay accepts precisely the
    canonical encodings of the thirteen requests, every field within the widths
    and list bounds the protocol states, and a client reads back every answer
    the relay can give it, retention records and optional limits included. *)
Theorem blob_wire_exact :
  (∀ bs q, blob_request_decode bs = Ok q ↔ blob_request_wf q ∧ blob_request_encode q = bs)
  ∧ (∀ a, blob_response_wf a → blob_response_decode (blob_response_encode a) = Ok a).
Proof.
  split.
  - intros bs q. split.
    + intros Hd. exact (parse_canonical MediaEncoding blob_request_wf blob_request_encode _ bs q Hd).
    + intros [Hw <-]. exact (parse_encode MediaEncoding blob_request_wf blob_request_encode _ q Hw).
  - intros a Hwf. apply parse_accepts. unfold read_blob_response, blob_response_encode. pose proof (blob_response_body_pos a).
    apply accepts_array_items; [done|by vm_compute|length_items|cbn [concat]].
    eapply accepts_field; [apply codec_accepts; destruct a; by vm_compute|cbv beta]. rewrite app_nil_r.
    by apply accepts_response_body.
Qed.

(** ** What a signature covers *)
Inductive SignedRecord : Type :=
| SgControl (c : RetentionControl)
| SgResolution (c : RetentionResolution)
| SgManifest (m : RetentionManifest)
| SgPolicy (p : RetentionPolicy)
| SgDestruction (x : RetentionDestruction).

Definition record_signing_bytes (r : SignedRecord) : list byte :=
  match r with
  | SgControl c => control_signing_bytes c
  | SgResolution c => resolution_signing_bytes c
  | SgManifest m => manifest_signing_bytes m
  | SgPolicy p => policy_signing_bytes p
  | SgDestruction x => destruction_signing_bytes x
  end.

Definition record_wf (r : SignedRecord) : Prop :=
  match r with
  | SgControl c => control_wf c
  | SgResolution c => resolution_wf c
  | SgManifest m => manifest_wf m
  | SgPolicy p => policy_wf p
  | SgDestruction x => destruction_wf x
  end.

(** The record with a fixed signature in place of its own. *)
Definition blank_sig : list byte := replicate 64 Byte.x00.
Definition unsigned (r : SignedRecord) : SignedRecord :=
  match r with
  | SgControl c => SgControl (mkControl (rc_group c) (rc_epoch c) (rc_verifier c) (rc_prev c) blank_sig)
  | SgResolution c => SgResolution (mkResolution (rr_group c) (rr_epoch c) (rr_verifier c) blank_sig)
  | SgManifest m => SgManifest (mkManifest (rm_group m) (rm_epoch m) (rm_sequence m) (rm_prev m) (rm_blobs m) blank_sig)
  | SgPolicy p => SgPolicy (mkPolicy (rp_group p) (rp_version p) (rp_media_after_days p) (rp_text_after_days p)
      (rp_not_before p) (rp_authorizers p) [])
  | SgDestruction x => SgDestruction (mkDestruction (rx_group x) (rx_kind x) (rx_target_digest x)
      (rx_policy_version x) (rx_not_before x) (rx_authorizers x) [])
  end.

Lemma codec_inj {E A} (wf : A → Prop) enc (dec : rd E A) `{!WireCodec wf enc dec} x y sx sy :
  wf x → wf y → enc x ++ sx = enc y ++ sy → x = y ∧ sx = sy.
Proof.
  intros Hx Hy Heq. pose proof (codec_accepts x Hx [] sx ltac:(lia)) as H1.
  pose proof (codec_accepts y Hy [] sy ltac:(lia)) as H2. rewrite !app_nil_l in H1, H2. rewrite Heq, H2 in H1.
  injection H1 as -> _. split; [done|]. by apply app_inv_head in Heq.
Qed.

Lemma encode_inj {E A} (wf : A → Prop) enc (dec : rd E A) `{!WireCodec wf enc dec} x y :
  wf x → wf y → enc x = enc y → x = y.
Proof. intros Hx Hy Heq. apply (codec_inj wf enc dec x y [] []); [done..|]. by rewrite Heq. Qed.

(** One more item on an array is one more item behind the same bytes. *)
Lemma array_snoc items item items' :
  array items = array items' → length items = length items' → array (items ++ [item]) = array (items' ++ [item]).
Proof.
  rewrite !array_unfold. intros Heq Hl. rewrite Hl in Heq. apply app_inv_head in Heq.
  by rewrite !length_app, Hl, !concat_app, Heq.
Qed.

Lemma array_count n m items items' :
  (n < 24)%nat → (m < 24)%nat → length items = n → length items' = m → array items = array items' → n = m.
Proof.
  intros Hn Hm Hi Hi' Heq. rewrite !array_unfold, Hi, Hi' in Heq. unfold array_head in Heq.
  rewrite !head_short in Heq by lia. cbn [app] in Heq. injection Heq as Hb _.
  pose proof (f_equal byte_to_Z Hb) as Hz. unfold MAJOR_ARRAY in Hz. rewrite !head_byte in Hz by lia. lia.
Qed.

(** Items of different major types begin differently. *)
Lemma head_major_inj major v tl major' v' tl' :
  0 ≤ major < 8 → 0 ≤ major' < 8 → is_u64 v → is_u64 v' → head major v ++ tl = head major' v' ++ tl' → major = major'.
Proof.
  intros Hm Hm' Hv Hv' Heq. destruct (lookup_at_head [] major v tl []) as (b & Hb & <-); [done..|].
  destruct (lookup_at_head [] major' v' tl' []) as (b' & Hb' & <-); [done..|].
  rewrite Heq, Hb' in Hb. by injection Hb as ->.
Qed.

Lemma vec_ok_u64 v : vec_ok v → is_u64 (len v).
Proof. unfold vec_ok, is_u64, len. lia. Qed.

Lemma policy_not_destruction p x :
  policy_wf p → destruction_wf x → policy_signing_bytes p ≠ destruction_signing_bytes x.
Proof.
  intros (Hg & Hv & _) (Hg' & Hk & _) Heq. unfold policy_signing_bytes, destruction_signing_bytes in Heq.
  rewrite !array_unfold in Heq. apply app_inv_head in Heq. cbn [concat] in Heq.
  apply (codec_inj (λ v, length v = 32%nat) bytes (rd_bytes_of 32)) in Heq as [_ Heq]; [|done|done].
  unfold uint at 1, bytes at 1 in Heq. rewrite <- (app_assoc (head MAJOR_BYTES _)) in Heq.
  apply head_major_inj in Heq; [done|by vm_compute|by vm_compute|done|by apply vec_ok_u64].
Qed.

(** A signature over one retention record is a signature over that record
    alone: two well-formed records of any of the five kinds with the same
    signed bytes are of the same kind and differ in nothing but their
    signatures, so no signed manifest, control, resolution, policy or
    destruction can be presented as another. *)
Theorem signed_bytes_bind_media_record a b :
  record_wf a → record_wf b → record_signing_bytes a = record_signing_bytes b → unsigned a = unsigned b.
Proof.
  intros Ha Hb Heq.
  destruct a as [a|a|a|a|a], b as [b|b|b|b|b]; cbn [record_signing_bytes record_wf] in *;
    try (exfalso; exact (policy_not_destruction _ _ Ha Hb Heq));
    try (exfalso; exact (policy_not_destruction _ _ Hb Ha (eq_sym Heq)));
    try (pose proof (λ Hn Hm, array_count _ _ _ _ Hn Hm eq_refl eq_refl Heq) as Hc; cbn [length] in Hc;
         specialize (Hc ltac:(lia) ltac:(lia)); discriminate Hc); cbn [unsigned]; f_equal.
  - pose proof (array_snoc _ (bytes blank_sig) _ Heq eq_refl) as He. destruct Ha as (? & ? & ? & ? & ?), Hb as (? & ? & ? & ? & ?).
    apply (encode_inj control_wf control_encode read_control); [by split_and!..|exact He].
  - pose proof (array_snoc _ (bytes blank_sig) _ Heq eq_refl) as He. destruct Ha as (? & ? & ? & ?), Hb as (? & ? & ? & ?).
    apply (encode_inj resolution_wf resolution_encode read_resolution); [by split_and!..|exact He].
  - pose proof (array_snoc _ (bytes blank_sig) _ Heq eq_refl) as He.
    destruct Ha as (? & ? & ? & ? & ? & ?), Hb as (? & ? & ? & ? & ? & ?).
    apply (encode_inj manifest_wf manifest_encode read_manifest); [by split_and!..|exact He].
  - pose proof (array_snoc _ (encode_signatures []) _ Heq eq_refl) as He.
    destruct Ha as (? & ? & ? & ? & ? & ? & ? & ?), Hb as (? & ? & ? & ? & ? & ? & ? & ?).
    apply (encode_inj policy_wf policy_encode read_policy); [split_and!; try done; split; [constructor|cbn; lia]..|exact He].
  - pose proof (array_snoc _ (encode_signatures []) _ Heq eq_refl) as He.
    destruct Ha as (? & ? & ? & ? & ? & ? & ? & ?), Hb as (? & ? & ? & ? & ? & ? & ? & ?).
    apply (encode_inj destruction_wf destruction_encode read_destruction);
      [split_and!; try done; split; [constructor|cbn; lia]..|exact He].
Qed.

(** ** Concrete records *)
Module MediaWireDemo.
Definition a_control : RetentionControl :=
  mkControl (replicate 32 Byte.x01) 3 (replicate 32 Byte.x02) (Some (replicate 32 Byte.x03)) (replicate 64 Byte.x04).
Definition resigned : RetentionControl :=
  mkControl (replicate 32 Byte.x01) 3 (replicate 32 Byte.x02) (Some (replicate 32 Byte.x03)) (replicate 64 Byte.x05).

Lemma signed_bytes_bind_media_record_witness : unsigned (SgControl a_control) = unsigned (SgControl resigned).
Proof.
  apply (signed_bytes_bind_media_record (SgControl a_control) (SgControl resigned)); [by vm_compute..|reflexivity].
Defined.

Lemma blob_wire_exact_witness :
  blob_request_decode (blob_request_encode (BqControl a_control)) = Ok (BqControl a_control)
  ∧ blob_response_decode (blob_response_encode (BsQuota 5 7 None)) = Ok (BsQuota 5 7 None).
Proof.
  destruct blob_wire_exact as [Hq Ha]. split.
  - apply (proj2 (Hq _ _)). split; [by vm_compute|done].
  - apply Ha. by vm_compute.
Defined.
End MediaWireDemo.
