(* ===== verification/MediaStore.v ===== *)
(** * Quota, reservations and multipart sessions: [media/store.rs]

    [MediaTables] is [relay_quota], [relay_blob_reservation],
    [relay_blob_multipart] and [relay_blob_multipart_part] with the constraints
    of their migrations; each operation is the transaction of the function it is
    named after. Random ids are arguments, and an insert whose id is taken
    fails as the primary key makes it. Time is in microseconds, the resolution
    of a [timestamptz].

    The theorems: in every state the operations reach, a workspace's two
    counters are exactly the bytes of its rows and an object has at most one
    row; a fresh reservation leaves the workspace within its plan; what each
    operation does on every branch. [MediaStoreDemo] records that refreshing a
    reservation that ran out checks no plan. *)

From stdpp Require Import base tactics numbers gmap sets fin_maps functions relations sorting list.
From S2P Require Import Prelude Cbor.

Open Scope Z_scope.

Abbreviation Uuid := (list byte).
Definition MICROS : Z := 1000000.
Definition BLOB_LIMIT : Z := 2147483648.

Record QuotaRow : Type := mkQuota { q_stored : Z; q_reserved : Z; q_limit : option Z }.
Record ReservationRow : Type := mkReservation {
  b_workspace : list byte;
  b_group : list byte;
  b_hash : list byte;
  b_bytes : Z;
  b_created : Z;
  b_expires : Z;
  b_finalized : option Z
}.
Record MultipartRow : Type := mkMultipart {
  m_reservation : option Uuid;
  m_upload_id : list byte;
  m_part_size : Z;
  m_expires : Z;
  m_completed : option Z;
  m_aborted : option Z
}.
Record MediaTables : Type := mkMedia {
  md_quota : gmap (list byte) QuotaRow;
  md_rows : gmap Uuid ReservationRow;
  md_sessions : gmap Uuid MultipartRow;
  md_parts : gmap (Uuid * Z) Z
}.

Definition with_quota (t : MediaTables) (q : gmap (list byte) QuotaRow) : MediaTables :=
  mkMedia q (md_rows t) (md_sessions t) (md_parts t).
Definition with_rows (t : MediaTables) (rs : gmap Uuid ReservationRow) : MediaTables :=
  mkMedia (md_quota t) rs (md_sessions t) (md_parts t).
Definition with_sessions (t : MediaTables) (ss : gmap Uuid MultipartRow) : MediaTables :=
  mkMedia (md_quota t) (md_rows t) ss (md_parts t).

(** The one failure a store call has. *)
Inductive MediaStoreError : Type := MediaDatabase.

(** ** The quota row *)
Definition ensure_quota_row (t : MediaTables) (workspace : list byte) (limit : option Z) : MediaTables :=
  with_quota t
    (match md_quota t !! workspace with
     | None => <[workspace := mkQuota 0 0 limit]> (md_quota t)
     | Some q =>
         <[workspace := mkQuota (q_stored q) (q_reserved q)
             (match q_limit q with Some l => Some l | None => limit end)]> (md_quota t)
     end).

Definition set_quota_limit (t : MediaTables) (workspace : list byte) (limit : option Z) : MediaTables :=
  with_quota t
    (match md_quota t !! workspace with
     | None => <[workspace := mkQuota 0 0 limit]> (md_quota t)
     | Some q => <[workspace := mkQuota (q_stored q) (q_reserved q) limit]> (md_quota t)
     end).

Definition media_usage (t : MediaTables) (workspace : list byte) : QuotaRow :=
  default (mkQuota 0 0 None) (md_quota t !! workspace).

(** [stored_bytes = greatest(stored_bytes - $2, 0)] and its sibling. *)
Definition spend_stored (t : MediaTables) (workspace : list byte) (f : Z → Z) : MediaTables :=
  with_quota t (alter (λ q, mkQuota (f (q_stored q)) (q_reserved q) (q_limit q)) workspace (md_quota t)).
Definition spend_reserved (t : MediaTables) (workspace : list byte) (f : Z → Z) : MediaTables :=
  with_quota t (alter (λ q, mkQuota (q_stored q) (f (q_reserved q)) (q_limit q)) workspace (md_quota t)).
Definition less (n : Z) (z : Z) : Z := Z.max (z - n) 0.

(** ** Reservations *)
Inductive Reserved : Type :=
| ReservedActive (reservation_id : Uuid)
| AlreadyStored
| OverQuota.

Definition names_object (workspace group hash : list byte) (r : ReservationRow) : Prop :=
  b_workspace r = workspace ∧ b_group r = group ∧ b_hash r = hash.
#[global] Instance names_object_dec workspace group hash r : Decision (names_object workspace group hash r).
Proof. unfold names_object. apply _. Defined.

Definition unfinalized (r : ReservationRow) : bool := match b_finalized r with None => true | Some _ => false end.

Abbreviation KeyedRow := (Uuid * ReservationRow)%type.

(** The unfinalized row of an object; the partial unique index keeps it alone. *)
Definition in_flight (t : MediaTables) (workspace group hash : list byte) : option KeyedRow :=
  list.head (filter (λ e : KeyedRow, names_object workspace group hash e.2 ∧ unfinalized e.2 = true)
    (map_to_list (md_rows t))).

(** Deleting a reservation clears the reference of the sessions that name it. *)
Definition delete_rows (t : MediaTables) (gone : Uuid → ReservationRow → bool) : MediaTables :=
  mkMedia (md_quota t) (filter (λ e : KeyedRow, gone e.1 e.2 = false) (md_rows t))
    ((λ m, match m_reservation m with
           | Some i =>
               match md_rows t !! i with
               | Some r => if gone i r then mkMultipart None (m_upload_id m) (m_part_size m) (m_expires m)
                                                      (m_completed m) (m_aborted m)
                           else m
               | None => m
               end
           | None => m
           end) <$> md_sessions t)
    (md_parts t).

(** [coalesce(sum(bytes), 0)] over the rows a predicate selects. *)
Definition bytes_where (sel : ReservationRow → bool) (rows : gmap Uuid ReservationRow) : Z :=
  msum (λ (_ : Uuid) r, if sel r then b_bytes r else 0) rows.

(** The rows whose object the store says is not there. *)
Definition stale_for (workspace group hash : list byte) (r : ReservationRow) : bool :=
  bool_decide (names_object workspace group hash r) && negb (unfinalized r).
Definition ran_out (workspace : list byte) (now : Z) (r : ReservationRow) : bool :=
  bool_decide (b_workspace r = workspace) && unfinalized r && (b_expires r <? now).

(** [saturating_add] of [i64], folded over the rows deleted. *)
Definition reclaimed_bytes (rows : gmap Uuid ReservationRow) (sel : ReservationRow → bool) : Z :=
  fold_left (λ acc (e : KeyedRow), i64_saturating (acc + b_bytes e.2))
    (filter (λ e : KeyedRow, sel e.2 = true) (map_to_list rows)) 0.

(** The stale rows retired and their charge returned. *)
Definition retire_stale (t : MediaTables) (workspace group hash : list byte) : MediaTables :=
  let sel := stale_for workspace group hash in
  match filter (λ e : KeyedRow, sel e.2 = true) (map_to_list (md_rows t)) with
  | [] => t
  | _ => spend_stored (delete_rows t (λ _ r, sel r)) workspace (less (reclaimed_bytes (md_rows t) sel))
  end.

Definition reserve (t : MediaTables) (workspace group hash : list byte) (bytes : Z) (already_stored : bool)
    (ttl_seconds now : Z) (fresh : Uuid) : result MediaStoreError Reserved * MediaTables :=
  if already_stored then (Ok AlreadyStored, t)
  else
    match md_quota t !! workspace with
    | None => (Err MediaDatabase, t)
    | Some _ =>
        match in_flight t workspace group hash with
        | Some (reservation_id, r) =>
            (Ok (ReservedActive reservation_id),
             with_rows t (<[reservation_id :=
               mkReservation (b_workspace r) (b_group r) (b_hash r) (b_bytes r) now (now + ttl_seconds * MICROS)
                 (b_finalized r)]> (md_rows t)))
        | None =>
            let t1 := retire_stale t workspace group hash in
            let q := media_usage t1 workspace in
            let reserved := Z.max (q_reserved q - bytes_where (ran_out workspace now) (md_rows t1)) 0 in
            let over := match q_limit q with
                        | Some limit => limit <? q_stored q + reserved + bytes
                        | None => false
                        end in
            if over then (Ok OverQuota, t)
            else if negb ((0 <? bytes) && (bytes <=? BLOB_LIMIT)) || bool_decide (is_Some (md_rows t !! fresh))
            then (Err MediaDatabase, t)
            else
              (Ok (ReservedActive fresh),
               spend_reserved
                 (with_rows t1 (<[fresh := mkReservation workspace group hash bytes now (now + ttl_seconds * MICROS) None]>
                    (md_rows t1)))
                 workspace (λ z, z + bytes))
        end
    end.

(** [find_active_reservation]: the newest row of the object, finalized or not. *)
Definition newer (a b : KeyedRow) : KeyedRow := if b_created a.2 <? b_created b.2 then b else a.
Definition find_active_reservation (t : MediaTables) (workspace group hash : list byte) : option KeyedRow :=
  match filter (λ e : KeyedRow, names_object workspace group hash e.2) (map_to_list (md_rows t)) with
  | [] => None
  | e :: es => Some (fold_left newer es e)
  end.

Inductive ClaimOutcome : Type := Claimed | AlreadyClaimed | NoReservation.

Definition claim_in (t : MediaTables) (workspace group hash : list byte) (now : Z) : ClaimOutcome * MediaTables :=
  match in_flight t workspace group hash with
  | Some (i, r) =>
      (Claimed,
       spend_stored
         (spend_reserved
            (with_rows t (<[i := mkReservation (b_workspace r) (b_group r) (b_hash r) (b_bytes r) (b_created r) (b_expires r)
                                   (Some now)]> (md_rows t)))
            workspace (less (b_bytes r)))
         workspace (λ z, z + b_bytes r))
  | None =>
      (if bool_decide (filter (λ e : KeyedRow, names_object workspace group hash e.2) (map_to_list (md_rows t)) = [])
       then NoReservation else AlreadyClaimed, t)
  end.

(** The row a delete by id finds: in the workspace, and finalized or not. *)
Definition row_in (t : MediaTables) (workspace : list byte) (i : Uuid) (open : bool) : option ReservationRow :=
  match md_rows t !! i with
  | Some r => if bool_decide (b_workspace r = workspace) && Bool.eqb (unfinalized r) open then Some r else None
  | None => None
  end.

Definition release_in (t : MediaTables) (workspace : list byte) (i : Uuid) : option Z * MediaTables :=
  match row_in t workspace i true with
  | Some r => (Some (b_bytes r), spend_reserved (delete_rows t (λ j _, bool_decide (j = i))) workspace (less (b_bytes r)))
  | None => (None, t)
  end.

(** [lock_unclaimed]; a row another transaction holds is skipped. *)
Definition lock_unclaimed (t : MediaTables) (workspace : list byte) (i : Uuid) (older_than_seconds now : Z)
    (locked : bool) : bool :=
  negb locked &&
  match row_in t workspace i true with
  | Some r => b_created r <? now - older_than_seconds * MICROS
  | None => false
  end.

Definition finish_deletion (t : MediaTables) (workspace : list byte) (i : Uuid) : MediaTables :=
  match row_in t workspace i false with
  | Some r => spend_stored (delete_rows t (λ j _, bool_decide (j = i))) workspace (less (b_bytes r))
  | None => t
  end.

(** ** What the collectors read *)
Record ClaimedBlob : Type := mkClaimedBlob { cb_id : Uuid; cb_hash : list byte; cb_bytes : Z; cb_claimed_at_ms : Z }.

(** [extract(epoch from finalized_at)::bigint], which rounds to the nearest
    second, as milliseconds. *)
Definition epoch_seconds (micros : Z) : Z := (micros + 500000) / MICROS.
Definition finalized_reservations (t : MediaTables) (workspace group : list byte) : list ClaimedBlob :=
  omap (λ e : KeyedRow,
    match b_finalized e.2 with
    | Some at_ =>
        if bool_decide (b_workspace e.2 = workspace) && bool_decide (b_group e.2 = group)
        then Some (mkClaimedBlob e.1 (b_hash e.2) (b_bytes e.2) (Z.max (epoch_seconds at_) 0 * 1000))
        else None
    | None => None
    end) (map_to_list (md_rows t)).

Definition stale_unclaimed (t : MediaTables) (older_than_seconds now : Z) : list KeyedRow :=
  filter (λ e : KeyedRow, unfinalized e.2 = true ∧ b_created e.2 < now - older_than_seconds * MICROS)
    (map_to_list (md_rows t)).

(** [max(bytes)] per hash. *)
Definition charged_lengths (t : MediaTables) (workspace group : list byte) : gmap (list byte) Z :=
  foldr (λ (e : KeyedRow) m,
    if bool_decide (b_workspace e.2 = workspace) && bool_decide (b_group e.2 = group)
    then <[b_hash e.2 := Z.max (b_bytes e.2) (default (b_bytes e.2) (m !! b_hash e.2))]> m else m)
    ∅ (map_to_list (md_rows t)).

Definition claimed_hashes (t : MediaTables) (workspace group : list byte) : list (list byte) :=
  omap (λ e : KeyedRow,
    if bool_decide (b_workspace e.2 = workspace) && bool_decide (b_group e.2 = group) then Some (b_hash e.2) else None)
    (map_to_list (md_rows t)).

(** ** Multipart sessions *)
Definition create_multipart (t : MediaTables) (reservation_id : Uuid) (upload_id : list byte)
    (part_size ttl_seconds now : Z) (fresh : Uuid) : result MediaStoreError Uuid * MediaTables :=
  if bool_decide (is_Some (md_sessions t !! fresh)) || negb (bool_decide (is_Some (md_rows t !! reservation_id)))
     || negb (0 <? part_size)
  then (Err MediaDatabase, t)
  else (Ok fresh, with_sessions t (<[fresh := mkMultipart (Some reservation_id) upload_id part_size
                                              (now + ttl_seconds * MICROS) None None]> (md_sessions t))).

Record MultipartSession : Type := mkMultipartSession {
  ms_reservation : Uuid;
  ms_workspace : list byte;
  ms_group : list byte;
  ms_hash : list byte;
  ms_part_size : Z;
  ms_total_bytes : Z;
  ms_completed : bool;
  ms_aborted : bool
}.
Definition is_set {A} (o : option A) : bool := match o with Some _ => true | None => false end.

(** The session joined with the reservation it spends; none once released. *)
Definition find_multipart (t : MediaTables) (session_id : Uuid) : option MultipartSession :=
  match md_sessions t !! session_id with
  | Some m =>
      match m_reservation m with
      | Some i =>
          (λ r, mkMultipartSession i (b_workspace r) (b_group r) (b_hash r) (m_part_size m) (b_bytes r)
                  (is_set (m_completed m)) (is_set (m_aborted m))) <$> md_rows t !! i
      | None => None
      end
  | None => None
  end.

(** [record_part]; the length of a part already issued is not replaced. *)
Definition record_part (t : MediaTables) (session_id : Uuid) (part_number expected_len : Z) :
    result MediaStoreError unit * MediaTables :=
  match md_sessions t !! session_id with
  | None => (Err MediaDatabase, t)
  | Some _ =>
      match md_parts t !! (session_id, part_number) with
      | Some _ => (Ok tt, t)
      | None =>
          if (1 <=? part_number) && (0 <? expected_len)
          then (Ok tt, mkMedia (md_quota t) (md_rows t) (md_sessions t)
                         (<[(session_id, part_number) := expected_len]> (md_parts t)))
          else (Err MediaDatabase, t)
      end
  end.

Definition refresh_multipart (t : MediaTables) (session_id : Uuid) (ttl_seconds now : Z) : MediaTables :=
  with_sessions t
    (alter (λ m, if is_set (m_completed m) || is_set (m_aborted m) then m
                 else mkMultipart (m_reservation m) (m_upload_id m) (m_part_size m)
                        (Z.max (m_expires m) (now + ttl_seconds * MICROS)) (m_completed m) (m_aborted m))
       session_id (md_sessions t)).

Definition expected_len_of (t : MediaTables) (session_id : Uuid) (part_number : Z) : option Z :=
  md_parts t !! (session_id, part_number).

(** [recorded_parts]: the numbers issued, ascending. *)
Definition recorded_parts (t : MediaTables) (session_id : Uuid) : list Z :=
  merge_sort Z.le (omap (λ e : (Uuid * Z) * Z, if decide (e.1.1 = session_id) then Some e.1.2 else None)
                     (map_to_list (md_parts t))).

Definition complete_multipart (t : MediaTables) (session_id : Uuid) (now : Z) : MediaTables :=
  with_sessions t
    (alter (λ m, mkMultipart (m_reservation m) (m_upload_id m) (m_part_size m) (m_expires m) (Some now) (m_aborted m))
       session_id (md_sessions t)).

Definition abort_multipart (t : MediaTables) (session_id : Uuid) (now : Z) : MediaTables :=
  with_sessions t
    (alter (λ m, mkMultipart (m_reservation m) (m_upload_id m) (m_part_size m) (m_expires m) (m_completed m)
                   (match m_aborted m with Some at_ => Some at_ | None => Some now end))
       session_id (md_sessions t)).

Definition forget_recorded_parts (t : MediaTables) (session_id : Uuid) : MediaTables :=
  mkMedia (md_quota t) (md_rows t) (md_sessions t)
    (filter (λ e : (Uuid * Z) * Z, e.1.1 ≠ session_id) (md_parts t)).

Definition multipart_is_aborted (t : MediaTables) (session_id : Uuid) : bool :=
  match md_sessions t !! session_id with Some m => is_set (m_aborted m) | None => false end.

(** [stale_multipart_sessions]; a released session, whose reference is null,
    makes the whole read fail. *)
Definition session_stale (t : MediaTables) (now : Z) (e : Uuid * MultipartRow) : Prop :=
  m_completed e.2 = None ∧ m_expires e.2 < now ∧ (m_aborted e.2 = None ∨ recorded_parts t e.1 ≠ []).
#[global] Instance session_stale_dec t now e : Decision (session_stale t now e).
Proof. unfold session_stale. apply _. Defined.
Definition stale_multipart_sessions (t : MediaTables) (now : Z) : result MediaStoreError (list (Uuid * Uuid)) :=
  foldr (λ (e : Uuid * MultipartRow) acc,
    match acc, m_reservation e.2 with
    | Ok l, Some i => Ok ((e.1, i) :: l)
    | _, _ => Err MediaDatabase
    end) (Ok []) (filter (session_stale t now) (map_to_list (md_sessions t))).

(** ** The ledger *)
Definition charged_to (workspace : list byte) (open : bool) (r : ReservationRow) : bool :=
  bool_decide (b_workspace r = workspace) && Bool.eqb (unfinalized r) open.

(** The rows are within the schema's checks, an object has one row at most, and
    the counters are the rows. *)
Record ledger_ok (t : MediaTables) : Prop := {
  lk_rows : ∀ i r, md_rows t !! i = Some r → is_Some (md_quota t !! b_workspace r) ∧ 0 < b_bytes r ≤ BLOB_LIMIT;
  lk_one : ∀ i j r r', md_rows t !! i = Some r → md_rows t !! j = Some r' →
    names_object (b_workspace r) (b_group r) (b_hash r) r' → i = j;
  lk_quota : ∀ w q, md_quota t !! w = Some q →
    q_reserved q = bytes_where (charged_to w true) (md_rows t)
    ∧ q_stored q = bytes_where (charged_to w false) (md_rows t)
}.

Lemma msum_filter {K A} `{Countable K} (f : K → A → Z) (P : K * A → Prop) `{!∀ e, Decision (P e)} (m : gmap K A) :
  msum f (filter P m) = msum (λ k x, if decide (P (k, x)) then f k x else 0) m.
Proof.
  induction m as [|k x m Hk IH] using map_ind.
  { by rewrite map_filter_empty, !msum_empty. }
  rewrite (msum_insert_None _ m k x Hk). destruct (decide (P (k, x))) as [HP|HP].
  - rewrite map_filter_insert_True, msum_insert_None, IH; [done| |done].
    apply map_lookup_filter_None. by left.
  - rewrite map_filter_insert_False, delete_id by done. rewrite IH. lia.
Qed.

Lemma bytes_where_nonneg t sel : ledger_ok t → 0 ≤ bytes_where sel (md_rows t).
Proof.
  intros Hok. unfold bytes_where. rewrite (msum_ext _ (λ i r, Z.max 0 (if sel r then b_bytes r else 0))).
  - apply msum_nonneg. lia.
  - intros i r Hr. destruct (lk_rows _ Hok i r Hr). case_match; lia.
Qed.

(** The charge of a workspace once one of its rows is gone. *)
Lemma bytes_where_delete sel rows i r :
  rows !! i = Some r → bytes_where sel (delete i rows) = bytes_where sel rows - (if sel r then b_bytes r else 0).
Proof. intros Hr. unfold bytes_where. rewrite (msum_delete _ _ _ _ Hr). lia. Qed.

Lemma bytes_where_insert sel rows i r :
  rows !! i = None → bytes_where sel (<[i := r]> rows) = bytes_where sel rows + (if sel r then b_bytes r else 0).
Proof. intros Hr. unfold bytes_where. rewrite msum_insert_None by done. lia. Qed.

Lemma bytes_where_update sel rows i r r' :
  rows !! i = Some r →
  bytes_where sel (<[i := r']> rows)
  = bytes_where sel rows - (if sel r then b_bytes r else 0) + (if sel r' then b_bytes r' else 0).
Proof. intros Hr. unfold bytes_where. by rewrite (msum_insert_Some _ _ _ _ r Hr). Qed.

Lemma bytes_where_row t sel i r :
  ledger_ok t → md_rows t !! i = Some r → sel r = true → b_bytes r ≤ bytes_where sel (md_rows t).
Proof.
  intros Hok Hr Hs. unfold bytes_where. rewrite (msum_delete _ _ _ _ Hr), Hs.
  assert (0 ≤ msum (λ _ r, if sel r then b_bytes r else 0) (delete i (md_rows t))); [|lia].
  rewrite (msum_ext _ (λ i r, Z.max 0 (if sel r then b_bytes r else 0))).
  - apply msum_nonneg. lia.
  - intros j r' [_ Hr']%lookup_delete_Some. destruct (lk_rows _ Hok j r' Hr'). case_match; lia.
Qed.

Lemma delete_rows_one t i :
  md_rows (delete_rows t (λ j _, bool_decide (j = i))) = delete i (md_rows t).
Proof.
  unfold delete_rows. cbn [md_rows]. apply map_eq. intros j. destruct (decide (j = i)) as [->|Hne].
  - rewrite lookup_delete_eq. apply map_lookup_filter_None. right. intros r _. cbn. by rewrite bool_decide_true.
  - rewrite lookup_delete_ne by done. destruct (md_rows t !! j) as [r|] eqn:Hr.
    + apply map_lookup_filter_Some. split; [done|]. cbn. by rewrite bool_decide_false.
    + apply map_lookup_filter_None. by left.
Qed.

Lemma row_in_Some t w i open r :
  row_in t w i open = Some r ↔ md_rows t !! i = Some r ∧ b_workspace r = w ∧ unfinalized r = open.
Proof.
  unfold row_in. destruct (md_rows t !! i) as [r'|]; [|naive_solver].
  destruct (bool_decide_reflect (b_workspace r' = w)); cbn; [|naive_solver].
  destruct (Bool.eqb (unfinalized r') open) eqn:He.
  - apply Bool.eqb_prop in He. naive_solver.
  - apply Bool.eqb_false_iff in He. naive_solver.
Qed.

(** ** Selecting the rows of an object *)
Lemma filter_at_most_one {K A} `{Countable K} (P : K * A → Prop) `{!∀ e, Decision (P e)} (m : gmap K A) :
  (∀ i j x y, m !! i = Some x → m !! j = Some y → P (i, x) → P (j, y) → i = j) →
  (filter P (map_to_list m) = [] ∧ ∀ i x, m !! i = Some x → ¬ P (i, x))
  ∨ ∃ i x, m !! i = Some x ∧ P (i, x) ∧ filter P (map_to_list m) = [(i, x)].
Proof.
  intros Hone. destruct (filter P (map_to_list m)) as [|[i x] l] eqn:Hf.
  - left. split; [done|]. intros i x Hx HP. assert ((i, x) ∈ filter P (map_to_list m)) as Hin.
    { apply list_elem_of_filter. split; [done|]. by apply elem_of_map_to_list. }
    rewrite Hf in Hin. by apply elem_of_nil in Hin.
  - right. assert (∀ e, e ∈ (i, x) :: l → m !! e.1 = Some e.2 ∧ P e) as Hin.
    { intros [j y] He. rewrite <- Hf in He. apply list_elem_of_filter in He as [HP He]. by apply elem_of_map_to_list in He. }
    destruct (Hin (i, x)) as [Hx HP]; [apply list_elem_of_here|]. exists i, x. split_and!; [done..|].
    destruct l as [|[j y] l]; [done|]. exfalso.
    destruct (Hin (j, y)) as [Hy HP']; [apply list_elem_of_further, list_elem_of_here|]. cbn in *.
    assert (NoDup ((i, x) :: (j, y) :: l)) as Hnd by (rewrite <- Hf; apply NoDup_filter, NoDup_map_to_list).
    pose proof (Hone i j x y Hx Hy HP HP') as <-. rewrite Hx in Hy. injection Hy as <-.
    apply NoDup_cons in Hnd as [Hnot _]. by apply Hnot, list_elem_of_here.
Qed.

Lemma same_object t w g h i j r r' :
  ledger_ok t → md_rows t !! i = Some r → md_rows t !! j = Some r' →
  names_object w g h r → names_object w g h r' → i = j.
Proof.
  intros Hok Hr Hr' (Hw & Hg & Hh) Hn. apply (lk_one _ Hok i j r r' Hr Hr'). by rewrite Hw, Hg, Hh.
Qed.

Lemma in_flight_cases t w g h :
  ledger_ok t →
  (in_flight t w g h = None ∧ ∀ i r, md_rows t !! i = Some r → names_object w g h r → unfinalized r = false)
  ∨ ∃ i r, in_flight t w g h = Some (i, r) ∧ md_rows t !! i = Some r ∧ names_object w g h r ∧ unfinalized r = true.
Proof.
  intros Hok. unfold in_flight.
  destruct (filter_at_most_one (λ e : KeyedRow, names_object w g h e.2 ∧ unfinalized e.2 = true) (md_rows t))
    as [[-> Hnone]|(i & r & Hr & [Hn Hu] & ->)].
  - intros i j r r' Hr Hr' [Hn _] [Hn' _]. by eapply same_object.
  - left. split; [done|]. intros i r Hr Hn. destruct (unfinalized r) eqn:Hu; [|done]. by destruct (Hnone i r Hr).
  - right. by exists i, r.
Qed.

(** ** Every operation keeps it *)
(** Charge [open] of a workspace changed by a function; the other untouched. *)
Definition spend (open : bool) (t : MediaTables) (w : list byte) (f : Z → Z) : MediaTables :=
  if open then spend_reserved t w f else spend_stored t w f.
Definition charge (open : bool) (q : QuotaRow) : Z := if open then q_reserved q else q_stored q.

Lemma spend_lookup open t w f w' q' :
  md_quota (spend open t w f) !! w' = Some q' →
  ∃ q, md_quota t !! w' = Some q ∧ q_limit q' = q_limit q
    ∧ ∀ b, charge b q' = if bool_decide (w' = w) && Bool.eqb b open then f (charge b q) else charge b q.
Proof.
  intros Hq. assert (md_quota (spend open t w f) = alter (λ q, if open then mkQuota (q_stored q) (f (q_reserved q)) (q_limit q)
    else mkQuota (f (q_stored q)) (q_reserved q) (q_limit q)) w (md_quota t)) as He by (by destruct open).
  rewrite He in Hq. destruct (bool_decide_reflect (w' = w)) as [->|Hne].
  - rewrite lookup_alter_eq in Hq. destruct (md_quota t !! w) as [q|]; [|done]. injection Hq as <-. exists q.
    split; [done|]. split; [by destruct open|]. by intros []; destruct open.
  - rewrite lookup_alter_ne in Hq by done. exists q'. by intuition.
Qed.

Lemma spend_lookup_is_Some open t w f w' : is_Some (md_quota (spend open t w f) !! w') ↔ is_Some (md_quota t !! w').
Proof. destruct open; apply lookup_alter_is_Some. Qed.

Lemma spend_rows open t w f : md_rows (spend open t w f) = md_rows t.
Proof. by destruct open. Qed.

Lemma lk_charge t w q open : ledger_ok t → md_quota t !! w = Some q → charge open q = bytes_where (charged_to w open) (md_rows t).
Proof. intros Hok Hq. destruct (lk_quota _ Hok w q Hq). by destruct open. Qed.

(** The invariant from its two charges. *)
Lemma ledger_intro t :
  (∀ i r, md_rows t !! i = Some r → is_Some (md_quota t !! b_workspace r) ∧ 0 < b_bytes r ≤ BLOB_LIMIT) →
  (∀ i j r r', md_rows t !! i = Some r → md_rows t !! j = Some r' →
    names_object (b_workspace r) (b_group r) (b_hash r) r' → i = j) →
  (∀ w q open, md_quota t !! w = Some q → charge open q = bytes_where (charged_to w open) (md_rows t)) →
  ledger_ok t.
Proof.
  intros Hr Ho Hq. split; [done..|]. intros w q Hw. exact (conj (Hq w q true Hw) (Hq w q false Hw)).
Qed.

Lemma charged_self r open : charged_to (b_workspace r) open r = Bool.eqb (unfinalized r) open.
Proof. unfold charged_to. by rewrite bool_decide_true. Qed.
Lemma charged_other w r open : w ≠ b_workspace r → charged_to w open r = false.
Proof. intros Hne. unfold charged_to. by rewrite bool_decide_false. Qed.

(** A row removed with its own charge returned. *)
Lemma remove_row_ok t t' i r :
  ledger_ok t → md_rows t !! i = Some r → md_rows t' = delete i (md_rows t) → md_quota t' = md_quota t →
  ledger_ok (spend (unfinalized r) t' (b_workspace r) (less (b_bytes r))).
Proof.
  intros Hok Hr Hrows Hquota. apply ledger_intro; rewrite ?spend_rows, ?Hrows.
  - intros j r' [_ Hj]%lookup_delete_Some. rewrite spend_lookup_is_Some, Hquota. by apply (lk_rows _ Hok j).
  - intros j k r1 r2 [_ H1]%lookup_delete_Some [_ H2]%lookup_delete_Some. by apply (lk_one _ Hok).
  - intros w q open Hq. apply spend_lookup in Hq as (q0 & Hq & _ & Hc). rewrite Hc.
    rewrite (bytes_where_delete _ _ _ _ Hr). rewrite Hquota in Hq. rewrite (lk_charge t w q0 open Hok Hq).
    destruct (bool_decide_reflect (w = b_workspace r)) as [->|Hne].
    + rewrite charged_self. assert (unfinalized r = open → b_bytes r ≤ bytes_where (charged_to (b_workspace r) open) (md_rows t)) as Hle.
      { intros Ho. eapply bytes_where_row; [done..|]. rewrite charged_self, Ho. apply Bool.eqb_reflx. }
      unfold less. destruct (unfinalized r), open; cbn [Bool.eqb andb]; try specialize (Hle eq_refl); lia.
    + rewrite charged_other by done. cbn. lia.
Qed.

Lemma release_in_ok t w i : ledger_ok t → ledger_ok (snd (release_in t w i)).
Proof.
  intros Hok. unfold release_in. destruct (row_in t w i true) as [r|] eqn:Hr; [|done].
  apply row_in_Some in Hr as (Hr & <- & Hu). pose proof (remove_row_ok t _ i r Hok Hr (delete_rows_one t i) eq_refl) as H. by rewrite Hu in H.
Qed.

Lemma finish_deletion_ok t w i : ledger_ok t → ledger_ok (finish_deletion t w i).
Proof.
  intros Hok. unfold finish_deletion. destruct (row_in t w i false) as [r|] eqn:Hr; [|done].
  apply row_in_Some in Hr as (Hr & <- & Hu). pose proof (remove_row_ok t _ i r Hok Hr (delete_rows_one t i) eq_refl) as H. by rewrite Hu in H.
Qed.

(** A row that keeps its object, its bytes and its state may move its clocks. *)
Lemma touch_row_ok t i r r' :
  ledger_ok t → md_rows t !! i = Some r →
  names_object (b_workspace r) (b_group r) (b_hash r) r' → b_bytes r' = b_bytes r → unfinalized r' = unfinalized r →
  ledger_ok (with_rows t (<[i := r']> (md_rows t))).
Proof.
  intros Hok Hr (Hw & Hg & Hh) Hb Hu.
  assert (∀ j x, <[i := r']> (md_rows t) !! j = Some x → ∃ y, md_rows t !! j = Some y
    ∧ names_object (b_workspace y) (b_group y) (b_hash y) x ∧ b_bytes x = b_bytes y) as Hback.
  { intros j x [[<- <-]|[Hne Hx]]%lookup_insert_Some; [by exists r|by exists x]. }
  apply ledger_intro; cbn [with_rows md_rows md_quota].
  - intros j x (y & Hy & (Hyw & _) & Hyb)%Hback. rewrite Hyw, Hyb. by apply (lk_rows _ Hok j).
  - intros j k x1 x2 (y1 & Hy1 & (? & ? & ?) & _)%Hback (y2 & Hy2 & (? & ? & ?) & _)%Hback (? & ? & ?).
    apply (lk_one _ Hok j k y1 y2 Hy1 Hy2). split_and!; congruence.
  - intros w q open Hq. rewrite (bytes_where_update _ _ _ r r' Hr), (lk_charge t w q open Hok Hq).
    assert (charged_to w open r' = charged_to w open r) as -> by (unfold charged_to; by rewrite Hw, Hu).
    rewrite Hb. lia.
Qed.

Lemma claim_in_ok t w g h now : ledger_ok t → ledger_ok (snd (claim_in t w g h now)).
Proof.
  intros Hok. unfold claim_in. destruct (in_flight_cases t w g h Hok) as [[-> _]|(i & r & -> & Hr & (<- & <- & <-) & Hu)]; [done|].
  cbn [snd]. set (r' := mkReservation _ _ _ _ _ _ (Some now)).
  assert (unfinalized r = true ∧ unfinalized r' = false) as [_ Hu'] by done.
  apply ledger_intro; cbn [spend_stored spend_reserved with_quota with_rows md_rows].
  - intros j x Hx. change (is_Some (md_quota (spend false (spend true (with_rows t (<[i := r']> (md_rows t))) (b_workspace r)
      (less (b_bytes r))) (b_workspace r) (λ z, z + b_bytes r)) !! b_workspace x) ∧ 0 < b_bytes x ≤ BLOB_LIMIT).
    rewrite !spend_lookup_is_Some. cbn [with_rows md_quota].
    apply lookup_insert_Some in Hx as [[<- <-]|[_ Hx]]; [|by apply (lk_rows _ Hok j)].
    apply (lk_rows _ Hok i r Hr).
  - intros j k x y [[<- <-]|[_ Hx]]%lookup_insert_Some [[<- <-]|[_ Hy]]%lookup_insert_Some Hn; [done| | |by apply (lk_one _ Hok j k x y)].
    + by apply (lk_one _ Hok i k r y).
    + by apply (lk_one _ Hok j i x r).
  - intros w0 q open Hq.
    change (md_quota (spend false (spend true (with_rows t (<[i := r']> (md_rows t))) (b_workspace r) (less (b_bytes r)))
      (b_workspace r) (λ z, z + b_bytes r)) !! w0 = Some q) in Hq.
    apply spend_lookup in Hq as (q1 & Hq & _ & Hc1). apply spend_lookup in Hq as (q2 & Hq & _ & Hc2).
    cbn [with_rows md_quota] in Hq. rewrite Hc1, Hc2, (lk_charge t w0 q2 open Hok Hq).
    rewrite (bytes_where_update _ _ _ r r' Hr). destruct (bool_decide_reflect (w0 = b_workspace r)) as [->|Hne].
    + assert (charged_to (b_workspace r) open r' = Bool.eqb (unfinalized r') open) as -> by exact (charged_self r' open).
      rewrite charged_self, Hu, Hu'. change (b_bytes r') with (b_bytes r).
      destruct open; cbn [Bool.eqb andb]; [|lia].
      assert (b_bytes r ≤ bytes_where (charged_to (b_workspace r) true) (md_rows t)); [|unfold less; lia].
      eapply bytes_where_row; [done..|]. by rewrite charged_self, Hu.
    + assert (charged_to w0 open r' = false) as -> by (by apply (charged_other w0 r')). rewrite charged_other by done. cbn [andb]. lia.
Qed.

(** Retiring leaves no row of the object that is not in flight. *)
Lemma retire_stale_ok t w g h :
  ledger_ok t →
  ledger_ok (retire_stale t w g h)
  ∧ (∀ i r, md_rows (retire_stale t w g h) !! i = Some r →
       md_rows t !! i = Some r ∧ ¬ (names_object w g h r ∧ unfinalized r = false))
  ∧ (∀ w' q', md_quota (retire_stale t w g h) !! w' = Some q' → ∃ q, md_quota t !! w' = Some q ∧ q_limit q' = q_limit q)
  ∧ (∀ w', is_Some (md_quota (retire_stale t w g h) !! w') ↔ is_Some (md_quota t !! w')).
Proof.
  intros Hok. unfold retire_stale. set (sel := stale_for w g h).
  assert (∀ r, sel r = true ↔ names_object w g h r ∧ unfinalized r = false) as Hsel.
  { intros r. unfold sel, stale_for. rewrite andb_true_iff, bool_decide_eq_true, negb_true_iff. done. }
  destruct (filter_at_most_one (λ e : KeyedRow, sel e.2 = true) (md_rows t)) as [[-> Hnone]|(i & r & Hr & Hs & Hf)].
  - intros i j x y Hx Hy [Hn _]%Hsel [Hn' _]%Hsel. by eapply same_object.
  - split_and!; [done| |by intros w' q' Hq; exists q'|done].
    intros i r Hr. split; [done|]. intros Hx%Hsel. by apply (Hnone i r Hr).
  - cbn [snd] in Hs. pose proof (proj1 (Hsel r) Hs) as [(<- & <- & <-) Hu].
    assert (reclaimed_bytes (md_rows t) sel = b_bytes r) as Hrec.
    { unfold reclaimed_bytes. rewrite Hf. cbn. destruct (lk_rows _ Hok i r Hr) as [_ Hb].
      unfold i64_saturating. unfold BLOB_LIMIT in Hb. unfold I64_MAX, I64_MIN. lia. }
    assert (md_rows (delete_rows t (λ _ r, sel r)) = delete i (md_rows t)) as Hrows.
    { apply map_eq. intros j. cbn [delete_rows md_rows]. destruct (decide (j = i)) as [->|Hne].
      - rewrite lookup_delete_eq. apply map_lookup_filter_None. right. intros x Hx. rewrite Hr in Hx. injection Hx as <-.
        cbn. by rewrite Hs.
      - rewrite lookup_delete_ne by done. destruct (md_rows t !! j) as [x|] eqn:Hx.
        + apply map_lookup_filter_Some. split; [done|]. cbn. destruct (sel x) eqn:Hsx; [|done]. exfalso. apply Hne.
          apply Hsel in Hsx as [Hn _]. symmetry. by eapply (lk_one _ Hok i j r x).
        + apply map_lookup_filter_None. by left. }
    rewrite Hf, Hrec. pose proof (remove_row_ok t _ i r Hok Hr Hrows eq_refl) as Hok'. rewrite Hu in Hok'.
    split_and!; [exact Hok'| | |].
    + intros j x Hx. change (md_rows (delete_rows t (λ _ r, sel r)) !! j = Some x) in Hx. rewrite Hrows in Hx.
      apply lookup_delete_Some in Hx as [Hne Hx]. split; [done|]. intros [Hn _]. apply Hne.
      by eapply (lk_one _ Hok i j r x).
    + intros w' q' Hq. apply (spend_lookup false) in Hq as (q & Hq & Hl & _). by exists q.
    + intros w'. exact (spend_lookup_is_Some false (delete_rows t (λ _ r, sel r)) _ _ w').
Qed.

(** A new row, with its charge taken. *)
Lemma add_row_ok t i r :
  ledger_ok t → md_rows t !! i = None → is_Some (md_quota t !! b_workspace r) → 0 < b_bytes r ≤ BLOB_LIMIT →
  unfinalized r = true →
  (∀ j x, md_rows t !! j = Some x → ¬ names_object (b_workspace r) (b_group r) (b_hash r) x) →
  ledger_ok (spend_reserved (with_rows t (<[i := r]> (md_rows t))) (b_workspace r) (λ z, z + b_bytes r)).
Proof.
  intros Hok Hi Hw Hb Hu Hnew. change (ledger_ok (spend true (with_rows t (<[i := r]> (md_rows t))) (b_workspace r) (λ z, z + b_bytes r))).
  apply ledger_intro; rewrite ?spend_rows; cbn [with_rows md_rows].
  - intros j x Hx. rewrite spend_lookup_is_Some. cbn [with_rows md_quota].
    apply lookup_insert_Some in Hx as [[<- <-]|[_ Hx]]; [done|by apply (lk_rows _ Hok j)].
  - intros j k x y [[<- <-]|[_ Hx]]%lookup_insert_Some [[<- <-]|[_ Hy]]%lookup_insert_Some Hn; [done| | |by apply (lk_one _ Hok j k x y)].
    + by destruct (Hnew k y Hy).
    + destruct (Hnew j x Hx). destruct Hn as (? & ? & ?). by split_and!.
  - intros w q open Hq. apply spend_lookup in Hq as (q0 & Hq & _ & Hc). cbn [with_rows md_quota] in Hq.
    rewrite Hc, (lk_charge t w q0 open Hok Hq), bytes_where_insert by done.
    destruct (bool_decide_reflect (w = b_workspace r)) as [->|Hne].
    + rewrite charged_self, Hu. destruct open; cbn [Bool.eqb andb]; lia.
    + rewrite charged_other by done. cbn [andb]. lia.
Qed.

(** What [reserve] does, on every branch that is not a database failure. *)
Inductive reserve_does (t : MediaTables) (w g h : list byte) (bytes : Z) (stored : bool) (ttl now : Z) (fresh : Uuid) :
    result MediaStoreError Reserved * MediaTables → Prop :=
| rv_stored : stored = true → reserve_does t w g h bytes stored ttl now fresh (Ok AlreadyStored, t)
| rv_failed : reserve_does t w g h bytes stored ttl now fresh (Err MediaDatabase, t)
| rv_refreshed i r :
    stored = false → md_rows t !! i = Some r → names_object w g h r → unfinalized r = true →
    reserve_does t w g h bytes stored ttl now fresh
      (Ok (ReservedActive i),
       with_rows t (<[i := mkReservation (b_workspace r) (b_group r) (b_hash r) (b_bytes r) now (now + ttl * MICROS) None]>
         (md_rows t)))
| rv_over q limit :
    stored = false → md_quota (retire_stale t w g h) !! w = Some q → q_limit q = Some limit →
    limit < q_stored q + (q_reserved q - bytes_where (ran_out w now) (md_rows (retire_stale t w g h))) + bytes →
    reserve_does t w g h bytes stored ttl now fresh (Ok OverQuota, t)
| rv_taken q :
    stored = false → md_rows t !! fresh = None → 0 < bytes ≤ BLOB_LIMIT →
    (∀ i r, md_rows (retire_stale t w g h) !! i = Some r → ¬ names_object w g h r) →
    md_quota (retire_stale t w g h) !! w = Some q →
    (∀ limit, q_limit q = Some limit →
      q_stored q + (q_reserved q - bytes_where (ran_out w now) (md_rows (retire_stale t w g h))) + bytes ≤ limit) →
    reserve_does t w g h bytes stored ttl now fresh
      (Ok (ReservedActive fresh),
       spend_reserved
         (with_rows (retire_stale t w g h)
            (<[fresh := mkReservation w g h bytes now (now + ttl * MICROS) None]> (md_rows (retire_stale t w g h))))
         w (λ z, z + bytes)).

(** The expired part of a workspace's reservations is part of them. *)
Lemma ran_out_le t w now :
  ledger_ok t → bytes_where (ran_out w now) (md_rows t) ≤ bytes_where (charged_to w true) (md_rows t).
Proof.
  intros Hok. assert (0 ≤ bytes_where (charged_to w true) (md_rows t) - bytes_where (ran_out w now) (md_rows t)); [|lia].
  assert (bytes_where (charged_to w true) (md_rows t) = bytes_where (ran_out w now) (md_rows t)
    + bytes_where (λ r, charged_to w true r && negb (ran_out w now r)) (md_rows t)) as ->.
  { unfold bytes_where. rewrite <- msum_add. apply msum_ext. intros i r _. unfold charged_to, ran_out.
    destruct (bool_decide _), (unfinalized r), (b_expires r <? now); cbn; lia. }
  pose proof (bytes_where_nonneg t (λ r, charged_to w true r && negb (ran_out w now r)) Hok). lia.
Qed.

Lemma reserve_cases t w g h bytes stored ttl now fresh :
  ledger_ok t → reserve_does t w g h bytes stored ttl now fresh (reserve t w g h bytes stored ttl now fresh).
Proof.
  intros Hok. unfold reserve. destruct stored; [by constructor|].
  destruct (md_quota t !! w) as [q0|] eqn:Hq0; [|by constructor].
  destruct (in_flight_cases t w g h Hok) as [[-> Hclosed]|(i & r & -> & Hr & Hn & Hu)].
  2: { assert (b_finalized r = None) as -> by (unfold unfinalized in Hu; by destruct (b_finalized r)). by econstructor. }
  destruct (retire_stale_ok t w g h Hok) as (Hok1 & Hsub & _ & Hdom). cbv zeta.
  destruct (md_quota (retire_stale t w g h) !! w) as [q|] eqn:Hq.
  2: { exfalso. assert (is_Some (md_quota (retire_stale t w g h) !! w)) as [? ?] by (by apply Hdom; rewrite Hq0). congruence. }
  assert (media_usage (retire_stale t w g h) w = q) as -> by (unfold media_usage; by rewrite Hq).
  pose proof (ran_out_le (retire_stale t w g h) w now Hok1) as Hle. rewrite <- (proj1 (lk_quota _ Hok1 w q Hq)) in Hle.
  rewrite Z.max_l by lia.
  assert (∀ i r, md_rows (retire_stale t w g h) !! i = Some r → ¬ names_object w g h r) as Hnone.
  { intros i r Hr Hn. apply Hsub in Hr as [Hr Hx]. apply Hx. split; [done|]. by eapply Hclosed. }
  destruct (q_limit q) as [limit|] eqn:Hl.
  - destruct (Z.ltb_spec limit (q_stored q + (q_reserved q - bytes_where (ran_out w now) (md_rows (retire_stale t w g h))) + bytes)).
    { by econstructor. }
    destruct (negb ((0 <? bytes) && (bytes <=? BLOB_LIMIT)) || bool_decide (is_Some (md_rows t !! fresh))) eqn:Hc; [by constructor|].
    apply orb_false_iff in Hc as [Hb%negb_false_iff Hf%bool_decide_eq_false]. apply andb_true_iff in Hb as [?%Z.ltb_lt ?%Z.leb_le].
    econstructor; [done|by apply eq_None_not_Some|done|done|done|]. intros l. rewrite Hl. intros [= <-]. lia.
  - destruct (negb ((0 <? bytes) && (bytes <=? BLOB_LIMIT)) || bool_decide (is_Some (md_rows t !! fresh))) eqn:Hc; [by constructor|].
    apply orb_false_iff in Hc as [Hb%negb_false_iff Hf%bool_decide_eq_false]. apply andb_true_iff in Hb as [?%Z.ltb_lt ?%Z.leb_le].
    econstructor; [done|by apply eq_None_not_Some|done|done|done|]. intros l. by rewrite Hl.
Qed.

Lemma reserve_ok t w g h bytes stored ttl now fresh :
  ledger_ok t → ledger_ok (snd (reserve t w g h bytes stored ttl now fresh)).
Proof.
  intros Hok. destruct (reserve_cases t w g h bytes stored ttl now fresh Hok)
    as [| |i r _ Hr Hn Hu| |q _ Hf Hb Hnone Hq _]; cbn [snd]; [done..| |done|].
  - eapply touch_row_ok; [done..|by split_and!|done|done].
  - destruct (retire_stale_ok t w g h Hok) as (Hok1 & Hsub & _).
    apply (add_row_ok (retire_stale t w g h) fresh (mkReservation w g h bytes now (now + ttl * MICROS) None)); try done.
    destruct (md_rows (retire_stale t w g h) !! fresh) as [x|] eqn:Hx; [|done]. apply Hsub in Hx as [Hx _]. congruence.
Qed.

(** ** Histories *)
Definition no_media : MediaTables := mkMedia ∅ ∅ ∅ ∅.

Inductive mstep : MediaTables → MediaTables → Prop :=
| st_ensure t w l : mstep t (ensure_quota_row t w l)
| st_limit t w l : mstep t (set_quota_limit t w l)
| st_reserve t w g h bytes stored ttl now fresh : mstep t (snd (reserve t w g h bytes stored ttl now fresh))
| st_claim t w g h now : mstep t (snd (claim_in t w g h now))
| st_release t w i : mstep t (snd (release_in t w i))
| st_finish t w i : mstep t (finish_deletion t w i)
| st_create t i u p ttl now fresh : mstep t (snd (create_multipart t i u p ttl now fresh))
| st_part t s n l : mstep t (snd (record_part t s n l))
| st_refresh t s ttl now : mstep t (refresh_multipart t s ttl now)
| st_complete t s now : mstep t (complete_multipart t s now)
| st_abort t s now : mstep t (abort_multipart t s now)
| st_forget t s : mstep t (forget_recorded_parts t s).

(** A ceiling is written without touching a counter. *)
Lemma quota_row_ok t w (f : option QuotaRow → QuotaRow) :
  ledger_ok t → (∀ q, charge true (f (Some q)) = charge true q ∧ charge false (f (Some q)) = charge false q) →
  charge true (f None) = 0 → charge false (f None) = 0 →
  ledger_ok (with_quota t (<[w := f (md_quota t !! w)]> (md_quota t))).
Proof.
  intros Hok Hsome Ht Hf. apply ledger_intro; cbn [with_quota md_rows md_quota].
  - intros i r Hr. destruct (lk_rows _ Hok i r Hr) as [Hq Hb]. split; [|done].
    destruct (decide (b_workspace r = w)) as [->|]; [by rewrite lookup_insert_eq|by rewrite lookup_insert_ne].
  - apply (lk_one _ Hok).
  - intros w' q open [[<- <-]|[_ Hq]]%lookup_insert_Some; [|by apply lk_charge].
    destruct (md_quota t !! w) as [q0|] eqn:Hq0.
    + rewrite <- (lk_charge t w q0 open Hok Hq0). destruct (Hsome q0), open; done.
    + unfold bytes_where. rewrite msum_zero; [by destruct open|]. intros i r Hr.
      destruct (decide (b_workspace r = w)) as [<-|]; [|by rewrite charged_other].
      destruct (lk_rows _ Hok i r Hr) as [[x Hx] _]. congruence.
Qed.

(** An operation that writes neither quota nor rows. *)
Lemma same_ledger_ok t t' : ledger_ok t → md_quota t' = md_quota t → md_rows t' = md_rows t → ledger_ok t'.
Proof. intros [H1 H2 H3] Hq Hr. split; rewrite ?Hq, ?Hr; done. Qed.

Lemma mstep_ok t t' : mstep t t' → ledger_ok t → ledger_ok t'.
Proof.
  intros Hs Hok. destruct Hs.
  - unfold ensure_quota_row. pose proof (quota_row_ok t w (λ o, match o with
      | None => mkQuota 0 0 l
      | Some q => mkQuota (q_stored q) (q_reserved q) (match q_limit q with Some l => Some l | None => l end) end) Hok) as H.
    destruct (md_quota t !! w); by apply H.
  - unfold set_quota_limit. pose proof (quota_row_ok t w (λ o, match o with
      | None => mkQuota 0 0 l | Some q => mkQuota (q_stored q) (q_reserved q) l end) Hok) as H.
    destruct (md_quota t !! w); by apply H.
  - by apply reserve_ok.
  - by apply claim_in_ok.
  - by apply release_in_ok.
  - by apply finish_deletion_ok.
  - unfold create_multipart. case_match; by eapply same_ledger_ok.
  - unfold record_part. repeat case_match; by eapply same_ledger_ok.
  - by eapply same_ledger_ok.
  - by eapply same_ledger_ok.
  - by eapply same_ledger_ok.
  - by eapply same_ledger_ok.
Qed.

Lemma reachable_media_ok t : rtc mstep no_media t → ledger_ok t.
Proof.
  intros Hr. assert (ledger_ok no_media) as H0.
  { split; cbn; [intros i r|intros i j r r'|intros w q]; by rewrite lookup_empty. }
  induction Hr as [|a b c Hs _ IH]; [done|]. apply IH. by eapply mstep_ok.
Qed.

(** C25. A workspace's storage figures are its rows. However uploads, retries,
    claims, aborts, deletions, collections and changes of plan interleave, the
    reserved counter is the sum of the bytes in flight and the stored counter
    the sum of the bytes claimed, so the floor at zero never hides a loss, and
    no object is charged twice. *)
Theorem quota_is_the_rows t :
  rtc mstep no_media t →
  (∀ w q, md_quota t !! w = Some q →
     q_reserved q = bytes_where (charged_to w true) (md_rows t)
     ∧ q_stored q = bytes_where (charged_to w false) (md_rows t)
     ∧ 0 ≤ q_reserved q ∧ 0 ≤ q_stored q)
  ∧ (∀ i j r r', md_rows t !! i = Some r → md_rows t !! j = Some r' →
       names_object (b_workspace r) (b_group r) (b_hash r) r' → i = j).
Proof.
  intros Hok%reachable_media_ok. split; [|apply (lk_one _ Hok)]. intros w q Hq. destruct (lk_quota _ Hok w q Hq) as [-> ->].
  by pose proof (bytes_where_nonneg t (charged_to w true) Hok); pose proof (bytes_where_nonneg t (charged_to w false) Hok).
Qed.

(** The bytes in flight whose upload window is still open. *)
Definition live (w : list byte) (now : Z) (r : ReservationRow) : bool :=
  charged_to w true r && negb (ran_out w now r).

Lemma live_bytes t w now :
  bytes_where (live w now) (md_rows t) = bytes_where (charged_to w true) (md_rows t) - bytes_where (ran_out w now) (md_rows t).
Proof.
  assert (bytes_where (charged_to w true) (md_rows t) = bytes_where (ran_out w now) (md_rows t)
    + bytes_where (live w now) (md_rows t)); [|lia].
  unfold bytes_where. rewrite <- msum_add. apply msum_ext. intros i r _. unfold live, charged_to, ran_out.
  destruct (bool_decide _), (unfinalized r), (b_expires r <? now); cbn; lia.
Qed.

(** A new reservation is within the plan: when the relay takes one, the bytes
    the workspace has stored and the bytes of every upload whose window is open,
    the new one included, are at most its ceiling. *)
Theorem fresh_reservation_within_plan t w g h bytes ttl now fresh t' q limit :
  rtc mstep no_media t → 0 ≤ ttl → md_rows t !! fresh = None →
  reserve t w g h bytes false ttl now fresh = (Ok (ReservedActive fresh), t') →
  md_quota t' !! w = Some q → q_limit q = Some limit →
  q_stored q + bytes_where (live w now) (md_rows t') ≤ limit.
Proof.
  intros Hok%reachable_media_ok Httl Hf Heq Hq Hl.
  pose proof (reserve_ok t w g h bytes false ttl now fresh Hok) as Hok'. rewrite Heq in Hok'. cbn [snd] in Hok'.
  pose proof (reserve_cases t w g h bytes false ttl now fresh Hok) as Hc. rewrite Heq in Hc.
  remember (Ok (ReservedActive fresh), t') as p eqn:Hp.
  destruct Hc as [Hs| |i r _ Hr _ _| |q1 _ _ Hb _ Hq1 Hlim]; try discriminate Hp; [injection Hp as -> _; congruence|].
  injection Hp as <-.
  rewrite live_bytes, <- (proj1 (lk_quota _ Hok' w q Hq)).
  apply (spend_lookup true) in Hq as (q2 & Hq2 & Hl2 & Hch). cbn [with_rows md_quota] in Hq2. rewrite Hq1 in Hq2. injection Hq2 as ->.
  pose proof (Hch true) as Hr. pose proof (Hch false) as Hs. rewrite bool_decide_true in Hr, Hs by done. cbn in Hr, Hs.
  rewrite Hr, Hs. rewrite Hl2 in Hl. specialize (Hlim limit Hl).
  rewrite (spend_rows true). cbn [with_rows md_rows]. destruct (retire_stale_ok t w g h Hok) as (_ & Hsub & _).
  rewrite bytes_where_insert.
  - unfold ran_out at 2. cbn [b_workspace b_expires unfinalized b_finalized]. rewrite (proj2 (Z.ltb_ge _ _)) by (unfold MICROS; lia).
    rewrite andb_false_r. lia.
  - destruct (md_rows (retire_stale t w g h) !! fresh) as [x|] eqn:Hx; [|done]. apply Hsub in Hx as [Hx _]. congruence.
Qed.

(** A part keeps the length it was issued with until its session's parts are
    forgotten: nothing else a client or the relay does changes it. *)
Theorem part_length_immutable t t' s n l :
  mstep t t' → md_parts t !! (s, n) = Some l →
  md_parts t' !! (s, n) = Some l ∨ t' = forget_recorded_parts t s.
Proof.
  intros Hs Hl. destruct Hs; try (by left); try (left; unfold ensure_quota_row, set_quota_limit, create_multipart in *; by repeat case_match).
  - left. unfold reserve, retire_stale. repeat case_match; cbn; try done.
  - left. unfold claim_in. by repeat case_match.
  - left. unfold release_in. by repeat case_match.
  - left. unfold finish_deletion. by repeat case_match.
  - unfold record_part. left. repeat case_match; cbn; try done. by rewrite lookup_insert_ne by congruence.
  - cbn. destruct (decide (s0 = s)) as [->|Hne]; [by right|]. left. apply map_lookup_filter_Some. split; [done|]. cbn. congruence.
Qed.

(** ** Concrete runs *)
Module MediaStoreDemo.
Definition ws : list byte := [Byte.x01].
Definition grp : list byte := [Byte.x02].
Definition blob_a : list byte := [Byte.x0a].
Definition blob_b : list byte := [Byte.x0b].
Definition uuid (n : Byte.byte) : Uuid := [n].
Definition TTL : Z := 900.
Definition at_second (s : Z) : Z := s * MICROS.

Definition funded : MediaTables := ensure_quota_row no_media ws (Some 10).
Definition took_a : MediaTables := snd (reserve funded ws grp blob_a 10 false TTL 0 (uuid Byte.x01)).

Lemma took_a_reachable : rtc mstep no_media took_a.
Proof. eapply rtc_l; [apply st_ensure|]. eapply rtc_l; [apply st_reserve|]. apply rtc_refl. Qed.

Lemma quota_is_the_rows_witness :
  (∀ w q, md_quota took_a !! w = Some q →
     q_reserved q = bytes_where (charged_to w true) (md_rows took_a)
     ∧ q_stored q = bytes_where (charged_to w false) (md_rows took_a)
     ∧ 0 ≤ q_reserved q ∧ 0 ≤ q_stored q)
  ∧ (∀ i j r r', md_rows took_a !! i = Some r → md_rows took_a !! j = Some r' →
       names_object (b_workspace r) (b_group r) (b_hash r) r' → i = j).
Proof. exact (quota_is_the_rows took_a took_a_reachable). Defined.

Lemma fresh_reservation_within_plan_witness : 0 + bytes_where (live ws 0) (md_rows took_a) ≤ 10.
Proof.
  assert (rtc mstep no_media funded) as Hr by (eapply rtc_l; [apply st_ensure|apply rtc_refl]).
  apply (fresh_reservation_within_plan funded ws grp blob_a 10 TTL 0 (uuid Byte.x01) took_a (mkQuota 0 10 (Some 10)) 10 Hr);
    by vm_compute.
Defined.

Definition opened : MediaTables := snd (create_multipart took_a (uuid Byte.x01) [] 4 TTL 0 (uuid Byte.x05)).
Definition issued : MediaTables := snd (record_part opened (uuid Byte.x05) 1 4).

Lemma part_length_immutable_witness :
  md_parts (snd (record_part issued (uuid Byte.x05) 1 9)) !! (uuid Byte.x05, 1) = Some 4
  ∨ snd (record_part issued (uuid Byte.x05) 1 9) = forget_recorded_parts issued (uuid Byte.x05).
Proof. apply (part_length_immutable issued); [apply st_part|by vm_compute]. Defined.

(** A reservation that ran out stops counting, and refreshing it checks no
    plan: two uploads of ten bytes are both claimed under a plan of ten. *)
Definition took_b : MediaTables := snd (reserve took_a ws grp blob_b 10 false TTL (at_second 1000) (uuid Byte.x02)).
Definition refreshed_a : MediaTables := snd (reserve took_b ws grp blob_a 10 false TTL (at_second 1001) (uuid Byte.x03)).
Definition both_claimed : MediaTables :=
  snd (claim_in (snd (claim_in refreshed_a ws grp blob_a (at_second 1002))) ws grp blob_b (at_second 1003)).
Theorem refresh_passes_plan :
  fst (reserve took_a ws grp blob_b 10 false TTL (at_second 1000) (uuid Byte.x02)) = Ok (ReservedActive (uuid Byte.x02))
  ∧ fst (reserve took_b ws grp blob_a 10 false TTL (at_second 1001) (uuid Byte.x03)) = Ok (ReservedActive (uuid Byte.x01))
  ∧ md_quota both_claimed !! ws = Some (mkQuota 20 0 (Some 10)).
Proof. by vm_compute. Qed.

(** A second [PUT] of an object in flight is granted whatever length it states,
    and the row keeps the first one: one byte is charged for a gigabyte. *)
Definition one_byte : MediaTables := snd (reserve funded ws grp blob_a 1 false TTL 0 (uuid Byte.x01)).
Theorem refresh_ignores_length :
  fst (reserve one_byte ws grp blob_a 1000000000 false TTL 1 (uuid Byte.x02)) = Ok (ReservedActive (uuid Byte.x01))
  ∧ md_quota (snd (reserve one_byte ws grp blob_a 1000000000 false TTL 1 (uuid Byte.x02))) !! ws = Some (mkQuota 0 1 (Some 10)).
Proof. by vm_compute. Qed.

(** One aborted upload stops the collector of abandoned ones: its part rows keep
    the session listed, its reservation is gone, and the listing reads a null
    where it expects an id, so no abandoned session is swept from then on. *)
Definition aborted : MediaTables :=
  snd (release_in (abort_multipart issued (uuid Byte.x05) 1) ws (uuid Byte.x01)).
Theorem aborted_session_stops_sweep :
  is_ok (stale_multipart_sessions issued (at_second 1000)) = true
  ∧ stale_multipart_sessions aborted (at_second 1000) = Err MediaDatabase.
Proof. by vm_compute. Qed.
End MediaStoreDemo.
