(* ===== verification/Retention.v ===== *)
(** * The retention chain: [media/retention.rs]

    Two authorities that are never merged: the chain of epoch verifiers, whose
    controls and manifests are evidence of a complete view, and the
    threshold-authorized policies and destructions that permit deletion.
    [RetentionTables] is the retention tables of [migrations/0006_media.sql],
    the [relay_group] rows the freeze is kept in, shared with [Accept], and the
    media tables a manifest claims from.

    [apply_control] and [apply_manifest] read before they write without a lock
    between, so what they read and what they write are two arguments; the tables
    written are any later state of the tables read.

    The theorems: in every interleaving the controls of a group are one chain,
    each signed by the verifier before it, a settled control is never replaced,
    and a manifest claims everything it names or nothing; a threshold verdict
    needs two authorizers, or the only one and seven days. *)

From stdpp Require Import base tactics numbers gmap sets fin_maps functions relations sorting list.
From S2P Require Import Prelude Cbor Push Frame Crypto Access AccessChain Envelope Accept MediaWire MediaStore.

Open Scope Z_scope.

Definition FIRST_MANIFEST_SEQUENCE : Z := 1.
Definition SOLE_AUTHORIZER_FLOOR_SECS : Z := 7 * 24 * 60 * 60.
Definition POLICY_FLOOR_DAYS : Z := 30.
Definition I32_MAX : Z := 2147483647.
(** The last whole second a [timestamptz] holds. *)
Definition TIMESTAMP_MAX : Z := 9224318015999.

Record ControlRow : Type := mkControlRow {
  ct_verifier : list byte;
  ct_prev : option (list byte);
  ct_sig : list byte
}.
Record ManifestRow : Type := mkManifestRow {
  mf_epoch : Z;
  mf_prev : option (list byte);
  mf_blobs : list (list byte);
  mf_sig : list byte;
  mf_digest : list byte
}.

Record RetentionTables : Type := mkRetention {
  rt_groups : gmap GroupId GroupRow;
  rt_controls : gmap (GroupId * Z) ControlRow;
  rt_conflicts : list (GroupId * Z * ControlRow);
  rt_manifests : gmap (GroupId * Z) ManifestRow;
  rt_rejected : list (GroupId * Z * Z);
  rt_policies : gmap (GroupId * Z) RetentionPolicy;
  rt_destructions : gmap (GroupId * list byte * list byte) RetentionDestruction;
  rt_media : MediaTables
}.

Definition with_groups (t : RetentionTables) gs : RetentionTables :=
  mkRetention gs (rt_controls t) (rt_conflicts t) (rt_manifests t) (rt_rejected t) (rt_policies t) (rt_destructions t) (rt_media t).
Definition with_controls (t : RetentionTables) cs : RetentionTables :=
  mkRetention (rt_groups t) cs (rt_conflicts t) (rt_manifests t) (rt_rejected t) (rt_policies t) (rt_destructions t) (rt_media t).
Definition with_conflicts (t : RetentionTables) cs : RetentionTables :=
  mkRetention (rt_groups t) (rt_controls t) cs (rt_manifests t) (rt_rejected t) (rt_policies t) (rt_destructions t) (rt_media t).
Definition with_rejected (t : RetentionTables) rs : RetentionTables :=
  mkRetention (rt_groups t) (rt_controls t) (rt_conflicts t) (rt_manifests t) rs (rt_policies t) (rt_destructions t) (rt_media t).
Definition with_policies (t : RetentionTables) ps : RetentionTables :=
  mkRetention (rt_groups t) (rt_controls t) (rt_conflicts t) (rt_manifests t) (rt_rejected t) ps (rt_destructions t) (rt_media t).
Definition with_destructions (t : RetentionTables) ds : RetentionTables :=
  mkRetention (rt_groups t) (rt_controls t) (rt_conflicts t) (rt_manifests t) (rt_rejected t) (rt_policies t) ds (rt_media t).

Inductive RetentionStoreError : Type := RetentionDatabase.

(** ** Controls *)
Inductive ControlFault : Type :=
| GenesisNamesPredecessor
| NoPriorControl
| NamesNoPredecessor
| PredecessorMismatch
| ControlSignature
| GenesisTaken.

Inductive ControlOutcome : Type :=
| ControlAccepted
| ConflictFroze
| ConflictAlreadyFrozen
| ControlInvalid (fault : ControlFault).

(** The record a row was written from. *)
Definition row_control (group : list byte) (epoch : Z) (c : ControlRow) : RetentionControl :=
  mkControl group epoch (ct_verifier c) (ct_prev c) (ct_sig c).
Definition control_row (r : RetentionControl) : ControlRow := mkControlRow (rc_verifier r) (rc_prev r) (rc_sig r).

Definition control_at (t : RetentionTables) (group : list byte) (epoch : Z) : option ControlRow :=
  rt_controls t !! (group, u64_as_i64 epoch).

Definition is_the_same_control (c : ControlRow) (r : RetentionControl) : bool :=
  bool_decide (ct_verifier c = rc_verifier r) && bool_decide (ct_prev c = rc_prev r) && bool_decide (ct_sig c = rc_sig r).

(** [where group_id = $1 order by n desc limit 1]. *)
Definition of_group {A} (m : gmap (GroupId * Z) A) (group : list byte) : list (Z * A) :=
  omap (λ e : (GroupId * Z) * A, if decide (e.1.1 = group) then Some (e.1.2, e.2) else None) (map_to_list m).
Definition later_of {A} (acc : option (Z * A)) (e : Z * A) : option (Z * A) :=
  match acc with
  | Some (n, x) => if n <? e.1 then Some e else Some (n, x)
  | None => Some e
  end.
Definition newest {A} (m : gmap (GroupId * Z) A) (group : list byte) : option (Z * A) :=
  fold_left later_of (of_group m group) None.

(** The newest epoch of a group's chain and its verifier. *)
Definition latest_control (t : RetentionTables) (group : list byte) : option (Z * list byte) :=
  (λ e, (e.1, ct_verifier e.2)) <$> newest (rt_controls t) group.

Definition freeze (t : RetentionTables) (group : list byte) : bool * RetentionTables :=
  match rt_groups t !! group with
  | Some g => if frozen g then (true, t)
              else (false, with_groups t (<[group := mkGroupRow (g_workspace g) (next_seq g) true]> (rt_groups t)))
  | None => (true, t)
  end.
Definition is_frozen (t : RetentionTables) (group : list byte) : bool :=
  match rt_groups t !! group with Some g => frozen g | None => false end.
Definition clear_freeze (t : RetentionTables) (group : list byte) : RetentionTables :=
  with_groups t (alter (λ g, mkGroupRow (g_workspace g) (next_seq g) false) group (rt_groups t)).

(** The conflicting row is evidence; an epoch past the column, or a group that
    is gone, is refused by the database. *)
Definition record_conflict_and_freeze (t : RetentionTables) (r : RetentionControl) :
    result RetentionStoreError ControlOutcome * RetentionTables :=
  match rt_groups t !! rc_group r with
  | None => (Err RetentionDatabase, t)
  | Some _ =>
      let '(already, t) := freeze (with_conflicts t (rt_conflicts t ++ [(rc_group r, u64_as_i64 (rc_epoch r), control_row r)]))
                             (rc_group r) in
      (Ok (if already then ConflictAlreadyFrozen else ConflictFroze), t)
  end.

Section retention.
Context `{Blake3, Ed25519}.

(** The verifier a control must be signed by. *)
Definition control_authority (seen : RetentionTables) (r : RetentionControl) : result ControlFault (list byte) :=
  if rc_epoch r =? 0 then
    match rc_prev r with Some _ => Err GenesisNamesPredecessor | None => Ok (rc_verifier r) end
  else
    match control_at seen (rc_group r) (rc_epoch r - 1) with
    | None => Err NoPriorControl
    | Some prior =>
        match rc_prev r with
        | None => Err NamesNoPredecessor
        | Some named =>
            if bool_decide (named = control_digest (row_control (rc_group r) (rc_epoch r - 1) prior))
            then Ok (ct_verifier prior) else Err PredecessorMismatch
        end
    end.

(** A row already there at the record's epoch. *)
Definition judge_settled (t : RetentionTables) (settled : ControlRow) (r : RetentionControl) :
    result RetentionStoreError ControlOutcome * RetentionTables :=
  if is_the_same_control settled r then (Ok ControlAccepted, t)
  else if rc_epoch r =? 0 then (Ok (ControlInvalid GenesisTaken), t)
  else record_conflict_and_freeze t r.

Definition apply_control (seen t : RetentionTables) (r : RetentionControl) :
    result RetentionStoreError ControlOutcome * RetentionTables :=
  match control_authority seen r with
  | Err fault => (Ok (ControlInvalid fault), t)
  | Ok authority =>
      if negb (verify authority (control_signing_bytes r) (rc_sig r)) then (Ok (ControlInvalid ControlSignature), t)
      else
        match control_at seen (rc_group r) (rc_epoch r) with
        | Some existing => judge_settled t existing r
        | None =>
            match control_at t (rc_group r) (rc_epoch r) with
            | Some winner => judge_settled t winner r
            | None =>
                if (u64_as_i64 (rc_epoch r) <? 0) || negb (length (rc_verifier r) =? 32)%nat
                   || negb (bool_decide (is_Some (rt_groups t !! rc_group r)))
                then (Err RetentionDatabase, t)
                else (Ok ControlAccepted,
                      with_controls t (<[(rc_group r, u64_as_i64 (rc_epoch r)) := control_row r]> (rt_controls t)))
            end
        end
  end.

Inductive ResolveOutcome : Type := Cleared | ResolveBadSignature | UnknownVerifier.

Definition known_verifier (t : RetentionTables) (r : RetentionResolution) : bool :=
  match control_at t (rr_group r) (rr_epoch r) with
  | Some c => bool_decide (ct_verifier c = rr_verifier r)
  | None => false
  end
  || existsb (λ e : GroupId * Z * ControlRow,
       bool_decide (e.1 = (rr_group r, u64_as_i64 (rr_epoch r))) && bool_decide (ct_verifier e.2 = rr_verifier r))
     (rt_conflicts t).

Definition resolve_freeze (t : RetentionTables) (r : RetentionResolution) : ResolveOutcome * RetentionTables :=
  if negb (verify (rr_verifier r) (resolution_signing_bytes r) (rr_sig r)) then (ResolveBadSignature, t)
  else if known_verifier t r then (Cleared, clear_freeze t (rr_group r))
  else (UnknownVerifier, t).

(** ** Manifests *)
Inductive ManifestFault : Type :=
| NoControl
| StaleEpoch
| ManifestSignature
| SequenceGap
| PreviousMismatch
| UnreservedHash.
Inductive ManifestOutcome : Type := ManifestAccepted (digest : list byte) | ManifestInvalid (fault : ManifestFault).

Definition latest_manifest (t : RetentionTables) (group : list byte) : option (Z * ManifestRow) :=
  newest (rt_manifests t) group.

(** Every claim a manifest names, or none: one transaction. *)
Fixpoint claim_all (t : MediaTables) (workspace group : list byte) (blobs : list (list byte)) (now : Z) :
    option MediaTables :=
  match blobs with
  | [] => Some t
  | hash :: blobs =>
      match claim_in t workspace group hash now with
      | (NoReservation, _) => None
      | (_, t) => claim_all t workspace group blobs now
      end
  end.

Definition next_sequence (t : RetentionTables) (group : list byte) : Z :=
  match latest_manifest t group with Some (s, _) => s + 1 | None => FIRST_MANIFEST_SEQUENCE end.
Definition last_digest (t : RetentionTables) (group : list byte) : option (list byte) :=
  (λ e, mf_digest e.2) <$> latest_manifest t group.

Definition reject_manifest (t : RetentionTables) (m : RetentionManifest) (fault : ManifestFault) :
    result RetentionStoreError ManifestOutcome * RetentionTables :=
  match rt_groups t !! rm_group m with
  | None => (Err RetentionDatabase, t)
  | Some _ => (Ok (ManifestInvalid fault),
               with_rejected t (rt_rejected t ++ [(rm_group m, u64_as_i64 (rm_epoch m), u64_as_i64 (rm_sequence m))]))
  end.

(** The checks against what was read. *)
Definition judge_manifest (seen : RetentionTables) (m : RetentionManifest) : result ManifestFault unit :=
  match latest_control seen (rm_group m) with
  | None => Err NoControl
  | Some (latest_epoch, verifier) =>
      if negb (rm_epoch m =? latest_epoch) then Err StaleEpoch
      else if negb (verify verifier (manifest_signing_bytes m) (rm_sig m)) then Err ManifestSignature
      else if negb (rm_sequence m =? next_sequence seen (rm_group m)) then Err SequenceGap
      else if negb (bool_decide (rm_prev m = last_digest seen (rm_group m))) then Err PreviousMismatch
      else Ok tt
  end.

Definition manifest_row (m : RetentionManifest) : ManifestRow :=
  mkManifestRow (rm_epoch m) (rm_prev m) (rm_blobs m) (rm_sig m) (manifest_digest m).

Definition apply_manifest (seen t : RetentionTables) (workspace : list byte) (m : RetentionManifest) (now : Z) :
    result RetentionStoreError ManifestOutcome * RetentionTables :=
  match judge_manifest seen m with
  | Err fault => reject_manifest t m fault
  | Ok _ =>
      let sequence := u64_as_i64 (rm_sequence m) in
      if (sequence <? 1) || bool_decide (is_Some (rt_manifests t !! (rm_group m, sequence)))
         || negb (bool_decide (is_Some (rt_groups t !! rm_group m)))
      then (Err RetentionDatabase, t)
      else
        match claim_all (rt_media t) workspace (rm_group m) (rm_blobs m) now with
        | None => reject_manifest t m UnreservedHash
        | Some media =>
            (Ok (ManifestAccepted (manifest_digest m)),
             mkRetention (rt_groups t) (rt_controls t) (rt_conflicts t)
               (<[(rm_group m, sequence) := manifest_row m]> (rt_manifests t)) (rt_rejected t) (rt_policies t)
               (rt_destructions t) media)
        end
  end.

Record ChainPosition : Type := mkPosition {
  cp_control_epoch : Z;
  cp_control_digest : option (list byte);
  cp_next_sequence : Z;
  cp_prev_manifest_hash : option (list byte);
  cp_blobs : list (list byte)
}.
Definition position (t : RetentionTables) (group : list byte) : ChainPosition :=
  let control := latest_control t group in
  mkPosition (default 0 (fst <$> control))
    (match control with
     | Some (epoch, _) => (λ c, control_digest (row_control group epoch c)) <$> control_at t group epoch
     | None => None
     end)
    (next_sequence t group) (last_digest t group) (default [] ((λ e, mf_blobs e.2) <$> latest_manifest t group)).

(** ** The threshold *)
Inductive Authorization : Type :=
| Threshold
| SoleAuthorizerGraced
| Insufficient
| SoleAuthorizerTooSoon
| NoAuthorizers.

(** The distinct authorizers whose signatures hold, in the order met. *)
Fixpoint distinct_signers (authorizers : list (list byte)) (message : list byte) (seen : list (list byte))
    (signatures : list Signature) : list (list byte) :=
  match signatures with
  | [] => seen
  | s :: rest =>
      if bool_decide (sg_key s ∈ authorizers) && verify (sg_key s) message (sg_sig s)
         && negb (bool_decide (sg_key s ∈ seen))
      then distinct_signers authorizers message (seen ++ [sg_key s]) rest
      else distinct_signers authorizers message seen rest
  end.

Definition authorize (prior : option Prior) (message : list byte) (signatures : list Signature)
    (not_before_secs now_secs : Z) : Authorization :=
  match prior with
  | None => NoAuthorizers
  | Some p =>
      match prior_authorizers p with
      | [] => NoAuthorizers
      | _ =>
          let distinct := distinct_signers (prior_authorizers p) message [] signatures in
          if (2 <=? length (prior_authorizers p))%nat then
            if (2 <=? length distinct)%nat then Threshold else Insufficient
          else
            match distinct with
            | [] => Insufficient
            | _ => if not_before_secs <? u64_saturating_add now_secs SOLE_AUTHORIZER_FLOOR_SECS
                   then SoleAuthorizerTooSoon else SoleAuthorizerGraced
            end
      end
  end.

(** ** Policies and destructions *)
Definition insert_policy (t : RetentionTables) (p : RetentionPolicy) : result RetentionStoreError RetentionTables :=
  let version := u64_as_i64 (rp_version p) in
  if (version <? 1) || (I32_MAX <? rp_media_after_days p) || (rp_media_after_days p <? POLICY_FLOOR_DAYS)
     || (TIMESTAMP_MAX <? rp_not_before p) || bool_decide (is_Some (rt_policies t !! (rp_group p, version)))
     || negb (bool_decide (is_Some (rt_groups t !! rp_group p)))
  then Err RetentionDatabase
  else Ok (with_policies t (<[(rp_group p, version) := p]> (rt_policies t))).

Definition active_policy (t : RetentionTables) (group : list byte) : option RetentionPolicy :=
  snd <$> newest (rt_policies t) group.

Definition is_the_same_policy (active record : RetentionPolicy) : bool :=
  (rp_version active =? rp_version record) && (rp_media_after_days active =? rp_media_after_days record)
  && (rp_text_after_days active =? rp_text_after_days record) && (rp_not_before active =? rp_not_before record).

Definition insert_destruction (t : RetentionTables) (x : RetentionDestruction) :
    result RetentionStoreError (bool * RetentionTables) :=
  let key := (rx_group x, from_utf8_lossy (rx_kind x), rx_target_digest x) in
  if (TIMESTAMP_MAX <? rx_not_before x) || negb (bool_decide (is_Some (rt_groups t !! rx_group x)))
  then Err RetentionDatabase
  else match rt_destructions t !! key with
       | Some _ => Ok (false, t)
       | None => Ok (true, with_destructions t (<[key := x]> (rt_destructions t)))
       end.

Definition active_destruction (t : RetentionTables) (group kind target : list byte) : option RetentionDestruction :=
  rt_destructions t !! (group, kind, target).
End retention.

(** ** The newest row of a group *)
Lemma elem_of_of_group {A} (m : gmap (GroupId * Z) A) group n x :
  (n, x) ∈ of_group m group ↔ m !! (group, n) = Some x.
Proof.
  unfold of_group. rewrite list_elem_of_omap. split.
  - intros ([[g k] y] & Hin & Hf). cbn in Hf. case_decide; [|done]. injection Hf as <- <-. subst g. by apply elem_of_map_to_list in Hin.
  - intros Hx. exists ((group, n), x). split; [by apply elem_of_map_to_list|]. cbn. by rewrite decide_True.
Qed.

Lemma fold_later_of {A} (l : list (Z * A)) acc :
  match fold_left later_of l acc with
  | Some e => (e ∈ l ∨ acc = Some e) ∧ (∀ e', e' ∈ l ∨ acc = Some e' → e'.1 ≤ e.1)
  | None => l = [] ∧ acc = None
  end.
Proof.
  revert acc. induction l as [|[n x] l IH]; intros acc; cbn [fold_left].
  - destruct acc as [e|]; [|done]. split; [by right|]. intros e' [He|[= <-]]; [by apply elem_of_nil in He|lia].
  - specialize (IH (later_of acc (n, x))). destruct (fold_left later_of l _) as [e|].
    + destruct IH as [Hin Hmax]. split.
      * destruct Hin as [Hin|Hacc]; [left; by apply list_elem_of_further|]. destruct acc as [[k y]|]; cbn in Hacc.
        -- destruct (Z.ltb_spec k n); injection Hacc as <-; [left; apply list_elem_of_here|by right].
        -- injection Hacc as <-. left. apply list_elem_of_here.
      * intros e' [Hc|Hc]; [apply elem_of_cons in Hc as [Hc|Hl]; [subst e'|]|subst acc].
        -- destruct acc as [[k y]|]; cbn in *; [|apply (Hmax (n, x)); by right].
           destruct (Z.ltb_spec k n); [apply (Hmax (n, x)); by right|]. specialize (Hmax (k, y) (or_intror eq_refl)). cbn in *. lia.
        -- apply Hmax. by left.
        -- destruct e' as [k y]. cbn in *. destruct (Z.ltb_spec k n); [|apply (Hmax (k, y)); by right].
           specialize (Hmax (n, x) (or_intror eq_refl)). cbn in *. lia.
    + destruct IH as [_ Hacc]. exfalso. destruct acc as [[k y]|]; cbn in Hacc; [by destruct (k <? n)|done].
Qed.

Lemma newest_Some {A} (m : gmap (GroupId * Z) A) group n x :
  newest m group = Some (n, x) → m !! (group, n) = Some x ∧ ∀ k y, m !! (group, k) = Some y → k ≤ n.
Proof.
  intros Hn. pose proof (fold_later_of (of_group m group) None) as Hf. unfold newest in Hn. rewrite Hn in Hf.
  destruct Hf as [[Hin|Hin] Hmax]; [|done]. split; [by apply elem_of_of_group|].
  intros k y Hk. apply (Hmax (k, y)). left. by apply elem_of_of_group.
Qed.

Lemma newest_None {A} (m : gmap (GroupId * Z) A) group :
  newest m group = None → ∀ k, m !! (group, k) = None.
Proof.
  intros Hn k. pose proof (fold_later_of (of_group m group) None) as Hf. unfold newest in Hn. rewrite Hn in Hf.
  destruct Hf as [Hl _]. destruct (m !! (group, k)) as [y|] eqn:Hk; [|done].
  apply elem_of_of_group in Hk. rewrite Hl in Hk. by apply elem_of_nil in Hk.
Qed.

(** ** The threshold, counted *)
Section threshold.
Context `{Blake3, Ed25519}.

Definition signs (authorizers : list (list byte)) (message : list byte) (signatures : list Signature) (key : list byte) : Prop :=
  key ∈ authorizers ∧ ∃ s, s ∈ signatures ∧ sg_key s = key ∧ verify key message (sg_sig s) = true.

Lemma distinct_signers_spec authorizers message signatures seen :
  NoDup seen →
  NoDup (distinct_signers authorizers message seen signatures)
  ∧ ∀ k, k ∈ distinct_signers authorizers message seen signatures ↔ k ∈ seen ∨ signs authorizers message signatures k.
Proof.
  revert seen. induction signatures as [|s rest IH]; intros seen Hnd; cbn [distinct_signers].
  { split; [done|]. intros k. split; [by left|]. intros [Hk|(_ & s & Hs & _)]; [done|by apply elem_of_nil in Hs]. }
  assert (∀ k, signs authorizers message (s :: rest) k ↔
    (k = sg_key s ∧ k ∈ authorizers ∧ verify k message (sg_sig s) = true) ∨ signs authorizers message rest k) as Hcons.
  { intros k. unfold signs. setoid_rewrite elem_of_cons. naive_solver. }
  destruct (bool_decide_reflect (sg_key s ∈ authorizers)) as [Ha|Ha]; cbn [andb];
    [destruct (verify (sg_key s) message (sg_sig s)) eqn:Hv; cbn [andb];
     [destruct (bool_decide_reflect (sg_key s ∈ seen)) as [Hs|Hs]; cbn [negb]|]|].
  2: { destruct (IH (seen ++ [sg_key s])) as [Hd Hk].
       { apply NoDup_app. split_and!; [done| |apply NoDup_singleton]. intros x Hx [= ->]%list_elem_of_singleton. done. }
       split; [done|]. intros k. rewrite Hk, Hcons, elem_of_app, list_elem_of_singleton. naive_solver. }
  all: destruct (IH seen Hnd) as [Hd Hk]; split; [done|]; intros k; rewrite Hk, Hcons; naive_solver congruence.
Qed.

Lemma two_distinct {A} (l : list A) : NoDup l → (2 <= length l)%nat ↔ ∃ x y, x ∈ l ∧ y ∈ l ∧ x ≠ y.
Proof.
  intros Hnd. destruct l as [|x [|y l]]; cbn.
  - split; [lia|]. intros (x & y & Hx & _). by apply elem_of_nil in Hx.
  - split; [lia|]. intros (a & b & ->%list_elem_of_singleton & ->%list_elem_of_singleton & ?). done.
  - split; [|lia]. intros _. exists x, y. split_and!; [apply list_elem_of_here|apply list_elem_of_further, list_elem_of_here|].
    apply NoDup_cons in Hnd as [Hx _]. intros ->. apply Hx, list_elem_of_here.
Qed.

(** The threshold is exact. A policy or a destruction has its authority when
    the access set in force lists two authorizers or more and two different ones
    of them signed these bytes; or when it lists exactly one, that one signed,
    and nothing may be deleted for seven days. One authorizer signing twice, a
    key the set does not list, or the names the record itself lists count for
    nothing. *)
Theorem threshold_exact prior message signatures not_before now :
  (authorize prior message signatures not_before now = Threshold ↔
     ∃ p, prior = Some p ∧ (2 <= length (prior_authorizers p))%nat
       ∧ ∃ k k', signs (prior_authorizers p) message signatures k ∧ signs (prior_authorizers p) message signatures k' ∧ k ≠ k')
  ∧ (authorize prior message signatures not_before now = SoleAuthorizerGraced ↔
     ∃ p k, prior = Some p ∧ prior_authorizers p = [k] ∧ signs [k] message signatures k
       ∧ u64_saturating_add now SOLE_AUTHORIZER_FLOOR_SECS ≤ not_before).
Proof.
  unfold authorize. destruct prior as [p|]; [|split; split; [done|naive_solver|done|naive_solver]].
  destruct (distinct_signers_spec (prior_authorizers p) message signatures [] NoDup_nil_2) as [Hd Hk].
  assert (∀ k, k ∈ distinct_signers (prior_authorizers p) message [] signatures ↔ signs (prior_authorizers p) message signatures k) as Hs.
  { intros k. rewrite Hk, elem_of_nil. naive_solver. } clear Hk.
  pose proof (two_distinct _ Hd) as H2. setoid_rewrite Hs in H2.
  remember (2 <=? length (distinct_signers (prior_authorizers p) message [] signatures))%nat as two eqn:Hlen. symmetry in Hlen.
  destruct (prior_authorizers p) as [|a [|b rest]] eqn:Hp; cbn [length Nat.leb].
  - split; split; try done; [intros (? & [= <-] & Hle & _)|intros (? & k & [= <-] & Hk & _)]; [rewrite Hp in Hle; cbn in Hle; lia|congruence].
  - destruct (distinct_signers [a] message [] signatures) as [|x l] eqn:Hl.
    + split; split; try done; [intros (? & [= <-] & Hle & _); rewrite Hp in Hle; cbn in Hle; lia|].
      intros (? & k & [= <-] & Hk & Hsig & _). rewrite Hp in Hk. injection Hk as <-. apply Hs in Hsig. by apply elem_of_nil in Hsig.
    + assert (signs [a] message signatures a) as Ha.
      { assert (signs [a] message signatures x) as Hx by (apply Hs, list_elem_of_here). destruct Hx as [Hx ?].
        pose proof Hx as Hx'. apply list_elem_of_singleton in Hx' as ->. by split. }
      destruct (Z.ltb_spec not_before (u64_saturating_add now SOLE_AUTHORIZER_FLOOR_SECS)) as [Hlt|Hge];
        (split; [split; [done|intros (? & [= <-] & Hle & _); rewrite Hp in Hle; cbn in Hle; lia]|split; [|done || intros (? & k & [= <-] & _ & _ & ?); lia]]).
      * done.
      * intros _. exists p, a. by rewrite Hp.
  - destruct two.
    + apply Nat.leb_le in Hlen. split; split; try done; [|intros (? & k & [= <-] & Hk & _); rewrite Hp in Hk; discriminate Hk].
      intros _. exists p. rewrite Hp. split_and!; [done|cbn; lia|]. apply H2 in Hlen as (k & k' & ? & ? & ?). by exists k, k'.
    + apply Nat.leb_gt in Hlen. split; split; try done; [|intros (? & k & [= <-] & Hk & _); rewrite Hp in Hk; discriminate Hk].
      intros (? & [= <-] & _ & k & k' & Hx). rewrite Hp in Hx. apply Nat.lt_nge in Hlen. destruct Hlen. apply H2. by exists k, k'.
Qed.
End threshold.

(** ** What the tables always say *)
Section chain.
Context `{Blake3, Ed25519}.

Definition signed_by (verifier group : list byte) (epoch : Z) (c : ControlRow) : Prop :=
  verify verifier (control_signing_bytes (row_control group epoch c)) (ct_sig c) = true.

(** The genesis control signs for itself; every later one names the digest of
    the control before it and is signed by that control's verifier. *)
Definition control_linked (t : RetentionTables) (group : list byte) (epoch : Z) (c : ControlRow) : Prop :=
  (epoch = 0 ∧ ct_prev c = None ∧ signed_by (ct_verifier c) group epoch c)
  ∨ (0 < epoch ∧ ∃ p, rt_controls t !! (group, epoch - 1) = Some p
       ∧ ct_prev c = Some (control_digest (row_control group (epoch - 1) p))
       ∧ signed_by (ct_verifier p) group epoch c).

(** The first manifest is numbered one and names nothing; each later one names
    the digest of the one before; each was signed by a verifier of the chain. *)
Definition manifest_linked (t : RetentionTables) (group : list byte) (sequence : Z) (m : ManifestRow) : Prop :=
  ((sequence = FIRST_MANIFEST_SEQUENCE ∧ mf_prev m = None)
   ∨ (FIRST_MANIFEST_SEQUENCE < sequence ∧ ∃ p, rt_manifests t !! (group, sequence - 1) = Some p ∧ mf_prev m = Some (mf_digest p)))
  ∧ ∃ c, rt_controls t !! (group, mf_epoch m) = Some c
      ∧ verify (ct_verifier c)
          (manifest_signing_bytes (mkManifest group (mf_epoch m) sequence (mf_prev m) (mf_blobs m) (mf_sig m))) (mf_sig m) = true.

(** A verdict that lets a record in. *)
Definition authorized (a : Authorization) : bool :=
  match a with Threshold | SoleAuthorizerGraced => true | _ => false end.

(** One moment of the relay: the access tables of every workspace, and its
    clock. [history] is the moments at which the handlers judged a record. *)
Record Moment : Type := mkMoment { mo_access : list byte → Db; mo_now_ms : Z }.
Variable history : Moment → Prop.

(** [retention::authorize] over the workspace's own head at that moment. *)
Definition authorized_at (m : Moment) (workspace message : list byte) (signatures : list Signature) (not_before : Z) : bool :=
  match read_prior (mo_access m workspace) with
  | Ok prior => authorized (authorize prior message signatures not_before (mo_now_ms m / 1000))
  | Err _ => false
  end.

(** The workspace agreed: at one moment, its access set then in force listed two
    authorizers or more and two different ones of them signed these bytes, or it
    listed one, who signed, seven days or more ahead of that moment's clock. *)
Definition agreed_by (workspace message : list byte) (signatures : list Signature) (not_before : Z) : Prop :=
  ∃ m prior, history m ∧ read_prior (mo_access m workspace) = Ok (Some prior)
    ∧ (((2 <= length (prior_authorizers prior))%nat
        ∧ ∃ k k', signs (prior_authorizers prior) message signatures k
            ∧ signs (prior_authorizers prior) message signatures k' ∧ k ≠ k')
       ∨ (∃ k, prior_authorizers prior = [k] ∧ signs [k] message signatures k
            ∧ u64_saturating_add (mo_now_ms m / 1000) SOLE_AUTHORIZER_FLOOR_SECS ≤ not_before)).

Lemma authorized_agreed_by m workspace message signatures not_before :
  history m → authorized_at m workspace message signatures not_before = true →
  agreed_by workspace message signatures not_before.
Proof.
  intros Hm. unfold authorized_at. destruct (read_prior (mo_access m workspace)) as [prior|] eqn:Hp; [|done].
  destruct (threshold_exact prior message signatures not_before (mo_now_ms m / 1000)) as [Ht Hs].
  destruct (authorize _ _ _ _ _) eqn:Ha; try done; intros _.
  - destruct (proj1 Ht eq_refl) as (p & -> & Hl & Hk). exists m, p. split_and!; [done..|by left].
  - destruct (proj1 Hs eq_refl) as (p & k & -> & Hk). exists m, p. split_and!; [done..|right]. by exists k.
Qed.

(** A record of a group was agreed to by the workspace the group belongs to. *)
Definition group_consented (t : RetentionTables) (group message : list byte) (signatures : list Signature) (not_before : Z) : Prop :=
  ∃ row, rt_groups t !! group = Some row ∧ agreed_by (g_workspace row) message signatures not_before.

(** A group stays, and stays with its workspace. *)
Definition workspaces_kept (gs gs' : gmap GroupId GroupRow) : Prop :=
  ∀ g row, gs !! g = Some row → ∃ row', gs' !! g = Some row' ∧ g_workspace row' = g_workspace row.

(** The retention handlers freeze and thaw groups and change nothing else of
    them. *)
Definition same_log_groups (gs gs' : gmap GroupId GroupRow) : Prop :=
  ∀ g, (λ row, (g_workspace row, next_seq row)) <$> gs' !! g = (λ row, (g_workspace row, next_seq row)) <$> gs !! g.

Record retention_ok (t : RetentionTables) : Prop := {
  ro_control : ∀ g e c, rt_controls t !! (g, e) = Some c → 0 ≤ e ∧ control_linked t g e c;
  ro_manifest : ∀ g s m, rt_manifests t !! (g, s) = Some m → manifest_linked t g s m;
  ro_policy : ∀ g v p, rt_policies t !! (g, v) = Some p →
    rp_group p = g ∧ rp_version p = v ∧ POLICY_FLOOR_DAYS ≤ rp_media_after_days p
    ∧ group_consented t g (policy_signing_bytes p) (rp_signatures p) (rp_not_before p);
  ro_destruction : ∀ g k d x, rt_destructions t !! (g, k, d) = Some x →
    rx_group x = g ∧ from_utf8_lossy (rx_kind x) = k ∧ rx_target_digest x = d
    ∧ group_consented t g (destruction_signing_bytes x) (rx_signatures x) (rx_not_before x);
  ro_media : ledger_ok (rt_media t)
}.

(** What a handler read may be older than what it writes. *)
Definition older (seen t : RetentionTables) : Prop :=
  rt_controls seen ⊆ rt_controls t ∧ rt_manifests seen ⊆ rt_manifests t.

Inductive retain_step : RetentionTables → RetentionTables → Prop :=
| rs_control seen t r : older seen t → control_wf r → retain_step t (snd (apply_control seen t r))
| rs_resolve t r : retain_step t (snd (resolve_freeze t r))
| rs_manifest seen t w m now : older seen t → manifest_wf m → retain_step t (snd (apply_manifest seen t w m now))
| rs_policy t t' p m row :
    policy_wf p → history m → rt_groups t !! rp_group p = Some row →
    authorized_at m (g_workspace row) (policy_signing_bytes p) (rp_signatures p) (rp_not_before p) = true →
    insert_policy t p = Ok t' → retain_step t t'
| rs_destruction t t' x b m row :
    destruction_wf x → history m → rt_groups t !! rx_group x = Some row →
    authorized_at m (g_workspace row) (destruction_signing_bytes x) (rx_signatures x) (rx_not_before x) = true →
    insert_destruction t x = Ok (b, t') → retain_step t t'
| rs_media t m : mstep (rt_media t) m →
    retain_step t (mkRetention (rt_groups t) (rt_controls t) (rt_conflicts t) (rt_manifests t) (rt_rejected t) (rt_policies t)
                     (rt_destructions t) m)
| rs_groups t gs : workspaces_kept (rt_groups t) gs → retain_step t (with_groups t gs).

(** What one step leaves of the four tables of records. *)
Definition keeps_records (t t' : RetentionTables) : Prop :=
  rt_controls t ⊆ rt_controls t' ∧ rt_manifests t ⊆ rt_manifests t'
  ∧ rt_policies t ⊆ rt_policies t' ∧ rt_destructions t ⊆ rt_destructions t'.

Lemma keeps_records_refl t : keeps_records t t.
Proof. by split_and!. Qed.

Lemma freeze_records t g : keeps_records t (snd (freeze t g)) ∧ rt_controls (snd (freeze t g)) = rt_controls t
  ∧ rt_manifests (snd (freeze t g)) = rt_manifests t ∧ rt_policies (snd (freeze t g)) = rt_policies t
  ∧ rt_destructions (snd (freeze t g)) = rt_destructions t ∧ rt_media (snd (freeze t g)) = rt_media t.
Proof. unfold freeze, keeps_records. repeat case_match; cbn; by split_and!. Qed.

Lemma same_log_refl gs : same_log_groups gs gs.
Proof. done. Qed.
Lemma freeze_same t g : same_log_groups (rt_groups t) (rt_groups (snd (freeze t g))).
Proof.
  unfold freeze. destruct (rt_groups t !! g) as [row|] eqn:Hg; [|done]. destruct (frozen row); [done|]. cbn. intros g'.
  destruct (decide (g' = g)) as [->|]; [by rewrite lookup_insert_eq, Hg|by rewrite lookup_insert_ne].
Qed.
Lemma settled_same t c r : same_log_groups (rt_groups t) (rt_groups (snd (judge_settled t c r))).
Proof.
  unfold judge_settled, record_conflict_and_freeze. destruct (is_the_same_control c r); [done|]. destruct (rc_epoch r =? 0); [done|].
  destruct (rt_groups t !! rc_group r); [|done].
  match goal with |- context [freeze ?t' ?g] => pose proof (freeze_same t' g) as Hf; by destruct (freeze t' g) end.
Qed.
Lemma apply_control_same seen t r : same_log_groups (rt_groups t) (rt_groups (snd (apply_control seen t r))).
Proof.
  unfold apply_control. destruct (control_authority seen r); [|done]. destruct (verify _ _ _); [|done]. cbn [negb].
  destruct (control_at seen _ _); [apply settled_same|]. destruct (control_at t _ _); [apply settled_same|].
  by case_match.
Qed.
Lemma resolve_same t r : same_log_groups (rt_groups t) (rt_groups (snd (resolve_freeze t r))).
Proof.
  unfold resolve_freeze. case_match; [done|]. case_match; [|done]. cbn. intros g.
  destruct (decide (g = rr_group r)) as [->|]; [rewrite lookup_alter_eq|by rewrite lookup_alter_ne].
  by destruct (rt_groups t !! rr_group r).
Qed.
Lemma apply_manifest_same seen t w m now : rt_groups (snd (apply_manifest seen t w m now)) = rt_groups t.
Proof.
  unfold apply_manifest, reject_manifest. destruct (judge_manifest seen m); repeat case_match; done.
Qed.
Lemma insert_policy_same t p t' : insert_policy t p = Ok t' → rt_groups t' = rt_groups t.
Proof. unfold insert_policy. case_match; [done|]. by intros [= <-]. Qed.
Lemma insert_destruction_same t x b t' : insert_destruction t x = Ok (b, t') → rt_groups t' = rt_groups t.
Proof. unfold insert_destruction. case_match; [done|]. case_match; by intros [= _ <-]. Qed.

Lemma same_log_kept gs gs' : same_log_groups gs gs' → workspaces_kept gs gs'.
Proof.
  intros Hs g row Hg. specialize (Hs g). rewrite Hg in Hs. destruct (gs' !! g) as [row'|]; [|done].
  injection Hs as Hw _. by exists row'.
Qed.

Lemma retain_step_kept t t' : retain_step t t' → workspaces_kept (rt_groups t) (rt_groups t').
Proof.
  intros Hs. destruct Hs as [seen t r _ _|t r|seen t w m now _ _|t t' p m row _ _ _ _ Hi|t t' x b m row _ _ _ _ Hi|t m _|t gs Hk];
    [..|done]; apply same_log_kept.
  - apply apply_control_same.
  - apply resolve_same.
  - by rewrite apply_manifest_same.
  - by rewrite (insert_policy_same _ _ _ Hi).
  - by rewrite (insert_destruction_same _ _ _ _ Hi).
  - done.
Qed.

Lemma group_consented_kept t t' g message signatures not_before :
  workspaces_kept (rt_groups t) (rt_groups t') → group_consented t g message signatures not_before →
  group_consented t' g message signatures not_before.
Proof. intros Hk (row & Hg & Ha). destruct (Hk g row Hg) as (row' & Hg' & Hw). exists row'. by rewrite Hw. Qed.

(** The two tables a control may change, and how. *)
Inductive control_effect (seen t : RetentionTables) (r : RetentionControl) : RetentionTables → Prop :=
| ce_none t' :
    rt_controls t' = rt_controls t → rt_manifests t' = rt_manifests t → rt_policies t' = rt_policies t →
    rt_destructions t' = rt_destructions t → rt_media t' = rt_media t → control_effect seen t r t'
| ce_settled authority :
    control_authority seen r = Ok authority → verify authority (control_signing_bytes r) (rc_sig r) = true →
    rt_controls t !! (rc_group r, rc_epoch r) = None → 0 ≤ rc_epoch r ≤ I64_MAX →
    control_effect seen t r (with_controls t (<[(rc_group r, rc_epoch r) := control_row r]> (rt_controls t))).

Lemma u64_as_i64_nonneg z : is_u64 z → 0 ≤ u64_as_i64 z → u64_as_i64 z = z ∧ z ≤ I64_MAX.
Proof. unfold u64_as_i64, is_u64. intros Hz. destruct (Z.leb_spec z I64_MAX); unfold U64_MAX, I64_MAX in *; lia. Qed.

Lemma judge_settled_effect seen t c r : control_effect seen t r (snd (judge_settled t c r)).
Proof.
  unfold judge_settled. destruct (is_the_same_control c r); [by constructor|]. destruct (rc_epoch r =? 0); [by constructor|].
  unfold record_conflict_and_freeze. destruct (rt_groups t !! _); [|by constructor].
  match goal with |- context [freeze ?s ?g] => pose proof (freeze_records s g) as Hf; destruct (freeze s g) as [b t'] end.
  cbn [snd] in *. destruct Hf as (_ & ? & ? & ? & ? & ?). by constructor.
Qed.

Lemma apply_control_effect seen t r : control_wf r → control_effect seen t r (snd (apply_control seen t r)).
Proof.
  intros (_ & He & _). unfold apply_control. destruct (control_authority seen r) as [authority|] eqn:Ha; [|by constructor].
  destruct (verify authority _ _) eqn:Hv; cbn [negb]; [|by constructor].
  destruct (control_at seen _ _); [apply judge_settled_effect|].
  unfold control_at. destruct (rt_controls t !! (rc_group r, u64_as_i64 (rc_epoch r))) eqn:Hn; [apply judge_settled_effect|].
  destruct (Z.ltb_spec (u64_as_i64 (rc_epoch r)) 0) as [|Hge]; cbn [orb]; [by constructor|].
  case_match; cbn [snd]; [by constructor|]. destruct (u64_as_i64_nonneg _ He Hge) as [Heq Hle]. rewrite Heq in *.
  eapply ce_settled; [done..|]. unfold is_u64 in He. lia.
Qed.

(** A manifest either settles the next number and claims all it names, or
    leaves the four tables and the claims alone. *)
Inductive manifest_effect (seen t : RetentionTables) (w : list byte) (m : RetentionManifest) (now : Z) :
    result RetentionStoreError ManifestOutcome → RetentionTables → Prop :=
| me_none res t' :
    (∀ d, res ≠ Ok (ManifestAccepted d)) →
    rt_controls t' = rt_controls t → rt_manifests t' = rt_manifests t → rt_policies t' = rt_policies t →
    rt_destructions t' = rt_destructions t → rt_media t' = rt_media t → rt_groups t' = rt_groups t →
    manifest_effect seen t w m now res t'
| me_settled media :
    judge_manifest seen m = Ok tt → rt_manifests t !! (rm_group m, rm_sequence m) = None →
    claim_all (rt_media t) w (rm_group m) (rm_blobs m) now = Some media →
    manifest_effect seen t w m now (Ok (ManifestAccepted (manifest_digest m)))
      (mkRetention (rt_groups t) (rt_controls t) (rt_conflicts t)
         (<[(rm_group m, rm_sequence m) := manifest_row m]> (rt_manifests t)) (rt_rejected t) (rt_policies t)
         (rt_destructions t) media).

Lemma reject_manifest_effect seen t w m now fault :
  manifest_effect seen t w m now (fst (reject_manifest t m fault)) (snd (reject_manifest t m fault)).
Proof. unfold reject_manifest. case_match; by constructor. Qed.

Lemma apply_manifest_effect seen t w m now :
  manifest_wf m →
  manifest_effect seen t w m now (fst (apply_manifest seen t w m now)) (snd (apply_manifest seen t w m now)).
Proof.
  intros (_ & _ & Hs & _). unfold apply_manifest. destruct (judge_manifest seen m) as [[]|fault] eqn:Hj; [|apply reject_manifest_effect].
  destruct (Z.ltb_spec (u64_as_i64 (rm_sequence m)) 1) as [|Hge]; cbn [orb]; [by constructor|].
  destruct (u64_as_i64_nonneg _ Hs ltac:(lia)) as [-> _].
  destruct (bool_decide_reflect (is_Some (rt_manifests t !! (rm_group m, rm_sequence m)))) as [|Hn]; cbn [orb]; [by constructor|].
  case_match; [by constructor|]. destruct (claim_all _ _ _ _ _) as [media|] eqn:Hc; [|apply reject_manifest_effect].
  cbn [fst snd]. constructor; [done|by apply eq_None_not_Some|done].
Qed.

Lemma claim_all_ok blobs t w g now t' : ledger_ok t → claim_all t w g blobs now = Some t' → ledger_ok t'.
Proof.
  revert t. induction blobs as [|h blobs IH]; intros t Hok; cbn [claim_all]; [by intros [= <-]|].
  pose proof (claim_in_ok t w g h now Hok) as Hc. destruct (claim_in t w g h now) as [[] t1]; cbn [snd] in Hc; [by apply IH..|done].
Qed.

(** A link outlives whatever is added beside it. *)
Lemma control_linked_mono t t' g e c : rt_controls t ⊆ rt_controls t' → control_linked t g e c → control_linked t' g e c.
Proof.
  intros Hs [Hg|(He & p & Hp & Hl)]; [by left|]. right. split; [done|]. exists p. split; [by eapply lookup_weaken|done].
Qed.
Lemma manifest_linked_mono t t' g s m :
  rt_controls t ⊆ rt_controls t' → rt_manifests t ⊆ rt_manifests t' → manifest_linked t g s m → manifest_linked t' g s m.
Proof.
  intros Hc Hm [Hl (c & Hk & Hv)]. split.
  - destruct Hl as [Hl|(Hs & p & Hp & Hl)]; [by left|]. right. split; [done|]. exists p. split; [by eapply lookup_weaken|done].
  - exists c. split; [by eapply lookup_weaken|done].
Qed.

Lemma authority_links seen t r authority :
  older seen t → 0 ≤ rc_epoch r ≤ I64_MAX → control_authority seen r = Ok authority →
  verify authority (control_signing_bytes r) (rc_sig r) = true → control_linked t (rc_group r) (rc_epoch r) (control_row r).
Proof.
  intros [Hsub _] He Ha Hv. unfold control_authority in Ha. unfold control_linked, signed_by.
  assert (row_control (rc_group r) (rc_epoch r) (control_row r) = r) as -> by (by destruct r).
  destruct (Z.eqb_spec (rc_epoch r) 0) as [Hz|Hnz].
  - left. destruct (rc_prev r) eqn:Hp; [done|]. injection Ha as <-. split_and!; [done| |done]. by destruct r.
  - right. split; [lia|]. unfold control_at in Ha. rewrite u64_as_i64_small in Ha by lia.
    destruct (rt_controls seen !! (rc_group r, rc_epoch r - 1)) as [p|] eqn:Hp; [|done]. exists p.
    destruct (rc_prev r) as [named|] eqn:Hprev; [|done]. case_bool_decide as Hd; [|done]. injection Ha as <-.
    split_and!; [by eapply lookup_weaken| |done]. destruct r; cbn in *. by rewrite Hprev, Hd.
Qed.

Lemma judged_manifest_links seen t m :
  older seen t → (∀ g s p, rt_manifests t !! (g, s) = Some p → 1 ≤ s) →
  rt_manifests t !! (rm_group m, rm_sequence m) = None → judge_manifest seen m = Ok tt →
  manifest_linked t (rm_group m) (rm_sequence m) (manifest_row m).
Proof.
  intros [Hcs Hms] Hpos Hnew Hj. unfold judge_manifest, latest_control in Hj.
  destruct (newest (rt_controls seen) (rm_group m)) as [[e c]|] eqn:Hc; [|done]. cbn in Hj.
  apply newest_Some in Hc as [Hc _].
  destruct (Z.eqb_spec (rm_epoch m) e) as [<-|]; [|done]. cbn [negb] in Hj.
  destruct (verify (ct_verifier c) _ _) eqn:Hv; [|done]. cbn [negb] in Hj.
  destruct (Z.eqb_spec (rm_sequence m) (next_sequence seen (rm_group m))) as [Hseq|]; [|done]. cbn [negb] in Hj.
  case_bool_decide as Hprev; [|done]. clear Hj. split.
  - unfold next_sequence, last_digest, latest_manifest in *. destruct (newest (rt_manifests seen) (rm_group m)) as [[s p]|] eqn:Hn.
    + apply newest_Some in Hn as [Hp _]. right. cbn in Hprev. replace (rm_sequence m - 1) with s by lia.
      pose proof (lookup_weaken _ _ _ _ Hp Hms) as Hp'. pose proof (Hpos _ _ _ Hp'). split; [unfold FIRST_MANIFEST_SEQUENCE; lia|]. by exists p.
    + left. cbn in Hprev. done.
  - exists c. split; [by eapply lookup_weaken|]. cbn [manifest_row mf_epoch mf_prev mf_blobs mf_sig]. by destruct m.
Qed.

(** What was agreed to stays agreed to. *)
Lemma policies_kept t t' :
  retention_ok t → workspaces_kept (rt_groups t) (rt_groups t') →
  ∀ g v p, rt_policies t !! (g, v) = Some p →
    rp_group p = g ∧ rp_version p = v ∧ POLICY_FLOOR_DAYS ≤ rp_media_after_days p
    ∧ group_consented t' g (policy_signing_bytes p) (rp_signatures p) (rp_not_before p).
Proof.
  intros Hok Hk g v p Hp. destruct (ro_policy _ Hok g v p Hp) as (? & ? & ? & Ha). split_and!; [done..|].
  by eapply group_consented_kept.
Qed.
Lemma destructions_kept t t' :
  retention_ok t → workspaces_kept (rt_groups t) (rt_groups t') →
  ∀ g k d x, rt_destructions t !! (g, k, d) = Some x →
    rx_group x = g ∧ from_utf8_lossy (rx_kind x) = k ∧ rx_target_digest x = d
    ∧ group_consented t' g (destruction_signing_bytes x) (rx_signatures x) (rx_not_before x).
Proof.
  intros Hok Hk g k d x Hx. destruct (ro_destruction _ Hok g k d x Hx) as (? & ? & ? & Ha). split_and!; [done..|].
  by eapply group_consented_kept.
Qed.
Lemma same_workspaces_kept gs : workspaces_kept gs gs.
Proof. intros g row Hg. by exists row. Qed.

(** The records of a state, given those of the state before and the rest kept. *)
Lemma retention_ok_keep t t' :
  retention_ok t → ledger_ok (rt_media t') →
  rt_controls t' = rt_controls t → rt_manifests t' = rt_manifests t → rt_policies t' = rt_policies t →
  rt_destructions t' = rt_destructions t → workspaces_kept (rt_groups t) (rt_groups t') → retention_ok t'.
Proof.
  intros Hok Hm Hc Hms Hp Hd Hk.
  split; [| |rewrite Hp; by eapply policies_kept|rewrite Hd; by eapply destructions_kept|done].
  - intros g e c Hx. rewrite Hc in Hx. destruct (ro_control _ Hok g e c Hx) as [He Hl]. split; [done|].
    eapply control_linked_mono; [|done]. by rewrite Hc.
  - intros g s m Hx. rewrite Hms in Hx. eapply manifest_linked_mono; [..|by apply (ro_manifest _ Hok)]; by rewrite ?Hc, ?Hms.
Qed.

Lemma retain_step_control seen t r :
  older seen t → control_wf r → retention_ok t →
  retention_ok (snd (apply_control seen t r)) ∧ keeps_records t (snd (apply_control seen t r)).
Proof.
  intros Hold Hwf Hok. pose proof (retain_step_kept _ _ (rs_control seen t r Hold Hwf)) as Hkept.
  destruct (apply_control_effect seen t r Hwf) as [t' Hc Hm Hp Hd Hmed|authority Ha Hv Hn He].
  { split; [eapply retention_ok_keep; rewrite ?Hmed; try done; apply (ro_media _ Hok)|].
    unfold keeps_records. rewrite Hc, Hm, Hp, Hd. by split_and!. }
  clear Hkept. assert (rt_controls t ⊆ <[(rc_group r, rc_epoch r) := control_row r]> (rt_controls t)) as Hsub by by apply insert_subseteq.
  split; [|by split_and!]. split; cbn [with_controls rt_controls rt_manifests rt_policies rt_destructions rt_media].
  - intros g e c [[Heq <-]|[_ Hx]]%lookup_insert_Some.
    + injection Heq as <- <-. split; [lia|]. eapply control_linked_mono; [exact Hsub|]. by eapply authority_links.
    + destruct (ro_control _ Hok g e c Hx) as [Hpos Hl]. split; [done|]. by eapply control_linked_mono.
  - intros g s m Hx. eapply manifest_linked_mono; [exact Hsub|done|by apply (ro_manifest _ Hok)].
  - apply (ro_policy _ Hok).
  - apply (ro_destruction _ Hok).
  - apply (ro_media _ Hok).
Qed.

Lemma manifest_positive t g s m : retention_ok t → rt_manifests t !! (g, s) = Some m → 1 ≤ s.
Proof.
  intros Hok Hm. destruct (ro_manifest _ Hok g s m Hm) as [[[-> _]|[Hs _]] _]; unfold FIRST_MANIFEST_SEQUENCE in *; lia.
Qed.

Lemma retain_step_manifest seen t w m now :
  older seen t → manifest_wf m → retention_ok t →
  retention_ok (snd (apply_manifest seen t w m now)) ∧ keeps_records t (snd (apply_manifest seen t w m now)).
Proof.
  intros Hold Hwf Hok. pose proof (retain_step_kept _ _ (rs_manifest seen t w m now Hold Hwf)) as Hkept.
  destruct (apply_manifest_effect seen t w m now Hwf) as [res t' _ Hc Hm Hp Hd Hmed _|media Hj Hn Hcl].
  { split; [eapply retention_ok_keep; rewrite ?Hmed; try done; apply (ro_media _ Hok)|].
    unfold keeps_records. rewrite Hc, Hm, Hp, Hd. by split_and!. }
  assert (rt_manifests t ⊆ <[(rm_group m, rm_sequence m) := manifest_row m]> (rt_manifests t)) as Hsub by by apply insert_subseteq.
  split; [|by split_and!]. split; cbn [rt_controls rt_manifests rt_policies rt_destructions rt_media].
  - apply (ro_control _ Hok).
  - intros g s x [[Heq <-]|[_ Hx]]%lookup_insert_Some.
    + injection Heq as <- <-. eapply (manifest_linked_mono t); [done|exact Hsub|].
      eapply judged_manifest_links; [done| |done|done]. intros g s p Hp. by eapply manifest_positive.
    + eapply (manifest_linked_mono t); [done|exact Hsub|by apply (ro_manifest _ Hok)].
  - apply (ro_policy _ Hok).
  - apply (ro_destruction _ Hok).
  - eapply claim_all_ok; [apply (ro_media _ Hok)|done].
Qed.

Lemma insert_policy_inv t p t' :
  policy_wf p → insert_policy t p = Ok t' →
  t' = with_policies t (<[(rp_group p, rp_version p) := p]> (rt_policies t))
  ∧ rt_policies t !! (rp_group p, rp_version p) = None ∧ POLICY_FLOOR_DAYS ≤ rp_media_after_days p ≤ I32_MAX
  ∧ rp_not_before p ≤ TIMESTAMP_MAX.
Proof.
  intros (_ & Hv & _) Hi. unfold insert_policy in Hi.
  destruct (Z.ltb_spec (u64_as_i64 (rp_version p)) 1) as [|Hge]; [done|]. cbn [orb] in Hi.
  destruct (u64_as_i64_nonneg _ Hv ltac:(lia)) as [Heq _]. rewrite Heq in Hi.
  destruct (Z.ltb_spec I32_MAX (rp_media_after_days p)); [done|]. cbn [orb] in Hi.
  destruct (Z.ltb_spec (rp_media_after_days p) POLICY_FLOOR_DAYS); [done|]. cbn [orb] in Hi.
  destruct (Z.ltb_spec TIMESTAMP_MAX (rp_not_before p)); [done|]. cbn [orb] in Hi.
  case_bool_decide as Hn; [done|]. cbn [orb] in Hi. case_match; [done|]. injection Hi as <-.
  split_and!; [done|by apply eq_None_not_Some|done|done|done].
Qed.

Lemma retain_step_policy t p t' m row :
  policy_wf p → history m → rt_groups t !! rp_group p = Some row →
  authorized_at m (g_workspace row) (policy_signing_bytes p) (rp_signatures p) (rp_not_before p) = true →
  insert_policy t p = Ok t' → retention_ok t → retention_ok t' ∧ keeps_records t t'.
Proof.
  intros Hwf Hm Hg Ha Hi Hok. apply insert_policy_inv in Hi as (-> & Hn & Hfl & _); [|done].
  split; [|split_and!; try done; by apply insert_subseteq].
  split; cbn [with_policies rt_controls rt_manifests rt_policies rt_destructions rt_media]; [apply (ro_control _ Hok)| | | |apply (ro_media _ Hok)].
  - intros g s x Hx. eapply (manifest_linked_mono t); [done..|by apply (ro_manifest _ Hok)].
  - intros g v x [[Heq <-]|[_ Hx]]%lookup_insert_Some; [|by apply (ro_policy _ Hok)]. injection Heq as <- <-.
    split_and!; [done|done|lia|]. exists row. split; [done|]. by eapply authorized_agreed_by.
  - apply (ro_destruction _ Hok).
Qed.

Lemma retain_step_destruction t x b t' m row :
  history m → rt_groups t !! rx_group x = Some row →
  authorized_at m (g_workspace row) (destruction_signing_bytes x) (rx_signatures x) (rx_not_before x) = true →
  insert_destruction t x = Ok (b, t') → retention_ok t → retention_ok t' ∧ keeps_records t t'.
Proof.
  intros Hm Hg Ha Hi Hok. unfold insert_destruction in Hi. case_match; [done|].
  destruct (rt_destructions t !! _) eqn:Hn; injection Hi as <- <-; [split; [done|apply keeps_records_refl]|].
  split; [|split_and!; try done; by apply insert_subseteq].
  split; cbn [with_destructions rt_controls rt_manifests rt_policies rt_destructions rt_media]; [apply (ro_control _ Hok)| | | |apply (ro_media _ Hok)].
  - intros g s y Hx. eapply (manifest_linked_mono t); [done..|by apply (ro_manifest _ Hok)].
  - apply (ro_policy _ Hok).
  - intros g k d y [[Heq <-]|[_ Hx]]%lookup_insert_Some; [|by apply (ro_destruction _ Hok)]. injection Heq as <- <- <-.
    split_and!; [done..|]. exists row. split; [done|]. by eapply authorized_agreed_by.
Qed.

Lemma retain_step_ok t t' : retain_step t t' → retention_ok t → retention_ok t' ∧ keeps_records t t'.
Proof.
  intros Hs Hok. pose proof (retain_step_kept _ _ Hs) as Hkept. destruct Hs.
  - by apply retain_step_control.
  - revert Hkept. unfold resolve_freeze. repeat case_match; cbn [snd]; intros Hkept;
      (split; [|apply keeps_records_refl || by split_and!]); try done.
    eapply retention_ok_keep; [done|apply (ro_media _ Hok)|done..].
  - by apply retain_step_manifest.
  - by eapply retain_step_policy.
  - by eapply retain_step_destruction.
  - split; [|by split_and!]. eapply retention_ok_keep; [done|by eapply mstep_ok, ro_media|done..].
  - split; [|by split_and!]. eapply retention_ok_keep; [done|apply (ro_media _ Hok)|done..].
Qed.

Definition no_retention : RetentionTables := mkRetention ∅ ∅ [] ∅ [] ∅ ∅ no_media.
Lemma no_retention_ok : retention_ok no_retention.
Proof.
  split; [intros g e c|intros g s m|intros g v p|intros g k d x|by apply reachable_media_ok]; cbn; by rewrite lookup_empty.
Qed.

Lemma retain_steps t t' : rtc retain_step t t' → retention_ok t → retention_ok t' ∧ keeps_records t t'.
Proof.
  induction 1 as [|a b c Hs _ IH]; intros Hok; [split; [done|apply keeps_records_refl]|].
  apply retain_step_ok in Hs as [Hok' (H1 & H2 & H3 & H4)]; [|done]. destruct (IH Hok') as [Hok'' (K1 & K2 & K3 & K4)].
  split; [done|]. split_and!; by etrans.
Qed.

Lemma retain_steps_kept t t' : rtc retain_step t t' → workspaces_kept (rt_groups t) (rt_groups t').
Proof.
  induction 1 as [|a b c Hs _ IH]; [apply same_workspaces_kept|]. intros g row Hg.
  destruct (retain_step_kept _ _ Hs g row Hg) as (row1 & Hg1 & Hw1). destruct (IH g row1 Hg1) as (row2 & Hg2 & Hw2).
  exists row2. split; [done|congruence].
Qed.

Lemma reachable_retention_ok t : rtc retain_step no_retention t → retention_ok t.
Proof. intros Hr. exact (proj1 (retain_steps _ _ Hr no_retention_ok)). Qed.

(** C20. The retention chain of a group is one chain. In every state that
    controls, conflicts, resolutions, manifests, policies and destructions
    reach, in any order and however their reads are overtaken: the controls run
    from epoch 0 without a gap, each later one signed by the verifier before it
    and naming that control's digest; the manifests run from number 1 without a
    gap, each naming the digest of the one before and signed by a verifier of
    the chain. *)
Theorem retention_chain_linked t g :
  rtc retain_step no_retention t →
  (∀ e c, rt_controls t !! (g, e) = Some c →
     control_linked t g e c ∧ ∀ e', 0 ≤ e' ≤ e → is_Some (rt_controls t !! (g, e')))
  ∧ (∀ s m, rt_manifests t !! (g, s) = Some m →
       manifest_linked t g s m ∧ ∀ s', FIRST_MANIFEST_SEQUENCE ≤ s' ≤ s → is_Some (rt_manifests t !! (g, s'))).
Proof.
  intros Hok%reachable_retention_ok. split.
  - intros e c Hc. destruct (ro_control _ Hok g e c Hc) as [Hpos Hl]. split; [done|]. clear Hl. intros e' He'.
    assert (∀ n : nat, ∀ e c, rt_controls t !! (g, e) = Some c → e = e' + Z.of_nat n → is_Some (rt_controls t !! (g, e'))) as Hdown.
    { induction n as [|n IH]; intros e1 c1 H1 Heq; [replace e' with e1 by lia; by exists c1|].
      destruct (ro_control _ Hok g e1 c1 H1) as [_ [[-> _]|(_ & p & Hp & _)]]; [lia|]. eapply IH; [exact Hp|lia]. }
    eapply (Hdown (Z.to_nat (e - e'))); [exact Hc|lia].
  - intros s m Hm. split; [by apply (ro_manifest _ Hok)|]. intros s' Hs'.
    assert (∀ n : nat, ∀ s m, rt_manifests t !! (g, s) = Some m → s = s' + Z.of_nat n → is_Some (rt_manifests t !! (g, s'))) as Hdown.
    { induction n as [|n IH]; intros s1 m1 H1 Heq; [replace s' with s1 by lia; by exists m1|].
      destruct (ro_manifest _ Hok g s1 m1 H1) as [[[-> _]|(_ & p & Hp & _)] _]; [lia|]. eapply IH; [exact Hp|lia]. }
    eapply (Hdown (Z.to_nat (s - s'))); [exact Hm|lia].
Qed.

(** What is settled stays settled: no later control, conflict, resolution,
    manifest, policy or destruction replaces or removes a control, a manifest,
    a policy or a destruction the relay has accepted. *)
Theorem settled_records_stay t t' :
  rtc retain_step no_retention t → rtc retain_step t t' → keeps_records t t'.
Proof. intros Hok%reachable_retention_ok Hs. exact (proj2 (retain_steps _ _ Hs Hok)). Qed.
End chain.

(** ** What a manifest claims *)
Section claims.
Context `{Blake3, Ed25519}.

Definition claimed_in (t : MediaTables) (w g h : list byte) : Prop :=
  ∃ i r, md_rows t !! i = Some r ∧ names_object w g h r ∧ unfinalized r = false.

(** What the lookup of the row in flight finds. *)
Lemma in_flight_found t w g h :
  match in_flight t w g h with
  | Some (i, r) => md_rows t !! i = Some r ∧ names_object w g h r ∧ unfinalized r = true
  | None => ∀ i r, md_rows t !! i = Some r → names_object w g h r → unfinalized r = true → False
  end.
Proof.
  unfold in_flight. destruct (filter _ (map_to_list (md_rows t))) as [|[i r] rest] eqn:Hl; cbn [list.head].
  - intros i r Hr Hn Hu. apply elem_of_map_to_list in Hr. apply (elem_of_nil (A:=KeyedRow) (i, r)).
    rewrite <- Hl. apply list_elem_of_filter. by split_and!.
  - assert ((i, r) ∈ filter (λ e : KeyedRow, names_object w g h e.2 ∧ unfinalized e.2 = true) (map_to_list (md_rows t))) as Hin
      by (rewrite Hl; apply list_elem_of_here).
    apply list_elem_of_filter in Hin as [[Hn Hu] Hin]. by apply elem_of_map_to_list in Hin.
Qed.

(** A claim finalizes a row or leaves the rows alone. *)
Lemma claim_in_rows t w g h now i r :
  md_rows t !! i = Some r →
  ∃ r', md_rows (snd (claim_in t w g h now)) !! i = Some r' ∧ names_object (b_workspace r) (b_group r) (b_hash r) r'
    ∧ b_bytes r' = b_bytes r ∧ (unfinalized r = false → r' = r) ∧ (names_object w g h r ∨ r' = r).
Proof.
  intros Hr. unfold claim_in. pose proof (in_flight_found t w g h) as Hc. destruct (in_flight t w g h) as [[j x]|].
  - destruct Hc as (Hx & Hn & Hu). cbn [snd]. rewrite (spend_rows false), (spend_rows true). cbn [with_rows md_rows].
    destruct (decide (j = i)) as [->|Hne].
    + rewrite lookup_insert_eq. rewrite Hr in Hx. injection Hx as ->.
      eexists. split_and!; [done|done|done|by rewrite Hu|by left].
    + rewrite lookup_insert_ne by done. exists r. split_and!; try done. by right.
  - cbn [snd]. exists r. split_and!; try done. by right.
Qed.

Lemma claimed_in_mono t w g h w' g' h' now : claimed_in t w g h → claimed_in (snd (claim_in t w' g' h' now)) w g h.
Proof.
  intros (i & r & Hr & Hn & Hu). destruct (claim_in_rows t w' g' h' now i r Hr) as (r' & Hr' & _ & _ & Hk & _).
  rewrite Hk in Hr' by done. by exists i, r.
Qed.

Lemma claim_in_claims t w g h now :
  fst (claim_in t w g h now) ≠ NoReservation → claimed_in (snd (claim_in t w g h now)) w g h.
Proof.
  unfold claim_in. pose proof (in_flight_found t w g h) as Hc. destruct (in_flight t w g h) as [[j x]|]; cbn [fst snd].
  - destruct Hc as (Hx & (<- & <- & <-) & _). intros _. unfold claimed_in. rewrite (spend_rows false), (spend_rows true).
    eexists j, _. split; [apply lookup_insert_eq|]. by split_and!.
  - case_bool_decide as Hf; [done|]. intros _.
    destruct (filter _ (map_to_list (md_rows t))) as [|[i r] rest] eqn:Hl; [done|]. clear Hf.
    assert ((i, r) ∈ filter (λ e : KeyedRow, names_object w g h e.2) (map_to_list (md_rows t))) as Hin by (rewrite Hl; apply list_elem_of_here).
    apply list_elem_of_filter in Hin as [Hn Hin]. apply elem_of_map_to_list in Hin. cbn in Hn. exists i, r.
    split_and!; [done|done|]. destruct (unfinalized r) eqn:Hu; [|done]. by destruct (Hc i r Hin Hn Hu).
Qed.

Lemma claim_all_claims blobs t w g now t' :
  claim_all t w g blobs now = Some t' →
  (∀ h, h ∈ blobs → claimed_in t' w g h) ∧ (∀ w' g' h, claimed_in t w' g' h → claimed_in t' w' g' h).
Proof.
  revert t. induction blobs as [|h blobs IH]; intros t; cbn [claim_all].
  - intros [= <-]. split; [|done]. intros h Hh. by apply elem_of_nil in Hh.
  - pose proof (claim_in_claims t w g h now) as Hh. pose proof (λ w' g' h', claimed_in_mono t w' g' h' w g h now) as Hm.
    destruct (claim_in t w g h now) as [out t1] eqn:Hc. cbn [fst snd] in Hh, Hm. intros Heq.
    assert (claim_all t1 w g blobs now = Some t' ∧ out ≠ NoReservation) as [Heq' Ho] by (by destruct out). clear Heq.
    destruct (IH t1 Heq') as [Hin Hk]. split; [|by auto].
    intros h' [->|Hl]%elem_of_cons; [by apply Hk, Hh|by apply Hin].
Qed.

Lemma claim_all_rows blobs t w g now t' i r :
  claim_all t w g blobs now = Some t' → md_rows t !! i = Some r →
  ∃ r', md_rows t' !! i = Some r' ∧ names_object (b_workspace r) (b_group r) (b_hash r) r' ∧ b_bytes r' = b_bytes r
    ∧ (r' = r ∨ (b_workspace r = w ∧ b_group r = g ∧ b_hash r ∈ blobs ∧ unfinalized r = true)).
Proof.
  revert t r. induction blobs as [|h blobs IH]; intros t r; cbn [claim_all].
  { intros [= <-] Hr. exists r. split_and!; try done. by left. }
  intros Heq Hr. destruct (claim_in_rows t w g h now i r Hr) as (r1 & Hr1 & (Hw1 & Hg1 & Hh1) & Hb1 & Hu1 & Ho1).
  destruct (claim_in t w g h now) as [out t1]. cbn [snd] in Hr1.
  assert (claim_all t1 w g blobs now = Some t') as Heq' by (by destruct out). clear Heq.
  destruct (IH t1 r1 Heq' Hr1) as (r2 & Hr2 & (Hw2 & Hg2 & Hh2) & Hb2 & Ho2). exists r2.
  split; [done|]. split; [unfold names_object; by split_and!; congruence|]. split; [congruence|].
  assert (r1 = r ∨ (b_workspace r = w ∧ b_group r = g ∧ b_hash r = h ∧ unfinalized r = true)) as Ho.
  { destruct Ho1 as [(?&?&?)|?]; [|by left]. destruct (unfinalized r) eqn:Hu; [by right|]. left. by apply Hu1. }
  destruct Ho as [->|(?&?&->&?)]; [|right; split_and!; try done; apply list_elem_of_here].
  destruct Ho2 as [->|(?&?&?&?)]; [by left|]. right. split_and!; try done. by apply list_elem_of_further.
Qed.

(** A manifest claims everything it names or nothing. Accepted, it leaves a
    finalized row for every hash it names, keeps the row of every object it does
    not name as it was, and leaves every length charged as reserved; refused, for
    whatever reason, it changes no row, no figure, no manifest and no freeze. *)
Theorem manifest_all_or_nothing seen t w m now :
  manifest_wf m →
  let '(res, t') := apply_manifest seen t w m now in
  (res = Ok (ManifestAccepted (manifest_digest m))
   ∧ rt_manifests t' = <[(rm_group m, rm_sequence m) := manifest_row m]> (rt_manifests t)
   ∧ (∀ h, h ∈ rm_blobs m → claimed_in (rt_media t') w (rm_group m) h)
   ∧ (∀ i r, md_rows (rt_media t) !! i = Some r →
        ∃ r', md_rows (rt_media t') !! i = Some r' ∧ b_bytes r' = b_bytes r
          ∧ (r' = r ∨ (b_workspace r = w ∧ b_group r = rm_group m ∧ b_hash r ∈ rm_blobs m ∧ unfinalized r = true))))
  ∨ ((∀ d, res ≠ Ok (ManifestAccepted d)) ∧ rt_media t' = rt_media t ∧ rt_manifests t' = rt_manifests t
     ∧ rt_groups t' = rt_groups t).
Proof.
  intros Hwf. pose proof (apply_manifest_effect seen t w m now Hwf) as He.
  destruct (apply_manifest seen t w m now) as [res t']. cbn [fst snd] in He.
  destruct He as [res t' Hr _ Hm _ _ Hmed Hg|media Hj Hn Hc]; [by right|left].
  cbn [rt_media rt_manifests]. split_and!; [done|done|by apply (claim_all_claims _ _ _ _ _ _ Hc)|].
  intros i r Hr. destruct (claim_all_rows _ _ _ _ _ _ i r Hc Hr) as (r' & ? & _ & ? & ?). by exists r'.
Qed.

End claims.

(** ** Concrete runs *)
Module RetentionDemo.
#[local] Instance retention_blake3 : Blake3 := poly_digest.
#[local] Instance retention_ed25519 : Ed25519 := toy_verify.

Definition grp : list byte := example_group.
Definition ws : list byte := example_ws.
Definition key (n : Byte.byte) : list byte := replicate 32 n.
Definition k0 : list byte := key Byte.x01.
Definition k1 : list byte := key Byte.x02.
Definition k2 : list byte := key Byte.x03.
Definition blob : list byte := key Byte.x0b.
Definition uuid : Uuid := [Byte.x05].

Definition sign_control (signer : list byte) (c : RetentionControl) : RetentionControl :=
  mkControl (rc_group c) (rc_epoch c) (rc_verifier c) (rc_prev c) (toy_sign signer (control_signing_bytes c)).
Definition control0 : RetentionControl := sign_control k0 (mkControl grp 0 k0 None []).
Definition control1 : RetentionControl := sign_control k0 (mkControl grp 1 k1 (Some (control_digest control0)) []).
Definition fork1 : RetentionControl := sign_control k0 (mkControl grp 1 k2 (Some (control_digest control0)) []).

Definition t0 : RetentionTables := with_groups no_retention {[ grp := mkGroupRow ws 1 false ]}.
Definition t1 : RetentionTables := snd (apply_control t0 t0 control0).
Definition t2 : RetentionTables := snd (apply_control t1 t1 control1).
Definition t3 : RetentionTables := snd (apply_control t2 t2 fork1).

(** The workspace's published set lists two authorizers. *)
Definition founders : AccessSet := make_set 0 (replicate 32 Byte.x00) [k0; k2] [phrase] None k0.
Definition founded : Db := db_of (publish (fresh_db example_salt) 0 founders (access_encode founders)).
Definition present : Moment := mkMoment (λ w, if bool_decide (w = ws) then founded else fresh_db []) 0.
Definition judged (m : Moment) : Prop := m = present.

Lemma older_refl t : older t t.
Proof. by split. Qed.
Lemma nothing_moves gs : workspaces_kept ∅ gs.
Proof. intros g row Hg. by rewrite lookup_empty in Hg. Qed.
Lemma control_step history t r : control_wf r → retain_step history t (snd (apply_control t t r)).
Proof. intros Hwf. apply rs_control; [apply older_refl|done]. Qed.
Ltac wf_concrete := repeat first [apply conj | apply Forall_cons | apply Forall_nil]; vm_compute; (done || lia || eauto).

Lemma t2_reachable : rtc (retain_step judged) no_retention t2.
Proof.
  eapply rtc_l; [apply (rs_groups judged no_retention {[ grp := mkGroupRow ws 1 false ]}), nothing_moves|].
  eapply rtc_l; [apply (control_step judged t0 control0); wf_concrete|].
  eapply rtc_l; [apply (control_step judged t1 control1); wf_concrete|]. apply rtc_refl.
Qed.

Lemma retention_chain_linked_witness : control_linked t2 grp 1 (control_row control1).
Proof. apply (proj1 (retention_chain_linked judged t2 grp t2_reachable) 1 (control_row control1)). by vm_compute. Defined.

Lemma t3_step : retain_step judged t2 t3.
Proof. apply (control_step judged t2 fork1); wf_concrete. Qed.

Lemma settled_records_stay_witness : keeps_records t2 t3.
Proof. exact (settled_records_stay judged t2 t3 t2_reachable (rtc_once _ _ t3_step)). Defined.

(** A fork stops more than collection: the freeze is the one [accept] reads, so
    from then on the group takes no message either. *)
Theorem conflict_stops_sends :
  fst (apply_control t2 t2 fork1) = Ok ConflictFroze
  ∧ is_ok (fst (accept example_config (mkStore (rt_groups t2) ∅ ∅) sent 9)) = true
  ∧ fst (accept example_config (mkStore (rt_groups t3) ∅ ∅) sent 9) = Err AcceptGroupFrozen.
Proof. by vm_compute. Qed.

Definition stored : RetentionTables :=
  mkRetention (rt_groups t2) (rt_controls t2) (rt_conflicts t2) (rt_manifests t2) (rt_rejected t2) (rt_policies t2) (rt_destructions t2)
    (snd (reserve (ensure_quota_row (rt_media t2) ws (Some 10)) ws grp blob 7 false 900 0 uuid)).
Definition manifest1 : RetentionManifest :=
  let m := mkManifest grp 1 1 None [blob] [] in mkManifest grp 1 1 None [blob] (toy_sign k1 (manifest_signing_bytes m)).
Definition claimed : RetentionTables := snd (apply_manifest stored stored ws manifest1 5).

Lemma manifest_all_or_nothing_witness : claimed_in (rt_media claimed) ws grp blob.
Proof.
  assert (manifest_wf manifest1) as Hwf by wf_concrete.
  pose proof (manifest_all_or_nothing stored stored ws manifest1 5 Hwf) as Hm.
  assert (fst (apply_manifest stored stored ws manifest1 5) = Ok (ManifestAccepted (manifest_digest manifest1))) as Hf by (by vm_compute).
  unfold claimed. destruct (apply_manifest stored stored ws manifest1 5) as [res t']. cbn [fst snd] in *.
  destruct Hm as [(_ & _ & Hb & _)|[Hn _]]; [apply Hb, list_elem_of_here|by destruct (Hn _ Hf)].
Defined.
End RetentionDemo.
