(* ===== verification/Storage.v ===== *)
(** * Object storage: [storage.rs] and the local blob routes of [media/http.rs]

    [BlobKey] is where an object lives. [BlobStore] is the trait: what is at a
    key, and the calls the rest of the relay makes, with [BlobStoreLaws], what
    the media components rely on of any backend. [Files] is the filesystem
    backend, every file under the root by its three path components, with the
    disk's refusals as a field; it is an instance of both. The bucket of the S3
    backend is a service and has no model of its own.

    The theorems: valid keys with one path are one key, a write or an assembly
    is whole or absent whatever the disk refuses, and a presigned token opens the
    object, the method and the expiry it was made for. *)

From Stdlib Require Import String.
From stdpp Require Import base tactics numbers gmap countable fin_maps sorting list.
From S2P Require Import Prelude Cbor Push Crypto InviteRecord.

Open Scope Z_scope.

(** ** Keys *)
Record BlobKey : Type := mkKey { k_workspace : list byte; k_group : list byte; k_hash : list byte }.

#[global] Instance BlobKey_eq_dec : EqDecision BlobKey.
Proof. solve_decision. Defined.
#[global] Instance BlobKey_countable : Countable BlobKey :=
  inj_countable' (λ k, (k_workspace k, k_group k, k_hash k)) (λ t, mkKey t.1.1 t.1.2 t.2) (λ '(mkKey _ _ _), eq_refl).

Inductive StorageError : Type :=
| InvalidKey (component : list byte)
| NotFound (key : list byte)
| Unreachable
| WriteFailed
| ReadFailed.

Definition is_transient (e : StorageError) : bool := match e with Unreachable => true | _ => false end.

Definition SLASH : byte := Byte.x2f.
Definition BACKSLASH : byte := Byte.x5c.
Definition DOT : byte := Byte.x2e.

(** [contains("..")]. *)
Fixpoint has_dots (component : list byte) : bool :=
  match component with
  | a :: (b :: _) as rest => (bool_decide (a = DOT) && bool_decide (b = DOT)) || has_dots rest
  | _ => false
  end.

Definition component_ok (component : list byte) : bool :=
  negb (bool_decide (component = []) || bool_decide (component = [DOT]) || bool_decide (SLASH ∈ component)
        || bool_decide (BACKSLASH ∈ component) || has_dots component).

Definition blob_key_new (workspace group hash : list byte) : result StorageError BlobKey :=
  match filter (λ component, component_ok component = false) [workspace; group; hash] with
  | component :: _ => Err (InvalidKey component)
  | [] => Ok (mkKey workspace group hash)
  end.

Definition blob_path (k : BlobKey) : list byte := k_workspace k ++ [SLASH] ++ k_group k ++ [SLASH] ++ k_hash k.

Record BlobEntry : Type := mkEntry { be_name : list byte; be_modified_ms : option Z }.

(** ** The trait *)
Class BlobStore (St : Type) : Type := {
  object : St → BlobKey → option Z;
  head_of : St → BlobKey → result StorageError (option Z);
  remove : St → BlobKey → result StorageError unit * St;
  list_entries : St → list byte → list byte → result StorageError (list BlobEntry);
  assemble : St → list BlobKey → BlobKey → result StorageError Z * St
}.

(** A name a client can address: the backends keep their temporaries apart. *)
Definition hidden (name : list byte) : bool := match name with c :: _ => bool_decide (c = DOT) | [] => false end.
Definition addressable (k : BlobKey) : Prop := hidden (k_hash k) = false.

(** What the callers rely on. *)
Class BlobStoreLaws (St : Type) `{BlobStore St} : Prop := {
  head_object s k o : head_of s k = Ok o → object s k = o;
  remove_gone s k s' : remove s k = (Ok tt, s') → object s' k = None;
  remove_other s k k' r s' : remove s k = (r, s') → k' ≠ k → object s' k' = object s k';
  remove_kept s k e s' : remove s k = (Err e, s') → object s' k = object s k;
  assemble_whole s parts target n s' :
    assemble s parts target = (Ok n, s') → addressable target →
    parts ≠ [] ∧ object s' target = Some n ∧ n = zsum (λ k, default 0 (object s k)) parts
    ∧ Forall (λ k, is_Some (object s k)) parts;
  assemble_refused s parts target e s' k :
    assemble s parts target = (Err e, s') → addressable k → object s' k = object s k;
  assemble_other s parts target n s' k :
    assemble s parts target = (Ok n, s') → addressable k → k ≠ target → object s' k = object s k
}.

(** [list]: the names without the times. *)
Definition list_names `{BlobStore St} (s : St) (workspace group : list byte) : result StorageError (list (list byte)) :=
  match list_entries s workspace group with Ok es => Ok (be_name <$> es) | Err e => Err e end.

(** ** The filesystem backend *)
Record File : Type := mkFile { f_bytes : list byte; f_modified_ms : option Z }.

(** Where a write is refused: at the directory, in the file after some bytes (or
    before it exists), or at the rename. *)
Inductive WriteFault : Type :=
| FaultDirectory
| FaultFile (written : option nat)
| FaultRename.

(** What the disk answers, call by call: a write's fault, whether a temporary
    can be removed, and the calls on a path it refuses outright. *)
Record Disk : Type := mkDisk {
  d_write : BlobKey → option WriteFault;
  d_stuck : BlobKey → bool;
  d_refuses : BlobKey → bool;
  d_refuses_dir : list byte → list byte → bool;
  d_now_ms : option Z
}.
Record Files : Type := mkFiles { fs_files : gmap BlobKey File; fs_disk : Disk }.

Definition with_files (s : Files) (fs : gmap BlobKey File) : Files := mkFiles fs (fs_disk s).
Definition len_of (f : File) : Z := Z.of_nat (length (f_bytes f)).

Definition temporary (key : BlobKey) (suffix : list byte) : BlobKey :=
  mkKey (k_workspace key) (k_group key) ([DOT] ++ k_hash key ++ suffix).
Definition PARTIAL : list byte := ascii_bytes ".partial"%string.
Definition ASSEMBLING : list byte := ascii_bytes ".assembling"%string.

(** [remove_file] of a temporary, its result ignored. *)
Definition drop_temporary (s : Files) (temp : BlobKey) : Files :=
  if d_stuck (fs_disk s) temp then s else with_files s (delete temp (fs_files s)).

(** The bytes written to a temporary beside the target, then renamed. *)
Definition write_and_rename (s : Files) (temp target : BlobKey) (bytes : list byte) : result StorageError unit * Files :=
  let now := d_now_ms (fs_disk s) in
  match d_write (fs_disk s) target with
  | Some FaultDirectory => (Err WriteFailed, s)
  | Some (FaultFile None) => (Err WriteFailed, drop_temporary s temp)
  | Some (FaultFile (Some n)) =>
      (Err WriteFailed, drop_temporary (with_files s (<[temp := mkFile (take n bytes) now]> (fs_files s))) temp)
  | Some FaultRename => (Err WriteFailed, drop_temporary (with_files s (<[temp := mkFile bytes now]> (fs_files s))) temp)
  | None => (Ok tt, with_files s (<[target := mkFile bytes now]> (delete temp (fs_files s))))
  end.

Definition fs_put (s : Files) (key : BlobKey) (bytes : list byte) : result StorageError unit * Files :=
  write_and_rename s (temporary key PARTIAL) key bytes.

Definition fs_get (s : Files) (key : BlobKey) : result StorageError (list byte) :=
  match fs_files s !! key with
  | None => Err (NotFound (blob_path key))
  | Some f => if d_refuses (fs_disk s) key then Err ReadFailed else Ok (f_bytes f)
  end.

Definition fs_head (s : Files) (key : BlobKey) : result StorageError (option Z) :=
  match fs_files s !! key with
  | None => Ok None
  | Some f => if d_refuses (fs_disk s) key then Err ReadFailed else Ok (Some (len_of f))
  end.

Definition fs_delete (s : Files) (key : BlobKey) : result StorageError unit * Files :=
  match fs_files s !! key with
  | None => (Ok tt, s)
  | Some _ => if d_refuses (fs_disk s) key then (Err WriteFailed, s) else (Ok tt, with_files s (delete key (fs_files s)))
  end.

(** [object_name] and [object_entries]: the temporaries left out, sorted. *)
Definition entry_le (a b : BlobEntry) : Prop := bytes_le (be_name a) (be_name b).
#[global] Instance entry_le_dec : RelDecision entry_le.
Proof. intros a b. unfold entry_le, bytes_le, bytes_lt. apply _. Defined.

Definition object_entries (s : Files) (workspace group : list byte) : list BlobEntry :=
  merge_sort entry_le
    (omap (λ e : BlobKey * File,
       if bool_decide (k_workspace e.1 = workspace) && bool_decide (k_group e.1 = group) && negb (hidden (k_hash e.1))
       then Some (mkEntry (k_hash e.1) (f_modified_ms e.2)) else None)
     (map_to_list (fs_files s))).
Definition fs_list_entries (s : Files) (workspace group : list byte) : result StorageError (list BlobEntry) :=
  if d_refuses_dir (fs_disk s) workspace group then Err ReadFailed else Ok (object_entries s workspace group).

(** The parts read one after the other. *)
Fixpoint read_parts (s : Files) (parts : list BlobKey) (out : list byte) : result bool (list byte) * list byte :=
  match parts with
  | [] => (Ok out, out)
  | part :: parts =>
      match fs_files s !! part with
      | None => (Err true, out)
      | Some f => if d_refuses (fs_disk s) part then (Err false, out) else read_parts s parts (out ++ f_bytes f)
      end
  end.

Definition fs_assemble (s : Files) (parts : list BlobKey) (target : BlobKey) : result StorageError Z * Files :=
  match parts with
  | [] => (Err (InvalidKey (ascii_bytes "an object cannot be assembled from no parts"%string)), s)
  | _ =>
      let temp := temporary target ASSEMBLING in
      match d_write (fs_disk s) target with
      | Some FaultDirectory => (Err WriteFailed, s)
      | Some (FaultFile None) => (Err WriteFailed, drop_temporary s temp)
      | fault =>
          match read_parts s parts [] with
          | (Err missing, out) =>
              (Err (if missing then NotFound (blob_path target) else WriteFailed),
               drop_temporary (with_files s (<[temp := mkFile out (d_now_ms (fs_disk s))]> (fs_files s))) temp)
          | (Ok bytes, _) =>
              match write_and_rename s temp target bytes with
              | (Ok _, s') => (Ok (Z.of_nat (length bytes)), s')
              | (Err e, s') => (Err e, s')
              end
          end
      end
  end.

#[global] Instance files_store : BlobStore Files := {
  object s k := len_of <$> fs_files s !! k;
  head_of := fs_head;
  remove := fs_delete;
  list_entries := fs_list_entries;
  assemble := fs_assemble
}.

(** ** The local routes *)
(** The keyed hash of the [blake3] crate, by key and message. *)
Class Blake3Keyed : Type := blake3_keyed : list byte → list byte → list byte.

Record Token : Type := mkToken { tk_exp : Z; tk_sig : list byte }.

Inductive Method : Type := METHOD_GET | METHOD_PUT.
Definition method_bytes (m : Method) : list byte :=
  match m with METHOD_GET => ascii_bytes "GET"%string | METHOD_PUT => ascii_bytes "PUT"%string end.

Inductive StatusCode : Type := OK_200 | BAD_REQUEST | FORBIDDEN | NOT_FOUND | SERVICE_UNAVAILABLE.

Section local_routes.
Context `{Blake3Keyed}.

Definition token_message (method : Method) (path : list byte) (expires_at : Z) : list byte :=
  ascii_bytes "weald local blob token v1"%string ++ method_bytes method ++ [Byte.x00] ++ path ++ be_bytes 8 expires_at.
Definition sign_token (secret : list byte) (method : Method) (path : list byte) (expires_at : Z) : list byte :=
  hex (blake3_keyed secret (token_message method path expires_at)).
Definition verify_token (secret : list byte) (method : Method) (path : list byte) (token : Token) (now_secs : Z) : bool :=
  if tk_exp token <? now_secs then false
  else bool_decide (sign_token secret method path (tk_exp token) = tk_sig token).

(** [part_key]. *)
Definition part_key (session_hex part_label : list byte) : option BlobKey :=
  match blob_key_new (ascii_bytes "_multipart"%string) session_hex (ascii_bytes "part-"%string ++ part_label) with
  | Ok key => Some key
  | Err _ => None
  end.

Definition put_status (r : result StorageError unit) : StatusCode :=
  match r with
  | Ok _ => OK_200
  | Err e => if is_transient e then SERVICE_UNAVAILABLE else BAD_REQUEST
  end.
Definition get_status (r : result StorageError (list byte)) : result StatusCode (list byte) :=
  match r with
  | Ok bytes => Ok bytes
  | Err (NotFound _) => Err NOT_FOUND
  | Err e => Err (if is_transient e then SERVICE_UNAVAILABLE else BAD_REQUEST)
  end.

(** The body both pairs of routes share, from the key on. *)
Definition put_at (secret : list byte) (s : option Files) (key : option BlobKey) (token : Token) (body : list byte)
    (now_secs : Z) : StatusCode * option Files :=
  match key with
  | None => (BAD_REQUEST, s)
  | Some key =>
      if negb (verify_token secret METHOD_PUT (blob_path key) token now_secs) then (FORBIDDEN, s)
      else match s with
           | None => (SERVICE_UNAVAILABLE, s)
           | Some fs => let '(r, fs') := fs_put fs key body in (put_status r, Some fs')
           end
  end.
Definition get_at (secret : list byte) (s : option Files) (key : option BlobKey) (token : Token) (now_secs : Z) :
    result StatusCode (list byte) :=
  match key with
  | None => Err BAD_REQUEST
  | Some key =>
      if negb (verify_token secret METHOD_GET (blob_path key) token now_secs) then Err FORBIDDEN
      else match s with None => Err SERVICE_UNAVAILABLE | Some fs => get_status (fs_get fs key) end
  end.

Definition key_of_path (workspace group hash : list byte) : option BlobKey :=
  match blob_key_new workspace group hash with Ok key => Some key | Err _ => None end.

Definition put_object secret s workspace group hash := put_at secret s (key_of_path workspace group hash).
Definition get_object secret s workspace group hash := get_at secret s (key_of_path workspace group hash).
Definition put_part secret s session part := put_at secret s (part_key session part).
Definition get_part secret s session part := get_at secret s (part_key session part).
End local_routes.

(** ** Keys and paths *)
Lemma blob_key_new_Ok w g h k :
  blob_key_new w g h = Ok k ↔
  k = mkKey w g h ∧ component_ok w = true ∧ component_ok g = true ∧ component_ok h = true.
Proof.
  unfold blob_key_new. rewrite !filter_cons, filter_nil.
  destruct (component_ok w), (component_ok g), (component_ok h); repeat case_decide; naive_solver.
Qed.

Lemma component_ok_no_slash c : component_ok c = true → SLASH ∉ c.
Proof.
  unfold component_ok. rewrite negb_true_iff, !orb_false_iff, !bool_decide_eq_false. tauto.
Qed.

Lemma no_slash_split a a' r r' : SLASH ∉ a → SLASH ∉ a' → a ++ SLASH :: r = a' ++ SLASH :: r' → a = a' ∧ r = r'.
Proof.
  revert a'. induction a as [|c a IH]; intros [|c' a'] Ha Ha' Heq; cbn in Heq; injection Heq.
  - by intros ->.
  - intros _ <-. destruct Ha'. apply list_elem_of_here.
  - intros _ ->. destruct Ha. apply list_elem_of_here.
  - intros Hr ->. destruct (IH a') as [-> ->]; [by intros ?; apply Ha, list_elem_of_further|
      by intros ?; apply Ha', list_elem_of_further|done|done].
Qed.

Lemma blob_path_inj w g h k w' g' h' k' :
  blob_key_new w g h = Ok k → blob_key_new w' g' h' = Ok k' → blob_path k = blob_path k' → k = k'.
Proof.
  intros (-> & Hw & Hg & _)%blob_key_new_Ok (-> & Hw' & Hg' & _)%blob_key_new_Ok. unfold blob_path. cbn.
  intros [-> Heq]%no_slash_split; [|by apply component_ok_no_slash..].
  apply no_slash_split in Heq as [-> ->]; [done|by apply component_ok_no_slash..].
Qed.

Lemma not_temporary k t suffix : addressable k → temporary t suffix ≠ k.
Proof. by intros Hk <-. Qed.

(** ** The filesystem backend keeps the contract *)
Lemma drop_temporary_lookup s temp k : k ≠ temp → fs_files (drop_temporary s temp) !! k = fs_files s !! k.
Proof. intros Hk. unfold drop_temporary. case_match; [done|]. cbn. by rewrite lookup_delete_ne. Qed.
Lemma with_temporary_lookup s temp f k :
  k ≠ temp → fs_files (with_files s (<[temp := f]> (fs_files s))) !! k = fs_files s !! k.
Proof. intros Hk. cbn. by rewrite lookup_insert_ne. Qed.

(** What a write leaves at every name but its temporary's. *)
Lemma write_and_rename_lookup s temp target bytes r s' k :
  write_and_rename s temp target bytes = (r, s') → k ≠ temp →
  fs_files s' !! k = if is_ok r && bool_decide (k = target) then Some (mkFile bytes (d_now_ms (fs_disk s))) else fs_files s !! k.
Proof.
  unfold write_and_rename. destruct (d_write (fs_disk s) target) as [[|[n|]|]|]; intros [= <- <-] Hk; cbn [is_ok andb];
    rewrite ?drop_temporary_lookup, ?with_temporary_lookup by done; [done..|].
  cbn. case_bool_decide as Hd; [subst; apply lookup_insert_eq|]. by rewrite lookup_insert_ne, lookup_delete_ne.
Qed.

Lemma read_parts_Ok s parts out bytes o :
  read_parts s parts out = (Ok bytes, o) →
  Forall (λ k, is_Some (fs_files s !! k)) parts
  ∧ Z.of_nat (length bytes) = Z.of_nat (length out) + zsum (λ k, default 0 (len_of <$> fs_files s !! k)) parts.
Proof.
  revert out. induction parts as [|k parts IH]; intros out; cbn [read_parts].
  - intros [= <- _]. split; [constructor|cbn; lia].
  - destruct (fs_files s !! k) as [f|] eqn:Hf; [|done]. case_match; [done|]. intros [Hall Hlen]%IH.
    split; [constructor; [by rewrite Hf|done]|]. rewrite zsum_cons, Hf. change (default 0 (len_of <$> Some f)) with (len_of f). unfold len_of at 1.
    rewrite length_app in Hlen. lia.
Qed.

#[global] Instance files_store_laws : BlobStoreLaws Files.
Proof.
  split; cbn.
  - intros s k o. unfold fs_head. destruct (fs_files s !! k); [case_match; [done|]|]; by intros [= <-].
  - intros s k s'. unfold fs_delete. destruct (fs_files s !! k) eqn:Hk; [case_match; [done|]|]; intros [= <-]; cbn; [by rewrite lookup_delete_eq|by rewrite Hk].
  - intros s k k' r s'. unfold fs_delete. destruct (fs_files s !! k) eqn:Hk; [case_match|]; intros [= <- <-] Hne; cbn; rewrite ?lookup_delete_ne; done.
  - intros s k e s'. unfold fs_delete. destruct (fs_files s !! k) eqn:Hk; [case_match|]; intros ?; simplify_eq; by rewrite Hk.
  - intros s parts target n s' Ha Htarget. unfold fs_assemble in Ha. destruct parts as [|p ps]; [done|].
    assert (target ≠ temporary target ASSEMBLING) as Hne by (intros Heq; by eapply not_temporary).
    destruct (read_parts s (p :: ps) []) as [[bytes|missing] out] eqn:Hr.
    2: { by destruct (d_write (fs_disk s) target) as [[|[]|]|]. }
    destruct (write_and_rename _ _ _ _) as [[[]|e] s1] eqn:Hw.
    2: { by destruct (d_write (fs_disk s) target) as [[|[]|]|]. }
    assert (n = Z.of_nat (length bytes) ∧ s1 = s') as [-> ->] by (by destruct (d_write (fs_disk s) target) as [[|[]|]|]; simplify_eq).
    apply (write_and_rename_lookup _ _ _ _ _ _ target) in Hw; [|done]. rewrite bool_decide_true in Hw by done. cbn in Hw.
    apply read_parts_Ok in Hr as [Hall Hlen]. cbn [length] in Hlen. split_and!; [done|by rewrite Hw|lia|].
    eapply Forall_impl; [exact Hall|]. intros k [f Hf]. cbn in *. rewrite Hf. by eexists.
  - intros s parts target e s' k Ha Hk. unfold fs_assemble in Ha. destruct parts as [|p ps]; [by injection Ha as <- <-|].
    assert (k ≠ temporary target ASSEMBLING) as Hne by (intros Heq; by eapply not_temporary).
    f_equal. destruct (read_parts s (p :: ps) []) as [[bytes|missing] out] eqn:Hr.
    + destruct (write_and_rename _ _ _ _) as [[[]|e1] s1] eqn:Hw;
        [destruct (d_write (fs_disk s) target) as [[|[]|]|]; simplify_eq; by rewrite ?drop_temporary_lookup|].
      apply (write_and_rename_lookup _ _ _ _ _ _ k) in Hw; [|done]. cbn in Hw.
      destruct (d_write (fs_disk s) target) as [[|[]|]|]; simplify_eq; by rewrite ?drop_temporary_lookup.
    + destruct (d_write (fs_disk s) target) as [[|[]|]|]; simplify_eq; rewrite ?drop_temporary_lookup, ?with_temporary_lookup; done.
  - intros s parts target n s' k Ha Hk Hne. unfold fs_assemble in Ha. destruct parts as [|p ps]; [done|].
    assert (k ≠ temporary target ASSEMBLING) as Ht by (intros Heq; by eapply not_temporary).
    destruct (read_parts s (p :: ps) []) as [[bytes|missing] out] eqn:Hr; [|by destruct (d_write (fs_disk s) target) as [[|[]|]|]].
    destruct (write_and_rename _ _ _ _) as [[[]|e1] s1] eqn:Hw; [|by destruct (d_write (fs_disk s) target) as [[|[]|]|]].
    assert (s1 = s') as -> by (by destruct (d_write (fs_disk s) target) as [[|[]|]|]; simplify_eq).
    apply (write_and_rename_lookup _ _ _ _ _ _ k) in Hw; [|done]. by rewrite bool_decide_false, andb_false_r in Hw by done; rewrite Hw.
Qed.

Fixpoint parts_bytes (s : Files) (parts : list BlobKey) : list byte :=
  match parts with
  | [] => []
  | k :: parts => default [] (f_bytes <$> fs_files s !! k) ++ parts_bytes s parts
  end.

Lemma read_parts_bytes s parts out bytes o :
  read_parts s parts out = (Ok bytes, o) → bytes = out ++ parts_bytes s parts.
Proof.
  revert out. induction parts as [|k parts IH]; intros out; cbn [read_parts parts_bytes]; [intros [= <- _]; by rewrite app_nil_r|].
  destruct (fs_files s !! k) as [f|]; [|done]. case_match; [done|]. intros ->%IH. by rewrite <- app_assoc.
Qed.

(** An object is whole or absent. Whatever the disk refuses, at the directory,
    part way through the bytes, at the rename or when a temporary is cleaned up,
    a write that is answered leaves exactly its bytes and one that fails leaves
    the name as it was; an assembly leaves the parts' bytes in the order given,
    or the name as it was; no other name a client can address changes, and no
    listing shows a temporary. *)
Theorem object_whole_or_absent s key bytes parts :
  addressable key →
  (let '(r, s') := fs_put s key bytes in
   (∀ k, addressable k → k ≠ key ∨ is_ok r = false → fs_files s' !! k = fs_files s !! k)
   ∧ (is_ok r = true → f_bytes <$> fs_files s' !! key = Some bytes))
  ∧ (let '(r, s') := fs_assemble s parts key in
     (∀ k, addressable k → k ≠ key ∨ is_ok r = false → fs_files s' !! k = fs_files s !! k)
     ∧ (is_ok r = true → f_bytes <$> fs_files s' !! key = Some (parts_bytes s parts)))
  ∧ Forall (λ e, hidden (be_name e) = false) (object_entries s (k_workspace key) (k_group key)).
Proof.
  intros Hkey. split_and!.
  - destruct (fs_put s key bytes) as [r s'] eqn:Hp. unfold fs_put in Hp. split.
    + intros k Hk Ho. rewrite (write_and_rename_lookup _ _ _ _ _ _ k Hp) by (intros Heq; by eapply not_temporary).
      destruct Ho as [Hne| ->]; [by rewrite bool_decide_false, andb_false_r|done].
    + intros Hr. rewrite (write_and_rename_lookup _ _ _ _ _ _ key Hp) by (intros Heq; by eapply not_temporary).
      by rewrite Hr, bool_decide_true.
  - assert (∀ k, addressable k → k ≠ temporary key ASSEMBLING) as Ht by (intros k Hk Heq; by eapply not_temporary).
    unfold fs_assemble. destruct parts as [|p ps]; [done|].
    destruct (read_parts s (p :: ps) []) as [[out|missing] out'] eqn:Hr.
    + apply read_parts_bytes in Hr as ->. rewrite app_nil_l.
      destruct (write_and_rename _ _ _ _) as [r s1] eqn:Hw.
      pose proof (λ k Hk, write_and_rename_lookup _ _ _ _ _ _ k Hw (Ht k Hk)) as Hl.
      destruct (d_write (fs_disk s) key) as [[|[]|]|]; try (split; [intros k Hk _; rewrite ?drop_temporary_lookup by auto; done|done]).
      all: destruct r as [[]|e]; cbn [is_ok andb] in Hl |- *; split; try done.
      all: first [intros k Hk [Hne|Ho]; [rewrite Hl by done; by rewrite ?bool_decide_false|try done; by rewrite Hl]
                 |intros _; rewrite Hl by done; by rewrite bool_decide_true].
    + destruct (d_write (fs_disk s) key) as [[|[]|]|]; (split; [intros k Hk _|done]);
        rewrite ?drop_temporary_lookup, ?with_temporary_lookup by auto; done.
  - apply Forall_forall. intros e He. unfold object_entries in He. rewrite merge_sort_Permutation in He.
    apply list_elem_of_omap in He as ([k f] & _ & Hf). cbn in Hf.
    destruct (hidden (k_hash k)) eqn:Hh; [by rewrite andb_false_r in Hf|]. by case_match; simplify_eq.
Qed.

(** ** Tokens *)
Lemma hex_digit_inj a b : 0 ≤ a < 16 → 0 ≤ b < 16 → hex_digit a = hex_digit b → a = b.
Proof.
  intros Ha Hb Heq. apply (f_equal byte_to_Z) in Heq. unfold hex_digit in Heq.
  destruct (Z.ltb_spec a 10), (Z.ltb_spec b 10);
    rewrite !byte_to_Z_of_Z_small in Heq by lia; lia.
Qed.

Lemma hex_inj a b : hex a = hex b → a = b.
Proof.
  revert b. induction a as [|x a IH]; intros [|y b]; cbn; try done. intros [= Hh Hl Hr]. f_equal; [|by apply IH].
  pose proof (byte_to_Z_range x). pose proof (byte_to_Z_range y).
  apply hex_digit_inj in Hh, Hl; try (apply Z.mod_pos_bound; lia); try (split; [apply Z.div_pos; lia|apply Z.div_lt_upper_bound; lia]).
  apply byte_to_Z_inj. rewrite (Z.div_mod (byte_to_Z x) 16), (Z.div_mod (byte_to_Z y) 16) by lia. by rewrite Hh, Hl.
Qed.

Lemma token_message_inj m p e m' p' e' :
  is_u64 e → is_u64 e' → token_message m p e = token_message m' p' e' → m = m' ∧ p = p' ∧ e = e'.
Proof.
  intros He He' Heq. unfold token_message in Heq. apply app_inv_head in Heq.
  apply app_inj_1 in Heq as [Hm Heq]; [|by destruct m, m']. assert (m = m') as -> by (by destruct m, m').
  apply app_inv_head in Heq. apply app_inj_2 in Heq as [-> Hb]; [|by rewrite !length_be_bytes].
  split_and!; [done..|]. apply (f_equal be_value) in Hb. unfold is_u64, U64_MAX in *. by rewrite !be_value_bytes_small in Hb by (cbn; lia).
Qed.

(** A token opens what it was made for. When the local route answers a write,
    the token's signature, if it was made by the relay for any key, method and
    expiry, was made for this object, for writing, and for the expiry presented,
    which is not past, and the object is the body; or two messages share a keyed
    digest. *)
Theorem token_opens_one_object `{Blake3Keyed} secret s w g h token body now s' w' g' h' key method exp :
  put_object secret (Some s) w g h token body now = (OK_200, Some s') →
  blob_key_new w' g' h' = Ok key → tk_sig token = sign_token secret method (blob_path key) exp →
  is_u64 exp → is_u64 (tk_exp token) →
  (key = mkKey w g h ∧ method = METHOD_PUT ∧ tk_exp token = exp ∧ now ≤ exp
   ∧ (addressable key → f_bytes <$> fs_files s' !! key = Some body))
  ∨ ∃ a b, a ≠ b ∧ blake3_keyed secret a = blake3_keyed secret b.
Proof.
  intros Hput Hk Hsig He Ht. unfold put_object, put_at, key_of_path in Hput.
  destruct (blob_key_new w g h) as [k|] eqn:Hn; [|done].
  destruct (verify_token _ _ _ _ _) eqn:Hv; [|done]. cbn [negb] in Hput.
  destruct (fs_put s k body) as [r s1] eqn:Hp. injection Hput as Hr <-.
  unfold verify_token in Hv. destruct (Z.ltb_spec (tk_exp token) now); [done|]. apply bool_decide_eq_true in Hv.
  rewrite Hsig in Hv. unfold sign_token in Hv. apply hex_inj in Hv.
  destruct (decide (token_message METHOD_PUT (blob_path k) (tk_exp token) = token_message method (blob_path key) exp)) as [Heq|Hne];
    [left|right; by eexists _, _].
  apply token_message_inj in Heq as (<- & Hpath & <-); [|done..]. apply (blob_path_inj _ _ _ _ _ _ _ _ Hn Hk) in Hpath as <-.
  pose proof Hn as Hn'. apply blob_key_new_Ok in Hn' as [-> _]. split_and!; [done..|]. intros Ha.
  rewrite (write_and_rename_lookup _ _ _ _ _ _ _ Hp) by (intros Heq; by eapply not_temporary).
  destruct r as [[]|e]; [by rewrite bool_decide_true|]. cbn in Hr. by destruct (is_transient e).
Qed.

(** ** A concrete run *)
Module StorageDemo.
Definition quiet : Disk := mkDisk (λ _, None) (λ _, false) (λ _, false) (λ _ _, false) (Some 7).
Definition ws : list byte := ascii_bytes "ws"%string.
Definition grp : list byte := ascii_bytes "aa"%string.
Definition obj : list byte := ascii_bytes "0b"%string.
Definition empty : Files := mkFiles ∅ quiet.
Definition keyed : Blake3Keyed := λ key message, poly_digest (key ++ message).
#[local] Existing Instance keyed.
Definition secret : list byte := [Byte.x01].
Definition token : Token := mkToken 900 (sign_token secret METHOD_PUT (blob_path (mkKey ws grp obj)) 900).
Definition stored : Files := mkFiles {[ mkKey ws grp obj := mkFile [Byte.x05] (Some 7) ]} quiet.

Lemma object_whole_or_absent_witness :
  f_bytes <$> fs_files (snd (fs_put empty (mkKey ws grp obj) [Byte.x05])) !! mkKey ws grp obj = Some [Byte.x05].
Proof.
  pose proof (object_whole_or_absent empty (mkKey ws grp obj) [Byte.x05] [] eq_refl) as [Hp _].
  destruct (fs_put empty (mkKey ws grp obj) [Byte.x05]) as [r s'] eqn:Hf. destruct Hp as [_ Hp]. apply Hp.
  assert (r = fst (fs_put empty (mkKey ws grp obj) [Byte.x05])) as -> by (by rewrite Hf). by vm_compute.
Defined.

Lemma token_opens_one_object_witness :
  (mkKey ws grp obj = mkKey ws grp obj ∧ METHOD_PUT = METHOD_PUT ∧ tk_exp token = 900 ∧ 10 ≤ 900
   ∧ (addressable (mkKey ws grp obj) → f_bytes <$> fs_files stored !! mkKey ws grp obj = Some [Byte.x05]))
  ∨ ∃ a b, a ≠ b ∧ blake3_keyed secret a = blake3_keyed secret b.
Proof.
  apply (token_opens_one_object secret empty ws grp obj token [Byte.x05] 10 stored ws grp obj (mkKey ws grp obj) METHOD_PUT 900);
    by vm_compute.
Defined.
End StorageDemo.
