(* ===== verification/MediaGc.v ===== *)
(** * The media collectors: [media/gc.rs], [media/restore.rs] and the media half of [janitor.rs]

    What deletes objects: the collector of unclaimed uploads, the sweep of
    objects no row names, the retention collector, and the sweep of abandoned
    multipart parts, composed into one pass as the janitor composes them. The
    store is any [BlobStore]; a database call that fails, a row another
    transaction holds and a commit that is lost are arguments. The restore marker
    is [option Z], the one row of its table. The run log is not modelled.

    The theorems: a retention deletion has both authorities, an object the latest
    manifest names survives a whole pass whatever fails in it, and a marker of
    [n] passes suppresses exactly the next [n] listings. *)

From Stdlib Require Import String.
From stdpp Require Import base tactics numbers gmap countable fin_maps functions relations sorting list.
From S2P Require Import Prelude Cbor Push Frame Crypto Access AccessChain Envelope Accept InviteRecord MediaWire MediaStore Retention Storage.

Open Scope Z_scope.

Definition UNCLAIMED_GRACE_SECONDS : Z := 24 * 60 * 60.
Definition MEDIA_GRACE_FLOOR_DAYS : Z := 30.
Definition DAY_MS : Z := 24 * 60 * 60 * 1000.

Definition u64_saturating_mul (a b : Z) : Z := Z.min (a * b) U64_MAX.

(** [format!("{n}")] of an unsigned integer; twenty digits hold a [u64]. *)
Fixpoint decimal_go (fuel : nat) (n : Z) (acc : list byte) : list byte :=
  match fuel with
  | O => acc
  | S fuel =>
      let acc := byte_of_Z (48 + n mod 10) :: acc in
      if n / 10 =? 0 then acc else decimal_go fuel (n / 10) acc
  end.
Definition decimal (n : Z) : list byte := decimal_go 20 n [].

Definition object_key (workspace group hash : list byte) : result StorageError BlobKey :=
  blob_key_new workspace (hex group) (hex hash).
Definition MULTIPART : list byte := ascii_bytes "_multipart"%string.
Definition own_part_key (session : Uuid) (part_number : Z) : BlobKey :=
  mkKey MULTIPART (hex session) (ascii_bytes "part-"%string ++ decimal part_number).
(** [part_number as u32] of the column. *)
Definition part_key_for (session : Uuid) (part_number : Z) : BlobKey :=
  own_part_key session (part_number mod 4294967296).

Record Report : Type := mkReport { rp_examined : Z; rp_deleted : Z; rp_deleted_bytes : Z }.
Definition no_report : Report := mkReport 0 0 0.
Definition examined (r : Report) : Report := mkReport (rp_examined r + 1) (rp_deleted r) (rp_deleted_bytes r).
Definition collected (r : Report) (bytes : Z) : Report :=
  mkReport (rp_examined r) (rp_deleted r + 1) (rp_deleted_bytes r + bytes).

(** What may go wrong in the database, list by list and row by row. *)
Inductive ListCall : Type :=
| ListSessions
| ListScopes
| ListStale (workspace : list byte)
| ListKnown (workspace group : list byte)
| ListFinalized (workspace group : list byte).
Record Weather : Type := mkWeather {
  we_lists : ListCall → bool;
  we_locked : Uuid → bool;
  we_reads : Uuid → bool;
  we_commits : Uuid → bool;
  we_aborts : Uuid → bool
}.

(** ** The restore marker *)
Definition marker_set (passes : Z) : option Z := Some (Z.max passes 0).
Definition marker_remaining (marker : option Z) : option Z :=
  match marker with Some passes => if 0 <? passes then Some passes else None | None => None end.
Definition marker_suppressed (marker : option Z) (reads : bool) : bool :=
  if reads then is_set (marker_remaining marker) else true.
(** [None] when there was nothing to spend; a marker that cannot be read
    suppresses and is not spent, and one that cannot be written keeps its count. *)
Definition consume_one (marker : option Z) (reads writes : bool) : option Z * option Z :=
  if reads then
    match marker_remaining marker with
    | None => (None, marker)
    | Some before =>
        (Some before, if writes then (if before <=? 1 then None else Some (before - 1)) else marker)
    end
  else (Some (-1), marker).

Section collectors.
Context {St : Type} `{!BlobStore St}.

Inductive Cleared : Type := Gone | Kept.
Definition clear_object (s : St) (key : BlobKey) : Cleared * St :=
  match remove s key with (Ok _, s') => (Gone, s') | (Err _, s') => (Kept, s') end.

(** ** Unclaimed uploads *)
(** One row of the list, in its own transaction. *)
Definition collect_unclaimed (we : Weather) (workspace : list byte) (grace now : Z)
    (acc : Report * MediaTables * St) (e : KeyedRow) : Report * MediaTables * St :=
  let '(report, t, s) := acc in
  if negb (bool_decide (b_workspace e.2 = workspace)) then acc
  else
    let report := examined report in
    match object_key workspace (b_group e.2) (b_hash e.2) with
    | Err _ => (report, t, s)
    | Ok key =>
        if negb (lock_unclaimed t workspace e.1 grace now (we_locked we e.1)) then (report, t, s)
        else
          match clear_object s key with
          | (Kept, s) => (report, t, s)
          | (Gone, s) =>
              match release_in t workspace e.1 with
              | (Some bytes, t') => if we_commits we e.1 then (collected report bytes, t', s) else (report, t, s)
              | (None, _) => (report, t, s)
              end
          end
    end.
(** [seen] is what the list was read from; [t] what the rows are now. *)
Definition sweep_unclaimed_after (we : Weather) (seen t : MediaTables) (s : St) (workspace : list byte) (now grace : Z) :
    Report * MediaTables * St :=
  if we_lists we (ListStale workspace)
  then fold_left (collect_unclaimed we workspace grace now) (stale_unclaimed seen grace now) (no_report, t, s)
  else (no_report, t, s).

(** ** Objects no row names *)
Definition old_enough (floor_ms now_ms : Z) (entry : BlobEntry) : bool :=
  if 0 <? floor_ms then
    match be_modified_ms entry with
    | Some modified => floor_ms <=? u64_saturating_sub now_ms modified
    | None => false
    end
  else true.
Definition collect_unreferenced (workspace group : list byte) (known : list (list byte)) (floor_ms now_ms : Z)
    (acc : Report * St) (entry : BlobEntry) : Report * St :=
  let '(report, s) := acc in
  let report := examined report in
  if contains known (be_name entry) then (report, s)
  else if negb (old_enough floor_ms now_ms entry) then (report, s)
  else
    match blob_key_new workspace (hex group) (be_name entry) with
    | Err _ => (report, s)
    | Ok key =>
        let size := match head_of s key with Ok (Some n) => n | _ => 0 end in
        match clear_object s key with
        | (Gone, s) => (collected report size, s)
        | (Kept, s) => (report, s)
        end
    end.
Definition sweep_unreferenced_storage (we : Weather) (suppressed : bool) (t : MediaTables) (s : St)
    (workspace group : list byte) (now_ms min_age_seconds : Z) : Report * St :=
  if suppressed then (no_report, s)
  else
    match list_entries s workspace (hex group) with
    | Err _ => (no_report, s)
    | Ok listed =>
        if we_lists we (ListKnown workspace group)
        then fold_left (collect_unreferenced workspace group (hex <$> claimed_hashes t workspace group)
               (u64_saturating_mul min_age_seconds 1000) now_ms) listed (no_report, s)
        else (no_report, s)
    end.

(** ** Retention *)
Inductive Eligibility : Type := Live | Frozen | NotYetDue | Eligible.

Definition BLOB_KIND : list byte := ascii_bytes "blob"%string.
Definition eligible (t : RetentionTables) (group hash : list byte) (claimed_at_ms now_ms : Z) : Eligibility :=
  if is_frozen t group then Frozen
  else if match latest_manifest t group with Some (_, m) => contains (mf_blobs m) hash | None => false end then Live
  else
    match active_destruction t group BLOB_KIND hash with
    | Some x => if u64_saturating_mul (rx_not_before x) 1000 <=? now_ms then Eligible else NotYetDue
    | None =>
        match active_policy t group with
        | None => NotYetDue
        | Some p =>
            let grace_days := Z.max (rp_media_after_days p) MEDIA_GRACE_FLOOR_DAYS in
            let due_at := u64_saturating_add claimed_at_ms (grace_days * DAY_MS) in
            if (due_at <=? now_ms) && (u64_saturating_mul (rp_not_before p) 1000 <=? now_ms) then Eligible else NotYetDue
        end
    end.

(** One row: the verdict is read from [seen], the deletion written to the tables
    as they are by then. *)
Definition collect_due (we : Weather) (seen : RetentionTables) (workspace group : list byte) (now_ms : Z)
    (acc : Report * MediaTables * St) (row : ClaimedBlob) : Report * MediaTables * St :=
  let '(report, t, s) := acc in
  let report := examined report in
  if negb (we_reads we (cb_id row)) then (report, t, s)
  else
    match eligible seen group (cb_hash row) (cb_claimed_at_ms row) now_ms with
    | Eligible =>
        match object_key workspace group (cb_hash row) with
        | Err _ => (report, t, s)
        | Ok key =>
            match clear_object s key with
            | (Kept, s) => (report, t, s)
            | (Gone, s) =>
                if we_commits we (cb_id row)
                then (collected report (cb_bytes row), finish_deletion t workspace (cb_id row), s)
                else (report, t, s)
            end
        end
    | _ => (report, t, s)
    end.
Definition sweep_retention (we : Weather) (seen : RetentionTables) (t : MediaTables) (s : St) (workspace group : list byte)
    (now_ms : Z) : Report * MediaTables * St :=
  if we_lists we (ListFinalized workspace group)
  then fold_left (collect_due we seen workspace group now_ms) (finalized_reservations (rt_media seen) workspace group)
         (no_report, t, s)
  else (no_report, t, s).

(** ** Abandoned parts *)
Definition delete_parts (session : Uuid) (acc : bool * St) (part_number : Z) : bool * St :=
  match remove acc.2 (part_key_for session part_number) with
  | (Ok _, s) => (acc.1, s)
  | (Err _, s) => (false, s)
  end.
Definition sweep_session (we : Weather) (now : Z) (acc : Z * MediaTables * St) (session : Uuid) : Z * MediaTables * St :=
  let '(aborted, t, s) := acc in
  if negb (we_reads we session) then acc
  else
    match fold_left (delete_parts session) (recorded_parts t session) (true, s) with
    | (false, s) => (aborted, t, s)
    | (true, s) =>
        if negb (we_commits we session) then (aborted, t, s)
        else
          let t := forget_recorded_parts t session in
          if we_aborts we session then (aborted + 1, abort_multipart t session now, s) else (aborted, t, s)
    end.
Definition sweep_multipart (we : Weather) (t : MediaTables) (s : St) (now : Z) : Z * MediaTables * St :=
  match stale_multipart_sessions t now with
  | Ok sessions => if we_lists we ListSessions then fold_left (sweep_session we now) (fst <$> sessions) (0, t, s) else (0, t, s)
  | Err _ => (0, t, s)
  end.

(** ** The pass *)
Definition scope_of (r : ReservationRow) : list byte * list byte := (b_workspace r, b_group r).
Definition scope_le (a b : list byte * list byte) : Prop :=
  bytes_lt a.1 b.1 ∨ (a.1 = b.1 ∧ bytes_le a.2 b.2).
#[local] Instance scope_le_dec : RelDecision scope_le.
Proof. intros a b. unfold scope_le, bytes_le, bytes_lt. apply _. Defined.
Definition active_scopes (t : MediaTables) : list (list byte * list byte) :=
  merge_sort scope_le (remove_dups ((λ e : KeyedRow, scope_of e.2) <$> map_to_list (md_rows t))).

(** [Vec::dedup]: runs of equal neighbours. *)
Fixpoint dedup (l : list (list byte)) : list (list byte) :=
  match l with
  | a :: (b :: _) as rest => if decide (a = b) then dedup rest else a :: dedup rest
  | l => l
  end.

Definition sweep_workspace (we : Weather) (now grace : Z) (acc : MediaTables * St) (workspace : list byte) : MediaTables * St :=
  let '(t, s) := acc in
  let '(_, t, s) := sweep_unclaimed_after we t t s workspace now grace in (t, s).
Definition with_media (t : RetentionTables) (m : MediaTables) : RetentionTables :=
  mkRetention (rt_groups t) (rt_controls t) (rt_conflicts t) (rt_manifests t) (rt_rejected t) (rt_policies t)
    (rt_destructions t) m.
Definition sweep_scope (we : Weather) (t : RetentionTables) (list_storage suppressed : bool) (now_ms min_age : Z)
    (acc : MediaTables * St) (scope : list byte * list byte) : MediaTables * St :=
  let '(m, s) := acc in
  let s := if list_storage then snd (sweep_unreferenced_storage we suppressed m s scope.1 scope.2 now_ms min_age) else s in
  let '(_, m, s) := sweep_retention we (with_media t m) m s scope.1 scope.2 now_ms in (m, s).

(** [now] is the database's clock in microseconds, [now_ms] the process's. *)
Definition media_pass (we : Weather) (reads writes : bool) (t : RetentionTables) (s : St) (marker : option Z)
    (list_storage : bool) (now now_ms grace min_age : Z) : RetentionTables * St * option Z :=
  let '(spent, marker) := if list_storage then consume_one marker reads writes else (None, marker) in
  let list_storage := list_storage && negb (is_set spent) in
  let '(_, m, s) := sweep_multipart we (rt_media t) s now in
  let scopes := if we_lists we ListScopes then active_scopes m else [] in
  let '(m, s) := fold_left (sweep_workspace we now grace) (dedup (fst <$> scopes)) (m, s) in
  let '(m, s) := fold_left (sweep_scope we t list_storage (marker_suppressed marker reads) now_ms min_age) scopes (m, s) in
  (with_media t m, s, marker).
End collectors.

(** ** What a pass leaves alone *)
Lemma fold_left_keeps {A B} (P : A → Prop) (f : A → B → A) l a :
  P a → (∀ a x, x ∈ l → P a → P (f a x)) → P (fold_left f l a).
Proof.
  revert a. induction l as [|x l IH]; intros a Ha Hf; [done|]. cbn. apply IH; [apply Hf; [apply list_elem_of_here|done]|].
  intros b y Hy. apply Hf. by apply list_elem_of_further.
Qed.

Lemma object_key_inj w g h w' g' h' k :
  object_key w g h = Ok k → object_key w' g' h' = Ok k → w = w' ∧ g = g' ∧ h = h'.
Proof.
  unfold object_key. intros [-> _]%blob_key_new_Ok [Heq _]%blob_key_new_Ok. injection Heq as -> Hg Hh.
  apply hex_inj in Hg, Hh. by subst.
Qed.

(** No hex text starts with the letter of a part's name. *)
Lemma hex_not_part h rest : hex h ≠ Byte.x70 :: rest.
Proof.
  destruct h as [|b h]; [done|]. cbn. intros [= Hd _]. apply (f_equal byte_to_Z) in Hd.
  pose proof (byte_to_Z_range b). assert (0 ≤ byte_to_Z b / 16 < 16) by (split; [apply Z.div_pos; lia|apply Z.div_lt_upper_bound; lia]).
  unfold hex_digit in Hd. rewrite byte_to_Z_of_Z_small in Hd by (case_match; lia). change (byte_to_Z Byte.x70) with 112 in Hd.
  case_match; lia.
Qed.
Lemma part_key_not_object w g h k s n : object_key w g h = Ok k → part_key_for s n ≠ k.
Proof.
  unfold object_key. intros [-> _]%blob_key_new_Ok Heq. injection Heq as _ _ Hh. symmetry in Hh. by apply hex_not_part in Hh.
Qed.

Section survive.
Context {St : Type} `{!BlobStore St, !BlobStoreLaws St}.
Implicit Types (s : St) (m : MediaTables).

Lemma clear_object_other s key c s' k : clear_object s key = (c, s') → k ≠ key → object s' k = object s k.
Proof.
  unfold clear_object. destruct (remove s key) as [[[]|e] s1] eqn:Hr; intros [= <- <-] Hne; by eapply remove_other.
Qed.

(** Rows only ever go, and those that stay are the same. *)
Definition fewer m m' : Prop := md_rows m' ⊆ md_rows m.

Lemma release_in_fewer m w i : fewer m (snd (release_in m w i)).
Proof.
  unfold fewer, release_in. destruct (row_in m w i true); [|done]. cbn [snd]. rewrite (spend_rows true), delete_rows_one. apply delete_subseteq.
Qed.
Lemma finish_deletion_lookup m w i j : j ≠ i → md_rows (finish_deletion m w i) !! j = md_rows m !! j.
Proof.
  intros Hne. unfold finish_deletion. destruct (row_in m w i false); [|done]. rewrite (spend_rows false), delete_rows_one.
  by rewrite lookup_delete_ne.
Qed.
Lemma release_in_lookup m w i j : j ≠ i → md_rows (snd (release_in m w i)) !! j = md_rows m !! j.
Proof.
  intros Hne. unfold release_in. destruct (row_in m w i true); [|done]. cbn [snd]. rewrite (spend_rows true), delete_rows_one.
  by rewrite lookup_delete_ne.
Qed.

(** One claimed object: its row, its key, and what the store holds there. *)
Context (i : Uuid) (r : ReservationRow) (k : BlobKey) (o : option Z).
Hypothesis Hfinal : unfinalized r = false.
Hypothesis Hkey : object_key (b_workspace r) (b_group r) (b_hash r) = Ok k.

Definition safe m s : Prop := ledger_ok m ∧ md_rows m !! i = Some r ∧ object s k = o.

(** A row of the list names the object it named when the list was read. *)
Definition agrees (seen m : MediaTables) : Prop :=
  ∀ j x y, md_rows seen !! j = Some x → md_rows m !! j = Some y → names_object (b_workspace x) (b_group x) (b_hash x) y.

Lemma collect_unclaimed_safe we w grace now seen report m s e :
  md_rows seen !! e.1 = Some e.2 → agrees seen m → safe m s →
  let '(_, m', s') := collect_unclaimed we w grace now (report, m, s) e in safe m' s' ∧ agrees seen m'.
Proof using Hfinal Hkey Type*.
  intros He Hag (Hok & Hrow & Ho). unfold collect_unclaimed. case_bool_decide as Hw; cbn [negb]; [|by split].
  destruct (object_key w _ _) as [key|] eqn:Hk; [|by split].
  destruct (lock_unclaimed _ _ _ _ _ _) eqn:Hl; cbn [negb]; [|by split].
  unfold lock_unclaimed in Hl. apply andb_true_iff in Hl as [_ Hl].
  destruct (row_in m w e.1 true) as [x|] eqn:Hx; [|done]. clear Hl. pose proof Hx as Hx'. apply row_in_Some in Hx' as (Hx1 & Hxw & Hxu).
  assert (e.1 ≠ i) as Hne by (intros Heq; rewrite Heq, Hrow in Hx1; injection Hx1 as <-; congruence).
  assert (k ≠ key) as Hkk.
  { intros <-. destruct (object_key_inj _ _ _ _ _ _ _ Hkey Hk) as (Hw' & Hg & Hh).
    destruct (Hag _ _ _ He Hx1) as (Hn1 & Hn2 & Hn3). apply Hne. symmetry. eapply (lk_one _ Hok); [exact Hrow|exact Hx1|].
    split_and!; congruence. }
  destruct (clear_object s key) as [c s1] eqn:Hc. pose proof (clear_object_other _ _ _ _ k Hc Hkk) as Hs1.
  assert (safe m s1) as Hsafe by (split_and!; [done|done|congruence]).
  destruct c; [|by split]. pose proof (release_in_ok m w e.1 Hok) as Hok'. pose proof (release_in_fewer m w e.1) as Hf.
  pose proof (release_in_lookup m w e.1 i (not_eq_sym Hne)) as Hli.
  destruct (release_in m w e.1) as [[bytes|] m']; cbn [snd] in *; [|by split]. destruct (we_commits we e.1); [|by split].
  split; [split_and!; [done|congruence|congruence]|]. intros j a b Ha Hb. eapply Hag; [exact Ha|]. by eapply lookup_weaken.
Qed.

Lemma sweep_unclaimed_safe we seen m s w now grace :
  agrees seen m → safe m s →
  let '(_, m', s') := sweep_unclaimed_after we seen m s w now grace in safe m' s'.
Proof using Hfinal Hkey Type*.
  intros Hag Hs. unfold sweep_unclaimed_after. destruct (we_lists we _); [|done].
  pose proof (fold_left_keeps (λ a : Report * MediaTables * St, safe a.1.2 a.2 ∧ agrees seen a.1.2)
    (collect_unclaimed we w grace now) (stale_unclaimed seen grace now) (no_report, m, s)) as Hf.
  destruct (fold_left _ _ _) as [[rep m'] s']. apply Hf; [done|]. clear Hf. intros [[rep1 m1] s1] e He [H1 H2]. cbn in H1, H2.
  unfold stale_unclaimed in He. apply list_elem_of_filter in He as [_ He]. destruct e as [j x]. apply elem_of_map_to_list in He.
  pose proof (collect_unclaimed_safe we w grace now seen rep1 m1 s1 (j, x) He H2 H1) as Hc.
  by destruct (collect_unclaimed we w grace now (rep1, m1, s1) (j, x)) as [[? ?] ?].
Qed.

Lemma row_known m w g : md_rows m !! i = Some r → w = b_workspace r → g = b_group r → b_hash r ∈ claimed_hashes m w g.
Proof.
  intros Hr -> ->. unfold claimed_hashes. apply list_elem_of_omap. exists (i, r). split; [by apply elem_of_map_to_list|].
  cbn. by rewrite !bool_decide_true.
Qed.

Lemma sweep_unreferenced_safe we sup m s w g now_ms min_age :
  safe m s → safe m (snd (sweep_unreferenced_storage we sup m s w g now_ms min_age)).
Proof using Hkey Type*.
  intros (Hok & Hrow & Ho). split_and!; [done..|]. unfold sweep_unreferenced_storage. destruct sup; [done|].
  destruct (list_entries s w (hex g)) as [listed|]; [|done]. destruct (we_lists we _); [|done].
  apply (fold_left_keeps (λ a : Report * St, object a.2 k = o)); [done|].
  intros [rep s1] e _ Hs. cbn in Hs. unfold collect_unreferenced. destruct (contains _ _) eqn:Hc; [done|].
  destruct (old_enough _ _ _); cbn [negb]; [|done]. destruct (blob_key_new w (hex g) (be_name e)) as [key|] eqn:Hk; [|done].
  assert (k ≠ key) as Hkk.
  { intros <-. unfold object_key in Hkey. apply blob_key_new_Ok in Hk as [-> _]. apply blob_key_new_Ok in Hkey as [Heq _].
    injection Heq as Hw Hg%hex_inj Hh. unfold contains in Hc. apply bool_decide_eq_false in Hc. apply Hc.
    rewrite Hh. apply list_elem_of_fmap. eexists. split; [done|]. by apply row_known. }
  destruct (clear_object s1 key) as [c s2] eqn:Hcl. pose proof (clear_object_other _ _ _ _ k Hcl Hkk) as Hs2.
  destruct c; cbn; congruence.
Qed.

(** The group's latest manifest names it. *)
Definition named (t : RetentionTables) : Prop :=
  ∃ n mf, latest_manifest t (b_group r) = Some (n, mf) ∧ b_hash r ∈ mf_blobs mf.

Lemma named_not_eligible t claimed now_ms : named t → eligible t (b_group r) (b_hash r) claimed now_ms ≠ Eligible.
Proof.
  intros (n & mf & Hm & Hin). unfold eligible. destruct (is_frozen t _); [done|]. rewrite Hm. unfold contains.
  by rewrite bool_decide_true.
Qed.

Lemma sweep_retention_safe we t m s w g now_ms :
  md_rows (rt_media t) !! i = Some r → named t → safe m s →
  let '(_, m', s') := sweep_retention we t m s w g now_ms in safe m' s'.
Proof using Hfinal Hkey Type*.
  intros Hseen Hnamed Hs. unfold sweep_retention. destruct (we_lists we _); [|done].
  pose proof (fold_left_keeps (λ a : Report * MediaTables * St, safe a.1.2 a.2)
    (collect_due we t w g now_ms) (finalized_reservations (rt_media t) w g) (no_report, m, s)) as Hf.
  destruct (fold_left _ _ _) as [[rep m'] s']. apply Hf; [done|]. clear Hf m s Hs.
  intros [[rep1 m] s] row Hrow (Hok & Hr & Ho). cbn in Hok, Hr, Ho |- *. unfold collect_due.
  destruct (we_reads we _); cbn [negb]; [|by split_and!].
  destruct (eligible t g (cb_hash row) _ _) eqn:He; try by split_and!.
  destruct (object_key w g (cb_hash row)) as [key|] eqn:Hk; [|by split_and!].
  assert (k ≠ key) as Hkk.
  { intros <-. destruct (object_key_inj _ _ _ _ _ _ _ Hkey Hk) as (_ & <- & Hh). rewrite <- Hh in He.
    by apply named_not_eligible in He. }
  destruct (clear_object s key) as [c s1] eqn:Hc. pose proof (clear_object_other _ _ _ _ k Hc Hkk) as Hs1.
  destruct c; cbn; [|split_and!; [done|done|congruence]]. destruct (we_commits we _); cbn; [|split_and!; [done|done|congruence]].
  split_and!; [by apply finish_deletion_ok| |congruence]. rewrite finish_deletion_lookup; [done|].
  intros Hi. apply list_elem_of_omap in Hrow as ([j x] & Hin & Hx). apply elem_of_map_to_list in Hin. cbn in Hx.
  destruct (b_finalized x); [|done]. destruct (bool_decide_reflect (b_workspace x = w)); cbn [andb] in Hx; [|done].
  destruct (bool_decide_reflect (b_group x = g)) as [Hg|]; [|done]. injection Hx as <-. cbn in Hi, He. subst j.
  rewrite Hseen in Hin. injection Hin as <-. rewrite <- Hg in He. by apply named_not_eligible in He.
Qed.

Lemma delete_parts_object session parts b s :
  object s k = o → object (snd (fold_left (delete_parts session) parts (b, s))) k = o.
Proof using Hkey Type*.
  intros Ho. apply (fold_left_keeps (λ a : bool * St, object a.2 k = o)); [done|].
  intros [b1 s1] n _ Hs. cbn in Hs. unfold delete_parts. cbn [fst snd].
  destruct (remove s1 (part_key_for session n)) as [res s2] eqn:Hr.
  assert (object s2 k = object s1 k) as Heq; [|destruct res; cbn; congruence].
  eapply remove_other; [exact Hr|]. intros Hk. by eapply part_key_not_object.
Qed.

Lemma sweep_multipart_safe we m s now :
  safe m s → let '(_, m', s') := sweep_multipart we m s now in safe m' s'.
Proof using Hkey Type*.
  intros Hs. unfold sweep_multipart. destruct (stale_multipart_sessions m now) as [sessions|]; [|done].
  destruct (we_lists we _); [|done].
  pose proof (fold_left_keeps (λ a : Z * MediaTables * St, safe a.1.2 a.2)
    (sweep_session we now) (fst <$> sessions) (0, m, s)) as Hf.
  destruct (fold_left _ _ _) as [[rep m'] s']. apply Hf; [done|]. clear Hf m s Hs.
  intros [[n m] s] session _ (Hok & Hr & Ho). cbn in Hok, Hr, Ho |- *. unfold sweep_session.
  destruct (we_reads we session); cbn [negb]; [|by split_and!].
  pose proof (delete_parts_object session (recorded_parts m session) true s Ho) as Hd.
  destruct (fold_left _ _ _) as [[] s1]; cbn [snd] in Hd; [|by split_and!].
  destruct (we_commits we session); cbn [negb]; [|by split_and!].
  destruct (we_aborts we session); cbn; (split_and!; [by eapply same_ledger_ok|done|done]).
Qed.

Lemma media_pass_safe we reads writes t s marker ls now now_ms grace min_age :
  named t → safe (rt_media t) s →
  let '(t', s', _) := media_pass we reads writes t s marker ls now now_ms grace min_age in safe (rt_media t') s'.
Proof using Hfinal Hkey Type*.
  intros Hnamed Hs. unfold media_pass. destruct (if ls then _ else _) as [spent marker']. cbv zeta.
  pose proof (sweep_multipart_safe we (rt_media t) s now Hs) as Hm. destruct (sweep_multipart _ _ _ _) as [[n m1] s1].
  set (scopes := if we_lists we ListScopes then _ else _). clearbody scopes.
  pose proof (fold_left_keeps (λ a : MediaTables * St, safe a.1 a.2)
    (sweep_workspace we now grace) (dedup (fst <$> scopes)) (m1, s1) Hm) as Hw.
  destruct (fold_left (sweep_workspace we now grace) _ _) as [m2 s2].
  assert (safe m2 s2) as H2.
  { apply Hw. intros [m s'] w _ Hms. cbn in Hms. unfold sweep_workspace.
    pose proof (sweep_unclaimed_safe we m m s' w now grace) as Hu. destruct (sweep_unclaimed_after _ _ _ _ _ _ _) as [[? ?] ?].
    apply Hu; [|done]. intros j x y Hx Hy. rewrite Hx in Hy. injection Hy as <-. by split_and!. }
  clear Hw. pose proof (fold_left_keeps (λ a : MediaTables * St, safe a.1 a.2)
    (sweep_scope we t (ls && negb (is_set spent)) (marker_suppressed marker' reads) now_ms min_age) scopes (m2, s2) H2) as Hsc.
  destruct (fold_left (sweep_scope _ _ _ _ _ _) _ _) as [m3 s3]. cbn [with_media rt_media]. apply Hsc. clear Hsc.
  intros [m s'] scope _ Hms. cbn in Hms. unfold sweep_scope.
  set (s4 := if _ && _ then _ else _). assert (safe m s4) as H4.
  { unfold s4. case_match; [|done]. by apply sweep_unreferenced_safe. }
  pose proof (sweep_retention_safe we (with_media t m) m s4 scope.1 scope.2 now_ms) as Hr.
  destruct (sweep_retention _ _ _ _ _ _ _) as [[? ?] ?]. apply Hr; [apply H4|done|done].
Qed.
End survive.

(** C5. What the latest manifest names is never collected. In every state the
    retention records and the reservations reach, a claimed object that its
    group's latest manifest names is still in the store after a collector pass,
    and its row is still charged, whichever lists, rows, commits and storage
    calls fail in the pass, whatever the clocks, the grace and the age floor are
    set to, and whether or not the pass lists the bucket. *)
Theorem live_object_survives_pass `{Blake3, Ed25519} history {St} `{!BlobStore St, !BlobStoreLaws St} we reads writes t (s : St) marker
    list_storage now now_ms grace min_age i r k n mf :
  rtc (retain_step history) no_retention t →
  md_rows (rt_media t) !! i = Some r → unfinalized r = false →
  object_key (b_workspace r) (b_group r) (b_hash r) = Ok k →
  latest_manifest t (b_group r) = Some (n, mf) → b_hash r ∈ mf_blobs mf →
  let '(t', s', _) := media_pass we reads writes t s marker list_storage now now_ms grace min_age in
  object s' k = object s k ∧ md_rows (rt_media t') !! i = Some r.
Proof.
  intros Hok%reachable_retention_ok Hr Hf Hk Hm Hin.
  pose proof (media_pass_safe i r k (object s k) Hf Hk we reads writes t s marker list_storage now now_ms grace min_age) as Hp.
  destruct (media_pass _ _ _ _ _ _ _ _ _ _ _) as [[t' s'] marker']. destruct Hp as (_ & ? & ?); [by exists n, mf| |done].
  split_and!; [apply (ro_media _ _ Hok)|done|done].
Qed.

(** C19. Deletion needs both authorities. When the collector judges a claimed
    object due, its group is not frozen by a fork of the control chain, the latest
    manifest does not name it, and the workspace the group belongs to agreed, by
    two authorizers of the access set it had in force when the relay judged the
    record, or by the only one seven days ahead: to a destruction naming this
    object whose time has come, or to the policy in force, whose window is thirty
    days or more and has run since the relay's own receipt of the claim, and whose
    time has come. *)
Theorem deletion_needs_both_authorities `{Blake3, Ed25519} history t group hash claimed_at_ms now_ms :
  rtc (retain_step history) no_retention t → now_ms < U64_MAX →
  eligible t group hash claimed_at_ms now_ms = Eligible →
  is_frozen t group = false
  ∧ (∀ n mf, latest_manifest t group = Some (n, mf) → hash ∉ mf_blobs mf)
  ∧ ∃ row, rt_groups t !! group = Some row
  ∧ ((∃ x, active_destruction t group BLOB_KIND hash = Some x ∧ rx_target_digest x = hash ∧ rx_group x = group
        ∧ agreed_by history (g_workspace row) (destruction_signing_bytes x) (rx_signatures x) (rx_not_before x)
        ∧ rx_not_before x * 1000 ≤ now_ms)
     ∨ (∃ p, active_policy t group = Some p ∧ rp_group p = group
          ∧ agreed_by history (g_workspace row) (policy_signing_bytes p) (rp_signatures p) (rp_not_before p)
          ∧ MEDIA_GRACE_FLOOR_DAYS ≤ rp_media_after_days p
          ∧ claimed_at_ms + rp_media_after_days p * DAY_MS ≤ now_ms ∧ rp_not_before p * 1000 ≤ now_ms)).
Proof.
  intros Hok%reachable_retention_ok Hnow He. unfold eligible in He. destruct (is_frozen t group); [done|]. split; [done|].
  destruct (match latest_manifest t group with Some _ => _ | None => _ end) eqn:Hl; [done|]. split.
  { intros n mf Hm. rewrite Hm in Hl. unfold contains in Hl. by apply bool_decide_eq_false in Hl. }
  destruct (active_destruction t group BLOB_KIND hash) as [x|] eqn:Hx.
  - destruct (ro_destruction _ _ Hok _ _ _ _ Hx) as (Hg & _ & Ht & row & Hrow & Ha). exists row. split; [done|]. left.
    exists x. split_and!; [done..|].
    destruct (Z.leb_spec (u64_saturating_mul (rx_not_before x) 1000) now_ms); [|done]. unfold u64_saturating_mul in *. lia.
  - destruct (active_policy t group) as [p|] eqn:Hp; [|done]. unfold active_policy in Hp.
    destruct (newest (rt_policies t) group) as [[v p']|] eqn:Hn; [|done]. injection Hp as ->. apply newest_Some in Hn as [Hn _].
    destruct (ro_policy _ _ Hok _ _ _ Hn) as (Hg & _ & Hfl & row & Hrow & Ha). exists row. split; [done|]. right. exists p.
    destruct (Z.leb_spec (u64_saturating_add claimed_at_ms (Z.max (rp_media_after_days p) MEDIA_GRACE_FLOOR_DAYS * DAY_MS)) now_ms); [|done].
    destruct (Z.leb_spec (u64_saturating_mul (rp_not_before p) 1000) now_ms); [|done].
    unfold u64_saturating_mul, u64_saturating_add, POLICY_FLOOR_DAYS, MEDIA_GRACE_FLOOR_DAYS in *. split_and!; [done..|lia| |lia].
    rewrite Z.max_l in * by lia. lia.
Qed.

(** ** The marker, pass by pass *)
(** Each pass by whether the marker could be read and could be written. *)
Definition marker_after (passes : list (bool * bool)) (marker : option Z) : option Z :=
  fold_left (λ m p, snd (consume_one m p.1 p.2)) passes marker.
Definition spent_passes (passes : list (bool * bool)) : Z := Z.of_nat (length (filter (λ p : bool * bool, p = (true, true)) passes)).

(** A marker as its count. *)
Definition marker_count (marker : option Z) : Z := default 0 (marker_remaining marker).

Lemma consume_one_count marker reads writes :
  0 ≤ marker_count marker →
  marker_count (snd (consume_one marker reads writes)) = Z.max (marker_count marker - (if reads && writes then 1 else 0)) 0.
Proof.
  unfold consume_one, marker_count. intros Hn. destruct reads; cbn [andb snd]; [|lia].
  destruct marker as [p|]; cbn in *; [|case_match; lia]. destruct (Z.ltb_spec 0 p); cbn in *.
  - destruct writes; cbn; [|destruct (Z.ltb_spec 0 p); cbn; lia].
    destruct (Z.leb_spec p 1); cbn; [lia|]. destruct (Z.ltb_spec 0 (p - 1)); cbn; lia.
  - rewrite (proj2 (Z.ltb_ge 0 p)) by lia. cbn. case_match; lia.
Qed.

Lemma marker_after_count passes marker :
  0 ≤ marker_count marker → marker_count (marker_after passes marker) = Z.max (marker_count marker - spent_passes passes) 0.
Proof.
  revert marker. induction passes as [|[rd wr] passes IH]; intros marker Hn; [unfold spent_passes; cbn; lia|].
  unfold marker_after in *. cbn [fold_left fst snd]. rewrite IH by (rewrite consume_one_count by done; lia).
  rewrite consume_one_count by done. unfold spent_passes. rewrite filter_cons.
  destruct rd, wr; cbn [andb]; case_decide; try done; cbn [length]; lia.
Qed.

(** A restore marker covers exactly the passes it says. After a marker of [n]
    passes is set, a listing pass that can read it is suppressed exactly when
    fewer than [n] passes have read and counted it down; a pass that cannot read
    it is suppressed and spends nothing, and one that cannot write it is
    suppressed and does not lose the count. *)
Theorem marker_covers_its_passes n passes writes :
  (is_set (fst (consume_one (marker_after passes (marker_set n)) true writes)) = true ↔ spent_passes passes < n)
  ∧ fst (consume_one (marker_after passes (marker_set n)) false writes) = Some (-1)
  ∧ marker_suppressed (marker_after passes (marker_set n)) false = true.
Proof.
  split; [|done].
  assert (0 ≤ spent_passes passes) as Hs by (unfold spent_passes; lia).
  assert (marker_count (marker_set n) = Z.max n 0) as Hset.
  { unfold marker_count, marker_set, marker_remaining. destruct (Z.ltb_spec 0 (Z.max n 0)); cbn; lia. }
  pose proof (marker_after_count passes (marker_set n) ltac:(lia)) as Hc. rewrite Hset in Hc.
  unfold consume_one, marker_count in *. destruct (marker_after passes (marker_set n)) as [p|]; cbn in *; [|split; [done|lia]].
  destruct (Z.ltb_spec 0 p); cbn in *; split; try done; lia.
Qed.

(** ** Concrete runs *)
Module MediaGcDemo.
#[local] Instance gc_blake3 : Blake3 := poly_digest.
#[local] Instance gc_ed25519 : Ed25519 := toy_verify.
Import RetentionDemo.

Definition fair : Weather := mkWeather (λ _, true) (λ _, false) (λ _, true) (λ _, true) (λ _, true).
Definition blob_key : BlobKey := mkKey ws (hex grp) (hex blob).
Definition bucket : Files := mkFiles {[ blob_key := mkFile [Byte.x01; Byte.x02] (Some 0) ]} StorageDemo.quiet.
Definition row : ReservationRow := mkReservation ws grp blob 7 0 900000000 (Some 5).
Definition mf1 : ManifestRow := manifest_row manifest1.

Lemma stored_reachable : rtc (retain_step judged) no_retention stored.
Proof.
  etrans; [exact t2_reachable|]. unfold stored.
  generalize t2. intros t. eapply rtc_l; [apply (rs_media judged t), (st_ensure _ ws (Some 10))|].
  eapply rtc_l; [eapply rs_media, (st_reserve _ ws grp blob 7 false 900 0 uuid)|]. apply rtc_refl.
Qed.
Lemma claimed_reachable : rtc (retain_step judged) no_retention claimed.
Proof. eapply rtc_r; [exact stored_reachable|]. apply rs_manifest; [apply older_refl|wf_concrete]. Qed.

Lemma live_object_survives_pass_witness :
  object (snd (fst (media_pass fair true true claimed bucket None true 9000000000000 9000000000 86400 172800))) blob_key = Some 2.
Proof.
  pose proof (live_object_survives_pass judged fair true true claimed bucket None true 9000000000000 9000000000 86400 172800 uuid row blob_key 1 mf1
    claimed_reachable) as Hp.
  destruct (media_pass fair true true claimed bucket None true 9000000000000 9000000000 86400 172800) as [[t' s'] m'].
  cbn [fst snd]. destruct Hp as [Hp _]; [by vm_compute..| |rewrite Hp; by vm_compute].
  apply (bool_decide_unpack _). by vm_compute.
Defined.

(** A manifest that drops the object, and a policy two authorizers signed. *)
Definition sign_manifest (m : RetentionManifest) : RetentionManifest :=
  mkManifest (rm_group m) (rm_epoch m) (rm_sequence m) (rm_prev m) (rm_blobs m) (toy_sign k1 (manifest_signing_bytes m)).
Definition manifest2 : RetentionManifest := sign_manifest (mkManifest grp 1 2 (Some (manifest_digest manifest1)) [] []).
Definition manifest3 : RetentionManifest := sign_manifest (mkManifest grp 1 3 (Some (manifest_digest manifest2)) [blob] []).
Definition policy : RetentionPolicy :=
  let p := mkPolicy grp 1 30 30 0 [k0] [] in
  mkPolicy grp 1 30 30 0 [k0] [mkSignature k0 (toy_sign k0 (policy_signing_bytes p)); mkSignature k2 (toy_sign k2 (policy_signing_bytes p))].
Definition dropped : RetentionTables := snd (apply_manifest claimed claimed ws manifest2 6).
Definition due : RetentionTables := match insert_policy dropped policy with Ok t => t | Err _ => dropped end.
Lemma due_inserted : insert_policy dropped policy = Ok due.
Proof.
  assert (is_ok (insert_policy dropped policy) = true) as Hi by (by vm_compute).
  unfold due. by destruct (insert_policy dropped policy).
Qed.

Lemma due_reachable : rtc (retain_step judged) no_retention due.
Proof.
  eapply rtc_r; [eapply rtc_r; [exact claimed_reachable|]|].
  - apply (rs_manifest judged claimed claimed ws manifest2 6); [apply older_refl|wf_concrete].
  - by apply (rs_policy judged dropped due policy present (mkGroupRow ws 1 false)); [wf_concrete|done|by vm_compute..|exact due_inserted].
Qed.

Lemma deletion_needs_both_authorities_witness : is_frozen due grp = false.
Proof.
  destruct (deletion_needs_both_authorities judged due grp blob 0 (30 * DAY_MS) due_reachable) as [Hf _]; [by vm_compute..|done].
Defined.

(** The verdict is not held to the deletion: a manifest that names the object
    again, accepted in between, is acknowledged and loses its object. *)
Definition again : RetentionTables := snd (apply_manifest due due ws manifest3 (30 * DAY_MS * 1000)).
Theorem retention_race_deletes_named :
  fst (apply_manifest due due ws manifest3 (30 * DAY_MS * 1000)) = Ok (ManifestAccepted (manifest_digest manifest3))
  ∧ (λ e : Z * ManifestRow, mf_blobs e.2) <$> latest_manifest again grp = Some [blob]
  ∧ object (snd (sweep_retention fair due (rt_media again) bucket ws grp (30 * DAY_MS))) blob_key = None.
Proof. by vm_compute. Qed.
End MediaGcDemo.
