(* ===== verification/Media.v ===== *)
(** * The media handlers: [media/mod.rs]

    [handle] and everything it dispatches to: uploads, downloads, multipart
    sessions, listings, the quota, and the retention records, over the tables of
    [MediaStore] and [Retention], any [BlobStore] and the per-device rate limiter.
    [Env] is what the process reads outside them: the clocks, the configured
    ceiling, a fresh identifier, the access sets, and which database calls fail.
    The presigner is a parameter; [fs_presign] is the one of the filesystem
    backend. A [Reply] is a frame or a panic of the handler.

    The theorems: a request reaches a group's objects only through a workspace
    that owns the group and admitted the device; a read-only session's writes
    change nothing; the windows of a group's policies never shorten; a device's
    reads stay within its day. *)

From Stdlib Require Import String.
From stdpp Require Import base tactics numbers gmap countable fin_maps functions relations sorting list.
From S2P Require Import Prelude Cbor Push Frame Crypto Access AccessChain Envelope Accept Budgets Session InviteRecord MediaWire MediaStore Retention Storage MediaGc.

Open Scope Z_scope.

Definition SINGLE_PART_MAX_BYTES : Z := 64 * 1024 * 1024.
Definition MULTIPART_PART_SIZE : Z := 64 * 1024 * 1024.
Definition BLOB_MAX_BYTES : Z := 2 * 1024 * 1024 * 1024.
Definition PRESIGN_TTL_SECONDS : Z := 15 * 60.
Definition U32_MAX_SECONDS : Z := 4294967295.

(** ** The rate limiter *)
Record MediaUsage : Type := mkMediaUsage {
  mu_minute : Z;
  mu_requests : Z;
  mu_day : Z;
  mu_bytes : Z
}.
Record RateLimiter : Type := mkLimiter { requests_per_minute : Z; bytes_per_day : Z }.
Definition default_rate_limiter : RateLimiter := mkLimiter 50 (5 * 1000000000).

Definition media_sweep (ds : gmap (list byte) MediaUsage) (minute day : Z) : gmap (list byte) MediaUsage :=
  if (size ds <=? MAX_TRACKED_DEVICES)%nat then ds
  else filter (λ e : list byte * MediaUsage, mu_minute e.2 = minute ∨ mu_day e.2 = day) ds.
Definition rolled (ds : gmap (list byte) MediaUsage) (device : list byte) (now_ms : Z) :
    MediaUsage * gmap (list byte) MediaUsage :=
  let minute := now_ms / 60000 in
  let day := now_ms / 86400000 in
  let ds := media_sweep ds minute day in
  let u := default (mkMediaUsage 0 0 0 0) (ds !! device) in
  let u := if mu_minute u =? minute then u else mkMediaUsage minute 0 (mu_day u) (mu_bytes u) in
  let u := if mu_day u =? day then u else mkMediaUsage (mu_minute u) (mu_requests u) day 0 in
  (u, <[device := u]> ds).

Definition allow_request (l : RateLimiter) (ds : gmap (list byte) MediaUsage) (device : list byte) (now_ms : Z) :
    bool * gmap (list byte) MediaUsage :=
  let '(u, ds) := rolled ds device now_ms in
  if requests_per_minute l <=? mu_requests u then (false, ds)
  else (true, <[device := mkMediaUsage (mu_minute u) (mu_requests u + 1) (mu_day u) (mu_bytes u)]> ds).
Definition allow_bytes (l : RateLimiter) (ds : gmap (list byte) MediaUsage) (device : list byte) (bytes now_ms : Z) :
    bool * gmap (list byte) MediaUsage :=
  let '(u, ds) := rolled ds device now_ms in
  if bytes_per_day l <? u64_saturating_add (mu_bytes u) bytes then (false, ds)
  else (true, <[device := mkMediaUsage (mu_minute u) (mu_requests u) (mu_day u) (u64_saturating_add (mu_bytes u) bytes)]> ds).

(** ** What the process brings *)
Inductive DbCall : Type :=
| CallWorkspaceOf | CallEnsureQuota | CallReserve | CallCreateMultipart | CallFindMultipart | CallExpectedLen
| CallRecordPart | CallRefresh | CallRecordedParts | CallComplete | CallAbort | CallRelease | CallIsAborted
| CallCharged | CallUsage | CallAdmits | CallControl | CallResolve | CallManifest | CallFindReservation
| CallPosition | CallActivePolicy | CallAuthorize | CallInsertPolicy | CallInsertDestruction.

Record Env : Type := mkEnv {
  en_database : bool;
  en_fails : DbCall → bool;
  en_now_ms : Z;
  en_now : Z;
  en_limit_gb : Limit;
  en_access : list byte → Db;
  en_fresh : Uuid;
  en_limiter : RateLimiter
}.

Definition limit_bytes (limit : Limit) : option Z :=
  match limit with Unlimited => None | Of gb => Some (i64_saturating (u64_as_i64 gb * 1000000000)) end.

(** The filesystem backend's URL for an object: this relay's own route. *)
Definition fs_presign `{Blake3Keyed} (secret listen : list byte) (now_ms : Z) (key : BlobKey) (method : Method)
    (_ : option Z) : result StorageError (list byte) :=
  let expires_at := now_ms / 1000 + PRESIGN_TTL_SECONDS in
  Ok (ascii_bytes "http://"%string ++ listen ++ ascii_bytes "/blob/"%string ++ blob_path key
      ++ ascii_bytes "?exp="%string ++ decimal expires_at
      ++ ascii_bytes "&sig="%string ++ sign_token secret method (blob_path key) expires_at).

Definition refused (code : ErrorCode) : Frame := Frame.Error (FrameError_new code).
Definition media_rate_limited : Frame := Frame.Error (with_retry_after (FrameError_new RateLimited) 60).
Definition reply (a : BlobResponse) : Frame := Frame.Blob (blob_response_encode a).

(** A handler answers or unwinds. *)
Inductive Reply : Type := Answered (frame : Frame) | Panicked.

(** [u8::from_str_radix(_, 16)] of two bytes, and [hex_bytes] of a name. A slice
    that cuts a character unwinds. *)
Definition hex_value (b : byte) : option Z :=
  let z := byte_to_Z b in
  if (48 <=? z) && (z <=? 57) then Some (z - 48)
  else if (97 <=? z) && (z <=? 102) then Some (z - 87)
  else if (65 <=? z) && (z <=? 70) then Some (z - 55)
  else None.
Definition PLUS : byte := Byte.x2b.
Definition radix_pair (a b : byte) : option byte :=
  if bool_decide (a = PLUS) then (λ l, byte_of_Z l) <$> hex_value b
  else match hex_value a, hex_value b with Some h, Some l => Some (byte_of_Z (16 * h + l)) | _, _ => None end.
Definition continues (b : byte) : bool := (128 <=? byte_to_Z b) && (byte_to_Z b <=? 191).

Inductive HexOutcome : Type := HexBytes (bs : list byte) | HexInvalid | HexPanic.
Fixpoint hex_pairs (text acc : list byte) : HexOutcome :=
  match text with
  | a :: b :: rest =>
      if match rest with c :: _ => continues c | [] => false end then HexPanic
      else match radix_pair a b with Some v => hex_pairs rest (acc ++ [v]) | None => HexInvalid end
  | _ => HexBytes acc
  end.
Definition hex_bytes (text : list byte) : HexOutcome :=
  if Nat.even (length text) then hex_pairs text [] else HexInvalid.

(** [Uuid::from_slice]. *)
Definition parse_session_id (bs : list byte) : option Uuid := if (length bs =? 16)%nat then Some bs else None.

Definition session_part_count (m : MultipartSession) : option Z :=
  if (ms_part_size m <=? 0) || (ms_total_bytes m <=? 0) then None
  else Some ((ms_total_bytes m + ms_part_size m - 1) / ms_part_size m).

(** [part_number as i32]. *)
Definition u32_as_i32 (n : Z) : Z := if n <=? 2147483647 then n else n - 4294967296.

Definition authorization_error (outcome : Authorization) (not_before_secs now_secs : Z) : FrameError :=
  let error := FrameError_new WriterNotInAccessSet in
  match outcome with
  | NoAuthorizers => with_detail error (ascii_bytes "no_authorizers"%string)
  | Insufficient => with_detail error (ascii_bytes "insufficient_signatures"%string)
  | SoleAuthorizerTooSoon =>
      let wait := u64_saturating_sub (u64_saturating_add now_secs SOLE_AUTHORIZER_FLOOR_SECS) not_before_secs in
      with_retry_after (with_detail error (ascii_bytes "sole_authorizer_too_soon"%string)) (Z.min wait U32_MAX_SECONDS)
  | Threshold | SoleAuthorizerGraced => error
  end.

(** ** The handlers *)
Section handlers.
Context `{Blake3, Ed25519} {St : Type} `{!BlobStore St}.
Variable presign : BlobKey → Method → option Z → result StorageError (list byte).

Record MediaServer : Type := mkServer {
  sv_tables : RetentionTables;
  sv_store : option St;
  sv_usage : gmap (list byte) MediaUsage
}.
Definition on_tables (sv : MediaServer) (t : RetentionTables) : MediaServer := mkServer t (sv_store sv) (sv_usage sv).
Definition on_media (sv : MediaServer) (m : MediaTables) : MediaServer := on_tables sv (with_media (sv_tables sv) m).
Definition on_store (sv : MediaServer) (s : St) : MediaServer := mkServer (sv_tables sv) (Some s) (sv_usage sv).
Definition on_usage (sv : MediaServer) u : MediaServer := mkServer (sv_tables sv) (sv_store sv) u.
Definition media_of (sv : MediaServer) : MediaTables := rt_media (sv_tables sv).

Definition authorize_group (env : Env) (sv : MediaServer) (session : Session) (group : list byte) :
    result ErrorCode (list byte) :=
  match authorized_workspace session with
  | None => Err WriterNotInAccessSet
  | Some workspace =>
      if en_fails env CallWorkspaceOf then Err Backpressure
      else match rt_groups (sv_tables sv) !! group with
           | Some g => if bool_decide (g_workspace g = workspace) then Ok workspace else Err WriterNotInAccessSet
           | None => Err GroupUnknown
           end
  end.

(** The three gates a request on a group's objects passes first: the group, the
    device, and the device's requests. *)
Definition entry (env : Env) (sv : MediaServer) (session : Session) (group : list byte) :
    result Frame (list byte * list byte) * MediaServer :=
  match authorize_group env sv session group with
  | Err code => (Err (refused code), sv)
  | Ok workspace =>
      match s_device_key session with
      | None => (Err (refused WriterNotInAccessSet), sv)
      | Some device =>
          let '(ok, usage) := allow_request (en_limiter env) (sv_usage sv) device (en_now_ms env) in
          (if ok then Ok (workspace, device) else Err media_rate_limited, on_usage sv usage)
      end
  end.

Definition presigned (key : BlobKey) (method : Method) (content_length : option Z) (carry : list byte → BlobResponse) : Frame :=
  match presign key method content_length with
  | Ok url => reply (carry url)
  | Err _ => refused Backpressure
  end.

(** The reservation, and the session or the URL it is answered with. *)
Definition open_upload (env : Env) (sv : MediaServer) (key : BlobKey) (reservation_id : Uuid) (ciphertext_len : Z) :
    Frame * MediaServer :=
  if SINGLE_PART_MAX_BYTES <? ciphertext_len then
    if en_fails env CallCreateMultipart then (refused Backpressure, sv)
    else match create_multipart (media_of sv) reservation_id [] MULTIPART_PART_SIZE PRESIGN_TTL_SECONDS (en_now env) (en_fresh env) with
         | (Ok session_id, m) => (reply (BsMultipart session_id MULTIPART_PART_SIZE PRESIGN_TTL_SECONDS), on_media sv m)
         | (Err _, _) => (refused Backpressure, sv)
         end
  else (presigned key METHOD_PUT (Some ciphertext_len) (λ url, BsUpload url PRESIGN_TTL_SECONDS), sv).

Definition reserve_upload (env : Env) (sv : MediaServer) (workspace group hash : list byte) (key : BlobKey)
    (ciphertext_len : Z) (already_stored : bool) : Frame * MediaServer :=
  if en_fails env CallEnsureQuota then (refused Backpressure, sv)
  else
    let sv := on_media sv (ensure_quota_row (media_of sv) workspace (limit_bytes (en_limit_gb env))) in
    if en_fails env CallReserve then (refused Backpressure, sv)
    else
      match reserve (media_of sv) workspace group hash ciphertext_len already_stored PRESIGN_TTL_SECONDS (en_now env) (en_fresh env) with
      | (Err _, _) => (refused Backpressure, sv)
      | (Ok AlreadyStored, m) => (reply BsExists, on_media sv m)
      | (Ok OverQuota, m) => (refused StorageExhausted, on_media sv m)
      | (Ok (ReservedActive reservation_id), m) => open_upload env (on_media sv m) key reservation_id ciphertext_len
      end.

Definition handle_put (env : Env) (sv : MediaServer) (session : Session) (group hash : list byte) (ciphertext_len : Z) :
    Frame * MediaServer :=
  match entry env sv session group with
  | (Err frame, sv) => (frame, sv)
  | (Ok (workspace, _), sv) =>
      if (ciphertext_len =? 0) || (BLOB_MAX_BYTES <? ciphertext_len) then (refused EnvelopeTooLarge, sv)
      else
        match object_key workspace group hash with
        | Err _ => (refused MalformedHeader, sv)
        | Ok key =>
            match sv_store sv with
            | None => (refused Backpressure, sv)
            | Some store =>
                let already_stored := match head_of store key with Ok (Some _) => true | _ => false end in
                reserve_upload env sv workspace group hash key ciphertext_len already_stored
            end
        end
  end.

Definition handle_get (env : Env) (sv : MediaServer) (session : Session) (group hash : list byte) : Frame * MediaServer :=
  match entry env sv session group with
  | (Err frame, sv) => (frame, sv)
  | (Ok (workspace, device), sv) =>
      match object_key workspace group hash with
      | Err _ => (refused MalformedHeader, sv)
      | Ok key =>
          match sv_store sv with
          | None => (refused Backpressure, sv)
          | Some store =>
              match head_of store key with
              | Ok None => (reply BsNotFound, sv)
              | Err e => (if is_transient e then refused Backpressure else reply BsNotFound, sv)
              | Ok (Some length) =>
                  let '(ok, usage) := allow_bytes (en_limiter env) (sv_usage sv) device length (en_now_ms env) in
                  (if ok then presigned key METHOD_GET None (λ url, BsDownload url PRESIGN_TTL_SECONDS) else media_rate_limited,
                   on_usage sv usage)
              end
          end
      end
  end.

(** The entries of a listing; a name that is not hex is skipped. *)
Fixpoint listing (charged : gmap (list byte) Z) (names : list (list byte)) (entries : list (list byte * Z)) :
    option (list (list byte * Z)) :=
  match names with
  | [] => Some entries
  | name :: names =>
      match hex_bytes name with
      | HexPanic => None
      | HexInvalid => listing charged names entries
      | HexBytes hash =>
          let len := match charged !! hash with Some n => if 0 <? n then n else 0 | None => 0 end in
          listing charged names (entries ++ [(hash, len)])
      end
  end.
Definition handle_list (env : Env) (sv : MediaServer) (session : Session) (group : list byte) : Reply * MediaServer :=
  match entry env sv session group with
  | (Err frame, sv) => (Answered frame, sv)
  | (Ok (workspace, _), sv) =>
      match sv_store sv with
      | None => (Answered (refused Backpressure), sv)
      | Some store =>
          match list_names store workspace (hex group) with
          | Err _ => (Answered (refused Backpressure), sv)
          | Ok names =>
              if en_fails env CallCharged then (Answered (refused Backpressure), sv)
              else match listing (charged_lengths (media_of sv) workspace group) (take MAX_LIST names) [] with
                   | Some entries => (Answered (reply (BsListing entries)), sv)
                   | None => (Panicked, sv)
                   end
          end
      end
  end.

Definition found_multipart (env : Env) (sv : MediaServer) (session_id : Uuid) : option MultipartSession :=
  if en_fails env CallFindMultipart then None else find_multipart (media_of sv) session_id.

(** Recording the part, or checking it against what was recorded. *)
Definition issue_part (env : Env) (sv : MediaServer) (session_id : Uuid) (m : MultipartSession) (part_number expected_len : Z) :
    result Frame MediaServer :=
  match (if en_fails env CallExpectedLen then None else expected_len_of (media_of sv) session_id (u32_as_i32 part_number)) with
  | Some existing => if existing =? expected_len then Ok sv else Err (refused MalformedHeader)
  | None =>
      if ms_part_size m <? expected_len then Err (refused EnvelopeTooLarge)
      else if en_fails env CallRecordPart then Err (refused Backpressure)
      else match record_part (media_of sv) session_id (u32_as_i32 part_number) (u64_as_i64 expected_len) with
           | (Ok _, t) => Ok (on_media sv t)
           | (Err _, _) => Err (refused Backpressure)
           end
  end.
Definition handle_multipart_part (env : Env) (sv : MediaServer) (session : Session) (session_id : list byte)
    (part_number expected_len : Z) : Frame * MediaServer :=
  match parse_session_id session_id, s_device_key session with
  | None, _ => (refused MalformedHeader, sv)
  | Some _, None => (refused WriterNotInAccessSet, sv)
  | Some uuid, Some device =>
      let '(ok, usage) := allow_request (en_limiter env) (sv_usage sv) device (en_now_ms env) in
      let sv := on_usage sv usage in
      if negb ok then (media_rate_limited, sv)
      else
        match found_multipart env sv uuid with
        | None => (refused MalformedHeader, sv)
        | Some m =>
            match authorize_group env sv session (ms_group m) with
            | Err _ => (refused WriterNotInAccessSet, sv)
            | Ok _ =>
                if ms_completed m || ms_aborted m || (part_number =? 0) || (expected_len =? 0) then (refused MalformedHeader, sv)
                else
                  match session_part_count m with
                  | None => (refused MalformedHeader, sv)
                  | Some max_parts =>
                      if max_parts <? part_number then (refused EnvelopeTooLarge, sv)
                      else
                        match issue_part env sv uuid m part_number expected_len with
                        | Err frame => (frame, sv)
                        | Ok sv =>
                            if en_fails env CallRefresh then (refused Backpressure, sv)
                            else
                              let sv := on_media sv (refresh_multipart (media_of sv) uuid PRESIGN_TTL_SECONDS (en_now env)) in
                              (presigned (own_part_key uuid part_number) METHOD_PUT (Some (u64_as_i64 expected_len))
                                 (λ url, BsMultipartPartUpload url PRESIGN_TTL_SECONDS), sv)
                        end
                  end
            end
        end
  end.

Definition part_le (a b : Z * list byte) : Prop := a.1 ≤ b.1.
#[local] Instance part_le_dec : RelDecision part_le.
Proof. intros a b. unfold part_le. apply _. Defined.
(** [windows(2)] with equal numbers. *)
Fixpoint repeats (l : list (Z * list byte)) : bool :=
  match l with
  | a :: (b :: _) as rest => (a.1 =? b.1) || repeats rest
  | _ => false
  end.
Fixpoint measure_parts (store : St) (keys : list BlobKey) (measured : Z) : result Frame Z :=
  match keys with
  | [] => Ok measured
  | key :: keys =>
      match head_of store key with
      | Ok (Some len) => measure_parts store keys (measured + len)
      | Ok None => Err (refused MalformedHeader)
      | Err e => Err (refused (if is_transient e then Backpressure else MalformedHeader))
      end
  end.
Definition delete_all (store : St) (keys : list BlobKey) : St := fold_left (λ s key, snd (remove s key)) keys store.

(** The session's parts put together, from the recorded ones on. *)
Definition finish_upload (env : Env) (sv : MediaServer) (store : St) (workspace : list byte) (uuid : Uuid) (m : MultipartSession)
    (parts : list (Z * list byte)) : Frame * MediaServer :=
  let recorded := recorded_parts (media_of sv) uuid in
  let ordered := merge_sort part_le parts in
  if repeats ordered then (refused MalformedHeader, sv)
  else if existsb (λ p : Z * list byte, negb (contains recorded (u32_as_i32 p.1))) ordered then (refused MalformedHeader, sv)
  else
    let keys := (λ p : Z * list byte, own_part_key uuid p.1) <$> ordered in
    match measure_parts store keys 0 with
    | Err frame => (frame, sv)
    | Ok measured =>
        if negb (measured =? ms_total_bytes m) then (refused HashMismatch, sv)
        else
          match object_key workspace (ms_group m) (ms_hash m) with
          | Err _ => (refused MalformedHeader, sv)
          | Ok final_key =>
              match assemble store keys final_key with
              | (Err _, store) => (refused Backpressure, on_store sv store)
              | (Ok _, store) =>
                  if en_fails env CallComplete then (refused Backpressure, on_store sv store)
                  else
                    (reply BsMultipartCompleted,
                     on_store (on_media sv (complete_multipart (media_of sv) uuid (en_now env))) (delete_all store keys))
              end
          end
    end.

Definition handle_multipart_complete (env : Env) (sv : MediaServer) (session : Session) (session_id : list byte)
    (parts : list (Z * list byte)) : Frame * MediaServer :=
  match parse_session_id session_id with
  | None => (refused MalformedHeader, sv)
  | Some uuid =>
      let '(ok, usage) :=
        match s_device_key session with
        | Some device => allow_request (en_limiter env) (sv_usage sv) device (en_now_ms env)
        | None => (true, sv_usage sv)
        end in
      let sv := on_usage sv usage in
      if negb ok then (media_rate_limited, sv)
      else
        match found_multipart env sv uuid with
        | None => (refused MalformedHeader, sv)
        | Some m =>
            match authorize_group env sv session (ms_group m) with
            | Err code => (refused code, sv)
            | Ok workspace =>
                if ms_aborted m then (refused MalformedHeader, sv)
                else if ms_completed m then (reply BsMultipartCompleted, sv)
                else
                  match sv_store sv with
                  | None => (refused Backpressure, sv)
                  | Some store =>
                      if en_fails env CallRecordedParts then (refused Backpressure, sv)
                      else finish_upload env sv store workspace uuid m parts
                  end
            end
        end
  end.

Definition handle_multipart_abort (env : Env) (sv : MediaServer) (session : Session) (session_id : list byte) :
    Frame * MediaServer :=
  match parse_session_id session_id with
  | None => (refused MalformedHeader, sv)
  | Some uuid =>
      match found_multipart env sv uuid with
      | None =>
          (if negb (en_fails env CallIsAborted) && multipart_is_aborted (media_of sv) uuid
           then reply BsMultipartAborted else refused MalformedHeader, sv)
      | Some m =>
          match authorize_group env sv session (ms_group m) with
          | Err code => (refused code, sv)
          | Ok workspace =>
              if ms_completed m then (refused MalformedHeader, sv)
              else if ms_aborted m then (reply BsMultipartAborted, sv)
              else
                let sv :=
                  match sv_store sv with
                  | Some store =>
                      if en_fails env CallRecordedParts then sv
                      else on_store sv (delete_all store (part_key_for uuid <$> recorded_parts (media_of sv) uuid))
                  | None => sv
                  end in
                let sv := if en_fails env CallAbort then sv
                          else on_media sv (abort_multipart (media_of sv) uuid (en_now env)) in
                let sv := if en_fails env CallRelease then sv
                          else on_media sv (snd (release_in (media_of sv) workspace (ms_reservation m))) in
                (reply BsMultipartAborted, sv)
          end
      end
  end.

(** ** Retention records *)
Definition genesis_publisher_is_in_the_access_set (env : Env) (session : Session) (workspace : list byte) :
    result ErrorCode unit :=
  match s_device_key session with
  | None => Err WriterNotInAccessSet
  | Some device =>
      if en_fails env CallAdmits then Err Backpressure
      else match admits (en_access env workspace) (en_now env / MICROS) device with
           | InSet => Ok tt
           | _ => Err WriterNotInAccessSet
           end
  end.

Definition handle_control (env : Env) (sv : MediaServer) (session : Session) (record : RetentionControl) : Frame * MediaServer :=
  match authorize_group env sv session (rc_group record) with
  | Err _ => (refused WriterNotInAccessSet, sv)
  | Ok workspace =>
      match (if rc_epoch record =? 0 then genesis_publisher_is_in_the_access_set env session workspace else Ok tt) with
      | Err code => (refused code, sv)
      | Ok _ =>
          if en_fails env CallControl then (refused Backpressure, sv)
          else
            match apply_control (sv_tables sv) (sv_tables sv) record with
            | (Ok ControlAccepted, t) => (reply (BsRetentionAck (control_digest record)), on_tables sv t)
            | (Ok (ConflictFroze | ConflictAlreadyFrozen), t) => (refused GroupFrozen, on_tables sv t)
            | (Ok (ControlInvalid _), t) => (refused MalformedHeader, on_tables sv t)
            | (Err _, t) => (refused Backpressure, on_tables sv t)
            end
      end
  end.

Definition handle_resolution (env : Env) (sv : MediaServer) (session : Session) (record : RetentionResolution) :
    Frame * MediaServer :=
  match authorize_group env sv session (rr_group record) with
  | Err _ => (refused WriterNotInAccessSet, sv)
  | Ok _ =>
      if en_fails env CallResolve then (refused Backpressure, sv)
      else
        match resolve_freeze (sv_tables sv) record with
        | (Retention.Cleared, t) => (reply BsRetentionResolved, on_tables sv t)
        | (ResolveBadSignature, t) => (refused MalformedHeader, on_tables sv t)
        | (UnknownVerifier, t) =>
            (Frame.Error (with_detail (FrameError_new WriterNotInAccessSet) (ascii_bytes "unknown_retention_verifier"%string)),
             on_tables sv t)
        end
  end.

(** The stored size of every hash a manifest would claim, against its charge. *)
Fixpoint measure_claims (env : Env) (sv : MediaServer) (store : St) (workspace group : list byte) (blobs : list (list byte)) :
    option Frame :=
  match blobs with
  | [] => None
  | hash :: blobs =>
      let next := measure_claims env sv store workspace group blobs in
      match (if en_fails env CallFindReservation then None else find_active_reservation (media_of sv) workspace group hash) with
      | None => next
      | Some (_, r) =>
          if negb (unfinalized r) then next
          else
            match object_key workspace group hash with
            | Err _ => next
            | Ok key =>
                match head_of store key with
                | Ok (Some len) => if b_bytes r <? len then Some (refused HashMismatch) else next
                | Ok None => next
                | Err e => if is_transient e then Some (refused Backpressure) else next
                end
            end
      end
  end.

Definition handle_manifest (env : Env) (sv : MediaServer) (session : Session) (record : RetentionManifest) : Frame * MediaServer :=
  match authorize_group env sv session (rm_group record) with
  | Err code => (refused code, sv)
  | Ok workspace =>
      match (match sv_store sv with
             | Some store => measure_claims env sv store workspace (rm_group record) (rm_blobs record)
             | None => None
             end) with
      | Some frame => (frame, sv)
      | None =>
          if en_fails env CallManifest then (refused Backpressure, sv)
          else
            match apply_manifest (sv_tables sv) (sv_tables sv) workspace record (en_now env) with
            | (Ok (ManifestAccepted digest), t) => (reply (BsRetentionAck digest), on_tables sv t)
            | (Ok (ManifestInvalid _), t) => (refused MalformedHeader, on_tables sv t)
            | (Err _, t) => (refused Backpressure, on_tables sv t)
            end
      end
  end.

Definition handle_position (env : Env) (sv : MediaServer) (session : Session) (group : list byte) : Frame * MediaServer :=
  match authorize_group env sv session group with
  | Err code => (refused code, sv)
  | Ok _ =>
      if en_fails env CallPosition then (refused Backpressure, sv)
      else
        let p := position (sv_tables sv) group in
        (reply (BsRetentionPosition (cp_control_epoch p) (cp_control_digest p) (cp_next_sequence p)
                  (cp_prev_manifest_hash p) (cp_blobs p)), sv)
  end.

Definition handle_quota (env : Env) (sv : MediaServer) (session : Session) (group : list byte) : Frame * MediaServer :=
  match entry env sv session group with
  | (Err frame, sv) => (frame, sv)
  | (Ok (workspace, _), sv) =>
      if negb (refuses_writes session) && en_fails env CallEnsureQuota then (refused Backpressure, sv)
      else
        let sv := if refuses_writes session then sv
                  else on_media sv (ensure_quota_row (media_of sv) workspace (limit_bytes (en_limit_gb env))) in
        if en_fails env CallUsage then (refused Backpressure, sv)
        else
          let u := media_usage (media_of sv) workspace in
          (reply (BsQuota (Z.max (q_stored u) 0) (Z.max (q_reserved u) 0) ((λ l, Z.max l 0) <$> q_limit u)), sv)
  end.

(** The verdict of [retention::authorize] over the workspace's access set. *)
Definition authorize_record (env : Env) (workspace message : list byte) (signatures : list Signature) (not_before : Z) :
    result unit Authorization :=
  if en_fails env CallAuthorize then Err tt
  else match read_prior (en_access env workspace) with
       | Err _ => Err tt
       | Ok prior => Ok (authorize prior message signatures not_before (en_now_ms env / 1000))
       end.

(** The policy in force bounds the next one: the same again is acknowledged, any
    other is the next version and no shorter. *)
Definition policy_follows (env : Env) (sv : MediaServer) (record : RetentionPolicy) : option bool :=
  match (if en_fails env CallActivePolicy then None else active_policy (sv_tables sv) (rp_group record)) with
  | Some previous =>
      if is_the_same_policy previous record then None
      else Some (negb (negb (rp_version record =? rp_version previous + 1)
                       || (rp_media_after_days record <? rp_media_after_days previous)))
  | None => Some (rp_version record =? 1)
  end.
Definition handle_policy (env : Env) (sv : MediaServer) (session : Session) (record : RetentionPolicy) : Frame * MediaServer :=
  let ack := reply (BsRetentionAck (blake3 (policy_signing_bytes record))) in
  match authorize_group env sv session (rp_group record) with
  | Err code => (refused code, sv)
  | Ok workspace =>
      if rp_media_after_days record <? MEDIA_GRACE_FLOOR_DAYS then (refused MalformedHeader, sv)
      else
        match policy_follows env sv record with
        | None => (ack, sv)
        | Some false => (refused MalformedHeader, sv)
        | Some true =>
            match authorize_record env workspace (policy_signing_bytes record) (rp_signatures record) (rp_not_before record) with
            | Err _ => (refused Backpressure, sv)
            | Ok (Threshold | SoleAuthorizerGraced) =>
                match (if en_fails env CallInsertPolicy then Err RetentionDatabase else insert_policy (sv_tables sv) record) with
                | Ok t => (ack, on_tables sv t)
                | Err _ => (refused Backpressure, sv)
                end
            | Ok other => (Frame.Error (authorization_error other (rp_not_before record) (en_now_ms env / 1000)), sv)
            end
        end
  end.

Definition handle_destruction (env : Env) (sv : MediaServer) (session : Session) (record : RetentionDestruction) :
    Frame * MediaServer :=
  match authorize_group env sv session (rx_group record) with
  | Err code => (refused code, sv)
  | Ok workspace =>
      match authorize_record env workspace (destruction_signing_bytes record) (rx_signatures record) (rx_not_before record) with
      | Err _ => (refused Backpressure, sv)
      | Ok (Threshold | SoleAuthorizerGraced) =>
          match (if en_fails env CallInsertDestruction then Err RetentionDatabase else insert_destruction (sv_tables sv) record) with
          | Ok (_, t) => (reply (BsRetentionAck (blake3 (destruction_signing_bytes record))), on_tables sv t)
          | Err _ => (refused Backpressure, sv)
          end
      | Ok other => (Frame.Error (authorization_error other (rx_not_before record) (en_now_ms env / 1000)), sv)
      end
  end.

(** ** The dispatch *)
Definition answered (r : Frame * MediaServer) : Reply * MediaServer := (Answered r.1, r.2).
Definition dispatch (env : Env) (sv : MediaServer) (session : Session) (request : BlobRequest) : Reply * MediaServer :=
  match request with
  | BqPut _ group hash ciphertext_len => answered (handle_put env sv session group hash ciphertext_len)
  | BqGet _ group hash => answered (handle_get env sv session group hash)
  | BqMultipartPart session_id part_number expected_len =>
      answered (handle_multipart_part env sv session session_id part_number expected_len)
  | BqMultipartComplete session_id parts => answered (handle_multipart_complete env sv session session_id parts)
  | BqMultipartAbort session_id => answered (handle_multipart_abort env sv session session_id)
  | BqList _ group => handle_list env sv session group
  | BqControl record => answered (handle_control env sv session record)
  | BqManifest record => answered (handle_manifest env sv session record)
  | BqPolicy record => answered (handle_policy env sv session record)
  | BqDestruction record => answered (handle_destruction env sv session record)
  | BqResolution record => answered (handle_resolution env sv session record)
  | BqPosition group => answered (handle_position env sv session group)
  | BqQuota group => answered (handle_quota env sv session group)
  end.
Definition handle (env : Env) (sv : MediaServer) (session : Session) (payload : list byte) : Reply * MediaServer :=
  match blob_request_decode payload with
  | Err _ => (Answered (refused MalformedHeader), sv)
  | Ok request =>
      if refuses_writes session && is_write request then (Answered (refused ServiceReadOnly), sv)
      else if negb (en_database env) then (Answered (refused Backpressure), sv)
      else dispatch env sv session request
  end.
End handlers.

(** ** What a request leaves alone *)
Section confinement.
Context `{Blake3, Ed25519} {St : Type} `{!BlobStore St, !BlobStoreLaws St}.
Variable presign : BlobKey → Method → option Z → result StorageError (list byte).
Implicit Types (sv : MediaServer (St := St)) (m : MediaTables) (t : RetentionTables).

(** One workspace's rows and figures, its groups' records, and its objects. *)
Definition media_kept (w : list byte) m m' : Prop :=
  (∀ i r, b_workspace r = w → md_rows m !! i = Some r ↔ md_rows m' !! i = Some r) ∧ md_quota m' !! w = md_quota m !! w.
Definition owner t (g : list byte) : option (list byte) := g_workspace <$> rt_groups t !! g.
Definition records_kept (w : list byte) t t' : Prop :=
  ∀ g, owner t g = Some w →
    rt_groups t' !! g = rt_groups t !! g
    ∧ (∀ e, rt_controls t' !! (g, e) = rt_controls t !! (g, e)) ∧ (∀ n, rt_manifests t' !! (g, n) = rt_manifests t !! (g, n))
    ∧ (∀ v, rt_policies t' !! (g, v) = rt_policies t !! (g, v))
    ∧ (∀ k d, rt_destructions t' !! (g, k, d) = rt_destructions t !! (g, k, d)).
Definition objects_kept (w : list byte) (s s' : option St) : Prop :=
  match s, s' with
  | Some s, Some s' => ∀ k, addressable k → k_workspace k = w → object s' k = object s k
  | None, None => True
  | _, _ => False
  end.
Definition untouched (w : list byte) sv sv' : Prop :=
  media_kept w (media_of sv) (media_of sv') ∧ records_kept w (sv_tables sv) (sv_tables sv')
  ∧ objects_kept w (sv_store sv) (sv_store sv').

Lemma media_kept_refl w m : media_kept w m m.
Proof. by split. Qed.
Lemma media_kept_same w m m' : md_rows m' = md_rows m → md_quota m' = md_quota m → media_kept w m m'.
Proof. intros Hr Hq. unfold media_kept. by rewrite Hr, Hq. Qed.
Lemma media_kept_trans w m m' m'' : media_kept w m m' → media_kept w m' m'' → media_kept w m m''.
Proof. intros [H1 Q1] [H2 Q2]. split; [|by rewrite Q2]. intros i r Hr. by rewrite H1, H2. Qed.
Lemma records_kept_refl w t : records_kept w t t.
Proof. intros g _. by split_and!. Qed.
Lemma records_kept_media w t x : records_kept w t (with_media t x).
Proof. intros g _. by split_and!. Qed.
Lemma objects_kept_refl w s : objects_kept w s s.
Proof. by destruct s. Qed.
Lemma untouched_refl w sv : untouched w sv sv.
Proof. split_and!; [apply media_kept_refl|apply records_kept_refl|apply objects_kept_refl]. Qed.
Lemma untouched_trans w sv sv1 sv2 : untouched w sv sv1 → untouched w sv1 sv2 → untouched w sv sv2.
Proof.
  intros (M1 & R1 & O1) (M2 & R2 & O2). split_and!; [by eapply media_kept_trans| |].
  - intros g Hg. destruct (R1 g Hg) as (G1 & C1 & F1 & P1 & D1).
    assert (owner (sv_tables sv1) g = Some w) as Hg' by (unfold owner in *; by rewrite G1).
    destruct (R2 g Hg') as (G2 & C2 & F2 & P2 & D2). split_and!; intros; congruence.
  - unfold objects_kept in *. destruct (sv_store sv), (sv_store sv1), (sv_store sv2); try done. intros k Ha Hk. rewrite O2 by done. by apply O1.
Qed.

Lemma untouched_usage w sv u : untouched w sv (on_usage sv u).
Proof. split_and!; [apply media_kept_refl|apply records_kept_refl|apply objects_kept_refl]. Qed.
Lemma untouched_media w sv x : media_kept w (media_of sv) x → untouched w sv (on_media sv x).
Proof. intros Hx. split_and!; [done|apply records_kept_media|apply objects_kept_refl]. Qed.
Lemma untouched_tables w sv t' :
  media_kept w (media_of sv) (rt_media t') → records_kept w (sv_tables sv) t' → untouched w sv (on_tables sv t').
Proof. intros Hm Hr. split_and!; [done|done|apply objects_kept_refl]. Qed.
Lemma untouched_store w sv s s' :
  sv_store sv = Some s → objects_kept w (Some s) (Some s') → untouched w sv (on_store sv s').
Proof. intros Hs Ho. split_and!; [apply media_kept_refl|apply records_kept_refl|]. by rewrite Hs. Qed.

(** ** The store's operations, by workspace *)
Lemma spend_kept w w0 open m f : w ≠ w0 → media_kept w m (spend open m w0 f).
Proof.
  intros Hne. split; [by intros i r _; rewrite spend_rows|]. unfold spend, spend_stored, spend_reserved, with_quota.
  destruct open; cbn; by rewrite lookup_alter_ne.
Qed.
Lemma insert_row_kept w m i r :
  b_workspace r ≠ w → (∀ r', md_rows m !! i = Some r' → b_workspace r' ≠ w) → media_kept w m (with_rows m (<[i := r]> (md_rows m))).
Proof.
  intros Hr Hi. split; [|done]. intros j x Hx. cbn. rewrite lookup_insert_Some. split.
  - intros Hj. right. split; [|done]. intros ->. by apply (Hi x).
  - intros [[-> <-]|[_ Hj]]; [done|done].
Qed.
Lemma delete_rows_kept w m gone : (∀ i r, gone i r = true → b_workspace r ≠ w) → media_kept w m (delete_rows m gone).
Proof.
  intros Hg. split; [|done]. intros i r Hr. cbn. rewrite map_lookup_filter_Some. split; [|by intros [? _]].
  intros Hi. split; [done|]. cbn. destruct (gone i r) eqn:He; [by apply Hg in He|done].
Qed.
Lemma ensure_kept w w0 m l : w ≠ w0 → media_kept w m (ensure_quota_row m w0 l).
Proof.
  intros Hne. unfold ensure_quota_row, with_quota. split; [done|]. cbn. case_match; by rewrite lookup_insert_ne.
Qed.
Lemma release_elsewhere w w0 m i : w ≠ w0 → media_kept w m (snd (release_in m w0 i)).
Proof.
  intros Hne. unfold release_in. destruct (row_in m w0 i true) as [r|] eqn:Hr; [|apply media_kept_refl]. cbn [snd].
  apply row_in_Some in Hr as (Hr & Hw & _). eapply media_kept_trans; [|by apply (spend_kept w w0 true)].
  apply (media_kept_trans w m (with_rows m (delete i (md_rows m)))).
  - split; [|done]. intros j x Hx. cbn. rewrite lookup_delete_Some. split; [|by intros [_ ?]]. intros Hj. split; [|done].
    intros ->. rewrite Hr in Hj. injection Hj as <-. congruence.
  - apply media_kept_same; [|done]. by rewrite delete_rows_one.
Qed.
Lemma claim_kept w w0 m g h now : w ≠ w0 → media_kept w m (snd (claim_in m w0 g h now)).
Proof.
  intros Hne. unfold claim_in. pose proof (in_flight_found m w0 g h) as Hf. destruct (in_flight m w0 g h) as [[i r]|]; [|apply media_kept_refl].
  destruct Hf as (Hr & (Hw & _ & _) & _). cbn [snd].
  eapply media_kept_trans; [|by apply (spend_kept w w0 false)]. eapply media_kept_trans; [|by apply (spend_kept w w0 true)].
  apply insert_row_kept; cbn; [congruence|]. intros r' Hr'. congruence.
Qed.
Lemma claim_all_kept w w0 blobs m g now m' : w ≠ w0 → claim_all m w0 g blobs now = Some m' → media_kept w m m'.
Proof.
  intros Hne. revert m. induction blobs as [|h blobs IH]; intros m; cbn [claim_all]; [intros [= <-]; apply media_kept_refl|].
  pose proof (claim_kept w w0 m g h now Hne) as Hc. destruct (claim_in m w0 g h now) as [[] m1]; cbn [snd] in Hc; try done;
    intros Hm%IH; by eapply media_kept_trans.
Qed.
Lemma retire_kept w w0 m g h : w ≠ w0 → media_kept w m (retire_stale m w0 g h).
Proof.
  intros Hne. unfold retire_stale. case_match; [apply media_kept_refl|].
  eapply media_kept_trans; [|by apply (spend_kept w w0 false)]. apply delete_rows_kept. intros i r Hs. unfold stale_for in Hs.
  apply andb_true_iff in Hs as [Hs _]. apply bool_decide_eq_true in Hs as (-> & _). congruence.
Qed.
Lemma retire_rows m w0 g h i : md_rows m !! i = None → md_rows (retire_stale m w0 g h) !! i = None.
Proof.
  intros Hi. unfold retire_stale. case_match; [done|]. rewrite (spend_rows false). cbn. apply map_lookup_filter_None. by left.
Qed.
Lemma reserve_kept w w0 m g h bytes stored ttl now fresh :
  w ≠ w0 → media_kept w m (snd (reserve m w0 g h bytes stored ttl now fresh)).
Proof.
  intros Hne. unfold reserve. destruct stored; [apply media_kept_refl|]. destruct (md_quota m !! w0); [|apply media_kept_refl].
  pose proof (in_flight_found m w0 g h) as Hf. destruct (in_flight m w0 g h) as [[i r]|].
  - destruct Hf as (Hr & (Hw & _ & _) & _). cbn [snd]. apply insert_row_kept; cbn; [congruence|]. intros r' Hr'. congruence.
  - cbv zeta. match goal with |- context [if ?over then (Ok OverQuota, _) else _] => destruct over; [apply media_kept_refl|] end.
    destruct (negb _ || _) eqn:Hc; [apply media_kept_refl|]. cbn [snd].
    apply orb_false_iff in Hc as [_ Hc]. apply bool_decide_eq_false, eq_None_not_Some in Hc.
    eapply media_kept_trans; [|by apply (spend_kept w w0 true)]. eapply media_kept_trans; [by apply (retire_kept w w0 m g h)|].
    apply insert_row_kept; cbn; [congruence|]. intros r' Hr'. by rewrite retire_rows in Hr'.
Qed.

(** ** The records, by group *)
Definition differs_at (g0 : list byte) t t' : Prop :=
  ∀ g, g ≠ g0 →
    rt_groups t' !! g = rt_groups t !! g
    ∧ (∀ e, rt_controls t' !! (g, e) = rt_controls t !! (g, e)) ∧ (∀ n, rt_manifests t' !! (g, n) = rt_manifests t !! (g, n))
    ∧ (∀ v, rt_policies t' !! (g, v) = rt_policies t !! (g, v))
    ∧ (∀ k d, rt_destructions t' !! (g, k, d) = rt_destructions t !! (g, k, d)).

Lemma differs_kept w w0 g0 t t' : w ≠ w0 → owner t g0 = Some w0 → differs_at g0 t t' → records_kept w t t'.
Proof. intros Hne Ho Hd g Hg. apply Hd. intros ->. congruence. Qed.

Lemma freeze_differs g0 t : differs_at g0 t (snd (freeze t g0)) ∧ rt_media (snd (freeze t g0)) = rt_media t.
Proof.
  unfold freeze. repeat case_match; (split; [|done]); intros g1 Hg1; cbn; split_and!; try done. by rewrite lookup_insert_ne.
Qed.
Lemma judge_settled_differs t c r : differs_at (rc_group r) t (snd (judge_settled t c r)) ∧ rt_media (snd (judge_settled t c r)) = rt_media t.
Proof.
  unfold judge_settled, record_conflict_and_freeze. case_match; [done|]. case_match; [done|]. case_match; [|done].
  match goal with |- context [freeze ?s ?g] => pose proof (freeze_differs g s) as [Hd Hm]; destruct (freeze s g) as [b t'] end.
  cbn [snd] in *. split; [|done]. intros g1 Hg1. by apply Hd.
Qed.
Lemma apply_control_differs seen t r :
  differs_at (rc_group r) t (snd (apply_control seen t r)) ∧ rt_media (snd (apply_control seen t r)) = rt_media t.
Proof.
  unfold apply_control. case_match; [|done]. case_match; [done|]. case_match; [apply judge_settled_differs|].
  case_match; [apply judge_settled_differs|]. case_match; [done|]. split; [|done]. intros g1 Hg1. cbn. split_and!; try done.
  intros e. by rewrite lookup_insert_ne by congruence.
Qed.
Lemma resolve_differs t r : differs_at (rr_group r) t (snd (resolve_freeze t r)) ∧ rt_media (snd (resolve_freeze t r)) = rt_media t.
Proof.
  unfold resolve_freeze. case_match; [done|]. case_match; [|done]. split; [|done]. intros g1 Hg1. cbn. split_and!; try done.
  by rewrite lookup_alter_ne.
Qed.
Lemma reject_differs t x fault :
  differs_at (rm_group x) t (snd (reject_manifest t x fault)) ∧ rt_media (snd (reject_manifest t x fault)) = rt_media t.
Proof. unfold reject_manifest. by case_match. Qed.
Lemma apply_manifest_differs seen t w0 x now w :
  w ≠ w0 →
  differs_at (rm_group x) t (snd (apply_manifest seen t w0 x now))
  ∧ media_kept w (rt_media t) (rt_media (snd (apply_manifest seen t w0 x now))).
Proof.
  intros Hne.
  assert (∀ fault, differs_at (rm_group x) t (snd (reject_manifest t x fault))
    ∧ media_kept w (rt_media t) (rt_media (snd (reject_manifest t x fault)))) as Hrej.
  { intros fault. destruct (reject_differs t x fault) as [Hd ->]. split; [done|apply media_kept_refl]. }
  unfold apply_manifest. case_match; [|apply Hrej]. cbv zeta. case_match; [split; [done|apply media_kept_refl]|].
  destruct (claim_all _ _ _ _ _) as [media|] eqn:Hc; [|apply Hrej]. cbn [snd rt_media].
  split; [|by eapply claim_all_kept]. intros g1 Hg1. cbn. split_and!; try done. intros n. by rewrite lookup_insert_ne by congruence.
Qed.
Lemma insert_policy_differs t p t' : insert_policy t p = Ok t' → differs_at (rp_group p) t t' ∧ rt_media t' = rt_media t.
Proof.
  unfold insert_policy. case_match; [done|]. intros [= <-]. split; [|done]. intros g1 Hg1. cbn. split_and!; try done.
  intros v. by rewrite lookup_insert_ne by congruence.
Qed.
Lemma insert_destruction_differs t x b t' : insert_destruction t x = Ok (b, t') → differs_at (rx_group x) t t' ∧ rt_media t' = rt_media t.
Proof.
  unfold insert_destruction. case_match; [done|]. case_match; intros [= <- <-]; [done|]. split; [|done]. intros g1 Hg1. cbn. split_and!; try done.
  intros k d. by rewrite lookup_insert_ne by congruence.
Qed.

(** ** The gates *)
Lemma authorize_group_Ok env sv session g w0 :
  authorize_group env sv session g = Ok w0 → authorized_workspace session = Some w0 ∧ owner (sv_tables sv) g = Some w0.
Proof.
  unfold authorize_group, owner. destruct (authorized_workspace session) as [w|]; [|done]. case_match; [done|].
  destruct (rt_groups _ !! g) as [x|]; [|done]. case_bool_decide; [|done]. intros [= <-]. cbn. by subst.
Qed.
Lemma entry_kept env sv session g w :
  untouched w sv (snd (entry env sv session g))
  ∧ ∀ w0 device, fst (entry env sv session g) = Ok (w0, device) →
      authorized_workspace session = Some w0 ∧ owner (sv_tables (snd (entry env sv session g))) g = Some w0.
Proof.
  unfold entry. destruct (authorize_group env sv session g) as [w0|] eqn:Ha; [|split; [apply untouched_refl|done]].
  destruct (s_device_key session); [|split; [apply untouched_refl|done]]. destruct (allow_request _ _ _ _) as [ok u]. cbn [fst snd].
  split; [apply untouched_usage|]. intros w1 d. destruct ok; [|done]. intros [= <- <-]. by apply authorize_group_Ok in Ha.
Qed.
End confinement.

(** ** Every handler, by workspace *)
Section confined_handlers.
Context `{Blake3, Ed25519} {St : Type} `{!BlobStore St, !BlobStoreLaws St}.
Variable presign : BlobKey → Method → option Z → result StorageError (list byte).
Implicit Types (sv : MediaServer (St := St)).
Context (session : Session) (w : list byte).
Hypothesis Hother : authorized_workspace session ≠ Some w.
Hypothesis Hmultipart : w ≠ MULTIPART.

Lemma other_workspace w0 : authorized_workspace session = Some w0 → w ≠ w0.
Proof using Hother. congruence. Qed.

Lemma delete_all_kept keys (s : St) : Forall (λ k, k_workspace k ≠ w) keys → objects_kept w (Some s) (Some (delete_all s keys)).
Proof using Type*.
  intros Hf k Ha Hk. unfold delete_all.
  apply (fold_left_keeps (λ s', object s' k = object s k)); [done|]. intros s' key Hin Hs. rewrite <- Hs.
  destruct (remove s' key) as [r s1] eqn:Hr. cbn [snd]. eapply remove_other; [exact Hr|]. intros ->.
  rewrite Forall_forall in Hf. by apply (Hf key).
Qed.

Lemma open_upload_kept env sv key i n w0 :
  w ≠ w0 → untouched w sv (snd (open_upload presign env sv key i n)).
Proof using Type*.
  intros Hne. unfold open_upload. case_match; [|apply untouched_refl]. case_match; [apply untouched_refl|].
  destruct (create_multipart _ _ _ _ _ _ _) as [[sid|] m'] eqn:Hc; [|apply untouched_refl]. unfold create_multipart in Hc.
  case_match; [done|]. injection Hc as <- <-. apply untouched_media. by apply media_kept_same.
Qed.

Lemma handle_put_kept env sv g h n : untouched w sv (snd (handle_put presign env sv session g h n)).
Proof using Hother Type*.
  unfold handle_put. destruct (entry_kept env sv session g w) as [He Ho]. destruct (entry env sv session g) as [[[w0 device]|frame] sv1]; [|done].
  cbn [fst snd] in *. destruct (Ho w0 device eq_refl) as [Hw _]. apply other_workspace in Hw.
  case_match; [done|]. case_match; [|done]. case_match; [|done]. unfold reserve_upload. case_match; [done|].
  eapply untouched_trans; [exact He|].
  match goal with |- context [on_media sv1 ?x] => assert (untouched w sv1 (on_media sv1 x)) as Hens by (apply untouched_media; by apply ensure_kept);
    generalize dependent (on_media sv1 x) end. intros sv2 Hens.
  case_match; [done|]. match goal with |- context [reserve ?a ?b ?c ?d ?e ?f ?g ?i ?j] => pose proof (reserve_kept w b a c d e f g i j Hw) as Hr;
    destruct (reserve a b c d e f g i j) as [[[rid| |]|] m'] end; cbn [snd] in *; try done;
    (eapply untouched_trans; [exact Hens|]); try by apply untouched_media.
  eapply untouched_trans; [by apply untouched_media|]. by eapply open_upload_kept.
Qed.

Lemma handle_get_kept env sv g h : untouched w sv (snd (handle_get presign env sv session g h)).
Proof using Type*.
  unfold handle_get. destruct (entry_kept env sv session g w) as [He _]. destruct (entry env sv session g) as [[[w0 device]|frame] sv1]; [|done].
  cbn [snd] in *. case_match; [|done]. case_match; [|done]. case_match; [|done]. case_match; [|done].
  destruct (allow_bytes _ _ _ _ _). cbn [snd]. eapply untouched_trans; [exact He|apply untouched_usage].
Qed.

Lemma handle_list_kept env sv g : untouched w sv (snd (handle_list env sv session g)).
Proof using Type*.
  unfold handle_list. destruct (entry_kept env sv session g w) as [He _]. destruct (entry env sv session g) as [[[w0 device]|frame] sv1]; [|done].
  cbn [snd] in *. repeat (case_match; try done).
Qed.

Lemma handle_quota_kept env sv g : untouched w sv (snd (handle_quota env sv session g)).
Proof using Hother Type*.
  unfold handle_quota. destruct (entry_kept env sv session g w) as [He Ho]. destruct (entry env sv session g) as [[[w0 device]|frame] sv1]; [|done].
  cbn [fst snd] in *. destruct (Ho w0 device eq_refl) as [Hw _]. apply other_workspace in Hw. case_match; [done|]. cbv zeta.
  assert (untouched w sv1 (on_media sv1 (ensure_quota_row (media_of sv1) w0 (limit_bytes (en_limit_gb env))))) as Hens
    by (apply untouched_media; by apply ensure_kept).
  eapply untouched_trans; [exact He|]. repeat case_match; cbn [snd]; try done; apply untouched_refl.
Qed.

Lemma issue_part_kept env sv i m n l sv' : issue_part env sv i m n l = Ok sv' → untouched w sv sv'.
Proof using Type*.
  unfold issue_part, record_part. destruct (if en_fails env CallExpectedLen then None else _) as [existing|].
  { destruct (existing =? l); [|done]. intros [= <-]. apply untouched_refl. }
  case_match; [done|]. case_match; [done|]. destruct (match md_sessions _ !! _ with Some _ => _ | None => _ end) as [[[]|] m'] eqn:Hr; [|done].
  intros [= <-]. apply untouched_media. repeat case_match; simplify_eq; by apply media_kept_same.
Qed.

Lemma handle_part_kept env sv sid n l : untouched w sv (snd (handle_multipart_part presign env sv session sid n l)).
Proof using Type*.
  unfold handle_multipart_part. case_match; [|apply untouched_refl]. case_match; [|apply untouched_refl].
  destruct (allow_request _ _ _ _) as [ok u]. assert (untouched w sv (on_usage sv u)) as Hu by apply untouched_usage. cbv zeta.
  generalize dependent (on_usage sv u). intros sv1 Hu. repeat (case_match; try done);
    match goal with Hi : issue_part _ _ _ _ _ _ = Ok _ |- _ => apply issue_part_kept in Hi as Hk end;
    cbn [snd]; (eapply untouched_trans; [exact Hu|]); [done|].
  eapply untouched_trans; [exact Hk|]. apply untouched_media. by apply media_kept_same.
Qed.

Lemma part_keys_elsewhere (f : Z → Z) uuid (ns : list Z) : Forall (λ k, k_workspace k ≠ w) ((λ n, own_part_key uuid (f n)) <$> ns).
Proof using Hmultipart. apply Forall_fmap, Forall_forall. intros n _. exact (not_eq_sym Hmultipart). Qed.

Lemma finish_upload_kept env sv s w0 uuid m parts :
  w ≠ w0 → sv_store sv = Some s → untouched w sv (snd (finish_upload env sv s w0 uuid m parts)).
Proof using Hmultipart Type*.
  intros Hw Hs. unfold finish_upload. cbv zeta. case_match; [apply untouched_refl|]. case_match; [apply untouched_refl|].
  set (keys := _ <$> merge_sort part_le parts). assert (Forall (λ k, k_workspace k ≠ w) keys) as Hkeys.
  { unfold keys. apply Forall_fmap, Forall_forall. intros p _. exact (not_eq_sym Hmultipart). } clearbody keys.
  case_match; [|apply untouched_refl]. case_match; [apply untouched_refl|].
  destruct (object_key w0 _ _) as [key|] eqn:Hk; [|apply untouched_refl].
  unfold object_key in Hk. apply blob_key_new_Ok in Hk as (-> & _). set (key := mkKey w0 _ _) in *.
  destruct (assemble s keys key) as [[n|e] s1] eqn:Ha.
  - assert (objects_kept w (Some s) (Some s1)) as Ho.
    { intros k Hadd Hkw. eapply assemble_other; [exact Ha|done|]. intros ->. by apply Hw. }
    case_match; cbn [snd]; [by eapply untouched_store|].
    split_and!; [by apply media_kept_same|apply records_kept_media|]. cbn [on_store on_media sv_store]. rewrite Hs.
    intros k Hadd Hkw. rewrite (delete_all_kept keys s1 Hkeys k) by done. by apply Ho.
  - cbn [snd]. eapply untouched_store; [exact Hs|]. intros k Hadd _. by eapply assemble_refused.
Qed.

Lemma handle_complete_kept env sv sid parts : untouched w sv (snd (handle_multipart_complete env sv session sid parts)).
Proof using Hother Hmultipart Type*.
  unfold handle_multipart_complete. case_match; [|apply untouched_refl].
  destruct (match s_device_key session with Some _ => _ | None => _ end) as [ok u].
  assert (untouched w sv (on_usage sv u)) as Hu by apply untouched_usage. cbv zeta. generalize dependent (on_usage sv u). intros sv1 Hu.
  case_match; [done|]. case_match; [|done]. destruct (authorize_group env sv1 session _) as [w0|] eqn:Ha; [|done].
  apply authorize_group_Ok in Ha as [Hw _]. apply other_workspace in Hw.
  case_match; [done|]. case_match; [done|]. destruct (sv_store sv1) as [s|] eqn:Hs; [|done]. case_match; [done|].
  eapply untouched_trans; [exact Hu|]. by apply finish_upload_kept.
Qed.

Lemma handle_abort_kept env sv sid : untouched w sv (snd (handle_multipart_abort env sv session sid)).
Proof using Hother Hmultipart Type*.
  unfold handle_multipart_abort. case_match; [|apply untouched_refl]. case_match; [|apply untouched_refl].
  destruct (authorize_group env sv session _) as [w0|] eqn:Ha; [|apply untouched_refl]. apply authorize_group_Ok in Ha as [Hw _].
  apply other_workspace in Hw. case_match; [apply untouched_refl|]. case_match; [apply untouched_refl|]. cbv zeta. cbn [snd].
  match goal with |- context [match sv_store sv with Some _ => _ | None => _ end] =>
    set (sv1 := match sv_store sv with Some _ => _ | None => _ end) end.
  assert (untouched w sv sv1) as H1'.
  { unfold sv1. destruct (sv_store sv) as [s|] eqn:Hs; [|apply untouched_refl]. case_match; [apply untouched_refl|].
    eapply untouched_store; [exact Hs|]. apply delete_all_kept. apply part_keys_elsewhere. }
  clearbody sv1. set (sv2 := if en_fails env CallAbort then _ else _).
  assert (untouched w sv1 sv2) as H2'.
  { unfold sv2. case_match; [apply untouched_refl|]. apply untouched_media. by apply media_kept_same. }
  clearbody sv2. eapply untouched_trans; [exact H1'|]. eapply untouched_trans; [exact H2'|].
  case_match; [apply untouched_refl|]. apply untouched_media. by apply release_elsewhere.
Qed.

(** A record's handler: the group is the session's, and only it differs. *)
Lemma record_kept sv t' g0 w0 :
  w ≠ w0 → owner (sv_tables sv) g0 = Some w0 → differs_at g0 (sv_tables sv) t' → media_kept w (media_of sv) (rt_media t') →
  untouched w sv (on_tables sv t').
Proof using Type*. intros Hw Ho Hd Hm. apply untouched_tables; [done|]. by eapply differs_kept. Qed.
Lemma record_kept_media sv t' g0 w0 :
  w ≠ w0 → owner (sv_tables sv) g0 = Some w0 → differs_at g0 (sv_tables sv) t' ∧ rt_media t' = media_of sv →
  untouched w sv (on_tables sv t').
Proof using Type*. intros Hw Ho [Hd Hm]. eapply record_kept; [done..|]. rewrite Hm. apply media_kept_refl. Qed.

Lemma handle_control_kept env sv r : untouched w sv (snd (handle_control env sv session r)).
Proof using Hother Type*.
  unfold handle_control. destruct (authorize_group env sv session _) as [w0|] eqn:Ha; [|apply untouched_refl].
  apply authorize_group_Ok in Ha as [Hw Ho]. apply other_workspace in Hw.
  destruct (if rc_epoch r =? 0 then _ else _); [|apply untouched_refl].
  destruct (en_fails env CallControl); [apply untouched_refl|]. pose proof (apply_control_differs (sv_tables sv) (sv_tables sv) r) as Hd.
  destruct (apply_control _ _ r) as [out t']. cbn [snd] in Hd. apply (record_kept_media sv t' _ w0 Hw Ho) in Hd. by repeat case_match.
Qed.
Lemma handle_resolution_kept env sv r : untouched w sv (snd (handle_resolution env sv session r)).
Proof using Hother Type*.
  unfold handle_resolution. destruct (authorize_group env sv session _) as [w0|] eqn:Ha; [|apply untouched_refl].
  apply authorize_group_Ok in Ha as [Hw Ho]. apply other_workspace in Hw. case_match; [apply untouched_refl|].
  pose proof (resolve_differs (sv_tables sv) r) as Hd. destruct (resolve_freeze _ r) as [out t']. cbn [snd] in Hd.
  apply (record_kept_media sv t' _ w0 Hw Ho) in Hd. by repeat case_match.
Qed.
Lemma handle_manifest_kept env sv r : untouched w sv (snd (handle_manifest env sv session r)).
Proof using Hother Type*.
  unfold handle_manifest. destruct (authorize_group env sv session _) as [w0|] eqn:Ha; [|apply untouched_refl].
  apply authorize_group_Ok in Ha as [Hw Ho]. apply other_workspace in Hw.
  destruct (match sv_store sv with Some _ => _ | None => _ end); [apply untouched_refl|]. case_match; [apply untouched_refl|].
  pose proof (apply_manifest_differs (sv_tables sv) (sv_tables sv) w0 r (en_now env) w Hw) as [Hd Hm].
  destruct (apply_manifest _ _ w0 r _) as [out t']. cbn [snd] in Hd, Hm. pose proof (record_kept sv t' _ w0 Hw Ho Hd Hm). by repeat case_match.
Qed.
Lemma handle_policy_kept env sv r : untouched w sv (snd (handle_policy env sv session r)).
Proof using Hother Type*.
  unfold handle_policy. destruct (authorize_group env sv session _) as [w0|] eqn:Ha; [|apply untouched_refl].
  apply authorize_group_Ok in Ha as [Hw Ho]. apply other_workspace in Hw. cbv zeta.
  destruct (if en_fails env CallInsertPolicy then _ else _) as [t'|] eqn:Hi; [|repeat case_match; apply untouched_refl].
  assert (insert_policy (sv_tables sv) r = Ok t') as Hi' by (by destruct (en_fails env CallInsertPolicy)).
  apply insert_policy_differs, (record_kept_media sv t' _ w0 Hw Ho) in Hi'. repeat case_match; (done || apply untouched_refl).
Qed.
Lemma handle_destruction_kept env sv r : untouched w sv (snd (handle_destruction env sv session r)).
Proof using Hother Type*.
  unfold handle_destruction. destruct (authorize_group env sv session _) as [w0|] eqn:Ha; [|apply untouched_refl].
  apply authorize_group_Ok in Ha as [Hw Ho]. apply other_workspace in Hw.
  destruct (if en_fails env CallInsertDestruction then _ else _) as [[b t']|] eqn:Hi; [|repeat case_match; apply untouched_refl].
  assert (insert_destruction (sv_tables sv) r = Ok (b, t')) as Hi' by (by destruct (en_fails env CallInsertDestruction)).
  apply insert_destruction_differs, (record_kept_media sv t' _ w0 Hw Ho) in Hi'. repeat case_match; (done || apply untouched_refl).
Qed.
Lemma handle_position_kept env sv g : untouched w sv (snd (handle_position env sv session g)).
Proof using Type*. unfold handle_position. repeat case_match; apply untouched_refl. Qed.

Lemma dispatch_kept env sv q : untouched w sv (snd (dispatch presign env sv session q)).
Proof using Hother Hmultipart Type*.
  destruct q; cbn [dispatch answered snd].
  - apply handle_put_kept.
  - apply handle_get_kept.
  - apply handle_part_kept.
  - apply handle_complete_kept.
  - apply handle_abort_kept.
  - apply handle_list_kept.
  - apply handle_control_kept.
  - apply handle_manifest_kept.
  - apply handle_policy_kept.
  - apply handle_destruction_kept.
  - apply handle_resolution_kept.
  - apply handle_position_kept.
  - apply handle_quota_kept.
Qed.
End confined_handlers.

(** C13. A media request reaches one workspace. Whatever a connection sends, and
    whatever fails while it is served, every other workspace keeps its
    reservations, its figures, its groups' freezes, controls, manifests, policies
    and destructions, and every object in the store under it. *)
Theorem media_request_confined `{Blake3, Ed25519} {St} `{!BlobStore St, !BlobStoreLaws St} presign env (sv : MediaServer (St := St))
    session payload w :
  authorized_workspace session ≠ Some w → w ≠ MULTIPART →
  untouched w sv (snd (handle presign env sv session payload)).
Proof.
  intros Hw Hm. unfold handle. case_match; [|apply untouched_refl]. case_match; [apply untouched_refl|].
  case_match; [apply untouched_refl|]. by apply dispatch_kept.
Qed.

(** A read-only connection reads. Whatever it sends, the tables and the store
    are as they were; only the device's own rate figures move. *)
Theorem read_only_media_changes_nothing `{Blake3, Ed25519} {St} `{!BlobStore St} presign env (sv : MediaServer (St := St)) session payload :
  refuses_writes session = true →
  let '(_, sv') := handle presign env sv session payload in
  sv_tables sv' = sv_tables sv ∧ sv_store sv' = sv_store sv.
Proof.
  intros Hro. unfold handle. destruct (blob_request_decode payload) as [q|]; [|done]. rewrite Hro.
  destruct (is_write q) eqn:Hw; cbn [andb]; [done|]. destruct (negb (en_database env)); [done|].
  assert (∀ g, sv_tables (snd (entry env sv session g)) = sv_tables sv ∧ sv_store (snd (entry env sv session g)) = sv_store sv) as He.
  { intros g. unfold entry. repeat case_match; done. }
  destruct q; try discriminate Hw; cbn [dispatch answered].
  - unfold handle_get. specialize (He group). destruct (entry env sv session group) as [res sv1]. cbn [snd] in He. destruct He as [He1 He2].
    repeat case_match; simplify_eq; cbn; split; congruence.
  - unfold handle_list. specialize (He group). destruct (entry env sv session group) as [res sv1]. cbn [snd] in He. destruct He as [He1 He2].
    repeat case_match; simplify_eq; cbn; split; congruence.
  - unfold handle_position. by repeat case_match.
  - unfold handle_quota. specialize (He group). destruct (entry env sv session group) as [res sv1]. cbn [snd] in He. destruct He as [He1 He2].
    rewrite Hro. repeat case_match; simplify_eq; cbn; split; congruence.
Qed.

(** ** The windows of a group's policies *)
Section windows.
Context `{Blake3, Ed25519} {St : Type} `{!BlobStore St}.
Implicit Types (sv : MediaServer (St := St)) (t : RetentionTables).

(** Versions run from one without a gap, and no later one is shorter. *)
Record windows_ok t : Prop := {
  win_version : ∀ g v p, rt_policies t !! (g, v) = Some p →
    1 ≤ v ∧ rp_version p = v ∧ ∀ u, 1 ≤ u ≤ v → is_Some (rt_policies t !! (g, u));
  win_grow : ∀ g v v' p p', rt_policies t !! (g, v) = Some p → rt_policies t !! (g, v') = Some p' → v ≤ v' →
    rp_media_after_days p ≤ rp_media_after_days p'
}.

Lemma windows_same t t' : rt_policies t' = rt_policies t → windows_ok t → windows_ok t'.
Proof. intros Heq [Hv Hg]. split; rewrite Heq; done. Qed.

Lemma windows_insert t p t' :
  policy_wf p → windows_ok t → insert_policy t p = Ok t' →
  (∀ v q, newest (rt_policies t) (rp_group p) = Some (v, q) → rp_version p = 1 ∨ (rp_version p = v + 1 ∧ rp_media_after_days q ≤ rp_media_after_days p)) →
  (newest (rt_policies t) (rp_group p) = None → rp_version p = 1) →
  windows_ok t'.
Proof.
  intros Hwf [Hv Hg] (-> & Hnew & _)%insert_policy_inv Hnext Hfirst; [|done]. cbn.
  (** Every policy of the group is older and no longer. *)
  assert (1 ≤ rp_version p ∧ (∀ u, 1 ≤ u < rp_version p → is_Some (rt_policies t !! (rp_group p, u)))
    ∧ ∀ u q, rt_policies t !! (rp_group p, u) = Some q → u < rp_version p ∧ rp_media_after_days q ≤ rp_media_after_days p) as (H1 & Hall & Hold).
  { assert (rp_version p = 1 → ∀ u q, rt_policies t !! (rp_group p, u) = Some q → False) as Hone.
    { intros Hp u q Hq. destruct (Hv _ _ _ Hq) as (Hu & _ & Hc). destruct (Hc 1 ltac:(lia)) as [x Hx]. rewrite Hp in Hnew. congruence. }
    destruct (newest (rt_policies t) (rp_group p)) as [[v q]|] eqn:Hn.
    - destruct (Hnext v q eq_refl) as [Hp|[Hp Hle]]; [split_and!; [lia|intros; lia|intros u x Hx; by destruct (Hone Hp u x)]|].
      apply newest_Some in Hn as [Hq Hmax]. destruct (Hv _ _ _ Hq) as (Hge & _ & Hc). split_and!; [lia|intros u Hu; apply Hc; lia|].
      intros u x Hx. pose proof (Hmax u x Hx). split; [lia|]. pose proof (Hg _ _ _ _ _ Hx Hq ltac:(lia)). lia.
    - specialize (Hfirst eq_refl). split_and!; [lia|intros; lia|intros u x Hx; by destruct (Hone Hfirst u x)]. }
  split; cbn.
  - intros g v q [[Heq <-]|[Hne Hq]]%lookup_insert_Some.
    + injection Heq as <- <-. split_and!; [done|done|]. intros u Hu. destruct (decide (u = rp_version p)) as [->|Hx];
        [rewrite lookup_insert_eq; by eexists|]. rewrite lookup_insert_ne by congruence. apply Hall. lia.
    + destruct (Hv _ _ _ Hq) as (? & ? & Hc). split_and!; [done|done|]. intros u Hu. apply lookup_insert_is_Some'. right. by apply Hc.
  - intros g v v' q q' [[Heq <-]|[Hne Hq]]%lookup_insert_Some [[Heq' <-]|[Hne' Hq']]%lookup_insert_Some Hle.
    + lia.
    + injection Heq as <- <-. destruct (Hold _ _ Hq'). lia.
    + injection Heq' as <- <-. by destruct (Hold _ _ Hq).
    + by eapply Hg.
Qed.

Lemma handle_policy_windows env sv session p :
  policy_wf p → windows_ok (sv_tables sv) → windows_ok (sv_tables (snd (handle_policy env sv session p))).
Proof.
  intros Hwf Hok. unfold handle_policy. case_match; [|done]. cbv zeta. case_match; [done|].
  destruct (policy_follows env sv p) as [[]|] eqn:Hf; [|done|done].
  destruct (if en_fails env CallInsertPolicy then _ else _) as [t'|] eqn:Hi; [|by repeat case_match].
  assert (insert_policy (sv_tables sv) p = Ok t') as Hi' by (by destruct (en_fails env CallInsertPolicy)).
  assert (windows_ok t') as Hok'; [|by repeat case_match].
  eapply windows_insert; [done|done|exact Hi'|..]; unfold policy_follows, active_policy in Hf.
  - intros v q Hn. rewrite Hn in Hf. destruct (en_fails env CallActivePolicy); [left; injection Hf as Hf; lia|]. cbn in Hf.
    destruct (is_the_same_policy q p); [done|]. injection Hf as Hf. right.
    apply newest_Some in Hn as [Hq _]. destruct (win_version _ Hok _ _ _ Hq) as (_ & Hqv & _). lia.
  - intros Hn. rewrite Hn in Hf. destruct (en_fails env CallActivePolicy); injection Hf as Hf; lia.
Qed.

(** Every other handler leaves the policies alone. *)
Lemma entry_tables env sv session g : sv_tables (snd (entry env sv session g)) = sv_tables sv.
Proof. unfold entry. by repeat case_match. Qed.
Lemma freeze_policies t g : rt_policies (snd (freeze t g)) = rt_policies t.
Proof. apply freeze_records. Qed.
Lemma judge_settled_policies t c r : rt_policies (snd (judge_settled t c r)) = rt_policies t.
Proof.
  unfold judge_settled, record_conflict_and_freeze. case_match; [done|]. case_match; [done|]. case_match; [|done].
  match goal with |- context [freeze ?s ?g] => pose proof (freeze_policies s g); by destruct (freeze s g) end.
Qed.
Lemma apply_control_policies seen t r : rt_policies (snd (apply_control seen t r)) = rt_policies t.
Proof. unfold apply_control. repeat (case_match; try done); apply judge_settled_policies. Qed.
Lemma apply_manifest_policies seen t w x now : rt_policies (snd (apply_manifest seen t w x now)) = rt_policies t.
Proof. unfold apply_manifest, reject_manifest. cbv zeta. by repeat (case_match; try done). Qed.
Lemma resolve_policies t r : rt_policies (snd (resolve_freeze t r)) = rt_policies t.
Proof. unfold resolve_freeze. by repeat case_match. Qed.
Lemma insert_destruction_policies t x b t' : insert_destruction t x = Ok (b, t') → rt_policies t' = rt_policies t.
Proof. unfold insert_destruction. repeat case_match; intros ?; by simplify_eq. Qed.

Lemma answered_policies (r : Frame * MediaServer (St := St)) : rt_policies (sv_tables (snd (answered r))) = rt_policies (sv_tables (snd r)).
Proof. done. Qed.
Lemma dispatch_policies presign env sv session q :
  (∀ p, q ≠ BqPolicy p) → rt_policies (sv_tables (snd (dispatch presign env sv session q))) = rt_policies (sv_tables sv).
Proof.
  intros Hq. destruct q; cbn [dispatch]; rewrite ?answered_policies.
  - unfold handle_put. pose proof (entry_tables env sv session group) as <-. destruct (entry env sv session group) as [res sv1].
    unfold reserve_upload, open_upload. cbv zeta. by repeat (case_match; try done).
  - unfold handle_get. pose proof (entry_tables env sv session group) as <-. destruct (entry env sv session group) as [res sv1].
    by repeat (case_match; try done).
  - unfold handle_multipart_part, issue_part. cbv zeta. by repeat (case_match; simplify_eq; try done).
  - unfold handle_multipart_complete, finish_upload. cbv zeta. by repeat (case_match; try done).
  - unfold handle_multipart_abort. cbv zeta. by repeat (case_match; try done).
  - unfold handle_list. pose proof (entry_tables env sv session group) as <-. destruct (entry env sv session group) as [res sv1].
    by repeat (case_match; try done).
  - unfold handle_control. pose proof (apply_control_policies (sv_tables sv) (sv_tables sv) record) as Hp.
    destruct (apply_control _ _ record) as [out t']. by repeat (case_match; try done).
  - unfold handle_manifest. destruct (authorize_group _ _ _ _) as [w|]; [|done].
    pose proof (apply_manifest_policies (sv_tables sv) (sv_tables sv) w record (en_now env)) as Hp.
    destruct (apply_manifest _ _ w record _) as [out t']. by repeat (case_match; try done).
  - by destruct (Hq record).
  - unfold handle_destruction. destruct (authorize_group _ _ _ _) as [w|]; [|done].
    destruct (if en_fails env CallInsertDestruction then _ else _) as [[b t']|] eqn:Hi; [|by repeat (case_match; try done)].
    assert (insert_destruction (sv_tables sv) record = Ok (b, t')) as Hi' by (by destruct (en_fails env CallInsertDestruction)).
    apply insert_destruction_policies in Hi'. by repeat (case_match; try done).
  - unfold handle_resolution. pose proof (resolve_policies (sv_tables sv) record) as Hp.
    destruct (resolve_freeze _ record) as [out t']. by repeat (case_match; try done).
  - unfold handle_position. by repeat (case_match; try done).
  - unfold handle_quota. pose proof (entry_tables env sv session group) as <-. destruct (entry env sv session group) as [res sv1].
    cbv zeta. by repeat (case_match; try done).
Qed.

(** One request of any connection. *)
Inductive media_step : MediaServer (St := St) → MediaServer (St := St) → Prop :=
| ms_handle presign env sv session payload : media_step sv (snd (handle presign env sv session payload)).

Lemma handle_windows presign env sv session payload :
  windows_ok (sv_tables sv) → windows_ok (sv_tables (snd (handle presign env sv session payload))).
Proof.
  intros Hok. unfold handle. destruct (blob_request_decode payload) as [q|] eqn:Hd; [|done].
  pose proof (parse_canonical MediaEncoding blob_request_wf blob_request_encode _ payload q Hd) as [Hwf _].
  case_match; [done|]. case_match; [done|]. assert ((∃ p, q = BqPolicy p) ∨ ∀ p, q ≠ BqPolicy p) as [[p ->]|Hn]
    by (destruct q; first [by left; eexists|by right]).
  - cbn [dispatch answered snd]. apply handle_policy_windows; [apply Hwf|done].
  - eapply windows_same; [|exact Hok]. by apply dispatch_policies.
Qed.
End windows.

(** The retention window of a group only grows. However policies arrive, on
    whatever connections and with whatever reads failing, the versions a group
    has accepted are numbered from one without a gap and no later one keeps
    media for fewer days than an earlier one. *)
Theorem policy_windows_never_shorten `{Blake3, Ed25519} {St} `{!BlobStore St} (sv sv' : MediaServer (St := St)) :
  rt_policies (sv_tables sv) = ∅ → rtc media_step sv sv' → windows_ok (sv_tables sv').
Proof.
  intros Hnone Hr. assert (windows_ok (sv_tables sv)) as Hok by (split; rewrite Hnone; intros *; by rewrite lookup_empty).
  clear Hnone. induction Hr as [|a b c [] _ IH]; [done|]. apply IH. by apply handle_windows.
Qed.

(** ** The handlers take the retention steps *)
Section steps.
Context `{Blake3, Ed25519} {St : Type} `{!BlobStore St}.

(** The moment a request is served at. *)
Definition moment_of (env : Env) : Moment := mkMoment (en_access env) (en_now_ms env).

Definition stays_or_steps (history : Moment → Prop) (sv sv' : MediaServer (St := St)) : Prop :=
  sv_tables sv' = sv_tables sv ∨ retain_step history (sv_tables sv) (sv_tables sv').

Lemma authorize_record_at env workspace message signatures not_before a :
  authorize_record env workspace message signatures not_before = Ok a → authorized a = true →
  authorized_at (moment_of env) workspace message signatures not_before = true.
Proof.
  unfold authorize_record, authorized_at. destruct (en_fails env CallAuthorize); [done|]. cbn.
  destruct (read_prior (en_access env workspace)); [|done]. by intros [= <-].
Qed.

Lemma authorize_group_row env (sv : MediaServer (St := St)) session group workspace :
  authorize_group env sv session group = Ok workspace →
  ∃ row, rt_groups (sv_tables sv) !! group = Some row ∧ g_workspace row = workspace.
Proof.
  unfold authorize_group. destruct (authorized_workspace session); [|done]. destruct (en_fails _ _); [done|].
  destruct (rt_groups (sv_tables sv) !! group) as [row|]; [|done]. case_bool_decide; [|done]. intros [= <-]. by exists row.
Qed.

(** A policy or a destruction enters the tables only as the step that judges it
    by the access set of the group's own workspace at that moment: the access
    tables and the clock the handler reads are the step's. *)
Theorem threshold_handlers_step (history : Moment → Prop) env (sv : MediaServer (St := St)) session :
  history (moment_of env) →
  (∀ p, policy_wf p → stays_or_steps history sv (snd (handle_policy env sv session p)))
  ∧ (∀ x, destruction_wf x → stays_or_steps history sv (snd (handle_destruction env sv session x))).
Proof.
  intros Hm. split.
  - intros p Hwf. unfold handle_policy. cbv zeta. destruct (authorize_group env sv session (rp_group p)) as [w|] eqn:Hg; [|by left].
    apply authorize_group_row in Hg as (row & Hrow & <-). case_match; [by left|]. case_match; [case_match|]; [|by left..].
    destruct (authorize_record env _ _ _ _) as [a|] eqn:Ha; [|by left].
    pose proof (authorize_record_at _ _ _ _ _ _ Ha) as Hat.
    destruct (if en_fails env CallInsertPolicy then _ else _) as [t'|] eqn:Hi; [|by left; destruct a].
    assert (insert_policy (sv_tables sv) p = Ok t') as Hi' by (by destruct (en_fails env CallInsertPolicy)).
    destruct a; try (by left); right; by eapply rs_policy; [..|apply Hat|].
  - intros x Hwf. unfold handle_destruction. destruct (authorize_group env sv session (rx_group x)) as [w|] eqn:Hg; [|by left].
    apply authorize_group_row in Hg as (row & Hrow & <-).
    destruct (authorize_record env _ _ _ _) as [a|] eqn:Ha; [|by left].
    pose proof (authorize_record_at _ _ _ _ _ _ Ha) as Hat.
    destruct (if en_fails env CallInsertDestruction then _ else _) as [[b t']|] eqn:Hi; [|by left; destruct a].
    assert (insert_destruction (sv_tables sv) x = Ok (b, t')) as Hi' by (by destruct (en_fails env CallInsertDestruction)).
    destruct a; try (by left); right; by eapply rs_destruction; [..|apply Hat|].
Qed.
End steps.

(** ** Concrete runs *)
Module MediaDemo.
#[local] Instance media_blake3 : Blake3 := poly_digest.
#[local] Instance media_ed25519 : Ed25519 := toy_verify.
Import RetentionDemo MediaGcDemo.

Definition url : BlobKey → Method → option Z → result StorageError (list byte) := λ _ _ _, Ok [].
Definition member : Session :=
  let s := fst (session_new (mkSessionConfig example_config Enforce LiveOff CallsOff) [] (mkProcess 0 [])) in
  mkSession Ready 0 [] [] (Some ws) [] None (s_min_enc s) None (Some k0) Full [] true true 1 LiveOff (budget_of s) false CallsOff (media_budget s).
Definition env (now : Z) (fresh : Uuid) : Env :=
  mkEnv true (λ _, false) (now / 1000) now Unlimited (λ _, fresh_db []) fresh default_rate_limiter.
Definition serving {St} (t : RetentionTables) (s : St) : MediaServer := mkServer t (Some s) ∅.
Definition later : Z := 100 * 3600 * MICROS.

(** A disk that refuses to say what is there. *)
Definition refusing : Disk := mkDisk (λ _, None) (λ _, false) (λ _, true) (λ _ _, false) (Some 0).
Definition outage : Files := mkFiles (fs_files bucket) refusing.

(** A member's [PUT] of an object that is stored and claimed, while the store
    cannot answer for it: the claimed row is retired as if the object were gone,
    and a day later the collector deletes the object, which the latest manifest
    still names. *)
Definition put_in_outage : Frame * MediaServer := handle_put url (env 10 [Byte.x09]) (serving claimed outage) member grp blob 7.
Theorem outage_put_loses_object :
  fst put_in_outage = reply (BsUpload [] PRESIGN_TTL_SECONDS)
  ∧ (λ e : Z * ManifestRow, mf_blobs e.2) <$> latest_manifest (sv_tables (snd put_in_outage)) grp = Some [blob]
  ∧ object (snd (fst (media_pass fair true true (sv_tables (snd put_in_outage)) bucket None false later 0 UNCLAIMED_GRACE_SECONDS 0)))
      blob_key = None.
Proof. by vm_compute. Qed.

(** A store that keeps lengths only, for objects too large to write out. *)
#[local] Instance length_store : BlobStore (gmap BlobKey Z) := {
  object s k := s !! k;
  head_of s k := Ok (s !! k);
  remove s k := (Ok tt, delete k s);
  list_entries s w g := Ok [];
  assemble s parts target :=
    let n := zsum (λ k, default 0 (s !! k)) parts in (Ok n, <[target := n]> s)
}.

Definition SIZE : Z := SINGLE_PART_MAX_BYTES + 1.
Definition session_a : Uuid := replicate 16 Byte.x0a.
Definition session_b : Uuid := replicate 16 Byte.x0b.
Definition parts_a : gmap BlobKey Z := <[own_part_key session_a 1 := SINGLE_PART_MAX_BYTES]> {[ own_part_key session_a 2 := 1 ]}.
Definition opened_a := snd (handle_put url (env 0 session_a) (serving t2 parts_a) member grp blob SIZE).
Definition opened_b := snd (handle_put url (env 1 session_b) opened_a member grp blob SIZE).
Definition issued_a :=
  snd (handle_multipart_part url (env 2 []) (snd (handle_multipart_part url (env 2 []) opened_b member session_a 1 SINGLE_PART_MAX_BYTES))
         member session_a 2 1).
Definition completed_a := handle_multipart_complete (env 3 []) issued_a member session_a [(1, []); (2, [])].
Definition aborted_b := handle_multipart_abort (env 4 []) (snd completed_a) member session_b.
Definition claim_after := handle_manifest (env 5 []) (snd aborted_b) member manifest1.

(** Two sessions of one reservation: the first completes the object, aborting
    the second releases the reservation both spent, and the object can neither
    be claimed nor uploaded again. *)
Theorem second_session_strands_object :
  fst completed_a = reply BsMultipartCompleted ∧ fst aborted_b = reply BsMultipartAborted
  ∧ fst (handle_manifest (env 4 []) (snd completed_a) member manifest1) = reply (BsRetentionAck (manifest_digest manifest1))
  ∧ fst claim_after = refused MalformedHeader
  ∧ fst (handle_put url (env 6 session_a) (snd claim_after) member grp blob SIZE) = reply BsExists.
Proof. by vm_compute. Qed.

(** One object whose name is not ASCII unwinds every listing of its group. *)
Definition planted : BlobKey := mkKey ws (hex grp) [Byte.x61; Byte.xc3; Byte.xa9; Byte.x62].
Theorem planted_name_stops_listing :
  fst (handle_list (env 0 []) (serving claimed (mkFiles {[ planted := mkFile [] None ]} StorageDemo.quiet)) member grp) = Panicked.
Proof. by vm_compute. Qed.

(** ** Instances of the theorems *)
Definition read_only : Session :=
  mkSession Ready 0 [] [] (Some ws) [] None 0 None (Some k0) ReadOnly [] true true 1 LiveOff (budget_of member) false CallsOff (media_budget member).
Definition put_payload : list byte := blob_request_encode (BqPut ws grp blob 7).

Lemma media_request_confined_witness :
  untouched (ascii_bytes "elsewhere"%string) (serving claimed bucket) (snd (handle url (env 10 [Byte.x09]) (serving claimed bucket) member put_payload)).
Proof. apply media_request_confined; by vm_compute. Defined.

Lemma read_only_media_changes_nothing_witness :
  sv_tables (snd (handle url (env 10 [Byte.x09]) (serving claimed bucket) read_only put_payload)) = claimed.
Proof.
  pose proof (read_only_media_changes_nothing url (env 10 [Byte.x09]) (serving claimed bucket) read_only put_payload eq_refl) as Hr.
  destruct (handle url (env 10 [Byte.x09]) (serving claimed bucket) read_only put_payload) as [r sv']. cbn [snd]. by destruct Hr as [-> _].
Defined.

Lemma policy_windows_never_shorten_witness :
  windows_ok (sv_tables (snd (handle url (env 10 []) (serving claimed bucket) member (blob_request_encode (BqPolicy policy))))).
Proof.
  apply (policy_windows_never_shorten (serving claimed bucket)); [by vm_compute|]. apply rtc_once. constructor.
Defined.
End MediaDemo.
