(* ===== verification/LifecycleWire.v ===== *)
(** * The compaction instruction on the wire

    Models [backend/wealdrelay/src/lifecycle/wire.rs]: the signed [DropBefore]
    record a [DROP] frame carries, the bytes its signature covers, and the two
    answers. Text is its UTF-8 bytes. *)

From Stdlib Require Import ZArith Lia.
From stdpp Require Import base tactics numbers list.
From S2P Require Import Prelude Cbor Crypto Access MediaWire.

Open Scope Z_scope.

Definition MAX_SNAPSHOTS : nat := 4096.

Inductive LifecycleWireError : Type :=
| LifecycleEncoding (error : CborError)
| TooManySnapshots
| UnknownLifecycleTag (tag : Z).

Abbreviation llift := (rd_map_err LifecycleEncoding).

Definition TAG_DROP_BEFORE : Z := 1.
Definition RTAG_DROPPED : Z := 1.
Definition RTAG_REFUSED : Z := 2.

Definition encode_hashes (items : list (list byte)) : list byte := array (map bytes items).
Definition read_hashes : rd LifecycleWireError (list (list byte)) :=
  count <- llift rd_array_header ;;
  if (MAX_SNAPSHOTS <? count)%nat then rd_fail TooManySnapshots else rd_times count (llift (rd_bytes_of HASH_BYTES)).

Record DropBefore : Type := mkDropBefore {
  db_group : list byte;
  db_manifest_hash : list byte;
  db_snapshots : list (list byte);
  db_epoch : Z;
  db_policy_version : option Z;
  db_destruction_digest : option (list byte);
  db_sig : list byte
}.

Definition drop_signing_bytes (r : DropBefore) : list byte :=
  array [bytes (db_group r); bytes (db_manifest_hash r); encode_hashes (db_snapshots r); uint (db_epoch r);
         encode_version (db_policy_version r); optional_bytes (db_destruction_digest r)].
Definition drop_encoded_body (r : DropBefore) : list byte :=
  array [bytes (db_group r); bytes (db_manifest_hash r); encode_hashes (db_snapshots r); uint (db_epoch r);
         encode_version (db_policy_version r); optional_bytes (db_destruction_digest r); bytes (db_sig r)].
Definition drop_encode (r : DropBefore) : list byte := array [uint TAG_DROP_BEFORE; drop_encoded_body r].

Definition drop_decode_body : rd LifecycleWireError DropBefore :=
  llift (rd_array 7) ;;;
  group <- llift (rd_bytes_of HASH_BYTES) ;; manifest_hash <- llift (rd_bytes_of HASH_BYTES) ;;
  snapshots <- read_hashes ;; epoch <- llift rd_uint ;;
  policy_version <- read_version_with LifecycleEncoding TooManySnapshots ;;
  destruction_digest <- llift rd_optional_bytes ;; sig <- llift (rd_bytes_of SIG_BYTES) ;;
  rd_ret (mkDropBefore group manifest_hash snapshots epoch policy_version destruction_digest sig).
Definition read_drop : rd LifecycleWireError DropBefore :=
  llift (rd_array 2) ;;; tag <- llift rd_uint ;;
  if tag =? TAG_DROP_BEFORE then drop_decode_body else rd_fail (UnknownLifecycleTag tag).
Definition drop_decode (bs : list byte) : result LifecycleWireError DropBefore := parse LifecycleEncoding read_drop bs.

(** ** The answers *)
Inductive DropResponse : Type :=
| Dropped (deleted bytes kept : Z)
| DropRefused (reason : list byte).

Definition drop_response_encode (a : DropResponse) : list byte :=
  match a with
  | Dropped deleted count kept => array [uint RTAG_DROPPED; array [uint deleted; uint count; uint kept]]
  | DropRefused reason => array [uint RTAG_REFUSED; array [bytes reason]]
  end.

Definition read_drop_response : rd LifecycleWireError DropResponse :=
  llift (rd_array 2) ;;; tag <- llift rd_uint ;;
  if tag =? RTAG_DROPPED then
    llift (rd_array 3) ;;; deleted <- llift rd_uint ;; count <- llift rd_uint ;; kept <- llift rd_uint ;;
    rd_ret (Dropped deleted count kept)
  else if tag =? RTAG_REFUSED then
    llift (rd_array 1) ;;; reason <- llift rd_bytes ;; rd_ret (DropRefused (from_utf8_lossy reason))
  else rd_fail (UnknownLifecycleTag tag).
Definition drop_response_decode (bs : list byte) : result LifecycleWireError DropResponse :=
  parse LifecycleEncoding read_drop_response bs.

(** ** Exact decoding *)
Definition snapshots_ok (l : list (list byte)) : Prop := Forall is_hash l ∧ (length l ≤ MAX_SNAPSHOTS)%nat.
Definition drop_wf (r : DropBefore) : Prop :=
  is_hash (db_group r) ∧ is_hash (db_manifest_hash r)
  ∧ snapshots_ok (db_snapshots r) ∧ is_u64 (db_epoch r) ∧ version_ok (db_policy_version r)
  ∧ opt_ok (db_destruction_digest r) ∧ is_sig (db_sig r).

#[global] Instance hashes_codec : WireCodec snapshots_ok encode_hashes read_hashes.
Proof.
  apply (capped_codec LifecycleEncoding MAX_SNAPSHOTS (λ _, TooManySnapshots)); [by vm_compute| |apply length_bytes_pos].
  change (WireCodec (λ v, length v = 32%nat) bytes (llift (rd_bytes_of 32))). apply _.
Qed.

Lemma length_encode_hashes_pos l : (1 ≤ length (encode_hashes l))%nat.
Proof. apply length_array_pos. Qed.
Lemma length_drop_body_pos r : (1 ≤ length (drop_encoded_body r))%nat.
Proof. apply length_array_pos. Qed.

#[global] Instance drop_body_codec : WireCodec drop_wf drop_encoded_body drop_decode_body.
Proof.
  split.
  - intros [g m l e v d s] (Hg & Hm & Hl & He & Hv & Hd & Hs). unfold is_hash, is_sig in Hg, Hm, Hs. cbn in Hg, Hm, Hl, He, Hv, Hd, Hs.
    unfold drop_decode_body, drop_encoded_body.
    cbn [db_group db_manifest_hash db_snapshots db_epoch db_policy_version db_destruction_digest db_sig].
    pose proof (length_encode_hashes_pos l). pose proof (length_encode_version_pos v). pose proof (length_optional_bytes_pos d).
    accept_record.
  - intros r x r' Hd. unfold drop_decode_body in Hd. do 8 sound_step Hd. injection Hd as <- <-.
    split; [by split_and!|]. unfold drop_encoded_body.
    cbn [db_group db_manifest_hash db_snapshots db_epoch db_policy_version db_destruction_digest db_sig]. sound_chain.
Qed.

#[global] Instance drop_codec : WireCodec drop_wf drop_encode read_drop.
Proof.
  split.
  - intros x Hx. unfold read_drop, drop_encode.
    pose proof (length_drop_body_pos x).
    apply accepts_array_items; [done|by vm_compute|length_items|cbn [concat]].
    eapply accepts_field; [by apply codec_accepts|cbv beta]. rewrite app_nil_r. by apply codec_accepts.
  - intros r x r' Hd. unfold read_drop in Hd. do 2 sound_step Hd.
    match type of Hd with (if ?t =? _ then _ else _) _ = _ => destruct (Z.eqb_spec t TAG_DROP_BEFORE) as [->|] end; [|discriminate].
    apply codec_sound in Hd as [Hwf Hd]. split; [done|]. unfold drop_encode. sound_chain.
Qed.

Definition drop_response_wf (a : DropResponse) : Prop :=
  match a with
  | Dropped deleted count kept => is_u64 deleted ∧ is_u64 count ∧ is_u64 kept
  | DropRefused reason => text_ok reason
  end.

Lemma accepts_drop_response a : drop_response_wf a → accepts 0 read_drop_response (drop_response_encode a) a.
Proof.
  intros Hwf. unfold read_drop_response, drop_response_encode. destruct a as [deleted count kept|reason].
  - destruct Hwf as (Hd & Hc & Hk). pose proof (length_array_pos [uint deleted; uint count; uint kept]).
    apply accepts_array_items; [done|by vm_compute|length_items|cbn [concat]].
    eapply accepts_field; [by apply codec_accepts|cbv beta]. rewrite app_nil_r.
    change (RTAG_DROPPED =? RTAG_DROPPED) with true. cbv iota. accept_record.
  - destruct Hwf as [Hv Hu]. pose proof (length_array_pos [bytes reason]).
    apply accepts_array_items; [done|by vm_compute|length_items|cbn [concat]].
    eapply accepts_field; [by apply codec_accepts|cbv beta]. rewrite app_nil_r.
    change (RTAG_REFUSED =? RTAG_DROPPED) with false. change (RTAG_REFUSED =? RTAG_REFUSED) with true. cbv iota.
    accept_record. rewrite (from_utf8_lossy_valid _ Hu). apply accepts_ret.
Qed.

(** The instruction on the wire is exact: the relay accepts precisely the
    canonical encodings of well-formed instructions, and a client reads back
    every answer it is given. *)
Theorem drop_wire_exact :
  (∀ bs r, drop_decode bs = Ok r ↔ drop_wf r ∧ drop_encode r = bs)
  ∧ (∀ a, drop_response_wf a → drop_response_decode (drop_response_encode a) = Ok a).
Proof.
  split.
  - intros bs r. split.
    + intros Hd. exact (parse_canonical LifecycleEncoding drop_wf drop_encode _ bs r Hd).
    + intros [Hw <-]. exact (parse_encode LifecycleEncoding drop_wf drop_encode _ r Hw).
  - intros a Hwf. unfold drop_response_decode. by apply parse_accepts, accepts_drop_response.
Qed.

(** ** What the signature covers *)
Definition unsigned_drop (r : DropBefore) : DropBefore :=
  mkDropBefore (db_group r) (db_manifest_hash r) (db_snapshots r) (db_epoch r) (db_policy_version r)
    (db_destruction_digest r) blank_sig.

(** An instruction's six fields begin with two hashes and a list; a policy's
    second field is a number and a destruction's third a string. *)
Lemma drop_not_record d r : drop_wf d → record_wf r → drop_signing_bytes d ≠ record_signing_bytes r.
Proof.
  intros (Hg & Hm & [_ Hl] & _) Hr Heq. unfold MAX_SNAPSHOTS in Hl.
  destruct r as [c|c|m|p|x]; cbn [record_signing_bytes record_wf] in *;
    try (pose proof (λ Hn Hm, array_count _ _ _ _ Hn Hm eq_refl eq_refl Heq) as Hc; cbn [length] in Hc;
         specialize (Hc ltac:(lia) ltac:(lia)); discriminate Hc);
    unfold drop_signing_bytes, policy_signing_bytes, destruction_signing_bytes in Heq;
    rewrite !array_unfold in Heq; apply app_inv_head in Heq; cbn [concat] in Heq;
    apply (codec_inj (λ v, length v = 32%nat) bytes (rd_bytes_of 32)) in Heq as [_ Heq];
    [|apply Hg|apply Hr| |apply Hg|apply Hr].
  - unfold bytes at 1, uint at 1 in Heq. rewrite <- (app_assoc (head MAJOR_BYTES _)) in Heq.
    apply head_major_inj in Heq; [done|by vm_compute|by vm_compute|unfold is_u64, len, is_hash in *; rewrite Hm; by vm_compute|apply Hr].
  - apply (codec_inj vec_ok bytes rd_bytes) in Heq as [_ Heq];
      [|unfold vec_ok, len, is_hash in *; rewrite Hm; by vm_compute|apply Hr].
    change (bytes (rx_target_digest x)) with (head MAJOR_BYTES (len (rx_target_digest x)) ++ rx_target_digest x) in Heq.
    unfold encode_hashes, array in Heq. rewrite <- !app_assoc in Heq.
    apply head_major_inj in Heq; [done|by vm_compute|by vm_compute| |].
    + rewrite length_map. unfold is_u64, U64_MAX. lia.
    + destruct Hr as (_ & _ & Ht & _). unfold is_u64, len, is_hash in *. rewrite Ht. by vm_compute.
Qed.

(** A signature over an instruction authorizes that instruction and nothing
    else: two well-formed instructions with the same signed bytes differ in
    nothing but the signature, and the bytes signed are never those of a
    retention control, resolution, manifest, policy or destruction, although
    the key that signs it signs manifests and controls too. *)
Theorem drop_signature_binds d :
  drop_wf d →
  (∀ d', drop_wf d' → drop_signing_bytes d = drop_signing_bytes d' → unsigned_drop d = unsigned_drop d')
  ∧ ∀ r, record_wf r → drop_signing_bytes d ≠ record_signing_bytes r.
Proof.
  intros Hd. split; [|intros r Hr; by apply drop_not_record]. intros d' Hd' Heq.
  pose proof (array_snoc _ (bytes blank_sig) _ Heq eq_refl) as He.
  apply (encode_inj drop_wf drop_encoded_body drop_decode_body); [| |exact He];
    by destruct Hd as (? & ? & ? & ? & ? & ? & ?), Hd' as (? & ? & ? & ? & ? & ? & ?); split_and!.
Qed.

(** ** A concrete instruction *)
Module LifecycleWireDemo.
Definition an_instruction : DropBefore :=
  mkDropBefore (replicate 32 Byte.x01) (replicate 32 Byte.x02) [replicate 32 Byte.x03] 4 (Some 1) None (replicate 64 Byte.x05).

Lemma drop_wire_exact_witness :
  drop_decode (drop_encode an_instruction) = Ok an_instruction
  ∧ drop_response_decode (drop_response_encode (Dropped 3 700 1)) = Ok (Dropped 3 700 1).
Proof.
  destruct drop_wire_exact as [Hq Ha]. split.
  - apply (proj2 (Hq _ _)). split; [|done]. split_and!; try by vm_compute. split; [by repeat constructor|cbn; unfold MAX_SNAPSHOTS; lia].
  - apply Ha. by vm_compute.
Defined.

Lemma drop_signature_binds_witness :
  drop_signing_bytes an_instruction ≠ record_signing_bytes (SgControl MediaWireDemo.a_control).
Proof.
  apply (drop_signature_binds an_instruction); [|by vm_compute].
  split_and!; try by vm_compute. split; [by repeat constructor|cbn; unfold MAX_SNAPSHOTS; lia].
Defined.
End LifecycleWireDemo.
