(* ===== verification/Lifecycle.v ===== *)
(** * Text compaction: [lifecycle/mod.rs] and [lifecycle/store.rs]

    The relay never decides what to drop. A client signs a [DropBefore], the
    group's retention records authorize it, and the handler refuses every
    instruction that is not exactly what it claims to be; one transaction then
    records the checkpoint and its anchors, deletes what lies below the
    checkpoint's own place in the log, and writes down what it did.

    The tables are those of [Accept] and [Retention] (one [relay_group]) and the
    three of [0007_lifecycle.sql]. Every check is a read of its own, taken from
    the pool and not from the transaction, so the model gives each its own view
    of the tables ([reads]); [None] is a database that does not answer. The view
    of [ReadDrop] is the snapshot the statements of the transaction see; the
    state it commits to is another.

    The theorems: an accepted instruction passed every check, and a refused one
    changed nothing; the deletion is exact; as long as no other instruction of
    the group overtakes it, a checkpoint's anchors are kept forever and the byte
    counter stays the sum of what is stored. What happens otherwise is the last
    part. *)

From Stdlib Require Import ZArith Lia String.
From stdpp Require Import base tactics numbers gmap sets fin_maps countable functions relations sorting list.
From S2P Require Import Prelude Cbor Push Frame Crypto Access AccessChain Envelope Accept Session MediaWire MediaStore Retention MediaGc LifecycleWire.

Open Scope Z_scope.

(** ** The tables *)
Record CheckpointRow : Type := mkCheckpoint { ck_barrier_seq : Z; ck_epoch : Z }.
Record DropRun : Type := mkDropRun {
  dr_manifest_hash : list byte;
  dr_barrier_seq : Z;
  dr_deleted_count : Z;
  dr_deleted_bytes : Z;
  dr_kept_count : Z
}.
(** A row of [relay_drop_run]; [id] is its place in the list. *)
Record DropRunRow : Type := mkRunRow { rw_group : GroupId; rw_ran_at : Z; rw_run : DropRun }.

Record LifeTables : Type := mkLife {
  lf_ret : RetentionTables;
  lf_envelopes : gmap (GroupId * list byte) EnvelopeRow;
  lf_used : gmap WorkspaceId Z;
  lf_checkpoints : gmap (GroupId * list byte) CheckpointRow;
  lf_anchors : gset (GroupId * list byte * list byte);
  lf_runs : list DropRunRow
}.

(** The part of the tables [accept] works on. *)
Definition lf_store (s : LifeTables) : Store := mkStore (rt_groups (lf_ret s)) (lf_envelopes s) (lf_used s).
Definition on_log (s : LifeTables) (st : Store) : LifeTables :=
  mkLife (with_groups (lf_ret s) (groups st)) (envelopes st) (log_used st) (lf_checkpoints s) (lf_anchors s) (lf_runs s).
Definition on_ret (s : LifeTables) (t : RetentionTables) : LifeTables :=
  mkLife t (lf_envelopes s) (lf_used s) (lf_checkpoints s) (lf_anchors s) (lf_runs s).

Inductive LifeError : Type := LifeDatabase.

Record DropOutcome : Type := mkOutcome { do_deleted : Z; do_bytes : Z; do_kept : Z }.

(** ** The store *)
Definition seq_of (s : LifeTables) (group hash : list byte) : option Z := r_seq <$> lf_envelopes s !! (group, hash).

Definition missing_envelopes (s : LifeTables) (group : list byte) (wanted : list (list byte)) : list (list byte) :=
  filter (λ hash, lf_envelopes s !! (group, hash) = None) wanted.

(** [exists (select 1 from relay_checkpoint_anchor ...)]: an anchor of any
    checkpoint the group has. *)
Definition anchored (anchors : gset (GroupId * list byte * list byte)) (group hash : list byte) : Prop :=
  set_Exists (λ a, a.1.1 = group ∧ a.2 = hash) anchors.
#[global] Instance anchored_dec anchors group hash : Decision (anchored anchors group hash).
Proof. unfold anchored. apply _. Defined.

Definition below_barrier (group : list byte) (barrier : Z) (e : (GroupId * list byte) * EnvelopeRow) : Prop :=
  e.1.1 = group ∧ r_seq e.2 < barrier.
#[global] Instance below_barrier_dec group barrier e : Decision (below_barrier group barrier e).
Proof. unfold below_barrier. apply _. Defined.

(** The condition of the [delete] and of the sum of bytes before it. *)
Definition doomed (anchors : gset (GroupId * list byte * list byte)) (group : list byte) (barrier : Z)
    (e : (GroupId * list byte) * EnvelopeRow) : Prop :=
  below_barrier group barrier e ∧ ¬ anchored anchors group e.1.2.
#[global] Instance doomed_dec anchors group barrier e : Decision (doomed anchors group barrier e).
Proof. unfold doomed. apply _. Defined.

(** The row a statement saw is the row stored now: a hash sent again after it
    was dropped is a new row with a new number. *)
Definition same_row (snap : LifeTables) (e : (GroupId * list byte) * EnvelopeRow) : Prop :=
  seq_of snap e.1.1 e.1.2 = Some (r_seq e.2).
#[global] Instance same_row_dec snap e : Decision (same_row snap e).
Proof. unfold same_row. apply _. Defined.

Definition ct_bytes (k : GroupId * list byte) (r : EnvelopeRow) : Z := charge_of (r_ct r).

(** The delete trigger of [0010_envelope_budget.sql]. *)
Definition credit_used (s : LifeTables) (group : list byte) (freed : gmap (GroupId * list byte) EnvelopeRow) :
    gmap WorkspaceId Z :=
  if decide (freed = ∅) then lf_used s
  else match rt_groups (lf_ret s) !! group with
       | Some row => alter (λ used, Z.max 0 (used - msum ct_bytes freed)) (g_workspace row) (lf_used s)
       | None => lf_used s
       end.

Definition anchor_rows (group manifest_hash : list byte) (snapshots : list (list byte)) :
    gset (GroupId * list byte * list byte) :=
  list_to_set (map (λ hash, (group, manifest_hash, hash)) (manifest_hash :: snapshots)).

(** [on conflict do update set barrier_seq]: the first epoch stays. *)
Definition upsert_checkpoint (s : LifeTables) (group manifest_hash : list byte) (barrier epoch : Z) :
    gmap (GroupId * list byte) CheckpointRow :=
  <[(group, manifest_hash) :=
      match lf_checkpoints s !! (group, manifest_hash) with
      | Some old => mkCheckpoint barrier (ck_epoch old)
      | None => mkCheckpoint barrier (u64_as_i64 epoch)
      end]> (lf_checkpoints s).

(** One transaction, begun at [at_]: its statements see [snap] and what it has
    itself written, and it commits to [s]. *)
Definition store_drop_before (snap s : LifeTables) (group manifest_hash : list byte) (barrier epoch : Z)
    (snapshots : list (list byte)) (at_ : Z) : result LifeError DropOutcome * LifeTables :=
  let own := anchor_rows group manifest_hash snapshots in
  if negb (bool_decide (is_Some (rt_groups (lf_ret s) !! group))) || (barrier <? 1)
     || negb (forallb (λ hash : list byte, (length hash =? 32)%nat) (manifest_hash :: snapshots))
  then (Err LifeDatabase, s)
  else
    let condemned := doomed (lf_anchors snap ∪ own) group barrier in
    let below := Z.of_nat (size (filter (below_barrier group barrier) (lf_envelopes snap))) in
    let bytes := msum ct_bytes (filter condemned (lf_envelopes snap)) in
    let removed := filter (λ e, condemned e ∧ same_row snap e) (lf_envelopes s) in
    let deleted := Z.of_nat (size removed) in
    let kept := below - deleted in
    if kept <? 0 then (Err LifeDatabase, s)
    else
      (Ok (mkOutcome deleted bytes kept),
       mkLife (lf_ret s) (filter (λ e, ¬ (condemned e ∧ same_row snap e)) (lf_envelopes s))
         (credit_used s group removed)
         (upsert_checkpoint s group manifest_hash barrier epoch) (lf_anchors s ∪ own)
         (lf_runs s ++ [mkRunRow group at_ (mkDropRun manifest_hash barrier deleted bytes kept)])).

(** [order by ran_at desc, id desc], the rows being met by growing [id]. *)
Fixpoint newest_first (row : DropRunRow) (rows : list DropRunRow) : list DropRunRow :=
  match rows with
  | [] => [row]
  | other :: rest => if rw_ran_at other <=? rw_ran_at row then row :: rows else other :: newest_first row rest
  end.
Definition runs (s : LifeTables) (group : list byte) : list DropRun :=
  map rw_run (foldl (λ acc row, newest_first row acc) [] (filter (λ row, rw_group row = group) (lf_runs s))).

(** [select distinct hash ... order by hash]: every hash the group keeps. *)
Definition anchors (s : LifeTables) (group : list byte) : list (list byte) :=
  bytes_dedup (bytes_sort (map snd (filter (λ a : GroupId * list byte * list byte, a.1.1 = group)
    (elements (lf_anchors s))))).

(** ** The verdict *)
Inductive Refusal : Type :=
| RefusedGroupFrozen
| RefusedNoChain
| RefusedStaleEpoch (latest : Z)
| RefusedBadSignature
| RefusedNoAuthorization
| RefusedAuthorizationNotDue
| RefusedIncompleteManifest (missing : nat).

Definition refusal_reason (r : Refusal) : list byte :=
  match r with
  | RefusedGroupFrozen => ascii_bytes "group_frozen"
  | RefusedNoChain => ascii_bytes "no_retention_chain"
  | RefusedStaleEpoch latest => ascii_bytes "stale_epoch:" ++ decimal latest
  | RefusedBadSignature => ascii_bytes "bad_signature"
  | RefusedNoAuthorization => ascii_bytes "no_authorization"
  | RefusedAuthorizationNotDue => ascii_bytes "authorization_not_due"
  | RefusedIncompleteManifest missing => ascii_bytes "incomplete_manifest:" ++ decimal (Z.of_nat missing)
  end.

(** The reads an instruction makes, in order, and the statements it runs. *)
Inductive Read : Type :=
| ReadWorkspace
| ReadFrozen
| ReadLatest
| ReadPolicy
| ReadDestruction
| ReadMissing
| ReadSeq
| ReadDrop.

Inductive Authorized : Type := AuthYes | AuthMissing | AuthNotDue.
Definition DESTRUCTION_KIND : list byte := ascii_bytes "drop_before".

Definition due (now not_before : Z) : Authorized := if not_before <=? now then AuthYes else AuthNotDue.

Section lifecycle.
Context `{Ed25519}.
Variable reads : Read → option LifeTables.

(** One read, or the database not answering. *)
Definition from_read {A} (q : Read) (f : LifeTables → A) : result LifeError A :=
  match reads q with Some t => Ok (f t) | None => Err LifeDatabase end.

Definition authorization (record : DropBefore) (now : Z) : result LifeError Authorized :=
  match db_policy_version record with
  | Some version =>
      let? active := from_read ReadPolicy (λ t, active_policy (lf_ret t) (db_group record)) in
      match active with
      | None => Ok AuthMissing
      | Some policy => if rp_version policy =? version then Ok (due now (rp_not_before policy)) else Ok AuthMissing
      end
  | None =>
      match db_destruction_digest record with
      | None => Ok AuthMissing
      | Some digest =>
          let? active := from_read ReadDestruction (λ t, active_destruction (lf_ret t) (db_group record) DESTRUCTION_KIND digest) in
          match active with
          | None => Ok AuthMissing
          | Some destruction => Ok (due now (rx_not_before destruction))
          end
      end
  end.

(** Everything before the transaction: the barrier, or the refusal. *)
Definition judge_drop (record : DropBefore) (now : Z) : result LifeError (result Refusal Z) :=
  let? frozen := from_read ReadFrozen (λ t, is_frozen (lf_ret t) (db_group record)) in
  if frozen : bool then Ok (Err RefusedGroupFrozen)
  else
    let? newest := from_read ReadLatest (λ t, latest_control (lf_ret t) (db_group record)) in
    match newest with
    | None => Ok (Err RefusedNoChain)
    | Some (latest, verifier) =>
        if negb (db_epoch record =? latest) then Ok (Err (RefusedStaleEpoch latest))
        else if negb (verify verifier (drop_signing_bytes record) (db_sig record)) then Ok (Err RefusedBadSignature)
        else
          let? authorized := authorization record now in
          match authorized with
          | AuthMissing => Ok (Err RefusedNoAuthorization)
          | AuthNotDue => Ok (Err RefusedAuthorizationNotDue)
          | AuthYes =>
              let? missing := from_read ReadMissing (λ t,
                missing_envelopes t (db_group record) (db_manifest_hash record :: db_snapshots record)) in
              match missing with
              | _ :: _ => Ok (Err (RefusedIncompleteManifest (length missing)))
              | [] =>
                  let? seq := from_read ReadSeq (λ t, seq_of t (db_group record) (db_manifest_hash record)) in
                  Ok (Ok (default 0 seq))
              end
          end
    end.

Definition drop_before (s : LifeTables) (record : DropBefore) (now at_ : Z) :
    result LifeError (result Refusal DropOutcome) * LifeTables :=
  match judge_drop record now with
  | Err error => (Err error, s)
  | Ok (Err refusal) => (Ok (Err refusal), s)
  | Ok (Ok barrier) =>
      match reads ReadDrop with
      | None => (Err LifeDatabase, s)
      | Some snap =>
          match store_drop_before snap s (db_group record) (db_manifest_hash record) barrier (db_epoch record)
                  (db_snapshots record) at_ with
          | (Err error, s) => (Err error, s)
          | (Ok outcome, s) => (Ok (Ok outcome), s)
          end
      end
  end.

Definition lifecycle_handle (database : bool) (s : LifeTables) (session : Session) (payload : list byte) (now_ms at_ : Z) :
    Frame * LifeTables :=
  match drop_decode payload with
  | Err _ => (Frame.Error (FrameError_new MalformedHeader), s)
  | Ok record =>
      if negb database then (Frame.Error (FrameError_new Backpressure), s)
      else
        match authorized_workspace session with
        | None => (Frame.Error (FrameError_new WriterNotInAccessSet), s)
        | Some workspace =>
            match from_read ReadWorkspace (λ t, rt_groups (lf_ret t) !! db_group record) with
            | Err _ => (Frame.Error (FrameError_new Backpressure), s)
            | Ok None => (Frame.Error (FrameError_new GroupUnknown), s)
            | Ok (Some row) =>
                if negb (bool_decide (g_workspace row = workspace)) then (Frame.Error (FrameError_new WriterNotInAccessSet), s)
                else
                  match drop_before s record (now_ms / 1000) at_ with
                  | (Ok (Ok outcome), s') =>
                      (Drop (drop_response_encode (Dropped (do_deleted outcome) (do_bytes outcome) (do_kept outcome))), s')
                  | (Ok (Err refusal), s') => (Drop (drop_response_encode (DropRefused (refusal_reason refusal))), s')
                  | (Err _, s') => (Frame.Error (FrameError_new Backpressure), s')
                  end
            end
        end
  end.
End lifecycle.

(** ** What the transaction does *)
Section store.
Implicit Types (snap s : LifeTables) (own : gset (GroupId * list byte * list byte)).

(** The rows a transaction removes: condemned by its statements, and still the
    rows they saw. *)
Definition removed_row snap own (group : list byte) (barrier : Z) (e : (GroupId * list byte) * EnvelopeRow) : Prop :=
  doomed (lf_anchors snap ∪ own) group barrier e ∧ same_row snap e.
#[global] Instance removed_row_dec snap own group barrier e : Decision (removed_row snap own group barrier e).
Proof. unfold removed_row. apply _. Defined.
Definition removed_rows snap s own (group : list byte) (barrier : Z) : gmap (GroupId * list byte) EnvelopeRow :=
  filter (removed_row snap own group barrier) (lf_envelopes s).

Lemma lookup_removed snap s own group barrier k r :
  removed_rows snap s own group barrier !! k = Some r ↔ lf_envelopes s !! k = Some r ∧ removed_row snap own group barrier (k, r).
Proof. apply map_lookup_filter_Some. Qed.

(** Never more than was below the barrier: [kept_count] is no negative number. *)
Lemma removed_le_below snap s own group barrier :
  (size (removed_rows snap s own group barrier) ≤ size (filter (below_barrier group barrier) (lf_envelopes snap)))%nat.
Proof.
  rewrite <- !(size_dom (D := gset (GroupId * list byte))). apply subseteq_size. intros [g h] [r Hr]%elem_of_dom.
  apply lookup_removed in Hr as [_ [[[Hg Hb] _] Hsame]]. cbn in *. unfold same_row, seq_of in Hsame. cbn in Hsame.
  destruct (lf_envelopes snap !! (g, h)) as [r'|] eqn:Hs; [|done]. injection Hsame as Hseq.
  apply elem_of_dom. exists r'. apply map_lookup_filter_Some. split; [done|]. split; cbn; [done|lia].
Qed.

Definition dropped_tables snap s (group manifest_hash : list byte) (barrier epoch : Z) (snapshots : list (list byte)) (at_ : Z) :
    DropOutcome * LifeTables :=
  let own := anchor_rows group manifest_hash snapshots in
  let removed := removed_rows snap s own group barrier in
  let below := Z.of_nat (size (filter (below_barrier group barrier) (lf_envelopes snap))) in
  let bytes := msum ct_bytes (filter (doomed (lf_anchors snap ∪ own) group barrier) (lf_envelopes snap)) in
  let outcome := mkOutcome (Z.of_nat (size removed)) bytes (below - Z.of_nat (size removed)) in
  (outcome,
   mkLife (lf_ret s) (filter (λ e, ¬ removed_row snap own group barrier e) (lf_envelopes s)) (credit_used s group removed)
     (upsert_checkpoint s group manifest_hash barrier epoch) (lf_anchors s ∪ own)
     (lf_runs s ++ [mkRunRow group at_ (mkDropRun manifest_hash barrier (do_deleted outcome) bytes (do_kept outcome))])).

Definition drop_admissible s (group manifest_hash : list byte) (barrier : Z) (snapshots : list (list byte)) : Prop :=
  is_Some (rt_groups (lf_ret s) !! group) ∧ 1 ≤ barrier ∧ Forall is_hash (manifest_hash :: snapshots).

Lemma store_drop_before_spec snap s group manifest_hash barrier epoch snapshots at_ :
  (drop_admissible s group manifest_hash barrier snapshots
   ∧ store_drop_before snap s group manifest_hash barrier epoch snapshots at_
     = let '(outcome, s') := dropped_tables snap s group manifest_hash barrier epoch snapshots at_ in (Ok outcome, s'))
  ∨ (¬ drop_admissible s group manifest_hash barrier snapshots
     ∧ store_drop_before snap s group manifest_hash barrier epoch snapshots at_ = (Err LifeDatabase, s)).
Proof.
  assert (forallb (λ hash : list byte, (length hash =? 32)%nat) (manifest_hash :: snapshots) = true
          ↔ Forall is_hash (manifest_hash :: snapshots)) as Hall.
  { rewrite forallb_forall, Forall_forall. setoid_rewrite list_elem_of_In. unfold is_hash.
    by setoid_rewrite Nat.eqb_eq. }
  unfold store_drop_before. case_bool_decide as Hg; cbn [negb orb]; [|by right; split; [intros (? & ?)|]].
  destruct (Z.ltb_spec barrier 1) as [|Hb]; cbn [orb]; [right; split; [intros (_ & ? & _); lia|done]|].
  destruct (forallb _ _) eqn:Hf; cbn [negb].
  - left. split; [split_and!; [done..|by apply Hall]|].
    pose proof (removed_le_below snap s (anchor_rows group manifest_hash snapshots) group barrier) as Hle.
    assert (∀ z, 0 ≤ z → (z <? 0) = false) as Hnn by (intros; by apply Z.ltb_ge).
    apply Nat2Z.inj_le, Zle_minus_le_0, Hnn in Hle. cbv zeta.
    lazymatch type of Hle with ?k = _ =>
      lazymatch goal with |- context [?k' <? 0] => change (k' <? 0) with k end end.
    by rewrite Hle.
  - right. split; [|done]. intros (_ & _ & Hh). apply Hall in Hh. congruence.
Qed.
End store.

Section counter.
Implicit Types (snap s : LifeTables) (own : gset (GroupId * list byte * list byte)).

Lemma summed_msum st w : summed_bytes st w = msum (λ k r, row_cost (groups st) w (k, r)) (envelopes st).
Proof. unfold summed_bytes, msum. apply zsum_ext, Forall_forall. by intros [k r] _. Qed.

(** What leaves the log is what the removed rows cost. *)
Lemma summed_removed snap s own group barrier row w :
  rt_groups (lf_ret s) !! group = Some row →
  summed_bytes (lf_store s) w
  = (if decide (g_workspace row = w) then msum ct_bytes (removed_rows snap s own group barrier) else 0)
    + msum (λ k r, row_cost (rt_groups (lf_ret s)) w (k, r))
        (filter (λ e, ¬ removed_row snap own group barrier e) (lf_envelopes s)).
Proof.
  intros Hg. rewrite summed_msum. cbn [lf_store groups envelopes].
  rewrite (msum_partition _ (lf_envelopes s) (removed_row snap own group barrier)). f_equal.
  assert (∀ k r, removed_rows snap s own group barrier !! k = Some r →
    row_cost (rt_groups (lf_ret s)) w (k, r) = if decide (g_workspace row = w) then ct_bytes k r else 0) as Hcost.
  { intros [g h] r Hr. apply lookup_removed in Hr as [_ [[[Hg' _] _] _]]. cbn in Hg'. subst g.
    unfold row_cost, ct_bytes. cbn [fst snd]. rewrite Hg. cbn. repeat case_decide; congruence. }
  fold (removed_rows snap s own group barrier). destruct (decide (g_workspace row = w)); [by apply msum_ext|by apply msum_zero].
Qed.

Lemma ct_bytes_nonneg k r : 0 ≤ ct_bytes k r.
Proof. unfold ct_bytes, charge_of, len. lia. Qed.

Lemma default_alter (m : gmap WorkspaceId Z) (f : Z → Z) w w' :
  f 0 = 0 → default 0 (alter f w m !! w') = if decide (w = w') then f (default 0 (m !! w')) else default 0 (m !! w').
Proof.
  intros Hf. case_decide as Hw; [subst w'; rewrite lookup_alter_eq; destruct (m !! w); cbn; congruence|].
  by rewrite lookup_alter_ne.
Qed.

(** The credit of the trigger is exact while the counter is. *)
Lemma credit_exact others snap s own group barrier row w :
  (∀ w, 0 ≤ others w) → store_ok others (lf_store s) → rt_groups (lf_ret s) !! group = Some row →
  default 0 (credit_used s group (removed_rows snap s own group barrier) !! w)
  = used_bytes (lf_store s) w
    - (if decide (g_workspace row = w) then msum ct_bytes (removed_rows snap s own group barrier) else 0).
Proof.
  intros Hoth Hok Hg. pose proof (msum_nonneg ct_bytes (removed_rows snap s own group barrier) ct_bytes_nonneg) as Hnn.
  unfold credit_used, used_bytes. cbn [lf_store log_used]. case_decide as He.
  { rewrite He, msum_empty. case_decide; lia. }
  rewrite Hg, default_alter by lia. case_decide as Hw; [|lia]. subst w.
  pose proof (ok_used Hok (g_workspace row)) as Hu. unfold used_bytes in Hu. cbn [lf_store log_used] in Hu.
  pose proof (summed_removed snap s own group barrier row (g_workspace row) Hg) as Hs. rewrite decide_True in Hs by done.
  match type of Hs with _ = _ + ?rest => assert (0 ≤ rest) by (apply msum_nonneg; intros; apply row_cost_nonneg) end.
  specialize (Hoth (g_workspace row)). lia.
Qed.

Lemma dropped_store_ok others snap s group manifest_hash barrier epoch snapshots at_ :
  (∀ w, 0 ≤ others w) → store_ok others (lf_store s) → is_Some (rt_groups (lf_ret s) !! group) →
  store_ok others (lf_store (snd (dropped_tables snap s group manifest_hash barrier epoch snapshots at_))).
Proof.
  intros Hoth Hok [row Hg]. unfold dropped_tables. cbn [snd].
  set (own := anchor_rows group manifest_hash snapshots).
  split; unfold lf_store; cbn [groups envelopes log_used lf_ret lf_envelopes lf_used].
  - apply (ok_groups Hok).
  - intros g h r [Hr _]%map_lookup_filter_Some. by apply (ok_rows Hok g h).
  - intros g h h' r r' [Hr _]%map_lookup_filter_Some [Hr' _]%map_lookup_filter_Some. by apply (ok_unique Hok g).
  - intros w. unfold used_bytes at 1. cbn [log_used]. rewrite (credit_exact others snap s own group barrier row w Hoth Hok Hg).
    rewrite (ok_used Hok w), (summed_removed snap s own group barrier row w Hg), summed_msum. cbn [groups envelopes]. lia.
Qed.
End counter.

(** ** What an instruction has to show *)
Section permitted.
Context `{Ed25519}.
Variable reads : Read → option LifeTables.

(** The group's own permission, due. *)
Definition authorized_by (record : DropBefore) (now : Z) : Prop :=
  match db_policy_version record with
  | Some version => ∃ t policy, reads ReadPolicy = Some t ∧ active_policy (lf_ret t) (db_group record) = Some policy
      ∧ rp_version policy = version ∧ rp_not_before policy ≤ now
  | None => ∃ digest t destruction, db_destruction_digest record = Some digest ∧ reads ReadDestruction = Some t
      ∧ active_destruction (lf_ret t) (db_group record) DESTRUCTION_KIND digest = Some destruction
      ∧ rx_not_before destruction ≤ now
  end.

Record permitted (record : DropBefore) (now barrier : Z) : Prop := {
  pm_unfrozen : ∃ t, reads ReadFrozen = Some t ∧ is_frozen (lf_ret t) (db_group record) = false;
  pm_signed : ∃ t verifier, reads ReadLatest = Some t
    ∧ latest_control (lf_ret t) (db_group record) = Some (db_epoch record, verifier)
    ∧ verify verifier (drop_signing_bytes record) (db_sig record) = true;
  pm_authorized : authorized_by record now;
  pm_complete : ∃ t, reads ReadMissing = Some t ∧ ∀ hash, hash ∈ db_manifest_hash record :: db_snapshots record →
    is_Some (lf_envelopes t !! (db_group record, hash));
  pm_barrier : ∃ t, reads ReadSeq = Some t ∧ default 0 (seq_of t (db_group record) (db_manifest_hash record)) = barrier
}.

Lemma authorization_yes record now : authorization reads record now = Ok AuthYes ↔ authorized_by record now.
Proof.
  assert (∀ n, due now n = AuthYes ↔ n ≤ now) as Hdue.
  { intros n. unfold due. destruct (Z.leb_spec n now); split; try done; lia. }
  unfold authorization, authorized_by, from_read.
  destruct (db_policy_version record) as [version|].
  - destruct (reads ReadPolicy) as [t|]; cbn; [|by split; [|intros (? & ? & ? & _)]].
    destruct (active_policy _ _) as [p|] eqn:Ha; [|split; [done|intros (? & ? & [= <-] & ? & _); congruence]].
    destruct (Z.eqb_spec (rp_version p) version) as [He|He].
    + split; [intros [= Hd%Hdue]; by exists t, p|]. intros (? & ? & [= <-] & Hp & _ & Hle). rewrite Ha in Hp. injection Hp as <-.
      by rewrite (proj2 (Hdue _) Hle).
    + split; [done|]. intros (? & ? & [= <-] & Hp & ? & _). congruence.
  - destruct (db_destruction_digest record) as [digest|]; [|by split; [|intros (? & ? & ? & ? & _)]].
    destruct (reads ReadDestruction) as [t|]; cbn; [|by split; [|intros (? & ? & ? & _ & ? & _)]].
    destruct (active_destruction _ _ _ _) as [x|] eqn:Ha; [|split; [done|intros (? & ? & ? & [= <-] & [= <-] & ? & _); congruence]].
    split; [intros [= Hd%Hdue]; by exists digest, t, x|]. intros (? & ? & ? & [= <-] & [= <-] & Hx & Hle).
    rewrite Ha in Hx. injection Hx as <-. by rewrite (proj2 (Hdue _) Hle).
Qed.

Lemma missing_nil t group wanted :
  missing_envelopes t group wanted = [] ↔ ∀ hash, hash ∈ wanted → is_Some (lf_envelopes t !! (group, hash)).
Proof.
  split.
  - intros Hw hash Hin. apply not_eq_None_Some. intros Hn. by apply (filter_nil_not_elem_of _ _ _ Hw Hn).
  - intros Hw. destruct (missing_envelopes t group wanted) as [|hash l] eqn:Hm; [done|].
    assert (hash ∈ missing_envelopes t group wanted) as Hin by (rewrite Hm; apply list_elem_of_here).
    apply list_elem_of_filter in Hin as [Hn Hin]. destruct (Hw hash Hin) as [r Hr]. congruence.
Qed.

Lemma judge_permitted record now barrier : judge_drop reads record now = Ok (Ok barrier) ↔ permitted record now barrier.
Proof.
  unfold judge_drop, from_read. split.
  - intros Hj. destruct (reads ReadFrozen) as [tf|] eqn:Hf; [|done]. cbn [result_bind] in Hj.
    destruct (is_frozen _ _) eqn:Hfr; [done|]. destruct (reads ReadLatest) as [tl|] eqn:Hl; [|done]. cbn [result_bind] in Hj.
    destruct (latest_control _ _) as [[latest verifier]|] eqn:Hc; [|done].
    destruct (Z.eqb_spec (db_epoch record) latest) as [<-|]; [|done]. cbn [negb] in Hj.
    destruct (verify _ _ _) eqn:Hv; [|done]. cbn [negb] in Hj.
    destruct (authorization reads record now) as [[| |]|] eqn:Ha; try done. cbn [result_bind] in Hj. apply authorization_yes in Ha.
    destruct (reads ReadMissing) as [tm|] eqn:Hm; [|done]. cbn [result_bind] in Hj.
    destruct (missing_envelopes _ _ _) eqn:Hmiss; [|done]. destruct (reads ReadSeq) as [tq|] eqn:Hq; [|done].
    cbn [result_bind] in Hj. injection Hj as Hb. split; [eauto|eauto|done| |eauto]. exists tm. split; [done|]. by apply missing_nil.
  - intros [(tf & -> & Hfr) (tl & v & -> & Hc & Hv) Ha (tm & -> & Hm%missing_nil) (tq & -> & Hb)].
    cbn [result_bind]. rewrite Hfr. cbn [result_bind]. rewrite Hc, Z.eqb_refl. cbn [negb]. rewrite Hv. cbn [negb].
    rewrite (proj2 (authorization_yes record now) Ha). cbn [result_bind]. by rewrite Hm, <- Hb.
Qed.

(** The cases of an instruction: not permitted and nothing changed, refused by
    the database and nothing changed, or run. *)
Inductive drop_effect (s : LifeTables) (record : DropBefore) (now at_ : Z) :
    result LifeError (result Refusal DropOutcome) * LifeTables → Prop :=
| de_none verdict :
    (∀ outcome, verdict ≠ Ok (Ok outcome)) → drop_effect s record now at_ (verdict, s)
| de_run snap barrier :
    permitted record now barrier → reads ReadDrop = Some snap →
    drop_admissible s (db_group record) (db_manifest_hash record) barrier (db_snapshots record) →
    drop_effect s record now at_
      (let '(outcome, s') := dropped_tables snap s (db_group record) (db_manifest_hash record) barrier (db_epoch record)
                               (db_snapshots record) at_ in (Ok (Ok outcome), s')).

Lemma drop_before_effect s record now at_ : drop_effect s record now at_ (drop_before reads s record now at_).
Proof.
  unfold drop_before. destruct (judge_drop reads record now) as [[barrier|refusal]|error] eqn:Hj; [|by apply de_none..].
  apply judge_permitted in Hj. destruct (reads ReadDrop) as [snap|] eqn:Hs; [|by apply de_none].
  destruct (store_drop_before_spec snap s (db_group record) (db_manifest_hash record) barrier (db_epoch record)
    (db_snapshots record) at_) as [[Hadm ->]|[_ ->]]; [|by apply de_none].
  destruct (dropped_tables _ _ _ _ _ _ _ _) as [outcome s'] eqn:Hd.
  pose proof (de_run s record now at_ snap barrier Hj Hs Hadm) as Hr. by rewrite Hd in Hr.
Qed.
End permitted.

(** ** The deletion is exact *)
Section exact.
Context `{Ed25519}.

(** What one instruction leaves of every row: the named group's rows below the
    barrier that no anchor visible to it names, and that are still the rows it
    saw, are gone; everything else is as it was. *)
Definition left_of (snap s : LifeTables) (record : DropBefore) (barrier : Z) (k : GroupId * list byte) : option EnvelopeRow :=
  match lf_envelopes s !! k with
  | Some r =>
      if decide (k.1 = db_group record ∧ r_seq r < barrier ∧ ¬ anchored (lf_anchors snap) k.1 k.2
                 ∧ k.2 ∉ db_manifest_hash record :: db_snapshots record ∧ seq_of snap k.1 k.2 = Some (r_seq r))
      then None else Some r
  | None => None
  end.

Lemma anchored_union A B g h : anchored (A ∪ B) g h ↔ anchored A g h ∨ anchored B g h.
Proof. unfold anchored, set_Exists. set_solver. Qed.
Lemma anchored_own group manifest_hash snapshots h :
  anchored (anchor_rows group manifest_hash snapshots) group h ↔ h ∈ manifest_hash :: snapshots.
Proof.
  unfold anchored, anchor_rows, set_Exists. setoid_rewrite elem_of_list_to_set. setoid_rewrite list_elem_of_In.
  setoid_rewrite in_map_iff. split.
  - by intros (a & (h' & <- & Hin) & _ & <-).
  - intros Hin. exists (group, manifest_hash, h). split; [by exists h|done].
Qed.

Lemma lookup_dropped snap s record barrier epoch at_ k :
  lf_envelopes (snd (dropped_tables snap s (db_group record) (db_manifest_hash record) barrier epoch (db_snapshots record) at_)) !! k
  = left_of snap s record barrier k.
Proof.
  destruct k as [g h]. unfold dropped_tables, left_of. cbn [snd lf_envelopes]. rewrite map_lookup_filter.
  destruct (lf_envelopes s !! (g, h)) as [r|] eqn:Hr; [|done]. cbn [mbind option_bind fst snd].
  assert (removed_row snap (anchor_rows (db_group record) (db_manifest_hash record) (db_snapshots record)) (db_group record) barrier
            ((g, h), r)
    ↔ g = db_group record ∧ r_seq r < barrier ∧ ¬ anchored (lf_anchors snap) g h
      ∧ h ∉ db_manifest_hash record :: db_snapshots record ∧ seq_of snap g h = Some (r_seq r)) as Hiff.
  { unfold removed_row, doomed, below_barrier, same_row. cbn [fst snd]. rewrite anchored_union.
    split; [intros [[[-> ?] Hn] ?]|intros (-> & ? & ? & ? & ?)]; rewrite anchored_own in *; tauto. }
  destruct (decide (g = db_group record ∧ _)) as [Hd|Hd].
  - by rewrite option_guard_False by tauto.
  - by rewrite option_guard_True by tauto.
Qed.
End exact.

(** ** Two authorities *)
Section consent.
Context `{Blake3, Ed25519}.
Variable history : Moment → Prop.

(** The group's permission, as the threshold records give it: a policy of the
    version named, or a destruction of the kind and digest named, due, and agreed
    to by the authorizers the group's workspace had in force when the relay
    judged the record. *)
Definition group_agreed (workspace : list byte) (record : DropBefore) (now : Z) : Prop :=
  (∃ p, rp_group p = db_group record ∧ db_policy_version record = Some (rp_version p) ∧ rp_not_before p ≤ now
     ∧ agreed_by history workspace (policy_signing_bytes p) (rp_signatures p) (rp_not_before p))
  ∨ (∃ x, rx_group x = db_group record ∧ from_utf8_lossy (rx_kind x) = DESTRUCTION_KIND
       ∧ db_destruction_digest record = Some (rx_target_digest x) ∧ rx_not_before x ≤ now
       ∧ agreed_by history workspace (destruction_signing_bytes x) (rx_signatures x) (rx_not_before x)).

(** The reads of one handler: each is of tables the retention handlers reached,
    and none is older than the first, which resolved the group's workspace. *)
Definition reads_reached (reads : Read → option LifeTables) : Prop :=
  (∀ t, reads ReadWorkspace = Some t → rtc (retain_step history) no_retention (lf_ret t))
  ∧ (∀ q t first, reads ReadWorkspace = Some first → reads q = Some t → rtc (retain_step history) (lf_ret first) (lf_ret t)).

Lemma authorized_agreed reads record now first row :
  reads_reached reads → reads ReadWorkspace = Some first → rt_groups (lf_ret first) !! db_group record = Some row →
  authorized_by reads record now → group_agreed (g_workspace row) record now.
Proof.
  intros [Hfirst Hlater] Hf Hrow. specialize (Hfirst _ Hf).
  assert (∀ q t message signatures not_before, reads q = Some t →
    group_consented history (lf_ret t) (db_group record) message signatures not_before →
    agreed_by history (g_workspace row) message signatures not_before) as Hsame.
  { intros q t message signatures not_before Hq (row' & Hrow' & Ha).
    destruct (retain_steps_kept _ _ _ (Hlater _ _ _ Hf Hq) _ _ Hrow) as (row2 & Hrow2 & <-). congruence. }
  assert (∀ q t, reads q = Some t → retention_ok history (lf_ret t)) as Hok.
  { intros q t Hq. apply reachable_retention_ok. etrans; [exact Hfirst|by eapply Hlater]. }
  unfold authorized_by. destruct (db_policy_version record) as [version|] eqn:Hv.
  - intros (t & p & Hr & Ha & <- & Hle). left. exists p. unfold active_policy in Ha.
    destruct (newest _ _) as [[n p']|] eqn:Hn; [|done]. injection Ha as ->. apply newest_Some in Hn as [Hp _].
    destruct (ro_policy _ _ (Hok _ _ Hr) _ _ _ Hp) as (Hg & _ & _ & Ho). split_and!; [done..|]. by eapply Hsame.
  - intros (digest & t & x & Hd & Hr & Ha & Hle). right. exists x.
    destruct (ro_destruction _ _ (Hok _ _ Hr) _ _ _ _ Ha) as (Hg & Hk & Ht & Ho). rewrite Hd, Ht.
    split_and!; [done..|]. by eapply Hsame.
Qed.

(** C6. Nothing is compacted without both authorities. Whatever a session
    sends, whatever retention records the handlers took before and between the
    reads of the handler, either the tables are exactly as they were, or: the
    payload is a well-formed instruction, the session's workspace owns the group,
    the group was not frozen, the instruction carries the signature of the newest
    epoch's verifier, that workspace agreed to it by a record that is due (two
    authorizers of the access set it had in force when the relay judged the
    record, or its only one seven days ahead), the checkpoint and every snapshot
    named were stored, and what is gone is exactly the rows of that group below
    the checkpoint's own number that neither it nor an earlier checkpoint
    anchors. *)
Theorem compaction_needs_consent reads database s session payload now_ms at_ :
  reads_reached reads →
  let s' := snd (lifecycle_handle reads database s session payload now_ms at_) in
  s' = s ∨ ∃ record barrier snap workspace,
    drop_decode payload = Ok record ∧ authorized_workspace session = Some workspace
    ∧ (∃ t row, reads ReadWorkspace = Some t ∧ rt_groups (lf_ret t) !! db_group record = Some row ∧ g_workspace row = workspace)
    ∧ permitted reads record (now_ms / 1000) barrier ∧ group_agreed workspace record (now_ms / 1000)
    ∧ reads ReadDrop = Some snap ∧ 1 ≤ barrier
    ∧ (∀ k, lf_envelopes s' !! k = left_of snap s record barrier k) ∧ lf_ret s' = lf_ret s.
Proof.
  intros Hok. unfold lifecycle_handle, from_read. destruct (drop_decode payload) as [record|] eqn:Hd; [|by left].
  destruct database; [|by left]. cbn [negb]. destruct (authorized_workspace session) as [workspace|] eqn:Hw; [|by left].
  destruct (reads ReadWorkspace) as [t|] eqn:Ht; [|by left].
  destruct (rt_groups (lf_ret t) !! db_group record) as [row|] eqn:Hrow; [|by left].
  case_bool_decide as Hws; [|by left]. cbn [negb].
  destruct (drop_before_effect reads s record (now_ms / 1000) at_) as [verdict Hn|snap barrier Hp Hs Hadm].
  - left. destruct verdict as [[outcome|refusal]|error]; [by destruct (Hn outcome)|done..].
  - right. pose proof (λ k, lookup_dropped snap s record barrier (db_epoch record) at_ k) as Hl.
    destruct (dropped_tables _ _ _ _ _ _ _ _) as [outcome s'] eqn:Hdt. cbn [snd] in *.
    exists record, barrier, snap, workspace. split_and!; [done|done|by exists t, row|done| |done|apply Hadm|done|].
    + rewrite <- Hws. eapply authorized_agreed; [done..|apply (pm_authorized _ _ _ _ Hp)].
    + unfold dropped_tables in Hdt. by injection Hdt as _ <-.
Qed.
End consent.

(** ** What is kept forever *)
Section forever.
Context `{Blake3, Ed25519} (config : Config) (history : Moment → Prop).

(** No other instruction of the group ended between an instruction's reads and
    its transaction: what it read of the group's log is still stored, and it
    saw every anchor the group has. Messages, freezes and other groups may have
    moved on. *)
Definition undisturbed (reads : Read → option LifeTables) (s : LifeTables) (group : list byte) : Prop :=
  ∀ q t, reads q = Some t →
    (∀ h r, lf_envelopes t !! (group, h) = Some r → lf_envelopes s !! (group, h) = Some r)
    ∧ (∀ m h, (group, m, h) ∈ lf_anchors s → (group, m, h) ∈ lf_anchors t).

Inductive life_step : LifeTables → LifeTables → Prop :=
| life_accept s e now :
    validate e (min_encryption config) = Ok tt → life_step s (on_log s (snd (accept_tx config (lf_store s) e now)))
| life_create s g w :
    groups (lf_store s) !! g = None →
    life_step s (on_log s (mkStore (<[g := mkGroupRow w 1 false]> (groups (lf_store s))) (lf_envelopes s) (lf_used s)))
| life_retain s t :
    retain_step history (lf_ret s) t → same_log_groups (rt_groups (lf_ret s)) (rt_groups t) → life_step s (on_ret s t)
| life_commit s g row bytes :
    groups (lf_store s) !! g = Some row → 0 ≤ bytes →
    life_step s (on_log s (mkStore (groups (lf_store s)) (lf_envelopes s) (charge_used (lf_used s) (g_workspace row) bytes)))
| life_drop reads s record now at_ :
    undisturbed reads s (db_group record) → life_step s (snd (drop_before reads s record now at_)).

Record life_ok (s : LifeTables) : Prop := {
  lo_store : store_sound (lf_store s);
  lo_anchor : ∀ g m h, (g, m, h) ∈ lf_anchors s → is_Some (lf_envelopes s !! (g, h)) ∧ is_Some (lf_checkpoints s !! (g, m));
  lo_checkpoint : ∀ g m c, lf_checkpoints s !! (g, m) = Some c →
    (g, m, m) ∈ lf_anchors s ∧ seq_of s g m = Some (ck_barrier_seq c)
}.

(** What a step may not touch. *)
Definition keeps_anchors (s s' : LifeTables) : Prop :=
  lf_anchors s ⊆ lf_anchors s'
  ∧ (∀ g m h r, (g, m, h) ∈ lf_anchors s → lf_envelopes s !! (g, h) = Some r → lf_envelopes s' !! (g, h) = Some r)
  ∧ (∀ g m c, lf_checkpoints s !! (g, m) = Some c → is_Some (lf_checkpoints s' !! (g, m))).

(** A step that adds to the log and leaves the three tables alone. *)
Lemma grown_ok s s' :
  lf_envelopes s ⊆ lf_envelopes s' → lf_anchors s' = lf_anchors s → lf_checkpoints s' = lf_checkpoints s →
  store_sound (lf_store s') → life_ok s → life_ok s' ∧ keeps_anchors s s'.
Proof.
  intros Hsub Ha Hc Hst Hok. split; [split; [done| |]|].
  - intros g m h Hin. rewrite Ha in Hin. destruct (lo_anchor _ Hok g m h Hin) as [[r Hr] Hck].
    rewrite Hc. split; [exists r; by eapply lookup_weaken|done].
  - intros g m c Hl. rewrite Hc in Hl. destruct (lo_checkpoint _ Hok g m c Hl) as [Hin Hs]. rewrite Ha. split; [done|].
    unfold seq_of in *. destruct (lf_envelopes s !! (g, m)) as [r|] eqn:Hr; [|done]. by rewrite (lookup_weaken _ _ _ _ Hr Hsub).
  - split_and!; [by rewrite Ha|intros; by eapply lookup_weaken|intros g m c Hl; rewrite Hc; by exists c].
Qed.

Lemma same_groups_store_ok others gs gs' es us :
  same_log_groups gs gs' → store_ok others (mkStore gs es us) → store_ok others (mkStore gs' es us).
Proof.
  intros Hs Hok.
  assert (∀ g row', gs' !! g = Some row' → ∃ row, gs !! g = Some row ∧ g_workspace row = g_workspace row' ∧ next_seq row = next_seq row') as Hback.
  { intros g row' Hg. specialize (Hs g). rewrite Hg in Hs. destruct (gs !! g) as [row|]; [|done]. cbn in Hs.
    injection Hs as ? ?. by exists row. }
  split; cbn [groups envelopes log_used].
  - intros g row' (row & Hg & _ & <-)%Hback. by apply (ok_groups Hok g).
  - intros g h r Hr. destruct (ok_rows Hok g h r Hr) as (row & Hg & Hb). cbn in Hg. specialize (Hs g). rewrite Hg in Hs.
    destruct (gs' !! g) as [row'|]; [|done]. cbn in Hs. injection Hs as _ Hn. exists row'. split; [done|lia].
  - apply (ok_unique Hok).
  - intros w. pose proof (ok_used Hok w) as Hu. unfold used_bytes in *. cbn [log_used] in *. rewrite Hu. f_equal. symmetry.
    apply (summed_bytes_groups (mkStore gs es us) gs' w). intros g h r Hr. cbn [groups]. specialize (Hs g).
    destruct (gs !! g), (gs' !! g); cbn in *; congruence.
Qed.

(** The side condition of [life_retain] holds of every retention operation but
    the steps of the log itself, which are here in full. *)
Lemma retain_same_groups t t' :
  retain_step history t t' → (∃ gs, t' = with_groups t gs) ∨ same_log_groups (rt_groups t) (rt_groups t').
Proof.
  intros Hs. destruct Hs as [seen t r _ _|t r|seen t w m now _ _|t t' p m row _ _ _ _ Hi|t t' x b m row _ _ _ _ Hi|t m _|t gs _];
    [right|right|right|right|right|right|left].
  - apply apply_control_same.
  - apply resolve_same.
  - by rewrite apply_manifest_same.
  - by rewrite (insert_policy_same _ _ _ Hi).
  - by rewrite (insert_destruction_same _ _ _ _ Hi).
  - done.
  - by exists gs.
Qed.

Lemma accept_grows st e now :
  store_sound st → envelopes st ⊆ envelopes (snd (accept_tx config st e now)).
Proof.
  intros (others & _ & Hok). destruct (accept_tx_cases config others st e now Hok)
    as [[err ->]|[(r & _ & ->)|(row & _ & _ & He & _ & ->)]]; [done..|]. cbn [snd envelopes]. by apply insert_subseteq.
Qed.

Lemma upsert_some s g m b e k :
  k = (g, m) ∨ is_Some (lf_checkpoints s !! k) → is_Some (upsert_checkpoint s g m b e !! k).
Proof.
  intros Hk. unfold upsert_checkpoint. destruct (decide (k = (g, m))) as [->|Hne]; [by rewrite lookup_insert_eq|].
  rewrite lookup_insert_ne by done. by destruct Hk.
Qed.
Lemma upsert_inv s g m b e k c :
  upsert_checkpoint s g m b e !! k = Some c → (k = (g, m) ∧ ck_barrier_seq c = b) ∨ lf_checkpoints s !! k = Some c.
Proof.
  unfold upsert_checkpoint. intros [[<- <-]|[_ Hk]]%lookup_insert_Some; [left|by right].
  by destruct (lf_checkpoints s !! (g, m)).
Qed.

Lemma elem_of_own g m l g' m' h : (g', m', h) ∈ anchor_rows g m l ↔ g' = g ∧ m' = m ∧ h ∈ m :: l.
Proof.
  unfold anchor_rows. rewrite elem_of_list_to_set, list_elem_of_In, in_map_iff. setoid_rewrite <- list_elem_of_In.
  split; [intros (h' & [= <- <- <-] & ?)|intros (-> & -> & ?); exists h]; done.
Qed.

(** The rows a transaction keeps: those it anchors, and those an anchor it saw
    names. *)
Lemma left_anchored reads snap s record barrier g m h r :
  undisturbed reads s (db_group record) → reads ReadDrop = Some snap →
  (g, m, h) ∈ lf_anchors s ∪ anchor_rows (db_group record) (db_manifest_hash record) (db_snapshots record) →
  lf_envelopes s !! (g, h) = Some r → left_of snap s record barrier (g, h) = Some r.
Proof.
  intros Hun Hs Hin Hr. unfold left_of. rewrite Hr. cbn [fst snd].
  destruct (decide (g = _ ∧ _)) as [(-> & _ & Hna & Hno & _)|]; [exfalso|done].
  apply elem_of_union in Hin as [Hin|(_ & _ & Hin)%elem_of_own]; [|done].
  apply Hna. exists (db_group record, m, h). split; [by apply (proj2 (Hun _ _ Hs))|done].
Qed.

(** An instruction nobody overtook keeps what it names and what was anchored. *)
Lemma drop_keeps reads s record now at_ :
  undisturbed reads s (db_group record) → life_ok s →
  life_ok (snd (drop_before reads s record now at_)) ∧ keeps_anchors s (snd (drop_before reads s record now at_)).
Proof.
  intros Hun Hok. destruct (drop_before_effect reads s record now at_) as [verdict _|snap barrier Hp Hs Hadm].
  { cbn [snd]. split; [done|]. split_and!; [done|done|]. intros g m c Hl. by exists c. }
  pose proof (λ k, lookup_dropped snap s record barrier (db_epoch record) at_ k) as Hl.
  assert (store_sound (lf_store (snd (dropped_tables snap s (db_group record) (db_manifest_hash record) barrier (db_epoch record)
    (db_snapshots record) at_)))) as Hst.
  { destruct (lo_store _ Hok) as (others & Hnn & Hso). exists others. split; [done|]. by apply dropped_store_ok; [..|apply Hadm]. }
  pose proof (λ g m h r, left_anchored reads snap s record barrier g m h r Hun Hs) as Hkeep. setoid_rewrite <- Hl in Hkeep.
  destruct (dropped_tables _ _ _ _ _ _ _ _) as [outcome s'] eqn:Hd. cbn [snd] in *.
  unfold dropped_tables in Hd. injection Hd as _ Hs'.
  assert (lf_anchors s' = lf_anchors s ∪ anchor_rows (db_group record) (db_manifest_hash record) (db_snapshots record)) as Ha
    by (by rewrite <- Hs').
  assert (lf_checkpoints s' = upsert_checkpoint s (db_group record) (db_manifest_hash record) barrier (db_epoch record)) as Hc
    by (by rewrite <- Hs').
  clear Hs' Hl. split; [split; [done| |]|split_and!].
  - intros g m h Hin. rewrite Ha in Hin. rewrite Hc. pose proof Hin as Hcase.
    apply elem_of_union in Hcase as [Hcase|(-> & -> & Hcase)%elem_of_own].
    + destruct (lo_anchor _ Hok g m h Hcase) as [[r Hr] Hck]. split; [exists r; by eapply Hkeep|apply upsert_some; by right].
    + destruct (pm_complete _ _ _ _ Hp) as (t & Ht & Hall). destruct (Hall h Hcase) as [r Hr].
      split; [exists r; eapply Hkeep; [done|by apply (proj1 (Hun _ _ Ht))]|apply upsert_some; by left].
  - intros g m c Hck. rewrite Hc in Hck. rewrite Ha. unfold seq_of. apply upsert_inv in Hck as [[[= -> ->] ->]|Hck].
    + match goal with |- _ ∈ _ ∪ ?own ∧ _ => assert ((db_group record, db_manifest_hash record, db_manifest_hash record) ∈ own) as Hin end.
      { apply elem_of_own. split_and!; [done|done|apply list_elem_of_here]. }
      split; [by apply elem_of_union_r|]. destruct (pm_barrier _ _ _ _ Hp) as (t & Ht & Hb). destruct Hadm as (_ & Hpos & _).
      unfold seq_of in Hb. destruct (lf_envelopes t !! _) as [r|] eqn:Hr; cbn in Hb; [|lia].
      rewrite (Hkeep _ (db_manifest_hash record) _ r); [by rewrite <- Hb|by apply elem_of_union_r|by apply (proj1 (Hun _ _ Ht))].
    + destruct (lo_checkpoint _ Hok g m c Hck) as [Hin Hsq]. split; [by apply elem_of_union_l|].
      unfold seq_of in Hsq. destruct (lf_envelopes s !! (g, m)) as [r|] eqn:Hr; [|done].
      by rewrite (Hkeep g m m r ltac:(by apply elem_of_union_l) Hr).
  - rewrite Ha. apply union_subseteq_l.
  - intros g m h r Hin Hr. eapply Hkeep; [by apply elem_of_union_l|done].
  - intros g m c Hck. rewrite Hc. apply upsert_some. right. by exists c.
Qed.

Lemma life_step_ok s s' : life_step s s' → life_ok s → life_ok s' ∧ keeps_anchors s s'.
Proof.
  intros Hs Hok. destruct (lo_store _ Hok) as (others & Hnn & Hso).
  destruct Hs as [s e now Hv|s g w Hg|s t Hr Hsame|s g row bytes Hg Hb|reads s record now at_ Hun].
  - apply grown_ok; [apply (accept_grows (lf_store s)), (lo_store _ Hok)|done|done| |done].
    unfold lf_store, on_log. cbn [lf_ret rt_groups with_groups lf_envelopes lf_used].
    exists others. split; [done|].
    pose proof (accept_tx_ok config others (lf_store s) e now Hso) as Hst. by destruct (snd (accept_tx _ _ _ _)).
  - apply grown_ok; [done..| |done]. exists others. split; [done|]. by apply (log_create_ok others (lf_store s)).
  - apply grown_ok; [done..| |done]. exists others. split; [done|]. by eapply same_groups_store_ok.
  - apply grown_ok; [done..| |done]. eexists. split; [|by apply (log_commit_ok others (lf_store s) g)].
    intros w. specialize (Hnn w). cbn. case_decide; lia.
  - by apply drop_keeps.
Qed.

Definition life0 : LifeTables := mkLife no_retention ∅ ∅ ∅ ∅ [].
Lemma life0_ok : life_ok life0.
Proof. split; [exists alone; split; [done|apply empty_store_ok]|set_solver|intros g m c; cbn; by rewrite lookup_empty]. Qed.

Lemma life_steps_ok s s' : rtc life_step s s' → life_ok s → life_ok s' ∧ keeps_anchors s s'.
Proof.
  induction 1 as [s|a b c Hs _ IH]; intros Hok.
  - split; [done|]. split_and!; [done|done|]. intros g m k Hk. by exists k.
  - apply life_step_ok in Hs as [Hb (A1 & A2 & A3)]; [|done]. destruct (IH Hb) as [Hc (B1 & B2 & B3)]. split; [done|].
    split_and!; [by etrans| |].
    + intros g m h r Hin Hr. eapply B2; [by apply A1|by eapply A2].
    + intros g m k Hk. destruct (A3 g m k Hk) as [k' Hk']. by eapply B3.
Qed.

(** A checkpoint is forever. In every state that messages, new groups, the
    retention records and compactions reach, as long as no instruction of a
    group is overtaken by another of the same group: every checkpoint's barrier
    is the number of its own envelope; that envelope and every snapshot it
    named are stored, and stay stored, unchanged, through everything that
    follows, later compactions included; and the byte counter of a workspace
    never falls below the sum over what its log still holds. *)
Theorem checkpoints_kept_forever s s' :
  rtc life_step life0 s → rtc life_step s s' →
  (∀ g m h, (g, m, h) ∈ lf_anchors s → ∃ r, lf_envelopes s !! (g, h) = Some r ∧ lf_envelopes s' !! (g, h) = Some r)
  ∧ (∀ g m c, lf_checkpoints s !! (g, m) = Some c → (g, m, m) ∈ lf_anchors s ∧ seq_of s' g m = Some (ck_barrier_seq c))
  ∧ (∀ w, summed_bytes (lf_store s') w ≤ used_bytes (lf_store s') w).
Proof.
  intros Hs Hs'. destruct (life_steps_ok _ _ Hs life0_ok) as [Hok _].
  destruct (life_steps_ok _ _ Hs' Hok) as [Hok' (_ & Hrows & _)]. split_and!.
  - intros g m h Hin. destruct (lo_anchor _ Hok g m h Hin) as [[r Hr] _]. exists r. split; [done|by eapply Hrows].
  - intros g m c Hc. destruct (lo_checkpoint _ Hok g m c Hc) as [Hin Hsq]. split; [done|]. unfold seq_of in *.
    destruct (lf_envelopes s !! (g, m)) as [r|] eqn:Hr; [|done]. by rewrite (Hrows g m m r Hin Hr).
  - intros w. destruct (lo_store _ Hok') as (others & Hnn & Hso). rewrite (ok_used Hso w). specialize (Hnn w). lia.
Qed.

(** On a state nobody else is changing, the statements see every row. *)
Lemma removed_quiet s own group barrier :
  removed_rows s s own group barrier = filter (doomed (lf_anchors s ∪ own) group barrier) (lf_envelopes s).
Proof.
  unfold removed_rows. apply map_filter_ext. intros [g h] r Hr. unfold removed_row, same_row, seq_of. cbn [fst snd].
  rewrite Hr. cbn. tauto.
Qed.

(** A permitted instruction runs. In every reachable state, an instruction
    that passes the checks against that state is carried out in full: below the
    checkpoint only anchored rows are left, the two counts add up to what was
    below it, and the workspace's byte counter falls by exactly the bytes the
    answer reports. *)
Theorem permitted_drop_runs s record now at_ barrier :
  rtc life_step life0 s → drop_wf record → permitted (λ _, Some s) record now barrier →
  ∃ outcome s' row, drop_before (λ _, Some s) s record now at_ = (Ok (Ok outcome), s')
    ∧ rt_groups (lf_ret s) !! db_group record = Some row
    ∧ (∀ h r, lf_envelopes s' !! (db_group record, h) = Some r → r_seq r < barrier → anchored (lf_anchors s') (db_group record) h)
    ∧ do_deleted outcome + do_kept outcome
      = Z.of_nat (size (filter (below_barrier (db_group record) barrier) (lf_envelopes s)))
    ∧ used_bytes (lf_store s') (g_workspace row) = used_bytes (lf_store s) (g_workspace row) - do_bytes outcome.
Proof.
  intros Hr Hwf Hp. destruct (life_steps_ok _ _ Hr life0_ok) as [Hok _].
  destruct (pm_barrier _ _ _ _ Hp) as (t & [= <-] & Hb). destruct (pm_complete _ _ _ _ Hp) as (t & [= <-] & Hall).
  destruct (Hall (db_manifest_hash record) (list_elem_of_here _ _)) as [r Hm].
  destruct (lo_store _ Hok) as (others & Hnn & Hso).
  destruct (ok_rows Hso _ _ _ Hm) as (row & Hg & Hpos & _). cbn [lf_store groups] in Hg.
  unfold seq_of in Hb. rewrite Hm in Hb. cbn in Hb. subst barrier.
  assert (drop_admissible s (db_group record) (db_manifest_hash record) (r_seq r) (db_snapshots record)) as Hadm.
  { destruct Hwf as (_ & Hh & [Hl _] & _). split_and!; [by exists row|done|by constructor]. }
  unfold drop_before. rewrite (proj2 (judge_permitted _ _ _ _) Hp).
  destruct (store_drop_before_spec s s (db_group record) (db_manifest_hash record) (r_seq r) (db_epoch record)
    (db_snapshots record) at_) as [[_ ->]|[Hn _]]; [|done].
  pose proof (λ k, lookup_dropped s s record (r_seq r) (db_epoch record) at_ k) as Hl.
  pose proof (λ own, credit_exact others s s own (db_group record) (r_seq r) row (g_workspace row) Hnn Hso Hg) as Hcr.
  unfold dropped_tables in *. cbn [snd] in Hl.
  set (own := anchor_rows (db_group record) (db_manifest_hash record) (db_snapshots record)) in *.
  eexists _, _, row. split; [reflexivity|]. split; [done|]. split_and!.
  - intros h r' Hr' Hlt. rewrite Hl in Hr'. unfold left_of in Hr'. destruct (lf_envelopes s !! (db_group record, h)) eqn:He; [|done].
    cbn [fst snd] in Hr'. case_decide as Hd; [done|]. injection Hr' as ->. cbn [lf_anchors].
    apply anchored_union. unfold own. rewrite anchored_own.
    destruct (decide (anchored (lf_anchors s) (db_group record) h)) as [|Hna]; [by left|right].
    destruct (decide (h ∈ db_manifest_hash record :: db_snapshots record)) as [|Hno]; [done|].
    exfalso. apply Hd. split_and!; [done..|]. unfold seq_of. by rewrite He.
  - cbn [do_deleted do_kept]. lia.
  - unfold used_bytes at 1, lf_store at 1. cbn [log_used lf_used]. rewrite Hcr, decide_True by done.
    cbn [do_bytes]. by rewrite removed_quiet.
Qed.
End forever.

(** ** What the operator reads *)
Lemma newest_first_perm row rows : newest_first row rows ≡ₚ row :: rows.
Proof.
  induction rows as [|other rest IH]; [done|]. cbn. destruct (_ <=? _); [done|]. rewrite IH. apply Permutation_swap.
Qed.
Lemma newest_first_sorted row rows :
  StronglySorted (λ a b, rw_ran_at b ≤ rw_ran_at a) rows → StronglySorted (λ a b, rw_ran_at b ≤ rw_ran_at a) (newest_first row rows).
Proof.
  induction 1 as [|other rest Hs IH Hall]; cbn; [by repeat constructor|].
  destruct (Z.leb_spec (rw_ran_at other) (rw_ran_at row)) as [Hle|Hgt].
  - constructor; [by constructor|]. constructor; [done|]. eapply Forall_impl; [exact Hall|]. cbn. intros x Hx. lia.
  - constructor; [done|]. rewrite newest_first_perm. constructor; [lia|done].
Qed.

(** The two reports are exact: the run log of a group is all of its runs, the
    newest first, and its anchors are listed once each, in order, nothing more
    and nothing less. *)
Theorem lifecycle_reports_exact s group :
  (∃ rows, runs s group = map rw_run rows ∧ rows ≡ₚ filter (λ row, rw_group row = group) (lf_runs s)
     ∧ StronglySorted (λ a b, rw_ran_at b ≤ rw_ran_at a) rows)
  ∧ StronglySorted bytes_lt (anchors s group) ∧ ∀ h, h ∈ anchors s group ↔ anchored (lf_anchors s) group h.
Proof.
  split; [|split; [apply bytes_sort_dedup_sorted|]].
  - unfold runs. generalize (filter (λ row, rw_group row = group) (lf_runs s)). intros l.
    assert (∀ acc, StronglySorted (λ a b, rw_ran_at b ≤ rw_ran_at a) acc →
      ∃ rows, foldl (λ acc row, newest_first row acc) acc l = rows ∧ rows ≡ₚ l ++ acc
        ∧ StronglySorted (λ a b, rw_ran_at b ≤ rw_ran_at a) rows) as Hgen.
    { induction l as [|x l IH]; intros acc Hacc; [by exists acc|]. cbn [foldl].
      destruct (IH (newest_first x acc)) as (rows & Hf & Hp & Hs); [by apply newest_first_sorted|].
      exists rows. split_and!; [done| |done]. rewrite Hp, newest_first_perm. cbn. by rewrite Permutation_middle. }
    destruct (Hgen [] ltac:(constructor)) as (rows & -> & Hp & Hs). exists rows. rewrite app_nil_r in Hp. done.
  - intros h. unfold anchors, anchored, set_Exists. rewrite elem_of_bytes_sort_dedup, list_elem_of_In, in_map_iff.
    setoid_rewrite <- list_elem_of_In. setoid_rewrite list_elem_of_filter. setoid_rewrite elem_of_elements. naive_solver.
Qed.

(** ** A concrete compaction *)
Module LifecycleDemo.
#[local] Instance life_blake3 : Blake3 := poly_digest.
#[local] Instance life_ed25519 : Ed25519 := toy_verify.
Import RetentionDemo.

(** Four messages: a snapshot, an edit, an early checkpoint, a late one. *)
Definition msg (b : byte) : Envelope := example_envelope [b; Byte.x00].
Definition snapshot : list byte := env_hash (msg Byte.x01).
Definition edit : list byte := env_hash (msg Byte.x02).
Definition early : list byte := env_hash (msg Byte.x03).
Definition late : list byte := env_hash (msg Byte.x04).

Definition send (s : LifeTables) (b : byte) : LifeTables :=
  on_log s (snd (accept_tx example_config (lf_store s) (msg b) 9)).
Definition opened : LifeTables :=
  on_log life0 (mkStore (<[grp := mkGroupRow ws 1 false]> (groups (lf_store life0))) (lf_envelopes life0) (lf_used life0)).
Definition logged1 : LifeTables := send opened Byte.x01.
Definition logged2 : LifeTables := send logged1 Byte.x02.
Definition logged3 : LifeTables := send logged2 Byte.x03.
Definition logged : LifeTables := send logged3 Byte.x04.
Definition chained : LifeTables := on_ret logged (snd (apply_control (lf_ret logged) (lf_ret logged) control0)).
Definition by_two (message : list byte) : list Signature :=
  [mkSignature k0 (toy_sign k0 message); mkSignature k2 (toy_sign k2 message)].
Definition policy : RetentionPolicy :=
  let p := mkPolicy grp 1 30 30 0 [k0] [] in mkPolicy grp 1 30 30 0 [k0] (by_two (policy_signing_bytes p)).
Definition destruction : RetentionDestruction :=
  let x := mkDestruction grp DESTRUCTION_KIND (key Byte.x0d) None 0 [k0] [] in
  mkDestruction grp DESTRUCTION_KIND (key Byte.x0d) None 0 [k0] (by_two (destruction_signing_bytes x)).
Definition with_policy : RetentionTables :=
  match insert_policy (lf_ret chained) policy with Ok t => t | Err _ => lf_ret chained end.
Definition agreed : LifeTables := on_ret chained with_policy.
Definition with_destruction : RetentionTables :=
  match insert_destruction (lf_ret agreed) destruction with Ok (_, t) => t | Err _ => lf_ret agreed end.
Definition base : LifeTables := on_ret agreed with_destruction.

Definition signed (r : DropBefore) : DropBefore :=
  mkDropBefore (db_group r) (db_manifest_hash r) (db_snapshots r) (db_epoch r) (db_policy_version r) (db_destruction_digest r)
    (toy_sign k0 (drop_signing_bytes r)).
Definition drop_late : DropBefore := signed (mkDropBefore grp late [snapshot] 0 (Some 1) None []).
Definition drop_early : DropBefore := signed (mkDropBefore grp early [] 0 (Some 1) None []).

Definition quietly (s : LifeTables) : Read → option LifeTables := λ _, Some s.
Definition compacted : LifeTables := snd (drop_before (quietly base) base drop_late 5 7).

(** The late checkpoint keeps its snapshot and drops the rest below it. *)
Example late_drop :
  fst (drop_before (quietly base) base drop_late 5 7) = Ok (Ok (mkOutcome 2 4 1))
  ∧ missing_envelopes compacted grp [snapshot; edit; early; late] = [edit; early]
  ∧ used_bytes (lf_store base) ws = 8 ∧ used_bytes (lf_store compacted) ws = 4.
Proof. by vm_compute. Qed.

Lemma policy_inserted : insert_policy (lf_ret chained) policy = Ok with_policy.
Proof.
  assert (is_ok (insert_policy (lf_ret chained) policy) = true) as Hi by (by vm_compute).
  unfold with_policy. by destruct (insert_policy (lf_ret chained) policy).
Qed.
Lemma destruction_inserted : ∃ b, insert_destruction (lf_ret agreed) destruction = Ok (b, with_destruction).
Proof.
  assert (is_ok (insert_destruction (lf_ret agreed) destruction) = true) as Hi by (by vm_compute).
  unfold with_destruction. destruct (insert_destruction (lf_ret agreed) destruction) as [[b t]|]; [by exists b|done].
Qed.
Lemma policy_well_formed : policy_wf policy.
Proof.
  split_and!; try (by vm_compute); (split; [repeat constructor; by vm_compute|vm_compute; lia]).
Qed.
Lemma destruction_well_formed : destruction_wf destruction.
Proof.
  split_and!; try (by vm_compute); (split; [repeat constructor; by vm_compute|vm_compute; lia]).
Qed.
Lemma control_taken : retain_step judged (lf_ret logged) (lf_ret chained).
Proof. apply (control_step judged (lf_ret logged) control0). wf_concrete. Qed.
Lemma policy_taken : retain_step judged (lf_ret chained) with_policy.
Proof. by apply (rs_policy judged (lf_ret chained) with_policy policy present (mkGroupRow ws 5 false));
  [exact policy_well_formed|done|by vm_compute..|exact policy_inserted]. Qed.
Lemma destruction_taken : retain_step judged (lf_ret agreed) with_destruction.
Proof.
  destruct destruction_inserted as [b Hb].
  by apply (rs_destruction judged (lf_ret agreed) with_destruction destruction b present (mkGroupRow ws 5 false));
    [exact destruction_well_formed|done|by vm_compute..|exact Hb].
Qed.

Lemma accept_kept st e now : workspaces_kept (groups st) (groups (snd (accept_tx example_config st e now))).
Proof.
  intros g row Hg. unfold accept_tx. destruct (groups st !! env_group e) as [row0|] eqn:H0; [|by exists row].
  repeat case_match; cbn [snd groups]; try (by exists row).
  all: destruct (decide (g = env_group e)) as [->|]; [rewrite lookup_insert_eq|rewrite lookup_insert_ne by done; by exists row].
  all: eexists; split; [done|]; cbn; congruence.
Qed.
Lemma send_retained s b : retain_step judged (lf_ret s) (lf_ret (send s b)).
Proof. apply (rs_groups judged (lf_ret s)), (accept_kept (lf_store s)). Qed.

Lemma base_retention : rtc (retain_step judged) no_retention (lf_ret base).
Proof.
  apply (rtc_l _ _ (lf_ret opened)); [apply rs_groups, nothing_moves|]. apply (rtc_l _ _ (lf_ret logged1)); [apply send_retained|].
  apply (rtc_l _ _ (lf_ret logged2)); [apply send_retained|]. apply (rtc_l _ _ (lf_ret logged3)); [apply send_retained|].
  apply (rtc_l _ _ (lf_ret logged)); [apply send_retained|]. eapply rtc_l; [exact control_taken|]. eapply rtc_l; [exact policy_taken|].
  eapply rtc_l; [exact destruction_taken|]. apply rtc_refl.
Qed.

Lemma send_step s b : validate (msg b) (min_encryption example_config) = Ok tt → life_step example_config judged s (send s b).
Proof. apply life_accept. Qed.

Lemma chained_step : life_step example_config judged logged chained.
Proof. apply (life_retain example_config judged logged _ control_taken), apply_control_same. Qed.
Lemma agreed_step : life_step example_config judged chained agreed.
Proof.
  apply (life_retain example_config judged chained _ policy_taken). rewrite (insert_policy_same _ _ _ policy_inserted). apply same_log_refl.
Qed.
Lemma base_step : life_step example_config judged agreed base.
Proof.
  apply (life_retain example_config judged agreed _ destruction_taken). destruct destruction_inserted as [b Hb].
  rewrite (insert_destruction_same _ _ _ _ Hb). apply same_log_refl.
Qed.

Lemma base_reachable : rtc (life_step example_config judged) life0 base.
Proof.
  apply (rtc_l _ _ opened); [by apply (life_create example_config judged life0 grp ws)|].
  apply (rtc_l _ _ logged1); [apply send_step; by vm_compute|]. apply (rtc_l _ _ logged2); [apply send_step; by vm_compute|].
  apply (rtc_l _ _ logged3); [apply send_step; by vm_compute|]. apply (rtc_l _ _ logged); [apply send_step; by vm_compute|].
  apply (rtc_l _ _ chained); [exact chained_step|]. apply (rtc_l _ _ agreed); [exact agreed_step|].
  apply (rtc_l _ _ base); [exact base_step|apply rtc_refl].
Qed.

Lemma quietly_undisturbed s g : undisturbed (quietly s) s g.
Proof. by intros q t [= <-]. Qed.
Lemma compacted_step : life_step example_config judged base compacted.
Proof. apply life_drop, quietly_undisturbed. Qed.

Lemma checkpoints_kept_forever_witness :
  (∀ g m h, (g, m, h) ∈ lf_anchors base →
     ∃ r, lf_envelopes base !! (g, h) = Some r ∧ lf_envelopes compacted !! (g, h) = Some r)
  ∧ summed_bytes (lf_store compacted) ws ≤ used_bytes (lf_store compacted) ws.
Proof.
  destruct (checkpoints_kept_forever example_config judged base compacted base_reachable (rtc_once _ _ compacted_step)) as (Ha & _ & Hu).
  split; [exact Ha|apply Hu].
Defined.

Lemma late_permitted : permitted (quietly base) drop_late 5 4.
Proof. apply judge_permitted. by vm_compute. Qed.
Lemma late_well_formed : drop_wf drop_late.
Proof. split_and!; try (by vm_compute); (split; [repeat constructor; by vm_compute|vm_compute; lia]). Qed.

Lemma permitted_drop_runs_witness :
  ∃ outcome s', drop_before (quietly base) base drop_late 5 7 = (Ok (Ok outcome), s').
Proof.
  destruct (permitted_drop_runs example_config judged base drop_late 5 7 4 base_reachable late_well_formed late_permitted)
    as (outcome & s' & _ & Hrun & _). by exists outcome, s'.
Defined.

Definition member : Session :=
  let s := fst (session_new (mkSessionConfig example_config Enforce LiveOff CallsOff) [] (mkProcess 0 [])) in
  mkSession Ready 0 [] [] (Some ws) [] None (s_min_enc s) None (Some k0) Full [] true true 1 LiveOff (budget_of s) false CallsOff (media_budget s).

Lemma compaction_needs_consent_witness : group_agreed judged ws drop_late 5.
Proof.
  assert (drop_decode (drop_encode drop_late) = Ok drop_late) as Hdec by (by vm_compute).
  destruct (compaction_needs_consent judged (quietly base) true base member (drop_encode drop_late) 5000 7)
    as [Heq|(record & barrier & snap & w & Hd & [= <-] & _ & _ & Ha & _)].
  - split; [intros t [= <-]; apply base_retention|by intros q t first [= <-] [= <-]].
  - exfalso. apply (f_equal (λ s, bool_decide (is_Some (lf_envelopes s !! (grp, edit))))) in Heq. by vm_compute in Heq.
  - rewrite Hdec in Hd. injection Hd as <-. exact Ha.
Defined.

(** Two instructions at once. The late one is verified, every snapshot it names
    stored; the early one then runs, and drops that snapshot, which no
    checkpoint anchors yet; the late one's transaction reads the log anew,
    anchors what is gone, and is answered as done. *)
Definition after_early : LifeTables := snd (drop_before (quietly base) base drop_early 5 6).
Definition overtaken : Read → option LifeTables := λ q, match q with ReadDrop => Some after_early | _ => Some base end.
Definition after_both : LifeTables := snd (drop_before overtaken after_early drop_late 5 7).
Theorem concurrent_drops_lose_snapshot :
  fst (drop_before (quietly base) base drop_early 5 6) = Ok (Ok (mkOutcome 2 4 0))
  ∧ fst (drop_before overtaken after_early drop_late 5 7) = Ok (Ok (mkOutcome 0 0 1))
  ∧ (snapshot ∈ anchors after_both grp ∧ missing_envelopes after_both grp (anchors after_both grp) = [snapshot]).
Proof. split_and!; [by vm_compute..|apply (bool_decide_unpack _); by vm_compute|by vm_compute]. Qed.

(** A destruction is taken by its digest alone: nothing ties the digest to the
    instruction, and nothing marks it used. *)
Definition under_destruction (checkpoint : list byte) (snapshots : list (list byte)) : DropBefore :=
  signed (mkDropBefore grp checkpoint snapshots 0 None (Some (key Byte.x0d)) []).
Definition first_use : LifeTables := snd (drop_before (quietly base) base (under_destruction early [snapshot]) 5 6).
Theorem one_off_authorizes_again :
  fst (drop_before (quietly base) base (under_destruction early [snapshot]) 5 6) = Ok (Ok (mkOutcome 1 2 1))
  ∧ fst (drop_before (quietly first_use) first_use (under_destruction late []) 6 7) = Ok (Ok (mkOutcome 0 0 2))
  ∧ fst (drop_before (quietly base) base (under_destruction late []) 6 7) = Ok (Ok (mkOutcome 3 6 0)).
Proof. by vm_compute. Qed.

(** The same gap before a freeze: an epoch that ends and a contested successor,
    both settled between the checks and the transaction, stop nothing. *)
Definition rotated : LifeTables := on_ret base (snd (apply_control (lf_ret base) (lf_ret base) control1)).
Definition contested : LifeTables := on_ret rotated (snd (apply_control (lf_ret rotated) (lf_ret rotated) fork1)).
Definition before_freeze : Read → option LifeTables := λ q, match q with ReadDrop => Some contested | _ => Some base end.
Theorem drop_overtakes_freeze :
  is_frozen (lf_ret contested) grp = true
  ∧ fst (drop_before (quietly contested) contested drop_late 5 7) = Ok (Err RefusedGroupFrozen)
  ∧ fst (drop_before before_freeze contested drop_late 5 7) = Ok (Ok (mkOutcome 2 4 1)).
Proof. by vm_compute. Qed.
End LifecycleDemo.
