(* ===== verification/WakeQueue.v ===== *)
(** * The wake queue and its worker

    Models [backend/wealdrelay/src/push/queue.rs], the state and the counters of
    [push/mod.rs], what [push/ringer.rs] makes of an answer, and the loop of
    [push/worker.rs]. The HTTP exchange is an argument: the ringer's status and
    [Retry-After], or nothing within the deadline. Enqueueing, the worker's two
    critical sections on the queue, the delivery of one wake and the pause a 429
    costs it are the steps of [wake_step]; an enqueue admits under the lock and
    notifies after it, so the worker may run in between; tokio's [Notify] keeps at
    most one permit. *)

From Stdlib Require Import ZArith Lia String.
From stdpp Require Import base tactics numbers relations list.
From S2P Require Import Prelude Push Frame InviteRecord.

Open Scope Z_scope.

(** ** The queue *)
Inductive Admit : Type := AdQueued | AdCoalesced | AdSuperseded | AdRedundant | AdDropped.

Record WakeEntry : Type := mkWakeEntry { we_handle : list byte; we_category : Category; we_due_at : Z }.
Record WakeQueue : Type := mkWakeQueue { wq_bound : nat; wq_entries : list WakeEntry }.

Definition wake_queue_new (bound : nat) : WakeQueue := mkWakeQueue (Nat.max bound 1) [].
Definition with_entries (q : WakeQueue) (es : list WakeEntry) : WakeQueue := mkWakeQueue (wq_bound q) es.

Definition wake_due_at (category : Category) (now_ms coalesce_ms : Z) : Z :=
  if is_urgent category then now_ms else u64_saturating_add now_ms coalesce_ms.

(** The four rules on one incoming wake. *)
Definition queue_admit (q : WakeQueue) (handle : list byte) (category : Category) (now_ms coalesce_ms : Z) : Admit * WakeQueue :=
  match list_find (λ e, we_handle e = handle) (wq_entries q) with
  | Some (index, existing) =>
      if is_urgent (we_category existing) then (if is_urgent category then AdCoalesced else AdRedundant, q)
      else if is_urgent category then
        (AdSuperseded, with_entries q (<[index := mkWakeEntry (we_handle existing) category now_ms]> (wq_entries q)))
      else (AdCoalesced, q)
  | None =>
      let entry := mkWakeEntry handle category (wake_due_at category now_ms coalesce_ms) in
      if (wq_bound q <=? length (wq_entries q))%nat then
        match list_find (λ e, is_urgent (we_category e) = false) (wq_entries q) with
        | Some (index, _) => (AdDropped, with_entries q (delete index (wq_entries q) ++ [entry]))
        | None =>
            if negb (is_urgent category) then (AdDropped, q)
            else (AdDropped, with_entries q (tail (wq_entries q) ++ [entry]))
        end
      else (AdQueued, with_entries q (wq_entries q ++ [entry]))
  end.

Definition next_deadline (q : WakeQueue) : option Z :=
  foldr (λ e acc, Some (match acc with Some due => Z.min (we_due_at e) due | None => we_due_at e end)) None (wq_entries q).

Definition queue_take_due (q : WakeQueue) (now_ms : Z) : list (list byte * Category) * WakeQueue :=
  (map (λ e, (we_handle e, we_category e)) (filter (λ e, we_due_at e ≤ now_ms) (wq_entries q)),
   with_entries q (filter (λ e, now_ms < we_due_at e) (wq_entries q))).

(** ** The settings *)
Definition RINGER_REGISTER_PATH : list byte := ascii_bytes "/v1/handles".
Definition RINGER_WAKE_PATH : list byte := ascii_bytes "/v1/wake".
Definition DEFAULT_COALESCE_MS : Z := 2000.
Definition MAX_PAUSE_SECONDS : Z := 60.

(** [trim_end_matches('/')]. *)
Fixpoint drop_slashes (bs : list byte) : list byte :=
  match bs with b :: rest => if bool_decide (b = Byte.x2f) then drop_slashes rest else bs | [] => [] end.
Definition trim_end_slashes (bs : list byte) : list byte := rev (drop_slashes (rev bs)).
(** [strip_suffix(...).unwrap_or(...)]. *)
Definition without_suffix (suffix bs : list byte) : list byte :=
  let keep := (length bs - length suffix)%nat in
  if bool_decide (drop keep bs = suffix) then take keep bs else bs.

Definition default_register_url (wake_url : list byte) : list byte :=
  trim_end_slashes (without_suffix RINGER_WAKE_PATH (trim_end_slashes wake_url)) ++ RINGER_REGISTER_PATH.

Inductive PushMode : Type := PushOn | PushOff.
(** The push variables of [Config]. *)
Record PushConfig : Type := mkPushConfig {
  cf_push : PushMode;
  cf_push_url : option (list byte);
  cf_push_token : option (list byte);
  cf_push_register_url : option (list byte);
  cf_push_coalesce_ms : Z;
  cf_push_queue : nat
}.
Record PushSettings : Type := mkPushSettings {
  wake_url : option (list byte);
  push_token : option (list byte);
  register_url : list byte;
  coalesce_ms : Z;
  queue_bound : nat
}.

Definition settings_from_config (config : PushConfig) : PushSettings :=
  let wake := match cf_push config with PushOn => cf_push_url config | PushOff => None end in
  let register :=
    match cf_push_register_url config with
    | Some url => url
    | None => default [] (default_register_url <$> wake)
    end in
  mkPushSettings wake (cf_push_token config) register (cf_push_coalesce_ms config) (cf_push_queue config).
Definition push_enabled (s : PushSettings) : bool := bool_decide (is_Some (wake_url s)).

(** ** One wake sent, and what the answer means *)
Inductive RingerOutcome : Type :=
| WakeAccepted
| WakeUnknown
| WakePaused (seconds : Z)
| WakeRefused
| WakeUnreachable.

Definition category_as_str (c : Category) : list byte :=
  ascii_bytes (match c with CatMessage => "message" | CatCall => "call" | CatHandshake => "handshake" end).
Definition QUOTE : list byte := [Byte.x22].
(** The request's body: the handle in hex, the category, and nothing else. *)
Definition wake_body (handle : list byte) (category : Category) : list byte :=
  ascii_bytes "{" ++ QUOTE ++ ascii_bytes "handle" ++ QUOTE ++ ascii_bytes ":" ++ QUOTE ++ hex handle ++ QUOTE
  ++ ascii_bytes "," ++ QUOTE ++ ascii_bytes "category" ++ QUOTE ++ ascii_bytes ":" ++ QUOTE
  ++ category_as_str category ++ QUOTE ++ ascii_bytes "}".

(** A status and the interval of [Retry-After], or no answer in time. *)
Definition ringer_outcome (answer : option (Z * option Z)) : RingerOutcome :=
  match answer with
  | None => WakeUnreachable
  | Some (status, retry_after) =>
      if (200 <=? status) && (status <? 300) then WakeAccepted
      else if status =? 404 then WakeUnknown
      else if status =? 429 then WakePaused (default 1 retry_after)
      else WakeRefused
  end.

(** ** The state of the wake path *)
Inductive PushHealth : Type := HealthOff | HealthConfigured | HealthUnreachable.

Record PushState : Type := mkPush {
  pu_settings : PushSettings;
  pu_queue : WakeQueue;
  pu_permit : bool;
  pu_sent : Z;
  pu_dropped : Z;
  pu_failed : Z;
  pu_pauses : Z;
  pu_reachable : bool
}.

Definition push_new (s : PushSettings) : PushState := mkPush s (wake_queue_new (queue_bound s)) false 0 0 0 0 true.
Definition capability (p : PushState) : WakeBody :=
  Capability (push_enabled (pu_settings p)) (register_url (pu_settings p)).

(** [fetch_add] on an [AtomicU64]. *)
Definition count_one (n : Z) : Z := (n + 1) mod 2 ^ 64.

(** [enqueue]: the admission under the queue's lock with its counter, then the
    permit. *)
Definition enqueue_admit (p : PushState) (handle : list byte) (category : Category) (now_ms : Z) : Admit * PushState :=
  let '(admitted, q) := queue_admit (pu_queue p) handle category now_ms (coalesce_ms (pu_settings p)) in
  (admitted,
   mkPush (pu_settings p) q (pu_permit p) (pu_sent p)
     (match admitted with AdDropped => count_one (pu_dropped p) | _ => pu_dropped p end)
     (pu_failed p) (pu_pauses p) (pu_reachable p)).
Definition notify_one (p : PushState) : PushState :=
  mkPush (pu_settings p) (pu_queue p) true (pu_sent p) (pu_dropped p) (pu_failed p) (pu_pauses p) (pu_reachable p).
Definition enqueue (p : PushState) (handle : list byte) (category : Category) (now_ms : Z) : Admit * PushState :=
  let '(admitted, p) := enqueue_admit p handle category now_ms in (admitted, notify_one p).

Definition push_take_due (p : PushState) (now_ms : Z) : list (list byte * Category) * PushState :=
  let '(due, q) := queue_take_due (pu_queue p) now_ms in
  (due, mkPush (pu_settings p) q (pu_permit p) (pu_sent p) (pu_dropped p) (pu_failed p) (pu_pauses p) (pu_reachable p)).

Definition push_record (p : PushState) (outcome : RingerOutcome) : PushState :=
  let counted sent failed reachable :=
    mkPush (pu_settings p) (pu_queue p) (pu_permit p) sent (pu_dropped p) failed (pu_pauses p) reachable in
  match outcome with
  | WakeAccepted => counted (count_one (pu_sent p)) (pu_failed p) true
  | WakeUnknown | WakeRefused => counted (pu_sent p) (count_one (pu_failed p)) true
  | WakePaused _ => counted (pu_sent p) (pu_failed p) true
  | WakeUnreachable => counted (pu_sent p) (count_one (pu_failed p)) false
  end.
Definition note_pause (p : PushState) : PushState :=
  mkPush (pu_settings p) (pu_queue p) (pu_permit p) (pu_sent p) (pu_dropped p) (pu_failed p) (count_one (pu_pauses p)) (pu_reachable p).

Definition push_health (p : PushState) : PushHealth :=
  if negb (push_enabled (pu_settings p)) then HealthOff
  else if pu_reachable p then HealthConfigured else HealthUnreachable.

(** ** The worker *)
Inductive Worker : Type :=
| Deciding
| Asleep (until : option Z)
| Woken
| Delivering (due : list (list byte * Category))
| Paused (until : Z) (due : list (list byte * Category)).

(** [wait_for_work]: the lock is held for the read of the deadline alone. *)
Definition decide_sleep (q : WakeQueue) (now_ms : Z) : Worker :=
  Asleep ((λ due, now_ms + u64_saturating_sub due now_ms) <$> next_deadline q).

(** [deliver] but for the row of an unknown handle: the counters, and how many
    seconds the worker sleeps before the next wake. *)
Definition note_outcome (p : PushState) (outcome : RingerOutcome) : PushState * option Z :=
  let p := push_record p outcome in
  match outcome with
  | WakePaused seconds => (note_pause p, Some (Z.min seconds MAX_PAUSE_SECONDS))
  | _ => (p, None)
  end.
Definition after_delivery (pause : option Z) (now : Z) (rest : list (list byte * Category)) : Worker :=
  match pause with Some seconds => Paused (now + seconds * 1000) rest | None => Delivering rest end.

(** [pa_unnotified] counts the enqueues that have admitted their wake and not yet
    notified; [pa_taken] is the history of what left the queue, newest first. *)
Record WakePath : Type := mkPath {
  pa_push : PushState;
  pa_worker : Worker;
  pa_unnotified : nat;
  pa_now : Z;
  pa_taken : list (list byte * Category * Z)
}.

(** The worker's own steps: decide how long to sleep, be woken by the permit or
    by the timer, take what is due, deliver one wake at the ringer's answer or at
    the request's deadline, go on after a pause, start over. *)
Inductive worker_step : WakePath → WakePath → Prop :=
| wk_decide p u now taken : worker_step (mkPath p Deciding u now taken) (mkPath p (decide_sleep (pu_queue p) now) u now taken)
| wk_notified p until u now taken :
    pu_permit p = true →
    worker_step (mkPath p (Asleep until) u now taken)
      (mkPath (mkPush (pu_settings p) (pu_queue p) false (pu_sent p) (pu_dropped p) (pu_failed p) (pu_pauses p) (pu_reachable p))
         Woken u now taken)
| wk_timer p until u now taken : until ≤ now → worker_step (mkPath p (Asleep (Some until)) u now taken) (mkPath p Woken u now taken)
| wk_take p u now taken :
    worker_step (mkPath p Woken u now taken)
      (mkPath (snd (push_take_due p now)) (Delivering (fst (push_take_due p now))) u now
         (map (λ d, (d.1, d.2, now)) (reverse (fst (push_take_due p now))) ++ taken))
| wk_deliver p handle category rest answer u now taken :
    worker_step (mkPath p (Delivering ((handle, category) :: rest)) u now taken)
      (mkPath (fst (note_outcome p (ringer_outcome answer)))
         (after_delivery (snd (note_outcome p (ringer_outcome answer))) now rest) u now taken)
| wk_resume p until rest u now taken :
    until ≤ now → worker_step (mkPath p (Paused until rest) u now taken) (mkPath p (Delivering rest) u now taken)
| wk_round p u now taken : worker_step (mkPath p (Delivering []) u now taken) (mkPath p Deciding u now taken).

(** Every step, under one clock that never runs backwards. *)
Inductive wake_step : WakePath → WakePath → Prop :=
| wk_tick p w u now now' taken : now ≤ now' → wake_step (mkPath p w u now taken) (mkPath p w u now' taken)
| wk_admit p w u now taken handle category :
    wake_step (mkPath p w u now taken) (mkPath (snd (enqueue_admit p handle category now)) w (S u) now taken)
| wk_notify p w u now taken : wake_step (mkPath p w (S u) now taken) (mkPath (notify_one p) w u now taken)
| wk_worker a a' : worker_step a a' → wake_step a a'.

Definition wake_start (s : PushSettings) (now : Z) : WakePath := mkPath (push_new s) Deciding 0 now [].

(** ** The queue holds one wake per handle, within its bound *)
Record queue_ok (q : WakeQueue) : Prop := {
  qo_bound : (1 ≤ wq_bound q)%nat;
  qo_length : (length (wq_entries q) ≤ wq_bound q)%nat;
  qo_nodup : NoDup (we_handle <$> wq_entries q)
}.

Lemma not_found_handle handle es :
  list_find (λ e, we_handle e = handle) es = None → handle ∉ we_handle <$> es.
Proof.
  intros Hf Hin. apply list_elem_of_fmap in Hin as (e & -> & He). rewrite list_find_None, Forall_forall in Hf. by apply (Hf e).
Qed.

Lemma NoDup_snoc {A} (x : A) l : x ∉ l → NoDup l → NoDup (l ++ [x]).
Proof. intros Hx Hl. apply NoDup_app. split_and!; [done|set_solver|apply NoDup_singleton]. Qed.

(** Room made by one entry leaving: what is left with the new wake behind it. *)
Lemma queue_ok_push q kept entry :
  sublist kept (wq_entries q) → we_handle entry ∉ we_handle <$> wq_entries q → (length kept < wq_bound q)%nat → queue_ok q →
  queue_ok (with_entries q (kept ++ [entry])).
Proof.
  intros Hsub Hnew Hlen [Hb _ Hnd]. split; cbn; [done|rewrite length_app; cbn; lia|].
  rewrite fmap_app. apply NoDup_snoc.
  - intros Hin. apply Hnew. apply list_elem_of_fmap in Hin as (e & He & Hin). rewrite He. apply list_elem_of_fmap_2.
    by eapply elem_of_sublist.
  - eapply sublist_NoDup; [done|by apply fmap_sublist].
Qed.

Lemma admit_ok q handle category now_ms coalesce :
  queue_ok q → queue_ok (snd (queue_admit q handle category now_ms coalesce)).
Proof.
  intros Hok. unfold queue_admit. destruct (list_find (λ e, we_handle e = handle) (wq_entries q)) as [[index existing]|] eqn:Hf.
  - apply list_find_Some in Hf as (Hi & _ & _). destruct (is_urgent (we_category existing)); [done|].
    destruct (is_urgent category); [|done]. destruct Hok as [Hb Hl Hnd].
    split; cbn; [done|by rewrite length_insert|]. rewrite list_fmap_insert. cbn.
    rewrite list_insert_id; [done|]. by rewrite list_lookup_fmap, Hi.
  - apply not_found_handle in Hf. destruct (Nat.leb_spec (wq_bound q) (length (wq_entries q))) as [Hge|Hlt].
    + pose proof (qo_length _ Hok). pose proof (qo_bound _ Hok).
      destruct (list_find (λ e, is_urgent _ = false) (wq_entries q)) as [[index e]|] eqn:Hu.
      * apply list_find_Some in Hu as (Hi & _ & _). apply queue_ok_push; [apply sublist_delete|done| |done].
        rewrite length_delete by (by exists e). lia.
      * destruct (is_urgent category); [|done]. apply queue_ok_push; [|done| |done].
        -- destruct (wq_entries q); [done|]. cbn. by apply sublist_cons.
        -- destruct (wq_entries q); cbn in *; lia.
    + by apply queue_ok_push.
Qed.

(** Every entry is an old one or the wake just admitted. *)
Lemma admit_entries q handle category now_ms coalesce e :
  e ∈ wq_entries (snd (queue_admit q handle category now_ms coalesce)) →
  e ∈ wq_entries q ∨ e = mkWakeEntry handle category (wake_due_at category now_ms coalesce).
Proof.
  unfold queue_admit. destruct (list_find (λ e, we_handle e = handle) (wq_entries q)) as [[index existing]|] eqn:Hf.
  - apply list_find_Some in Hf as (Hi & <- & _). destruct (is_urgent (we_category existing)); [by left|].
    destruct (is_urgent category) eqn:Hu; [|by left]. cbn. intros Hin.
    apply list_elem_of_lookup in Hin as [j Hj]. destruct (decide (j = index)) as [->|Hne].
    + rewrite list_lookup_insert_eq in Hj by (by eapply lookup_lt_Some). injection Hj as <-. right. unfold wake_due_at. by rewrite Hu.
    + rewrite list_lookup_insert_ne in Hj by done. left. by eapply list_elem_of_lookup_2.
  - set (entry := mkWakeEntry _ _ _). cbv zeta. destruct (_ <=? _)%nat.
    + destruct (list_find (λ e0, is_urgent _ = false) _) as [[index x]|].
      * cbn. intros [Hin|Hin%list_elem_of_singleton]%elem_of_app; [left|by right].
        eapply elem_of_sublist; [exact Hin|apply sublist_delete].
      * destruct (is_urgent category); cbn; [|by left].
        intros [Hin|Hin%list_elem_of_singleton]%elem_of_app; [left|by right].
        destruct (wq_entries q); [done|]. by apply list_elem_of_further.
    + cbn. intros [Hin|Hin%list_elem_of_singleton]%elem_of_app; [by left|by right].
Qed.

Lemma take_due_ok q now_ms : queue_ok q → queue_ok (snd (queue_take_due q now_ms)).
Proof.
  intros [Hb Hl Hnd]. split; cbn; [done| |].
  - pose proof (length_filter (λ e, now_ms < we_due_at e) (wq_entries q)). lia.
  - eapply sublist_NoDup; [done|]. apply fmap_sublist, sublist_filter.
Qed.

(** Who is taken and who waits. *)
Lemma elem_of_due q now_ms handle category :
  (handle, category) ∈ fst (queue_take_due q now_ms)
  ↔ ∃ e, e ∈ wq_entries q ∧ we_handle e = handle ∧ we_category e = category ∧ we_due_at e ≤ now_ms.
Proof.
  cbn. rewrite list_elem_of_In, in_map_iff. setoid_rewrite <- list_elem_of_In. setoid_rewrite list_elem_of_filter. naive_solver.
Qed.

Lemma due_handles q now_ms : fst <$> fst (queue_take_due q now_ms) = we_handle <$> filter (λ e, we_due_at e ≤ now_ms) (wq_entries q).
Proof. cbn. rewrite <- list_fmap_compose. done. Qed.

Lemma NoDup_same_handle es e e' :
  NoDup (we_handle <$> es) → e ∈ es → e' ∈ es → we_handle e = we_handle e' → e = e'.
Proof.
  intros Hnd [i Hi]%list_elem_of_lookup [j Hj]%list_elem_of_lookup Heq.
  assert (i = j) as <-; [|congruence].
  eapply (NoDup_lookup _ i j (we_handle e)); [exact Hnd|by rewrite list_lookup_fmap, Hi|rewrite list_lookup_fmap, Hj; cbn; by rewrite Heq].
Qed.

Lemma next_deadline_le es e :
  e ∈ es → ∃ t, next_deadline (mkWakeQueue 1 es) = Some t ∧ t ≤ we_due_at e.
Proof.
  unfold next_deadline. cbn. induction es as [|x es IH]; [by intros ?%not_elem_of_nil|].
  intros [->|Hin]%elem_of_cons; cbn.
  - eexists. split; [done|]. case_match; lia.
  - destruct (IH Hin) as (t & -> & Hle). eexists. split; [done|lia].
Qed.

(** ** The invariant of the wake path *)

(** A history, newest first: an ordinary wake is at least one window behind
    every wake its handle was given before. *)
Fixpoint paced (coalesce : Z) (taken : list (list byte * Category * Z)) : Prop :=
  match taken with
  | [] => True
  | (handle, category, t) :: before =>
      (is_urgent category = false → ∀ category' t', (handle, category', t') ∈ before → u64_saturating_add t' coalesce ≤ t)
      ∧ paced coalesce before
  end.

Record path_ok (s : PushSettings) (a : WakePath) : Prop := {
  po_settings : pu_settings (pa_push a) = s;
  po_queue : queue_ok (pu_queue (pa_push a));
  po_bound : wq_bound (pu_queue (pa_push a)) = Nat.max (queue_bound s) 1;
  po_urgent : ∀ e, e ∈ wq_entries (pu_queue (pa_push a)) → is_urgent (we_category e) = true → we_due_at e ≤ pa_now a;
  po_window : ∀ e category t, e ∈ wq_entries (pu_queue (pa_push a)) → is_urgent (we_category e) = false →
    (we_handle e, category, t) ∈ pa_taken a → u64_saturating_add t (coalesce_ms s) ≤ we_due_at e;
  po_past : ∀ handle category t, (handle, category, t) ∈ pa_taken a → t ≤ pa_now a;
  po_asleep : ∀ until e, pa_worker a = Asleep until → pu_permit (pa_push a) = false → pa_unnotified a = 0%nat →
    e ∈ wq_entries (pu_queue (pa_push a)) → ∃ t, until = Some t ∧ t ≤ Z.max (we_due_at e) (pa_now a);
  po_paused : ∀ until rest, pa_worker a = Paused until rest → until ≤ pa_now a + MAX_PAUSE_SECONDS * 1000;
  po_paced : paced (coalesce_ms s) (pa_taken a)
}.

Lemma admit_bound q handle category now_ms coalesce : wq_bound (snd (queue_admit q handle category now_ms coalesce)) = wq_bound q.
Proof. unfold queue_admit. repeat case_match; done. Qed.

Lemma saturating_mono a b c : a ≤ b → u64_saturating_add a c ≤ u64_saturating_add b c.
Proof. unfold u64_saturating_add. lia. Qed.

Lemma paced_batch coalesce now_ms (due : list (list byte * Category)) taken :
  NoDup (fst <$> due) → paced coalesce taken →
  (∀ handle category, (handle, category) ∈ due → is_urgent category = false →
     ∀ category' t', (handle, category', t') ∈ taken → u64_saturating_add t' coalesce ≤ now_ms) →
  paced coalesce (map (λ d, (d.1, d.2, now_ms)) due ++ taken).
Proof.
  induction due as [|[handle category] due IH]; intros Hnd Hp Hall; [done|]. cbn [map app paced fst snd].
  apply NoDup_cons in Hnd as [Hnew Hnd]. split.
  - intros Hu category' t' [Hin|Hin]%elem_of_app.
    + exfalso. apply Hnew. apply list_elem_of_In, in_map_iff in Hin as ([h c] & [= -> _ _] & Hin).
      apply list_elem_of_In in Hin. by apply (list_elem_of_fmap_2 fst _ (handle, c)).
    + eapply Hall; [apply list_elem_of_here|done|done].
  - apply IH; [done|done|]. intros h c Hin. apply Hall. by apply list_elem_of_further.
Qed.

Lemma enqueue_admit_ok s p w u now_ms taken handle category :
  path_ok s (mkPath p w u now_ms taken) → path_ok s (mkPath (snd (enqueue_admit p handle category now_ms)) w (S u) now_ms taken).
Proof.
  intros [Hs Hq Hb Hu Hw Hp Ha Hps Hpc]. cbn in Hs, Hq, Hb, Hu, Hw, Hp. unfold enqueue_admit.
  pose proof (admit_ok (pu_queue p) handle category now_ms (coalesce_ms (pu_settings p)) Hq) as Hq'.
  pose proof (admit_bound (pu_queue p) handle category now_ms (coalesce_ms (pu_settings p))) as Hb'.
  pose proof (λ e, admit_entries (pu_queue p) handle category now_ms (coalesce_ms (pu_settings p)) e) as He.
  destruct (queue_admit _ _ _ _ _) as [admitted q]. cbn in Hq', Hb', He. split; cbn; try done; [congruence| |].
  - intros e Hin Hur. apply He in Hin as [Hin|Hin]; [by apply Hu|]. subst e. cbn in Hur |- *. unfold wake_due_at. by rewrite Hur.
  - intros e c t Hin Hur Ht. apply He in Hin as [Hin|Hin]; [by eapply Hw|]. subst e. cbn in Hur, Ht |- *. unfold wake_due_at. rewrite Hur, Hs.
    apply saturating_mono. by eapply Hp.
Qed.

Lemma take_path_ok s p u now_ms taken :
  path_ok s (mkPath p Woken u now_ms taken) →
  path_ok s (mkPath (snd (push_take_due p now_ms)) (Delivering (fst (push_take_due p now_ms))) u now_ms
    (map (λ d, (d.1, d.2, now_ms)) (reverse (fst (push_take_due p now_ms))) ++ taken)).
Proof.
  intros [Hs Hq Hb Hu Hw Hp Ha _ Hpc]. cbn in Hs, Hq, Hb, Hu, Hw, Hp, Hpc. unfold push_take_due.
  pose proof (take_due_ok (pu_queue p) now_ms Hq) as Hq'. pose proof (λ h c, elem_of_due (pu_queue p) now_ms h c) as Hd.
  pose proof (due_handles (pu_queue p) now_ms) as Hh.
  assert (∀ handle category t, (handle, category, t) ∈ map (λ d : list byte * Category, (d.1, d.2, now_ms))
      (reverse (fst (queue_take_due (pu_queue p) now_ms))) → t = now_ms ∧ (handle, category) ∈ fst (queue_take_due (pu_queue p) now_ms)) as Hm.
  { intros h c t Hin. apply list_elem_of_In, in_map_iff in Hin as ([h' c'] & [= -> -> ->] & Hin).
    split; [done|]. apply list_elem_of_In in Hin. by rewrite elem_of_reverse in Hin. }
  destruct (queue_take_due (pu_queue p) now_ms) as [due q] eqn:Hdue. cbn [fst snd] in *.
  assert (∀ e, e ∈ wq_entries q → e ∈ wq_entries (pu_queue p) ∧ now_ms < we_due_at e) as Hkept.
  { intros e Hin. injection Hdue as _ <-. cbn in Hin. apply list_elem_of_filter in Hin as [? ?]. done. }
  split; cbn; [done|done|by injection Hdue as _ <-| | | |done|done|].
  - intros e [Hin _]%Hkept. by apply Hu.
  - intros e c t [Hin Hlt]%Hkept Hur Hall. apply elem_of_app in Hall as [Ht|Ht]; [|by eapply Hw].
    exfalso. apply Hm in Ht as [-> Ht]. apply Hd in Ht as (e' & Hin' & Heq & _ & Hle).
    pose proof (NoDup_same_handle _ e' e (qo_nodup _ Hq) Hin' Hin Heq). subst. lia.
  - intros h c t Hall. apply elem_of_app in Hall as [Ht|Ht]; [by apply Hm in Ht as [-> _]|by eapply Hp].
  - apply paced_batch; [|done|].
    + rewrite fmap_reverse, Hh, reverse_Permutation. eapply sublist_NoDup; [apply (qo_nodup _ Hq)|]. apply fmap_sublist, sublist_filter.
    + intros h c Hin Hur c' t' Ht'. rewrite elem_of_reverse in Hin.
      apply Hd in Hin as (e & Hin & <- & <- & Hle). etrans; [by eapply Hw|done].
Qed.

Lemma note_outcome_same p outcome :
  pu_settings (fst (note_outcome p outcome)) = pu_settings p ∧ pu_queue (fst (note_outcome p outcome)) = pu_queue p
  ∧ pu_permit (fst (note_outcome p outcome)) = pu_permit p.
Proof. by destruct outcome. Qed.

(** A step that leaves the queue, the settings, the clock and the history. *)
Lemma path_ok_same s p w u p' w' u' now taken :
  pu_settings p' = pu_settings p → pu_queue p' = pu_queue p →
  (∀ until e, w' = Asleep until → pu_permit p' = false → u' = 0%nat → e ∈ wq_entries (pu_queue p) →
     ∃ t, until = Some t ∧ t ≤ Z.max (we_due_at e) now) →
  (∀ until rest, w' = Paused until rest → until ≤ now + MAX_PAUSE_SECONDS * 1000) →
  path_ok s (mkPath p w u now taken) → path_ok s (mkPath p' w' u' now taken).
Proof.
  intros Hs Hq Ha Hp [? ? ? ? ? ? _ _ ?]. split; cbn in *; rewrite ?Hs, ?Hq; done.
Qed.

Lemma worker_step_ok s a a' : worker_step a a' → path_ok s a → path_ok s a'.
Proof.
  intros Hstep Hok. destruct Hstep as [p u now taken|p until u now taken Hp|p until u now taken Hle|p u now taken|p h c rest ans u now taken
    |p until rest u now taken Hle|p u now taken].
  - eapply path_ok_same; [done|done| |done|exact Hok]. unfold decide_sleep. intros t0 e [= <-] _ _ He.
    destruct (next_deadline_le (wq_entries (pu_queue p)) e He) as (t & Ht & Hle).
    unfold next_deadline in *. cbn in Ht. rewrite Ht. cbn. eexists. split; [done|]. unfold u64_saturating_sub. lia.
  - (eapply path_ok_same; [..|exact Hok]; done).
  - (eapply path_ok_same; [..|exact Hok]; done).
  - by apply take_path_ok.
  - destruct (note_outcome_same p (ringer_outcome ans)) as (Hs & Hq & _). (eapply path_ok_same; [done|done| | |exact Hok]).
    + destruct (ringer_outcome ans); done.
    + intros t0 rest'. destruct (ringer_outcome ans); cbn; intros [= <- _]. lia.
  - (eapply path_ok_same; [..|exact Hok]; done).
  - (eapply path_ok_same; [..|exact Hok]; done).
Qed.

Lemma wake_step_ok s a a' : wake_step a a' → path_ok s a → path_ok s a'.
Proof.
  intros Hstep Hok. destruct Hstep as [p w u now now' taken Hle|p w u now taken h c|p w u now taken|a a' Hw].
  - destruct Hok as [? ? ? Hu ? Hp Ha Hps ?]. split; cbn in *; try done.
    + intros e He Hur. specialize (Hu e He Hur). lia.
    + intros h c t Ht. specialize (Hp h c t Ht). lia.
    + intros t0 e Hw Hperm Hz He. destruct (Ha t0 e Hw Hperm Hz He) as (t & -> & Ht). exists t. split; [done|lia].
    + intros t0 rest Hw. specialize (Hps t0 rest Hw). lia.
  - by apply enqueue_admit_ok.
  - apply (path_ok_same s p w (S u)); [done|done|done|apply (po_paused _ _ Hok)|exact Hok].
  - by eapply worker_step_ok.
Qed.

Lemma wake_start_ok s now : path_ok s (wake_start s now).
Proof.
  split; cbn; try done; try (intros; exfalso; eapply not_elem_of_nil; eassumption).
  split; cbn; [lia|lia|constructor].
Qed.

Lemma reachable_path_ok s now a : rtc wake_step (wake_start s now) a → path_ok s a.
Proof.
  intros Hr. remember (wake_start s now) as a0 eqn:Ha. assert (path_ok s a0) as H0 by (subst; apply wake_start_ok). clear Ha.
  induction Hr as [|x y z Hs _ IH]; [done|]. apply IH. by eapply wake_step_ok.
Qed.

(** The wake path is bounded and paced. However wakes arrive, time passes
    and the ringer answers: the queue never exceeds its bound and holds at most
    one wake per handle, and an ordinary wake leaves it at least one coalescing
    window after every earlier wake of the same handle. *)
Theorem wakes_bounded_and_paced s now a :
  rtc wake_step (wake_start s now) a →
  (length (wq_entries (pu_queue (pa_push a))) ≤ Nat.max (queue_bound s) 1)%nat
  ∧ NoDup (we_handle <$> wq_entries (pu_queue (pa_push a)))
  ∧ ∀ newer handle category t older category' t',
      pa_taken a = newer ++ (handle, category, t) :: older → is_urgent category = false →
      (handle, category', t') ∈ older → u64_saturating_add t' (coalesce_ms s) ≤ t.
Proof.
  intros Hr%reachable_path_ok. destruct Hr as [_ Hq Hb _ _ _ _ _ Hp]. rewrite <- Hb. split_and!; [apply Hq..|].
  intros newer h c t older c' t' Ht Hu Hin. rewrite Ht in Hp. clear Ht.
  induction newer as [|[[h0 c0] t0] newer IH]; cbn in Hp; destruct Hp as [Hp1 Hp2]; [by eapply Hp1|by apply IH].
Qed.

(** How many of its own steps the worker is away from the queue. *)
Definition worker_distance (w : Worker) : nat :=
  match w with
  | Woken => 1 | Asleep _ => 2 | Deciding => 3
  | Delivering rest => 4 + 2 * length rest | Paused _ rest => 5 + 2 * length rest
  end.

(** C27. A due wake is never slept through. In every reachable state in which a
    wake's window has closed: the worker has a step to take; or a 429 is holding
    it, for at most sixty seconds more; or it is asleep and an enqueue that has
    put its wake on the queue is about to notify it, after which it has a step.
    And each of the worker's steps hands the wake to the ringer or leaves it
    queued and brings the worker closer to it, whatever the ringer answers. *)
Theorem due_wake_is_rung s now a e :
  rtc wake_step (wake_start s now) a → e ∈ wq_entries (pu_queue (pa_push a)) → we_due_at e ≤ pa_now a →
  ((∃ a', worker_step a a')
   ∨ (∃ until rest, pa_worker a = Paused until rest ∧ pa_now a < until ≤ pa_now a + 60 * 1000)
   ∨ (∃ until u, pa_worker a = Asleep until ∧ pa_unnotified a = S u
        ∧ ∃ a', worker_step (mkPath (notify_one (pa_push a)) (pa_worker a) u (pa_now a) (pa_taken a)) a'))
  ∧ ∀ a', worker_step a a' →
      (we_handle e, we_category e, pa_now a) ∈ pa_taken a'
      ∨ (e ∈ wq_entries (pu_queue (pa_push a')) ∧ pa_now a' = pa_now a
         ∧ (worker_distance (pa_worker a') < worker_distance (pa_worker a))%nat).
Proof.
  intros Hr%reachable_path_ok He Hdue. split.
  - destruct a as [p w u n taken]. cbn in *. destruct w as [|until| |[|[h c] rest]|until rest].
    + left. eexists. apply wk_decide.
    + destruct (pu_permit p) eqn:Hp; [left; eexists; by apply wk_notified|].
      destruct u as [|u]; [|right; right; exists until, u; split_and!; [done..|]; eexists; by apply wk_notified].
      destruct (po_asleep _ _ Hr until e eq_refl Hp eq_refl He) as (t & -> & Ht). cbn in Ht.
      left. eexists. apply wk_timer. lia.
    + left. eexists. apply wk_take.
    + left. eexists. apply wk_round.
    + left. eexists. apply (wk_deliver _ _ _ _ None).
    + pose proof (po_paused _ _ Hr until rest eq_refl) as Hcap. cbn in Hcap. unfold MAX_PAUSE_SECONDS in Hcap.
      destruct (Z.le_gt_cases until n) as [Hle|Hgt]; [left; eexists; by apply wk_resume|].
      right. left. exists until, rest. split; [done|lia].
  - intros a' Hs. destruct Hs as [p u n taken|p until u n taken Hp|p until u n taken Hle|p u n taken|p h c rest ans u n taken
      |p until rest u n taken Hle|p u n taken]; cbn in *;
      try (right; split_and!; [done|done|lia]).
    + left. apply elem_of_app. left. unfold push_take_due. pose proof (proj2 (elem_of_due (pu_queue p) n (we_handle e) (we_category e))) as Hd.
      apply list_elem_of_In, in_map_iff.
      exists (we_handle e, we_category e). split; [done|]. apply (proj1 (list_elem_of_In _ _)), elem_of_reverse, Hd. by exists e.
    + right. destruct (note_outcome_same p (ringer_outcome ans)) as (_ & -> & _). split_and!; [done|done|].
      destruct (ringer_outcome ans); cbn; lia.
Qed.

(** ** Rings come first *)
Lemma elem_of_delete_other {A} (l : list A) i x y : l !! i = Some y → x ≠ y → x ∈ l → x ∈ delete i l.
Proof.
  intros Hi Hne [j Hj]%list_elem_of_lookup. assert (i ≠ j) by congruence.
  rewrite delete_take_drop. apply elem_of_app. destruct (decide (j < i)%nat) as [Hlt|Hge].
  - left. apply (list_elem_of_lookup_2 _ j). by rewrite lookup_take_lt.
  - right. apply (list_elem_of_lookup_2 _ (j - S i)). rewrite lookup_drop. by replace (S i + (j - S i))%nat with j by lia.
Qed.

(** A ring is admitted whatever is queued, and no ordinary wake ever displaces
    one: after a ring the queue holds a ring of that handle, and every ring
    queued before an ordinary wake is queued after it. *)
Theorem rings_outrank_messages q handle now_ms coalesce :
  queue_ok q →
  (∃ e, e ∈ wq_entries (snd (queue_admit q handle CatCall now_ms coalesce)) ∧ we_handle e = handle ∧ is_urgent (we_category e) = true)
  ∧ ∀ category e, is_urgent category = false → e ∈ wq_entries q → is_urgent (we_category e) = true →
      e ∈ wq_entries (snd (queue_admit q handle category now_ms coalesce)).
Proof.
  intros Hok. unfold queue_admit. destruct (list_find (λ e, we_handle e = handle) (wq_entries q)) as [[i x]|] eqn:Hf.
  - apply list_find_Some in Hf as (Hi & <- & _). destruct (is_urgent (we_category x)) eqn:Hx; cbn; split.
    + exists x. split; [by eapply list_elem_of_lookup_2|done].
    + by intros c e _ ? _.
    + exists (mkWakeEntry (we_handle x) CatCall now_ms). split; [|done]. apply (list_elem_of_lookup_2 _ i). apply list_lookup_insert_eq. by eapply lookup_lt_Some.
    + by intros c e -> ? _.
  - destruct (_ <=? _)%nat; [destruct (list_find (λ e, is_urgent _ = false) _) as [[i x]|] eqn:Hu|]; cbn; split.
    + eexists. split; [apply elem_of_app; right; apply list_elem_of_here|done].
    + intros c e _ He Hur. apply elem_of_app. left. apply list_find_Some in Hu as (Hi & Hx & _).
      eapply elem_of_delete_other; [exact Hi|congruence|done].
    + eexists. split; [apply elem_of_app; right; apply list_elem_of_here|done].
    + by intros c e -> He _.
    + eexists. split; [apply elem_of_app; right; apply list_elem_of_here|done].
    + intros c e _ He _. apply elem_of_app. by left.
Qed.

(** ** The register route *)
Lemma drop_slashes_replicate n bs : drop_slashes (replicate n Byte.x2f ++ bs) = drop_slashes bs.
Proof. induction n as [|n IH]; [done|]. cbn. exact IH. Qed.
Lemma trim_slashes bs n : trim_end_slashes (bs ++ replicate n Byte.x2f) = trim_end_slashes bs.
Proof.
  unfold trim_end_slashes. rewrite rev_app_distr. replace (rev (replicate n Byte.x2f)) with (replicate n Byte.x2f).
  - by rewrite drop_slashes_replicate.
  - rewrite rev_alt. symmetry. apply reverse_replicate.
Qed.
Lemma without_suffix_app suffix bs : without_suffix suffix (bs ++ suffix) = bs.
Proof.
  unfold without_suffix. rewrite length_app. replace (length bs + length suffix - length suffix)%nat with (length bs) by lia.
  rewrite drop_app_length, bool_decide_eq_true_2 by done. by rewrite take_app_length.
Qed.

(** The register route is the wake route with its path replaced, however many
    slashes the operator ended it with. *)
Theorem register_url_substitutes base n :
  default_register_url (base ++ RINGER_WAKE_PATH ++ replicate n Byte.x2f) = trim_end_slashes base ++ RINGER_REGISTER_PATH.
Proof.
  unfold default_register_url. rewrite app_assoc, trim_slashes.
  assert (trim_end_slashes (base ++ RINGER_WAKE_PATH) = base ++ RINGER_WAKE_PATH) as ->.
  { unfold trim_end_slashes. rewrite rev_app_distr. change (rev RINGER_WAKE_PATH) with (Byte.x65 :: rev (ascii_bytes "/v1/wak")).
    cbn [app drop_slashes]. rewrite bool_decide_eq_false_2 by done.
    rewrite <- (rev_involutive (base ++ RINGER_WAKE_PATH)), rev_app_distr. done. }
  by rewrite without_suffix_app.
Qed.

(** ** A concrete path *)
Module WakeQueueDemo.
Definition settings : PushSettings := mkPushSettings (Some [Byte.x68]) None [] 2000 1.
Definition phone : list byte := replicate 16 Byte.x01.
Definition tablet : list byte := replicate 16 Byte.x02.

(** The queue at its bound, all of it rings: the newest wake goes. *)
Definition ringing : WakeQueue := mkWakeQueue 1 [mkWakeEntry phone CatCall 5].
Theorem full_of_rings_drops_newest : queue_admit ringing tablet CatMessage 6 2000 = (AdDropped, ringing).
Proof. by vm_compute. Qed.

(** What is due leaves in the order it arrived, not in the order it fell due. *)
Definition mixed : WakeQueue := mkWakeQueue 4 [mkWakeEntry phone CatMessage 2000; mkWakeEntry tablet CatCall 5].
Theorem due_leaves_in_arrival_order :
  fst (queue_take_due mixed 2000) = [(phone, CatMessage); (tablet, CatCall)] ∧ next_deadline mixed = Some 5.
Proof. by vm_compute. Qed.

Definition rung : WakePath := mkPath (snd (enqueue_admit (push_new settings) phone CatMessage 7)) Deciding 1 7 [].
Definition told : WakePath := mkPath (notify_one (pa_push rung)) Deciding 0 7 [].
Definition waiting : WakePath := mkPath (pa_push told) (decide_sleep (pu_queue (pa_push rung)) 7) 0 7 [].
Definition overdue : WakePath := mkPath (pa_push told) (decide_sleep (pu_queue (pa_push rung)) 7) 0 2007 [].
Lemma overdue_reachable : rtc wake_step (wake_start settings 7) overdue.
Proof.
  apply (rtc_l _ _ rung); [apply wk_admit|]. apply (rtc_l _ _ told); [apply wk_notify|].
  apply (rtc_l _ _ waiting); [apply wk_worker, wk_decide|].
  apply (rtc_l _ _ overdue); [by apply wk_tick|apply rtc_refl].
Qed.
Definition pending : WakeEntry := mkWakeEntry phone CatMessage 2007.

Lemma wakes_bounded_and_paced_witness : (length (wq_entries (pu_queue (pa_push overdue))) ≤ 1)%nat.
Proof. apply (wakes_bounded_and_paced settings 7 overdue overdue_reachable). Defined.
Lemma due_wake_is_rung_witness : ∃ a', worker_step overdue a'.
Proof.
  destruct (due_wake_is_rung settings 7 overdue pending overdue_reachable) as [[Hs|[(t & rest & [=] & _)|(t & u & _ & [=] & _)]] _];
    [apply list_elem_of_here|by vm_compute|exact Hs].
Defined.
Lemma rings_outrank_messages_witness : mkWakeEntry phone CatCall 5 ∈ wq_entries (snd (queue_admit ringing tablet CatMessage 6 2000)).
Proof.
  apply (rings_outrank_messages ringing tablet 6 2000); [|done|apply list_elem_of_here|done].
  split; cbn; [lia|lia|apply NoDup_singleton].
Defined.
End WakeQueueDemo.
