(* ===== verification/WakeStore.v ===== *)
(** * Registrations, and who is woken

    Models [backend/wealdrelay/src/push/store.rs] with the table of
    [0009_push.sql], [push/dispatch.rs], [wake_answer] of [ws.rs] and the row an
    unknown handle costs in [push/worker.rs]. Times are in milliseconds, which
    the column keeps exactly. Which database calls fail is an argument. *)

From Stdlib Require Import ZArith Lia.
From stdpp Require Import base tactics numbers gmap sets fin_maps countable functions relations sorting list.
From S2P Require Import Prelude Cbor Push Frame Queue Hub Crypto Access AccessChain Envelope Session Admission InviteRecord WakeQueue.

Open Scope Z_scope.

Definition REGISTRATIONS_PER_HOUR : nat := 5.
Definition RATE_WINDOW_MS : Z := 60 * 60 * 1000.
(** The last millisecond a [timestamptz] holds. *)
Definition TIMESTAMP_MAX_MS : Z := 9224318015999999.

(** ** The table *)
Record HandleRow : Type := mkHandleRow { ph_handle : list byte; ph_categories : Z; ph_expires_at : Z }.
Abbreviation Handles := (gmap (list byte * list byte) HandleRow).

Inductive PushStoreError : Type := PushDatabase.
Inductive Registered : Type := Stored | HandleTaken.

(** The unique index on the handle: another row holds it. *)
Definition handle_taken (t : Handles) (key : list byte * list byte) (handle : list byte) : bool :=
  existsb (λ e : (list byte * list byte) * HandleRow, bool_decide (e.1 ≠ key) && bool_decide (ph_handle e.2 = handle)) (map_to_list t).

Definition register (t : Handles) (workspace entry handle : list byte) (categories expires_at_ms : Z) :
    result PushStoreError Registered * Handles :=
  if negb ((length entry =? 32)%nat && (length handle =? HANDLE_BYTES)%nat && (1 <=? categories) && (categories <=? 7)
           && (expires_at_ms <=? TIMESTAMP_MAX_MS))
  then (Err PushDatabase, t)
  else if handle_taken t (workspace, entry) handle then (Ok HandleTaken, t)
  else (Ok Stored, <[(workspace, entry) := mkHandleRow handle categories expires_at_ms]> t).

Definition clear (t : Handles) (workspace entry : list byte) : bool * Handles :=
  (bool_decide (is_Some (t !! (workspace, entry))), delete (workspace, entry) t).

(** [find]: the two conversions saturate. *)
Definition find (t : Handles) (workspace entry : list byte) : option (list byte * Z * Z) :=
  (λ r, (ph_handle r, (if (0 <=? ph_categories r) && (ph_categories r <=? 255) then ph_categories r else 0),
         (if 0 <=? ph_expires_at r then ph_expires_at r else 0))) <$> t !! (workspace, entry).

Definition delete_by_handle (t : Handles) (handle : list byte) : Handles := filter (λ e, ph_handle e.2 ≠ handle) t.
Definition sweep_expired (t : Handles) (now_ms : Z) : Handles := filter (λ e, now_ms < ph_expires_at e.2) t.
Definition delete_for_entries (t : Handles) (workspace : list byte) (entries : list (list byte)) : Handles :=
  filter (λ e : (list byte * list byte) * HandleRow, ¬ (e.1.1 = workspace ∧ e.1.2 ∈ entries)) t.

Record Wakeable : Type := mkWakeable { wb_entry_hash : list byte; wb_handle : list byte; wb_categories : Z }.

(** [order by p.entry_hash]. *)
Definition wakeable_le (a b : Wakeable) : Prop := bytes_le (wb_entry_hash a) (wb_entry_hash b).
#[global] Instance wakeable_le_dec a b : Decision (wakeable_le a b).
Proof. unfold wakeable_le, bytes_le, bytes_lt. apply _. Defined.

(** Whether a principal is in the newest accepted set of a workspace. *)
Definition in_newest_set (tables : Tables) (workspace entry : list byte) : bool :=
  match workspaces tables !! workspace with
  | Some db => match head_version db with Some v => bool_decide ((v, entry) ∈ entry_rows db) | None => false end
  | None => false
  end.
Definition is_wakeable (tables : Tables) (workspace : list byte) (category : Category) (now_ms : Z)
    (e : (list byte * list byte) * HandleRow) : bool :=
  bool_decide (e.1.1 = workspace) && in_newest_set tables workspace e.1.2
  && (now_ms <? ph_expires_at e.2) && negb (Z.land (ph_categories e.2) (category_bit category) =? 0).

Definition wakeable_for_group (tables : Tables) (t : Handles) (group : list byte) (category : Category) (now_ms : Z) :
    list Wakeable :=
  match workspace_of tables group with
  | None => []
  | Some workspace =>
      merge_sort wakeable_le
        (map (λ e : (list byte * list byte) * HandleRow, mkWakeable e.1.2 (ph_handle e.2) (ph_categories e.2))
           (filter (λ e, is_wakeable tables workspace category now_ms e = true) (map_to_list t)))
  end.

(** ** The registration ceiling: a sliding window per principal *)
Definition allow (principals : gmap (list byte) (list Z)) (entry_hash : list byte) (now_ms : Z) :
    bool * gmap (list byte) (list Z) :=
  let attempts := filter (λ t, u64_saturating_sub now_ms t < RATE_WINDOW_MS) (default [] (principals !! entry_hash)) in
  if (REGISTRATIONS_PER_HOUR <=? length attempts)%nat then (false, <[entry_hash := attempts]> principals)
  else (true, <[entry_hash := attempts ++ [now_ms]]> principals).

(** ** The handler *)
Record WakeServer : Type := mkWakeServer {
  wv_tables : Tables;
  wv_handles : Handles;
  wv_push : PushState;
  wv_rate : gmap (list byte) (list Z)
}.
Inductive WakeCall : Type := CallSalt | CallRegister | CallClear | CallWakeable | CallDeleteHandle.

Section handler.
Context `{Blake3}.
Variable fresh : list byte → list byte.
Variable fails : WakeCall → bool.

(** [salt]: the workspace row ensured, then read. *)
Definition ensure_workspace (sv : WakeServer) (workspace : list byte) : WakeServer :=
  mkWakeServer (with_workspaces (wv_tables sv) (<[workspace := workspace_db fresh (wv_tables sv) workspace]> (workspaces (wv_tables sv))))
    (wv_handles sv) (wv_push sv) (wv_rate sv).

Definition register_answer (sv : WakeServer) (workspace entry handle : list byte) (categories expires_at now_ms : Z) :
    Frame * WakeServer :=
  if negb (expiry_in_bounds expires_at now_ms) then (Frame.Error (FrameError_new PushHandleMalformed), sv)
  else
    let '(allowed, rate) := allow (wv_rate sv) entry now_ms in
    let sv := mkWakeServer (wv_tables sv) (wv_handles sv) (wv_push sv) rate in
    if negb allowed then
      (Frame.Error (with_detail (with_retry_after (FrameError_new PushRegistrationRate) 3600)
                      (be_bytes 8 (Z.of_nat REGISTRATIONS_PER_HOUR))), sv)
    else if fails CallRegister then (Frame.Error (FrameError_new PushBackpressure), sv)
    else
      match register (wv_handles sv) workspace entry handle categories expires_at with
      | (Ok Stored, t) => (Wake (Frame.Registered expires_at), mkWakeServer (wv_tables sv) t (wv_push sv) (wv_rate sv))
      | (Ok HandleTaken, _) => (Frame.Error (FrameError_new PushHandleMalformed), sv)
      | (Err _, _) => (Frame.Error (FrameError_new PushBackpressure), sv)
      end.

Definition wake_answer (database : bool) (sv : WakeServer) (session : Session) (body : WakeBody) (now_ms : Z) :
    Frame * WakeServer :=
  match body with
  | Query => (Wake (capability (wv_push sv)), sv)
  | _ =>
      if negb (push_enabled (pu_settings (wv_push sv))) then (Frame.Error (FrameError_new PushNotConfigured), sv)
      else if negb database then (Frame.Error (FrameError_new PushBackpressure), sv)
      else
        match authorized_workspace session, s_device_key session with
        | Some workspace, Some device_key =>
            if fails CallSalt then (Frame.Error (FrameError_new PushBackpressure), sv)
            else
              let entry := entry_hash device_key (db_salt (workspace_db fresh (wv_tables sv) workspace)) in
              let sv := ensure_workspace sv workspace in
              match body with
              | Register handle categories expires_at => register_answer sv workspace entry handle categories expires_at now_ms
              | Clear =>
                  if fails CallClear then (Frame.Error (FrameError_new PushBackpressure), sv)
                  else (Wake Cleared, mkWakeServer (wv_tables sv) (snd (clear (wv_handles sv) workspace entry)) (wv_push sv) (wv_rate sv))
              | _ => (Frame.Error (FrameError_new MalformedHeader), sv)
              end
        | _, _ => (Frame.Error (FrameError_new WriterNotInAccessSet), sv)
        end
  end.

(** ** Dispatch *)
Definition wake_candidate (hub : Hub) (category : Category) (now_ms : Z) (p : PushState) (candidate : Wakeable) : PushState :=
  if (0 <? connections_for hub (wb_entry_hash candidate))%nat then p
  else snd (enqueue p (wb_handle candidate) category now_ms).

Definition wake_group (database : bool) (hub : Hub) (sv : WakeServer) (group : list byte) (category : Category) (now_ms : Z) :
    WakeServer :=
  if negb database || fails CallWakeable then sv
  else mkWakeServer (wv_tables sv) (wv_handles sv)
         (fold_left (wake_candidate hub category now_ms)
            (wakeable_for_group (wv_tables sv) (wv_handles sv) group category now_ms) (wv_push sv))
         (wv_rate sv).
Definition after_commit (database : bool) (hub : Hub) (sv : WakeServer) (group : list byte) (category : Category) (now_ms : Z) :
    WakeServer :=
  if negb (push_enabled (pu_settings (wv_push sv))) then sv else wake_group database hub sv group category now_ms.

(** [deliver]: the counters, and the row of a handle the ringer does not know. *)
Definition deliver_wake (database : bool) (sv : WakeServer) (handle : list byte) (answer : option (Z * option Z)) : WakeServer * option Z :=
  let outcome := ringer_outcome answer in
  let '(p, pause) := note_outcome (wv_push sv) outcome in
  (mkWakeServer (wv_tables sv)
     (match outcome with
      | WakeUnknown => if database && negb (fails CallDeleteHandle) then delete_by_handle (wv_handles sv) handle else wv_handles sv
      | _ => wv_handles sv
      end) p (wv_rate sv), pause).
End handler.

(** ** One handle, one principal *)
Record handles_ok (t : Handles) : Prop := {
  ho_unique : ∀ k k' r r', t !! k = Some r → t !! k' = Some r' → ph_handle r = ph_handle r' → k = k';
  ho_shape : ∀ k r, t !! k = Some r → length (ph_handle r) = HANDLE_BYTES ∧ 1 ≤ ph_categories r ≤ 7
}.

Lemma not_taken t key handle k r : handle_taken t key handle = false → t !! k = Some r → ph_handle r = handle → k = key.
Proof.
  intros Ht Hk Hh. destruct (decide (k = key)) as [|Hne]; [done|]. exfalso.
  assert (handle_taken t key handle = true) as Hx; [|congruence]. apply existsb_exists. exists (k, r).
  split; [by apply list_elem_of_In, elem_of_map_to_list|]. cbn. by rewrite !bool_decide_eq_true_2.
Qed.

Lemma register_inv t workspace entry handle categories expires_at out t' :
  register t workspace entry handle categories expires_at = (out, t') →
  (t' = t ∧ out ≠ Ok Stored)
  ∨ (out = Ok Stored ∧ t' = <[(workspace, entry) := mkHandleRow handle categories expires_at]> t
     ∧ handle_taken t (workspace, entry) handle = false ∧ length handle = HANDLE_BYTES ∧ 1 ≤ categories ≤ 7).
Proof.
  unfold register. destruct (negb _) eqn:Hc; [intros [= <- <-]; by left|]. destruct (handle_taken _ _ _) eqn:Ht; intros [= <- <-]; [by left|].
  right. apply negb_false_iff in Hc. rewrite !andb_true_iff, !Nat.eqb_eq, !Z.leb_le in Hc. destruct_and! Hc. done.
Qed.

Lemma insert_handle_ok t key handle categories expires_at :
  handles_ok t → handle_taken t key handle = false → length handle = HANDLE_BYTES → 1 ≤ categories ≤ 7 →
  handles_ok (<[key := mkHandleRow handle categories expires_at]> t).
Proof.
  intros [Hu Hs] Ht Hl Hc. split.
  - intros k k' r r' [[<- <-]|[Hne Hk]]%lookup_insert_Some [[<- <-]|[Hne' Hk']]%lookup_insert_Some Heq; cbn in Heq.
    + done.
    + symmetry. by eapply not_taken.
    + by eapply not_taken.
    + by eapply Hu.
  - intros k r [[_ <-]|[_ Hk]]%lookup_insert_Some; [done|by eapply Hs].
Qed.

Lemma subset_handles_ok t t' : t' ⊆ t → handles_ok t → handles_ok t'.
Proof.
  intros Hsub [Hu Hs]. split.
  - intros k k' r r' Hk Hk'. eapply Hu; by eapply lookup_weaken.
  - intros k r Hk. eapply Hs. by eapply lookup_weaken.
Qed.

(** Everything that happens to the table. *)
Inductive handle_step : Handles → Handles → Prop :=
| hs_register t w entry handle categories expires_at :
    handle_step t (snd (register t w entry handle categories expires_at))
| hs_clear t w entry : handle_step t (snd (clear t w entry))
| hs_gone t handle : handle_step t (delete_by_handle t handle)
| hs_sweep t now_ms : handle_step t (sweep_expired t now_ms)
| hs_removed t w entries : handle_step t (delete_for_entries t w entries).

Lemma handle_step_ok t t' : handle_step t t' → handles_ok t → handles_ok t'.
Proof.
  intros Hs Hok. destruct Hs as [t w e h c x|t w e|t h|t n|t w es].
  - destruct (register t w e h c x) as [out t'] eqn:Hr. apply register_inv in Hr as [[-> _]|(_ & -> & Ht & Hl & Hc)]; [done|].
    by apply insert_handle_ok.
  - eapply subset_handles_ok; [apply delete_subseteq|done].
  - eapply subset_handles_ok; [apply map_filter_subseteq|done].
  - eapply subset_handles_ok; [apply map_filter_subseteq|done].
  - eapply subset_handles_ok; [apply map_filter_subseteq|done].
Qed.

(** A handle rings one device. In every state registrations, clearances,
    unknown handles, sweeps and removals reach, no two principals of any
    workspaces hold the same handle; a registration only ever writes its own
    principal's row, and is refused while another principal holds the handle;
    and a removed principal holds none. *)
Theorem handle_rings_one_device t :
  rtc handle_step ∅ t →
  (∀ k k' r r', t !! k = Some r → t !! k' = Some r' → ph_handle r = ph_handle r' → k = k')
  ∧ (∀ w entry handle categories expires_at k,
       k ≠ (w, entry) → snd (register t w entry handle categories expires_at) !! k = t !! k)
  ∧ (∀ w entry handle categories expires_at k r,
       t !! k = Some r → ph_handle r = handle → k ≠ (w, entry) →
       fst (register t w entry handle categories expires_at) ≠ Ok Stored)
  ∧ (∀ w entries entry, entry ∈ entries → delete_for_entries t w entries !! (w, entry) = None).
Proof.
  intros Hr. assert (handles_ok t) as Hok.
  { remember ∅ as t0 eqn:H0. assert (handles_ok t0) as Hi by (subst; split; intros *; by rewrite lookup_empty).
    clear H0. induction Hr as [|x y z Hs _ IH]; [done|]. by apply IH, (handle_step_ok x). }
  split_and!; [apply (ho_unique _ Hok)| | |].
  - intros w e h c x k Hk. destruct (register t w e h c x) as [out t'] eqn:Hg.
    apply register_inv in Hg as [[-> _]|(_ & -> & _)]; [done|]. cbn. by rewrite lookup_insert_ne.
  - intros w e h c x k r Hk Hh Hne. destruct (register t w e h c x) as [out t'] eqn:Hg. cbn.
    apply register_inv in Hg as [[_ Hn]|(_ & _ & Ht & _)]; [done|]. destruct Hne. by eapply not_taken.
  - intros w es e He. apply map_lookup_filter_None. right. intros r _ Hn. by apply Hn.
Qed.

(** ** What a frame may change *)
Section confined.
Context `{Blake3}.
Variable fresh : list byte → list byte.
Variable fails : WakeCall → bool.

Definition own_key (sv : WakeServer) (session : Session) : option (list byte * list byte) :=
  match authorized_workspace session, s_device_key session with
  | Some w, Some key => Some (w, entry_hash key (db_salt (workspace_db fresh (wv_tables sv) w)))
  | _, _ => None
  end.

(** What an answer says about the table. *)
Definition answered (sv sv' : WakeServer) (session : Session) (body : WakeBody) (now_ms : Z) (f : Frame) : Prop :=
  match f with
  | Wake (Frame.Registered expires_at) =>
      ∃ k handle categories, own_key sv session = Some k ∧ body = Register handle categories expires_at
        ∧ expiry_in_bounds expires_at now_ms = true ∧ handle_taken (wv_handles sv) k handle = false
        ∧ wv_handles sv' = <[k := mkHandleRow handle categories expires_at]> (wv_handles sv)
  | Wake Cleared => ∃ k, own_key sv session = Some k ∧ body = Clear ∧ wv_handles sv' = delete k (wv_handles sv)
  | _ => wv_handles sv' = wv_handles sv
  end.

Lemma register_answer_spec sv workspace entry handle categories expires_at now_ms :
  let '(f, sv') := register_answer fails sv workspace entry handle categories expires_at now_ms in
  wv_push sv' = wv_push sv ∧
  match f with
  | Wake (Frame.Registered e) => e = expires_at ∧ expiry_in_bounds expires_at now_ms = true
      ∧ handle_taken (wv_handles sv) (workspace, entry) handle = false
      ∧ wv_handles sv' = <[(workspace, entry) := mkHandleRow handle categories expires_at]> (wv_handles sv)
  | Wake _ => False
  | _ => wv_handles sv' = wv_handles sv
  end.
Proof.
  unfold register_answer. destruct (expiry_in_bounds _ _) eqn:He; [|done]. cbn [negb].
  destruct (allow _ _ _) as [allowed rate]. destruct allowed; [|done]. cbn [negb].
  destruct (fails CallRegister); [done|]. cbn [wv_handles].
  destruct (register _ _ _ _ _ _) as [out t'] eqn:Hr.
  apply register_inv in Hr as [[-> Hn]|(-> & -> & Ht & _)]; [|done].
  by destruct out as [[]|].
Qed.

(** A wake frame touches its own registration alone. Whatever the frame,
    the answer tells exactly what happened to the table: registered, the row
    of the session's own device in its own workspace is the one asked for, its
    expiry in bounds and its handle nobody else's; cleared, that row is gone;
    any other answer, an error included, and no row has changed. Nothing is
    queued to be rung. *)
Theorem wake_frame_confined database sv session body now_ms :
  let '(f, sv') := wake_answer fresh fails database sv session body now_ms in
  answered sv sv' session body now_ms f ∧ wv_push sv' = wv_push sv.
Proof.
  unfold wake_answer, answered, own_key.
  destruct body as [handle categories expires_at|e| | | |en url]; cbn; try done;
    (destruct (push_enabled _); [|done]); cbn [negb]; (destruct database; [|done]); cbn [negb];
    (destruct (authorized_workspace session) as [w|]; [|done]); (destruct (s_device_key session) as [key|]; [|done]);
    (destruct (fails CallSalt); [done|]); try done.
  - match goal with |- context [register_answer ?fl ?s ?a ?b ?c ?d ?e ?n] =>
      pose proof (register_answer_spec s a b c d e n) as Hr; destruct (register_answer fl s a b c d e n) as [f sv'] end.
    destruct Hr as [Hp Hr]. split; [|done]. destruct f; try done. destruct body; try done.
    destruct Hr as (-> & He & Ht & Hh). eexists _, _, _. done.
  - destruct (fails CallClear); [done|]. cbn. split; [|done]. by eexists.
Qed.
End confined.

(** ** Five registrations in any hour *)
Section ceiling.

(** The times at which one principal's requests are allowed, among everybody's. *)
Fixpoint granted (m : gmap (list byte) (list Z)) (requests : list (list byte * Z)) (entry : list byte) : list Z :=
  match requests with
  | [] => []
  | (e, t) :: rest =>
      (if fst (allow m e t) && bool_decide (e = entry) then [t] else []) ++ granted (snd (allow m e t)) rest entry
  end.

Definition spaced (h : list Z) : Prop :=
  ∀ i a b, h !! i = Some a → h !! (i + REGISTRATIONS_PER_HOUR)%nat = Some b → RATE_WINDOW_MS ≤ b - a.

(** Pruning a list in order drops a prefix. *)
Lemma pruned_suffix now_ms l :
  StronglySorted Z.le l → Forall (λ x, x ≤ now_ms) l →
  ∃ old, l = old ++ filter (λ t, u64_saturating_sub now_ms t < RATE_WINDOW_MS) l ∧ Forall (λ x, RATE_WINDOW_MS ≤ now_ms - x) old.
Proof.
  intros Hs Hl. induction Hs as [|x l Hs IH Hx]; [by exists []|]. apply Forall_cons in Hl as [Hle Hl].
  destruct (decide (u64_saturating_sub now_ms x < RATE_WINDOW_MS)) as [Hin|Hout].
  - exists []. split; [|done]. cbn [app]. symmetry. apply filter_all. apply Forall_cons. split; [done|].
    rewrite Forall_forall in Hx, Hl |- *. intros y Hy. specialize (Hx y Hy). specialize (Hl y Hy). unfold u64_saturating_sub in *. lia.
  - destruct (IH Hl) as (old & He & Ho). exists (x :: old). rewrite filter_cons_False by done. split; [by rewrite He at 1|].
    constructor; [unfold u64_saturating_sub in Hout; lia|done].
Qed.

(** What the limiter remembers of a principal's history [h]. *)
Record remembers (m : gmap (list byte) (list Z)) (entry : list byte) (h : list Z) (now_ms : Z) : Prop := {
  rm_suffix : ∃ old, h = old ++ default [] (m !! entry) ∧ Forall (λ x, RATE_WINDOW_MS ≤ now_ms - x) old;
  rm_sorted : StronglySorted Z.le h;
  rm_past : Forall (λ x, x ≤ now_ms) h;
  rm_spaced : spaced h
}.

Lemma sorted_app_r {A} (R : A → A → Prop) l l' : StronglySorted R (l ++ l') → StronglySorted R l'.
Proof. induction l as [|x l IH]; [done|]. cbn. intros [Hs _]%StronglySorted_inv. by apply IH. Qed.
Lemma sorted_snoc (l : list Z) x : StronglySorted Z.le l → Forall (λ y, y ≤ x) l → StronglySorted Z.le (l ++ [x]).
Proof.
  intros Hs Hf. induction Hs as [|y l Hs IH Hy]; cbn; [repeat constructor|]. apply Forall_cons in Hf as [Hyx Hf].
  constructor; [by apply IH|]. apply Forall_app. split; [done|by repeat constructor].
Qed.

Lemma later_remembers m entry h now_ms later : now_ms ≤ later → remembers m entry h now_ms → remembers m entry h later.
Proof.
  intros Hle [(old & Hh & Ho) Hs Hp Hsp]. split; [|done| |done].
  - exists old. split; [done|]. eapply Forall_impl; [exact Ho|]. cbn. lia.
  - eapply Forall_impl; [exact Hp|]. cbn. lia.
Qed.

Lemma allow_own m entry h now_ms :
  remembers m entry h now_ms →
  remembers (snd (allow m entry now_ms)) entry (h ++ (if fst (allow m entry now_ms) then [now_ms] else [])) now_ms.
Proof.
  intros [(old & Hh & Ho) Hs Hp Hsp]. unfold allow.
  assert (StronglySorted Z.le (default [] (m !! entry))) as Hs' by (rewrite Hh in Hs; by eapply sorted_app_r).
  assert (Forall (λ x, x ≤ now_ms) (default [] (m !! entry))) as Hp' by (rewrite Hh in Hp; by apply Forall_app in Hp as [_ ?]).
  destruct (pruned_suffix now_ms _ Hs' Hp') as (pre & He & Hpre).
  set (kept := filter (λ t, u64_saturating_sub now_ms t < RATE_WINDOW_MS) (default [] (m !! entry))) in *.
  assert (h = (old ++ pre) ++ kept) as Hh' by (by rewrite Hh, He, app_assoc).
  assert (Forall (λ x, RATE_WINDOW_MS ≤ now_ms - x) (old ++ pre)) as Hold by (by apply Forall_app).
  destruct (Nat.leb_spec REGISTRATIONS_PER_HOUR (length kept)) as [Hge|Hlt]; cbn [fst snd].
  - rewrite app_nil_r. split; [|done..]. exists (old ++ pre). by rewrite lookup_insert_eq.
  - split.
    + exists (old ++ pre). rewrite lookup_insert_eq. cbn [default]. split; [by rewrite Hh', <- app_assoc|done].
    + by apply sorted_snoc.
    + apply Forall_app. split; [done|by repeat constructor].
    + intros i a b Ha Hb. apply lookup_app_Some in Hb as [Hb|[Hlen Hb]].
      * rewrite lookup_app_l in Ha by (apply lookup_lt_Some in Hb; lia). by eapply Hsp.
      * apply list_lookup_singleton_Some in Hb as [Hi <-].
        assert (i < length (old ++ pre))%nat as Hin.
        { rewrite Hh', length_app in Hlen, Hi. lia. }
        rewrite lookup_app_l in Ha by (rewrite Hh', length_app; lia). rewrite Hh', lookup_app_l in Ha by done.
        rewrite Forall_lookup in Hold. by eapply Hold.
Qed.

Lemma allow_other m e entry h now_ms : e ≠ entry → remembers m entry h now_ms → remembers (snd (allow m e now_ms)) entry h now_ms.
Proof.
  intros Hne [Hsuf Hs Hp Hsp]. split; try done. unfold allow. destruct (_ <=? _)%nat; cbn; by rewrite lookup_insert_ne.
Qed.

Lemma granted_spaced requests m entry h now_ms :
  remembers m entry h now_ms → StronglySorted Z.le (snd <$> requests) → Forall (λ r, now_ms ≤ snd r) requests →
  spaced (h ++ granted m requests entry).
Proof.
  revert m h now_ms. induction requests as [|[e t] rest IH]; intros m h now_ms Hrem Hs Hf; cbn [granted].
  { rewrite app_nil_r. apply (rm_spaced _ _ _ _ Hrem). }
  apply Forall_cons in Hf as [Hle Hf]. cbn in Hle. cbn in Hs. apply StronglySorted_inv in Hs as [Hs Hall].
  assert (Forall (λ r : list byte * Z, t ≤ snd r) rest) as Hf'.
  { rewrite Forall_fmap in Hall. exact Hall. }
  apply (later_remembers _ _ _ _ t Hle) in Hrem. rewrite app_assoc.
  destruct (decide (e = entry)) as [->|Hne].
  - rewrite bool_decide_eq_true_2 by done. rewrite andb_true_r. eapply IH; [by apply allow_own|done|done].
  - rewrite bool_decide_eq_false_2 by done. rewrite andb_false_r, app_nil_r. eapply IH; [by apply allow_other|done|done].
Qed.

(** No principal registers more than five times in any hour, on however
    many connections and whatever everybody else sends: between a registration
    allowed and the fifth after it, at least an hour passes. *)
Theorem registrations_per_hour requests entry i a b :
  StronglySorted Z.le (snd <$> requests) →
  granted ∅ requests entry !! i = Some a → granted ∅ requests entry !! (i + REGISTRATIONS_PER_HOUR)%nat = Some b →
  RATE_WINDOW_MS ≤ b - a.
Proof.
  intros Hs. destruct requests as [|[e t] rest]; [done|].
  apply (granted_spaced ((e, t) :: rest) ∅ entry [] t); [|done|].
  - split; [by exists []|constructor|constructor|by intros ? ? ? ?].
  - cbn in Hs. apply StronglySorted_inv in Hs as [_ Hall]. rewrite Forall_fmap in Hall. by constructor.
Qed.
End ceiling.

(** ** Who is rung *)
Section dispatch.
Context (fails : WakeCall → bool).
Implicit Types (tables : Tables) (t : Handles).

(** A live registration, for this category, of a principal the workspace that
    owns the group admits now. *)
Definition wakes tables t (group : list byte) (category : Category) (now_ms : Z) (entry : list byte) (r : HandleRow) : Prop :=
  ∃ w, workspace_of tables group = Some w ∧ t !! (w, entry) = Some r ∧ in_newest_set tables w entry = true
    ∧ now_ms < ph_expires_at r ∧ admitted_by category (ph_categories r) = true.

Lemma elem_of_wakeable tables t group category now_ms x :
  x ∈ wakeable_for_group tables t group category now_ms
  ↔ ∃ r, wakes tables t group category now_ms (wb_entry_hash x) r ∧ wb_handle x = ph_handle r ∧ wb_categories x = ph_categories r.
Proof.
  unfold wakeable_for_group, wakes, admitted_by. destruct (workspace_of tables group) as [w|].
  2:{ split; [by intros ?%not_elem_of_nil|by intros (r & (w & [=] & _) & _)]. }
  rewrite merge_sort_Permutation, list_elem_of_In, in_map_iff. setoid_rewrite <- list_elem_of_In.
  setoid_rewrite list_elem_of_filter. split.
  - intros ([[w' entry] r] & <- & Hw & Hin). apply elem_of_map_to_list in Hin. unfold is_wakeable in Hw. cbn in Hw |- *.
    rewrite !andb_true_iff, Z.ltb_lt in Hw. destruct Hw as [[[Heq%bool_decide_eq_true ?] ?] ?]. subst w'.
    exists r. split; [by exists w|done].
  - intros (r & (w' & [= <-] & Hl & Hn & He & Ha) & Hh & Hc). exists ((w, wb_entry_hash x), r). destruct x as [xe xh xc]. cbn in *.
    split; [congruence|]. split; [|by apply elem_of_map_to_list]. unfold is_wakeable. cbn.
    rewrite bool_decide_eq_true_2, Hn, (proj2 (Z.ltb_lt _ _) He) by done. done.
Qed.

(** With room for one more, nothing leaves and the handle is there. *)
Lemma admit_room q handle category now_ms coalesce :
  (length (wq_entries q) < wq_bound q)%nat →
  (we_handle <$> wq_entries q) ⊆ (we_handle <$> wq_entries (snd (queue_admit q handle category now_ms coalesce)))
  ∧ handle ∈ we_handle <$> wq_entries (snd (queue_admit q handle category now_ms coalesce))
  ∧ (length (wq_entries (snd (queue_admit q handle category now_ms coalesce))) ≤ S (length (wq_entries q)))%nat.
Proof.
  intros Hlt. unfold queue_admit. destruct (list_find _ _) as [[i x]|] eqn:Hf.
  - apply list_find_Some in Hf as (Hi & <- & _).
    assert (we_handle x ∈ we_handle <$> wq_entries q) by (by eapply list_elem_of_fmap_2, list_elem_of_lookup_2).
    destruct (is_urgent (we_category x)); [cbn; split_and!; [done|done|lia]|].
    destruct (is_urgent category); [|cbn; split_and!; [done|done|lia]]. cbn [snd wq_entries with_entries].
    rewrite list_fmap_insert, length_insert. cbn [we_handle]. rewrite list_insert_id by (by rewrite list_lookup_fmap, Hi).
    split_and!; [done|done|lia].
  - rewrite (proj2 (Nat.leb_gt _ _) Hlt). cbn. rewrite fmap_app, length_app. cbn. split_and!; [set_solver|set_solver|lia].
Qed.

Lemma wake_all_entries hub category now_ms l p e :
  e ∈ wq_entries (pu_queue (fold_left (wake_candidate hub category now_ms) l p)) →
  e ∈ wq_entries (pu_queue p)
  ∨ ∃ x, x ∈ l ∧ connections_for hub (wb_entry_hash x) = 0%nat ∧ we_handle e = wb_handle x ∧ we_category e = category.
Proof.
  revert p. induction l as [|x l IH]; intros p He; [by left|]. cbn in He. apply IH in He as [He|(y & Hy & Hr)].
  - unfold wake_candidate in He. destruct (Nat.ltb_spec 0 (connections_for hub (wb_entry_hash x))); [by left|].
    unfold enqueue, enqueue_admit in He. pose proof (admit_entries (pu_queue p) (wb_handle x) category now_ms (coalesce_ms (pu_settings p)) e) as Ha.
    destruct (queue_admit _ _ _ _ _) as [ad q]. cbn in He, Ha. destruct (Ha He) as [?| ->]; [by left|right].
    exists x. split_and!; [apply list_elem_of_here|lia|done|done].
  - right. exists y. split; [by apply list_elem_of_further|done].
Qed.

Lemma wake_all_room hub category now_ms l p :
  (length (wq_entries (pu_queue p)) + length l ≤ wq_bound (pu_queue p))%nat →
  (we_handle <$> wq_entries (pu_queue p)) ⊆ (we_handle <$> wq_entries (pu_queue (fold_left (wake_candidate hub category now_ms) l p)))
  ∧ ∀ x, x ∈ l → connections_for hub (wb_entry_hash x) = 0%nat →
      wb_handle x ∈ we_handle <$> wq_entries (pu_queue (fold_left (wake_candidate hub category now_ms) l p)).
Proof.
  revert p. induction l as [|x l IH]; intros p Hl; [split; [done|by intros ? ?%not_elem_of_nil]|]. cbn [fold_left length] in *.
  unfold wake_candidate at 2 4. destruct (Nat.ltb_spec 0 (connections_for hub (wb_entry_hash x))) as [Hc|Hc].
  { destruct (IH p ltac:(lia)) as [Hs Hin]. split; [done|]. intros y [->|Hy]%elem_of_cons Hy0; [lia|by apply Hin]. }
  destruct (admit_room (pu_queue p) (wb_handle x) category now_ms (coalesce_ms (pu_settings p)) ltac:(lia)) as (Hs & Hx & Hlen).
  pose proof (admit_bound (pu_queue p) (wb_handle x) category now_ms (coalesce_ms (pu_settings p))) as Hb.
  unfold enqueue, enqueue_admit. destruct (queue_admit _ _ _ _ _) as [ad q]. cbn [snd] in *.
  match goal with |- context [fold_left _ l ?p'] => destruct (IH p') as [Hs' Hin]; [cbn; lia|] end. cbn in Hs'.
  split; [by etrans|]. intros y [->|Hy]%elem_of_cons Hy0; [by apply Hs', Hx|by apply Hin].
Qed.

(** Exactly the absent are rung. After something is accepted for a group,
    every wake added to the queue is, in that category, for a live registration
    that asked for it, of a principal in the newest access set of the workspace
    owning the group, holding no connection; and while the queue has room,
    every such principal has a wake waiting. *)
Theorem absent_members_are_rung database hub sv group category now_ms :
  let q := pu_queue (wv_push sv) in
  let q' := pu_queue (wv_push (after_commit fails database hub sv group category now_ms)) in
  (∀ e, e ∈ wq_entries q' → e ∈ wq_entries q
     ∨ ∃ entry r, wakes (wv_tables sv) (wv_handles sv) group category now_ms entry r
         ∧ connections_for hub entry = 0%nat ∧ we_handle e = ph_handle r ∧ we_category e = category)
  ∧ (push_enabled (pu_settings (wv_push sv)) = true → database = true → fails CallWakeable = false →
     (length (wq_entries q) + length (wakeable_for_group (wv_tables sv) (wv_handles sv) group category now_ms) ≤ wq_bound q)%nat →
     ∀ entry r, wakes (wv_tables sv) (wv_handles sv) group category now_ms entry r → connections_for hub entry = 0%nat →
       ph_handle r ∈ we_handle <$> wq_entries q').
Proof.
  cbn zeta. unfold after_commit, wake_group. split.
  - intros e. destruct (push_enabled _); [|by left]. cbn [negb]. destruct (negb database || fails CallWakeable); [by left|].
    cbn [wv_push]. intros He. apply wake_all_entries in He as [?|(x & Hx & Hc & Hh & Hcat)]; [by left|right].
    apply elem_of_wakeable in Hx as (r & Hr & Hxh & _). exists (wb_entry_hash x), r. rewrite Hh, Hxh. done.
  - intros -> -> -> Hroom entry r Hr Hc. cbn [negb orb wv_push].
    destruct (wake_all_room hub category now_ms _ _ Hroom) as [_ Hin].
    apply (Hin (mkWakeable entry (ph_handle r) (ph_categories r))); [|done]. apply elem_of_wakeable. by exists r.
Qed.
End dispatch.

(** ** The ringer's answer *)

(** A handle the ringer does not know is forgotten, and nothing else is; and no
    answer holds the worker for more than a minute. *)
Theorem unknown_handle_forgotten fails database sv handle answer :
  let '(sv', pause) := deliver_wake fails database sv handle answer in
  from_option (λ seconds, seconds ≤ MAX_PAUSE_SECONDS) True pause
  ∧ (∀ k r, wv_handles sv' !! k = Some r → wv_handles sv !! k = Some r)
  ∧ (∀ k r, wv_handles sv !! k = Some r → ph_handle r ≠ handle → wv_handles sv' !! k = Some r)
  ∧ (ringer_outcome answer = WakeUnknown → database = true → fails CallDeleteHandle = false →
     ∀ k r, wv_handles sv' !! k = Some r → ph_handle r ≠ handle).
Proof.
  unfold deliver_wake. destruct (note_outcome _ _) as [p pause] eqn:Hn. cbn [wv_handles].
  assert (from_option (λ seconds, seconds ≤ MAX_PAUSE_SECONDS) True pause) as Hp.
  { unfold note_outcome in Hn. destruct (ringer_outcome answer); injection Hn as _ <-; cbn; lia || done. }
  split; [done|]. destruct (ringer_outcome answer); try (split_and!; [done|done|by intros [=]]).
  destruct (database && negb (fails CallDeleteHandle)) eqn:Hc; unfold delete_by_handle.
  - split_and!; intros; try by match goal with H : filter _ _ !! _ = Some _ |- _ => apply map_lookup_filter_Some in H as [? ?] end.
    by apply map_lookup_filter_Some.
  - split_and!; [done|done|]. intros _ -> Hf. by rewrite Hf in Hc.
Qed.

(** ** Concrete registrations *)
Module WakeStoreDemo.
#[local] Instance wake_blake3 : Blake3 := poly_digest.

Definition ws : list byte := [Byte.x77].
Definition grp : list byte := replicate 32 Byte.x01.
Definition device : list byte := replicate 32 Byte.x0a.
Definition salt : list byte := replicate 32 Byte.x0b.
Definition fresh (w : list byte) : list byte := salt.
Definition entry : list byte := entry_hash device salt.
Definition phone : list byte := replicate 16 Byte.x01.
Definition never (c : WakeCall) : bool := false.

Definition db : Db :=
  mkDb salt {[ 1 := mkSetRow [] [] 0 [] Authorizer [] ]} {[ (1, entry) ]} ∅ ∅ ∅ ∅ [] ∅ ∅ ∅ (bootstrap (fresh_db salt)).
Definition settings : PushSettings := mkPushSettings (Some [Byte.x68]) None [] 2000 8.
Definition server : WakeServer := mkWakeServer (mkTables {[ ws := db ]} {[ grp := ws ]} []) ∅ (push_new settings) ∅.
Definition member : Session :=
  let s := fst (session_new (mkSessionConfig (Accept.mkConfig Accept.Full FloorMls Accept.Unlimited) Enforce LiveOff CallsOff) [] (mkProcess 0 [])) in
  mkSession Ready 0 [] [] (Some ws) [] None (s_min_enc s) None (Some device) Accept.Full [] true true 1 LiveOff (budget_of s) false CallsOff (media_budget s).

Definition registered : WakeServer := snd (wake_answer fresh never true server member (Register phone 3 100000) 10).
Example registers :
  fst (wake_answer fresh never true server member (Register phone 3 100000) 10) = Wake (Frame.Registered 100000)
  ∧ find (wv_handles registered) ws entry = Some (phone, 3, 100000).
Proof. by vm_compute. Qed.

Definition one_row : Handles := snd (register ∅ ws entry phone 3 100000).
Lemma handle_rings_one_device_witness : delete_for_entries one_row ws [entry] !! (ws, entry) = None.
Proof. apply (handle_rings_one_device one_row); [apply rtc_once, hs_register|apply list_elem_of_here]. Defined.

Definition six : list (list byte * Z) := map (pair entry) [0; 1; 2; 3; 4; 3600000].
Lemma registrations_per_hour_witness : RATE_WINDOW_MS ≤ 3600000 - 0.
Proof.
  apply (registrations_per_hour six entry 0); [|by vm_compute|by vm_compute].
  cbn. repeat first [apply SSorted_nil | apply SSorted_cons | apply Forall_nil | apply Forall_cons; split | lia].
Defined.

Lemma absent_members_are_rung_witness :
  phone ∈ we_handle <$> wq_entries (pu_queue (wv_push (after_commit never true hub_new registered grp CatMessage 20))).
Proof.
  apply (proj2 (absent_members_are_rung never true hub_new registered grp CatMessage 20)) with (entry := entry) (r := mkHandleRow phone 3 100000);
    [by vm_compute|done|done|vm_compute; lia| |by vm_compute].
  exists ws. by vm_compute.
Defined.

(** A wake already queued is not taken back: a principal removed within the
    window is rung all the same. *)
Definition woken : WakeServer := after_commit never true hub_new registered grp CatMessage 20.
Definition removed : WakeServer :=
  mkWakeServer (wv_tables woken) (delete_for_entries (wv_handles woken) ws [entry]) (wv_push woken) (wv_rate woken).
Theorem queued_wake_outlives_removal :
  find (wv_handles removed) ws entry = None ∧ fst (push_take_due (wv_push removed) 2020) = [(phone, CatMessage)].
Proof. by vm_compute. Qed.
End WakeStoreDemo.
