(* ===== verification/Config.v ===== *)
(** * Configuration

    Models [backend/wealdrelay/src/config.rs] and [profile.rs]: the values of
    the environment and of an optional [relay.toml], the resolution of every
    key to a typed setting or to a refusal that names the key, and the startup
    rules between settings (TLS, presence fanout, calls, push, and what the
    hosted profile forbids).

    Text is its UTF-8 bytes. The [url] and [toml] crates and the Unicode upper
    case of a file key are parameters; the texts of error messages, and the file
    path in them, are left out. *)

From Stdlib Require Import ZArith Lia String.
From stdpp Require Import base tactics numbers gmap sets list.
From S2P Require Import Prelude Cbor Push Envelope Accept Budgets Deadline Session InviteRecord MediaGc WakeQueue.

Open Scope Z_scope.

(** ** Keys *)
Definition K_HOSTNAME := ascii_bytes "WEALD_RELAY_HOSTNAME".
Definition K_DATABASE_URL := ascii_bytes "WEALD_RELAY_DATABASE_URL".
Definition K_DB_POOL_SIZE := ascii_bytes "WEALD_RELAY_DB_POOL_SIZE".
Definition K_STORAGE_URL := ascii_bytes "WEALD_RELAY_STORAGE_URL".
Definition K_REDIS_URL := ascii_bytes "WEALD_RELAY_REDIS_URL".
Definition K_LISTEN := ascii_bytes "WEALD_RELAY_LISTEN".
Definition K_OBSERVABILITY_LISTEN := ascii_bytes "WEALD_RELAY_OBSERVABILITY_LISTEN".
Definition K_TLS := ascii_bytes "WEALD_RELAY_TLS".
Definition K_MAX_STORAGE_GB := ascii_bytes "WEALD_RELAY_MAX_STORAGE_GB".
Definition K_MAX_LOG_GB := ascii_bytes "WEALD_RELAY_MAX_LOG_GB".
Definition K_RETENTION_DAYS := ascii_bytes "WEALD_RELAY_RETENTION_DAYS".
Definition K_ACCESS_SET := ascii_bytes "WEALD_RELAY_ACCESS_SET".
Definition K_MIN_ENC := ascii_bytes "WEALD_RELAY_MIN_ENC".
Definition K_SMTP_URL := ascii_bytes "WEALD_RELAY_SMTP_URL".
Definition K_WRITE_MODE := ascii_bytes "WEALD_RELAY_WRITE_MODE".
Definition K_RELEASE_CHECK := ascii_bytes "WEALD_RELAY_RELEASE_CHECK".
Definition K_METRICS_GROUP_LABELS := ascii_bytes "WEALD_RELAY_METRICS_GROUP_LABELS".
Definition K_BOOTSTRAP_HANDOFF_PUBKEY := ascii_bytes "WEALD_RELAY_BOOTSTRAP_HANDOFF_PUBKEY".
Definition K_LIVE := ascii_bytes "WEALD_RELAY_LIVE".
Definition K_LIVE_FANOUT := ascii_bytes "WEALD_RELAY_LIVE_FANOUT".
Definition K_CALLS := ascii_bytes "WEALD_RELAY_CALLS".
Definition K_MAX_CONCURRENT_CALLS := ascii_bytes "WEALD_RELAY_MAX_CONCURRENT_CALLS".
Definition K_MAX_CONNECTIONS := ascii_bytes "WEALD_RELAY_MAX_CONNECTIONS".
Definition K_HANDSHAKE_TIMEOUT_MS := ascii_bytes "WEALD_RELAY_HANDSHAKE_TIMEOUT_MS".
Definition K_IDLE_TIMEOUT_MS := ascii_bytes "WEALD_RELAY_IDLE_TIMEOUT_MS".
Definition K_SEND_FRAMES_PER_MINUTE := ascii_bytes "WEALD_RELAY_SEND_FRAMES_PER_MINUTE".
Definition K_SEND_BYTES_PER_MINUTE := ascii_bytes "WEALD_RELAY_SEND_BYTES_PER_MINUTE".
Definition K_OPERATOR_TOKEN := ascii_bytes "WEALD_RELAY_OPERATOR_TOKEN".
Definition K_PUSH := ascii_bytes "WEALD_RELAY_PUSH".
Definition K_PUSH_URL := ascii_bytes "WEALD_RELAY_PUSH_URL".
Definition K_PUSH_TOKEN := ascii_bytes "WEALD_RELAY_PUSH_TOKEN".
Definition K_PUSH_REGISTER_URL := ascii_bytes "WEALD_RELAY_PUSH_REGISTER_URL".
Definition K_PUSH_COALESCE_MS := ascii_bytes "WEALD_RELAY_PUSH_COALESCE_MS".
Definition K_PUSH_QUEUE := ascii_bytes "WEALD_RELAY_PUSH_QUEUE".
Definition K_JANITOR_INTERVAL_MS := ascii_bytes "WEALD_RELAY_JANITOR_INTERVAL_MS".
Definition K_GC_MIN_OBJECT_AGE_SECONDS := ascii_bytes "WEALD_RELAY_GC_MIN_OBJECT_AGE_SECONDS".
Definition K_MEDIA_UNCLAIMED_GRACE_SECONDS := ascii_bytes "WEALD_RELAY_MEDIA_UNCLAIMED_GRACE_SECONDS".
Definition K_TRUSTED_PROXY_HOPS := ascii_bytes "WEALD_RELAY_TRUSTED_PROXY_HOPS".
Definition K_PROFILE := ascii_bytes "WEALD_RELAY_PROFILE".

Definition ALL_KEYS : list (list byte) :=
  [K_HOSTNAME; K_DATABASE_URL; K_DB_POOL_SIZE; K_STORAGE_URL; K_REDIS_URL; K_LISTEN; K_OBSERVABILITY_LISTEN; K_TLS;
   K_MAX_STORAGE_GB; K_MAX_LOG_GB; K_RETENTION_DAYS; K_ACCESS_SET; K_MIN_ENC; K_LIVE; K_LIVE_FANOUT; K_CALLS;
   K_MAX_CONCURRENT_CALLS; K_MAX_CONNECTIONS; K_HANDSHAKE_TIMEOUT_MS; K_IDLE_TIMEOUT_MS; K_SEND_FRAMES_PER_MINUTE;
   K_SEND_BYTES_PER_MINUTE; K_SMTP_URL; K_WRITE_MODE; K_RELEASE_CHECK; K_METRICS_GROUP_LABELS;
   K_BOOTSTRAP_HANDOFF_PUBKEY; K_OPERATOR_TOKEN; K_PROFILE; K_PUSH; K_PUSH_URL; K_PUSH_TOKEN; K_PUSH_REGISTER_URL;
   K_PUSH_COALESCE_MS; K_PUSH_QUEUE; K_JANITOR_INTERVAL_MS; K_GC_MIN_OBJECT_AGE_SECONDS;
   K_MEDIA_UNCLAIMED_GRACE_SECONDS; K_TRUSTED_PROXY_HOPS].

(** ** Settings *)
Inductive TlsMode : Type := TlsAcme | TlsFile | TlsOff.
Inductive LiveFanout : Type := FanoutProcess | FanoutShared (value : list byte).
Inductive StorageTarget : Type := Filesystem (path : list byte) | S3 (bucket prefix : list byte).
Inductive Profile : Type := SelfHost | Hosted.

Record RelayConfig : Type := mkRelayConfig {
  cfg_hostname : list byte;
  cfg_database_url : list byte;
  cfg_storage : StorageTarget;
  cfg_redis_url : option (list byte);
  cfg_listen : list byte;
  cfg_observability_listen : list byte;
  cfg_tls : TlsMode;
  cfg_max_storage_gb : Limit;
  cfg_max_log_gb : Limit;
  cfg_retention_days : Limit;
  cfg_access_set : AccessSetMode;
  cfg_min_encryption : MinEncryption;
  cfg_live : LiveMode;
  cfg_live_fanout : LiveFanout;
  cfg_calls : CallMode;
  cfg_max_concurrent_calls : option Z;
  cfg_calls_off_reason : option string;
  cfg_max_connections : Limit;
  cfg_handshake_timeout_ms : Z;
  cfg_idle_timeout_ms : Z;
  cfg_send_frames_per_minute : Z;
  cfg_send_bytes_per_minute : Z;
  cfg_db_pool_size : Z;
  cfg_smtp_url : option (list byte);
  cfg_write_mode : WriteMode;
  cfg_release_check : bool;
  cfg_metrics_group_labels : bool;
  cfg_bootstrap_handoff_pubkey : option (list byte);
  cfg_operator_token : option (list byte);
  cfg_profile : Profile;
  cfg_push : PushMode;
  cfg_push_url : option (list byte);
  cfg_push_token : option (list byte);
  cfg_push_register_url : option (list byte);
  cfg_push_coalesce_ms : Z;
  cfg_push_queue : Z;
  cfg_janitor_interval_ms : Z;
  cfg_gc_min_object_age_seconds : Z;
  cfg_media_unclaimed_grace_seconds : Z;
  cfg_trusted_proxy_hops : Z
}.

Definition DEFAULT_CONCURRENT_CALLS : Z := 8.
Definition DEFAULT_QUEUE : Z := 1024.
Definition DEFAULT_INTERVAL_MS : Z := 15 * 60 * 1000.
Definition DEFAULT_MIN_OBJECT_AGE_SECONDS : Z := 48 * 60 * 60.
Definition DEFAULT_POOL_SIZE : Z := 8.
Definition DEFAULT_MAX_CONNECTIONS : Z := 256.
Definition DEFAULT_LISTEN : list byte := ascii_bytes "0.0.0.0:8443".
Definition DEFAULT_OBSERVABILITY_LISTEN : list byte := ascii_bytes "127.0.0.1:9090".

(** ** Refusals *)
Inductive ConfigError : Type :=
| Missing (key : list byte)
| Empty (key : list byte)
| NotAllowed (key value : list byte)
| NotANumber (key value : list byte)
| NotAPostgresUrl (key value : list byte)
| NotAStorageUrl (key value : list byte)
| NotAnAddress (key value : list byte)
| UnreadableFile
| MalformedFile
| UnknownFileKey (key : list byte)
| NonScalarFileValue (key : list byte)
| LiveFanoutSingleProcess (key declared : list byte)
| LiveFanoutUnavailable (key value : list byte)
| TlsUnavailable (key value : list byte)
| CallsCeilingMissing (key because : list byte)
| CallsCeilingUnused (key because : list byte)
| CallsSingleProcess (key declared : list byte)
| ZeroLimit (key : list byte)
| PushUrlMissing (key because : list byte)
| PushSettingUnused (key because : list byte)
| PushUrlNotSecure (key value : list byte)
| PushRegisterUrlTooLong (key : list byte) (bytes max : nat)
| RefusedOnHostedProfile (key : list byte).

(** [ConfigError::key]. *)
Definition error_key (e : ConfigError) : option (list byte) :=
  match e with
  | Missing k | Empty k | NotAllowed k _ | NotANumber k _ | NotAPostgresUrl k _ | NotAStorageUrl k _
  | NotAnAddress k _ | RefusedOnHostedProfile k | LiveFanoutSingleProcess k _ | LiveFanoutUnavailable k _
  | TlsUnavailable k _ | CallsCeilingMissing k _ | CallsCeilingUnused k _ | CallsSingleProcess k _
  | PushUrlMissing k _ | PushSettingUnused k _ | PushUrlNotSecure k _ | PushRegisterUrlTooLong k _ _
  | ZeroLimit k => Some k
  | UnknownFileKey k | NonScalarFileValue k => Some k
  | UnreadableFile | MalformedFile => None
  end.

(** ** Values *)
Inductive Source : Type := SourceEnvironment | SourceFile | SourceDefault.
Record Values : Type := mkValues {
  environment : gmap (list byte) (list byte);
  file : gmap (list byte) (list byte)
}.

(** Only the relay's own keys are read from the process environment [env]. *)
Definition from_env (env : list byte → option (list byte)) : Values :=
  mkValues (foldl (λ m key, match env key with Some v => <[key := v]> m | None => m end) ∅ ALL_KEYS) ∅.
(** [collect()] into a map: a later pair replaces an earlier one. *)
Definition from_pairs (pairs : list (list byte * list byte)) : Values :=
  mkValues (foldl (λ m p, <[p.1 := p.2]> m) ∅ pairs) ∅.

Definition values_get (v : Values) (key : list byte) : option (list byte * Source) :=
  match environment v !! key with
  | Some value => Some (value, SourceEnvironment)
  | None => (λ value, (value, SourceFile)) <$> (file v !! key)
  end.
Definition source_of (v : Values) (key : list byte) : Source :=
  match values_get v key with Some (_, s) => s | None => SourceDefault end.

(** A parsed [relay.toml], its entries in the order the table iterates. *)
Inductive TomlValue : Type :=
| TomlString (s : list byte)
| TomlInteger (i : Z)
| TomlBoolean (b : bool)
| TomlTable (entries : list (list byte * TomlValue))
| TomlOther.

Class TomlLib : Type := {
  toml_from_str : list byte → option (list (list byte * TomlValue));
  str_to_uppercase : list byte → list byte
}.

Definition signed_decimal (i : Z) : list byte :=
  if i <? 0 then ascii_bytes "-" ++ decimal (- i) else decimal i.

Definition insert_file_value (out : gmap (list byte) (list byte)) (key : list byte) (value : TomlValue)
    : result ConfigError (gmap (list byte) (list byte)) :=
  if negb (contains ALL_KEYS key) then Err (UnknownFileKey key)
  else
    let? rendered := match value with
                     | TomlString s => Ok s
                     | TomlInteger i => Ok (signed_decimal i)
                     | TomlBoolean b => Ok (ascii_bytes (if b then "true" else "false"))
                     | _ => Err (NonScalarFileValue key)
                     end in
    Ok (<[key := rendered]> out).

Section toml.
Context `{TomlLib}.

Fixpoint insert_short (out : gmap (list byte) (list byte)) (inner : list (list byte * TomlValue))
    : result ConfigError (gmap (list byte) (list byte)) :=
  match inner with
  | [] => Ok out
  | (short, value) :: rest =>
      let? out' := insert_file_value out (ascii_bytes "WEALD_RELAY_" ++ str_to_uppercase short) value in
      insert_short out' rest
  end.

Fixpoint insert_table (out : gmap (list byte) (list byte)) (table : list (list byte * TomlValue))
    : result ConfigError (gmap (list byte) (list byte)) :=
  match table with
  | [] => Ok out
  | (key, value) :: rest =>
      let? out' :=
        if bool_decide (key = ascii_bytes "relay") then
          match value with
          | TomlTable inner => insert_short out inner
          | _ => Err (NonScalarFileValue key)
          end
        else insert_file_value out key value in
      insert_table out' rest
  end.

Definition parse_toml (text : list byte) : result ConfigError (gmap (list byte) (list byte)) :=
  match toml_from_str text with
  | None => Err MalformedFile
  | Some table => insert_table ∅ table
  end.

(** [None]: no path, or nothing at it. [Some None]: a file that does not read. *)
Definition with_file (v : Values) (read : option (option (list byte))) : result ConfigError Values :=
  match read with
  | None => Ok v
  | Some None => Err UnreadableFile
  | Some (Some text) => let? f := parse_toml text in Ok (mkValues (environment v) f)
  end.
End toml.

(** ** Reading one key *)

(** The whitespace [str::trim] removes, from the front of a string. *)
Definition strip_space (bs : list byte) : option (list byte) :=
  match bs with
  | a :: rest =>
      if in_range 9 13 a || in_range 32 32 a then Some rest
      else match rest with
           | b :: rest2 =>
               if in_range 194 194 a && (in_range 133 133 b || in_range 160 160 b) then Some rest2
               else match rest2 with
                    | c :: rest3 =>
                        if (in_range 225 225 a && in_range 154 154 b && in_range 128 128 c)
                           || (in_range 226 226 a && in_range 128 128 b
                               && (in_range 128 138 c || in_range 168 169 c || in_range 175 175 c))
                           || (in_range 226 226 a && in_range 129 129 b && in_range 159 159 c)
                           || (in_range 227 227 a && in_range 128 128 b && in_range 128 128 c)
                        then Some rest3 else None
                    | [] => None
                    end
           | [] => None
           end
  | [] => None
  end.
(** [value.trim().is_empty()]; each step takes at least one byte. *)
Fixpoint blank_go (fuel : nat) (bs : list byte) : bool :=
  match bs, fuel with
  | [], _ => true
  | _ :: _, O => false
  | _ :: _, S f => match strip_space bs with Some rest => blank_go f rest | None => false end
  end.
Definition is_blank (bs : list byte) : bool := blank_go (length bs) bs.

Definition optional (v : Values) (key : list byte) : result ConfigError (option (list byte)) :=
  match values_get v key with
  | None => Ok None
  | Some (value, _) => if is_blank value then Err (Empty key) else Ok (Some value)
  end.

Definition required (v : Values) (key : list byte) : result ConfigError (list byte) :=
  let? o := optional v key in
  match o with Some value => Ok value | None => Err (Missing key) end.

(** [parse::<uN>()]: an optional plus sign, then digits, refusing overflow. *)
Fixpoint parse_digits (max acc : Z) (bs : list byte) : option Z :=
  match bs with
  | [] => Some acc
  | b :: rest =>
      if in_range 48 57 b then
        let acc' := acc * 10 + (byte_to_Z b - 48) in
        if acc' <=? max then parse_digits max acc' rest else None
      else None
  end.
Definition parse_uint (max : Z) (bs : list byte) : option Z :=
  match bs with
  | [] => None
  | b :: rest =>
      if in_range 43 43 b then match rest with [] => None | _ :: _ => parse_digits max 0 rest end
      else parse_digits max 0 bs
  end.

Definition ascii_lowercase (bs : list byte) : list byte :=
  (λ b, if in_range 65 90 b then byte_of_Z (byte_to_Z b + 32) else b) <$> bs.
Definition eq_ignore_ascii_case (a b : list byte) : bool :=
  bool_decide (ascii_lowercase a = ascii_lowercase b).

Definition parse_number (max : Z) (key value : list byte) : result ConfigError Z :=
  match parse_uint max value with Some n => Ok n | None => Err (NotANumber key value) end.

Definition limit (v : Values) (key : list byte) : result ConfigError Limit :=
  let? o := optional v key in
  match o with
  | None => Ok Unlimited
  | Some value =>
      if eq_ignore_ascii_case value (ascii_bytes "unlimited") then Ok Unlimited
      else let? n := parse_number U64_MAX key value in Ok (Of n)
  end.
Definition capacity (v : Values) (key : list byte) : result ConfigError Limit :=
  let? l := limit v key in
  match l with
  | Of n => if n =? 0 then Err (ZeroLimit key) else Ok (Of n)
  | Unlimited => Ok Unlimited
  end.
Definition positive_ (v : Values) (key : list byte) : result ConfigError (option Z) :=
  let? o := optional v key in
  match o with
  | None => Ok None
  | Some value => let? n := parse_number U64_MAX key value in
                  if n =? 0 then Err (ZeroLimit key) else Ok (Some n)
  end.
Definition count (v : Values) (key : list byte) (default : Z) : result ConfigError Z :=
  let? o := optional v key in
  match o with None => Ok default | Some value => parse_number U64_MAX key value end.
Definition connection_limit (v : Values) (key : list byte) : result ConfigError Limit :=
  let? o := optional v key in
  match o with
  | None => Ok (Of DEFAULT_MAX_CONNECTIONS)
  | Some value =>
      if eq_ignore_ascii_case value (ascii_bytes "unlimited") then Ok Unlimited
      else let? n := parse_number U64_MAX key value in
           if n =? 0 then Err (ZeroLimit key) else Ok (Of n)
  end.
Definition pool_size (v : Values) (key : list byte) : result ConfigError Z :=
  let? o := optional v key in
  match o with
  | None => Ok DEFAULT_POOL_SIZE
  | Some value => let? n := parse_number U32_MAX key value in
                  if n =? 0 then Err (ZeroLimit key) else Ok n
  end.

Definition one_of {T} (v : Values) (key : list byte) (default : T) (table : list (string * T)) : result ConfigError T :=
  let? o := optional v key in
  match o with
  | None => Ok default
  | Some value =>
      match List.find (λ e, bool_decide (ascii_bytes (fst e) = value)) table with
      | Some (_, parsed) => Ok parsed
      | None => Err (NotAllowed key value)
      end
  end.
Definition on_off (v : Values) (key : list byte) (default : bool) : result ConfigError bool :=
  one_of v key default [("on"%string, true); ("off"%string, false)].

Definition live_fanout (v : Values) (key : list byte) : result ConfigError LiveFanout :=
  let? o := optional v key in
  match o with
  | None => Ok FanoutProcess
  | Some value => if bool_decide (value = ascii_bytes "process") then Ok FanoutProcess else Ok (FanoutShared value)
  end.

(** [value.rsplit_once(':')]. *)
Fixpoint rsplit_once_colon (bs : list byte) : option (list byte * list byte) :=
  match bs with
  | [] => None
  | b :: rest =>
      match rsplit_once_colon rest with
      | Some (host, port) => Some (b :: host, port)
      | None => if in_range 58 58 b then Some ([], rest) else None
      end
  end.

Definition address (v : Values) (key default : list byte) : result ConfigError (list byte) :=
  let? o := optional v key in
  match o with
  | None => Ok default
  | Some value =>
      match rsplit_once_colon value with
      | None => Err (NotAnAddress key value)
      | Some (host, port) =>
          if bool_decide (host = []) || negb (bool_decide (is_Some (parse_uint U16_MAX port)))
          then Err (NotAnAddress key value) else Ok value
      end
  end.

(** What the [url] crate says of a parsed url beyond its scheme and host. *)
Class UrlPaths : Type := {
  url_to_file_path : list byte → option (list byte);
  url_path : list byte → list byte
}.

Section urls.
Context `{UrlLib} `{UrlPaths}.

Definition postgres_url (v : Values) (key : list byte) : result ConfigError (list byte) :=
  let? value := required v key in
  match url_parse value with
  | None => Err (NotAPostgresUrl key value)
  | Some (scheme, _) =>
      if negb (contains [ascii_bytes "postgres"; ascii_bytes "postgresql"] scheme)
      then Err (NotAPostgresUrl key value) else Ok value
  end.

Definition storage_target (v : Values) (key : list byte) : result ConfigError StorageTarget :=
  let? value := required v key in
  match url_parse value with
  | None => Err (NotAStorageUrl key value)
  | Some (scheme, host) =>
      if bool_decide (scheme = ascii_bytes "file") then
        match url_to_file_path value with
        | Some path => Ok (Filesystem path)
        | None => Err (NotAStorageUrl key value)
        end
      else if bool_decide (scheme = ascii_bytes "s3") then
        let bucket := default [] host in
        if bool_decide (bucket = []) then Err (NotAStorageUrl key value)
        else Ok (S3 bucket (trim_end_slashes (drop_slashes (url_path value))))
      else Err (NotAStorageUrl key value)
  end.

(** ** Rules between settings *)
Definition is_secure_push_url (value : list byte) : bool :=
  negb (bool_decide (value = [])) && is_acceptable_register_url value.

Definition enforce_tls (c : RelayConfig) : result ConfigError unit :=
  match cfg_tls c with
  | TlsAcme => Err (TlsUnavailable K_TLS (ascii_bytes "acme"))
  | TlsFile => Err (TlsUnavailable K_TLS (ascii_bytes "file"))
  | TlsOff => Ok tt
  end.

Definition is_set {A} (o : option A) : bool := match o with Some _ => true | None => false end.

Definition enforce_live_fanout (c : RelayConfig) : result ConfigError unit :=
  match cfg_live_fanout c with
  | FanoutShared value => Err (LiveFanoutUnavailable K_LIVE_FANOUT value)
  | FanoutProcess =>
      if (match cfg_live c with LiveOff => true | LiveOn => false end) || negb (is_set (cfg_redis_url c))
      then Ok tt else Err (LiveFanoutSingleProcess K_LIVE_FANOUT K_REDIS_URL)
  end.

(** The three call fields [enforce_calls] may write. *)
Definition with_calls (c : RelayConfig) (calls : CallMode) (ceiling : option Z) (reason : option string) : RelayConfig :=
  mkRelayConfig (cfg_hostname c) (cfg_database_url c) (cfg_storage c) (cfg_redis_url c) (cfg_listen c)
    (cfg_observability_listen c) (cfg_tls c) (cfg_max_storage_gb c) (cfg_max_log_gb c) (cfg_retention_days c)
    (cfg_access_set c) (cfg_min_encryption c) (cfg_live c) (cfg_live_fanout c) calls ceiling reason
    (cfg_max_connections c) (cfg_handshake_timeout_ms c) (cfg_idle_timeout_ms c) (cfg_send_frames_per_minute c)
    (cfg_send_bytes_per_minute c) (cfg_db_pool_size c) (cfg_smtp_url c) (cfg_write_mode c) (cfg_release_check c)
    (cfg_metrics_group_labels c) (cfg_bootstrap_handoff_pubkey c) (cfg_operator_token c) (cfg_profile c) (cfg_push c)
    (cfg_push_url c) (cfg_push_token c) (cfg_push_register_url c) (cfg_push_coalesce_ms c) (cfg_push_queue c)
    (cfg_janitor_interval_ms c) (cfg_gc_min_object_age_seconds c) (cfg_media_unclaimed_grace_seconds c)
    (cfg_trusted_proxy_hops c).

Definition enforce_calls (c : RelayConfig) (asked_for_calls : bool) : result ConfigError RelayConfig :=
  let? c1 :=
    match cfg_calls c, cfg_max_concurrent_calls c with
    | CallsOn, None => Ok (with_calls c CallsOn (Some DEFAULT_CONCURRENT_CALLS) (cfg_calls_off_reason c))
    | CallsOff, Some _ => Err (CallsCeilingUnused K_MAX_CONCURRENT_CALLS K_CALLS)
    | CallsOn, Some _ | CallsOff, None => Ok c
    end in
  if (match cfg_calls c1 with CallsOn => true | CallsOff => false end) && is_set (cfg_redis_url c1) then
    if asked_for_calls then Err (CallsSingleProcess K_CALLS K_REDIS_URL)
    else Ok (with_calls c1 CallsOff None (Some "downgraded_multi_process"%string))
  else Ok c1.

(** The first key of a table whose flag is set. *)
Definition first_set (table : list (list byte * bool)) : option (list byte) := fst <$> List.find snd table.

Fixpoint insecure_url (table : list (list byte * option (list byte))) : option (list byte * list byte) :=
  match table with
  | [] => None
  | (key, Some url) :: rest => if is_secure_push_url url then insecure_url rest else Some (key, url)
  | (_, None) :: rest => insecure_url rest
  end.

Definition enforce_push (c : RelayConfig) : result ConfigError unit :=
  match cfg_push c, cfg_push_url c with
  | PushOn, None => Err (PushUrlMissing K_PUSH_URL K_PUSH)
  | PushOff, Some _ => Err (PushSettingUnused K_PUSH_URL K_PUSH)
  | PushOff, None =>
      match first_set [(K_PUSH_TOKEN, is_set (cfg_push_token c));
                       (K_PUSH_REGISTER_URL, is_set (cfg_push_register_url c));
                       (K_PUSH_COALESCE_MS, negb (cfg_push_coalesce_ms c =? DEFAULT_COALESCE_MS));
                       (K_PUSH_QUEUE, negb (cfg_push_queue c =? DEFAULT_QUEUE))] with
      | Some key => Err (PushSettingUnused key K_PUSH)
      | None => Ok tt
      end
  | PushOn, Some url =>
      match insecure_url [(K_PUSH_URL, Some url); (K_PUSH_REGISTER_URL, cfg_push_register_url c)] with
      | Some (key, value) => Err (PushUrlNotSecure key value)
      | None =>
          let register_url := match cfg_push_register_url c with
                              | Some u => u | None => default_register_url url end in
          if (MAX_REGISTER_URL_BYTES <? length register_url)%nat
          then Err (PushRegisterUrlTooLong (if is_set (cfg_push_register_url c) then K_PUSH_REGISTER_URL else K_PUSH_URL)
                      (length register_url) MAX_REGISTER_URL_BYTES)
          else Ok tt
      end
  end.

(** [profile::enforce]: what the hosted tier forbids, the first refusal only. *)
Definition HTTPS : list byte := ascii_bytes "https://".
Definition starts_with (p bs : list byte) : bool := bool_decide (take (length p) bs = p).
Definition plain (url : option (list byte)) : bool :=
  match url with Some u => negb (starts_with HTTPS u) | None => false end.

Definition profile_enforce (c : RelayConfig) : result ConfigError unit :=
  match cfg_profile c with
  | SelfHost => Ok tt
  | Hosted =>
      match first_set [(K_SMTP_URL, is_set (cfg_smtp_url c));
                       (K_ACCESS_SET, match cfg_access_set c with Enforce => false | AccessSetOff => true end);
                       (K_MIN_ENC, match cfg_min_encryption c with FloorMls => false | FloorNone => true end);
                       (K_METRICS_GROUP_LABELS, cfg_metrics_group_labels c);
                       (K_PUSH_URL, plain (cfg_push_url c));
                       (K_PUSH_REGISTER_URL, plain (cfg_push_register_url c))] with
      | Some key => Err (RefusedOnHostedProfile key)
      | None => Ok tt
      end
  end.

(** ** Resolution *)
Definition or_else (o : option Z) (d : Z) : Z := match o with Some n => n | None => d end.

(** Every key, in the order of the fields; the call rule comes later. *)
Definition resolve_fields (v : Values) : result ConfigError RelayConfig :=
  let? hostname := required v K_HOSTNAME in
  let? database_url := postgres_url v K_DATABASE_URL in
  let? storage := storage_target v K_STORAGE_URL in
  let? redis_url := optional v K_REDIS_URL in
  let? listen := address v K_LISTEN DEFAULT_LISTEN in
  let? observability := address v K_OBSERVABILITY_LISTEN DEFAULT_OBSERVABILITY_LISTEN in
  let? tls := one_of v K_TLS TlsOff [("acme", TlsAcme); ("file", TlsFile); ("off", TlsOff)]%string in
  let? max_storage := capacity v K_MAX_STORAGE_GB in
  let? max_log := capacity v K_MAX_LOG_GB in
  let? retention := capacity v K_RETENTION_DAYS in
  let? access := one_of v K_ACCESS_SET Enforce [("enforce", Enforce); ("off", AccessSetOff)]%string in
  let? min_enc := one_of v K_MIN_ENC FloorNone [("none", FloorNone); ("mls", FloorMls)]%string in
  let? live := one_of v K_LIVE LiveOn [("on", LiveOn); ("off", LiveOff)]%string in
  let? fanout := live_fanout v K_LIVE_FANOUT in
  let? calls := one_of v K_CALLS CallsOn [("on", CallsOn); ("off", CallsOff)]%string in
  let? ceiling := positive_ v K_MAX_CONCURRENT_CALLS in
  let? connections := connection_limit v K_MAX_CONNECTIONS in
  let? handshake := positive_ v K_HANDSHAKE_TIMEOUT_MS in
  let? idle := positive_ v K_IDLE_TIMEOUT_MS in
  let? frames := positive_ v K_SEND_FRAMES_PER_MINUTE in
  let? sbytes := positive_ v K_SEND_BYTES_PER_MINUTE in
  let? pool := pool_size v K_DB_POOL_SIZE in
  let? smtp := optional v K_SMTP_URL in
  let? wmode := one_of v K_WRITE_MODE Full [("full", Full); ("read_only", ReadOnly)]%string in
  let? release := on_off v K_RELEASE_CHECK true in
  let? labels := on_off v K_METRICS_GROUP_LABELS false in
  let? bootstrap := optional v K_BOOTSTRAP_HANDOFF_PUBKEY in
  let? operator := optional v K_OPERATOR_TOKEN in
  let? profile := one_of v K_PROFILE SelfHost [("self_host", SelfHost); ("hosted", Hosted)]%string in
  let? push := one_of v K_PUSH PushOff [("on", PushOn); ("off", PushOff)]%string in
  let? push_url := optional v K_PUSH_URL in
  let? push_token := optional v K_PUSH_TOKEN in
  let? push_register := optional v K_PUSH_REGISTER_URL in
  let? coalesce := count v K_PUSH_COALESCE_MS DEFAULT_COALESCE_MS in
  let? queue := positive_ v K_PUSH_QUEUE in
  let? janitor := positive_ v K_JANITOR_INTERVAL_MS in
  let? gc_age := count v K_GC_MIN_OBJECT_AGE_SECONDS DEFAULT_MIN_OBJECT_AGE_SECONDS in
  let? grace := count v K_MEDIA_UNCLAIMED_GRACE_SECONDS UNCLAIMED_GRACE_SECONDS in
  let? hops := count v K_TRUSTED_PROXY_HOPS 0 in
  Ok (mkRelayConfig hostname database_url storage redis_url listen observability tls max_storage max_log retention
        access min_enc live fanout calls ceiling None connections
        (or_else handshake DEFAULT_HANDSHAKE_TIMEOUT_MS) (or_else idle DEFAULT_IDLE_TIMEOUT_MS)
        (or_else frames DEFAULT_SEND_FRAMES_PER_MINUTE) (or_else sbytes DEFAULT_SEND_BYTES_PER_MINUTE)
        pool smtp wmode release labels bootstrap operator profile push push_url push_token push_register coalesce
        (or_else queue DEFAULT_QUEUE) (or_else janitor DEFAULT_INTERVAL_MS) gc_age grace hops).

Definition resolve (v : Values) : result ConfigError RelayConfig :=
  let? c0 := resolve_fields v in
  let? _ := enforce_tls c0 in
  let? _ := enforce_live_fanout c0 in
  let? c := enforce_calls c0 (is_set (values_get v K_CALLS)) in
  let? _ := enforce_push c in
  let? _ := profile_enforce c in
  Ok c.
End urls.

(** ** Every refusal names a key *)
Definition names {A} (keys : list (list byte)) (m : result ConfigError A) : Prop :=
  ∀ e, m = Err e → ∃ k, error_key e = Some k ∧ k ∈ keys.

Lemma names_ok {A} keys (x : A) : names keys (Ok x).
Proof. done. Qed.
Lemma names_err {A} keys e k : error_key e = Some k → k ∈ keys → names (A := A) keys (Err e).
Proof. intros ? ? e' [= <-]. eauto. Qed.
Lemma names_bind {A B} keys (m : result ConfigError A) (f : A → result ConfigError B) :
  names keys m → (∀ x, names keys (f x)) → names keys (let? x := m in f x).
Proof. intros Hm Hf e. destruct m as [x|e']; cbn [result_bind]; [apply Hf | intros [= <-]; by apply Hm]. Qed.

(** One error names one key of a list: closes the leaves of a reader. *)
Ltac names_leaf := first [apply names_ok | eapply names_err; [reflexivity | done]].
Ltac names_steps :=
  repeat first
    [ names_leaf
    | apply names_bind; [|intros ?]
    | match goal with |- names _ (if ?b then _ else _) => destruct b end
    | match goal with |- names _ (match ?x with _ => _ end) => destruct x end ].

Lemma optional_names v k keys : k ∈ keys → names keys (optional v k).
Proof. intros. unfold optional. names_steps. Qed.
Lemma required_names v k keys : k ∈ keys → names keys (required v k).
Proof. intros. unfold required. apply names_bind; [by apply optional_names|]. intros []; names_steps. Qed.
Lemma number_names max k value keys : k ∈ keys → names keys (parse_number max k value).
Proof. intros. unfold parse_number. names_steps. Qed.

Ltac reader_names :=
  repeat first
    [ by apply optional_names | by apply required_names | by apply number_names
    | names_leaf
    | apply names_bind; [|intros ?]
    | match goal with |- names _ (if ?b then _ else _) => destruct b end
    | match goal with |- names _ (match ?x with _ => _ end) => destruct x end ].

Section readers_name.
Context `{UrlLib} `{UrlPaths} (v : Values) (k : list byte) (keys : list (list byte)) (Hk : k ∈ keys).

Lemma limit_names : names keys (limit v k).
Proof using Hk. unfold limit. reader_names. Qed.
Lemma capacity_names : names keys (capacity v k).
Proof using Hk. unfold capacity. apply names_bind; [apply limit_names|]. intros; reader_names. Qed.
Lemma positive_names : names keys (positive_ v k).
Proof using Hk. unfold positive_. reader_names. Qed.
Lemma count_names d : names keys (count v k d).
Proof using Hk. unfold count. reader_names. Qed.
Lemma connection_limit_names : names keys (connection_limit v k).
Proof using Hk. unfold connection_limit. reader_names. Qed.
Lemma pool_size_names : names keys (pool_size v k).
Proof using Hk. unfold pool_size. reader_names. Qed.
Lemma one_of_names {T} (d : T) table : names keys (one_of v k d table).
Proof using Hk. unfold one_of. reader_names. Qed.
Lemma live_fanout_names : names keys (live_fanout v k).
Proof using Hk. unfold live_fanout. reader_names. Qed.
Lemma address_names d : names keys (address v k d).
Proof using Hk. unfold address. reader_names. Qed.
Lemma postgres_url_names : names keys (postgres_url v k).
Proof using Hk. unfold postgres_url. reader_names. Qed.
Lemma storage_target_names : names keys (storage_target v k).
Proof using Hk. unfold storage_target. reader_names. Qed.
End readers_name.

Lemma first_set_in table k : first_set table = Some k → k ∈ table.*1.
Proof.
  unfold first_set. destruct (List.find snd table) as [p|] eqn:Hf; cbn; [|done]. intros [= <-].
  apply find_some in Hf as [Hin _]. apply list_elem_of_fmap_2. by apply list_elem_of_In.
Qed.

Ltac in_keys := apply (bool_decide_unpack _); vm_compute; reflexivity.

Section resolve_names.
Context `{UrlLib} `{UrlPaths}.

Lemma insecure_url_in table k u : insecure_url table = Some (k, u) → k ∈ table.*1.
Proof.
  induction table as [|[k' [u'|]] table IH]; cbn; [done| |].
  - destruct (is_secure_push_url u'); [|intros [= <- _]; left]. intros Hi%IH. by right.
  - intros Hi%IH. by right.
Qed.

Lemma resolve_fields_names v : names ALL_KEYS (resolve_fields v).
Proof.
  unfold resolve_fields, on_off.
  repeat (apply names_bind;
    [first [apply required_names | apply postgres_url_names | apply storage_target_names | apply optional_names
           | apply address_names | apply one_of_names | apply capacity_names | apply live_fanout_names
           | apply positive_names | apply connection_limit_names | apply pool_size_names | apply count_names]; in_keys
    | intros ?]).
  apply names_ok.
Qed.

Lemma enforce_names c asked :
  names ALL_KEYS (enforce_tls c) ∧ names ALL_KEYS (enforce_live_fanout c) ∧ names ALL_KEYS (enforce_calls c asked)
  ∧ names ALL_KEYS (enforce_push c) ∧ names ALL_KEYS (profile_enforce c).
Proof.
  split_and!.
  - unfold enforce_tls. destruct (cfg_tls c); [eapply names_err; [done|in_keys].. | apply names_ok].
  - unfold enforce_live_fanout. destruct (cfg_live_fanout c); [destruct (_ || _)|]; first [apply names_ok | eapply names_err; [done|in_keys]].
  - unfold enforce_calls. apply names_bind; [|intros c1].
    + destruct (cfg_calls c), (cfg_max_concurrent_calls c); first [apply names_ok | eapply names_err; [done|in_keys]].
    + destruct (_ && _), asked; first [apply names_ok | eapply names_err; [done|in_keys]].
  - unfold enforce_push. destruct (cfg_push c), (cfg_push_url c) as [url|].
    + destruct (insecure_url _) as [[k u]|] eqn:Hi.
      * apply insecure_url_in in Hi. eapply names_err; [done|].
        cbn in Hi. rewrite !elem_of_cons in Hi. destruct Hi as [->|[->|Hi]]; [in_keys..|set_solver].
      * destruct (_ <? _)%nat; [|apply names_ok]. destruct (is_set _); (eapply names_err; [done|in_keys]).
    + eapply names_err; [done|in_keys].
    + eapply names_err; [done|in_keys].
    + destruct (first_set _) as [k|] eqn:Hf; [|apply names_ok]. apply first_set_in in Hf. eapply names_err; [done|].
      cbn in Hf. rewrite !elem_of_cons in Hf. destruct Hf as [->|[->|[->|[->|Hf]]]]; [in_keys..|set_solver].
  - unfold profile_enforce. destruct (cfg_profile c); [apply names_ok|].
    destruct (first_set _) as [k|] eqn:Hf; [|apply names_ok]. apply first_set_in in Hf. eapply names_err; [done|].
    cbn in Hf. rewrite !elem_of_cons in Hf. destruct Hf as [->|[->|[->|[->|[->|[->|Hf]]]]]]; [in_keys..|set_solver].
Qed.

Lemma resolve_names v : names ALL_KEYS (resolve v).
Proof.
  unfold resolve. apply names_bind; [apply resolve_fields_names|]. intros c0.
  repeat (apply names_bind; [by apply (enforce_names _ (is_set (values_get v K_CALLS))) | intros ?]). apply names_ok.
Qed.

(** ** Nothing but the relay's keys matters *)
Lemma resolve_ext v1 v2 :
  (∀ k, k ∈ ALL_KEYS → values_get v1 k = values_get v2 k) → resolve v1 = resolve v2.
Proof.
  intros Hv.
  assert (∀ k, k ∈ ALL_KEYS → optional v1 k = optional v2 k) as Ho by (intros k Hk; unfold optional; by rewrite Hv).
  assert (resolve_fields v1 = resolve_fields v2) as Hf.
  { unfold resolve_fields, on_off, one_of, required, postgres_url, storage_target, address, capacity, limit, positive_,
      count, connection_limit, pool_size, live_fanout, required.
    repeat match goal with |- context [optional v1 ?k] => rewrite (Ho k) by in_keys end. done. }
  unfold resolve. rewrite Hf, (Hv K_CALLS) by in_keys. done.
Qed.
End resolve_names.

(** ** Ranges of the readers *)
Lemma parse_digits_range max acc bs n : 0 ≤ acc ≤ max → parse_digits max acc bs = Some n → acc ≤ n ≤ max.
Proof.
  revert acc. induction bs as [|b bs IH]; intros acc Ha; cbn [parse_digits]; [intros [= <-]; lia|].
  destruct (in_range 48 57 b) eqn:Hd; [|done]. unfold in_range in Hd.
  destruct (Z.leb_spec (acc * 10 + (byte_to_Z b - 48)) max); [|done]. intros Hn%IH; lia.
Qed.

Lemma parse_number_range max k value n : 0 ≤ max → parse_number max k value = Ok n → 0 ≤ n ≤ max.
Proof.
  intros Hm. unfold parse_number, parse_uint. destruct value as [|b rest]; [done|].
  assert (∀ bs, parse_digits max 0 bs = Some n → 0 ≤ n ≤ max) as Hr by (intros bs Hp; apply (parse_digits_range max 0 bs n); [lia|done]).
  destruct (in_range 43 43 b); [destruct rest; [done|]|];
    (destruct (parse_digits _ _ _) eqn:Hp; [intros [= ->]; by eapply Hr | done]).
Qed.

Lemma positive_range v k o : positive_ v k = Ok o → from_option (λ n, 1 ≤ n ≤ U64_MAX) True o.
Proof.
  unfold positive_. intros H. apply result_bind_ok in H as ([value|] & _ & H); [|by injection H as <-].
  apply result_bind_ok in H as (n & Hn & H). apply parse_number_range in Hn; [|by vm_compute].
  destruct (Z.eqb_spec n 0); [done|]. injection H as <-. cbn. lia.
Qed.

Definition limit_ok (l : Limit) : Prop := match l with Unlimited => True | Of n => 1 ≤ n ≤ U64_MAX end.
Lemma capacity_range v k l : capacity v k = Ok l → limit_ok l.
Proof.
  unfold capacity, limit. intros H. apply result_bind_ok in H as (l' & Hl & H).
  apply result_bind_ok in Hl as ([value|] & _ & Hl); [|injection Hl as <-; by injection H as <-].
  destruct (eq_ignore_ascii_case _ _); [injection Hl as <-; by injection H as <-|].
  apply result_bind_ok in Hl as (n & Hn & [= <-]). apply parse_number_range in Hn; [|by vm_compute].
  destruct (Z.eqb_spec n 0); [done|]. injection H as <-. cbn. lia.
Qed.
Lemma connection_limit_range v k l : connection_limit v k = Ok l → limit_ok l.
Proof.
  unfold connection_limit. intros H. apply result_bind_ok in H as ([value|] & _ & H); [|by injection H as <-].
  destruct (eq_ignore_ascii_case _ _); [by injection H as <-|].
  apply result_bind_ok in H as (n & Hn & H). apply parse_number_range in Hn; [|by vm_compute].
  destruct (Z.eqb_spec n 0); [done|]. injection H as <-. cbn. lia.
Qed.
Lemma pool_size_range v k n : pool_size v k = Ok n → 1 ≤ n ≤ U32_MAX.
Proof.
  unfold pool_size. intros H. apply result_bind_ok in H as ([value|] & _ & H); [|by injection H as <-].
  apply result_bind_ok in H as (m & Hn & H). apply parse_number_range in Hn; [|by vm_compute].
  destruct (Z.eqb_spec m 0); [done|]. injection H as <-. lia.
Qed.
Lemma count_range v k d n : is_u64 d → count v k d = Ok n → is_u64 n.
Proof.
  intros Hd. unfold count. intros H. apply result_bind_ok in H as ([value|] & _ & H); [|by injection H as <-].
  by apply parse_number_range in H.
Qed.
Lemma or_else_range o d : 1 ≤ d ≤ U64_MAX → from_option (λ n, 1 ≤ n ≤ U64_MAX) True o → 1 ≤ or_else o d ≤ U64_MAX.
Proof. destruct o; cbn; lia. Qed.

(** ** The posture of a relay that starts *)
Definition ranges_ok (c : RelayConfig) : Prop :=
  limit_ok (cfg_max_storage_gb c) ∧ limit_ok (cfg_max_log_gb c) ∧ limit_ok (cfg_retention_days c)
  ∧ limit_ok (cfg_max_connections c) ∧ from_option (λ n, 1 ≤ n ≤ U64_MAX) True (cfg_max_concurrent_calls c)
  ∧ 1 ≤ cfg_handshake_timeout_ms c ≤ U64_MAX ∧ 1 ≤ cfg_idle_timeout_ms c ≤ U64_MAX
  ∧ 1 ≤ cfg_send_frames_per_minute c ≤ U64_MAX ∧ 1 ≤ cfg_send_bytes_per_minute c ≤ U64_MAX
  ∧ 1 ≤ cfg_db_pool_size c ≤ U32_MAX ∧ 1 ≤ cfg_push_queue c ≤ U64_MAX ∧ 1 ≤ cfg_janitor_interval_ms c ≤ U64_MAX
  ∧ is_u64 (cfg_push_coalesce_ms c) ∧ is_u64 (cfg_gc_min_object_age_seconds c)
  ∧ is_u64 (cfg_media_unclaimed_grace_seconds c) ∧ is_u64 (cfg_trusted_proxy_hops c).

Definition single_process (c : RelayConfig) : Prop :=
  cfg_live_fanout c = FanoutProcess
  ∧ (cfg_live c = LiveOn → cfg_redis_url c = None)
  ∧ (cfg_calls c = CallsOn → cfg_redis_url c = None)
  ∧ (cfg_calls c = CallsOn ↔ is_Some (cfg_max_concurrent_calls c)).

Section posture.
Context `{UrlLib} `{UrlPaths}.

Definition push_ok (c : RelayConfig) : Prop :=
  match cfg_push c with
  | PushOff => cfg_push_url c = None ∧ cfg_push_token c = None ∧ cfg_push_register_url c = None
               ∧ cfg_push_coalesce_ms c = DEFAULT_COALESCE_MS ∧ cfg_push_queue c = DEFAULT_QUEUE
  | PushOn => ∃ url, cfg_push_url c = Some url ∧ is_secure_push_url url = true
               ∧ from_option (λ u, is_secure_push_url u = true) True (cfg_push_register_url c)
               ∧ (length (match cfg_push_register_url c with Some u => u | None => default_register_url url end)
                    ≤ MAX_REGISTER_URL_BYTES)%nat
  end.

Definition hosted_ok (c : RelayConfig) : Prop :=
  cfg_smtp_url c = None ∧ cfg_access_set c = Enforce ∧ cfg_min_encryption c = FloorMls
  ∧ cfg_metrics_group_labels c = false
  ∧ (∀ u, cfg_push_url c = Some u ∨ cfg_push_register_url c = Some u → starts_with HTTPS u = true).

Lemma resolve_fields_ranges v c : resolve_fields v = Ok c → ranges_ok c ∧ cfg_calls_off_reason c = None.
Proof.
  unfold resolve_fields. intros Hr.
  repeat (let Hx := fresh "Hx" in apply result_bind_ok in Hr as (? & Hx & Hr);
    first [ apply capacity_range in Hx | apply connection_limit_range in Hx | apply pool_size_range in Hx
          | apply positive_range in Hx | apply count_range in Hx; [|by vm_compute] | clear Hx ]).
  injection Hr as <-. split; [|done]. unfold ranges_ok. cbn.
  repeat first [assumption | apply or_else_range; [by vm_compute | assumption] | split].
Qed.

Lemma ranges_with_calls c m o r :
  ranges_ok c → from_option (λ n, 1 ≤ n ≤ U64_MAX) True o → ranges_ok (with_calls c m o r).
Proof. intros (H1 & H2 & H3 & H4 & _ & Hrest) Ho. exact (conj H1 (conj H2 (conj H3 (conj H4 (conj Ho Hrest))))). Qed.

Lemma with_calls_id c : with_calls c (cfg_calls c) (cfg_max_concurrent_calls c) (cfg_calls_off_reason c) = c.
Proof. by destruct c. Qed.

Lemma enforce_calls_spec c asked c' :
  enforce_calls c asked = Ok c' → ranges_ok c →
  c' = with_calls c (cfg_calls c') (cfg_max_concurrent_calls c') (cfg_calls_off_reason c') ∧ ranges_ok c'
  ∧ (cfg_calls c' = CallsOn → cfg_redis_url c = None) ∧ (cfg_calls c' = CallsOn ↔ is_Some (cfg_max_concurrent_calls c')).
Proof.
  unfold enforce_calls. intros H1 Hr. apply result_bind_ok in H1 as (c1 & H1 & H2).
  assert (c1 = with_calls c (cfg_calls c) (cfg_max_concurrent_calls c1) (cfg_calls_off_reason c) ∧ ranges_ok c1
    ∧ (cfg_calls c = CallsOn ↔ is_Some (cfg_max_concurrent_calls c1))) as (Hc1 & Hr1 & Hiff).
  { destruct (cfg_calls c) eqn:Hm, (cfg_max_concurrent_calls c) eqn:Ho; try done; injection H1 as <-.
    - rewrite <- Hm, with_calls_id, Ho. split_and!; [done | done | by split; [eexists | intros _]].
    - split_and!; [done | by apply ranges_with_calls | by split; [eexists|]].
    - rewrite <- Hm, with_calls_id, Hm, Ho. split_and!; [done | done | by split; [|intros []]]. }
  assert (cfg_redis_url c1 = cfg_redis_url c) as Hred by by rewrite Hc1.
  assert (cfg_calls c1 = cfg_calls c) as Hcalls by by rewrite Hc1.
  pose proof (ranges_with_calls c1 CallsOff None (Some "downgraded_multi_process"%string) Hr1 I) as Hoff.
  rewrite Hcalls, Hred in H2. destruct (cfg_calls c) eqn:Hcc; cbn [andb] in H2.
  - destruct (cfg_redis_url c) eqn:Hrc; cbn [is_set] in H2.
    + destruct asked; [done|]. injection H2 as <-. cbn. split_and!; [by rewrite Hc1 | done | done | split; [done|by intros []]].
    + injection H2 as <-. rewrite Hcalls. split_and!; [by rewrite Hc1 at 1; cbn; rewrite Hc1 | done | done | exact Hiff].
  - injection H2 as <-. rewrite Hcalls. split_and!; [by rewrite Hc1 at 1; cbn; rewrite Hc1 | done | done | exact Hiff].
Qed.
End posture.

Section starting.
Context `{UrlLib} `{UrlPaths}.

Lemma enforce_push_spec c : enforce_push c = Ok tt → push_ok c.
Proof.
  unfold enforce_push, push_ok. destruct (cfg_push c), (cfg_push_url c) as [url|]; try done.
  - destruct (insecure_url _) as [[k u]|] eqn:Hi; [done|]. cbn in Hi.
    destruct (is_secure_push_url url) eqn:Hu; [|done].
    destruct (_ <? _)%nat eqn:Hl; [done|]. apply Nat.ltb_ge in Hl. intros _. exists url. split_and!; try done.
    destruct (cfg_push_register_url c) as [u|]; cbn in *; [|done]. by destruct (is_secure_push_url u).
  - destruct (first_set _) as [k|] eqn:Hf; [done|]. intros _. unfold first_set in Hf. cbn in Hf.
    destruct (cfg_push_token c); [done|]. destruct (cfg_push_register_url c); [done|].
    destruct (Z.eqb_spec (cfg_push_coalesce_ms c) DEFAULT_COALESCE_MS); [|done].
    destruct (Z.eqb_spec (cfg_push_queue c) DEFAULT_QUEUE); [|done]. done.
Qed.

Lemma profile_enforce_spec c : profile_enforce c = Ok tt → cfg_profile c = Hosted → hosted_ok c.
Proof.
  unfold profile_enforce, hosted_ok. intros Hp Hh. rewrite Hh in Hp.
  destruct (first_set _) as [k|] eqn:Hf; [done|]. clear Hp. unfold first_set in Hf. cbn in Hf.
  destruct (cfg_smtp_url c); [done|]. destruct (cfg_access_set c); [|done]. destruct (cfg_min_encryption c); [done|].
  destruct (cfg_metrics_group_labels c); [done|].
  destruct (plain (cfg_push_url c)) eqn:P1; [done|]. destruct (plain (cfg_push_register_url c)) eqn:P2; [done|].
  split_and!; try done. intros u [Hu|Hu]; rewrite Hu in *; cbn in *; by apply negb_false_iff.
Qed.

Lemma resolve_parts v c :
  resolve v = Ok c →
  cfg_tls c = TlsOff ∧ single_process c ∧ push_ok c ∧ ranges_ok c ∧ (cfg_profile c = Hosted → hosted_ok c).
Proof.
  unfold resolve. intros Hr. apply result_bind_ok in Hr as (c0 & Hf & Hr). apply resolve_fields_ranges in Hf as [Hrg _].
  apply result_bind_ok in Hr as ([] & Ht & Hr). apply result_bind_ok in Hr as ([] & Hl & Hr).
  apply result_bind_ok in Hr as (c' & Hc & Hr). apply (enforce_calls_spec _ _ _ Hc) in Hrg as (Heq & Hrg & Hred & Hiff).
  apply result_bind_ok in Hr as ([] & Hp & Hr). apply result_bind_ok in Hr as ([] & Hpr & Hr). injection Hr as <-.
  assert (cfg_tls c' = cfg_tls c0 ∧ cfg_live_fanout c' = cfg_live_fanout c0 ∧ cfg_live c' = cfg_live c0
    ∧ cfg_redis_url c' = cfg_redis_url c0) as (E1 & E2 & E3 & E4) by (rewrite Heq; done).
  unfold single_process. rewrite E1, E2, E3, E4. split_and!.
  - unfold enforce_tls in Ht. by destruct (cfg_tls c0).
  - unfold enforce_live_fanout in Hl. by destruct (cfg_live_fanout c0).
  - intros Hon. unfold enforce_live_fanout in Hl. destruct (cfg_live_fanout c0); [|done]. rewrite Hon in Hl. cbn in Hl.
    by destruct (cfg_redis_url c0).
  - exact Hred.
  - apply Hiff.
  - by apply enforce_push_spec.
  - exact Hrg.
  - intros Hh. by apply profile_enforce_spec.
Qed.

(** C22. The posture of a relay that starts: whatever the environment and the
    file say, a configuration that resolves terminates no TLS and shares no
    fanout, serves presence or calls only as the single process it is, has a
    call ceiling exactly when calls are on, holds push settings exactly when
    push is on and then only towards secure urls within the clients' bound, has
    no zero where zero would stop the service, and on the hosted profile keeps
    the four forbidden settings out. *)
Theorem resolved_posture v c :
  resolve v = Ok c →
  cfg_tls c = TlsOff ∧ single_process c ∧ push_ok c ∧ ranges_ok c ∧ (cfg_profile c = Hosted → hosted_ok c).
Proof. apply resolve_parts. Qed.

(** Refusals and reads: every refusal of a configuration names a key, and
    one of the relay's own; resolution depends on nothing but the values of
    those keys; and where the environment sets a key the file's value for it is
    never seen. *)
Theorem resolution_closed :
  (∀ v e, resolve v = Err e → ∃ k, error_key e = Some k ∧ k ∈ ALL_KEYS)
  ∧ (∀ v1 v2, (∀ k, k ∈ ALL_KEYS → values_get v1 k = values_get v2 k) → resolve v1 = resolve v2)
  ∧ (∀ env f1 f2, (∀ k, k ∈ ALL_KEYS → is_Some (env !! k) ∨ f1 !! k = f2 !! k) →
       resolve (mkValues env f1) = resolve (mkValues env f2)).
Proof.
  split_and!; [apply resolve_names | apply resolve_ext |].
  intros env f1 f2 Hf. apply resolve_ext. intros k Hk. unfold values_get. cbn.
  destruct (Hf k Hk) as [[x Hx]|Hx]; by rewrite Hx.
Qed.

(** The register url the push settings state is the one the startup rule
    bounded: a client's limit on it is never exceeded by a relay that starts. *)
Lemma stated_register_url_bounded v c :
  resolve v = Ok c →
  (length (register_url (settings_from_config (mkPushConfig (cfg_push c) (cfg_push_url c) (cfg_push_token c)
     (cfg_push_register_url c) (cfg_push_coalesce_ms c) (Z.to_nat (cfg_push_queue c)))))
   ≤ MAX_REGISTER_URL_BYTES)%nat.
Proof.
  intros (_ & _ & Hp & _)%resolve_parts. unfold settings_from_config, push_ok in *. cbn.
  destruct (cfg_push c).
  - destruct Hp as (url & -> & _ & _ & Hl). cbn. done.
  - destruct Hp as (_ & _ & Hreg & _). rewrite Hreg. cbn. unfold MAX_REGISTER_URL_BYTES. lia.
Qed.
End starting.

(** ** Closed instances *)
Definition colon_split (bs : list byte) : option (list byte * list byte) :=
  match List.find (λ n, starts_with (ascii_bytes "://") (drop n bs)) (seq 0 (length bs)) with
  | Some n => Some (take n bs, drop (n + 3) bs)
  | None => None
  end.
(** A toy url: scheme, then everything up to the first slash or colon as host. *)
Fixpoint host_of (bs : list byte) : list byte :=
  match bs with b :: r => if in_range 47 47 b || in_range 58 58 b then [] else b :: host_of r | [] => [] end.
Definition toy_urls : UrlLib := λ bs, (λ p, (p.1, Some (host_of p.2))) <$> colon_split bs.
Definition toy_paths : UrlPaths := {|
  url_to_file_path bs := snd <$> colon_split bs;
  url_path bs := default [] ((λ p, drop (length (host_of p.2)) p.2) <$> colon_split bs)
|}.

Definition base_pairs : list (list byte * list byte) :=
  [(K_HOSTNAME, ascii_bytes "relay.example"); (K_DATABASE_URL, ascii_bytes "postgres://db/weald");
   (K_STORAGE_URL, ascii_bytes "s3://blobs/prod/")].
Definition resolve_with (more : list (list byte * list byte)) : result ConfigError RelayConfig :=
  resolve (H := toy_urls) (H0 := toy_paths) (from_pairs (base_pairs ++ more)).

(** The three required variables alone are a complete configuration. *)
Definition demo_config : RelayConfig :=
  mkRelayConfig (ascii_bytes "relay.example") (ascii_bytes "postgres://db/weald")
    (S3 (ascii_bytes "blobs") (ascii_bytes "prod")) None DEFAULT_LISTEN DEFAULT_OBSERVABILITY_LISTEN TlsOff
    Unlimited Unlimited Unlimited Enforce FloorNone LiveOn FanoutProcess CallsOn (Some 8) None (Of 256)
    10000 300000 6000 67108864 8 None Full true false None None SelfHost PushOff None None None 2000 1024
    900000 172800 86400 0.

Lemma minimal_configuration : resolve_with [] = Ok demo_config.
Proof. vm_compute. reflexivity. Qed.

Lemma resolved_posture_witness :
  resolve (H := toy_urls) (H0 := toy_paths) (from_pairs base_pairs) = Ok demo_config
  ∧ cfg_tls demo_config = TlsOff ∧ single_process demo_config.
Proof.
  assert (resolve (H := toy_urls) (H0 := toy_paths) (from_pairs base_pairs) = Ok demo_config) as Hr by (vm_compute; reflexivity).
  split; [exact Hr|].
  destruct (resolved_posture (H := toy_urls) (H0 := toy_paths) (from_pairs base_pairs) demo_config Hr) as (Ht & Hs & _).
  split; assumption.
Defined.

(** Each rule refuses its own configuration. *)
Lemma startup_refusals :
  resolve_with [(K_TLS, ascii_bytes "of")] = Err (NotAllowed K_TLS (ascii_bytes "of"))
  ∧ resolve_with [(K_TLS, ascii_bytes "acme")] = Err (TlsUnavailable K_TLS (ascii_bytes "acme"))
  ∧ resolve_with [(K_SMTP_URL, ascii_bytes "  ")] = Err (Empty K_SMTP_URL)
  ∧ resolve_with [(K_MAX_LOG_GB, ascii_bytes "0")] = Err (ZeroLimit K_MAX_LOG_GB)
  ∧ resolve_with [(K_REDIS_URL, ascii_bytes "redis://r")] = Err (LiveFanoutSingleProcess K_LIVE_FANOUT K_REDIS_URL)
  ∧ resolve_with [(K_PROFILE, ascii_bytes "hosted")] = Err (RefusedOnHostedProfile K_MIN_ENC)
  ∧ resolve_with [(K_PUSH, ascii_bytes "on")] = Err (PushUrlMissing K_PUSH_URL K_PUSH)
  ∧ resolve (H := toy_urls) (H0 := toy_paths) (from_pairs []) = Err (Missing K_HOSTNAME)
  ∧ parse_uint U64_MAX (ascii_bytes "18446744073709551615") = Some U64_MAX
  ∧ parse_uint U64_MAX (ascii_bytes "18446744073709551616") = None
  ∧ parse_uint U64_MAX (ascii_bytes "+7") = Some 7.
Proof. by vm_compute. Qed.

(** Calls inherited from the default go off where a second process is declared,
    and a ceiling the operator set beside them is dropped without a refusal. *)
Lemma inherited_calls_drop_ceiling :
  ∃ c, resolve_with [(K_REDIS_URL, ascii_bytes "redis://r"); (K_LIVE, ascii_bytes "off");
                     (K_MAX_CONCURRENT_CALLS, ascii_bytes "40")] = Ok c
  ∧ cfg_calls c = CallsOff ∧ cfg_max_concurrent_calls c = None
  ∧ resolve_with [(K_CALLS, ascii_bytes "off"); (K_MAX_CONCURRENT_CALLS, ascii_bytes "40")]
    = Err (CallsCeilingUnused K_MAX_CONCURRENT_CALLS K_CALLS).
Proof.
  eexists. split; [vm_compute; reflexivity|]. by vm_compute.
Qed.

(** A push variable set to its default value on a relay with push off is
    accepted, where any other value of it is refused as unused. *)
Lemma default_push_setting_accepted :
  is_ok (resolve_with [(K_PUSH_COALESCE_MS, ascii_bytes "2000"); (K_PUSH_QUEUE, ascii_bytes "1024")]) = true
  ∧ resolve_with [(K_PUSH_COALESCE_MS, ascii_bytes "2001")] = Err (PushSettingUnused K_PUSH_COALESCE_MS K_PUSH).
Proof. by vm_compute. Qed.
