(* ===== verification/AgentCbor.v ===== *)
(** * The CBOR subset of the agent payloads

    Models [backend/weald-mls/src/agent_cbor.rs]: a second, independent codec
    for the deterministic subset the agent records travel in, with maps under
    unsigned keys. The encoder half repeats the relay's heads; the reader half
    has its own error vocabulary, a structural skip with a depth budget, and
    closed schema maps whose keys must ascend.

    The cursor is [Cbor.Reader] and a read is again a function from a cursor to
    a result and the cursor it leaves ([rd]), so the class [WireCodec] of
    [Cbor.v] is the interface the record codecs are proved against. *)

From Stdlib Require Import ZArith Lia String.
From stdpp Require Import base tactics numbers sorting sets list.
From S2P Require Import Prelude Cbor.

Open Scope Z_scope.

(** ** Errors *)
Inductive CborError : Type :=
| Truncated
| Trailing (n : nat)
| NonCanonicalInteger
| UnsupportedMajor (major : Z)
| ReservedAdditionalInfo (info : Z)
| UnsupportedSimple (value : Z)
| TypeMismatch (expected : string)
| WrongLength (expected got : nat)
| WrongArrayCount (expected got : nat)
| InvalidUtf8
| MapKeysNotAscending (previous next : Z)
| UnknownKey (k : Z)
| MissingKey (k : Z)
| TooDeep.

#[global] Instance AgentCborError_eq_dec : EqDecision CborError.
Proof. unfold EqDecision, Decision. repeat decide equality. Defined.

(** The closed reason code of each refusal. *)
Definition reason (e : CborError) : string :=
  match e with
  | Truncated => "codec.truncated"
  | Trailing _ => "codec.trailing"
  | NonCanonicalInteger => "codec.noncanonical.int"
  | UnsupportedMajor _ => "codec.major.unsupported"
  | ReservedAdditionalInfo _ => "codec.additionalinfo.reserved"
  | UnsupportedSimple _ => "codec.simple.unsupported"
  | TypeMismatch _ => "codec.type.mismatch"
  | WrongLength _ _ => "codec.length.wrong"
  | WrongArrayCount _ _ => "codec.arraycount.wrong"
  | InvalidUtf8 => "codec.utf8.invalid"
  | MapKeysNotAscending _ _ => "codec.mapkeys.order"
  | UnknownKey _ => "codec.key.unknown"
  | MissingKey _ => "codec.key.missing"
  | TooDeep => "codec.depth"
  end.

(** ** Encoding *)
Definition cbor_head (major value : Z) : list byte :=
  let tag := Z.shiftl major 5 in
  if value <? 24 then [byte_of_Z (Z.lor tag value)]
  else if value <=? U8_MAX then byte_of_Z (Z.lor tag 24) :: be_bytes 1 value
  else if value <=? U16_MAX then byte_of_Z (Z.lor tag 25) :: be_bytes 2 value
  else if value <=? U32_MAX then byte_of_Z (Z.lor tag 26) :: be_bytes 4 value
  else byte_of_Z (Z.lor tag 27) :: be_bytes 8 value.

Definition cbor_uint (value : Z) : list byte := cbor_head 0 value.
Definition cbor_bytes (value : list byte) : list byte := cbor_head 2 (len value) ++ value.
Definition cbor_text (value : list byte) : list byte := cbor_head 3 (len value) ++ value.
Definition cbor_array (items : list (list byte)) : list byte :=
  cbor_head 4 (Z.of_nat (length items)) ++ concat items.

(** [sorted.sort_by_key(|p| p.0)], a stable sort on the keys. *)
Definition pair_t : Type := Z * list byte.
Fixpoint insert_by_key (p : pair_t) (l : list pair_t) : list pair_t :=
  match l with
  | [] => [p]
  | q :: l' => if p.1 <=? q.1 then p :: l else q :: insert_by_key p l'
  end.
Definition sort_by_key (l : list pair_t) : list pair_t := foldr insert_by_key [] l.

(** [sorted.windows(2)]: no two neighbours under one key. *)
Fixpoint no_duplicate_key (l : list pair_t) : bool :=
  match l with
  | p :: ((q :: _) as l') => negb (p.1 =? q.1) && no_duplicate_key l'
  | _ => true
  end.

Definition pair_bytes (p : pair_t) : list byte := cbor_uint p.1 ++ p.2.
Definition pairs_bytes (l : list pair_t) : list byte :=
  cbor_head 5 (Z.of_nat (length l)) ++ concat (pair_bytes <$> l).

(** [None] is the panic of a duplicated key. *)
Definition cbor_map (pairs : list pair_t) : option (list byte) :=
  let sorted := sort_by_key pairs in
  if no_duplicate_key sorted then Some (pairs_bytes sorted) else None.

(** ** The reader *)
Definition at_offset (r : Reader) (offset : nat) : Reader := mkReader (rd_data r) offset.
Definition left_after (r : Reader) (next : nat) : Z := Z.of_nat (length (rd_data r) - next).

(** The head at the cursor: major type, argument, and the offset after it. The
    cursor does not move. *)
Definition r_head (r : Reader) : result CborError (Z * Z * nat) :=
  let start := rd_offset r in
  match rd_data r !! start with
  | None => Err Truncated
  | Some b =>
      let initial := byte_to_Z b in
      let major := Z.shiftr initial 5 in
      let info := Z.land initial 31 in
      if info <? 24 then Ok (major, info, (start + 1)%nat)
      else if 28 <=? info then Err (ReservedAdditionalInfo info)
      else
        let width := Z.to_nat (Z.shiftl 1 (info - 24)) in
        if (length (rd_data r) <=? start + width)%nat then Err Truncated
        else
          let value := fold_left be_step (take width (drop (start + 1) (rd_data r))) 0 in
          if value <? head_minimum width then Err NonCanonicalInteger
          else Ok (major, value, (start + 1 + width)%nat)
  end.

Definition counted (major : Z) (name : string) : rd CborError Z := λ r,
  match r_head r with
  | Err e => (Err e, r)
  | Ok (found, argument, next) =>
      if negb (found =? major) then (Err (TypeMismatch name), r)
      else if left_after r next <? argument then (Err Truncated, r)
      else (Ok argument, at_offset r next)
  end.

Definition r_uint : rd CborError Z := λ r,
  match r_head r with
  | Err e => (Err e, r)
  | Ok (major, value, next) =>
      if negb (major =? 0) then (Err (TypeMismatch "unsigned integer"), r)
      else (Ok value, at_offset r next)
  end.

(** [self.offset = start + length; self.data[start..self.offset]]. *)
Definition take_bytes (length : Z) : rd CborError (list byte) := λ r,
  (Ok (slice r (Z.to_nat length)), advance_by r (Z.to_nat length)).

Definition r_bytes : rd CborError (list byte) :=
  length <- counted 2 "byte string" ;; take_bytes length.

Definition r_bytes_exact (expected : nat) : rd CborError (list byte) :=
  value <- r_bytes ;;
  if negb (length value =? expected)%nat then rd_fail (WrongLength expected (length value))
  else rd_ret value.

Definition r_text : rd CborError (list byte) :=
  length <- counted 3 "text string" ;;
  value <- take_bytes length ;;
  if utf8_valid value then rd_ret value else rd_fail InvalidUtf8.

Definition r_array_count : rd CborError nat :=
  n <- counted 4 "array" ;; rd_ret (Z.to_nat n).
Definition r_map_count : rd CborError nat :=
  n <- counted 5 "map" ;; rd_ret (Z.to_nat n).

Definition at_end (r : Reader) : bool := (rd_offset r =? length (rd_data r))%nat.
Definition require_end : rd CborError unit := λ r,
  if at_end r then (Ok tt, r) else (Err (Trailing (remaining r)), r).

(** [for _ in 0..n { item()? }]. An announced count can exceed what the message
    carries by far; one more turn than there are bytes is enough to fail, which
    [rd_repeat_exact] proves. *)
Fixpoint rd_loop {E} (n : nat) (item : rd E unit) : rd E unit :=
  match n with
  | O => rd_ret tt
  | S n' => item ;;; rd_loop n' item
  end.
Definition rd_repeat {E} (n : Z) (item : rd E unit) : rd E unit := λ r,
  rd_loop (Z.to_nat (Z.min n (Z.of_nat (S (remaining r))))) item r.

Definition MAX_SKIP_DEPTH : nat := 32.

(** [skip_item_bounded(depth)], with [levels = MAX_SKIP_DEPTH + 1 - depth]: no
    level is left exactly when [depth > MAX_SKIP_DEPTH]. *)
Fixpoint skip_item_bounded (levels : nat) : rd CborError unit := λ r,
  match levels with
  | O => (Err TooDeep, r)
  | S below =>
      match r_head r with
      | Err e => (Err e, r)
      | Ok (major, argument, next) =>
          if major =? 0 then (Ok tt, at_offset r next)
          else if (major =? 2) || (major =? 3) then
            if left_after r next <? argument then (Err Truncated, r)
            else (Ok tt, at_offset r (next + Z.to_nat argument))
          else if major =? 4 then
            rd_repeat argument (skip_item_bounded below) (at_offset r next)
          else if major =? 5 then
            rd_repeat argument (skip_item_bounded below ;;; skip_item_bounded below) (at_offset r next)
          else if major =? 7 then
            if negb (argument =? 22) then (Err (UnsupportedSimple argument), r)
            else (Ok tt, at_offset r next)
          else (Err (UnsupportedMajor major), r)
      end
  end.

Definition skip_item : rd CborError unit := skip_item_bounded (S MAX_SKIP_DEPTH).

Definition raw_value : rd CborError (list byte) := λ r,
  match skip_item r with
  | (Err e, r') => (Err e, r')
  | (Ok tt, r') => (Ok (take (rd_offset r' - rd_offset r) (drop (rd_offset r) (rd_data r))), r')
  end.

(** The loop of [schema_map]; [out.push] builds the list in wire order. *)
Fixpoint schema_slots (schema : list Z) (pairs : nat) (previous : option Z)
    : rd CborError (list pair_t) :=
  match pairs with
  | O => rd_ret []
  | S n =>
      key <- r_uint ;;
      if (match previous with Some p => key <=? p | None => false end)
      then rd_fail (MapKeysNotAscending (default 0 previous) key)
      else if negb (contains schema key) then rd_fail (UnknownKey key)
      else
        value <- raw_value ;;
        out <- schema_slots schema n (Some key) ;;
        rd_ret ((key, value) :: out)
  end.

Definition schema_map (schema : list Z) : rd CborError (list pair_t) :=
  pairs <- r_map_count ;; schema_slots schema pairs None.

(** [Reader::new(data)], a read, [require_end]: the shape of every whole-buffer
    decode; [f] lifts the reader's own error. *)
Definition whole {E T} (f : CborError → E) (read : rd E T) (data : list byte) : result E T :=
  fst ((value <- read ;; rd_map_err f require_end ;;; rd_ret value) (rd_new data)).

(** ** Slots *)
Fixpoint optional_slot (slots : list pair_t) (key : Z) : option (list byte) :=
  match slots with
  | [] => None
  | (k, v) :: slots' => if k =? key then Some v else optional_slot slots' key
  end.

Definition slot (slots : list pair_t) (key : Z) : result CborError (list byte) :=
  match optional_slot slots key with Some v => Ok v | None => Err (MissingKey key) end.

Definition in_slot {T} (slots : list pair_t) (key : Z) (read : rd CborError T) : result CborError T :=
  let? raw := slot slots key in whole id read raw.

(** How the records read a slot whose absence is legal:
    [match optional_slot(..) { Some(_) => Some(in_slot(..)?), None => None }]. *)
Definition in_optional_slot {T} (slots : list pair_t) (key : Z) (read : rd CborError T)
    : result CborError (option T) :=
  match optional_slot slots key with
  | Some _ => let? v := in_slot slots key read in Ok (Some v)
  | None => Ok None
  end.

(** [if let Some(v) = &field { pairs.push((key, enc(v))) }]. *)
Definition push_some {T} (key : Z) (enc : T → list byte) (field : option T) : list pair_t :=
  match field with Some v => [(key, enc v)] | None => [] end.

(** [let slots = reader.schema_map(&SCHEMA)?; reader.require_end()?]. *)
Definition read_schema (schema : list Z) (data : list byte) : result CborError (list pair_t) :=
  whole id (schema_map schema) data.

(** ** Heads: this reader and the relay's are one function *)
Definition of_relay (e : Cbor.CborError) : CborError :=
  match e with
  | Cbor.NonCanonicalInteger => NonCanonicalInteger
  | Cbor.ReservedAdditionalInfo i => ReservedAdditionalInfo i
  | _ => Truncated
  end.

Lemma read_argument_short r i w v :
  (i ≤ length (rd_data r) < i + w)%nat → read_argument r i w v = Err Cbor.Truncated.
Proof.
  revert i v. induction w as [|w IH]; intros i v Hl; cbn [read_argument]; [lia|].
  unfold byte_at. destruct (rd_data r !! i) as [b|] eqn:Hb; cbn [result_bind]; [|done].
  apply IH. apply lookup_lt_Some in Hb. lia.
Qed.

Lemma read_argument_long r i w v :
  (i + w ≤ length (rd_data r))%nat →
  read_argument r i w v = Ok (fold_left be_step (take w (drop i (rd_data r))) v).
Proof.
  intros Hl. destruct r as [data off]. cbn [rd_data] in *.
  apply (read_argument_accepts _ _ _ _ _ (drop w (drop i data))).
  - by rewrite take_drop.
  - rewrite length_take, length_drop. lia.
Qed.

Lemma r_head_relay r :
  r_head r = match read_head r with
             | (Ok (major, v), r') => Ok (major, v, rd_offset r')
             | (Err e, _) => Err (of_relay e)
             end.
Proof.
  unfold r_head, read_head. rewrite byte_at_lookup.
  destruct (rd_data r !! rd_offset r) as [b|] eqn:Hb; [|done].
  apply lookup_lt_Some in Hb.
  destruct (Z.land (byte_to_Z b) 31 <? 24); [done|].
  destruct (28 <=? Z.land (byte_to_Z b) 31); [done|].
  set (w := Z.to_nat _).
  destruct (Nat.leb_spec (length (rd_data r)) (rd_offset r + w)).
  - rewrite read_argument_short by lia. done.
  - rewrite read_argument_long by lia. destruct (_ <? head_minimum w); [done|].
    cbn [advance_by rd_offset]. by rewrite Nat.add_assoc.
Qed.

Lemma r_head_sound r major v next :
  r_head r = Ok (major, v, next) →
  0 ≤ major < 8 ∧ is_u64 v ∧ consumed r (at_offset r next) (cbor_head major v).
Proof.
  rewrite r_head_relay. destruct (read_head r) as [[[m a]|e] r'] eqn:H; [|done]. intros [= -> -> <-].
  apply read_head_sound in H as (Hm & Hv & [-> Hc]). done.
Qed.

Lemma r_head_at pre major v tl :
  0 ≤ major < 8 → is_u64 v →
  r_head (mkReader (pre ++ cbor_head major v ++ tl) (length pre))
  = Ok (major, v, (length pre + length (cbor_head major v))%nat).
Proof.
  intros Hm Hv. rewrite r_head_relay.
  change (cbor_head major v) with (head major v).
  by rewrite (accepts_head major v Hm Hv pre tl) by lia.
Qed.

Lemma r_head_err r e : r_head r = Err e →
  e = Truncated ∨ e = NonCanonicalInteger ∨ ∃ i, e = ReservedAdditionalInfo i.
Proof. unfold r_head. repeat case_match; naive_solver. Qed.

Lemma consumed_length r r' bs :
  consumed r r' bs → (length bs + remaining r' = remaining r)%nat ∧ rd_data r' = rd_data r.
Proof.
  intros [-> Hr]. split; [|done]. apply (f_equal length) in Hr.
  unfold rest in Hr. rewrite length_app, !length_drop in Hr. unfold remaining. cbn in *. lia.
Qed.

(** ** The typed reads as codecs *)
Lemma at_offset_app pre a b :
  at_offset (mkReader (pre ++ a ++ b) (length pre)) (length pre + length a)
  = mkReader ((pre ++ a) ++ b) (length (pre ++ a)).
Proof. unfold at_offset. by rewrite length_app, <- app_assoc. Qed.

(** A counted head is accepted wherever that many bytes follow it. *)
Lemma accepts_counted major name n :
  0 ≤ major < 8 → Z.of_nat n ≤ U64_MAX →
  accepts n (counted major name) (cbor_head major (Z.of_nat n)) (Z.of_nat n).
Proof.
  intros Hm Hn pre suf Hs. unfold counted.
  rewrite r_head_at by (done || (unfold is_u64; lia)). rewrite Z.eqb_refl. cbn [negb].
  unfold left_after. cbn [rd_data].
  rewrite (proj2 (Z.ltb_ge _ _)); [done|]. rewrite !length_app. lia.
Qed.

Lemma counted_sound major name r n r' :
  counted major name r = (Ok n, r') →
  is_u64 n ∧ consumed r r' (cbor_head major n) ∧ n ≤ Z.of_nat (remaining r').
Proof.
  unfold counted. destruct (r_head r) as [[[m v] next]|] eqn:H; [|done].
  apply r_head_sound in H as (Hm & Hv & Hc).
  destruct (Z.eqb_spec m major) as [->|]; [|done]. cbn [negb].
  destruct (Z.ltb_spec (left_after r next) v); [done|]. intros [= <- <-].
  repeat split; [apply Hv | apply Hv | apply Hc | apply Hc |]. unfold remaining, at_offset. cbn. done.
Qed.

#[global] Instance r_uint_codec : WireCodec is_u64 cbor_uint r_uint.
Proof.
  split.
  - intros v Hv pre suf _. unfold r_uint, cbor_uint. rewrite r_head_at by (done || lia). done.
  - intros r x r'. unfold r_uint. destruct (r_head r) as [[[m v] next]|] eqn:H; [|done].
    apply r_head_sound in H as (Hm & Hv & Hc).
    destruct (Z.eqb_spec m 0) as [->|]; [|done]. intros [= <- <-]. done.
Qed.

Lemma accepts_take v : accepts 0 (take_bytes (len v)) v v.
Proof.
  intros pre suf _. unfold take_bytes, slice, advance_by, len. cbn [rd_data rd_offset].
  by rewrite Nat2Z.id, drop_app_length, take_app_length.
Qed.

Lemma take_bytes_sound n r v r' :
  0 ≤ n ≤ Z.of_nat (remaining r) → take_bytes n r = (Ok v, r') → len v = n ∧ consumed r r' v.
Proof.
  intros Hn [= <- <-]. unfold slice, len, consumed, rest, remaining in *.
  assert (length (take (Z.to_nat n) (drop (rd_offset r) (rd_data r))) = Z.to_nat n) as Hl.
  { rewrite length_take, length_drop. lia. }
  rewrite Hl. repeat split; [lia|]. cbn. by rewrite <- drop_drop, take_drop.
Qed.

Lemma accepts_string major name v :
  0 ≤ major < 8 → vec_ok v →
  accepts 0 (length <- counted major name ;; take_bytes length) (cbor_head major (len v) ++ v) v.
Proof.
  intros Hm Hv. eapply accepts_bind; [by apply accepts_counted | by apply accepts_take | lia].
Qed.

Lemma string_sound major name r v r' :
  (length <- counted major name ;; take_bytes length) r = (Ok v, r') →
  vec_ok v ∧ consumed r r' (cbor_head major (len v) ++ v).
Proof.
  intros (n & r1 & (Hu & Hc & Hn)%counted_sound & H)%rd_bind_ok.
  apply take_bytes_sound in H as [<- Hc2]; [|unfold is_u64 in Hu; lia].
  split; [apply Hu|]. by eapply consumed_trans.
Qed.

#[global] Instance r_bytes_codec : WireCodec vec_ok cbor_bytes r_bytes.
Proof.
  split; [intros v Hv; by apply accepts_string | intros r x r' H; by apply string_sound in H].
Qed.

Lemma bytes_exact_codec n :
  Z.of_nat n ≤ U64_MAX → WireCodec (λ v, length v = n) cbor_bytes (r_bytes_exact n).
Proof.
  intros Hn. split.
  - intros v Hv. rewrite <- (app_nil_r (cbor_bytes v)). eapply accepts_bind;
      [apply (codec_accepts (dec := r_bytes)); unfold vec_ok, len; lia | | cbn; lia].
    rewrite (proj2 (Nat.eqb_eq _ _)) by done. apply accepts_ret.
  - intros r x r' (v & r1 & Hv & H)%rd_bind_ok. apply codec_sound in Hv as [_ Hc].
    destruct (Nat.eqb_spec (length v) n); cbn [negb] in H; [|done]. by injection H as -> ->.
Qed.
#[global] Instance bytes_exact_16 : WireCodec (λ v, length v = 16%nat) cbor_bytes (r_bytes_exact 16).
Proof. by apply bytes_exact_codec. Qed.
#[global] Instance bytes_exact_32 : WireCodec (λ v, length v = 32%nat) cbor_bytes (r_bytes_exact 32).
Proof. by apply bytes_exact_codec. Qed.

Lemma r_text_assoc r :
  r_text r = (value <- (length <- counted 3 "text string" ;; take_bytes length) ;;
              if utf8_valid value then rd_ret value else rd_fail InvalidUtf8) r.
Proof. unfold r_text, rd_bind. by destruct (counted _ _ r) as [[?|?] ?]. Qed.

#[global] Instance r_text_codec : WireCodec text_ok cbor_text r_text.
Proof.
  split.
  - intros v [Hv Hu] pre suf Hs. rewrite r_text_assoc. unfold rd_bind at 1.
    unfold cbor_text. rewrite accepts_string by (done || lia). by rewrite Hu.
  - intros r x r'. rewrite r_text_assoc. intros (v & r1 & Hv & H)%rd_bind_ok.
    apply string_sound in Hv as [Hv Hc].
    destruct (utf8_valid v) eqn:Hu; [|done]. injection H as -> ->. done.
Qed.

(** ** The structural skip

    [item levels bs]: [bs] is one whole item of the subset, nested at most
    [levels] deep. *)
Inductive item : nat → list byte → Prop :=
| item_uint l v : is_u64 v → item (S l) (cbor_head 0 v)
| item_bytes l v : vec_ok v → item (S l) (cbor_head 2 (len v) ++ v)
| item_text l v : vec_ok v → item (S l) (cbor_head 3 (len v) ++ v)
| item_array l xs :
    Forall (item l) xs → Z.of_nat (length xs) ≤ U64_MAX →
    item (S l) (cbor_head 4 (Z.of_nat (length xs)) ++ concat xs)
| item_map l ps :
    Forall (λ p, item l p.1 ∧ item l p.2) ps → Z.of_nat (length ps) ≤ U64_MAX →
    item (S l) (cbor_head 5 (Z.of_nat (length ps)) ++ concat ((λ p, p.1 ++ p.2) <$> ps))
| item_null l : item (S l) (cbor_head 7 22).

Lemma length_cbor_head_pos major v : (1 ≤ length (cbor_head major v))%nat.
Proof. apply length_head_pos. Qed.

Lemma item_pos l bs : item l bs → (1 ≤ length bs)%nat.
Proof.
  destruct 1; rewrite ?length_app;
    match goal with |- context [cbor_head ?m ?v] => pose proof (length_cbor_head_pos m v) end; lia.
Qed.

Section loops.
Context {E : Type} (turn : rd E unit) (good : list byte → Prop).
Context (good_pos : ∀ bs, good bs → (1 ≤ length bs)%nat).
Context (turn_accepts : ∀ bs, good bs → accepts 0 turn bs tt).
Context (turn_sound : ∀ r r', turn r = (Ok tt, r') → ∃ bs, good bs ∧ consumed r r' bs).

Lemma concat_pos xs : Forall good xs → (length xs ≤ length (concat xs))%nat.
Proof using good_pos.
  induction 1 as [|x xs Hx _ IH]; cbn; [lia|]. rewrite length_app. apply good_pos in Hx. lia.
Qed.

Lemma accepts_loop xs : Forall good xs → accepts 0 (rd_loop (length xs) turn) (concat xs) tt.
Proof using turn_accepts.
  induction 1 as [|x xs Hx _ IH]; cbn [rd_loop length concat]; [apply accepts_ret|].
  eapply accepts_bind; [by apply turn_accepts | done | lia].
Qed.

Lemma loop_sound n r r' :
  rd_loop n turn r = (Ok tt, r') → ∃ xs, length xs = n ∧ Forall good xs ∧ consumed r r' (concat xs).
Proof using turn_sound.
  revert r. induction n as [|n IH]; intros r; cbn [rd_loop].
  { intros [= ->]. exists []. repeat split; [constructor | apply consumed_refl..]. }
  intros ([] & r1 & (x & Hx & Hc)%turn_sound & (xs & <- & Hxs & Hcs)%IH)%rd_bind_ok.
  exists (x :: xs). repeat split; [by constructor | by apply (consumed_trans _ _ _ _ _ Hc Hcs)..].
Qed.

(** No run of the loop outlives the bytes of the message. *)
Lemma loop_bounded n r r' : rd_loop n turn r = (Ok tt, r') → (n ≤ remaining r)%nat.
Proof using turn_sound good_pos.
  intros (xs & <- & Hxs & Hc)%loop_sound. apply concat_pos in Hxs. apply consumed_length in Hc as [? _]. lia.
Qed.

Lemma loop_split n m r :
  rd_loop (n + m) turn r = (rd_loop n turn ;;; rd_loop m turn) r.
Proof using.
  revert r. induction n as [|n IH]; intros r; cbn [Nat.add rd_loop]; [done|].
  unfold rd_bind. destruct (turn r) as [[?|?] r1]; [|done]. rewrite IH. done.
Qed.

(** The capped loop is the loop of the source. *)
Lemma rd_repeat_exact n r : rd_repeat n turn r = rd_loop (Z.to_nat n) turn r.
Proof using turn_sound good_pos.
  unfold rd_repeat. destruct (Z.le_gt_cases n (Z.of_nat (S (remaining r)))) as [Hle|Hgt].
  { by rewrite Z.min_l. }
  rewrite Z.min_r, Nat2Z.id by lia.
  replace (Z.to_nat n) with (S (remaining r) + (Z.to_nat n - S (remaining r)))%nat by lia.
  rewrite loop_split. unfold rd_bind.
  destruct (rd_loop (S (remaining r)) turn r) as [[[]|e] r1] eqn:H; [|done].
  apply loop_bounded in H. lia.
Qed.

Lemma accepts_repeat xs :
  Forall good xs → accepts 0 (rd_repeat (Z.of_nat (length xs)) turn) (concat xs) tt.
Proof using turn_accepts turn_sound good_pos.
  intros Hxs pre suf Hs. rewrite rd_repeat_exact, Nat2Z.id. by apply accepts_loop.
Qed.

Lemma repeat_sound n r r' :
  0 ≤ n → rd_repeat n turn r = (Ok tt, r') →
  ∃ xs, Z.of_nat (length xs) = n ∧ Forall good xs ∧ consumed r r' (concat xs).
Proof using turn_sound good_pos.
  intros Hn. rewrite rd_repeat_exact. intros (xs & Hl & H)%loop_sound. exists xs. split; [lia|done].
Qed.
End loops.

(** Two items in a row, the turn of a map. *)
Definition two_items (l : nat) (bs : list byte) : Prop :=
  ∃ a b, item l a ∧ item l b ∧ bs = a ++ b.

Lemma two_items_pairs l xs :
  Forall (two_items l) xs ↔
  ∃ ps : list (list byte * list byte), xs = (λ p, p.1 ++ p.2) <$> ps ∧ Forall (λ p, item l p.1 ∧ item l p.2) ps.
Proof.
  split.
  - induction 1 as [|x xs (a & b & Ha & Hb & ->) _ (ps & -> & Hps)].
    + by exists [].
    + exists ((a, b) :: ps). split; [done|]. by constructor.
  - intros (ps & -> & Hps). induction Hps as [|[a b] ps [Ha Hb] _ IH]; cbn; constructor; [|done].
    by exists a, b.
Qed.

Section skip.
Context (l : nat).
Context (below_accepts : ∀ bs, item l bs → accepts 0 (skip_item_bounded l) bs tt).
Context (below_sound : ∀ r r', skip_item_bounded l r = (Ok tt, r') → ∃ bs, item l bs ∧ consumed r r' bs).

Lemma two_pos bs : two_items l bs → (1 ≤ length bs)%nat.
Proof using. intros (a & b & Ha & _ & ->). apply item_pos in Ha. rewrite length_app. lia. Qed.

Lemma two_accepts bs :
  two_items l bs → accepts 0 (skip_item_bounded l ;;; skip_item_bounded l) bs tt.
Proof using below_accepts.
  intros (a & b & Ha & Hb & ->). eapply accepts_bind; [by apply below_accepts | by apply below_accepts | lia].
Qed.

Lemma two_sound r r' :
  (skip_item_bounded l ;;; skip_item_bounded l) r = (Ok tt, r') →
  ∃ bs, two_items l bs ∧ consumed r r' bs.
Proof using below_sound.
  intros ([] & r1 & (a & Ha & Hca)%below_sound & (b & Hb & Hcb)%below_sound)%rd_bind_ok.
  exists (a ++ b). split; [by exists a, b | by eapply consumed_trans].
Qed.

Lemma skip_step_accepts bs : item (S l) bs → accepts 0 (skip_item_bounded (S l)) bs tt.
Proof using below_accepts below_sound.
  inversion 1 as [? v Hv|? v Hv|? v Hv|? xs Hxs Hl|? ps Hps Hl|?]; subst; intros pre suf Hs;
    cbn [skip_item_bounded]; rewrite <- ?app_assoc.
  - rewrite r_head_at by (done || lia). by cbn.
  - rewrite r_head_at by (lia || (unfold vec_ok, len in *; unfold is_u64; lia)). cbn -[Z.of_nat].
    unfold left_after. cbn [rd_data]. rewrite (proj2 (Z.ltb_ge _ _)) by (unfold len; rewrite !length_app; lia).
    unfold at_offset, len. cbn [rd_data]. rewrite Nat2Z.id, !length_app. by rewrite Nat.add_assoc.
  - rewrite r_head_at by (lia || (unfold vec_ok, len in *; unfold is_u64; lia)). cbn -[Z.of_nat].
    unfold left_after. cbn [rd_data]. rewrite (proj2 (Z.ltb_ge _ _)) by (unfold len; rewrite !length_app; lia).
    unfold at_offset, len. cbn [rd_data]. rewrite Nat2Z.id, !length_app. by rewrite Nat.add_assoc.
  - rewrite r_head_at by (lia || (unfold is_u64; lia)). cbn -[Z.of_nat rd_repeat cbor_head].
    rewrite at_offset_app.
    rewrite (accepts_repeat _ (item l) (item_pos l) below_accepts below_sound xs Hxs) by lia.
    f_equal. rewrite !length_app, <- !app_assoc. f_equal. lia.
  - rewrite r_head_at by (lia || (unfold is_u64; lia)). cbn -[Z.of_nat rd_repeat cbor_head].
    rewrite at_offset_app.
    set (xs := _ <$> ps). assert (length ps = length xs) as -> by (by unfold xs; rewrite length_fmap).
    rewrite (accepts_repeat _ (two_items l) two_pos two_accepts two_sound xs)
      by (lia || (apply two_items_pairs; by exists ps)).
    f_equal. rewrite !length_app, <- !app_assoc. f_equal. lia.
  - rewrite r_head_at by (lia || int_solve). by cbn.
Qed.

Lemma skip_step_sound r r' :
  skip_item_bounded (S l) r = (Ok tt, r') → ∃ bs, item (S l) bs ∧ consumed r r' bs.
Proof using below_accepts below_sound.
  cbn [skip_item_bounded]. destruct (r_head r) as [[[m v] next]|] eqn:H; [|done].
  apply r_head_sound in H as (Hm & Hv & Hc).
  destruct (Z.eqb_spec m 0) as [->|H0].
  { intros [= <-]. exists (cbor_head 0 v). split; [by constructor | done]. }
  destruct ((m =? 2) || (m =? 3)) eqn:H23.
  { destruct (Z.ltb_spec (left_after r next) v); [done|]. intros [= <-].
    set (r1 := at_offset r next) in *.
    destruct (take_bytes v r1) as [[w|] r2] eqn:Hw; [|done].
    apply take_bytes_sound in Hw as [<- Hcw]; [|unfold left_after, remaining, r1, at_offset in *; cbn; unfold is_u64 in Hv; lia].
    exists (cbor_head m (len w) ++ w). split.
    - apply orb_prop in H23 as [H23|H23]; apply Z.eqb_eq in H23 as ->; constructor; apply Hv.
    - destruct Hcw as [-> Hcw]. eapply consumed_trans; [exact Hc|]. unfold len. rewrite Nat2Z.id. by split. }
  destruct (Z.eqb_spec m 4) as [->|H4].
  { intros (xs & <- & Hxs & Hcs)%(repeat_sound _ (item l) (item_pos l) below_sound); [|apply Hv].
    eexists. split; [apply item_array; [done | apply Hv] | by eapply consumed_trans]. }
  destruct (Z.eqb_spec m 5) as [->|H5].
  { intros (xs & <- & Hxs & Hcs)%(repeat_sound _ (two_items l) two_pos two_sound); [|apply Hv].
    apply two_items_pairs in Hxs as (ps & -> & Hps). rewrite length_fmap in *.
    eexists. split; [apply item_map; [done | apply Hv] | by eapply consumed_trans]. }
  destruct (Z.eqb_spec m 7) as [->|]; [|done].
  destruct (Z.eqb_spec v 22) as [->|]; [|done]. intros [= <-].
  exists (cbor_head 7 22). split; [constructor | done].
Qed.
End skip.

Lemma skip_exact l :
  (∀ bs, item l bs → accepts 0 (skip_item_bounded l) bs tt) ∧
  (∀ r r', skip_item_bounded l r = (Ok tt, r') → ∃ bs, item l bs ∧ consumed r r' bs).
Proof.
  induction l as [|l [IHa IHs]].
  { split; [inversion 1 | by intros ??]. }
  split; [by apply skip_step_accepts | by apply skip_step_sound].
Qed.

(** A value slot: one item, 33 levels at most counting itself. *)
Definition value_ok : list byte → Prop := item (S MAX_SKIP_DEPTH).

#[global] Instance raw_value_codec : WireCodec value_ok id raw_value.
Proof.
  destruct (skip_exact (S MAX_SKIP_DEPTH)) as [Ha Hs]. split.
  - intros bs Hbs pre suf H0. unfold raw_value, skip_item, id. rewrite (Ha bs Hbs pre suf H0).
    cbn [rd_offset rd_data]. rewrite drop_app_length.
    replace (length pre + length bs - length pre)%nat with (length bs) by lia. by rewrite take_app_length.
  - intros r x r'. unfold raw_value, skip_item.
    destruct (skip_item_bounded (S MAX_SKIP_DEPTH) r) as [[[]|] r1] eqn:H; [|done].
    apply Hs in H as (bs & Hbs & Hc). intros [= <- <-].
    assert (take (rd_offset r1 - rd_offset r) (drop (rd_offset r) (rd_data r)) = bs) as ->; [|done].
    destruct Hc as [-> Hr]. unfold rest in Hr. rewrite Hr. cbn.
    replace (rd_offset r + length bs - rd_offset r)%nat with (length bs) by lia. by rewrite take_app_length.
Qed.

(** ** Whole buffers *)
Section whole_buffer.
Context {E A : Type} (f : CborError → E) (wf : A → Prop) (enc : A → list byte) (p : rd E A).
Context `{!WireCodec wf enc p}.

Lemma whole_exact bs x : whole f p bs = Ok x ↔ wf x ∧ enc x = bs.
Proof using All.
  split.
  - unfold whole. destruct ((value <- p ;; _) (rd_new bs)) as [res r'] eqn:H. cbn [fst]. intros ->.
    apply rd_bind_ok in H as (y & r1 & H1 & H).
    apply rd_bind_ok in H as ([] & r2 & H2 & H). injection H as -> ->.
    apply codec_sound in H1 as [Hwf [-> Hrest]]. split; [done|].
    apply rd_map_err_ok in H2. unfold require_end, at_end in H2.
    destruct (Nat.eqb_spec (rd_offset (advance_by (rd_new bs) (length (enc x))))
      (length (rd_data (advance_by (rd_new bs) (length (enc x)))))) as [Hend|]; [|done].
    unfold rest in Hrest. simpl in *. by rewrite Hend, drop_all, app_nil_r in Hrest.
  - intros [Hwf <-]. pose proof (codec_accepts (dec := p) x Hwf [] [] ltac:(cbn; lia)) as Ha.
    rewrite app_nil_l, app_nil_r in Ha. cbn [length Nat.add] in Ha.
    unfold whole, rd_bind, rd_new. rewrite Ha. unfold rd_map_err, require_end, at_end. cbn [rd_data rd_offset].
    by rewrite Nat.eqb_refl.
Qed.
End whole_buffer.

Section slot_codec.
Context {A : Type} (wf : A → Prop) (enc : A → list byte) (p : rd CborError A).
Context `{!WireCodec wf enc p}.

Lemma in_slot_exact slots k x :
  in_slot slots k p = Ok x ↔ wf x ∧ optional_slot slots k = Some (enc x).
Proof using All.
  unfold in_slot, slot. destruct (optional_slot slots k) as [raw|]; cbn [result_bind]; [|naive_solver].
  rewrite (whole_exact id wf enc p). naive_solver.
Qed.

Lemma in_optional_slot_exact slots k o :
  in_optional_slot slots k p = Ok o ↔ from_option wf True o ∧ optional_slot slots k = enc <$> o.
Proof using All.
  unfold in_optional_slot. destruct (optional_slot slots k) as [raw|] eqn:Hs.
  - destruct (in_slot slots k p) as [v|e] eqn:H; cbn [result_bind].
    + apply in_slot_exact in H as [Hv Hr]. rewrite Hs in Hr. injection Hr as ->.
      split; [intros [= <-]; done|]. destruct o as [w|]; [|naive_solver]. cbn. intros [Hw [= Hvw]].
      assert (in_slot slots k p = Ok w) as H1 by (apply in_slot_exact; by rewrite Hs, Hvw).
      assert (in_slot slots k p = Ok v) as H2 by (by apply in_slot_exact). congruence.
    + split; [done|]. destruct o as [w|]; [|naive_solver]. cbn. intros [Hw [= ->]].
      assert (in_slot slots k p = Ok w) as H1 by (by apply in_slot_exact). congruence.
  - destruct o; naive_solver.
Qed.
End slot_codec.

Lemma in_slot_missing {A} slots k (p : rd CborError A) :
  optional_slot slots k = None → in_slot slots k p = Err (MissingKey k).
Proof. intros H. unfold in_slot, slot. by rewrite H. Qed.

(** ** Ascending slots *)
Definition key_lt (p q : pair_t) : Prop := p.1 < q.1.
Definition ascending : list pair_t → Prop := StronglySorted key_lt.

Lemma ascending_NoDup l : ascending l → NoDup (l.*1).
Proof.
  induction 1 as [|p l _ IH Hp]; cbn; constructor; [|done].
  intros (q & Hq & Hin)%list_elem_of_fmap. rewrite Forall_forall in Hp. apply Hp in Hin. unfold key_lt in Hin. lia.
Qed.

Lemma optional_slot_elem l k v : NoDup (l.*1) → optional_slot l k = Some v ↔ (k, v) ∈ l.
Proof.
  induction l as [|[k' v'] l IH]; cbn; intros Hnd; [split; [done|set_solver]|].
  apply NoDup_cons in Hnd as [Hk Hnd]. rewrite elem_of_cons.
  destruct (Z.eqb_spec k' k) as [->|Hne].
  - split; [intros [= ->]; by left|]. intros [[= ->]|Hin]; [done|].
    contradict Hk. by apply (list_elem_of_fmap_2 fst) in Hin.
  - rewrite IH by done. naive_solver.
Qed.

Lemma optional_slot_None l k : optional_slot l k = None ↔ k ∉ l.*1.
Proof.
  induction l as [|[k' v'] l IH]; cbn; [set_solver|].
  destruct (Z.eqb_spec k' k) as [->|Hne]; [set_solver|]. rewrite IH. set_solver.
Qed.

Lemma optional_slot_app l1 l2 k :
  optional_slot (l1 ++ l2) k = match optional_slot l1 k with Some v => Some v | None => optional_slot l2 k end.
Proof. induction l1 as [|[k' v'] l IH]; cbn; [done|]. by destruct (k' =? k). Qed.

Lemma optional_slot_push {T} k0 (enc : T → list byte) o k :
  optional_slot (push_some k0 enc o) k = if k0 =? k then enc <$> o else None.
Proof. destruct o; cbn; [|by destruct (k0 =? k)]. done. Qed.

(** Two ascending lists with the same slots are one list. *)
Lemma ascending_ext l1 l2 :
  ascending l1 → ascending l2 → (∀ k, optional_slot l1 k = optional_slot l2 k) → l1 = l2.
Proof.
  intros H1 H2 Hs. pose proof (ascending_NoDup _ H1) as N1. pose proof (ascending_NoDup _ H2) as N2.
  assert (l1 ≡ₚ l2) as Hp.
  { apply NoDup_Permutation; [by eapply NoDup_fmap_1..|].
    intros [k v]. by rewrite <- !optional_slot_elem, Hs. }
  revert H1 H2 Hp. clear. intros H1 H2 Hp.
  apply (StronglySorted_unique_strong key_lt); [|done..].
  intros a b _ _ Hab Hba. unfold key_lt in *. lia.
Qed.

(** ** Sorting the pairs of a map *)
Definition key_le (p q : pair_t) : Prop := p.1 ≤ q.1.

Lemma insert_by_key_perm p l : insert_by_key p l ≡ₚ p :: l.
Proof.
  induction l as [|q l IH]; cbn; [done|]. destruct (p.1 <=? q.1); [done|].
  rewrite IH. apply Permutation_swap.
Qed.

Lemma sort_by_key_perm l : sort_by_key l ≡ₚ l.
Proof. induction l as [|p l IH]; cbn; [done|]. by rewrite insert_by_key_perm, IH. Qed.

Lemma insert_by_key_sorted p l :
  StronglySorted key_le l → StronglySorted key_le (insert_by_key p l).
Proof.
  induction 1 as [|q l Hs IH Hq]; cbn; [by repeat constructor|].
  destruct (Z.leb_spec p.1 q.1) as [Hle|Hgt].
  - repeat constructor; [done..|]. eapply Forall_impl; [exact Hq|]. unfold key_le. intros. lia.
  - constructor; [done|]. rewrite (insert_by_key_perm p l). constructor; [unfold key_le; lia | done].
Qed.

Lemma sort_by_key_sorted l : StronglySorted key_le (sort_by_key l).
Proof. induction l as [|p l IH]; cbn; [constructor | by apply insert_by_key_sorted]. Qed.

Lemma no_duplicate_key_NoDup l : StronglySorted key_le l → no_duplicate_key l = true ↔ NoDup (l.*1).
Proof.
  induction 1 as [|p l Hs IH Hp]; [by split; [constructor|]|].
  destruct l as [|q l]; [split; [intros; cbn; repeat constructor; set_solver | done]|].
  change (no_duplicate_key (p :: q :: l)) with (negb (p.1 =? q.1) && no_duplicate_key (q :: l)).
  rewrite andb_true_iff, IH, negb_true_iff, Z.eqb_neq. rewrite !fmap_cons, (NoDup_cons p.1).
  enough (p.1 ≠ q.1 ↔ p.1 ∉ q.1 :: l.*1) by naive_solver.
  rewrite not_elem_of_cons. split; [|naive_solver]. intros Hne. split; [done|].
  intros (x & Hx & Hin)%list_elem_of_fmap. inversion Hp as [|? ? Hpq]; subst. inversion Hs as [|? ? _ Hq]; subst.
  rewrite Forall_forall in Hq. apply Hq in Hin. unfold key_le in *. lia.
Qed.

Lemma sort_by_key_ascending l : NoDup (l.*1) → ascending (sort_by_key l).
Proof.
  intros Hnd. assert (NoDup ((sort_by_key l).*1)) as Hnd' by by rewrite sort_by_key_perm.
  revert Hnd'. generalize (sort_by_key_sorted l). generalize (sort_by_key l). clear.
  induction 1 as [|p l Hs IH Hp]; cbn; intros Hnd; constructor.
  - apply IH. by apply NoDup_cons in Hnd as [_ ?].
  - apply Forall_forall. intros q Hq. rewrite Forall_forall in Hp. specialize (Hp q Hq).
    apply NoDup_cons in Hnd as [Hk _]. unfold key_lt, key_le in *.
    assert (p.1 ≠ q.1); [|lia]. intros E. apply Hk. rewrite E. by apply list_elem_of_fmap_2.
Qed.

(** The panic of [map] is a duplicated key and nothing else. *)
Lemma cbor_map_some pairs :
  NoDup (pairs.*1) → cbor_map pairs = Some (pairs_bytes (sort_by_key pairs)).
Proof.
  intros Hnd. unfold cbor_map. rewrite (proj2 (no_duplicate_key_NoDup _ (sort_by_key_sorted pairs))); [done|].
  by rewrite sort_by_key_perm.
Qed.

Lemma cbor_map_panics pairs : cbor_map pairs = None ↔ ¬ NoDup (pairs.*1).
Proof.
  unfold cbor_map. pose proof (no_duplicate_key_NoDup _ (sort_by_key_sorted pairs)) as H.
  assert (NoDup ((sort_by_key pairs).*1) ↔ NoDup (pairs.*1)) as Hp by by rewrite sort_by_key_perm.
  destruct (no_duplicate_key _); naive_solver.
Qed.

Lemma optional_slot_perm l1 l2 k :
  NoDup (l1.*1) → l1 ≡ₚ l2 → optional_slot l1 k = optional_slot l2 k.
Proof.
  intros Hnd Hp. assert (NoDup (l2.*1)) as Hnd2 by by rewrite <- Hp.
  apply option_eq. intros v. by rewrite !optional_slot_elem, Hp.
Qed.

Lemma optional_slot_sort l k : NoDup (l.*1) → optional_slot (sort_by_key l) k = optional_slot l k.
Proof. intros Hnd. symmetry. apply optional_slot_perm; [done|]. by rewrite sort_by_key_perm. Qed.

(** Sorting depends on the slots alone. *)
Lemma sort_by_key_ext l slots :
  NoDup (l.*1) → ascending slots → (∀ k, optional_slot slots k = optional_slot l k) → sort_by_key l = slots.
Proof.
  intros Hnd Ha Hk. apply ascending_ext; [by apply sort_by_key_ascending | done |].
  intros k. by rewrite optional_slot_sort, Hk.
Qed.

(** ** Schema maps as a codec *)
Section schema.
Context (schema : list Z).

Definition pair_ok (p : pair_t) : Prop := p.1 ∈ schema ∧ is_u64 p.1 ∧ value_ok p.2.
Definition slots_ok (l : list pair_t) : Prop :=
  ascending l ∧ Forall pair_ok l ∧ Z.of_nat (length l) ≤ U64_MAX.
Definition follows (previous : option Z) (p : pair_t) : Prop :=
  match previous with Some k => k < p.1 | None => True end.

Lemma accepts_slots l prev :
  ascending l → Forall pair_ok l → Forall (follows prev) l →
  accepts 0 (schema_slots schema (length l) prev) (concat (pair_bytes <$> l)) l.
Proof.
  intros Ha. revert prev. induction Ha as [|[k v] l Ha IH Hk]; intros prev Hok Hf.
  { apply accepts_ret. }
  inversion Hok as [|? ? (Hin & Hu & Hv) Hok']; subst. inversion Hf as [|? ? Hkf _]; subst.
  cbn [length schema_slots fmap list_fmap concat]. unfold pair_bytes at 1. cbn [fst snd]. rewrite <- !app_assoc.
  eapply accepts_bind; [by apply codec_accepts | | lia]. cbn beta.
  assert ((match prev with Some p => k <=? p | None => false end) = false) as ->.
  { destruct prev as [p|]; [|done]. cbn in Hkf. lia. }
  rewrite (proj2 (contains_true schema k)) by done. cbn [negb].
  eapply accepts_bind; [exact (codec_accepts (dec := raw_value) v Hv) | | lia].
  rewrite <- (app_nil_r (concat _)).
  eapply accepts_bind; [apply IH; [done|] | apply accepts_ret | cbn; lia]. exact Hk.
Qed.

Lemma slots_sound n prev r l r' :
  schema_slots schema n prev r = (Ok l, r') →
  length l = n ∧ ascending l ∧ Forall pair_ok l ∧ Forall (follows prev) l
  ∧ consumed r r' (concat (pair_bytes <$> l)).
Proof.
  revert prev r l. induction n as [|n IH]; intros prev r l; cbn [schema_slots].
  { intros [= <- <-]. repeat split; try constructor; apply consumed_refl. }
  intros (k & r1 & Hk & H)%rd_bind_ok. apply codec_sound in Hk as [Hu Hck].
  destruct (match prev with Some p => k <=? p | None => false end) eqn:Hp; [done|].
  destruct (contains schema k) eqn:Hin; cbn [negb] in H; [|done]. apply contains_true in Hin.
  apply rd_bind_ok in H as (v & r2 & Hv & H). apply codec_sound in Hv as [Hv Hcv].
  apply rd_bind_ok in H as (tl & r3 & Htl & H). injection H as <- <-.
  apply IH in Htl as (<- & Ha & Hok & Hf & Hct).
  split; [done|]. split; [constructor; [done|exact Hf]|]. split; [by constructor|].
  assert (follows prev (k, v)) as Hkv by (destruct prev as [p|]; cbn; [lia|done]).
  split.
  - constructor; [done|]. eapply Forall_impl; [exact Hf|]. intros q Hq. destruct prev as [p|]; cbn in *; [lia|done].
  - cbn. unfold pair_bytes at 1. cbn [fst snd]. rewrite <- app_assoc.
    eapply consumed_trans; [exact Hck|]. by eapply consumed_trans.
Qed.

Lemma length_pairs l : Forall pair_ok l → (length l ≤ length (concat (pair_bytes <$> l)))%nat.
Proof.
  intros _. induction l as [|p l IH]; cbn; [lia|]. rewrite length_app. unfold pair_bytes at 1, cbor_uint.
  rewrite length_app. pose proof (length_cbor_head_pos 0 p.1). lia.
Qed.

#[global] Instance schema_map_codec : WireCodec slots_ok pairs_bytes (schema_map schema).
Proof.
  split.
  - intros l (Ha & Hok & Hl). unfold schema_map, r_map_count, pairs_bytes.
    eapply (accepts_bind (length l)); [| apply accepts_slots; [done..|] |].
    + rewrite <- (app_nil_r (cbor_head _ _)).
      eapply accepts_bind; [by apply accepts_counted | | cbn; lia].
      rewrite Nat2Z.id. apply (accepts_weaken 0); [apply accepts_ret | lia].
    + apply Forall_forall. by intros.
    + apply length_pairs in Hok. lia.
  - intros r l r' (n & r1 & Hn & H)%rd_bind_ok.
    apply rd_bind_ok in Hn as (z & r0 & Hz & Hn). injection Hn as <- <-.
    apply counted_sound in Hz as (Hu & Hc & _).
    apply slots_sound in H as (Hl & Ha & Hok & _ & Hcl).
    assert (z = Z.of_nat (length l)) as -> by (unfold is_u64 in Hu; lia).
    split; [split; [done|]; split; [done | apply Hu]|]. by eapply consumed_trans.
Qed.

(** A buffer is accepted as a schema map exactly when it is the encoding of
    ascending slots under keys of the schema. *)
Lemma read_schema_exact data slots :
  read_schema schema data = Ok slots ↔ slots_ok slots ∧ pairs_bytes slots = data.
Proof. apply (whole_exact id slots_ok pairs_bytes (schema_map schema)). Qed.
End schema.

(** ** Records as schema maps

    What the record codecs need: an encoding by [cbor_map] and a reading by
    [read_schema] carry the same slots. *)
Lemma pair_ok_mono s1 s2 p : s1 ⊆ s2 → pair_ok s1 p → pair_ok s2 p.
Proof. intros Hs (Hk & H). split; [by apply Hs | done]. Qed.

Lemma map_of_slots schema data slots pairs :
  read_schema schema data = Ok slots → NoDup (pairs.*1) → pairs.*1 ⊆ schema →
  Forall (λ k, optional_slot slots k = optional_slot pairs k) schema →
  cbor_map pairs = Some data.
Proof.
  intros [(Ha & Hok & _) <-]%read_schema_exact Hnd Hsub Hk. rewrite cbor_map_some by done.
  rewrite (sort_by_key_ext pairs slots); [done..|]. intros k.
  destruct (decide (k ∈ schema)) as [Hin|Hout]; [by rewrite Forall_forall in Hk; apply Hk|].
  rewrite !(proj2 (optional_slot_None _ k)); [done | set_solver |].
  intros (p & -> & Hp)%list_elem_of_fmap. rewrite Forall_forall in Hok. apply Hok in Hp as [Hp _]. done.
Qed.

Lemma slots_of_map schema pairs data :
  cbor_map pairs = Some data → Forall (pair_ok schema) pairs → Z.of_nat (length pairs) ≤ U64_MAX →
  ∃ slots, read_schema schema data = Ok slots ∧ ∀ k, optional_slot slots k = optional_slot pairs k.
Proof.
  intros Hm Hok Hl.
  assert (NoDup (pairs.*1)) as Hnd.
  { apply dec_stable. intros Hnd. by rewrite (proj2 (cbor_map_panics pairs)) in Hm. }
  rewrite cbor_map_some in Hm by done. injection Hm as <-.
  exists (sort_by_key pairs). split.
  - apply read_schema_exact. split; [|done]. split; [by apply sort_by_key_ascending|].
    split; [by rewrite sort_by_key_perm | by rewrite sort_by_key_perm].
  - intros k. by apply optional_slot_sort.
Qed.

(** One buffer, one assignment of slots. *)
Lemma map_slots_inj schema p1 p2 data :
  cbor_map p1 = Some data → cbor_map p2 = Some data →
  Forall (pair_ok schema) p1 → Forall (pair_ok schema) p2 →
  Z.of_nat (length p1) ≤ U64_MAX → Z.of_nat (length p2) ≤ U64_MAX →
  ∀ k, optional_slot p1 k = optional_slot p2 k.
Proof.
  intros H1 H2 Hok1 Hok2 Hl1 Hl2 k.
  destruct (slots_of_map schema p1 data) as (s1 & Hs1 & <-); [done..|].
  destruct (slots_of_map schema p2 data) as (s2 & Hs2 & <-); [done..|]. congruence.
Qed.

(** Two bodies with one encoding stay equal under the same further slots. *)
Lemma cbor_map_extend schema b1 b2 more data :
  cbor_map b1 = Some data → cbor_map b2 = Some data →
  Forall (pair_ok schema) b1 → Forall (pair_ok schema) b2 →
  Z.of_nat (length b1) ≤ U64_MAX → Z.of_nat (length b2) ≤ U64_MAX →
  NoDup ((b1 ++ more).*1) → NoDup ((b2 ++ more).*1) →
  cbor_map (b1 ++ more) = cbor_map (b2 ++ more).
Proof.
  intros H1 H2 Hok1 Hok2 Hl1 Hl2 Hn1 Hn2. rewrite !cbor_map_some by done.
  rewrite (sort_by_key_ext (b1 ++ more) (sort_by_key (b2 ++ more))); [done | done | by apply sort_by_key_ascending |].
  intros k. rewrite optional_slot_sort by done. rewrite !optional_slot_app.
  by rewrite (map_slots_inj schema b1 b2 data).
Qed.

Lemma value_uint v : is_u64 v → value_ok (cbor_uint v).
Proof. apply item_uint. Qed.
Lemma value_bytes v : vec_ok v → value_ok (cbor_bytes v).
Proof. apply item_bytes. Qed.
Lemma value_text v : vec_ok v → value_ok (cbor_text v).
Proof. apply item_text. Qed.

(** A decoded slot holds one item: what a codec wrote there. *)
Lemma whole_raw_value bs x : whole id raw_value bs = Ok x ↔ x = bs ∧ value_ok bs.
Proof. rewrite (whole_exact id value_ok id raw_value). unfold id. naive_solver. Qed.

Definition nested (n : nat) : list byte := replicate n (byte_of_Z 129).

Lemma skip_nested l pre tail :
  ∃ r, skip_item_bounded l (mkReader (pre ++ nested l ++ tail) (length pre)) = (Err TooDeep, r).
Proof.
  revert pre. induction l as [|l IH]; intros pre; [by eexists|].
  cbn [skip_item_bounded nested replicate]. fold (nested l).
  change (pre ++ (byte_of_Z 129 :: nested l) ++ tail) with (pre ++ cbor_head 4 1 ++ (nested l ++ tail)).
  rewrite r_head_at by (lia || int_solve). cbn -[rd_repeat cbor_head skip_item_bounded].
  rewrite at_offset_app. unfold rd_repeat.
  replace (Z.to_nat (Z.min 1 _)) with 1%nat by lia. cbn [rd_loop]. unfold rd_bind.
  destruct (IH (pre ++ cbor_head 4 1)) as [r ->]. by eexists.
Qed.

(** C36. The structural skip accepts exactly the items of the subset nested at
    most 32 levels below the value it starts at: a buffer is one raw value if
    and only if it is such an item, whatever the announced lengths and counts,
    and a run of nested arrays longer than the budget is refused as [TooDeep]
    after the budget's levels, whatever follows it. *)
Theorem raw_value_exactly_bounded_items :
  (∀ data value, whole id raw_value data = Ok value ↔ value = data ∧ item (S MAX_SKIP_DEPTH) data)
  ∧ (∀ n tail, (MAX_SKIP_DEPTH < n)%nat →
       ∃ r, raw_value (rd_new (nested n ++ tail)) = (Err TooDeep, r)).
Proof.
  split; [apply whole_raw_value|]. intros n tail Hn.
  replace n with (S MAX_SKIP_DEPTH + (n - S MAX_SKIP_DEPTH))%nat by lia.
  unfold nested. rewrite replicate_add, <- app_assoc. fold (nested (S MAX_SKIP_DEPTH)).
  destruct (skip_nested (S MAX_SKIP_DEPTH) [] (replicate (n - S MAX_SKIP_DEPTH) (byte_of_Z 129) ++ tail)) as [r Hr].
  exists r. unfold raw_value, skip_item, rd_new. cbn [length app] in Hr. by rewrite Hr.
Qed.

(** Closed, canonical maps: a buffer reads as a map under a schema if and
    only if it is the one encoding of slots in strictly ascending key order,
    every key in the schema and every value one bounded item; and an encoder
    that writes the same slots in any order produces that buffer. *)
Theorem agent_map_canonical schema data slots :
  read_schema schema data = Ok slots ↔
  ascending slots ∧ Forall (pair_ok schema) slots ∧ Z.of_nat (length slots) ≤ U64_MAX
  ∧ ∀ pairs, pairs ≡ₚ slots → cbor_map pairs = Some data.
Proof.
  rewrite read_schema_exact. unfold slots_ok. split.
  - intros [(Ha & Hok & Hl) <-]. split_and!; [done..|]. intros pairs Hp.
    assert (NoDup (pairs.*1)) as Hnd by (rewrite Hp; by apply ascending_NoDup).
    rewrite cbor_map_some, (sort_by_key_ext pairs slots); [done..| |done].
    intros k. symmetry. by apply optional_slot_perm.
  - intros (Ha & Hok & Hl & Hm). specialize (Hm slots (Permutation_refl _)). split; [done|].
    rewrite cbor_map_some in Hm by by apply ascending_NoDup.
    rewrite (sort_by_key_ext slots slots) in Hm by (done || by apply ascending_NoDup). congruence.
Qed.

(** A long head, an unsorted map, a duplicated key, an unknown key and trailing
    bytes, each refused for its own reason. *)
Definition hexed (l : list Z) : list byte := byte_of_Z <$> l.
Lemma schema_refusals :
  read_schema [1; 2] (hexed [162; 1; 8; 2; 9]) = Ok [(1, hexed [8]); (2, hexed [9])]
  ∧ read_schema [1; 2] (hexed [162; 2; 9; 1; 8]) = Err (MapKeysNotAscending 2 1)
  ∧ read_schema [1; 2] (hexed [162; 1; 9; 1; 8]) = Err (MapKeysNotAscending 1 1)
  ∧ read_schema [1; 2] (hexed [161; 3; 9]) = Err (UnknownKey 3)
  ∧ read_schema [1; 2] (hexed [161; 1; 24; 9]) = Err NonCanonicalInteger
  ∧ read_schema [1; 2] (hexed [161; 1; 9; 0]) = Err (Trailing 1)
  ∧ read_schema [1; 2] (hexed [161; 1; 155; 255; 255; 255; 255; 255; 255; 255; 255; 0]) = Err Truncated.
Proof. by vm_compute. Qed.

(** ** Arrays *)
Definition agent_array_head (n : nat) : list byte := cbor_head 4 (Z.of_nat n).

Lemma cbor_array_unfold items : cbor_array items = agent_array_head (length items) ++ concat items.
Proof. done. Qed.

Lemma accepts_array_count n : Z.of_nat n ≤ U64_MAX → accepts n r_array_count (agent_array_head n) n.
Proof.
  intros Hn. unfold r_array_count. rewrite <- (app_nil_r (agent_array_head n)).
  eapply accepts_bind; [by apply accepts_counted | | cbn; lia].
  rewrite Nat2Z.id. apply (accepts_weaken 0); [apply accepts_ret | lia].
Qed.

Lemma array_count_sound r n r' :
  r_array_count r = (Ok n, r') → Z.of_nat n ≤ U64_MAX ∧ consumed r r' (agent_array_head n).
Proof.
  intros (z & r1 & (Hu & Hc & _)%counted_sound & H)%rd_bind_ok. injection H as <- <-.
  unfold agent_array_head, is_u64 in *. rewrite Z2Nat.id by lia. split; [lia | done].
Qed.

Lemma length_cbor_array_pos items : (1 ≤ length (cbor_array items))%nat.
Proof. unfold cbor_array. rewrite length_app. pose proof (length_cbor_head_pos 4 (Z.of_nat (length items))). lia. Qed.
Lemma length_cbor_bytes_pos v : (1 ≤ length (cbor_bytes v))%nat.
Proof. unfold cbor_bytes. rewrite length_app. pose proof (length_cbor_head_pos 2 (len v)). lia. Qed.
Lemma length_cbor_text_pos v : (1 ≤ length (cbor_text v))%nat.
Proof. unfold cbor_text. rewrite length_app. pose proof (length_cbor_head_pos 3 (len v)). lia. Qed.
Lemma length_cbor_uint_pos v : (1 ≤ length (cbor_uint v))%nat.
Proof. apply length_cbor_head_pos. Qed.

(** An array whose reader first learns the count and then reads on. *)
Lemma accepts_counted_items {E A} (f : CborError → E) items (k : nat → rd E A) x :
  Forall (λ i, (1 ≤ length i)%nat) items → Z.of_nat (length items) ≤ U64_MAX →
  accepts 0 (k (length items)) (concat items) x →
  accepts 0 (n <- rd_map_err f r_array_count ;; k n) (cbor_array items) x.
Proof.
  intros Hi Hn Hk. rewrite cbor_array_unfold.
  eapply (accepts_bind (length items) 0); [by apply accepts_map_err, accepts_array_count | done |].
  enough (length items ≤ length (concat items))%nat by lia.
  clear -Hi. induction Hi; cbn; [lia|]. rewrite length_app. lia.
Qed.

(** A counted list whose count is checked by [fits] before any item is read. *)
Lemma counted_list_codec {E A} (f : CborError → E) (fits : nat → bool) (err : nat → E)
    (wf : A → Prop) (enc : A → list byte) (dec : rd E A) :
  WireCodec wf enc dec → (∀ x, (1 ≤ length (enc x))%nat) →
  WireCodec (λ l, Forall wf l ∧ fits (length l) = true ∧ Z.of_nat (length l) ≤ U64_MAX) (λ l, cbor_array (enc <$> l))
    (count <- rd_map_err f r_array_count ;;
     if fits count then rd_times count dec else rd_fail (err count)).
Proof.
  intros Hcodec Hpos. split.
  - intros l (Hf & Hfit & Hn). apply accepts_counted_items.
    + apply Forall_forall. intros i (x & -> & _)%list_elem_of_fmap. apply Hpos.
    + by rewrite length_fmap.
    + rewrite length_fmap, Hfit. by apply (accepts_times wf enc dec).
  - intros r l r' Hd. apply rd_bind_ok in Hd as (count & r1 & Hh & Hd).
    apply rd_map_err_ok, array_count_sound in Hh as [Hn Hh].
    destruct (fits count) eqn:Hfit; [|done].
    apply (times_sound wf enc dec) in Hd as (<- & Hf & Hc). split; [done|].
    rewrite cbor_array_unfold, length_fmap. by eapply consumed_trans.
Qed.

(** [let count = r.array_count()?; for _ in 0..count { out.push(item(r)?) }]. *)
Definition r_list {A} (dec : rd CborError A) : rd CborError (list A) :=
  count <- r_array_count ;; rd_times count dec.

Lemma r_list_codec {A} (wf : A → Prop) enc (dec : rd CborError A) :
  WireCodec wf enc dec → (∀ x, (1 ≤ length (enc x))%nat) →
  WireCodec (list_ok wf) (λ l, cbor_array (enc <$> l)) (r_list dec).
Proof.
  intros Hc Hp. pose proof (counted_list_codec id (λ _, true) (λ _, Truncated) wf enc dec Hc Hp) as [Ha Hs].
  assert (∀ r, r_list dec r = (count <- rd_map_err id r_array_count ;;
     if true then rd_times count dec else rd_fail Truncated) r) as Heq.
  { intros r. unfold r_list, rd_bind, rd_map_err. by destruct (r_array_count r) as [[?|?] ?]. }
  split.
  - intros l [Hf Hl] pre suf H. rewrite Heq. by apply Ha.
  - intros r l r'. rewrite Heq. intros H%Hs. unfold list_ok. naive_solver.
Qed.
#[global] Instance text_list_codec : WireCodec (list_ok text_ok) (λ l, cbor_array (cbor_text <$> l)) (r_list r_text).
Proof. apply r_list_codec; [apply _ | apply length_cbor_text_pos]. Qed.
#[global] Instance scope_list_codec :
  WireCodec (list_ok (λ v, length v = 32%nat)) (λ l, cbor_array (cbor_bytes <$> l)) (r_list (r_bytes_exact 32)).
Proof. apply r_list_codec; [apply _ | apply length_cbor_bytes_pos]. Qed.

(** ** Steps of a record decode *)
Definition is_some {A} (o : option A) : bool := match o with Some _ => true | None => false end.
Definition ok_or {E A} (o : option A) (e : E) : result E A :=
  match o with Some x => Ok x | None => Err e end.

Lemma ok_or_ok {E A} (o : option A) (e : E) x : ok_or o e = Ok x ↔ o = Some x.
Proof. destruct o; cbn; naive_solver. Qed.

Lemma in_slot_ok {A} {wf : A → Prop} {enc} {p : rd CborError A} `{!WireCodec wf enc p} slots k x :
  optional_slot slots k = Some (enc x) → wf x → in_slot slots k p = Ok x.
Proof. intros Hk Hx. by apply (in_slot_exact wf enc p). Qed.

Lemma in_optional_slot_ok {A} {wf : A → Prop} {enc} {p : rd CborError A} `{!WireCodec wf enc p} slots k o :
  optional_slot slots k = enc <$> o → from_option wf True o → in_optional_slot slots k p = Ok o.
Proof. intros Hk Hx. by apply (in_optional_slot_exact wf enc p). Qed.

Lemma in_slot_inv {A} {wf : A → Prop} {enc} {p : rd CborError A} `{!WireCodec wf enc p} slots k x :
  in_slot slots k p = Ok x → wf x ∧ optional_slot slots k = Some (enc x).
Proof. apply in_slot_exact, _. Qed.

Lemma in_optional_slot_inv {A} {wf : A → Prop} {enc} {p : rd CborError A} `{!WireCodec wf enc p} slots k o :
  in_optional_slot slots k p = Ok o → from_option wf True o ∧ optional_slot slots k = enc <$> o.
Proof. apply in_optional_slot_exact, _. Qed.

(** Inverts one step of a successful decode. *)
Ltac decode_step H :=
  lazymatch type of H with
  | result_bind (map_err _ (in_slot _ _ _)) _ = Ok _ =>
      let Hs := fresh "Hs" in let Hw := fresh "Hw" in
      apply result_bind_ok in H as (? & Hs & H); apply map_err_ok, in_slot_inv in Hs as [Hw Hs]
  | result_bind (map_err _ (in_optional_slot _ _ _)) _ = Ok _ =>
      let Hs := fresh "Hs" in let Hw := fresh "Hw" in
      apply result_bind_ok in H as (? & Hs & H); apply map_err_ok, in_optional_slot_inv in Hs as [Hw Hs]
  | result_bind (ok_or _ _) _ = Ok _ =>
      let Hs := fresh "Hs" in apply result_bind_ok in H as (? & Hs & H); apply ok_or_ok in Hs
  | result_bind (map_err _ _) _ = Ok _ =>
      let Hs := fresh "Hs" in apply result_bind_ok in H as (? & Hs & H); apply map_err_ok in Hs
  | result_bind _ _ = Ok _ => let Hs := fresh "Hs" in apply result_bind_ok in H as (? & Hs & H)
  | (if ?b then _ else Err _) = Ok _ => let Hb := fresh "Hb" in destruct b eqn:Hb; [|done]
  end.

(** Runs one slot of a decode whose slots are known. *)
Ltac read_slot :=
  lazymatch goal with
  | H : optional_slot ?s ?k = _ |- result_bind (map_err _ (in_slot ?s ?k _)) _ = _ =>
      erewrite in_slot_ok; [|exact H|]; [cbn [map_err result_bind]|]
  | H : optional_slot ?s ?k = _ |- result_bind (map_err _ (in_optional_slot ?s ?k _)) _ = _ =>
      erewrite in_optional_slot_ok; [|exact H|]; [cbn [map_err result_bind]|]
  end; [|first [eassumption | done | idtac]].

(** The slots read and the slots written agree, key by key. *)
Ltac slots_agree :=
  repeat (apply Forall_cons; split; [etransitivity; [eassumption | symmetry; eassumption]|]);
  apply Forall_nil; exact I.

(** The pairs of an encoder: keys of the schema, each value one item. *)
Lemma pairs_ok_intro schema pairs :
  pairs.*1 ⊆ schema → Forall is_u64 schema → Forall (λ p, value_ok p.2) pairs → Forall (pair_ok schema) pairs.
Proof.
  intros Hs Hu Hv. rewrite Forall_forall in Hu. rewrite Forall_forall in Hv. apply Forall_forall. intros p Hp.
  assert (p.1 ∈ schema) by by apply Hs, list_elem_of_fmap_2. repeat split; [done | by apply Hu.. | by apply Hv].
Qed.

Lemma push_values {T} k (enc : T → list byte) o :
  from_option (λ x, value_ok (enc x)) True o → Forall (λ p, value_ok p.2) (push_some k enc o).
Proof. destruct o; cbn; repeat constructor; done. Qed.

Ltac each_pair :=
  repeat first [apply Forall_app; split | apply Forall_cons; split | apply Forall_nil; exact I];
  cbn [snd];
  lazymatch goal with
  | |- value_ok (cbor_uint _) => apply value_uint
  | |- value_ok (cbor_bytes _) => apply value_bytes
  | |- value_ok (cbor_text _) => apply value_text
  | |- Forall _ (push_some _ _ _) => apply push_values
  | _ => idtac
  end; try assumption.

(** Arrays whose count is known once it is read. *)
Ltac items_pos :=
  repeat first [apply Forall_cons; split | apply Forall_nil; exact I];
  first [apply length_cbor_uint_pos | apply length_cbor_text_pos | apply length_cbor_bytes_pos | apply length_cbor_array_pos].

Ltac count_sound H Hn :=
  let Hc := fresh "Hc" in
  apply rd_bind_ok in H as (? & ? & Hc & H); try apply rd_map_err_ok in Hc; apply array_count_sound in Hc as [_ Hc];
  cbv beta in H;
  lazymatch type of H with (if negb ?b then _ else _) _ = _ => destruct b eqn:Hn; cbn [negb] in H; [|done] end.

Ltac array_chain :=
  rewrite !cbor_array_unfold; cbn [length concat app]; rewrite <- ?app_assoc, ?app_nil_r;
  repeat first [eassumption | apply consumed_refl | eapply consumed_trans; [eassumption|]].

Lemma width_ok n (v : list byte) : length v = n → Z.of_nat n ≤ U64_MAX → vec_ok v.
Proof. intros <-. done. Qed.

(** ** Signatures

    [VerifyingKey::from_bytes] and [Verifier::verify] of the [ed25519-dalek]
    crate, as the agent records call them; a key is named by its 32 bytes. *)
Class AgentEd25519 : Type := {
  key_from_bytes : list byte → bool;
  key_verify : list byte → list byte → list byte → bool
}.

(** A principal that is not a key and a signature of the wrong length are both
    an invalid signature. *)
Definition verify_under `{AgentEd25519} (principal sig message : list byte) : bool :=
  (length principal =? 32)%nat && (length sig =? 64)%nat
  && key_from_bytes principal && key_verify principal message sig.

(** ** Signed records

    What the four agent records have in common: a record is the schema map of
    its body, which the signature covers, and of the slots the signature does
    not cover. [strip] empties the signature. *)
Class SignedRecord {E R : Type} (schema : list Z) (ok : R → Prop) (body tail : R → list pair_t)
    (decode : list byte → result E R) (strip : R → R) : Prop := {
  signed_codec : ∀ data r, decode data = Ok r ↔ ok r ∧ cbor_map (body r ++ tail r) = Some data;
  signed_keys : ∀ r, NoDup ((body r ++ tail r).*1);
  signed_body : ∀ r, ok r → Forall (pair_ok schema) (body r) ∧ Z.of_nat (length (body r)) ≤ U64_MAX;
  strip_ok : ∀ r, ok r → ok (strip r);
  strip_body : ∀ r, body (strip r) = body r;
  strip_tail : ∀ r1 r2, cbor_map (body r1) = cbor_map (body r2) → tail (strip r1) = tail (strip r2)
}.

Section signed_records.
Context {E R : Type} {schema : list Z} {ok : R → Prop} {body tail : R → list pair_t}.
Context {decode : list byte → result E R} {strip : R → R}.
Context {SR : SignedRecord schema ok body tail decode strip}.

Lemma signed_encodes r : is_Some (cbor_map (body r ++ tail r)) ∧ is_Some (cbor_map (body r)).
Proof using Type*.
  pose proof (signed_keys r) as Hnd. split; [by rewrite cbor_map_some|].
  rewrite cbor_map_some; [done|]. rewrite fmap_app in Hnd. by apply NoDup_app in Hnd as [? _].
Qed.

(** The signed bytes determine the record up to its signature. *)
Lemma signed_input_inj r1 r2 :
  ok r1 → ok r2 → cbor_map (body r1) = cbor_map (body r2) → strip r1 = strip r2.
Proof using Type*.
  intros H1 H2 Heq. destruct (signed_encodes r1) as [_ [d Hd]].
  destruct (signed_body r1 H1) as [B1 L1]. destruct (signed_body r2 H2) as [B2 L2].
  assert (cbor_map (body (strip r1) ++ tail (strip r1)) = cbor_map (body (strip r2) ++ tail (strip r2))) as He.
  { pose proof (signed_keys (strip r1)) as N1. pose proof (signed_keys (strip r2)) as N2.
    assert (tail (strip r1) = tail (strip r2)) as Ht by by apply SR.
    assert (∀ r, body (strip r) = body r) as Hb by apply SR.
    rewrite Ht, !Hb in N1 |- *. rewrite !Hb in N2.
    apply (cbor_map_extend schema _ _ _ d); congruence. }
  destruct (signed_encodes (strip r1)) as [[e He1] _].
  pose proof (proj2 (signed_codec e (strip r1)) (conj (strip_ok r1 H1) He1)) as D1. rewrite He in He1.
  pose proof (proj2 (signed_codec e (strip r2)) (conj (strip_ok r2 H2) He1)) as D2. congruence.
Qed.
End signed_records.

(** Two kinds of record whose signed bytes coincide carry the same slots. *)
Lemma signed_slots_agree {E1 R1 E2 R2 : Type} {s1 s2 : list Z} {ok1 : R1 → Prop} {ok2 : R2 → Prop}
    {body1 tail1 body2 tail2} {dec1 : list byte → result E1 R1} {dec2 : list byte → result E2 R2} {strip1 strip2}
    `{!SignedRecord s1 ok1 body1 tail1 dec1 strip1} `{!SignedRecord s2 ok2 body2 tail2 dec2 strip2} r1 r2 :
  ok1 r1 → ok2 r2 → cbor_map (body1 r1) = cbor_map (body2 r2) →
  ∀ k, optional_slot (body1 r1) k = optional_slot (body2 r2) k.
Proof.
  intros H1 H2 Heq. destruct (signed_encodes r1) as [_ [d Hd]].
  destruct (signed_body r1 H1) as [B1 L1]. destruct (signed_body r2 H2) as [B2 L2].
  apply (map_slots_inj (s1 ++ s2) _ _ d); [done | congruence | | | done | done].
  - eapply Forall_impl; [exact B1|]. intros p. apply pair_ok_mono. set_solver.
  - eapply Forall_impl; [exact B2|]. intros p. apply pair_ok_mono. set_solver.
Qed.
