(* ===== verification/AgentLifecycle.v ===== *)
(** * Agent lifecycle records and leases

    Models [backend/weald-mls/src/agent_lifecycle.rs]: the [agent.lifecycle]
    record a host signs for each step of an invocation, the [agent.lease] a
    host holds an agent under, their closed vocabularies, their codecs as
    schema maps and the signature check both share. Text is its UTF-8 bytes. *)

From Stdlib Require Import ZArith Lia String.
From stdpp Require Import base tactics numbers sorting sets list.
From S2P Require Import Prelude Cbor Push AgentCbor.

Open Scope Z_scope.

Definition INVOCATION_ID_WIDTH : nat := 16.
Definition RESULT_MESSAGE_ID_WIDTH : nat := 16.
Definition AGENT_ID_WIDTH : nat := 32.
Definition DETAIL_BYTE_LIMIT : nat := 512.

Definition LIFECYCLE_REASONS : list (list byte) := ascii_bytes <$>
  ["version.unsupported"; "profile.stale"; "scope.notmember"; "scope.unassigned";
   "delegation.missing"; "delegation.expired"; "capability.denied"; "policy.remote.disabled";
   "budget.rate"; "budget.cost"; "tool.tier"; "deadline.passed"; "host.offline"; "lease.notheld";
   "agent.revoked"; "org.suspended"; "org.quota"; "provider.auth"; "provider.ratelimited";
   "provider.overloaded"; "provider.badrequest"; "provider.context"; "provider.filtered";
   "provider.model"; "provider.transport"; "provider.malformed"; "repo.unbound";
   "branch.protected"; "config.untrusted"; "egress.refused"; "budget.reached";
   "source.unsupported"; "patch.invalid"; "base.stale"; "tests.failed"; "github.auth";
   "github.ratelimited"; "github.transport"; "runner.unavailable"; "handoff.orphan";
   "handoff.depth"]%string.

(** [pub mod key]: the slots of a lifecycle record. *)
Definition LK_V : Z := 1.
Definition LK_INVOCATION_ID : Z := 2.
Definition LK_STATE : Z := 3.
Definition LK_AT : Z := 4.
Definition LK_HOST : Z := 5.
Definition LK_REASON : Z := 6.
Definition LK_DETAIL : Z := 7.
Definition LK_RESULT_MESSAGE_ID : Z := 8.
Definition LK_SIG : Z := 9.
Definition LK_PHASE : Z := 10.
Definition LIFECYCLE_SCHEMA : list Z :=
  [LK_V; LK_INVOCATION_ID; LK_STATE; LK_AT; LK_HOST; LK_REASON; LK_DETAIL; LK_RESULT_MESSAGE_ID; LK_SIG; LK_PHASE].

Inductive Phase : Type := Claiming | Checkout | Planning | Editing | Testing | Pushing.
#[global] Instance Phase_eq_dec : EqDecision Phase.
Proof. solve_decision. Defined.

Definition phase_as_str (p : Phase) : list byte :=
  ascii_bytes match p with
  | Claiming => "claiming" | Checkout => "checkout" | Planning => "planning"
  | Editing => "editing" | Testing => "testing" | Pushing => "pushing"
  end%string.

Definition phase_parse (raw : list byte) : option Phase :=
  if decide (raw = ascii_bytes "claiming") then Some Claiming
  else if decide (raw = ascii_bytes "checkout") then Some Checkout
  else if decide (raw = ascii_bytes "planning") then Some Planning
  else if decide (raw = ascii_bytes "editing") then Some Editing
  else if decide (raw = ascii_bytes "testing") then Some Testing
  else if decide (raw = ascii_bytes "pushing") then Some Pushing
  else None.

(** [pub mod lease_key]. *)
Definition SK_V : Z := 1.
Definition SK_AGENT_ID : Z := 2.
Definition SK_HOLDER : Z := 3.
Definition SK_EPOCH : Z := 4.
Definition SK_ACQUIRED_AT : Z := 5.
Definition SK_EXPIRES_AT : Z := 6.
Definition SK_SIG : Z := 7.
Definition LEASE_SCHEMA : list Z :=
  [SK_V; SK_AGENT_ID; SK_HOLDER; SK_EPOCH; SK_ACQUIRED_AT; SK_EXPIRES_AT; SK_SIG].

Inductive State : Type := Accepted | Running | Completed | Failed | Declined | Expired | Cancelled.
#[global] Instance State_eq_dec : EqDecision State.
Proof. solve_decision. Defined.

Definition state_raw (s : State) : Z :=
  match s with
  | Accepted => 1 | Running => 2 | Completed => 3 | Failed => 4 | Declined => 5 | Expired => 6 | Cancelled => 7
  end.
Definition state_parse (raw : Z) : option State :=
  if raw =? 1 then Some Accepted
  else if raw =? 2 then Some Running
  else if raw =? 3 then Some Completed
  else if raw =? 4 then Some Failed
  else if raw =? 5 then Some Declined
  else if raw =? 6 then Some Expired
  else if raw =? 7 then Some Cancelled
  else None.
Definition is_terminal (s : State) : bool :=
  negb match s with Accepted | Running => true | _ => false end.
Definition requires_reason (s : State) : bool :=
  match s with Failed | Declined | Expired => true | _ => false end.

Record AgentLifecycle : Type := mkLifecycle {
  lc_v : Z;
  lc_invocation_id : list byte;
  lc_state : State;
  lc_at : Z;
  lc_host : list byte;
  lc_reason : option (list byte);
  lc_detail : option (list byte);
  lc_result_message_id : option (list byte);
  lc_phase : option Phase;
  lc_sig : list byte
}.

Record AgentLease : Type := mkLease {
  ls_v : Z;
  ls_agent_id : list byte;
  ls_holder : list byte;
  ls_epoch : Z;
  ls_acquired_at : Z;
  ls_expires_at : Z;
  ls_sig : list byte
}.

Inductive LifecycleError : Type :=
| LcCbor (error : CborError)
| UnknownState (raw : Z)
| UnknownReason (raw : list byte)
| ReasonMismatch (state : State) (present : bool)
| ResultMismatch (state : State) (present : bool)
| DetailTooLong (bytes : nat)
| UnknownPhase (raw : list byte)
| PhaseMismatch (state : State) (present : bool)
| EmptyWindow (acquired_at expires_at : Z)
| LcSignatureInvalid.

Definition lifecycle_reason (e : LifecycleError) : string :=
  match e with
  | LcCbor inner => reason inner
  | UnknownState _ => "codec.state.unknown"
  | UnknownReason _ => "codec.reason.unknown"
  | ReasonMismatch _ _ => "codec.reason.mismatch"
  | ResultMismatch _ _ => "codec.result.mismatch"
  | DetailTooLong _ => "codec.detail.toolong"
  | UnknownPhase _ => "codec.phase.unknown"
  | PhaseMismatch _ _ => "codec.phase.mismatch"
  | EmptyWindow _ _ => "codec.lease.window"
  | LcSignatureInvalid => "codec.signature.invalid"
  end.

(** [From<CborError>] behind [?]. *)
Abbreviation lcbor := (map_err LcCbor).

(** ** The lifecycle codec *)
Definition lifecycle_body_pairs (r : AgentLifecycle) : list pair_t :=
  [(LK_V, cbor_uint (lc_v r));
   (LK_INVOCATION_ID, cbor_bytes (lc_invocation_id r));
   (LK_STATE, cbor_uint (state_raw (lc_state r)));
   (LK_AT, cbor_uint (lc_at r));
   (LK_HOST, cbor_bytes (lc_host r))]
  ++ push_some LK_REASON cbor_text (lc_reason r)
  ++ push_some LK_DETAIL cbor_text (lc_detail r)
  ++ push_some LK_RESULT_MESSAGE_ID cbor_bytes (lc_result_message_id r)
  ++ push_some LK_PHASE (λ p, cbor_text (phase_as_str p)) (lc_phase r).

Definition lifecycle_signing_input (r : AgentLifecycle) : option (list byte) :=
  cbor_map (lifecycle_body_pairs r).
Definition lifecycle_pairs (r : AgentLifecycle) : list pair_t :=
  lifecycle_body_pairs r ++ [(LK_SIG, cbor_bytes (lc_sig r))].
Definition lifecycle_encode (r : AgentLifecycle) : option (list byte) := cbor_map (lifecycle_pairs r).

(** The reasons only a coding run may fail with. *)
Definition CODING_REASONS : list (list byte) := ascii_bytes <$>
  ["branch.protected"; "config.untrusted"; "egress.refused"; "budget.reached"; "source.unsupported";
   "patch.invalid"; "base.stale"; "tests.failed"; "github.auth"; "github.ratelimited";
   "github.transport"; "runner.unavailable"]%string.

Definition reason_legal (raw : list byte) (state : State) : bool :=
  if bool_decide (raw = ascii_bytes "repo.unbound") then bool_decide (state = Declined)
  else if contains CODING_REASONS raw then bool_decide (state = Failed)
  else requires_reason state.

Definition lifecycle_decode (data : list byte) : result LifecycleError AgentLifecycle :=
  let? slots := lcbor (read_schema LIFECYCLE_SCHEMA data) in
  let? state_raw := lcbor (in_slot slots LK_STATE r_uint) in
  let? state := ok_or (state_parse state_raw) (UnknownState state_raw) in
  let? reason := lcbor (in_optional_slot slots LK_REASON r_text) in
  check! (match reason with Some raw => contains LIFECYCLE_REASONS raw | None => true end)
    else UnknownReason (default [] reason) in
  check! Bool.eqb (requires_reason state) (is_some reason)
    else ReasonMismatch state (is_some reason) in
  check! (match reason with Some raw => reason_legal raw state | None => true end)
    else ReasonMismatch state true in
  let? phase_raw := lcbor (in_optional_slot slots LK_PHASE r_text) in
  let? phase := match phase_raw with
                | Some raw => let? p := ok_or (phase_parse raw) (UnknownPhase raw) in Ok (Some p)
                | None => Ok None
                end in
  check! negb (is_some phase && negb (bool_decide (state = Running))) else PhaseMismatch state true in
  let? detail := lcbor (in_optional_slot slots LK_DETAIL r_text) in
  check! (match detail with Some raw => (length raw <=? DETAIL_BYTE_LIMIT)%nat | None => true end)
    else DetailTooLong (length (default [] detail)) in
  let? result_message_id :=
    lcbor (in_optional_slot slots LK_RESULT_MESSAGE_ID (r_bytes_exact RESULT_MESSAGE_ID_WIDTH)) in
  check! Bool.eqb (bool_decide (state = Completed)) (is_some result_message_id)
    else ResultMismatch state (is_some result_message_id) in
  let? v := lcbor (in_slot slots LK_V r_uint) in
  let? invocation_id := lcbor (in_slot slots LK_INVOCATION_ID (r_bytes_exact INVOCATION_ID_WIDTH)) in
  let? at_ := lcbor (in_slot slots LK_AT r_uint) in
  let? host := lcbor (in_slot slots LK_HOST r_bytes) in
  let? sig := lcbor (in_slot slots LK_SIG r_bytes) in
  Ok (mkLifecycle v invocation_id state at_ host reason detail result_message_id phase sig).

(** ** The lease codec *)
Definition lease_body_pairs (l : AgentLease) : list pair_t :=
  [(SK_V, cbor_uint (ls_v l));
   (SK_AGENT_ID, cbor_bytes (ls_agent_id l));
   (SK_HOLDER, cbor_bytes (ls_holder l));
   (SK_EPOCH, cbor_uint (ls_epoch l));
   (SK_ACQUIRED_AT, cbor_uint (ls_acquired_at l));
   (SK_EXPIRES_AT, cbor_uint (ls_expires_at l))].
Definition lease_signing_input (l : AgentLease) : option (list byte) := cbor_map (lease_body_pairs l).
Definition lease_pairs (l : AgentLease) : list pair_t :=
  lease_body_pairs l ++ [(SK_SIG, cbor_bytes (ls_sig l))].
Definition lease_encode (l : AgentLease) : option (list byte) := cbor_map (lease_pairs l).

Definition lease_decode (data : list byte) : result LifecycleError AgentLease :=
  let? slots := lcbor (read_schema LEASE_SCHEMA data) in
  let? acquired_at := lcbor (in_slot slots SK_ACQUIRED_AT r_uint) in
  let? expires_at := lcbor (in_slot slots SK_EXPIRES_AT r_uint) in
  check! negb (expires_at <=? acquired_at) else EmptyWindow acquired_at expires_at in
  let? v := lcbor (in_slot slots SK_V r_uint) in
  let? agent_id := lcbor (in_slot slots SK_AGENT_ID (r_bytes_exact AGENT_ID_WIDTH)) in
  let? holder := lcbor (in_slot slots SK_HOLDER r_bytes) in
  let? epoch := lcbor (in_slot slots SK_EPOCH r_uint) in
  let? sig := lcbor (in_slot slots SK_SIG r_bytes) in
  Ok (mkLease v agent_id holder epoch acquired_at expires_at sig).

(** ** Signatures *)
Section signatures.
Context `{AgentEd25519}.

(** [verify_under(principal, sig, message)]; the encoder of the signed bytes
    does not panic ([lifecycle_encodes], [lease_encodes]). *)
Definition verify_signed (principal sig : list byte) (message : option (list byte)) : result LifecycleError unit :=
  if verify_under principal sig (default [] message) then Ok tt else Err LcSignatureInvalid.

Definition lifecycle_verify (r : AgentLifecycle) : result LifecycleError unit :=
  verify_signed (lc_host r) (lc_sig r) (lifecycle_signing_input r).
Definition lifecycle_decode_verified (data : list byte) : result LifecycleError AgentLifecycle :=
  let? r := lifecycle_decode data in let? _ := lifecycle_verify r in Ok r.

Definition lease_verify (l : AgentLease) : result LifecycleError unit :=
  verify_signed (ls_holder l) (ls_sig l) (lease_signing_input l).
Definition lease_decode_verified (data : list byte) : result LifecycleError AgentLease :=
  let? l := lease_decode data in let? _ := lease_verify l in Ok l.
End signatures.

(** ** Vocabularies *)
Lemma state_parse_raw s : state_parse (state_raw s) = Some s.
Proof. by destruct s. Qed.
Lemma state_raw_parse n s : state_parse n = Some s → n = state_raw s.
Proof. unfold state_parse. repeat case_match; intros [= <-]; cbn; lia. Qed.
Lemma phase_parse_str p : phase_parse (phase_as_str p) = Some p.
Proof. by destruct p. Qed.
Lemma phase_str_parse raw p : phase_parse raw = Some p → raw = phase_as_str p.
Proof. unfold phase_parse. repeat case_decide; intros [= <-]; done. Qed.

Lemma phase_text_ok p : text_ok (phase_as_str p).
Proof. destruct p; by vm_compute. Qed.
Lemma state_u64 s : is_u64 (state_raw s).
Proof. destruct s; by vm_compute. Qed.
Lemma reason_text_ok raw : raw ∈ LIFECYCLE_REASONS → text_ok raw.
Proof.
  assert (Forall (λ v, len v <= U64_MAX ∧ utf8_valid v = true) LIFECYCLE_REASONS) as H by (repeat constructor; by vm_compute).
  rewrite Forall_forall in H. apply H.
Qed.

(** ** What a decoded record satisfies *)
Definition lifecycle_ok (r : AgentLifecycle) : Prop :=
  is_u64 (lc_v r) ∧ length (lc_invocation_id r) = INVOCATION_ID_WIDTH ∧ is_u64 (lc_at r)
  ∧ vec_ok (lc_host r) ∧ vec_ok (lc_sig r)
  ∧ from_option (λ raw, raw ∈ LIFECYCLE_REASONS ∧ reason_legal raw (lc_state r) = true) True (lc_reason r)
  ∧ requires_reason (lc_state r) = is_some (lc_reason r)
  ∧ (is_some (lc_phase r) = true → lc_state r = Running)
  ∧ from_option (λ raw, text_ok raw ∧ (length raw ≤ DETAIL_BYTE_LIMIT)%nat) True (lc_detail r)
  ∧ from_option (λ id, length id = RESULT_MESSAGE_ID_WIDTH) True (lc_result_message_id r)
  ∧ bool_decide (lc_state r = Completed) = is_some (lc_result_message_id r).

Lemma lifecycle_keys r : NoDup ((lifecycle_pairs r).*1) ∧ (lifecycle_pairs r).*1 ⊆ LIFECYCLE_SCHEMA.
Proof.
  destruct r as [? ? ? ? ? [] [] [] [] ?]; split; apply (bool_decide_unpack _); by vm_compute.
Qed.

Lemma lifecycle_values r : lifecycle_ok r → Forall (pair_ok LIFECYCLE_SCHEMA) (lifecycle_pairs r).
Proof.
  intros (Hv & Hi & Hat & Hh & Hsig & Hr & _ & _ & Hd & Hres & _).
  apply pairs_ok_intro; [apply lifecycle_keys | repeat constructor; by vm_compute |].
  unfold lifecycle_pairs, lifecycle_body_pairs. each_pair.
  - by apply (width_ok 16).
  - apply state_u64.
  - destruct (lc_reason r); cbn; [apply value_text, reason_text_ok, Hr | done].
  - destruct (lc_detail r); cbn; [apply value_text, Hd | done].
  - destruct (lc_result_message_id r); cbn in *; [by apply value_bytes, (width_ok 16) | done].
  - destruct (lc_phase r); cbn; [apply value_text, phase_text_ok | done].
Qed.

(** The encoder never panics: no record repeats a key. *)
Lemma lifecycle_encodes r : is_Some (lifecycle_encode r) ∧ is_Some (lifecycle_signing_input r).
Proof.
  destruct (lifecycle_keys r) as [Hnd _]. split.
  - exists (pairs_bytes (sort_by_key (lifecycle_pairs r))). by apply cbor_map_some.
  - exists (pairs_bytes (sort_by_key (lifecycle_body_pairs r))). apply cbor_map_some.
    unfold lifecycle_pairs in Hnd. rewrite fmap_app in Hnd. by apply NoDup_app in Hnd as [? _].
Qed.


(** Where each field of a record lies. *)
Lemma lifecycle_slots r :
  let s := optional_slot (lifecycle_pairs r) in
  s LK_V = Some (cbor_uint (lc_v r))
  ∧ s LK_INVOCATION_ID = Some (cbor_bytes (lc_invocation_id r))
  ∧ s LK_STATE = Some (cbor_uint (state_raw (lc_state r)))
  ∧ s LK_AT = Some (cbor_uint (lc_at r))
  ∧ s LK_HOST = Some (cbor_bytes (lc_host r))
  ∧ s LK_REASON = cbor_text <$> lc_reason r
  ∧ s LK_DETAIL = cbor_text <$> lc_detail r
  ∧ s LK_RESULT_MESSAGE_ID = cbor_bytes <$> lc_result_message_id r
  ∧ s LK_SIG = Some (cbor_bytes (lc_sig r))
  ∧ s LK_PHASE = cbor_text <$> (phase_as_str <$> lc_phase r).
Proof. destruct r as [? ? ? ? ? [] [] [] [] ?]; intros s; split_and!; reflexivity. Qed.

Lemma lifecycle_decode_sound data r :
  lifecycle_decode data = Ok r → lifecycle_ok r ∧ lifecycle_encode r = Some data.
Proof.
  unfold lifecycle_decode. intros H. repeat decode_step H.
  rename x into slots, x1 into st, x2 into rsn, x4 into phase, x5 into detail, x6 into result.
  apply state_raw_parse in Hs1 as ->.
  assert (x3 = phase_as_str <$> phase) as ->.
  { destruct x3 as [raw|]; [|by injection Hs4 as <-].
    apply result_bind_ok in Hs4 as (p & Hp & [= <-]). apply ok_or_ok, phase_str_parse in Hp as ->. done. }
  injection H as <-. split.
  - repeat split; cbn; try (apply Hw4 || apply Hw6 || done).
    + destruct rsn; cbn; [|done]. by rewrite contains_true in Hb.
    + by apply eqb_prop in Hb0.
    + intros Hp. rewrite Hp in Hb2. apply negb_true_iff, andb_false_iff in Hb2 as [|Hb2]; [done|].
      by apply negb_false_iff, bool_decide_eq_true in Hb2.
    + destruct detail; cbn in *; [|done]. split; [done|]. by apply Nat.leb_le.
    + by apply eqb_prop in Hb4.
  - set (r := mkLifecycle _ _ _ _ _ _ _ _ _ _). destruct (lifecycle_keys r) as [Hnd Hsub].
    eapply map_of_slots; [exact Hs | exact Hnd | exact Hsub |].
    destruct (lifecycle_slots r) as (E1 & E2 & E3 & E4 & E5 & E6 & E7 & E8 & E9 & E10).
    slots_agree.
Qed.

Lemma lifecycle_decode_complete data r :
  lifecycle_ok r → lifecycle_encode r = Some data → lifecycle_decode data = Ok r.
Proof.
  intros Hok Henc.
  destruct (slots_of_map LIFECYCLE_SCHEMA _ _ Henc (lifecycle_values r Hok)) as (slots & Hslots & Hs).
  { destruct r as [? ? ? ? ? [] [] [] [] ?]; by vm_compute. }
  pose proof (lifecycle_slots r) as (E1 & E2 & E3 & E4 & E5 & E6 & E7 & E8 & E9 & E10).
  rewrite <- Hs in E1, E2, E3, E4, E5, E6, E7, E8, E9, E10. clear Hs Henc.
  destruct r as [v inv st at_ host rsn detail res phase sig].
  destruct Hok as (Hv & Hi & Hat & Hh & Hsig & Hr & Hreq & Hph & Hd & Hres & Hcomp).
  cbn [lc_v lc_invocation_id lc_state lc_at lc_host lc_reason lc_detail lc_result_message_id lc_phase lc_sig] in *.
  unfold lifecycle_decode. rewrite Hslots. cbn [map_err result_bind].
  read_slot; [|apply state_u64]. rewrite state_parse_raw. cbn [ok_or result_bind].
  read_slot; [|destruct rsn; [by apply reason_text_ok, Hr | done]].
  assert (match rsn with Some raw => contains LIFECYCLE_REASONS raw | None => true end = true) as ->.
  { destruct rsn; [|done]. apply contains_true, Hr. }
  rewrite Hreq, eqb_reflx.
  assert (match rsn with Some raw => reason_legal raw st | None => true end = true) as ->.
  { destruct rsn; [apply Hr | done]. }
  read_slot; [|destruct phase; [apply phase_text_ok | done]].
  assert (match phase_as_str <$> phase with
          | Some raw => let? p := ok_or (phase_parse raw) (UnknownPhase raw) in Ok (Some p)
          | None => Ok None end = Ok phase) as ->.
  { destruct phase; [|done]. cbn -[phase_parse]. by rewrite phase_parse_str. }
  cbn [result_bind].
  assert (negb (is_some phase && negb (bool_decide (st = Running))) = true) as ->.
  { destruct phase; [|done]. cbn. rewrite bool_decide_eq_true_2; [done|]. by apply Hph. }
  read_slot; [|destruct detail; [apply Hd | done]].
  assert (match detail with Some raw => (length raw <=? DETAIL_BYTE_LIMIT)%nat | None => true end = true) as ->.
  { destruct detail; [|done]. by apply Nat.leb_le, Hd. }
  read_slot. rewrite Hcomp, eqb_reflx. by repeat read_slot.
Qed.

(** Exact lifecycle codec: a buffer decodes to a record if and only if the
    record satisfies every field-presence rule (a reason of the closed
    vocabulary exactly on failed, declined and expired records and only where
    that reason is legal, a result message exactly on completed ones, a phase
    only while running, a bounded detail, the fixed widths) and the buffer is
    the record's one encoding. The encoder never panics. *)
Theorem lifecycle_codec_exact :
  (∀ data r, lifecycle_decode data = Ok r ↔ lifecycle_ok r ∧ lifecycle_encode r = Some data)
  ∧ (∀ r, is_Some (lifecycle_encode r)).
Proof.
  split; [|intros r; apply lifecycle_encodes]. intros data r. split; [apply lifecycle_decode_sound|].
  intros [Hok He]. by apply lifecycle_decode_complete.
Qed.

(** ** Leases *)
Definition lease_ok (l : AgentLease) : Prop :=
  is_u64 (ls_v l) ∧ length (ls_agent_id l) = AGENT_ID_WIDTH ∧ vec_ok (ls_holder l) ∧ is_u64 (ls_epoch l)
  ∧ is_u64 (ls_acquired_at l) ∧ is_u64 (ls_expires_at l) ∧ ls_acquired_at l < ls_expires_at l
  ∧ vec_ok (ls_sig l).

Lemma lease_keys l : NoDup ((lease_pairs l).*1) ∧ (lease_pairs l).*1 ⊆ LEASE_SCHEMA.
Proof. split; apply (bool_decide_unpack _); by vm_compute. Qed.

Lemma lease_values l : lease_ok l → Forall (pair_ok LEASE_SCHEMA) (lease_pairs l).
Proof.
  intros (Hv & Ha & Hh & He & Hq & Hx & _ & Hs).
  apply pairs_ok_intro; [apply lease_keys | repeat constructor; by vm_compute |].
  unfold lease_pairs, lease_body_pairs. each_pair. by apply (width_ok 32).
Qed.

Lemma lease_encodes l : is_Some (lease_encode l) ∧ is_Some (lease_signing_input l).
Proof.
  destruct (lease_keys l) as [Hnd _]. split.
  - exists (pairs_bytes (sort_by_key (lease_pairs l))). by apply cbor_map_some.
  - exists (pairs_bytes (sort_by_key (lease_body_pairs l))). apply cbor_map_some.
    unfold lease_pairs in Hnd. rewrite fmap_app in Hnd. by apply NoDup_app in Hnd as [? _].
Qed.

Lemma lease_slots l :
  let s := optional_slot (lease_pairs l) in
  s SK_V = Some (cbor_uint (ls_v l))
  ∧ s SK_AGENT_ID = Some (cbor_bytes (ls_agent_id l))
  ∧ s SK_HOLDER = Some (cbor_bytes (ls_holder l))
  ∧ s SK_EPOCH = Some (cbor_uint (ls_epoch l))
  ∧ s SK_ACQUIRED_AT = Some (cbor_uint (ls_acquired_at l))
  ∧ s SK_EXPIRES_AT = Some (cbor_uint (ls_expires_at l))
  ∧ s SK_SIG = Some (cbor_bytes (ls_sig l)).
Proof. intros s. split_and!; reflexivity. Qed.

(** A lease decodes exactly when its window is not empty and the buffer is its
    one encoding. *)
Lemma lease_codec_exact data l :
  lease_decode data = Ok l ↔ lease_ok l ∧ lease_encode l = Some data.
Proof.
  split.
  - unfold lease_decode. intros H. repeat decode_step H. injection H as <-. split.
    + repeat split; cbn; try (apply Hw || apply Hw0 || apply Hw1 || apply Hw4 || done). lia.
    + set (l := mkLease _ _ _ _ _ _ _). destruct (lease_keys l) as [Hnd Hsub].
      eapply map_of_slots; [exact Hs | exact Hnd | exact Hsub |].
      destruct (lease_slots l) as (E1 & E2 & E3 & E4 & E5 & E6 & E7). slots_agree.
  - intros [Hok Henc].
    destruct (slots_of_map LEASE_SCHEMA _ _ Henc (lease_values l Hok)) as (slots & Hslots & Hs); [by vm_compute|].
    pose proof (lease_slots l) as (E1 & E2 & E3 & E4 & E5 & E6 & E7).
    rewrite <- Hs in E1, E2, E3, E4, E5, E6, E7. clear Hs Henc.
    destruct l as [v ag ho ep ac ex sig]. destruct Hok as (Hv & Ha & Hh & He & Hq & Hx & Hlt & Hs).
    cbn [ls_v ls_agent_id ls_holder ls_epoch ls_acquired_at ls_expires_at ls_sig] in *.
    unfold lease_decode. rewrite Hslots. cbn [map_err result_bind]. do 2 read_slot.
    rewrite (proj2 (Z.leb_gt ex ac)) by lia. cbn [negb]. by repeat read_slot.
Qed.

(** ** What a signature covers *)
Lemma lifecycle_body_ok r : lifecycle_ok r →
  Forall (pair_ok LIFECYCLE_SCHEMA) (lifecycle_body_pairs r)
  ∧ Z.of_nat (length (lifecycle_body_pairs r)) ≤ U64_MAX.
Proof.
  intros H%lifecycle_values. unfold lifecycle_pairs in H. apply Forall_app in H as [H _]. split; [done|].
  destruct r as [? ? ? ? ? [] [] [] [] ?]; by vm_compute.
Qed.

Lemma lease_body_ok l : lease_ok l →
  Forall (pair_ok LEASE_SCHEMA) (lease_body_pairs l) ∧ Z.of_nat (length (lease_body_pairs l)) ≤ U64_MAX.
Proof.
  intros H%lease_values. unfold lease_pairs in H. apply Forall_app in H as [H _]. split; [done | by vm_compute].
Qed.

Definition lifecycle_with_sig (r : AgentLifecycle) (sig : list byte) : AgentLifecycle :=
  mkLifecycle (lc_v r) (lc_invocation_id r) (lc_state r) (lc_at r) (lc_host r) (lc_reason r) (lc_detail r)
    (lc_result_message_id r) (lc_phase r) sig.
Definition lease_with_sig (l : AgentLease) (sig : list byte) : AgentLease :=
  mkLease (ls_v l) (ls_agent_id l) (ls_holder l) (ls_epoch l) (ls_acquired_at l) (ls_expires_at l) sig.

Lemma vec_ok_nil : vec_ok [].
Proof. by vm_compute. Qed.

#[global] Instance lifecycle_signed :
  SignedRecord LIFECYCLE_SCHEMA lifecycle_ok lifecycle_body_pairs (λ r, [(LK_SIG, cbor_bytes (lc_sig r))])
    lifecycle_decode (λ r, lifecycle_with_sig r []).
Proof.
  split; [|intros r; apply lifecycle_keys | apply lifecycle_body_ok | | done | done].
  - intros data r. split; [apply lifecycle_decode_sound|]. intros [Hok He]. by apply lifecycle_decode_complete.
  - intros r H. unfold lifecycle_ok in *. cbn. naive_solver auto using vec_ok_nil.
Qed.

#[global] Instance lease_signed :
  SignedRecord LEASE_SCHEMA lease_ok lease_body_pairs (λ l, [(SK_SIG, cbor_bytes (ls_sig l))])
    lease_decode (λ l, lease_with_sig l []).
Proof.
  split; [apply lease_codec_exact | intros l; apply lease_keys | apply lease_body_ok | | done | done].
  intros l H. unfold lease_ok in *. cbn. naive_solver auto using vec_ok_nil.
Qed.

Lemma lifecycle_verified `{AgentEd25519} data r :
  lifecycle_decode_verified data = Ok r ↔
  lifecycle_decode data = Ok r ∧ ∃ m, lifecycle_signing_input r = Some m ∧ verify_under (lc_host r) (lc_sig r) m = true.
Proof.
  unfold lifecycle_decode_verified. destruct (lifecycle_decode data) as [r'|]; cbn [result_bind]; [|naive_solver].
  unfold lifecycle_verify, verify_signed. destruct (lifecycle_encodes r') as [_ [m Hm]]. rewrite Hm. cbn [default].
  cbn [from_option id]. destruct (verify_under (lc_host r') (lc_sig r') m) eqn:Hv; cbn [result_bind].
  - split; [intros [= <-]; split; [done|]; by exists m | intros [[= <-] _]; done].
  - split; [done|]. intros [[= <-] (m' & Hm' & Hv')]. congruence.
Qed.

Lemma lease_verified `{AgentEd25519} data l :
  lease_decode_verified data = Ok l ↔
  lease_decode data = Ok l ∧ ∃ m, lease_signing_input l = Some m ∧ verify_under (ls_holder l) (ls_sig l) m = true.
Proof.
  unfold lease_decode_verified. destruct (lease_decode data) as [l'|]; cbn [result_bind]; [|naive_solver].
  unfold lease_verify, verify_signed. destruct (lease_encodes l') as [_ [m Hm]]. rewrite Hm. cbn [default].
  cbn [from_option id]. destruct (verify_under (ls_holder l') (ls_sig l') m) eqn:Hv; cbn [result_bind].
  - split; [intros [= <-]; split; [done|]; by exists m | intros [[= <-] _]; done].
  - split; [done|]. intros [[= <-] (m' & Hm' & Hv')]. congruence.
Qed.
