(* ===== verification/AgentCard.v ===== *)
(** * Agent cards

    Models [backend/weald-mls/src/agent_card.rs]: the [agent.card] record, its
    closed vocabularies, the repository and test-policy rules of its [code]
    block, the schema-map codec with the recomputed [cardHash], and the
    signature under [ownerPrincipal]. Text is its UTF-8 bytes.
    [str::to_lowercase] follows the Unicode case tables of the Rust standard
    library; it is the parameter [to_lowercase]. *)

From Stdlib Require Import ZArith Lia String.
From stdpp Require Import base tactics numbers sorting sets list.
From S2P Require Import Prelude Cbor Crypto Push AgentCbor.

Open Scope Z_scope.

Definition PROTOCOL_VERSION : Z := 2.
Definition CARD_AGENT_ID_WIDTH : nat := 32.
Definition CARD_HASH_WIDTH : nat := 32.
Definition CARD_SCOPE_WIDTH : nat := 32.
Definition ORG_ID_WIDTH : nat := 32.

(** [pub mod key]. *)
Definition CK_V : Z := 1.
Definition CK_AGENT_ID : Z := 2.
Definition CK_HOST_KIND : Z := 3.
Definition CK_OWNER_PRINCIPAL : Z := 4.
Definition CK_DISPLAY_NAME : Z := 5.
Definition CK_ALIASES : Z := 6.
Definition CK_SCOPES : Z := 7.
Definition CK_CAPABILITIES : Z := 8.
Definition CK_AVAILABILITY : Z := 9.
Definition CK_PROFILE_VERSION : Z := 10.
Definition CK_CARD_HASH : Z := 11.
Definition CK_ISSUED_AT : Z := 12.
Definition CK_EXPIRES_AT : Z := 13.
Definition CK_ORG : Z := 14.
Definition CK_SIG : Z := 15.
Definition CK_CODE : Z := 16.
Definition CARD_SCHEMA : list Z :=
  [CK_V; CK_AGENT_ID; CK_HOST_KIND; CK_OWNER_PRINCIPAL; CK_DISPLAY_NAME; CK_ALIASES; CK_SCOPES; CK_CAPABILITIES;
   CK_AVAILABILITY; CK_PROFILE_VERSION; CK_CARD_HASH; CK_ISSUED_AT; CK_EXPIRES_AT; CK_ORG; CK_SIG; CK_CODE].

(** ** Vocabularies *)
Inductive Capability : Type := ChatReply | ReadChannel | ReadTicket | CodePullRequest | CiReport | ComputeRemote.
#[global] Instance Capability_eq_dec : EqDecision Capability.
Proof. solve_decision. Defined.

Definition capability_as_str (c : Capability) : list byte :=
  ascii_bytes match c with
  | ChatReply => "chat.reply" | ReadChannel => "read.channel" | ReadTicket => "read.ticket"
  | CodePullRequest => "code.pullrequest" | CiReport => "ci.report" | ComputeRemote => "compute.remote"
  end%string.
Definition capability_parse (raw : list byte) : option Capability :=
  if decide (raw = ascii_bytes "chat.reply") then Some ChatReply
  else if decide (raw = ascii_bytes "read.channel") then Some ReadChannel
  else if decide (raw = ascii_bytes "read.ticket") then Some ReadTicket
  else if decide (raw = ascii_bytes "code.pullrequest") then Some CodePullRequest
  else if decide (raw = ascii_bytes "ci.report") then Some CiReport
  else if decide (raw = ascii_bytes "compute.remote") then Some ComputeRemote
  else None.

Inductive HostKind : Type := User | Organization.
#[global] Instance HostKind_eq_dec : EqDecision HostKind.
Proof. solve_decision. Defined.
Definition host_kind_raw (k : HostKind) : Z := match k with User => 0 | Organization => 1 end.
Definition host_kind_parse (raw : Z) : option HostKind :=
  if raw =? 0 then Some User else if raw =? 1 then Some Organization else None.

Inductive Availability : Type := Online | Offline | Suspended.
Definition availability_raw (a : Availability) : Z := match a with Online => 0 | Offline => 1 | Suspended => 2 end.
Definition availability_parse (raw : Z) : option Availability :=
  if raw =? 0 then Some Online else if raw =? 1 then Some Offline else if raw =? 2 then Some Suspended else None.

(** ** The card *)
Record Org : Type := mkOrg {
  org_id : list byte;
  gateway_region : list byte;
  provider : list byte;
  model : list byte;
  retention_policy : list byte;
  cost_policy : list byte
}.

Record CodeRepository : Type := mkRepo {
  repository_id : Z;
  repo_ref : list byte;
  base_branch : option (list byte)
}.

Record TestPolicy : Type := mkTest { argv : list (list byte); timeout_seconds : Z }.

Record Code : Type := mkCode {
  repos : list CodeRepository;
  installation_id : Z;
  test_policy : option TestPolicy
}.

Record AgentCard : Type := mkCard {
  cd_v : Z;
  cd_agent_id : list byte;
  cd_host_kind : HostKind;
  cd_owner_principal : list byte;
  cd_display_name : list byte;
  cd_aliases : list (list byte);
  cd_scopes : list (list byte);
  cd_capabilities : list Capability;
  cd_availability : Availability;
  cd_profile_version : Z;
  cd_issued_at : Z;
  cd_expires_at : Z;
  cd_org : option Org;
  cd_code : option Code;
  cd_sig : list byte
}.

Inductive CardError : Type :=
| CdCbor (error : CborError)
| UnknownCapability (raw : list byte)
| UnknownHostKind (raw : Z)
| UnknownAvailability (raw : Z)
| OrgBlockMismatch (host_kind : HostKind) (present : bool)
| CardHashMismatch (stored computed : list byte)
| ListNotCanonical (field : string)
| EmptyAlias
| AliasNotLowercased (alias : list byte)
| CodeBlockMismatch
| CapabilityExclusive
| CodeRepositoriesInvalid
| RepositoryRefInvalid (value : list byte)
| BranchInvalid (value : list byte)
| TestPolicyInvalid
| CdSignatureInvalid.

Definition card_reason (e : CardError) : string :=
  match e with
  | CdCbor inner => reason inner
  | UnknownCapability _ => "codec.capability.unknown"
  | UnknownHostKind _ => "codec.hostkind.unknown"
  | UnknownAvailability _ => "codec.availability.unknown"
  | OrgBlockMismatch _ _ => "codec.org.mismatch"
  | CardHashMismatch _ _ => "codec.cardhash.mismatch"
  | ListNotCanonical _ => "codec.list.order"
  | EmptyAlias => "codec.alias.empty"
  | AliasNotLowercased _ => "codec.alias.case"
  | CodeBlockMismatch => "codec.code.mismatch"
  | CapabilityExclusive => "codec.capability.exclusive"
  | CodeRepositoriesInvalid => "codec.code.repos"
  | RepositoryRefInvalid _ => "codec.repo.ref"
  | BranchInvalid _ => "codec.branch.ref"
  | TestPolicyInvalid => "codec.test.policy"
  | CdSignatureInvalid => "codec.signature.invalid"
  end.

Abbreviation ccbor := (map_err CdCbor).
Abbreviation clift := (rd_map_err CdCbor).

(** ** Encoding *)
Definition encode_repo (r : CodeRepository) : list byte :=
  cbor_array ([cbor_uint (repository_id r); cbor_text (repo_ref r)]
              ++ match base_branch r with Some b => [cbor_text b] | None => [] end).
Definition encode_test (t : TestPolicy) : list byte :=
  cbor_array [cbor_array (cbor_text <$> argv t); cbor_uint (timeout_seconds t)].
Definition encode_code (c : Code) : list byte :=
  cbor_array ([cbor_array (encode_repo <$> repos c); cbor_uint (installation_id c)]
              ++ match test_policy c with Some t => [encode_test t] | None => [] end).
Definition encode_org (o : Org) : list byte :=
  cbor_array [cbor_bytes (org_id o); cbor_text (gateway_region o); cbor_text (provider o); cbor_text (model o);
              cbor_text (retention_policy o); cbor_text (cost_policy o)].

Definition card_body_pairs (c : AgentCard) : list pair_t :=
  [(CK_V, cbor_uint (cd_v c));
   (CK_AGENT_ID, cbor_bytes (cd_agent_id c));
   (CK_HOST_KIND, cbor_uint (host_kind_raw (cd_host_kind c)));
   (CK_OWNER_PRINCIPAL, cbor_bytes (cd_owner_principal c));
   (CK_DISPLAY_NAME, cbor_text (cd_display_name c));
   (CK_ALIASES, cbor_array (cbor_text <$> cd_aliases c));
   (CK_SCOPES, cbor_array (cbor_bytes <$> cd_scopes c));
   (CK_CAPABILITIES, cbor_array (cbor_text <$> (capability_as_str <$> cd_capabilities c)));
   (CK_AVAILABILITY, cbor_uint (availability_raw (cd_availability c)));
   (CK_PROFILE_VERSION, cbor_uint (cd_profile_version c));
   (CK_ISSUED_AT, cbor_uint (cd_issued_at c));
   (CK_EXPIRES_AT, cbor_uint (cd_expires_at c))]
  ++ push_some CK_ORG encode_org (cd_org c)
  ++ push_some CK_CODE encode_code (cd_code c).

Definition card_signing_input (c : AgentCard) : option (list byte) := cbor_map (card_body_pairs c).

Section card.
Context `{Blake3}.

(** [signing_input] does not panic ([card_encodes]). *)
Definition card_hash (c : AgentCard) : list byte := blake3 (default [] (card_signing_input c)).
Definition card_tail (c : AgentCard) : list pair_t :=
  [(CK_CARD_HASH, cbor_bytes (card_hash c)); (CK_SIG, cbor_bytes (cd_sig c))].
Definition card_encode (c : AgentCard) : option (list byte) := cbor_map (card_body_pairs c ++ card_tail c).
End card.

(** ** The rules of the [code] block *)
Definition is_ascii_alphanumeric (b : byte) : bool :=
  in_range 48 57 b || in_range 65 90 b || in_range 97 122 b.
(** [.], [_] and [-]. *)
Definition is_ref_punctuation (b : byte) : bool :=
  in_range 46 46 b || in_range 95 95 b || in_range 45 45 b.

(** [value.split('/')]. *)
Fixpoint split_slash (bs : list byte) : list (list byte) :=
  match bs with
  | [] => [[]]
  | b :: bs' =>
      if in_range 47 47 b then [] :: split_slash bs'
      else match split_slash bs' with
           | part :: parts => (b :: part) :: parts
           | [] => [[b]]
           end
  end.

Definition valid_owner (owner : list byte) : bool :=
  negb (bool_decide (owner = [])) && (length owner <=? 39)%nat
  && match owner with
     | [] => true
     | b :: bs => is_ascii_alphanumeric b && forallb (λ b, is_ascii_alphanumeric b || is_ref_punctuation b) bs
     end.
Definition valid_name (name : list byte) : bool :=
  negb (bool_decide (name = [])) && forallb (λ b, is_ascii_alphanumeric b || is_ref_punctuation b) name.

Definition valid_repo_ref (value : list byte) : bool :=
  if negb (forallb (in_range 0 127) value) then false
  else match split_slash value with
       | [owner; repo] => valid_owner owner && valid_name repo
       | _ => false
       end.

(** [value.contains(pattern)]. *)
Fixpoint is_prefix (p bs : list byte) : bool :=
  match p, bs with
  | [], _ => true
  | x :: p', b :: bs' => bool_decide (x = b) && is_prefix p' bs'
  | _ :: _, [] => false
  end.
Fixpoint contains_bytes (bs p : list byte) : bool :=
  is_prefix p bs || match bs with [] => false | _ :: bs' => contains_bytes bs' p end.

(** The refused patterns, by code: .. @{ // \ space ~ ^ : ? * [ *)
Definition BAD_BRANCH : list (list byte) := hexed <$>
  [[46; 46]; [64; 123]; [47; 47]; [92]; [32]; [126]; [94]; [58]; [63]; [42]; [91]].

Definition valid_branch (value : list byte) : bool :=
  match value with
  | [] => false
  | b :: _ =>
      negb (in_range 45 47 b)
      && negb (match last value with Some e => in_range 46 47 e | None => false end)
      && negb (existsb (contains_bytes value) BAD_BRANCH)
      && forallb (in_range 32 126) value
  end.

(** [u8::to_ascii_lowercase], byte by byte. *)
Definition ascii_lower (bs : list byte) : list byte :=
  (λ b, if in_range 65 90 b then byte_of_Z (byte_to_Z b + 32) else b) <$> bs.

(** ** Decoding *)
Definition read_repo : rd CardError CodeRepository :=
  fields <- clift r_array_count ;;
  if negb ((fields =? 2) || (fields =? 3))%nat then rd_fail (CdCbor (WrongArrayCount 2 fields)) else
  id <- clift r_uint ;;
  ref <- clift r_text ;;
  if negb (valid_repo_ref ref) then rd_fail (RepositoryRefInvalid ref) else
  branch <- (if (fields =? 3)%nat then b <- clift r_text ;; rd_ret (Some b) else rd_ret None) ;;
  (match branch with
   | Some b => if negb (valid_branch b) then rd_fail (BranchInvalid b) else rd_ret tt
   | None => rd_ret tt
   end) ;;;
  rd_ret (mkRepo id ref branch).

Definition read_arg : rd CardError (list byte) :=
  arg <- clift r_text ;;
  if bool_decide (arg = []) || (1024 <? length arg)%nat then rd_fail TestPolicyInvalid else rd_ret arg.

Definition read_test : rd CardError TestPolicy :=
  fields <- clift r_array_count ;;
  if negb (fields =? 2)%nat then rd_fail (CdCbor (WrongArrayCount 2 fields)) else
  argv <- (argc <- clift r_array_count ;;
           if ((1 <=? argc) && (argc <=? 32))%nat then rd_times argc read_arg else rd_fail TestPolicyInvalid) ;;
  timeout <- clift r_uint ;;
  if negb ((1 <=? timeout) && (timeout <=? 900)) then rd_fail TestPolicyInvalid else
  rd_ret (mkTest argv timeout).

(** [repos.windows(2).all(|w| w[0].repository_id < w[1].repository_id)]. *)
Fixpoint ids_ascend (l : list CodeRepository) : bool :=
  match l with
  | a :: ((b :: _) as l') => (repository_id a <? repository_id b) && ids_ascend l'
  | _ => true
  end.
(** [repos.iter().all(|repo| refs.insert(lowercased))], [seen] the set so far. *)
Fixpoint refs_distinct (seen : list (list byte)) (l : list CodeRepository) : bool :=
  match l with
  | [] => true
  | r :: l' => let ref := ascii_lower (repo_ref r) in
               negb (contains seen ref) && refs_distinct (ref :: seen) l'
  end.

Definition read_code : rd CardError Code :=
  count <- clift r_array_count ;;
  if negb ((count =? 2) || (count =? 3))%nat then rd_fail (CdCbor (WrongArrayCount 2 count)) else
  repos <- (repo_count <- clift r_array_count ;;
            if ((1 <=? repo_count) && (repo_count <=? 100))%nat
            then rd_times repo_count read_repo else rd_fail CodeRepositoriesInvalid) ;;
  if negb (ids_ascend repos) then rd_fail CodeRepositoriesInvalid else
  if negb (refs_distinct [] repos) then rd_fail CodeRepositoriesInvalid else
  installation <- clift r_uint ;;
  test <- (if (count =? 3)%nat then t <- read_test ;; rd_ret (Some t) else rd_ret None) ;;
  rd_ret (mkCode repos installation test).
Definition decode_code (data : list byte) : result CardError Code := whole CdCbor read_code data.

Definition read_org : rd CardError Org :=
  count <- clift r_array_count ;;
  if negb (count =? 6)%nat then rd_fail (CdCbor (WrongArrayCount 6 count)) else
  id <- clift (r_bytes_exact ORG_ID_WIDTH) ;;
  region <- clift r_text ;; prov <- clift r_text ;; mdl <- clift r_text ;;
  retention <- clift r_text ;; cost <- clift r_text ;;
  rd_ret (mkOrg id region prov mdl retention cost).
Definition decode_org (data : list byte) : result CardError Org := whole CdCbor read_org data.

(** [optional_slot(..).map(decode).transpose()?]. *)
Definition transpose_slot {T} (o : option (list byte)) (dec : list byte → result CardError T)
    : result CardError (option T) :=
  match o with Some raw => let? x := dec raw in Ok (Some x) | None => Ok None end.

Definition text_list (slots : list pair_t) (key : Z) : result CardError (list (list byte)) :=
  ccbor (in_slot slots key (r_list r_text)).

(** [values.windows(2).all(|w| w[0] < w[1])], on the bytes of the strings. *)
Definition require_canonical (values : list (list byte)) (field : string) : result CardError unit :=
  if strictly_ascending values then Ok tt else Err (ListNotCanonical field).

Class Lowercase : Type := to_lowercase : list byte → list byte.

Section decode.
Context `{Blake3} `{Lowercase}.

Fixpoint check_aliases (aliases : list (list byte)) : result CardError unit :=
  match aliases with
  | [] => Ok tt
  | alias :: rest =>
      if bool_decide (alias = []) then Err EmptyAlias
      else if negb (bool_decide (alias = to_lowercase alias)) then Err (AliasNotLowercased alias)
      else check_aliases rest
  end.

Fixpoint parse_capabilities (raws : list (list byte)) : result CardError (list Capability) :=
  match raws with
  | [] => Ok []
  | raw :: rest =>
      let? c := ok_or (capability_parse raw) (UnknownCapability raw) in
      let? cs := parse_capabilities rest in Ok (c :: cs)
  end.

Definition card_decode (data : list byte) : result CardError AgentCard :=
  let? slots := ccbor (read_schema CARD_SCHEMA data) in
  let? host_raw := ccbor (in_slot slots CK_HOST_KIND r_uint) in
  let? host_kind := ok_or (host_kind_parse host_raw) (UnknownHostKind host_raw) in
  let? avail_raw := ccbor (in_slot slots CK_AVAILABILITY r_uint) in
  let? availability := ok_or (availability_parse avail_raw) (UnknownAvailability avail_raw) in
  let? aliases := text_list slots CK_ALIASES in
  let? _ := require_canonical aliases "aliases" in
  let? _ := check_aliases aliases in
  let? capability_strings := text_list slots CK_CAPABILITIES in
  let? _ := require_canonical capability_strings "capabilities" in
  let? capabilities := parse_capabilities capability_strings in
  let? scopes := ccbor (in_slot slots CK_SCOPES (r_list (r_bytes_exact CARD_SCOPE_WIDTH))) in
  let? org := transpose_slot (optional_slot slots CK_ORG) decode_org in
  check! Bool.eqb (bool_decide (host_kind = Organization)) (is_some org)
    else OrgBlockMismatch host_kind (is_some org) in
  let? code := transpose_slot (optional_slot slots CK_CODE) decode_code in
  check! negb (contains capabilities CiReport && contains capabilities CodePullRequest)
    else CapabilityExclusive in
  check! Bool.eqb (contains capabilities CodePullRequest) (is_some code) else CodeBlockMismatch in
  let? v := ccbor (in_slot slots CK_V r_uint) in
  let? agent_id := ccbor (in_slot slots CK_AGENT_ID (r_bytes_exact CARD_AGENT_ID_WIDTH)) in
  let? owner := ccbor (in_slot slots CK_OWNER_PRINCIPAL r_bytes) in
  let? name := ccbor (in_slot slots CK_DISPLAY_NAME r_text) in
  let? profile := ccbor (in_slot slots CK_PROFILE_VERSION r_uint) in
  let? issued := ccbor (in_slot slots CK_ISSUED_AT r_uint) in
  let? expires := ccbor (in_slot slots CK_EXPIRES_AT r_uint) in
  let? sig := ccbor (in_slot slots CK_SIG r_bytes) in
  let card := mkCard v agent_id host_kind owner name aliases scopes capabilities availability profile
                issued expires org code sig in
  let? stored := ccbor (in_slot slots CK_CARD_HASH (r_bytes_exact CARD_HASH_WIDTH)) in
  check! bool_decide (stored = card_hash card) else CardHashMismatch stored (card_hash card) in
  Ok card.

Definition card_verify `{AgentEd25519} (c : AgentCard) : result CardError unit :=
  if verify_under (cd_owner_principal c) (cd_sig c) (default [] (card_signing_input c))
  then Ok tt else Err CdSignatureInvalid.
Definition card_decode_verified `{AgentEd25519} (data : list byte) : result CardError AgentCard :=
  let? c := card_decode data in let? _ := card_verify c in Ok c.
End decode.

(** ** Vocabularies *)
Lemma capability_parse_str c : capability_parse (capability_as_str c) = Some c.
Proof. by destruct c. Qed.
Lemma capability_str_parse raw c : capability_parse raw = Some c → raw = capability_as_str c.
Proof. unfold capability_parse. repeat case_decide; intros [= <-]; done. Qed.
Lemma capability_text_ok c : text_ok (capability_as_str c).
Proof. destruct c; by vm_compute. Qed.
Lemma host_kind_parse_raw k : host_kind_parse (host_kind_raw k) = Some k.
Proof. by destruct k. Qed.
Lemma host_kind_raw_parse n k : host_kind_parse n = Some k → n = host_kind_raw k.
Proof. unfold host_kind_parse. repeat case_match; intros [= <-]; cbn; lia. Qed.
Lemma host_kind_u64 k : is_u64 (host_kind_raw k).
Proof. destruct k; by vm_compute. Qed.
Lemma availability_parse_raw a : availability_parse (availability_raw a) = Some a.
Proof. by destruct a. Qed.
Lemma availability_raw_parse n a : availability_parse n = Some a → n = availability_raw a.
Proof. unfold availability_parse. repeat case_match; intros [= <-]; cbn; lia. Qed.
Lemma availability_u64 a : is_u64 (availability_raw a).
Proof. destruct a; by vm_compute. Qed.

Lemma parse_capabilities_ok raws cs : parse_capabilities raws = Ok cs ↔ raws = capability_as_str <$> cs.
Proof.
  split.
  - revert cs. induction raws as [|raw raws IH]; intros cs; cbn [parse_capabilities]; [by intros [= <-]|].
    intros H. decode_step H. apply result_bind_ok in H as (cs' & Hcs & [= <-]).
    apply capability_str_parse in Hs as ->. by rewrite (IH _ Hcs).
  - intros ->. induction cs as [|c cs IH]; [done|]. cbn -[capability_parse].
    rewrite capability_parse_str. cbn. cbn in IH. by rewrite IH.
Qed.

(** ** The nested blocks as codecs *)
Definition repo_ok (r : CodeRepository) : Prop :=
  is_u64 (repository_id r) ∧ text_ok (repo_ref r) ∧ valid_repo_ref (repo_ref r) = true
  ∧ from_option (λ b, text_ok b ∧ valid_branch b = true) True (base_branch r).

#[global] Instance repo_codec : WireCodec repo_ok encode_repo read_repo.
Proof.
  split.
  - intros [id ref [b|]] (Hid & Href & Hv & Hb); cbn in *; unfold read_repo, encode_repo; cbn [repository_id repo_ref base_branch app];
      apply accepts_counted_items; [items_pos | by vm_compute | | items_pos | by vm_compute |]; cbn [length concat Nat.eqb orb negb];
      do 2 accept_field; rewrite Hv; cbn [negb].
    + destruct Hb as [Hb Hvb]. rewrite (app_nil_r (cbor_text b)), <- (app_nil_r (cbor_text b)).
      eapply accepts_field; [apply accepts_last, codec_accepts, Hb|]. cbv beta iota. rewrite Hvb. apply accepts_ret.
    + apply accepts_ret.
  - intros r x r' H. unfold read_repo in H. count_sound H Hn. do 2 sound_step H.
    destruct (valid_repo_ref _) eqn:Hv; cbn [negb] in H; [|done].
    apply rd_bind_ok in H as (branch & r3 & Hbr & H). apply rd_bind_ok in H as ([] & r4 & Hok & H).
    injection H as <- <-. apply orb_prop in Hn as [Hn|Hn]; apply Nat.eqb_eq in Hn as ->; cbn [Nat.eqb] in Hbr.
    + injection Hbr as <- <-. injection Hok as <-. split; [done|]. unfold encode_repo. cbn. array_chain.
    + apply rd_bind_ok in Hbr as (b & r5 & Hb & Hbr). injection Hbr as <- <-.
      apply rd_map_err_ok, codec_sound in Hb as [Hwb Hb].
      destruct (valid_branch b) eqn:Hvb; cbn [negb] in Hok; [|done]. injection Hok as <-.
      split; [done|]. unfold encode_repo. cbn. array_chain.
Qed.

Definition arg_ok (a : list byte) : Prop := text_ok a ∧ a ≠ [] ∧ (length a ≤ 1024)%nat.

#[global] Instance arg_codec : WireCodec arg_ok cbor_text read_arg.
Proof.
  split.
  - intros a (Ha & Hne & Hl). unfold read_arg. rewrite <- (app_nil_r (cbor_text a)).
    eapply accepts_field; [apply codec_accepts, Ha|]. cbv beta.
    rewrite bool_decide_eq_false_2, (proj2 (Nat.ltb_ge _ _)) by done. apply accepts_ret.
  - intros r x r' H. unfold read_arg in H. sound_step H.
    destruct (bool_decide _ || _) eqn:Hb; [done|]. injection H as <- <-.
    apply orb_false_iff in Hb as [Hne Hl]. apply bool_decide_eq_false in Hne. apply Nat.ltb_ge in Hl. done.
Qed.

Definition one_to (cap n : nat) : bool := ((1 <=? n) && (n <=? cap))%nat.
Lemma one_to_spec cap n : one_to cap n = true ↔ (1 ≤ n ≤ cap)%nat.
Proof. unfold one_to. rewrite andb_true_iff, !Nat.leb_le. done. Qed.

(** The two bounded lists of the block. *)
Definition argv_ok (l : list (list byte)) : Prop := Forall arg_ok l ∧ (1 ≤ length l ≤ 32)%nat.
Definition repos_ok (l : list CodeRepository) : Prop := Forall repo_ok l ∧ (1 ≤ length l ≤ 100)%nat.

Lemma bounded_list_codec {A} (cap : nat) (err : CardError) (wf : A → Prop) enc (dec : rd CardError A) :
  Z.of_nat cap ≤ U64_MAX → WireCodec wf enc dec → (∀ x, (1 ≤ length (enc x))%nat) →
  WireCodec (λ l, Forall wf l ∧ (1 ≤ length l ≤ cap)%nat) (λ l, cbor_array (enc <$> l))
    (count <- clift r_array_count ;;
     if ((1 <=? count) && (count <=? cap))%nat then rd_times count dec else rd_fail err).
Proof.
  intros Hcap Hc Hp. destruct (counted_list_codec CdCbor (one_to cap) (λ _, err) wf enc dec Hc Hp) as [Ha Hs].
  split.
  - intros l [Hf Hl]. apply Ha. split; [done|]. split; [by apply one_to_spec | lia].
  - intros r l r' H. apply Hs in H as [(Hf & Hl & _) Hcs]. apply one_to_spec in Hl. done.
Qed.

Definition test_ok (t : TestPolicy) : Prop := argv_ok (argv t) ∧ 1 ≤ timeout_seconds t ≤ 900.

#[global] Instance test_codec : WireCodec test_ok encode_test read_test.
Proof.
  pose proof (bounded_list_codec 32 TestPolicyInvalid arg_ok cbor_text read_arg ltac:(by vm_compute) _ length_cbor_text_pos) as Hargs.
  split.
  - intros [a t] [Ha Ht]. cbn in *. unfold read_test, encode_test. cbn [argv timeout_seconds].
    apply accepts_counted_items; [items_pos | by vm_compute |]. cbn [length concat Nat.eqb negb].
    eapply accepts_field; [by apply (codec_accepts (WireCodec := Hargs))|]. cbv beta.
    accept_field; [int_solve|]. rewrite (proj2 (Z.leb_le 1 t)), (proj2 (Z.leb_le t 900)) by lia. apply accepts_ret.
  - intros r x r' H. unfold read_test in H. count_sound H Hn. apply Nat.eqb_eq in Hn as ->.
    apply rd_bind_ok in H as (a & r2 & Ha & H). apply (codec_sound (WireCodec := Hargs)) in Ha as [Hwa Ha].
    sound_step H. destruct (_ && _) eqn:Ht; cbn [negb] in H; [|done]. injection H as <- <-.
    split; [split; [done|]; cbn; lia|]. unfold encode_test. cbn [argv timeout_seconds].
    rewrite (cbor_array_unfold [_; _]). cbn [length concat]. rewrite <- ?app_assoc, ?app_nil_r.
    repeat first [eassumption | eapply consumed_trans; [eassumption|]].
Qed.

Definition code_ok (c : Code) : Prop :=
  repos_ok (repos c) ∧ ids_ascend (repos c) = true ∧ refs_distinct [] (repos c) = true
  ∧ is_u64 (installation_id c) ∧ from_option test_ok True (test_policy c).

Lemma length_encode_repo_pos r : (1 ≤ length (encode_repo r))%nat.
Proof. apply length_cbor_array_pos. Qed.

#[global] Instance code_codec : WireCodec code_ok encode_code read_code.
Proof.
  pose proof (bounded_list_codec 100 CodeRepositoriesInvalid repo_ok encode_repo read_repo ltac:(by vm_compute) _
    length_encode_repo_pos) as Hrepos.
  split.
  - intros [rs i t] (Hr & Hids & Hrefs & Hi & Ht). cbn in *. unfold read_code, encode_code. cbn [repos installation_id test_policy].
    destruct t as [t|]; cbn [app]; (apply accepts_counted_items; [items_pos | by vm_compute |]);
      cbn [length concat Nat.eqb orb negb];
      (eapply accepts_field; [by apply (codec_accepts (WireCodec := Hrepos))|]); cbv beta; rewrite Hids, Hrefs; cbn [negb];
      accept_field.
    + rewrite <- (app_nil_r (encode_test t ++ [])), app_nil_r. eapply accepts_field; [apply accepts_last, codec_accepts, Ht|]. apply accepts_ret.
    + apply accepts_ret.
  - intros r x r' H. unfold read_code in H. count_sound H Hn.
    apply rd_bind_ok in H as (rs & r2 & Hrs & H). apply (codec_sound (WireCodec := Hrepos)) in Hrs as [Hwr Hrs].
    destruct (ids_ascend rs) eqn:Hids; cbn [negb] in H; [|done].
    destruct (refs_distinct [] rs) eqn:Hrefs; cbn [negb] in H; [|done]. sound_step H.
    apply rd_bind_ok in H as (t & r4 & Ht & H). injection H as <- <-.
    apply orb_prop in Hn as [Hn|Hn]; apply Nat.eqb_eq in Hn as ->; cbn [Nat.eqb] in Ht.
    + injection Ht as <- <-. split; [done|]. unfold encode_code. cbn [repos installation_id test_policy app].
      rewrite (cbor_array_unfold [_; _]). cbn [length concat]. rewrite <- ?app_assoc, ?app_nil_r.
      repeat first [eassumption | eapply consumed_trans; [eassumption|]].
    + apply rd_bind_ok in Ht as (t' & r5 & Ht & He). injection He as <- <-. apply codec_sound in Ht as [Hwt Ht].
      split; [done|]. unfold encode_code. cbn [repos installation_id test_policy app].
      rewrite (cbor_array_unfold [_; _; _]). cbn [length concat]. rewrite <- ?app_assoc, ?app_nil_r.
      repeat first [eassumption | eapply consumed_trans; [eassumption|]].
Qed.

Definition org_ok (o : Org) : Prop :=
  length (org_id o) = ORG_ID_WIDTH ∧ text_ok (gateway_region o) ∧ text_ok (provider o) ∧ text_ok (model o)
  ∧ text_ok (retention_policy o) ∧ text_ok (cost_policy o).

#[global] Instance org_codec : WireCodec org_ok encode_org read_org.
Proof.
  split.
  - intros [a b c d e f] (Ha & Hb & Hc & Hd & He & Hf). cbn in *. unfold read_org, encode_org. cbn.
    apply accepts_counted_items; [items_pos | by vm_compute |]. cbn [length concat Nat.eqb negb]. repeat accept_field.
  - intros r x r' H. unfold read_org in H. count_sound H Hn. apply Nat.eqb_eq in Hn as ->.
    do 6 sound_step H. injection H as <- <-. split; [done|]. unfold encode_org. cbn. array_chain.
Qed.

(** ** The blocks as items *)
Lemma item_text_list l xs : list_ok text_ok xs → item (S (S l)) (cbor_array (cbor_text <$> xs)).
Proof.
  intros [Hf Hl]. apply item_array; [|by rewrite length_fmap].
  apply Forall_fmap. eapply Forall_impl; [exact Hf|]. intros x [Hx _]. by apply item_text.
Qed.

Lemma item_bytes_list l n xs :
  Z.of_nat n ≤ U64_MAX → list_ok (λ v, length v = n) xs → item (S (S l)) (cbor_array (cbor_bytes <$> xs)).
Proof.
  intros Hn [Hf Hl]. apply item_array; [|by rewrite length_fmap].
  apply Forall_fmap. eapply Forall_impl; [exact Hf|]. intros x Hx. by apply item_bytes, (width_ok n).
Qed.

Lemma item_org o : org_ok o → value_ok (encode_org o).
Proof.
  intros (Hi & [H1 _] & [H2 _] & [H3 _] & [H4 _] & [H5 _]).
  apply item_array; [|by vm_compute]. repeat (apply Forall_cons; split); try apply Forall_nil; try exact I;
    [by apply item_bytes, (width_ok 32) | by apply item_text..].
Qed.

Lemma item_repo l r : repo_ok r → item (S (S l)) (encode_repo r).
Proof.
  destruct r as [i ref [b|]]; intros (Hi & [Hr _] & _ & Hb); cbn in Hb; (apply item_array; [|by vm_compute]);
    repeat (apply Forall_cons; split); try apply Forall_nil; try exact I.
  all: first [by apply item_uint | by apply item_text | apply item_text, Hb].
Qed.

Lemma item_code c : code_ok c → value_ok (encode_code c).
Proof.
  destruct c as [rs i [t|]]; intros ((Hrs & Hl) & _ & _ & Hi & Ht);
    cbn [repos installation_id test_policy from_option] in *; (apply item_array; [|by vm_compute]);
    repeat (apply Forall_cons; split); try apply Forall_nil; try exact I; try by apply item_uint.
  - apply item_array; [|rewrite length_fmap; cbn [repos]; int_solve].
    apply Forall_fmap. eapply Forall_impl; [exact Hrs|]. intros x Hx. by apply item_repo.
  - destruct Ht as [[Ha Hal] Ht]. apply item_array; [|by vm_compute].
    repeat (apply Forall_cons; split); try apply Forall_nil; try exact I; [|apply item_uint; int_solve].
    apply item_text_list. split; [|int_solve]. eapply Forall_impl; [exact Ha|]. by intros x [Hx _].
  - apply item_array; [|rewrite length_fmap; cbn [repos]; int_solve].
    apply Forall_fmap. eapply Forall_impl; [exact Hrs|]. intros x Hx. by apply item_repo.
Qed.

(** ** What a decoded card satisfies *)
Lemma capability_str_inj c1 c2 : capability_as_str c1 = capability_as_str c2 → c1 = c2.
Proof. intros Heq. apply (inj Some). by rewrite <- !capability_parse_str, Heq. Qed.

Lemma capabilities_list_ok cs :
  strictly_ascending (capability_as_str <$> cs) = true → list_ok text_ok (capability_as_str <$> cs).
Proof.
  intros Hs%strictly_ascending_spec%strictly_sorted_NoDup. split.
  - apply Forall_fmap, Forall_forall. intros c _. apply capability_text_ok.
  - rewrite length_fmap. apply NoDup_fmap_1 in Hs.
    assert (cs ⊆+ [ChatReply; ReadChannel; ReadTicket; CodePullRequest; CiReport; ComputeRemote]) as Hsub.
    { apply NoDup_submseteq; [done|]. intros [] _; set_solver. }
    apply submseteq_length in Hsub. cbn in Hsub. int_solve.
Qed.

Section card_codec.
Context `{Blake3} `{Lowercase}.

Lemma check_aliases_ok l : check_aliases l = Ok tt ↔ Forall (λ a, a ≠ [] ∧ to_lowercase a = a) l.
Proof.
  induction l as [|a l IH]; cbn [check_aliases]; [by split|]. rewrite Forall_cons, <- IH.
  destruct (bool_decide_reflect (a = [])); [naive_solver|].
  destruct (bool_decide_reflect (a = to_lowercase a)); cbn [negb]; naive_solver.
Qed.

Definition card_ok (c : AgentCard) : Prop :=
  is_u64 (cd_v c) ∧ length (cd_agent_id c) = CARD_AGENT_ID_WIDTH ∧ vec_ok (cd_owner_principal c)
  ∧ text_ok (cd_display_name c)
  ∧ list_ok text_ok (cd_aliases c) ∧ strictly_ascending (cd_aliases c) = true
  ∧ Forall (λ a, a ≠ [] ∧ to_lowercase a = a) (cd_aliases c)
  ∧ list_ok (λ v, length v = CARD_SCOPE_WIDTH) (cd_scopes c)
  ∧ strictly_ascending (capability_as_str <$> cd_capabilities c) = true
  ∧ is_u64 (cd_profile_version c) ∧ is_u64 (cd_issued_at c) ∧ is_u64 (cd_expires_at c)
  ∧ from_option org_ok True (cd_org c) ∧ bool_decide (cd_host_kind c = Organization) = is_some (cd_org c)
  ∧ from_option code_ok True (cd_code c) ∧ contains (cd_capabilities c) CodePullRequest = is_some (cd_code c)
  ∧ contains (cd_capabilities c) CiReport && contains (cd_capabilities c) CodePullRequest = false
  ∧ vec_ok (cd_sig c).

Lemma card_keys c :
  NoDup ((card_body_pairs c ++ card_tail c).*1) ∧ (card_body_pairs c ++ card_tail c).*1 ⊆ CARD_SCHEMA.
Proof.
  destruct c as [? ? ? ? ? ? ? ? ? ? ? ? [] [] ?]; split; apply (bool_decide_unpack _); by vm_compute.
Qed.

Lemma card_body_values c : card_ok c → Forall (pair_ok CARD_SCHEMA) (card_body_pairs c).
Proof.
  intros (Hv & Hi & Ho & Hn & Ha & _ & _ & Hs & Hc & Hp & Hia & Hex & Horg & _ & Hcode & _).
  apply pairs_ok_intro; [| repeat constructor; by vm_compute |].
  { destruct (card_keys c) as [_ Hsub]. rewrite fmap_app in Hsub. set_solver. }
  unfold card_body_pairs. each_pair.
  - by apply (width_ok 32).
  - apply host_kind_u64.
  - apply Hn.
  - by apply item_text_list.
  - by apply (item_bytes_list _ 32).
  - by apply item_text_list, capabilities_list_ok.
  - apply availability_u64.
  - destruct (cd_org c); cbn in *; [by apply item_org | done].
  - destruct (cd_code c); cbn in *; [by apply item_code | done].
Qed.

Lemma card_body_ok c : card_ok c →
  Forall (pair_ok CARD_SCHEMA) (card_body_pairs c) ∧ Z.of_nat (length (card_body_pairs c)) ≤ U64_MAX.
Proof.
  intros Hok. split; [by apply card_body_values|].
  unfold card_body_pairs. rewrite !length_app. cbn [length]. destruct (cd_org c), (cd_code c); by vm_compute.
Qed.

Lemma card_slots c :
  let s := optional_slot (card_body_pairs c ++ card_tail c) in
  s CK_V = Some (cbor_uint (cd_v c))
  ∧ s CK_AGENT_ID = Some (cbor_bytes (cd_agent_id c))
  ∧ s CK_HOST_KIND = Some (cbor_uint (host_kind_raw (cd_host_kind c)))
  ∧ s CK_OWNER_PRINCIPAL = Some (cbor_bytes (cd_owner_principal c))
  ∧ s CK_DISPLAY_NAME = Some (cbor_text (cd_display_name c))
  ∧ s CK_ALIASES = Some (cbor_array (cbor_text <$> cd_aliases c))
  ∧ s CK_SCOPES = Some (cbor_array (cbor_bytes <$> cd_scopes c))
  ∧ s CK_CAPABILITIES = Some (cbor_array (cbor_text <$> (capability_as_str <$> cd_capabilities c)))
  ∧ s CK_AVAILABILITY = Some (cbor_uint (availability_raw (cd_availability c)))
  ∧ s CK_PROFILE_VERSION = Some (cbor_uint (cd_profile_version c))
  ∧ s CK_CARD_HASH = Some (cbor_bytes (card_hash c))
  ∧ s CK_ISSUED_AT = Some (cbor_uint (cd_issued_at c))
  ∧ s CK_EXPIRES_AT = Some (cbor_uint (cd_expires_at c))
  ∧ s CK_ORG = encode_org <$> cd_org c
  ∧ s CK_SIG = Some (cbor_bytes (cd_sig c))
  ∧ s CK_CODE = encode_code <$> cd_code c.
Proof. destruct c as [? ? ? ? ? ? ? ? ? ? ? ? [] [] ?]; intros s; split_and!; reflexivity. Qed.

Lemma transpose_exact {T} (wf : T → Prop) enc (p : rd CardError T) `{!WireCodec wf enc p} o x :
  transpose_slot o (whole CdCbor p) = Ok x ↔ from_option wf True x ∧ o = enc <$> x.
Proof.
  destruct o as [raw|]; cbn [transpose_slot].
  - destruct (whole CdCbor p raw) as [y|e] eqn:Hy; cbn [result_bind].
    + apply (whole_exact CdCbor wf enc p) in Hy as Hw. destruct Hw as [Hw <-].
      split; [intros [= <-]; done|]. destruct x as [z|]; cbn; intros [Hz Heq]; [|done].
      injection Heq as Heq. assert (whole CdCbor p (enc z) = Ok z) as Hz' by by apply (whole_exact CdCbor wf enc p).
      rewrite Heq in Hy. congruence.
    + split; [done|]. destruct x as [z|]; cbn; intros [Hz Heq]; [|done]. injection Heq as ->.
      assert (whole CdCbor p (enc z) = Ok z) as Hz' by by apply (whole_exact CdCbor wf enc p). congruence.
  - destruct x; cbn; naive_solver.
Qed.
End card_codec.

Section card_exact.
Context `{Blake3} `{Lowercase}.

Lemma card_decode_sound data c :
  card_decode data = Ok c → card_ok c ∧ card_encode c = Some data.
Proof.
  unfold card_decode, text_list, decode_org, decode_code. intros Hd. repeat decode_step Hd.
  injection Hd as <-. rename x into slots, x1 into kind, x3 into avail, x4 into aliases, x9 into caps.
  apply parse_capabilities_ok in Hs9 as ->.
  apply (transpose_exact org_ok encode_org read_org) in Hs11 as [Horg Hs11].
  apply (transpose_exact code_ok encode_code read_code) in Hs12 as [Hcode Hs12].
  apply host_kind_raw_parse in Hs1 as ->. apply availability_raw_parse in Hs3 as ->.
  unfold require_canonical in Hs5, Hs8.
  destruct (strictly_ascending aliases) eqn:Hasc; [|done].
  destruct (strictly_ascending (capability_as_str <$> caps)) eqn:Hcsc; [|done].
  destruct x6. apply check_aliases_ok in Hs6. apply negb_true_iff in Hb0. apply eqb_prop in Hb, Hb1.
  apply bool_decide_eq_true in Hb2 as ->.
  set (c := mkCard _ _ _ _ _ _ _ _ _ _ _ _ _ _ _) in *. split.
  - unfold card_ok. split_and!; assumption.
  - destruct (card_keys c) as [Hnd Hsub]. eapply map_of_slots; [exact Hs | exact Hnd | exact Hsub |].
    destruct (card_slots c) as (E1 & E2 & E3 & E4 & E5 & E6 & E7 & E8 & E9 & E10 & E11 & E12 & E13 & E14 & E15 & E16).
    slots_agree.
Qed.

Lemma card_decode_complete `{!Blake3Width} data c :
  card_ok c → card_encode c = Some data → card_decode data = Ok c.
Proof.
  intros Hok Henc.
  assert (Forall (pair_ok CARD_SCHEMA) (card_body_pairs c ++ card_tail c)) as Hvals.
  { apply Forall_app. split; [by apply card_body_values|].
    apply pairs_ok_intro; [apply (bool_decide_unpack _); by vm_compute | repeat constructor; by vm_compute |].
    unfold card_tail. each_pair; [|apply Hok]. apply (width_ok 32); [apply blake3_width | by vm_compute]. }
  destruct (slots_of_map CARD_SCHEMA _ _ Henc Hvals) as (slots & Hslots & Hs).
  { rewrite length_app. destruct (card_body_ok c Hok) as [_ Hl].
    destruct c as [? ? ? ? ? ? ? ? ? ? ? ? [] [] ?]; by vm_compute. }
  pose proof (card_slots c) as (E1 & E2 & E3 & E4 & E5 & E6 & E7 & E8 & E9 & E10 & E11 & E12 & E13 & E14 & E15 & E16).
  rewrite <- Hs in E1, E2, E3, E4, E5, E6, E7, E8, E9, E10, E11, E12, E13, E14, E15, E16. clear Hs Henc Hvals.
  destruct c as [v aid kind owner name aliases scopes caps avail prof iss exp org code sig].
  set (c := mkCard _ _ _ _ _ _ _ _ _ _ _ _ _ _ _) in *.
  destruct Hok as (Hv & Hi & Ho & Hn & Ha & Hasc & Hlow & Hsc & Hcsc & Hp & Hia & Hex & Horg & Hkind & Hcode & Hhas & Hexc & Hsig).
  cbn [cd_v cd_agent_id cd_host_kind cd_owner_principal cd_display_name cd_aliases cd_scopes cd_capabilities cd_availability
    cd_profile_version cd_issued_at cd_expires_at cd_org cd_code cd_sig c] in *.
  unfold card_decode, text_list, decode_org, decode_code. rewrite Hslots. cbn [map_err result_bind].
  read_slot; [|apply host_kind_u64]. rewrite host_kind_parse_raw. cbn [ok_or result_bind].
  read_slot; [|apply availability_u64]. rewrite availability_parse_raw. cbn [ok_or result_bind].
  read_slot. unfold require_canonical at 1. rewrite Hasc. cbn [result_bind].
  rewrite (proj2 (check_aliases_ok aliases)) by done. cbn [result_bind].
  read_slot; [|by apply capabilities_list_ok]. unfold require_canonical at 1. rewrite Hcsc. cbn [result_bind].
  rewrite (proj2 (parse_capabilities_ok _ caps)) by done. cbn [result_bind].
  read_slot.
  rewrite (proj2 (transpose_exact org_ok encode_org read_org _ org)) by done. cbn [result_bind].
  rewrite Hkind, eqb_reflx.
  rewrite (proj2 (transpose_exact code_ok encode_code read_code _ code)) by done. cbn [result_bind].
  rewrite Hexc, Hhas, eqb_reflx. cbn [negb]. do 8 read_slot.
  read_slot; [|apply blake3_width]. by rewrite bool_decide_eq_true_2.
Qed.
End card_exact.

Definition card_strip (c : AgentCard) : AgentCard :=
  mkCard (cd_v c) (cd_agent_id c) (cd_host_kind c) (cd_owner_principal c) (cd_display_name c) (cd_aliases c)
    (cd_scopes c) (cd_capabilities c) (cd_availability c) (cd_profile_version c) (cd_issued_at c) (cd_expires_at c)
    (cd_org c) (cd_code c) [].

#[global] Instance card_signed `{Blake3} `{!Blake3Width} `{Lowercase} :
  SignedRecord CARD_SCHEMA card_ok card_body_pairs card_tail card_decode card_strip.
Proof.
  split; [|intros c; apply card_keys | apply card_body_ok | | done |].
  - intros data c. split; [apply card_decode_sound|]. intros [Hok He]. by apply card_decode_complete.
  - intros c (?&?&?&?&?&?&?&?&?&?&?&?&?&?&?&?&?&?). split_and!; done.
  - intros c1 c2 Heq. unfold card_tail, card_hash, card_signing_input. cbn [cd_sig card_strip].
    change (card_body_pairs (card_strip c1)) with (card_body_pairs c1).
    change (card_body_pairs (card_strip c2)) with (card_body_pairs c2). by rewrite Heq.
Qed.

Section card_theorems.
Context `{Blake3} `{!Blake3Width} `{Lowercase}.

Lemma card_encodes c : is_Some (card_encode c) ∧ is_Some (card_signing_input c).
Proof. apply (signed_encodes c). Qed.

(** C21. Exact card codec: a buffer decodes to a card if and only if the card is
    in canonical form (aliases and capabilities strictly ascending, aliases
    lower case and not empty, an [org] block exactly on organization cards, a
    [code] block exactly with [code.pullrequest], never next to [ci.report],
    its repositories and test policy within their bounds) and the buffer is the
    card's one encoding, with the card hash recomputed over the signed bytes.
    The encoder never panics. *)
Theorem card_codec_exact :
  (∀ data c, card_decode data = Ok c ↔ card_ok c ∧ card_encode c = Some data)
  ∧ (∀ c, is_Some (card_encode c)).
Proof.
  split; [|intros c; apply card_encodes]. intros data c. split; [apply card_decode_sound|].
  intros [Hok He]. by apply card_decode_complete.
Qed.

Lemma card_verified `{AgentEd25519} data c :
  card_decode_verified data = Ok c ↔
  card_decode data = Ok c
  ∧ ∃ m, card_signing_input c = Some m ∧ verify_under (cd_owner_principal c) (cd_sig c) m = true.
Proof.
  unfold card_decode_verified. destruct (card_decode data) as [c'|]; cbn [result_bind]; [|naive_solver].
  unfold card_verify. destruct (card_encodes c') as [_ [m Hm]]. rewrite Hm. cbn [default from_option id].
  destruct (verify_under (cd_owner_principal c') (cd_sig c') m) eqn:Hv; cbn [result_bind].
  - split; [intros [= <-]; split; [done|]; by exists m | intros [[= <-] _]; done].
  - split; [done|]. intros [[= <-] (m' & Hm' & Hv')]. congruence.
Qed.

(** A card hash names one card: two accepted buffers that store the same
    [cardHash] decode to cards equal in every field but the signature, or they
    exhibit two different inputs with one BLAKE3 digest. *)
Theorem card_hash_identity data1 data2 c1 c2 :
  card_decode data1 = Ok c1 → card_decode data2 = Ok c2 → card_hash c1 = card_hash c2 →
  card_strip c1 = card_strip c2 ∨ ∃ m1 m2, card_signing_input c1 = Some m1 ∧ card_signing_input c2 = Some m2 ∧ collision m1 m2.
Proof.
  intros [O1 _]%card_decode_sound [O2 _]%card_decode_sound Hh.
  destruct (card_encodes c1) as [_ [m1 Hm1]]. destruct (card_encodes c2) as [_ [m2 Hm2]].
  unfold card_hash in Hh. rewrite Hm1, Hm2 in Hh. cbn in Hh.
  destruct (decide (m1 = m2)) as [->|Hne]; [left | right; by exists m1, m2].
  apply (signed_input_inj c1 c2 O1 O2). unfold card_signing_input in *. congruence.
Qed.
End card_theorems.

(** ** A card that decodes, and the refusals next to it *)
Definition demo_code : Code :=
  mkCode [mkRepo 7 (ascii_bytes "weald/relay") (Some (ascii_bytes "main"))] 12
    (Some (mkTest [ascii_bytes "make"; ascii_bytes "test"] 600)).
Definition demo_card (caps : list Capability) (org : option Org) (code : option Code) : AgentCard :=
  mkCard PROTOCOL_VERSION (replicate 32 Byte.x07) User (replicate 32 Byte.x11) (ascii_bytes "Builder")
    [ascii_bytes "build"; ascii_bytes "ci"] [replicate 32 Byte.x22] caps Online 3 100 200 org code (replicate 64 Byte.x05).
Definition demo_card_bytes (caps : list Capability) (org : option Org) (code : option Code) : list byte :=
  default [] (card_encode (H := poly_digest) (demo_card caps org code)).

Lemma demo_card_decodes :
  card_decode (H := poly_digest) (H0 := ascii_lower) (demo_card_bytes [ChatReply; CodePullRequest] None (Some demo_code))
  = Ok (demo_card [ChatReply; CodePullRequest] None (Some demo_code)).
Proof. by vm_compute. Qed.

(** C99 witness. *)
Lemma card_hash_identity_witness :
  ∃ c, card_decode (H := poly_digest) (H0 := ascii_lower) (demo_card_bytes [ChatReply] None None) = Ok c
  ∧ (card_strip c = card_strip c
     ∨ ∃ m1 m2, card_signing_input c = Some m1 ∧ card_signing_input c = Some m2 ∧ collision (H := poly_digest) m1 m2).
Proof.
  exists (demo_card [ChatReply] None None). split; [by vm_compute|].
  apply (card_hash_identity (H := poly_digest) (H0 := poly_digest_width) (H1 := ascii_lower)
    (demo_card_bytes [ChatReply] None None) (demo_card_bytes [ChatReply] None None)); by vm_compute.
Defined.

Lemma card_codec_exact_witness :
  card_ok (H0 := ascii_lower) (demo_card [ChatReply; CodePullRequest] None (Some demo_code))
  ∧ card_encode (H := poly_digest) (demo_card [ChatReply; CodePullRequest] None (Some demo_code))
    = Some (demo_card_bytes [ChatReply; CodePullRequest] None (Some demo_code)).
Proof.
  apply (proj1 (card_codec_exact (H := poly_digest) (H0 := poly_digest_width) (H1 := ascii_lower))). by vm_compute.
Defined.

Lemma card_refusals :
  card_decode (H := poly_digest) (H0 := ascii_lower) (demo_card_bytes [CodePullRequest; ChatReply] None (Some demo_code))
  = Err (ListNotCanonical "capabilities")
  ∧ card_decode (H := poly_digest) (H0 := ascii_lower) (demo_card_bytes [CiReport; CodePullRequest] None (Some demo_code))
  = Err CapabilityExclusive
  ∧ card_decode (H := poly_digest) (H0 := ascii_lower) (demo_card_bytes [ChatReply] None (Some demo_code))
  = Err CodeBlockMismatch
  ∧ valid_repo_ref (ascii_bytes "weald/relay/x") = false ∧ valid_repo_ref (ascii_bytes "-weald/relay") = false
  ∧ valid_branch (ascii_bytes "feature/x") = true ∧ valid_branch (ascii_bytes "a..b") = false
  ∧ valid_branch (ascii_bytes "main.") = false.
Proof. by vm_compute. Qed.
