(* ===== verification/AgentInvoke.v ===== *)
(** * Agent invocations

    Models [backend/weald-mls/src/agent_invoke.rs]: the [agent.invoke] record
    with its optional thread, ticket, repository and handoff slots, its codec
    and signature, and the admission checks a host runs on a decoded invoke.
    The file ends with what the four agent records have in common: no signature
    made for one of them verifies for another. *)

From Stdlib Require Import ZArith Lia String.
From stdpp Require Import base tactics numbers sorting sets list.
From S2P Require Import Prelude Cbor Crypto Push AgentCbor AgentLifecycle AgentCard.

Open Scope Z_scope.

Definition INVOKE_INVOCATION_ID_WIDTH : nat := 16.
Definition IDEMPOTENCY_KEY_WIDTH : nat := 32.
Definition TARGET_AGENT_ID_WIDTH : nat := 32.
Definition SOURCE_MESSAGE_ID_WIDTH : nat := 16.
Definition INVOKE_SCOPE_WIDTH : nat := 32.
Definition THREAD_REF_WIDTH : nat := 16.
Definition SKEW_BOUND : Z := 300.

(** [pub mod key]. *)
Definition IK_V : Z := 1.
Definition IK_INVOCATION_ID : Z := 2.
Definition IK_IDEMPOTENCY_KEY : Z := 3.
Definition IK_TARGET_AGENT_ID : Z := 4.
Definition IK_EXPECTED_PROFILE_VERSION : Z := 5.
Definition IK_SOURCE_MESSAGE_ID : Z := 6.
Definition IK_SCOPE : Z := 7.
Definition IK_THREAD_REF : Z := 8.
Definition IK_TICKET_REF : Z := 9.
Definition IK_REQUESTER : Z := 10.
Definition IK_CAPABILITY : Z := 11.
Definition IK_DEADLINE : Z := 12.
Definition IK_SIG : Z := 13.
Definition IK_REPO_REF : Z := 14.
Definition IK_PARENT_INVOCATION_ID : Z := 15.
Definition IK_HOP : Z := 16.
Definition IK_DELEGATOR : Z := 17.
Definition IK_DELEGATOR_SIG : Z := 18.
Definition INVOKE_SCHEMA : list Z :=
  [IK_V; IK_INVOCATION_ID; IK_IDEMPOTENCY_KEY; IK_TARGET_AGENT_ID; IK_EXPECTED_PROFILE_VERSION; IK_SOURCE_MESSAGE_ID;
   IK_SCOPE; IK_THREAD_REF; IK_TICKET_REF; IK_REQUESTER; IK_CAPABILITY; IK_DEADLINE; IK_SIG; IK_REPO_REF;
   IK_PARENT_INVOCATION_ID; IK_HOP; IK_DELEGATOR; IK_DELEGATOR_SIG].

Record Handoff : Type := mkHandoff {
  ho_parent_invocation_id : list byte;
  ho_hop : Z;
  ho_delegator : list byte;
  ho_delegator_sig : list byte
}.

Record AgentInvoke : Type := mkInvoke {
  iv_v : Z;
  iv_invocation_id : list byte;
  iv_idempotency_key : list byte;
  iv_target_agent_id : list byte;
  iv_expected_profile_version : Z;
  iv_source_message_id : list byte;
  iv_scope : list byte;
  iv_thread_ref : option (list byte);
  iv_ticket_ref : option (list byte);
  iv_repo_ref : option (list byte);
  iv_requester : list byte;
  iv_capability : Capability;
  iv_deadline : Z;
  iv_sig : list byte;
  iv_handoff : option Handoff
}.

Inductive InvokeError : Type :=
| IvCbor (error : CborError)
| IvUnknownCapability (raw : list byte)
| IvSignatureInvalid.

Definition invoke_reason (e : InvokeError) : string :=
  match e with
  | IvCbor inner => reason inner
  | IvUnknownCapability _ => "codec.capability.unknown"
  | IvSignatureInvalid => "codec.signature.invalid"
  end.

Abbreviation icbor := (map_err IvCbor).

(** ** Encoding *)
Definition handoff_pairs (o : option Handoff) : list pair_t :=
  match o with
  | Some h => [(IK_PARENT_INVOCATION_ID, cbor_bytes (ho_parent_invocation_id h));
               (IK_HOP, cbor_uint (ho_hop h));
               (IK_DELEGATOR, cbor_bytes (ho_delegator h));
               (IK_DELEGATOR_SIG, cbor_bytes (ho_delegator_sig h))]
  | None => []
  end.

Definition invoke_body_pairs (i : AgentInvoke) : list pair_t :=
  [(IK_V, cbor_uint (iv_v i));
   (IK_INVOCATION_ID, cbor_bytes (iv_invocation_id i));
   (IK_IDEMPOTENCY_KEY, cbor_bytes (iv_idempotency_key i));
   (IK_TARGET_AGENT_ID, cbor_bytes (iv_target_agent_id i));
   (IK_EXPECTED_PROFILE_VERSION, cbor_uint (iv_expected_profile_version i));
   (IK_SOURCE_MESSAGE_ID, cbor_bytes (iv_source_message_id i));
   (IK_SCOPE, cbor_bytes (iv_scope i))]
  ++ push_some IK_THREAD_REF cbor_bytes (iv_thread_ref i)
  ++ push_some IK_TICKET_REF cbor_text (iv_ticket_ref i)
  ++ push_some IK_REPO_REF cbor_text (iv_repo_ref i)
  ++ [(IK_REQUESTER, cbor_bytes (iv_requester i));
      (IK_CAPABILITY, cbor_text (capability_as_str (iv_capability i)));
      (IK_DEADLINE, cbor_uint (iv_deadline i))]
  ++ handoff_pairs (iv_handoff i).

Definition invoke_signing_input (i : AgentInvoke) : option (list byte) := cbor_map (invoke_body_pairs i).
Definition invoke_tail (i : AgentInvoke) : list pair_t := [(IK_SIG, cbor_bytes (iv_sig i))].
Definition invoke_encode (i : AgentInvoke) : option (list byte) := cbor_map (invoke_body_pairs i ++ invoke_tail i).

(** ** Decoding *)
Definition HANDOFF_KEYS : list Z := [IK_PARENT_INVOCATION_ID; IK_HOP; IK_DELEGATOR; IK_DELEGATOR_SIG].

(** All four handoff slots or none. *)
Definition decode_handoff (slots : list pair_t) : result InvokeError (option Handoff) :=
  if existsb (λ k, is_some (optional_slot slots k)) HANDOFF_KEYS then
    match List.find (λ k, negb (is_some (optional_slot slots k))) HANDOFF_KEYS with
    | Some missing => Err (IvCbor (MissingKey missing))
    | None =>
        let? parent := icbor (in_slot slots IK_PARENT_INVOCATION_ID (r_bytes_exact INVOKE_INVOCATION_ID_WIDTH)) in
        let? hop := icbor (in_slot slots IK_HOP r_uint) in
        let? delegator := icbor (in_slot slots IK_DELEGATOR r_bytes) in
        let? delegator_sig := icbor (in_slot slots IK_DELEGATOR_SIG r_bytes) in
        Ok (Some (mkHandoff parent hop delegator delegator_sig))
    end
  else Ok None.

Definition invoke_decode (data : list byte) : result InvokeError AgentInvoke :=
  let? slots := icbor (read_schema INVOKE_SCHEMA data) in
  let? capability_raw := icbor (in_slot slots IK_CAPABILITY r_text) in
  let? capability := ok_or (capability_parse capability_raw) (IvUnknownCapability capability_raw) in
  let? thread_ref := icbor (in_optional_slot slots IK_THREAD_REF (r_bytes_exact THREAD_REF_WIDTH)) in
  let? ticket_ref := icbor (in_optional_slot slots IK_TICKET_REF r_text) in
  let? repo_ref := icbor (in_optional_slot slots IK_REPO_REF r_text) in
  let? handoff := decode_handoff slots in
  let? v := icbor (in_slot slots IK_V r_uint) in
  let? invocation_id := icbor (in_slot slots IK_INVOCATION_ID (r_bytes_exact INVOKE_INVOCATION_ID_WIDTH)) in
  let? idempotency_key := icbor (in_slot slots IK_IDEMPOTENCY_KEY (r_bytes_exact IDEMPOTENCY_KEY_WIDTH)) in
  let? target := icbor (in_slot slots IK_TARGET_AGENT_ID (r_bytes_exact TARGET_AGENT_ID_WIDTH)) in
  let? profile := icbor (in_slot slots IK_EXPECTED_PROFILE_VERSION r_uint) in
  let? source := icbor (in_slot slots IK_SOURCE_MESSAGE_ID (r_bytes_exact SOURCE_MESSAGE_ID_WIDTH)) in
  let? scope := icbor (in_slot slots IK_SCOPE (r_bytes_exact INVOKE_SCOPE_WIDTH)) in
  let? requester := icbor (in_slot slots IK_REQUESTER r_bytes) in
  let? deadline := icbor (in_slot slots IK_DEADLINE r_uint) in
  let? sig := icbor (in_slot slots IK_SIG r_bytes) in
  Ok (mkInvoke v invocation_id idempotency_key target profile source scope thread_ref ticket_ref repo_ref
        requester capability deadline sig handoff).

Definition invoke_verify `{AgentEd25519} (i : AgentInvoke) : result InvokeError unit :=
  if verify_under (iv_requester i) (iv_sig i) (default [] (invoke_signing_input i))
  then Ok tt else Err IvSignatureInvalid.
Definition invoke_decode_verified `{AgentEd25519} (data : list byte) : result InvokeError AgentInvoke :=
  let? i := invoke_decode data in let? _ := invoke_verify i in Ok i.

(** ** Admission *)
Record AdmissionContext : Type := mkAdmission {
  ac_envelope_group : list byte;
  ac_now : Z;
  ac_protocol_version : Z
}.

(** [now > deadline && now - deadline > SKEW_BOUND], on [u64]s. *)
Definition deadline_has_passed (deadline now : Z) : bool :=
  (deadline <? now) && (SKEW_BOUND <? now - deadline).

Definition admission_refusal (i : AgentInvoke) (c : AdmissionContext) : option string :=
  if ac_protocol_version c <? iv_v i then Some "version.unsupported"%string
  else if negb (bool_decide (iv_scope i = ac_envelope_group c)) then Some "scope.notmember"%string
  else if deadline_has_passed (iv_deadline i) (ac_now c) then Some "deadline.passed"%string
  else None.

(** ** The codec *)
Definition handoff_ok (h : Handoff) : Prop :=
  length (ho_parent_invocation_id h) = INVOKE_INVOCATION_ID_WIDTH ∧ is_u64 (ho_hop h)
  ∧ vec_ok (ho_delegator h) ∧ vec_ok (ho_delegator_sig h).

Definition handoff_slots (s : Z → option (list byte)) (o : option Handoff) : Prop :=
  s IK_PARENT_INVOCATION_ID = (λ h, cbor_bytes (ho_parent_invocation_id h)) <$> o
  ∧ s IK_HOP = (λ h, cbor_uint (ho_hop h)) <$> o
  ∧ s IK_DELEGATOR = (λ h, cbor_bytes (ho_delegator h)) <$> o
  ∧ s IK_DELEGATOR_SIG = (λ h, cbor_bytes (ho_delegator_sig h)) <$> o.

(** A handoff is carried whole or not at all. *)
Lemma decode_handoff_exact slots o :
  decode_handoff slots = Ok o ↔ from_option handoff_ok True o ∧ handoff_slots (optional_slot slots) o.
Proof.
  unfold decode_handoff, HANDOFF_KEYS. cbn [existsb List.find]. split.
  - intros Hd.
    destruct (optional_slot slots IK_PARENT_INVOCATION_ID) eqn:K1, (optional_slot slots IK_HOP) eqn:K2,
      (optional_slot slots IK_DELEGATOR) eqn:K3, (optional_slot slots IK_DELEGATOR_SIG) eqn:K4;
      cbn [is_some negb orb] in Hd; try done.
    + repeat decode_step Hd. injection Hd as <-. unfold handoff_slots. rewrite K1, K2, K3, K4. cbn.
      unfold handoff_ok. cbn. split_and!; try done; congruence.
    + injection Hd as <-. unfold handoff_slots. by rewrite K1, K2, K3, K4.
  - intros [Hok (K1 & K2 & K3 & K4)]. destruct o as [[p hop d ds]|]; cbn in K1, K2, K3, K4.
    + destruct Hok as (H1 & H2 & H3 & H4). cbn in H1, H2, H3, H4. rewrite K1, K2, K3, K4. cbn [is_some negb orb].
      by repeat read_slot.
    + by rewrite K1, K2, K3, K4.
Qed.

Definition invoke_ok (i : AgentInvoke) : Prop :=
  is_u64 (iv_v i) ∧ length (iv_invocation_id i) = INVOKE_INVOCATION_ID_WIDTH
  ∧ length (iv_idempotency_key i) = IDEMPOTENCY_KEY_WIDTH ∧ length (iv_target_agent_id i) = TARGET_AGENT_ID_WIDTH
  ∧ is_u64 (iv_expected_profile_version i) ∧ length (iv_source_message_id i) = SOURCE_MESSAGE_ID_WIDTH
  ∧ length (iv_scope i) = INVOKE_SCOPE_WIDTH
  ∧ from_option (λ t, length t = THREAD_REF_WIDTH) True (iv_thread_ref i)
  ∧ from_option text_ok True (iv_ticket_ref i) ∧ from_option text_ok True (iv_repo_ref i)
  ∧ vec_ok (iv_requester i) ∧ is_u64 (iv_deadline i) ∧ vec_ok (iv_sig i) ∧ from_option handoff_ok True (iv_handoff i).

Lemma invoke_keys i :
  NoDup ((invoke_body_pairs i ++ invoke_tail i).*1) ∧ (invoke_body_pairs i ++ invoke_tail i).*1 ⊆ INVOKE_SCHEMA.
Proof.
  destruct i as [? ? ? ? ? ? ? [] [] [] ? ? ? ? []]; split; apply (bool_decide_unpack _); by vm_compute.
Qed.

Lemma invoke_values i : invoke_ok i → Forall (pair_ok INVOKE_SCHEMA) (invoke_body_pairs i ++ invoke_tail i).
Proof.
  intros (Hv & Hi & Hk & Ht & Hp & Hs & Hsc & Hth & Hti & Hre & Hrq & Hdl & Hsg & Hh).
  apply pairs_ok_intro; [apply invoke_keys | repeat constructor; by vm_compute |].
  unfold invoke_body_pairs, invoke_tail. each_pair.
  all: try (by apply (width_ok 16)); try (by apply (width_ok 32)).
  - destruct (iv_thread_ref i); cbn in *; [by apply value_bytes, (width_ok 16) | done].
  - destruct (iv_ticket_ref i); cbn in *; [by apply value_text, Hti | done].
  - destruct (iv_repo_ref i); cbn in *; [by apply value_text, Hre | done].
  - apply capability_text_ok.
  - destruct (iv_handoff i) as [h|]; [|apply Forall_nil; exact I]. destruct Hh as (H1 & H2 & H3 & H4).
    cbn [handoff_pairs]. each_pair. by apply (width_ok 16).
Qed.

Lemma invoke_slots i :
  let s := optional_slot (invoke_body_pairs i ++ invoke_tail i) in
  s IK_V = Some (cbor_uint (iv_v i))
  ∧ s IK_INVOCATION_ID = Some (cbor_bytes (iv_invocation_id i))
  ∧ s IK_IDEMPOTENCY_KEY = Some (cbor_bytes (iv_idempotency_key i))
  ∧ s IK_TARGET_AGENT_ID = Some (cbor_bytes (iv_target_agent_id i))
  ∧ s IK_EXPECTED_PROFILE_VERSION = Some (cbor_uint (iv_expected_profile_version i))
  ∧ s IK_SOURCE_MESSAGE_ID = Some (cbor_bytes (iv_source_message_id i))
  ∧ s IK_SCOPE = Some (cbor_bytes (iv_scope i))
  ∧ s IK_THREAD_REF = cbor_bytes <$> iv_thread_ref i
  ∧ s IK_TICKET_REF = cbor_text <$> iv_ticket_ref i
  ∧ s IK_REQUESTER = Some (cbor_bytes (iv_requester i))
  ∧ s IK_CAPABILITY = Some (cbor_text (capability_as_str (iv_capability i)))
  ∧ s IK_DEADLINE = Some (cbor_uint (iv_deadline i))
  ∧ s IK_SIG = Some (cbor_bytes (iv_sig i))
  ∧ s IK_REPO_REF = cbor_text <$> iv_repo_ref i
  ∧ handoff_slots s (iv_handoff i).
Proof. destruct i as [? ? ? ? ? ? ? [] [] [] ? ? ? ? []]; intros s; unfold handoff_slots; split_and!; reflexivity. Qed.

Lemma invoke_decode_sound data i :
  invoke_decode data = Ok i → invoke_ok i ∧ invoke_encode i = Some data.
Proof.
  unfold invoke_decode. intros Hd. repeat decode_step Hd. injection Hd as <-.
  rename x into slots, x1 into cap, x5 into handoff.
  apply decode_handoff_exact in Hs5 as [Hho (K1 & K2 & K3 & K4)].
  apply capability_str_parse in Hs1 as ->.
  set (i := mkInvoke _ _ _ _ _ _ _ _ _ _ _ _ _ _ _). split.
  - unfold invoke_ok. split_and!; assumption.
  - destruct (invoke_keys i) as [Hnd Hsub]. eapply map_of_slots; [exact Hs | exact Hnd | exact Hsub |].
    destruct (invoke_slots i) as (E1 & E2 & E3 & E4 & E5 & E6 & E7 & E8 & E9 & E10 & E11 & E12 & E13 & E14 & E15 & E16 & E17 & E18).
    slots_agree.
Qed.

Lemma invoke_length i : Z.of_nat (length (invoke_body_pairs i ++ invoke_tail i)) ≤ U64_MAX.
Proof. destruct i as [? ? ? ? ? ? ? [] [] [] ? ? ? ? []]; by vm_compute. Qed.

Lemma invoke_decode_complete data i :
  invoke_ok i → invoke_encode i = Some data → invoke_decode data = Ok i.
Proof.
  intros Hok Henc.
  destruct (slots_of_map INVOKE_SCHEMA _ _ Henc (invoke_values i Hok) (invoke_length i)) as (slots & Hslots & Hs).
  pose proof (invoke_slots i) as (E1 & E2 & E3 & E4 & E5 & E6 & E7 & E8 & E9 & E10 & E11 & E12 & E13 & E14 & K1 & K2 & K3 & K4).
  rewrite <- Hs in E1, E2, E3, E4, E5, E6, E7, E8, E9, E10, E11, E12, E13, E14, K1, K2, K3, K4. clear Hs Henc.
  destruct i as [v inv ik tgt prof src scope th ti re rq cap dl sig ho].
  destruct Hok as (Hv & Hi & Hk & Ht & Hp & Hs & Hsc & Hth & Hti & Hre & Hrq & Hdl & Hsg & Hh).
  cbn [iv_v iv_invocation_id iv_idempotency_key iv_target_agent_id iv_expected_profile_version iv_source_message_id iv_scope
    iv_thread_ref iv_ticket_ref iv_repo_ref iv_requester iv_capability iv_deadline iv_sig iv_handoff] in *.
  unfold invoke_decode. rewrite Hslots. cbn [map_err result_bind].
  read_slot; [|apply capability_text_ok]. rewrite capability_parse_str. cbn [ok_or result_bind].
  do 3 read_slot. rewrite (proj2 (decode_handoff_exact slots ho)) by done. cbn [result_bind].
  by repeat read_slot.
Qed.

Definition invoke_strip (i : AgentInvoke) : AgentInvoke :=
  mkInvoke (iv_v i) (iv_invocation_id i) (iv_idempotency_key i) (iv_target_agent_id i) (iv_expected_profile_version i)
    (iv_source_message_id i) (iv_scope i) (iv_thread_ref i) (iv_ticket_ref i) (iv_repo_ref i) (iv_requester i)
    (iv_capability i) (iv_deadline i) [] (iv_handoff i).

#[global] Instance invoke_signed :
  SignedRecord INVOKE_SCHEMA invoke_ok invoke_body_pairs invoke_tail invoke_decode invoke_strip.
Proof.
  split; [|intros i; apply invoke_keys | | | done | done].
  - intros data i. split; [apply invoke_decode_sound|]. intros [Hok He]. by apply invoke_decode_complete.
  - intros i H%invoke_values. apply Forall_app in H as [H _]. split; [done|].
    pose proof (invoke_length i) as Hl. rewrite length_app in Hl. lia.
  - intros i (?&?&?&?&?&?&?&?&?&?&?&?&?&?). split_and!; done.
Qed.

Lemma invoke_encodes i : is_Some (invoke_encode i) ∧ is_Some (invoke_signing_input i).
Proof. apply (signed_encodes i). Qed.

(** Exact invoke codec: a buffer decodes to an invoke if and only if every
    field has its width, the optional slots are well formed and the handoff is
    carried whole or not at all, and the buffer is the invoke's one encoding:
    an absent slot is absent on the wire, never a placeholder. The encoder
    never panics. *)
Theorem invoke_codec_exact :
  (∀ data i, invoke_decode data = Ok i ↔ invoke_ok i ∧ invoke_encode i = Some data)
  ∧ (∀ i, is_Some (invoke_encode i)).
Proof.
  split; [|intros i; apply invoke_encodes]. intros data i. split; [apply invoke_decode_sound|].
  intros [Hok He]. by apply invoke_decode_complete.
Qed.

Lemma invoke_verified `{AgentEd25519} data i :
  invoke_decode_verified data = Ok i ↔
  invoke_decode data = Ok i
  ∧ ∃ m, invoke_signing_input i = Some m ∧ verify_under (iv_requester i) (iv_sig i) m = true.
Proof.
  unfold invoke_decode_verified. destruct (invoke_decode data) as [i'|]; cbn [result_bind]; [|naive_solver].
  unfold invoke_verify. destruct (invoke_encodes i') as [_ [m Hm]]. rewrite Hm. cbn [default from_option id].
  destruct (verify_under (iv_requester i') (iv_sig i') m) eqn:Hv; cbn [result_bind].
  - split; [intros [= <-]; split; [done|]; by exists m | intros [[= <-] _]; done].
  - split; [done|]. intros [[= <-] (m' & Hm' & Hv')]. congruence.
Qed.

(** ** Admission *)
Lemma deadline_has_passed_spec deadline now :
  deadline_has_passed deadline now = true ↔ deadline + SKEW_BOUND < now.
Proof. unfold deadline_has_passed, SKEW_BOUND. rewrite andb_true_iff, !Z.ltb_lt. lia. Qed.

(** Admission: an invoke passes the host's three checks exactly when its
    version is one the host speaks, it names the group of the envelope it came
    in, and the clock is at most the skew bound past its deadline, with no
    wrap-around at either end of the 64-bit range; the checks refuse in that
    order, and each refusal is a word of the lifecycle vocabulary. *)
Theorem admission_exact i c :
  (admission_refusal i c = None ↔
     iv_v i ≤ ac_protocol_version c ∧ iv_scope i = ac_envelope_group c ∧ ac_now c ≤ iv_deadline i + SKEW_BOUND)
  ∧ (admission_refusal i c = Some "version.unsupported"%string ↔ ac_protocol_version c < iv_v i)
  ∧ (admission_refusal i c = Some "scope.notmember"%string ↔
       iv_v i ≤ ac_protocol_version c ∧ iv_scope i ≠ ac_envelope_group c)
  ∧ (∀ word, admission_refusal i c = Some word → ascii_bytes word ∈ LIFECYCLE_REASONS).
Proof.
  assert (∀ w, bool_decide (ascii_bytes w ∈ LIFECYCLE_REASONS) = true → ascii_bytes w ∈ LIFECYCLE_REASONS) as Hin.
  { intros w. apply bool_decide_eq_true. }
  pose proof (deadline_has_passed_spec (iv_deadline i) (ac_now c)) as Hd.
  unfold admission_refusal. destruct (Z.ltb_spec (ac_protocol_version c) (iv_v i)).
  { split_and!; [split; [done | intros (? & _); lia] | done | split; [done | intros (? & _); lia] |].
    intros w [= <-]. apply Hin. vm_compute. reflexivity. }
  destruct (bool_decide_reflect (iv_scope i = ac_envelope_group c)) as [Hs|Hs]; cbn [negb];
    [destruct (deadline_has_passed _ _)|].
  - pose proof (proj1 Hd eq_refl).
    split_and!; [split; [done | intros (_ & _ & ?); lia] | split; [done | lia] | split; [done | by intros (_ & ?)] |].
    intros w [= <-]. apply Hin. vm_compute. reflexivity.
  - assert (¬ iv_deadline i + SKEW_BOUND < ac_now c) by (rewrite <- Hd; done).
    split_and!; [split; [intros _; split_and!; [done..|lia] | done] | split; [done|lia] | split; [done | by intros (_ & ?)] | done].
  - split_and!; [split; [done | by intros (_ & ? & _)] | split; [done|lia] | done |].
    intros w [= <-]. apply Hin. vm_compute. reflexivity.
Qed.

(** ** One signature, one kind of record *)
Lemma cbor_head_inj m1 v1 t1 m2 v2 t2 :
  0 ≤ m1 < 8 → 0 ≤ m2 < 8 → is_u64 v1 → is_u64 v2 →
  cbor_head m1 v1 ++ t1 = cbor_head m2 v2 ++ t2 → m1 = m2 ∧ v1 = v2.
Proof.
  intros M1 M2 V1 V2 Heq. pose proof (r_head_at [] m1 v1 t1 M1 V1) as H1.
  pose proof (r_head_at [] m2 v2 t2 M2 V2) as H2. cbn [app] in H1, H2. rewrite Heq, H2 in H1. by injection H1 as -> ->.
Qed.

Lemma uint_not_bytes v b : is_u64 v → vec_ok b → cbor_uint v ≠ cbor_bytes b.
Proof.
  intros Hv Hb Heq. unfold cbor_uint, cbor_bytes in Heq. rewrite <- (app_nil_r (cbor_head 0 v)) in Heq.
  apply cbor_head_inj in Heq as [? _]; [done | lia | lia | done |]. unfold vec_ok, len in *. unfold is_u64. lia.
Qed.

Lemma widths_differ a b : length a = 16%nat → length b = 32%nat → cbor_bytes a ≠ cbor_bytes b.
Proof.
  intros Ha Hb Heq. unfold cbor_bytes in Heq.
  apply cbor_head_inj in Heq as [_ Hl]; unfold len in *; rewrite ?Ha, ?Hb in *; done || int_solve.
Qed.

Section separation.
Context `{Blake3} `{!Blake3Width} `{Lowercase}.

(** C18. Signatures do not cross records: although no agent record carries a
    type tag in its signed bytes, the bytes signed for a well-formed lifecycle
    record, lease, card and invoke never coincide across two kinds, so a
    signature made over one of them is never a signature over another. *)
Theorem agent_signing_inputs_disjoint r l c i :
  lifecycle_ok r → lease_ok l → card_ok c → invoke_ok i →
  lifecycle_signing_input r ≠ lease_signing_input l ∧ lifecycle_signing_input r ≠ card_signing_input c
  ∧ lifecycle_signing_input r ≠ invoke_signing_input i ∧ lease_signing_input l ≠ card_signing_input c
  ∧ lease_signing_input l ≠ invoke_signing_input i ∧ card_signing_input c ≠ invoke_signing_input i.
Proof.
  intros Hr Hl Hc Hi.
  assert (length (lc_invocation_id r) = 16%nat) as R2 by apply Hr.
  assert (length (ls_agent_id l) = 32%nat) as L2 by apply Hl.
  assert (length (cd_agent_id c) = 32%nat) as C2 by apply Hc.
  assert (length (iv_invocation_id i) = 16%nat) as I2 by apply Hi.
  assert (length (iv_idempotency_key i) = 32%nat) as I3 by apply Hi.
  assert (vec_ok (ls_holder l)) as L3 by apply Hl.
  split_and!; intros Heq.
  - pose proof (signed_slots_agree r l Hr Hl Heq 2) as H2. injection H2 as H2. exact (widths_differ _ _ R2 L2 H2).
  - pose proof (signed_slots_agree r c Hr Hc Heq 2) as H2. injection H2 as H2. exact (widths_differ _ _ R2 C2 H2).
  - pose proof (signed_slots_agree r i Hr Hi Heq 3) as H3. injection H3 as H3.
    eapply uint_not_bytes; [apply (state_u64 (lc_state r)) | | exact H3]. by apply (width_ok 32).
  - pose proof (signed_slots_agree l c Hl Hc Heq 3) as H3. injection H3 as H3. symmetry in H3.
    by eapply uint_not_bytes; [apply (host_kind_u64 (cd_host_kind c)) | | exact H3].
  - pose proof (signed_slots_agree l i Hl Hi Heq 2) as H2. injection H2 as H2. symmetry in H2. exact (widths_differ _ _ I2 L2 H2).
  - pose proof (signed_slots_agree c i Hc Hi Heq 2) as H2. injection H2 as H2. symmetry in H2. exact (widths_differ _ _ I2 C2 H2).
Qed.

(** What a verified signature covers: when two buffers of one kind decode
    and verify and their signed bytes are equal, the records agree in every
    field but the signature, for each of the four kinds; a record the verifier
    accepts cannot be reread as a different one under the same signed bytes. *)
Theorem verified_records_bound `{AgentEd25519} data1 data2 :
  (∀ r1 r2, lifecycle_decode_verified data1 = Ok r1 → lifecycle_decode_verified data2 = Ok r2 →
     lifecycle_signing_input r1 = lifecycle_signing_input r2 → lifecycle_with_sig r1 [] = lifecycle_with_sig r2 [])
  ∧ (∀ l1 l2, lease_decode_verified data1 = Ok l1 → lease_decode_verified data2 = Ok l2 →
     lease_signing_input l1 = lease_signing_input l2 → lease_with_sig l1 [] = lease_with_sig l2 [])
  ∧ (∀ c1 c2, card_decode_verified data1 = Ok c1 → card_decode_verified data2 = Ok c2 →
     card_signing_input c1 = card_signing_input c2 → card_strip c1 = card_strip c2)
  ∧ (∀ i1 i2, invoke_decode_verified data1 = Ok i1 → invoke_decode_verified data2 = Ok i2 →
     invoke_signing_input i1 = invoke_signing_input i2 → invoke_strip i1 = invoke_strip i2).
Proof.
  split_and!; intros x1 x2 V1 V2 Heq.
  - apply lifecycle_verified in V1 as [D1 _], V2 as [D2 _].
    apply lifecycle_decode_sound in D1 as [O1 _], D2 as [O2 _]. exact (signed_input_inj (SR := lifecycle_signed) x1 x2 O1 O2 Heq).
  - apply lease_verified in V1 as [D1 _], V2 as [D2 _].
    apply lease_codec_exact in D1 as [O1 _], D2 as [O2 _]. exact (signed_input_inj (SR := lease_signed) x1 x2 O1 O2 Heq).
  - apply card_verified in V1 as [D1 _], V2 as [D2 _].
    apply card_decode_sound in D1 as [O1 _], D2 as [O2 _]. exact (signed_input_inj (SR := card_signed) x1 x2 O1 O2 Heq).
  - apply invoke_verified in V1 as [D1 _], V2 as [D2 _].
    apply invoke_decode_sound in D1 as [O1 _], D2 as [O2 _]. exact (signed_input_inj (SR := invoke_signed) x1 x2 O1 O2 Heq).
Qed.
End separation.

(** ** Closed instances *)
Definition demo_lifecycle : AgentLifecycle :=
  mkLifecycle 2 (replicate 16 Byte.x01) Failed 100 (replicate 32 Byte.x11) (Some (ascii_bytes "budget.rate"))
    (Some (ascii_bytes "over budget")) None None (replicate 64 Byte.x05).
Definition demo_lease : AgentLease :=
  mkLease 2 (replicate 32 Byte.x07) (replicate 32 Byte.x11) 4 100 200 (replicate 64 Byte.x05).
Definition demo_invoke (th : option (list byte)) (ho : option Handoff) : AgentInvoke :=
  mkInvoke 2 (replicate 16 Byte.x01) (replicate 32 Byte.x02) (replicate 32 Byte.x07) 3 (replicate 16 Byte.x03)
    (replicate 32 Byte.x22) th (Some (ascii_bytes "T-1")) None (replicate 32 Byte.x11) ChatReply 1000
    (replicate 64 Byte.x05) ho.
Definition demo_handoff : Handoff := mkHandoff (replicate 16 Byte.x09) 1 (replicate 32 Byte.x0a) (replicate 64 Byte.x0b).

Lemma demo_records_ok :
  lifecycle_ok demo_lifecycle ∧ lease_ok demo_lease ∧ invoke_ok (demo_invoke None (Some demo_handoff))
  ∧ card_ok (H0 := ascii_lower) (demo_card [ChatReply] None None).
Proof.
  split_and!.
  - apply (lifecycle_decode_sound (default [] (lifecycle_encode demo_lifecycle))). by vm_compute.
  - apply (lease_codec_exact (default [] (lease_encode demo_lease))). by vm_compute.
  - apply (invoke_decode_sound (default [] (invoke_encode (demo_invoke None (Some demo_handoff))))). by vm_compute.
  - apply (card_decode_sound (H := poly_digest) (H0 := ascii_lower) (demo_card_bytes [ChatReply] None None)). by vm_compute.
Qed.

Lemma agent_signing_inputs_disjoint_witness :
  lifecycle_signing_input demo_lifecycle ≠ lease_signing_input demo_lease
  ∧ lifecycle_signing_input demo_lifecycle ≠ card_signing_input (demo_card [ChatReply] None None)
  ∧ lifecycle_signing_input demo_lifecycle ≠ invoke_signing_input (demo_invoke None (Some demo_handoff))
  ∧ lease_signing_input demo_lease ≠ card_signing_input (demo_card [ChatReply] None None)
  ∧ lease_signing_input demo_lease ≠ invoke_signing_input (demo_invoke None (Some demo_handoff))
  ∧ card_signing_input (demo_card [ChatReply] None None) ≠ invoke_signing_input (demo_invoke None (Some demo_handoff)).
Proof.
  destruct demo_records_ok as (Hr & Hl & Hi & Hc).
  apply (agent_signing_inputs_disjoint (H := poly_digest) (H0 := poly_digest_width) (H1 := ascii_lower)); assumption.
Defined.

(** A toy signature scheme for the closed instance. *)
Definition toy_agent_keys : AgentEd25519 := {|
  key_from_bytes _ := true;
  key_verify key message sig := bool_decide (sig = toy_sign key message)
|}.
Definition demo_signed : AgentLifecycle :=
  lifecycle_with_sig demo_lifecycle
    (toy_sign (replicate 32 Byte.x11) (default [] (lifecycle_signing_input demo_lifecycle))).
Definition demo_signed_bytes : list byte := default [] (lifecycle_encode demo_signed).

Lemma verified_records_bound_witness :
  lifecycle_decode_verified (H := toy_agent_keys) demo_signed_bytes = Ok demo_signed
  ∧ lifecycle_with_sig demo_signed [] = lifecycle_with_sig demo_signed [].
Proof.
  assert (lifecycle_decode_verified (H := toy_agent_keys) demo_signed_bytes = Ok demo_signed) as Hv by (vm_compute; reflexivity).
  split; [exact Hv|].
  apply (proj1 (verified_records_bound (H := poly_digest) (H0 := poly_digest_width) (H1 := ascii_lower) (H2 := toy_agent_keys)
    demo_signed_bytes demo_signed_bytes)); [exact Hv | exact Hv | reflexivity].
Defined.

(** The order of refusals: an invoke with a misshapen [thread_ref] and no [v]
    is refused for the optional slot, which is read before the fixed ones; a
    handoff missing one of its slots is refused for that slot. *)
Lemma optional_slots_checked_first :
  let pairs := filter (λ p : pair_t, p.1 ≠ IK_V)
    (invoke_body_pairs (demo_invoke (Some (replicate 15 Byte.x00)) None) ++ invoke_tail (demo_invoke None None)) in
  invoke_decode (pairs_bytes (sort_by_key pairs)) = Err (IvCbor (WrongLength 16 15))
  ∧ invoke_decode (pairs_bytes (sort_by_key (filter (λ p : pair_t, p.1 ≠ IK_HOP)
      (invoke_body_pairs (demo_invoke None (Some demo_handoff)) ++ invoke_tail (demo_invoke None None)))))
    = Err (IvCbor (MissingKey IK_HOP)).
Proof. by vm_compute. Qed.
