(* ===== verification/MlsBoundary.v ===== *)
(** * The C boundary of the MLS library

    Models [backend/weald-mls/src/status.rs], [boundary.rs], [buffer.rs],
    [handle.rs] and [handshake_record.rs]: the status every entry point answers
    with, the guard that turns errors and panics into it, the checks on what a
    caller passes in, the buffers and handles that cross, and the framing of the
    records on a group's handshake stream.

    The allocator is a store from addresses to cells; reading or freeing an
    address that is not allocated has no answer ([None]), the undefined
    behaviour the source's safety contracts exclude. Messages inside errors are
    left out. *)

From Stdlib Require Import ZArith Lia String.
From stdpp Require Import base tactics numbers gmap sets list.
From S2P Require Import Prelude Cbor Push AgentCbor.

Open Scope Z_scope.

(** ** Status *)
Inductive Status : Type :=
| StOk | StInvalidArgument | StInvalidHandle | StWrongThread | StProtocol | StMalformed | StStorage | StPanicked.
#[global] Instance Status_eq_dec : EqDecision Status.
Proof. solve_decision. Defined.

(** The [repr(i32)] discriminants. *)
Definition status_code (s : Status) : Z :=
  match s with
  | StOk => 0 | StInvalidArgument => 1 | StInvalidHandle => 2 | StWrongThread => 3
  | StProtocol => 4 | StMalformed => 5 | StStorage => 6 | StPanicked => 7
  end.
Definition status_label (s : Status) : string :=
  match s with
  | StOk => "ok" | StInvalidArgument => "invalid_argument" | StInvalidHandle => "invalid_handle"
  | StWrongThread => "wrong_thread" | StProtocol => "protocol" | StMalformed => "malformed"
  | StStorage => "storage" | StPanicked => "panicked"
  end.
Definition ALL_STATUSES : list Status :=
  [StOk; StInvalidArgument; StInvalidHandle; StWrongThread; StProtocol; StMalformed; StStorage; StPanicked].

Inductive MlsError : Type :=
| MlsInvalidArgument | MlsInvalidHandle | MlsWrongThread | MlsProtocol | MlsMalformed | MlsStorage.

Definition error_status (e : MlsError) : Status :=
  match e with
  | MlsInvalidArgument => StInvalidArgument | MlsInvalidHandle => StInvalidHandle | MlsWrongThread => StWrongThread
  | MlsProtocol => StProtocol | MlsMalformed => StMalformed | MlsStorage => StStorage
  end.

Definition LABELS : list string :=
  ["ok"; "invalid_argument"; "invalid_handle"; "wrong_thread"; "protocol"; "malformed"; "storage"; "panicked";
   "unknown"]%string.
(** [weald_mls_status_label(status: i32)]: a code outside the table is unknown. *)
Definition weald_mls_status_label (status : Z) : string :=
  let index := if (0 <=? status) && (status <? Z.of_nat (length LABELS - 1))
               then Z.to_nat status else (length LABELS - 1)%nat in
  default "unknown"%string (LABELS !! index).

(** ** The guard *)
Inductive Outcome (T : Type) : Type := Returned (r : result MlsError T) | Unwound.
Arguments Returned {T} r.
Arguments Unwound {T}.

(** The status, and the value handed to [on_ok] if it ran. *)
Definition guard {T} (body : Outcome T) : Status * option T :=
  match body with
  | Returned (Ok value) => (StOk, Some value)
  | Returned (Err error) => (error_status error, None)
  | Unwound => (StPanicked, None)
  end.

(** A pointer is null or points at readable memory; [len] bytes of it are read. *)
Definition read_slice (bytes : option (list byte)) (len : nat) : result MlsError (list byte) :=
  match bytes with
  | None => if (len =? 0)%nat then Ok [] else Err MlsInvalidArgument
  | Some memory => Ok (take len memory)
  end.
Definition required_slice (bytes : option (list byte)) (len : nat) : result MlsError (list byte) :=
  let? found := read_slice bytes len in
  if bool_decide (found = []) then Err MlsInvalidArgument else Ok found.
(** A NUL-terminated string, given by the bytes before its terminator. *)
Definition read_text (text : option (list byte)) : result MlsError (list byte) :=
  match text with
  | None => Err MlsInvalidArgument
  | Some raw => if utf8_valid raw then Ok raw else Err MlsInvalidArgument
  end.

(** ** Buffers *)
Definition Address : Type := positive.
(** An allocation holds as many bytes as its capacity. *)
Notation Heap := (gmap Address (list byte)).

(** A [Vec<u8>] whose allocation is at [vec_at]: its elements, and what the rest
    of its capacity holds. *)
Record ByteVec : Type := mkByteVec { vec_at : Address; vec_bytes : list byte; vec_spare : list byte }.
Definition vec_capacity (v : ByteVec) : nat := length (vec_bytes v) + length (vec_spare v).
Definition vec_allocated (h : Heap) (v : ByteVec) : Prop := h !! vec_at v = Some (vec_bytes v ++ vec_spare v).

(** [bf_bytes] is [None] for the null pointer. *)
Record Buffer : Type := mkBuffer { bf_bytes : option Address; bf_len : nat; bf_capacity : nat }.

Definition buffer_empty : Buffer := mkBuffer None 0 0.
(** The vector is forgotten rather than dropped, so the heap does not change. *)
Definition buffer_owning (v : ByteVec) : Buffer :=
  mkBuffer (Some (vec_at v)) (length (vec_bytes v)) (vec_capacity v).
Definition buffer_is_empty (b : Buffer) : bool := bool_decide (bf_bytes b = None).

(** Reading past an allocation, or one that is gone, has no answer. *)
Definition as_slice (h : Heap) (b : Buffer) : option (list byte) :=
  match bf_bytes b with
  | None => Some []
  | Some a => cell ← h !! a; if (bf_len b <=? length cell)%nat then Some (take (bf_len b) cell) else None
  end.
Definition wipe (h : Heap) (b : Buffer) : option Heap :=
  match bf_bytes b with
  | None => Some h
  | Some a => cell ← h !! a;
      if (bf_len b <=? length cell)%nat
      then Some (<[a := replicate (bf_len b) Byte.x00 ++ drop (bf_len b) cell]> h) else None
  end.
(** Handing an allocation back needs its exact capacity; what it held when it went
    back is answered beside the heap. *)
Definition dealloc (h : Heap) (a : Address) (capacity : nat) : option (Heap * list byte) :=
  cell ← h !! a; if (length cell =? capacity)%nat then Some (delete a h, cell) else None.
Definition buffer_free (h : Heap) (b : Buffer) : option (Heap * Buffer * list byte) :=
  match bf_bytes b with
  | None => Some (h, b, [])
  | Some a => h' ← wipe h b; r ← dealloc h' a (bf_capacity b); Some (r.1, buffer_empty, r.2)
  end.
(** [None]: the caller passed a null pointer to a buffer. *)
Definition weald_mls_buffer_free (h : Heap) (b : option Buffer) : option (Heap * option Buffer) :=
  match b with
  | None => Some (h, None)
  | Some b => (λ r, (r.1.1, Some r.1.2)) <$> buffer_free h b
  end.

(** ** Handles *)
Definition MAGIC : Z := 6288504250662933248.
Definition FREED : Z := 16045481051126824960.
Definition ThreadId : Type := positive.
Record Handle (T : Type) : Type := mkHandle { hd_magic : Z; hd_owner : ThreadId; hd_value : T }.
Arguments mkHandle {T} _ _ _.
Arguments hd_magic {T} _.
Arguments hd_owner {T} _.
Arguments hd_value {T} _.

Section handles.
Context {T : Type}.
Implicit Types (h : gmap Address (Handle T)) (current : ThreadId).

Definition into_raw h (a : Address) current (value : T) : gmap Address (Handle T) :=
  <[a := mkHandle MAGIC current value]> h.

(** The null, tag and thread checks, in order. *)
Definition handle_check h current (raw : option Address) : option (result MlsError (Handle T)) :=
  match raw with
  | None => Some (Err MlsInvalidHandle)
  | Some a =>
      match h !! a with
      | None => None
      | Some handle =>
          Some (if negb (hd_magic handle =? MAGIC) then Err MlsInvalidHandle
                else if negb (bool_decide (hd_owner handle = current)) then Err MlsWrongThread
                else Ok handle)
      end
  end.

(** [borrow] and the caller's use of the payload it returns. *)
Definition borrow_with h current (raw : option Address) (f : T → T)
    : option (result MlsError (gmap Address (Handle T))) :=
  c ← handle_check h current raw;
  Some (match c with
        | Err e => Err e
        | Ok handle => Ok (match raw with
                           | Some a => <[a := mkHandle (hd_magic handle) (hd_owner handle) (f (hd_value handle))]> h
                           | None => h
                           end)
        end).

(** The tag is stamped before the box goes back. *)
Definition consume h current (raw : option Address) : option (result MlsError (T * gmap Address (Handle T))) :=
  c ← handle_check h current raw;
  Some (match c with
        | Err e => Err e
        | Ok handle =>
            Ok (hd_value handle,
                match raw with
                | Some a => delete a (<[a := mkHandle FREED (hd_owner handle) (hd_value handle)]> h)
                | None => h
                end)
        end).

(** What callers do with handles, from whichever thread they are on; the pointer a
    creation answers is one the allocator had free. *)
Inductive HandleCall : Type :=
| CallCreate (current : ThreadId) (a : Address) (value : T)
| CallBorrow (current : ThreadId) (raw : option Address) (f : T → T)
| CallConsume (current : ThreadId) (raw : option Address).

Definition call_thread (c : HandleCall) : ThreadId :=
  match c with CallCreate t _ _ | CallBorrow t _ _ | CallConsume t _ => t end.
Definition call_names (c : HandleCall) (a : Address) : Prop :=
  match c with
  | CallCreate _ _ _ => False
  | CallBorrow _ raw _ | CallConsume _ raw => raw = Some a
  end.

(** One call: the status it answers, and the store after it. *)
Definition handle_call (c : HandleCall) h : option (Status * gmap Address (Handle T)) :=
  match c with
  | CallCreate t a v => if h !! a then None else Some (StOk, into_raw h a t v)
  | CallBorrow t raw f =>
      r ← borrow_with h t raw f;
      Some (match r with Ok h' => (StOk, h') | Err e => (error_status e, h) end)
  | CallConsume t raw =>
      r ← consume h t raw;
      Some (match r with Ok p => (StOk, p.2) | Err e => (error_status e, h) end)
  end.
Fixpoint handle_calls (cs : list HandleCall) h : option (list Status * gmap Address (Handle T)) :=
  match cs with
  | [] => Some ([], h)
  | c :: cs => r ← handle_call c h; s ← handle_calls cs r.2; Some (r.1 :: s.1, s.2)
  end.
End handles.
Arguments HandleCall : clear implicits.

(** ** Handshake records *)
Definition TAG_MLS : Z := 0.
Definition TAG_STANDING : Z := 1.
Definition TAG_CLAIM : Z := 2.
Definition TAG_HISTORY : Z := 3.

Inductive HandshakeRecord : Type :=
| HrMls (bytes : list byte)
| HrStanding (bytes : list byte)
| HrClaim (bytes : list byte)
| HrHistory (bytes : list byte)
| HrUnknown (tag : Z) (payload : list byte).

Definition mls_message (r : HandshakeRecord) : option (list byte) :=
  match r with HrMls bytes => Some bytes | _ => None end.
Definition record_tag (r : HandshakeRecord) : Z :=
  match r with
  | HrMls _ => TAG_MLS | HrStanding _ => TAG_STANDING | HrClaim _ => TAG_CLAIM | HrHistory _ => TAG_HISTORY
  | HrUnknown tag _ => tag
  end.
Definition record_payload (r : HandshakeRecord) : list byte :=
  match r with HrMls b | HrStanding b | HrClaim b | HrHistory b | HrUnknown _ b => b end.

Definition record_encode (r : HandshakeRecord) : list byte :=
  cbor_array [cbor_uint (record_tag r); cbor_bytes (record_payload r)].

Definition record_of (tag : Z) (payload : list byte) : HandshakeRecord :=
  if tag =? TAG_MLS then HrMls payload
  else if tag =? TAG_STANDING then HrStanding payload
  else if tag =? TAG_CLAIM then HrClaim payload
  else if tag =? TAG_HISTORY then HrHistory payload
  else HrUnknown tag payload.

Definition read_record : rd CborError (Z * list byte) :=
  count <- r_array_count ;;
  if negb (count =? 2)%nat then rd_fail (WrongArrayCount 2 count) else
  tag <- r_uint ;; payload <- r_bytes ;; rd_ret (tag, payload).
Definition record_decode (bytes : list byte) : result CborError HandshakeRecord :=
  let? p := whole id read_record bytes in Ok (record_of p.1 p.2).

Definition mls_record (message : list byte) : list byte := record_encode (HrMls message).

(** ** Statuses

    [None] of [status_of] is a code outside the table. *)
Definition status_of (code : Z) : option Status := if 0 <=? code then ALL_STATUSES !! Z.to_nat code else None.

Lemma status_of_code s : status_of (status_code s) = Some s.
Proof. by destruct s. Qed.
Lemma status_of_known code s : status_of code = Some s → code = status_code s.
Proof.
  unfold status_of. destruct (Z.leb_spec 0 code) as [H|]; [|done]. intros Hl.
  rewrite <- (Z2Nat.id code) by done. revert Hl. generalize (Z.to_nat code). clear code H.
  intros n. do 8 (destruct n; [by intros [= <-]|]). done.
Qed.

Lemma label_table code : weald_mls_status_label code = from_option status_label "unknown"%string (status_of code).
Proof.
  unfold weald_mls_status_label, status_of. destruct (Z.leb_spec 0 code) as [H|H]; cbn [andb]; [|done].
  destruct (Z.ltb_spec code (Z.of_nat (length LABELS - 1))) as [Hlt|Hge].
  - assert (Z.to_nat code < 8)%nat as Hn by (cbn in Hlt; lia). revert Hn. generalize (Z.to_nat code). clear.
    intros n Hn. do 8 (destruct n; [done|]). lia.
  - rewrite (lookup_ge_None_2 ALL_STATUSES); [done|]. cbn in *. lia.
Qed.

Lemma status_label_inj s1 s2 : status_label s1 = status_label s2 → s1 = s2.
Proof. by destruct s1, s2. Qed.

(** What crosses the boundary is total and unambiguous. The code of a call is
    0 exactly when its body returned a value, and only then did the out-parameter
    get one; a panic is 7 and no error is; the code names one status; and the label
    answered for a code is that status's own, distinct for distinct statuses, and
    "unknown" for every other [i32]. *)
Theorem boundary_statuses {T} (body : Outcome T) (code : Z) :
  (status_code (guard body).1 = 0 ↔ ∃ value, body = Returned (Ok value) ∧ (guard body).2 = Some value)
  ∧ (status_code (guard body).1 = 7 ↔ body = Unwound)
  ∧ ((guard body).2 = None ↔ (guard body).1 ≠ StOk)
  ∧ (status_of code = Some (guard body).1 ↔ code = status_code (guard body).1)
  ∧ (weald_mls_status_label code = status_label (guard body).1 ↔ code = status_code (guard body).1)
  ∧ (weald_mls_status_label code = "unknown"%string ↔ status_of code = None).
Proof.
  assert (∀ s, status_of code = Some s ↔ code = status_code s) as Hc.
  { intros s. split; [apply status_of_known | intros ->; apply status_of_code]. }
  split_and!; [| | | apply Hc | |].
  - destruct body as [[v|[]]|]; cbn; naive_solver.
  - destruct body as [[v|[]]|]; cbn; naive_solver.
  - destruct body as [[v|[]]|]; cbn; naive_solver.
  - rewrite label_table, <- Hc. destruct (status_of code) as [s|]; cbn.
    + split; [by intros ->%status_label_inj | by intros [= ->]].
    + by destruct (guard body).1.
  - rewrite label_table. destruct (status_of code) as [[]|]; naive_solver.
Qed.

(** ** Buffers *)

(** A buffer made from a live vector reads back as it, and freeing it hands the
    allocation back once, at its own capacity, with every byte the vector held
    erased; only what lay beyond its length keeps its content. *)
Lemma owned_buffer_free h v :
  vec_allocated h v →
  as_slice h (buffer_owning v) = Some (vec_bytes v)
  ∧ buffer_free h (buffer_owning v)
    = Some (delete (vec_at v) h, buffer_empty, replicate (length (vec_bytes v)) Byte.x00 ++ vec_spare v).
Proof.
  intros Hv. unfold vec_allocated in Hv. unfold as_slice, buffer_free, wipe, dealloc, buffer_owning, vec_capacity. cbn.
  assert (length (vec_bytes v) <=? length (vec_bytes v ++ vec_spare v) = true)%nat as Hle.
  { apply Nat.leb_le. rewrite length_app. lia. }
  rewrite Hv. cbn. rewrite Hle, take_app_length, drop_app_length. split; [done|]. cbn.
  rewrite lookup_insert_eq. cbn. rewrite length_app, length_replicate, Nat.eqb_refl. cbn. by rewrite delete_insert_eq.
Qed.

(** A buffer is released at most once and never unread. For a vector that is
    live, the entry point that frees releases exactly its allocation, leaves the
    rest of the heap alone and leaves the caller's struct empty; what went back to
    the allocator held zeros in place of the vector's bytes; and freeing the same
    struct again, or a null pointer, changes nothing in any heap. *)
Theorem buffer_freed_once h v :
  vec_allocated h v →
  as_slice h (buffer_owning v) = Some (vec_bytes v)
  ∧ weald_mls_buffer_free h (Some (buffer_owning v)) = Some (delete (vec_at v) h, Some buffer_empty)
  ∧ (∃ h', wipe h (buffer_owning v) = Some h'
       ∧ as_slice h' (buffer_owning v) = Some (replicate (length (vec_bytes v)) Byte.x00))
  ∧ (∀ h', weald_mls_buffer_free h' (Some buffer_empty) = Some (h', Some buffer_empty)
       ∧ weald_mls_buffer_free h' None = Some (h', None) ∧ as_slice h' buffer_empty = Some []).
Proof.
  intros Hv. destruct (owned_buffer_free h v Hv) as [Hs Hf]. split_and!; [done | | |done].
  - unfold weald_mls_buffer_free. by rewrite Hf.
  - unfold vec_allocated in Hv. unfold wipe, as_slice, buffer_owning. cbn. rewrite Hv. cbn.
    assert (length (vec_bytes v) <=? length (vec_bytes v ++ vec_spare v) = true)%nat as Hle.
    { apply Nat.leb_le. rewrite length_app. lia. }
    rewrite Hle, drop_app_length. eexists. split; [done|]. rewrite lookup_insert_eq. cbn.
    rewrite length_app, length_replicate, (proj2 (Nat.leb_le _ _)) by lia.
    f_equal. apply take_app_length'. by rewrite length_replicate.
Qed.

Lemma buffer_freed_once_witness :
  let v := mkByteVec 1%positive [Byte.x2a; Byte.x07] [Byte.x09] in
  let h : Heap := {[ 1%positive := [Byte.x2a; Byte.x07; Byte.x09] ]} in
  vec_allocated h v
  ∧ weald_mls_buffer_free h (Some (buffer_owning v)) = Some (delete 1%positive h, Some buffer_empty).
Proof.
  intros v h. assert (vec_allocated h v) as Hv by reflexivity. split; [exact Hv|].
  apply (buffer_freed_once h v Hv).
Defined.

(** The rest of the capacity keeps its content through the free. *)
Lemma spare_capacity_not_erased :
  let v := mkByteVec 1%positive [] [Byte.x2a] in
  buffer_free {[ 1%positive := [Byte.x2a] ]} (buffer_owning v) = Some (∅, buffer_empty, [Byte.x2a]).
Proof. by vm_compute. Qed.

(** ** Handles *)
Section handle_lemmas.
Context {T : Type}.
Implicit Types (h : gmap Address (Handle T)).

Lemma handle_check_other h t a hd :
  h !! a = Some hd → hd_magic hd = MAGIC → hd_owner hd ≠ t → handle_check h t (Some a) = Some (Err MlsWrongThread).
Proof.
  intros Ha Hm Ho. unfold handle_check. rewrite Ha, Hm, Z.eqb_refl. cbn [negb].
  by rewrite bool_decide_eq_false_2.
Qed.

(** One call from a thread that does not own [a]. *)
Lemma handle_call_other h c a hd s h' :
  h !! a = Some hd → hd_magic hd = MAGIC → call_thread c ≠ hd_owner hd → handle_call c h = Some (s, h') →
  h' !! a = Some hd ∧ (call_names c a → s = StWrongThread).
Proof.
  intros Ha Hm Hn. destruct c as [t b v|t raw f|t raw]; cbn [call_thread call_names handle_call] in *.
  - destruct (h !! b) eqn:Hb; [done|]. intros [= <- <-]. split; [|done].
    unfold into_raw. rewrite lookup_insert_ne; [done|congruence].
  - unfold borrow_with. destruct (decide (raw = Some a)) as [->|Hraw].
    { rewrite (handle_check_other h t a hd) by (done || congruence). by intros [= <- <-]. }
    destruct (handle_check h t raw) as [[x|e]|]; cbn; [| by intros [= <- <-] | done].
    intros [= <- <-]. split; [|done]. destruct raw; [|done]. rewrite lookup_insert_ne by congruence. done.
  - unfold consume. destruct (decide (raw = Some a)) as [->|Hraw].
    { rewrite (handle_check_other h t a hd) by (done || congruence). by intros [= <- <-]. }
    destruct (handle_check h t raw) as [[x|e]|]; cbn; [| by intros [= <- <-] | done].
    intros [= <- <-]. split; [|done]. destruct raw; [|done].
    by rewrite lookup_delete_ne, lookup_insert_ne by congruence.
Qed.

(** Handles are confined to the thread that made them. Through any sequence of
    calls (creations, uses and frees of this and other handles) made from threads
    other than a handle's owner, the handle keeps its tag, its owner and its
    payload, every one of those calls that names it is answered "wrong thread", and
    its owner can still use it and take it back afterwards. *)
Theorem handle_thread_confined h a hd cs statuses h' :
  h !! a = Some hd → hd_magic hd = MAGIC → Forall (λ c, call_thread c ≠ hd_owner hd) cs →
  handle_calls cs h = Some (statuses, h') →
  h' !! a = Some hd
  ∧ Forall2 (λ c s, call_names c a → s = StWrongThread) cs statuses
  ∧ (∀ f, borrow_with h' (hd_owner hd) (Some a) f
          = Some (Ok (<[a := mkHandle MAGIC (hd_owner hd) (f (hd_value hd))]> h')))
  ∧ consume h' (hd_owner hd) (Some a) = Some (Ok (hd_value hd, delete a h')).
Proof.
  intros Ha Hm Hcs Hrun.
  assert (h' !! a = Some hd ∧ Forall2 (λ c s, call_names c a → s = StWrongThread) cs statuses) as [Hkeep Hall].
  { revert h statuses Ha Hrun. induction Hcs as [|c cs Hc Hcs IH]; intros h statuses Ha Hrun; cbn in Hrun.
    - by injection Hrun as <- <-.
    - destruct (handle_call c h) as [[s h1]|] eqn:Hc1; [|done]. cbn in Hrun.
      destruct (handle_calls cs h1) as [[ss h2]|] eqn:Hr; [|done]. injection Hrun as <- <-.
      destruct (handle_call_other h c a hd s h1 Ha Hm Hc Hc1) as [Ha1 Hs].
      destruct (IH h1 ss Ha1 Hr) as [Hk HF]. split; [done|]. by constructor. }
  assert (handle_check h' (hd_owner hd) (Some a) = Some (Ok hd)) as Hok.
  { unfold handle_check. rewrite Hkeep, Hm, Z.eqb_refl. cbn [negb]. by rewrite bool_decide_eq_true_2. }
  split_and!; [done | done | |].
  - intros f. unfold borrow_with. rewrite Hok. cbn. by rewrite Hm.
  - unfold consume. rewrite Hok. cbn. by rewrite delete_insert_eq.
Qed.

(** A null pointer and a live pointer with another tag are refused, unread. *)
Lemma foreign_pointers_refused h t a hd :
  handle_check h t None = Some (Err MlsInvalidHandle)
  ∧ (h !! a = Some hd → hd_magic hd ≠ MAGIC → handle_check h t (Some a) = Some (Err MlsInvalidHandle)).
Proof.
  split; [done|]. intros Ha Hm. unfold handle_check. rewrite Ha. by apply Z.eqb_neq in Hm as ->.
Qed.
End handle_lemmas.

Lemma handle_thread_confined_witness :
  let h := {[ 1%positive := mkHandle MAGIC 7%positive 5 ]} in
  let cs := [CallBorrow 8%positive (Some 1%positive) (λ _, 0); CallConsume 9%positive (Some 1%positive)] in
  handle_calls cs h = Some ([StWrongThread; StWrongThread], h) ∧ h !! 1%positive = Some (mkHandle MAGIC 7%positive 5).
Proof.
  intros h cs. split; [reflexivity|].
  refine (proj1 (handle_thread_confined h 1%positive (mkHandle MAGIC 7%positive 5) cs [StWrongThread; StWrongThread] h
    ltac:(reflexivity) ltac:(reflexivity) _ ltac:(reflexivity))).
  repeat constructor; discriminate.
Defined.

(** ** Handshake records *)
Definition record_ok (r : HandshakeRecord) : Prop :=
  is_u64 (record_tag r) ∧ vec_ok (record_payload r)
  ∧ match r with HrUnknown tag _ => 4 ≤ tag | _ => True end.

#[local] Instance record_body_codec :
  WireCodec (λ p, is_u64 p.1 ∧ vec_ok p.2) (λ p, cbor_array [cbor_uint p.1; cbor_bytes p.2]) read_record.
Proof.
  split.
  - intros [tag payload] [Ht Hp]. cbn [fst snd] in *. unfold read_record. rewrite cbor_array_unfold. cbn [length concat].
    eapply (accepts_bind 2 0); [by apply accepts_array_count | |].
    + cbn [Nat.eqb negb]. repeat accept_field.
    + rewrite !length_app. pose proof (length_cbor_uint_pos tag). pose proof (length_cbor_bytes_pos payload). lia.
  - intros r x r' H. unfold read_record in H. count_sound H Hn. apply Nat.eqb_eq in Hn as ->.
    do 2 sound_step H. injection H as <- <-. split; [done|]. cbn [fst snd]. array_chain.
Qed.

Lemma record_of_canonical tag payload :
  is_u64 tag → vec_ok payload →
  record_ok (record_of tag payload) ∧ record_tag (record_of tag payload) = tag
  ∧ record_payload (record_of tag payload) = payload.
Proof.
  intros Ht Hp. unfold record_of, record_ok.
  destruct (Z.eqb_spec tag TAG_MLS) as [->|]; [done|]. destruct (Z.eqb_spec tag TAG_STANDING) as [->|]; [done|].
  destruct (Z.eqb_spec tag TAG_CLAIM) as [->|]; [done|]. destruct (Z.eqb_spec tag TAG_HISTORY) as [->|]; [done|].
  cbn. unfold TAG_MLS, TAG_STANDING, TAG_CLAIM, TAG_HISTORY in *. unfold is_u64 in *. split_and!; (done || lia).
Qed.

Lemma record_of_tag r : record_ok r → record_of (record_tag r) (record_payload r) = r.
Proof.
  destruct r as [| | | |tag b]; intros (_ & _ & Ht); try done. cbn in *. unfold record_of.
  unfold TAG_MLS, TAG_STANDING, TAG_CLAIM, TAG_HISTORY. by rewrite !(proj2 (Z.eqb_neq _ _)) by lia.
Qed.

(** The framing of a group's handshake stream is exact. Bytes decode to a
    record exactly when they are that record's encoding and the record is one the
    decoder can produce (a tag of 0 to 3 is never kept as unknown), so no two
    framings are one record and nothing trails it; and only a record tagged 0
    offers an MLS message, the very bytes that were framed. *)
Theorem handshake_record_exact data r :
  (record_decode data = Ok r ↔ record_ok r ∧ record_encode r = data)
  ∧ (∀ message, vec_ok message → record_decode (mls_record message) = Ok (HrMls message))
  ∧ (∀ message, vec_ok message → record_decode data = Ok r → mls_message r = Some message ↔ data = mls_record message).
Proof.
  assert (∀ data r, record_decode data = Ok r ↔ record_ok r ∧ record_encode r = data) as Hx.
  { clear. intros data r. unfold record_decode. split.
    - destruct (whole id read_record data) as [[tag payload]|] eqn:H; [|done]. cbn. intros [= <-].
      apply (whole_exact _ _ _ _) in H as [[Ht Hp] <-]. cbn in *.
      destruct (record_of_canonical tag payload Ht Hp) as (Hok & Htag & Hpay).
      split; [done|]. unfold record_encode. by rewrite Htag, Hpay.
    - intros [Hok <-].
      assert (whole id read_record (record_encode r) = Ok (record_tag r, record_payload r)) as ->.
      { apply (whole_exact _ _ _ _). destruct Hok as (? & ? & _). done. }
      cbn. by rewrite record_of_tag. }
  split; [apply Hx|]. split.
  - intros message Hm. apply Hx. by split.
  - intros message Hm Hd. apply Hx in Hd as [Hok <-]. unfold mls_record. split.
    + destruct r; cbn; try done. by intros [= ->].
    + intros He. assert (record_decode (record_encode r) = Ok r) as Hr by by apply Hx.
      assert (record_decode (record_encode (HrMls message)) = Ok (HrMls message)) as Hr' by by apply Hx.
      rewrite He, Hr' in Hr. by injection Hr as <-.
Qed.
