(* ===== verification/Recovery.v ===== *)
(** * Recovery wraps and the tag directory

    Models [backend/weald-mls/src/recovery.rs]: the recovery key derived from a
    seed, the blinded tag of a slot, sealing and opening a [recovery.wrap], and
    the directory of tags a recovery principal keeps, with its two-phase
    handoff from one commit's tag to the next.

    HPKE (the [openmls_traits] crypto provider), [serde_json] and what the MLS
    session exports are parameters. Sealing draws randomness, an argument here.
    Zeroing freed memory has no counterpart in values. *)

From Stdlib Require Import ZArith Lia String.
From stdpp Require Import base tactics numbers countable sets list.
From S2P Require Import Prelude Cbor Crypto Push MlsBoundary.

Open Scope Z_scope.

Definition TAG_LABEL : list byte := ascii_bytes "weald wraptag v1".
Definition SECRET_LABEL : list byte := ascii_bytes "weald recovery v1".
Definition DIRECTORY_INFO : list byte := ascii_bytes "weald recovery directory v1".
Definition SECRET_LEN : nat := 32.

Record RecoveryKey : Type := mkRecoveryKey { rk_private : list byte; rk_public : list byte }.
Record HpkeCiphertext : Type := mkHpke { kem_output : list byte; hpke_ciphertext : list byte }.
Record Wrap : Type := mkWrap { wr_group : list byte; wr_epoch : Z; wr_tag : list byte; wr_ct : list byte }.
Record Opened : Type := mkOpened { op_epoch_secret : list byte; op_group_info : list byte }.
Record Payload : Type := mkPayload { pl_epoch_secret : list byte; pl_group_info : list byte }.

(** ** The tag directory *)
Record DirectoryEntry : Type := mkEntry {
  de_group : list byte;
  de_current : option (list byte);
  de_candidate : option (list byte);
  de_fallback : option (list byte);
  de_target : option (list byte);
  de_activated : option (list byte)
}.

Definition entry_new (group : list byte) : DirectoryEntry := mkEntry group None None None None None.

Definition prepare (e : DirectoryEntry) (candidate target : list byte) : DirectoryEntry :=
  if bool_decide (de_target e = Some target) then e
  else mkEntry (de_group e) (de_current e) (Some candidate) (de_fallback e) (Some target) (de_activated e).

Definition activate (e : DirectoryEntry) (target : list byte) : result MlsError DirectoryEntry :=
  if negb (bool_decide (de_target e = Some target)) then
    if bool_decide (de_activated e = Some target) then Ok e else Err MlsProtocol
  else
    match de_candidate e with
    | None => Ok e
    | Some candidate => Ok (mkEntry (de_group e) (Some candidate) None (de_current e) None (Some target))
    end.

Definition tags (e : DirectoryEntry) : list (list byte) :=
  omap id [de_candidate e; de_current e; de_fallback e].

Definition Directory : Type := list DirectoryEntry.

Definition directory_get (d : Directory) (group : list byte) : option DirectoryEntry :=
  List.find (λ e, bool_decide (de_group e = group)) d.

(** [entry(group)] followed by the caller's update of the entry it returns:
    the first entry of the group, created at the end when there is none. *)
Fixpoint update_entry (d : Directory) (group : list byte) (f : DirectoryEntry → DirectoryEntry) : Directory :=
  match d with
  | [] => [f (entry_new group)]
  | e :: rest => if bool_decide (de_group e = group) then f e :: rest else e :: update_entry rest group f
  end.

(** ** Sealing and opening *)
Class RecoveryLib : Type := {
  derive_hpke_keypair : list byte → list byte * list byte;
  hpke_seal : list byte → list byte → list byte → list byte → list byte → option HpkeCiphertext;
  hpke_open : HpkeCiphertext → list byte → list byte → list byte → option (list byte);
  payload_to_json : Payload → list byte;
  payload_from_json : list byte → option Payload;
  directory_to_json : Directory → list byte;
  directory_from_json : list byte → option Directory;
  pair_to_json : list byte * list byte → list byte;
  pair_from_json : list byte → option (list byte * list byte)
}.

(** What the crates document: a sealed message opens under the matching key with
    the same info and associated data, and what [serde_json] wrote it reads. *)
Class RecoveryLaws `{RecoveryLib} : Prop := {
  hpke_open_seal : ∀ rnd seed info aad pt ct,
    hpke_seal rnd (derive_hpke_keypair seed).2 info aad pt = Some ct →
    hpke_open ct (derive_hpke_keypair seed).1 info aad = Some pt;
  payload_json : ∀ p, payload_from_json (payload_to_json p) = Some p;
  directory_json : ∀ d, directory_from_json (directory_to_json d) = Some d;
  pair_json : ∀ p, pair_from_json (pair_to_json p) = Some p
}.

(** What the MLS session answers at its current epoch. *)
Record MlsSession : Type := mkMlsSession {
  ms_export : list byte → nat → result MlsError (list byte);
  ms_group_info : result MlsError (list byte);
  ms_epoch : Z
}.

Section wraps.
Context `{Blake3} `{RecoveryLib}.

Definition recovery_derive (seed : list byte) : result MlsError RecoveryKey :=
  if bool_decide (seed = []) then Err MlsInvalidArgument
  else let pair := derive_hpke_keypair seed in Ok (mkRecoveryKey pair.1 pair.2).

Definition encode_ciphertext (sealed : HpkeCiphertext) : list byte :=
  pair_to_json (kem_output sealed, hpke_ciphertext sealed).
Definition decode_ciphertext (bytes : list byte) : result MlsError HpkeCiphertext :=
  match pair_from_json bytes with
  | Some (kem, ct) => Ok (mkHpke kem ct)
  | None => Err MlsMalformed
  end.

Definition wrap_tag (s : MlsSession) (recovery_public : list byte) : result MlsError (list byte) :=
  if bool_decide (recovery_public = []) then Err MlsInvalidArgument
  else let? exported := ms_export s TAG_LABEL 32 in Ok (blake3 (exported ++ recovery_public)).

Definition seal_wrap (rnd : list byte) (s : MlsSession) (group recovery_public : list byte) : result MlsError Wrap :=
  let? group_info := ms_group_info s in
  let? epoch_secret := ms_export s SECRET_LABEL SECRET_LEN in
  let? tag := wrap_tag s recovery_public in
  let plaintext := payload_to_json (mkPayload epoch_secret group_info) in
  match hpke_seal rnd recovery_public group tag plaintext with
  | None => Err MlsProtocol
  | Some sealed => Ok (mkWrap group (ms_epoch s) tag (encode_ciphertext sealed))
  end.

Definition open_wrap (key : RecoveryKey) (w : Wrap) : result MlsError Opened :=
  let? ciphertext := decode_ciphertext (wr_ct w) in
  match hpke_open ciphertext (rk_private key) (wr_group w) (wr_tag w) with
  | None => Err MlsProtocol
  | Some plaintext =>
      match payload_from_json plaintext with
      | None => Err MlsMalformed
      | Some p => Ok (mkOpened (pl_epoch_secret p) (pl_group_info p))
      end
  end.

Definition directory_seal (rnd : list byte) (d : Directory) (recovery_public : list byte) : result MlsError (list byte) :=
  match hpke_seal rnd recovery_public DIRECTORY_INFO [] (directory_to_json d) with
  | None => Err MlsProtocol
  | Some sealed => Ok (encode_ciphertext sealed)
  end.

Definition directory_open (key : RecoveryKey) (bytes : list byte) : result MlsError Directory :=
  let? ciphertext := decode_ciphertext bytes in
  match hpke_open ciphertext (rk_private key) DIRECTORY_INFO [] with
  | None => Err MlsProtocol
  | Some plaintext =>
      match directory_from_json plaintext with None => Err MlsMalformed | Some d => Ok d end
  end.
End wraps.

(** ** The two-phase handoff *)
Inductive EntryOp : Type := OpPrepare (candidate target : list byte) | OpActivate (target : list byte).

(** A refused activate leaves the entry as it was. *)
Definition apply_op (e : DirectoryEntry) (op : EntryOp) : DirectoryEntry :=
  match op with
  | OpPrepare c t => prepare e c t
  | OpActivate t => match activate e t with Ok e' => e' | Err _ => e end
  end.
Definition run_ops (e : DirectoryEntry) (ops : list EntryOp) : DirectoryEntry := foldl apply_op e ops.

(** [c] is what the last prepare for [t] left pending: nothing since named another
    commit or activated this one. *)
Definition pending_for (ops : list EntryOp) (c t : list byte) : Prop :=
  ∃ l1 l2, ops = l1 ++ OpPrepare c t :: l2 ∧ OpActivate t ∉ l2 ∧ ∀ c' t', OpPrepare c' t' ∈ l2 → t' = t.
(** [t] was activated with [c] pending for it. *)
Definition handed_over (ops : list EntryOp) (c t : list byte) : Prop :=
  ∃ l1 l2, ops = l1 ++ OpActivate t :: l2 ∧ pending_for l1 c t.
(** No commit is prepared again once it was activated. *)
Definition prepared_once (ops : list EntryOp) : Prop :=
  ∀ l1 c t l2, ops = l1 ++ OpPrepare c t :: l2 → OpActivate t ∉ l1.

(** What an entry can hold after a sequence: nothing that was not prepared, and
    in its published slots nothing that was not handed over. *)
Record entry_inv (ops : list EntryOp) (e : DirectoryEntry) : Prop := {
  inv_pending : match de_candidate e, de_target e with
                | Some c, Some t => pending_for ops c t
                | None, None => True
                | _, _ => False
                end;
  inv_current : match de_current e, de_activated e with
                | Some c, Some t => handed_over ops c t
                | None, None => True
                | _, _ => False
                end;
  inv_fallback : ∀ c, de_fallback e = Some c →
    ∃ t, handed_over ops c t ∧ (prepared_once ops → de_activated e ≠ Some t)
}.

Lemma entry_inv_new group : entry_inv [] (entry_new group).
Proof. by split. Qed.

Lemma pending_for_more ops op c t :
  (∀ c' t', op = OpPrepare c' t' → t' = t) → op ≠ OpActivate t → pending_for ops c t → pending_for (ops ++ [op]) c t.
Proof.
  intros Hp Ha (l1 & l2 & -> & Hn & Ht). exists l1, (l2 ++ [op]). rewrite <- app_assoc. split_and!; [done|set_solver|].
  intros c' t'. rewrite elem_of_app, list_elem_of_singleton. intros [Hin|Hop]; [by eapply Ht|by eapply Hp].
Qed.
Lemma handed_over_more ops op c t : handed_over ops c t → handed_over (ops ++ [op]) c t.
Proof. intros (l1 & l2 & -> & Hp). exists l1, (l2 ++ [op]). by rewrite <- app_assoc. Qed.
Lemma prepared_once_more ops op : prepared_once (ops ++ [op]) → prepared_once ops.
Proof. intros Ho l1 c t l2 ->. eapply (Ho l1 c t (l2 ++ [op])). by rewrite <- app_assoc. Qed.

(** A commit pending under that rule has not been activated. *)
Lemma pending_not_activated ops c t : prepared_once ops → pending_for ops c t → OpActivate t ∉ ops.
Proof. intros Ho (l1 & l2 & -> & Hn & _). specialize (Ho l1 c t l2 eq_refl). set_solver. Qed.
Lemma handed_activated ops c t : handed_over ops c t → OpActivate t ∈ ops.
Proof. intros (l1 & l2 & -> & _). set_solver. Qed.

Lemma entry_inv_step ops e op : entry_inv ops e → entry_inv (ops ++ [op]) (apply_op e op).
Proof.
  intros [Hp Hc Hf].
  assert (match de_current e, de_activated e with Some c, Some t => handed_over (ops ++ [op]) c t | None, None => True | _, _ => False end) as Hc'
    by (destruct (de_current e), (de_activated e); eauto using handed_over_more).
  assert (∀ c, de_fallback e = Some c →
    ∃ t, handed_over (ops ++ [op]) c t ∧ (prepared_once (ops ++ [op]) → de_activated e ≠ Some t)) as Hf'.
  { intros c (t & Ht & Ho)%Hf. exists t. split; [by apply handed_over_more|]. eauto using prepared_once_more. }
  destruct op as [c t|t]; cbn [apply_op].
  - unfold prepare. destruct (bool_decide_reflect (de_target e = Some t)) as [Ht|Ht].
    + split; [|done..]. rewrite Ht in *. destruct (de_candidate e); [|done]. apply pending_for_more; [congruence|done..].
    + split; [|done..]. cbn. exists ops, []. split_and!; [done|set_solver|]. intros c' t' Hin. by apply elem_of_nil in Hin.
  - assert (de_target e ≠ Some t → entry_inv (ops ++ [OpActivate t]) e) as Hsame.
    { intros Hne. split; [|done..]. destruct (de_candidate e), (de_target e) as [t'|]; try done.
      apply pending_for_more; [done|congruence|done]. }
    unfold activate. destruct (bool_decide_reflect (de_target e = Some t)) as [Ht|Ht]; cbn [negb];
      [|destruct (bool_decide _); by apply Hsame].
    rewrite Ht in Hp. destruct (de_candidate e) as [c|] eqn:Hcand; [|done].
    split; cbn; [done|by exists ops, []|].
    intros c' Hcur. rewrite Hcur in Hc, Hc'. destruct (de_activated e) as [t'|]; [|done]. exists t'. split; [done|].
    intros Ho [= <-]. apply handed_activated in Hc. by apply (pending_not_activated ops c t (prepared_once_more _ _ Ho) Hp).
Qed.

Lemma run_ops_inv group ops : entry_inv ops (run_ops (entry_new group) ops).
Proof.
  unfold run_ops. induction ops as [|op ops IH] using rev_ind; [apply entry_inv_new|].
  rewrite foldl_app. by apply entry_inv_step.
Qed.

Lemma activate_ok e t e' :
  activate e t = Ok e' →
  (e' = e ∧ (de_activated e = Some t ∨ de_target e = Some t ∧ de_candidate e = None))
  ∨ ∃ c, de_target e = Some t ∧ de_candidate e = Some c
      ∧ e' = mkEntry (de_group e) (Some c) None (de_current e) None (Some t).
Proof.
  unfold activate. destruct (bool_decide_reflect (de_target e = Some t)) as [Ht|Ht]; cbn [negb].
  - destruct (de_candidate e) as [c|]; intros [= <-]; [right; by exists c | left; auto].
  - destruct (bool_decide_reflect (de_activated e = Some t)); [|done]. intros [= <-]. auto.
Qed.

Lemma elem_of_tags e c :
  c ∈ tags e ↔ de_candidate e = Some c ∨ de_current e = Some c ∨ de_fallback e = Some c.
Proof.
  unfold tags. destruct (de_candidate e), (de_current e), (de_fallback e); cbn; rewrite ?elem_of_cons, ?elem_of_nil; naive_solver.
Qed.

(** C23. The two-phase tag directory. In every entry a sequence of prepares and
    activates can produce: the candidate is the tag last prepared, for the commit
    the entry names as its target; the current tag and the fallback were each
    pending for their commit at the moment that commit was activated, the current
    one for the commit recorded as activated, and, as long as no commit is
    prepared again after it was activated, the two are of different commits. An
    activate that changes the entry moves the pending candidate of that commit to
    current and the tag that was current to the fallback; every other activate
    that succeeds leaves the entry alone, and it is refused exactly where the
    commit is neither pending nor the last activated. A second activate of one
    commit, and a second prepare of one still pending, change nothing. *)
Theorem directory_handoff group ops :
  let e := run_ops (entry_new group) ops in
  (∀ c, de_candidate e = Some c → ∃ t, de_target e = Some t ∧ pending_for ops c t)
  ∧ (∀ c, de_current e = Some c → ∃ t, de_activated e = Some t ∧ handed_over ops c t)
  ∧ (∀ c, de_fallback e = Some c → ∃ t, handed_over ops c t ∧ (prepared_once ops → de_activated e ≠ Some t))
  ∧ (∀ t e', activate e t = Ok e' → e' ≠ e →
       ∃ c, pending_for ops c t ∧ de_candidate e = Some c ∧ de_current e' = Some c
         ∧ de_fallback e' = de_current e ∧ (∀ old, de_current e = Some old → old ∈ tags e'))
  ∧ (∀ t, activate e t = Err MlsProtocol ↔ de_target e ≠ Some t ∧ de_activated e ≠ Some t)
  ∧ (∀ t e', activate e t = Ok e' → activate e' t = Ok e')
  ∧ (∀ c c' t, prepare (prepare e c t) c' t = prepare e c t).
Proof.
  intros e. destruct (run_ops_inv group ops : entry_inv ops e) as [Hp Hc Hf].
  split_and!.
  - intros c Hcand. rewrite Hcand in Hp. destruct (de_target e) as [t|]; [by exists t|done].
  - intros c Hcur. rewrite Hcur in Hc. destruct (de_activated e) as [t|]; [by exists t|done].
  - exact Hf.
  - intros t e' [[-> _]|(c & Ht & Hcand & ->)]%activate_ok Hne; [done|].
    rewrite Hcand, Ht in Hp. exists c. split_and!; try done.
    intros old Hold. apply elem_of_tags. cbn. rewrite Hold. auto.
  - intros t. unfold activate. destruct (bool_decide_reflect (de_target e = Some t)); cbn [negb].
    + destruct (de_candidate e); naive_solver.
    + destruct (bool_decide_reflect (de_activated e = Some t)); naive_solver.
  - intros t e' Ha. apply activate_ok in Ha as Hcase. destruct Hcase as [[-> _]|(c & Ht & Hcand & ->)]; [done|].
    unfold activate. cbn [de_target de_activated]. rewrite bool_decide_eq_false_2, bool_decide_eq_true_2 by done. done.
  - intros c c' t. unfold prepare. destruct (bool_decide_reflect (de_target e = Some t)) as [Ht|Ht].
    + by rewrite bool_decide_eq_true_2.
    + cbn. by rewrite bool_decide_eq_true_2.
Qed.

(** A replay of both phases after the commit was activated is not idempotent:
    the fallback, the slot a concurrent recovery may be reading, is replaced by
    the current tag. *)
Lemma replayed_handoff_loses_fallback :
  let old := [Byte.x01] in let new := [Byte.x02] in let t1 := [Byte.x0a] in let t2 := [Byte.x0b] in
  let once := run_ops (entry_new []) [OpPrepare old t1; OpActivate t1; OpPrepare new t2; OpActivate t2] in
  tags once = [new; old]
  ∧ tags (run_ops once [OpPrepare new t2; OpActivate t2]) = [new; new].
Proof. by vm_compute. Qed.

(** ** The directory *)
Lemma update_entry_get d group f g :
  (∀ e, de_group (f e) = de_group e) →
  directory_get (update_entry d group f) g
  = if bool_decide (g = group) then Some (f (default (entry_new group) (directory_get d group)))
    else directory_get d g.
Proof.
  intros Hf. unfold directory_get. induction d as [|e d IH]; cbn.
  - rewrite Hf. cbn. destruct (bool_decide_reflect (g = group)) as [->|]; [by rewrite bool_decide_eq_true_2|].
    by rewrite bool_decide_eq_false_2.
  - destruct (bool_decide_reflect (de_group e = group)) as [He|He]; cbn.
    + rewrite Hf. destruct (bool_decide_reflect (g = group)) as [->|Hg]; [by rewrite bool_decide_eq_true_2|].
      by rewrite !bool_decide_eq_false_2 by congruence.
    + destruct (bool_decide_reflect (de_group e = g)) as [Heg|Heg].
      * by rewrite bool_decide_eq_false_2 by congruence.
      * exact IH.
Qed.

Lemma update_entry_groups d group f :
  (∀ e, de_group (f e) = de_group e) → NoDup (de_group <$> d) → NoDup (de_group <$> update_entry d group f).
Proof.
  intros Hf. assert (∀ d, de_group <$> update_entry d group f
    = (de_group <$> d) ++ (if bool_decide (group ∈ de_group <$> d) then [] else [group])) as Hgr.
  { clear d. intros d. induction d as [|e d IH]; cbn; [by rewrite Hf|].
    destruct (bool_decide_reflect (de_group e = group)) as [He|He]; cbn.
    - rewrite Hf. rewrite bool_decide_eq_true_2 by (rewrite He; left). by rewrite app_nil_r.
    - rewrite IH. f_equal. f_equal. destruct (bool_decide_reflect (group ∈ de_group <$> d)) as [Hin|Hin].
      + by rewrite bool_decide_eq_true_2 by (by right).
      + rewrite bool_decide_eq_false_2; [done|]. rewrite elem_of_cons. naive_solver. }
  intros Hnd. rewrite Hgr. destruct (bool_decide_reflect (group ∈ de_group <$> d)); [by rewrite app_nil_r|].
  apply NoDup_app. split_and!; [done | set_solver | apply NoDup_singleton].
Qed.

(** ** Sealing round trips *)
Section round_trips.
Context `{Blake3} `{RL : RecoveryLib} `{!RecoveryLaws}.

Lemma ciphertext_round_trip sealed : decode_ciphertext (encode_ciphertext sealed) = Ok sealed.
Proof. unfold decode_ciphertext, encode_ciphertext. rewrite pair_json. by destruct sealed. Qed.

(** Recovery works: a wrap sealed to the public key of a recovery seed
    opens, on a device that has nothing but the seed, to exactly the epoch
    secret and group info of the session that sealed it, in the slot whose tag
    is the digest of the session's tag export and that public key; a directory
    sealed the same way opens to itself; and nothing is derived from an empty
    seed. *)
Theorem recovery_round_trip rnd seed key :
  recovery_derive seed = Ok key →
  (∀ s group w, seal_wrap rnd s group (rk_public key) = Ok w →
     ∃ info secret exported, ms_group_info s = Ok info ∧ ms_export s SECRET_LABEL SECRET_LEN = Ok secret
       ∧ ms_export s TAG_LABEL 32 = Ok exported
       ∧ w = mkWrap group (ms_epoch s) (blake3 (exported ++ rk_public key)) (wr_ct w)
       ∧ open_wrap key w = Ok (mkOpened secret info))
  ∧ (∀ d bytes, directory_seal rnd d (rk_public key) = Ok bytes → directory_open key bytes = Ok d)
  ∧ seed ≠ [].
Proof.
  unfold recovery_derive. destruct (bool_decide_reflect (seed = [])) as [|Hne]; [done|]. intros [= <-].
  cbn [rk_public rk_private]. split_and!; [| |done].
  - intros s group w Hs. unfold seal_wrap, wrap_tag in Hs.
    apply result_bind_ok in Hs as (info & Hi & Hs). apply result_bind_ok in Hs as (secret & Hsec & Hs).
    apply result_bind_ok in Hs as (tag & Ht & Hs). destruct (bool_decide _); [done|].
    apply result_bind_ok in Ht as (exported & He & [= <-]).
    destruct (hpke_seal _ _ _ _ _) as [sealed|] eqn:Hseal; [|done]. injection Hs as <-.
    exists info, secret, exported. split_and!; try done.
    unfold open_wrap. cbn [wr_ct wr_group wr_tag rk_private]. rewrite ciphertext_round_trip. cbn [result_bind].
    rewrite (hpke_open_seal _ _ _ _ _ _ Hseal), payload_json. done.
  - intros d bytes Hd. unfold directory_seal in Hd.
    destruct (hpke_seal _ _ _ _ _) as [sealed|] eqn:Hseal; [|done]. injection Hd as <-.
    unfold directory_open. cbn [rk_private]. rewrite ciphertext_round_trip. cbn [result_bind].
    by rewrite (hpke_open_seal _ _ _ _ _ _ Hseal), directory_json.
Qed.
End round_trips.

(** ** A closed instance: keys equal to seeds, and values as bit strings *)
Fixpoint bits_of (p : positive) : list byte :=
  match p with xH => [] | xO q => Byte.x00 :: bits_of q | xI q => Byte.x01 :: bits_of q end.
Fixpoint of_bits (bs : list byte) : positive :=
  match bs with [] => xH | b :: r => if bool_decide (b = Byte.x00) then xO (of_bits r) else xI (of_bits r) end.
Lemma of_bits_of p : of_bits (bits_of p) = p.
Proof.
  induction p as [p IH|p IH|]; cbn [bits_of of_bits];
    [rewrite bool_decide_eq_false_2 by done | rewrite bool_decide_eq_true_2 by done |]; congruence.
Qed.

#[global] Instance DirectoryEntry_eq_dec : EqDecision DirectoryEntry.
Proof. solve_decision. Defined.
#[global] Instance Payload_eq_dec : EqDecision Payload.
Proof. solve_decision. Defined.
#[global] Program Instance DirectoryEntry_countable : Countable DirectoryEntry :=
  inj_countable' (λ e, (de_group e, de_current e, de_candidate e, de_fallback e, de_target e, de_activated e))
    (λ t, let '(g, c, k, f, t, a) := t in mkEntry g c k f t a) _.
Next Obligation. by intros []. Qed.
#[global] Program Instance Payload_countable : Countable Payload :=
  inj_countable' (λ p, (pl_epoch_secret p, pl_group_info p)) (λ t, mkPayload t.1 t.2) _.
Next Obligation. by intros []. Qed.

Definition toy_json {A} `{Countable A} (x : A) : list byte := bits_of (encode x).
Definition toy_read {A} `{Countable A} (bs : list byte) : option A := decode (of_bits bs).
Lemma toy_json_read `{Countable A} (x : A) : toy_read (toy_json x) = Some x.
Proof. unfold toy_read, toy_json. by rewrite of_bits_of, decode_encode. Qed.

Definition toy_recovery : RecoveryLib := {|
  derive_hpke_keypair seed := (seed, seed);
  hpke_seal _ pk info aad pt := Some (mkHpke pk pt);
  hpke_open ct sk info aad := if bool_decide (kem_output ct = sk) then Some (hpke_ciphertext ct) else None;
  payload_to_json := toy_json; payload_from_json := toy_read;
  directory_to_json := toy_json; directory_from_json := toy_read;
  pair_to_json := toy_json; pair_from_json := toy_read
|}.
Lemma toy_recovery_laws : RecoveryLaws (H := toy_recovery).
Proof.
  split; [|intros; apply toy_json_read..]. cbn. intros rnd seed info aad pt ct [= <-]. cbn.
  by rewrite bool_decide_eq_true_2.
Qed.

Definition demo_recovery_seed : list byte := ascii_bytes "correct horse".
Definition demo_recovery_key : RecoveryKey := mkRecoveryKey demo_recovery_seed demo_recovery_seed.
Definition demo_directory : Directory := update_entry [] (ascii_bytes "g") (λ e, prepare e [Byte.x01] [Byte.x02]).

Lemma recovery_round_trip_witness :
  recovery_derive (H0 := toy_recovery) demo_recovery_seed = Ok demo_recovery_key
  ∧ ∀ bytes, directory_seal (H0 := toy_recovery) [] demo_directory demo_recovery_seed = Ok bytes →
      directory_open (H0 := toy_recovery) demo_recovery_key bytes = Ok demo_directory.
Proof.
  split; [reflexivity|]. intros bytes.
  apply (recovery_round_trip (H := poly_digest) (RL := toy_recovery) (H0 := toy_recovery_laws)
    [] demo_recovery_seed demo_recovery_key eq_refl).
Defined.
