(* ===== verification/CallFrames.v ===== *)
(** * Call frames

    Models [backend/wealdrelay/src/calls/socket.rs], the two handlers that join
    the registry of [Calls], the groups of [Hub] and the admission of [Admission]:
    [publish_call] for signalling and [publish_media] for media. [group_of] and
    [leave] take the registry's lock separately, and the fanout the hub's; the
    handlers below run them in the code's order, and [call_frame_step] has each
    on its own, so any interleaving of handlers is a sequence of its steps. *)

From Stdlib Require Import ZArith Lia.
From stdpp Require Import base tactics numbers gmap fin_maps functions relations sets list.
From S2P Require Import Prelude Cbor Push Frame Queue Hub Calls Session Connection Admission HandshakeDelivery.

Open Scope Z_scope.

(** [kind as u8]. *)
Definition kind_u8 (k : CallKind) : Z := match k with Offer => 1 | Answer => 2 | Decline => 3 | Hangup => 4 end.

(** [refusal_error]; [u64::to_be_bytes]. *)
Definition refusal_error (r : CallRegistry) (refusal : JoinRefusal) : FrameError :=
  let error := with_detail (FrameError_new (join_refusal_code refusal))
    (be_bytes 8 (join_refusal_detail refusal (max_concurrent r))) in
  match join_refusal_retry_after refusal with
  | Some seconds => with_retry_after error seconds
  | None => error
  end.

Section handlers.
Context {C P : Type} `{MpscLaws C, SemaphoreLaws P}.

(** What the two handlers share; [cf_rung] is the groups handed to push as calls. *)
Record CallRelay : Type := mkCallRelay {
  cf_calls : CallRegistry; cf_hub : Hub; cf_heap : N → Channel C P; cf_rung : list (list byte)
}.

(** [queue_all(sender, vec![Frame::Error(..)])]. *)
Definition answer_error (r : CallRelay) (snd_ : N) (e : FrameError) : bool * CallRelay :=
  let '(open, h) := queue_one (cf_heap r) snd_ (Frame.Error e) in
  (open, mkCallRelay (cf_calls r) (cf_hub r) h (cf_rung r)).
Definition on_calls (r : CallRelay) (calls : CallRegistry) : CallRelay :=
  mkCallRelay calls (cf_hub r) (cf_heap r) (cf_rung r).

(** The forwarding half of [publish_call]. *)
Definition forward_call (r : CallRelay) (connection : ConnectionId) (call_id group : list byte)
    (epoch : Z) (kind : CallKind) (body : list byte) : CallRelay :=
  let frame := Frame.Call call_id group epoch (kind_u8 kind) body in
  let '(_, hub, h) := fanout_frame (cf_hub r) (cf_heap r) group frame connection CALL_PROTOCOL_VERSION in
  mkCallRelay (cf_calls r) hub h
    (match kind with Offer => cf_rung r ++ [group] | _ => cf_rung r end).

Definition publish_call (tables : option Tables) (r : CallRelay) (swept now : Z) (session : Session)
    (connection : ConnectionId) (snd_ : N) (call_id group : list byte) (epoch : Z) (kind : CallKind)
    (body : list byte) : bool * CallRelay :=
  match authorize_group tables session group with
  | Err code => answer_error r snd_ (FrameError_new code)
  | Ok _ =>
      if joins kind then
        match join (cf_calls r) swept now call_id group connection snd_ with
        | (Err refusal, calls) => answer_error (on_calls r calls) snd_ (refusal_error calls refusal)
        | (Ok _, calls) => (true, forward_call (on_calls r calls) connection call_id group epoch kind body)
        end
      else
        match group_of (cf_calls r) call_id with
        | Some open =>
            if negb (bool_decide (open = group))
            then answer_error r snd_ (refusal_error (cf_calls r) GroupMismatch)
            else (true, forward_call (on_calls r (leave (cf_calls r) call_id connection))
                          connection call_id group epoch kind body)
        | None => (true, forward_call (on_calls r (leave (cf_calls r) call_id connection))
                           connection call_id group epoch kind body)
        end
  end.

Definition publish_media (r : CallRelay) (now : Z) (connection : ConnectionId) (snd_ : N)
    (call_id stream : list byte) (seq : Z) (ct : list byte) : bool * CallRelay :=
  match route (cf_calls r) (cf_heap r) now call_id connection (Frame.Media call_id stream seq ct) with
  | (Ok _, calls, h) => (true, mkCallRelay calls (cf_hub r) h (cf_rung r))
  | (Err code, calls, h) => answer_error (mkCallRelay calls (cf_hub r) h (cf_rung r)) snd_ (FrameError_new code)
  end.

(** ** What a handler may touch *)
Lemma queue_one_elsewhere h snd_ f s : s ≠ snd_ → (queue_one h snd_ f).2 s = h s.
Proof using Type*.
  intros Hne. unfold queue_one. pose proof (queue_at_elsewhere h snd_ f s) as He.
  destruct (queue_at h snd_ f) as [q h']. cbn in *. auto.
Qed.

(** A fanout reaches the queues of the group's subscribers that speak the version,
    the sender's own connection excepted. *)
Lemma fanout_loop_elsewhere group frame except minv subs (h : N → Channel C P) s :
  (∀ x, x ∈ subs → sub_id x ≠ except → minv ≤ protocol_version x → sender x ≠ s) →
  (fanout_loop group frame except minv h subs).2 s = h s.
Proof.
  revert h. induction subs as [|x subs IH]; intros h Hs; [done|]. cbn [fanout_loop].
  destruct (deliver group frame except minv x (h (sender x))) as [v ch] eqn:Hd.
  specialize (IH (<[sender x := ch]> h)). destruct (fanout_loop _ _ _ _ _ subs) as [vs h']. cbn in *.
  rewrite IH; [|intros; apply Hs; [by right|..]; done].
  destruct (decide (sender x = s)) as [<-|Hne]; [|by apply fn_lookup_insert_ne].
  rewrite fn_lookup_insert. unfold deliver in Hd. case_bool_decide as He; [by injection Hd|].
  destruct (Z.ltb_spec (protocol_version x) minv); [by injection Hd|].
  exfalso. by apply (Hs x); [left|..].
Qed.

Lemma fanout_frame_elsewhere hub (h : N → Channel C P) group frame except minv s :
  (∀ x, Hub.subscribed hub group x → sub_id x ≠ except → minv ≤ protocol_version x → sender x ≠ s) →
  (fanout_frame hub h group frame except minv).2 s = h s.
Proof.
  intros Hs. unfold fanout_frame, fanout_locked. destruct (groups hub !! group) as [subs|] eqn:Hg; [|done].
  pose proof (fanout_loop_elsewhere group frame except minv subs h s) as Hl.
  destruct (fanout_loop _ _ _ _ _ subs) as [vs h']. cbn in *. apply Hl. intros x Hx. apply Hs. by exists subs.
Qed.
End handlers.
Arguments CallRelay C P : clear implicits.

(** ** Who a call's media reaches *)
Section confinement.
Context {C P : Type} `{MpscLaws C, SemaphoreLaws P}.
Implicit Types (r : CallRelay C P).

(** The connections that have passed [authorize_group], with the group. *)
Definition Granted : Type := gset (ConnectionId * list byte).

(** Each lock or store call the handlers make, one at a time. *)
Inductive call_frame_step : CallRelay C P * Granted → CallRelay C P * Granted → Prop :=
| cs_authorized r gr tables session connection group t :
    authorize_group tables session group = Ok t →
    call_frame_step (r, gr) (r, {[(connection, group)]} ∪ gr)
| cs_join r gr swept now call_id group connection snd_ :
    (connection, group) ∈ gr →
    call_frame_step (r, gr) (on_calls r (join (cf_calls r) swept now call_id group connection snd_).2, gr)
| cs_leave r gr call_id connection :
    call_frame_step (r, gr) (on_calls r (leave (cf_calls r) call_id connection), gr)
| cs_forget r gr connection : call_frame_step (r, gr) (on_calls r (forget (cf_calls r) connection), gr)
| cs_sweep r gr now idle : call_frame_step (r, gr) (on_calls r (sweep_idle (cf_calls r) now idle).2, gr)
| cs_media r gr now connection snd_ call_id stream seq ct :
    call_frame_step (r, gr) ((publish_media r now connection snd_ call_id stream seq ct).2, gr)
| cs_delivery r gr hub h rung : call_frame_step (r, gr) (mkCallRelay (cf_calls r) hub h rung, gr).

(** Everyone in a call was authorized for the call's group. *)
Definition calls_granted (calls : gmap (list byte) CallEntry) (gr : Granted) : Prop :=
  ∀ id c p, calls !! id = Some c → p ∈ participants c → (p.1, ce_group c) ∈ gr.

Lemma calls_granted_mono calls gr gr' : gr ⊆ gr' → calls_granted calls gr → calls_granted calls gr'.
Proof. intros Hs Hc id c p Hid Hp. apply Hs. by eapply Hc. Qed.

(** Tables whose calls keep their group and gain nobody. *)
Definition calls_shrink (old new : gmap (list byte) CallEntry) : Prop :=
  ∀ id c', new !! id = Some c' →
    ∃ c, old !! id = Some c ∧ ce_group c' = ce_group c ∧ ∀ p, p ∈ participants c' → p ∈ participants c.
Lemma calls_granted_shrink old new gr : calls_shrink old new → calls_granted old gr → calls_granted new gr.
Proof.
  intros Hs Hc id c' p Hid Hp. destruct (Hs id c' Hid) as (c & Hid0 & -> & Hin). eapply Hc; [done|]. by apply Hin.
Qed.

Lemma shrink_refl m : calls_shrink m m.
Proof. intros id c Hc. by exists c. Qed.
Lemma shrink_filter (m : gmap (list byte) CallEntry) (Q : list byte * CallEntry → Prop) `{∀ x, Decision (Q x)} :
  calls_shrink m (filter Q m).
Proof. intros id c [Hc _]%map_lookup_filter_Some. by exists c. Qed.
Lemma shrink_insert m id c c' :
  m !! id = Some c → ce_group c' = ce_group c → (∀ p, p ∈ participants c' → p ∈ participants c) →
  calls_shrink m (<[id := c']> m).
Proof. intros Hm Hg Hp k x [[<- <-]|[Hne Hk]]%lookup_insert_Some; [by exists c | by exists x]. Qed.

Lemma without_subset connection c p : p ∈ participants (without connection c) → p ∈ participants c.
Proof. cbn. by intros [_ Hp]%list_elem_of_filter. Qed.

Lemma shrink_leave reg id connection : calls_shrink (calls reg) (calls (leave reg id connection)).
Proof.
  unfold leave. destruct (calls reg !! id) as [c|] eqn:Hc; [|apply shrink_refl].
  destruct (participants (without connection c)) eqn:Hp; cbn [calls with_calls].
  - intros k x Hk. apply lookup_delete_Some in Hk as [_ Hk]. by exists x.
  - eapply shrink_insert; [done | done |]. apply without_subset.
Qed.
Lemma shrink_forget reg connection : calls_shrink (calls reg) (calls (forget reg connection)).
Proof.
  cbn. intros k x Hk. apply map_lookup_filter_Some in Hk as [Hk _].
  rewrite lookup_fmap in Hk. apply fmap_Some in Hk as (c & Hc & ->). exists c. split_and!; [done..|]. apply without_subset.
Qed.
Lemma shrink_route reg (h : N → Channel C P) now id from frame :
  calls_shrink (calls reg) (calls (route reg h now id from frame).1.2).
Proof.
  unfold route. destruct (calls reg !! id) as [c|] eqn:Hc; [|apply shrink_refl].
  destruct (in_call from c); [|apply shrink_refl]. destruct (fold_left _ _ _) as [[[h' ?] ?] gone]. cbn.
  eapply shrink_insert; [done | done |]. cbn. by intros p [_ Hp]%list_elem_of_filter.
Qed.

(** Admission brings in nobody but the connection that joined. *)
Lemma join_granted reg swept now id group connection snd_ gr :
  (connection, group) ∈ gr → calls_granted (calls reg) gr →
  calls_granted (calls (join reg swept now id group connection snd_).2) gr.
Proof.
  intros Hg Hc. assert (calls_granted (drop_idle (calls reg) swept CALL_IDLE_MS) gr) as Hl
    by (eapply calls_granted_shrink; [apply shrink_filter | done]).
  unfold join. destruct (drop_idle _ _ _ !! id) as [call|] eqn:Hid.
  - case_bool_decide as He; cbn [negb]; [|done]. destruct (in_call connection call); [done|].
    destruct (_ <=? _)%nat; [done|]. cbn. intros k x p [[<- <-]|[_ Hk]]%lookup_insert_Some Hp; [|by eapply Hl].
    cbn in *. apply elem_of_app in Hp as [Hp|Hp]; [by eapply Hl|]. apply list_elem_of_singleton in Hp as ->.
    cbn. by rewrite He.
  - destruct (_ <=? _)%nat; [done|]. destruct (_ <=? _)%nat; [done|]. cbn.
    intros k x p [[<- <-]|[_ Hk]]%lookup_insert_Some Hp; [|by eapply Hl].
    cbn in *. by apply list_elem_of_singleton in Hp as ->.
Qed.

Lemma media_calls r now connection snd_ id stream seq ct :
  calls_shrink (calls (cf_calls r)) (calls (cf_calls (publish_media r now connection snd_ id stream seq ct).2)).
Proof.
  unfold publish_media. pose proof (shrink_route (cf_calls r) (cf_heap r) now id connection (Media id stream seq ct)) as Hs.
  destruct (route _ _ _ _ _ _) as [[[x|e] reg] h]; [done|]. unfold answer_error.
  by destruct (queue_one _ _ _).
Qed.

Lemma step_granted a b :
  call_frame_step a b → calls_granted (calls (cf_calls a.1)) a.2 → calls_granted (calls (cf_calls b.1)) b.2.
Proof.
  intros Hst Hc. destruct Hst; cbn [fst snd on_calls cf_calls] in *; try done.
  - eapply calls_granted_mono; [|done]. apply union_subseteq_r.
  - by apply join_granted.
  - eapply calls_granted_shrink; [apply shrink_leave | done].
  - eapply calls_granted_shrink; [apply shrink_forget | done].
  - eapply calls_granted_shrink; [apply shrink_filter | done].
  - eapply calls_granted_shrink; [apply media_calls | done].
Qed.

(** [publish_call] is a sequence of those steps. *)
Lemma publish_call_steps tables r swept now session connection snd_ call_id group epoch kind body gr :
  let gr' := match authorize_group tables session group with Ok _ => {[(connection, group)]} ∪ gr | Err _ => gr end in
  rtc call_frame_step (r, gr)
    ((publish_call tables r swept now session connection snd_ call_id group epoch kind body).2, gr').
Proof.
  assert (∀ r gr e, rtc call_frame_step (r, gr) ((answer_error r snd_ e).2, gr)) as Hans.
  { intros r0 gr0 e. unfold answer_error. destruct (queue_one _ _ _) as [open h]. apply rtc_once, cs_delivery. }
  assert (∀ r gr, rtc call_frame_step (r, gr) (forward_call r connection call_id group epoch kind body, gr)) as Hfw.
  { intros r0 gr0. unfold forward_call. destruct (fanout_frame _ _ _ _ _ _) as [[? hub] h]. apply rtc_once, cs_delivery. }
  intros gr'. unfold publish_call. destruct (authorize_group tables session group) as [t|e] eqn:Ha; [|apply Hans].
  eapply rtc_l; [by eapply cs_authorized|].
  assert (rtc call_frame_step (r, gr') ((true, forward_call (on_calls r (leave (cf_calls r) call_id connection))
    connection call_id group epoch kind body).2, gr')) as Hleave by (eapply rtc_l; [apply cs_leave | apply Hfw]).
  destruct (joins kind).
  - assert ((connection, group) ∈ gr') as Hin by (apply elem_of_union; left; by apply elem_of_singleton).
    eapply rtc_l; [by apply (cs_join r gr' swept now call_id group connection snd_)|].
    destruct (join _ _ _ _ _ _ _) as [[[]|refusal] calls]; [apply Hfw | apply Hans].
  - destruct (group_of (cf_calls r) call_id) as [open|]; [|done]. by destruct (negb _).
Qed.

(** Media that is queued for somebody is queued from one participant to another. *)
Lemma media_heap r now connection snd_ id stream seq ct s :
  cf_heap (publish_media r now connection snd_ id stream seq ct).2 s ≠ cf_heap r s →
  s = snd_ ∨ ∃ c p, calls (cf_calls r) !! id = Some c ∧ in_call connection c = true
                    ∧ p ∈ participants c ∧ p.1 ≠ connection ∧ p.2 = s.
Proof using Type*.
  assert (∀ ps acc, (∀ p, p ∈ ps → p.1 ≠ connection → p.2 ≠ s) →
    (fold_left (route_one connection (Media id stream seq ct)) ps acc).1.1.1 s = acc.1.1.1 s) as Hfold.
  { induction ps as [|[i q] ps IH]; intros [[[h ?] ?] ?] Hp; [done|]. cbn [fold_left]. rewrite IH.
    - unfold route_one. case_bool_decide as Hi; [done|].
      assert (q ≠ s) as Hq by (apply (Hp (i, q)); [by left | done]).
      pose proof (queue_at_elsewhere h q (Media id stream seq ct) s) as He.
      destruct (queue_at h q _) as [[] h']; cbn in *; auto.
    - intros p Hin. apply Hp. by right. }
  intros Hne. destruct (decide (s = snd_)) as [->|Hs]; [by left|]. right.
  unfold publish_media, route in Hne. destruct (calls (cf_calls r) !! id) as [c|] eqn:Hc.
  2: { unfold answer_error in Hne. cbn in Hne. pose proof (queue_one_elsewhere (cf_heap r) snd_ (Frame.Error (FrameError_new WriterNotInAccessSet)) s Hs) as He.
       by destruct (queue_one _ _ _). }
  destruct (in_call connection c) eqn:Hin.
  2: { unfold answer_error in Hne. cbn in Hne. pose proof (queue_one_elsewhere (cf_heap r) snd_ (Frame.Error (FrameError_new WriterNotInAccessSet)) s Hs) as He.
       by destruct (queue_one _ _ _). }
  exists c. destruct (decide (Exists (λ p, p.1 ≠ connection ∧ p.2 = s) (participants c))) as [Hex|Hno].
  - apply Exists_exists in Hex as (p & Hp & Hpc & Hps). exists p. by split_and!.
  - exfalso. apply Hne. specialize (Hfold (participants c) (cf_heap r, mkRouted 0 0 0, shed (cf_calls r), [])).
    destruct (fold_left _ _ _) as [[[h' ?] ?] ?]. cbn in *. apply Hfold. intros p Hp Hpc Hps. apply Hno.
    apply Exists_exists. by exists p.
Qed.

(** C11. A call's media never leaves the group that was authorized. From an empty
    registry, under any interleaving of authorizations, joins, leaves,
    disconnections, idle sweeps, media frames and deliveries, a media frame changes
    no queue but the sender's own (its refusal) and those of the other participants
    of the call it names; every one of them, and the sender, passed the group check
    for the group that call belongs to. *)
Theorem call_media_confined max_calls hub h rung r gr now connection snd_ call_id stream seq ct s :
  rtc call_frame_step (mkCallRelay (call_registry_new max_calls) hub h rung, ∅) (r, gr) →
  let r' := (publish_media r now connection snd_ call_id stream seq ct).2 in
  cf_heap r' s ≠ cf_heap r s →
  s = snd_
  ∨ ∃ c p, calls (cf_calls r) !! call_id = Some c ∧ p ∈ participants c ∧ p.2 = s ∧ p.1 ≠ connection
           ∧ (p.1, ce_group c) ∈ gr ∧ (connection, ce_group c) ∈ gr.
Proof using Type*.
  intros Hr r' Hne. destruct (media_heap r now connection snd_ call_id stream seq ct s Hne) as [Hs|Hp]; [by left|].
  right. destruct Hp as (c & p & Hc & Hin & Hp & Hpc & Hps). exists c, p.
  assert (calls_granted (calls (cf_calls r)) gr) as Hg.
  { clear -Hr. remember (mkCallRelay _ _ _ _, ∅) as a eqn:Ha. remember (r, gr) as b eqn:Hb.
    change (calls_granted (calls (cf_calls (r, gr).1)) (r, gr).2). rewrite <- Hb.
    assert (calls_granted (calls (cf_calls a.1)) a.2) as Hi by (subst a; intros ??? Hl; cbn in Hl; by rewrite lookup_empty in Hl).
    clear Ha Hb. induction Hr as [|a b c Hst _ IH]; [done|]. apply IH. by eapply step_granted. }
  apply in_call_elem, list_elem_of_fmap in Hin as (q & -> & Hq).
  split_and!; [done..| |]; by eapply Hg.
Qed.

(** A refusal, whatever the registry swept on the way. *)
Lemma refused_frame r reg snd_ e :
  calls_shrink (calls (cf_calls r)) (calls reg) →
  let r' := (answer_error (on_calls r reg) snd_ e).2 in
  cf_hub r' = cf_hub r ∧ cf_rung r' = cf_rung r ∧ (∀ s, s ≠ snd_ → cf_heap r' s = cf_heap r s)
  ∧ calls_shrink (calls (cf_calls r)) (calls (cf_calls r')).
Proof using Type*.
  intros Hs r'. unfold r', answer_error. cbn.
  pose proof (queue_one_elsewhere (cf_heap r) snd_ (Frame.Error e)) as He.
  destruct (queue_one (cf_heap r) snd_ (Frame.Error e)) as [open h]. by split_and!.
Qed.

Lemma on_calls_same r : on_calls r (cf_calls r) = r.
Proof. by destruct r. Qed.

(** A frame that goes through. *)
Lemma forwarded_frame r reg connection call_id group epoch kind body :
  let r' := forward_call (on_calls r reg) connection call_id group epoch kind body in
  cf_calls r' = reg ∧ cf_rung r' = (if bool_decide (kind = Offer) then cf_rung r ++ [group] else cf_rung r)
  ∧ ∀ s, cf_heap r' s ≠ cf_heap r s →
       ∃ x, Hub.subscribed (cf_hub r) group x ∧ sender x = s ∧ sub_id x ≠ connection
            ∧ CALL_PROTOCOL_VERSION ≤ protocol_version x.
Proof.
  intros r'. unfold r', forward_call. cbn [on_calls cf_hub cf_heap cf_calls cf_rung].
  pose proof (fanout_frame_elsewhere (cf_hub r) (cf_heap r) group
    (Frame.Call call_id group epoch (kind_u8 kind) body) connection CALL_PROTOCOL_VERSION) as He.
  destruct (fanout_frame _ _ _ _ _ _) as [[? hub] h]. cbn in *. split_and!; [done | by destruct kind |].
  intros s Hs. destruct (groups (cf_hub r) !! group) as [subs|] eqn:Hg.
  - destruct (decide (Exists (λ x, sub_id x ≠ connection ∧ CALL_PROTOCOL_VERSION ≤ protocol_version x ∧ sender x = s) subs))
      as [Hex|Hno].
    + apply Exists_exists in Hex as (x & Hx & ? & ? & ?). exists x. split_and!; [by exists subs|done..].
    + exfalso. apply Hs, He. intros x (subs' & Hg' & Hx) Hc Hv Hse. apply Hno, Exists_exists. exists x.
      rewrite Hg in Hg'. injection Hg' as <-. done.
  - exfalso. apply Hs, He. intros x (subs' & Hg' & _). congruence.
Qed.

Lemma leave_leaves reg call_id connection : holds (leave reg call_id connection) call_id connection = false.
Proof.
  unfold leave, holds. destruct (calls reg !! call_id) as [c|] eqn:Hc; [|by rewrite Hc].
  destruct (participants (without connection c)) eqn:Hp; cbn [calls with_calls]; [by rewrite lookup_delete_eq|].
  rewrite lookup_insert_eq. apply not_true_is_false. intros Hin%in_call_elem.
  apply list_elem_of_fmap in Hin as (q & Hq & Hin). cbn in Hin. by apply list_elem_of_filter in Hin as [Hn _].
Qed.

(** What one signalling frame does. A refused frame reaches nobody: no queue
    but the sender's own changes, no subscription changes, nobody is rung, and no
    call gains a participant. A frame that goes through leaves the sender in the
    call it named, in the group it named, exactly when its kind joins, and out of
    it otherwise; it is queued only for subscribers of that group that speak the
    call version, never back to the sender's connection, and only an offer rings. *)
Theorem call_frame_outcome tables r swept now session connection snd_ call_id group epoch kind body :
  let out := publish_call tables r swept now session connection snd_ call_id group epoch kind body in
  let r' := out.2 in
  (cf_hub r' = cf_hub r ∧ cf_rung r' = cf_rung r ∧ (∀ s, s ≠ snd_ → cf_heap r' s = cf_heap r s)
   ∧ calls_shrink (calls (cf_calls r)) (calls (cf_calls r')))
  ∨ (out.1 = true ∧ (∃ t, authorize_group tables session group = Ok t)
     ∧ (joins kind = true → ∃ c, calls (cf_calls r') !! call_id = Some c ∧ ce_group c = group
          ∧ in_call connection c = true)
     ∧ (joins kind = false → holds (cf_calls r') call_id connection = false)
     ∧ cf_rung r' = (if bool_decide (kind = Offer) then cf_rung r ++ [group] else cf_rung r)
     ∧ ∀ s, cf_heap r' s ≠ cf_heap r s →
         ∃ x, Hub.subscribed (cf_hub r) group x ∧ sender x = s ∧ sub_id x ≠ connection
              ∧ CALL_PROTOCOL_VERSION ≤ protocol_version x).
Proof using Type*.
  cbv zeta. unfold publish_call. destruct (authorize_group tables session group) as [t|e] eqn:Ha.
  2: { left. pose proof (refused_frame r (cf_calls r) snd_ (FrameError_new e) (shrink_refl _)) as Hx.
       by rewrite on_calls_same in Hx. }
  destruct (joins kind) eqn:Hj.
  - pose proof (join_admits (cf_calls r) swept now call_id group connection snd_) as Hjoin.
    destruct (join _ _ _ _ _ _ _) as [[[]|refusal] reg].
    + right. destruct Hjoin as ((c & Hc & Hg & Hin & _) & _).
      destruct (forwarded_frame r reg connection call_id group epoch kind body) as (Hreg & Hr & Hh).
      cbn [fst snd]. rewrite Hreg. split_and!; [done | by eexists | | done | done | done]. by exists c.
    + left. apply refused_frame. destruct Hjoin as [-> _]. apply shrink_filter.
  - destruct (forwarded_frame r (leave (cf_calls r) call_id connection) connection call_id group epoch kind body)
      as (Hreg & Hr & Hh).
    pose proof (leave_leaves (cf_calls r) call_id connection) as Hl.
    destruct (group_of (cf_calls r) call_id) as [open|]; [destruct (negb _)|].
    + left. pose proof (refused_frame r (cf_calls r) snd_ (refusal_error (cf_calls r) GroupMismatch) (shrink_refl _)) as Hx.
      by rewrite on_calls_same in Hx.
    + right. cbn [fst snd]. rewrite Hreg. split_and!; [done | by eexists | done | done | done | done].
    + right. cbn [fst snd]. rewrite Hreg. split_and!; [done | by eexists | done | done | done | done].
Qed.
End confinement.

(** ** A call between two devices of one workspace *)
Module CallFramesDemo.
Definition relay0 : CallRelay (list Outbound * bool) Z :=
  mkCallRelay (call_registry_new 4) (subscribe hub_new room 2%N 2%N 3) idle_heap [].
Definition workspace : list byte := [Byte.x01].
Definition tables0 : Tables := mkTables ∅ {[ room := workspace ]} [].
Definition caller : Session := with_workspace (fst (session_new Demo.config [] (mkProcess 1 []))) (Some workspace).
Definition offered := publish_call (Some tables0) relay0 0 0 caller 1%N 1%N call_one room 0 Offer [].
Definition answered := publish_call (Some tables0) offered.2 5 5 caller 2%N 2%N call_one room 0 Answer [].
Definition spoken := publish_media answered.2 6 1%N 1%N call_one [Byte.x07] 0 [].

Definition granted : Granted := {[(2%N, room)]} ∪ ({[(1%N, room)]} ∪ ∅).
Lemma answered_reachable : rtc call_frame_step (relay0, ∅) (answered.2, granted).
Proof.
  etrans.
  - exact (publish_call_steps (Some tables0) relay0 0 0 caller 1%N 1%N call_one room 0 Offer [] ∅).
  - exact (publish_call_steps (Some tables0) offered.2 5 5 caller 2%N 2%N call_one room 0 Answer [] ({[(1%N, room)]} ∪ ∅)).
Qed.

(** The offer rings the group and reaches the other device, the media follows it. *)
Lemma call_reaches_callee :
  cf_rung offered.2 = [room]
  ∧ queued (cf_heap offered.2) 2%N = [OutFrame (Frame.Call call_one room 0 1 [])]
  ∧ length (queued (cf_heap spoken.2) 2%N) = S (length (queued (cf_heap answered.2) 2%N))
  ∧ queued (cf_heap (publish_media answered.2 6 3%N 3%N call_one [Byte.x07] 0 []).2) 3%N
    = [OutFrame (Frame.Error (FrameError_new WriterNotInAccessSet))].
Proof. by vm_compute. Qed.

Lemma call_media_confined_witness :
  2%N = 1%N
  ∨ ∃ c p, calls (cf_calls answered.2) !! call_one = Some c ∧ p ∈ participants c ∧ p.2 = 2%N ∧ p.1 ≠ 1%N
           ∧ (p.1, ce_group c) ∈ granted ∧ (1%N, ce_group c) ∈ granted.
Proof.
  apply (call_media_confined 4 (subscribe hub_new room 2%N 2%N 3) idle_heap [] answered.2 granted 6 1%N 1%N
    call_one [Byte.x07] 0 [] 2%N answered_reachable).
  intros Heq. assert (length (queued (cf_heap spoken.2) 2%N) = length (queued (cf_heap answered.2) 2%N)) as Hl
    by (unfold queued; by rewrite <- Heq).
  revert Hl. vm_compute. discriminate.
Defined.
End CallFramesDemo.
