(* ===== verification/Handoff.v ===== *)
(** * The sealed bootstrap handoff

    Models [backend/wealdrelay/src/invite/handoff.rs]: the base64 written out
    there, the configured public key, the path derived from it, sealing and
    opening, and the row kept for the control plane. X25519, HKDF-SHA256,
    AES-256-GCM and SHA-256 are the [x25519-dalek] and [ring] crates' and are
    parameters ([HandoffCrypto]). Text is its UTF-8 bytes; times are
    milliseconds, which [to_timestamp] keeps exactly below 2{^53}. *)

From Stdlib Require Import ZArith Lia String.
From stdpp Require Import base tactics numbers gmap fin_maps sets list.
From S2P Require Import Prelude Cbor Push Frame Crypto Access Genesis InviteCode InviteRecord Config.

Open Scope Z_scope.

Definition HANDOFF_SALT : list byte := ascii_bytes "weald-bootstrap-handoff-v1"%string.
Definition HANDOFF_KEY_BYTES : nat := 32.

(** The [Key] arms carry a message: not base64, or the length found. *)
Inductive HandoffError : Type := KeyNotBase64 | KeyWidth (got : nat) | SealFailed.

(** ** Base64 *)
Definition STANDARD : list byte :=
  ascii_bytes "ABCDEFGHIJKLMNOPQRSTUVWXYZabcdefghijklmnopqrstuvwxyz0123456789+/"%string.
Definition URL_SAFE : list byte :=
  ascii_bytes "ABCDEFGHIJKLMNOPQRSTUVWXYZabcdefghijklmnopqrstuvwxyz0123456789-_"%string.
Definition PAD : byte := byte_of_Z 61.

(** One chunk of at most three bytes. *)
Definition encode_chunk (alphabet : list byte) (pad : bool) (chunk : list byte) : list byte :=
  let block i := byte_to_Z (nth i chunk Byte.x00) in
  let packed := Z.lor (Z.lor (Z.shiftl (block 0%nat) 16) (Z.shiftl (block 1%nat) 8)) (block 2%nat) in
  let symbols := [Z.land (Z.shiftr packed 18) 63; Z.land (Z.shiftr packed 12) 63;
                  Z.land (Z.shiftr packed 6) 63; Z.land packed 63] in
  let kept := (length chunk + 1)%nat in
  ((λ s, nth (Z.to_nat s) alphabet Byte.x00) <$> take kept symbols)
  ++ (if pad then replicate (4 - kept) PAD else []).

(** [chunks(3)]. *)
Fixpoint encode_with (alphabet : list byte) (pad : bool) (bytes : list byte) : list byte :=
  match bytes with
  | [] => []
  | a :: b :: c :: rest => encode_chunk alphabet pad [a; b; c] ++ encode_with alphabet pad rest
  | short => encode_chunk alphabet pad short
  end.
Definition base64_encode (bytes : list byte) : list byte := encode_with STANDARD true bytes.
Definition base64url_nopad (bytes : list byte) : list byte := encode_with URL_SAFE false bytes.

Definition symbol_value (symbol : byte) : option Z :=
  let s := byte_to_Z symbol in
  if in_range 65 90 symbol then Some (s - 65)
  else if in_range 97 122 symbol then Some (s - 97 + 26)
  else if in_range 48 57 symbol then Some (s - 48 + 52)
  else if in_range 43 43 symbol || in_range 45 45 symbol then Some 62
  else if in_range 47 47 symbol || in_range 95 95 symbol then Some 63
  else None.

(** The loop: [bits] is a [u32], whose shift drops what leaves it. *)
Fixpoint decode_loop (bits held : Z) (out : list byte) (text : list byte) : option (list byte) :=
  match text with
  | [] => Some out
  | symbol :: rest =>
      if bool_decide (symbol = PAD) then Some out
      else
        match symbol_value symbol with
        | None => None
        | Some value =>
            let bits := Z.lor (Z.shiftl bits 6 mod 2 ^ 32) value in
            let held := held + 6 in
            if 8 <=? held
            then let held := held - 8 in
                 decode_loop bits held (out ++ [byte_of_Z (Z.land (Z.shiftr bits held) 255)]) rest
            else decode_loop bits held out rest
        end
  end.
Definition base64_decode (text : list byte) : option (list byte) := decode_loop 0 0 [] text.

(** [str::trim]: whole characters of white space, from the front and the back. *)
Fixpoint trim_start (fuel : nat) (text : list byte) : list byte :=
  match fuel with
  | O => text
  | S f => match strip_space text with Some rest => trim_start f rest | None => text end
  end.
Definition ends_in_space (text : list byte) (k : nat) : bool :=
  (k <=? length text)%nat && bool_decide (strip_space (drop (length text - k) text) = Some []).
Fixpoint trim_end (fuel : nat) (text : list byte) : list byte :=
  match fuel with
  | O => text
  | S f =>
      if ends_in_space text 1 then trim_end f (take (length text - 1) text)
      else if ends_in_space text 2 then trim_end f (take (length text - 2) text)
      else if ends_in_space text 3 then trim_end f (take (length text - 3) text)
      else text
  end.
Definition trim (text : list byte) : list byte :=
  let text := trim_start (length text) text in trim_end (length text) text.

Definition parse_public_key (configured : list byte) : result HandoffError (list byte) :=
  match base64_decode (trim configured) with
  | None => Err KeyNotBase64
  | Some bytes => if (length bytes =? HANDOFF_KEY_BYTES)%nat then Ok bytes else Err (KeyWidth (length bytes))
  end.

(** ** The construction *)
Class HandoffCrypto : Type := {
  sha256 : list byte → list byte;
  x25519_public : list byte → list byte;
  x25519 : list byte → list byte → list byte;
  (** salt, input key, info, length; [None] where the crate refuses *)
  hkdf_sha256 : list byte → list byte → list byte → nat → option (list byte);
  (** key, nonce, additional data, text; the tag is appended *)
  aes_seal : list byte → list byte → list byte → list byte → option (list byte);
  aes_open : list byte → list byte → list byte → list byte → option (list byte)
}.

(** The longest text AES-GCM seals. *)
Definition AES_MAX : Z := (2 ^ 32 - 2) * 16.
Definition NONCE : list byte := replicate 12 Byte.x00.

(** What the crates document. *)
Class HandoffLaws `{HandoffCrypto} : Prop := {
  x25519_width : ∀ s, length (x25519_public s) = 32%nat;
  x25519_agrees : ∀ a b, x25519 a (x25519_public b) = x25519 b (x25519_public a);
  hkdf_answers : ∀ salt ikm info, ∃ key, hkdf_sha256 salt ikm info 32 = Some key ∧ length key = 32%nat;
  aes_seals : ∀ key nonce aad text, length key = 32%nat → len text ≤ AES_MAX →
    ∃ ct, aes_seal key nonce aad text = Some ct ∧ length ct = (length text + 16)%nat
          ∧ aes_open key nonce aad ct = Some text
}.

Section construction.
Context `{HandoffCrypto}.

Definition handoff_path (public_key : list byte) : list byte :=
  ascii_bytes "/handoff/"%string ++ base64url_nopad (sha256 public_key).

Definition seal_or {A} (o : option A) : result HandoffError A := match o with Some x => Ok x | None => Err SealFailed end.

Definition message_key (shared public_key : list byte) : result HandoffError (list byte) :=
  seal_or (hkdf_sha256 HANDOFF_SALT shared public_key 32).

Definition seal_with_shared (shared public_key plaintext : list byte) : result HandoffError (list byte) :=
  let? key := message_key shared public_key in
  seal_or (aes_seal key NONCE [] plaintext).

Definition seal_with_ephemeral (public_key ephemeral_private plaintext : list byte) : result HandoffError (list byte) :=
  let? sealed := seal_with_shared (x25519 ephemeral_private public_key) public_key plaintext in
  Ok (base64_encode (x25519_public ephemeral_private ++ sealed)).

(** [entropy]: what [getrandom::fill] gave, if it gave anything. *)
Definition seal (entropy : option (list byte)) (public_key plaintext : list byte) : result HandoffError (list byte) :=
  let? ephemeral := seal_or entropy in
  seal_with_ephemeral public_key ephemeral plaintext.

Definition handoff_open (private_key public_key blob_base64 : list byte) : result HandoffError (list byte) :=
  let? blob := seal_or (base64_decode blob_base64) in
  if (length blob <? HANDOFF_KEY_BYTES + 16)%nat then Err SealFailed
  else
    let? key := message_key (x25519 private_key (take HANDOFF_KEY_BYTES blob)) public_key in
    seal_or (aes_open key NONCE [] (drop HANDOFF_KEY_BYTES blob)).
End construction.

(** ** The row *)
Record SealedHandoff : Type := mkSealed {
  ho_blob : list byte; ho_code : list byte; ho_fingerprint : list byte
}.
Record HandoffRow : Type := mkHandoffRow { hr_sealed : SealedHandoff; hr_expires : Z }.
Notation HandoffTable := (gmap (list byte) HandoffRow).

(** [genesis::FirstRun]. *)
Record FirstRun : Type := mkFirstRun {
  fr_public_key : list byte; fr_fingerprint : list byte; fr_token : list byte; fr_code : Code
}.

Definition join_link (hostname token : list byte) : list byte :=
  ascii_bytes "https://"%string ++ hostname ++ ascii_bytes "/join/"%string ++ hex token.
Definition code_text (code : Code) : list byte := byte_of_Z <$> grouped code.

(** [StoreError::Database]. *)
Inductive HandoffStoreError : Type := HandoffSealing | HandoffStatement | HandoffVanished.

Definition read_unexpired (t : HandoffTable) (workspace : list byte) (only_unexpired : bool) (now : Z) : option SealedHandoff :=
  match t !! workspace with
  | Some row => if negb only_unexpired || (now <? hr_expires row) then Some (hr_sealed row) else None
  | None => None
  end.
Definition handoff_read (t : HandoffTable) (workspace : list byte) (now : Z) : option SealedHandoff :=
  read_unexpired t workspace true now.

Definition sealed_of {A} (r : result HandoffError A) : result HandoffStoreError A := map_err (λ _, HandoffSealing) r.

Section rows.
Context `{HandoffCrypto}.

(** [store]. [entropy] is what each of the two seals draws. The read that confirms
    the write is a statement of its own: [between] is what other writers did to the
    table after the insert, and [reachable] whether the database answered. *)
Definition handoff_seal (entropy : option (list byte) * option (list byte)) (hostname : list byte) (run : FirstRun)
    (public_key : list byte) : result HandoffStoreError SealedHandoff :=
  let? blob := sealed_of (seal entropy.1 public_key (join_link hostname (fr_token run))) in
  let? code := sealed_of (seal entropy.2 public_key (code_text (fr_code run))) in
  Ok (mkSealed blob code (hex (fr_fingerprint run))).
Definition insert_handoff (t : HandoffTable) (workspace : list byte) (sealed : SealedHandoff) (expires_ms : Z)
    : HandoffTable :=
  match t !! workspace with
  | Some _ => t
  | None => <[workspace := mkHandoffRow sealed (Z.max expires_ms 0)]> t
  end.
Definition handoff_store (entropy : option (list byte) * option (list byte)) (t : HandoffTable)
    (between : HandoffTable → HandoffTable) (workspace hostname : list byte) (run : FirstRun)
    (public_key : list byte) (expires_ms now : Z) (reachable : bool)
    : result HandoffStoreError SealedHandoff * HandoffTable :=
  match handoff_seal entropy hostname run public_key with
  | Err e => (Err e, t)
  | Ok sealed =>
      if negb reachable then (Err HandoffStatement, t) else
      let t := between (insert_handoff t workspace sealed expires_ms) in
      (match read_unexpired t workspace false now with Some s => Ok s | None => Err HandoffVanished end, t)
  end.
End rows.

Definition sweep_handoffs (t : HandoffTable) (now : Z) : nat * HandoffTable :=
  let kept := filter (λ e : list byte * HandoffRow, now < hr_expires e.2) t in
  ((size t - size kept)%nat, kept).
Definition forget_handoff (t : HandoffTable) (workspace : list byte) : HandoffTable :=
  delete workspace t.

(** ** The base64 is a code *)
Lemma in_alphabet : ∀ v, 0 ≤ v < 64 →
  symbol_value (nth (Z.to_nat v) STANDARD Byte.x00) = Some v ∧ nth (Z.to_nat v) STANDARD Byte.x00 ≠ PAD
  ∧ symbol_value (nth (Z.to_nat v) URL_SAFE Byte.x00) = Some v ∧ nth (Z.to_nat v) URL_SAFE Byte.x00 ≠ PAD.
Proof.
  assert (forallb (λ n, bool_decide (symbol_value (nth n STANDARD Byte.x00) = Some (Z.of_nat n)
      ∧ nth n STANDARD Byte.x00 ≠ PAD ∧ symbol_value (nth n URL_SAFE Byte.x00) = Some (Z.of_nat n)
      ∧ nth n URL_SAFE Byte.x00 ≠ PAD)) (seq 0 64) = true) as Hall by by vm_compute.
  intros v Hv. rewrite forallb_forall in Hall. specialize (Hall (Z.to_nat v)).
  rewrite bool_decide_eq_true, Z2Nat.id in Hall by lia. apply Hall, in_seq. lia.
Qed.

Definition alphabet_ok (alphabet : list byte) : Prop :=
  ∀ v, 0 ≤ v < 64 → symbol_value (nth (Z.to_nat v) alphabet Byte.x00) = Some v ∧ nth (Z.to_nat v) alphabet Byte.x00 ≠ PAD.

(** One symbol. *)
Lemma decode_symbol alphabet v bits held out rest :
  alphabet_ok alphabet → 0 ≤ v < 64 →
  decode_loop bits held out (nth (Z.to_nat v) alphabet Byte.x00 :: rest)
  = let bits := (bits * 64) mod 2 ^ 32 + v in
    if 8 <=? held + 6
    then decode_loop bits (held - 2) (out ++ [byte_of_Z (bits / 2 ^ (held - 2) mod 256)]) rest
    else decode_loop bits (held + 6) out rest.
Proof.
  intros Ha Hv. destruct (Ha v Hv) as [Hs Hp]. cbn [decode_loop]. rewrite bool_decide_eq_false_2 by done. rewrite Hs.
  rewrite Z.shiftl_mul_pow2 by lia. change (2 ^ 6) with 64.
  assert (Z.lor ((bits * 64) mod 2 ^ 32) v = (bits * 64) mod 2 ^ 32 + v) as ->.
  { pose proof (lor_shiftl_add ((bits * 64) mod 2 ^ 32 / 64) v 6 ltac:(lia) ltac:(lia)) as Hl.
    rewrite Z.shiftl_mul_pow2 in Hl by lia. change (2 ^ 6) with 64 in Hl.
    replace ((bits * 64) mod 2 ^ 32 / 64 * 64) with ((bits * 64) mod 2 ^ 32) in Hl; [done|].
    Z.to_euclidean_division_equations. lia. }
  cbv zeta. destruct (Z.leb_spec 8 (held + 6)); [|done].
  rewrite Z.shiftr_div_pow2 by lia. change 255 with (Z.ones 8). rewrite Z.land_ones by lia.
  replace (held + 6 - 8) with (held - 2) by lia. done.
Qed.

Lemma symbol_range n p : 0 ≤ Z.land (Z.shiftr p n) 63 < 64.
Proof. change 63 with (Z.ones 6). rewrite Z.land_ones by lia. apply Z.mod_pos_bound. lia. Qed.

Lemma decode_stop bits held out n : decode_loop bits held out (replicate n PAD) = Some out.
Proof. by destruct n. Qed.

(** What the low bits of the accumulator hold. *)
Definition shift_in (bits v : Z) : Z := (bits * 64) mod 2 ^ 32 + v.

Lemma byte_of_Z_mod z : byte_of_Z (z mod 256) = byte_of_Z z.
Proof. unfold byte_of_Z. by rewrite Zmod_mod. Qed.
Lemma shift_in_12 bits v0 v1 :
  0 ≤ v0 < 64 → 0 ≤ v1 < 64 → shift_in (shift_in bits v0) v1 / 16 mod 256 = (v0 * 4 + v1 / 16) mod 256.
Proof. unfold shift_in. intros. Z.to_euclidean_division_equations. lia. Qed.
Lemma shift_in_10 bits v1 v2 :
  0 ≤ v1 < 64 → 0 ≤ v2 < 64 → shift_in (shift_in bits v1) v2 / 4 mod 256 = (v1 * 16 + v2 / 4) mod 256.
Proof. unfold shift_in. intros. Z.to_euclidean_division_equations. lia. Qed.
Lemma shift_in_8 bits v2 v3 :
  0 ≤ v2 < 64 → 0 ≤ v3 < 64 → shift_in (shift_in bits v2) v3 mod 256 = (v2 * 64 + v3) mod 256.
Proof. unfold shift_in. intros. Z.to_euclidean_division_equations. lia. Qed.

(** The four symbols of a whole block give its three bytes back. *)
Lemma decode_block alphabet v0 v1 v2 v3 bits out rest :
  alphabet_ok alphabet → 0 ≤ v0 < 64 → 0 ≤ v1 < 64 → 0 ≤ v2 < 64 → 0 ≤ v3 < 64 →
  let sym v := nth (Z.to_nat v) alphabet Byte.x00 in
  ∃ bits', decode_loop bits 0 out (sym v0 :: sym v1 :: sym v2 :: sym v3 :: rest)
    = decode_loop bits' 0
        (out ++ [byte_of_Z (v0 * 4 + v1 / 16); byte_of_Z (v1 * 16 + v2 / 4); byte_of_Z (v2 * 64 + v3)]) rest.
Proof.
  intros Ha H0 H1 H2 H3 sym. unfold sym. eexists.
  rewrite (decode_symbol alphabet v0) by done. fold (shift_in bits v0). change (8 <=? 0 + 6) with false. cbv iota zeta.
  rewrite (decode_symbol alphabet v1) by done. fold (shift_in (shift_in bits v0) v1).
  change (8 <=? 0 + 6 + 6) with true. change (0 + 6 - 2) with 4. cbv iota zeta.
  rewrite (decode_symbol alphabet v2) by done. fold (shift_in (shift_in (shift_in bits v0) v1) v2).
  change (8 <=? 4 + 6) with true. change (4 - 2) with 2. cbv iota zeta.
  rewrite (decode_symbol alphabet v3) by done. fold (shift_in (shift_in (shift_in (shift_in bits v0) v1) v2) v3).
  change (8 <=? 2 + 6) with true. change (2 - 2) with 0. cbv iota zeta.
  change (2 ^ 4) with 16. change (2 ^ 2) with 4. change (2 ^ 0) with 1.
  rewrite shift_in_12, shift_in_10, Z.div_1_r, shift_in_8 by done.
  rewrite <- !app_assoc. cbn [app]. by rewrite !byte_of_Z_mod.
Qed.

(** A short last chunk: two or three symbols, then the end or padding. *)
Lemma decode_tail alphabet v0 v1 bits out n :
  alphabet_ok alphabet → 0 ≤ v0 < 64 → 0 ≤ v1 < 64 →
  let sym v := nth (Z.to_nat v) alphabet Byte.x00 in
  decode_loop bits 0 out (sym v0 :: sym v1 :: replicate n PAD) = Some (out ++ [byte_of_Z (v0 * 4 + v1 / 16)])
  ∧ ∀ v2, 0 ≤ v2 < 64 →
    decode_loop bits 0 out (sym v0 :: sym v1 :: sym v2 :: replicate n PAD)
    = Some (out ++ [byte_of_Z (v0 * 4 + v1 / 16); byte_of_Z (v1 * 16 + v2 / 4)]).
Proof.
  intros Ha H0 H1 sym. unfold sym. split; [|intros v2 H2];
  rewrite (decode_symbol alphabet v0) by done; fold (shift_in bits v0); change (8 <=? 0 + 6) with false; cbv iota zeta;
  rewrite (decode_symbol alphabet v1) by done; fold (shift_in (shift_in bits v0) v1);
  change (8 <=? 0 + 6 + 6) with true; change (0 + 6 - 2) with 4; cbv iota zeta.
  - rewrite decode_stop. change (2 ^ 4) with 16. rewrite shift_in_12 by done. by rewrite byte_of_Z_mod.
  - rewrite (decode_symbol alphabet v2) by done. fold (shift_in (shift_in (shift_in bits v0) v1) v2).
    change (8 <=? 4 + 6) with true. change (4 - 2) with 2. cbv iota zeta.
    rewrite decode_stop. change (2 ^ 4) with 16. change (2 ^ 2) with 4. rewrite shift_in_12, shift_in_10 by done.
    rewrite <- app_assoc. cbn [app]. by rewrite !byte_of_Z_mod.
Qed.

(** The six-bit symbols of three bytes, as numbers. *)
Lemma packed_symbols a b c :
  0 ≤ a < 256 → 0 ≤ b < 256 → 0 ≤ c < 256 →
  let p := Z.lor (Z.lor (Z.shiftl a 16) (Z.shiftl b 8)) c in
  Z.land (Z.shiftr p 18) 63 = a / 4 ∧ Z.land (Z.shiftr p 12) 63 = a mod 4 * 16 + b / 16
  ∧ Z.land (Z.shiftr p 6) 63 = b mod 16 * 4 + c / 64 ∧ Z.land p 63 = c mod 64.
Proof.
  intros Ha Hb Hc p.
  assert (p = a * 65536 + b * 256 + c) as ->.
  { unfold p. rewrite lor_shiftl_add; [|lia|rewrite Z.shiftl_mul_pow2 by lia; lia]. rewrite Z.shiftl_mul_pow2 by lia.
    replace (a * 2 ^ 16 + b * 2 ^ 8) with (Z.shiftl (a * 256 + b) 8) by (rewrite Z.shiftl_mul_pow2; lia).
    rewrite lor_shiftl_add by lia. lia. }
  change 63 with (Z.ones 6). rewrite !Z.land_ones, !Z.shiftr_div_pow2 by lia. change (2 ^ 6) with 64.
  change (2 ^ 18) with 262144. change (2 ^ 12) with 4096.
  split_and!; Z.to_euclidean_division_equations; lia.
Qed.

(** The symbols are six bits wide and hold the bytes. *)
Lemma symbols_fit a b c : 0 ≤ a < 256 → 0 ≤ b < 256 → 0 ≤ c < 256 →
  0 ≤ a / 4 < 64 ∧ 0 ≤ a mod 4 * 16 + b / 16 < 64 ∧ 0 ≤ b mod 16 * 4 + c / 64 < 64 ∧ 0 ≤ c mod 64 < 64.
Proof. intros. split_and!; Z.to_euclidean_division_equations; lia. Qed.
Lemma symbols_hold a b c :
  let A := byte_to_Z a in let B := byte_to_Z b in let C := byte_to_Z c in
  byte_of_Z (A / 4 * 4 + (A mod 4 * 16 + B / 16) / 16) = a
  ∧ byte_of_Z ((A mod 4 * 16 + B / 16) * 16 + (B mod 16 * 4 + C / 64) / 4) = b
  ∧ byte_of_Z ((B mod 16 * 4 + C / 64) * 64 + C mod 64) = c.
Proof.
  intros A B C. pose proof (byte_to_Z_range a). pose proof (byte_to_Z_range b). pose proof (byte_to_Z_range c).
  split_and!; [transitivity (byte_of_Z A) | transitivity (byte_of_Z B) | transitivity (byte_of_Z C)];
    try apply byte_of_Z_to_Z; rewrite <- byte_of_Z_mod; symmetry; rewrite <- byte_of_Z_mod; f_equal;
    unfold A, B, C; Z.to_euclidean_division_equations; lia.
Qed.

Section round_trip.
Context (alphabet : list byte) (Ha : alphabet_ok alphabet).

Definition six (a b c : byte) : list Z :=
  let A := byte_to_Z a in let B := byte_to_Z b in let C := byte_to_Z c in
  [A / 4; A mod 4 * 16 + B / 16; B mod 16 * 4 + C / 64; C mod 64].

Lemma encode_chunk_six pad chunk :
  let at_ i := nth i chunk Byte.x00 in
  encode_chunk alphabet pad chunk
  = ((λ v, nth (Z.to_nat v) alphabet Byte.x00) <$> take (length chunk + 1) (six (at_ 0%nat) (at_ 1%nat) (at_ 2%nat)))
    ++ replicate (if pad then 4 - (length chunk + 1) else 0) PAD.
Proof.
  intros at_. unfold encode_chunk, six. fold (at_ 0%nat) (at_ 1%nat) (at_ 2%nat).
  destruct (packed_symbols (byte_to_Z (at_ 0%nat)) (byte_to_Z (at_ 1%nat)) (byte_to_Z (at_ 2%nat)) (byte_to_Z_range _)
    (byte_to_Z_range _) (byte_to_Z_range _)) as (-> & -> & -> & ->). by destruct pad.
Qed.

Lemma encode_decode pad bs : ∀ bits out, decode_loop bits 0 out (encode_with alphabet pad bs) = Some (out ++ bs).
Proof using Ha.
  assert (∀ n bs, (length bs ≤ n)%nat → ∀ bits out,
    decode_loop bits 0 out (encode_with alphabet pad bs) = Some (out ++ bs)) as Hn; [|by eapply Hn].
  clear bs. induction n as [|n IH]; intros bs Hl bits out.
  { destruct bs; [|cbn in Hl; lia]. cbn. by rewrite app_nil_r. }
  assert (∀ a b c, let A := byte_to_Z a in let B := byte_to_Z b in let C := byte_to_Z c in
    0 ≤ A / 4 < 64 ∧ 0 ≤ A mod 4 * 16 + B / 16 < 64 ∧ 0 ≤ B mod 16 * 4 + C / 64 < 64 ∧ 0 ≤ C mod 64 < 64) as Hfit
    by (intros; apply symbols_fit; apply byte_to_Z_range).
  destruct bs as [|a [|b [|c bs]]]; cbn [encode_with]; [by rewrite app_nil_r|..];
    rewrite encode_chunk_six; cbn [nth length Nat.add take Nat.sub fmap list_fmap app six].
  - destruct (Hfit a Byte.x00 Byte.x00) as (F0 & F1 & _). destruct (symbols_hold a Byte.x00 Byte.x00) as (Ba & _).
    rewrite (proj1 (decode_tail alphabet _ _ bits out _ Ha F0 F1)). by rewrite Ba.
  - destruct (Hfit a b Byte.x00) as (F0 & F1 & F2 & _). destruct (symbols_hold a b Byte.x00) as (Ba & Bb & _).
    rewrite (proj2 (decode_tail alphabet _ _ bits out _ Ha F0 F1) _ F2).
    by rewrite Ba, Bb.
  - destruct (Hfit a b c) as (F0 & F1 & F2 & F3). destruct (symbols_hold a b c) as (Ba & Bb & Bc).
    replace (if pad then 0%nat else 0%nat) with 0%nat by by destruct pad. cbn [replicate app].
    destruct (decode_block alphabet _ _ _ _ bits out (encode_with alphabet pad bs) Ha F0 F1 F2 F3) as [bits' Hd].
    rewrite Hd, IH by (cbn in Hl; lia).
    rewrite Ba, Bb, Bc, <- app_assoc. done.
Qed.
End round_trip.

Lemma standard_ok : alphabet_ok STANDARD.
Proof. intros v Hv. by destruct (in_alphabet v Hv) as (? & ? & _). Qed.
Lemma url_safe_ok : alphabet_ok URL_SAFE.
Proof. intros v Hv. by destruct (in_alphabet v Hv) as (_ & _ & ?). Qed.

Lemma base64_decode_encode bs : base64_decode (base64_encode bs) = Some bs.
Proof. apply (encode_decode STANDARD standard_ok true bs 0 []). Qed.
Lemma base64_decode_url bs : base64_decode (base64url_nopad bs) = Some bs.
Proof. apply (encode_decode URL_SAFE url_safe_ok false bs 0 []). Qed.

(** The decoder is not the inverse: what follows a pad, the bits a short last
    chunk leaves over, a missing pad and the other alphabet all go unremarked. *)
Lemma base64_lenient :
  base64_decode (ascii_bytes "AQ==%!"%string) = Some [Byte.x01]
  ∧ base64_decode (ascii_bytes "AR=="%string) = Some [Byte.x01]
  ∧ base64_decode (ascii_bytes "AQ"%string) = Some [Byte.x01]
  ∧ base64_decode (ascii_bytes "-_-_"%string) = base64_decode (ascii_bytes "+/+/"%string).
Proof. by vm_compute. Qed.

(** The base64 written out for the handoff is a code. Decoding what either
    encoder wrote gives the bytes back, padded or not, so no two byte strings share
    an encoding, the path derived from a key determines the key's digest, and a key
    written by the control plane's encoder is read as that key. *)
Theorem base64_round_trip `{HandoffCrypto} bs :
  base64_decode (base64_encode bs) = Some bs ∧ base64_decode (base64url_nopad bs) = Some bs
  ∧ (∀ bs', base64_encode bs = base64_encode bs' → bs = bs')
  ∧ (∀ bs', handoff_path bs = handoff_path bs' → sha256 bs = sha256 bs')
  ∧ (trim (base64_encode bs) = base64_encode bs →
     parse_public_key (base64_encode bs)
     = if (length bs =? HANDOFF_KEY_BYTES)%nat then Ok bs else Err (KeyWidth (length bs))).
Proof.
  split_and!; [apply base64_decode_encode | apply base64_decode_url | | |].
  - intros bs' He. pose proof (base64_decode_encode bs) as Hd. rewrite He, base64_decode_encode in Hd. by injection Hd.
  - intros bs' He%app_inv_head. pose proof (base64_decode_url (sha256 bs)) as Hd. rewrite He, base64_decode_url in Hd.
    by injection Hd.
  - intros Ht. unfold parse_public_key. by rewrite Ht, base64_decode_encode.
Qed.

(** ** Sealing *)
Section sealing.
Context `{HandoffLaws}.

Lemma seal_opens private entropy text :
  len text ≤ AES_MAX →
  ∃ blob, seal (Some entropy) (x25519_public private) text = Ok blob
          ∧ handoff_open private (x25519_public private) blob = Ok text.
Proof.
  intros Ht. unfold seal, seal_with_ephemeral, seal_with_shared, message_key. cbn [seal_or result_bind].
  destruct (hkdf_answers HANDOFF_SALT (x25519 entropy (x25519_public private)) (x25519_public private)) as (key & Hk & Hl).
  rewrite Hk. cbn [seal_or result_bind]. destruct (aes_seals key NONCE [] text Hl Ht) as (ct & Hs & Hc & Ho). rewrite Hs. cbn [seal_or result_bind].
  eexists. split; [done|]. unfold handoff_open. rewrite base64_decode_encode. cbn [seal_or result_bind].
  pose proof (x25519_width entropy) as Hw.
  rewrite (proj2 (Nat.ltb_ge _ _)) by (rewrite length_app; unfold HANDOFF_KEY_BYTES; lia).
  unfold HANDOFF_KEY_BYTES. rewrite take_app_length', drop_app_length' by done.
  unfold message_key. rewrite x25519_agrees, Hk. cbn [seal_or result_bind]. by rewrite Ho.
Qed.
End sealing.

(** ** The row and its end *)
Lemma read_stored (t : HandoffTable) ws s e now :
  handoff_read (insert_handoff t ws s e) ws now
  = match t !! ws with
    | Some row => if now <? hr_expires row then Some (hr_sealed row) else None
    | None => if now <? Z.max e 0 then Some s else None
    end.
Proof.
  unfold handoff_read, read_unexpired, insert_handoff. destruct (t !! ws) eqn:Ht.
  - by rewrite Ht.
  - by rewrite lookup_insert_eq.
Qed.

(** C33. A founding is delivered sealed, once, for as long as it is worth anything.
    If the database answers, no row of the workspace exists and the texts fit,
    storing succeeds, and until the expiry the route serves ciphertexts that the
    holder of the handoff key opens to exactly the link of this token and the code
    as it is read out, beside the fingerprint; a later first run does not replace
    them; from the expiry on the route serves nothing and the sweep drops the row;
    and once the founding consumes the key the row is gone. *)
Theorem handoff_delivers `{HandoffLaws} private e1 e2 t ws hostname run expires now :
  t !! ws = None → len (join_link hostname (fr_token run)) ≤ AES_MAX →
  ∃ s t', handoff_store (Some e1, Some e2) t id ws hostname run (x25519_public private) expires now true = (Ok s, t')
    ∧ handoff_open private (x25519_public private) (ho_blob s) = Ok (join_link hostname (fr_token run))
    ∧ handoff_open private (x25519_public private) (ho_code s) = Ok (code_text (fr_code run))
    ∧ ho_fingerprint s = hex (fr_fingerprint run)
    ∧ (∀ later, handoff_read t' ws later = if later <? Z.max expires 0 then Some s else None)
    ∧ (∀ f1 f2 host' run' key' expires' later s' t'',
         handoff_store (f1, f2) t' id ws host' run' key' expires' later true = (Ok s', t'') → s' = s ∧ t'' = t')
    ∧ (∀ later, Z.max expires 0 ≤ later → (sweep_handoffs t' later).2 !! ws = None)
    ∧ (∀ later, handoff_read (forget_handoff t' ws) ws later = None).
Proof.
  intros Hws Hlink.
  assert (len (code_text (fr_code run)) ≤ AES_MAX) as Hcode.
  { unfold code_text, len. rewrite length_fmap. unfold grouped. rewrite !length_app. cbn [length]. rewrite length_app. cbn [length].
    pose proof (length_take_le (symbols (fr_code run)) 4). unfold AES_MAX.
    assert (length (symbols (fr_code run)) = 12%nat) as Hl by by unfold symbols; rewrite length_map.
    rewrite !length_take, !length_drop, Hl. cbn. lia. }
  destruct (seal_opens private e1 _ Hlink) as (blob & Hb & Ho).
  destruct (seal_opens private e2 _ Hcode) as (code & Hc & Hoc).
  set (s := mkSealed blob code (hex (fr_fingerprint run))).
  assert (handoff_seal (Some e1, Some e2) hostname run (x25519_public private) = Ok s) as Hs.
  { unfold handoff_seal. cbn [fst snd]. by rewrite Hb, Hc. }
  set (t' := insert_handoff t ws s expires).
  assert (t' !! ws = Some (mkHandoffRow s (Z.max expires 0))) as Ht'.
  { unfold t', insert_handoff. by rewrite Hws, lookup_insert_eq. }
  exists s, t'. split_and!; try done.
  - unfold handoff_store. rewrite Hs. cbn [negb id]. fold t'. unfold read_unexpired. by rewrite Ht'.
  - intros later. unfold handoff_read, read_unexpired. by rewrite Ht'.
  - intros f1 f2 host' run' key' expires' later s' t''. unfold handoff_store.
    destruct (handoff_seal (f1, f2) host' run' key') as [s2|]; [|done]. cbn [negb]. unfold id.
    assert (insert_handoff t' ws s2 expires' = t') as -> by (unfold insert_handoff; by rewrite Ht').
    unfold read_unexpired. rewrite Ht'. cbn [negb orb]. intros Heq. by simplify_eq.
  - intros later Hl. cbn. apply map_lookup_filter_None_2. right. intros row Hrow Hlt. rewrite Ht' in Hrow.
    injection Hrow as <-. cbn in Hlt. lia.
  - intros later. unfold handoff_read, read_unexpired, forget_handoff. by rewrite lookup_delete_eq.
Qed.

(** ** A concrete handoff *)
Module HandoffDemo.
(** Byte-wise stand-ins that satisfy the laws. *)
Definition widen (bs : list byte) : list byte := take 32 (bs ++ replicate 32 Byte.x00).
Definition toy_handoff : HandoffCrypto := {|
  sha256 := poly_digest;
  x25519_public := widen;
  x25519 := λ a b, byte_of_Z <$> zip_with (λ x y, byte_to_Z x + byte_to_Z y) (widen a) (widen b);
  hkdf_sha256 := λ salt ikm info n, Some (replicate n Byte.x07);
  aes_seal := λ key nonce aad text, Some (text ++ replicate 16 Byte.x00);
  aes_open := λ key nonce aad ct, Some (take (length ct - 16) ct)
|}.
#[local] Existing Instance toy_handoff.

Lemma length_widen bs : length (widen bs) = 32%nat.
Proof. unfold widen. rewrite length_take, length_app, length_replicate. lia. Qed.
Lemma widen_idem bs : widen (widen bs) = widen bs.
Proof. unfold widen at 1. apply take_app_length'. symmetry. apply length_widen. Qed.

Lemma toy_handoff_laws : HandoffLaws.
Proof.
  constructor.
  - apply length_widen.
  - intros a b. cbn [x25519 x25519_public toy_handoff]. rewrite !widen_idem. f_equal. generalize (widen a) (widen b). intros l. induction l as [|x l IH]; intros [|y k]; cbn; [done..|].
    by rewrite IH, Z.add_comm.
  - intros. exists (replicate 32 Byte.x07). by rewrite length_replicate.
  - intros key nonce aad text _ _. exists (text ++ replicate 16 Byte.x00). split; [done|]. rewrite length_app, length_replicate. split; [done|]. cbn [aes_open toy_handoff]. rewrite length_app, length_replicate.
    f_equal. apply take_app_length'. lia.
Qed.

Definition run : FirstRun := mkFirstRun (replicate 32 Byte.x03) (replicate 32 Byte.x04) (replicate 16 Byte.x05) 7.
Definition host : list byte := ascii_bytes "relay.example"%string.

Lemma handoff_delivers_witness :
  ∃ s, (handoff_store (Some [Byte.x08], Some [Byte.x09]) ∅ id [Byte.x01] host run (x25519_public [Byte.x0a]) 100 5 true).1
       = Ok s ∧ handoff_open [Byte.x0a] (x25519_public [Byte.x0a]) (ho_blob s) = Ok (join_link host (fr_token run)).
Proof.
  destruct (handoff_delivers (H := toy_handoff) (H0 := toy_handoff_laws) [Byte.x0a] [Byte.x08] [Byte.x09] ∅ [Byte.x01] host run 100 5
    (lookup_empty _) ltac:(by vm_compute)) as (s & t' & Hs & Ho & _).
  exists s. by rewrite Hs.
Defined.
End HandoffDemo.
