(* ===== verification/Janitor.v ===== *)
(** * The collector's whole pass

    Models [pass_with] and the schedule of [run] in
    [backend/wealdrelay/src/janitor.rs]: the restore marker spent once, the media
    pass of [MediaGc], then the expiry deletes of the push handles, the prior
    recovery wraps, the bootstrap handoffs and the key packages, the lapsed seats and
    the expired invites. No step's failure stops the ones after it. The counts of the
    summary are not modelled, nor is the jitter of the interval. *)

From Stdlib Require Import ZArith Lia String.
From stdpp Require Import base tactics numbers gmap fin_maps relations sorting sets list.
From S2P Require Import Prelude Cbor Push Frame Crypto Access Genesis AccessChain KeyPackages RecoveryWraps InviteRecord Invites MediaStore Retention Storage MediaGc WakeStore Config Handoff.

Open Scope Z_scope.

(** The loop lists storage on one pass in this many. *)
Definition STORAGE_LISTING_EVERY : Z := 96.

(** What the pass reads and writes; [cl_storage] is [None] for a relay with no object
    storage. The access sets are [t_dbs] of the invite tables. *)
Record Collected (St : Type) : Type := mkCollected {
  cl_retention : RetentionTables;
  cl_storage : option St;
  cl_marker : option Z;
  cl_handles : Handles;
  cl_wraps : Wraps;
  cl_handoffs : HandoffTable;
  cl_shelf : Shelf;
  cl_invites : Tables
}.
Arguments mkCollected {_} _ _ _ _ _ _ _ _.
Arguments cl_retention {_} _.
Arguments cl_storage {_} _.
Arguments cl_marker {_} _.
Arguments cl_handles {_} _.
Arguments cl_wraps {_} _.
Arguments cl_handoffs {_} _.
Arguments cl_shelf {_} _.
Arguments cl_invites {_} _.

(** The single-statement sweeps. *)
Inductive Expiry : Type := PushExpiry | WrapExpiry | HandoffExpiry | PackageExpiry | SeatExpiry.

(** What the outside answered during one pass. [pe_now] is the database's clock in
    microseconds, [pe_now_ms] the process's in milliseconds; [pe_marker] whether the
    marker could be read and written; [pe_sweeps] whether a sweep's statement ran;
    [pe_invites] how many of the expired invites were gone through before a statement
    failed, [None] when they could not be listed. *)
Record PassEnv : Type := mkPassEnv {
  pe_now : Z; pe_now_ms : Z;
  pe_weather : Weather;
  pe_marker : bool * bool;
  pe_sweeps : Expiry → bool;
  pe_invites : option nat
}.
Definition pe_db_ms (e : PassEnv) : Z := pe_now e / 1000.

(** [i64::try_from(..).unwrap_or(..)]. *)
Definition unclaimed_grace (c : RelayConfig) : Z :=
  if cfg_media_unclaimed_grace_seconds c <=? I64_MAX then cfg_media_unclaimed_grace_seconds c
  else UNCLAIMED_GRACE_SECONDS.

(** [invite::store::sweep_expired], stopped after [n] of its tokens. *)
Definition end_expired (t : Tables) (now : Z) (n : option nat) : Tables :=
  match n with
  | None => t
  | Some n => fold_left (λ t token, snd (spend_in t token)) (take n (expired_tokens t now)) t
  end.

Section pass.
Context {St : Type} `{!BlobStore St}.

Definition collect_media (e : PassEnv) (c : RelayConfig) (list_storage : bool) (cl : Collected St)
    : RetentionTables * option St * option Z :=
  match cl_storage cl with
  | Some s =>
      let '(t, s, marker) :=
        media_pass (pe_weather e) (pe_marker e).1 (pe_marker e).2 (cl_retention cl) s (cl_marker cl) list_storage
          (pe_now e) (pe_now_ms e) (unclaimed_grace c) (cfg_gc_min_object_age_seconds c) in
      (t, Some s, marker)
  | None =>
      (cl_retention cl, None,
       if list_storage then snd (consume_one (cl_marker cl) (pe_marker e).1 (pe_marker e).2) else cl_marker cl)
  end.

Definition pass_with (e : PassEnv) (c : RelayConfig) (list_storage : bool) (cl : Collected St) : Collected St :=
  let '(retention, storage, marker) := collect_media e c list_storage cl in
  let ran x := pe_sweeps e x in
  let handles := if ran PushExpiry then WakeStore.sweep_expired (cl_handles cl) (pe_now_ms e) else cl_handles cl in
  let wraps := if ran WrapExpiry then snd (sweep_prior (cl_wraps cl) (pe_db_ms e)) else cl_wraps cl in
  let handoffs := if ran HandoffExpiry then snd (sweep_handoffs (cl_handoffs cl) (pe_db_ms e)) else cl_handoffs cl in
  let shelf := if ran PackageExpiry then snd (KeyPackages.sweep_expired (cl_shelf cl) (pe_now e)) else cl_shelf cl in
  let invites := if ran SeatExpiry then release_expired (cl_invites cl) (pe_now_ms e) else cl_invites cl in
  let invites := end_expired invites (pe_now_ms e) (pe_invites e) in
  mkCollected retention storage marker handles wraps handoffs shelf invites.

(** One turn of [run]; [passes] counts the turns and wraps. *)
Definition run_pass (e : PassEnv) (c : RelayConfig) (passes : Z) (cl : Collected St) : Z * Collected St :=
  let passes := (passes + 1) mod 2 ^ 64 in
  (passes, pass_with e c (passes mod STORAGE_LISTING_EVERY =? 0) cl).
End pass.

(** ** What a pass may remove *)

(** The rows left are rows that were there, and a row removed was [late]. *)
Definition removes_only {K A} `{Countable K} (late : A → Prop) (before after : gmap K A) : Prop :=
  after ⊆ before ∧ ∀ k x, before !! k = Some x → after !! k = Some x ∨ late x.

Section removes.
Context {K A : Type} `{Countable K}.
Implicit Types (late : A → Prop) (m : gmap K A).

Lemma removes_only_refl late m : removes_only late m m.
Proof. split; [done|]. by left. Qed.
Lemma removes_only_filter late m (P : K * A → Prop) `{∀ x, Decision (P x)} :
  (∀ k x, ¬ P (k, x) → late x) → removes_only late m (filter P m).
Proof.
  intros Hl. split; [apply map_filter_subseteq|]. intros k x Hx. destruct (decide (P (k, x))) as [Hp|Hp]; [left|right; eauto].
  by apply map_lookup_filter_Some.
Qed.
End removes.

(** An invite keeps its row, and ends only once its stated expiry has passed. *)
Definition invites_end_late (now : Z) (before after : gmap (list byte) Invites.Stored) : Prop :=
  ∀ token i, before !! token = Some i →
    ∃ i', after !! token = Some i' ∧ i_expires i' = i_expires i
      ∧ (i_state i' = i_state i ∨ i_state i = LiveInvite ∧ i_expires i ≤ now).

Lemma invites_end_late_refl now m : invites_end_late now m m.
Proof. intros token i Hi. exists i. auto. Qed.
Lemma invites_end_late_trans now m1 m2 m3 :
  invites_end_late now m1 m2 → invites_end_late now m2 m3 → invites_end_late now m1 m3.
Proof.
  intros H1 H2 token i Hi. destruct (H1 _ _ Hi) as (i2 & Hi2 & He2 & Hs2). destruct (H2 _ _ Hi2) as (i3 & Hi3 & He3 & Hs3).
  exists i3. split_and!; [done | congruence |]. rewrite He2 in Hs3. intuition congruence.
Qed.

Lemma release_expired_late t now :
  t_dbs (release_expired t now) = t_dbs t ∧ invites_end_late now (t_invites t) (t_invites (release_expired t now)).
Proof.
  split; [done|]. intros token i Hi. cbn. rewrite map_lookup_imap, Hi. cbn. eexists. split; [done|].
  case_match; cbn; auto.
Qed.
Lemma spend_in_late t token now :
  (∀ i, t_invites t !! token = Some i → i_expires i ≤ now) →
  t_dbs (snd (spend_in t token)) = t_dbs t
  ∧ invites_end_late now (t_invites t) (t_invites (snd (spend_in t token))).
Proof.
  intros Hlate. unfold spend_in. destruct (t_invites t !! token) as [i|] eqn:Hi; [|split; [done | apply invites_end_late_refl]].
  case_bool_decide as Hs; [|split; [done | apply invites_end_late_refl]]. split; [done|].
  intros token' i' Hi'. cbn. destruct (decide (token' = token)) as [->|Hne].
  - rewrite lookup_insert_eq. replace i' with i by congruence. eexists. split; [done|]. split; [done|]. right. auto.
  - rewrite lookup_insert_ne by done. exists i'. auto.
Qed.
Lemma expired_token_late t now token : token ∈ expired_tokens t now → ∃ i, t_invites t !! token = Some i ∧ i_expires i ≤ now.
Proof.
  unfold expired_tokens. rewrite elem_of_bytes_sort. intros ([k i] & -> & Hin)%list_elem_of_fmap.
  apply list_elem_of_filter in Hin as [[_ Hle] Hin]. exists i. split; [|done]. by apply elem_of_map_to_list in Hin.
Qed.
Lemma end_expired_late t now n :
  t_dbs (end_expired t now n) = t_dbs t ∧ invites_end_late now (t_invites t) (t_invites (end_expired t now n)).
Proof.
  destruct n as [n|]; [|split; [done | apply invites_end_late_refl]]. cbn [end_expired].
  apply (fold_left_keeps (λ t', t_dbs t' = t_dbs t ∧ invites_end_late now (t_invites t) (t_invites t')));
    [split; [done | apply invites_end_late_refl]|].
  intros t' token Htok [Hd Hl]. apply elem_of_take in Htok as (? & Htok%list_elem_of_lookup_2 & _).
  destruct (expired_token_late _ _ _ Htok) as (i & Hi & Hle).
  destruct (spend_in_late t' token now) as [Hd' Hl'].
  { intros i' Hi'. destruct (Hl _ _ Hi) as (i2 & Hi2 & He & _). assert (i2 = i') as -> by congruence. lia. }
  split; [congruence|]. by eapply invites_end_late_trans.
Qed.
(** All the way through, it is the sweep the invite store declares. *)
Lemma end_expired_all t now n :
  (length (expired_tokens t now) ≤ n)%nat → end_expired t now (Some n) = snd (Invites.sweep_expired t now).
Proof.
  intros Hn. cbn. rewrite take_ge by done. unfold Invites.sweep_expired. generalize 0%nat.
  generalize (expired_tokens t now). intros l. clear Hn. revert t. induction l as [|x l IH]; intros t k; [done|]. cbn.
  destruct (spend_in t x) as [ok t'] eqn:Hs. cbn. apply IH.
Qed.

Lemma media_pass_scope {St} `{!BlobStore St} we reads writes t (s : St) marker ls now now_ms grace min_age :
  let out := media_pass we reads writes t s marker ls now now_ms grace min_age in
  out.1.1 = with_media t (rt_media out.1.1).
Proof.
  cbv zeta. unfold media_pass. destruct (if ls then _ else _) as [spent marker']. cbv zeta.
  destruct (sweep_multipart _ _ _ _) as [[? m] s1]. destruct (fold_left (sweep_workspace _ _ _) _ _) as [m2 s2].
  by destruct (fold_left (sweep_scope _ _ _ _ _ _) _ _) as [m3 s3].
Qed.

(** Everything a pass leaves as it was, and when it may remove a row. *)
Record only_expired {St} (e : PassEnv) (before after : Collected St) : Prop := mkOnlyExpired {
  oe_sets : t_dbs (cl_invites after) = t_dbs (cl_invites before);
  oe_retention : cl_retention after = with_media (cl_retention before) (rt_media (cl_retention after));
  oe_handles : removes_only (λ r, ph_expires_at r ≤ pe_now_ms e) (cl_handles before) (cl_handles after);
  oe_current : wr_current (cl_wraps after) = wr_current (cl_wraps before);
  oe_prior : removes_only (λ r, pr_expires r ≤ pe_db_ms e) (wr_prior (cl_wraps before)) (wr_prior (cl_wraps after));
  oe_handoffs : removes_only (λ r, hr_expires r ≤ pe_db_ms e) (cl_handoffs before) (cl_handoffs after);
  oe_shelf : ∀ r, r ∈ kp_rows (cl_shelf before) → r ∈ kp_rows (cl_shelf after) ∨ kp_expires r ≤ pe_now e;
  oe_invites : invites_end_late (pe_now_ms e) (t_invites (cl_invites before)) (t_invites (cl_invites after))
}.

Section pass_theorems.
Context {St : Type} `{!BlobStore St}.

Lemma collect_media_scope e c ls (cl : Collected St) :
  (collect_media e c ls cl).1.1 = with_media (cl_retention cl) (rt_media (collect_media e c ls cl).1.1).
Proof.
  unfold collect_media. destruct (cl_storage cl) as [s|]; [|cbn; by destruct (cl_retention cl)].
  pose proof (media_pass_scope (pe_weather e) (pe_marker e).1 (pe_marker e).2 (cl_retention cl) s (cl_marker cl) ls (pe_now e)
    (pe_now_ms e) (unclaimed_grace c) (cfg_gc_min_object_age_seconds c)) as Hm. cbv zeta in Hm.
  by destruct (media_pass _ _ _ _ _ _ _ _ _ _ _) as [[t s'] m'].
Qed.

Lemma pass_with_only_expired e c ls (cl : Collected St) : only_expired e cl (pass_with e c ls cl).
Proof.
  pose proof (collect_media_scope e c ls cl) as Hm. unfold pass_with.
  destruct (collect_media e c ls cl) as [[t s] marker]. cbn in Hm.
  set (inv := if pe_sweeps e SeatExpiry then _ else _).
  assert (t_dbs inv = t_dbs (cl_invites cl) ∧ invites_end_late (pe_now_ms e) (t_invites (cl_invites cl)) (t_invites inv)) as [Hd Hl].
  { unfold inv. destruct (pe_sweeps e SeatExpiry); [apply release_expired_late | split; [done | apply invites_end_late_refl]]. }
  destruct (end_expired_late inv (pe_now_ms e) (pe_invites e)) as [Hd' Hl'].
  split; cbn [cl_retention cl_handles cl_wraps cl_handoffs cl_shelf cl_invites].
  - congruence.
  - done.
  - destruct (pe_sweeps e PushExpiry); [|apply removes_only_refl]. apply removes_only_filter. cbn. lia.
  - by destruct (pe_sweeps e WrapExpiry).
  - destruct (pe_sweeps e WrapExpiry); [|apply removes_only_refl]. apply removes_only_filter. cbn. lia.
  - destruct (pe_sweeps e HandoffExpiry); [|apply removes_only_refl]. apply removes_only_filter. cbn. lia.
  - intros r Hr. destruct (pe_sweeps e PackageExpiry); [|by left]. cbn.
    destruct (Z.lt_ge_cases (pe_now e) (kp_expires r)); [left; by apply list_elem_of_filter | by right].
  - by eapply invites_end_late_trans.
Qed.
End pass_theorems.
