(* ===== verification/GenesisMint.v ===== *)
(** * Minting the genesis key, and the transparency log

    Models the rest of [backend/wealdrelay/src/invite/genesis.rs]: [ensure], which
    mints a workspace's one bootstrap invite, and [log] with [log_verifies]. Signing
    and the operating system's randomness are parameters. [ensure] reads and then
    writes in one transaction at Postgres's read-committed level, so another process
    may commit between the two; [mint_step] interleaves any number of processes at
    those two points. The banners, text for a terminal, are left out. *)

From Stdlib Require Import ZArith Lia String.
From stdpp Require Import base tactics numbers gmap fin_maps relations sorting sets list.
From S2P Require Import Prelude Cbor Push Frame Crypto Access Genesis AccessChain InviteCode InviteRecord Invites Handoff.

Open Scope Z_scope.

Definition BOOTSTRAP_EXPIRY_MS : Z := 24 * 60 * 60 * 1000.

(** [ed25519_dalek::SigningKey]. *)
Class GenesisSigner : Type := { genesis_public : list byte → list byte; genesis_sign : list byte → list byte → list byte }.
(** What the crate documents: a key's signatures verify under its public half. *)
Class GenesisSignerLaws `{Ed25519, GenesisSigner} : Prop := {
  genesis_public_width : ∀ secret, length (genesis_public secret) = KEY_BYTES;
  genesis_sign_width : ∀ secret m, length (genesis_sign secret m) = SIG_BYTES;
  genesis_sign_verifies : ∀ secret m, verify_strict (genesis_public secret) m (genesis_sign secret m) = true
}.

(** ** The rows *)
Record GenesisKey : Type := mkGenesisKey {
  gk_public : list byte; gk_secret : option (list byte); gk_fingerprint : list byte; gk_token : list byte
}.
Inductive Ensured : Type :=
| Minted (run : FirstRun)
| Existing (fingerprint token : list byte) (redeemed : bool).
Inductive EnsureError : Type := EnsureStore (e : InviteStoreError) | GenesisVanished.

(** What one attempt draws: the key, the token, the code's bits, the update key and
    a salt; and the database's clock when the invite's row is written. *)
Record Draw : Type := mkDraw {
  dr_secret : list byte; dr_token : list byte; dr_code : Z; dr_update : list byte; dr_clock : Z; dr_salt : list byte
}.

Record Founding : Type := mkFounding {
  fd_tables : Tables; fd_keys : gmap (list byte) GenesisKey; fd_salts : gmap (list byte) (list byte)
}.

(** [salt_within]: the workspace's row, written once. *)
Definition salt_within (salts : gmap (list byte) (list byte)) (workspace fresh : list byte) : gmap (list byte) (list byte) :=
  match salts !! workspace with Some _ => salts | None => <[workspace := fresh]> salts end.

(** [read]. *)
Definition genesis_read (w : Founding) (workspace : list byte) : option Ensured :=
  (λ g, Existing (gk_fingerprint g) (gk_token g) (bool_decide (gk_secret g = None))) <$> (fd_keys w !! workspace).

Section mint.
Context `{Blake3, Ed25519, Argon2, GenesisSigner}.

Definition workspace_hash (workspace : list byte) : list byte := blake3 workspace.

(** [hash_token]; [None] is its panic. *)
Definition hash_token (code : Code) (token : list byte) : option (list byte) := argon2id (symbols code) token.

Definition unsigned_bootstrap (workspace : list byte) (now_ms : Z) (d : Draw) (code_hash : list byte) : Invite :=
  mkInvite (dr_token d) (workspace_hash workspace) (genesis_public (dr_secret d)) (Z.max now_ms 0)
    (Z.max now_ms 0 + BOOTSTRAP_EXPIRY_MS) 1 code_hash [] [ADMIN_CAP] (dr_update d) [] (replicate SIG_BYTES Byte.x00).
Definition bootstrap_invite (workspace : list byte) (now_ms : Z) (d : Draw) (code_hash : list byte) : Invite :=
  let invite := unsigned_bootstrap workspace now_ms d code_hash in
  with_sig invite (genesis_sign (dr_secret d) (invite_digest_input invite)).

Definition first_run (d : Draw) : FirstRun :=
  mkFirstRun (genesis_public (dr_secret d)) (genesis_fingerprint (genesis_public (dr_secret d))) (dr_token d)
    (from_bits (dr_code d)).
Definition minted_key (d : Draw) : GenesisKey :=
  mkGenesisKey (genesis_public (dr_secret d)) (Some (dr_secret d))
    (genesis_fingerprint (genesis_public (dr_secret d))) (dr_token d).

(** What one pass of the loop comes to. *)
Inductive Pass : Type := PassDone (r : result EnsureError Ensured) | PassAgain | PassPanicked.

(** The writes: the invite, then the key unless the workspace has one, in which
    case the whole transaction is dropped. *)
Definition mint_pass (w : Founding) (workspace : list byte) (now_ms : Z) (d : Draw) : Pass * Founding :=
  match hash_token (from_bits (dr_code d)) (dr_token d) with
  | None => (PassPanicked, w)
  | Some code_hash =>
      match insert_invite (fd_tables w) workspace (bootstrap_invite workspace now_ms d code_hash) true now_ms (dr_clock d) with
      | (Err e, _) => (PassDone (Err (EnsureStore e)), w)
      | (Ok _, t) =>
          match fd_keys w !! workspace with
          | Some _ => (PassAgain, w)
          | None => (PassDone (Ok (Minted (first_run d))),
                     mkFounding t (<[workspace := minted_key d]> (fd_keys w)) (salt_within (fd_salts w) workspace (dr_salt d)))
          end
      end
  end.

(** [ensure]: [others] is what other processes commit between a pass's read and
    its writes, and between the two passes. *)
Definition ensure_pass (attempted : bool) (others : Founding → Founding) (w : Founding) (workspace : list byte)
    (now_ms : Z) (d : Draw) : Pass * Founding :=
  match genesis_read w workspace with
  | Some existing => (PassDone (Ok existing), w)
  | None =>
      if attempted then (PassDone (Err GenesisVanished), w)
      else mint_pass (others w) workspace now_ms d
  end.
Definition ensure (others1 others2 : Founding → Founding) (w : Founding) (workspace : list byte) (now_ms : Z) (d : Draw)
    : Pass * Founding :=
  match ensure_pass false others1 w workspace now_ms d with
  | (PassAgain, w) => ensure_pass true others2 (others2 w) workspace now_ms d
  | done => done
  end.

(** ** Processes *)
Inductive MintProcess : Type :=
| MintStarted (workspace : list byte) (now_ms : Z) (attempted : bool)
| MintReadNothing (workspace : list byte) (now_ms : Z)
| MintFinished (workspace : list byte) (r : result EnsureError Ensured)
| MintDead.

Record MintWorld : Type := mkMintWorld { mw_founding : Founding; mw_processes : gmap nat MintProcess }.
Definition with_process (m : MintWorld) (pid : nat) (p : MintProcess) : MintWorld :=
  mkMintWorld (mw_founding m) (<[pid := p]> (mw_processes m)).

(** Where a pass leaves its process. *)
Definition after_pass (workspace : list byte) (now_ms : Z) (p : Pass) : MintProcess :=
  match p with
  | PassDone r => MintFinished workspace r
  | PassAgain => MintStarted workspace now_ms true
  | PassPanicked => MintDead
  end.

(** The rest of the relay adds no bootstrap invite. *)
Definition no_new_bootstrap (t t' : Tables) : Prop :=
  ∀ token i, t_invites t' !! token = Some i → i_bootstrap i = true →
    ∃ i0, t_invites t !! token = Some i0 ∧ i_bootstrap i0 = true ∧ i_workspace i0 = i_workspace i.

Inductive mint_step : MintWorld → MintWorld → Prop :=
| ms_start m pid workspace now_ms :
    mw_processes m !! pid = None → mint_step m (with_process m pid (MintStarted workspace now_ms false))
| ms_read_found m pid workspace now_ms attempted existing :
    mw_processes m !! pid = Some (MintStarted workspace now_ms attempted) →
    genesis_read (mw_founding m) workspace = Some existing →
    mint_step m (with_process m pid (MintFinished workspace (Ok existing)))
| ms_read_nothing m pid workspace now_ms attempted :
    mw_processes m !! pid = Some (MintStarted workspace now_ms attempted) →
    genesis_read (mw_founding m) workspace = None →
    mint_step m (with_process m pid
      (if attempted then MintFinished workspace (Err GenesisVanished) else MintReadNothing workspace now_ms))
| ms_write m pid workspace now_ms d :
    mw_processes m !! pid = Some (MintReadNothing workspace now_ms) →
    let out := mint_pass (mw_founding m) workspace now_ms d in
    mint_step m (with_process (mkMintWorld out.2 (mw_processes m)) pid (after_pass workspace now_ms out.1))
| ms_tables m t salts :
    no_new_bootstrap (fd_tables (mw_founding m)) t → fd_salts (mw_founding m) ⊆ salts →
    mint_step m (mkMintWorld (mkFounding t (fd_keys (mw_founding m)) salts) (mw_processes m))
| ms_redeemed m workspace g :
    fd_keys (mw_founding m) !! workspace = Some g →
    mint_step m (mkMintWorld (mkFounding (fd_tables (mw_founding m))
      (<[workspace := mkGenesisKey (gk_public g) None (gk_fingerprint g) (gk_token g)]> (fd_keys (mw_founding m)))
      (fd_salts (mw_founding m))) (mw_processes m)).
End mint.

(** ** The transparency log *)
Record LogRow : Type := mkLogRow { lr_seq : Z; lr_entry : LogEntry }.

Definition seq_le (a b : Z * LogEntry) : Prop := a.1 ≤ b.1.
#[global] Instance seq_le_dec a b : Decision (seq_le a b).
Proof. unfold seq_le. apply _. Defined.
(** [log]: the rows of one workspace, ascending; a negative number reads as zero. *)
Definition log_rows (t : gmap Z LogEntry) : list LogRow :=
  (λ e : Z * LogEntry, mkLogRow (Z.max e.1 0) e.2) <$> merge_sort seq_le (map_to_list t).

Section log.
Context `{Blake3}.
Fixpoint log_verifies_from (index : Z) (previous : list byte) (entries : list LogRow) : bool :=
  match entries with
  | [] => true
  | r :: rest =>
      let e := lr_entry r in
      bool_decide (lr_seq r = index) && bool_decide (log_prev_hash e = previous)
      && bool_decide (log_entry_hash e = log_chain (log_prev_hash e) (log_body e))
      && log_verifies_from (index + 1) (log_entry_hash e) rest
  end.
Definition log_verifies (entries : list LogRow) : bool := log_verifies_from 0 (replicate 32 Byte.x00) entries.
End log.

(** ** One founding per workspace *)
Section foundings.
Context `{Blake3, Ed25519, Argon2, GenesisSigner}.

(** A bootstrap invite is its workspace's genesis token; an answer names the key. *)
Definition ensured_names (e : Ensured) (g : GenesisKey) : Prop :=
  match e with
  | Minted run => fr_token run = gk_token g ∧ fr_fingerprint run = gk_fingerprint g ∧ fr_public_key run = gk_public g
  | Existing fingerprint token _ => token = gk_token g ∧ fingerprint = gk_fingerprint g
  end.
Definition is_minted (p : MintProcess) (workspace : list byte) : Prop :=
  ∃ run, p = MintFinished workspace (Ok (Minted run)).

Record founding_ok (m : MintWorld) : Prop := mkFoundingOk {
  fo_invites : ∀ token i, t_invites (fd_tables (mw_founding m)) !! token = Some i → i_bootstrap i = true →
    ∃ g, fd_keys (mw_founding m) !! i_workspace i = Some g ∧ gk_token g = token;
  fo_answers : ∀ pid workspace e, mw_processes m !! pid = Some (MintFinished workspace (Ok e)) →
    ∃ g, fd_keys (mw_founding m) !! workspace = Some g ∧ ensured_names e g;
  fo_unique : ∀ pid1 pid2 p1 p2 workspace, mw_processes m !! pid1 = Some p1 → mw_processes m !! pid2 = Some p2 →
    is_minted p1 workspace → is_minted p2 workspace → pid1 = pid2;
  fo_again : ∀ pid workspace now, mw_processes m !! pid = Some (MintStarted workspace now true) →
    is_Some (fd_keys (mw_founding m) !! workspace);
  fo_found : ∀ pid workspace, mw_processes m !! pid ≠ Some (MintFinished workspace (Err GenesisVanished))
}.

Lemma bootstrap_row t workspace now d h t' :
  insert_invite t workspace (bootstrap_invite workspace now d h) true now (dr_clock d) = (Ok tt, t') →
  t_invites t' = <[dr_token d := mkStored workspace (bootstrap_invite workspace now d h) 1 LiveInvite true (dr_clock d)]> (t_invites t).
Proof.
  unfold insert_invite. destruct (invite_judge _ _ _); [|done]. cbn [bootstrap_invite with_sig iv_token unsigned_bootstrap].
  destruct (t_invites t !! dr_token d); [done|]. destruct (insert_bundles _ _ _ _); [|done]. by intros [= <-].
Qed.

Lemma salt_written salts workspace fresh :
  is_Some (salt_within salts workspace fresh !! workspace) ∧ salts ⊆ salt_within salts workspace fresh.
Proof.
  unfold salt_within. destruct (salts !! workspace) eqn:Hs; [by rewrite Hs|].
  rewrite lookup_insert_eq. split; [done|]. by apply insert_subseteq.
Qed.

(** What a pass's writes come to. *)
Variant mint_outcome (w : Founding) workspace now d : Pass * Founding → Prop :=
| mint_nothing p :
    (∀ e, p ≠ PassDone (Ok e)) → p ≠ PassDone (Err GenesisVanished) → (p = PassAgain → is_Some (fd_keys w !! workspace)) →
    mint_outcome w workspace now d (p, w)
| mint_new t h :
    fd_keys w !! workspace = None →
    t_invites t = <[dr_token d := mkStored workspace (bootstrap_invite workspace now d h) 1 LiveInvite true (dr_clock d)]>
                    (t_invites (fd_tables w)) →
    mint_outcome w workspace now d
      (PassDone (Ok (Minted (first_run d))), mkFounding t (<[workspace := minted_key d]> (fd_keys w))
        (salt_within (fd_salts w) workspace (dr_salt d))).
Lemma mint_pass_outcome w workspace now d : mint_outcome w workspace now d (mint_pass w workspace now d).
Proof.
  unfold mint_pass. destruct (hash_token _ _) as [h|]; [|by apply mint_nothing].
  destruct (insert_invite _ _ _ _ _ _) as [[[]|e] t] eqn:Hi; [|by apply mint_nothing].
  destruct (fd_keys w !! workspace) eqn:Hk; [by apply mint_nothing|].
  eapply mint_new; [done|]. by apply bootstrap_row.
Qed.

(** A process moves, and the foundings grow: what was known stays known. *)
Lemma process_moves m w' pid p :
  founding_ok m →
  (∀ ws g, fd_keys (mw_founding m) !! ws = Some g →
     ∃ g', fd_keys w' !! ws = Some g' ∧ gk_token g' = gk_token g ∧ gk_fingerprint g' = gk_fingerprint g ∧ gk_public g' = gk_public g) →
  (∀ token i, t_invites (fd_tables w') !! token = Some i → i_bootstrap i = true →
     ∃ g, fd_keys w' !! i_workspace i = Some g ∧ gk_token g = token) →
  (∀ ws e, p = MintFinished ws (Ok e) → ∃ g, fd_keys w' !! ws = Some g ∧ ensured_names e g) →
  (∀ ws, is_minted p ws → fd_keys (mw_founding m) !! ws = None) →
  (∀ ws now, p = MintStarted ws now true → is_Some (fd_keys w' !! ws)) →
  (∀ ws, p ≠ MintFinished ws (Err GenesisVanished)) →
  founding_ok (mkMintWorld w' (<[pid := p]> (mw_processes m))).
Proof.
  intros [Hi Ha Hu Hg Hf] Hkeep Hinv Hans Hmint Hagain Hvan.
  assert (∀ q ws run, mw_processes m !! q = Some (MintFinished ws (Ok (Minted run))) → is_Some (fd_keys (mw_founding m) !! ws)) as Hold.
  { intros q ws run Hq. destruct (Ha q ws _ Hq) as (g & Hg0 & _). by eexists. }
  split; cbn [mw_founding mw_processes].
  - done.
  - intros q ws e [[<- ->]|[_ Hq]]%lookup_insert_Some; [by apply Hans|].
    destruct (Ha q ws e Hq) as (g & Hg0 & Hn). destruct (Hkeep ws g Hg0) as (g' & Hg' & Ht & Hfp & Hp).
    exists g'. split; [done|]. destruct e; cbn in *; by rewrite Ht, Hfp, ?Hp.
  - intros q1 q2 p1 p2 ws Hq1 Hq2 M1 M2.
    apply lookup_insert_Some in Hq1 as [[<- <-]|[N1 Hq1]]; apply lookup_insert_Some in Hq2 as [[<- <-]|[N2 Hq2]].
    + done.
    + exfalso. specialize (Hmint ws M1). destruct M2 as [run ->]. destruct (Hold q2 ws run Hq2). congruence.
    + exfalso. specialize (Hmint ws M2). destruct M1 as [run ->]. destruct (Hold q1 ws run Hq1). congruence.
    + by eapply Hu.
  - intros q ws now [[<- ->]|[_ Hq]]%lookup_insert_Some; [by eapply Hagain|].
    destruct (Hg q ws now Hq) as [g Hg0]. destruct (Hkeep ws g Hg0) as (g' & Hg' & _). by eexists.
  - intros q ws [[<- Hp]|[_ Hq]]%lookup_insert_Some; [by apply (Hvan ws)|]. by apply (Hf q ws).
Qed.

(** The tables or a key change under the processes. *)
Lemma world_moves m w' :
  founding_ok m →
  (∀ ws g, fd_keys (mw_founding m) !! ws = Some g →
     ∃ g', fd_keys w' !! ws = Some g' ∧ gk_token g' = gk_token g ∧ gk_fingerprint g' = gk_fingerprint g ∧ gk_public g' = gk_public g) →
  (∀ token i, t_invites (fd_tables w') !! token = Some i → i_bootstrap i = true →
     ∃ g, fd_keys w' !! i_workspace i = Some g ∧ gk_token g = token) →
  founding_ok (mkMintWorld w' (mw_processes m)).
Proof.
  intros [Hi Ha Hu Hg Hf] Hkeep Hinv. split; cbn [mw_founding mw_processes]; [done | | done | | done].
  - intros q ws e Hq. destruct (Ha q ws e Hq) as (g & Hg0 & Hn). destruct (Hkeep ws g Hg0) as (g' & Hg' & Ht & Hfp & Hp).
    exists g'. split; [done|]. destruct e; cbn in *; by rewrite Ht, Hfp, ?Hp.
  - intros q ws now Hq. destruct (Hg q ws now Hq) as [g Hg0]. destruct (Hkeep ws g Hg0) as (g' & Hg' & _). by eexists.
Qed.

Lemma keys_kept (k : gmap (list byte) GenesisKey) ws g :
  k !! ws = Some g →
  ∃ g', k !! ws = Some g' ∧ gk_token g' = gk_token g ∧ gk_fingerprint g' = gk_fingerprint g ∧ gk_public g' = gk_public g.
Proof. intros Hg. by exists g. Qed.

Lemma read_found w ws e : genesis_read w ws = Some e → ∃ g, fd_keys w !! ws = Some g ∧ ensured_names e g.
Proof. unfold genesis_read. intros (g & Hg & ->)%fmap_Some. by exists g. Qed.
Lemma read_nothing w ws : genesis_read w ws = None ↔ fd_keys w !! ws = None.
Proof. apply fmap_None. Qed.

Lemma founding_write m pid ws now d :
  founding_ok m →
  let out := mint_pass (mw_founding m) ws now d in
  founding_ok (with_process (mkMintWorld out.2 (mw_processes m)) pid (after_pass ws now out.1)).
Proof.
  intros Hm out. unfold out, with_process. pose proof Hm as [Hi _ _ _ _].
  destruct (mint_pass_outcome (mw_founding m) ws now d) as [p Hnok Hnv Hag|t h Hnone Ht];
    cbn [fst snd mw_founding mw_processes]; apply (process_moves m); cbn [fd_keys fd_tables]; try done.
  - apply keys_kept.
  - intros ws' e Hp. destruct p as [r| |]; cbn in Hp; try done. injection Hp as -> ->. by destruct (Hnok e).
  - intros ws' [run Hp]. destruct p as [r| |]; cbn in Hp; try done. injection Hp as -> ->. by destruct (Hnok (Minted run)).
  - intros ws' now' Hp. destruct p as [r| |]; cbn in Hp; try done. injection Hp as -> ->. by apply Hag.
  - intros ws' Hp. destruct p as [r| |]; cbn in Hp; try done. injection Hp as -> ->. done.
  - intros ws' g Hg. exists g. split; [|done]. rewrite lookup_insert_ne; [done|congruence].
  - rewrite Ht. intros token i Hl Hb. apply lookup_insert_Some in Hl as [[<- <-]|[_ Hl]].
    + cbn [i_workspace]. exists (minted_key d). by rewrite lookup_insert_eq.
    + destruct (Hi token i Hl Hb) as (g & Hg & Hgt). exists g. split; [|done]. rewrite lookup_insert_ne; [done|congruence].
  - intros ws' e [= -> <-]. exists (minted_key d). by rewrite lookup_insert_eq.
  - intros ws' [run [= -> _]]. done.
Qed.

Lemma founding_step m m' : mint_step m m' → founding_ok m → founding_ok m'.
Proof.
  intros Hst Hm. pose proof Hm as [Hi Ha Hu Hg Hf]. destruct Hst; [| | |by apply founding_write| |].
  - apply (process_moves m); try done; [apply keys_kept | by intros ws [? ?]].
  - apply (process_moves m); try done; [apply keys_kept | |].
    + intros ws e [= -> <-]. by apply read_found.
    + intros ws [run [= -> ->]]. unfold genesis_read in H4. apply fmap_Some in H4 as (g0 & _ & Heq). discriminate.
  - apply (process_moves m); try done; [apply keys_kept | | | |]; destruct attempted; try done.
    + by intros ws [? ?].
    + by intros ws [? ?].
    + exfalso. destruct (Hg pid workspace now_ms H3) as [g Hg0]. apply read_nothing in H4. congruence.
  - apply world_moves; [done | apply keys_kept |]. cbn [fd_keys fd_tables]. intros token i Hl Hb.
    destruct (H3 token i Hl Hb) as (i0 & Hl0 & Hb0 & <-). by apply Hi.
  - apply world_moves; [done | |]; cbn [fd_keys fd_tables].
    + intros ws g' Hg'. destruct (decide (ws = workspace)) as [->|Hne].
      * rewrite lookup_insert_eq. eexists. split; [done|]. cbn. rewrite H3 in Hg'. by injection Hg' as <-.
      * exists g'. by rewrite lookup_insert_ne.
    + intros token i Hl Hb. destruct (Hi token i Hl Hb) as (g' & Hg' & Ht).
      destruct (decide (i_workspace i = workspace)) as [Heq|Hne].
      * rewrite Heq in *. rewrite lookup_insert_eq. eexists. split; [done|]. cbn. rewrite H3 in Hg'. by injection Hg' as <-.
      * exists g'. by rewrite lookup_insert_ne.
Qed.

(** C10. A workspace is founded once, however many processes start. From tables with
    no bootstrap invite, under any interleaving of processes running [ensure], of the
    rest of the relay and of redemptions: there is at most one bootstrap invite for a
    workspace and it is the one its genesis row names; every process that succeeded
    answered that token and fingerprint; at most one of them minted, and so printed a
    code; and none was told the key vanished. *)
Theorem one_founding_per_workspace t salts m :
  (∀ token i, t_invites t !! token = Some i → i_bootstrap i = false) →
  rtc mint_step (mkMintWorld (mkFounding t ∅ salts) ∅) m →
  (∀ tok1 tok2 i1 i2, t_invites (fd_tables (mw_founding m)) !! tok1 = Some i1 →
     t_invites (fd_tables (mw_founding m)) !! tok2 = Some i2 → i_bootstrap i1 = true → i_bootstrap i2 = true →
     i_workspace i1 = i_workspace i2 → tok1 = tok2)
  ∧ (∀ pid workspace e, mw_processes m !! pid = Some (MintFinished workspace (Ok e)) →
       ∃ g, fd_keys (mw_founding m) !! workspace = Some g ∧ ensured_names e g)
  ∧ (∀ pid1 pid2 workspace run1 run2,
       mw_processes m !! pid1 = Some (MintFinished workspace (Ok (Minted run1))) →
       mw_processes m !! pid2 = Some (MintFinished workspace (Ok (Minted run2))) → pid1 = pid2)
  ∧ (∀ pid workspace, mw_processes m !! pid ≠ Some (MintFinished workspace (Err GenesisVanished))).
Proof.
  intros Ht Hr. assert (founding_ok m) as [Hi Ha Hu Hg Hf].
  { assert (founding_ok (mkMintWorld (mkFounding t ∅ salts) ∅)) as Hstart.
    { split; cbn; try (intros; by rewrite ?lookup_empty in * ). intros token i Hl Hb. by rewrite (Ht token i Hl) in Hb. }
    clear Ht. induction Hr as [|a b c Hst _ IH]; [done|]. apply IH. by eapply founding_step. }
  split_and!; [|done | |done].
  - intros tok1 tok2 i1 i2 L1 L2 B1 B2 Hw. destruct (Hi tok1 i1 L1 B1) as (g1 & Hg1 & <-).
    destruct (Hi tok2 i2 L2 B2) as (g2 & Hg2 & <-). congruence.
  - intros pid1 pid2 ws run1 run2 L1 L2. eapply Hu; [done | done | by eexists | by eexists].
Qed.
End foundings.

(** An ordinary invite is no bootstrap. *)
Lemma create_no_new_bootstrap `{Blake3, Ed25519} t workspace invite now up :
  no_new_bootstrap t (create t workspace invite now up).2.
Proof.
  unfold create, insert_invite. destruct (invite_judge _ _ _) as [[]|e]; [|by intros token i; eauto].
  destruct (t_invites t !! iv_token invite) eqn:Hn; [by intros token i; eauto|].
  destruct (insert_bundles _ _ _ _); [|by intros token i; eauto].
  cbn [snd]. intros token i Hl Hb. cbn [t_invites with_bundles with_invites] in Hl.
  apply lookup_insert_Some in Hl as [[<- <-]|[_ Hl]]; [done|]. by exists i.
Qed.

(** ** The mint goes through *)
Section minting.
Context `{GenesisSignerLaws, Blake3, Argon2}.

Lemma bootstrap_judged workspace now d h :
  invite_judge (bootstrap_invite workspace now d h) true (Z.max now 0) = Ok tt.
Proof.
  set (i := bootstrap_invite workspace now d h).
  assert (invite_check_shape i = Ok tt) as Hs.
  { unfold i, invite_check_shape, bootstrap_invite. cbn [with_sig unsigned_bootstrap iv_scopes iv_caps iv_uses iv_expires iv_issued_at].
    assert (check_capabilities [ADMIN_CAP] = Ok tt) as -> by by vm_compute.
    rewrite (proj2 (Z.leb_gt _ _)) by (unfold BOOTSTRAP_EXPIRY_MS; lia). by vm_compute. }
  unfold invite_judge. rewrite Hs. cbn [result_bind].
  assert (invite_signature_verifies i = true) as ->.
  { unfold invite_signature_verifies, verify, i, bootstrap_invite. cbn [with_sig iv_issuer iv_sig unsigned_bootstrap].
    rewrite genesis_public_width, genesis_sign_width, !Nat.eqb_refl. cbn [andb]. apply genesis_sign_verifies. }
  cbn [negb]. assert (check_mandatory_root i true = Ok tt) as -> by by vm_compute. cbn [result_bind].
  unfold i, bootstrap_invite. cbn [with_sig iv_expires unsigned_bootstrap].
  by rewrite (proj2 (Z.leb_gt _ _)) by (unfold BOOTSTRAP_EXPIRY_MS; lia).
Qed.

(** A relay that has never been founded founds itself. With no genesis row for
    the workspace, a token no invite has and a hash for the code, [ensure] mints: the
    one invite it writes is live, for one use, under the token and the code it
    answers, which is the code the invite verifies, the workspace has its salt and no
    salt changes; and every later call, whatever
    was drawn, answers that token and fingerprint and writes nothing, saying the key
    is spent from the moment its secret is gone. *)
Theorem genesis_minted_once w workspace now d h :
  fd_keys w !! workspace = None → t_invites (fd_tables w) !! dr_token d = None →
  argon2id (symbols (from_bits (dr_code d))) (dr_token d) = Some h → length h = CODE_HASH_BYTES →
  ∃ w' i, ensure id id w workspace now d = (PassDone (Ok (Minted (first_run d))), w')
    ∧ t_invites (fd_tables w') !! dr_token d = Some i ∧ i_workspace i = workspace ∧ i_bootstrap i = true
    ∧ i_state i = LiveInvite ∧ i_remaining i = 1 ∧ i_uses i = 1
    ∧ verify_code (fr_code (first_run d)) (dr_token d) (iv_code_hash (i_invite i)) = true
    ∧ fd_keys w' !! workspace = Some (minted_key d) ∧ is_Some (fd_salts w' !! workspace) ∧ fd_salts w ⊆ fd_salts w'
    ∧ (∀ w2 k o1 o2 now2 d2, fd_keys w2 !! workspace = Some k → gk_token k = dr_token d → gk_fingerprint k = fr_fingerprint (first_run d) →
         ensure o1 o2 w2 workspace now2 d2
         = (PassDone (Ok (Existing (fr_fingerprint (first_run d)) (dr_token d) (bool_decide (gk_secret k = None)))), w2)).
Proof.
  intros Hk Ht Hh Hl. unfold ensure, ensure_pass, genesis_read. rewrite Hk. cbn [fmap option_fmap option_map]. unfold id, mint_pass, hash_token.
  rewrite Hh. destruct (insert_invite _ _ _ _ _ _) as [[[]|e] t'] eqn:Hi.
  2: { exfalso. unfold insert_invite in Hi. rewrite bootstrap_judged in Hi.
       change (iv_token (bootstrap_invite workspace now d h)) with (dr_token d) in Hi. by rewrite Ht in Hi. }
  rewrite Hk. apply bootstrap_row in Hi. eexists _, _. split; [done|]. cbn [fd_tables fd_keys fd_salts]. rewrite Hi, !lookup_insert_eq.
  destruct (salt_written (fd_salts w) workspace (dr_salt d)). split_and!; try done.
  - cbn [i_invite bootstrap_invite with_sig iv_code_hash unsigned_bootstrap first_run fr_code].
    unfold verify_code, hash_code. rewrite Hh, Hl, Nat.eqb_refl. cbn [andb]. unfold constant_time_eq. apply Z.eqb_eq.
    clear. induction h as [|b h IH]; [done|]. cbn. by rewrite Z.lxor_nilpotent.
  - intros w2 k o1 o2 now2 d2 Hk2 Htok Hfp. rewrite Hk2. cbn [fmap option_fmap option_map]. by rewrite Htok, Hfp.
Qed.
End minting.

(** ** The log *)
Section log_lemmas.
Context `{Blake3Width}.

(** What the hash of an entry covers. *)
Definition hashed (r : LogRow) : Z * list byte * list byte * list byte :=
  (lr_seq r, log_body (lr_entry r), log_prev_hash (lr_entry r), log_entry_hash (lr_entry r)).
Definition last_hash (previous : list byte) (l : list LogRow) : list byte :=
  default previous (log_entry_hash ∘ lr_entry <$> last l).

Lemma verifies_snoc l r index previous :
  log_verifies_from index previous (l ++ [r]) = true →
  log_verifies_from index previous l = true ∧ lr_seq r = index + Z.of_nat (length l)
  ∧ log_prev_hash (lr_entry r) = last_hash previous l
  ∧ log_entry_hash (lr_entry r) = log_chain (last_hash previous l) (log_body (lr_entry r)).
Proof.
  revert index previous. induction l as [|x l IH]; intros index previous; cbn [app log_verifies_from].
  - rewrite !andb_true_iff, !bool_decide_eq_true. intros [[[Hs Hp] He] _]. cbn. rewrite Hp in He. split_and!; (done || lia).
  - rewrite !andb_true_iff. intros [Hx Hl]. apply IH in Hl as (Hl & Hs & Hp & He).
    assert (last_hash previous (x :: l) = last_hash (log_entry_hash (lr_entry x)) l) as ->
      by (unfold last_hash; rewrite last_cons; by destruct (last l)).
    split; [by split|]. split_and!; [cbn; lia | done | done].
Qed.

Lemma last_hash_width l index previous :
  log_verifies_from index previous l = true → length previous = 32%nat → length (last_hash previous l) = 32%nat.
Proof.
  intros Hv Hp. destruct l as [|r l] using rev_ind; [done|].
  apply verifies_snoc in Hv as (_ & _ & _ & He). unfold last_hash. rewrite last_snoc. cbn. rewrite He. apply blake3_width.
Qed.

(** The transparency log is tamper-evident. Two logs that verify, of the same
    length and with the same final hash, agree entry by entry on number, body,
    previous hash and hash, or BLAKE3 has a collision; so an entry cannot be replaced
    under a hash somebody kept. The log a founding writes is one entry and verifies. *)
Theorem transparency_log_binding l1 l2 :
  log_verifies l1 = true → log_verifies l2 = true → length l1 = length l2 →
  last_hash (replicate 32 Byte.x00) l1 = last_hash (replicate 32 Byte.x00) l2 →
  hashed <$> l1 = hashed <$> l2 ∨ ∃ a b, collision a b.
Proof.
  unfold log_verifies. set (zero := replicate 32 Byte.x00). revert l2.
  induction l1 as [|r1 l1 IH] using rev_ind; intros l2 H1 H2 Hlen Hlast.
  { destruct l2; [by left | done]. }
  destruct l2 as [|r2 l2 _] using rev_ind; [rewrite length_app in Hlen; cbn in Hlen; lia|].
  rewrite !length_app in Hlen. cbn in Hlen.
  apply verifies_snoc in H1 as (V1 & S1 & P1 & E1). apply verifies_snoc in H2 as (V2 & S2 & P2 & E2).
  unfold last_hash at 1 2 in Hlast. rewrite !last_snoc in Hlast. cbn in Hlast.
  set (p1 := last_hash zero l1) in *. set (p2 := last_hash zero l2) in *.
  assert (length p1 = length p2) as Hw.
  { transitivity 32%nat; [|symmetry]; by eapply last_hash_width; [|apply length_replicate]. }
  destruct (decide (p1 ++ log_body (lr_entry r1) = p2 ++ log_body (lr_entry r2))) as [Heq|Hne].
  - apply app_inj_1 in Heq as [Hp Hb]; [|done].
    destruct (IH l2 V1 V2 ltac:(lia) Hp) as [Hh|Hc]; [left | by right].
    rewrite !fmap_app, Hh. f_equal. cbn. unfold hashed. f_equal. f_equal; [|done]. f_equal; [|congruence]. f_equal; [|done].
    rewrite S1, S2. lia.
  - right. eexists _, _. split; [exact Hne|]. unfold log_chain in *. congruence.
Qed.
End log_lemmas.

(** The kind beside an entry is not under its hash. *)
Lemma log_kind_unbound `{Blake3} kind body :
  let prev := replicate 32 Byte.x00 in
  log_verifies [mkLogRow 0 (mkLogEntry kind body prev (log_chain prev body))] = true.
Proof. intros prev. unfold log_verifies. cbn. by rewrite !bool_decide_eq_true_2. Qed.

(** The log a founding writes. *)
Lemma founding_log_verifies `{Blake3} b now candidate salt b' :
  transparency b = ∅ → consume_in_tx b now candidate salt = Some (true, b') →
  length (log_rows (transparency b')) = 1%nat ∧ log_verifies (log_rows (transparency b')) = true.
Proof.
  intros Ht Hc. unfold consume_in_tx in Hc. destruct (negb _); [done|].
  destruct (set_authorizers candidate) as [|root [|? ?]]; [done | | done].
  destruct (joined_row b) as [[g [nonce r]]|]; [|done]. destruct (negb _); [done|].
  rewrite Ht, lookup_empty in Hc. injection Hc as <-. cbn [transparency]. unfold log_rows.
  rewrite insert_empty, map_to_list_singleton. split; [done|].
  change (log_verifies [mkLogRow 0 (mkLogEntry GENESIS_KIND (entry_zero_body (gen_public g) root (rsv_device_hash r))
    (replicate 32 Byte.x00) (log_chain (replicate 32 Byte.x00) (entry_zero_body (gen_public g) root (rsv_device_hash r))))] = true).
  apply log_kind_unbound.
Qed.

(** ** Two processes starting at once *)
Module GenesisMintDemo.
#[local] Instance demo_blake3 : Blake3 := poly_digest.
#[local] Instance demo_ed25519 : Ed25519 := λ key m sig, bool_decide (sig = key ++ poly_digest m).
#[local] Instance demo_argon2 : Argon2 := λ code token, Some (poly_digest token).
#[local] Instance demo_signer : GenesisSigner := {|
  genesis_public := poly_digest; genesis_sign := λ secret m, poly_digest secret ++ poly_digest m |}.
Lemma demo_laws : GenesisSignerLaws.
Proof.
  split.
  - intros. apply poly_digest_width.
  - intros. cbn [genesis_sign demo_signer]. by rewrite length_app, !poly_digest_width.
  - intros. unfold verify_strict. by apply bool_decide_eq_true_2.
Qed.

Definition nothing : Tables := mkTables ∅ ∅ ∅ ∅ ∅ ∅ ∅.
Definition ws : list byte := [Byte.x01].
Definition draw_a : Draw := mkDraw [Byte.x02] (replicate 16 Byte.x03) 5 [] 0 [].
Definition draw_b : Draw := mkDraw [Byte.x04] (replicate 16 Byte.x05) 6 [] 0 [].
Definition empty_founding : Founding := mkFounding nothing ∅ ∅.
Definition after_a : Founding := (mint_pass empty_founding ws 0 draw_a).2.
Definition raced : MintWorld :=
  let m1 := with_process (with_process (mkMintWorld empty_founding ∅) 0 (MintStarted ws 0 false)) 1 (MintStarted ws 0 false) in
  let m2 := with_process (with_process m1 0 (MintReadNothing ws 0)) 1 (MintReadNothing ws 0) in
  let m3 := with_process (mkMintWorld after_a (mw_processes m2)) 0
              (after_pass ws 0 (mint_pass empty_founding ws 0 draw_a).1) in
  let out := mint_pass after_a ws 0 draw_b in
  let m4 := with_process (mkMintWorld out.2 (mw_processes m3)) 1 (after_pass ws 0 out.1) in
  with_process m4 1 (MintFinished ws (Ok (default (Minted (first_run draw_b)) (genesis_read out.2 ws)))).

Lemma raced_reachable : rtc mint_step (mkMintWorld empty_founding ∅) raced.
Proof.
  eapply rtc_l; [by apply (ms_start _ 0 ws 0)|]. eapply rtc_l; [by apply (ms_start _ 1 ws 0)|].
  eapply rtc_l; [by apply (ms_read_nothing _ 0 ws 0 false)|]. eapply rtc_l; [by apply (ms_read_nothing _ 1 ws 0 false)|].
  eapply rtc_l; [by apply (ms_write _ 0 ws 0 draw_a)|]. eapply rtc_l; [by apply (ms_write _ 1 ws 0 draw_b)|].
  apply rtc_once. unfold raced. apply (ms_read_found _ 1 ws 0 true); by vm_compute.
Qed.

Definition answer_of (pid : nat) : result EnsureError Ensured :=
  match mw_processes raced !! pid with Some (MintFinished _ r) => r | _ => Err GenesisVanished end.

(** The loser answers the winner's token. *)
Lemma one_founding_per_workspace_witness :
  (∃ g, fd_keys (mw_founding raced) !! ws = Some g
        ∧ ensured_names (Existing (genesis_fingerprint (poly_digest [Byte.x02])) (replicate 16 Byte.x03) false) g)
  ∧ mw_processes raced !! 1%nat ≠ Some (MintFinished ws (Err GenesisVanished)).
Proof.
  assert (∀ token i, t_invites nothing !! token = Some i → i_bootstrap i = false) as Hno.
  { intros token i Hl. cbn in Hl. by rewrite lookup_empty in Hl. }
  destruct (one_founding_per_workspace nothing ∅ raced Hno raced_reachable) as (_ & Ha & _ & Hf).
  split; [|apply Hf]. apply (Ha 1%nat). by vm_compute.
Defined.

Lemma genesis_minted_once_witness :
  ∃ w', ensure id id empty_founding ws 0 draw_a = (PassDone (Ok (Minted (first_run draw_a))), w')
        ∧ fd_keys w' !! ws = Some (minted_key draw_a).
Proof.
  destruct (genesis_minted_once (H1 := demo_laws) empty_founding ws 0 draw_a (poly_digest (dr_token draw_a))
    eq_refl eq_refl eq_refl (poly_digest_width _)) as (w' & i & He & Hrest).
  exists w'. split; [exact He|]. by destruct Hrest as (_ & _ & _ & _ & _ & _ & _ & Hk & _).
Defined.

Definition one_entry : list LogRow :=
  [mkLogRow 0 (mkLogEntry GENESIS_KIND [Byte.x01] (replicate 32 Byte.x00) (log_chain (replicate 32 Byte.x00) [Byte.x01]))].
Lemma transparency_log_binding_witness :
  log_verifies one_entry = true ∧ (hashed <$> one_entry = hashed <$> one_entry ∨ ∃ a b, collision a b).
Proof.
  assert (log_verifies one_entry = true) as Hv by by vm_compute.
  split; [exact Hv|]. exact (transparency_log_binding (H0 := poly_digest_width) one_entry one_entry Hv Hv eq_refl eq_refl).
Defined.
End GenesisMintDemo.
