(* ===== verification/Health.v ===== *)
(** * Connections, readiness and the operator's routes

    Models [backend/wealdrelay/src/health.rs]: the connection slots and the share of
    them a source may hold before it authenticates, the address a connection is
    charged to behind declared proxies, the operator bearer and the routes behind it,
    and the readiness document; with [retention_notice.rs], what the retention window
    warns of, and [admitted_principals] of [access/store.rs]. The probes, the pool's
    numbers and the answers of the statements are arguments; a header is its raw
    bytes. *)

From Stdlib Require Import ZArith Lia String.
From stdpp Require Import base tactics numbers gmap fin_maps relations sorting sets list.
From S2P Require Import Prelude Cbor Push Frame Crypto Accept Access Genesis AccessChain InviteCode InviteRecord Invites MediaStore Retention Storage MediaGc Config Handoff Janitor.

Open Scope Z_scope.

(** ** Connection slots *)
Record Slots : Type := mkSlots {
  sl_open : Z; sl_sources : gmap (list byte) Z; sl_refused : Z
}.
Definition no_slots : Slots := mkSlots 0 ∅ 0.
(** [fetch_add] wraps. *)
Definition wrap64 (n : Z) : Z := n mod 2 ^ 64.

(** [usize] is 64 bits wide, so the conversion keeps the value. *)
Definition connection_ceiling (max_connections : Limit) : option Z :=
  match max_connections with Unlimited => None | Of value => Some value end.
(** [keyed] is BLAKE3 under the process's own key. *)
Definition connection_source (keyed : list byte → list byte) (source : option (list byte)) : list byte :=
  keyed (default (ascii_bytes "unknown"%string) source).

Definition source_ceiling (ceiling : Z) : Z := Z.max (ceiling / 4) 1.

(** [admit_connection]; the sources are locked throughout. *)
Definition admit_connection (ceiling : option Z) (s : Slots) (source : list byte) : bool * Slots :=
  match ceiling with
  | None => (true, mkSlots (wrap64 (sl_open s + 1)) (sl_sources s) (sl_refused s))
  | Some ceiling =>
      if source_ceiling ceiling <=? default 0 (sl_sources s !! source)
      then (false, mkSlots (sl_open s) (sl_sources s) (wrap64 (sl_refused s + 1)))
      else if sl_open s <? ceiling
      then (true, mkSlots (sl_open s + 1) (<[source := default 0 (sl_sources s !! source) + 1]> (sl_sources s)) (sl_refused s))
      else (false, mkSlots (sl_open s) (sl_sources s) (wrap64 (sl_refused s + 1)))
  end.

Definition release_unauthenticated_connection (ceiling : option Z) (s : Slots) (source : list byte) : Slots :=
  match ceiling with
  | None => s
  | Some _ =>
      match sl_sources s !! source with
      | None => s
      | Some count =>
          let count := Z.max 0 (count - 1) in
          mkSlots (sl_open s) (if count =? 0 then delete source (sl_sources s) else <[source := count]> (sl_sources s))
            (sl_refused s)
      end
  end.
Definition release_connection (s : Slots) : Slots :=
  mkSlots (Z.max 0 (sl_open s - 1)) (sl_sources s) (sl_refused s).

(** The sockets a relay serves: whose they are, and whether they still hold the
    source's share. [relay_socket] takes both; [serve_connection] gives the share
    back at [AUTH_ACK] or at the end, and the slot at the end; a failed upgrade
    gives back both. *)
Record Door : Type := mkDoor { dr_slots : Slots; dr_sockets : gmap nat (list byte * bool) }.

Inductive door_step (ceiling : option Z) : Door → Door → Prop :=
| door_opened d pid source s :
    dr_sockets d !! pid = None → admit_connection ceiling (dr_slots d) source = (true, s) →
    door_step ceiling d (mkDoor s (<[pid := (source, true)]> (dr_sockets d)))
| door_refused d source s :
    admit_connection ceiling (dr_slots d) source = (false, s) → door_step ceiling d (mkDoor s (dr_sockets d))
| door_share_back d pid source :
    dr_sockets d !! pid = Some (source, true) →
    door_step ceiling d (mkDoor (release_unauthenticated_connection ceiling (dr_slots d) source)
      (<[pid := (source, false)]> (dr_sockets d)))
| door_closed d pid source :
    dr_sockets d !! pid = Some (source, false) →
    door_step ceiling d (mkDoor (release_connection (dr_slots d)) (delete pid (dr_sockets d))).

(** ** The client's address *)
Inductive ForwardedError : Type := ChainTooShort.

(** [HeaderValue::to_str]: visible ASCII and tabs. *)
Definition header_str (value : list byte) : option (list byte) :=
  if forallb (λ b, in_range 32 126 b || in_range 9 9 b) value then Some value else None.

(** [str::split(',')]. *)
Fixpoint split_comma (bs : list byte) : list (list byte) :=
  match bs with
  | [] => [[]]
  | b :: bs' =>
      if in_range 44 44 b then [] :: split_comma bs'
      else match split_comma bs' with
           | part :: parts => (b :: part) :: parts
           | [] => [[b]]
           end
  end.

Definition forwarded_chain (values : list (list byte)) : list (list byte) :=
  filter (λ e, e ≠ []) (trim <$> (omap header_str values ≫= split_comma)).

(** [values]: every [X-Forwarded-For], in order; [peer]: the transport address. *)
Definition client_source (hops : Z) (values : list (list byte)) (peer : option (list byte))
    : result ForwardedError (option (list byte)) :=
  if hops =? 0 then Ok peer
  else
    let chain := forwarded_chain values in
    if Z.of_nat (length chain) <? hops then Err ChainTooShort
    else Ok (chain !! (length chain - Z.to_nat hops)%nat).

(** ** The operator bearer *)
Definition BEARER : list byte := ascii_bytes "Bearer "%string.

(** [authorization]: the first [Authorization] header. *)
Definition operator_authorized (expected : list byte) (authorization : option (list byte)) : bool :=
  let offered := value ← authorization; text ← header_str value; strip_prefix BEARER text in
  match offered with
  | None => false
  | Some offered => (length expected =? length offered)%nat && constant_time_eq expected offered
  end.

(** [admitted_principals]: the entries of each workspace's latest set. *)
Definition latest_version (db : Db) : option Z :=
  foldr (λ v acc, Some (match acc with Some w => Z.max v w | None => v end)) None (map_to_list (set_rows db)).*1.
Definition admitted_in (db : Db) : Z :=
  match latest_version db with
  | None => 0
  | Some v => Z.of_nat (size (filter (λ e : Z * list byte, e.1 = v) (entry_rows db)))
  end.
Definition admitted_principals (workspaces : gmap (list byte) Db) : Z := msum (λ _ db, admitted_in db) workspaces.

(** ** Readiness *)
(** [None]: not configured; otherwise whether the probe was answered. *)
Definition dependency_ok (probe : option bool) : bool := default false probe.
Record Readiness : Type := mkReadiness {
  rd_database : bool; rd_storage : bool; rd_write_mode : WriteMode; rd_frozen : list (list byte); rd_ready : bool
}.
Definition readiness (mode : WriteMode) (database storage : option bool) (frozen : list (list byte)) : Readiness :=
  mkReadiness (dependency_ok database) (dependency_ok storage) mode frozen
    (dependency_ok database && dependency_ok storage && match mode with Full => true | ReadOnly => false end).

(** Two listeners mount the routes. *)
Inductive Listener : Type := PublicListener | PrivateListener.

Inductive OperatorRequest : Type :=
| GetAdmitted
| GetVersion
| GetMetrics
| PostRestoreMarker (body : option (option Z))
| DeleteRestoreMarker
| PostMediaQuota (body : option (list byte * option Z))
| PostSweep (body : option (option bool))
| GetHandoff.

(** The version document and the collector's summary are constants of the build and
    counts: their contents are left out. *)
Inductive OperatorAnswer : Type :=
| NotMounted
| Unauthorized
| Unavailable
| BadRequest
| NoHandoff
| AdmittedIs (n : Z)
| VersionIs
| MetricsOf (r : Readiness)
| MarkerIs (passes : Z)
| QuotaIs (workspace : list byte) (row : QuotaRow)
| Swept
| HandoffIs (sealed : SealedHandoff).

Definition DEFAULT_SUPPRESSED_PASSES : Z := 4.
Definition bootstrap_workspace (hostname : list byte) : list byte := ascii_bytes "ws:"%string ++ hostname.

(** Which routes a relay mounts, and where. *)
Definition mounted (c : RelayConfig) (l : Listener) (request : OperatorRequest) : bool :=
  match cfg_operator_token c with
  | None => false
  | Some _ =>
      match l, request with
      | PrivateListener, GetHandoff => false
      | PublicListener, GetMetrics => false
      | PublicListener, GetHandoff =>
          match cfg_bootstrap_handoff_pubkey c with
          | Some configured => is_ok (parse_public_key configured)
          | None => false
          end
      | _, _ => true
      end
  end.

Section routes.
Context {St : Type} `{!BlobStore St}.
Implicit Types t : Collected St.

Definition on_marker t (m : option Z) : Collected St :=
  mkCollected (cl_retention t) (cl_storage t) m (cl_handles t) (cl_wraps t) (cl_handoffs t) (cl_shelf t) (cl_invites t).
Definition on_quotas t (m : MediaTables) : Collected St :=
  mkCollected (with_media (cl_retention t) m) (cl_storage t) (cl_marker t) (cl_handles t) (cl_wraps t) (cl_handoffs t)
    (cl_shelf t) (cl_invites t).

(** The handlers past the bearer and the check for a database. [writes] and [reads]:
    whether the statement of each kind was answered. *)
Definition admitted (reads : bool) t : OperatorAnswer :=
  if reads then AdmittedIs (admitted_principals (t_dbs (cl_invites t))) else Unavailable.
Definition set_restore_marker (writes : bool) t (body : option (option Z)) : OperatorAnswer * Collected St :=
  let passes := default DEFAULT_SUPPRESSED_PASSES (default None body) in
  if passes <=? 0 then (BadRequest, t)
  else if writes then (MarkerIs (Z.max passes 0), on_marker t (marker_set passes))
  else (Unavailable, t).
Definition clear_restore_marker (writes : bool) t : OperatorAnswer * Collected St :=
  if writes then (MarkerIs 0, on_marker t None) else (Unavailable, t).
Definition set_media_quota (writes reads : bool) t (body : option (list byte * option Z))
    : OperatorAnswer * Collected St :=
  match body with
  | None => (BadRequest, t)
  | Some (workspace, limit) =>
      if bool_decide (workspace = []) then (BadRequest, t)
      else if from_option (λ l, l <? 0) false limit then (BadRequest, t)
      else if negb writes then (Unavailable, t)
      else
        let t := on_quotas t (set_quota_limit (rt_media (cl_retention t)) workspace limit) in
        (if reads then QuotaIs workspace (media_usage (rt_media (cl_retention t)) workspace) else Unavailable, t)
  end.
Definition run_sweep (e : PassEnv) (c : RelayConfig) t (body : option (option bool)) : OperatorAnswer * Collected St :=
  let list_storage := default true (default None body) in
  (Swept, pass_with e c list_storage t).
Definition serve_handoff (hostname : list byte) (now : Z) (reads : bool) t : OperatorAnswer :=
  if reads
  then match handoff_read (cl_handoffs t) (bootstrap_workspace hostname) now with
       | Some sealed => HandoffIs sealed
       | None => NoHandoff
       end
  else Unavailable.

(** [None]: no database. The version and the metrics are answered without one. *)
Definition operator_handler (c : RelayConfig) (e : PassEnv) (r : Readiness) (writes reads : bool)
    (db : option (Collected St)) (request : OperatorRequest) : OperatorAnswer * option (Collected St) :=
  match request, db with
  | GetVersion, _ => (VersionIs, db)
  | GetMetrics, _ => (MetricsOf r, db)
  | _, None => (Unavailable, None)
  | GetAdmitted, Some t => (admitted reads t, db)
  | PostRestoreMarker body, Some t => let '(answer, t) := set_restore_marker writes t body in (answer, Some t)
  | DeleteRestoreMarker, Some t => let '(answer, t) := clear_restore_marker writes t in (answer, Some t)
  | PostMediaQuota body, Some t => let '(answer, t) := set_media_quota writes reads t body in (answer, Some t)
  | PostSweep body, Some t => let '(answer, t) := run_sweep e c t body in (answer, Some t)
  | GetHandoff, Some t => (serve_handoff (cfg_hostname c) (pe_db_ms e) reads t, db)
  end.

Definition operator_route (c : RelayConfig) (e : PassEnv) (r : Readiness) (writes reads : bool) (l : Listener)
    (authorization : option (list byte)) (db : option (Collected St)) (request : OperatorRequest)
    : OperatorAnswer * option (Collected St) :=
  match cfg_operator_token c with
  | Some expected =>
      if negb (mounted c l request) then (NotMounted, db)
      else if negb (operator_authorized expected authorization) then (Unauthorized, db)
      else operator_handler c e r writes reads db request
  | None => (NotMounted, db)
  end.
End routes.

(** ** What /readyz says *)
Inductive ReadyzBody : Type := ReadyDocument (r : Readiness) | ReadyVerdict (ready : bool) | TokenInvalid.
Definition readyz (operator_token authorization : option (list byte)) (r : Readiness) : Z * ReadyzBody :=
  let code := if rd_ready r then 200 else 503 in
  let authorized := from_option (λ expected, operator_authorized expected authorization) false operator_token in
  if is_set operator_token && negb authorized && is_set authorization then (401, TokenInvalid)
  else if authorized then (code, ReadyDocument r)
  else (code, ReadyVerdict (rd_ready r)).

(** The pool's numbers. *)
Record PoolStats : Type := mkPoolStats { ps_size : Z; ps_connections : Z; ps_in_use : Z }.
Definition pool_stats (size : Z) (pool : option (Z * Z)) : PoolStats :=
  match pool with
  | None => mkPoolStats size 0 0
  | Some (connections, idle) => mkPoolStats size connections (Z.max 0 (connections - Z.min idle U32_MAX))
  end.

(** ** What retention warns of *)
Definition MS_PER_DAY : Z := 24 * 60 * 60 * 1000.
Record Overdue : Type := mkOverdue { od_envelopes : Z; od_workspaces : Z; od_oldest_days : Z }.
Definition no_overdue : Overdue := mkOverdue 0 0 0.
Definition overdue_is_empty (o : Overdue) : bool := od_envelopes o =? 0.

Definition cutoff_ms (retention_days : Limit) (now_ms : Z) : option Z :=
  match retention_days with
  | Unlimited => None
  | Of days => Some (u64_saturating_sub now_ms (Z.min U64_MAX (days * MS_PER_DAY)))
  end.
(** [cutoff as i64]. *)
Definition as_i64 (n : Z) : Z := if n <=? I64_MAX then n else n - 2 ^ 64.

(** The joined rows: each envelope's workspace and receipt time. [None]: the query
    was not answered. *)
Definition overdue (rows : option (list (list byte * Z))) (retention_days : Limit) (now_ms : Z) : Overdue :=
  match cutoff_ms retention_days now_ms, rows with
  | None, _ | _, None => no_overdue
  | Some cutoff, Some rows =>
      let late := filter (λ r : list byte * Z, r.2 < as_i64 cutoff) rows in
      if (length late =? 0)%nat then no_overdue
      else
        let oldest := Z.max 0 (foldr Z.min I64_MAX (snd <$> late)) in
        mkOverdue (Z.of_nat (length late)) (Z.of_nat (length (remove_dups (fst <$> late))))
          (u64_saturating_sub now_ms oldest / MS_PER_DAY)
  end.

(** ** The slots are exact *)
Definition one_if (b : bool) : Z := if b then 1 else 0.
(** Sockets still holding the share of [source]. *)
Definition sharing (source : list byte) (sockets : gmap nat (list byte * bool)) : Z :=
  msum (λ _ p, one_if (bool_decide (p.1 = source) && p.2)) sockets.
Definition socket_count (sockets : gmap nat (list byte * bool)) : Z := msum (λ _ _, 1) sockets.

Record door_ok (ceiling : Z) (d : Door) : Prop := mkDoorOk {
  do_open : sl_open (dr_slots d) = socket_count (dr_sockets d);
  do_shares : ∀ source, default 0 (sl_sources (dr_slots d) !! source) = sharing source (dr_sockets d);
  do_positive : map_Forall (λ _ n, 1 ≤ n ≤ source_ceiling ceiling) (sl_sources (dr_slots d));
  do_bound : sl_open (dr_slots d) ≤ ceiling
}.

Lemma sharing_nonneg source m : 0 ≤ sharing source m.
Proof. apply msum_nonneg. intros k [s []]; cbn; destruct (bool_decide _); cbn; lia. Qed.
Lemma socket_count_nonneg m : 0 ≤ socket_count m.
Proof. apply msum_nonneg. intros; lia. Qed.

Lemma door_opened_ok ceiling d pid source s :
  door_ok ceiling d → dr_sockets d !! pid = None → admit_connection (Some ceiling) (dr_slots d) source = (true, s) →
  door_ok ceiling (mkDoor s (<[pid := (source, true)]> (dr_sockets d))).
Proof.
  intros [Ho Hs Hp Hb] Hpid Ha. unfold admit_connection in Ha.
  destruct (Z.leb_spec (source_ceiling ceiling) (default 0 (sl_sources (dr_slots d) !! source))) as [|Hlt]; [done|].
  destruct (Z.ltb_spec (sl_open (dr_slots d)) ceiling); [|done]. injection Ha as <-.
  split; cbn [dr_slots dr_sockets sl_open sl_sources].
  - unfold socket_count in *. rewrite msum_insert_None by done. lia.
  - intros src. unfold sharing. rewrite msum_insert_None by done. fold (sharing src (dr_sockets d)). cbn [fst snd].
    destruct (decide (src = source)) as [->|Hne].
    + rewrite lookup_insert_eq, bool_decide_eq_true_2 by done. cbn. rewrite Hs. lia.
    + rewrite lookup_insert_ne, bool_decide_eq_false_2 by done. cbn. apply Hs.
  - apply map_Forall_insert_2; [|done]. pose proof (sharing_nonneg source (dr_sockets d)). rewrite Hs in *. lia.
  - lia.
Qed.

Lemma door_refused_ok ceiling d source s :
  door_ok ceiling d → admit_connection (Some ceiling) (dr_slots d) source = (false, s) → door_ok ceiling (mkDoor s (dr_sockets d)).
Proof.
  intros [Ho Hs Hp Hb] Ha. unfold admit_connection in Ha. repeat case_match; simplify_eq; by split.
Qed.

Lemma door_share_ok ceiling d pid source :
  door_ok ceiling d → dr_sockets d !! pid = Some (source, true) →
  door_ok ceiling (mkDoor (release_unauthenticated_connection (Some ceiling) (dr_slots d) source)
    (<[pid := (source, false)]> (dr_sockets d))).
Proof.
  intros [Ho Hs Hp Hb] Hpid.
  assert (∀ src, sharing src (<[pid := (source, false)]> (dr_sockets d))
    = sharing src (dr_sockets d) - one_if (bool_decide (source = src))) as Hsh.
  { intros src. unfold sharing. rewrite (msum_insert_Some _ _ _ _ _ Hpid). cbn. rewrite andb_true_r, andb_false_r. cbn. lia. }
  assert (1 ≤ sharing source (dr_sockets d)) as Hone.
  { pose proof (sharing_nonneg source (<[pid := (source, false)]> (dr_sockets d))) as Hn.
    rewrite Hsh, bool_decide_eq_true_2 in Hn by done. cbn in Hn. lia. }
  unfold release_unauthenticated_connection.
  destruct (sl_sources (dr_slots d) !! source) as [n|] eqn:Hn; [|specialize (Hs source); rewrite Hn in Hs; cbn in Hs; lia].
  assert (n = sharing source (dr_sockets d)) as Hnn by (specialize (Hs source); by rewrite Hn in Hs).
  split; cbn [dr_slots dr_sockets sl_open sl_sources].
  - unfold socket_count in *. rewrite (msum_insert_Some _ _ _ _ _ Hpid). lia.
  - intros src. rewrite Hsh. destruct (decide (src = source)) as [->|Hne].
    + rewrite bool_decide_eq_true_2 by done. destruct (Z.eqb_spec (Z.max 0 (n - 1)) 0).
      * rewrite lookup_delete_eq. cbn. lia.
      * rewrite lookup_insert_eq. cbn. lia.
    + rewrite bool_decide_eq_false_2 by congruence. rewrite <- Hs. cbn.
      destruct (_ =? 0); [rewrite lookup_delete_ne by congruence | rewrite lookup_insert_ne by congruence]; lia.
  - destruct (Z.eqb_spec (Z.max 0 (n - 1)) 0); [by apply map_Forall_delete|].
    apply map_Forall_insert_2; [|done]. specialize (Hp source n Hn). cbn in Hp. lia.
  - done.
Qed.

Lemma door_closed_ok ceiling d pid source :
  door_ok ceiling d → dr_sockets d !! pid = Some (source, false) →
  door_ok ceiling (mkDoor (release_connection (dr_slots d)) (delete pid (dr_sockets d))).
Proof.
  intros [Ho Hs Hp Hb] Hpid.
  assert (socket_count (dr_sockets d) = 1 + socket_count (delete pid (dr_sockets d))) as Hc
    by (unfold socket_count; by rewrite (msum_delete _ _ _ _ Hpid)).
  pose proof (socket_count_nonneg (delete pid (dr_sockets d))).
  split; cbn [dr_slots dr_sockets sl_open sl_sources release_connection]; [lia | | done | lia].
  intros src. rewrite Hs. unfold sharing. rewrite (msum_delete _ _ _ _ Hpid). cbn. rewrite andb_false_r. cbn. lia.
Qed.

Lemma door_step_ok ceiling d d' : door_step (Some ceiling) d d' → door_ok ceiling d → door_ok ceiling d'.
Proof.
  intros Hst Hd. destruct Hst; [by apply door_opened_ok | by eapply door_refused_ok | by apply door_share_ok | by eapply door_closed_ok].
Qed.

(** C17. The connection table is exact and no source can fill it before it says who
    it is. Under any interleaving of arrivals, refusals, authentications and closes,
    the slots taken are exactly the sockets open, never more than the ceiling; the
    share counted against a source is exactly its sockets that have not
    authenticated, never more than a quarter of the ceiling (or one); so a slot is
    neither leaked nor freed twice, and an arrival is refused exactly when the table
    is full or its own source's share is. *)
Theorem connection_slots_exact ceiling d :
  0 ≤ ceiling → rtc (door_step (Some ceiling)) (mkDoor no_slots ∅) d →
  sl_open (dr_slots d) = socket_count (dr_sockets d) ∧ socket_count (dr_sockets d) ≤ ceiling
  ∧ (∀ source, default 0 (sl_sources (dr_slots d) !! source) = sharing source (dr_sockets d)
       ∧ sharing source (dr_sockets d) ≤ source_ceiling ceiling)
  ∧ (∀ source, (admit_connection (Some ceiling) (dr_slots d) source).1 = false
       ↔ socket_count (dr_sockets d) = ceiling ∨ sharing source (dr_sockets d) = source_ceiling ceiling)
  ∧ (dr_sockets d = ∅ → sl_open (dr_slots d) = 0 ∧ sl_sources (dr_slots d) = ∅).
Proof.
  intros Hc Hr. assert (door_ok ceiling d) as [Ho Hs Hp Hb].
  { assert (door_ok ceiling (mkDoor no_slots ∅)) as H0.
    { split; cbn; [unfold socket_count; by rewrite msum_empty | | apply map_Forall_empty | done].
      intros source. unfold sharing. by rewrite msum_empty, lookup_empty. }
    induction Hr as [|a b c Hst _ IH]; [done|]. apply IH. by eapply door_step_ok. }
  assert (∀ source, sharing source (dr_sockets d) ≤ source_ceiling ceiling) as Hle.
  { intros source. rewrite <- Hs. destruct (sl_sources (dr_slots d) !! source) eqn:Hl; cbn; [|unfold source_ceiling; lia].
    apply (Hp source) in Hl. lia. }
  split_and!; [done | lia | auto | |].
  - intros source. specialize (Hle source). rewrite <- Ho. unfold admit_connection. rewrite Hs.
    destruct (Z.leb_spec (source_ceiling ceiling) (sharing source (dr_sockets d))); cbn; [split; [right; lia | done]|].
    destruct (Z.ltb_spec (sl_open (dr_slots d)) ceiling); cbn; split; (done || lia).
  - intros He. rewrite Ho, He. split; [unfold socket_count; by rewrite msum_empty|].
    apply map_empty. intros source. specialize (Hs source). rewrite He in Hs. unfold sharing in Hs. rewrite msum_empty in Hs.
    destruct (sl_sources (dr_slots d) !! source) as [n|] eqn:Hl; [|done]. apply (Hp source) in Hl. cbn in Hs. lia.
Qed.

(** ** Counting from the right *)
Definition COMMA_SPACE : list byte := ascii_bytes ", "%string.
Definition visible (v : list byte) : Prop := header_str v = Some v.
(** An address as a proxy writes it: visible, with no space and no comma. *)
Definition clean (e : list byte) : Prop := e ≠ [] ∧ Forall (λ b, 33 ≤ byte_to_Z b ≤ 126 ∧ byte_to_Z b ≠ 44) e.

Lemma in_range_spec lo hi b : in_range lo hi b = true ↔ lo ≤ byte_to_Z b ≤ hi.
Proof. unfold in_range. rewrite andb_true_iff, !Z.leb_le. done. Qed.
Lemma in_range_false lo hi b : in_range lo hi b = false ↔ ¬ lo ≤ byte_to_Z b ≤ hi.
Proof. rewrite <- not_true_iff_false, in_range_spec. done. Qed.

Lemma clean_visible e : clean e → visible e.
Proof.
  intros [_ He]. unfold visible, header_str. rewrite (proj2 (forallb_forall _ _)); [done|].
  rewrite Forall_forall in He. intros b Hb%list_elem_of_In. specialize (He b Hb). apply orb_true_iff. left.
  apply in_range_spec. lia.
Qed.

Lemma split_comma_free e : Forall (λ b, byte_to_Z b ≠ 44) e → split_comma e = [e].
Proof.
  induction 1 as [|b e Hb _ IH]; [done|]. cbn. rewrite IH, (proj2 (in_range_false _ _ _)) by lia. done.
Qed.
Lemma split_comma_app v e :
  Forall (λ b, byte_to_Z b ≠ 44) e → split_comma (v ++ Byte.x2c :: e) = split_comma v ++ [e].
Proof.
  intros He. induction v as [|b v IH]; cbn [app split_comma].
  - change (in_range 44 44 Byte.x2c) with true. cbv iota. by rewrite split_comma_free.
  - rewrite IH. destruct (in_range 44 44 b); [done|]. destruct (split_comma v) as [|part parts] eqn:Hv; [|done].
    exfalso. clear -Hv. destruct v as [|b v]; cbn in Hv; [done|]. destruct (in_range 44 44 b); [done|].
    by destruct (split_comma v).
Qed.

(** Trimming removes a leading space and nothing of an address. *)
Lemma strip_none b e : 33 ≤ byte_to_Z b ≤ 126 → strip_space (b :: e) = None.
Proof.
  intros Hb. unfold strip_space.
  assert (∀ lo hi, 126 < lo ∨ hi < 33 → in_range lo hi b = false) as Hr by (intros; apply in_range_false; lia).
  rewrite !Hr by lia. cbn [orb andb]. by destruct e as [|? [|? ?]].
Qed.
Lemma trim_start_clean e fuel : clean e → trim_start fuel e = e.
Proof.
  intros [Hne He]. destruct e as [|b e]; [done|]. apply Forall_cons in He as [Hb _].
  destruct fuel; [done|]. cbn [trim_start]. by rewrite strip_none by lia.
Qed.
Lemma trim_end_clean e fuel : clean e → trim_end fuel e = e.
Proof.
  intros [Hne He]. destruct fuel; [done|]. cbn [trim_end].
  assert (∀ k, ends_in_space e (S k) = false) as Hno.
  { intros k. unfold ends_in_space. destruct (Nat.leb_spec (S k) (length e)); [|done]. cbn [andb].
    apply bool_decide_eq_false_2. destruct (drop (length e - S k) e) as [|b t] eqn:Hd; [done|].
    rewrite strip_none; [done|]. rewrite Forall_forall in He.
    assert (b ∈ e) as Hb; [|specialize (He b Hb); lia].
    rewrite <- (take_drop (length e - S k) e), Hd. apply elem_of_app. right. by left. }
  by rewrite !Hno.
Qed.
Lemma trim_clean e : clean e → trim e = e.
Proof. intros He. unfold trim. by rewrite trim_start_clean, trim_end_clean. Qed.
Lemma trim_spaced e : clean e → trim (Byte.x20 :: e) = e.
Proof.
  intros He. unfold trim. cbn [length trim_start]. change (strip_space (Byte.x20 :: e)) with (Some e). cbv iota beta.
  by rewrite trim_start_clean, trim_end_clean.
Qed.

(** A proxy adds a line of its own, or joins its address to the last line. *)
Inductive forwarded (e : list byte) : list (list byte) → list (list byte) → Prop :=
| forwarded_line vs : forwarded e vs (vs ++ [e])
| forwarded_joined vs v : forwarded e (vs ++ [v]) (vs ++ [v ++ COMMA_SPACE ++ e]).
Inductive forwarded_by : list (list byte) → list (list byte) → list (list byte) → Prop :=
| forwarded_none vs : forwarded_by [] vs vs
| forwarded_then e es vs vs1 vs2 : forwarded e vs vs1 → forwarded_by es vs1 vs2 → forwarded_by (e :: es) vs vs2.

Lemma chain_line vs e : clean e → forwarded_chain (vs ++ [e]) = forwarded_chain vs ++ [e].
Proof.
  intros He. unfold forwarded_chain. rewrite omap_app. cbn [omap list_omap]. rewrite (clean_visible e He).
  rewrite bind_app, fmap_app, filter_app. f_equal. cbn [mbind list_bind]. rewrite app_nil_r, split_comma_free.
  - cbn. rewrite trim_clean by done. destruct He as [Hne _]. by rewrite decide_True.
  - destruct He as [_ He]. eapply Forall_impl; [exact He|]. cbn. lia.
Qed.
Lemma visible_joined v e : clean e → visible v → visible (v ++ COMMA_SPACE ++ e).
Proof.
  intros He Hv. pose proof (clean_visible e He) as Hc. unfold visible, header_str in *. destruct (forallb _ v) eqn:H1; [|done].
  destruct (forallb _ e) eqn:H2; [|done]. by rewrite !forallb_app, H1, H2.
Qed.
Lemma chain_joined vs v e :
  clean e → visible v → forwarded_chain (vs ++ [v ++ COMMA_SPACE ++ e]) = forwarded_chain (vs ++ [v]) ++ [e].
Proof.
  intros He Hv. unfold forwarded_chain. rewrite !omap_app, !bind_app, !fmap_app, !filter_app, <- app_assoc. f_equal.
  pose proof (visible_joined v e He Hv) as Hve.
  cbn [omap list_omap]. rewrite Hv, Hve. cbn [mbind list_bind]. rewrite !app_nil_r.
  change (COMMA_SPACE ++ e) with (Byte.x2c :: Byte.x20 :: e). rewrite split_comma_app.
  - rewrite fmap_app, filter_app. f_equal. change (trim <$> [Byte.x20 :: e]) with [trim (Byte.x20 :: e)].
    rewrite trim_spaced by done. destruct He as [Hne _]. by rewrite filter_cons_True.
  - destruct He as [_ He]. constructor; [by vm_compute|]. eapply Forall_impl; [exact He|]. cbn. lia.
Qed.
(** The last line is one the relay can decode. *)
Definition visible_end (vs : list (list byte)) : Prop := ∀ v, last vs = Some v → visible v.

Lemma visible_end_forwarded e vs vs' : clean e → visible_end vs → forwarded e vs vs' → visible_end vs'.
Proof.
  intros He Hv Hf. destruct Hf as [us|us w]; intros v; rewrite last_snoc; intros [= <-]; [by apply clean_visible|].
  apply visible_joined; [done|]. apply Hv. by rewrite last_snoc.
Qed.
Lemma chain_forwarded es vs vs' :
  forwarded_by es vs vs' → Forall clean es → visible_end vs → forwarded_chain vs' = forwarded_chain vs ++ es.
Proof.
  induction 1 as [|e es vs vs1 vs2 Hf _ IH]; [by rewrite app_nil_r|]. intros [He Hes]%Forall_cons Hv.
  rewrite IH by (done || by eapply visible_end_forwarded).
  destruct Hf as [vs|vs v]; [rewrite chain_line by done | rewrite chain_joined by (done || apply Hv, last_snoc)]; by rewrite <- app_assoc.
Qed.

(** C28. A client cannot choose the address it is charged to, unless the last line it
    sends is one the relay cannot decode and the first proxy joins its address to that
    line. Whatever header lines it sent, once each of the declared proxies has added
    the address it saw, on a line of its own or to the last line, the source is the
    one the outermost proxy added: neither the client's lines nor the transport peer
    changes it. It is enough that the client's last line is visible ASCII and tabs, or
    that the first proxy opens a line of its own; [undecodable_line_spoofs] is the
    remaining case. With no proxy declared the header is not read at all, and a chain
    shorter than the declared path is refused. *)
Theorem client_source_not_spoofed claimed e es values peer :
  Forall clean (e :: es) → forwarded_by (e :: es) claimed values →
  visible_end claimed ∨ forwarded_by es (claimed ++ [e]) values →
  client_source (Z.of_nat (length (e :: es))) values peer = Ok (Some e)
  ∧ client_source 0 values peer = Ok peer
  ∧ (∀ hops, Z.of_nat (length (forwarded_chain values)) < hops → client_source hops values peer = Err ChainTooShort).
Proof.
  intros Hc Hf Hv. assert (forwarded_chain values = forwarded_chain claimed ++ e :: es) as Hch.
  { destruct Hv as [Hv|Hl]; [by apply (chain_forwarded _ _ _ Hf Hc)|]. apply Forall_cons in Hc as [He Hes].
    rewrite (chain_forwarded _ _ _ Hl Hes), chain_line, <- app_assoc; [done | done |].
    intros v. rewrite last_snoc. intros [= <-]. by apply clean_visible. }
  split_and!; [|done|].
  - unfold client_source. rewrite (proj2 (Z.eqb_neq _ _)) by (cbn; lia).
    rewrite Hch, length_app, (proj2 (Z.ltb_ge _ _)) by lia.
    rewrite Nat2Z.id, lookup_app_r by lia.
    replace (_ - _ - _)%nat with 0%nat by lia. done.
  - intros hops Hh. unfold client_source. rewrite (proj2 (Z.eqb_neq _ _)) by lia. by rewrite (proj2 (Z.ltb_lt _ _)).
Qed.

(** A line the relay cannot decode is skipped whole, the address a proxy joined to it
    included: the source is then the client's own line. *)
Lemma undecodable_line_spoofs :
  let claimed := [ascii_bytes "6.6.6.6"%string; [Byte.xff]] in
  let values := [ascii_bytes "6.6.6.6"%string; [Byte.xff] ++ COMMA_SPACE ++ ascii_bytes "192.0.2.1"%string] in
  forwarded_by [ascii_bytes "192.0.2.1"%string] claimed values
  ∧ client_source 1 values None = Ok (Some (ascii_bytes "6.6.6.6"%string)).
Proof.
  split; [|by vm_compute]. eapply forwarded_then; [|apply forwarded_none].
  apply (forwarded_joined _ [ascii_bytes "6.6.6.6"%string] [Byte.xff]).
Qed.

(** ** The operator's authority *)
Lemma operator_authorized_spec expected authorization :
  operator_authorized expected authorization = true
  ↔ authorization = Some (BEARER ++ expected) ∧ visible (BEARER ++ expected).
Proof.
  unfold operator_authorized, visible. destruct authorization as [v|]; cbn [mbind option_bind]; [|naive_solver].
  assert (header_str v = Some v ∨ header_str v = None) as [Hv|Hv] by (unfold header_str; destruct (forallb _ v); auto).
  - rewrite Hv. cbn [mbind option_bind]. destruct (strip_prefix BEARER v) as [offered|] eqn:Hs.
    + apply strip_prefix_spec in Hs as ->. rewrite andb_true_iff, Nat.eqb_eq. unfold constant_time_eq. rewrite Z.eqb_eq. split.
      * intros [Hl Hd]. apply difference_zero in Hd as [_ ->]; done.
      * intros [[= Heq] _]. rewrite Heq. split; [done|]. by apply difference_zero.
    + split; [done|]. intros [Heq _]. exfalso. apply (inj Some) in Heq.
      apply (strip_prefix_spec BEARER v expected) in Heq. congruence.
  - rewrite Hv. cbn [mbind option_bind]. split; [done|]. intros [Heq Hx]. apply (inj Some) in Heq. rewrite <- Heq in Hx. congruence.
Qed.

(** What an authorised request does to the database, and what it answers. *)
Definition operator_effect {St} `{!BlobStore St} (c : RelayConfig) (e : PassEnv) (request : OperatorRequest)
    (answer : OperatorAnswer) (before after : Collected St) : Prop :=
  let failed := answer = Unavailable ∧ after = before in
  match request with
  | GetAdmitted | GetVersion | GetMetrics | GetHandoff => after = before
  | PostRestoreMarker body =>
      let asked := default DEFAULT_SUPPRESSED_PASSES (default None body) in
      failed ∨ (asked ≤ 0 ∧ answer = BadRequest ∧ after = before)
      ∨ (0 < asked ∧ answer = MarkerIs asked ∧ after = on_marker before (Some asked))
  | DeleteRestoreMarker => failed ∨ (answer = MarkerIs 0 ∧ after = on_marker before None)
  | PostMediaQuota body =>
      failed ∨ (answer = BadRequest ∧ after = before)
      ∨ ∃ workspace limit quotas,
          body = Some (workspace, limit) ∧ workspace ≠ [] ∧ from_option (λ l, 0 ≤ l) True limit
          ∧ after = on_quotas before (with_quota (rt_media (cl_retention before)) quotas)
          ∧ ∀ w, let old := media_usage (rt_media (cl_retention before)) w in
                 let new := media_usage (rt_media (cl_retention after)) w in
                 q_stored new = q_stored old ∧ q_reserved new = q_reserved old
                 ∧ q_limit new = if decide (w = workspace) then limit else q_limit old
  | PostSweep body =>
      answer = Swept ∧ after = pass_with e c (default true (default None body)) before ∧ only_expired e before after
  end.

Section confined.
Context {St : Type} `{!BlobStore St}.
Implicit Types t : Collected St.

Lemma set_media_quota_effect c e writes reads t body answer t' :
  set_media_quota writes reads t body = (answer, t') → operator_effect c e (PostMediaQuota body) answer t t'.
Proof.
  intros Hh. cbn. destruct body as [[w limit]|]; cbn [set_media_quota] in Hh; [|injection Hh as <- <-; auto].
  case_bool_decide as Hw; [injection Hh as <- <-; auto|].
  destruct (from_option (λ l, l <? 0) false limit) eqn:Hl; [injection Hh as <- <-; auto|].
  destruct writes; cbn [negb] in Hh; [|injection Hh as <- <-; auto].
  injection Hh as Ha <-. right. right. unfold set_quota_limit. cbn [on_quotas with_media rt_media cl_retention].
  eexists w, limit, _. split_and!; [done | done | destruct limit; cbn in *; [lia | done] | done |].
  intros ws. unfold media_usage. cbn [md_quota with_quota on_quotas with_media rt_media cl_retention].
  destruct (decide (ws = w)) as [->|Hne].
  - destruct (md_quota (rt_media (cl_retention t)) !! w) as [q|] eqn:Hq; rewrite lookup_insert_eq; done.
  - destruct (md_quota (rt_media (cl_retention t)) !! w) as [q|] eqn:Hq; rewrite lookup_insert_ne by done; done.
Qed.

Lemma operator_handler_effect c e r writes reads t request :
  ∃ t', snd (operator_handler c e r writes reads (Some t) request) = Some t'
  ∧ operator_effect c e request (fst (operator_handler c e r writes reads (Some t) request)) t t'.
Proof.
  destruct request as [| | |body| |body|body|]; cbn [operator_handler]; try (by exists t).
  - unfold set_restore_marker. cbv zeta. cbn [operator_effect].
    set (asked := default DEFAULT_SUPPRESSED_PASSES (default None body)).
    destruct (Z.leb_spec asked 0); [exists t; split; [done|]; auto|].
    destruct writes; cbn; eexists; (split; [done|]); [|auto]. right. right.
    rewrite Z.max_l by lia. unfold marker_set. by rewrite Z.max_l by lia.
  - destruct writes; cbn; eexists; (split; [done|]); auto.
  - destruct (set_media_quota writes reads t body) as [a t'] eqn:Hq. exists t'. split; [done|].
    by eapply set_media_quota_effect.
  - eexists. split; [done|]. split_and!; [done | done | apply pass_with_only_expired].
Qed.
End confined.


(** ** Readiness *)

(** What [/readyz] says, and to whom. The code is 200 exactly when both
    dependencies answered and the relay takes durable writes (frozen groups do not
    count), except that a credential this relay does not accept is answered 401; the
    full document is given only for exactly the configured bearer, and everybody
    else learns the verdict alone. *)
Theorem readyz_discloses token authorization mode database storage frozen :
  let r := readiness mode database storage frozen in
  let out := readyz token authorization r in
  (rd_ready r = true ↔ database = Some true ∧ storage = Some true ∧ mode = Full)
  ∧ (out.1 = 200 → rd_ready r = true) ∧ (out.1 = 503 → rd_ready r = false)
  ∧ (out.1 = 401 ↔ ∃ expected offered, token = Some expected ∧ authorization = Some offered ∧ offered ≠ BEARER ++ expected ∨
       token = Some expected ∧ authorization = Some offered ∧ ¬ visible offered)
  ∧ (∀ document, out.2 = ReadyDocument document →
       document = r ∧ ∃ expected, token = Some expected ∧ authorization = Some (BEARER ++ expected))
  ∧ (authorization = None → out = (if rd_ready r then 200 else 503, ReadyVerdict (rd_ready r))).
Proof.
  cbv zeta. set (r := readiness mode database storage frozen).
  assert (rd_ready r = true ↔ database = Some true ∧ storage = Some true ∧ mode = Full) as Hready.
  { unfold r, readiness, dependency_ok. cbn. destruct database as [[]|], storage as [[]|], mode; cbn; naive_solver. }
  unfold readyz. destruct token as [expected|]; cbn [is_set from_option andb].
  2: { destruct authorization; cbn [is_set andb]; destruct (rd_ready r); split_and!; naive_solver. }
  destruct (operator_authorized expected authorization) eqn:Ha; cbn [negb andb].
  - apply operator_authorized_spec in Ha as [-> Hv]. destruct (rd_ready r) eqn:Hrr; split_and!; try done; naive_solver.
  - assert (¬ (authorization = Some (BEARER ++ expected) ∧ visible (BEARER ++ expected))) as Hno.
    { rewrite <- operator_authorized_spec. by rewrite Ha. }
    destruct authorization as [offered|]; cbn [is_set andb].
    + split_and!; try done. split; [|done]. intros _. exists expected, offered.
      destruct (decide (offered = BEARER ++ expected)) as [->|Hne]; [right | left]; split_and!; try done.
      intros Hv. by apply Hno.
    + destruct (rd_ready r) eqn:Hrr; split_and!; try done; naive_solver.
Qed.

(** ** What retention warns of *)

Lemma min_below (l : list Z) x : x ∈ l → foldr Z.min I64_MAX l ≤ x.
Proof. induction l as [|y l IH]; [by intros ?%not_elem_of_nil|]. cbn. intros [->|Hx]%elem_of_cons; [lia|]. specialize (IH Hx). lia. Qed.
Lemma distinct_count {A} `{EqDecision A} (l : list A) : (length (remove_dups l) ≤ length l)%nat ∧ (l ≠ [] → 1 ≤ length (remove_dups l))%nat.
Proof.
  split.
  - apply submseteq_length, NoDup_submseteq; [apply NoDup_remove_dups|]. intros x. by rewrite elem_of_remove_dups.
  - destruct l as [|x l]; [done|]. intros _. destruct (remove_dups (x :: l)) as [|y k] eqn:Hd; [|cbn; lia].
    assert (x ∈ remove_dups (x :: l)) as Hx by (apply elem_of_remove_dups; by left). rewrite Hd in Hx. by apply not_elem_of_nil in Hx.
Qed.

(** The retention warning counts what is past the window and deletes nothing.
    With no window, no answer or nothing late it says nothing; otherwise it counts
    exactly the envelopes received before the window's start, in at least one
    workspace and no more than there are envelopes, and the oldest is at least the
    window's days old. A clock younger than the window calls nothing late. *)
Theorem overdue_counts rows retention now :
  0 ≤ now ≤ I64_MAX → Forall (λ r : list byte * Z, 0 ≤ r.2 ≤ I64_MAX) rows →
  match retention with
  | Unlimited => overdue (Some rows) retention now = no_overdue
  | Of days =>
      0 ≤ days →
      let late := filter (λ r : list byte * Z, r.2 < now - days * MS_PER_DAY) rows in
      od_envelopes (overdue (Some rows) retention now) = Z.of_nat (length late)
      ∧ (late = [] → overdue (Some rows) retention now = no_overdue)
      ∧ (late ≠ [] → days ≤ od_oldest_days (overdue (Some rows) retention now)
           ∧ 1 ≤ od_workspaces (overdue (Some rows) retention now) ≤ Z.of_nat (length late))
  end.
Proof.
  intros Hnow Hrows. destruct retention as [|days]; [done|]. intros Hd late.
  assert (∃ cutoff, cutoff_ms (Of days) now = Some cutoff
    ∧ filter (λ r : list byte * Z, r.2 < as_i64 cutoff) rows = late) as (cutoff & Hc & Hlate).
  { eexists. split; [done|]. apply filter_ext_on. apply Forall_forall. intros r Hr. rewrite Forall_forall in Hrows.
    specialize (Hrows r Hr). unfold as_i64, MS_PER_DAY in *. unfold_ints. destruct (_ <=? _) eqn:Hle; lia. }
  unfold overdue. rewrite Hc, Hlate. destruct late as [|r late'] eqn:Hl; [by split_and!|]. rewrite <- Hl in *. 
  destruct (Nat.eqb_spec (length late) 0) as [H0|_]; [rewrite Hl in H0; done|]. cbn [od_envelopes od_oldest_days od_workspaces].
  split_and!; [done | by rewrite Hl |]. intros _. split.
  - assert (r ∈ late) as Hr by (rewrite Hl; by left). unfold late in Hr. pose proof Hr as Hr'. apply list_elem_of_filter in Hr as [Hlt Hin].
    rewrite Forall_forall in Hrows. specialize (Hrows r Hin).
    assert (foldr Z.min I64_MAX (snd <$> late) ≤ r.2) as Hm by (apply min_below, list_elem_of_fmap; by exists r).
    unfold MS_PER_DAY in *. apply Z.div_le_lower_bound; [lia|]. unfold u64_saturating_sub. lia.
  - pose proof (distinct_count (fst <$> late)) as [Hle Hge]. rewrite length_fmap in Hle.
    assert ((fst <$> late) ≠ []) as Hne by by rewrite Hl. specialize (Hge Hne). lia.
Qed.

(** ** Concrete connections *)
Module HealthDemo.
Definition here : list byte := ascii_bytes "192.0.2.1"%string.
Definition one_open : Door :=
  mkDoor (admit_connection (Some 4) no_slots here).2 {[ 0%nat := (here, true) ]}.
Lemma one_open_reachable : rtc (door_step (Some 4)) (mkDoor no_slots ∅) one_open.
Proof. apply rtc_once. by apply (door_opened (Some 4) (mkDoor no_slots ∅) 0 here). Qed.

(** A ceiling of four leaves a source one socket before it authenticates. *)
Lemma connection_slots_exact_witness :
  socket_count (dr_sockets one_open) ≤ 4 ∧ (admit_connection (Some 4) (dr_slots one_open) here).1 = false.
Proof.
  destruct (connection_slots_exact 4 one_open ltac:(lia) one_open_reachable) as (_ & Hle & _ & Had & _).
  split; [exact Hle|]. apply Had. right. by vm_compute.
Defined.

Lemma client_source_not_spoofed_witness :
  client_source 1 [ascii_bytes "6.6.6.6"%string ++ COMMA_SPACE ++ here] None = Ok (Some here).
Proof.
  refine (proj1 (client_source_not_spoofed [ascii_bytes "6.6.6.6"%string] here [] _ None _ _ _)).
  - constructor; [|constructor]. split; [discriminate|]. repeat (constructor; [split; [split; by vm_compute | by vm_compute]|]). constructor.
  - eapply forwarded_then; [|apply forwarded_none]. apply (forwarded_joined here [] (ascii_bytes "6.6.6.6"%string)).
  - left. intros v [= <-]. by vm_compute.
Defined.

Lemma overdue_counts_witness :
  od_envelopes (overdue (Some [([Byte.x01], 5); ([Byte.x01], 3 * MS_PER_DAY)]) (Of 1) (3 * MS_PER_DAY)) = 1.
Proof.
  exact (proj1 (overdue_counts [([Byte.x01], 5); ([Byte.x01], 3 * MS_PER_DAY)] (Of 1) (3 * MS_PER_DAY)
    ltac:(by vm_compute) ltac:(repeat constructor; by vm_compute) ltac:(lia))).
Defined.
End HealthDemo.
