(* ===== verification/Scrub.v ===== *)
(** * Scrubbing the logs

    Models [backend/wealdrelay/src/logging.rs]: the four passes that remove what
    looks like a credential from a line, the replacement of ranges they share, the
    writer every line goes through and the rule for group ids. A line is its UTF-8
    bytes. The passes look for ASCII characters only, and no byte of a longer
    character is one, so walking bytes is walking characters. *)

From Stdlib Require Import ZArith Lia String.
From stdpp Require Import base tactics numbers sorting sets list.
From S2P Require Import Prelude Cbor Push InviteRecord MediaWire Config.

Open Scope Z_scope.

Definition REDACTED : list byte := ascii_bytes "[redacted]"%string.
Definition MINIMUM_SECRET_LENGTH : nat := 20.
Definition SENSITIVE_KEYS : list (list byte) := ascii_bytes <$>
  ["password"; "passwd"; "secret"; "token"; "authorization"; "api_key"; "apikey"; "access_key"; "secret_key";
   "session"; "cookie"; "private_key"; "credential"; "handle"; "push_handle"]%string.

(** [matches!(byte, ..)] against the characters of a string. *)
Definition among (s : string) (b : byte) : bool := bool_decide (b ∈ ascii_bytes s).
(** How far a [while] over bytes that satisfy [p] goes. *)
Fixpoint run_length (p : byte → bool) (bs : list byte) : nat :=
  match bs with
  | b :: bs' => if p b then S (run_length p bs') else O
  | [] => O
  end.

Definition COLON : byte := byte_of_Z 58.
Definition SLASH : byte := byte_of_Z 47.
Definition AT : byte := byte_of_Z 64.
Definition DQUOTE : byte := byte_of_Z 34.
Definition QUOTE : byte := byte_of_Z 39.
Definition NEWLINE : byte := byte_of_Z 10.

(** ** URL user information *)
Fixpoint split_at_first (c : byte) (bs : list byte) : option (list byte * list byte) :=
  match bs with
  | [] => None
  | b :: bs' => if bool_decide (b = c) then Some ([], bs')
                else (λ r, (b :: r.1, r.2)) <$> split_at_first c bs'
  end.
Fixpoint split_at_last (c : byte) (bs : list byte) : option (list byte * list byte) :=
  match bs with
  | [] => None
  | b :: bs' => match split_at_last c bs' with
                | Some r => Some (b :: r.1, r.2)
                | None => if bool_decide (b = c) then Some ([], bs') else None
                end
  end.

Definition ends_authority (b : byte) : bool :=
  among "/ ,)"%string b || bool_decide (b = DQUOTE) || bool_decide (b = QUOTE) || bool_decide (b = NEWLINE).
Definition redact_authority (authority : list byte) : list byte :=
  match split_at_last AT authority with
  | Some (userinfo, host) =>
      let user := from_option fst userinfo (split_at_first COLON userinfo) in
      user ++ COLON :: REDACTED ++ AT :: host
  | None => authority
  end.
(** [pending]: the authority read so far, after a [://]. The character that ends it
    is none of those a new [://] starts with, so it is copied on. *)
Fixpoint userinfo_go (pending : option (list byte)) (bs : list byte) : list byte :=
  match pending, bs with
  | Some authority, [] => redact_authority authority
  | Some authority, b :: bs' =>
      if ends_authority b then redact_authority authority ++ b :: userinfo_go None bs'
      else userinfo_go (Some (authority ++ [b])) bs'
  | None, [] => []
  | None, b :: bs' =>
      match bs' with
      | c :: d :: rest =>
          if bool_decide (b = COLON ∧ c = SLASH ∧ d = SLASH)
          then COLON :: SLASH :: SLASH :: userinfo_go (Some []) rest
          else b :: userinfo_go None bs'
      | _ => b :: userinfo_go None bs'
      end
  end.
Definition scrub_url_userinfo (line : list byte) : list byte := userinfo_go None line.

(** ** Replacing ranges *)
Notation range := (nat * nat)%type.

Definition is_continuation (b : byte) : bool := Z.land (byte_to_Z b) 192 =? 128.
(** [to_boundary(bytes, index, -1)]. A [str] does not start with a continuation
    byte, so the walk never passes zero. *)
Fixpoint boundary_down (line : list byte) (index : nat) : nat :=
  match index with
  | O => O
  | S below => if from_option is_continuation false (line !! index) then boundary_down line below else index
  end.
(** [to_boundary(bytes, index, 1)]. *)
Definition boundary_up (line : list byte) (index : nat) : nat :=
  (index + run_length is_continuation (drop index line))%nat.
Definition widen (line : list byte) (r : range) : range := (boundary_down line r.1, boundary_up line r.2).

Definition range_le (a b : range) : Prop := (a.1 < b.1 ∨ a.1 = b.1 ∧ a.2 ≤ b.2)%nat.
#[global] Instance range_le_dec : RelDecision range_le.
Proof. intros a b. unfold range_le. apply _. Defined.

Fixpoint merge_ranges (last : range) (ranges : list range) : list range :=
  match ranges with
  | [] => [last]
  | r :: ranges' =>
      if (r.1 <=? last.2)%nat then merge_ranges (last.1, Nat.max last.2 r.2) ranges'
      else last :: merge_ranges r ranges'
  end.
Definition merged (ranges : list range) : list range :=
  match ranges with [] => [] | r :: ranges' => merge_ranges r ranges' end.
(** [String::replace_range]. *)
Definition replace_range (r : range) (out : list byte) : list byte := take r.1 out ++ REDACTED ++ drop r.2 out.
(** The last range first. *)
Definition redact_ranges (line : list byte) (ranges : list range) : list byte :=
  match ranges with
  | [] => line
  | _ => foldr replace_range line (merged (merge_sort range_le (widen line <$> ranges)))
  end.

(** ** The passes over ranges *)
(** [while let Some(found) = lowered[from..].find(key)]: the occurrences from the
    left, the search resuming after each; [skip] is what is left of the last one. *)
Fixpoint occurrences (key : list byte) (skip pos : nat) (bs : list byte) : list nat :=
  match bs with
  | [] => []
  | _ :: bs' =>
      match skip with
      | S skip => occurrences key skip (S pos) bs'
      | O => if starts_with key bs then pos :: occurrences key (length key - 1) (S pos) bs'
             else occurrences key O (S pos) bs'
      end
  end.

Definition quote_or_space (b : byte) : bool := among " "%string b || bool_decide (b = DQUOTE) || bool_decide (b = QUOTE).
Definition separator (b : byte) : bool := among "=:"%string b.
Definition ends_value (b : byte) : bool :=
  among " ,}&"%string b || bool_decide (b = DQUOTE) || bool_decide (b = QUOTE) || bool_decide (b = NEWLINE).
(** The characters from [start] to the first that ends them, if there are any. *)
Definition token_range (ends : byte → bool) (line : list byte) (start : nat) : option range :=
  let stop := (start + run_length (λ b, negb (ends b)) (drop start line))%nat in
  if (start <? stop)%nat then Some (start, stop) else None.
(** The value after a key that ends at [cursor]. *)
Definition value_range (line : list byte) (cursor : nat) : option range :=
  let cursor := (cursor + run_length quote_or_space (drop cursor line))%nat in
  if from_option separator false (line !! cursor)
  then token_range ends_value line (S cursor + run_length quote_or_space (drop (S cursor) line))
  else None.
Definition labelled_ranges (line key : list byte) : list range :=
  omap (λ p, value_range line (p + length key)) (occurrences key 0 0 (ascii_lowercase line)).
Definition scrub_labelled_values (line : list byte) : list byte :=
  redact_ranges line (SENSITIVE_KEYS ≫= labelled_ranges line).

Definition BEARER_ : list byte := ascii_bytes "bearer "%string.
Definition ends_bearer (b : byte) : bool :=
  among " ,}"%string b || bool_decide (b = DQUOTE) || bool_decide (b = NEWLINE).
Definition scrub_bearer (line : list byte) : list byte :=
  redact_ranges line
    (omap (λ p, token_range ends_bearer line (p + length BEARER_)) (occurrences BEARER_ 0 0 (ascii_lowercase line))).

Definition is_secret_char (b : byte) : bool :=
  in_range 48 57 b || in_range 65 90 b || in_range 97 122 b || among "+/=-_"%string b.
Definition digit_or_uppercase (b : byte) : bool := in_range 48 57 b || in_range 65 90 b.
Definition is_secret_run (run : list byte) : bool :=
  (MINIMUM_SECRET_LENGTH <=? length run)%nat && existsb digit_or_uppercase run.
(** [run]: the secret characters read since the last other one. *)
Definition close_run (pos : nat) (run : list byte) : list range :=
  if is_secret_run run then [((pos - length run)%nat, pos)] else [].
Fixpoint run_ranges (pos : nat) (run bs : list byte) : list range :=
  match bs with
  | [] => close_run pos run
  | b :: bs' =>
      if is_secret_char b then run_ranges (S pos) (run ++ [b]) bs'
      else close_run pos run ++ run_ranges (S pos) [] bs'
  end.
Definition scrub_long_runs (line : list byte) : list byte := redact_ranges line (run_ranges 0 [] line).

Definition scrub (line : list byte) : list byte :=
  scrub_long_runs (scrub_labelled_values (scrub_bearer (scrub_url_userinfo line))).

(** [ScrubbingSink::write]: what reaches stdout, and the answer. [stdout] is [None]
    when [write_all] went through, and the bytes written before its error otherwise. *)
Definition sink_write (stdout : option nat) (buf : list byte) : list byte * option nat :=
  let scrubbed := scrub (from_utf8_lossy buf) in
  match stdout with
  | None => (scrubbed, Some (length buf))
  | Some wrote => (take wrote scrubbed, None)
  end.

(** ** What may be logged at a level *)
Inductive Level : Type := LvError | LvWarn | LvInfo | LvDebug | LvTrace.
Definition verbosity (l : Level) : nat :=
  match l with LvError => 0 | LvWarn => 1 | LvInfo => 2 | LvDebug => 3 | LvTrace => 4 end%nat.
Inductive Sensitivity : Type := Operational | Correlatable | Content.
Definition permitted_at (s : Sensitivity) (level : Level) : bool :=
  match s with
  | Operational => true
  | Correlatable => (verbosity LvDebug <=? verbosity level)%nat
  | Content => false
  end.
Definition hex_prefix (bytes : list byte) : list byte := hex (take 6 bytes).
Definition group_for_log (group_id : list byte) (level : Level) : option (list byte) :=
  if permitted_at Correlatable level then Some (hex_prefix group_id) else None.

(** ** What replacing ranges keeps *)
Definition bracket_free (run : list byte) : Prop :=
  Forall (λ b, b ≠ byte_of_Z 91 ∧ b ≠ byte_of_Z 93) run.
Definition occurs_in (run text : list byte) : Prop := ∃ a b, text = a ++ run ++ b.
(** [run] stands at [i] of [line]. *)
Definition stands_at (line run : list byte) (i : nat) : Prop := take (length run) (drop i line) = run.
Definition apart (i n : nat) (r : range) : Prop := (i + n ≤ r.1 ∨ r.2 ≤ i)%nat.

Fixpoint pieces (line : list byte) (pos : nat) (ranges : list range) : list byte :=
  match ranges with
  | [] => drop pos line
  | r :: ranges' => take (r.1 - pos) (drop pos line) ++ REDACTED ++ pieces line r.2 ranges'
  end.
Fixpoint separated (line : list byte) (pos : nat) (ranges : list range) : Prop :=
  match ranges with
  | [] => True
  | r :: ranges' => (pos ≤ r.1 ≤ r.2 ∧ r.2 ≤ length line)%nat ∧ separated line r.2 ranges'
  end.

Lemma replace_pieces line pos ranges :
  separated line pos ranges → (pos ≤ length line)%nat →
  let out := foldr replace_range line ranges in
  drop pos out = pieces line pos ranges ∧ take pos out = take pos line ∧ (pos ≤ length out)%nat.
Proof.
  revert pos. induction ranges as [|r ranges IH]; intros pos Hs Hp; cbn [separated pieces foldr] in *; [done|]. cbv zeta.
  destruct Hs as [Hr Hs]. destruct (IH r.2 Hs) as (Hd & Ht & Hl); [lia|]. cbv zeta in *.
  set (out := foldr replace_range line ranges) in *. unfold replace_range. rewrite Hd.
  assert (take r.1 out = take r.1 line) as ->.
  { rewrite <- (Nat.min_l r.1 r.2) by lia. rewrite <- !take_take. by rewrite Ht. }
  assert (length (take r.1 line) = r.1) as Hlen by (rewrite length_take; lia).
  split_and!.
  - rewrite drop_app_le by lia. f_equal. by rewrite skipn_firstn_comm.
  - rewrite take_app_le by lia. rewrite take_take. f_equal. lia.
  - rewrite length_app. lia.
Qed.

(** A string without [c] does not straddle it. *)
Lemma beside_char (c : byte) a b pre run post :
  c ∉ run → a ++ c :: b = pre ++ run ++ post →
  (∃ z, a = pre ++ run ++ z) ∨ (∃ z, pre = a ++ c :: z ∧ b = z ++ run ++ post).
Proof.
  intros Hc Heq. destruct (decide (length pre ≤ length a)%nat) as [Hle|Hgt].
  - left. apply app_eq_inv in Heq as [(k & -> & Hk)|(k & -> & Hk)].
    + apply app_eq_inv in Hk as [(k2 & -> & Hk)|(k2 & -> & Hk)]; [|eauto].
      destruct k2; [exists []; by rewrite !app_nil_r|]. injection Hk as <- ->. set_solver.
    + rewrite length_app in Hle. destruct k; [|cbn in Hle; lia]. rewrite app_nil_r. cbn in Hk.
      destruct run; [exists []; by rewrite app_nil_r|]. injection Hk as <- ->. set_solver.
  - right. apply app_eq_inv in Heq as [(k & -> & Hk)|(k & -> & Hk)]; [rewrite length_app in Hgt; lia|].
    destruct k; [rewrite app_nil_r in Hgt; lia|]. injection Hk as <- ->. eauto.
Qed.

Lemma kept_stands line pos ranges pre run post :
  separated line pos ranges → (pos ≤ length line)%nat →
  pieces line pos ranges = pre ++ run ++ post → bracket_free run → ¬ occurs_in run (ascii_bytes "redacted"%string) →
  ∃ i, (pos ≤ i)%nat ∧ stands_at line run i ∧ Forall (apart i (length run)) ranges.
Proof.
  intros Hs Hp Heq Hb Hr. revert pos pre Hs Hp Heq. induction ranges as [|r ranges IH]; intros pos pre Hs Hp Heq; cbn [separated pieces] in *.
  - exists (pos + length pre)%nat. split_and!; [lia | | done].
    unfold stands_at. rewrite <- drop_drop, Heq, drop_app_length, take_app_length. done.
  - destruct Hs as [Hr1 Hs]. change REDACTED with (byte_of_Z 91 :: ascii_bytes "redacted"%string ++ [byte_of_Z 93]) in Heq.
    rewrite <- app_comm_cons, <- app_assoc in Heq.
    assert (byte_of_Z 91 ∉ run ∧ byte_of_Z 93 ∉ run) as [H91 H93].
    { unfold bracket_free in Hb. rewrite Forall_forall in Hb. split; intros Hin%Hb; naive_solver. }
    apply beside_char in Heq as [[z Hz]|(z & -> & Heq)]; [|clear H91|done].
    + exists (pos + length pre)%nat. assert (length (pre ++ run ++ z) ≤ r.1 - pos)%nat as Hlen.
      { rewrite <- Hz, length_take. lia. } rewrite !length_app in Hlen.
      split_and!; [lia | |].
      * unfold stands_at. rewrite <- drop_drop. rewrite <- (take_drop (r.1 - pos) (drop pos line)), Hz, <- !app_assoc.
        by rewrite drop_app_length, take_app_length.
      * apply Forall_cons. split; [left; lia|]. clear IH. assert (pos + length pre + length run ≤ r.2)%nat as Hin by lia.
        clear -Hs Hin. revert r Hs Hin. induction ranges as [|q ranges IH]; intros r Hs Hin; [done|].
        destruct Hs as [Hq Hs]. apply Forall_cons. split; [left; cbn; lia|]. apply (IH q); [done|lia].
    + cbn [app] in Heq. apply beside_char in Heq as [[w Hw]|(w & -> & Heq)]; [|clear H93|done].
      * destruct Hr. by exists z, w.
      * destruct (IH r.2 w Hs ltac:(lia) Heq) as (i & Hi & Hst & Hap). exists i. split_and!; [lia | done |].
        apply Forall_cons. split; [right; lia | done].
Qed.

Lemma boundary_down_le line i : (boundary_down line i ≤ i)%nat.
Proof. induction i as [|i IH]; cbn; [done|]. destruct (from_option _ _ _); lia. Qed.
Lemma run_length_le p bs : (run_length p bs ≤ length bs)%nat.
Proof. induction bs as [|b bs IH]; cbn; [done|]. destruct (p b); lia. Qed.
Lemma boundary_up_le line i : (i ≤ length line)%nat → (i ≤ boundary_up line i ≤ length line)%nat.
Proof.
  intros Hi. unfold boundary_up. pose proof (run_length_le is_continuation (drop i line)) as Hr. rewrite length_drop in Hr.
  lia.
Qed.

Definition in_line (line : list byte) (r : range) : Prop := (r.1 ≤ r.2 ≤ length line)%nat.
Definition covers (q r : range) : Prop := (q.1 ≤ r.1 ∧ r.2 ≤ q.2)%nat.
Definition starts_le (a b : range) : Prop := (a.1 ≤ b.1)%nat.

Lemma merge_spec line pos last ranges :
  StronglySorted starts_le (last :: ranges) → Forall (in_line line) (last :: ranges) → (pos ≤ last.1)%nat →
  separated line pos (merge_ranges last ranges)
  ∧ Forall (λ r, Exists (λ q, covers q r) (merge_ranges last ranges)) (last :: ranges).
Proof.
  revert pos last. induction ranges as [|x ranges IH]; intros pos last Hs Hf Hp; cbn [merge_ranges].
  - apply Forall_cons in Hf as [Hf _]. unfold in_line in Hf. cbn [separated]. split; [split; [lia | done]|].
    apply Forall_singleton, Exists_cons. left. unfold covers. lia.
  - apply StronglySorted_inv in Hs as [Hs Hl]. pose proof Hs as [Hs' Hx]%StronglySorted_inv.
    apply Forall_cons in Hf as [Hlast Hf]. pose proof Hf as [Hxl Hf']%Forall_cons. unfold in_line in Hlast, Hxl.
    pose proof Hl as [Hlx Hl']%Forall_cons. unfold starts_le in Hlx.
    destruct (Nat.leb_spec x.1 last.2) as [Hle|Hgt].
    + destruct (IH pos (last.1, Nat.max last.2 x.2)) as [Hsep Hcov]; cbn [fst].
      * constructor; [done | exact Hl'].
      * apply Forall_cons. split; [unfold in_line; cbn; lia | done].
      * lia.
      * split; [done|]. apply Forall_cons in Hcov as [Hc Hcov].
        apply Forall_cons. split; [|apply Forall_cons; split; [|done]];
          (eapply Exists_impl; [exact Hc|]; unfold covers; cbn; lia).
    + destruct (IH (S last.2) x Hs Hf ltac:(lia)) as [Hsep Hcov]. split.
      * cbn [separated]. split; [lia|]. destruct (merge_ranges x ranges); [done|]. cbn [separated] in *. split; [lia | apply Hsep].
      * apply Forall_cons. split; [apply Exists_cons; left; unfold covers; lia|].
        eapply Forall_impl; [exact Hcov|]. intros r Hr. apply Exists_cons. by right.
Qed.

#[global] Instance range_le_total : Total range_le.
Proof. intros a b. unfold range_le. lia. Qed.
#[global] Instance range_le_trans : Transitive range_le.
Proof. intros a b c. unfold range_le. lia. Qed.

Lemma merged_spec line ranges :
  Forall (in_line line) ranges →
  let m := merged (merge_sort range_le (widen line <$> ranges)) in
  separated line 0 m ∧ Forall (λ r, Exists (λ q, covers q r) m) ranges.
Proof.
  intros Hf m. unfold m.
  assert (Forall (in_line line) (widen line <$> ranges)) as Hw.
  { apply Forall_fmap. eapply Forall_impl; [exact Hf|]. intros r Hr. unfold in_line, widen in *. cbn.
    pose proof (boundary_down_le line r.1). pose proof (boundary_up_le line r.2). lia. }
  rewrite <- (merge_sort_Permutation range_le) in Hw.
  assert (StronglySorted starts_le (merge_sort range_le (widen line <$> ranges))) as Hs.
  { generalize (StronglySorted_merge_sort range_le (widen line <$> ranges)). generalize (merge_sort range_le (widen line <$> ranges)).
    induction l as [|a l IH]; [constructor|]. intros [Hl Ha]%StronglySorted_inv. constructor; [by apply IH|].
    eapply Forall_impl; [exact Ha|]. unfold range_le, starts_le. lia. }
  assert (∀ r, r ∈ ranges → widen line r ∈ merge_sort range_le (widen line <$> ranges)) as Hin.
  { intros r Hr. rewrite (merge_sort_Permutation range_le). by apply list_elem_of_fmap_2. }
  destruct (merge_sort _ _) as [|q qs] eqn:Hq; cbn [merged].
  { split; [done|]. apply Forall_forall. intros r Hr%Hin. set_solver. }
  destruct (merge_spec line 0 q qs Hs Hw ltac:(lia)) as [Hsep Hcov]. split; [done|].
  apply Forall_forall. intros r Hr. rewrite Forall_forall in Hcov, Hf. specialize (Hcov _ (Hin r Hr)).
  eapply Exists_impl; [exact Hcov|]. intros z. unfold covers, widen. cbn.
  pose proof (boundary_down_le line r.1). pose proof (boundary_up_le line r.2). specialize (Hf r Hr). unfold in_line in Hf. lia.
Qed.

(** What a pass leaves of the line it left in its place, outside every range it
    was given; the rest of its output is the replacement. *)
Lemma redact_keeps line ranges pre run post :
  Forall (in_line line) ranges → redact_ranges line ranges = pre ++ run ++ post →
  bracket_free run → ¬ occurs_in run (ascii_bytes "redacted"%string) →
  ∃ i, stands_at line run i ∧ Forall (apart i (length run)) ranges.
Proof.
  intros Hf Heq Hb Hr. unfold redact_ranges in Heq. destruct ranges as [|r0 rs] eqn:Hrs.
  { exists (length pre). split; [|done]. unfold stands_at. by rewrite Heq, drop_app_length, take_app_length. }
  rewrite <- Hrs in *. clear Hrs r0 rs. destruct (merged_spec line ranges Hf) as [Hsep Hcov].
  destruct (replace_pieces line 0 _ Hsep ltac:(lia)) as (Hd & _ & _). rewrite drop_0, Heq in Hd. symmetry in Hd.
  destruct (kept_stands line 0 _ pre run post Hsep ltac:(lia) Hd Hb Hr) as (i & _ & Hst & Hap).
  exists i. split; [done|]. rewrite Forall_forall in Hap, Hcov |- *. intros r Hin%Hcov.
  apply Exists_exists in Hin as (q & Hq%Hap & Hc). unfold apart, covers in *. lia.
Qed.

(** ** Long runs *)
Lemma close_run_bound pos run r : (length run ≤ pos)%nat → r ∈ close_run pos run → (r.1 ≤ r.2 ≤ pos)%nat.
Proof. unfold close_run. destruct (is_secret_run run); [|set_solver]. intros ? ->%list_elem_of_singleton. cbn. lia. Qed.
Lemma run_ranges_in_line pos run bs :
  (length run ≤ pos)%nat → Forall (λ r, r.1 ≤ r.2 ≤ pos + length bs)%nat (run_ranges pos run bs).
Proof.
  revert pos run. induction bs as [|b bs IH]; intros pos run Hl; cbn [run_ranges].
  - apply Forall_forall. intros r Hr%close_run_bound; [cbn; lia | done].
  - destruct (is_secret_char b).
    + eapply Forall_impl; [apply IH; rewrite length_app; cbn; lia|]. cbn. lia.
    + apply Forall_app. split.
      * apply Forall_forall. intros r Hr%close_run_bound; [cbn; lia | done].
      * eapply Forall_impl; [apply IH; cbn; lia|]. cbn. lia.
Qed.

Lemma secret_run_grows a run b : is_secret_run run = true → is_secret_run (a ++ run ++ b) = true.
Proof.
  unfold is_secret_run. rewrite !andb_true_iff, !Nat.leb_le, !length_app, !existsb_app, !orb_true_iff. intros [? ?]. split; [lia | auto].
Qed.

(** Every such run of the line is inside a range of its own. *)
Lemma run_covered pos acc bs pre run post :
  (length acc ≤ pos)%nat → acc ++ bs = pre ++ run ++ post → Forall (λ b, is_secret_char b = true) run →
  is_secret_run run = true →
  Exists (λ r, covers r (pos - length acc + length pre, pos - length acc + length pre + length run)%nat)
    (run_ranges pos acc bs).
Proof.
  intros Hl Heq Hs Hr. revert pos acc pre Hl Heq. induction bs as [|b bs IH]; intros pos acc pre Hl Heq; cbn [run_ranges].
  - rewrite app_nil_r in Heq. subst acc. unfold close_run. rewrite secret_run_grows by done.
    apply Exists_cons. left. unfold covers. cbn. rewrite !length_app in *. lia.
  - destruct (is_secret_char b) eqn:Hb.
    + rewrite cons_middle, app_assoc in Heq. specialize (IH (S pos) (acc ++ [b]) pre).
      rewrite length_app in IH. cbn [length] in IH. replace (S pos - (length acc + 1))%nat with (pos - length acc)%nat in IH by lia.
      apply IH; [lia | done].
    + apply Exists_app. apply beside_char in Heq as [[z ->]|(z & -> & ->)].
      * left. unfold close_run. rewrite secret_run_grows by done. apply Exists_cons. left. unfold covers. cbn.
        rewrite !length_app in *. lia.
      * right. eapply Exists_impl; [apply (IH (S pos) [] z); [cbn; lia | done]|]. unfold covers. cbn.
        rewrite length_app. cbn. lia.
      * intros Hin. rewrite Forall_forall in Hs. specialize (Hs _ Hin). congruence.
Qed.

Lemma stands_split line run i :
  stands_at line run i → run ≠ [] → line = take i line ++ run ++ drop (i + length run) line ∧ length (take i line) = i.
Proof.
  unfold stands_at. intros Hst Hne. split.
  - rewrite <- (take_drop i line) at 1. f_equal. rewrite <- (take_drop (length run) (drop i line)) at 1. by rewrite Hst, drop_drop.
  - apply length_take_le. destruct (decide (i ≤ length line)%nat); [done|]. rewrite drop_ge in Hst by lia.
    rewrite take_nil in Hst. congruence.
Qed.

Lemma secret_bracket_free run : Forall (λ b, is_secret_char b = true) run → bracket_free run.
Proof.
  intros Hs. eapply Forall_impl; [exact Hs|]. intros b Hb. split; intros ->; by vm_compute in Hb.
Qed.
Lemma long_not_redacted run : (8 < length run)%nat → ¬ occurs_in run (ascii_bytes "redacted"%string).
Proof. intros Hl (a & b & Heq%(f_equal length)). rewrite !length_app in Heq. cbn in Heq. lia. Qed.

(** What reaches stdout is the scrubbed line, or the start of it. *)
Lemma sink_write_scrubs stdout buf pre run post :
  (sink_write stdout buf).1 = pre ++ run ++ post → ∃ post', scrub (from_utf8_lossy buf) = pre ++ run ++ post'.
Proof.
  destruct stdout as [wrote|]; cbn [sink_write fst]; intros Hout; [|eauto].
  exists (post ++ drop wrote (scrub (from_utf8_lossy buf))). rewrite <- (take_drop wrote (scrub (from_utf8_lossy buf))) at 1.
  rewrite Hout. by rewrite <- !app_assoc.
Qed.

(** C40. A planted secret does not survive the log writer. Whatever bytes are
    written, and whatever the first three passes made of them, no twenty consecutive
    characters of what reaches stdout are all drawn from the base64, base64url and
    hex alphabets with a digit or an uppercase letter among them, also where stdout
    fails part way; and the writer reports the whole of what it was given as written,
    unless stdout failed. *)
Theorem planted_secret_dropped stdout buf pre run post :
  (sink_write stdout buf).1 = pre ++ run ++ post → Forall (λ b, is_secret_char b = true) run →
  (MINIMUM_SECRET_LENGTH ≤ length run)%nat →
  existsb digit_or_uppercase run = false
  ∧ (sink_write stdout buf).2 = (if is_set stdout then None else Some (length buf)).
Proof.
  intros Hout Hs Hl. split; [|by destruct stdout]. apply not_true_iff_false. intros Hd.
  apply sink_write_scrubs in Hout as [post' Hout]. clear post. rename post' into post. unfold scrub in Hout.
  generalize dependent (scrub_labelled_values (scrub_bearer (scrub_url_userinfo (from_utf8_lossy buf)))). intros line Hout.
  unfold MINIMUM_SECRET_LENGTH in Hl.
  apply redact_keeps in Hout as (i & Hst & Hap).
  - assert (run ≠ []) as Hne by (destruct run; cbn in Hl; [lia | done]).
    destruct (stands_split line run i Hst Hne) as [Hsplit Hi].
    assert (is_secret_run run = true) as Hr by (unfold is_secret_run; apply andb_true_iff; split; [by apply Nat.leb_le | done]).
    pose proof (run_covered 0 [] line _ run _ ltac:(cbn; lia) Hsplit Hs Hr) as (r & Hin & Hc)%Exists_exists.
    rewrite Forall_forall in Hap. specialize (Hap _ Hin). unfold apart, covers in *. cbn in Hc. lia.
  - eapply Forall_impl; [apply (run_ranges_in_line 0 [] line); cbn; lia|]. done.
  - by apply secret_bracket_free.
  - apply long_not_redacted. lia.
Qed.

(** ** Labelled values and bearer tokens *)
Definition unbordered (key : list byte) : bool :=
  forallb (λ n, negb (bool_decide (drop n key = take (length key - n) key))) (seq 1 (length key - 1)).

Lemma starts_with_spec key bs : starts_with key bs = true ↔ take (length key) bs = key.
Proof. apply bool_decide_eq_true. Qed.
Lemma unbordered_apart key bs n :
  unbordered key = true → starts_with key bs = true → (0 < n < length key)%nat → starts_with key (drop n bs) = false.
Proof.
  intros Hu Hs Hn. apply not_true_iff_false. intros Hd. rewrite starts_with_spec in Hs, Hd.
  unfold unbordered in Hu. rewrite forallb_forall in Hu. specialize (Hu n ltac:(apply in_seq; lia)).
  apply negb_true_iff, bool_decide_eq_false in Hu. apply Hu.
  transitivity (take (length key - n) (drop n bs)).
  - rewrite <- Hs at 1. by rewrite skipn_firstn_comm.
  - rewrite <- Hd at 3. rewrite take_take. f_equal. lia.
Qed.

Lemma occurrences_complete key skip pos bs p :
  unbordered key = true → key ≠ [] → (∀ j, (j < skip)%nat → starts_with key (drop j bs) = false) →
  starts_with key (drop p bs) = true → (pos + p)%nat ∈ occurrences key skip pos bs.
Proof.
  intros Hu Hk. revert skip pos p. induction bs as [|b bs IH]; intros skip pos p Hskip Hp.
  { exfalso. rewrite drop_nil, starts_with_spec, take_nil in Hp. congruence. }
  destruct skip as [|skip]; cbn [occurrences].
  - destruct (starts_with key (b :: bs)) eqn:Hb.
    + destruct p as [|p]; [rewrite Nat.add_0_r; left|]. right. rewrite Nat.add_succ_r.
      apply (IH (length key - 1)%nat (S pos) p); [|done]. intros j Hj. apply (unbordered_apart key (b :: bs) (S j)); [done..|lia].
    + destruct p as [|p]; [cbn in Hp; congruence|]. rewrite Nat.add_succ_r. apply (IH O (S pos) p); [lia | done].
  - destruct p as [|p]; [specialize (Hskip O ltac:(lia)); congruence|]. rewrite Nat.add_succ_r.
    apply (IH skip (S pos) p); [|done]. intros j Hj. apply (Hskip (S j)). lia.
Qed.

Lemma token_range_in_line ends line start r : token_range ends line start = Some r → in_line line r.
Proof.
  unfold token_range. pose proof (run_length_le (λ b, negb (ends b)) (drop start line)) as Hr. rewrite length_drop in Hr.
  destruct (Nat.ltb_spec start (start + run_length (λ b, negb (ends b)) (drop start line))) as [Hlt|]; [|done].
  intros [= <-]. unfold in_line. cbn. lia.
Qed.
Lemma value_range_in_line line cursor r : value_range line cursor = Some r → in_line line r.
Proof. unfold value_range. destruct (from_option _ _ _); [|done]. apply token_range_in_line. Qed.

(** Ranges found after the occurrences of a key. *)
Lemma after_key_in_line line key (f : nat → option range) :
  (∀ c r, f c = Some r → in_line line r) →
  Forall (in_line line) (omap (λ p, f (p + length key)%nat) (occurrences key 0 0 (ascii_lowercase line))).
Proof. intros Hf. apply Forall_forall. intros r (p & _ & Hp)%list_elem_of_omap. by eapply Hf. Qed.
Lemma after_key_found line key (f : nat → option range) p r :
  unbordered key = true → key ≠ [] → stands_at (ascii_lowercase line) key p → f (p + length key)%nat = Some r →
  r ∈ omap (λ p, f (p + length key)%nat) (occurrences key 0 0 (ascii_lowercase line)).
Proof.
  intros Hu Hk Hst Hr. apply list_elem_of_omap. exists p. split; [|done].
  apply (occurrences_complete key 0 0 (ascii_lowercase line) p); [done..|lia|]. by apply starts_with_spec.
Qed.

Lemma sensitive_key_ok key : key ∈ SENSITIVE_KEYS → unbordered key = true ∧ key ≠ [].
Proof.
  assert (forallb (λ key, unbordered key && negb (bool_decide (key = []))) SENSITIVE_KEYS = true) as Hall by by vm_compute.
  rewrite forallb_forall in Hall. intros Hk%list_elem_of_In%Hall. apply andb_true_iff in Hk as [Hu Hn].
  by apply negb_true_iff, bool_decide_eq_false in Hn.
Qed.

(** ** URL passwords *)
Lemma split_last_spec c a b : c ∉ b → split_at_last c (a ++ c :: b) = Some (a, b).
Proof.
  intros Hb. assert (split_at_last c b = None) as Hn.
  { induction b as [|x b IH]; [done|]. cbn. rewrite IH by set_solver. case_bool_decide; [set_solver | done]. }
  induction a as [|x a IH]; cbn [app split_at_last]; [|by rewrite IH]. rewrite Hn. by rewrite bool_decide_true.
Qed.
Lemma split_first_spec c a b : c ∉ a → split_at_first c (a ++ c :: b) = Some (a, b).
Proof.
  induction a as [|x a IH]; intros Ha; cbn [app split_at_first]; [by rewrite bool_decide_true|].
  rewrite bool_decide_false by set_solver. by rewrite IH by set_solver.
Qed.
Lemma userinfo_plain pre rest : COLON ∉ pre → userinfo_go None (pre ++ rest) = pre ++ userinfo_go None rest.
Proof.
  induction pre as [|b pre IH]; intros Hc; [done|]. cbn [app]. rewrite <- IH by set_solver. cbn [userinfo_go].
  destruct (pre ++ rest) as [|c [|d l]]; [done..|]. rewrite bool_decide_false; [done|]. set_solver.
Qed.
Lemma userinfo_pending authority mid rest :
  Forall (λ b, ends_authority b = false) mid → userinfo_go (Some authority) (mid ++ rest) = userinfo_go (Some (authority ++ mid)) rest.
Proof.
  revert authority. induction mid as [|b mid IH]; intros authority Hm; [by rewrite app_nil_r|].
  apply Forall_cons in Hm as [Hb Hm]. cbn [app userinfo_go]. rewrite Hb, IH by done. by rewrite <- app_assoc.
Qed.

(** Credentials are dropped by the name they travel under, whatever they look
    like. What the labelled pass and the bearer pass leave of a line, the replacement
    apart, stood in the line outside every value that follows a sensitive key and a
    separator, and outside every token that follows "bearer ", in any case of
    letters; and of a URL's user information the first pass keeps the user, drops
    the password whole, and goes on with the rest of the line. *)
Theorem named_secrets_dropped line :
  (∀ pre run post, scrub_labelled_values line = pre ++ run ++ post →
     bracket_free run → ¬ occurs_in run (ascii_bytes "redacted"%string) →
     ∃ i, stands_at line run i ∧ ∀ key p r, key ∈ SENSITIVE_KEYS → stands_at (ascii_lowercase line) key p →
       value_range line (p + length key) = Some r → apart i (length run) r)
  ∧ (∀ pre run post, scrub_bearer line = pre ++ run ++ post →
     bracket_free run → ¬ occurs_in run (ascii_bytes "redacted"%string) →
     ∃ i, stands_at line run i ∧ ∀ p r, stands_at (ascii_lowercase line) BEARER_ p →
       token_range ends_bearer line (p + length BEARER_) = Some r → apart i (length run) r)
  ∧ (∀ pre user password host rest,
       line = pre ++ [COLON; SLASH; SLASH] ++ user ++ COLON :: password ++ AT :: host ++ rest →
       COLON ∉ pre → COLON ∉ user → AT ∉ host → Forall (λ b, ends_authority b = false) (user ++ password ++ host) →
       (rest = [] ∨ ∃ b rest', rest = b :: rest' ∧ ends_authority b = true) →
       scrub_url_userinfo line
       = pre ++ [COLON; SLASH; SLASH] ++ user ++ COLON :: REDACTED ++ AT :: host ++ scrub_url_userinfo rest).
Proof.
  split_and!.
  - intros pre run post Hout Hb Hr. apply redact_keeps in Hout as (i & Hst & Hap); [|clear Hb Hr|done..].
    + exists i. split; [done|]. intros key p r Hk Hp Hv. rewrite Forall_forall in Hap. apply Hap.
      apply list_elem_of_bind. exists key. split; [|done]. destruct (sensitive_key_ok key Hk).
      by apply (after_key_found line key (value_range line) p r).
    + apply Forall_bind, Forall_true. intros key. apply (after_key_in_line line key (value_range line)), value_range_in_line.
  - intros pre run post Hout Hb Hr. apply redact_keeps in Hout as (i & Hst & Hap); [|clear Hb Hr|done..].
    + exists i. split; [done|]. intros p r Hp Hv. rewrite Forall_forall in Hap. apply Hap.
      by apply (after_key_found line BEARER_ (token_range ends_bearer line) p r).
    + apply (after_key_in_line line BEARER_ (token_range ends_bearer line)), token_range_in_line.
  - intros pre user password host rest -> Hpre Huser Hhost Hends Hrest. apply Forall_app in Hends as [Hu [Hp Hh]%Forall_app].
    unfold scrub_url_userinfo. rewrite userinfo_plain by done. f_equal.
    cbn [app userinfo_go]. rewrite bool_decide_true by done. do 3 f_equal.
    replace (user ++ COLON :: password ++ AT :: host ++ rest) with ((user ++ COLON :: password ++ AT :: host) ++ rest)
      by by rewrite <- app_assoc, <- app_comm_cons, <- app_assoc, <- app_comm_cons.
    rewrite userinfo_pending.
    2: { apply Forall_app. split; [done|]. apply Forall_cons. split; [by vm_compute|]. apply Forall_app. split; [done|].
         apply Forall_cons. split; [by vm_compute | done]. }
    cbn [app]. assert (redact_authority (user ++ COLON :: password ++ AT :: host) = user ++ COLON :: REDACTED ++ AT :: host) as Ha.
    { unfold redact_authority. rewrite app_comm_cons, app_assoc, split_last_spec by done. by rewrite split_first_spec. }
    destruct Hrest as [->|(b & rest' & -> & Hb)]; cbn [userinfo_go]; [by rewrite Ha, app_nil_r|]. rewrite Hb, Ha.
    rewrite <- app_assoc, <- app_comm_cons, <- app_assoc, <- app_comm_cons. do 5 f_equal.
    destruct rest' as [|c [|d l]]; [done..|]. rewrite bool_decide_false; [done|]. intros [-> _]. by vm_compute in Hb.
Qed.

(** ** What is not dropped *)
(** [SENSITIVE_KEYS] is documented as the keys whose value is dropped whatever it
    looks like. A value ends at its first space or comma: the credential after an
    authorization scheme other than bearer stays, and so does a password after its
    first comma. *)
Lemma value_tail_kept :
  scrub (ascii_bytes "Authorization: Basic dTpw"%string) = ascii_bytes "Authorization: [redacted] dTpw"%string
  ∧ scrub (ascii_bytes "password=ab,cd9"%string) = ascii_bytes "password=[redacted],cd9"%string.
Proof. by vm_compute. Qed.

(** ** Group ids *)
(** A group id is logged at debug and trace only, and then as the twelve characters
    of its first six bytes; content is logged at no level. *)
Lemma group_ids_debug_only group level :
  (is_Some (group_for_log group level) ↔ level = LvDebug ∨ level = LvTrace)
  ∧ (∀ text, group_for_log group level = Some text → text = hex (take 6 group) ∧ (length text ≤ 12)%nat)
  ∧ permitted_at Content level = false.
Proof.
  unfold group_for_log. split_and!; [destruct level; cbn; split; naive_solver | | done].
  intros text. destruct (permitted_at Correlatable level); [|done]. intros [= <-]. split; [done|]. unfold hex_prefix.
  assert (∀ l, length (hex l) = 2 * length l)%nat as -> by (induction l as [|b l IH]; [done|]; change (hex (b :: l)) with (hex_digit (byte_to_Z b / 16) :: hex_digit (byte_to_Z b mod 16) :: hex l); cbn [length]; lia).
  rewrite length_take. lia.
Qed.

Module ScrubDemo.
Definition planted : list byte := ascii_bytes "key=AKIAIOSFODNN7EXAMPLE0 for abcdefghijklmnopqrstuvwx"%string.
(** What is left is a long word, which has no digit. *)
Lemma planted_secret_dropped_witness :
  (sink_write None planted).1 = ascii_bytes "[redacted] for "%string ++ ascii_bytes "abcdefghijklmnopqrstuvwx"%string ++ []
  ∧ existsb digit_or_uppercase (ascii_bytes "abcdefghijklmnopqrstuvwx"%string) = false.
Proof.
  assert ((sink_write None planted).1 = ascii_bytes "[redacted] for "%string ++ ascii_bytes "abcdefghijklmnopqrstuvwx"%string ++ []) as Hout
    by by vm_compute.
  split; [exact Hout|]. eapply (planted_secret_dropped None planted _ _ _ Hout).
  - apply Forall_forall. intros b Hb. apply list_elem_of_In in Hb. revert b Hb. apply forallb_forall. by vm_compute.
  - unfold MINIMUM_SECRET_LENGTH. vm_compute. lia.
Defined.
End ScrubDemo.
