(* ===== verification/Archive.v ===== *)
(** * The backup artifact

    Models [backend/wealdrelay/src/backup.rs], and of [restore.rs] the strict reader
    and the load plan: the artifact with its manifest, the collection of tables and
    blobs, the output and the arguments of the command. A table is the text Postgres copies out of it; the tar, gzip and JSON crates are the class
    [ArchiveLib] with its laws [ArchiveLaws], what Postgres computes from a table's
    text is [Postgres], and an object store is [ObjectStore] with its laws
    [ObjectStoreLaws], which the filesystem backend of [Storage] keeps. *)

From Stdlib Require Import ZArith Lia String.
From stdpp Require Import base tactics numbers gmap fin_maps sorting sets list.
From S2P Require Import Prelude Cbor Push Crypto InviteRecord Storage MediaGc Config.

Open Scope Z_scope.

(** ** Members and documents *)
Definition MANIFEST_NAME : list byte := ascii_bytes "manifest.json"%string.
Definition MANIFEST_VERSION : Z := 1.
Definition MIGRATIONS_TABLE : list byte := ascii_bytes "_sqlx_migrations"%string.
(** The ledger [db.rs] keeps. *)
Definition LEDGER : list byte := ascii_bytes "relay_migration"%string.
Definition MARKER : list byte := ascii_bytes "relay_gc_restore_marker"%string.
Definition SUPPRESSED_PASSES : Z := 4.

Record Entry : Type := mkMember { en_name : list byte; en_bytes : list byte }.
#[global] Instance Entry_eq_dec : EqDecision Entry.
Proof. solve_decision. Defined.
Record Provenance : Type := mkProvenance { pv_schema_version : list byte; pv_migrations : list (list byte) }.

(** [serde_json::Value]; an object is its fields by key, as [Map] keeps them. *)
Inductive Json : Type :=
| JNull
| JBool (b : bool)
| JNumber (n : Z)
| JString (s : list byte)
| JArray (l : list Json)
| JObject (fields : list (list byte * Json)).

Fixpoint field_of (key : list byte) (fields : list (list byte * Json)) : option Json :=
  match fields with
  | [] => None
  | (k, v) :: fields' => if bool_decide (k = key) then Some v else field_of key fields'
  end.
(** [Value::get]. *)
Definition json_get (key : string) (v : Json) : option Json :=
  match v with JObject fields => field_of (ascii_bytes key) fields | _ => None end.
Definition as_u64 (v : Json) : option Z :=
  match v with JNumber n => if (0 <=? n) && (n <=? U64_MAX) then Some n else None | _ => None end.
Definition as_str (v : Json) : option (list byte) := match v with JString s => Some s | _ => None end.
Definition as_array (v : Json) : option (list Json) := match v with JArray l => Some l | _ => None end.
Definition u64_field (key : string) (v : Json) : Z := default 0 (json_get key v ≫= as_u64).
Definition str_field (key : string) (v : Json) : list byte := default [] (json_get key v ≫= as_str).
Definition array_field (key : string) (v : Json) : list Json := default [] (json_get key v ≫= as_array).

(** The crates. [untar] answers the members in order, or that the bytes are not a
    whole tarball with readable names. *)
Class ArchiveLib : Type := {
  to_vec_pretty : Json → list byte;
  from_slice : list byte → option Json;
  tar : list Entry → list byte;
  untar : list byte → option (list Entry);
  gzip : list byte → list byte;
  gunzip : list byte → option (list byte)
}.

Definition GZIP_MAGIC : list byte := [Byte.x1f; Byte.x8b].

(** [str::split('/')]. *)
Fixpoint split_path (bs : list byte) : list (list byte) :=
  match bs with
  | [] => [[]]
  | b :: bs' =>
      if bool_decide (b = SLASH) then [] :: split_path bs'
      else match split_path bs' with
           | part :: parts => (b :: part) :: parts
           | [] => [[b]]
           end
  end.
(** A relative path without [.], [..], doubled slashes and NUL: [append_data] keeps
    such a name as it is. *)
Definition name_part_ok (part : list byte) : bool :=
  negb (bool_decide (part = []) || bool_decide (part = [DOT]) || bool_decide (part = [DOT; DOT])).
Definition plain_name (name : list byte) : Prop := Forall (λ part, name_part_ok part = true) (split_path name) ∧ Byte.x00 ∉ name.

Fixpoint ascending (keys : list (list byte)) : bool :=
  match keys with
  | a :: (b :: _) as rest => bytes_ltb a b && ascending rest
  | _ => true
  end.
(** A document as [json!] builds it: every object by key, every number a [u64]. *)
Fixpoint document_ok (v : Json) : bool :=
  match v with
  | JArray l => (fix all l := match l with [] => true | x :: l' => document_ok x && all l' end) l
  | JObject fields =>
      ascending fields.*1
      && (fix all l := match l with [] => true | (_, x) :: l' => document_ok x && all l' end) fields
  | JNumber n => (0 <=? n) && (n <=? U64_MAX)
  | _ => true
  end.

(** What the crates document: a written document reads back, white space after it or
    not; a tarball of regular members with plain names lists them as they were
    appended, and starts with the first one's name when the header has room for it;
    gzip round-trips behind its magic. *)
Class ArchiveLaws `{ArchiveLib} : Prop := {
  json_reads_back document : document_ok document = true → from_slice (to_vec_pretty document ++ [Byte.x0a]) = Some document;
  tar_reads_back members : Forall (λ m, plain_name (en_name m)) members → untar (tar members) = Some members;
  tar_starts_with_name m members b rest :
    en_name m = b :: rest → (length (en_name m) ≤ 100)%nat → tar (m :: members) !! 0%nat = Some b;
  gzip_reads_back bytes : gunzip (gzip bytes) = Some bytes;
  gzip_starts_with_magic bytes : take 2 (gzip bytes) = GZIP_MAGIC
}.

(** ** The artifact *)
Section artifact.
Context `{Blake3, ArchiveLib}.
(** [BuildInfo::current()]. *)
Context (build_name build_version : list byte).

Definition entry_digest (e : Entry) : list byte := hex (blake3 (en_bytes e)).
Definition SIGNATURE_NOTE : list byte := ascii_bytes
  "unsigned: this relay holds no long-lived signing key. Integrity is the per-entry BLAKE3 digests. See src/backup.rs."%string.
Definition member_document (e : Entry) : Json :=
  JObject [(ascii_bytes "blake3"%string, JString (entry_digest e));
           (ascii_bytes "bytes"%string, JNumber (Z.of_nat (length (en_bytes e))));
           (ascii_bytes "name"%string, JString (en_name e))].
Definition manifest_document (entries : list Entry) (p : Provenance) : Json :=
  JObject [(ascii_bytes "entries"%string, JArray (member_document <$> entries));
           (ascii_bytes "hash"%string, JString (ascii_bytes "blake3"%string));
           (ascii_bytes "manifest_version"%string, JNumber MANIFEST_VERSION);
           (ascii_bytes "migrations"%string, JArray (JString <$> pv_migrations p));
           (ascii_bytes "relay"%string, JString build_name);
           (ascii_bytes "relay_version"%string, JString build_version);
           (ascii_bytes "schema_version"%string, JString (pv_schema_version p));
           (ascii_bytes "signature"%string, JNull);
           (ascii_bytes "signature_note"%string, JString SIGNATURE_NOTE)].
Definition manifest (entries : list Entry) (p : Provenance) : list byte :=
  to_vec_pretty (manifest_document entries p) ++ [Byte.x0a].

Definition ends_with (suffix bs : list byte) : bool :=
  bool_decide (drop (length bs - length suffix) bs = suffix).
(** [name]: what [Path::file_name] answers. *)
Definition compressed (name : option (list byte)) : bool :=
  let name := ascii_lowercase (default [] name) in
  ends_with (ascii_bytes ".gz"%string) name || ends_with (ascii_bytes ".tgz"%string) name.
(** What is built, manifest first. *)
Definition archive_bytes (gz : bool) (entries : list Entry) (p : Provenance) : list byte :=
  let bytes := tar (mkMember MANIFEST_NAME (manifest entries p) :: entries) in
  if gz then gzip bytes else bytes.

Inductive BackupError : Type := BackupDatabase | BackupStorage | BackupOutput | BackupUpload.

(** Where [write_archive] can be refused: building the temporary after some of its
    bytes, reading its size, renaming it. *)
Inductive ArchiveFault : Type := FaultBuild (written : nat) | FaultMetadata | FaultRenameArchive.
Definition partial_name (name : list byte) : list byte :=
  [DOT] ++ name ++ ascii_bytes ".partial"%string.
(** [directory]: the files of the target's directory, [None] where there is none;
    [stuck]: the temporary cannot be removed either. *)
Definition write_archive (fault : option ArchiveFault) (stuck : bool) (directory : option (gmap (list byte) (list byte)))
    (name : option (list byte)) (entries : list Entry) (p : Provenance)
    : result BackupError Z * option (gmap (list byte) (list byte)) :=
  match name, directory with
  | None, _ | _, None => (Err BackupOutput, directory)
  | Some name, Some files =>
      let bytes := archive_bytes (compressed (Some name)) entries p in
      let temporary := partial_name name in
      let cleaned (written : list byte) :=
        if stuck then <[temporary := written]> files else delete temporary files in
      match fault with
      | Some (FaultBuild written) => (Err BackupOutput, Some (cleaned (take written bytes)))
      | Some FaultMetadata | Some FaultRenameArchive => (Err BackupOutput, Some (cleaned bytes))
      | None => (Ok (Z.of_nat (length bytes)), Some (<[name := bytes]> (delete temporary files)))
      end
  end.
End artifact.

(** ** Collecting *)
Notation TableTexts := (gmap (list byte) (list byte)).

(** What Postgres answers from the texts of tables. *)
Class Postgres : Type := {
  (** The names in [relay_migration], in order. *)
  ledger_names : list byte → list (list byte);
  (** The workspaces and groups of [relay_group], in order. *)
  group_rows : list byte → list (list byte * list byte);
  (** The largest value of a table's column. *)
  max_id : list byte → list byte → list byte → option Z;
  (** The rows [COPY FROM] loads into a table, if it accepts them. *)
  copies_in : list byte → list byte → option (list byte);
  (** The marker's row, and the statement that sets it. *)
  marker_row : list byte → option Z;
  marker_upsert : Z → list byte → list byte
}.
Class PostgresLaws `{Postgres} : Prop :=
  marker_reads_back passes text : marker_row (marker_upsert passes text) = Some passes.

(** An object store; [obj_at] is what is stored, whether or not a read would answer. *)
Class ObjectStore (St : Type) : Type := {
  obj_at : St → BlobKey → option (list byte);
  obj_list : St → list byte → list byte → result StorageError (list (list byte));
  obj_get : St → BlobKey → result StorageError (list byte);
  obj_put : St → BlobKey → list byte → result StorageError unit * St
}.
Class ObjectStoreLaws (St : Type) `{ObjectStore St} : Prop := {
  obj_list_distinct s workspace group names : obj_list s workspace group = Ok names → NoDup names;
  obj_get_at s key bytes : obj_get s key = Ok bytes → obj_at s key = Some bytes;
  obj_put_at s key bytes s' : obj_put s key bytes = (Ok tt, s') → addressable key → obj_at s' key = Some bytes;
  obj_put_other s key bytes r s' key' :
    obj_put s key bytes = (r, s') → addressable key' → key' ≠ key ∨ is_ok r = false → obj_at s' key' = obj_at s key'
}.

Definition table_char (b : byte) : bool := in_range 48 57 b || in_range 65 90 b || in_range 97 122 b || in_range 95 95 b.
Definition DATABASE_DIR : list byte := ascii_bytes "database/"%string.
Definition BLOBS_DIR : list byte := ascii_bytes "blobs/"%string.
Definition COPY_SUFFIX : list byte := ascii_bytes ".copy"%string.
Definition COPY_ : list byte := ascii_bytes "copy "%string.
Definition TERMINATOR : list byte := [BACKSLASH; DOT; Byte.x0a].

(** [dump_table]: the rows between the statement that loads them and its end. *)
Definition dump_table (table rows : list byte) : result BackupError (list byte) :=
  if forallb table_char table
  then Ok (ascii_bytes "copy public."%string ++ [Byte.x22] ++ table ++ [Byte.x22] ++ ascii_bytes " from stdin;"%string ++ [Byte.x0a]
           ++ rows ++ TERMINATOR)
  else Err BackupDatabase.

(** A [for] over a list whose steps may fail. *)
Fixpoint map_result {E A B} (f : A → result E B) (l : list A) : result E (list B) :=
  match l with
  | [] => Ok []
  | x :: l' => let? y := f x in let? ys := map_result f l' in Ok (y :: ys)
  end.

(** The names of the tables, in order. *)
Definition table_names (tables : TableTexts) : list (list byte) := bytes_sort (map_to_list tables).*1.
(** [dump_tables], in one snapshot; [None]: a statement of it fails. *)
Definition dump_tables (snapshot : option TableTexts) : result BackupError (list Entry) :=
  match snapshot with
  | None => Err BackupDatabase
  | Some tables =>
      map_result (λ table,
        let? dump := dump_table table (default [] (tables !! table)) in
        Ok (mkMember (DATABASE_DIR ++ table ++ COPY_SUFFIX) dump)) (table_names tables)
  end.

Section collecting.
Context `{Postgres} {St : Type} `{ObjectStore St}.

Definition applied_migrations (tables : TableTexts) : list (list byte) := from_option ledger_names [] (tables !! LEDGER).
Definition blob_groups (tables : TableTexts) : list (list byte * list byte) :=
  (λ r, (r.1, hex r.2)) <$> from_option group_rows [] (tables !! ascii_bytes "relay_group"%string).
Definition provenance_of (migrations : list (list byte)) : Provenance :=
  mkProvenance (default (ascii_bytes "none"%string) (last migrations)) migrations.

(** The blobs of one group, a stray name skipped. *)
Definition collect_blob (store : St) (at_ : list byte * list byte) (name : list byte) : result BackupError (list Entry) :=
  match blob_key_new at_.1 at_.2 name with
  | Err _ => Ok []
  | Ok key => let? bytes := map_err (λ _, BackupStorage) (obj_get store key) in
              Ok [mkMember (BLOBS_DIR ++ blob_path key) bytes]
  end.
Definition collect_group (store : St) (at_ : list byte * list byte) : result BackupError (list Entry) :=
  let? names := map_err (λ _, BackupStorage) (obj_list store at_.1 at_.2) in
  let? found := map_result (collect_blob store at_) names in
  Ok (mjoin found).
(** [ledger], [snapshot], [groups]: the database at the three reads, which are three
    snapshots; [None] where the read fails. *)
Definition collect (ledger snapshot groups : option TableTexts) (store : option St) : result BackupError (list Entry * Provenance) :=
  match ledger with
  | None => Err BackupDatabase
  | Some ledger =>
      let p := provenance_of (applied_migrations ledger) in
      let? entries := dump_tables snapshot in
      match store with
      | None => Ok (entries, p)
      | Some store =>
          match groups with
          | None => Err BackupDatabase
          | Some groups =>
              let? blobs := map_result (collect_group store) (blob_groups groups) in
              Ok (entries ++ mjoin blobs, p)
          end
      end
  end.
End collecting.

(** ** Destinations *)
Inductive Destination : Type :=
| DestLocal (path : list byte)
| DestS3 (bucket key : list byte).

(** What a command line is refused for. *)
Inductive ArgError : Type :=
| NeedsPath (flag : list byte)
| NoBucket (value : list byte)
| NoObjectKey (value : list byte)
| GivenTwice (flag : list byte)
| UnknownArgument (arg : list byte)
| RequiredFlag (flag : list byte).

Definition S3_SCHEME : list byte := ascii_bytes "s3://"%string.
(** [str::split_once('/')], the whole text where there is none. *)
Fixpoint split_slash (bs : list byte) : list byte * list byte :=
  match bs with
  | [] => ([], [])
  | b :: bs' => if bool_decide (b = SLASH) then ([], bs') else (b :: (split_slash bs').1, (split_slash bs').2)
  end.
Definition FLAG_OUT : list byte := ascii_bytes "--out"%string.
Definition FLAG_FROM : list byte := ascii_bytes "--from"%string.
Definition FLAG_RECEIPT : list byte := ascii_bytes "--receipt"%string.
Definition FLAG_DATABASE_ONLY : list byte := ascii_bytes "--database-only"%string.
Definition destination_parse (value : list byte) : result ArgError Destination :=
  if bool_decide (value = []) then Err (NeedsPath FLAG_OUT)
  else if negb (starts_with S3_SCHEME (ascii_lowercase value)) then Ok (DestLocal value)
  else
    let rest := drop (length S3_SCHEME) value in
    let '(bucket, key) := split_slash rest in
    if bool_decide (bucket = []) then Err (NoBucket value)
    else if bool_decide (key = []) then Err (NoObjectKey value)
    else Ok (DestS3 bucket key).
Definition describe (d : Destination) : list byte :=
  match d with
  | DestLocal path => path
  | DestS3 bucket key => S3_SCHEME ++ bucket ++ [SLASH] ++ key
  end.

(** The components of a path that are neither empty nor [.]. *)
Definition path_components (path : list byte) : list (list byte) :=
  filter (λ part, part ≠ [] ∧ part ≠ [DOT]) (split_path path).
(** [Path::file_name]. *)
Definition path_file_name (path : list byte) : option (list byte) :=
  match last (path_components path) with
  | Some part => if bool_decide (part = [DOT; DOT]) then None else Some part
  | None => None
  end.
(** [Path::parent] answers one: the path is not a root. *)
Definition has_parent (path : list byte) : bool :=
  negb (bool_decide (path_components path = []) && bool_decide (path !! 0%nat = Some SLASH)).

Definition BACKUP_NAME : list byte := ascii_bytes "backup"%string.
Definition artifact_name (d : Destination) : list byte :=
  let whole := match d with
               | DestLocal path => default BACKUP_NAME (path_file_name path)
               | DestS3 _ key => default BACKUP_NAME (last (split_path key))
               end in
  if bool_decide (whole = []) then BACKUP_NAME else whole.

(** ** The backup command *)
Record BackupRequest : Type := mkBackupRequest { bk_out : Destination; bk_database_only : bool }.

Section backup.
Context `{Blake3, ArchiveLib, Postgres} {St : Type} `{ObjectStore St}.
Context (build_name build_version : list byte).

(** The bucket, by bucket and key. *)
Notation Buckets := (gmap (list byte * list byte) (list byte)).

(** [upload_archive]: staged in a scratch directory that is removed, then put.
    [scratch]: the directory can be made; [puts]: the bucket takes the object. *)
Definition upload_archive (scratch : bool) (fault : option ArchiveFault) (stuck puts : bool) (buckets : Buckets)
    (bucket key : list byte) (entries : list Entry) (p : Provenance) : result BackupError Z * Buckets :=
  if scratch then
    let name := artifact_name (DestS3 bucket key) in
    match write_archive build_name build_version fault stuck (Some ∅) (path_file_name name) entries p with
    | (Ok bytes, Some staged) =>
        if puts then (Ok bytes, from_option (λ body, <[(bucket, key) := body]> buckets) buckets (staged !! name))
        else (Err BackupUpload, buckets)
    | (Ok _, None) => (Err BackupUpload, buckets)
    | (Err e, _) => (Err e, buckets)
    end
  else (Err BackupOutput, buckets).

(** What a run meets: the directory the artifact goes to, the three reads of the
    database (or no connection), the store (or none), and the faults of the output. *)
Record BackupWorld : Type := mkBackupWorld {
  bw_directory : option (gmap (list byte) (list byte));
  bw_connects : bool;
  bw_ledger : option TableTexts;
  bw_snapshot : option TableTexts;
  bw_groups : option TableTexts;
  bw_store : option St;
  bw_buckets : Buckets;
  bw_scratch : bool;
  bw_fault : option ArchiveFault;
  bw_stuck : bool;
  bw_puts : bool
}.
Definition no_directory (w : BackupWorld) (out : Destination) : bool :=
  match out with
  | DestLocal path => has_parent path && negb (is_set (bw_directory w))
  | DestS3 _ _ => false
  end.
(** The artifact's size, the directory and the buckets after. *)
Definition backup_run (w : BackupWorld) (request : BackupRequest)
    : result BackupError Z * option (gmap (list byte) (list byte)) * Buckets :=
  let refused e := (Err e, bw_directory w, bw_buckets w) in
  if no_directory w (bk_out request) then refused BackupOutput
  else if negb (bw_connects w) then refused BackupDatabase
  else if negb (bk_database_only request) && negb (is_set (bw_store w)) then refused BackupStorage
  else
    match collect (bw_ledger w) (bw_snapshot w) (bw_groups w) (if bk_database_only request then None else bw_store w) with
    | Err e => refused e
    | Ok (entries, p) =>
        match bk_out request with
        | DestLocal path =>
            let '(r, directory) :=
              write_archive build_name build_version (bw_fault w) (bw_stuck w) (bw_directory w) (path_file_name path) entries p in
            (r, directory, bw_buckets w)
        | DestS3 bucket key =>
            let '(r, buckets) :=
              upload_archive (bw_scratch w) (bw_fault w) (bw_stuck w) (bw_puts w) (bw_buckets w) bucket key entries p in
            (r, bw_directory w, buckets)
        end
    end.
End backup.

(** [--flag=value]. *)
Definition flag_value (flag arg : list byte) : option (list byte) := strip_prefix (flag ++ ascii_bytes "="%string) arg.
Fixpoint backup_args (args : list (list byte)) (out : option (list byte)) (database_only : bool)
    : result ArgError (option (list byte) * bool) :=
  match args with
  | [] => Ok (out, database_only)
  | arg :: rest =>
      if bool_decide (arg = FLAG_DATABASE_ONLY) then
        if database_only then Err (GivenTwice FLAG_DATABASE_ONLY) else backup_args rest out true
      else
        match flag_value FLAG_OUT arg with
        | Some value => if is_set out then Err (GivenTwice FLAG_OUT) else backup_args rest (Some value) database_only
        | None =>
            if bool_decide (arg = FLAG_OUT) then
              if is_set out then Err (GivenTwice FLAG_OUT)
              else match rest with
                   | value :: rest' => backup_args rest' (Some value) database_only
                   | [] => Err (NeedsPath FLAG_OUT)
                   end
            else Err (UnknownArgument arg)
        end
  end.
Definition backup_parse_args (args : list (list byte)) : result ArgError BackupRequest :=
  let? parsed := backup_args args None false in
  let '(out, database_only) := parsed in
  match out with
  | Some path =>
      if bool_decide (path = []) then Err (NeedsPath FLAG_OUT)
      else let? out := destination_parse path in Ok (mkBackupRequest out database_only)
  | None => Err (RequiredFlag FLAG_OUT)
  end.

Definition EXIT_CANTCREAT : Z := 73.
Definition EXIT_UNAVAILABLE : Z := 69.
Definition EXIT_DATAERR : Z := 65.
Definition backup_exit_code (e : BackupError) : Z :=
  match e with BackupDatabase | BackupStorage | BackupUpload => EXIT_UNAVAILABLE | BackupOutput => EXIT_CANTCREAT end.

(** ** Reading an artifact *)
(** Why a capture is refused. *)
Inductive ArtifactFault : Type :=
| WillNotDecompress
| NotATarball
| NoManifest
| ManifestNotJson
| WrongManifestVersion (version : Z)
| WrongHash (hash : list byte)
| UnnamedEntry
| NotInManifest (name : list byte)
| WrongLength (name : list byte)
| WrongDigest (name : list byte)
| NotCarried (name : list byte)
| NotACopyFile (name : list byte)
| UnexpectedTable (table : list byte)
| NotABlobPath (name : list byte)
| RefusedKey (name : list byte)
| NeitherTableNorBlob (name : list byte)
| NoTables.
Inductive RestoreError : Type :=
| RestoreDatabase
| RestoreStorage
| RestoreSource
| RestoreArtifact (why : ArtifactFault)
| RestoreIncompatible.
Definition restore_exit_code (e : RestoreError) : Z :=
  match e with
  | RestoreDatabase | RestoreStorage => EXIT_UNAVAILABLE
  | RestoreSource | RestoreArtifact _ | RestoreIncompatible => EXIT_DATAERR
  end.

Record ArchiveManifest : Type := mkArchiveManifest {
  am_manifest_version : Z; am_schema_version : list byte; am_migrations : list (list byte)
}.
Record Archive : Type := mkArchive { ar_manifest : ArchiveManifest; ar_entries : list Entry }.
Record LoadPlan : Type := mkLoadPlan {
  lp_tables : list (list byte * list byte);
  lp_blobs : list (list byte * list byte)
}.

Section reading.
Context `{Blake3, ArchiveLib}.

(** [as u32]. *)
Definition truncate_u32 (n : Z) : Z := n mod 4294967296.
Definition parse_manifest (bytes : list byte) : result ArtifactFault ArchiveManifest :=
  match from_slice bytes with
  | None => Err ManifestNotJson
  | Some document =>
      let version := truncate_u32 (u64_field "manifest_version" document) in
      if negb (version =? MANIFEST_VERSION) then Err (WrongManifestVersion version)
      else
        let hash := str_field "hash" document in
        if negb (bool_decide (hash = ascii_bytes "blake3"%string)) then Err (WrongHash hash)
        else Ok (mkArchiveManifest version (str_field "schema_version" document) (omap as_str (array_field "migrations" document)))
  end.

Notation Expected := (gmap (list byte) (Z * list byte)).
Fixpoint expect (listed : list Json) (expected : Expected) : result ArtifactFault Expected :=
  match listed with
  | [] => Ok expected
  | value :: listed' =>
      let name := str_field "name" value in
      let bytes := u64_field "bytes" value in
      let digest := str_field "blake3" value in
      if bool_decide (name = []) || bool_decide (digest = []) then Err UnnamedEntry
      else expect listed' (<[name := (bytes, digest)]> expected)
  end.
Fixpoint check_members (members : list Entry) (expected : Expected) : result ArtifactFault Expected :=
  match members with
  | [] => Ok expected
  | member :: members' =>
      match expected !! en_name member with
      | None => Err (NotInManifest (en_name member))
      | Some (bytes, digest) =>
          if negb (Z.of_nat (length (en_bytes member)) =? bytes) then Err (WrongLength (en_name member))
          else if negb (bool_decide (entry_digest member = digest)) then Err (WrongDigest (en_name member))
          else check_members members' (delete (en_name member) expected)
      end
  end.
(** What is left, the first name first. *)
Definition all_carried (expected : Expected) : result ArtifactFault unit :=
  match bytes_sort (map_to_list expected).*1 with
  | [] => Ok tt
  | name :: _ => Err (NotCarried name)
  end.
Definition verify (manifest_bytes : list byte) (members : list Entry) : result ArtifactFault unit :=
  match from_slice manifest_bytes with
  | None => Err ManifestNotJson
  | Some document =>
      let? expected := expect (array_field "entries" document) ∅ in
      let? left_ := check_members members expected in
      all_carried left_
  end.

Definition decompressed (bytes : list byte) : result ArtifactFault (list byte) :=
  if starts_with GZIP_MAGIC bytes
  then match gunzip bytes with Some plain => Ok plain | None => Err WillNotDecompress end
  else Ok bytes.
Definition is_manifest (e : Entry) : Prop := en_name e = MANIFEST_NAME.
Definition read_archive (bytes : list byte) : result ArtifactFault Archive :=
  let? plain := decompressed bytes in
  match untar plain with
  | None => Err NotATarball
  | Some all =>
      let members := filter (λ e, ¬ is_manifest e) all in
      match last (filter is_manifest all) with
      | None => Err NoManifest
      | Some found =>
          let? m := parse_manifest (en_bytes found) in
          let? _ := verify (en_bytes found) members in
          Ok (mkArchive m members)
      end
  end.
End reading.

(** ** The load plan *)
Definition strip_suffix (suffix text : list byte) : option (list byte) :=
  if ends_with suffix text then Some (take (length text - length suffix) text) else None.

(** [sort_by] on the first component, which is stable. *)
Fixpoint insert_named {A} (x : list byte * A) (l : list (list byte * A)) : list (list byte * A) :=
  match l with
  | [] => [x]
  | y :: l' => if bytes_ltb y.1 x.1 then y :: insert_named x l' else x :: l
  end.
Definition sort_named {A} (l : list (list byte * A)) : list (list byte * A) := foldr insert_named [] l.

Fixpoint classify (entries : list Entry) (tables blobs : list (list byte * list byte)) : result ArtifactFault LoadPlan :=
  match entries with
  | [] => Ok (mkLoadPlan tables blobs)
  | e :: entries' =>
      match strip_prefix DATABASE_DIR (en_name e) with
      | Some rest =>
          match strip_suffix COPY_SUFFIX rest with
          | None => Err (NotACopyFile (en_name e))
          | Some table =>
              if bool_decide (table = []) || negb (forallb table_char table) then Err (UnexpectedTable table)
              else if bool_decide (table = MIGRATIONS_TABLE) then classify entries' tables blobs
              else classify entries' (tables ++ [(table, en_bytes e)]) blobs
          end
      | None =>
          match strip_prefix BLOBS_DIR (en_name e) with
          | Some rest =>
              match split_path rest with
              | [workspace; group; hash] =>
                  match blob_key_new workspace group hash with
                  | Err _ => Err (RefusedKey (en_name e))
                  | Ok _ => classify entries' tables (blobs ++ [(rest, en_bytes e)])
                  end
              | _ => Err (NotABlobPath (en_name e))
              end
          | None => Err (NeitherTableNorBlob (en_name e))
          end
      end
  end.
Definition plan (archive : Archive) : result ArtifactFault LoadPlan :=
  let? p := classify (ar_entries archive) [] [] in
  match lp_tables p with
  | [] => Err NoTables
  | _ => Ok (mkLoadPlan (sort_named (lp_tables p)) (sort_named (lp_blobs p)))
  end.
Definition compatible (archive : ArchiveManifest) (applied : list (list byte)) : result RestoreError unit :=
  if bool_decide (am_migrations archive = applied) then Ok tt else Err RestoreIncompatible.

(** The bytes before the first newline and those after it. *)
Fixpoint first_line (bs : list byte) : option (list byte * list byte) :=
  match bs with
  | [] => None
  | b :: bs' => if bool_decide (b = Byte.x0a) then Some ([], bs')
                else (λ r, (b :: r.1, r.2)) <$> first_line bs'
  end.
Definition strip_copy_envelope (block : list byte) : list byte :=
  let body := match first_line block with
              | Some (first, rest) => if starts_with COPY_ first then rest else block
              | None => block
              end in
  match strip_suffix TERMINATOR body with
  | Some rows => rows
  | None => default body (strip_suffix [BACKSLASH; DOT] body)
  end.

(** ** Paths and names *)
Lemma split_path_plain a : SLASH ∉ a → split_path a = [a].
Proof.
  induction a as [|b a IH]; intros Ha; [done|]. cbn. rewrite bool_decide_false by set_solver. by rewrite IH by set_solver.
Qed.
Lemma split_path_cons a b : SLASH ∉ a → split_path (a ++ SLASH :: b) = a :: split_path b.
Proof.
  induction a as [|c a IH]; intros Ha; [done|]. cbn [app split_path]. rewrite bool_decide_false by set_solver.
  by rewrite IH by set_solver.
Qed.
Lemma split_path_dir d b : SLASH ∉ d → split_path ((d ++ [SLASH]) ++ b) = d :: split_path b.
Proof. intros Hd. rewrite <- app_assoc. by apply split_path_cons. Qed.
Lemma strip_suffix_app a suffix : strip_suffix suffix (a ++ suffix) = Some a.
Proof.
  unfold strip_suffix, ends_with. rewrite length_app.
  replace (length a + length suffix - length suffix)%nat with (length a) by lia.
  by rewrite drop_app_length, bool_decide_true, take_app_length.
Qed.
Lemma strip_suffix_spec suffix text a : strip_suffix suffix text = Some a ↔ text = a ++ suffix.
Proof.
  split; [|by intros ->; apply strip_suffix_app]. unfold strip_suffix, ends_with. case_bool_decide as Hd; [|done].
  intros [= <-]. rewrite <- Hd at 2. by rewrite take_drop.
Qed.

Definition DATABASE_ : list byte := ascii_bytes "database"%string.
Definition BLOBS_ : list byte := ascii_bytes "blobs"%string.
Lemma table_char_plain table : forallb table_char table = true → ∀ b, b ∈ table → table_char b = true.
Proof. rewrite forallb_forall. intros Hall b Hb. by apply Hall, list_elem_of_In. Qed.
Lemma table_avoids table (c : byte) : forallb table_char table = true → table_char c = false → c ∉ table.
Proof. intros Ht Hc Hin. pose proof (table_char_plain table Ht c Hin). congruence. Qed.

Lemma blob_path_parts w g h k : blob_key_new w g h = Ok k → split_path (blob_path k) = [w; g; h].
Proof.
  intros (-> & Hw & Hg & Hh)%blob_key_new_Ok. unfold blob_path. cbn [k_workspace k_group k_hash].
  change ([SLASH] ++ h) with (SLASH :: h). change ([SLASH] ++ g ++ SLASH :: h) with (SLASH :: g ++ SLASH :: h).
  rewrite !split_path_cons by by apply component_ok_no_slash. by rewrite split_path_plain by by apply component_ok_no_slash.
Qed.
Lemma component_part_ok c : component_ok c = true → name_part_ok c = true.
Proof.
  unfold component_ok, name_part_ok. rewrite !negb_true_iff, !orb_false_iff, !bool_decide_eq_false.
  intros ((((? & ?) & ?) & ?) & Hd). split_and!; [done..|]. intros ->. by vm_compute in Hd.
Qed.

(** ** The text of a table *)
Lemma first_line_app a b : Byte.x0a ∉ a → first_line (a ++ Byte.x0a :: b) = Some (a, b).
Proof.
  induction a as [|c a IH]; intros Ha; [done|]. cbn. rewrite bool_decide_false by set_solver. by rewrite IH by set_solver.
Qed.
Lemma not_newline_bytes (s : string) : forallb (λ b, negb (bool_decide (b = Byte.x0a))) (ascii_bytes s) = true → Byte.x0a ∉ ascii_bytes s.
Proof.
  rewrite forallb_forall. intros Hall Hin%list_elem_of_In%Hall. by rewrite bool_decide_true in Hin.
Qed.
(** What is dumped is loaded: the header and the terminator come off again. *)
Lemma strip_dump table rows dump : dump_table table rows = Ok dump → strip_copy_envelope dump = rows.
Proof.
  unfold dump_table. destruct (forallb table_char table) eqn:Ht; [|done]. intros Heq. unfold strip_copy_envelope.
  set (header := ascii_bytes "copy public."%string ++ [Byte.x22] ++ table ++ [Byte.x22] ++ ascii_bytes " from stdin;"%string).
  assert (first_line dump = Some (header, rows ++ TERMINATOR)) as ->.
  2: { change (starts_with COPY_ header) with true. cbv iota. by rewrite strip_suffix_app. }
  rewrite <- first_line_app; [f_equal; unfold header; rewrite <- !app_assoc; by injection Heq|].
  unfold header. rewrite !not_elem_of_app. split_and!; [by apply not_newline_bytes|set_solver| |set_solver|by apply not_newline_bytes].
  by apply table_avoids.
Qed.

(** ** Loops that may fail *)
Lemma map_result_Ok {E A B} (f : A → result E B) l ys : map_result f l = Ok ys ↔ Forall2 (λ x y, f x = Ok y) l ys.
Proof.
  revert ys. induction l as [|x l IH]; intros ys; cbn.
  - split; [intros [= <-]; constructor | by inversion 1].
  - split.
    + destruct (f x) as [y|] eqn:Hy; [|done]. cbn. destruct (map_result f l) as [ys'|]; [|done]. cbn. intros [= <-].
      constructor; [done | by apply IH].
    + inversion 1 as [|? y ? ys' Hy Hys]; subst. rewrite Hy. cbn. apply IH in Hys. by rewrite Hys.
Qed.

(** ** The manifest *)
Section manifest_facts.
Context `{Blake3, ArchiveLib}.
Context (build_name build_version : list byte).
Implicit Types (e : Entry) (entries members : list Entry).

(** A member whose length a [u64] holds. *)
Definition sized (e : Entry) : Prop := Z.of_nat (length (en_bytes e)) ≤ U64_MAX.
Definition listed_as (e : Entry) : Z * list byte := (Z.of_nat (length (en_bytes e)), entry_digest e).

Lemma member_name e : str_field "name" (member_document e) = en_name e.
Proof. done. Qed.
Lemma member_digest e : str_field "blake3" (member_document e) = entry_digest e.
Proof. done. Qed.
Lemma member_bytes e : sized e → u64_field "bytes" (member_document e) = Z.of_nat (length (en_bytes e)).
Proof.
  intros He. unfold u64_field. change (json_get "bytes" (member_document e)) with (Some (JNumber (Z.of_nat (length (en_bytes e))))).
  cbn. assert ((0 <=? Z.of_nat (length (en_bytes e))) && (Z.of_nat (length (en_bytes e)) <=? U64_MAX) = true) as -> by (unfold sized in He; lia).
  done.
Qed.
Lemma member_document_ok e : sized e → document_ok (member_document e) = true.
Proof.
  intros He. unfold member_document. cbn [document_ok]. change (ascending _) with true.
  assert ((0 <=? Z.of_nat (length (en_bytes e))) && (Z.of_nat (length (en_bytes e)) <=? U64_MAX) = true) as -> by (unfold sized in He; lia).
  done.
Qed.
Lemma array_ok l : Forall (λ v, document_ok v = true) l → document_ok (JArray l) = true.
Proof. induction 1 as [|v l Hv Hl IH]; [done|]. cbn in *. by rewrite Hv. Qed.
Lemma manifest_document_ok entries p :
  Forall sized entries → document_ok (manifest_document build_name build_version entries p) = true.
Proof.
  intros Hs. assert (document_ok (JArray (member_document <$> entries)) = true) as Ha.
  { apply array_ok, Forall_fmap. eapply Forall_impl; [exact Hs|]. apply member_document_ok. }
  assert (document_ok (JArray (JString <$> pv_migrations p)) = true) as Hm.
  { apply array_ok, Forall_fmap, Forall_true. done. }
  unfold manifest_document. cbn [document_ok] in *. rewrite Ha, Hm. by vm_compute.
Qed.

(** What the manifest of [entries] is read as. *)
Lemma manifest_reads `{!ArchiveLaws} entries p :
  Forall sized entries →
  parse_manifest (manifest build_name build_version entries p)
  = Ok (mkArchiveManifest MANIFEST_VERSION (pv_schema_version p) (pv_migrations p))
  ∧ from_slice (manifest build_name build_version entries p) = Some (manifest_document build_name build_version entries p).
Proof.
  intros Hs. assert (from_slice (manifest build_name build_version entries p) = Some (manifest_document build_name build_version entries p)) as Hf.
  { apply json_reads_back. by apply manifest_document_ok. }
  split; [|done]. unfold parse_manifest. rewrite Hf. set (document := manifest_document _ _ _ _).
  change (truncate_u32 (u64_field "manifest_version" document)) with MANIFEST_VERSION.
  change (str_field "hash" document) with (ascii_bytes "blake3"%string).
  change (str_field "schema_version" document) with (pv_schema_version p).
  change (array_field "migrations" document) with (JString <$> pv_migrations p).
  rewrite Z.eqb_refl, bool_decide_true by done. cbn [negb]. do 2 f_equal.
  induction (pv_migrations p) as [|m l IH]; [done|]. cbn. by f_equal.
Qed.

(** ** Verification *)
Lemma check_members_Ok members expected left_ :
  check_members members expected = Ok left_ →
  NoDup (en_name <$> members)
  ∧ (∀ e, e ∈ members → expected !! en_name e = Some (listed_as e))
  ∧ (∀ name, left_ !! name = if bool_decide (name ∈ en_name <$> members) then None else expected !! name).
Proof.
  revert expected. induction members as [|e members IH]; intros expected; cbn [check_members].
  { intros [= ->]. split_and!; [constructor | set_solver |]. intros name. by rewrite bool_decide_false by set_solver. }
  destruct (expected !! en_name e) as [[bytes digest]|] eqn:He; [|done].
  destruct (Z.eqb_spec (Z.of_nat (length (en_bytes e))) bytes) as [<-|]; [|done]. cbn [negb].
  case_bool_decide as Hd; [|done]. cbn [negb]. subst digest. intros (Hnd & Hall & Hleft)%IH.
  assert (en_name e ∉ en_name <$> members) as Hnew.
  { intros (e' & Heq & He')%list_elem_of_fmap. specialize (Hall e' He'). rewrite <- Heq, lookup_delete_eq in Hall. done. }
  split_and!.
  - cbn. by apply NoDup_cons.
  - intros e' [->|He']%elem_of_cons; [by rewrite He|]. specialize (Hall e' He'). by apply lookup_delete_Some in Hall as [_ ?].
  - intros name. rewrite Hleft. cbn. destruct (decide (name = en_name e)) as [->|Hne].
    + rewrite (bool_decide_false _ Hnew), (bool_decide_true (en_name e ∈ _)) by set_solver. by rewrite lookup_delete_eq.
    + rewrite lookup_delete_ne by done. destruct (bool_decide (name ∈ en_name <$> members)) eqn:Hb.
      * apply bool_decide_eq_true in Hb. by rewrite bool_decide_true by set_solver.
      * apply bool_decide_eq_false in Hb. by rewrite bool_decide_false by set_solver.
Qed.
Lemma check_members_complete members expected :
  NoDup (en_name <$> members) → (∀ e, e ∈ members → expected !! en_name e = Some (listed_as e)) →
  ∃ left_, check_members members expected = Ok left_.
Proof.
  revert expected. induction members as [|e members IH]; intros expected Hnd Hall; cbn [check_members]; [eauto|].
  rewrite (Hall e) by set_solver. cbn [listed_as]. rewrite Z.eqb_refl, bool_decide_true by done. cbn [negb].
  cbn in Hnd. apply NoDup_cons in Hnd as [Hnew Hnd]. apply IH; [done|]. intros e' He'.
  rewrite lookup_delete_ne; [apply Hall; set_solver|]. intros Heq. apply Hnew, list_elem_of_fmap. eauto.
Qed.
Lemma all_carried_Ok (expected : gmap (list byte) (Z * list byte)) :
  all_carried expected = Ok tt ↔ ∀ name, expected !! name = None.
Proof.
  unfold all_carried. destruct (bytes_sort (map_to_list expected).*1) as [|name names] eqn:Hs.
  - split; [|done]. intros _ name. apply eq_None_not_Some. intros [x Hx].
    assert (name ∈ bytes_sort (map_to_list expected).*1) as Hin.
    { apply elem_of_bytes_sort, list_elem_of_fmap. exists (name, x). split; [done | by apply elem_of_map_to_list]. }
    rewrite Hs in Hin. set_solver.
  - split; [done|]. intros Hall. assert (name ∈ bytes_sort (map_to_list expected).*1) as Hin by (rewrite Hs; set_solver).
    apply elem_of_bytes_sort, list_elem_of_fmap in Hin as ([n x] & -> & Hx%elem_of_map_to_list). cbn in *. by rewrite Hall in Hx.
Qed.

(** A capture is accepted exactly when its members, under distinct names, are what
    its manifest lists. *)
Lemma verify_Ok manifest_bytes document members :
  from_slice manifest_bytes = Some document →
  verify manifest_bytes members = Ok tt ↔
  NoDup (en_name <$> members)
  ∧ ∃ expected, expect (array_field "entries" document) ∅ = Ok expected
    ∧ (∀ e, e ∈ members → expected !! en_name e = Some (listed_as e))
    ∧ (∀ name, is_Some (expected !! name) → name ∈ en_name <$> members).
Proof.
  intros Hf. unfold verify. rewrite Hf. destruct (expect _ ∅) as [expected|] eqn:He; cbn; [|naive_solver]. split.
  - destruct (check_members members expected) as [left_|] eqn:Hc; [|done]. cbn. rewrite all_carried_Ok. intros Hn.
    apply check_members_Ok in Hc as (Hnd & Hall & Hleft). split; [done|]. exists expected. split_and!; [done..|].
    intros name [x Hx]. specialize (Hleft name). rewrite Hn in Hleft. case_bool_decide; [done|]. congruence.
  - intros (Hnd & expected' & [= <-] & Hall & Hdom). destruct (check_members_complete members expected Hnd Hall) as [left_ Hc].
    rewrite Hc. cbn. apply all_carried_Ok. apply check_members_Ok in Hc as (_ & _ & Hleft). intros name. rewrite Hleft.
    case_bool_decide as Hb; [done|]. apply eq_None_not_Some. auto.
Qed.
End manifest_facts.

Lemma capture_or_collision `{Blake3, ArchiveLib} mb members members' :
  verify mb members = Ok tt → verify mb members' = Ok tt →
  (∀ e, e ∈ members → e ∈ members') ∨ ∃ x y, x ≠ y ∧ length x = length y ∧ blake3 x = blake3 y.
Proof.
  intros Hv Hv'. destruct (from_slice mb) as [document|] eqn:Hf; [|unfold verify in Hv; by rewrite Hf in Hv].
  apply (verify_Ok _ _ _ Hf) in Hv as (_ & expected & He & Hall & _).
  apply (verify_Ok _ _ _ Hf) in Hv' as (_ & expected' & He' & Hall' & Hdom'). assert (expected' = expected) as -> by congruence.
  destruct (decide (Forall (λ e, e ∈ members') members)) as [Hin|Hout]; [left; by apply Forall_forall|].
  right. apply not_Forall_Exists in Hout; [|apply _]. apply Exists_exists in Hout as (e & He1 & Hne).
  pose proof (Hall e He1) as Hl. assert (is_Some (expected !! en_name e)) as (e' & Hn & Hin)%Hdom'%list_elem_of_fmap_1 by by eexists.
  pose proof (Hall' e' Hin) as Hl'. rewrite <- Hn, Hl in Hl'. injection Hl' as Hlen%Nat2Z.inj Hdig.
  exists (en_bytes e), (en_bytes e'). split_and!; [|done | by apply hex_inj].
  intros Hb. apply Hne. destruct e, e'; cbn in *; by subst.
Qed.

Lemma read_archive_Ok `{Blake3, ArchiveLib} bytes archive :
  read_archive bytes = Ok archive →
  ∃ mb, parse_manifest mb = Ok (ar_manifest archive) ∧ verify mb (ar_entries archive) = Ok tt
  ∧ ∀ members, verify mb members = Ok tt → NoDup (en_name <$> members).
Proof.
  unfold read_archive. destruct (decompressed bytes) as [plain|]; [|done]. cbn. destruct (untar plain) as [all|]; [|done].
  destruct (last (filter is_manifest all)) as [found|]; [|done].
  destruct (parse_manifest (en_bytes found)) as [m|] eqn:Hm; [|done]. cbn.
  destruct (verify (en_bytes found) _) as [[]|] eqn:Hv; [|done]. cbn. intros [= <-]. exists (en_bytes found). split_and!; [done..|].
  intros members Hv1. destruct (from_slice (en_bytes found)) as [document|] eqn:Hf; [|unfold verify in Hv1; by rewrite Hf in Hv1].
  apply (verify_Ok _ _ _ Hf) in Hv1. apply Hv1.
Qed.

(** A capture is what its manifest says, or it is refused. The members of an
    accepted capture have distinct names and pass the check against the manifest that
    came in the same tarball, and two sets of members that pass it against one manifest
    are the same members: nothing altered, added, dropped or renamed is accepted,
    short of two strings of one length with one BLAKE3 digest. *)
Theorem capture_fixed_by_manifest `{Blake3, ArchiveLib} bytes archive :
  read_archive bytes = Ok archive →
  ∃ mb, parse_manifest mb = Ok (ar_manifest archive) ∧ verify mb (ar_entries archive) = Ok tt
  ∧ NoDup (en_name <$> ar_entries archive)
  ∧ ∀ members, verify mb members = Ok tt →
      members ≡ₚ ar_entries archive ∨ ∃ x y, x ≠ y ∧ length x = length y ∧ blake3 x = blake3 y.
Proof.
  intros (mb & Hm & Hv & Hnames)%read_archive_Ok. exists mb. split_and!; [done..|by apply Hnames|]. intros members Hv'.
  destruct (capture_or_collision _ _ _ Hv' Hv) as [Hi|Hc]; [|by right].
  destruct (capture_or_collision _ _ _ Hv Hv') as [Hj|Hc]; [|by right].
  left. apply NoDup_Permutation; [by eapply NoDup_fmap_1, Hnames..|]. intros e. split; auto.
Qed.

(** ** What is written reads back *)
Lemma expect_documents `{Blake3, !Blake3Width} (entries : list Entry) expected :
  Forall sized entries → [] ∉ en_name <$> entries → NoDup (en_name <$> entries) →
  ∃ expected', expect (member_document <$> entries) expected = Ok expected'
  ∧ (∀ e, e ∈ entries → expected' !! en_name e = Some (listed_as e))
  ∧ ∀ name, name ∉ en_name <$> entries → expected' !! name = expected !! name.
Proof.
  intros Hs. revert expected. induction Hs as [|e entries He Hs IH]; intros expected Hne Hnd; cbn [fmap list_fmap expect].
  { exists expected. split_and!; [done | set_solver | done]. }
  cbn in Hne, Hnd. apply NoDup_cons in Hnd as [Hnew Hnd]. rewrite member_name, member_digest, member_bytes by done.
  rewrite (bool_decide_false (en_name e = [])) by set_solver.
  rewrite (bool_decide_false (entry_digest e = [])).
  2: { unfold entry_digest. pose proof (blake3_width (en_bytes e)) as Hw. by destruct (blake3 (en_bytes e)). }
  cbn [orb]. destruct (IH (<[en_name e := listed_as e]> expected)) as (expected' & He' & Hin & Hout); [set_solver | done |].
  exists expected'. split_and!; [done | |].
  - intros e' [->|He1]%elem_of_cons; [|auto]. rewrite Hout by done. by rewrite lookup_insert_eq.
  - intros name Hn. cbn in Hn. rewrite Hout by set_solver. rewrite lookup_insert_ne; [done | set_solver].
Qed.

Lemma read_written `{Blake3, !Blake3Width, ArchiveLib, !ArchiveLaws} bn bv gz entries p :
  Forall sized entries → Forall (λ e, plain_name (en_name e)) entries → NoDup (en_name <$> entries) →
  [] ∉ en_name <$> entries → MANIFEST_NAME ∉ en_name <$> entries →
  read_archive (archive_bytes bn bv gz entries p)
  = Ok (mkArchive (mkArchiveManifest MANIFEST_VERSION (pv_schema_version p) (pv_migrations p)) entries).
Proof.
  intros Hs Hp Hnd Hne Hm. unfold read_archive. set (first := mkMember MANIFEST_NAME (manifest bn bv entries p)).
  assert (decompressed (archive_bytes bn bv gz entries p) = Ok (tar (first :: entries))) as ->.
  { unfold decompressed, archive_bytes. destruct gz.
    - unfold starts_with. change (length GZIP_MAGIC) with 2%nat. rewrite gzip_starts_with_magic, bool_decide_true by done.
      by rewrite gzip_reads_back.
    - unfold starts_with. rewrite bool_decide_false; [done|]. intros Hstart. fold first in Hstart.
      assert (tar (first :: entries) !! 0%nat = Some Byte.x1f) as Hbyte by (rewrite <- (lookup_take_lt _ (length GZIP_MAGIC)) by (cbn; lia); by rewrite Hstart).
      erewrite tar_starts_with_name in Hbyte; [|done|cbn; lia]. by vm_compute in Hbyte. }
  cbn [result_bind]. rewrite tar_reads_back.
  2: { apply Forall_cons. split; [|done]. split; [repeat constructor|]. vm_compute. set_solver. }
  assert (Forall (λ e, ¬ is_manifest e) entries) as Hno.
  { apply Forall_forall. intros e He Heq. apply Hm, list_elem_of_fmap. exists e. split; [by symmetry | done]. }
  rewrite !filter_cons, decide_True, decide_False by (unfold is_manifest; tauto). rewrite filter_none, filter_all by done. cbn [last first en_bytes].
  destruct (manifest_reads bn bv entries p Hs) as [Hpm Hf]. rewrite Hpm. cbn [result_bind].
  assert (verify (manifest bn bv entries p) entries = Ok tt) as ->; [|done].
  apply (verify_Ok _ _ _ Hf). split; [done|].
  destruct (expect_documents entries ∅ Hs Hne Hnd) as (expected & He & Hin & Hout). exists expected. split_and!; [done..|].
  intros name Hname. destruct (decide (name ∈ en_name <$> entries)) as [|Hn]; [done|]. rewrite Hout in Hname by done.
  by apply is_Some_None in Hname.
Qed.

(** ** The filesystem backend is an object store *)
#[global] Instance files_objects : ObjectStore Files := {
  obj_at s k := f_bytes <$> fs_files s !! k;
  obj_list s workspace group := list_names s workspace group;
  obj_get := fs_get;
  obj_put := fs_put
}.
Lemma group_names_distinct workspace group (l : list (BlobKey * File)) :
  NoDup l.*1 →
  NoDup (be_name <$> omap (λ e : BlobKey * File,
       if bool_decide (k_workspace e.1 = workspace) && bool_decide (k_group e.1 = group) && negb (hidden (k_hash e.1))
       then Some (mkEntry (k_hash e.1) (f_modified_ms e.2)) else None) l).
Proof.
  induction l as [|[k f] l IH]; [constructor|]. rewrite fmap_cons. intros [Hnew Hnd]%NoDup_cons. cbn [omap list_omap].
  destruct (bool_decide _ && bool_decide _ && _) eqn:Hb; [|by apply IH]. rewrite !andb_true_iff, !bool_decide_eq_true in Hb.
  destruct Hb as [[Hw Hg] _]. rewrite fmap_cons. apply NoDup_cons. split; [|by apply IH].
  intros (en & Hn & ([k' f'] & Hin & He)%list_elem_of_omap)%list_elem_of_fmap. cbn in He, Hn, Hw, Hg.
  destruct (bool_decide _ && bool_decide _ && _) eqn:Hb'; [|done]. rewrite !andb_true_iff, !bool_decide_eq_true in Hb'.
  injection He as <-. cbn in Hn. apply Hnew, list_elem_of_fmap. exists (k', f'). split; [|done].
  destruct k, k'; cbn in *; naive_solver.
Qed.
#[global] Instance files_objects_laws : ObjectStoreLaws Files.
Proof.
  split; cbn.
  - intros s workspace group names. unfold list_names. cbn. unfold fs_list_entries. destruct (d_refuses_dir _ _ _); [done|].
    intros [= <-]. unfold object_entries. rewrite merge_sort_Permutation. apply group_names_distinct, NoDup_fst_map_to_list.
  - intros s key bytes. unfold fs_get. destruct (fs_files s !! key) as [f|]; [|done]. case_match; [done|]. by intros [= <-].
  - intros s key bytes s' Hp Ha. apply (write_and_rename_lookup _ _ _ _ _ _ key) in Hp; [|by intros Heq; by eapply not_temporary].
    rewrite bool_decide_true in Hp by done. by rewrite Hp.
  - intros s key bytes r s' key' Hp Ha Hr. apply (write_and_rename_lookup _ _ _ _ _ _ key') in Hp; [|by intros Heq; by eapply not_temporary].
    rewrite Hp. destruct Hr as [Hne|Hr]; [by rewrite bool_decide_false, andb_false_r by done | by rewrite Hr].
Qed.

(** ** What is collected *)
Section collected.
Context `{Postgres} {St : Type} `{ObjectStore St, !ObjectStoreLaws St}.
Implicit Types (e : Entry) (store : St).

Definition table_member (tables : TableTexts) (t : list byte) (e : Entry) : Prop :=
  forallb table_char t = true ∧ en_name e = DATABASE_DIR ++ t ++ COPY_SUFFIX
  ∧ dump_table t (default [] (tables !! t)) = Ok (en_bytes e).
Definition blob_member (store : St) (e : Entry) : Prop :=
  ∃ w g h k, blob_key_new w g h = Ok k ∧ en_name e = BLOBS_DIR ++ blob_path k ∧ obj_get store k = Ok (en_bytes e).

Lemma dump_tables_Ok tables entries :
  dump_tables (Some tables) = Ok entries → Forall2 (table_member tables) (table_names tables) entries.
Proof.
  intros Hd%map_result_Ok. eapply Forall2_impl; [exact Hd|]. intros t e. cbn. destruct (dump_table t _) as [dump|] eqn:Hdump; [|done].
  cbn. intros [= <-]. split_and!; [|done..]. unfold dump_table in Hdump. by destruct (forallb table_char t).
Qed.
(** The members of a group: its listed names that are keys, with their bytes. *)
Lemma collect_group_Ok store w g entries :
  collect_group store (w, g) = Ok entries →
  ∃ names, obj_list store w g = Ok names ∧ Forall (blob_member store) entries
  ∧ (∀ name k, name ∈ names → blob_key_new w g name = Ok k →
       ∃ e, e ∈ entries ∧ en_name e = BLOBS_DIR ++ blob_path k ∧ obj_get store k = Ok (en_bytes e))
  ∧ (∀ e, e ∈ entries → ∃ name k, name ∈ names ∧ blob_key_new w g name = Ok k ∧ en_name e = BLOBS_DIR ++ blob_path k)
  ∧ NoDup (en_name <$> entries).
Proof.
  unfold collect_group. cbn [fst snd]. destruct (obj_list store w g) as [names|] eqn:Hl; [|done]. cbn [map_err result_bind].
  apply obj_list_distinct in Hl as Hnd. destruct (map_result _ names) as [found|] eqn:Hf; [|done]. intros [= <-].
  apply map_result_Ok in Hf. exists names. split; [done|]. clear Hl. induction Hf as [|name es names found Hn Hf IH].
  { split_and!; [constructor | set_solver | set_solver | constructor]. }
  apply NoDup_cons in Hnd as [Hnew Hnd]. destruct (IH Hnd) as (Hb & Hin & Hout & Hd). unfold collect_blob in Hn. cbn [fst snd] in Hn.
  destruct (blob_key_new w g name) as [k|] eqn:Hk.
  2: { injection Hn as <-. cbn. split_and!; [done | | |done].
       - intros name' k' [->|Hin']%elem_of_cons Hk'; [congruence | by eapply Hin].
       - intros e1 (name' & k' & ? & ? & ?)%Hout. exists name', k'. set_solver. }
  destruct (obj_get store k) as [bytes|] eqn:Hget; [|done]. injection Hn as <-. cbn [mjoin list_join app].
  change (mjoin ([mkMember (BLOBS_DIR ++ blob_path k) bytes] :: found)) with (mkMember (BLOBS_DIR ++ blob_path k) bytes :: mjoin found).
  split_and!.
  - apply Forall_cons. split; [|done]. by exists w, g, name, k.
  - intros name' k' [->|Hin']%elem_of_cons Hk'.
    + assert (k' = k) as -> by congruence. eexists. split; [apply list_elem_of_here | done].
    + destruct (Hin name' k' Hin' Hk') as (e & He & Hrest). exists e. split; [set_solver | done].
  - intros e [->|He]%elem_of_cons; [exists name, k; set_solver|].
    destruct (Hout e He) as (name' & k' & ? & ? & ?). exists name', k'. set_solver.
  - rewrite fmap_cons. apply NoDup_cons. split; [|done]. intros (e & Heq & He)%list_elem_of_fmap.
    destruct (Hout e He) as (name' & k' & Hin' & Hk' & Hname). cbn in Heq. rewrite Hname in Heq. apply (inj (app BLOBS_DIR)) in Heq.
    pose proof (blob_path_inj _ _ _ _ _ _ _ _ Hk Hk' Heq) as <-. apply blob_key_new_Ok in Hk as [-> _], Hk' as [[= <-] _]. done.
Qed.
End collected.

(** ** The output of a backup *)
(** A reader of the target sees the whole artifact or what was there: whatever fails,
    no other name of the directory changes but the temporary's, and the target only
    to the finished tarball; an object is put finished or not at all. *)
Lemma artifact_whole_or_absent `{Blake3, ArchiveLib} bn bv fault stuck files name entries p r directory' :
  write_archive bn bv fault stuck (Some files) (Some name) entries p = (r, directory') →
  ∃ files', directory' = Some files' ∧ ∀ n, n ≠ partial_name name →
    files' !! n = if is_ok r && bool_decide (n = name) then Some (archive_bytes bn bv (compressed (Some name)) entries p) else files !! n.
Proof.
  unfold write_archive. intros Hw.
  assert (∀ bytes n, n ≠ partial_name name →
    (if stuck then <[partial_name name := bytes]> files else delete (partial_name name) files) !! n = files !! n) as Hcl.
  { intros bytes n Hn. destruct stuck; [by rewrite lookup_insert_ne | by rewrite lookup_delete_ne]. }
  destruct fault as [[]|]; injection Hw as <- <-; eexists; (split; [done|]); intros n Hn; cbn [is_ok andb]; try by apply Hcl.
  case_bool_decide as Hb; [subst; apply lookup_insert_eq|]. by rewrite lookup_insert_ne, lookup_delete_ne.
Qed.
Lemma split_path_parts bs : Forall (λ part, SLASH ∉ part) (split_path bs).
Proof.
  induction bs as [|b bs IH]; [apply Forall_singleton; set_solver|]. cbn [split_path]. case_bool_decide.
  - apply Forall_cons. split; [set_solver | done].
  - destruct (split_path bs) as [|part parts]; [apply Forall_singleton; set_solver|]. apply Forall_cons in IH as [Hp IH].
    apply Forall_cons. split; [set_solver | done].
Qed.
Lemma artifact_name_plain bucket key : SLASH ∉ artifact_name (DestS3 bucket key).
Proof.
  unfold artifact_name. case_bool_decide; [vm_compute; set_solver|]. destruct (last (split_path key)) as [part|] eqn:Hl; [|vm_compute; set_solver].
  pose proof (split_path_parts key) as Hp. rewrite Forall_forall in Hp. cbn. by apply Hp, last_Some_elem_of.
Qed.
Lemma file_name_plain name file : SLASH ∉ name → path_file_name name = Some file → file = name.
Proof.
  intros Hn. unfold path_file_name, path_components. rewrite split_path_plain by done. rewrite filter_cons, filter_nil.
  case_decide; cbn; [|done]. case_bool_decide; [done|]. by intros [= ->].
Qed.
Lemma upload_whole_or_absent `{Blake3, ArchiveLib} bn bv scratch fault stuck puts buckets bucket key entries p r buckets' :
  upload_archive bn bv scratch fault stuck puts buckets bucket key entries p = (r, buckets') →
  if is_ok r then buckets' = <[(bucket, key) := archive_bytes bn bv (compressed (Some (artifact_name (DestS3 bucket key)))) entries p]> buckets
  else buckets' = buckets.
Proof.
  unfold upload_archive. destruct scratch; [|by intros [= <- <-]]. set (name := artifact_name (DestS3 bucket key)).
  destruct (path_file_name name) as [file|] eqn:Hf; [|cbn; by intros [= <- <-]].
  apply file_name_plain in Hf as ->; [|apply artifact_name_plain].
  destruct (write_archive _ _ _ _ _ _ _ _) as [[n|e] directory'] eqn:Hw; [|by intros [= <- <-]].
  apply artifact_whole_or_absent in Hw as (files' & -> & Hfiles). destruct puts; intros [= <- <-]; [|done]. cbn [is_ok].
  rewrite Hfiles, bool_decide_true; [done..|]. intros Heq%(f_equal length). unfold partial_name in Heq. rewrite !length_app in Heq. cbn in Heq. lia.
Qed.

(** ** Arguments *)
Lemma split_slash_spec bs : SLASH ∉ (split_slash bs).1 ∧ ((split_slash bs).2 = [] ∨ bs = (split_slash bs).1 ++ SLASH :: (split_slash bs).2).
Proof.
  induction bs as [|b bs [IH1 IH2]]; [split; [set_solver | by left]|]. cbn [split_slash]. case_bool_decide as Hb.
  - split; [set_solver|]. right. by subst.
  - cbn [fst snd]. split; [set_solver|]. destruct IH2 as [IH2|IH2]; [by left|]. right. by rewrite IH2 at 1.
Qed.
Lemma split_slash_app a b : SLASH ∉ a → split_slash (a ++ SLASH :: b) = (a, b).
Proof. induction a as [|c a IH]; intros Ha; [done|]. cbn. rewrite bool_decide_false by set_solver. by rewrite IH by set_solver. Qed.
Lemma destination_round_trip value d : destination_parse value = Ok d → destination_parse (describe d) = Ok d.
Proof.
  intros Hp. pose proof Hp as Hp'. unfold destination_parse in Hp. case_bool_decide; [done|].
  destruct (starts_with S3_SCHEME (ascii_lowercase value)); cbn [negb] in Hp; [|by injection Hp as <-].
  set (rest := drop (length S3_SCHEME) value) in *. pose proof (split_slash_spec rest) as [Hs _]. destruct (split_slash rest) as [bucket key].
  case_bool_decide as Hb; [done|]. case_bool_decide as Hk; [done|]. injection Hp as <-. cbn [fst describe] in *.
  unfold destination_parse. rewrite bool_decide_false by done.
  assert (starts_with S3_SCHEME (ascii_lowercase (S3_SCHEME ++ bucket ++ [SLASH] ++ key)) = true) as ->.
  { unfold starts_with, ascii_lowercase. rewrite fmap_app. apply bool_decide_eq_true. by rewrite take_app_length. }
  cbn [negb]. rewrite drop_app_length. change ([SLASH] ++ key) with (SLASH :: key). rewrite split_slash_app by done.
  by rewrite !bool_decide_false.
Qed.

(** ** What modelling showed *)
(** The ledger of migrations is [relay_migration]; the table a restore never loads is
    another, which no relay has, so the ledger is truncated and loaded with the rest. *)
Lemma ledger_is_reloaded m body :
  plan (mkArchive m [mkMember (DATABASE_DIR ++ LEDGER ++ COPY_SUFFIX) body]) = Ok (mkLoadPlan [(LEDGER, body)] []).
Proof. done. Qed.
(** A manifest version is cut to 32 bits before it is compared. *)
Lemma manifest_version_wraps `{ArchiveLib} mb :
  from_slice mb = Some (JObject [(ascii_bytes "hash"%string, JString (ascii_bytes "blake3"%string));
                                 (ascii_bytes "manifest_version"%string, JNumber 4294967297)]) →
  parse_manifest mb = Ok (mkArchiveManifest 1 [] []).
Proof. intros Hf. unfold parse_manifest. by rewrite Hf. Qed.

Module ArchiveDemo.
(** Crates whose formats are codes of what they carry, behind the marks the laws ask
    for. *)
Fixpoint pos_bytes (p : positive) : list byte :=
  match p with xH => [Byte.x01] | xO p => Byte.x00 :: pos_bytes p | xI p => Byte.x02 :: pos_bytes p end.
Fixpoint bytes_pos (bs : list byte) : option positive :=
  match bs with
  | Byte.x01 :: _ => Some xH
  | Byte.x00 :: bs' => xO <$> bytes_pos bs'
  | Byte.x02 :: bs' => xI <$> bytes_pos bs'
  | _ => None
  end.
Definition code {A} `{Countable A} (x : A) : list byte := pos_bytes (encode x).
Definition uncode {A} `{Countable A} (bs : list byte) : option A := bytes_pos bs ≫= decode.
Lemma uncode_code {A} `{Countable A} (x : A) rest : uncode (code x ++ rest) = Some x.
Proof.
  unfold uncode, code. assert (bytes_pos (pos_bytes (encode x) ++ rest) = Some (encode x)) as ->.
  { generalize (encode x). intros q. induction q as [q IH|q IH|]; cbn; [by rewrite IH|by rewrite IH|done]. }
  cbn. apply decode_encode.
Qed.

Notation JsonTree := (gen_tree (bool + Z + list byte)).
Fixpoint to_tree (v : Json) : JsonTree :=
  match v with
  | JNull => GenNode 0 []
  | JBool b => GenLeaf (inl (inl b))
  | JNumber n => GenLeaf (inl (inr n))
  | JString s => GenLeaf (inr s)
  | JArray l => GenNode 1 (to_tree <$> l)
  | JObject fields => GenNode 2 ((λ kv, GenNode 3 [GenLeaf (inr kv.1); to_tree kv.2]) <$> fields)
  end.
Fixpoint of_tree (t : JsonTree) : Json :=
  match t with
  | GenLeaf (inl (inl b)) => JBool b
  | GenLeaf (inl (inr n)) => JNumber n
  | GenLeaf (inr s) => JString s
  | GenNode 1 l => JArray (of_tree <$> l)
  | GenNode 2 l => JObject ((λ kv, match kv with GenNode 3 [GenLeaf (inr k); v] => (k, of_tree v) | _ => ([], JNull) end) <$> l)
  | _ => JNull
  end.
Lemma of_to_tree v : of_tree (to_tree v) = v.
Proof.
  revert v. fix IH 1. intros [|b|n|s|l|fields]; [done..| |]; cbn [to_tree of_tree]; f_equal.
  - induction l as [|v l IHl]; [done|]. rewrite !fmap_cons, IH. by f_equal.
  - induction fields as [|[k v] l IHl]; [done|]. rewrite !fmap_cons. cbn [fst snd]. rewrite IH. by f_equal.
Qed.
#[local] Instance Json_eq_dec : EqDecision Json.
Proof. refine (λ v v', cast_if (decide (to_tree v = to_tree v'))); [|congruence]. by rewrite <- (of_to_tree v), <- (of_to_tree v'); f_equal. Defined.
#[local] Instance Json_countable : Countable Json := inj_countable' to_tree of_tree of_to_tree.
#[local] Instance Entry_countable : Countable Entry :=
  inj_countable' (λ e, (en_name e, en_bytes e)) (λ p, mkMember p.1 p.2) (λ e, match e with mkMember _ _ => eq_refl end).

Definition first_byte (members : list Entry) : byte :=
  match members with mkMember (b :: _) _ :: _ => b | _ => Byte.x00 end.
#[local] Instance demo_crates : ArchiveLib := {
  to_vec_pretty := code;
  from_slice := uncode;
  tar members := first_byte members :: code members;
  untar bs := match bs with _ :: rest => uncode rest | [] => None end;
  gzip bs := GZIP_MAGIC ++ bs;
  gunzip bs := Some (drop 2 bs)
}.
#[local] Instance demo_crates_laws : ArchiveLaws.
Proof.
  split; cbn.
  - intros document _. apply uncode_code.
  - intros members _. rewrite <- (app_nil_r (code members)). apply uncode_code.
  - intros [name bytes] members b rest Hn _. cbn in Hn. by subst.
  - done.
  - done.
Qed.

(** A table's text stands for itself. *)
#[local] Instance demo_postgres : Postgres := {
  ledger_names text := match text with [] => [] | _ => [text] end;
  group_rows text := match text with [] => [] | _ => [(ascii_bytes "ws"%string, text)] end;
  max_id _ _ text := Some (Z.of_nat (length text));
  copies_in _ rows := Some rows;
  marker_row := uncode;
  marker_upsert passes _ := code passes
}.
#[local] Instance demo_postgres_laws : PostgresLaws.
Proof. intros passes text. cbn. rewrite <- (app_nil_r (code passes)). apply uncode_code. Qed.

#[local] Instance demo_store : ObjectStore (gmap BlobKey File) := {
  obj_at s k := f_bytes <$> s !! k;
  obj_list s workspace group := Ok (be_name <$> omap (λ e : BlobKey * File,
       if bool_decide (k_workspace e.1 = workspace) && bool_decide (k_group e.1 = group) && negb (hidden (k_hash e.1))
       then Some (mkEntry (k_hash e.1) (f_modified_ms e.2)) else None) (map_to_list s));
  obj_get s k := match s !! k with Some f => Ok (f_bytes f) | None => Err (NotFound (blob_path k)) end;
  obj_put s k body := (Ok tt, <[k := mkFile body None]> s)
}.
#[local] Instance demo_store_laws : ObjectStoreLaws (gmap BlobKey File).
Proof.
  split; cbn.
  - intros s workspace group names [= <-]. apply group_names_distinct, NoDup_fst_map_to_list.
  - intros s key bytes. destruct (s !! key); [|done]. by intros [= <-].
  - intros s key bytes s' [= <-] _. by rewrite lookup_insert_eq.
  - intros s key bytes r s' key' [= <- <-] _ [Hne|Hr]; [by rewrite lookup_insert_ne | done].
Qed.
#[local] Instance demo_blake3 : Blake3 := poly_digest.

Definition tables : TableTexts :=
  {[ LEDGER := ascii_bytes "0001"%string; ascii_bytes "relay_group"%string := [Byte.x0a]; MARKER := [] ]}.
Definition key : BlobKey := mkKey (ascii_bytes "ws"%string) (ascii_bytes "0a"%string) (ascii_bytes "0b"%string).
Definition store : gmap BlobKey File := {[ key := mkFile [Byte.x05] None ]}.
Definition collected : list Entry * Provenance :=
  match collect (Some tables) (Some tables) (Some tables) (Some store) with Ok r => r | Err _ => ([], mkProvenance [] []) end.
#[local] Instance demo_width : Blake3Width := poly_digest_width.


(** What was written is accepted. *)
Definition artifact : list byte := archive_bytes [] [] false collected.1 collected.2.
Definition accepted : Archive := mkArchive (mkArchiveManifest 1 (ascii_bytes "0001"%string) [ascii_bytes "0001"%string]) collected.1.
Lemma capture_fixed_by_manifest_witness :
  read_archive artifact = Ok accepted ∧ NoDup (en_name <$> ar_entries accepted).
Proof.
  assert (read_archive artifact = Ok accepted) as Hr by by vm_compute.
  split; [exact Hr|]. destruct (capture_fixed_by_manifest artifact accepted Hr) as (mb & _ & _ & Hn & _). exact Hn.
Defined.

(** The three reads of a capture are three snapshots: a group that is gone by the
    last one has its row in the capture and its objects nowhere. *)
Definition later : TableTexts := <[ascii_bytes "relay_group"%string := []]> tables.
Lemma capture_misses_objects :
  en_name <$> from_option fst [] (match collect (Some tables) (Some tables) (Some later) (Some store) with Ok r => Some r | Err _ => None end)
  = (λ t, DATABASE_DIR ++ t ++ COPY_SUFFIX) <$> [MARKER; ascii_bytes "relay_group"%string; LEDGER].
Proof. by vm_compute. Qed.
End ArchiveDemo.
