(* ===== verification/Restore.v ===== *)
(** * Restoring a capture

    Models the rest of [backend/wealdrelay/src/restore.rs]: the replacing transaction
    over the texts of tables and their sequences, the blobs, the marker, the receipt,
    the whole command with the calls that may fail, and its arguments. The theorems
    are that a restore replaces the rows whole or not at all and that a backup restores. *)

From Stdlib Require Import ZArith Lia String.
From stdpp Require Import base tactics numbers gmap fin_maps sorting sets list.
From S2P Require Import Prelude Cbor Push Crypto InviteRecord Storage MediaGc Config Archive.

Open Scope Z_scope.

(** ** Loading *)
(** The relay's database: its tables, the next value of every sequence a column
    owns, and the foreign keys as the referring and the referred table. *)
Record Database : Type := mkDatabase {
  db_tables : TableTexts;
  db_sequences : gmap (list byte * list byte) Z;
  db_references : list (list byte * list byte)
}.
Definition with_tables (db : Database) (t : TableTexts) : Database := mkDatabase t (db_sequences db) (db_references db).

(** Where the transaction can fail: at a statement, or at the commit, whose answer
    may be lost after it took effect. *)
Inductive LoadFault : Type := FaultStatement | FaultCommit (took_effect : bool).

(** [truncate] without [cascade]: the tables are there, and no table left out refers
    to one of them. *)
Definition may_truncate (names : list (list byte)) (db : Database) : bool :=
  forallb (λ t, bool_decide (is_Some (db_tables db !! t))) names
  && forallb (λ r, implb (bool_decide (r.2 ∈ names)) (bool_decide (r.1 ∈ names))) (db_references db).
Definition truncated (names : list (list byte)) (db : Database) : Database :=
  mkDatabase (map_imap (λ t text, Some (if bool_decide (t ∈ names) then [] else text)) (db_tables db))
             (map_imap (λ at_ next, Some (if bool_decide (at_.1 ∈ names) then 1 else next)) (db_sequences db))
             (db_references db).

Section loading.
Context `{Postgres}.

Fixpoint copy_tables (tables : list (list byte * list byte)) (t : TableTexts) : option TableTexts :=
  match tables with
  | [] => Some t
  | (table, body) :: tables' =>
      rows ← copies_in table (strip_copy_envelope body);
      copy_tables tables' (<[table := default [] (t !! table) ++ rows]> t)
  end.

(** [setval(sequence, coalesce(max(column), 0) + 1, false)], which refuses a value no
    [bigserial] has. *)
Definition next_id (t : TableTexts) (at_ : list byte * list byte) : Z :=
  default 0 (max_id at_.1 at_.2 (default [] (t !! at_.1))) + 1.
Definition sequence_fits (n : Z) : bool := (1 <=? n) && (n <=? I64_MAX).
Definition set_sequences (names : list (list byte)) (db : Database) : option Database :=
  if bool_decide (map_Forall (λ at_ _, at_.1 ∈ names → sequence_fits (next_id (db_tables db) at_) = true) (db_sequences db))
  then Some (mkDatabase (db_tables db)
         (map_imap (λ at_ next, Some (if bool_decide (at_.1 ∈ names) then next_id (db_tables db) at_ else next)) (db_sequences db))
         (db_references db))
  else None.

Definition loaded (db : Database) (p : LoadPlan) : option Database :=
  let names := (lp_tables p).*1 in
  if may_truncate names db then
    t ← copy_tables (lp_tables p) (db_tables (truncated names db));
    set_sequences names (with_tables (truncated names db) t)
  else None.
Definition load_tables (fault : option LoadFault) (db : Database) (p : LoadPlan) : result RestoreError unit * Database :=
  match loaded db p, fault with
  | Some db', None => (Ok tt, db')
  | Some db', Some (FaultCommit true) => (Err RestoreDatabase, db')
  | _, _ => (Err RestoreDatabase, db)
  end.
End loading.

(** ** The restore command *)
Record RestoreRequest : Type := mkRestoreRequest { rq_from : Destination; rq_receipt : option Destination }.
Record Report : Type := mkReport { rp_tables : Z; rp_blobs : Z }.

Section restore.
Context `{Blake3, ArchiveLib, Postgres} {St : Type} `{ObjectStore St}.
Context (build_version : list byte).

Record RestoreWorld : Type := mkRestoreWorld {
  re_db : Database;
  re_store : St;
  re_receipt : option (list byte)
}.
(** Writing the receipt's file fails, at its opening or after so many bytes, or the
    bucket refuses the staged one. *)
Inductive ReceiptFault : Type := FaultReceiptFile (wrote : option nat) | FaultReceiptPut.
(** What the calls answer: the source's bytes, the connection, the ledger, the
    store, the transaction, the marker and the receipt. *)
Record RestoreCalls : Type := mkRestoreCalls {
  rc_source : option (list byte);
  rc_connects : bool;
  rc_ledger : bool;
  rc_opens : bool;
  rc_load : option LoadFault;
  rc_marks : bool;
  rc_receipt : option ReceiptFault
}.

Fixpoint put_blobs (store : St) (blobs : list (list byte * list byte)) : result RestoreError unit * St :=
  match blobs with
  | [] => (Ok tt, store)
  | (path, body) :: blobs' =>
      match split_path path with
      | [workspace; group; hash] =>
          match blob_key_new workspace group hash with
          | Err _ => (Err RestoreStorage, store)
          | Ok key =>
              match obj_put store key body with
              | (Ok _, store') => put_blobs store' blobs'
              | (Err _, store') => (Err RestoreStorage, store')
              end
          end
      | _ => put_blobs store blobs'
      end
  end.

(** [media::restore::set]. *)
Definition set_marker (db : Database) : Database :=
  with_tables db (<[MARKER := marker_upsert (Z.max SUPPRESSED_PASSES 0) (default [] (db_tables db !! MARKER))]> (db_tables db)).

Definition receipt_document (from : Destination) (r : Report) : list byte :=
  to_vec_pretty (JObject
    [(ascii_bytes "blobs"%string, JNumber (rp_blobs r));
     (ascii_bytes "relay_version"%string, JString build_version);
     (ascii_bytes "restored_from"%string, JString (describe from));
     (ascii_bytes "tables"%string, JNumber (rp_tables r))]) ++ [Byte.x0a].
(** [std::fs::write] creates or truncates the file before it writes: a local receipt
    may be left cut short. *)
Definition write_receipt (calls : RestoreCalls) (request : RestoreRequest) (r : Report) (w : RestoreWorld)
    : result RestoreError Report * RestoreWorld :=
  let left receipt := mkRestoreWorld (re_db w) (re_store w) receipt in
  let body := receipt_document (rq_from request) r in
  match rq_receipt request, rc_receipt calls with
  | None, _ => (Ok r, w)
  | Some _, None => (Ok r, left (Some body))
  | Some (DestLocal _), Some (FaultReceiptFile (Some n)) => (Err RestoreSource, left (Some (take n body)))
  | Some _, Some (FaultReceiptFile _) => (Err RestoreSource, w)
  | Some (DestS3 _ _), Some FaultReceiptPut => (Err RestoreStorage, w)
  | Some (DestLocal _), Some FaultReceiptPut => (Ok r, left (Some body))
  end.

(** What is decided before anything is written: the archive and its plan. *)
Definition admitted_plan (calls : RestoreCalls) (w : RestoreWorld) : result RestoreError LoadPlan :=
  match rc_source calls with
  | None => Err RestoreSource
  | Some bytes =>
      let? archive := map_err RestoreArtifact (read_archive bytes) in
      let? p := map_err RestoreArtifact (plan archive) in
      if negb (rc_connects calls) then Err RestoreDatabase
      else if negb (rc_ledger calls) then Err RestoreDatabase
      else
        let? _ := compatible (ar_manifest archive) (applied_migrations (db_tables (re_db w))) in
        match lp_blobs p with
        | [] => Ok p
        | _ => if rc_opens calls then Ok p else Err RestoreStorage
        end
  end.
Definition report_of (p : LoadPlan) : Report := mkReport (Z.of_nat (length (lp_tables p))) (Z.of_nat (length (lp_blobs p))).
Definition restore_run (calls : RestoreCalls) (request : RestoreRequest) (w : RestoreWorld)
    : result RestoreError Report * RestoreWorld :=
  match admitted_plan calls w with
  | Err e => (Err e, w)
  | Ok p =>
      match load_tables (rc_load calls) (re_db w) p with
      | (Err e, db) => (Err e, mkRestoreWorld db (re_store w) (re_receipt w))
      | (Ok _, db) =>
          match put_blobs (re_store w) (lp_blobs p) with
          | (Err e, store) => (Err e, mkRestoreWorld db store (re_receipt w))
          | (Ok _, store) =>
              if rc_marks calls
              then write_receipt calls request (report_of p) (mkRestoreWorld (set_marker db) store (re_receipt w))
              else (Err RestoreDatabase, mkRestoreWorld db store (re_receipt w))
          end
      end
  end.
End restore.
#[global] Arguments RestoreWorld St : clear implicits.

Fixpoint restore_args (args : list (list byte)) (from receipt : option (list byte))
    : result ArgError (option (list byte) * option (list byte)) :=
  match args with
  | [] => Ok (from, receipt)
  | arg :: rest =>
      match flag_value FLAG_RECEIPT arg with
      | Some value => if is_set receipt then Err (GivenTwice FLAG_RECEIPT) else restore_args rest from (Some value)
      | None =>
          if bool_decide (arg = FLAG_RECEIPT) then
            if is_set receipt then Err (GivenTwice FLAG_RECEIPT)
            else match rest with
                 | value :: rest' => restore_args rest' from (Some value)
                 | [] => Err (NeedsPath FLAG_RECEIPT)
                 end
          else
            match flag_value FLAG_FROM arg with
            | Some value => if is_set from then Err (GivenTwice FLAG_FROM) else restore_args rest (Some value) receipt
            | None =>
                if bool_decide (arg = FLAG_FROM) then
                  if is_set from then Err (GivenTwice FLAG_FROM)
                  else match rest with
                       | value :: rest' => restore_args rest' (Some value) receipt
                       | [] => Err (NeedsPath FLAG_FROM)
                       end
                else Err (UnknownArgument arg)
            end
      end
  end.
Definition restore_parse_args (args : list (list byte)) : result ArgError RestoreRequest :=
  let? parsed := restore_args args None None in
  let '(from, receipt) := parsed in
  let? receipt := match receipt with
                  | None => Ok None
                  | Some value =>
                      if bool_decide (value = []) then Err (NeedsPath FLAG_RECEIPT)
                      else let? d := destination_parse value in Ok (Some d)
                  end in
  match from with
  | Some path =>
      if bool_decide (path = []) then Err (NeedsPath FLAG_FROM)
      else let? from := destination_parse path in Ok (mkRestoreRequest from receipt)
  | None => Err (RequiredFlag FLAG_FROM)
  end.

Section planned.
Context `{Postgres} {St : Type} `{ObjectStore St, !ObjectStoreLaws St}.
Implicit Types (e : Entry) (store : St).

(** A name of a group that is a key. *)
Definition listed_key (store : St) (groups : list (list byte * list byte)) (k : BlobKey) : Prop :=
  ∃ w g name names, (w, g) ∈ groups ∧ obj_list store w g = Ok names ∧ name ∈ names ∧ blob_key_new w g name = Ok k.

Lemma collect_groups_Ok store groups found :
  NoDup groups → map_result (collect_group store) groups = Ok found →
  Forall (blob_member store) (mjoin found) ∧ NoDup (en_name <$> mjoin found)
  ∧ (∀ e, e ∈ mjoin found → ∃ w g name k, (w, g) ∈ groups ∧ blob_key_new w g name = Ok k ∧ en_name e = BLOBS_DIR ++ blob_path k)
  ∧ ∀ k, listed_key store groups k →
      ∃ e, e ∈ mjoin found ∧ en_name e = BLOBS_DIR ++ blob_path k ∧ obj_get store k = Ok (en_bytes e).
Proof.
  intros Hnd Hf%map_result_Ok. induction Hf as [|[w g] es groups found Hg Hf IH].
  { split_and!; [constructor | constructor | set_solver |]. intros k (? & ? & ? & ? & ? & _). set_solver. }
  apply NoDup_cons in Hnd as [Hnew Hnd]. destruct (IH Hnd) as (Hb & Hd & Hout & Hin).
  apply collect_group_Ok in Hg as (names & Hl & Hbg & Hing & Houtg & Hdg). change (mjoin (es :: found)) with (es ++ mjoin found).
  split_and!.
  - by apply Forall_app.
  - rewrite fmap_app. apply NoDup_app. split_and!; [done | | done].
    intros n (e & -> & He)%list_elem_of_fmap (e' & Heq & He')%list_elem_of_fmap.
    destruct (Houtg e He) as (name & k & _ & Hk & Hn). destruct (Hout e' He') as (w' & g' & name' & k' & Hg' & Hk' & Hn').
    rewrite Hn, Hn' in Heq. apply (inj (app BLOBS_DIR)) in Heq. pose proof (blob_path_inj _ _ _ _ _ _ _ _ Hk Hk' Heq) as <-.
    apply blob_key_new_Ok in Hk as [-> _], Hk' as [[= <- <- _] _]. done.
  - intros e [He|He]%elem_of_app.
    + destruct (Houtg e He) as (name & k & _ & ? & ?). exists w, g, name, k. set_solver.
    + destruct (Hout e He) as (w' & g' & name & k & ? & ? & ?). exists w', g', name, k. set_solver.
  - intros k (w' & g' & name & names' & [[= -> ->]|Hg']%elem_of_cons & Hl' & Hn & Hk).
    + assert (names' = names) as -> by congruence. destruct (Hing name k Hn Hk) as (e & ? & ?). exists e. set_solver.
    + destruct (Hin k) as (e & ? & ?); [by exists w', g', name, names'|]. exists e. set_solver.
Qed.

(** The plan of what was collected: every table with its dump, every blob under its
    path. *)
Lemma classify_tables tables names dumps rest ts bs :
  Forall2 (table_member tables) names dumps → [] ∉ names → MIGRATIONS_TABLE ∉ names →
  classify (dumps ++ rest) ts bs = classify rest (ts ++ zip names (en_bytes <$> dumps)) bs.
Proof.
  intros Hf. revert ts. induction Hf as [|t e names dumps (Ht & Hn & _) Hf IH]; intros ts Hne Hm; cbn [app fmap list_fmap zip_with].
  { by rewrite app_nil_r. }
  cbn [classify]. rewrite Hn. assert (strip_prefix DATABASE_DIR (DATABASE_DIR ++ t ++ COPY_SUFFIX) = Some (t ++ COPY_SUFFIX)) as ->
    by by apply strip_prefix_spec.
  rewrite strip_suffix_app, Ht, (bool_decide_false (t = [])), (bool_decide_false (t = MIGRATIONS_TABLE)) by set_solver.
  cbn [orb negb]. rewrite IH by set_solver. by rewrite <- app_assoc.
Qed.
Definition blob_pair (e : Entry) : list byte * list byte := (drop (length BLOBS_DIR) (en_name e), en_bytes e).
Lemma classify_blobs store blobs ts bs :
  Forall (blob_member store) blobs → classify blobs ts bs = Ok (mkLoadPlan ts (bs ++ (blob_pair <$> blobs))).
Proof.
  intros Hf. revert bs. induction Hf as [|e blobs (w & g & h & k & Hk & Hn & _) Hf IH]; intros bs; cbn [classify].
  { by rewrite app_nil_r. }
  rewrite Hn. change (strip_prefix DATABASE_DIR (BLOBS_DIR ++ blob_path k)) with (@None (list byte)).
  assert (strip_prefix BLOBS_DIR (BLOBS_DIR ++ blob_path k) = Some (blob_path k)) as -> by by apply strip_prefix_spec.
  rewrite (blob_path_parts _ _ _ _ Hk), Hk, IH. rewrite <- app_assoc. do 3 f_equal.
  rewrite fmap_cons. unfold blob_pair at 2. by rewrite Hn, drop_app_length.
Qed.

Lemma insert_named_perm {A} (x : list byte * A) l : insert_named x l ≡ₚ x :: l.
Proof.
  induction l as [|y l IH]; cbn; [done|]. destruct (bytes_ltb y.1 x.1); [|done]. rewrite IH. apply Permutation_swap.
Qed.
Lemma sort_named_perm {A} (l : list (list byte * A)) : sort_named l ≡ₚ l.
Proof. induction l as [|x l IH]; cbn; [done|]. by rewrite insert_named_perm, IH. Qed.

Lemma plan_collected tables store dumps blobs m :
  Forall2 (table_member tables) (table_names tables) dumps → Forall (blob_member store) blobs →
  tables ≠ ∅ → [] ∉ table_names tables → MIGRATIONS_TABLE ∉ table_names tables →
  plan (mkArchive m (dumps ++ blobs))
  = Ok (mkLoadPlan (sort_named (zip (table_names tables) (en_bytes <$> dumps))) (sort_named (blob_pair <$> blobs))).
Proof.
  intros Hd Hb Hne He Hm. unfold plan. cbn [ar_entries]. rewrite (classify_tables tables _ _ _ _ _ Hd He Hm), (classify_blobs store) by done.
  cbn [result_bind lp_tables lp_blobs app]. destruct (zip _ _) as [|x l] eqn:Hz; [|done]. exfalso.
  assert (length (zip (table_names tables) (en_bytes <$> dumps)) = 0%nat) as Hl by by rewrite Hz.
  rewrite length_zip, length_fmap in Hl. pose proof (Forall2_length _ _ _ Hd) as Hlen.
  unfold table_names in Hlen, Hl. rewrite length_bytes_sort, length_fmap, length_map_to_list in Hlen, Hl.
  apply Hne, map_size_empty_iff. lia.
Qed.
End planned.

(** ** What loading does *)
Section load_facts.
Context `{Postgres}.
Implicit Types (t : list byte) (m : TableTexts) (db : Database) (p : LoadPlan).
Notation bodies l := (list_to_map l : TableTexts).

Lemma copy_tables_spec l m m' :
  copy_tables l m = Some m' → NoDup l.*1 →
  ∀ t, m' !! t = match bodies l !! t with
                 | Some body => (λ rows, default [] (m !! t) ++ rows) <$> copies_in t (strip_copy_envelope body)
                 | None => m !! t
                 end.
Proof.
  revert m. induction l as [|[t0 body] l IH]; intros m; cbn [copy_tables]; [by intros [= <-]|].
  destruct (copies_in t0 _) as [rows|] eqn:Hc; [|done]. cbn [mbind option_bind]. intros Hcopy. rewrite fmap_cons. intros [Hnew Hnd]%NoDup_cons t.
  rewrite (IH _ Hcopy Hnd t), list_to_map_cons. destruct (decide (t = t0)) as [->|Hne].
  - cbn in Hnew. rewrite (not_elem_of_list_to_map_1 _ _ Hnew), !lookup_insert_eq. by rewrite Hc.
  - by rewrite !lookup_insert_ne by done.
Qed.
Lemma copy_tables_total l m :
  Forall (λ tb, is_Some (copies_in tb.1 (strip_copy_envelope tb.2))) l → is_Some (copy_tables l m).
Proof.
  intros Hl. revert m. induction Hl as [|[t body] l [rows Hr] Hl IH]; intros m; [by eexists|]. cbn [copy_tables fst snd] in *.
  rewrite Hr. apply IH.
Qed.
Lemma bodies_elem (l : list (list byte * list byte)) t : is_Some (bodies l !! t) ↔ t ∈ l.*1.
Proof.
  split.
  - intros [body Hb%elem_of_list_to_map_2]. apply list_elem_of_fmap. by exists (t, body).
  - intros Ht. apply not_eq_None_Some. intros Hn. by apply not_elem_of_list_to_map_2 in Hn.
Qed.

(** The tables of the plan hold the rows it carries and nothing else, every other
    table is as it was, and every sequence of a loaded table is past its ids. *)
Lemma loaded_spec db p db' :
  loaded db p = Some db' → NoDup (lp_tables p).*1 →
  (∀ t, db_tables db' !! t = match bodies (lp_tables p) !! t with
                             | Some body => copies_in t (strip_copy_envelope body)
                             | None => db_tables db !! t
                             end)
  ∧ (∀ at_, db_sequences db' !! at_ =
       (λ next, if bool_decide (at_.1 ∈ (lp_tables p).*1) then next_id (db_tables db') at_ else next) <$> db_sequences db !! at_)
  ∧ db_references db' = db_references db.
Proof.
  unfold loaded. set (names := (lp_tables p).*1). destruct (may_truncate names db) eqn:Ht; [|done].
  destruct (copy_tables _ _) as [m|] eqn:Hc; [|done]. cbn [mbind option_bind]. unfold set_sequences. case_bool_decide; [|done]. intros [= <-] Hnd.
  cbn [db_tables db_sequences db_references with_tables truncated].
  split_and!; [| |done].
  - intros t. rewrite (copy_tables_spec _ _ _ Hc Hnd). cbn [db_tables truncated]. rewrite map_lookup_imap.
    destruct (bodies (lp_tables p) !! t) as [body|] eqn:Hb.
    + assert (t ∈ names) as Hin by (apply bodies_elem; by eexists). unfold may_truncate in Ht. apply andb_true_iff in Ht as [Hall _].
      rewrite forallb_forall in Hall. specialize (Hall t ltac:(by apply list_elem_of_In)). apply bool_decide_eq_true in Hall as [text Htext].
      rewrite Htext. cbn. rewrite bool_decide_true by done. cbn. by destruct (copies_in t _).
    + assert (t ∉ names) as Hin by (intros Hin%bodies_elem; rewrite Hb in Hin; by apply is_Some_None in Hin).
      destruct (db_tables db !! t); [|done]. cbn. by rewrite bool_decide_false.
  - intros at_. rewrite !map_lookup_imap. destruct (db_sequences db !! at_); [|done]. cbn. by case_bool_decide.
Qed.

(** A sequence of a loaded table is past every id the table holds. *)
Lemma sequences_past db p db' t c next (m : Z) :
  loaded db p = Some db' → NoDup (lp_tables p).*1 → db_sequences db' !! (t, c) = Some next →
  is_Some (bodies (lp_tables p) !! t) → max_id t c (default [] (db_tables db' !! t)) = Some m → m < next.
Proof.
  intros Hl Hnd Hn Ht Hm. destruct (loaded_spec _ _ _ Hl Hnd) as (_ & Hsq & _). rewrite Hsq in Hn.
  destruct (db_sequences db !! (t, c)); [|done]. cbn in Hn. rewrite bool_decide_true in Hn by by apply bodies_elem.
  injection Hn as <-. unfold next_id. cbn. rewrite Hm. cbn. lia.
Qed.
Lemma loaded_total db p m :
  may_truncate (lp_tables p).*1 db = true → NoDup (lp_tables p).*1 →
  Forall (λ tb, copies_in tb.1 (strip_copy_envelope tb.2) = m !! tb.1) (lp_tables p) → (∀ t, t ∈ (lp_tables p).*1 → is_Some (m !! t)) →
  (∀ at_, at_.1 ∈ (lp_tables p).*1 → is_Some (db_sequences db !! at_) → sequence_fits (next_id m at_) = true) →
  ∃ db', loaded db p = Some db'.
Proof.
  intros Ht Hnd Hc Hm Hs. unfold loaded. rewrite Ht. set (names := (lp_tables p).*1) in *.
  destruct (copy_tables_total (lp_tables p) (db_tables (truncated names db))) as [t Hcopy].
  { rewrite Forall_forall in *. intros tb Htb. rewrite (Hc tb Htb). apply Hm, list_elem_of_fmap. eauto. }
  rewrite Hcopy. cbn [mbind option_bind]. unfold set_sequences. rewrite bool_decide_true; [by eexists|].
  intros at_ next Hnext Hin. cbn [db_sequences with_tables truncated db_tables] in *. rewrite map_lookup_imap in Hnext.
  destruct (db_sequences db !! at_) as [old|] eqn:Hold; [|done]. rewrite <- (Hs at_ Hin) by (rewrite Hold; by eexists). f_equal. unfold next_id. do 4 f_equal.
  rewrite (copy_tables_spec _ _ _ Hcopy Hnd). cbn [db_tables truncated]. rewrite map_lookup_imap.
  destruct (proj2 (bodies_elem (lp_tables p) at_.1) Hin) as [body Hb]. rewrite Hb. apply elem_of_list_to_map_2 in Hb.
  rewrite Forall_forall in Hc. specialize (Hc _ Hb). cbn in Hc. rewrite Hc.
  destruct (Hm at_.1 Hin) as [text Htext]. rewrite Htext. cbn. destruct (db_tables db !! at_.1); cbn; [|done]. by rewrite bool_decide_true.
Qed.
End load_facts.

(** ** What putting the blobs does *)
Fixpoint join_path (parts : list (list byte)) : list byte :=
  match parts with
  | [] => []
  | [part] => part
  | part :: rest => part ++ SLASH :: join_path rest
  end.
Lemma split_path_nonempty bs : split_path bs ≠ [].
Proof. destruct bs as [|b bs]; [done|]. cbn. case_bool_decide; [done|]. by destruct (split_path bs). Qed.
Lemma join_split bs : join_path (split_path bs) = bs.
Proof.
  induction bs as [|b bs IH]; [done|]. cbn [split_path]. pose proof (split_path_nonempty bs) as Hne.
  case_bool_decide as Hb; destruct (split_path bs) as [|part [|part' parts]]; [done|..|done| |]; cbn [join_path app] in *; subst; done.
Qed.
Lemma split_path_key path w g h k : split_path path = [w; g; h] → blob_key_new w g h = Ok k → path = blob_path k.
Proof. intros Hp (-> & _)%blob_key_new_Ok. rewrite <- (join_split path), Hp. done. Qed.

Section put_facts.
Context {St : Type} `{ObjectStore St, !ObjectStoreLaws St}.

Lemma put_blobs_spec (s : St) l r s' :
  put_blobs s l = (r, s') → NoDup l.*1 →
  ∀ w g h k, blob_key_new w g h = Ok k → addressable k →
  match (list_to_map l : gmap (list byte) (list byte)) !! blob_path k with
  | Some body => obj_at s' k = Some body ∨ is_ok r = false ∧ obj_at s' k = obj_at s k
  | None => obj_at s' k = obj_at s k
  end.
Proof.
  revert s. induction l as [|[path body] l IH]; intros s; cbn [put_blobs]; [by intros [= <- <-]|].
  rewrite fmap_cons. intros Hp [Hnew Hnd]%NoDup_cons w g h k Hk Ha. rewrite list_to_map_cons. cbn [fst snd] in *.
  assert (split_path (blob_path k) = [w; g; h]) as Hparts by by apply blob_path_parts.
  destruct (decide (blob_path k = path)) as [<-|Hne].
  - rewrite lookup_insert_eq. rewrite Hparts, Hk in Hp. destruct (obj_put s k body) as [[[]|e] s1] eqn:Hput.
    + specialize (IH s1 Hp Hnd w g h k Hk Ha). rewrite (not_elem_of_list_to_map_1 _ _ Hnew) in IH. left. rewrite IH.
      by eapply obj_put_at.
    + injection Hp as <- <-. right. split; [done|]. eapply obj_put_other; [done..|]. by right.
  - rewrite lookup_insert_ne by done. destruct (split_path path) as [|w1 [|g1 [|h1 [|]]]] eqn:Hs; try by eapply IH.
    destruct (blob_key_new w1 g1 h1) as [k1|] eqn:Hk1.
    2: { injection Hp as <- <-. destruct (_ !! _); eauto. }
    assert (k ≠ k1) as Hkk by (intros ->; apply Hne; symmetry; by eapply split_path_key).
    destruct (obj_put s k1 body) as [r1 s1] eqn:Hput.
    assert (obj_at s1 k = obj_at s k) as Hsame by (eapply obj_put_other; [done..|]; by left).
    destruct r1 as [[]|e].
    + specialize (IH s1 Hp Hnd w g h k Hk Ha). by rewrite Hsame in IH.
    + injection Hp as <- <-. rewrite Hsame. destruct (_ !! _); eauto.
Qed.
Lemma put_blobs_total (s : St) l :
  (∀ s k body, is_ok (obj_put s k body).1 = true) →
  Forall (λ b, ∃ w g h k, split_path b.1 = [w; g; h] ∧ blob_key_new w g h = Ok k) l → ∃ s', put_blobs s l = (Ok tt, s').
Proof.
  intros Hok Hl. revert s. induction Hl as [|[path body] l (w & g & h & k & Hp & Hk) Hl IH]; intros s; [by eexists|].
  cbn [put_blobs fst] in *. rewrite Hp, Hk. specialize (Hok s k body). destruct (obj_put s k body) as [[[]|] s1]; [apply IH | done].
Qed.
End put_facts.

(** ** The plan of an accepted capture *)
Lemma classify_distinct entries ts bs p :
  classify entries ts bs = Ok p → NoDup (en_name <$> entries) → NoDup ts.*1 → NoDup bs.*1 →
  (∀ t, t ∈ ts.*1 → DATABASE_DIR ++ t ++ COPY_SUFFIX ∉ en_name <$> entries) →
  (∀ path, path ∈ bs.*1 → BLOBS_DIR ++ path ∉ en_name <$> entries) →
  NoDup (lp_tables p).*1 ∧ NoDup (lp_blobs p).*1.
Proof.
  revert ts bs. induction entries as [|e entries IH]; intros ts bs; cbn [classify]; [by intros [= <-]|].
  rewrite fmap_cons. intros Hc [Hnew Hnd]%NoDup_cons Ht Hb Hts Hbs.
  destruct (strip_prefix DATABASE_DIR (en_name e)) as [rest|] eqn:Hd.
  - destruct (strip_suffix COPY_SUFFIX rest) as [t|] eqn:Hs; [|done]. destruct (bool_decide (t = []) || _); [done|].
    apply strip_prefix_spec in Hd. apply strip_suffix_spec in Hs as ->.
    case_bool_decide; [eapply IH; [done..|set_solver|set_solver]|]. eapply IH; [done|done| |done| |set_solver].
    + rewrite fmap_app. apply NoDup_app. split_and!; [done| |by apply NoDup_singleton]. intros t' Ht' ->%list_elem_of_singleton.
      apply (Hts t Ht'). rewrite Hd. set_solver.
    + intros t'. rewrite fmap_app. intros [Ht'| ->%list_elem_of_singleton]%elem_of_app; [set_solver|]. cbn [fst]. by rewrite <- Hd.
  - destruct (strip_prefix BLOBS_DIR (en_name e)) as [rest|] eqn:Hp; [|done]. apply strip_prefix_spec in Hp.
    destruct (split_path rest) as [|w [|g [|h [|]]]]; try done. destruct (blob_key_new w g h); [|done].
    eapply IH; [done..| |set_solver|].
    + rewrite fmap_app. apply NoDup_app. split_and!; [done| |by apply NoDup_singleton]. intros b' Hb' ->%list_elem_of_singleton.
      apply (Hbs rest Hb'). rewrite Hp. set_solver.
    + intros b'. rewrite fmap_app. intros [Hb'| ->%list_elem_of_singleton]%elem_of_app; [set_solver|]. cbn [fst]. by rewrite <- Hp.
Qed.
Lemma plan_distinct archive p :
  plan archive = Ok p → NoDup (en_name <$> ar_entries archive) → NoDup (lp_tables p).*1 ∧ NoDup (lp_blobs p).*1.
Proof.
  unfold plan. destruct (classify _ [] []) as [p0|] eqn:Hc; [|done]. cbn [result_bind].
  intros Hp Hnd. assert (p = mkLoadPlan (sort_named (lp_tables p0)) (sort_named (lp_blobs p0))) as -> by (destruct (lp_tables p0); [done | by injection Hp as <-]).
  cbn [lp_tables lp_blobs]. rewrite !sort_named_perm. eapply classify_distinct; [done|done|constructor|constructor|set_solver|set_solver].
Qed.

Section restoring.
Context `{Blake3, ArchiveLib, Postgres} {St : Type} `{ObjectStore St, !ObjectStoreLaws St}.
Notation bodies l := (list_to_map l : gmap (list byte) (list byte)).

Lemma admitted_plan_Ok calls (w : RestoreWorld St) p :
  admitted_plan calls w = Ok p →
  ∃ bytes archive, rc_source calls = Some bytes ∧ read_archive bytes = Ok archive ∧ plan archive = Ok p
  ∧ am_migrations (ar_manifest archive) = applied_migrations (db_tables (re_db w)).
Proof.
  unfold admitted_plan. destruct (rc_source calls) as [bytes|]; [|done]. destruct (read_archive bytes) as [archive|] eqn:Hr; [|done].
  cbn [map_err result_bind]. destruct (plan archive) as [p0|] eqn:Hp; [|done]. cbn [map_err result_bind].
  destruct (rc_connects calls), (rc_ledger calls); try done. cbn [negb]. unfold compatible. case_bool_decide; [|done]. cbn [result_bind].
  intros Hok. exists bytes, archive. split_and!; [done..| |done]. destruct (lp_blobs p0); [|destruct (rc_opens calls)]; congruence.
Qed.

(** C30. A restore replaces the rows of every table or of none, whatever fails on the
    way, and loses no object. Either the database, the store and the receipt are as
    they were and the command says so; or the capture verified, its migrations are
    this database's, and in one commit every table it carries got exactly the rows it
    carries, the sequences of those tables are past their ids, and every other table
    and every reference is as it was. (The migration record itself is outside this
    claim.) The objects are put after that commit, one by one: each is as it was or is
    the one the capture carries under its name, and when the store refuses one the
    command fails with some put and some not. The command succeeds only when every
    object is in place, the sweep is suppressed and the receipt asked for is whole;
    when it fails the receipt is as it was, or a local file cut short by the failed
    write. *)
Theorem restore_rows_all_or_nothing version calls request (w w' : RestoreWorld St) r :
  restore_run version calls request w = (r, w') →
  w' = w ∧ is_ok r = false
  ∨ ∃ bytes archive p db,
      rc_source calls = Some bytes ∧ read_archive bytes = Ok archive ∧ plan archive = Ok p
      ∧ am_migrations (ar_manifest archive) = applied_migrations (db_tables (re_db w))
      ∧ (∀ t, t ≠ LEDGER →
           db_tables db !! t = match bodies (lp_tables p) !! t with
                               | Some body => copies_in t (strip_copy_envelope body)
                               | None => db_tables (re_db w) !! t
                               end)
      ∧ (∀ t c next m, db_sequences db !! (t, c) = Some next → is_Some (bodies (lp_tables p) !! t) →
           max_id t c (default [] (db_tables db !! t)) = Some m → m < next)
      ∧ db_references db = db_references (re_db w)
      ∧ (∀ ws g h k, blob_key_new ws g h = Ok k → addressable k →
           obj_at (re_store w') k = obj_at (re_store w) k
           ∨ is_Some (bodies (lp_blobs p) !! blob_path k) ∧ obj_at (re_store w') k = bodies (lp_blobs p) !! blob_path k)
      ∧ let body := receipt_document version (rq_from request) (report_of p) in
        if is_ok r then
          r = Ok (report_of p) ∧ re_db w' = set_marker db
          ∧ (∀ ws g h k body, blob_key_new ws g h = Ok k → addressable k → bodies (lp_blobs p) !! blob_path k = Some body →
               obj_at (re_store w') k = Some body)
          ∧ re_receipt w' = (if is_set (rq_receipt request) then Some body else re_receipt w)
        else
          (re_db w' = db ∨ re_db w' = set_marker db)
          ∧ (re_receipt w' = re_receipt w
             ∨ ∃ path n, rq_receipt request = Some (DestLocal path) ∧ rc_receipt calls = Some (FaultReceiptFile (Some n))
                 ∧ re_receipt w' = Some (take n body)).
Proof.
  unfold restore_run. destruct (admitted_plan calls w) as [p|] eqn:Hp; [|intros [= <- <-]; by left].
  apply admitted_plan_Ok in Hp as (bytes & archive & Hs & Hr & Hp & Hm).
  assert (NoDup (lp_tables p).*1 ∧ NoDup (lp_blobs p).*1) as [Hnt Hnb].
  { apply (plan_distinct archive p Hp). apply read_archive_Ok in Hr as (mb & _ & Hv & Hn). by apply Hn. }
  unfold load_tables. destruct (loaded (re_db w) p) as [db|] eqn:Hl; [|intros [= <- <-]; left; by destruct w].
  destruct (loaded_spec _ _ _ Hl Hnt) as (Htabs & Hsq & Hrefs).
  assert (∀ t c next m, db_sequences db !! (t, c) = Some next → is_Some (bodies (lp_tables p) !! t) →
    max_id t c (default [] (db_tables db !! t)) = Some m → m < next) as Hseqs by (intros t c next m; exact (sequences_past _ _ _ t c next m Hl Hnt)).
  assert (∀ r1 s1, put_blobs (re_store w) (lp_blobs p) = (r1, s1) → ∀ ws g h k, blob_key_new ws g h = Ok k → addressable k →
    obj_at s1 k = obj_at (re_store w) k ∨ is_Some (bodies (lp_blobs p) !! blob_path k) ∧ obj_at s1 k = bodies (lp_blobs p) !! blob_path k) as Hputs.
  { intros r1 s1 Hput ws g h k Hk Ha. pose proof (put_blobs_spec _ _ _ _ Hput Hnb ws g h k Hk Ha) as Hsp.
    destruct (_ !! blob_path k) eqn:Hb; [|by left]. destruct Hsp as [Hsp|[_ Hsp]]; [right; rewrite Hsp; eauto | by left]. }
  destruct (rc_load calls) as [[|[]]|]; [intros [= <- <-]; left; by destruct w|..|intros [= <- <-]; left; by destruct w|].
  { intros [= <- <-]. right. exists bytes, archive, p, db. cbn [re_db re_store re_receipt is_ok]. split_and!; auto. }
  destruct (put_blobs (re_store w) (lp_blobs p)) as [[[]|e] s1] eqn:Hput; cbn [fst snd].
  2: { intros [= <- <-]. right. exists bytes, archive, p, db. cbn [re_db re_store re_receipt is_ok]. split_and!; auto. by eapply Hputs. }
  assert (∀ ws g h k body, blob_key_new ws g h = Ok k → addressable k → bodies (lp_blobs p) !! blob_path k = Some body →
               obj_at s1 k = Some body) as Hall.
  { intros ws g h k body Hk Ha Hb. pose proof (put_blobs_spec _ _ _ _ Hput Hnb ws g h k Hk Ha) as Hsp. rewrite Hb in Hsp. naive_solver. }
  intros Hrun. right. exists bytes, archive, p, db. split_and!; auto.
  - destruct (rc_marks calls); [|injection Hrun as <- <-; by eapply Hputs]. unfold write_receipt in Hrun.
    destruct (rq_receipt request) as [[]|], (rc_receipt calls) as [[[]|]|]; injection Hrun as <- <-; by eapply Hputs.
  - destruct (rc_marks calls); [|injection Hrun as <- <-; split; auto]. unfold write_receipt in Hrun.
    destruct (rq_receipt request) as [[]|], (rc_receipt calls) as [[[]|]|]; injection Hrun as <- <-; cbn; split_and!; eauto 10.
Qed.
End restoring.

(** ** A capture restores *)
Section round_trip.
Context `{Blake3, !Blake3Width, ArchiveLib, !ArchiveLaws, Postgres, !PostgresLaws} {St : Type} `{ObjectStore St, !ObjectStoreLaws St}.
Implicit Types (tables : TableTexts) (entries dumps blobs : list Entry) (store : St).

(** The database that is captured: its tables' names and rows are what Postgres
    keeps, and no two groups are one row. *)
Definition relay_tables (tables : TableTexts) : Prop :=
  tables ≠ ∅ ∧ [] ∉ dom tables ∧ MIGRATIONS_TABLE ∉ dom tables ∧ NoDup (blob_groups tables)
  ∧ ∀ t text, tables !! t = Some text → copies_in t text = Some text.
Definition portable (e : Entry) : Prop := sized e ∧ Byte.x00 ∉ en_name e.
(** The database that is restored into: the same tables and migrations, references
    among them, and sequences that can be set past the captured ids. *)
Definition ready_for (tables : TableTexts) (db : Database) : Prop :=
  dom (db_tables db) = dom tables ∧ applied_migrations (db_tables db) = applied_migrations tables
  ∧ Forall (λ r, r.1 ∈ dom tables) (db_references db)
  ∧ ∀ at_, at_.1 ∈ dom tables → is_Some (db_sequences db !! at_) → sequence_fits (next_id tables at_) = true.

Lemma elem_of_table_names tables t : t ∈ table_names tables ↔ t ∈ dom tables.
Proof.
  unfold table_names. rewrite elem_of_bytes_sort, list_elem_of_fmap, elem_of_dom. split.
  - intros ([t' x] & -> & Hx%elem_of_map_to_list). by eexists.
  - intros [x Hx]. exists (t, x). split; [done | by apply elem_of_map_to_list].
Qed.
Lemma table_names_distinct tables : NoDup (table_names tables).
Proof. unfold table_names. rewrite bytes_sort_perm. apply NoDup_fst_map_to_list. Qed.

Lemma dumps_names tables names dumps :
  Forall2 (table_member tables) names dumps → en_name <$> dumps = (λ t, DATABASE_DIR ++ t ++ COPY_SUFFIX) <$> names.
Proof. induction 1 as [|t e names dumps (_ & Hn & _) _ IH]; [done|]. rewrite !fmap_cons, Hn. by f_equal. Qed.
Lemma dumps_bodies tables names dumps :
  Forall2 (table_member tables) names dumps →
  Forall (λ tb, strip_copy_envelope tb.2 = default [] (tables !! tb.1)) (zip names (en_bytes <$> dumps)) ∧ (zip names (en_bytes <$> dumps)).*1 = names.
Proof.
  induction 1 as [|t e names dumps (_ & _ & Hd) _ [IH1 IH2]]; [by split|]. rewrite fmap_cons. cbn [zip_with]. split.
  - apply Forall_cons. split; [|done]. by eapply strip_dump.
  - rewrite fmap_cons, IH2. done.
Qed.
Lemma blobs_paths store blobs :
  Forall (blob_member store) blobs →
  en_name <$> blobs = (λ b, BLOBS_DIR ++ b.1) <$> (blob_pair <$> blobs)
  ∧ Forall (λ b, ∃ w g h k, split_path b.1 = [w; g; h] ∧ blob_key_new w g h = Ok k) (blob_pair <$> blobs).
Proof.
  induction 1 as [|e blobs (w & g & h & k & Hk & Hn & _) _ [IH1 IH2]]; [by split|]. rewrite !fmap_cons.
  assert ((blob_pair e).1 = blob_path k) as Hp by (unfold blob_pair; cbn [fst]; by rewrite Hn, drop_app_length).
  split; [rewrite IH1, Hp, Hn; done|]. apply Forall_cons. split; [|done]. exists w, g, h, k. rewrite Hp. split; [|done]. by apply blob_path_parts.
Qed.

Lemma dump_name_plain t : forallb table_char t = true → Byte.x00 ∉ DATABASE_DIR ++ t ++ COPY_SUFFIX → plain_name (DATABASE_DIR ++ t ++ COPY_SUFFIX).
Proof.
  intros Ht Hn. split; [|done]. change DATABASE_DIR with (DATABASE_ ++ [SLASH]). rewrite split_path_dir by (vm_compute; set_solver).
  rewrite split_path_plain.
  - apply Forall_cons. split; [done|]. apply Forall_singleton. unfold name_part_ok. rewrite negb_true_iff, !orb_false_iff, !bool_decide_eq_false.
    assert (5 ≤ length (t ++ COPY_SUFFIX))%nat as Hl by (rewrite length_app; cbn; lia).
    split_and!; intros Heq; rewrite Heq in Hl; cbn in Hl; lia.
  - apply not_elem_of_app. split; [by apply table_avoids | vm_compute; set_solver].
Qed.
Lemma dumps_plain tables names dumps :
  Forall2 (table_member tables) names dumps → Forall portable dumps → Forall (λ e, plain_name (en_name e)) dumps.
Proof.
  induction 1 as [|t e names dumps (Ht & Hn & _) Hd IH]; [done|]. intros [[_ Hz] Hp]%Forall_cons.
  apply Forall_cons. split; [|by apply IH]. rewrite Hn in *. by apply dump_name_plain.
Qed.
Lemma blob_name_plain w g h k : blob_key_new w g h = Ok k → Byte.x00 ∉ BLOBS_DIR ++ blob_path k → plain_name (BLOBS_DIR ++ blob_path k).
Proof.
  intros Hk Hn. split; [|done]. change BLOBS_DIR with (BLOBS_ ++ [SLASH]). rewrite split_path_dir by (vm_compute; set_solver).
  rewrite (blob_path_parts _ _ _ _ Hk). apply blob_key_new_Ok in Hk as (_ & Hw & Hg & Hh).
  repeat (apply Forall_cons; split; [try done; by apply component_part_ok|]). done.
Qed.

(** What a capture holds reads back from its artifact, plain or compressed. *)
Lemma capture_reads bn bv gz tables store dumps blobs p :
  Forall2 (table_member tables) (table_names tables) dumps → Forall (blob_member store) blobs → NoDup (en_name <$> blobs) →
  Forall portable (dumps ++ blobs) →
  read_archive (archive_bytes bn bv gz (dumps ++ blobs) p)
  = Ok (mkArchive (mkArchiveManifest MANIFEST_VERSION (pv_schema_version p) (pv_migrations p)) (dumps ++ blobs)).
Proof.
  intros Hd Hb Hnb Hport. pose proof (dumps_names _ _ _ Hd) as Hnames. destruct (blobs_paths _ _ Hb) as [Hpaths _].
  assert (∀ n, n ∈ en_name <$> dumps → n !! 0%nat = Some Byte.x64) as H64.
  { rewrite Hnames. by intros n (t & -> & _)%list_elem_of_fmap. }
  assert (∀ n, n ∈ en_name <$> blobs → n !! 0%nat = Some Byte.x62) as H62.
  { rewrite Hpaths. by intros n (t & -> & _)%list_elem_of_fmap. }
  assert (∀ n, n ∈ en_name <$> dumps ++ blobs → n !! 0%nat = Some Byte.x64 ∨ n !! 0%nat = Some Byte.x62) as Hfirst.
  { intros n. rewrite fmap_app. intros [?|?]%elem_of_app; auto. }
  apply read_written.
  - eapply Forall_impl; [exact Hport|]. by intros e [? _].
  - apply Forall_app in Hport as [Hpd Hpb]. apply Forall_app. split.
    + by eapply dumps_plain.
    + rewrite Forall_forall in *. intros e He. destruct (Hb e He) as (w & g & h & k & Hk & Hn & _). destruct (Hpb e He) as [_ Hz].
      rewrite Hn in *. by eapply blob_name_plain.
  - rewrite fmap_app. apply NoDup_app. split_and!; [| |done].
    + rewrite Hnames. apply NoDup_fmap; [|apply table_names_distinct]. intros a b Heq%(inj (app DATABASE_DIR)). by apply (inj (λ x, x ++ COPY_SUFFIX)) in Heq.
    + intros n Hn1%H64 Hn2%H62. congruence.
  - intros Hin%Hfirst. by destruct Hin.
  - intros Hin%Hfirst. by destruct Hin.
Qed.

Lemma collect_Ok tables store entries p :
  collect (Some tables) (Some tables) (Some tables) (Some store) = Ok (entries, p) → NoDup (blob_groups tables) →
  ∃ dumps blobs, entries = dumps ++ blobs ∧ p = provenance_of (applied_migrations tables)
  ∧ Forall2 (table_member tables) (table_names tables) dumps ∧ Forall (blob_member store) blobs ∧ NoDup (en_name <$> blobs)
  ∧ ∀ k, listed_key store (blob_groups tables) k →
      ∃ e, e ∈ blobs ∧ en_name e = BLOBS_DIR ++ blob_path k ∧ obj_get store k = Ok (en_bytes e).
Proof.
  intros Hc Hg. unfold collect in Hc. destruct (dump_tables (Some tables)) as [dumps|] eqn:Hd; [|done]. cbn [result_bind] in Hc.
  destruct (map_result _ _) as [found|] eqn:Hf; [|done]. cbn [result_bind] in Hc. injection Hc as <- <-.
  apply dump_tables_Ok in Hd. destruct (collect_groups_Ok _ _ _ Hg Hf) as (Hb & Hn & _ & Hin). by exists dumps, (mjoin found).
Qed.

(** The load of a capture's tables into a database that is ready for them. *)
Lemma capture_loads tables dumps db p :
  relay_tables tables → ready_for tables db → Forall2 (table_member tables) (table_names tables) dumps →
  lp_tables p = sort_named (zip (table_names tables) (en_bytes <$> dumps)) →
  ∃ db', loaded db p = Some db' ∧ db_tables db' = tables
  ∧ ∀ at_ next m, db_sequences db' !! at_ = Some next → at_.1 ∈ dom tables → max_id at_.1 at_.2 (default [] (tables !! at_.1)) = Some m → m < next.
Proof.
  intros (Hne & He & Hm & _ & Hcopy) (Hdom & _ & Hrefs & Hseq) Hd Hp. destruct (dumps_bodies _ _ _ Hd) as [Hbodies Hfst].
  assert ((lp_tables p).*1 ≡ₚ table_names tables) as Hperm by (by rewrite Hp, sort_named_perm, Hfst).
  assert (NoDup (lp_tables p).*1) as Hnd by (rewrite Hperm; apply table_names_distinct).
  assert (∀ t, t ∈ (lp_tables p).*1 ↔ t ∈ dom tables) as Hin by (intros t; by rewrite Hperm, elem_of_table_names).
  assert (Forall (λ tb, copies_in tb.1 (strip_copy_envelope tb.2) = tables !! tb.1) (lp_tables p)) as Hc.
  { apply Forall_forall. intros tb Htb. assert (tb.1 ∈ dom tables) as [text Ht]%elem_of_dom by (apply Hin, list_elem_of_fmap; eauto).
    rewrite Hp, sort_named_perm in Htb. rewrite Forall_forall in Hbodies. rewrite (Hbodies tb Htb), Ht. by apply Hcopy. }
  destruct (loaded_total db p tables) as [db' Hl]; [|done|done|by intros t Ht%Hin%elem_of_dom|by intros at_ Ht%Hin; apply Hseq|].
  { unfold may_truncate. apply andb_true_iff. split; apply forallb_forall.
    - intros t Ht%list_elem_of_In%Hin. apply bool_decide_eq_true, elem_of_dom. by rewrite Hdom.
    - intros r Hr%list_elem_of_In. rewrite Forall_forall in Hrefs. apply Hrefs, Hin in Hr. rewrite (bool_decide_true (r.1 ∈ _)) by done.
      by destruct (bool_decide _). }
  exists db'. split; [done|]. destruct (loaded_spec _ _ _ Hl Hnd) as (Htab & Hsq & _).
  assert (db_tables db' = tables) as Heq.
  { apply map_eq. intros t. rewrite Htab. destruct (_ !! t) as [body|] eqn:Hb.
    - apply elem_of_list_to_map_2 in Hb. rewrite Forall_forall in Hc. apply (Hc _ Hb).
    - assert (t ∉ dom tables) as Hn by (intros Ht%Hin%bodies_elem; rewrite Hb in Ht; by apply is_Some_None in Ht).
      rewrite (not_elem_of_dom_1 tables t Hn). apply not_elem_of_dom_1. by rewrite Hdom. }
  split; [done|]. intros at_ next m Hnext Ht Hmax. rewrite Hsq in Hnext. destruct (db_sequences db !! at_); [|done].
  cbn in Hnext. rewrite bool_decide_true in Hnext by by apply Hin. injection Hnext as <-. unfold next_id. rewrite Heq, Hmax. cbn. lia.
Qed.

(** C31. A backup restores. What is collected from a relay's store and from a
    database no one writes to while its tables, migrations and groups are read, and is
    written as an artifact, plain or compressed, is read back, accepted and loaded
    into a database with the same tables and migrations: when no call fails and the
    store refuses no put, the restore succeeds, every table is the captured one (the
    migration record and the marker apart), the sweep is suppressed for its passes,
    every sequence of a captured table is past the largest captured id, and every
    object a group listed is in the store as it was. *)
Theorem backup_restores bn bv gz tables store entries p request (w : RestoreWorld St) :
  collect (Some tables) (Some tables) (Some tables) (Some store) = Ok (entries, p) →
  relay_tables tables → Forall portable entries → ready_for tables (re_db w) →
  (∀ s k body, is_ok (obj_put (St:=St) s k body).1 = true) →
  let calls := mkRestoreCalls (Some (archive_bytes bn bv gz entries p)) true true true None true None in
  ∃ w' report, restore_run bv calls request w = (Ok report, w')
  ∧ (∀ t, t ≠ MARKER → t ≠ LEDGER → db_tables (re_db w') !! t = tables !! t)
  ∧ marker_remaining (db_tables (re_db w') !! MARKER ≫= marker_row) = Some SUPPRESSED_PASSES
  ∧ (∀ t c next m, db_sequences (re_db w') !! (t, c) = Some next → t ≠ LEDGER → t ∈ dom tables → max_id t c (default [] (tables !! t)) = Some m → m < next)
  ∧ (∀ k, listed_key store (blob_groups tables) k → addressable k → obj_at (re_store w') k = obj_at store k).
Proof.
  intros Hcol Htab Hport Hready Hputs. cbv zeta. set (calls := mkRestoreCalls _ _ _ _ _ _ _).
  destruct (collect_Ok _ _ _ _ Hcol ltac:(apply Htab)) as (dumps & blobs & -> & -> & Hd & Hb & Hnb & Hlisted).
  pose proof Htab as (Hne & He & Hm & _ & _). destruct (blobs_paths _ _ Hb) as [Hpaths Hkeys].
  set (pl := mkLoadPlan (sort_named (zip (table_names tables) (en_bytes <$> dumps))) (sort_named (blob_pair <$> blobs))).
  assert (admitted_plan calls w = Ok pl) as Hplan.
  { unfold admitted_plan. cbn [rc_source calls]. rewrite (capture_reads bn bv gz tables store) by done. cbn [map_err result_bind].
    rewrite (plan_collected tables store _ _ _ Hd Hb Hne) by (by intros Hin%elem_of_table_names). cbn [map_err result_bind rc_connects rc_ledger rc_opens negb ar_manifest].
    unfold compatible. cbn [am_migrations pv_migrations provenance_of]. destruct Hready as (_ & Hmig & _). rewrite Hmig, bool_decide_true by done.
    cbn [result_bind]. by destruct (lp_blobs _). }
  destruct (capture_loads tables dumps (re_db w) pl Htab Hready Hd eq_refl) as (db & Hl & Hdb & Hseq).
  destruct (put_blobs_total (re_store w) (lp_blobs pl) Hputs) as [s' Hput].
  { cbn [lp_blobs pl]. by rewrite sort_named_perm. }
  unfold restore_run. rewrite Hplan. unfold load_tables. rewrite Hl. cbn [rc_load calls]. rewrite Hput. cbn [rc_marks calls].
  set (w1 := mkRestoreWorld (set_marker db) s' (re_receipt w)).
  assert (∃ w', write_receipt bv calls request (report_of pl) w1 = (Ok (report_of pl), w') ∧ re_db w' = set_marker db ∧ re_store w' = s') as (w' & Hw & Hwdb & Hws).
  { unfold write_receipt. destruct (rq_receipt request) as [[]|]; cbn [rc_receipt calls]; eexists; split_and!; reflexivity. }
  exists w', (report_of pl). rewrite Hwdb, Hws. cbn [set_marker with_tables db_tables db_sequences]. split_and!.
  - done.
  - intros t Ht _. rewrite lookup_insert_ne by done. by rewrite Hdb.
  - rewrite lookup_insert_eq. cbn [mbind option_bind]. by rewrite marker_reads_back.
  - intros t c next m Hn _ Ht Hmx. by eapply (Hseq (t, c)).
  - intros k Hk Ha. destruct (Hlisted k Hk) as (e & Hin & Hname & Hget). rewrite (obj_get_at _ _ _ Hget).
    destruct Hk as (ws & g & name & names & _ & _ & _ & Hk).
    assert (NoDup (lp_blobs pl).*1) as Hnd.
    { cbn [lp_blobs pl]. rewrite sort_named_perm. apply (NoDup_fmap_1 (app BLOBS_DIR)).
      rewrite <- list_fmap_compose. rewrite Hpaths in Hnb. exact Hnb. }
    pose proof (put_blobs_spec _ _ _ _ Hput Hnd ws g name k Hk Ha) as Hsp.
    assert ((list_to_map (lp_blobs pl) : gmap (list byte) (list byte)) !! blob_path k = Some (en_bytes e)) as Hbody.
    { apply elem_of_list_to_map_1; [done|]. cbn [lp_blobs pl]. rewrite sort_named_perm. apply list_elem_of_fmap. exists e.
      split; [|done]. unfold blob_pair. by rewrite Hname, drop_app_length. }
    rewrite Hbody in Hsp. by destruct Hsp as [|[? _]].
Qed.
End round_trip.

(** ** Arguments *)
(** What [backup --out] accepts, [restore --from] reads, from the same place. *)
Lemma restore_reads_backup_target value request :
  backup_parse_args [FLAG_OUT; value] = Ok request →
  restore_parse_args [FLAG_FROM; value] = Ok (mkRestoreRequest (bk_out request) None).
Proof.
  unfold backup_parse_args, restore_parse_args. change (backup_args [FLAG_OUT; value] None false) with (@Ok ArgError _ (Some value, false)).
  change (restore_args [FLAG_FROM; value] None None) with (@Ok ArgError _ (Some value, @None (list byte))). cbn [result_bind].
  case_bool_decide; [done|]. destruct (destination_parse value) as [d|]; [|done]. cbn. by intros [= <-].
Qed.

(** ** What modelling showed *)
(** A blob the store refuses, or a marker that cannot be written, leaves the rows
    replaced and the sweep of the store as it was. *)
Lemma refused_blob_leaves_sweep `{Blake3, ArchiveLib, Postgres} {St} `{ObjectStore St} version calls request (w : RestoreWorld St) p db e s :
  admitted_plan calls w = Ok p → rc_load calls = None → loaded (re_db w) p = Some db → put_blobs (re_store w) (lp_blobs p) = (Err e, s) →
  restore_run version calls request w = (Err e, mkRestoreWorld db s (re_receipt w)).
Proof. intros Hp Hc Hl Hput. unfold restore_run. rewrite Hp. unfold load_tables. by rewrite Hl, Hc, Hput. Qed.

Module RestoreDemo.
Import ArchiveDemo.
#[local] Existing Instances demo_crates demo_crates_laws demo_postgres demo_postgres_laws demo_store demo_store_laws demo_blake3 demo_width.

Definition target : RestoreWorld (gmap BlobKey File) :=
  mkRestoreWorld (mkDatabase {[ LEDGER := ascii_bytes "0001"%string; ascii_bytes "relay_group"%string := []; MARKER := [] ]}
                    {[ (LEDGER, ascii_bytes "id"%string) := 1 ]} []) ∅ None.
Definition request : RestoreRequest := mkRestoreRequest (DestLocal (ascii_bytes "capture.tar"%string)) None.

Lemma demo_relay : relay_tables tables.
Proof.
  split_and!.
  - intros Heq%(f_equal (lookup LEDGER)). by vm_compute in Heq.
  - apply not_elem_of_dom. by vm_compute.
  - apply not_elem_of_dom. by vm_compute.
  - apply (bool_decide_unpack (NoDup _)). by vm_compute.
  - done.
Qed.
Lemma demo_portable : Forall portable collected.1.
Proof.
  assert (forallb (λ e, (Z.of_nat (length (en_bytes e)) <=? U64_MAX) && negb (bool_decide (Byte.x00 ∈ en_name e))) collected.1 = true) as Hall
    by by vm_compute.
  apply Forall_forall. intros e He. rewrite forallb_forall in Hall. specialize (Hall e ltac:(by apply list_elem_of_In)).
  apply andb_true_iff in Hall as [Hs Hz]. split; [by apply Z.leb_le|]. by apply negb_true_iff, bool_decide_eq_false in Hz.
Qed.
Lemma demo_ready : ready_for tables (re_db target).
Proof.
  split_and!; [|by vm_compute|constructor|].
  - apply leibniz_equiv. by vm_compute.
  - intros at_ _ [next Hn]. cbn in Hn. apply lookup_singleton_Some in Hn as [<- _]. by vm_compute.
Qed.

(** The capture of a database with a group and an object in it, restored into an
    empty one. *)
Lemma backup_restores_witness :
  ∃ w' report,
    restore_run [] (mkRestoreCalls (Some (archive_bytes [] [] true collected.1 collected.2)) true true true None true None) request target = (Ok report, w')
    ∧ db_tables (re_db w') !! ascii_bytes "relay_group"%string = Some [Byte.x0a]
    ∧ obj_at (re_store w') key = Some [Byte.x05].
Proof.
  assert (collect (Some tables) (Some tables) (Some tables) (Some store) = Ok (collected.1, collected.2)) as Hc by by vm_compute.
  destruct (backup_restores [] [] true tables store collected.1 collected.2 request target Hc demo_relay demo_portable demo_ready (λ _ _ _, eq_refl))
    as (w' & report & Hr & Ht & _ & _ & Hk).
  exists w', report. split_and!; [exact Hr | |].
  - rewrite Ht by by vm_compute. by vm_compute.
  - rewrite Hk; [by vm_compute | | by vm_compute].
    exists (ascii_bytes "ws"%string), (ascii_bytes "0a"%string), (ascii_bytes "0b"%string), [ascii_bytes "0b"%string].
    split_and!; [apply (bool_decide_unpack (_ ∈ blob_groups tables)); by vm_compute | by vm_compute | by apply list_elem_of_singleton | by vm_compute].
Defined.

(** The commit is lost after it took effect: the tables are the captured ones, and
    no receipt was written. *)
Definition lost : RestoreCalls := mkRestoreCalls (Some artifact) true true true (Some (FaultCommit true)) true None.
Lemma restore_rows_all_or_nothing_witness :
  (restore_run [] lost request target).1 = Err RestoreDatabase
  ∧ db_tables (re_db (restore_run [] lost request target).2) !! ascii_bytes "relay_group"%string = Some [Byte.x0a]
  ∧ re_receipt (restore_run [] lost request target).2 = None.
Proof.
  destruct (restore_rows_all_or_nothing [] lost request target (restore_run [] lost request target).2 (restore_run [] lost request target).1 (surjective_pairing _))
    as [[_ Hr]|(bytes & archive & p & db & _ & _ & _ & _ & _ & _ & _ & _ & Hrest)]; [split_and!; by vm_compute|].
  assert ((restore_run [] lost request target).1 = Err RestoreDatabase) as He by by vm_compute.
  rewrite He in Hrest. destruct Hrest as [_ [Hreceipt|(path & n & [=] & _)]]. split_and!; [exact He | by vm_compute | exact Hreceipt].
Defined.

End RestoreDemo.
