(* ===== verification/Migrate.v ===== *)
(** * Migrations

    Models [backend/wealdrelay/src/db.rs]: the fingerprint of a migration's text, the
    ledger, and [migrate] in any number of processes that start together, as a step
    relation: each waits for the advisory lock, applies what is not recorded, one
    transaction a migration, and unlocks; a statement may fail at any turn and a
    process may die at any turn; an unlock may be refused. What Postgres makes of a text is a parameter. *)

From Stdlib Require Import ZArith Lia String.
From stdpp Require Import base tactics numbers gmap fin_maps relations sets list.
From S2P Require Import Prelude Cbor Push InviteRecord Storage Config.

Open Scope Z_scope.

(** ** The fingerprint *)
Definition FNV_OFFSET : Z := 14695981039346656037.
Definition FNV_PRIME : Z := 1099511628211.
Definition TWO64 : Z := 18446744073709551616.
(** [hash ^= byte; hash = hash.wrapping_mul(prime)], on [u64]. *)
Definition fnv_step (hash : Z) (b : byte) : Z := (Z.lxor hash (byte_to_Z b) * FNV_PRIME) mod TWO64.
Definition fnv1a (sql : list byte) : Z := foldl fnv_step FNV_OFFSET sql.
Definition fingerprint (sql : list byte) : list byte := ascii_bytes "fnv1a:"%string ++ hex (be_bytes 8 (fnv1a sql)).

Definition MIGRATION_NAMES : list (list byte) := ascii_bytes <$>
  ["0001_relay_schema"; "0002_access_set"; "0003_invites"; "0004_recovery_wrap"; "0005_handshake"; "0006_media";
   "0007_lifecycle"; "0008_envelope_read_path"; "0009_push"; "0010_envelope_budget"; "0011_bootstrap_handoff";
   "0012_invite_attempt_by_source"; "0013_invite_bundle_issued"; "0014_ciphertext_storage_external";
   "0015_gc_restore_marker"; "0016_multipart_survives_release"; "0017_handshake_log_budget"]%string.

(** A migration: its name and its text. *)
Notation Migration := (list byte * list byte)%type.

(** ** The database *)
(** The ledger, where it exists, and the texts that ran, in order. *)
Record MigratedDb : Type := mkMigratedDb {
  md_ledger : option (gmap (list byte) (list byte));
  md_schema : list (list byte)
}.
Inductive DbError : Type := DbUnreachable | DbLock | DbLedger | DbEdited (name : list byte) | DbFailed (name : list byte).

(** [apply_all], by where it stands: before the ledger's creation, at the head of the
    loop, after a read that found no row, and at its end with its answer. *)
Inductive Applying : Type :=
| CreateLedger (todo : list Migration)
| AtLoop (todo : list Migration)
| Unrecorded (m : Migration) (rest : list Migration)
| Applied (r : result DbError unit).

(** A turn may be refused, or its commit may take effect with the answer lost. *)
Inductive TurnFault : Type := NoFault | Refused | CommitLost.
Definition refused (fault : TurnFault) : bool := match fault with Refused => true | _ => false end.

Section applying.
(** Postgres runs a text on a schema. *)
Context (runs : list (list byte) → list byte → bool).

(** One migration's transaction: the text and its ledger row, or neither. *)
Definition apply_one (fault : TurnFault) (db : MigratedDb) (m : Migration) : option MigratedDb :=
  match md_ledger db with
  | Some ledger =>
      if refused fault || negb (runs (md_schema db) m.2) || is_set (ledger !! m.1) then None
      else Some (mkMigratedDb (Some (<[m.1 := fingerprint m.2]> ledger)) (md_schema db ++ [m.2]))
  | None => None
  end.
(** One statement or transaction of [apply_all]. *)
Definition apply_turn (fault : TurnFault) (db : MigratedDb) (a : Applying) : Applying * MigratedDb :=
  match a with
  | CreateLedger todo =>
      if refused fault then (Applied (Err DbLedger), db)
      else (AtLoop todo, mkMigratedDb (Some (default ∅ (md_ledger db))) (md_schema db))
  | AtLoop [] => (Applied (Ok tt), db)
  | AtLoop (m :: rest) =>
      if refused fault then (Applied (Err DbLedger), db)
      else match default ∅ (md_ledger db) !! m.1 with
           | Some recorded =>
               if bool_decide (recorded = fingerprint m.2) then (AtLoop rest, db)
               else (Applied (Err (DbEdited m.1)), db)
           | None => (Unrecorded m rest, db)
           end
  | Unrecorded m rest =>
      match apply_one fault db m with
      | Some db' => (match fault with CommitLost => Applied (Err (DbFailed m.1)) | _ => AtLoop rest end, db')
      | None => (Applied (Err (DbFailed m.1)), db)
      end
  | Applied r => (Applied r, db)
  end.
(** [apply_all] with nothing failing but what Postgres refuses. *)
Fixpoint apply_turns (n : nat) (db : MigratedDb) (a : Applying) : Applying * MigratedDb :=
  match n with
  | O => (a, db)
  | S n' => apply_turns n' (apply_turn NoFault db a).2 (apply_turn NoFault db a).1
  end.

(** ** Processes *)
(** [migrate] of a process with the migrations of its build: connecting and waiting
    for the lock, holding it, and done; or returned with its unlock refused, an error
    [migrate] discards, so that its session keeps the lock. *)
Inductive Migrating : Type :=
| Starting (build : list Migration)
| Holding (build : list Migration) (a : Applying)
| Lingering (build : list Migration) (r : result DbError unit)
| Finished (build : list Migration) (r : result DbError unit)
| Died.
Record MigrateWorld : Type := mkMigrateWorld {
  mw_db : MigratedDb;
  mw_lock : option nat;
  mw_procs : gmap nat Migrating
}.
Definition put_proc (w : MigrateWorld) (pid : nat) (p : Migrating) : MigrateWorld :=
  mkMigrateWorld (mw_db w) (mw_lock w) (<[pid := p]> (mw_procs w)).
(** The lock goes with the session. *)
Definition released (lock : option nat) (pid : nat) : option nat :=
  if bool_decide (lock = Some pid) then None else lock.

(** The builds that are deployed. *)
Context (deployed : list Migration → Prop).
Inductive migrate_step (w : MigrateWorld) : MigrateWorld → Prop :=
| MStart pid build : mw_procs w !! pid = None → deployed build → migrate_step w (put_proc w pid (Starting build))
| MUnreachable pid build e : mw_procs w !! pid = Some (Starting build) → e = DbUnreachable ∨ e = DbLock →
    migrate_step w (put_proc w pid (Finished build (Err e)))
| MLock pid build : mw_procs w !! pid = Some (Starting build) → mw_lock w = None →
    migrate_step w (mkMigrateWorld (mw_db w) (Some pid) (<[pid := Holding build (CreateLedger build)]> (mw_procs w)))
| MTurn pid build a fault : mw_procs w !! pid = Some (Holding build a) →
    migrate_step w (mkMigrateWorld (apply_turn fault (mw_db w) a).2 (mw_lock w)
                      (<[pid := Holding build (apply_turn fault (mw_db w) a).1]> (mw_procs w)))
| MUnlock pid build r : mw_procs w !! pid = Some (Holding build (Applied r)) →
    migrate_step w (mkMigrateWorld (mw_db w) (released (mw_lock w) pid) (<[pid := Finished build r]> (mw_procs w)))
| MUnlockLost pid build r : mw_procs w !! pid = Some (Holding build (Applied r)) →
    migrate_step w (put_proc w pid (Lingering build r))
| MSessionEnds pid build r : mw_procs w !! pid = Some (Lingering build r) →
    migrate_step w (mkMigrateWorld (mw_db w) (released (mw_lock w) pid) (<[pid := Finished build r]> (mw_procs w)))
| MDie pid p : mw_procs w !! pid = Some p →
    migrate_step w (mkMigrateWorld (mw_db w) (released (mw_lock w) pid) (<[pid := Died]> (mw_procs w))).
End applying.
Definition first_start : MigrateWorld := mkMigrateWorld (mkMigratedDb None []) None ∅.

(** ** The fingerprint notices an edit *)
Lemma fnv_xor_range h b : 0 ≤ h < TWO64 → 0 ≤ Z.lxor h (byte_to_Z b) < TWO64.
Proof.
  intros Hh. pose proof (byte_to_Z_range b) as Hb. split; [apply Z.lxor_nonneg; lia|].
  destruct (decide (Z.lxor h (byte_to_Z b) = 0)) as [->|Hne]; [unfold TWO64; lia|].
  assert (0 < Z.lxor h (byte_to_Z b)) as Hpos by (assert (0 ≤ Z.lxor h (byte_to_Z b)) by (apply Z.lxor_nonneg; lia); lia).
  change TWO64 with (2 ^ 64) in *. apply Z.log2_lt_pow2; [done|].
  pose proof (Z.log2_lxor h (byte_to_Z b) ltac:(lia) ltac:(lia)) as Hl.
  assert (Z.log2 h < 64) as Hlh by (destruct (decide (h = 0)) as [->|]; [done|]; apply Z.log2_lt_pow2; lia).
  assert (Z.log2 (byte_to_Z b) < 64) as Hlb by (destruct (decide (byte_to_Z b = 0)) as [->|]; [done|]; apply Z.log2_lt_pow2; lia).
  lia.
Qed.
(** The prime is odd, so multiplying by it loses nothing. *)
Definition FNV_INVERSE : Z := 14886173955864302971.
Lemma fnv_mul_inj x y : 0 ≤ x < TWO64 → 0 ≤ y < TWO64 → (x * FNV_PRIME) mod TWO64 = (y * FNV_PRIME) mod TWO64 → x = y.
Proof.
  intros Hx Hy Heq. assert (∀ z, 0 ≤ z < TWO64 → ((z * FNV_PRIME) mod TWO64 * FNV_INVERSE) mod TWO64 = z) as Hinv.
  { intros z Hz. rewrite Zmult_mod_idemp_l, <- Z.mul_assoc, <- Zmult_mod_idemp_r.
    change ((FNV_PRIME * FNV_INVERSE) mod TWO64) with 1. rewrite Z.mul_1_r. by apply Z.mod_small. }
  rewrite <- (Hinv x Hx), <- (Hinv y Hy). by rewrite Heq.
Qed.
Lemma fnv_step_range h b : 0 ≤ fnv_step h b < TWO64.
Proof. apply Z.mod_pos_bound. done. Qed.
Lemma fnv_fold_range sql h : 0 ≤ h < TWO64 → 0 ≤ foldl fnv_step h sql < TWO64.
Proof. revert h. induction sql as [|b sql IH]; intros h Hh; [done|]. apply IH, fnv_step_range. Qed.
Lemma lxor_cancel_r a b c : Z.lxor a c = Z.lxor b c → a = b.
Proof. intros Heq%(f_equal (λ z, Z.lxor z c)). by rewrite !Z.lxor_assoc, !Z.lxor_nilpotent, !Z.lxor_0_r in Heq. Qed.
Lemma fnv_step_inj h h' b b' :
  0 ≤ h < TWO64 → 0 ≤ h' < TWO64 → fnv_step h b = fnv_step h' b' → Z.lxor h (byte_to_Z b) = Z.lxor h' (byte_to_Z b').
Proof. intros Hh Hh' Heq. apply fnv_mul_inj in Heq; [done|by apply fnv_xor_range..]. Qed.
Lemma fnv_fold_inj sql h h' : 0 ≤ h < TWO64 → 0 ≤ h' < TWO64 → foldl fnv_step h sql = foldl fnv_step h' sql → h = h'.
Proof.
  revert h h'. induction sql as [|b sql IH]; intros h h' Hh Hh' Heq; [done|]. cbn in Heq.
  apply IH in Heq; [|apply fnv_step_range..]. by apply fnv_step_inj, lxor_cancel_r in Heq.
Qed.
Lemma fingerprint_hash a b : fingerprint a = fingerprint b → fnv1a a = fnv1a b.
Proof.
  intros Heq%(inj (app _))%hex_inj. pose proof (fnv_fold_range a FNV_OFFSET ltac:(done)) as Ha. pose proof (fnv_fold_range b FNV_OFFSET ltac:(done)) as Hb.
  rewrite <- (be_value_bytes_small 8 (fnv1a a)), <- (be_value_bytes_small 8 (fnv1a b)); [by rewrite Heq|..];
    change (256 ^ Z.of_nat 8) with TWO64; done.
Qed.
(** Changing any one byte of a text changes its fingerprint. *)
Lemma fingerprint_one_byte a x y b : fingerprint (a ++ x :: b) = fingerprint (a ++ y :: b) → x = y.
Proof.
  intros Heq%fingerprint_hash. unfold fnv1a in Heq. rewrite !foldl_app in Heq. cbn in Heq.
  pose proof (fnv_fold_range a FNV_OFFSET ltac:(done)) as Hr. apply fnv_fold_inj in Heq; [|apply fnv_step_range..].
  apply fnv_step_inj in Heq; [|done..]. rewrite !(Z.lxor_comm (foldl _ _ _)) in Heq. by apply lxor_cancel_r, byte_to_Z_inj in Heq.
Qed.

(** ** What the processes do together *)
Section migrations.
Context (runs : list (list byte) → list byte → bool) (history : list Migration).
Context (Hnames : NoDup history.*1).
Notation deployed := (λ build, build `prefix_of` history).

Definition ledger_rows (l : list Migration) : gmap (list byte) (list byte) := list_to_map ((λ m, (m.1, fingerprint m.2)) <$> l).
(** The first [n] migrations of the history ran, in order, and are what is recorded. *)
Definition migrated_to (n : nat) (db : MigratedDb) : Prop :=
  (n ≤ length history)%nat ∧ md_schema db = (take n history).*2
  ∧ match md_ledger db with Some ledger => ledger = ledger_rows (take n history) | None => n = O end.

Definition applying_ok (n : nat) (build : list Migration) (db : MigratedDb) (a : Applying) : Prop :=
  match a with
  | CreateLedger todo => todo = build
  | AtLoop todo => is_Some (md_ledger db) ∧ ∃ past, build = past ++ todo ∧ (length past ≤ n)%nat
  | Unrecorded m rest => is_Some (md_ledger db) ∧ ∃ past, build = past ++ m :: rest ∧ length past = n
  | Applied (Ok _) => (length build ≤ n)%nat
  | Applied (Err e) => ∀ name, e ≠ DbEdited name
  end.
Definition proc_ok (n : nat) (w : MigrateWorld) (pid : nat) (p : Migrating) : Prop :=
  match p with
  | Starting build => build `prefix_of` history
  | Holding build a => build `prefix_of` history ∧ mw_lock w = Some pid ∧ applying_ok n build (mw_db w) a
  | Finished build (Ok _) | Lingering build (Ok _) => build `prefix_of` take n history
  | Finished build (Err e) | Lingering build (Err e) => ∀ name, e ≠ DbEdited name
  | Died => True
  end.
(** The session holds the lock: the process is in [apply_all], or its unlock was refused. *)
Definition inside (w : MigrateWorld) (pid : nat) : Prop :=
  ∃ build, (∃ a, mw_procs w !! pid = Some (Holding build a)) ∨ ∃ r, mw_procs w !! pid = Some (Lingering build r).
Lemma inside_same w w' pid : mw_procs w' !! pid = mw_procs w !! pid → inside w pid → inside w' pid.
Proof. unfold inside. intros ->. done. Qed.
Definition migrate_inv (w : MigrateWorld) : Prop :=
  ∃ n, migrated_to n (mw_db w) ∧ (∀ pid p, mw_procs w !! pid = Some p → proc_ok n w pid p)
  ∧ ∀ pid, mw_lock w = Some pid → inside w pid.

Lemma ledger_names_at n name : (∃ fp, ledger_rows (take n history) !! name = Some fp) ↔ name ∈ (take n history).*1.
Proof.
  unfold ledger_rows. set (l := take n history). replace l.*1 with (((λ m : Migration, (m.1, fingerprint m.2)) <$> l).*1)
    by (rewrite <- list_fmap_compose; by apply list_fmap_ext).
  split.
  - intros [fp Hfp%elem_of_list_to_map_2]. apply list_elem_of_fmap. by exists (name, fp).
  - intros Hin. destruct ((list_to_map _ : gmap (list byte) (list byte)) !! name) as [fp|] eqn:Hn; [by exists fp|].
    by apply not_elem_of_list_to_map_2 in Hn.
Qed.
(** Of the history's [k]th migration the ledger has the right row, or none. *)
Lemma recorded_at n k m :
  history !! k = Some m → ledger_rows (take n history) !! m.1 = if (k <? n)%nat then Some (fingerprint m.2) else None.
Proof.
  intros Hk. destruct (Nat.ltb_spec k n) as [Hlt|Hge].
  - apply elem_of_list_to_map_1.
    + rewrite <- list_fmap_compose. change (NoDup ((take n history).*1)). rewrite fmap_take.
      rewrite <- (take_drop n history.*1) in Hnames. by apply NoDup_app in Hnames as [? _].
    + apply list_elem_of_fmap. exists m. split; [done|]. apply list_elem_of_lookup. exists k. by rewrite lookup_take_lt.
  - apply eq_None_not_Some. intros [fp Hfp]. assert (m.1 ∈ (take n history).*1) as (m' & Heq & Hin)%list_elem_of_fmap by (apply ledger_names_at; eauto).
    apply list_elem_of_lookup in Hin as [k' Hk']. pose proof (lookup_lt_Some _ _ _ Hk') as Hl. rewrite length_take in Hl.
    rewrite lookup_take_lt in Hk' by lia. assert (k = k') as <-; [|lia].
    eapply NoDup_lookup; [exact Hnames|..]; rewrite list_lookup_fmap; [by rewrite Hk|rewrite Hk'; cbn; by rewrite Heq].
Qed.
Lemma history_lookup build past m rest : build `prefix_of` history → build = past ++ m :: rest → history !! length past = Some m.
Proof. intros [tail ->] ->. rewrite <- app_assoc, <- app_comm_cons. by apply list_lookup_middle. Qed.
Lemma migrated_one n db m :
  migrated_to n db → history !! n = Some m → is_Some (md_ledger db) →
  migrated_to (S n) (mkMigratedDb (Some (<[m.1 := fingerprint m.2]> (default ∅ (md_ledger db)))) (md_schema db ++ [m.2])).
Proof.
  intros (Hn & Hs & Hl) Hm [ledger Hled]. rewrite Hled in *. subst ledger. apply lookup_lt_Some in Hm as Hlt.
  split_and!; cbn; [lia| |].
  - rewrite Hs. by rewrite (take_S_r _ _ _ Hm), fmap_app.
  - rewrite (take_S_r _ _ _ Hm). unfold ledger_rows. rewrite fmap_app. cbn. rewrite list_to_map_snoc; [done|].
    rewrite <- list_fmap_compose. intros Hin. pose proof (recorded_at n n m Hm) as Hr. rewrite Nat.ltb_irrefl in Hr.
    assert (m.1 ∈ (take n history).*1) as (fp & Hfp)%ledger_names_at by exact Hin. congruence.
Qed.

(** One turn of [apply_all]: what it does to the database and where it stands. *)
Lemma apply_turn_ok n build db fault a :
  migrated_to n db → build `prefix_of` history → applying_ok n build db a →
  ∃ n', (n ≤ n')%nat ∧ migrated_to n' (apply_turn runs fault db a).2
  ∧ applying_ok n' build (apply_turn runs fault db a).2 (apply_turn runs fault db a).1.
Proof.
  intros Hdb Hb Ha. destruct a as [todo|[|m rest]|m rest|r]; cbn [apply_turn applying_ok] in *.
  - subst todo. destruct (refused fault); exists n; (split_and!; [done|try done|]); [done| |split; [done|]; exists []; split; [done | cbn; lia]].
    destruct Hdb as (Hn & Hs & Hl). split_and!; [done..|]. cbn. destruct (md_ledger db); [done|]. by subst n.
  - destruct Ha as (_ & past & -> & Hp). exists n. split_and!; [done..|]. cbn. by rewrite app_nil_r.
  - destruct Ha as ([ledger Hled] & past & Heq & Hp). destruct (refused fault); [by exists n|].
    pose proof (history_lookup _ _ _ _ Hb Heq) as Hm. pose proof (recorded_at n _ _ Hm) as Hrec.
    pose proof Hdb as (_ & _ & Hl). rewrite Hled in Hl. subst ledger. rewrite Hled. cbn [default from_option]. unfold id. rewrite Hrec.
    destruct (Nat.ltb_spec (length past) n).
    + rewrite bool_decide_true by done. exists n. split_and!; [done|done|]. cbn. split; [rewrite Hled; by eexists|].
      exists (past ++ [m]). rewrite <- app_assoc. split; [done|]. rewrite length_app. cbn. lia.
    + exists n. split_and!; [done|done|]. cbn. split; [rewrite Hled; by eexists|]. exists past. split; [done|]. lia.
  - destruct Ha as ([ledger Hled] & past & Heq & Hp). pose proof (history_lookup _ _ _ _ Hb Heq) as Hm. rewrite Hp in Hm.
    destruct (apply_one runs fault db m) as [db'|] eqn:Hone; [|by exists n].
    unfold apply_one in Hone. rewrite Hled in Hone. destruct (refused fault || _ || _); [done|]. injection Hone as <-.
    exists (S n). split_and!; [lia| |].
    + pose proof (migrated_one n db m Hdb Hm ltac:(rewrite Hled; by eexists)) as Hnext. by rewrite Hled in Hnext.
    + cbn [snd]. assert (applying_ok (S n) build (mkMigratedDb (Some (<[m.1:=fingerprint m.2]> ledger)) (md_schema db ++ [m.2])) (AtLoop rest)) as Hloop.
      { split; [by eexists|]. exists (past ++ [m]). rewrite <- app_assoc. split; [done|]. rewrite length_app. cbn. lia. }
      by destruct fault.
  - by exists n.
Qed.

Lemma prefix_taken build n : build `prefix_of` history → (length build ≤ n)%nat → build `prefix_of` take n history.
Proof. intros [tail ->] Hl. rewrite take_app_ge by done. by eexists. Qed.
Lemma taken_grows build n n' : (n ≤ n')%nat → build `prefix_of` take n history → build `prefix_of` take n' history.
Proof.
  intros Hn [tail Ht]. replace (take n' history) with (take n history ++ take (n' - n) (drop n history)).
  - rewrite Ht, <- app_assoc. by eexists.
  - rewrite take_take_drop. f_equal. lia.
Qed.
(** A process is as it was while another one moves. *)
Lemma proc_ok_other n n' w w' pid p :
  (n ≤ n')%nat → proc_ok n w pid p → (∀ build a, p ≠ Holding build a) → proc_ok n' w' pid p.
Proof.
  intros Hn Hp Hh. destruct p as [build|build a|build [[]|e]|build [[]|e]|]; cbn in *;
    [done|by destruct (Hh build a)|by eapply taken_grows|done|by eapply taken_grows|done|done].
Qed.
(** At most one process holds. *)
Lemma holder_is_lock w n pid build a pid' build' a' :
  (∀ pid p, mw_procs w !! pid = Some p → proc_ok n w pid p) →
  mw_procs w !! pid = Some (Holding build a) → mw_procs w !! pid' = Some (Holding build' a') → pid = pid'.
Proof. intros Hok (_ & Hl & _)%Hok (_ & Hl' & _)%Hok. congruence. Qed.

Lemma migrate_inv_step w w' : migrate_inv w → migrate_step runs deployed w w' → migrate_inv w'.
Proof.
  intros (n & Hdb & Hok & Hlock) Hstep. destruct Hstep as [pid build Hnone Hd|pid build e Hp He|pid build Hp Hl|pid build a fault Hp|pid build r Hp|pid build r Hp|pid build r Hp|pid p0 Hp].
  - exists n. cbn. split_and!; [done| |].
    + intros q p [[<- <-]|[Hne Hq]]%lookup_insert_Some; [done|]. by apply Hok in Hq.
    + intros q (b & Hq)%Hlock. apply (inside_same w); [|by exists b]. cbn. rewrite lookup_insert_ne; [done|].
      intros ->. destruct Hq as [[? ?]|[? ?]]; congruence.
  - exists n. cbn. split_and!; [done| |].
    + intros q p [[<- <-]|[Hne Hq]]%lookup_insert_Some; [by intros name ->; destruct He|]. by apply Hok in Hq.
    + intros q (b & Hq)%Hlock. apply (inside_same w); [|by exists b]. cbn. rewrite lookup_insert_ne; [done|].
      intros ->. destruct Hq as [[? ?]|[? ?]]; congruence.
  - exists n. cbn. split_and!; [done| |].
    + intros q p [[<- <-]|[Hne Hq]]%lookup_insert_Some; [cbn; split_and!; [by apply (Hok _ _ Hp)|done|done]|].
      eapply (proc_ok_other n); [done|by apply Hok|]. intros b a ->. destruct (Hok _ _ Hq) as (_ & Hl' & _). congruence.
    + intros q [= <-]. exists build. left. eexists. apply lookup_insert_eq.
  - pose proof (Hok _ _ Hp) as (Hb & Hl & Ha). destruct (apply_turn_ok n build _ fault a Hdb Hb Ha) as (n' & Hn & Hdb' & Ha').
    exists n'. cbn. split_and!; [done| |].
    + intros q p [[<- <-]|[Hne Hq]]%lookup_insert_Some; [done|].
      eapply (proc_ok_other n); [done|by apply Hok|]. intros b1 a1 ->. by pose proof (holder_is_lock w n _ _ _ _ _ _ Hok Hp Hq).
    + intros q Hq. assert (q = pid) as -> by congruence. eexists. left. eexists. apply lookup_insert_eq.
  - pose proof (Hok _ _ Hp) as (Hb & Hl & Ha). exists n. cbn. split_and!; [done| |].
    + intros q p [[<- <-]|[Hne Hq]]%lookup_insert_Some; [destruct r as [[]|e]; [by apply prefix_taken|done]|].
      eapply (proc_ok_other n); [done|by apply Hok|]. intros b1 a1 ->. by pose proof (holder_is_lock w n _ _ _ _ _ _ Hok Hp Hq).
    + intros q. unfold released. case_bool_decide; [done|]. congruence.
  - pose proof (Hok _ _ Hp) as (Hb & Hl & Ha). exists n. cbn. split_and!; [done| |].
    + intros q p [[<- <-]|[Hne Hq]]%lookup_insert_Some; [destruct r as [[]|e]; [by apply prefix_taken|done]|].
      eapply (proc_ok_other n); [done|by apply Hok|]. intros b1 a1 ->. by pose proof (holder_is_lock w n _ _ _ _ _ _ Hok Hp Hq).
    + intros q Hq. assert (q = pid) as -> by congruence. exists build. right. eexists. apply lookup_insert_eq.
  - pose proof (Hok _ _ Hp) as Hr. exists n. cbn. unfold released. case_bool_decide as Hl.
    + split_and!; [done| |done]. intros q p [[<- <-]|[Hne Hq]]%lookup_insert_Some; [done|].
      eapply (proc_ok_other n); [done|by apply Hok|]. intros b1 a1 ->. destruct (Hok _ _ Hq) as (_ & Hl' & _). congruence.
    + split_and!; [done| |].
      * intros q p [[<- <-]|[Hne Hq]]%lookup_insert_Some; [done|]. by apply Hok in Hq.
      * intros q Hq. apply (inside_same w); [|by apply Hlock]. cbn. rewrite lookup_insert_ne; [done|]. congruence.
  - exists n. cbn. unfold released. case_bool_decide as Hl.
    + split_and!; [done| |done]. intros q p [[<- <-]|[Hne Hq]]%lookup_insert_Some; [done|].
      eapply (proc_ok_other n); [done|by apply Hok|]. intros b1 a1 ->. destruct (Hok _ _ Hq) as (_ & Hl' & _). congruence.
    + split_and!; [done| |].
      * intros q p [[<- <-]|[Hne Hq]]%lookup_insert_Some; [done|]. by apply Hok in Hq.
      * intros q Hq. apply (inside_same w); [|by apply Hlock]. cbn. rewrite lookup_insert_ne; [done|]. congruence.
Qed.
Lemma migrate_inv_reachable w : rtc (migrate_step runs deployed) first_start w → migrate_inv w.
Proof.
  assert (∀ a b, rtc (migrate_step runs deployed) a b → migrate_inv a → migrate_inv b) as Hgen.
  { induction 1 as [|a b c Hs _ IH]; [done|]. intros Ha. apply IH. by eapply migrate_inv_step. }
  intros Hr. apply (Hgen _ _ Hr). exists O. split_and!; [split_and!; [lia|done|done]|by intros pid p Hp|done].
Qed.

(** Nothing but what Postgres refuses stands in the way: a process alone with the lock
    ends, in two turns a migration and two more. *)
Lemma apply_turns_finish n build db past todo :
  (∀ k m, history !! k = Some m → runs (take k history).*2 m.2 = true) →
  migrated_to n db → build `prefix_of` history → is_Some (md_ledger db) → build = past ++ todo → (length past ≤ n)%nat →
  ∃ turns db', (turns ≤ 2 * length todo + 1)%nat ∧ apply_turns runs turns db (AtLoop todo) = (Applied (Ok tt), db')
  ∧ migrated_to (Nat.max n (length build)) db'.
Proof.
  intros Hruns. revert n db past. induction todo as [|m rest IH]; intros n db past Hdb Hb Hled Heq Hp.
  { exists 1%nat, db. cbn. split_and!; [lia|done|]. subst build. rewrite app_nil_r. by rewrite Nat.max_l. }
  pose proof (history_lookup _ _ _ _ Hb Heq) as Hm. pose proof (recorded_at n _ _ Hm) as Hrec.
  destruct Hled as [ledger Hled]. pose proof Hdb as (_ & Hs & Hl). rewrite Hled in Hl. subst ledger.
  assert (apply_turn runs NoFault db (AtLoop (m :: rest)) = if (length past <? n)%nat then (AtLoop rest, db) else (Unrecorded m rest, db)) as Hturn.
  { cbn [apply_turn refused]. rewrite Hled. cbn [default from_option]. unfold id. rewrite Hrec. destruct (length past <? n)%nat; [|done]. by rewrite bool_decide_true. }
  assert (build = (past ++ [m]) ++ rest) as Heq' by by rewrite <- app_assoc.
  destruct (Nat.ltb_spec (length past) n) as [Hlt|Hge].
  - destruct (IH n db (past ++ [m]) Hdb Hb ltac:(by rewrite Hled) Heq' ltac:(rewrite length_app; cbn; lia)) as (turns & db' & Ht & Hrun & Hdb').
    exists (S turns), db'. split_and!; [cbn; lia| |done]. cbn [apply_turns]. by rewrite Hturn.
  - assert (length past = n) as Hpn by lia. rewrite Hpn in Hm.
    set (db1 := mkMigratedDb (Some (<[m.1 := fingerprint m.2]> (ledger_rows (take n history)))) (md_schema db ++ [m.2])).
    assert (apply_turn runs NoFault db (Unrecorded m rest) = (AtLoop rest, db1)) as Hturn2.
    { cbn [apply_turn]. unfold apply_one. rewrite Hled, Hs, (Hruns n m Hm), Hrec. cbn. unfold db1. by rewrite Hs. }
    pose proof (migrated_one n db m Hdb Hm ltac:(by rewrite Hled)) as Hdb1. rewrite Hled in Hdb1. cbn in Hdb1. unfold id in Hdb1.
    destruct (IH (S n) db1 (past ++ [m]) Hdb1 Hb ltac:(by eexists) Heq' ltac:(rewrite length_app; cbn; lia)) as (turns & db' & Ht & Hrun & Hdb').
    exists (S (S turns)), db'. split_and!; [cbn; lia| |].
    + cbn [apply_turns]. rewrite Hturn. cbn [fst snd]. by rewrite Hturn2.
    + replace (Nat.max n (length build)) with (Nat.max (S n) (length build)); [done|]. subst build. rewrite length_app. cbn. lia.
Qed.
End migrations.

(** C29. Every migration runs once, in order, however many processes start at once,
    whichever fail or die, and whatever commit is lost. While every deployed build
    carries a prefix of one history, in every reachable state the schema is what the
    first so many migrations make of an empty database, and the ledger holds exactly
    those with their fingerprints; a process that returned success found all of its
    build applied, whether by itself or by another; none is refused for an edited
    migration; and the lock is free unless a live process is inside, or has returned
    with its unlock refused and its session still open. *)
Theorem migrations_run_once_in_order runs history w :
  NoDup history.*1 → rtc (migrate_step runs (λ build, build `prefix_of` history)) first_start w →
  ∃ n, md_schema (mw_db w) = (take n history).*2
  ∧ (∀ ledger, md_ledger (mw_db w) = Some ledger → ledger = ledger_rows (take n history))
  ∧ (∀ pid build, mw_procs w !! pid = Some (Finished build (Ok tt)) ∨ mw_procs w !! pid = Some (Lingering build (Ok tt)) →
       build `prefix_of` take n history)
  ∧ (∀ pid build name, mw_procs w !! pid ≠ Some (Finished build (Err (DbEdited name)))
       ∧ mw_procs w !! pid ≠ Some (Lingering build (Err (DbEdited name))))
  ∧ (∀ pid, mw_lock w = Some pid → inside w pid).
Proof.
  intros Hn (n & (_ & Hs & Hl) & Hok & Hlock)%migrate_inv_reachable; [|done]. exists n. split_and!; [done| | | |done].
  - intros ledger Hled. by rewrite Hled in Hl.
  - intros pid build [Hp|Hp]; by apply (Hok _ _ Hp).
  - intros pid build name. split; intros Hp; by apply (Hok _ _ Hp name).
Qed.

(** A migration that can run is run. From a database at any point of the history
    (one a newer process has already taken further included), [apply_all] ends within
    two turns a migration and two more, with its whole build applied, when Postgres
    accepts each text on the schema before it and no statement fails; and a database
    that is already there is left as it is. *)
Theorem migrate_finishes runs history n build db :
  NoDup history.*1 → (∀ k m, history !! k = Some m → runs (take k history).*2 m.2 = true) →
  migrated_to history n db → build `prefix_of` history →
  ∃ turns db', (turns ≤ 2 * length build + 2)%nat ∧ apply_turns runs turns db (CreateLedger build) = (Applied (Ok tt), db')
  ∧ migrated_to history (Nat.max n (length build)) db'
  ∧ ((length build ≤ n)%nat → md_schema db' = md_schema db).
Proof.
  intros Hn Hruns Hdb Hb. set (db0 := mkMigratedDb (Some (default ∅ (md_ledger db))) (md_schema db)).
  assert (migrated_to history n db0) as Hdb0.
  { destruct Hdb as (Hle & Hs & Hl). split_and!; [done..|]. cbn. destruct (md_ledger db); [done|]. by subst n. }
  destruct (apply_turns_finish runs history Hn n build db0 [] build Hruns Hdb0 Hb ltac:(by eexists) eq_refl ltac:(cbn; lia))
    as (turns & db' & Ht & Hrun & Hdb').
  exists (S turns), db'. split_and!; [lia|done|done|]. intros Hlen. destruct Hdb as (_ & -> & _), Hdb' as (_ & -> & _). do 2 f_equal. lia.
Qed.

(** An edited migration is noticed. Changing any one byte of an applied
    migration's text, whatever its length, changes its fingerprint, so the process
    that carries the edited text is refused at that migration and changes nothing. *)
Theorem edited_migration_refused runs db ledger name a x y b rest :
  md_ledger db = Some ledger → ledger !! name = Some (fingerprint (a ++ x :: b)) → x ≠ y →
  apply_turn runs NoFault db (AtLoop ((name, a ++ y :: b) :: rest)) = (Applied (Err (DbEdited name)), db).
Proof.
  intros Hl Hn Hne. cbn. rewrite Hl. cbn. unfold id. rewrite Hn. rewrite bool_decide_false; [done|].
  intros Heq. by apply Hne, (fingerprint_one_byte a x y b).
Qed.

(** [order by name] is the order of the history. *)
Lemma names_in_order : bytes_sort MIGRATION_NAMES = MIGRATION_NAMES ∧ NoDup MIGRATION_NAMES.
Proof. split; [by vm_compute|]. apply (bool_decide_unpack (NoDup _)). by vm_compute. Qed.

Module MigrateDemo.
Definition first : Migration := (ascii_bytes "0001"%string, ascii_bytes "create a"%string).
Definition second : Migration := (ascii_bytes "0002"%string, ascii_bytes "create b"%string).
Definition history : list Migration := [first; second].
Definition accepts (_ : list (list byte)) (_ : list byte) : bool := true.
Notation step := (migrate_step accepts (λ build, build `prefix_of` history)).
Lemma history_distinct : NoDup history.*1.
Proof. apply (bool_decide_unpack (NoDup _)). by vm_compute. Qed.

(** An old process applies the first migration and dies before it unlocks; a new one
    takes the lock and finds that one applied. *)
Definition locks (w : MigrateWorld) (pid : nat) (build : list Migration) : MigrateWorld :=
  mkMigrateWorld (mw_db w) (Some pid) (<[pid := Holding build (CreateLedger build)]> (mw_procs w)).
Definition turns (w : MigrateWorld) (pid : nat) (build : list Migration) (a : Applying) : MigrateWorld :=
  mkMigrateWorld (apply_turn accepts NoFault (mw_db w) a).2 (mw_lock w)
    (<[pid := Holding build (apply_turn accepts NoFault (mw_db w) a).1]> (mw_procs w)).
Definition w1 := put_proc (put_proc first_start 0 (Starting [first])) 1 (Starting history).
Definition w2 := locks w1 0 [first].
Definition w3 := turns w2 0 [first] (CreateLedger [first]).
Definition w4 := turns w3 0 [first] (AtLoop [first]).
Definition w5 := turns w4 0 [first] (Unrecorded first []).
Definition w6 := mkMigrateWorld (mw_db w5) (released (mw_lock w5) 0) (<[0%nat := Died]> (mw_procs w5)).
Definition w7 := locks w6 1 history.
Definition w8 := turns w7 1 history (CreateLedger history).
Definition w9 := turns w8 1 history (AtLoop history).
Definition w10 := turns w9 1 history (AtLoop [second]).
Definition w11 := turns w10 1 history (Unrecorded second []).
Definition w12 := turns w11 1 history (AtLoop []).
Definition w13 := mkMigrateWorld (mw_db w12) (released (mw_lock w12) 1) (<[1%nat := Finished history (Ok tt)]> (mw_procs w12)).
Lemma two_processes : rtc step first_start w13.
Proof.
  eapply rtc_l; [apply (MStart _ _ _ 0%nat [first]); [done | by exists [second]]|].
  apply (rtc_l _ _ w1); [apply (MStart _ _ _ 1%nat history); [by vm_compute | by exists []]|].
  apply (rtc_l _ _ w2); [apply (MLock _ _ w1 0%nat [first]); by vm_compute|].
  apply (rtc_l _ _ w3); [apply (MTurn _ _ w2 0%nat [first] (CreateLedger [first]) NoFault); by vm_compute|].
  apply (rtc_l _ _ w4); [apply (MTurn _ _ w3 0%nat [first] (AtLoop [first]) NoFault); by vm_compute|].
  apply (rtc_l _ _ w5); [apply (MTurn _ _ w4 0%nat [first] (Unrecorded first []) NoFault); by vm_compute|].
  apply (rtc_l _ _ w6); [apply (MDie _ _ w5 0%nat (Holding [first] (AtLoop []))); by vm_compute|].
  apply (rtc_l _ _ w7); [apply (MLock _ _ w6 1%nat history); by vm_compute|].
  apply (rtc_l _ _ w8); [apply (MTurn _ _ w7 1%nat history (CreateLedger history) NoFault); by vm_compute|].
  apply (rtc_l _ _ w9); [apply (MTurn _ _ w8 1%nat history (AtLoop history) NoFault); by vm_compute|].
  apply (rtc_l _ _ w10); [apply (MTurn _ _ w9 1%nat history (AtLoop [second]) NoFault); by vm_compute|].
  apply (rtc_l _ _ w11); [apply (MTurn _ _ w10 1%nat history (Unrecorded second []) NoFault); by vm_compute|].
  apply (rtc_l _ _ w12); [apply (MTurn _ _ w11 1%nat history (AtLoop []) NoFault); by vm_compute|].
  apply rtc_once. apply (MUnlock _ _ w12 1%nat history (Ok tt)); by vm_compute.
Qed.
Lemma migrations_run_once_in_order_witness :
  ∃ n, md_schema (mw_db w13) = (take n history).*2 ∧ history `prefix_of` take n history.
Proof.
  destruct (migrations_run_once_in_order accepts history w13 history_distinct two_processes) as (n & Hs & _ & Hf & _).
  exists n. split; [exact Hs | apply (Hf 1%nat); left; by vm_compute].
Defined.
Lemma migrate_finishes_witness :
  ∃ turns db', apply_turns accepts turns (mkMigratedDb None []) (CreateLedger history) = (Applied (Ok tt), db') ∧ md_schema db' = history.*2.
Proof.
  assert (migrated_to history 0 (mkMigratedDb None [])) as Hdb by (split_and!; [cbn; lia | done | done]).
  destruct (migrate_finishes accepts history 0 history _ history_distinct (λ _ _ _, eq_refl) Hdb ltac:(by exists [])) as (turns & db' & _ & Hrun & Hdb' & _).
  exists turns, db'. split; [exact Hrun|]. by destruct Hdb' as (_ & -> & _).
Defined.
Lemma edited_migration_refused_witness :
  apply_turn accepts NoFault (mkMigratedDb (Some {[ first.1 := fingerprint (ascii_bytes "ab"%string) ]}) [])
    (AtLoop [(first.1, ascii_bytes "ac"%string)])
  = (Applied (Err (DbEdited first.1)), mkMigratedDb (Some {[ first.1 := fingerprint (ascii_bytes "ab"%string) ]}) []).
Proof.
  apply (edited_migration_refused accepts _ {[ first.1 := fingerprint (ascii_bytes "ab"%string) ]} first.1 (ascii_bytes "a"%string) Byte.x62 Byte.x63 [] []);
    [reflexivity | by vm_compute | done].
Defined.
End MigrateDemo.
